(* ===== verification/_CoqProject ===== *)
-Q . S2P
Prelude.v
JsValue.v
Json.v
Errors.v
Pause.v
Channels.v
CheckpointStore.v
Frontier.v
Engine.v
EngineRun.v
EngineFacts.v
RunFacts.v
Timeline.v
Demo.v
EngineProps.v
ResumeProps.v
PlanProps.v
StepProps.v
RetryProps.v
DurabilityProps.v
StoreProps.v
AwakeableRef.v
Factory.v
FactoryProps.v
TimerDriver.v
Findings.v
Merkle.v
MerkleFacts.v
MerkleHash.v
MerkleProps.v
Canonical.v
AuditChain.v
AuditFacts.v
AuditBinding.v
AuditRefine.v
AuditProps.v
PruneProps.v
Calendar.v
Cron.v
CronParse.v
CronProps.v
CronZone.v
Scheduler.v
SchedulerProps.v
SchedulerFires.v
Idempotency.v
IdempotencyFacts.v
IdempotencyProps.v
IdempotencyReplay.v
Subjects.v
ReplayBuffer.v
Sanitizer.v
SanitizerProps.v
Dispatcher.v
DispatcherFacts.v
DispatcherProps.v
FanOut.v
ClientStream.v
Resume.v
Tokens.v
TokenFacts.v
TokenProps.v
AuthTokens.v
Verifier.v
VerifierProps.v
VerifierAccept.v
TokenCrud.v
TokenLife.v
Tickets.v
Dataflow.v
DataflowProps.v
FlowGuard.v
ArgPolicy.v
Executor.v
ExecutorRetry.v
ExecutorProps.v
Batch.v
AgentGates.v
Approvals.v
ApprovalProps.v
