(* ===== verification/Prelude.v ===== *)
(** * Graphorin: a verification development

    Graphorin is a TypeScript monorepo for agents.  This development models
    seven of its subsystems: the durable workflow runtime (the step-graph
    engine of [packages/workflow/src] and the channel, pause and checkpoint
    modules of [packages/core/src] it is built on), the tamper-evident audit
    log of [packages/security/src/audit] with its default database binding,
    the trigger scheduler of [packages/triggers/src] with its cron parser, the
    request idempotency of [packages/server/src/middleware], the server tokens
    of [packages/security/src/auth] with their store and the WebSocket tickets,
    the event delivery of [packages/server/src/ws] with the client's end of it,
    and the safety of tool calls: the data-flow engine and the tool-argument
    policy of [packages/security/src], their guards in [packages/agent/src], and
    the executor of [packages/tools/src/executor] that consults them.

    ** The program and its parts

    A workflow is a graph of nodes over a state of named channels.  A run
    proceeds in steps: plan the tasks that are due, run their bodies in
    parallel on a frozen snapshot, merge their channel writes, persist a
    checkpoint.  A body may pause (for a timer, an approval, an external
    event); the thread then suspends, and a later process resumes it by
    replaying the body with the answers received so far.  Failed steps are
    retried, crashed ones recovered from a step journal, checkpoints forked
    into new threads, and a polling driver fires due timers.

    The audit log is a chain of entries, each hashed over the canonical JSON of
    its fields and the hash of its predecessor.  Entries are appended (by one
    queue per handle, with a transaction or a conflict retry against other
    processes), verified, exported, and pruned from the front; a Merkle tree
    over the same entries gives inclusion and consistency proofs, and signed
    checkpoints anchor a log outside the machine that writes it.

    The trigger scheduler runs callbacks on cron expressions (in UTC or on the
    wall clock of a zone), at intervals, after idleness and on named events.  It
    keeps one timer per trigger and one persisted row, from which a restarted
    process re-arms and catches up on the fires it missed.

    The idempotency middleware executes a request that carries a key once: it
    fingerprints the request, looks the key up in a bounded cache and in a
    store, replays a recorded response to the same principal, refuses a reused
    key, and records the response of an execution.

    A server token is a prefix, an environment label, a version, 256 random bits
    in base 62 and a checksum; the store keeps its HMAC with scopes, expiry and
    revocation.  The verifier parses a presented token, looks its HMAC up in a
    bounded cache and then in the store, counts failures per address and per
    token, locks out, and caps the verifications under way.  Tokens are issued,
    revoked, rotated and re-keyed while verifications run; a verified token is
    exchanged for a single-use ticket to open a WebSocket.

    Events are emitted on subjects.  The dispatcher keeps the connections, their
    subscriptions (admitted by the scopes of the connection's token) and an
    index by subject; an event is put in a bounded, expiring replay buffer and
    sent to every subscription through a sanitizer, a schema check and a
    backpressure check.  A client reads a subscription as a stream, keeps a
    cursor, and after a lost connection asks for what it missed.

    A tool call of the model passes the executor's gates: denial by name,
    read-only capability, validation of its arguments (with one repair), a
    permission hook, approval, the argument policy, and, for a tool with side
    effects, the data-flow guard.  The guard keeps a ledger per run of what
    untrusted and secret content entered it and of the untrusted text itself;
    arguments that carry that text, or any sink once both kinds were seen, are
    blocked.  The outcome is retried when that is safe, bounded, sanitized and
    recorded in the ledger.  Batches run calls in parallel; before a reply of the
    model is committed it is inspected like a sink.  The ledger's summary is
    persisted when a run suspends and seeded when it resumes.

    The agent walks over the tool calls of a reply: a call is denied by name,
    handed to a child agent, refused by the pre-screen of the permission hook
    and the policy, parked until a person approves it, or queued for a batch of
    the executor.  A step with parked calls, or with a child that is itself
    suspended, suspends the run; a later process resumes it with a directive of
    decisions, runs what was granted between two checkpoints, and routes the
    other decisions into the parked children.

    ** Files, and the sources they model

    - [Prelude]: the [result] type, insertion-ordered maps ([jget], [jset],
      [jdel]: JavaScript records and [Map]s), strings, histories of events
      ([log_ok]), tactics and hints.
    - [JsValue], [Json]: JavaScript values, structural equality, the
      JSON-safety walker, and [JSON.stringify]/[JSON.parse] as a printer and a
      parser (what frontier tags and stored states go through).
    - [Errors]: workflow/src/errors/index.ts and the signals of core.
    - [Pause]: core/src/channels/pause.ts and durable.ts.  A node body is a
      [prog], a tree of pauses: JavaScript control up to the next [pause()]
      call; [runWithPauseResume] replays recorded answers into it.
    - [Channels]: core/src/channels/channels.ts and
      workflow/src/internal/channels.ts ([applyWrites], [mergeChannel]).
    - [CheckpointStore]: core/src/contracts/checkpoint-store.ts as the class
      [CheckpointStore] of operations and the class [CheckpointStoreSpec] of
      their laws over an abstract view (the checkpoints of each thread and
      namespace), and workflow/src/checkpoint-store-memory.ts as the module
      [Mem]; [MemRefine] proves that [Mem] satisfies the laws.  The engine's
      theorems are proved against the class.  The laws leave the order in which
      pending writes are returned open (the SQLite adapter sorts them);
      [InsertionOrder] is the law of those that keep it.
    - [Frontier], [Engine], [EngineRun]: workflow/src/internal/engine.ts and
      the types of workflow/src/types.ts.  [Frontier] holds the persisted
      frontier and its tags; [Engine] the pure half (planning, harvesting,
      the attempt loop, outcomes, the journal); [EngineRun] the effectful half
      in a state-and-error monad over the store ([persistCheckpoint],
      [driveRun], [runEngine], [resumeEngine], [forkThread]), one definition
      per branch of the source, composed as the source composes them.
    - [Factory]: workflow/src/factory.ts and inspect.ts (validation, [tick],
      read models); [TimerDriver]: workflow/src/timer-driver.ts;
      [AwakeableRef]: workflow/src/awakeable-ref.ts over UTF-16 strings.
    - [Merkle]: security/src/audit/merkle.ts, the verifiers on 32-bit
      integers; [MerkleFacts] and [MerkleHash] hold the tree lemmas.
    - [Canonical]: security/src/audit/canonical-json.ts; [AuditChain]:
      append.ts, verify-chain.ts, prune.ts and export.ts over the contract of
      audit-db.ts (class [AuditDb], its laws in [AuditFacts.AuditDbSpec]);
      [AuditBinding]: the SQL table of server/src/app-audit-binding.ts, which
      satisfies the laws ([table_spec]) and refines an abstract log
      ([AuditRefine]).
    - [Calendar]: the UTC calendar of JavaScript's [Date]; [Cron]:
      triggers/src/cron.ts, the zone's wall clock being a parameter;
      [CronParse] holds the lemmas on the grammar.
    - [Scheduler]: triggers/src/index.ts over the rows of
      store-sqlite/src/trigger-store.ts; [SchedulerProps] interleaves its
      methods.
    - [Idempotency]: server/src/middleware/idempotency.ts split at its awaits,
      the fingerprint of server/src/internal/json.ts, the rows of
      store-sqlite/src/idempotency-store.ts and the sweep of
      server/src/runtime/run-state.ts; [IdempotencyFacts] holds its lemmas.
    - [Subjects]: security/src/auth/scope.ts, server/src/ws/subjects.ts and the
      subject builder of client/src/graphorin-client.ts.
    - [Tokens]: security/src/auth/token-format.ts; [TokenFacts] holds the CRC
      as a linear map and base 62 as positional notation.
    - [AuthTokens]: core/src/contracts/auth-token-store.ts as the class
      [AuthTokenStore] with the laws [AuthTokenStoreSpec], and
      store-sqlite/src/auth-token-store.ts as the module [SqliteTokens], which
      satisfies them.
    - [Verifier]: security/src/auth/verify.ts and lru.ts, and [revokeToken] of
      crud.ts, split at their awaits; [exec] is the transition function.
      [TokenCrud]: the other operations of crud.ts.
    - [Tickets]: server/src/ws/ticket.ts.
    - [ReplayBuffer]: server/src/ws/replay-buffer.ts, with its specification.
    - [Sanitizer]: server/src/commentary/sanitizer.ts over the catalogue and
      envelopes of tools/src/outbound/commentary-patterns.ts, with the regular
      expressions the catalogue uses.
    - [Dispatcher]: server/src/ws/dispatcher.ts and the frame schemas of
      protocol/src/server-message.ts; [DispatcherFacts] holds the invariant of
      its maps.
    - [ClientStream]: the subscription object of client/src/graphorin-client.ts;
      [Resume] puts it, the replay buffer and a lossy connection together.
    - [Dataflow]: security/src/dataflow (derive.ts, ledger.ts, policy.ts and the
      types), with the lemmas on windows, tiles and spans.
      [FlowGuard]: agent/src/tooling/dataflow.ts, the map of ledgers.
    - [ArgPolicy]: security/src/policy/tool-argument-policy.ts and
      agent/src/tooling/policy.ts.
    - [Executor]: tools/src/executor/executor.ts and the phases beside it;
      [Batch]: phase-batch.ts.
    - [AgentGates]: the commit gate, the turn verdicts and the cancellation of
      agent/src/runtime/run-gates.ts, and the seeding of the ledger in
      run-init.ts.
    - [Approvals]: tool-call-walk.ts, permission.ts, dispatch.ts, handoff.ts and
      approvals.ts of agent/src/runtime, and the resume prologue of
      agent/src/factory.ts.

    ** How effects are modelled

    A computation of the engine is a function of the run's state (store,
    identifiers drawn, clock, yielded events, resume lock, internal state)
    that returns the new state even when it throws.  What the process does not
    decide is explicit: [world] is what other writers do to the store at each
    await, [newId] the identifier source, and a [StepEnv] fixes one step's
    schedule (the completion order of its parallel tasks, the attempts at
    which timeouts and aborts land).  The theorems quantify over them.  A body
    may behave differently on every attempt and context, so it is any impure
    body that settles, by itself or by its timeout.

    In the audit log, SHA-256, hexadecimal text, Ed25519 and the locale
    collation are parameters.  Statements about tampering assume that no two
    of the finitely many texts hashed by the logs at hand collide
    ([collision_free]), never that the hash is injective.  What other processes
    do to the database between the awaits of an append is again a parameter.

    A method of the scheduler is a chain of segments, the code between two
    awaits; the step relation of [SchedulerProps] runs any ready segment, due
    timer or new call next, lets time pass, and lets any store operation fail
    and any callback throw.  The idempotency middleware is treated alike: a
    request is at one of its awaits, store calls take effect when they are made
    and are answered in that order, and any of them may fail.  The scheduler's
    [sc_disabled] is its in-memory set of paused triggers, kept beside the flags
    of the rows.

    A verification or revocation of [Verifier] is suspended at one of its awaits;
    a store read happens at a step of its own, between the call and the
    resumption, and may be rejected; the labels of [exec] are the steps of
    verifications, revocations, other writers of the store, invalidations and the
    clock, in any order.  The HMAC and the outcome of the pepper strength check
    are parameters.  The operations of [TokenCrud] run alone, in a
    state-and-error monad that keeps the store an exception leaves behind.

    The dispatcher is synchronous; its step relation ([wstep] of
    [DispatcherProps]) interleaves its operations and the replays its callers
    hold, for any behaviour of the sockets ([net_buffered], [net_sends]).
    Connection and subscription ids are random tokens of the server: a step that
    introduces one requires it to be new.

    A tool call is a process that stands at one of its awaits ([Phase]), and
    [step] runs it to the next one.  What is awaited (hooks, approval, the tool
    body, the text of a bounded and sanitized result) is arbitrary, a thrown
    error included; [ExecutorProps] interleaves any number of calls with the
    agent's own use of the guard.  Unicode normalisation and the personal-data
    detector are parameters.

    The walk and the resume are functions of a [Walk] (both transcripts, the
    guard, events, batches handed over, checkpoints written).  What they call
    answers through a [Harness] of functions of the whole [Walk], arbitrary but
    for one thing: the executor answers the calls of a batch one by one, which
    [batches_answer] derives from the model of the batch.

    ** What the theorems show

    - [EngineProps] (through [EngineFacts], [RunFacts], [Timeline]): every run
      and resume ends with one report, a run within its cap of steps; the
      checkpoints of a thread stay a linear chain whatever other resumes write
      meanwhile ([peer_write]); a reported suspension or completion is what the
      store holds; a stale writer is rejected.
    - [ResumeProps], [RetryProps], [DurabilityProps]: a resumed body continues
      after its answered pause through the JSON form of its record; nothing of
      a suspension is lost; a retry and a crash recovery replay exactly the
      completed tasks (a retry in the order the store returns them); states, frontiers and JSON text round-trip; diverging
      replays are caught and rejected payloads dropped.
    - [PlanProps], [StepProps] (through [EngineFacts]): a round
      plans exactly what is due, joins wait, completion is earned, gates keep
      the round; the effect of a step without failures does not depend on completion
      order; retries of a node are bounded.
    - [Channels], [StoreProps]: merges act channel by channel and in
      batches, unique streams stay unique; retention, deletion, compaction
      and enumeration do exactly what they say on the abstract view.
    - [FactoryProps], [TimerDriver], [AwakeableRef]: validated graphs plan
      declared nodes, a tick answers the earliest due pause and fails closed,
      forks are isolated; a poll pass handles every thread, never oversleeps
      and stays a single chain; awakeable addresses round-trip.
    - [AuditProps], [PruneProps], [AuditRefine]: appends keep the chain under
      every interleaving with other appenders; verification finds the first
      break; the last hash commits to the whole log; a prune removes exactly
      the expired prefix and relinks the rest; anchors survive appends and not
      prunes; exports read back; the SQL binding refines the log.
    - [MerkleProps]: inclusion and consistency proofs are complete and sound,
      and the anchored check decides whether the live log extends the signed
      one.
    - [CronProps], [CronZone]: accepted expressions are well formed and mean
      what the grammar says; the next fire is the first match, and exists when
      one of the next 1,460 days has a match; fires in a zone show the wanted wall time
      outside gaps, and a zone of constant offset is shifted UTC.
    - [SchedulerProps], [SchedulerFires]: at most one armed timer per trigger
      under every interleaving; pauses are recorded, and a paused trigger stays
      silent until somebody enables, registers or unregisters it or starts the
      scheduler ([calm]); a fired trigger is armed again whatever its callback did;
      catch-up counts the real misses; timers are armed on time.
    - [IdempotencyProps], [IdempotencyReplay]: under every interleaving an
      execution under a key starts only when no live record stands under it (its
      requests coming from one principal with one body), a
      replay is the recorded response of the same request, and a retry within
      the lifetime of a record is answered from it; fingerprints identify
      requests.
    - [Subjects]: the subject parser accepts exactly the grammar; scope matching
      is a preorder.
    - [TokenProps]: the token parser accepts exactly the canonical shape, issued
      tokens parse back with their bytes recoverable, and the checksum catches
      every corruption of up to four consecutive characters.
    - [VerifierProps], [VerifierAccept]: caps and the
      in-flight count are exact; an accepted token was read live within the cache
      lifetime, so a revocation takes effect within it, under every interleaving
      (for records whose expiry can be read);
      bursts of failures lock their address out.
    - [TokenLife]: issuing, verifying and revoking composed; rotation revokes
      first.  [Tickets]: a ticket is worth one upgrade.
    - [ReplayBuffer]: the buffer's answers are a function of the subjects'
      complete histories.
    - [SanitizerProps]: wrapping encloses exactly the matches and is stable, for
      text without delimiters and with one kind of signature; sanitizing a frame
      rewrites string leaves only.
    - [DispatcherProps], [FanOut]: the maps agree in every reachable state;
      events reach only connections whose scopes cover the subject, and reach all
      subscriptions on it, a connection in trouble affecting no other;
      subscribing replays what was missed, after the acknowledgement.
    - [ClientStream], [Resume]: the client's stream is a queue; across dropped
      connections the consumer sees consecutive events of the history, unless
      the server has sent a replay marker or the connection was lost between a
      subscribe reply and the first frame ([lk_early]).
    - [DataflowProps], [FlowGuard]: copies of untrusted text are reported while
      it is within the budget, also after a resume; a run's flags never clear;
      runs that share the guard do not affect each other while fewer than 128
      others come up; once a run has seen untrusted and secret content, over any
      number of suspended legs, every sink and its reply are blocked.
    - [ArgPolicy]: a policy's verdict is the strongest matching effect, in
      any order of rules, and under default-deny a sensitive call needs a
      matching allow rule; denial by name agrees with it; a Rule-of-Two profile
      denies the leg it gives up.
    - [ExecutorRetry], [ExecutorProps], [Batch]: calls do not repeat side
      effects; under every interleaving a tool body starts only when all gates
      cleared exactly its arguments, and no sink starts after the trifecta; a
      batch yields one outcome per call.
    - [AgentGates]: a tainted reply is replaced by a notice everywhere it is
      kept; a verdict is never narrowed; cancellation closes what is pending.
    - [ApprovalProps]: every call of a step is answered in both transcripts,
      waits, or is parked, exactly one of them; resumes run a granted call once
      over any directives, a crash repeats the same calls, and a fully decided
      step is fully answered; the pre-screen agrees with the executor's own
      phases; the seed of a handoff is a well-formed transcript.
    - [Findings]: executable examples of behaviour that contradicts the
      sources' own comments.  [Demo] is the worked workflow of the witnesses.

    ** Bounds and fuel

    [drive] gives the loop [maxSteps + 2] iterations; [run_terminates_and_reports]
    shows that this is always enough, so no theorem is conditional on fuel.
    [JSON_parse] gets twice the text's length plus two, enough for every text
    the printer emits; [decodeURIComponent] gets the text's length, of which
    every round consumes at least one unit.  The tree recursions get the number
    of leaves; the rewrite loop of a prune gets one round per entry, of which
    every batch takes at least one.  Theorems about Merkle verifiers assume
    fewer than 2^31 entries, the range of the source's shifts.  The UTC cron
    search gets one round per minute of its horizon (2,102,401), of which every
    round consumes at least one; the bisection of a gap gets 13 rounds for the
    2,880 minutes it halves; the walk of [emit] visits as many declarations as
    its fuel, any number.  The envelope splitter and the replacement of all
    matches get one round more than the text's length: a round passes a
    delimiter or a match, and neither is empty ([split_total],
    [replace_pieces]).  The base 62 encoders get two rounds per byte, or one per
    binary digit, more than the number of digits ([encodeBase62Bytes_spec],
    [encodeBase62Integer_spec]); the eviction loop of the tickets gets one round
    per ticket and one more, enough when the cap is at least one.  The tiles of
    a span get one round per unit of its text, of which every round consumes a
    window.  A tool call passes at most thirteen phases of the model per
    configured attempt ([calls_finish]).

    ** What is not modelled

    Tracing spans, warnings and live task/custom events (they carry no
    persisted state), error messages and hints, the concurrency semaphore
    (it restricts the schedules the theorems already cover), in-place mutation
    of the frozen snapshot, a failing [putWrites], node bodies that never settle
    (they hang a run that has no timeout), consumers that abandon an
    event stream early.  Strings are 8-bit code units except in
    [AwakeableRef]; numbers are integers and the non-finite doubles; shared
    references and cycles inside values, and names inherited from
    [Object.prototype] as channel names, do not occur.  Of the audit log: opening
    the database, cipher pragmas, the binding registry and the prune log event.
    Of the triggers: the formatter cache, console warnings, the consumers of the
    event stream, payloads, and periods that are not whole milliseconds.
    Of the server: routes, sessions, the WebSocket upgrade handler and the SSE
    endpoint, metrics; of the client: transports, RPC correlation, reconnect
    timing; sanitizer catalogues configured by a deployment.  A connection lost
    between a subscribe reply and the first frame does lose events
    ([snapshot_cursor_loses_replay]).  Of the tokens: the entropy estimate of the
    pepper check (floating-point logarithms), secret values and their disposal,
    the listeners of audit events.
    Of the tool calls: how the sandbox, the memory guard and streaming run a
    body, the text passes over a result, spans and counters; of the agent: the
    provider loop around the gates and the walk, what child agents do, the
    filters of a handoff, fallback models, compaction.
    The other packages of the repository (memory, providers, channels, ...) are
    not covered; next in line are the WebSocket upgrade handler and the memory
    package's ranking. *)

From Stdlib Require Export Ascii.
From stdpp Require Export base list strings option numbers sets.

#[export] Set Default Proof Using "Type".

(** ** Results of fallible code

    A JavaScript computation that may [throw] is a [result]: [Ok] carries the
    returned value, [Err] the thrown one. *)

Inductive result (E A : Type) : Type :=
| Ok (a : A)
| Err (e : E).
Arguments Ok {E A} _.
Arguments Err {E A} _.

Definition rbind {E A B} (m : result E A) (f : A -> result E B) : result E B :=
  match m with Ok a => f a | Err e => Err e end.

Definition is_ok {E A} (r : result E A) : bool :=
  match r with Ok _ => true | Err _ => false end.

Declare Scope js_scope.
Delimit Scope js_scope with js.

Notation "'let!' x ':=' m 'in' k" := (rbind m (fun x => k))
  (at level 10, x pattern, m at level 100, k at level 200)
  : js_scope.

#[export] Instance result_eq_dec {E A} `{EqDecision E, EqDecision A} :
  EqDecision (result E A).
Proof. solve_decision. Defined.

(** Left fold with early exit, the shape of a [for ... of] loop whose body
    may throw. *)
Fixpoint foldM {E A B} (f : A -> B -> result E A) (a : A) (l : list B)
  : result E A :=
  match l with
  | [] => Ok a
  | b :: l' => rbind (f a b) (fun a' => foldM f a' l')
  end.

Lemma rbind_Ok {E A B} (m : result E A) (f : A -> result E B) b :
  rbind m f = Ok b <-> exists a, m = Ok a /\ f a = Ok b.
Proof. destruct m; simpl; naive_solver. Qed.

Lemma rbind_Err {E A B} (m : result E A) (f : A -> result E B) e :
  rbind m f = Err e <-> m = Err e \/ exists a, m = Ok a /\ f a = Err e.
Proof. destruct m; simpl; naive_solver. Qed.

Lemma foldM_app {E A B} (f : A -> B -> result E A) a l1 l2 :
  foldM f a (l1 ++ l2) = rbind (foldM f a l1) (fun a' => foldM f a' l2).
Proof.
  revert a. induction l1 as [|b l1 IH]; intros a; simpl; [done|].
  destruct (f a b); simpl; auto.
Qed.

Lemma foldM_ind {E A B} (P : A -> Prop) (f : A -> B -> result E A) l :
  (forall a b a', b ∈ l -> P a -> f a b = Ok a' -> P a') ->
  forall a a', P a -> foldM f a l = Ok a' -> P a'.
Proof.
  induction l as [|b l IH]; simpl; intros Hf a a' Ha Hfold.
  - by simplify_eq.
  - apply rbind_Ok in Hfold as (a1 & Ha1 & Hrest).
    eapply IH; [|eapply Hf; [left|exact Ha|exact Ha1]|exact Hrest].
    intros; eapply Hf; [by right| |]; eauto.
Qed.

(** ** Insertion-ordered maps

    JavaScript objects used as records of string keys and [Map]s with string
    keys iterate in insertion order, and assigning an existing key keeps its
    position.  Both are association lists with at most one entry per key. *)

Section JMap.
Context {A : Type}.
Implicit Types (m : list (string * A)) (k : string) (v : A).

Fixpoint jget k m : option A :=
  match m with
  | [] => None
  | (k', v) :: m' => if decide (k = k') then Some v else jget k m'
  end.

Fixpoint jset k v m : list (string * A) :=
  match m with
  | [] => [(k, v)]
  | (k', v') :: m' =>
      if decide (k = k') then (k, v) :: m' else (k', v') :: jset k v m'
  end.

Definition jdel k m : list (string * A) :=
  filter (fun p => p.1 <> k) m.

Definition jkeys m : list string := map fst m.

Definition jwf m : Prop := NoDup (jkeys m).

(** [{ ...a, ...b }] *)
Definition jspread (a b : list (string * A)) : list (string * A) :=
  foldl (fun acc p => jset p.1 p.2 acc) a b.

Lemma jget_jset_eq k v m : jget k (jset k v m) = Some v.
Proof.
  induction m as [|[k' v'] m IH]; simpl; [by rewrite decide_True|].
  case_decide; simpl; [by rewrite decide_True|by rewrite decide_False].
Qed.

Lemma jget_jset_ne k k' v m : k <> k' -> jget k (jset k' v m) = jget k m.
Proof.
  intros Hne. induction m as [|[k0 v0] m IH]; simpl.
  - by rewrite decide_False.
  - repeat case_decide; simpl; subst; try done;
      repeat case_decide; congruence.
Qed.

Lemma jget_jset k k' v m :
  jget k (jset k' v m) = if decide (k = k') then Some v else jget k m.
Proof.
  case_decide; subst; [apply jget_jset_eq|by apply jget_jset_ne].
Qed.

Lemma jget_Some_elem k v m : jget k m = Some v -> (k, v) ∈ m.
Proof.
  induction m as [|[k' v'] m IH]; simpl; [done|].
  case_decide; intros; simplify_eq; [by left|right; auto].
Qed.

Lemma jget_None k m : jget k m = None <-> k ∉ jkeys m.
Proof.
  induction m as [|[k' v'] m IH]; simpl; [split; [set_solver|done]|].
  case_decide; subst.
  - split; [done|]. intros H; exfalso; apply H; by left.
  - rewrite IH, not_elem_of_cons. naive_solver.
Qed.

Lemma jget_is_Some k m : is_Some (jget k m) <-> k ∈ jkeys m.
Proof.
  destruct (jget k m) eqn:E.
  - apply jget_Some_elem in E. split; [intros _|by eauto].
    apply list_elem_of_fmap. by exists (k, a).
  - apply jget_None in E. split; [by intros []|done].
Qed.

Lemma jget_elem_wf k v m : jwf m -> (k, v) ∈ m -> jget k m = Some v.
Proof.
  unfold jwf. induction m as [|[k' v'] m IH]; simpl; [set_solver|].
  intros [Hni Hnd]%NoDup_cons [Heq|Hin]%elem_of_cons; simplify_eq.
  - by rewrite decide_True.
  - rewrite decide_False; [auto|]. intros ->. apply Hni.
    apply list_elem_of_fmap. by exists (k', v).
Qed.

Lemma jkeys_jset k v m :
  jkeys (jset k v m) = if decide (k ∈ jkeys m) then jkeys m else jkeys m ++ [k].
Proof.
  induction m as [|[k' v'] m IH]; simpl; [done|].
  destruct (decide (k = k')) as [->|Hne]; simpl.
  - rewrite decide_True; [done|by left].
  - rewrite IH. repeat case_decide; set_solver.
Qed.

Lemma jset_wf k v m : jwf m -> jwf (jset k v m).
Proof.
  unfold jwf. rewrite jkeys_jset. case_decide; [done|].
  intros. apply NoDup_app. split_and!; [done|set_solver|apply NoDup_singleton].
Qed.

Lemma jset_id k v m : jget k m = Some v -> jset k v m = m.
Proof.
  induction m as [|[k' v'] m IH]; simpl; [done|].
  case_decide; intros; simplify_eq; [done|by rewrite IH].
Qed.

Lemma jset_jset k v v' m : jset k v (jset k v' m) = jset k v m.
Proof.
  induction m as [|[k0 v0] m IH]; simpl; [by rewrite decide_True|].
  case_decide; simpl; [by rewrite decide_True|]. rewrite decide_False by done.
  by rewrite IH.
Qed.

Lemma jset_fresh k v m : k ∉ jkeys m -> jset k v m = m ++ [(k, v)].
Proof.
  induction m as [|[k0 v0] m IH]; simpl; [done|].
  intros [Hne Hni]%not_elem_of_cons. rewrite decide_False by done.
  by rewrite IH.
Qed.

Lemma jget_jdel k k' m :
  jget k (jdel k' m) = if decide (k = k') then None else jget k m.
Proof.
  induction m as [|[k0 v0] m IH]; simpl; [by case_decide|].
  unfold jdel in *. rewrite filter_cons. simpl.
  repeat (case_decide; simpl; subst); try done; try congruence;
    rewrite ?IH; repeat case_decide; try done; try congruence.
Qed.

Lemma jkeys_jdel k m : jkeys (jdel k m) = filter (fun x => x <> k) (jkeys m).
Proof.
  induction m as [|[k0 v0] m IH]; simpl; [done|].
  unfold jdel in *. rewrite !filter_cons; simpl.
  case_decide; simpl; rewrite ?IH; done.
Qed.

Lemma jdel_wf k m : jwf m -> jwf (jdel k m).
Proof. unfold jwf. rewrite jkeys_jdel. apply NoDup_filter. Qed.

Lemma jget_app k (a b : list (string * A)) :
  jget k (a ++ b)%list = match jget k a with Some v => Some v | None => jget k b end.
Proof.
  induction a as [|[k' v] a IH]; simpl; [done|]. by case_decide.
Qed.

Lemma jget_jdel_all {B} k (f : B -> string) (l : list B) m :
  jget k (foldl (fun m x => jdel (f x) m) m l) =
  if decide (k ∈ map f l) then None else jget k m.
Proof.
  revert m. induction l as [|x l IH]; intros m; simpl; [done|].
  rewrite IH, jget_jdel. repeat case_decide; set_solver.
Qed.

Lemma jspread_wf a b : jwf a -> jwf (jspread a b).
Proof.
  revert a. induction b as [|[k v] b IH]; intros a Ha; simpl; [done|].
  by apply IH, jset_wf.
Qed.

Lemma jget_jspread k a b :
  jwf b ->
  jget k (jspread a b) = match jget k b with Some v => Some v | None => jget k a end.
Proof.
  unfold jwf. revert a.
  induction b as [|[k' v'] b IH]; intros a Hnd; simpl; [done|].
  apply NoDup_cons in Hnd as [Hni Hnd].
  rewrite IH by done. rewrite jget_jset. simpl.
  destruct (decide (k = k')) as [->|]; [|done].
  by rewrite (proj2 (jget_None k' b)).
Qed.
End JMap.

(** ** Shared list facts *)

Lemma find_Some_elem {A} (f : A -> bool) l x :
  List.find f l = Some x -> x ∈ l /\ f x = true.
Proof. intros [H1 H2]%List.find_some. by rewrite list_elem_of_In. Qed.

Lemma list_lookup_map {A B} (f : A -> B) (l : list A) i : map f l !! i = f <$> l !! i.
Proof. apply (list_lookup_fmap f). Qed.

Lemma existsb_true_iff {A} (f : A -> bool) l :
  existsb f l = true <-> exists x, x ∈ l /\ f x = true.
Proof. rewrite existsb_exists. setoid_rewrite list_elem_of_In. done. Qed.

Lemma filter_all {A} (P : A -> Prop) `{forall x, Decision (P x)} l : Forall P l -> filter P l = l.
Proof. induction 1 as [|x l Hx _ IH]; [done|]. by rewrite filter_cons_True, IH. Qed.

Lemma imap_index {A B} (f : nat -> A -> B) (g : B -> nat) k (l : list A) :
  (forall i x, g (f i x) = k + i) -> map g (imap f l) = seq k (length l).
Proof.
  revert f k. induction l as [|x l IH]; intros f k Hf; simpl; [done|]. f_equal.
  - by rewrite Hf, Nat.add_0_r.
  - apply (IH (f ∘ S) (S k)). intros i y. simpl. rewrite Hf. lia.
Qed.

(** ** Strings *)

Lemma str_app_nil_l (s : string) : "" +:+ s = s.
Proof. done. Qed.

Lemma str_app_cons c (s t : string) : String c s +:+ t = String c (s +:+ t).
Proof. done. Qed.

Lemma str_app_assoc (a b c : string) : (a +:+ b) +:+ c = a +:+ (b +:+ c).
Proof.
  induction a as [|x a IH]; [done|]. rewrite !str_app_cons. by rewrite IH.
Qed.

Lemma str_app_nil_r (s : string) : s +:+ "" = s.
Proof. induction s as [|c s IH]; [done|]. by rewrite str_app_cons, IH. Qed.

(** [s.slice(n)] and [s.slice(0, n)] for [0 <= n]. *)
Fixpoint str_drop (n : nat) (s : string) : string :=
  match n, s with
  | 0, _ => s
  | S n', String _ s' => str_drop n' s'
  | S _, EmptyString => EmptyString
  end.

Fixpoint str_take (n : nat) (s : string) : string :=
  match n, s with
  | S n', String c s' => String c (str_take n' s')
  | _, _ => EmptyString
  end.

(** [s.startsWith(p)] *)
Fixpoint startsWith (p s : string) : bool :=
  match p, s with
  | EmptyString, _ => true
  | String a p', String b s' => bool_decide (a = b) && startsWith p' s'
  | String _ _, EmptyString => false
  end.

(** [s.indexOf(p)], [None] for [-1]. *)
Fixpoint indexOf (p s : string) : option nat :=
  if startsWith p s then Some 0
  else match s with
       | EmptyString => None
       | String _ s' => S <$> indexOf p s'
       end.

Lemma str_drop_app p s : str_drop (String.length p) (p +:+ s) = s.
Proof. induction p as [|c p IH]; [done|]. rewrite str_app_cons. apply IH. Qed.

Lemma str_take_app p s : str_take (String.length p) (p +:+ s) = p.
Proof.
  induction p as [|c p IH]; [done|]. rewrite str_app_cons. simpl. by rewrite IH.
Qed.

Lemma startsWith_app p s : startsWith p (p +:+ s) = true.
Proof.
  induction p as [|c p IH]; [done|]. rewrite str_app_cons. simpl.
  by rewrite bool_decide_eq_true_2.
Qed.

Lemma startsWith_spec p s : startsWith p s = true -> exists r, s = p +:+ r.
Proof.
  revert s. induction p as [|a p IH]; intros [|b s]; simpl; [by eauto|by eauto|done|].
  intros [->%bool_decide_eq_true H]%andb_true_iff. apply IH in H as [r ->].
  exists r. by rewrite str_app_cons.
Qed.

(** Case conversion, [s.includes(p)] and [s.trim()] on 8-bit code units. *)
Definition ascii_upper (c : ascii) : ascii :=
  let n := nat_of_ascii c in if decide (97 <= n <= 122)%nat then ascii_of_nat (n - 32) else c.

Fixpoint str_upper (s : string) : string :=
  match s with EmptyString => EmptyString | String c s' => String (ascii_upper c) (str_upper s') end.

Definition str_includes (p s : string) : bool := bool_decide (is_Some (indexOf p s)).

Definition ascii_lower (c : ascii) : ascii :=
  let n := nat_of_ascii c in if decide (65 <= n <= 90)%nat then ascii_of_nat (n + 32) else c.

Fixpoint str_lower (s : string) : string :=
  match s with EmptyString => EmptyString | String c s' => String (ascii_lower c) (str_lower s') end.

Definition is_space (c : ascii) : bool :=
  let n := nat_of_ascii c in bool_decide (9 <= n <= 13)%nat || bool_decide (n = 32)%nat || bool_decide (n = 160)%nat.

Fixpoint trim_start (s : string) : string :=
  match s with
  | EmptyString => EmptyString
  | String c s' => if is_space c then trim_start s' else s
  end.

(** Trailing white space is dropped from the end inwards. *)
Fixpoint trim_end (s : string) : string :=
  match s with
  | EmptyString => EmptyString
  | String c s' =>
      match trim_end s' with
      | EmptyString => if is_space c then EmptyString else String c EmptyString
      | rest => String c rest
      end
  end.

Definition trim (s : string) : string := trim_end (trim_start s).

Fixpoint has_char (c : ascii) (s : string) : bool :=
  match s with
  | EmptyString => false
  | String c' s' => bool_decide (c = c') || has_char c s'
  end.

(** Text up to the first [c] is determined. *)
Lemma str_split_unique c (a b r r' : string) :
  has_char c a = false -> has_char c b = false -> a +:+ String c r = b +:+ String c r' -> a = b /\ r = r'.
Proof.
  revert b. induction a as [|x a IH]; intros [|y b]; simpl; intros Ha Hb; rewrite ?str_app_nil_l, ?str_app_cons.
  - by intros [= ->].
  - intros [= -> _]. by rewrite bool_decide_true in Hb.
  - intros [= <- _]. by rewrite bool_decide_true in Ha.
  - apply orb_false_iff in Ha as [_ Ha], Hb as [_ Hb]. intros [= -> H]. by destruct (IH b Ha Hb H) as [-> ->].
Qed.

Lemma Forall_jdel {A} (P : string * A -> Prop) k l : Forall P l -> Forall P (jdel k l).
Proof. rewrite !Forall_forall. intros H x [_ Hx]%list_elem_of_filter. by apply H. Qed.

Lemma Forall_jset {A} (P : string * A -> Prop) k v l : P (k, v) -> Forall P l -> Forall P (jset k v l).
Proof.
  intros Hv. induction 1 as [|[k' v'] l Hx Hl IH]; simpl; [by constructor|]. case_decide; by constructor.
Qed.

(** ** Histories *)

(** Every event is justified by what came before it. *)
Definition log_ok {E} (P : list E -> E -> Prop) (l : list E) : Prop := forall i e, l !! i = Some e -> P (take i l) e.

Lemma log_ok_snoc {E} (P : list E -> E -> Prop) l e : log_ok P l -> P l e -> log_ok P (l ++ [e]).
Proof.
  intros Hl He i x Hi. apply lookup_app_Some in Hi as [Hi|[Hle Hi]].
  - rewrite take_app_le by (apply lookup_lt_Some in Hi; lia). by apply Hl.
  - apply list_lookup_singleton_Some in Hi as [Hi <-]. by rewrite take_app_length' by lia.
Qed.

Lemma log_ok_neutral {E} (P : list E -> E -> Prop) l l' :
  log_ok P l -> (forall e h, e ∈ l' -> P h e) -> log_ok P (l ++ l').
Proof.
  intros Hl. induction l' as [|e l' IH] using rev_ind; intros Hn; [by rewrite app_nil_r|].
  rewrite app_assoc. apply log_ok_snoc; [apply IH; intros; apply Hn; set_solver|apply Hn; set_solver].
Qed.

Lemma log_ok_split {E} (P : list E -> E -> Prop) l1 e l2 : log_ok P (l1 ++ e :: l2) -> P l1 e.
Proof. intros Hl. specialize (Hl (length l1) e). rewrite take_app_length in Hl. apply Hl. by rewrite list_lookup_middle. Qed.

(** ** Automation *)

Create HintDb js discriminated.
#[export] Hint Resolve jset_wf jdel_wf jspread_wf : js.
#[export] Hint Rewrite @jget_jset_eq @jset_jset : js.

(** Case analysis on every [match] and [decide] of the goal, closing the easy
    branches. *)
Ltac case_all :=
  repeat (case_match || case_decide); simplify_eq/=; try done.

(** Invert a successful [rbind] chain. *)
Ltac inv_ok :=
  repeat match goal with
  | H : rbind _ _ = Ok _ |- _ =>
      let x := fresh "x" in let Hx := fresh "Hx" in
      apply rbind_Ok in H as (x & Hx & H)
  end; simplify_eq/=.
