(* ===== verification/JsValue.v ===== *)
(** * JavaScript values

    The values the runtime stores, compares and serialises: primitives,
    arrays, plain objects, and the exotic values (functions, [Map]s, class
    instances, ...) that cannot round-trip through JSON.

    Numbers are the integers the runtime computes with (step numbers, epoch
    milliseconds, indices) together with the non-finite doubles; strings are
    sequences of 8-bit code units; object keys iterate in insertion order
    (array-index-like keys, which JavaScript moves to the front, are not used
    by the runtime's own records). *)

From S2P Require Import Prelude.
From stdpp Require Import pretty.

(** ** Data *)

Inductive num :=
| NFin (z : Z)
| NNaN
| NPosInf
| NNegInf.

Inductive exotic :=
| XBigint | XFunction | XSymbol
| XMap | XSet | XDate | XRegExp | XBuffer
| XClass (name : string).

(** An exotic value carries an identity (two functions are the same only when
    they are the same object) and its own enumerable fields. *)
Inductive value :=
| VUndef
| VNull
| VBool (b : bool)
| VNum (n : num)
| VStr (s : string)
| VArr (vs : list value)
| VObj (fs : list (string * value))
| VExotic (k : exotic) (id : positive) (fs : list (string * value)).

#[export] Instance num_eq_dec : EqDecision num.
Proof. solve_decision. Defined.
#[export] Instance exotic_eq_dec : EqDecision exotic.
Proof. solve_decision. Defined.

(** Induction through arrays and objects. *)
Section ValueInd.
Variable P : value -> Prop.
Hypothesis HUndef : P VUndef.
Hypothesis HNull : P VNull.
Hypothesis HBool : forall b, P (VBool b).
Hypothesis HNum : forall n, P (VNum n).
Hypothesis HStr : forall s, P (VStr s).
Hypothesis HArr : forall vs, Forall P vs -> P (VArr vs).
Hypothesis HObj : forall fs, Forall (fun p => P p.2) fs -> P (VObj fs).
Hypothesis HExotic :
  forall k i fs, Forall (fun p => P p.2) fs -> P (VExotic k i fs).

Fixpoint value_ind' (v : value) : P v :=
  let fields :=
    fix go (fs : list (string * value)) : Forall (fun p => P p.2) fs :=
      match fs with
      | [] => Forall_nil_2 _
      | p :: fs' => Forall_cons_2 _ _ _ (value_ind' p.2) (go fs')
      end in
  match v with
  | VUndef => HUndef
  | VNull => HNull
  | VBool b => HBool b
  | VNum n => HNum n
  | VStr s => HStr s
  | VArr vs =>
      HArr vs ((fix go (vs : list value) : Forall P vs :=
        match vs with
        | [] => Forall_nil_2 _
        | x :: vs' => Forall_cons_2 _ _ _ (value_ind' x) (go vs')
        end) vs)
  | VObj fs => HObj fs (fields fs)
  | VExotic k i fs => HExotic k i fs (fields fs)
  end.
End ValueInd.

Fixpoint value_eqb (a b : value) {struct a} : bool :=
  let eqbF := fix go (xs ys : list (string * value)) : bool :=
    match xs, ys with
    | [], [] => true
    | (k, x) :: xs', (l, y) :: ys' =>
        bool_decide (k = l) && value_eqb x y && go xs' ys'
    | _, _ => false
    end in
  match a, b with
  | VUndef, VUndef => true
  | VNull, VNull => true
  | VBool x, VBool y => bool_decide (x = y)
  | VNum x, VNum y => bool_decide (x = y)
  | VStr x, VStr y => bool_decide (x = y)
  | VArr xs, VArr ys =>
      (fix go (xs ys : list value) : bool :=
         match xs, ys with
         | [], [] => true
         | x :: xs', y :: ys' => value_eqb x y && go xs' ys'
         | _, _ => false
         end) xs ys
  | VObj fs, VObj gs => eqbF fs gs
  | VExotic k i fs, VExotic l j gs =>
      bool_decide (k = l) && bool_decide (i = j) && eqbF fs gs
  | _, _ => false
  end.

Lemma value_eqb_eq a b : value_eqb a b = true <-> a = b.
Proof.
  revert b. induction a as [| | | | | vs IH | fs IH | k i fs IH] using value_ind';
    intros []; simpl; try done;
    try (rewrite bool_decide_eq_true; by split; congruence).
  - assert (forall ys, (fix go (xs ys : list value) : bool :=
         match xs, ys with
         | [], [] => true
         | x :: xs', y :: ys' => value_eqb x y && go xs' ys'
         | _, _ => false
         end) vs ys = true <-> vs = ys) as ->; [|by split; congruence].
    induction IH as [|x xs Hx _ IHxs]; intros [|y ys]; try done.
    rewrite andb_true_iff, Hx, IHxs. split; [intros [-> ->]|intros [=]]; auto.
  - assert (forall ys, (fix go (xs ys : list (string * value)) : bool :=
         match xs, ys with
         | [], [] => true
         | (k, x) :: xs', (l, y) :: ys' => bool_decide (k = l) && value_eqb x y && go xs' ys'
         | _, _ => false
         end) fs ys = true <-> fs = ys) as ->; [|by split; congruence].
    induction IH as [|[k x] xs Hx _ IHxs]; intros [|[l y] ys]; try done.
    rewrite !andb_true_iff, bool_decide_eq_true, Hx, IHxs. naive_solver.
  - assert (forall ys, (fix go (xs ys : list (string * value)) : bool :=
         match xs, ys with
         | [], [] => true
         | (k, x) :: xs', (l, y) :: ys' => bool_decide (k = l) && value_eqb x y && go xs' ys'
         | _, _ => false
         end) fs ys = true <-> fs = ys) as IH'.
    { induction IH as [|[k1 x] xs Hx _ IHxs]; intros [|[l y] ys]; try done.
      rewrite !andb_true_iff, bool_decide_eq_true, Hx, IHxs. naive_solver. }
    rewrite !andb_true_iff, !bool_decide_eq_true, IH'. naive_solver.
Qed.

#[export] Instance value_eq_dec : EqDecision value.
Proof.
  intros a b. destruct (value_eqb a b) eqn:E.
  - left. by apply value_eqb_eq.
  - right. intros ->. by rewrite (proj2 (value_eqb_eq b b) eq_refl) in E.
Defined.

(** ** Operators of the language *)

(** [typeof v]; only the classification matters. *)
Inductive js_type := TUndefined | TObject | TBoolean | TNumber | TString
                   | TBigint | TFunction | TSymbol.

#[export] Instance js_type_eq_dec : EqDecision js_type.
Proof. solve_decision. Defined.

Definition typeof (v : value) : js_type :=
  match v with
  | VUndef => TUndefined
  | VNull | VArr _ | VObj _ => TObject
  | VBool _ => TBoolean
  | VNum _ => TNumber
  | VStr _ => TString
  | VExotic XBigint _ _ => TBigint
  | VExotic XFunction _ _ => TFunction
  | VExotic XSymbol _ _ => TSymbol
  | VExotic _ _ _ => TObject
  end.

(** [Object.entries(v)] of an object or an array; no entry for a primitive. *)
Definition entries (v : value) : list (string * value) :=
  match v with
  | VObj fs | VExotic _ _ fs => fs
  | VArr vs => imap (fun i x => (pretty i, x)) vs
  | _ => []
  end.

(** [v.k] (own properties; [undefined] when absent or not an object). *)
Definition getp (k : string) (v : value) : value := default VUndef (jget k (entries v)).

(** The names every plain object inherits, which [k in o] also finds. *)
Definition OBJECT_PROTOTYPE_KEYS : list string :=
  ["constructor"; "__defineGetter__"; "__defineSetter__"; "hasOwnProperty"; "__lookupGetter__";
   "__lookupSetter__"; "isPrototypeOf"; "propertyIsEnumerable"; "toString"; "valueOf";
   "__proto__"; "toLocaleString"]%string.

(** [k in o] for a record [o] written as an object literal. *)
Definition in_object {A} (k : string) (o : list (string * A)) : bool :=
  bool_decide (k ∈ jkeys o) || bool_decide (k ∈ OBJECT_PROTOTYPE_KEYS).

(** ['args' in v], for a name no object inherits *)
Definition hasp (k : string) (v : value) : bool := bool_decide (k ∈ jkeys (entries v)).

Definition is_object (v : value) : bool :=
  bool_decide (typeof v = TObject) && negb (bool_decide (v = VNull)).

(** An optional property that is written only when its value is not
    [undefined]: [...(x !== undefined ? { k: x } : {})]. *)
Definition defined (v : value) : option value :=
  match v with VUndef => None | _ => Some v end.

Definition undef_or (o : option value) : value := default VUndef o.

(** JavaScript truthiness. *)
Definition truthy (v : value) : bool :=
  match v with
  | VUndef | VNull | VBool false | VNum NNaN | VNum (NFin 0) | VStr EmptyString => false
  | _ => true
  end.

(** [structuredClone(v)]: functions and symbols raise a [DataCloneError];
    class instances lose their prototype. *)
Fixpoint cloneable (v : value) : bool :=
  match v with
  | VArr vs => forallb cloneable vs
  | VObj fs => forallb (fun p => cloneable p.2) fs
  | VExotic XFunction _ _ | VExotic XSymbol _ _ => false
  | VExotic _ _ fs => forallb (fun p => cloneable p.2) fs
  | _ => true
  end.

Fixpoint structuredClone (v : value) : value :=
  match v with
  | VArr vs => VArr (map structuredClone vs)
  | VObj fs => VObj (map (fun p => (p.1, structuredClone p.2)) fs)
  | VExotic (XClass _) _ fs => VObj (map (fun p => (p.1, structuredClone p.2)) fs)
  | VExotic k i fs => VExotic k i (map (fun p => (p.1, structuredClone p.2)) fs)
  | _ => v
  end.

(** ** Structural equality of [packages/workflow/src/internal/channels.ts]

    [Object.is] on two arrays or two plain objects holds only for the same
    reference, and then the structural comparison holds too, so it is decided
    here by structure; exotic values are compared by identity. *)

Fixpoint deepEqual (a b : value) {struct a} : bool :=
  match a with
  | VUndef => bool_decide (b = VUndef)
  | VNull => bool_decide (b = VNull)
  | VBool x => bool_decide (b = VBool x)
  | VNum x => bool_decide (b = VNum x)
  | VStr x => bool_decide (b = VStr x)
  | VArr xs =>
      match b with
      | VArr ys =>
          (fix every (xs ys : list value) : bool :=
             match xs, ys with
             | [], [] => true
             | x :: xs', y :: ys' => deepEqual x y && every xs' ys'
             | _, _ => false
             end) xs ys
      | _ => false
      end
  | VObj fs =>
      match b with
      | VObj gs | VExotic _ _ gs =>
          bool_decide (typeof b = TObject) &&
          bool_decide (length fs = length gs) &&
          forallb (fun p => deepEqual p.2 (default VUndef (jget p.1 gs))) fs
      | _ => false
      end
  | VExotic k i fs =>
      match b with
      | VExotic k' i' gs =>
          (bool_decide (k = k') && bool_decide (i = i')) ||
          (bool_decide (typeof a = TObject) && bool_decide (typeof b = TObject) &&
           bool_decide (length fs = length gs) &&
           forallb (fun p => deepEqual p.2 (default VUndef (jget p.1 gs))) fs)
      | VObj gs =>
          bool_decide (typeof a = TObject) &&
          bool_decide (length fs = length gs) &&
          forallb (fun p => deepEqual p.2 (default VUndef (jget p.1 gs))) fs
      | _ => false
      end
  end.

(** ** JSON safety: [findNonJsonSafe] of [engine.ts]

    The path and kind of the first value [JSON.stringify] would degrade.  The
    [seen] set of the source reports a reference met twice; a value here is a
    tree, so it is never consulted. *)

Definition exotic_kind (k : exotic) : string :=
  match k with
  | XBigint => "bigint"
  | XFunction => "function"
  | XSymbol => "symbol"
  | XMap => "Map"
  | XSet => "Set"
  | XDate => "Date"
  | XRegExp => "RegExp"
  | XBuffer => "binary buffer"
  | XClass n => "class instance (" +:+ n +:+ ")"
  end.

Fixpoint findNonJsonSafe (v : value) (path : string) : option (string * string) :=
  match v with
  | VNull | VUndef | VStr _ | VBool _ => None
  | VNum (NFin _) => None
  | VNum _ => Some (path, "non-finite number")
  | VArr vs =>
      (fix go (i : nat) (vs : list value) : option (string * string) :=
         match vs with
         | [] => None
         | x :: vs' =>
             match findNonJsonSafe x (path +:+ "[" +:+ pretty i +:+ "]") with
             | Some o => Some o
             | None => go (S i) vs'
             end
         end) 0 vs
  | VExotic k _ _ => Some (path, exotic_kind k)
  | VObj fs =>
      (fix go (fs : list (string * value)) : option (string * string) :=
         match fs with
         | [] => None
         | (k, x) :: fs' =>
             match findNonJsonSafe x (path +:+ "." +:+ k) with
             | Some o => Some o
             | None => go fs'
             end
         end) fs
  end.

(** ** Well-formedness and safety as predicates *)

(** Every object has distinct keys: an invariant of JavaScript objects. *)
Fixpoint vwf (v : value) : bool :=
  match v with
  | VArr vs => forallb vwf vs
  | VObj fs | VExotic _ _ fs =>
      bool_decide (NoDup (jkeys fs)) && forallb (fun p => vwf p.2) fs
  | _ => true
  end.

(** Only JSON-representable leaves ([undefined] tolerated). *)
Fixpoint jsafe (v : value) : bool :=
  match v with
  | VUndef | VNull | VBool _ | VStr _ | VNum (NFin _) => true
  | VNum _ | VExotic _ _ _ => false
  | VArr vs => forallb jsafe vs
  | VObj fs => forallb (fun p => jsafe p.2) fs
  end.

(** No [undefined] anywhere. *)
Fixpoint vdef (v : value) : bool :=
  match v with
  | VUndef => false
  | VArr vs => forallb vdef vs
  | VObj fs | VExotic _ _ fs => forallb (fun p => vdef p.2) fs
  | _ => true
  end.

Lemma findNonJsonSafe_None v path : findNonJsonSafe v path = None <-> jsafe v = true.
Proof.
  revert path. induction v as [| | | [] | | vs IH | fs IH | k i fs IH] using value_ind';
    intros path; simpl; try done.
  - generalize 0. induction IH as [|x vs Hx HF IHvs]; intros i; simpl; [done|].
    destruct (findNonJsonSafe x _) eqn:E.
    + split; [done|]. intros [Hs _]%andb_true_iff.
      by rewrite (proj2 (Hx _) Hs) in E.
    + apply Hx in E. rewrite E. simpl. apply IHvs.
  - induction IH as [|[k x] fs Hx HF IHfs]; simpl in *; [done|].
    destruct (findNonJsonSafe x _) eqn:E.
    + split; [done|]. intros [Hs _]%andb_true_iff.
      by rewrite (proj2 (Hx _) Hs) in E.
    + apply Hx in E. rewrite E. simpl. apply IHfs.
Qed.

Lemma jsafe_cloneable v : jsafe v = true -> cloneable v = true /\ structuredClone v = v.
Proof.
  induction v as [| | | | | vs IH | fs IH | k i fs IH] using value_ind';
    simpl; try done.
  - induction IH as [|x vs Hx HF IHvs]; simpl; [done|].
    intros [H1 H2]%andb_true_iff.
    destruct (Hx H1) as [-> ->], (IHvs H2) as [-> Hm]. by simplify_eq/=; rewrite Hm.
  - induction IH as [|[k x] fs Hx HF IHfs]; simpl in *; [done|].
    intros [H1 H2]%andb_true_iff.
    destruct (Hx H1) as [-> ->], (IHfs H2) as [-> Hm]. simplify_eq/=. by rewrite Hm.
Qed.

(** ** Laws of [deepEqual] *)

Lemma deepEqual_arr_every xs ys :
  deepEqual (VArr xs) (VArr ys) = true <-> Forall2 (fun x y => deepEqual x y = true) xs ys.
Proof.
  simpl. revert ys. induction xs as [|x xs IH]; intros [|y ys]; simpl.
  - by split.
  - by split; [|inversion 1].
  - by split; [|inversion 1].
  - by rewrite andb_true_iff, IH, Forall2_cons.
Qed.

(** On values a checkpoint can hold the comparison is reflexive. *)
Lemma deepEqual_refl v : vwf v = true -> deepEqual v v = true.
Proof.
  induction v as [| | | | | vs IH | fs IH | k i fs IH] using value_ind'; intros Hwf;
    try (by apply bool_decide_eq_true_2).
  - apply deepEqual_arr_every. simpl in Hwf.
    induction IH as [|x vs Hx HF IHvs]; [constructor|]. simpl in Hwf.
    apply andb_true_iff in Hwf as [H1 H2]. constructor; auto.
  - simpl in *. apply andb_true_iff in Hwf as [Hnd Hwf].
    apply bool_decide_eq_true in Hnd.
    rewrite !bool_decide_eq_true_2 by done. simpl.
    apply forallb_forall. intros [k x] Hin. simpl.
    apply list_elem_of_In in Hin.
    rewrite (jget_elem_wf k x fs Hnd Hin). simpl.
    rewrite Forall_forall in IH. apply (IH _ Hin).
    rewrite forallb_forall in Hwf. by apply (Hwf (k, x)), list_elem_of_In.
  - simpl. rewrite (bool_decide_eq_true_2 (k = k)), (bool_decide_eq_true_2 (i = i)) by done. done.
Qed.
