(* ===== verification/Json.v ===== *)
(** * JSON text

    [JSON.stringify] and [JSON.parse] as the runtime uses them: the compact
    text of a JSON-safe value, a parser for JSON documents whose numbers are
    integers, and the round trip [JSON_roundtrip] between the two.

    [undefined] is not representable: a property holding it is dropped and an
    array element holding it becomes [null]; [jnorm] is that degradation. *)

From S2P Require Import Prelude JsValue.
From Stdlib Require Import Ascii Decimal DecimalZ.

Local Open Scope string_scope.

Definition c_quote : ascii := "034"%char.
Definition c_bslash : ascii := "092"%char.

Definition is_undef (v : value) : bool := match v with VUndef => true | _ => false end.

(** ** Printing

    Every printer takes the text that follows, so concatenation never has to
    be re-associated. *)

Fixpoint pr_uint (u : Decimal.uint) (k : string) : string :=
  match u with
  | Decimal.Nil => k
  | Decimal.D0 u => String "0" (pr_uint u k)
  | Decimal.D1 u => String "1" (pr_uint u k)
  | Decimal.D2 u => String "2" (pr_uint u k)
  | Decimal.D3 u => String "3" (pr_uint u k)
  | Decimal.D4 u => String "4" (pr_uint u k)
  | Decimal.D5 u => String "5" (pr_uint u k)
  | Decimal.D6 u => String "6" (pr_uint u k)
  | Decimal.D7 u => String "7" (pr_uint u k)
  | Decimal.D8 u => String "8" (pr_uint u k)
  | Decimal.D9 u => String "9" (pr_uint u k)
  end.

Definition pr_Z (z : Z) (k : string) : string :=
  match Z.to_int z with
  | Decimal.Pos u => pr_uint u k
  | Decimal.Neg u => String "-" (pr_uint u k)
  end.

Definition hex_digit (n : nat) : ascii :=
  if decide (n < 10) then ascii_of_nat (48 + n) else ascii_of_nat (87 + n).

(** One code unit inside a JSON string. *)
Definition pr_char (c : ascii) (k : string) : string :=
  let n := nat_of_ascii c in
  if decide (c = c_quote) then String c_bslash (String c_quote k)
  else if decide (c = c_bslash) then String c_bslash (String c_bslash k)
  else if decide (32 <= n) then String c k
  else if decide (n = 8) then String c_bslash (String "b" k)
  else if decide (n = 9) then String c_bslash (String "t" k)
  else if decide (n = 10) then String c_bslash (String "n" k)
  else if decide (n = 12) then String c_bslash (String "f" k)
  else if decide (n = 13) then String c_bslash (String "r" k)
  else String c_bslash (String "u" (String "0" (String "0"
         (String (hex_digit (n / 16)) (String (hex_digit (n mod 16)) k))))).

Fixpoint pr_chars (s : string) (k : string) : string :=
  match s with
  | EmptyString => k
  | String c s' => pr_char c (pr_chars s' k)
  end.

Definition pr_str (s : string) (k : string) : string :=
  String c_quote (pr_chars s (String c_quote k)).

(** The text of a value.  Exotic values never reach it: the engine serialises
    only what [findNonJsonSafe] accepted. *)
Fixpoint pr (v : value) (k : string) : string :=
  match v with
  | VUndef | VNull | VNum NNaN | VNum NPosInf | VNum NNegInf | VExotic _ _ _ => "null" +:+ k
  | VBool true => "true" +:+ k
  | VBool false => "false" +:+ k
  | VNum (NFin z) => pr_Z z k
  | VStr s => pr_str s k
  | VArr vs =>
      String "[" ((fix go (first : bool) (vs : list value) : string :=
        match vs with
        | [] => String "]" k
        | x :: vs' =>
            if first then pr x (go false vs') else String "," (pr x (go false vs'))
        end) true vs)
  | VObj fs =>
      String "{" ((fix go (first : bool) (fs : list (string * value)) : string :=
        match fs with
        | [] => String "}" k
        | (key, x) :: fs' =>
            if is_undef x then go first fs'
            else if first then pr_str key (String ":" (pr x (go false fs')))
            else String "," (pr_str key (String ":" (pr x (go false fs'))))
        end) true fs)
  end.

Definition JSON_stringify (v : value) : string := pr v "".

(** ** Parsing *)

Fixpoint skip_ws (s : string) : string :=
  match s with
  | String c s' =>
      if decide (nat_of_ascii c ∈ [32; 9; 10; 13]) then skip_ws s' else s
  | _ => s
  end.

Definition digit_of (c : ascii) : option (Decimal.uint -> Decimal.uint) :=
  match nat_of_ascii c - 48, bool_decide (48 <= nat_of_ascii c) with
  | 0, true => Some Decimal.D0
  | 1, true => Some Decimal.D1
  | 2, true => Some Decimal.D2
  | 3, true => Some Decimal.D3
  | 4, true => Some Decimal.D4
  | 5, true => Some Decimal.D5
  | 6, true => Some Decimal.D6
  | 7, true => Some Decimal.D7
  | 8, true => Some Decimal.D8
  | 9, true => Some Decimal.D9
  | _, _ => None
  end.

Fixpoint parse_uint (s : string) : Decimal.uint * string :=
  match s with
  | String c s' =>
      match digit_of c with
      | Some d => let (u, r) := parse_uint s' in (d u, r)
      | None => (Decimal.Nil, s)
      end
  | EmptyString => (Decimal.Nil, s)
  end.

(** No leading zeros, at least one digit. *)
Definition lead_ok (u : Decimal.uint) : bool :=
  match u with
  | Decimal.Nil => false
  | Decimal.D0 Decimal.Nil => true
  | Decimal.D0 _ => false
  | _ => true
  end.

(** A fraction or an exponent leaves the integers and is refused. *)
Definition num_end (s : string) : bool :=
  match s with
  | String c _ => negb (bool_decide (c ∈ ["."%char; "e"%char; "E"%char]))
  | EmptyString => true
  end.

Definition parse_num (s : string) : option (value * string) :=
  let fin (neg : bool) (p : Decimal.uint * string) :=
    if lead_ok p.1 && num_end p.2
    then Some (VNum (NFin (Z.of_int (if neg then Decimal.Neg p.1 else Decimal.Pos p.1))), p.2)
    else None in
  match s with
  | String c s' =>
      if decide (c = "-"%char) then fin true (parse_uint s') else fin false (parse_uint s)
  | EmptyString => None
  end.

Definition hex_val (c : ascii) : option nat :=
  let n := nat_of_ascii c in
  if decide (48 <= n <= 57) then Some (n - 48)
  else if decide (97 <= n <= 102) then Some (n - 87)
  else if decide (65 <= n <= 70) then Some (n - 55)
  else None.

(** The rest of a string literal, after its opening quote.  Code units above
    255 are outside the string model and refused. *)
Fixpoint parse_str (s : string) : option (string * string) :=
  let push (c : ascii) (r : option (string * string)) :=
    match r with Some (t, rest) => Some (String c t, rest) | None => None end in
  match s with
  | EmptyString => None
  | String c s1 =>
      if decide (c = c_quote) then Some (EmptyString, s1)
      else if decide (c = c_bslash) then
        match s1 with
        | String e s2 =>
            if decide (e = c_quote) then push c_quote (parse_str s2)
            else if decide (e = c_bslash) then push c_bslash (parse_str s2)
            else if decide (e = "/"%char) then push "/"%char (parse_str s2)
            else if decide (e = "b"%char) then push (ascii_of_nat 8) (parse_str s2)
            else if decide (e = "t"%char) then push (ascii_of_nat 9) (parse_str s2)
            else if decide (e = "n"%char) then push (ascii_of_nat 10) (parse_str s2)
            else if decide (e = "f"%char) then push (ascii_of_nat 12) (parse_str s2)
            else if decide (e = "r"%char) then push (ascii_of_nat 13) (parse_str s2)
            else if decide (e = "u"%char) then
              match s2 with
              | String h1 (String h2 (String h3 (String h4 s3))) =>
                  match hex_val h1, hex_val h2, hex_val h3, hex_val h4 with
                  | Some 0, Some 0, Some a, Some b =>
                      push (ascii_of_nat (16 * a + b)) (parse_str s3)
                  | _, _, _, _ => None
                  end
              | _ => None
              end
            else None
        | EmptyString => None
        end
      else if decide (32 <= nat_of_ascii c) then push c (parse_str s1)
      else None
  end.

Fixpoint strip (p s : string) : option string :=
  match p, s with
  | EmptyString, _ => Some s
  | String a p', String b s' => if decide (a = b) then strip p' s' else None
  | _, _ => None
  end.

Definition parse_lit (s : string) : option (value * string) :=
  match strip "null" s, strip "true" s, strip "false" s with
  | Some r, _, _ => Some (VNull, r)
  | _, Some r, _ => Some (VBool true, r)
  | _, _, Some r => Some (VBool false, r)
  | _, _, _ => None
  end.

Fixpoint parse_value (fuel : nat) (s : string) : option (value * string) :=
  match fuel with
  | 0 => None
  | S f =>
      match skip_ws s with
      | EmptyString => None
      | String c s' =>
          if decide (c = c_quote) then
            match parse_str s' with Some (t, r) => Some (VStr t, r) | None => None end
          else if decide (c = "["%char) then
            match skip_ws s' with
            | String "]" r => Some (VArr [], r)
            | _ => match parse_elems f s' with
                   | Some (vs, r) => Some (VArr vs, r)
                   | None => None
                   end
            end
          else if decide (c = "{"%char) then
            match skip_ws s' with
            | String "}" r => Some (VObj [], r)
            | _ => match parse_fields f s' with
                   | Some (fs, r) => Some (VObj (jspread [] fs), r)
                   | None => None
                   end
            end
          else if decide (c = "-"%char) then parse_num (String c s')
          else match digit_of c with
               | Some _ => parse_num (String c s')
               | None => parse_lit (String c s')
               end
      end
  end
with parse_elems (fuel : nat) (s : string) : option (list value * string) :=
  match fuel with
  | 0 => None
  | S f =>
      match parse_value f s with
      | Some (v, r) =>
          match skip_ws r with
          | String "," r' =>
              match parse_elems f r' with
              | Some (vs, r'') => Some (v :: vs, r'')
              | None => None
              end
          | String "]" r' => Some ([v], r')
          | _ => None
          end
      | None => None
      end
  end
with parse_fields (fuel : nat) (s : string) : option (list (string * value) * string) :=
  match fuel with
  | 0 => None
  | S f =>
      match skip_ws s with
      | String q s1 =>
          if decide (q = c_quote) then
            match parse_str s1 with
            | Some (key, r) =>
                match skip_ws r with
                | String ":" r1 =>
                    match parse_value f r1 with
                    | Some (v, r2) =>
                        match skip_ws r2 with
                        | String "," r3 =>
                            match parse_fields f r3 with
                            | Some (fs, r4) => Some ((key, v) :: fs, r4)
                            | None => None
                            end
                        | String "}" r3 => Some ([(key, v)], r3)
                        | _ => None
                        end
                    | None => None
                    end
                | _ => None
                end
            | None => None
            end
          else None
      | EmptyString => None
      end
  end.

(** Two units of fuel per character are enough: a call that consumes nothing
    is always followed by one that does. *)
Definition JSON_parse (s : string) : option value :=
  match parse_value (2 * String.length s + 2) s with
  | Some (v, r) => if decide (skip_ws r = "") then Some v else None
  | None => None
  end.

(** The degradation [JSON.stringify] applies to [undefined]. *)
Fixpoint jnorm (v : value) : value :=
  match v with
  | VUndef => VNull
  | VArr vs => VArr (map jnorm vs)
  | VObj fs =>
      VObj (flat_map (fun p => if is_undef p.2 then [] else [(p.1, jnorm p.2)]) fs)
  | _ => v
  end.

(** ** The round trip *)

Fixpoint pr_elems (first : bool) (vs : list value) (k : string) : string :=
  match vs with
  | [] => String "]" k
  | x :: vs' =>
      if first then pr x (pr_elems false vs' k) else String "," (pr x (pr_elems false vs' k))
  end.

Fixpoint pr_fields (first : bool) (fs : list (string * value)) (k : string) : string :=
  match fs with
  | [] => String "}" k
  | (key, x) :: fs' =>
      if is_undef x then pr_fields first fs' k
      else if first then pr_str key (String ":" (pr x (pr_fields false fs' k)))
      else String "," (pr_str key (String ":" (pr x (pr_fields false fs' k))))
  end.

Lemma pr_arr vs k : pr (VArr vs) k = String "[" (pr_elems true vs k).
Proof.
  destruct vs as [|x vs]; [done|]. simpl. do 2 f_equal.
  induction vs as [|y vs IH]; simpl; [done|]. by rewrite IH.
Qed.

Lemma pr_obj fs k : pr (VObj fs) k = String "{" (pr_fields true fs k).
Proof.
  simpl. f_equal. induction fs as [|[key x] fs IH]; simpl; [done|].
  destruct (is_undef x); [apply IH|]. clear IH. do 3 f_equal.
  induction fs as [|[key' y] fs IH]; simpl; [done|].
  destruct (is_undef y); [apply IH|]. by rewrite IH.
Qed.

(** What may follow a value inside a document. *)
Definition tail_ok (k : string) : bool :=
  match k with
  | EmptyString => true
  | String c _ => bool_decide (c ∈ [","%char; "]"%char; "}"%char])
  end.

Lemma tail_ok_cases k :
  tail_ok k = true ->
  k = "" \/ exists k', k = String "," k' \/ k = String "]" k' \/ k = String "}" k'.
Proof.
  destruct k as [|c k]; simpl; [by left|]. rewrite bool_decide_eq_true.
  intros Hc. right. exists k. set_solver.
Qed.

Lemma parse_uint_pr u k :
  tail_ok k = true -> parse_uint (pr_uint u k) = (u, k).
Proof.
  intros Hk. induction u as [|u IH|u IH|u IH|u IH|u IH|u IH|u IH|u IH|u IH|u IH];
    simpl; try (by rewrite IH).
  apply tail_ok_cases in Hk as [->|(k' & [->|[->| ->]])]; done.
Qed.

Lemma Z_to_int_lead z :
  match Z.to_int z with Decimal.Pos u | Decimal.Neg u => lead_ok u = true end.
Proof.
  pose proof (DecimalZ.of_to z) as Hof.
  pose proof (DecimalZ.to_of (Z.to_int z)) as Hto. rewrite Hof in Hto.
  destruct (Z.to_int z) as [u|u]; simpl in Hto.
  - assert (u = Decimal.unorm u) as Hn by congruence.
    unfold Decimal.unorm in Hn. rewrite Hn.
    destruct (Decimal.nzhead u) as [|v| | | | | | | | |] eqn:E; try done.
    exfalso. by apply (DecimalFacts.nzhead_nonzero u v).
  - destruct (Decimal.nzhead u) as [|v| | | | | | | | |] eqn:E; try done.
    all: injection Hto as ->; try done.
    exfalso. eapply DecimalFacts.nzhead_nonzero, E.
Qed.

Lemma parse_num_pr z k :
  tail_ok k = true -> parse_num (pr_Z z k) = Some (VNum (NFin z), k).
Proof.
  intros Hk. unfold pr_Z. pose proof (Z_to_int_lead z) as Hl.
  pose proof (DecimalZ.of_to z) as Hof.
  assert (num_end k = true) as He.
  { by apply tail_ok_cases in Hk as [->|(k' & [->|[->| ->]])]. }
  destruct (Z.to_int z) as [u|u].
  - assert (parse_num (pr_uint u k) =
      (let p := parse_uint (pr_uint u k) in
       if lead_ok p.1 && num_end p.2
       then Some (VNum (NFin (Z.of_int (Decimal.Pos p.1))), p.2) else None)) as ->.
    { by destruct u. }
    rewrite parse_uint_pr by done. simpl. rewrite Hl, He. simpl.
    simpl in Hof. by rewrite Hof.
  - simpl. rewrite parse_uint_pr by done. simpl. rewrite Hl, He. simpl.
    simpl in Hof. by rewrite Hof.
Qed.

Lemma parse_str_char c k :
  parse_str (pr_char c k) =
  match parse_str k with Some (t, r) => Some (String c t, r) | None => None end.
Proof. by destruct c as [[] [] [] [] [] [] [] []]. Qed.

Lemma parse_str_pr s k :
  parse_str (pr_chars s (String c_quote k)) = Some (s, k).
Proof.
  induction s as [|c s IH]; simpl; [done|]. by rewrite parse_str_char, IH.
Qed.

(** The first character of a printed value. *)
Definition head_ok (s : string) : Prop :=
  match s with
  | String c _ => c ∉ ["]"%char; "}"%char; " "%char; "009"%char; "010"%char; "013"%char]
  | EmptyString => False
  end.

Lemma head_ok_skip s : head_ok s -> skip_ws s = s.
Proof.
  destruct s as [|c s]; simpl; [done|]. intros Hc. rewrite decide_False; [done|].
  intros Hin. apply Hc. revert Hin. clear Hc.
  destruct c as [[] [] [] [] [] [] [] []]; vm_compute nat_of_ascii; intros Hin;
    repeat (apply elem_of_cons in Hin as [Hin|Hin]; [try discriminate Hin; try set_solver|]);
    by apply not_elem_of_nil in Hin.
Qed.

Lemma pr_Z_head z k :
  exists c s, pr_Z z k = String c s /\
    (c = "-"%char \/ is_Some (digit_of c)) /\
    c ∉ [c_quote; "["%char; "{"%char; "]"%char; "}"%char; " "%char; "009"%char; "010"%char; "013"%char].
Proof.
  unfold pr_Z. pose proof (Z_to_int_lead z) as Hl. destruct (Z.to_int z) as [u|u].
  - destruct u; simpl in *; [done|..]; eexists _, _; (split; [done|]);
      (split; [right; by vm_compute; eauto|]); vm_compute; set_solver.
  - eexists _, _; (split; [done|]); (split; [by left|]). vm_compute. set_solver.
Qed.

Lemma pr_head v k : head_ok (pr v k).
Proof.
  destruct v as [| | [] | [] | | | |]; try (simpl; vm_compute; set_solver).
  simpl. destruct (pr_Z_head z k) as (c & s & -> & _ & Hc). simpl. set_solver.
Qed.

Lemma pr_uint_length u k : String.length k <= String.length (pr_uint u k).
Proof. induction u; simpl; lia. Qed.

Lemma pr_chars_length s k : String.length k <= String.length (pr_chars s k).
Proof.
  induction s as [|c s IH]; simpl; [lia|].
  assert (forall x, String.length x <= String.length (pr_char c x)) as Hc.
  { intros x. unfold pr_char. repeat case_decide; simpl; lia. }
  etrans; [exact IH|apply Hc].
Qed.

Lemma pr_length v k : String.length k < String.length (pr v k).
Proof.
  revert k. induction v as [| | [] | [z| | |] | s | vs IH | fs IH | ek ei fs IH] using value_ind';
    intros k; try (unfold pr, String.append; simpl; lia).
  - simpl. unfold pr_Z. pose proof (Z_to_int_lead z) as Hl.
    destruct (Z.to_int z) as [u|u].
    + destruct u; simpl in *; try done; (apply Nat.lt_succ_r, pr_uint_length).
    + simpl. pose proof (pr_uint_length u k). lia.
  - simpl. unfold pr_str. simpl. pose proof (pr_chars_length s (String c_quote k)).
    simpl in *. lia.
  - rewrite pr_arr. simpl. apply Nat.lt_lt_succ_r.
    set (b := true). generalize b. clear b.
    induction IH as [|x vs Hx _ IH]; intros b; simpl; [lia|].
    specialize (IH false). specialize (Hx (pr_elems false vs k)).
    destruct b; simpl; lia.
  - rewrite pr_obj. simpl. apply Nat.lt_lt_succ_r.
    set (b := true). generalize b. clear b.
    induction IH as [|[key x] fs Hx _ IH]; intros b; simpl in *; [lia|].
    destruct (is_undef x); [apply IH|].
    specialize (IH false). specialize (Hx (pr_fields false fs k)).
    pose proof (pr_chars_length key
      (String c_quote (String ":" (pr x (pr_fields false fs k))))) as Hc.
    unfold pr_str. destruct b; simpl in *; lia.
Qed.

Lemma pr_elems_length b vs k : String.length k < String.length (pr_elems b vs k).
Proof.
  revert b. induction vs as [|x vs IH]; intros b; simpl; [lia|].
  pose proof (pr_length x (pr_elems false vs k)). specialize (IH false).
  destruct b; simpl; lia.
Qed.

Lemma pr_fields_length b fs k : String.length k < String.length (pr_fields b fs k).
Proof.
  revert b. induction fs as [|[key x] fs IH]; intros b; simpl; [lia|].
  destruct (is_undef x); [apply IH|].
  pose proof (pr_length x (pr_fields false fs k)). specialize (IH false).
  pose proof (pr_chars_length key
      (String c_quote (String ":" (pr x (pr_fields false fs k))))) as Hc.
  unfold pr_str. destruct b; simpl in *; lia.
Qed.

(** [parse_value] undoes [pr], leaving what follows. *)
Definition parses (v : value) : Prop :=
  forall k f, tail_ok k = true ->
    2 * String.length (pr v k) < f + 2 * String.length k ->
    parse_value f (pr v k) = Some (jnorm v, k).

Lemma pr_elems_tail vs k : tail_ok (pr_elems false vs k) = true.
Proof. by destruct vs. Qed.

Lemma pr_fields_tail fs k : tail_ok (pr_fields false fs k) = true.
Proof.
  induction fs as [|[key x] fs IH]; simpl; [done|]. by destruct (is_undef x).
Qed.

Lemma parse_elems_pr x vs k f :
  parses x -> Forall parses vs ->
  2 * String.length (pr x (pr_elems false vs k)) < f + 2 * String.length k ->
  parse_elems f (pr x (pr_elems false vs k)) = Some (jnorm x :: map jnorm vs, k).
Proof.
  intros Hx Hvs. revert x Hx f.
  induction Hvs as [|y vs Hy Hvs IH]; intros x Hx f Hf.
  - pose proof (pr_length x (String "]" k)) as HX.
    destruct f as [|f]; [simpl in *; lia|]. simpl.
    rewrite Hx; [done|done|]. simpl in *. lia.
  - pose proof (pr_elems_length false (y :: vs) k) as HT.
    pose proof (pr_length x (pr_elems false (y :: vs) k)) as HX.
    assert (exists T, pr_elems false (y :: vs) k = T) as [T ET] by eauto.
    rewrite ET in *. destruct f as [|f]; [lia|].
    cbn [parse_elems]. rewrite Hx; [|rewrite <-ET; done|lia]. subst T. simpl.
    rewrite (IH y Hy); [done|]. simpl in *. lia.
Qed.

Definition keep_defined (fs : list (string * value)) : list (string * value) :=
  flat_map (fun p => if is_undef p.2 then [] else [(p.1, jnorm p.2)]) fs.

Lemma parse_fields_pr key x fs k f :
  parses x -> Forall (fun p => parses p.2) fs ->
  2 * String.length (pr_str key (String ":" (pr x (pr_fields false fs k))))
    < f + 2 * String.length k ->
  parse_fields f (pr_str key (String ":" (pr x (pr_fields false fs k)))) =
    Some ((key, jnorm x) :: keep_defined fs, k).
Proof.
  intros Hx Hfs. revert key x Hx f.
  induction Hfs as [|[key' y] fs Hy Hfs IH]; intros key x Hx f Hf.
  - pose proof (pr_length x (String "}" k)) as HX. unfold pr_str in *.
    pose proof (pr_chars_length key (String c_quote (String ":" (pr x (String "}" k))))) as HC.
    destruct f as [|f]; [simpl in *; lia|].
    simpl pr_fields. simpl parse_fields. rewrite parse_str_pr. simpl.
    rewrite Hx; [done|done|]. simpl in *. lia.
  - simpl in Hf |- *. destruct (is_undef y) eqn:Eu; [by apply IH|].
    set (T := pr_fields false fs k) in *.
    set (U := String "," (pr_str key' (String ":" (pr y T)))) in *.
    pose proof (pr_length x U) as HX. unfold pr_str in Hf.
    assert (String.length k < String.length U) as HU.
    { pose proof (pr_fields_length false fs k). pose proof (pr_length y T).
      pose proof (pr_chars_length key' (String c_quote (String ":" (pr y T)))).
      unfold U, T, pr_str in *. simpl in *. lia. }
    pose proof (pr_chars_length key (String c_quote (String ":" (pr x U)))) as HC.
    destruct f as [|f]; [simpl in *; lia|].
    unfold pr_str at 1. simpl parse_fields. rewrite parse_str_pr. simpl.
    rewrite Hx; [|done|simpl in *; lia]. unfold U at 1. simpl.
    unfold T. rewrite (IH key' y Hy); [done|]. unfold U, T in *. simpl in *. lia.
Qed.

Lemma jspread_app_wf (pre fs : list (string * value)) :
  jwf (pre ++ fs)%list -> jspread pre fs = (pre ++ fs)%list.
Proof.
  revert pre. induction fs as [|[k v] fs IH]; intros pre Hwf; simpl.
  - by rewrite app_nil_r.
  - rewrite jset_fresh.
    + rewrite IH; by rewrite <-app_assoc.
    + unfold jwf, jkeys in Hwf. rewrite map_app in Hwf. apply NoDup_app in Hwf as (_ & H & _).
      intros Hin. apply (H k Hin). by left.
Qed.

Lemma keep_defined_keys k fs : k ∈ jkeys (keep_defined fs) -> k ∈ jkeys fs.
Proof.
  induction fs as [|[key x] fs IH]; simpl; [done|].
  destruct (is_undef x); simpl; rewrite ?elem_of_cons; naive_solver.
Qed.

Lemma keep_defined_wf fs : jwf fs -> jwf (keep_defined fs).
Proof.
  unfold jwf. induction fs as [|[key x] fs IH]; simpl; [done|].
  intros [Hni Hnd]%NoDup_cons. destruct (is_undef x); simpl; [auto|].
  apply NoDup_cons. split; [|auto]. by intros ?%keep_defined_keys.
Qed.

Lemma head_ok_not_bracket c t :
  head_ok (String c t) -> c <> "]"%char /\ c <> "}"%char.
Proof. simpl. set_solver. Qed.

Lemma parse_value_arr f s :
  head_ok s ->
  parse_value (S f) (String "[" s) =
    match parse_elems f s with Some (vs, r) => Some (VArr vs, r) | None => None end.
Proof.
  intros Hh. change (parse_value (S f) (String "[" s)) with
    (match skip_ws s with
     | String "]" r => Some (VArr [], r)
     | _ => match parse_elems f s with Some (vs, r) => Some (VArr vs, r) | None => None end
     end).
  rewrite (head_ok_skip s Hh). destruct s as [|c t]; [done|].
  apply head_ok_not_bracket in Hh as [Hc _].
  by destruct c as [[] [] [] [] [] [] [] []].
Qed.

Lemma parse_value_obj f s :
  head_ok s ->
  parse_value (S f) (String "{" s) =
    match parse_fields f s with
    | Some (fs, r) => Some (VObj (jspread [] fs), r)
    | None => None
    end.
Proof.
  intros Hh. change (parse_value (S f) (String "{" s)) with
    (match skip_ws s with
     | String "}" r => Some (VObj [], r)
     | _ => match parse_fields f s with
            | Some (fs, r) => Some (VObj (jspread [] fs), r) | None => None end
     end).
  rewrite (head_ok_skip s Hh). destruct s as [|c t]; [done|].
  apply head_ok_not_bracket in Hh as [_ Hc].
  by destruct c as [[] [] [] [] [] [] [] []].
Qed.

(** Skipping leading [undefined] properties: what [pr_fields] prints first. *)
Lemma pr_fields_first fs k :
  (keep_defined fs = [] /\ pr_fields true fs k = String "}" k) \/
  exists pre key x fs', fs = (pre ++ (key, x) :: fs')%list /\ is_undef x = false /\
    keep_defined fs = (key, jnorm x) :: keep_defined fs' /\
    pr_fields true fs k = pr_str key (String ":" (pr x (pr_fields false fs' k))).
Proof.
  induction fs as [|[key x] fs IH]; simpl; [by left|].
  destruct (is_undef x) eqn:E; simpl.
  - destruct IH as [IH|(pre & key' & y & fs' & -> & H)]; [by left|right].
    by exists ((key, x) :: pre), key', y, fs'.
  - right. by exists [], key, x, fs.
Qed.

Lemma parses_obj fs :
  Forall (fun p => parses p.2) fs -> jwf fs -> parses (VObj fs).
Proof.
  intros Hall Hwf k f Hk Hf. rewrite pr_obj in *.
  destruct f as [|f];
    [pose proof (pr_fields_length true fs k); simpl in *; lia|].
  apply keep_defined_wf in Hwf as Hkd.
  destruct (pr_fields_first fs k) as [[Hnil Hpr]|(pre & key & x & fs' & -> & Hu & Hkeep & Hpr)];
    rewrite Hpr in *.
  - change (jnorm (VObj fs)) with (VObj (keep_defined fs)). by rewrite Hnil.
  - apply Forall_app in Hall as [_ [Hx Hall]%Forall_cons].
    rewrite parse_value_obj by (simpl; set_solver).
    simpl in Hf. rewrite parse_fields_pr; [|done|done|simpl in *; lia].
    change (jnorm (VObj ?l)) with (VObj (keep_defined l)).
    rewrite <-Hkeep, jspread_app_wf by done. done.
Qed.

Lemma parses_arr vs : Forall parses vs -> parses (VArr vs).
Proof.
  intros Hall k f Hk Hf. rewrite pr_arr in *.
  destruct f as [|f];
    [pose proof (pr_elems_length true vs k); simpl in *; lia|].
  destruct vs as [|x vs]; [done|]. apply Forall_cons in Hall as [Hx Hall].
  simpl pr_elems in *. rewrite parse_value_arr by apply pr_head.
  simpl in Hf. by rewrite parse_elems_pr; [|done|done|lia].
Qed.

Lemma parses_all v : jsafe v = true -> vwf v = true -> parses v.
Proof.
  induction v as [| | b | [z| | |] | s | vs IH | fs IH | ek ei fs IH] using value_ind';
    simpl; intros Hs Hwf; try done.
  - intros k [|f] Hk Hf; [unfold pr, String.append in Hf; simpl in *; lia|done].
  - intros k [|f] Hk Hf; [unfold pr, String.append in Hf; simpl in *; lia|done].
  - intros k [|f] Hk Hf; [pose proof (pr_length (VBool b) k); lia|by destruct b].
  - intros k [|f] Hk Hf; [pose proof (pr_length (VNum (NFin z)) k); lia|].
    cbn [parse_value]. rewrite head_ok_skip by apply pr_head. simpl pr.
    destruct (pr_Z_head z k) as (c & s & Hpr & Hc & Hne).
    pose proof (parse_num_pr z k Hk) as Hp. rewrite Hpr in *.
    rewrite !decide_False by set_solver.
    destruct (decide (c = "-"%char)); [done|].
    destruct Hc as [?|[d ->]]; done.
  - intros k [|f] Hk Hf; [pose proof (pr_length (VStr s) k); lia|].
    change (parse_value (S f) (pr (VStr s) k)) with
      (match parse_str (pr_chars s (String c_quote k)) with
       | Some (t, r) => Some (VStr t, r) | None => None end).
    by rewrite parse_str_pr.
  - apply parses_arr. rewrite forallb_forall in Hs, Hwf. rewrite Forall_forall in IH |- *.
    intros y Hy. apply IH; [done| |]; [apply Hs|apply Hwf]; by apply list_elem_of_In.
  - apply andb_true_iff in Hwf as [Hnd Hwf]. apply bool_decide_eq_true in Hnd.
    apply parses_obj; [|done]. rewrite forallb_forall in Hs, Hwf.
    rewrite Forall_forall in IH |- *.
    intros p Hp. apply IH; [done| |]; [apply Hs|apply Hwf]; by apply list_elem_of_In.
Qed.

(** [JSON.parse(JSON.stringify(v))] is [v] up to the loss of [undefined]. *)
Lemma JSON_roundtrip v :
  jsafe v = true -> vwf v = true -> JSON_parse (JSON_stringify v) = Some (jnorm v).
Proof.
  intros Hs Hwf. unfold JSON_parse, JSON_stringify.
  rewrite (parses_all v Hs Hwf "") by (simpl; lia || done). done.
Qed.

(** Nothing is lost on a value without [undefined]. *)
Lemma jnorm_vdef v : vdef v = true -> jsafe v = true -> jnorm v = v.
Proof.
  induction v as [| | b | [z| | |] | s | vs IH | fs IH | ek ei fs IH] using value_ind';
    simpl; intros Hd Hs; try done.
  - f_equal. induction IH as [|x vs Hx _ IHvs]; simpl in *; [done|].
    apply andb_true_iff in Hd as [], Hs as []. by rewrite Hx, IHvs.
  - f_equal. induction IH as [|[k x] fs Hx _ IHfs]; simpl in *; [done|].
    apply andb_true_iff in Hd as [Hd1 Hd2], Hs as [Hs1 Hs2].
    destruct (is_undef x) eqn:E; [by destruct x|]. simpl. by rewrite Hx, IHfs.
Qed.
