(* ===== verification/Errors.v ===== *)
(** * Everything the workflow runtime throws

    The classes of [packages/workflow/src/errors/index.ts], the two signals of
    [packages/core/src/channels/pause.ts], the payload error of [durable.ts]
    and the store's [CheckpointConflictError], with the [code] discriminator
    consumers match on. *)

From S2P Require Import Prelude JsValue.

Local Open Scope string_scope.

(** [PauseIdentity]: the durable-primitive kind and the awakeable name. *)
Record identity := Identity {
  id_kind : option string;
  id_name : option string;
}.

Definition no_identity : identity := Identity None None.

#[export] Instance identity_eq_dec : EqDecision identity.
Proof. solve_decision. Defined.

(** Checkpoint statuses. *)
Inductive status := Running | Suspended | Completed | Failed | Aborted.

#[export] Instance status_eq_dec : EqDecision status.
Proof. solve_decision. Defined.

Inductive exn :=
(* signals and plain errors *)
| PauseSignal (v : value)
| ReplayDivergenceSignal (expected actual : identity) (cursor : nat)
| AwakeablePayloadError (awakeableName issues : string)
| TypeError (msg : string)
| PlainError (msg : string)
| CheckpointConflictError (threadId : string) (expected actual : option string)
(* WorkflowError and its subclasses *)
| WorkflowError (code msg : string)
| InvalidWorkflowConfigError (msg : string)
| InvalidChannelWriteError (nodeName channel : string)
| MultiWriteError (channel : string) (writers : list string)
| UnknownNodeError (nodeName context : string)
| ThreadNotFoundError (threadId : string)
| CheckpointNotFoundError (threadId checkpointId : string)
| ConcurrentResumeError (threadId : string)
| ResumeWithoutSuspensionError (threadId : string) (st : status)
| WorkflowAbortedError (threadId : string)
| NodeExecutionError (nodeName : string) (cause : exn)
| NodeTimeoutError (nodeName : string) (timeoutMs : Z)
| WorkflowVersionMismatchError (threadId stored current : string)
| WorkflowDivergenceError (threadId : string) (missing : list string)
| PauseNotFoundError (threadId pauseName : string)
| CheckpointVersionConflictError (threadId expectedParent actualLatest : string)
| DeadEndError (workflowName : string) (stalled : list string)
| StateNotSerializableError (channel path kind : string)
| ReducerError (channel : string) (cause : exn).

(** [err.code], for the values that are [instanceof WorkflowError]. *)
Definition code_of (e : exn) : option string :=
  match e with
  | PauseSignal _ | ReplayDivergenceSignal _ _ _ | AwakeablePayloadError _ _
  | TypeError _ | PlainError _ | CheckpointConflictError _ _ _ => None
  | WorkflowError c _ => Some c
  | InvalidWorkflowConfigError _ => Some "invalid-config"
  | InvalidChannelWriteError _ _ => Some "invalid-channel-write"
  | MultiWriteError _ _ => Some "multi-write-into-latest-value"
  | UnknownNodeError _ _ => Some "unknown-node"
  | ThreadNotFoundError _ => Some "thread-not-found"
  | CheckpointNotFoundError _ _ => Some "checkpoint-not-found"
  | ConcurrentResumeError _ => Some "concurrent-resume-rejected"
  | ResumeWithoutSuspensionError _ _ => Some "resume-without-suspension"
  | WorkflowAbortedError _ => Some "workflow-aborted"
  | NodeExecutionError _ _ => Some "node-execution-failed"
  | NodeTimeoutError _ _ => Some "node-timeout"
  | WorkflowVersionMismatchError _ _ _ => Some "workflow-version-mismatch"
  | WorkflowDivergenceError _ _ => Some "workflow-divergence"
  | PauseNotFoundError _ _ => Some "pause-not-found"
  | CheckpointVersionConflictError _ _ _ => Some "checkpoint-version-conflict"
  | DeadEndError _ _ => Some "dead-end"
  | StateNotSerializableError _ _ _ => Some "state-not-serializable"
  | ReducerError _ _ => Some "reducer-failed"
  end.

(** [err instanceof WorkflowError] *)
Definition isWorkflowError (e : exn) : bool := bool_decide (is_Some (code_of e)).
