(* ===== verification/Pause.v ===== *)
(** * pause / resume and the durable primitives

    [packages/core/src/channels/pause.ts] and [durable.ts].  A node body is
    user code; what the runtime can observe of one invocation is the sequence
    of its [pause(...)] calls and its result, so a body is a [prog]: it
    returns, throws, or calls [pause] and continues with the answer.  The
    resume scope that [runWithPauseResume] installs is the list of answers,
    their recorded identities and a cursor. *)

From S2P Require Import Prelude JsValue Errors.

Local Open Scope string_scope.

Inductive prog :=
| PRet (output : value)
| PThrow (e : exn)
| PPause (v : value) (k : value -> prog).

(** [identityOfPauseValue]: generic field access. *)
Definition identityOfPauseValue (v : value) : identity :=
  if is_object v then
    Identity (match getp "kind" v with VStr s => Some s | _ => None end)
             (match getp "name" v with VStr s => Some s | _ => None end)
  else no_identity.

(** The comparison inside [pause]: [expected] diverges from [actual]. *)
Definition diverges (expected actual : identity) : bool :=
  (bool_decide (is_Some (id_kind expected)) &&
   negb (bool_decide (id_kind expected = id_kind actual))) ||
  (bool_decide (is_Some (id_name expected)) &&
   negb (bool_decide (id_name expected = id_name actual))).

(** [scope.meta?.[cursor]]: absent, [null], or an identity. *)
Definition meta_at (meta : option (list (option identity))) (cursor : nat) : option identity :=
  match meta with
  | Some ms => match ms !! cursor with Some o => o | None => None end
  | None => None
  end.

(** [pause(value)] in a scope holding [values] and [meta]. *)
Definition pause (values : list value) (meta : option (list (option identity)))
    (cursor : nat) (v : value) : result exn value :=
  match values !! cursor with
  | Some next =>
      match meta_at meta cursor with
      | Some expected =>
          let actual := identityOfPauseValue v in
          if diverges expected actual
          then Err (ReplayDivergenceSignal expected actual cursor)
          else Ok next
      | None => Ok next
      end
  | None => Err (PauseSignal v)
  end.

(** Running a body from [cursor]; [runWithPauseResume] starts it at 0. *)
Fixpoint run_from (values : list value) (meta : option (list (option identity)))
    (cursor : nat) (p : prog) : result exn value :=
  match p with
  | PRet o => Ok o
  | PThrow e => Err e
  | PPause v k =>
      match pause values meta cursor v with
      | Ok a => run_from values meta (S cursor) (k a)
      | Err e => Err e
      end
  end.

Definition runWithPauseResume (values : list value)
    (meta : option (list (option identity))) (p : prog) : result exn value :=
  run_from values meta 0 p.

(** Outside any scope every [pause] throws. *)
Definition run_unscoped (p : prog) : result exn value := run_from [] None 0 p.

Definition isPauseSignal (e : exn) : option value :=
  match e with PauseSignal v => Some v | _ => None end.

(** ** Durable primitives *)

Definition TIMER_PAUSE_KIND := "graphorin.timer".
Definition AWAKEABLE_PAUSE_KIND := "graphorin.awakeable".
Definition APPROVAL_PAUSE_KIND := "graphorin.approval".

Definition DEFAULT_APPROVAL_TIMEOUT_DECISION : value :=
  VObj [("granted", VBool false); ("reason", VStr "defer-timeout")].

Definition isTimerPauseValue (v : value) : bool :=
  is_object v && bool_decide (getp "kind" v = VStr TIMER_PAUSE_KIND) &&
  bool_decide (typeof (getp "wakeAt" v) = TNumber).

Definition isAwakeablePauseValue (v : value) : bool :=
  is_object v && bool_decide (getp "kind" v = VStr AWAKEABLE_PAUSE_KIND) &&
  bool_decide (typeof (getp "name" v) = TString).

Definition isApprovalPauseValue (v : value) : bool :=
  is_object v && bool_decide (getp "kind" v = VStr APPROVAL_PAUSE_KIND) &&
  bool_decide (typeof (getp "name" v) = TString).

Definition timer_value (wakeAt : num) : value :=
  VObj [("kind", VStr TIMER_PAUSE_KIND); ("wakeAt", VNum wakeAt)].

Definition awakeable_value (name : string) : value :=
  VObj [("kind", VStr AWAKEABLE_PAUSE_KIND); ("name", VStr name)].

Definition isFinite (n : num) : bool := match n with NFin _ => true | _ => false end.

(** [sleepUntil(at)]; [at] is the instant after [Date.parse]/[getTime]. *)
Definition sleepUntil (wakeAt : num) (k : prog) : prog :=
  if isFinite wakeAt then PPause (timer_value wakeAt) (fun _ => k)
  else PThrow (TypeError "sleepUntil(...) got an unparseable instant").

Definition sleepFor (now : Z) (ms : num) (k : prog) : prog :=
  match ms with
  | NFin z =>
      if decide (z < 0)%Z then PThrow (TypeError "sleepFor(...) needs a non-negative duration")
      else sleepUntil (NFin (now + z)) k
  | _ => PThrow (TypeError "sleepFor(...) needs a non-negative duration")
  end.

(** A schema's [safeParse]: the parsed data or the issue message. *)
Definition payload_schema := value -> result string value.

Definition awaitExternal (name : string) (schema : option payload_schema)
    (k : value -> prog) : prog :=
  if decide (name = "") then PThrow (TypeError "awaitExternal(name) needs a non-empty name")
  else PPause (awakeable_value name) (fun v =>
    match schema with
    | Some safeParse =>
        match safeParse v with
        | Ok data => k data
        | Err issues => PThrow (AwakeablePayloadError name issues)
        end
    | None => k v
    end).

Definition opt_field (k : string) (o : option value) : list (string * value) :=
  match o with Some v => [(k, v)] | None => [] end.

Definition approval_value (name : string) (payload : option value)
    (timeoutAt : option num) (timeoutDecision : option value) : value :=
  VObj ([("kind", VStr APPROVAL_PAUSE_KIND); ("name", VStr name)] ++
        opt_field "payload" payload ++
        opt_field "wakeAt" (VNum <$> timeoutAt) ++
        opt_field "timeoutDecision" timeoutDecision).

Definition requestApproval (name : string) (payload : option value)
    (timeoutAt : option num) (timeoutDecision : option value)
    (k : value -> prog) : prog :=
  if decide (name = "") then PThrow (TypeError "requestApproval(name) needs a non-empty name")
  else match timeoutAt with
       | Some n =>
           if isFinite n then PPause (approval_value name payload timeoutAt timeoutDecision) k
           else PThrow (TypeError "requestApproval(...) got an unparseable timeoutAt")
       | None => PPause (approval_value name payload None timeoutDecision) k
       end.

(** ** The specification of replay

    [feed p answers] is the body after its first [length answers] pauses have
    been answered, [None] when it stops pausing before the answers run out;
    [asked p answers] are the values it paused with on the way. *)

Fixpoint feed (p : prog) (answers : list value) {struct answers} : option prog :=
  match answers with
  | [] => Some p
  | a :: answers' =>
      match p with
      | PPause _ k => feed (k a) answers'
      | _ => None
      end
  end.

Fixpoint asked (p : prog) (answers : list value) {struct answers} : list value :=
  match answers with
  | [] => []
  | a :: answers' =>
      match p with
      | PPause v k => v :: asked (k a) answers'
      | _ => []
      end
  end.

(** The recorded identities admit the pauses the body makes. *)
Definition admits (meta : option (list (option identity))) (pauses : list value) : Prop :=
  forall i v e, pauses !! i = Some v -> meta_at meta i = Some e ->
    diverges e (identityOfPauseValue v) = false.

Lemma pause_beyond values meta cursor v :
  length values <= cursor -> pause values meta cursor v = Err (PauseSignal v).
Proof. intros H. unfold pause. by rewrite lookup_ge_None_2. Qed.

Lemma run_from_beyond values meta cursor p :
  length values <= cursor -> run_from values meta cursor p = run_unscoped p.
Proof.
  intros H. unfold run_unscoped.
  destruct p as [| |v k]; simpl; [done|done|]. by rewrite pause_beyond.
Qed.

(** Replaying admitted answers leaves exactly the residual body to run. *)
Lemma run_from_feed values meta n p q :
  n <= length values ->
  feed p (drop n values) = Some q ->
  (forall i v e, asked p (drop n values) !! i = Some v -> meta_at meta (n + i) = Some e ->
     diverges e (identityOfPauseValue v) = false) ->
  run_from values meta n p = run_unscoped q.
Proof.
  intros Hn. remember (length values - n) as d eqn:Hd. revert n p Hn Hd.
  induction d as [|d IH]; intros n p Hn Hd Hfeed Hadm.
  - rewrite drop_ge in Hfeed by lia. simpl in Hfeed. injection Hfeed as <-. apply run_from_beyond; lia.
  - destruct (lookup_lt_is_Some_2 values n) as [a Ha]; [lia|].
    rewrite (drop_S values a n Ha) in Hfeed, Hadm. simpl in Hfeed.
    destruct p as [| |v k]; try done. simpl in Hadm |- *.
    unfold pause. rewrite Ha.
    assert (match meta_at meta n with
            | Some expected =>
                if diverges expected (identityOfPauseValue v)
                then Err (ReplayDivergenceSignal expected (identityOfPauseValue v) n)
                else Ok a
            | None => Ok a
            end = Ok a) as ->.
    { destruct (meta_at meta n) as [e|] eqn:E; [|done].
      rewrite (Hadm 0 v e); [done|done|by rewrite Nat.add_0_r]. }
    apply IH; [lia|lia|done|].
    intros i w e Hi He. apply (Hadm (S i) w e); [done|]. by rewrite Nat.add_succ_r.
Qed.

Lemma runWithPauseResume_feed values meta p q :
  feed p values = Some q -> admits meta (asked p values) ->
  runWithPauseResume values meta p = run_unscoped q.
Proof.
  intros Hf Ha. unfold runWithPauseResume. apply run_from_feed; [lia|by rewrite drop_0|].
  intros i v e. rewrite drop_0. apply Ha.
Qed.

Lemma feed_app p xs ys :
  feed p (xs ++ ys)%list = match feed p xs with Some q => feed q ys | None => None end.
Proof.
  revert p. induction xs as [|x xs IH]; intros p; simpl; [done|].
  destruct p; [done|done|apply IH].
Qed.

Lemma asked_app p xs ys q :
  feed p xs = Some q -> asked p (xs ++ ys)%list = (asked p xs ++ asked q ys)%list.
Proof.
  revert p. induction xs as [|x xs IH]; intros p; simpl; [by intros [= ->]|].
  destruct p as [| |v k]; [done|done|]. intros H. simpl. f_equal. by apply IH.
Qed.

Lemma asked_length p xs q : feed p xs = Some q -> length (asked p xs) = length xs.
Proof.
  revert p. induction xs as [|x xs IH]; intros p; simpl; [done|].
  destruct p as [| |v k]; [done|done|]. intros H. simpl. f_equal. by eapply IH.
Qed.
