(* ===== verification/Channels.v ===== *)
(** * Channels and the per-step merge

    The descriptors of [packages/core/src/channels/channels.ts] and the merge
    of [packages/workflow/src/internal/channels.ts]: every write of a step is
    grouped by channel and folded by the channel's kind. *)

From S2P Require Import Prelude JsValue Errors.

Local Open Scope string_scope.

(** ** Descriptors *)

Inductive channel :=
| LatestValue (dflt : option value)
| AnyValue (dflt : option value)
| Reducer (reduce : value -> value -> result exn value) (dflt : option value)
| ListAggregate (dflt : option (list value))
| Stream (unique : bool) (dflt : option (list value))
| Barrier (from : list string) (dflt : option value)
| Ephemeral (dflt : option value).

Definition opts_default (opts : option value) : option value := opts ≫= defined.

Definition latestValue (opts : option value) : channel := LatestValue (opts_default opts).
Definition anyValue (opts : option value) : channel := AnyValue (opts_default opts).
Definition reducer (f : value -> value -> result exn value) (opts : option value) : channel :=
  Reducer f (opts_default opts).
Definition listAggregate (opts : option (list value)) : channel := ListAggregate opts.
Definition stream (unique : option bool) (dflt : option (list value)) : channel :=
  Stream (default false unique) dflt.
Definition barrier (from : list string) (opts : option value) : channel :=
  Barrier from (opts_default opts).
Definition ephemeral (opts : option value) : channel := Ephemeral (opts_default opts).

(** [descriptor.default] *)
Definition channel_default (c : channel) : option value :=
  match c with
  | LatestValue d | AnyValue d | Reducer _ d | Barrier _ d | Ephemeral d => d
  | ListAggregate d | Stream _ d => VArr <$> d
  end.

Definition is_ephemeral (c : channel) : bool :=
  match c with Ephemeral _ => true | _ => false end.

Definition TASKS_CHANNEL := "__graphorin_tasks__".

Record ChannelWrite := mkWrite {
  cw_nodeName : string;
  cw_taskId : string;
  cw_index : nat;
  cw_channel : string;
  cw_value : value;
}.

Notation jstate := (list (string * value)).
Notation jversions := (list (string * nat)).

Record ApplyResult := mkApply {
  ar_state : jstate;
  ar_versions : jversions;
  ar_changed : list string;
  ar_ephemeral : jstate;
}.

(** ** The merge of one channel *)

Definition groupByChannel (writes : list ChannelWrite) : list (string * list ChannelWrite) :=
  foldl (fun out w =>
    let l := default [] (jget (cw_channel w) out) in
    jset (cw_channel w) (l ++ [w])%list out) [] writes.

Definition items_of (v : value) : list value :=
  match v with VArr items => items | _ => [v] end.

Definition list_of (before : option value) : list value :=
  match before with Some (VArr vs) => vs | _ => [] end.

Definition push_item (unique : bool) (acc : list value) (item : value) : list value :=
  if unique && existsb (fun existing => deepEqual existing item) acc
  then acc else (acc ++ [item])%list.

(** [isPlainObject(before) ? { ...before } : {}] *)
Definition record_of (before : option value) : jstate :=
  match before with
  | Some (VObj fs) => fs
  | Some (VExotic k i fs) =>
      if decide (typeof (VExotic k i fs) = TObject) then fs else []
  | _ => []
  end.

Definition mergeChannel (channelName : string) (descriptor : channel)
    (before : option value) (writes : list ChannelWrite) : result exn value :=
  match descriptor with
  | LatestValue _ =>
      if decide (1 < length writes)
      then Err (MultiWriteError channelName (map cw_nodeName writes))
      else Ok (undef_or (cw_value <$> head writes))
  | AnyValue _ | Ephemeral _ => Ok (undef_or (cw_value <$> last writes))
  | Reducer reduce _ =>
      match foldM (fun acc w => reduce acc (cw_value w)) (undef_or before) writes with
      | Ok acc => Ok acc
      | Err err => Err (ReducerError channelName err)
      end
  | ListAggregate _ =>
      Ok (VArr (foldl (fun acc w => (acc ++ items_of (cw_value w))%list) (list_of before) writes))
  | Stream unique _ =>
      Ok (VArr (foldl (fun acc w => foldl (push_item unique) acc (items_of (cw_value w)))
                      (list_of before) writes))
  | Barrier from _ =>
      Ok (VObj (foldl (fun m w =>
             if decide (cw_nodeName w ∈ from) then jset (cw_nodeName w) (cw_value w) m else m)
           (record_of before) writes))
  end.

(** ** The merge of a step *)

Definition descriptor_of (channels : list (string * channel)) (name : string) : option channel :=
  if decide (name = TASKS_CHANNEL) then Some (Stream false None) else jget name channels.

Record merge_acc := mkAcc {
  ma_next : jstate;
  ma_versions : jversions;
  ma_changed : list string;
  ma_ephemeral : list string;
}.

Definition apply_group (channels : list (string * channel)) (acc : merge_acc)
    (g : string * list ChannelWrite) : result exn merge_acc :=
  let '(channelName, writes) := g in
  match descriptor_of channels channelName with
  | None =>
      Err (InvalidChannelWriteError (default "<unknown>" (cw_nodeName <$> head writes)) channelName)
  | Some descriptor =>
      match mergeChannel channelName descriptor (jget channelName (ma_next acc)) writes with
      | Err e => Err e
      | Ok merged =>
          Ok (mkAcc (jset channelName merged (ma_next acc))
                    (jset channelName (S (default 0 (jget channelName (ma_versions acc))))
                          (ma_versions acc))
                    (ma_changed acc ++ [channelName])
                    (if is_ephemeral descriptor then ma_ephemeral acc ++ [channelName]
                     else ma_ephemeral acc))
      end
  end.

Definition applyWrites (state : jstate) (versions : jversions)
    (channels : list (string * channel)) (writes : list ChannelWrite) : result exn ApplyResult :=
  match foldM (apply_group channels) (mkAcc state versions [] []) (groupByChannel writes) with
  | Err e => Err e
  | Ok acc =>
      let '(next, eph) :=
        foldl (fun '(next, eph) key => (jdel key next, jset key (undef_or (jget key next)) eph))
              (ma_next acc, []) (ma_ephemeral acc) in
      Ok (mkApply next (ma_versions acc) (ma_changed acc) eph)
  end.

Definition buildInitialState (channels : list (string * channel))
    (initial inputState : jstate) : jstate :=
  let put_defined := fun st (p : string * value) =>
    if decide (p.2 = VUndef) then st else jset p.1 p.2 st in
  let state0 := foldl (fun st (p : string * channel) =>
    match channel_default p.2 with
    | Some d => if decide (d = VUndef) then st else jset p.1 d st
    | None => st
    end) [] channels in
  foldl put_defined (foldl put_defined state0 initial) inputState.

(** ** Grouping *)

Definition chan_writes (c : string) (ws : list ChannelWrite) : list ChannelWrite :=
  filter (fun w => cw_channel w = c) ws.

Lemma groupByChannel_snoc ws w :
  groupByChannel (ws ++ [w])%list =
  jset (cw_channel w) (default [] (jget (cw_channel w) (groupByChannel ws)) ++ [w])%list
       (groupByChannel ws).
Proof. unfold groupByChannel. by rewrite foldl_app. Qed.

Lemma groupByChannel_wf ws : jwf (groupByChannel ws).
Proof.
  induction ws as [|w ws IH] using rev_ind; [constructor|].
  rewrite groupByChannel_snoc. by apply jset_wf.
Qed.

Lemma chan_writes_snoc c ws w :
  chan_writes c (ws ++ [w])%list =
  if decide (cw_channel w = c) then (chan_writes c ws ++ [w])%list else chan_writes c ws.
Proof.
  unfold chan_writes. rewrite filter_app, filter_cons, filter_nil.
  case_decide; [done|]. by rewrite app_nil_r.
Qed.

Lemma jget_groupByChannel c ws :
  jget c (groupByChannel ws) =
  match chan_writes c ws with [] => None | l => Some l end.
Proof.
  induction ws as [|w ws IH] using rev_ind; [done|].
  rewrite groupByChannel_snoc, chan_writes_snoc, jget_jset.
  destruct (decide (c = cw_channel w)) as [->|Hne].
  - rewrite (decide_True (P := cw_channel w = cw_channel w)) by done.
    rewrite IH. by destruct (chan_writes (cw_channel w) ws).
  - by rewrite (decide_False (P := cw_channel w = c)).
Qed.

Lemma groupByChannel_elem c l ws :
  (c, l) ∈ groupByChannel ws -> l = chan_writes c ws /\ l <> [].
Proof.
  intros Hin. apply jget_elem_wf in Hin; [|apply groupByChannel_wf].
  rewrite jget_groupByChannel in Hin. destruct (chan_writes c ws); by simplify_eq.
Qed.

(** ** The channel-wise specification of a step's merge *)

Section Merge.
Context (channels : list (string * channel)).

(** What the writes [ws] of channel [c] turn [state] into. *)
Definition group_val (state : jstate) (c : string) (ws : list ChannelWrite) : result exn value :=
  match descriptor_of channels c with
  | None => Err (InvalidChannelWriteError (default "<unknown>" (cw_nodeName <$> head ws)) c)
  | Some d => mergeChannel c d (jget c state) ws
  end.

Definition ephemeral_chan (c : string) : bool :=
  match descriptor_of channels c with Some d => is_ephemeral d | None => false end.

Record groups_post (acc0 : merge_acc) (gs : list (string * list ChannelWrite))
    (acc : merge_acc) : Prop := {
  gp_next : forall c, jget c (ma_next acc) =
    match jget c gs with
    | None => jget c (ma_next acc0)
    | Some ws => match group_val (ma_next acc0) c ws with Ok v => Some v | Err _ => None end
    end;
  gp_ok : forall c ws, jget c gs = Some ws -> is_ok (group_val (ma_next acc0) c ws) = true;
  gp_versions : forall c, jget c (ma_versions acc) =
    match jget c gs with
    | None => jget c (ma_versions acc0)
    | Some _ => Some (S (default 0 (jget c (ma_versions acc0))))
    end;
  gp_changed : ma_changed acc = (ma_changed acc0 ++ jkeys gs)%list;
  gp_ephemeral : ma_ephemeral acc =
    (ma_ephemeral acc0 ++ List.filter ephemeral_chan (jkeys gs))%list;
}.

Lemma apply_group_spec acc0 c ws :
  match apply_group channels acc0 (c, ws) with
  | Err e => group_val (ma_next acc0) c ws = Err e
  | Ok acc => exists v, group_val (ma_next acc0) c ws = Ok v /\
      acc = mkAcc (jset c v (ma_next acc0))
                  (jset c (S (default 0 (jget c (ma_versions acc0)))) (ma_versions acc0))
                  (ma_changed acc0 ++ [c])
                  (ma_ephemeral acc0 ++ List.filter ephemeral_chan [c])%list
  end.
Proof.
  unfold apply_group, group_val, ephemeral_chan. simpl.
  destruct (descriptor_of channels c) as [d|]; [|done].
  destruct (mergeChannel _ _ _ _) as [v|e]; [|done].
  exists v. split; [done|]. destruct (is_ephemeral d); [done|]. by rewrite app_nil_r.
Qed.

Lemma apply_groups_spec gs acc0 :
  jwf gs ->
  match foldM (apply_group channels) acc0 gs with
  | Ok acc => groups_post acc0 gs acc
  | Err e => exists c ws, jget c gs = Some ws /\ group_val (ma_next acc0) c ws = Err e
  end.
Proof.
  revert acc0. induction gs as [|[c ws] gs IH]; intros acc0 Hwf.
  - constructor; simpl; try done; by rewrite app_nil_r.
  - apply NoDup_cons in Hwf as [Hni Hwf].
    cbn [foldM]. pose proof (apply_group_spec acc0 c ws) as Hstep.
    destruct (apply_group channels acc0 (c, ws)) as [acc1|e]; cbn [rbind].
    2: { exists c, ws. simpl. by rewrite decide_True. }
    destruct Hstep as (v & Hv & ->).
    specialize (IH (mkAcc (jset c v (ma_next acc0))
      (jset c (S (default 0 (jget c (ma_versions acc0)))) (ma_versions acc0))
      (ma_changed acc0 ++ [c]) (ma_ephemeral acc0 ++ List.filter ephemeral_chan [c])%list) Hwf).
    assert (Hval : forall c' ws', jget c' gs = Some ws' -> c' <> c /\
      group_val (jset c v (ma_next acc0)) c' ws' = group_val (ma_next acc0) c' ws').
    { intros c' ws' Hg. assert (c' <> c) as Hne.
      { intros ->. apply Hni, (proj1 (jget_is_Some c gs)). by rewrite Hg. }
      split; [done|]. unfold group_val. by rewrite jget_jset_ne. }
    destruct (foldM _ _ gs) as [acc|e].
    + destruct IH as [IHn IHo IHv IHc IHe]. simpl in *. constructor; simpl.
      * intros c'. rewrite IHn. destruct (decide (c' = c)) as [->|Hne].
        -- rewrite (proj2 (jget_None c gs)) by done. by rewrite jget_jset_eq, Hv.
        -- destruct (jget c' gs) as [ws'|] eqn:E; [|by rewrite jget_jset_ne].
           by rewrite (proj2 (Hval _ _ E)).
      * intros c' ws'. destruct (decide (c' = c)) as [->|Hne]; intros Hg.
        -- simplify_eq. by rewrite Hv.
        -- rewrite <-(proj2 (Hval _ _ Hg)). by apply IHo.
      * intros c'. rewrite IHv. destruct (decide (c' = c)) as [->|Hne].
        -- rewrite (proj2 (jget_None c gs)) by done. by rewrite jget_jset_eq.
        -- by rewrite jget_jset_ne.
      * by rewrite IHc, <-app_assoc.
      * rewrite IHe. destruct (ephemeral_chan c); simpl; by rewrite <-app_assoc.
    + destruct IH as (c' & ws' & Hg & He). exists c', ws'. simpl.
      destruct (Hval _ _ Hg) as [Hne Heq]. rewrite decide_False by done.
      by rewrite <-Heq.
Qed.
End Merge.

(** The wipe of the ephemeral channels. *)
Definition wipe_step : jstate * jstate -> string -> jstate * jstate :=
  fun '(next, eph) key => (jdel key next, jset key (undef_or (jget key next)) eph).

Lemma wipe_spec keys next eph :
  NoDup keys ->
  forall c, jget c (foldl wipe_step (next, eph) keys).1 =
    (if decide (c ∈ keys) then None else jget c next) /\
  jget c (foldl wipe_step (next, eph) keys).2 =
    (if decide (c ∈ keys) then Some (undef_or (jget c next)) else jget c eph).
Proof.
  revert next eph. induction keys as [|k keys IH]; intros next eph Hnd c.
  - simpl. done.
  - apply NoDup_cons in Hnd as [Hni Hnd].
    change (foldl wipe_step (next, eph) (k :: keys)) with
      (foldl wipe_step (jdel k next, jset k (undef_or (jget k next)) eph) keys).
    destruct (IH (jdel k next) (jset k (undef_or (jget k next)) eph) Hnd c) as [-> ->].
    rewrite jget_jdel, jget_jset.
    destruct (decide (c = k)) as [->|Hne].
    + destruct (decide (k ∈ k :: keys)) as [_|H]; [|exfalso; apply H; by left].
      by destruct (decide (k ∈ keys)).
    + destruct (decide (c ∈ keys)) as [Hin|Hnin], (decide (c ∈ k :: keys)) as [Hin'|Hnin'];
        try done; exfalso; set_solver.
Qed.

Record apply_post (state : jstate) (versions : jversions) (channels : list (string * channel))
    (writes : list ChannelWrite) (r : ApplyResult) : Prop := {
  ap_state : forall c, jget c (ar_state r) =
    match chan_writes c writes with
    | [] => jget c state
    | ws => if ephemeral_chan channels c then None
            else match group_val channels state c ws with Ok v => Some v | Err _ => None end
    end;
  ap_ok : forall c, chan_writes c writes <> [] ->
    is_ok (group_val channels state c (chan_writes c writes)) = true;
  ap_versions : forall c, jget c (ar_versions r) =
    match chan_writes c writes with
    | [] => jget c versions
    | _ => Some (S (default 0 (jget c versions)))
    end;
  ap_changed : NoDup (ar_changed r) /\ forall c, c ∈ ar_changed r <-> chan_writes c writes <> [];
  ap_ephemeral : forall c, jget c (ar_ephemeral r) =
    match chan_writes c writes with
    | [] => None
    | ws => if ephemeral_chan channels c
            then match group_val channels state c ws with Ok v => Some v | Err _ => None end
            else None
    end;
}.

Lemma groupByChannel_keys c ws :
  c ∈ jkeys (groupByChannel ws) <-> chan_writes c ws <> [].
Proof.
  rewrite <-jget_is_Some, jget_groupByChannel.
  destruct (chan_writes c ws); split; naive_solver.
Qed.

(** The whole step merge, on both outcomes. *)
Lemma applyWrites_spec state versions channels writes :
  match applyWrites state versions channels writes with
  | Ok r => apply_post state versions channels writes r
  | Err e => exists c, chan_writes c writes <> [] /\
      group_val channels state c (chan_writes c writes) = Err e
  end.
Proof.
  unfold applyWrites.
  pose proof (apply_groups_spec channels (groupByChannel writes) (mkAcc state versions [] [])
                (groupByChannel_wf writes)) as H.
  destruct (foldM _ _ _) as [acc|e]; simpl in *.
  2: { destruct H as (c & ws & Hg & He). exists c.
       rewrite jget_groupByChannel in Hg. destruct (chan_writes c writes); by simplify_eq. }
  destruct H as [Hn Ho Hv Hc He]. simpl in *.
  change (fun '(next, eph) key => (jdel key next, jset key (undef_or (jget key next)) eph))
    with wipe_step.
  assert (NoDup (ma_ephemeral acc)) as Hnd.
  { rewrite He. apply NoDup_ListNoDup, List.NoDup_filter, NoDup_ListNoDup, groupByChannel_wf. }
  assert (forall c, c ∈ ma_ephemeral acc <->
            ephemeral_chan channels c = true /\ chan_writes c writes <> []) as Hin.
  { intros c. rewrite He, list_elem_of_In, filter_In, <-list_elem_of_In, groupByChannel_keys.
    naive_solver. }
  pose proof (wipe_spec (ma_ephemeral acc) (ma_next acc) [] Hnd) as Hwipe.
  destruct (foldl wipe_step _ _) as [next eph]. simpl in Hwipe.
  constructor; simpl.
  - intros c. rewrite (proj1 (Hwipe c)), Hn, jget_groupByChannel.
    case_decide as Hd; rewrite Hin in Hd; destruct (chan_writes c writes) eqn:E;
      [naive_solver|by rewrite (proj1 Hd)|done|].
    destruct (ephemeral_chan channels c); [exfalso; apply Hd; by split|done].
  - intros c Hne. apply (Ho c). rewrite jget_groupByChannel.
    by destruct (chan_writes c writes).
  - intros c. rewrite Hv, jget_groupByChannel. by destruct (chan_writes c writes).
  - rewrite Hc. split; [apply groupByChannel_wf|]. intros c. apply groupByChannel_keys.
  - intros c. rewrite (proj2 (Hwipe c)), Hn, jget_groupByChannel.
    case_decide as Hd; rewrite Hin in Hd; destruct (chan_writes c writes) eqn:E;
      [naive_solver| |done|].
    + rewrite (proj1 Hd). specialize (Ho c). rewrite jget_groupByChannel, E in Ho.
      specialize (Ho _ eq_refl). by destruct (group_val _ _ _ _).
    + destruct (ephemeral_chan channels c); [exfalso; apply Hd; by split|done].
Qed.

(** ** Properties of the channel merge *)

(** Objects with the same properties, whatever the insertion order. *)
Definition same_map {A} (m1 m2 : list (string * A)) : Prop := forall k, jget k m1 = jget k m2.

#[export] Instance same_map_equiv {A} : Equivalence (@same_map A).
Proof.
  split; [by intros m k|by intros m1 m2 H k|]. intros m1 m2 m3 H1 H2 k. by rewrite H1, H2.
Qed.

(** A step's merge is channel-wise.  Two step outcomes that write the same
    sequence of values to every channel, however the writes of different
    channels are interleaved, either both fail or produce the same channel
    values, versions, changed channels and ephemeral values. *)
Theorem merge_is_channelwise state versions channels ws1 ws2 :
  (forall c, chan_writes c ws1 = chan_writes c ws2) ->
  match applyWrites state versions channels ws1, applyWrites state versions channels ws2 with
  | Ok r1, Ok r2 => same_map (ar_state r1) (ar_state r2) /\
      same_map (ar_versions r1) (ar_versions r2) /\ ar_changed r1 ≡ₚ ar_changed r2 /\
      same_map (ar_ephemeral r1) (ar_ephemeral r2)
  | Err _, Err _ => True
  | _, _ => False
  end.
Proof.
  intros Hsame. pose proof (applyWrites_spec state versions channels ws1) as H1.
  pose proof (applyWrites_spec state versions channels ws2) as H2.
  destruct (applyWrites _ _ _ ws1) as [r1|e1], (applyWrites _ _ _ ws2) as [r2|e2]; [| | |done].
  - destruct H1 as [S1 _ V1 [N1 C1] E1], H2 as [S2 _ V2 [N2 C2] E2].
    split_and!; [intros c; by rewrite S1, S2, Hsame|intros c; by rewrite V1, V2, Hsame| |
                 intros c; by rewrite E1, E2, Hsame].
    apply NoDup_Permutation; [done|done|]. intros c. by rewrite C1, C2, Hsame.
  - destruct H2 as (c & Hne & He). rewrite <-Hsame in Hne, He.
    pose proof (ap_ok _ _ _ _ _ H1 c Hne) as Ho. by rewrite He in Ho.
  - destruct H1 as (c & Hne & He). rewrite Hsame in Hne, He.
    pose proof (ap_ok _ _ _ _ _ H2 c Hne) as Ho. by rewrite He in Ho.
Qed.

Lemma merge_is_channelwise_witness :
  let channels := [("a", listAggregate None); ("b", anyValue None)] in
  let w1 := mkWrite "x" "t" 0 "a" (VStr "1") in
  let w2 := mkWrite "x" "t" 1 "b" (VStr "2") in
  match applyWrites [] [] channels [w1; w2], applyWrites [] [] channels [w2; w1] with
  | Ok r1, Ok r2 => same_map (ar_state r1) (ar_state r2) /\
      same_map (ar_versions r1) (ar_versions r2) /\ ar_changed r1 ≡ₚ ar_changed r2 /\
      same_map (ar_ephemeral r1) (ar_ephemeral r2)
  | Err _, Err _ => True
  | _, _ => False
  end.
Proof.
  apply (merge_is_channelwise [] [] [("a", listAggregate None); ("b", anyValue None)]
           [mkWrite "x" "t" 0 "a" (VStr "1"); mkWrite "x" "t" 1 "b" (VStr "2")]
           [mkWrite "x" "t" 1 "b" (VStr "2"); mkWrite "x" "t" 0 "a" (VStr "1")]).
  intros c. unfold chan_writes. rewrite !filter_cons, !filter_nil.
  destruct (decide (_ = c)) as [Ha|Ha], (decide (_ = c)) as [Hb|Hb]; try reflexivity.
  simpl in Ha, Hb. congruence.
Defined.

(** Channels that fold their writes into what they hold. *)
Definition accumulating (d : channel) : bool :=
  match d with Reducer _ _ | ListAggregate _ | Stream _ _ | Barrier _ _ => true | _ => false end.

(** Accumulating channels do not care how writes are cut into steps:
    merging two batches in one step equals merging the first and then the
    second, including the error a reducer throws. *)
Theorem merge_in_batches c d before v ws1 ws2 :
  accumulating d = true ->
  mergeChannel c d before ws1 = Ok v ->
  mergeChannel c d before (ws1 ++ ws2)%list = mergeChannel c d (Some v) ws2.
Proof.
  destruct d as [|?|reduce dflt|dflt|unique dflt|from dflt|?]; simpl; try done; intros _ H1.
  - rewrite foldM_app. destruct (foldM _ _ ws1) as [a|e]; simplify_eq/=. done.
  - simplify_eq. by rewrite foldl_app.
  - simplify_eq. by rewrite foldl_app.
  - simplify_eq. by rewrite foldl_app.
Qed.

Lemma merge_in_batches_witness :
  mergeChannel "log" (stream (Some true) None) None
    ([mkWrite "a" "t" 0 "log" (VStr "x")] ++ [mkWrite "b" "u" 0 "log" (VArr [VStr "x"; VStr "y"])])%list =
  mergeChannel "log" (stream (Some true) None) (Some (VArr [VStr "x"]))
    [mkWrite "b" "u" 0 "log" (VArr [VStr "x"; VStr "y"])].
Proof. apply (merge_in_batches "log" (stream (Some true) None) None (VArr [VStr "x"])); reflexivity. Defined.

(** No later element is deep-equal to an earlier one. *)
Fixpoint all_distinct (l : list value) : bool :=
  match l with
  | [] => true
  | x :: l' => forallb (fun y => negb (deepEqual x y)) l' && all_distinct l'
  end.

Lemma all_distinct_snoc l x :
  all_distinct (l ++ [x])%list =
  all_distinct l && negb (existsb (fun y => deepEqual y x) l).
Proof.
  induction l as [|y l IH]; simpl; [done|]. rewrite IH, forallb_app. simpl.
  rewrite andb_true_r, negb_orb. destruct (forallb _ l), (all_distinct l), (deepEqual y x); simpl;
    try done; by rewrite ?andb_false_r.
Qed.

Lemma push_items_distinct items acc :
  all_distinct acc = true -> all_distinct (foldl (push_item true) acc items) = true.
Proof.
  revert acc. induction items as [|x items IH]; intros acc Hacc; simpl; [done|]. apply IH.
  unfold push_item. simpl. destruct (existsb _ acc) eqn:E; [done|].
  by rewrite all_distinct_snoc, Hacc, E.
Qed.

(** A unique stream never holds a duplicate.  Whatever is written, in
    however many writes and nested arrays, no later element of the merged
    stream is deep-equal to an earlier one, provided that was so before. *)
Theorem unique_stream_stays_unique c dflt before ws :
  all_distinct (list_of before) = true ->
  exists vs, mergeChannel c (Stream true dflt) before ws = Ok (VArr vs) /\ all_distinct vs = true /\
    list_of before `prefix_of` vs.
Proof.
  intros Hb. eexists. split; [reflexivity|].
  assert (forall acc ws, all_distinct acc = true ->
    all_distinct (foldl (fun acc w => foldl (push_item true) acc (items_of (cw_value w))) acc ws) = true /\
    acc `prefix_of` foldl (fun acc w => foldl (push_item true) acc (items_of (cw_value w))) acc ws) as Hgen.
  { clear. intros acc ws. revert acc. induction ws as [|w ws IH]; intros acc Hacc; simpl; [done|].
    destruct (IH _ (push_items_distinct (items_of (cw_value w)) acc Hacc)) as [Hd Hp]. split; [done|].
    etrans; [|exact Hp]. clear. revert acc. induction (items_of (cw_value w)) as [|x xs IH]; intros acc; simpl;
      [done|]. etrans; [|apply IH]. unfold push_item. destruct (_ && _); [done|by eexists]. }
  by apply Hgen.
Qed.

Lemma unique_stream_stays_unique_witness :
  exists vs, mergeChannel "s" (Stream true None) (Some (VArr [VStr "a"]))
      [mkWrite "n" "t" 0 "s" (VArr [VStr "a"; VStr "b"; VStr "b"])] = Ok (VArr vs) /\
    all_distinct vs = true /\ [VStr "a"] `prefix_of` vs.
Proof.
  apply (unique_stream_stays_unique "s" None (Some (VArr [VStr "a"]))
           [mkWrite "n" "t" 0 "s" (VArr [VStr "a"; VStr "b"; VStr "b"])]).
  reflexivity.
Defined.

(** The version counters count writing steps.  After a successful merge a
    channel's version is one more than before if the step wrote it and
    unchanged otherwise; the changed list names the written channels, each
    once; a channel nobody wrote keeps its value. *)
Theorem merge_bumps_exactly_written_channels state versions channels ws r :
  applyWrites state versions channels ws = Ok r ->
  NoDup (ar_changed r) /\
  (forall c, c ∈ ar_changed r <-> chan_writes c ws <> []) /\
  forall c, default 0 (jget c (ar_versions r)) =
              default 0 (jget c versions) + (if decide (chan_writes c ws = []) then 0 else 1) /\
            (chan_writes c ws = [] -> jget c (ar_state r) = jget c state).
Proof.
  intros Hr. pose proof (applyWrites_spec state versions channels ws) as Hs. rewrite Hr in Hs.
  destruct Hs as [Hst _ Hv [Hnd Hc] _]. split_and!; [done|done|]. intros c.
  rewrite Hv, Hst. destruct (chan_writes c ws) as [|w l]; simpl; (split; [lia|done]).
Qed.

Lemma merge_bumps_exactly_written_channels_witness :
  exists r, applyWrites [("a", VNull)] [("a", 3)] [("a", anyValue None); ("b", anyValue None)]
              [mkWrite "n" "t" 0 "b" (VStr "v")] = Ok r /\
    NoDup (ar_changed r) /\
    (forall c, c ∈ ar_changed r <-> chan_writes c [mkWrite "n" "t" 0 "b" (VStr "v")] <> []) /\
    forall c, default 0 (jget c (ar_versions r)) = default 0 (jget c [("a", 3)]) +
                (if decide (chan_writes c [mkWrite "n" "t" 0 "b" (VStr "v")] = []) then 0 else 1) /\
              (chan_writes c [mkWrite "n" "t" 0 "b" (VStr "v")] = [] ->
                 jget c (ar_state r) = jget c [("a", VNull)]).
Proof.
  eexists. split; [vm_compute; reflexivity|].
  apply (merge_bumps_exactly_written_channels [("a", VNull)] [("a", 3)]
           [("a", anyValue None); ("b", anyValue None)]). vm_compute. reflexivity.
Defined.
