(* ===== verification/CheckpointStore.v ===== *)
(** * The checkpoint store

    The contract of [packages/core/src/contracts/checkpoint-store.ts] as a
    type class of operations with its laws, an abstract store keyed by
    (thread, namespace), and the in-memory adapter of
    [packages/workflow/src/checkpoint-store-memory.ts], whose two [Map]s are
    keyed by concatenated strings.  [MemRefine] proves that the adapter
    implements the abstract store when no identifier contains the separator. *)

From S2P Require Import Prelude JsValue Errors.

Local Open Scope string_scope.

(** ** Records of the contract *)

Inductive DurabilityMode := Sync | Exit.

#[export] Instance DurabilityMode_eq_dec : EqDecision DurabilityMode.
Proof. solve_decision. Defined.

(** [createdAt] is an ISO instant; it is kept as its epoch milliseconds. *)
Record Checkpoint := mkCheckpoint {
  cp_id : string;
  cp_threadId : string;
  cp_namespace : string;
  cp_parentId : option string;
  cp_state : value;
  cp_channelVersions : list (string * nat);
  cp_stepNumber : nat;
  cp_createdAt : Z;
}.

Record CheckpointMetadata := mkMetadata {
  md_source : DurabilityMode;
  md_status : status;
  md_nodeName : option string;
  md_tags : option (list string);
  md_wakeAt : option Z;
}.

Record PendingWrite := mkPending {
  pw_taskId : string;
  pw_index : nat;
  pw_channel : string;
  pw_value : value;
}.

(** [pendingWrites] is absent exactly when empty. *)
Record CheckpointTuple := mkTuple {
  ct_checkpoint : Checkpoint;
  ct_metadata : CheckpointMetadata;
  ct_pendingWrites : list PendingWrite;
}.

Definition ct_id (t : CheckpointTuple) : string := cp_id (ct_checkpoint t).
Definition ct_step (t : CheckpointTuple) : nat := cp_stepNumber (ct_checkpoint t).
Definition ct_status (t : CheckpointTuple) : status := md_status (ct_metadata t).

Record ListOptions := mkListOptions {
  lo_limit : option nat;
  lo_before : option string;
  lo_status : option status;
}.

(** ** Operations on the sequence of checkpoints of one (thread, namespace)

    Both adapters keep the checkpoints of a pair in insertion order; the
    latest is the first one with the greatest step number. *)

Definition latest_of (ts : list CheckpointTuple) : option CheckpointTuple :=
  foldl (fun latest s =>
    match latest with
    | None => Some s
    | Some l => if decide (ct_step l < ct_step s) then Some s else latest
    end) None ts.

(** [sort((a, b) => b.stepNumber - a.stepNumber)]: stable, newest first. *)
Fixpoint insert_desc (t : CheckpointTuple) (ts : list CheckpointTuple) : list CheckpointTuple :=
  match ts with
  | [] => [t]
  | u :: ts' => if decide (ct_step u < ct_step t) then t :: ts else u :: insert_desc t ts'
  end.

Definition sort_desc (ts : list CheckpointTuple) : list CheckpointTuple :=
  foldl (fun acc t => insert_desc t acc) [] ts.

(** The upsert of [putWrites] by (taskId, index). *)
Definition upsert_write (taskId : string) (ws : list PendingWrite) (w : PendingWrite) :
    list PendingWrite :=
  let annotated := mkPending taskId (pw_index w) (pw_channel w) (pw_value w) in
  (filter (fun x => ~ (pw_taskId x = taskId /\ pw_index x = pw_index w)) ws ++ [annotated])%list.

(** Writes of one task under distinct indices accumulate. *)
Definition annotate (taskId : string) (w : PendingWrite) : PendingWrite :=
  mkPending taskId (pw_index w) (pw_channel w) (pw_value w).

Lemma upsert_fresh taskId acc ws :
  Forall (fun x => pw_taskId x <> taskId) acc -> NoDup (map pw_index ws) ->
  foldl (upsert_write taskId) acc ws = (acc ++ map (annotate taskId) ws)%list.
Proof.
  intros Hacc. induction ws as [|w ws IH] using rev_ind; intros Hnd; [by rewrite app_nil_r|].
  rewrite map_app in Hnd. apply NoDup_app in Hnd as (Hnd & Hdis & _).
  rewrite foldl_app, IH by done. simpl. unfold upsert_write at 1.
  rewrite (filter_all (fun x => ~ (pw_taskId x = taskId /\ pw_index x = pw_index w))).
  { by rewrite map_app, app_assoc. }
  rewrite Forall_app. split.
  - eapply Forall_impl; [exact Hacc|]. simpl. naive_solver.
  - rewrite Forall_forall. intros x (y & -> & Hy)%list_elem_of_fmap [_ Hi]. simpl in Hi.
    apply (Hdis (pw_index w)); [|by left]. apply list_elem_of_fmap. exists y. by rewrite Hi.
Qed.

Definition add_writes (taskId : string) (writes : list PendingWrite) (t : CheckpointTuple) :
    CheckpointTuple :=
  mkTuple (ct_checkpoint t) (ct_metadata t)
          (foldl (upsert_write taskId) (ct_pendingWrites t) writes).

Definition terminal (s : status) : bool :=
  bool_decide (s ∈ [Completed; Failed; Aborted]).

(** The selection loop of [list]. *)
Definition list_select (opts : ListOptions) (beforeStep : option nat)
    (ordered : list CheckpointTuple) : list CheckpointTuple :=
  let keep := fun t =>
    match beforeStep with Some b => bool_decide (ct_step t < b) | None => true end &&
    match lo_status opts with Some s => bool_decide (ct_status t = s) | None => true end in
  let kept := List.filter keep ordered in
  match lo_limit opts with Some n => take n kept | None => kept end.

(** ** The interface *)

Class CheckpointStore (S : Type) := {
  put : string -> string -> Checkpoint -> CheckpointMetadata -> option (option string) ->
        S -> result exn S;
  putWrites : string -> string -> string -> list PendingWrite -> string -> S -> S;
  getTuple : string -> string -> option string -> S -> option CheckpointTuple;
  listTuples : string -> string -> ListOptions -> S -> list CheckpointTuple;
  deleteThread : string -> S -> S;
  listSuspended : string -> option Z -> option nat -> S -> list (string * Z);
}.

(** ** The in-memory adapter *)

Module Mem.

Record StoredCheckpoint := mkStored {
  sc_checkpoint : Checkpoint;
  sc_metadata : CheckpointMetadata;
  sc_pendingWrites : list PendingWrite;
}.

Record t := mkMem {
  m_checkpoints : list (string * StoredCheckpoint);
  m_threadIndex : list (string * list string);
}.

Definition empty : t := mkMem [] [].

Definition indexKey (threadId namespace : string) : string :=
  threadId +:+ "::" +:+ namespace.

Definition makeKey (threadId namespace id : string) : string :=
  threadId +:+ "::" +:+ namespace +:+ "::" +:+ id.

Definition sc_step (s : StoredCheckpoint) : nat := cp_stepNumber (sc_checkpoint s).

Definition tuple_of (s : StoredCheckpoint) : CheckpointTuple :=
  mkTuple (sc_checkpoint s) (sc_metadata s) (sc_pendingWrites s).

(** The stored checkpoints behind a list of ids, dangling ids skipped. *)
Definition stored_of (threadId namespace : string) (ids : list string) (st : t) :
    list CheckpointTuple :=
  omap (fun id => tuple_of <$> jget (makeKey threadId namespace id) (m_checkpoints st)) ids.

(** [#latestStored] *)
Definition latestStored (threadId namespace : string) (ids : list string) (st : t) :
    option CheckpointTuple := latest_of (stored_of threadId namespace ids st).

Definition ids_of (threadId namespace : string) (st : t) : list string :=
  default [] (jget (indexKey threadId namespace) (m_threadIndex st)).

Definition put (threadId namespace : string) (checkpoint : Checkpoint)
    (metadata : CheckpointMetadata) (expectedLatestId : option (option string))
    (st : t) : result exn t :=
  let latestId := ct_id <$> latestStored threadId namespace (ids_of threadId namespace st) st in
  let ok := match expectedLatestId with
            | Some expected => bool_decide (latestId = expected)
            | None => true
            end in
  if ok then
    let key := makeKey threadId namespace (cp_id checkpoint) in
    let pending := match jget key (m_checkpoints st) with
                   | Some existing => sc_pendingWrites existing
                   | None => []
                   end in
    let checkpoints' := jset key (mkStored checkpoint metadata pending) (m_checkpoints st) in
    let ids := ids_of threadId namespace st in
    let index' :=
      if decide (cp_id checkpoint ∈ ids) then m_threadIndex st
      else jset (indexKey threadId namespace) (ids ++ [cp_id checkpoint])%list (m_threadIndex st) in
    Ok (mkMem checkpoints' index')
  else Err (CheckpointConflictError threadId (default None expectedLatestId) latestId).

Definition putWrites (threadId namespace checkpointId : string)
    (writes : list PendingWrite) (taskId : string) (st : t) : t :=
  if decide (writes = []) then st
  else
    let key := makeKey threadId namespace checkpointId in
    match jget key (m_checkpoints st) with
    | None => st
    | Some stored =>
        mkMem (jset key (mkStored (sc_checkpoint stored) (sc_metadata stored)
                           (foldl (upsert_write taskId) (sc_pendingWrites stored) writes))
                    (m_checkpoints st))
              (m_threadIndex st)
    end.

Definition getTuple (threadId namespace : string) (checkpointId : option string) (st : t) :
    option CheckpointTuple :=
  match jget (indexKey threadId namespace) (m_threadIndex st) with
  | None | Some [] => None
  | Some ids =>
      match checkpointId with
      | Some id => tuple_of <$> jget (makeKey threadId namespace id) (m_checkpoints st)
      | None => latestStored threadId namespace ids st
      end
  end.

Definition list (threadId namespace : string) (opts : ListOptions) (st : t) :
    list CheckpointTuple :=
  let ordered := sort_desc (stored_of threadId namespace (ids_of threadId namespace st) st) in
  let beforeStep :=
    match lo_before opts with
    | Some b => sc_step <$> jget (makeKey threadId namespace b) (m_checkpoints st)
    | None => None
    end in
  list_select opts beforeStep ordered.

(** [key.indexOf('::')], followed by the two slices. *)
Definition splitKey (key : string) : string * string :=
  match indexOf "::" key with
  | Some sep => (str_take sep key, str_drop (sep + 2) key)
  | None => (str_take (String.length key - 1) key, str_drop 1 key)
  end.

Definition delete_pair (threadId namespace key : string) (st : t) : t :=
  let ids := default [] (jget key (m_threadIndex st)) in
  mkMem (foldl (fun m id => jdel (makeKey threadId namespace id) m) (m_checkpoints st) ids)
        (jdel key (m_threadIndex st)).

Definition deleteThread (threadId : string) (st : t) : t :=
  foldl (fun st key =>
    if startsWith (threadId +:+ "::") key
    then delete_pair threadId (str_drop (String.length threadId + 2) key) key st
    else st) st (jkeys (m_threadIndex st)).

(** [out.sort((a, b) => a.wakeAt - b.wakeAt)] *)
Fixpoint insert_wake (x : string * Z) (l : List.list (string * Z)) : List.list (string * Z) :=
  match l with
  | [] => [x]
  | y :: l' => if decide (x.2 < y.2)%Z then x :: l else y :: insert_wake x l'
  end.

Definition listSuspended (namespace : string) (dueBefore : option Z) (limit : option nat)
    (st : t) : List.list (string * Z) :=
  let pick := fun (e : string * List.list string) =>
    let '(threadId, ns) := splitKey e.1 in
    if decide (ns = namespace) then
      match latestStored threadId ns e.2 st with
      | Some latest =>
          if decide (ct_status latest = Suspended) then
            match md_wakeAt (ct_metadata latest) with
            | Some wakeAt =>
                match dueBefore with
                | Some d => if decide (d < wakeAt)%Z then None else Some (threadId, wakeAt)
                | None => Some (threadId, wakeAt)
                end
            | None => None
            end
          else None
      | None => None
      end
    else None in
  let out := foldl (fun acc x => insert_wake x acc) [] (omap pick (m_threadIndex st)) in
  match limit with Some n => take n out | None => out end.

Definition pruneThreads (beforeEpochMs : Z) (onlyTerminal : bool) (st : t) : t * nat :=
  foldl (fun '(st, pruned) key =>
    let '(threadId, namespace) := splitKey key in
    let ids := default [] (jget key (m_threadIndex st)) in
    match latestStored threadId namespace ids st with
    | None => (st, pruned)
    | Some latest =>
        if decide (beforeEpochMs <= cp_createdAt (ct_checkpoint latest))%Z then (st, pruned)
        else if onlyTerminal && negb (terminal (ct_status latest)) then (st, pruned)
        else (delete_pair threadId namespace key st, S pruned)
    end) (st, 0) (jkeys (m_threadIndex st)).

(** [keep] is [Math.max(1, Math.floor(keepLast))]. *)
Definition compactThread (threadId namespace : string) (keepLast : Z) (st : t) : t * nat :=
  let keep := Z.to_nat (Z.max 1 keepLast) in
  let ordered := sort_desc (stored_of threadId namespace (ids_of threadId namespace st) st) in
  let victims := drop keep ordered in
  (mkMem (foldl (fun m v => jdel (makeKey threadId namespace (ct_id v)) m)
                (m_checkpoints st) victims)
         (jset (indexKey threadId namespace) (map ct_id (take keep ordered))
               (m_threadIndex st)),
   length victims).

Definition size (st : t) : nat := length (m_checkpoints st).

End Mem.

#[export] Instance mem_store : CheckpointStore Mem.t := {
  put := Mem.put;
  putWrites := Mem.putWrites;
  getTuple := Mem.getTuple;
  listTuples := Mem.list;
  deleteThread := Mem.deleteThread;
  listSuspended := Mem.listSuspended;
}.

(** ** The contract as laws

    [view s t n] is the sequence of checkpoints of the pair (t, n), in
    insertion order; every operation is specified by what it does to the view
    of its own pair and by leaving the other pairs alone. *)

Definition v_put (cp : Checkpoint) (md : CheckpointMetadata) (ts : list CheckpointTuple) :
    list CheckpointTuple :=
  if decide (cp_id cp ∈ map ct_id ts)
  then map (fun t => if decide (ct_id t = cp_id cp)
                     then mkTuple cp md (ct_pendingWrites t) else t) ts
  else (ts ++ [mkTuple cp md []])%list.

Definition v_putWrites (id taskId : string) (writes : list PendingWrite)
    (ts : list CheckpointTuple) : list CheckpointTuple :=
  map (fun t => if decide (ct_id t = id) then add_writes taskId writes t else t) ts.

Definition cas_ok (expected : option (option string)) (ts : list CheckpointTuple) : Prop :=
  match expected with
  | Some e => ct_id <$> latest_of ts = e
  | None => True
  end.

(** The same checkpoint with the same pending writes, in some order: the
    contract leaves the order to the adapter (the SQLite one sorts by task). *)
Definition same_tuple (x y : CheckpointTuple) : Prop :=
  ct_checkpoint x = ct_checkpoint y /\ ct_metadata x = ct_metadata y /\
  ct_pendingWrites x ≡ₚ ct_pendingWrites y.

Class CheckpointStoreSpec (S : Type) `{CheckpointStore S} := {
  store_wf : S -> Prop;
  name_ok : string -> Prop;
  view : S -> string -> string -> list CheckpointTuple;
  view_nodup : forall s t n, store_wf s -> name_ok t -> name_ok n ->
    NoDup (map ct_id (view s t n));
  getTuple_latest : forall s t n, store_wf s -> name_ok t -> name_ok n ->
    getTuple t n None s = latest_of (view s t n);
  getTuple_by_id : forall s t n id, store_wf s -> name_ok t -> name_ok n ->
    getTuple t n (Some id) s = List.find (fun x => bool_decide (ct_id x = id)) (view s t n);
  put_spec : forall s t n cp md e, store_wf s -> name_ok t -> name_ok n ->
    match put t n cp md e s with
    | Ok s' => cas_ok e (view s t n) /\ store_wf s' /\
        view s' t n = v_put cp md (view s t n) /\
        (forall t' n', name_ok t' -> name_ok n' -> (t', n') <> (t, n) -> view s' t' n' = view s t' n')
    | Err err => ~ cas_ok e (view s t n) /\
        err = CheckpointConflictError t (default None e) (ct_id <$> latest_of (view s t n))
    end;
  putWrites_spec : forall s t n id ws taskId, store_wf s -> name_ok t -> name_ok n ->
    store_wf (putWrites t n id ws taskId s) /\
    Forall2 same_tuple (view (putWrites t n id ws taskId s) t n) (v_putWrites id taskId ws (view s t n)) /\
    (forall t' n', name_ok t' -> name_ok n' -> (t', n') <> (t, n) ->
       view (putWrites t n id ws taskId s) t' n' = view s t' n');
}.

(** Pending writes change no checkpoint. *)
Lemma same_tuples_checkpoints a b : Forall2 same_tuple a b -> map ct_checkpoint a = map ct_checkpoint b.
Proof. induction 1 as [|x y a b (E & _ & _) _ IH]; simpl; [done|]. by rewrite E, IH. Qed.

Lemma putWrites_checkpoints {S : Type} `{CheckpointStoreSpec S} s t n id ws taskId :
  store_wf s -> name_ok t -> name_ok n ->
  map ct_checkpoint (view (putWrites t n id ws taskId s) t n) = map ct_checkpoint (view s t n).
Proof.
  intros Hwf Ht Hn. destruct (putWrites_spec s t n id ws taskId Hwf Ht Hn) as (_ & Hv & _).
  rewrite (same_tuples_checkpoints _ _ Hv). unfold v_putWrites. rewrite map_map. apply map_ext. intros x. by case_decide.
Qed.

(** An adapter that returns the pending writes as they were written. *)
Class InsertionOrder (S : Type) `{CheckpointStoreSpec S} : Prop := {
  putWrites_order : forall s t n id ws taskId, store_wf s -> name_ok t -> name_ok n ->
    view (putWrites t n id ws taskId s) t n = v_putWrites id taskId ws (view s t n);
}.

(** ** The in-memory adapter implements the contract *)

Module MemRefine.
Import Mem.

(** An identifier the string keys can carry: no separator inside, and no
    trailing colon that would shift the split point. *)
Definition clean (s : string) : Prop := indexOf "::" (s +:+ ":") = None.

#[export] Instance clean_dec s : Decision (clean s).
Proof. apply _. Defined.

Lemma startsWith_sep_app c s r :
  startsWith "::" (String c s +:+ ":") = false ->
  startsWith "::" (String c s +:+ "::" +:+ r) = false.
Proof.
  destruct s as [|d s]; rewrite ?str_app_cons; simpl.
  - intros H. destruct (bool_decide (":"%char = c)); [|done]. done.
  - done.
Qed.

Lemma indexOf_clean t r : clean t -> indexOf "::" (t +:+ "::" +:+ r) = Some (String.length t).
Proof.
  unfold clean. induction t as [|c t IH]; intros Hc; [done|].
  rewrite (str_app_cons c t) in Hc |- *. cbn [indexOf] in Hc |- *.
  destruct (startsWith "::" (String c (t +:+ ":"))) eqn:E; [done|].
  rewrite <-(str_app_cons c t) in E. apply (startsWith_sep_app c t r) in E.
  rewrite (str_app_cons c t) in E. rewrite E.
  destruct (indexOf "::" (t +:+ ":")) eqn:E'; [done|]. by rewrite IH.
Qed.

Lemma splitKey_indexKey t n : clean t -> splitKey (indexKey t n) = (t, n).
Proof.
  intros Hc. unfold splitKey, indexKey. rewrite indexOf_clean by done.
  f_equal.
  - apply str_take_app.
  - replace (String.length t + 2) with (String.length (t +:+ "::")).
    + rewrite <-str_app_assoc. apply str_drop_app.
    + clear Hc. induction t as [|c t IH]; [done|]. rewrite str_app_cons. simpl. by rewrite IH.
Qed.

Lemma indexKey_inj t n t' n' :
  clean t -> clean t' -> indexKey t n = indexKey t' n' -> t = t' /\ n = n'.
Proof.
  intros H H' E. apply (f_equal splitKey) in E.
  rewrite !splitKey_indexKey in E by done. by simplify_eq.
Qed.

Lemma makeKey_indexKey t n id : makeKey t n id = indexKey t (indexKey n id).
Proof. done. Qed.

Lemma makeKey_inj t n id t' n' id' :
  clean t -> clean t' -> clean n -> clean n' ->
  makeKey t n id = makeKey t' n' id' -> t = t' /\ n = n' /\ id = id'.
Proof.
  intros Ht Ht' Hn Hn'. rewrite !makeKey_indexKey.
  intros [-> E]%indexKey_inj; [|done|done]. apply indexKey_inj in E as [-> ->]; done.
Qed.

Record mem_wf (st : t) : Prop := {
  mw_index : jwf (m_threadIndex st);
  mw_keys : forall k, k ∈ jkeys (m_threadIndex st) ->
    exists t n, clean t /\ clean n /\ k = indexKey t n;
  mw_nodup : forall t n, clean t -> clean n -> NoDup (ids_of t n st);
  mw_ids : forall t n id, clean t -> clean n ->
    id ∈ ids_of t n st <-> is_Some (jget (makeKey t n id) (m_checkpoints st));
  mw_cp : forall t n id s, clean t -> clean n ->
    jget (makeKey t n id) (m_checkpoints st) = Some s -> cp_id (sc_checkpoint s) = id;
}.

Definition mem_view (st : t) (t n : string) : List.list CheckpointTuple :=
  stored_of t n (ids_of t n st) st.

Lemma empty_wf : mem_wf empty.
Proof.
  constructor; simpl; try done; [apply NoDup_nil_2|set_solver|..].
  - intros. apply NoDup_nil_2.
  - intros. split; [by intros ?%elem_of_nil|by intros []].
Qed.

(** Ids without a stored checkpoint never occur, so the view is a map. *)
Lemma view_ids st t n : mem_wf st -> clean t -> clean n ->
  map ct_id (mem_view st t n) = ids_of t n st.
Proof.
  intros Hwf Ht Hn. unfold mem_view, stored_of.
  assert (forall id, id ∈ ids_of t n st ->
    exists s, jget (makeKey t n id) (m_checkpoints st) = Some s /\
              cp_id (sc_checkpoint s) = id) as H.
  { intros id Hid. apply (mw_ids st Hwf t n id Ht Hn) in Hid as [s Hs].
    exists s. split; [done|]. by eapply (mw_cp st Hwf t n). }
  induction (ids_of t n st) as [|id ids IH]; csimpl; [done|].
  destruct (H id) as (s & Hs & Hid); [by left|]. rewrite Hs. csimpl.
  rewrite IH; [unfold ct_id; simpl; by rewrite Hid|]. intros; apply H. by right.
Qed.

Lemma stored_of_ext t n ids st st' :
  (forall id, id ∈ ids -> jget (makeKey t n id) (m_checkpoints st') =
                          jget (makeKey t n id) (m_checkpoints st)) ->
  stored_of t n ids st' = stored_of t n ids st.
Proof.
  intros H. unfold stored_of. induction ids as [|id ids IH]; csimpl; [done|].
  rewrite H by by left. rewrite IH; [done|]. intros; apply H. by right.
Qed.

(** Replacing the checkpoint stored under one id. *)
Lemma stored_of_update t n ids st st' id f :
  (forall s, jget (makeKey t n id) (m_checkpoints st) = Some s ->
     tuple_of <$> jget (makeKey t n id) (m_checkpoints st') = Some (f (tuple_of s))) ->
  (forall id', id' <> id -> jget (makeKey t n id') (m_checkpoints st') =
                            jget (makeKey t n id') (m_checkpoints st)) ->
  (forall id' s, id' ∈ ids -> jget (makeKey t n id') (m_checkpoints st) = Some s ->
     cp_id (sc_checkpoint s) = id') ->
  (forall id', id' ∈ ids -> is_Some (jget (makeKey t n id') (m_checkpoints st))) ->
  stored_of t n ids st' =
  map (fun x => if decide (ct_id x = id) then f x else x) (stored_of t n ids st).
Proof.
  intros Hup Hother Hid Hsome. unfold stored_of.
  induction ids as [|i ids IH]; csimpl; [done|].
  destruct (Hsome i) as [s Hs]; [by left|].
  rewrite IH; [|intros; eapply Hid; [by right|done]|intros; apply Hsome; by right].
  rewrite Hs. csimpl. assert (ct_id (tuple_of s) = i) as Hi by (eapply Hid; [by left|done]).
  rewrite Hi. destruct (decide (i = id)) as [->|Hne].
  - by rewrite (Hup s Hs).
  - rewrite Hother by done. by rewrite Hs.
Qed.

Lemma ids_of_jset t n t' n' ids cps idx :
  clean t -> clean t' ->
  ids_of t n (mkMem cps (jset (indexKey t' n') ids idx)) =
  if decide ((t, n) = (t', n')) then ids else default [] (jget (indexKey t n) idx).
Proof.
  intros Ht Ht'. unfold ids_of. simpl. rewrite jget_jset.
  destruct (decide (indexKey t n = indexKey t' n')) as [E|E].
  - apply indexKey_inj in E as [-> ->]; [|done|done]. by rewrite decide_True.
  - rewrite decide_False; [done|]. intros [=]. by subst.
Qed.

Lemma makeKey_ne t n id t' n' id' :
  clean t -> clean t' -> clean n -> clean n' -> (t, n, id) <> (t', n', id') ->
  makeKey t n id <> makeKey t' n' id'.
Proof.
  intros ???? Hne E. apply makeKey_inj in E as (-> & -> & ->); done.
Qed.

(** The state [put] leaves on success. *)
Definition put_state (t n : string) (cp : Checkpoint) (md : CheckpointMetadata) (st : Mem.t) :
    Mem.t :=
  let key := makeKey t n (cp_id cp) in
  mkMem (jset key (mkStored cp md (match jget key (m_checkpoints st) with
                                   | Some e => sc_pendingWrites e | None => [] end))
              (m_checkpoints st))
        (if decide (cp_id cp ∈ ids_of t n st) then m_threadIndex st
         else jset (indexKey t n) (ids_of t n st ++ [cp_id cp])%list (m_threadIndex st)).

Lemma put_ids st t n cp md t' n' :
  clean t -> clean t' ->
  ids_of t' n' (put_state t n cp md st) =
  if decide ((t', n') = (t, n) /\ cp_id cp ∉ ids_of t n st)
  then (ids_of t n st ++ [cp_id cp])%list else ids_of t' n' st.
Proof.
  intros Ht Ht'. unfold put_state.
  destruct (decide (cp_id cp ∈ ids_of t n st)) as [Hin|Hin].
  - rewrite decide_False by naive_solver. done.
  - rewrite ids_of_jset by done.
    destruct (decide ((t', n') = (t, n))) as [E|E].
    + by rewrite decide_True.
    + rewrite decide_False by naive_solver. done.
Qed.

Lemma put_checkpoint st t n cp md t' n' id :
  clean t -> clean t' -> clean n -> clean n' ->
  jget (makeKey t' n' id) (m_checkpoints (put_state t n cp md st)) =
  if decide ((t', n', id) = (t, n, cp_id cp))
  then Some (mkStored cp md (match jget (makeKey t n (cp_id cp)) (m_checkpoints st) with
                             | Some e => sc_pendingWrites e | None => [] end))
  else jget (makeKey t' n' id) (m_checkpoints st).
Proof.
  intros Ht Ht' Hn Hn'. unfold put_state. simpl.
  destruct (decide ((t', n', id) = (t, n, cp_id cp))) as [[= -> -> ->]|E].
  - apply jget_jset_eq.
  - rewrite jget_jset_ne; [done|]. by apply makeKey_ne.
Qed.

Lemma put_state_wf st t n cp md :
  mem_wf st -> clean t -> clean n -> mem_wf (put_state t n cp md st).
Proof.
  intros Hwf Ht Hn. constructor.
  - unfold put_state; simpl. case_decide; [apply Hwf|]. apply jset_wf, Hwf.
  - intros k. unfold put_state; simpl. case_decide; [apply Hwf|].
    rewrite jkeys_jset. case_decide; [apply Hwf|].
    intros [Hk| ->%list_elem_of_singleton]%elem_of_app; [by apply Hwf|by exists t, n].
  - intros t' n' Ht' Hn'. rewrite put_ids by done. case_decide as Hd; [|by apply Hwf].
    apply NoDup_app. destruct Hd as [[= -> ->] Hni].
    split_and!; [by apply Hwf|set_solver|apply NoDup_singleton].
  - intros t' n' id Ht' Hn'. rewrite put_ids, put_checkpoint by done.
    destruct (decide ((t', n', id) = (t, n, cp_id cp))) as [[= -> -> ->]|E].
    + split; [by eauto|]. intros _. case_decide as Hd; [set_solver|].
      destruct (decide (cp_id cp ∈ ids_of t n st)); [done|]. naive_solver.
    + rewrite <-(mw_ids st Hwf t' n' id Ht' Hn'). case_decide as Hd; [|done].
      destruct Hd as [[= -> ->] Hni]. rewrite elem_of_app, list_elem_of_singleton.
      naive_solver.
  - intros t' n' id s Ht' Hn'. rewrite put_checkpoint by done.
    case_decide as Hd; [|by apply Hwf]. by intros; simplify_eq/=.
Qed.

Lemma put_view st t n cp md :
  mem_wf st -> clean t -> clean n ->
  mem_view (put_state t n cp md st) t n = v_put cp md (mem_view st t n).
Proof.
  intros Hwf Ht Hn. unfold v_put. rewrite view_ids by done.
  unfold mem_view. rewrite put_ids by done.
  destruct (decide (cp_id cp ∈ ids_of t n st)) as [Hin|Hin].
  - rewrite decide_False by naive_solver.
    apply (stored_of_update t n (ids_of t n st) st (put_state t n cp md st) (cp_id cp)
             (fun x => mkTuple cp md (ct_pendingWrites x))).
    + intros s Hs. rewrite put_checkpoint by done. rewrite decide_True by done. by rewrite Hs.
    + intros id' Hne. rewrite put_checkpoint by done. rewrite decide_False by naive_solver. done.
    + intros id' s _. by apply Hwf.
    + intros id' Hid'. by apply Hwf.
  - rewrite decide_True by done. unfold stored_of. rewrite omap_app. f_equal.
    + apply (stored_of_ext t n (ids_of t n st) st (put_state t n cp md st)).
      intros id Hid. rewrite put_checkpoint by done. rewrite decide_False; [done|].
      intros [=]. by subst.
    + cbn [omap list_omap]. rewrite put_checkpoint by done. rewrite decide_True by done. simpl.
      destruct (jget (makeKey t n (cp_id cp)) (m_checkpoints st)) as [e|] eqn:E; [|done].
      exfalso. apply Hin, (mw_ids st Hwf t n _ Ht Hn). by rewrite E.
Qed.

Lemma put_view_other st t n cp md t' n' :
  mem_wf st -> clean t -> clean n -> clean t' -> clean n' -> (t', n') <> (t, n) ->
  mem_view (put_state t n cp md st) t' n' = mem_view st t' n'.
Proof.
  intros Hwf Ht Hn Ht' Hn' Hne. unfold mem_view. rewrite put_ids by done.
  rewrite decide_False by naive_solver. apply stored_of_ext.
  intros id _. rewrite put_checkpoint by done. rewrite decide_False; [done|]. naive_solver.
Qed.

(** [putWrites] touches one stored checkpoint. *)
Lemma putWrites_checkpoint st t n id ws taskId t' n' id' :
  clean t -> clean t' -> clean n -> clean n' ->
  jget (makeKey t' n' id') (m_checkpoints (Mem.putWrites t n id ws taskId st)) =
  if decide ((t', n', id') = (t, n, id))
  then (fun s => mkStored (sc_checkpoint s) (sc_metadata s)
                   (foldl (upsert_write taskId) (sc_pendingWrites s) ws)) <$>
       jget (makeKey t n id) (m_checkpoints st)
  else jget (makeKey t' n' id') (m_checkpoints st).
Proof.
  intros Ht Ht' Hn Hn'. unfold Mem.putWrites.
  destruct (decide (ws = [])) as [->|Hws].
  - case_decide as Hd; [|done]. simplify_eq.
    destruct (jget (makeKey t n id) _) as [[]|]; done.
  - destruct (jget (makeKey t n id) (m_checkpoints st)) as [s|] eqn:E; simpl.
    + destruct (decide ((t', n', id') = (t, n, id))) as [[= -> -> ->]|Hne].
      * apply jget_jset_eq.
      * rewrite jget_jset_ne; [done|]. by apply makeKey_ne.
    + case_decide as Hd; [|done]. by simplify_eq.
Qed.

Lemma putWrites_ids st t n id ws taskId t' n' :
  ids_of t' n' (Mem.putWrites t n id ws taskId st) = ids_of t' n' st.
Proof. unfold Mem.putWrites. case_decide; [done|]. by case_match. Qed.

Lemma putWrites_index st t n id ws taskId :
  m_threadIndex (Mem.putWrites t n id ws taskId st) = m_threadIndex st.
Proof. unfold Mem.putWrites. case_decide; [done|]. by case_match. Qed.

Lemma putWrites_wf st t n id ws taskId :
  mem_wf st -> clean t -> clean n -> mem_wf (Mem.putWrites t n id ws taskId st).
Proof.
  intros Hwf Ht Hn. constructor; rewrite ?putWrites_index; try apply Hwf.
  - intros. rewrite putWrites_ids. by apply Hwf.
  - intros t' n' id' Ht' Hn'. rewrite putWrites_ids, putWrites_checkpoint by done.
    rewrite (mw_ids st Hwf t' n' id' Ht' Hn').
    case_decide as Hd; [|done]. simplify_eq. by rewrite fmap_is_Some.
  - intros t' n' id' s Ht' Hn'. rewrite putWrites_checkpoint by done.
    case_decide as Hd; [|by apply Hwf]. simplify_eq.
    intros (s' & Hs' & ->)%fmap_Some. simpl. by eapply (mw_cp st Hwf t n).
Qed.

Lemma putWrites_view st t n id ws taskId :
  mem_wf st -> clean t -> clean n ->
  mem_view (Mem.putWrites t n id ws taskId st) t n =
  v_putWrites id taskId ws (mem_view st t n).
Proof.
  intros Hwf Ht Hn. unfold mem_view, v_putWrites. rewrite putWrites_ids.
  apply (stored_of_update t n (ids_of t n st) st _ id (add_writes taskId ws)).
  - intros s Hs. rewrite putWrites_checkpoint by done. rewrite decide_True by done.
    by rewrite Hs.
  - intros id' Hne. rewrite putWrites_checkpoint by done. rewrite decide_False by naive_solver. done.
  - intros id' s _. by apply Hwf.
  - intros id' Hid'. by apply Hwf.
Qed.

Lemma putWrites_view_other st t n id ws taskId t' n' :
  mem_wf st -> clean t -> clean n -> clean t' -> clean n' -> (t', n') <> (t, n) ->
  mem_view (Mem.putWrites t n id ws taskId st) t' n' = mem_view st t' n'.
Proof.
  intros Hwf Ht Hn Ht' Hn' Hne. unfold mem_view. rewrite putWrites_ids.
  apply stored_of_ext. intros id' _. rewrite putWrites_checkpoint by done.
  rewrite decide_False; [done|]. naive_solver.
Qed.

Lemma find_view st t n id : mem_wf st -> clean t -> clean n ->
  List.find (fun x => bool_decide (ct_id x = id)) (mem_view st t n) =
  tuple_of <$> jget (makeKey t n id) (m_checkpoints st).
Proof.
  intros Hwf Ht Hn.
  destruct (List.find _ _) as [x|] eqn:E.
  - apply find_Some_elem in E as [Hx Hid%bool_decide_eq_true].
    unfold mem_view, stored_of in Hx.
    apply list_elem_of_omap in Hx as (i & Hi & (s & Hs & ->)%fmap_Some).
    assert (i = id) as ->; [|by rewrite Hs].
    rewrite <-Hid. symmetry. by eapply (mw_cp st Hwf t n).
  - destruct (jget (makeKey t n id) (m_checkpoints st)) as [s|] eqn:Hs; [|done].
    exfalso.
    assert (ct_id (tuple_of s) = id) as Hid by by eapply (mw_cp st Hwf t n).
    assert (List.In (tuple_of s) (mem_view st t n)) as Hin.
    { apply list_elem_of_In, list_elem_of_omap. exists id. split; [|by rewrite Hs].
      apply (mw_ids st Hwf t n id Ht Hn). by rewrite Hs. }
    apply (List.find_none _ _ E) in Hin. simpl in Hin.
    by rewrite Hid, bool_decide_eq_true_2 in Hin.
Qed.
End MemRefine.

Import MemRefine.

#[export] Program Instance mem_store_spec : CheckpointStoreSpec Mem.t := {
  store_wf := mem_wf;
  name_ok := clean;
  view := mem_view;
}.
Next Obligation. intros s t n ???. rewrite view_ids by done. by apply mw_nodup. Qed.
Next Obligation.
  intros s t n Hwf Ht Hn. simpl. unfold Mem.getTuple, Mem.latestStored, mem_view, Mem.ids_of.
  destruct (jget _ _) as [[|i ids]|]; done.
Qed.
Next Obligation.
  intros s t n id Hwf Ht Hn. simpl. rewrite (find_view s t n id Hwf Ht Hn).
  unfold Mem.getTuple.
  destruct (jget (Mem.indexKey t n) (Mem.m_threadIndex s)) as [[|i ids]|] eqn:E; [|done|].
  all: destruct (jget (Mem.makeKey t n id) (Mem.m_checkpoints s)) as [c|] eqn:Ec; [|done].
  all: exfalso; assert (id ∈ Mem.ids_of t n s) as Hin
      by (apply (mw_ids s Hwf t n id Ht Hn); by rewrite Ec).
  all: unfold Mem.ids_of in Hin; rewrite E in Hin; by apply elem_of_nil in Hin.
Qed.
Next Obligation.
  intros s t n cp md e Hwf Ht Hn. simpl. unfold Mem.put.
  change (Mem.latestStored t n (Mem.ids_of t n s) s) with (latest_of (mem_view s t n)).
  destruct e as [e|]; simpl.
  - case_bool_decide as Hd.
    + split_and!; [done|by apply put_state_wf|by apply put_view|].
      intros. by apply put_view_other.
    + done.
  - split_and!; [done|by apply put_state_wf|by apply put_view|].
    intros. by apply put_view_other.
Qed.
Next Obligation.
  intros s t n id ws taskId Hwf Ht Hn. simpl.
  split_and!; [by apply putWrites_wf| |intros; by apply putWrites_view_other].
  rewrite putWrites_view by done. generalize (v_putWrites id taskId ws (mem_view s t n)) as l.
  induction l as [|x l IH]; constructor; [by split_and!|done].
Qed.

#[export] Instance mem_insertion_order : InsertionOrder Mem.t.
Proof. constructor. intros s t n id ws taskId Hwf Ht Hn. by apply putWrites_view. Qed.
