(* ===== verification/Frontier.v ===== *)
(** * The resumable frontier

    [PendingPauseRecord] of [packages/workflow/src/types.ts] and the frontier
    envelope of [engine.ts]: what a checkpoint's tags carry, its JSON-safety
    guard, and its encoding to and from the tag text. *)

From S2P Require Import Prelude JsValue Json Errors Pause CheckpointStore.
From stdpp Require Import pretty.

Local Open Scope string_scope.

Record PendingPauseRecord := mkPause {
  pp_nodeName : string;
  pp_value : value;
  pp_dispatchArgs : option value;
  pp_staticBefore : bool;
  pp_staticAfter : bool;
  pp_satisfied : option (list value);
  pp_satisfiedMeta : option (list (option identity));
  pp_wakeAt : option num;
  pp_name : option string;
}.

Inductive task_status := TCompleted | TFailed | TPaused.

#[export] Instance task_status_eq_dec : EqDecision task_status.
Proof. solve_decision. Defined.

Record StepTask := mkStepTask {
  st_taskId : string;
  st_nodeName : string;
  st_status : task_status;
  st_dispatchArgs : option value;
}.

Record DynamicEntry := mkDynamic {
  dy_nodeName : string;
  dy_dispatchArgs : option value;
}.

Record FrontierEnvelope := mkFrontier {
  fe_version : option string;
  fe_pauses : list PendingPauseRecord;
  fe_dynamic : list DynamicEntry;
  fe_completed : list string;
  fe_stepTasks : option (list StepTask);
}.

#[export] Instance PendingPauseRecord_eq_dec : EqDecision PendingPauseRecord.
Proof. solve_decision. Defined.
#[export] Instance StepTask_eq_dec : EqDecision StepTask.
Proof. solve_decision. Defined.
#[export] Instance DynamicEntry_eq_dec : EqDecision DynamicEntry.
Proof. solve_decision. Defined.
#[export] Instance FrontierEnvelope_eq_dec : EqDecision FrontierEnvelope.
Proof. solve_decision. Defined.

Definition emptyFrontier : FrontierEnvelope := mkFrontier None [] [] [] None.

(** ** Identities of recorded pauses *)

(** [pauseMetaOf] *)
Definition pauseMetaOf (p : PendingPauseRecord) : identity :=
  Identity (if is_object (pp_value p)
            then match getp "kind" (pp_value p) with VStr s => Some s | _ => None end
            else None)
           (pp_name p).

(** [priorMetaOf]: prior identities, padded with nulls for legacy records. *)
Definition priorMetaOf (p : PendingPauseRecord) : list (option identity) :=
  match pp_satisfiedMeta p with
  | Some ms => ms
  | None => map (fun _ => None) (default [] (pp_satisfied p))
  end.

(** ** JSON safety of what rides the tags *)

Definition check_safe (channel path : string) (v : value) : result exn unit :=
  match findNonJsonSafe v path with
  | Some (p, kind) => Err (StateNotSerializableError channel p kind)
  | None => Ok ()
  end.

Fixpoint check_indexed (channel path : string) (i : nat) (vs : list value) : result exn unit :=
  match vs with
  | [] => Ok ()
  | v :: vs' =>
      rbind (check_safe channel (path +:+ "[" +:+ pretty i +:+ "]") v)
            (fun _ => check_indexed channel path (S i) vs')
  end.

Definition meta_value (o : option identity) : value :=
  match o with
  | None => VNull
  | Some i => VObj (opt_field "kind" (VStr <$> id_kind i) ++ opt_field "name" (VStr <$> id_name i))
  end.

Definition check_pause (_ : unit) (p : PendingPauseRecord) : result exn unit :=
  let channel := "<pause:" +:+ pp_nodeName p +:+ ">" in
  rbind (check_safe channel (channel +:+ ".value") (pp_value p)) (fun _ =>
  rbind (check_safe channel (channel +:+ ".dispatchArgs") (undef_or (pp_dispatchArgs p))) (fun _ =>
  rbind (check_indexed channel (channel +:+ ".satisfied") 0 (default [] (pp_satisfied p))) (fun _ =>
  check_indexed channel (channel +:+ ".satisfiedMeta") 0
    (map meta_value (default [] (pp_satisfiedMeta p)))))).

Definition assertFrontierJsonSafe (f : FrontierEnvelope) : result exn unit :=
  rbind (foldM check_pause () (fe_pauses f)) (fun _ =>
  rbind (foldM (fun _ d =>
    let channel := "<dispatch:" +:+ dy_nodeName d +:+ ">" in
    check_safe channel (channel +:+ ".dispatchArgs") (undef_or (dy_dispatchArgs d)))
    () (fe_dynamic f)) (fun _ =>
  foldM (fun _ t =>
    let channel := "<task:" +:+ st_nodeName t +:+ ">" in
    check_safe channel (channel +:+ ".dispatchArgs") (undef_or (st_dispatchArgs t)))
    () (default [] (fe_stepTasks f)))).

(** ** The JSON value of an envelope *)

Definition true_field (k : string) (b : bool) : list (string * value) :=
  if b then [(k, VBool true)] else [].

Definition pause_value (p : PendingPauseRecord) : value :=
  VObj ([("nodeName", VStr (pp_nodeName p)); ("value", pp_value p)] ++
        opt_field "dispatchArgs" (pp_dispatchArgs p) ++
        true_field "staticBefore" (pp_staticBefore p) ++
        true_field "staticAfter" (pp_staticAfter p) ++
        opt_field "satisfied" (VArr <$> pp_satisfied p) ++
        opt_field "satisfiedMeta" ((fun ms => VArr (map meta_value ms)) <$> pp_satisfiedMeta p) ++
        opt_field "wakeAt" (VNum <$> pp_wakeAt p) ++
        opt_field "name" (VStr <$> pp_name p)).

Definition status_value (s : task_status) : value :=
  VStr match s with TCompleted => "completed" | TFailed => "failed" | TPaused => "paused" end.

Definition step_task_value (t : StepTask) : value :=
  VObj ([("taskId", VStr (st_taskId t)); ("nodeName", VStr (st_nodeName t));
         ("status", status_value (st_status t))] ++
        opt_field "dispatchArgs" (st_dispatchArgs t)).

Definition dynamic_value (d : DynamicEntry) : value :=
  VObj ([("nodeName", VStr (dy_nodeName d))] ++ opt_field "dispatchArgs" (dy_dispatchArgs d)).

Definition frontier_value (f : FrontierEnvelope) : value :=
  VObj ([("v", VNum (NFin 1))] ++
        opt_field "version" (VStr <$> fe_version f) ++
        [("pauses", VArr (map pause_value (fe_pauses f)));
         ("dynamic", VArr (map dynamic_value (fe_dynamic f)));
         ("completed", VArr (map VStr (fe_completed f)))] ++
        opt_field "stepTasks" ((fun ts => VArr (map step_task_value ts)) <$> fe_stepTasks f)).

Definition PAUSE_TAG_PREFIX := "pause:".
Definition FRONTIER_TAG_PREFIX := "frontier:".

Definition encodeFrontier (f : FrontierEnvelope) : list string :=
  (FRONTIER_TAG_PREFIX +:+ JSON_stringify (frontier_value f)) ::
  match fe_pauses f with
  | first :: _ => [PAUSE_TAG_PREFIX +:+ JSON_stringify (pause_value first)]
  | [] => []
  end.

(** ** Reading an envelope back *)

Definition arr_of (v : value) : option (list value) :=
  match v with VArr vs => Some vs | _ => None end.

Definition str_of (v : value) : option string :=
  match v with VStr s => Some s | _ => None end.

Definition num_of (v : value) : option num :=
  match v with VNum n => Some n | _ => None end.

Definition read_meta (v : value) : option identity :=
  match v with
  | VObj _ => Some (Identity (str_of (getp "kind" v)) (str_of (getp "name" v)))
  | _ => None
  end.

(** A record of the parsed array; kept when [typeof p?.nodeName === 'string']. *)
Definition read_pause (v : value) : option PendingPauseRecord :=
  match getp "nodeName" v with
  | VStr nodeName =>
      Some (mkPause nodeName (getp "value" v) (defined (getp "dispatchArgs" v))
              (truthy (getp "staticBefore" v)) (truthy (getp "staticAfter" v))
              (arr_of (getp "satisfied" v))
              ((fun ms => map read_meta ms) <$> arr_of (getp "satisfiedMeta" v))
              (num_of (getp "wakeAt" v)) (str_of (getp "name" v)))
  | _ => None
  end.

Definition read_status (v : value) : task_status :=
  if decide (v = VStr "completed") then TCompleted
  else if decide (v = VStr "paused") then TPaused else TFailed.

Definition read_step_task (v : value) : option StepTask :=
  match getp "taskId" v, getp "nodeName" v with
  | VStr taskId, VStr nodeName =>
      Some (mkStepTask taskId nodeName (read_status (getp "status" v))
              (defined (getp "dispatchArgs" v)))
  | _, _ => None
  end.

Definition read_dynamic (v : value) : option DynamicEntry :=
  match getp "nodeName" v with
  | VStr nodeName => Some (mkDynamic nodeName (defined (getp "dispatchArgs" v)))
  | _ => None
  end.

(** The typed view of a parsed frontier; reading a field of [null] throws. *)
Definition read_envelope (parsed : value) : option FrontierEnvelope :=
  if decide (parsed = VNull) then None
  else Some (mkFrontier (str_of (getp "version" parsed))
               (omap read_pause (default [] (arr_of (getp "pauses" parsed))))
               (omap read_dynamic (default [] (arr_of (getp "dynamic" parsed))))
               (omap str_of (default [] (arr_of (getp "completed" parsed))))
               ((fun ts : list value => omap read_step_task ts) <$>
                  arr_of (getp "stepTasks" parsed))).

Definition find_tag (prefix : string) (md : CheckpointMetadata) : option string :=
  match List.find (startsWith prefix) (default [] (md_tags md)) with
  | Some tag => Some (str_drop (String.length prefix) tag)
  | None => None
  end.

(** The legacy record restores neither [wakeAt] nor [name]. *)
Definition readLegacyPendingPause (md : CheckpointMetadata) : option PendingPauseRecord :=
  match find_tag PAUSE_TAG_PREFIX md with
  | None => None
  | Some json =>
      match JSON_parse json with
      | None => None
      | Some parsed =>
          match read_pause parsed with
          | None => None
          | Some p =>
              Some (mkPause (pp_nodeName p) (pp_value p) (pp_dispatchArgs p)
                      (pp_staticBefore p) (pp_staticAfter p) (pp_satisfied p)
                      (pp_satisfiedMeta p) None None)
          end
      end
  end.

Definition readFrontier (md : CheckpointMetadata) : FrontierEnvelope :=
  let legacy :=
    mkFrontier None (match readLegacyPendingPause md with Some p => [p] | None => [] end)
               [] [] None in
  match find_tag FRONTIER_TAG_PREFIX md with
  | None => legacy
  | Some json =>
      match JSON_parse json with
      | None => legacy
      | Some parsed => match read_envelope parsed with Some f => f | None => legacy end
      end
  end.

(** ** What survives the round trip

    [fnorm] is the frontier after a write and a read: [undefined] inside a
    value is dropped, and an answer that was [undefined] comes back [null]. *)

Definition norm_field (v : value) : value := if is_undef v then VUndef else jnorm v.

Definition norm_args (o : option value) : option value := o ≫= fun v => defined (norm_field v).

Definition pnorm (p : PendingPauseRecord) : PendingPauseRecord :=
  mkPause (pp_nodeName p) (norm_field (pp_value p)) (norm_args (pp_dispatchArgs p))
          (pp_staticBefore p) (pp_staticAfter p)
          ((fun vs => map jnorm vs) <$> pp_satisfied p) (pp_satisfiedMeta p)
          (pp_wakeAt p) (pp_name p).

Definition fnorm (f : FrontierEnvelope) : FrontierEnvelope :=
  mkFrontier (fe_version f) (map pnorm (fe_pauses f))
    (map (fun d => mkDynamic (dy_nodeName d) (norm_args (dy_dispatchArgs d))) (fe_dynamic f))
    (fe_completed f)
    ((fun ts => map (fun t => mkStepTask (st_taskId t) (st_nodeName t) (st_status t)
                                (norm_args (st_dispatchArgs t))) ts) <$> fe_stepTasks f).

(** A value that can be stored: JSON-safe, with distinct keys. *)
Definition storable (v : value) : bool := jsafe v && vwf v.

Definition pause_ok (p : PendingPauseRecord) : bool :=
  storable (pp_value p) && storable (undef_or (pp_dispatchArgs p)) &&
  forallb storable (default [] (pp_satisfied p)) &&
  match pp_wakeAt p with Some n => isFinite n | None => true end.

Definition frontier_ok (f : FrontierEnvelope) : bool :=
  forallb pause_ok (fe_pauses f) &&
  forallb (fun d => storable (undef_or (dy_dispatchArgs d))) (fe_dynamic f) &&
  forallb (fun t => storable (undef_or (st_dispatchArgs t))) (default [] (fe_stepTasks f)).

Lemma jget_opt_field k k' o : jget k (opt_field k' o) = if decide (k = k') then o else None.
Proof. destruct o; simpl; [done|by case_decide]. Qed.

Lemma jget_true_field k k' b :
  jget k (true_field k' b) = if decide (k = k') then (if b then Some (VBool true) else None) else None.
Proof. destruct b; simpl; by case_decide. Qed.

Lemma jget_keep_defined k fs :
  jwf fs ->
  default VUndef (jget k (keep_defined fs)) = norm_field (default VUndef (jget k fs)).
Proof.
  unfold jwf. induction fs as [|[k' v] fs IH]; intros Hnd; simpl; [done|].
  apply NoDup_cons in Hnd as [Hni Hnd].
  destruct (is_undef v) eqn:E; simpl; destruct (decide (k = k')) as [->|Hne];
    try by apply IH.
  - rewrite IH by done. change (k' ∉ jkeys fs) in Hni. apply jget_None in Hni. rewrite Hni.
    simpl. unfold norm_field. by rewrite E.
  - simpl. unfold norm_field. by rewrite E.
Qed.

(** Reading a property of a normalised object. *)
Lemma getp_jnorm k fs :
  jwf fs -> getp k (jnorm (VObj fs)) = norm_field (default VUndef (jget k fs)).
Proof. intros Hwf. unfold getp. by rewrite <-jget_keep_defined. Qed.

(** Evaluate comparisons of string literals. *)
Ltac lit_decide :=
  repeat match goal with
  | |- context [decide (?a = ?b :> string)] =>
      first [rewrite (decide_True (P := a = b)) by reflexivity
            |rewrite (decide_False (P := a = b)) by discriminate]
  end.

Ltac fields := repeat rewrite ?jget_app, ?jget_opt_field, ?jget_true_field; simpl jget; lit_decide.

Lemma pause_value_jwf p : jwf (entries (pause_value p)).
Proof.
  destruct p as [nn v da sb sa sat sm wk nm].
  apply (bool_decide_unpack (NoDup _)). unfold pause_value, entries, jkeys. simpl.
  destruct da, sb, sa, sat, sm, wk, nm; vm_compute; exact I.
Qed.

Lemma forallb_opt_field (P : string * value -> bool) k o :
  forallb P (opt_field k o) = match o with Some v => P (k, v) | None => true end.
Proof. destruct o; simpl; [by rewrite andb_true_r|done]. Qed.

Lemma forallb_true_field (P : string * value -> bool) k b :
  P (k, VBool true) = true -> forallb P (true_field k b) = true.
Proof. destruct b; simpl; [|done]. by intros ->. Qed.

Lemma storable_spec v : storable v = true <-> jsafe v = true /\ vwf v = true.
Proof. unfold storable. by rewrite andb_true_iff. Qed.

Lemma storable_obj fs :
  jwf fs -> forallb (fun p => storable p.2) fs = true -> storable (VObj fs) = true.
Proof.
  intros Hwf H. apply storable_spec. simpl. rewrite bool_decide_eq_true_2 by exact Hwf. simpl.
  induction fs as [|[k v] fs IH]; simpl in *; [done|].
  apply andb_true_iff in H as [[-> ->]%storable_spec H]. simpl.
  apply NoDup_cons in Hwf as [_ Hwf]. by apply IH.
Qed.

Lemma storable_arr vs : forallb storable vs = true -> storable (VArr vs) = true.
Proof.
  intros H. apply storable_spec. simpl. induction vs as [|v vs IH]; simpl in *; [done|].
  apply andb_true_iff in H as [[-> ->]%storable_spec H]. simpl. by apply IH.
Qed.

Lemma storable_meta o : storable (meta_value o) = true.
Proof. by destruct o as [[[] []]|]. Qed.

Lemma forallb_map {A B} (f : B -> bool) (g : A -> B) l :
  forallb f (map g l) = forallb (fun x => f (g x)) l.
Proof. induction l as [|x l IH]; simpl; [done|]. by rewrite IH. Qed.

Lemma forallb_ext_true {A} (f : A -> bool) l : (forall x, f x = true) -> forallb f l = true.
Proof. intros H. induction l; simpl; [done|]. by rewrite H. Qed.

Lemma pause_value_storable p : pause_ok p = true -> storable (pause_value p) = true.
Proof.
  unfold pause_ok. rewrite !andb_true_iff. intros [[[Hv Ha] Hs] Hw].
  apply storable_obj; [apply pause_value_jwf|].
  cbn [app forallb]. rewrite !forallb_app, !forallb_opt_field. cbn [snd].
  rewrite !(forallb_true_field _ _ _ eq_refl), Hv, ?andb_true_r. simpl.
  rewrite !andb_true_iff. split_and!.
  - by destruct (pp_dispatchArgs p).
  - destruct (pp_satisfied p); simpl; [|done]. by apply storable_arr.
  - destruct (pp_satisfiedMeta p); simpl; [|done]. apply storable_arr.
    rewrite forallb_map. apply forallb_ext_true, storable_meta.
  - by destruct (pp_wakeAt p) as [[]|].
  - by destruct (pp_name p).
Qed.

Lemma read_meta_value o : read_meta (jnorm (meta_value o)) = o.
Proof. by destruct o as [[[] []]|]. Qed.

Lemma read_pause_value p :
  pause_ok p = true -> read_pause (jnorm (pause_value p)) = Some (pnorm p).
Proof.
  intros Hok. pose proof (pause_value_jwf p) as Hwf. unfold read_pause.
  unfold pause_value in *. cbn [entries] in Hwf. rewrite !getp_jnorm by exact Hwf.
  fields. cbn [norm_field is_undef jnorm default]. unfold pnorm. f_equal. f_equal.
  - by destruct (pp_dispatchArgs p).
  - by destruct (pp_staticBefore p).
  - by destruct (pp_staticAfter p).
  - by destruct (pp_satisfied p).
  - destruct (pp_satisfiedMeta p) as [ms|]; [|done]. cbn.
    f_equal. clear Hwf. induction ms as [|o ms IH]; simpl; [done|]. by rewrite read_meta_value, IH.
  - unfold pause_ok in Hok. apply andb_true_iff in Hok as [_ Hw].
    by destruct (pp_wakeAt p) as [[]|].
  - by destruct (pp_name p).
Qed.

Lemma dynamic_value_jwf d : jwf (entries (dynamic_value d)).
Proof.
  destruct d as [n []]; apply (bool_decide_unpack (NoDup _)); vm_compute; exact I.
Qed.

Lemma step_task_value_jwf t : jwf (entries (step_task_value t)).
Proof.
  destruct t as [i n s []]; apply (bool_decide_unpack (NoDup _)); vm_compute; exact I.
Qed.

Lemma frontier_value_jwf f : jwf (entries (frontier_value f)).
Proof.
  destruct f as [[] ps ds cs []]; apply (bool_decide_unpack (NoDup _)); vm_compute; exact I.
Qed.

Lemma dynamic_value_storable d :
  storable (undef_or (dy_dispatchArgs d)) = true -> storable (dynamic_value d) = true.
Proof.
  intros H. apply storable_obj; [apply dynamic_value_jwf|]. cbn [app forallb].
  rewrite forallb_opt_field. destruct (dy_dispatchArgs d); [|done]. exact H.
Qed.

Lemma step_task_value_storable t :
  storable (undef_or (st_dispatchArgs t)) = true -> storable (step_task_value t) = true.
Proof.
  intros H. apply storable_obj; [apply step_task_value_jwf|]. cbn [app forallb].
  rewrite forallb_opt_field. destruct t as [? ? [] [a|]]; first [exact H|done].
Qed.

Lemma read_dynamic_value d :
  read_dynamic (jnorm (dynamic_value d)) =
  Some (mkDynamic (dy_nodeName d) (norm_args (dy_dispatchArgs d))).
Proof.
  pose proof (dynamic_value_jwf d) as Hwf. unfold read_dynamic, dynamic_value in *.
  cbn [entries] in Hwf. rewrite !getp_jnorm by exact Hwf. fields.
  cbn [norm_field is_undef jnorm default]. by destruct (dy_dispatchArgs d).
Qed.

Lemma read_step_task_value t :
  read_step_task (jnorm (step_task_value t)) =
  Some (mkStepTask (st_taskId t) (st_nodeName t) (st_status t) (norm_args (st_dispatchArgs t))).
Proof.
  pose proof (step_task_value_jwf t) as Hwf. unfold read_step_task, step_task_value in *.
  cbn [entries] in Hwf. rewrite !getp_jnorm by exact Hwf. fields.
  cbn [norm_field is_undef jnorm default].
  by destruct (st_dispatchArgs t), (st_status t).
Qed.

Lemma omap_map_Some {A B C} (f : B -> option C) (g : A -> B) (h : A -> C) l :
  (forall x, x ∈ l -> f (g x) = Some (h x)) -> omap f (map g l) = map h l.
Proof.
  induction l as [|x l IH]; intros H; csimpl; [done|].
  rewrite H by by left. rewrite IH; [done|]. intros; apply H. by right.
Qed.

Lemma forallb_elem {A} (f : A -> bool) l x : forallb f l = true -> x ∈ l -> f x = true.
Proof. rewrite forallb_forall. intros H Hx. by apply H, list_elem_of_In. Qed.

Lemma frontier_value_storable f : frontier_ok f = true -> storable (frontier_value f) = true.
Proof.
  unfold frontier_ok. rewrite !andb_true_iff. intros [[Hp Hd] Ht].
  apply storable_obj; [apply frontier_value_jwf|].
  cbn [app forallb]. rewrite !forallb_app, !forallb_opt_field. cbn [forallb snd].
  rewrite !andb_true_iff. split_and!; try done.
  - by destruct (fe_version f).
  - apply storable_arr. rewrite forallb_map. apply forallb_forall. intros p Hin%list_elem_of_In.
    by apply pause_value_storable, (forallb_elem _ _ _ Hp).
  - apply storable_arr. rewrite forallb_map. apply forallb_forall. intros d Hin%list_elem_of_In.
    by apply dynamic_value_storable, (forallb_elem _ _ _ Hd).
  - apply storable_arr. rewrite forallb_map. by apply forallb_ext_true.
  - destruct (fe_stepTasks f) as [ts|]; simpl in *; [|done].
    rewrite ?andb_true_r. apply storable_arr. rewrite forallb_map. apply forallb_forall. intros t Hin%list_elem_of_In.
    by apply step_task_value_storable, (forallb_elem _ _ _ Ht).
Qed.

Lemma read_envelope_value f :
  frontier_ok f = true -> read_envelope (jnorm (frontier_value f)) = Some (fnorm f).
Proof.
  unfold frontier_ok. rewrite !andb_true_iff. intros [[Hp Hd] Ht].
  pose proof (frontier_value_jwf f) as Hwf. unfold read_envelope.
  rewrite decide_False by (unfold frontier_value; simpl; discriminate).
  unfold frontier_value in *. cbn [entries] in Hwf. rewrite !getp_jnorm by exact Hwf.
  fields. cbn [id norm_field is_undef jnorm default arr_of]. unfold fnorm. f_equal. f_equal.
  - by destruct (fe_version f).
  - rewrite map_map. apply omap_map_Some. intros p Hin.
    by apply read_pause_value, (forallb_elem _ _ _ Hp).
  - rewrite map_map. apply omap_map_Some. intros d Hin. apply read_dynamic_value.
  - rewrite map_map. rewrite (omap_map_Some _ _ id) by done. apply map_id.
  - destruct (fe_stepTasks f) as [ts|]; [|done]. cbn. f_equal. rewrite map_map.
    apply omap_map_Some. intros t Hin. apply read_step_task_value.
Qed.

(** Writing a frontier and reading it back. *)
Lemma readFrontier_encode f md :
  frontier_ok f = true -> md_tags md = Some (encodeFrontier f) -> readFrontier md = fnorm f.
Proof.
  intros Hok Htags.
  assert (find_tag FRONTIER_TAG_PREFIX md = Some (JSON_stringify (frontier_value f))) as Hfind.
  { unfold find_tag. rewrite Htags. unfold encodeFrontier. cbn [default from_option List.find].
    unfold id. cbn [List.find]. rewrite startsWith_app. by rewrite str_drop_app. }
  unfold readFrontier. rewrite Hfind.
  pose proof (frontier_value_storable f Hok) as [Hs Hw]%storable_spec.
  rewrite JSON_roundtrip by done. by rewrite read_envelope_value.
Qed.
