(* ===== verification/Engine.v ===== *)
(** * The step-graph engine: data and planning

    [packages/workflow/src/internal/engine.ts] up to the effects: the workflow
    definition, a run's internal state, planning ([planTasks]), the harvest of
    a node's output, the per-node timeout/retry policy, and the records built
    from a step's outcomes. *)

From S2P Require Import Prelude JsValue Json Errors Pause Channels CheckpointStore Frontier.

Local Open Scope string_scope.

(** ** Workflow definitions ([types.ts]) *)

Definition START_NODE := "__start__".
Definition END_NODE := "__end__".

Inductive StreamMode := SValues | SUpdates | SMessages | STasks | SCheckpoints | SDebug | SCustom.

#[export] Instance StreamMode_eq_dec : EqDecision StreamMode.
Proof. solve_decision. Defined.

(** The part of [WorkflowContext] a body can read. *)
Record WorkflowContext := mkCtx {
  cx_threadId : string;
  cx_stepNumber : nat;
  cx_taskId : string;
  cx_state : jstate;
  cx_dispatchArgs : option value;
}.

Record RetryPolicy := mkRetry {
  rp_maxAttempts : option Z;
  rp_backoffMs : option Z;
}.

(** [run] may behave differently on every invocation: task ids are unique, so
    a function of the context and the attempt number is any impure body. *)
Record WorkflowNode := mkNode {
  wn_run : WorkflowContext -> nat -> prog;
  wn_timeoutMs : option num;
  wn_retry : option RetryPolicy;
}.

Record WorkflowEdge := mkEdge {
  we_from : string;
  we_to : string;
  we_when : option (jstate -> bool);
}.

Record WorkflowConfig := mkConfig {
  cfg_name : string;
  cfg_nodes : list (string * WorkflowNode);
  cfg_edges : list WorkflowEdge;
  cfg_channels : list (string * channel);
  cfg_initialState : jstate;
  cfg_pauseBefore : list string;
  cfg_pauseAfter : list string;
  cfg_durability : option DurabilityMode;
  cfg_maxSteps : option nat;
  cfg_maxTotalSteps : option nat;
  cfg_validateState : option (jstate -> result exn unit);
  cfg_defaultTimeoutMs : option num;
  cfg_defaultRetry : option RetryPolicy;
  cfg_version : option string;
  cfg_journalSteps : bool;
}.

Definition namespaceFor (name : string) : string := "workflow/" +:+ name.

Definition DEFAULT_MAX_STEPS := 200.

Definition maxSteps_of (cfg : WorkflowConfig) : nat := default DEFAULT_MAX_STEPS (cfg_maxSteps cfg).

Definition edge_fires (e : WorkflowEdge) (state : jstate) : bool :=
  match we_when e with Some p => p state | None => true end.

(** ** Tasks and the internal state of a run *)

Inductive task_source := SrcEdge | SrcDispatch | SrcResume | SrcStart.

#[export] Instance task_source_eq_dec : EqDecision task_source.
Proof. solve_decision. Defined.

Record PlannedTask := mkTask {
  tk_id : string;
  tk_node : string;
  tk_source : task_source;
  tk_args : option value;
  tk_resumeValues : option (list value);
  tk_resumeMeta : option (list (option identity));
  tk_staticBefore : bool;
  tk_freshResume : bool;
}.

Definition dispatch_task (id node : string) (args : option value) : PlannedTask :=
  mkTask id node SrcDispatch args None None false false.

Record RunInternalState := mkInternal {
  ri_state : jstate;
  ri_versions : jversions;
  ri_dynamic : list PlannedTask;
  ri_completed : list string;
  ri_stepNumber : nat;
  ri_stepsThisInvocation : nat;
  ri_parent : option string;
  ri_pauses : list PendingPauseRecord;
  ri_status : status;
  ri_closed : bool;
}.

(** ** Planning *)

Inductive plan :=
| PlanTasks (tasks : list PlannedTask)
| PlanSuspend (gated : PlannedTask) (rest : list PlannedTask)
| PlanDeadEnd (stalled : list string).

Definition barrier_map (state : jstate) (channelName : string) : jstate :=
  match jget channelName state with
  | Some (VObj fs) => fs
  | Some (VExotic k i fs) => if decide (typeof (VExotic k i fs) = TObject) then fs else []
  | _ => []
  end.

(** [barrierDefersNode]: a node fed by two or more writers of one barrier
    waits for every writer. *)
Definition barrierDefersNode (cfg : WorkflowConfig) (state : jstate) (nodeName : string) : bool :=
  existsb (fun p : string * channel =>
    match p.2 with
    | Barrier from _ =>
        let joinSources :=
          remove_dups (map we_from
            (List.filter (fun e => bool_decide (we_to e = nodeName) &&
                                   bool_decide (we_from e ∈ from)) (cfg_edges cfg))) in
        negb (bool_decide (length joinSources < 2)) &&
        negb (forallb (fun writer => in_object writer (barrier_map state p.1)) from)
    | _ => false
    end) (cfg_channels cfg).

Definition reachableEnd (cfg : WorkflowConfig) (fromCompleted : list string) (state : jstate) : bool :=
  existsb (fun nodeName =>
    existsb (fun e => bool_decide (we_from e = nodeName) && bool_decide (we_to e = END_NODE) &&
                      edge_fires e state) (cfg_edges cfg)) fromCompleted.

(** The targets of the fired edges, in walk order. *)
Definition reachable (cfg : WorkflowConfig) (fromCompleted : list string) (state : jstate) : list string :=
  flat_map (fun nodeName =>
    map we_to (List.filter (fun e => bool_decide (we_from e = nodeName) &&
                                     negb (bool_decide (we_to e = END_NODE)) &&
                                     edge_fires e state) (cfg_edges cfg))) fromCompleted.

(** The first gated task and the others. *)
Fixpoint split_gated (before : list string) (pre planned : list PlannedTask) :
    option (PlannedTask * list PlannedTask) :=
  match planned with
  | [] => None
  | t :: rest =>
      if negb (bool_decide (tk_source t = SrcResume)) && negb (tk_staticBefore t) &&
         bool_decide (tk_node t ∈ before)
      then Some (t, pre ++ rest)%list
      else split_gated before (pre ++ [t])%list rest
  end.

Section Plan.
(** The identifiers [newId(prefix)] draws, by draw number. *)
Context (newId : string -> nat -> string).

Definition plan_edges (cfg : WorkflowConfig) (state : jstate)
    (acc : list PlannedTask * nat) (nodeName : string) : list PlannedTask * nat :=
  let '(planned, ids) := acc in
  if existsb (fun t => bool_decide (tk_node t = nodeName)) planned then acc
  else if barrierDefersNode cfg state nodeName then acc
  else ((planned ++ [mkTask (newId "task" ids) nodeName SrcEdge None None None false false])%list,
        S ids).

(** [planTasks]: the plan and the draw counter after it. *)
Definition planTasks (cfg : WorkflowConfig) (internal : RunInternalState) (ids : nat) :
    plan * nat :=
  let fromCompleted := ri_completed internal in
  let '(planned, ids') :=
    foldl (plan_edges cfg (ri_state internal)) (ri_dynamic internal, ids)
          (reachable cfg fromCompleted (ri_state internal)) in
  match split_gated (cfg_pauseBefore cfg) [] planned with
  | Some (gated, rest) => (PlanSuspend gated rest, ids')
  | None =>
      if bool_decide (planned = []) && negb (bool_decide (fromCompleted = [])) then
        if reachableEnd cfg fromCompleted (ri_state internal) then (PlanTasks [], ids')
        else (PlanDeadEnd fromCompleted, ids')
      else (PlanTasks planned, ids')
  end.
End Plan.

(** ** Harvest of a node's output *)

Definition isDispatchLike (v : value) : bool :=
  is_object v && bool_decide (getp "__graphorinDispatch" v = VBool true) &&
  bool_decide (typeof (getp "nodeName" v) = TString) && hasp "args" v.

(** [new Dispatch(nodeName, args)] *)
Definition Dispatch (id : positive) (nodeName : string) (args : value) : value :=
  VExotic (XClass "Dispatch") id
    [("__graphorinDispatch", VBool true); ("nodeName", VStr nodeName); ("args", args)].

Definition dispatch_of (v : value) : string * value :=
  (match getp "nodeName" v with VStr s => s | _ => "" end, getp "args" v).

(** [consume]: channel writes and dispatches, in order.  A [Dispatch] instance
    also satisfies [isDispatchLike], so one test covers both source tests. *)
Fixpoint consume (v : value) : list (string * value) * list (string * value) :=
  if isDispatchLike v then ([], [dispatch_of v])
  else match v with
       | VArr vs =>
           (fix go (vs : list value) : list (string * value) * list (string * value) :=
              match vs with
              | [] => ([], [])
              | x :: vs' =>
                  let '(w1, d1) := consume x in
                  let '(w2, d2) := go vs' in
                  ((w1 ++ w2)%list, (d1 ++ d2)%list)
              end) vs
       | VObj fs => (List.filter (fun p => negb (is_undef p.2)) fs, [])
       | VExotic k i fs =>
           if decide (typeof (VExotic k i fs) = TObject)
           then (List.filter (fun p => negb (is_undef p.2)) fs, []) else ([], [])
       | _ => ([], [])
       end.

Definition number_writes (nodeName taskId : string) (ws : list (string * value)) :
    list ChannelWrite :=
  imap (fun i p => mkWrite nodeName taskId i p.1 p.2) ws.

Definition harvestNodeOutput (nodeName taskId : string) (output : value) :
    list ChannelWrite * list (string * value) :=
  let '(ws, ds) := consume output in (number_writes nodeName taskId ws, ds).

Definition directiveUpdateToWrites (nodeName : string) (update : value) : list ChannelWrite :=
  number_writes nodeName "__directive__" (entries update).

Definition groupWritesByTask (writes : list ChannelWrite) : list (string * list ChannelWrite) :=
  foldl (fun out w =>
    jset (cw_taskId w) (default [] (jget (cw_taskId w) out) ++ [w])%list out) [] writes.

(** [writes.map((w, idx) => ({ taskId, index: idx, channel, value }))] *)
Definition pending_of (writes : list ChannelWrite) : list PendingWrite :=
  imap (fun i w => mkPending (cw_taskId w) i (cw_channel w) (cw_value w)) writes.

(** ** The per-node policy

    The clock decides when a timeout or an abort lands; [TaskEnv] is one such
    schedule, measured in attempts of the body. *)

Record TaskEnv := mkTaskEnv {
  (** the node timer fires before this attempt settles *)
  te_timeout : option nat;
  (** the step signal aborts during this attempt ([false]) or in the backoff
      that follows it ([true]) *)
  te_abort : option (nat * bool);
}.

Definition quiet_env : TaskEnv := mkTaskEnv None None.

Definition aborted_at_settle (env : TaskEnv) (attempt : nat) : bool :=
  match te_abort env with
  | Some (k, inBackoff) => bool_decide (k < attempt) || (bool_decide (k = attempt) && negb inBackoff)
  | None => false
  end.

Definition aborted_after (env : TaskEnv) (attempt : nat) : bool :=
  match te_abort env with Some (k, _) => bool_decide (k <= attempt) | None => false end.

Definition maxAttempts_of (retry : option RetryPolicy) : nat :=
  Z.to_nat (Z.max 1 (default 1%Z (retry ≫= rp_maxAttempts))).

Definition backoffBase_of (retry : option RetryPolicy) : Z :=
  Z.max 0 (default 250%Z (retry ≫= rp_backoffMs)).

(** [backoffBase * 2 ** (attempt - 1)] *)
Definition backoff_of (retry : option RetryPolicy) (attempt : nat) : Z :=
  (backoffBase_of retry * 2 ^ (Z.of_nat attempt - 1))%Z.

Definition run_body (node : WorkflowNode) (ctx : WorkflowContext) (task : PlannedTask)
    (attempt : nat) : result exn value :=
  if decide (tk_source task = SrcResume)
  then runWithPauseResume (default [] (tk_resumeValues task)) (tk_resumeMeta task)
                          (wn_run node ctx attempt)
  else run_unscoped (wn_run node ctx attempt).

(** [invoke]: the attempt loop; [left] attempts remain, the result comes with
    the attempt that settled it. *)
Fixpoint invoke (node : WorkflowNode) (ctx : WorkflowContext) (task : PlannedTask)
    (retry : option RetryPolicy) (env : TaskEnv) (left attempt : nat) : result exn value * nat :=
  match run_body node ctx task attempt with
  | Ok v => (Ok v, attempt)
  | Err e =>
      match isPauseSignal e with
      | Some _ => (Err e, attempt)
      | None =>
          if aborted_at_settle env attempt then (Err e, attempt)
          else match left with
               | 0 => (Err e, attempt)
               | S left' =>
                   if bool_decide (0 < backoff_of retry attempt)%Z && aborted_after env attempt
                   then (Err e, attempt)
                   else invoke node ctx task retry env left' (S attempt)
               end
      end
  end.

Definition timeout_active (timeoutMs : option num) : option Z :=
  match timeoutMs with
  | Some (NFin z) => if decide (0 < z)%Z then Some z else None
  | _ => None
  end.

Definition runNodeWithPolicy (node : WorkflowNode) (ctx : WorkflowContext) (task : PlannedTask)
    (timeoutMs : option num) (retry : option RetryPolicy) (env : TaskEnv) :
    result exn value * nat :=
  let '(r, settled) := invoke node ctx task retry env (maxAttempts_of retry - 1) 1 in
  match timeout_active timeoutMs, te_timeout env with
  | Some ms, Some k =>
      if decide (k <= settled) then (Err (NodeTimeoutError (tk_node task) ms), k) else (r, settled)
  | _, _ => (r, settled)
  end.

(** ** Outcomes of a step *)

Record Outcome := mkOutcome {
  oc_task : PlannedTask;
  oc_writes : list ChannelWrite;
  oc_paused : option value;
  oc_status : task_status;
  oc_dispatches : list PlannedTask;
  oc_rejectedResume : bool;
}.

(** Outcomes are pushed in completion order and re-keyed by planned order. *)
Definition orderOutcomes (tasks : list PlannedTask) (outcomes : list Outcome) : list Outcome :=
  let byId := foldl (fun m o => jset (tk_id (oc_task o)) o m) [] outcomes in
  omap (fun t => jget (tk_id t) byId) tasks.

(** [xs.slice(0, -1)] *)
Definition drop_last {A} (l : list A) : list A := take (length l - 1) l.

Definition nonempty {A} (l : list A) : option (list A) :=
  match l with [] => None | _ => Some l end.

(** The record of one paused task. *)
Definition pauseRecordOf (o : Outcome) (v : value) : PendingPauseRecord :=
  let trim := fun {A} (l : list A) => if oc_rejectedResume o then drop_last l else l in
  let satisfied := trim (default [] (tk_resumeValues (oc_task o))) in
  let satisfiedMeta := trim (default [] (tk_resumeMeta (oc_task o))) in
  mkPause (tk_node (oc_task o)) v (tk_args (oc_task o)) false false
    (nonempty satisfied) (nonempty satisfiedMeta)
    (if isApprovalPauseValue v && bool_decide (typeof (getp "wakeAt" v) = TNumber)
     then num_of (getp "wakeAt" v)
     else if isTimerPauseValue v then num_of (getp "wakeAt" v) else None)
    (if isAwakeablePauseValue v || isApprovalPauseValue v then str_of (getp "name" v) else None).

Definition pauseRecordsOf (ordered : list Outcome) : list PendingPauseRecord :=
  omap (fun o => pauseRecordOf o <$> oc_paused o) ordered.

Definition is_completed (o : Outcome) : bool := bool_decide (oc_status o = TCompleted).

Definition completedWrites (ordered : list Outcome) : list ChannelWrite :=
  flat_map oc_writes (List.filter is_completed ordered).

Definition completedDispatches (ordered : list Outcome) : list PlannedTask :=
  flat_map oc_dispatches (List.filter is_completed ordered).

(** ** Frontiers of a run *)

Definition frontierFromInternal (internal : RunInternalState) (version : option string) :
    FrontierEnvelope :=
  mkFrontier version (ri_pauses internal)
    (map (fun t => mkDynamic (tk_node t) (tk_args t)) (ri_dynamic internal))
    (ri_completed internal) None.

(** The failure frontier: the failed step's task list and its pauses. *)
Definition failureFrontier (cfg : WorkflowConfig) (tasks : list PlannedTask)
    (outcomes : list Outcome) (pauseRecords : list PendingPauseRecord) : FrontierEnvelope :=
  let byTask := foldl (fun m o => jset (tk_id (oc_task o)) (oc_status o) m) [] outcomes in
  mkFrontier (cfg_version cfg) pauseRecords [] []
    (Some (map (fun t => mkStepTask (tk_id t) (tk_node t)
                           (default TFailed (jget (tk_id t) byTask)) (tk_args t)) tasks)).

(** ** Persisted state *)

Definition CHECKPOINT_SCHEMA_VERSION := "graphorin-workflow-checkpoint/1.0".

Definition serializeState (state : jstate) : result exn value :=
  rbind (foldM (fun _ p => check_safe p.1 p.1 p.2) () state) (fun _ =>
    Ok (VObj [("schema", VStr CHECKPOINT_SCHEMA_VERSION); ("state", structuredClone (VObj state))])).

Definition unwrapPersistedState (raw : value) : value :=
  if is_object raw && bool_decide (getp "schema" raw = VStr CHECKPOINT_SCHEMA_VERSION)
  then getp "state" raw else raw.

Definition restoreState (cp : Checkpoint) : jstate * jversions :=
  (entries (unwrapPersistedState (cp_state cp)), cp_channelVersions cp).

(** ** The step journal *)

Definition STEP_INTENT_TASK_ID := "__graphorin_step_intent__".
Definition STEP_INTENT_CHANNEL := "__graphorin_step_intent__".
Definition TASK_DONE_CHANNEL := "__graphorin_task_done__".

Definition source_value (s : task_source) : value :=
  VStr match s with SrcEdge => "edge" | SrcDispatch => "dispatch" | SrcResume => "resume" | SrcStart => "start" end.

Definition intent_task_value (t : PlannedTask) : value :=
  VObj ([("taskId", VStr (tk_id t)); ("nodeName", VStr (tk_node t));
         ("source", source_value (tk_source t))] ++
        opt_field "dispatchArgs" (tk_args t) ++
        opt_field "resumeValues" (VArr <$> tk_resumeValues t) ++
        opt_field "resumeMeta" ((fun ms => VArr (map meta_value ms)) <$> tk_resumeMeta t) ++
        true_field "staticBefore" (tk_staticBefore t)).

Definition intent_row (stepNumber : nat) (tasks : list PlannedTask) : PendingWrite :=
  mkPending STEP_INTENT_TASK_ID 0 STEP_INTENT_CHANNEL
    (VObj [("v", VNum (NFin 1)); ("stepNumber", VNum (NFin (Z.of_nat stepNumber)));
           ("tasks", VArr (map intent_task_value tasks))]).

Definition done_rows (taskId : string) (writes : list ChannelWrite) : list PendingWrite :=
  (imap (fun i w => mkPending taskId i (cw_channel w) (cw_value w)) writes ++
   [mkPending taskId (length writes) TASK_DONE_CHANNEL (VBool true)])%list.

Record StepJournal := mkJournal {
  sj_replayWrites : list ChannelWrite;
  sj_completedNodes : list string;
  sj_rerunTasks : list PlannedTask;
}.

(** A task of the intent row, as [readStepJournal] reads it. *)
Definition read_intent_task (v : value) : option (PlannedTask) :=
  match getp "taskId" v, getp "nodeName" v with
  | VStr taskId, VStr nodeName =>
      Some (mkTask taskId nodeName
              (if decide (getp "source" v = VStr "resume") then SrcResume else SrcDispatch)
              (defined (getp "dispatchArgs" v)) (arr_of (getp "resumeValues" v))
              ((fun ms => map read_meta ms) <$> arr_of (getp "resumeMeta" v))
              (bool_decide (getp "staticBefore" v = VBool true)) false)
  | _, _ => None
  end.

Section Journal.
Context (newId : string -> nat -> string).

Definition with_fresh_id (ids : nat) (i : nat) (t : PlannedTask) : PlannedTask :=
  mkTask (newId "task" (ids + i)) (tk_node t) (tk_source t) (tk_args t) (tk_resumeValues t)
         (tk_resumeMeta t) (tk_staticBefore t) (tk_freshResume t).

(** [readStepJournal]: [None] when no intent of the expected step exists. *)
Definition readStepJournal (rows : list PendingWrite) (expectedStepNumber : nat) (ids : nat) :
    option StepJournal :=
  match List.find (fun r => bool_decide (pw_taskId r = STEP_INTENT_TASK_ID) &&
                            bool_decide (pw_channel r = STEP_INTENT_CHANNEL)) rows with
  | None => None
  | Some intentRow =>
      let intent := pw_value intentRow in
      if bool_decide (getp "v" intent = VNum (NFin 1)) &&
         bool_decide (getp "stepNumber" intent = VNum (NFin (Z.of_nat expectedStepNumber)))
      then
        let tasks := omap read_intent_task (default [] (arr_of (getp "tasks" intent))) in
        if decide (tasks = []) then None
        else
          let doneIds := map pw_taskId
            (List.filter (fun r => bool_decide (pw_channel r = TASK_DONE_CHANNEL)) rows) in
          let done := fun t => bool_decide (tk_id t ∈ doneIds) in
          let replayWrites := flat_map (fun t =>
            if done t then
              map (fun r => mkWrite (tk_node t) (pw_taskId r) (pw_index r) (pw_channel r) (pw_value r))
                (List.filter (fun r => bool_decide (pw_taskId r = tk_id t) &&
                                       negb (bool_decide (pw_channel r = TASK_DONE_CHANNEL))) rows)
            else []) tasks in
          Some (mkJournal replayWrites
                  (map tk_node (List.filter done tasks))
                  (imap (with_fresh_id ids) (List.filter (fun t => negb (done t)) tasks)))
      else None
  end.
End Journal.
