(* ===== verification/EngineRun.v ===== *)
(** * The step-graph engine: execution

    The effectful half of [packages/workflow/src/internal/engine.ts]:
    [persistCheckpoint], one iteration of [driveRun]'s loop, [runEngine],
    [resumeEngine] and [forkThread], written in a state-and-error monad whose
    state holds the checkpoint store, the run's internal state and the events
    yielded so far; a thrown error keeps the writes and events made before it.

    What the surrounding process decides is explicit: [world] is what other
    writers do to the store at each await, and a [StepEnv] fixes one step's
    schedule (completion order of the parallel tasks, aborts, timeouts).
    [workflow.task.*] and [workflow.custom] events, spans and warnings carry
    no state and are not part of the trace. *)

From S2P Require Import Prelude JsValue Json Errors Pause Channels CheckpointStore Frontier Engine.

Local Open Scope string_scope.

Inductive event :=
| EvStart (threadId workflowId : string)
| EvResumed (threadId : string) (stepNumber : nat) (state : jstate)
| EvStepStart (stepNumber : nat) (state : jstate)
| EvStepEnd (stepNumber : nat) (state : jstate)
| EvChannelUpdate (stepNumber : nat) (channel : string) (version : nat) (v : option value)
| EvCheckpointWritten (checkpointId : string) (stepNumber : nat)
| EvSuspended (threadId : string) (stepNumber : nat) (state : jstate) (v : value)
| EvEnd (threadId : string) (state : jstate)
| EvError (threadId code : string).

(** One step's schedule. *)
Record StepEnv := mkStepEnv {
  se_abort_top : bool;          (** [signal.aborted] at the loop top *)
  se_order : list nat;          (** planned positions, in completion order *)
  se_tasks : nat -> TaskEnv;    (** timeouts and aborts seen by each task *)
  se_abort_step : bool;         (** [signal.aborted] once the step settled *)
  se_grace_expired : bool;      (** the cancellation grace ran out first *)
  se_abort_after : bool;        (** [signal.aborted] after the step's checkpoint *)
}.

(** No abort, every task runs once, completing in planned order. *)
Definition quiet_step (n : nat) : StepEnv :=
  mkStepEnv false (seq 0 n) (fun _ => quiet_env) false false false.

Record Directive := mkDirective {
  dr_goto : option string;
  dr_resume : value;
  dr_update : option value;
}.

Section Engine.
Context {S : Type} `{CheckpointStore S}.
Context (newId : string -> nat -> string).

Record RunState := mkRun {
  rs_store : S;
  rs_ids : nat;
  rs_tick : nat;
  rs_now : Z;
  rs_events : list event;
  rs_lock : list string;
  rs_int : RunInternalState;
}.

(** What other processes do to the store at the n-th await. *)
Context (world : nat -> S -> S).

(** ** The monad *)

Definition M (A : Type) : Type := RunState -> RunState * result exn A.

Definition ret {A} (a : A) : M A := fun st => (st, Ok a).
Definition throw {A} (e : exn) : M A := fun st => (st, Err e).
Definition bind {A B} (m : M A) (f : A -> M B) : M B := fun st =>
  match m st with
  | (st', Ok a) => f a st'
  | (st', Err e) => (st', Err e)
  end.
Definition lift {A} (r : result exn A) : M A := fun st => (st, r).

Local Notation "x <- m ;; k" := (bind m (fun x => k))
  (at level 100, m at next level, right associativity) : js_scope.
Local Notation "m ;; k" := (bind m (fun _ => k))
  (at level 100, k at level 200, right associativity) : js_scope.
Local Open Scope js_scope.

Definition get : M RunState := fun st => (st, Ok st).
Definition set_store (f : S -> S) : M unit := fun st =>
  (mkRun (f (rs_store st)) (rs_ids st) (rs_tick st) (rs_now st) (rs_events st) (rs_lock st)
         (rs_int st), Ok ()).
Definition set_int (f : RunInternalState -> RunInternalState) : M unit := fun st =>
  (mkRun (rs_store st) (rs_ids st) (rs_tick st) (rs_now st) (rs_events st) (rs_lock st)
         (f (rs_int st)), Ok ()).
Definition set_ids (n : nat) : M unit := fun st =>
  (mkRun (rs_store st) n (rs_tick st) (rs_now st) (rs_events st) (rs_lock st) (rs_int st), Ok ()).
Definition yield (e : event) : M unit := fun st =>
  (mkRun (rs_store st) (rs_ids st) (rs_tick st) (rs_now st) (rs_events st ++ [e])%list
         (rs_lock st) (rs_int st), Ok ()).
Definition yield_if (b : bool) (e : event) : M unit := if b then yield e else ret ().
Definition set_lock (f : list string -> list string) : M unit := fun st =>
  (mkRun (rs_store st) (rs_ids st) (rs_tick st) (rs_now st) (rs_events st) (f (rs_lock st))
         (rs_int st), Ok ()).
Definition fresh (prefix : string) : M string := fun st =>
  (mkRun (rs_store st) (1 + rs_ids st) (rs_tick st) (rs_now st) (rs_events st) (rs_lock st)
         (rs_int st), Ok (newId prefix (rs_ids st))).

(** An await: other writers run, then the store is read or written. *)
Definition await_store : M unit := fun st =>
  (mkRun (world (rs_tick st) (rs_store st)) (rs_ids st) (1 + rs_tick st) (rs_now st)
         (rs_events st) (rs_lock st) (rs_int st), Ok ()).

Fixpoint forM {A} (l : list A) (f : A -> M unit) : M unit :=
  match l with
  | [] => ret ()
  | x :: l' => f x ;; forM l' f
  end.

(** [try { m } catch (err) { h err }] and [try { m } finally { f }] *)
Definition catch {A} (m : M A) (h : exn -> M A) : M A := fun st =>
  match m st with
  | (st', Ok a) => (st', Ok a)
  | (st', Err e) => h e st'
  end.
Definition finally {A} (m : M A) (f : M unit) : M A := fun st =>
  match m st with
  | (st', r) => match f st' with (st'', Ok _) => (st'', r) | (st'', Err e) => (st'', Err e) end
  end.

(** ** Updates of the internal state *)

Definition set_status (s : status) : M unit := set_int (fun i =>
  mkInternal (ri_state i) (ri_versions i) (ri_dynamic i) (ri_completed i) (ri_stepNumber i)
             (ri_stepsThisInvocation i) (ri_parent i) (ri_pauses i) s (ri_closed i)).
Definition close : M unit := set_int (fun i =>
  mkInternal (ri_state i) (ri_versions i) (ri_dynamic i) (ri_completed i) (ri_stepNumber i)
             (ri_stepsThisInvocation i) (ri_parent i) (ri_pauses i) (ri_status i) true).
Definition set_frontier (dynamic : list PlannedTask) (completed : list string) : M unit :=
  set_int (fun i =>
    mkInternal (ri_state i) (ri_versions i) dynamic completed (ri_stepNumber i)
               (ri_stepsThisInvocation i) (ri_parent i) (ri_pauses i) (ri_status i) (ri_closed i)).
Definition set_pauses (ps : list PendingPauseRecord) : M unit := set_int (fun i =>
  mkInternal (ri_state i) (ri_versions i) (ri_dynamic i) (ri_completed i) (ri_stepNumber i)
             (ri_stepsThisInvocation i) (ri_parent i) ps (ri_status i) (ri_closed i)).
Definition set_state (s : jstate) (v : jversions) : M unit := set_int (fun i =>
  mkInternal s v (ri_dynamic i) (ri_completed i) (ri_stepNumber i)
             (ri_stepsThisInvocation i) (ri_parent i) (ri_pauses i) (ri_status i) (ri_closed i)).
Definition set_parent (p : string) : M unit := set_int (fun i =>
  mkInternal (ri_state i) (ri_versions i) (ri_dynamic i) (ri_completed i) (ri_stepNumber i)
             (ri_stepsThisInvocation i) (Some p) (ri_pauses i) (ri_status i) (ri_closed i)).
Definition advance : M unit := set_int (fun i =>
  mkInternal (ri_state i) (ri_versions i) (ri_dynamic i) (ri_completed i)
             (1 + ri_stepNumber i) (1 + ri_stepsThisInvocation i) (ri_parent i) (ri_pauses i)
             (ri_status i) (ri_closed i)).

(** ** Errors as events *)

Definition emitError (threadId : string) (e : exn) : event :=
  EvError threadId (default "node-execution-failed" (code_of e)).

Definition wrapNodeFailure (nodeName : string) (cause : exn) : exn :=
  if isWorkflowError cause then cause else NodeExecutionError nodeName cause.

(** ** Persisting a checkpoint *)

(** The earliest timer of a suspension, for [listSuspended]. *)
Definition earliest_wake (pauses : list PendingPauseRecord) : option Z :=
  foldl (fun mn p =>
    match pp_wakeAt p with
    | Some (NFin w) =>
        match mn with Some m => if decide (w < m)%Z then Some w else mn | None => Some w end
    | _ => mn
    end) None pauses.

Record RunArgs := mkArgs {
  ra_cfg : WorkflowConfig;
  ra_threadId : string;
  ra_durability : DurabilityMode;
  ra_stream : StreamMode;
}.

Definition ra_ns (args : RunArgs) : string := namespaceFor (cfg_name (ra_cfg args)).

(** The compare-and-set pre-check against the latest stored checkpoint. *)
Definition precheck (threadId : string) (parent : option string)
    (latest : option CheckpointTuple) : result exn unit :=
  match latest with
  | None => Ok ()
  | Some l =>
      match parent with
      | Some p =>
          if decide (ct_id l = p) then Ok ()
          else Err (CheckpointVersionConflictError threadId p (ct_id l))
      | None =>
          if decide (ct_status l ∈ [Running; Suspended])
          then Err (CheckpointVersionConflictError threadId "<fresh-run>" (ct_id l))
          else Ok ()
      end
  end.

Definition put_error (threadId : string) (e : exn) : exn :=
  match e with
  | CheckpointConflictError _ expected actual =>
      CheckpointVersionConflictError threadId (default "<fresh-run>" expected)
                                     (default "<none>" actual)
  | _ => e
  end.

Definition persistCheckpoint (args : RunArgs) (st : status) (nodeName : option string)
    (frontier : option FrontierEnvelope)
    (pendingWritesByTask : list (string * list ChannelWrite)) : M (option string) :=
  let t := ra_threadId args in
  let ns := ra_ns args in
  checkpointId <- fresh "cp" ;;
  lift (match frontier with Some f => assertFrontierJsonSafe f | None => Ok () end) ;;
  let tags := encodeFrontier <$> frontier in
  let skipPut := bool_decide (ra_durability args = Exit) && bool_decide (st = Running) in
  (if skipPut then ret () else
     await_store ;;
     rs <- get ;;
     lift (precheck t (ri_parent (rs_int rs)) (getTuple t ns None (rs_store rs)))) ;;
  rs <- get ;;
  let internal := rs_int rs in
  stateForPersist <- lift (serializeState (ri_state internal)) ;;
  let checkpoint :=
    mkCheckpoint checkpointId t ns (ri_parent internal) stateForPersist
      (ri_versions internal) (ri_stepNumber internal) (rs_now rs) in
  let wakeAt := if decide (st = Suspended)
                then frontier ≫= fun f => earliest_wake (fe_pauses f) else None in
  let metadata := mkMetadata (ra_durability args) st nodeName tags wakeAt in
  (if skipPut then ret () else
     await_store ;;
     rs <- get ;;
     match put t ns checkpoint metadata (Some <$> ri_parent (rs_int rs)) (rs_store rs) with
     | Ok s' => set_store (fun _ => s')
     | Err e => throw (put_error t e)
     end) ;;
  forM pendingWritesByTask (fun g =>
    await_store ;;
    set_store (putWrites t ns checkpointId (pending_of g.2) g.1)) ;;
  ret (if skipPut then None else Some checkpointId).

Definition includeStepEvents (args : RunArgs) : bool :=
  bool_decide (ra_stream args ∈ [SValues; SDebug]).
Definition includeChannelEvents (args : RunArgs) : bool :=
  bool_decide (ra_stream args ∈ [SUpdates; SMessages; SDebug]).
Definition includeCheckpointEvents (args : RunArgs) : bool :=
  bool_decide (ra_stream args ∈ [SCheckpoints; SDebug]).

Definition checkpointEvent (args : RunArgs) (checkpointId : option string) : M unit :=
  rs <- get ;;
  match checkpointId with
  | Some id => yield_if (includeCheckpointEvents args)
                        (EvCheckpointWritten id (ri_stepNumber (rs_int rs)))
  | None => ret ()
  end.

Definition currentFrontier (args : RunArgs) (rs : RunState) : FrontierEnvelope :=
  frontierFromInternal (rs_int rs) (cfg_version (ra_cfg args)).

(** ** The exits at the top of the loop *)

Definition stop_with (args : RunArgs) (s : status) (e : exn) : M unit :=
  set_status s ;;
  rs <- get ;;
  persistCheckpoint args s None (Some (currentFrontier args rs)) [] ;;
  throw e.

Definition loop_guards (args : RunArgs) (env : StepEnv) : M unit :=
  let cfg := ra_cfg args in
  (if se_abort_top env then stop_with args Aborted (WorkflowAbortedError (ra_threadId args))
   else ret ()) ;;
  rs <- get ;;
  (if decide (maxSteps_of cfg <= ri_stepsThisInvocation (rs_int rs))
   then stop_with args Failed (WorkflowError "max-steps-exceeded" "maxSteps") else ret ()) ;;
  match cfg_maxTotalSteps cfg with
  | Some cap =>
      if decide (cap <= ri_stepNumber (rs_int rs))
      then stop_with args Failed (WorkflowError "max-steps-exceeded" "maxTotalSteps") else ret ()
  | None => ret ()
  end.

Definition on_dead_end (args : RunArgs) (stalled : list string) : M unit :=
  set_status Failed ;;
  id <- persistCheckpoint args Failed (Some (default "<dead-end>" (head stalled)))
          (Some emptyFrontier) [] ;;
  checkpointEvent args id ;;
  throw (DeadEndError (cfg_name (ra_cfg args)) stalled).

Definition on_suspend_before (args : RunArgs) (gated : PlannedTask) (rest : list PlannedTask) :
    M unit :=
  let pause := mkPause (tk_node gated)
                 (VObj [("kind", VStr "static-before"); ("node", VStr (tk_node gated))])
                 (tk_args gated) true false None None None None in
  rs0 <- get ;;
  set_frontier rest (ri_completed (rs_int rs0)) ;;
  set_pauses [pause] ;;
  set_status Suspended ;;
  rs <- get ;;
  id <- persistCheckpoint args Suspended (Some (tk_node gated)) (Some (currentFrontier args rs)) [] ;;
  checkpointEvent args id ;;
  yield (EvSuspended (ra_threadId args) (ri_stepNumber (rs_int rs)) (ri_state (rs_int rs))
                     (pp_value pause)) ;;
  close.

Definition on_completed (args : RunArgs) : M unit :=
  set_status Completed ;;
  id <- persistCheckpoint args Completed None None [] ;;
  checkpointEvent args id ;;
  rs <- get ;;
  yield (EvEnd (ra_threadId args) (ri_state (rs_int rs))) ;;
  close.

(** ** Executing the tasks of a step *)

(** What the catch clauses of [executeOneTask] make of the body's result:
    the outcome's pause, its status, whether a fresh payload was rejected,
    and the failure. *)
Definition classify (args : RunArgs) (task : PlannedTask) (aborted : bool)
    (r : result exn value) : option value * task_status * bool * option exn :=
  match r with
  | Ok _ => (None, TCompleted, false, None)
  | Err (PauseSignal v) => (Some v, TPaused, false, None)
  | Err (AwakeablePayloadError name _) =>
      (Some (awakeable_value name), TPaused, tk_freshResume task, None)
  | Err (ReplayDivergenceSignal _ _ _) =>
      (None, TFailed, false, Some (WorkflowError "pause-replay-divergence" (tk_node task)))
  | Err e =>
      (None, TFailed, false,
       Some (if aborted then WorkflowAbortedError (ra_threadId args) else e))
  end.

Record StepRun := mkStepRun {
  sr_outcomes : list Outcome;             (** completion order *)
  sr_failure : option (string * exn);     (** the first failure *)
}.

(** [executeOneTask], from the snapshot [stateView]. *)
Definition executeOneTask (args : RunArgs) (env : TaskEnv) (stateView : jstate)
    (journal : option string) (task : PlannedTask) (sr : StepRun) : M StepRun :=
  let cfg := ra_cfg args in
  rs <- get ;;
  let ctx := mkCtx (ra_threadId args) (ri_stepNumber (rs_int rs)) (tk_id task) stateView
                   (tk_args task) in
  let '(r, settled) :=
    match jget (tk_node task) (cfg_nodes cfg) with
    | None => (Err (NodeExecutionError (tk_node task) (PlainError "node not registered")), 0)
    | Some node =>
        runNodeWithPolicy node ctx task
          (match wn_timeoutMs node with Some ms => Some ms | None => cfg_defaultTimeoutMs cfg end)
          (match wn_retry node with Some p => Some p | None => cfg_defaultRetry cfg end) env
    end in
  let '(writes, ds) :=
    match r with
    | Ok out => harvestNodeOutput (tk_node task) (tk_id task) out
    | Err _ => ([], [])
    end in
  let dispatches :=
    imap (fun i d => dispatch_task (newId "task" (rs_ids rs + i)) d.1 (defined d.2)) ds in
  set_ids (rs_ids rs + length ds) ;;
  let '(paused, st, rejected, failure) :=
    classify args task (aborted_after env settled) r in
  (match r with
   | Err (AwakeablePayloadError name issues) =>
       yield (emitError (ra_threadId args) (WorkflowError "awakeable-payload-invalid" name))
   | _ => ret ()
   end) ;;
  let outcome := mkOutcome task writes paused st dispatches rejected in
  (match journal with
   | Some parentId =>
       if decide (st = TCompleted) then
         await_store ;;
         set_store (putWrites (ra_threadId args) (ra_ns args) parentId
                      (done_rows (tk_id task) writes) (tk_id task))
       else ret ()
   | None => ret ()
   end) ;;
  ret (mkStepRun (sr_outcomes sr ++ [outcome])
         (match sr_failure sr with
          | Some f => Some f
          | None => (fun e => (tk_node task, e)) <$> failure
          end)).

(** The tasks settle in the schedule's completion order. *)
Fixpoint executeTasks (args : RunArgs) (env : StepEnv) (stateView : jstate)
    (journal : option string) (tasks : list PlannedTask) (order : list nat) (sr : StepRun) :
    M StepRun :=
  match order with
  | [] => ret sr
  | i :: order' =>
      match tasks !! i with
      | Some task =>
          sr' <- executeOneTask args (se_tasks env i) stateView journal task sr ;;
          executeTasks args env stateView journal tasks order' sr'
      | None => executeTasks args env stateView journal tasks order' sr
      end
  end.

(** [deepFreeze(structuredClone(internal.state))] *)
Definition snapshot (state : jstate) : result exn jstate :=
  if cloneable (VObj state) then Ok (entries (structuredClone (VObj state)))
  else Err (PlainError "DataCloneError").

(** The step-intent record, journaled before execution. *)
Definition journal_intent (args : RunArgs) (tasks : list PlannedTask) : M (option string) :=
  rs <- get ;;
  if cfg_journalSteps (ra_cfg args) then
    match ri_parent (rs_int rs) with
    | Some parentId =>
        await_store ;;
        set_store (putWrites (ra_threadId args) (ra_ns args) parentId
                     [intent_row (ri_stepNumber (rs_int rs)) tasks] STEP_INTENT_TASK_ID) ;;
        ret (Some parentId)
    | None => ret None
    end
  else ret None.

(** An abort without a failed task becomes the step's failure. *)
Definition abort_failure (args : RunArgs) (env : StepEnv) (tasks : list PlannedTask)
    (failure : option (string * exn)) : option (string * exn) :=
  match failure with
  | Some f => Some f
  | None =>
      if se_abort_step env then
        Some (default "<unknown>" (tk_node <$> head tasks),
              if se_grace_expired env
              then WorkflowError "workflow-cancel-timeout" (cfg_name (ra_cfg args))
              else WorkflowAbortedError (ra_threadId args))
      else None
  end.

Definition any_failed (outcomes : list Outcome) : bool :=
  existsb (fun o => bool_decide (oc_status o = TFailed)) outcomes.

(** The failure branch: persist the failed step, then throw. *)
Definition on_failure (args : RunArgs) (env : StepEnv) (tasks : list PlannedTask)
    (outcomes ordered : list Outcome) (failure : string * exn) : M unit :=
  let failStatus := if se_abort_step env && negb (any_failed outcomes) then Aborted else Failed in
  id <- persistCheckpoint args failStatus (Some failure.1)
          (Some (failureFrontier (ra_cfg args) tasks outcomes (pauseRecordsOf ordered)))
          (groupWritesByTask (completedWrites ordered)) ;;
  checkpointEvent args id ;;
  set_status failStatus ;;
  throw (wrapNodeFailure failure.1 failure.2).

(** Merge and validation failures are step failures too. *)
Definition merge_step (args : RunArgs) (ordered : list Outcome) : M ApplyResult :=
  rs <- get ;;
  let cfg := ra_cfg args in
  match applyWrites (ri_state (rs_int rs)) (ri_versions (rs_int rs)) (cfg_channels cfg)
                    (completedWrites ordered) with
  | Err e =>
      id <- persistCheckpoint args Failed (Some "<channel-merge>")
              (Some (currentFrontier args rs)) [] ;;
      checkpointEvent args id ;;
      set_status Failed ;;
      throw e
  | Ok applied =>
      match cfg_validateState cfg with
      | None => ret applied
      | Some validate =>
          match validate (ar_state applied) with
          | Ok _ => ret applied
          | Err e =>
              id <- persistCheckpoint args Failed (Some "<state-validator>") None [] ;;
              checkpointEvent args id ;;
              set_status Failed ;;
              throw (WorkflowError "state-validation-failed" "validateState")
          end
      end
  end.

Definition channel_events (args : RunArgs) (stepNumber : nat) (applied : ApplyResult) : M unit :=
  if includeChannelEvents args then
    forM (ar_changed applied) (fun c =>
      yield (EvChannelUpdate stepNumber c (default 0 (jget c (ar_versions applied)))
                             (jget c (ar_ephemeral applied))))
  else ret ().

(** The static [pauseAt.after] gate, consulted when nothing paused. *)
Definition static_after (cfg : WorkflowConfig) (completed : list string) :
    list PendingPauseRecord :=
  match List.filter (fun n => bool_decide (n ∈ completed)) (cfg_pauseAfter cfg) with
  | node :: _ =>
      [mkPause node (VObj [("kind", VStr "static-after"); ("node", VStr node)])
               None false true None None None None]
  | [] => []
  end.

Definition on_suspended (args : RunArgs) (pauses : list PendingPauseRecord)
    (first : PendingPauseRecord) : M unit :=
  set_pauses pauses ;;
  set_status Suspended ;;
  rs <- get ;;
  id <- persistCheckpoint args Suspended (Some (pp_nodeName first))
          (Some (currentFrontier args rs)) [] ;;
  yield_if (includeStepEvents args)
           (EvStepEnd (ri_stepNumber (rs_int rs)) (ri_state (rs_int rs))) ;;
  checkpointEvent args id ;;
  yield (EvSuspended (ra_threadId args) (ri_stepNumber (rs_int rs)) (ri_state (rs_int rs))
                     (pp_value first)) ;;
  close.

Definition on_running (args : RunArgs) (env : StepEnv) : M unit :=
  rs <- get ;;
  id <- persistCheckpoint args Running None (Some (currentFrontier args rs)) [] ;;
  yield_if (includeStepEvents args)
           (EvStepEnd (ri_stepNumber (rs_int rs)) (ri_state (rs_int rs))) ;;
  checkpointEvent args id ;;
  (match id with Some cp => set_parent cp | None => ret () end) ;;
  advance ;;
  if se_abort_after env then stop_with args Aborted (WorkflowAbortedError (ra_threadId args))
  else ret ().

Definition finish_step (args : RunArgs) (env : StepEnv) (tasks : list PlannedTask)
    (sr : StepRun) : M unit :=
  let cfg := ra_cfg args in
  let ordered := orderOutcomes tasks (sr_outcomes sr) in
  match abort_failure args env tasks (sr_failure sr) with
  | Some failure => on_failure args env tasks (sr_outcomes sr) ordered failure
  | None =>
      applied <- merge_step args ordered ;;
      set_state (ar_state applied) (ar_versions applied) ;;
      rs <- get ;;
      channel_events args (ri_stepNumber (rs_int rs)) applied ;;
      let completed := map (fun o => tk_node (oc_task o)) (List.filter is_completed ordered) in
      set_frontier (completedDispatches ordered) completed ;;
      let pauseRecords := pauseRecordsOf ordered in
      let finalPauses := match pauseRecords with
                         | [] => static_after cfg completed
                         | _ => pauseRecords
                         end in
      match finalPauses with
      | first :: _ => on_suspended args finalPauses first
      | [] => on_running args env
      end
  end.

Definition run_step (args : RunArgs) (env : StepEnv) (tasks : list PlannedTask) : M unit :=
  rs <- get ;;
  yield_if (includeStepEvents args)
           (EvStepStart (ri_stepNumber (rs_int rs)) (ri_state (rs_int rs))) ;;
  stateView <- lift (snapshot (ri_state (rs_int rs))) ;;
  journal <- journal_intent args tasks ;;
  sr <- executeTasks args env stateView journal tasks (se_order env) (mkStepRun [] None) ;;
  finish_step args env tasks sr.

(** One iteration of [driveRun]'s loop. *)
Definition loop_body (args : RunArgs) (env : StepEnv) : M unit :=
  loop_guards args env ;;
  rs <- get ;;
  let '(p, ids') := planTasks newId (ra_cfg args) (rs_int rs) (rs_ids rs) in
  set_ids ids' ;;
  set_frontier [] [] ;;
  match p with
  | PlanDeadEnd stalled => on_dead_end args stalled
  | PlanSuspend gated rest => on_suspend_before args gated rest
  | PlanTasks [] => on_completed args
  | PlanTasks tasks => run_step args env tasks
  end.

(** [driveRun]; the answer is [false] only when [fuel] ran out. *)
Fixpoint driveRun (fuel : nat) (args : RunArgs) (envs : nat -> StepEnv) : M bool :=
  rs <- get ;;
  if ri_closed (rs_int rs) then ret true
  else match fuel with
       | 0 => ret false
       | Datatypes.S fuel' =>
           loop_body args (envs (ri_stepsThisInvocation (rs_int rs))) ;;
           driveRun fuel' args envs
       end.

(** Enough fuel for one invocation: [maxSteps] steps and the capped one. *)
Definition drive (args : RunArgs) (envs : nat -> StepEnv) : M bool :=
  driveRun (maxSteps_of (ra_cfg args) + 2) args envs.

Definition initialInternal (cfg : WorkflowConfig) (input : jstate) : RunInternalState :=
  mkInternal (buildInitialState (cfg_channels cfg) (cfg_initialState cfg) input) [] []
             [START_NODE] 0 0 None [] Running false.

Definition drive_catching (args : RunArgs) (envs : nat -> StepEnv) : M bool :=
  catch (drive args envs) (fun e => yield (emitError (ra_threadId args) e) ;; ret true).

Definition runEngine (args : RunArgs) (input : jstate) (envs : nat -> StepEnv) : M bool :=
  set_int (fun _ => initialInternal (ra_cfg args) input) ;;
  yield (EvStart (ra_threadId args) (cfg_name (ra_cfg args))) ;;
  drive_catching args envs.
(** ** Resuming *)

Inductive ResumeMode := ModeResume | ModeRetry.

Record ResumeOptions := mkResume {
  ro_directive : option Directive;
  ro_mode : ResumeMode;
  ro_selectPause : option (PendingPauseRecord -> bool);
  ro_selectPauseLabel : option string;
  ro_allowVersionMismatch : bool;
}.

(** Directive payloads ride the next frontier: checked before anything runs. *)
Definition check_directive (d : option Directive) : result exn unit :=
  match d with
  | None => Ok ()
  | Some d =>
      rbind (check_safe "<directive>" "<directive>.resume" (dr_resume d)) (fun _ =>
      check_safe "<directive>" "<directive>.update" (undef_or (dr_update d)))
  end.

Definition resumable (mode : ResumeMode) (s : status) : bool :=
  match mode with
  | ModeRetry => bool_decide (s ∈ [Failed; Aborted])
  | ModeResume => bool_decide (s ∈ [Suspended; Running; Aborted])
  end.

(** Nodes of the frontier the definition no longer declares. *)
Definition missingNodes (cfg : WorkflowConfig) (f : FrontierEnvelope) : list string :=
  remove_dups (List.filter (fun n => negb (bool_decide (n = START_NODE)) &&
                                     negb (in_object n (cfg_nodes cfg)))
    (map pp_nodeName (fe_pauses f) ++ map dy_nodeName (fe_dynamic f) ++ fe_completed f ++
     map st_nodeName (default [] (fe_stepTasks f)))%list).

(** What a resume starts from: completed nodes whose edges are unwalked,
    tasks to run, and the writes to replay. *)
Record Restored := mkRestored {
  rd_completed : list string;
  rd_tasks : list PlannedTask;
  rd_replay : list ChannelWrite;
}.

(** The task re-running a paused node: the answers it already received,
    then [extra] ones; a static-before gate replays nothing. *)
Definition resume_task (id : string) (p : PendingPauseRecord)
    (extra : list value) (extraMeta : list (option identity)) (freshR : bool) : PlannedTask :=
  mkTask id (pp_nodeName p) SrcResume (pp_dispatchArgs p)
    (Some (if pp_staticBefore p then [] else (default [] (pp_satisfied p) ++ extra)%list))
    (Some (if pp_staticBefore p then [] else (priorMetaOf p ++ extraMeta)%list))
    (pp_staticBefore p) (freshR && negb (pp_staticBefore p)).

(** The failed-step replay: completed tasks from their persisted writes, the
    others run again. *)
Definition restore_failed (f : FrontierEnvelope) (stepTasks : list StepTask)
    (pending : list PendingWrite) (ids : nat) : Restored :=
  let completed := List.filter (fun t => bool_decide (st_status t = TCompleted)) stepTasks in
  let nameByTask := foldl (fun m t => jset (st_taskId t) (st_nodeName t) m) [] stepTasks in
  let replay := map (fun w => mkWrite (default "<replay>" (jget (pw_taskId w) nameByTask))
                                (pw_taskId w) (pw_index w) (pw_channel w) (pw_value w))
    (List.filter (fun w => bool_decide (pw_taskId w ∈ map st_taskId completed)) pending) in
  let pauseByNode := foldl (fun m p => jset (pp_nodeName p) p m) [] (fe_pauses f) in
  let tasks := imap (fun i t =>
    let id := newId "task" (ids + i) in
    match (if decide (st_status t = TPaused) then jget (st_nodeName t) pauseByNode else None) with
    | Some p =>
        mkTask id (st_nodeName t) SrcResume (st_dispatchArgs t)
          (Some (if pp_staticBefore p then [] else default [] (pp_satisfied p)))
          (Some (if pp_staticBefore p then [] else priorMetaOf p))
          (pp_staticBefore p) false
    | None => dispatch_task id (st_nodeName t) (st_dispatchArgs t)
    end) (List.filter (fun t => negb (bool_decide (st_status t = TCompleted))) stepTasks) in
  mkRestored (map st_nodeName completed) tasks replay.

(** The pause a selector picks, and the others in order. *)
Fixpoint select_pause (sel : PendingPauseRecord -> bool) (pre ps : list PendingPauseRecord) :
    option (PendingPauseRecord * list PendingPauseRecord) :=
  match ps with
  | [] => None
  | p :: ps' => if sel p then Some (p, (pre ++ ps')%list) else select_pause sel (pre ++ [p])%list ps'
  end.

Definition push_completed (completed : list string) (n : string) : list string :=
  if decide (n ∈ completed) then completed else (completed ++ [n])%list.

(** One pause record re-enters the run: a static-after node only walks its
    edges, any other node runs again. *)
Definition fan_out (primary : bool) (answer : value) (acc : Restored * nat)
    (p : PendingPauseRecord) : Restored * nat :=
  let '(r, ids) := acc in
  if pp_staticAfter p
  then (mkRestored (push_completed (rd_completed r) (pp_nodeName p)) (rd_tasks r) (rd_replay r), ids)
  else
    let extra := if primary then [answer] else [] in
    let extraMeta := if primary then [Some (pauseMetaOf p)] else [] in
    (mkRestored (rd_completed r)
       (rd_tasks r ++ [resume_task (newId "task" ids) p extra extraMeta primary])%list
       (rd_replay r), 1 + ids).

Definition restore_frontier (f : FrontierEnvelope) (ids : nat) : Restored * nat :=
  (mkRestored (fe_completed f)
     (imap (fun i d => dispatch_task (newId "task" (ids + i)) (dy_nodeName d) (dy_dispatchArgs d))
           (fe_dynamic f)) [],
   ids + length (fe_dynamic f)).

(** Suspended or crashed: the persisted frontier, then the pauses fan out;
    the step journal supersedes both, a goto discards both. *)
Definition restore_suspended (threadId : string) (cfg : WorkflowConfig) (opts : ResumeOptions)
    (s : status) (f : FrontierEnvelope) (pending : list PendingWrite) (stepNumber ids : nat) :
    result exn (Restored * nat) :=
  let '(base, ids1) := restore_frontier f ids in
  let journal := if bool_decide (s = Running) && cfg_journalSteps cfg
                 then readStepJournal newId pending stepNumber ids1 else None in
  match journal with
  | Some j =>
      Ok (mkRestored (sj_completedNodes j) (sj_rerunTasks j) (sj_replayWrites j),
          ids1 + length (sj_rerunTasks j))
  | None =>
      let goto := ro_directive opts ≫= dr_goto in
      match goto with
      | Some (String _ _ as node) =>
          Ok (mkRestored [] [dispatch_task (newId "task" ids1) node None] [], 1 + ids1)
      | _ =>
          let answer := match ro_directive opts with Some d => dr_resume d | None => VUndef end in
          match ro_selectPause opts with
          | Some sel =>
              match select_pause sel [] (fe_pauses f) with
              | None => Err (PauseNotFoundError threadId (default "<selector>" (ro_selectPauseLabel opts)))
              | Some (target, others) =>
                  Ok (foldl (fan_out false answer) (fan_out true answer (base, ids1) target) others)
              end
          | None =>
              match fe_pauses f with
              | [] => Ok (base, ids1)
              | primary :: others =>
                  Ok (foldl (fan_out false answer) (fan_out true answer (base, ids1) primary) others)
              end
          end
      end
  end.

Definition restore (threadId : string) (cfg : WorkflowConfig) (opts : ResumeOptions)
    (tuple : CheckpointTuple) (f : FrontierEnvelope) (stepNumber ids : nat) :
    result exn (Restored * nat) :=
  let s := ct_status tuple in
  match (if bool_decide (s ∈ [Failed; Aborted]) then default [] (fe_stepTasks f) else []) with
  | [] => restore_suspended threadId cfg opts s f (ct_pendingWrites tuple) stepNumber ids
  | stepTasks =>
      let r := restore_failed f stepTasks (ct_pendingWrites tuple) ids in
      Ok (r, ids + length (rd_tasks r))
  end.

(** [internal] before the replayed writes and the directive's update. *)
Definition resumedInternal (tuple : CheckpointTuple) (r : Restored) : RunInternalState :=
  let '(state, versions) := restoreState (ct_checkpoint tuple) in
  mkInternal state versions (rd_tasks r) (rd_completed r) (1 + ct_step tuple) 0
             (Some (ct_id tuple)) [] Running false.

Definition apply_to_internal (cfg : WorkflowConfig) (writes : list ChannelWrite) : M unit :=
  rs <- get ;;
  applied <- lift (applyWrites (ri_state (rs_int rs)) (ri_versions (rs_int rs))
                               (cfg_channels cfg) writes) ;;
  set_state (ar_state applied) (ar_versions applied).

(** The checks that end a resume with an error event: every [yield
    emitError(...); return] before the run is rebuilt. *)
Definition resume_checks (args : RunArgs) (opts : ResumeOptions) (rs : RunState) :
    result exn (CheckpointTuple * FrontierEnvelope) :=
  let t := ra_threadId args in
  let cfg := ra_cfg args in
  match check_directive (ro_directive opts) with
  | Err e => Err e
  | Ok _ =>
      match getTuple t (ra_ns args) None (rs_store rs) with
      | None => Err (ThreadNotFoundError t)
      | Some tuple =>
          if resumable (ro_mode opts) (ct_status tuple) then
            let f := readFrontier (ct_metadata tuple) in
            match (if ro_allowVersionMismatch opts then None
                   else match fe_version f, cfg_version cfg with
                        | Some v, Some v' =>
                            if decide (v = v') then None
                            else Some (WorkflowVersionMismatchError t v v')
                        | _, _ => None
                        end) with
            | Some e => Err e
            | None =>
                match missingNodes cfg f with
                | [] => Ok (tuple, f)
                | missing => Err (WorkflowDivergenceError t missing)
                end
            end
          else Err (ResumeWithoutSuspensionError t (ct_status tuple))
      end
  end.

(** Rebuild the run from its checkpoint and drive it. *)
Definition resume_run (args : RunArgs) (opts : ResumeOptions) (envs : nat -> StepEnv)
    (tuple : CheckpointTuple) (r : Restored) : M bool :=
  let cfg := ra_cfg args in
  set_int (fun _ => resumedInternal tuple r) ;;
  (match rd_replay r with [] => ret () | ws => apply_to_internal cfg ws end) ;;
  (match ro_directive opts ≫= dr_update with
   | Some u => if truthy u then apply_to_internal cfg (directiveUpdateToWrites "__resume__" u)
               else ret ()
   | None => ret ()
   end) ;;
  rs <- get ;;
  yield (EvResumed (ra_threadId args) (ri_stepNumber (rs_int rs)) (ri_state (rs_int rs))) ;;
  drive_catching args envs.

Definition resumeEngine (args : RunArgs) (opts : ResumeOptions) (envs : nat -> StepEnv) : M bool :=
  let t := ra_threadId args in
  rs0 <- get ;;
  if decide (t ∈ rs_lock rs0) then throw (ConcurrentResumeError t)
  else
    set_lock (fun l => t :: l) ;;
    finally
      (await_store ;;
       rs <- get ;;
       match resume_checks args opts rs with
       | Err e => yield (emitError t e) ;; ret true
       | Ok (tuple, f) =>
           match restore t (ra_cfg args) opts tuple f (1 + ct_step tuple) (rs_ids rs) with
           | Err e => yield (emitError t e) ;; ret true
           | Ok (r, ids') => set_ids ids' ;; resume_run args opts envs tuple r
           end
       end)
      (set_lock (List.filter (fun x => negb (bool_decide (x = t))))).

(** ** Forking *)

Definition patched_state (cfg : WorkflowConfig) (patch : jstate) (raw : value) :
    result exn (option value) :=
  match patch with
  | [] => Ok None
  | _ =>
      if forallb (fun k => in_object k (cfg_channels cfg)) (jkeys patch) then
        match unwrapPersistedState raw with
        | VObj fs => rbind (serializeState (jspread fs patch)) (fun v => Ok (Some v))
        | VExotic k i fs =>
            if decide (typeof (VExotic k i fs) = TObject)
            then rbind (serializeState (jspread fs patch)) (fun v => Ok (Some v))
            else Err (TypeError "fork patch: the source checkpoint state is not a channel record")
        | _ => Err (TypeError "fork patch: the source checkpoint state is not a channel record")
        end
      else Err (TypeError "fork patch key does not name a declared channel")
  end.

Definition groupPendingByTask (writes : list PendingWrite) : list (string * list PendingWrite) :=
  foldl (fun out w =>
    jset (pw_taskId w) (default [] (jget (pw_taskId w) out) ++ [w])%list out) [] writes.

Definition forkThread (cfg : WorkflowConfig) (threadId fromCheckpointId : string)
    (patch : jstate) : M string :=
  let ns := namespaceFor (cfg_name cfg) in
  await_store ;;
  rs <- get ;;
  match getTuple threadId ns (Some fromCheckpointId) (rs_store rs) with
  | None => throw (CheckpointNotFoundError threadId fromCheckpointId)
  | Some tuple =>
      newThreadId <- fresh "thread" ;;
      newCheckpointId <- fresh "cp" ;;
      patched <- lift (patched_state cfg patch (cp_state (ct_checkpoint tuple))) ;;
      let src := ct_checkpoint tuple in
      let newCheckpoint :=
        mkCheckpoint newCheckpointId newThreadId ns None (default (cp_state src) patched)
          (cp_channelVersions src) (cp_stepNumber src) (cp_createdAt src) in
      let md := ct_metadata tuple in
      await_store ;;
      rs <- get ;;
      match put newThreadId ns newCheckpoint
                (mkMetadata Sync (md_status md) (md_nodeName md) (md_tags md) None) None
                (rs_store rs) with
      | Err e => throw e
      | Ok s' =>
          set_store (fun _ => s') ;;
          forM (groupPendingByTask (ct_pendingWrites tuple)) (fun g =>
            await_store ;;
            set_store (putWrites newThreadId ns newCheckpointId
                         (imap (fun i w => mkPending (pw_taskId w) i (pw_channel w) (pw_value w)) g.2)
                         g.1)) ;;
          ret newThreadId
      end
  end.

End Engine.
