(* ===== verification/EngineFacts.v ===== *)
(** * Reasoning about the engine monad

    [keeps R m]: running [m] relates the state before to the state after by
    the preorder [R], whether it returns or throws.  [wp m Q st]: the result
    and the final state of [m] from [st] satisfy [Q].  The frame lemmas say
    which part of the run each engine operation can touch. *)

From S2P Require Import Prelude JsValue Json Errors Pause Channels CheckpointStore Frontier Engine EngineRun.

#[local] Set Default Proof Using "Type*".

Section Facts.
Context {S : Type}.
Notation st_t := (RunState (S := S)).
Notation M := (M (S := S)).

(** ** Preorders kept by a computation *)

Definition keeps (R : st_t -> st_t -> Prop) {A} (m : M A) : Prop := forall st, R st (m st).1.

Section Keeps.
Context (R : st_t -> st_t -> Prop) `{!PreOrder R}.

Lemma keeps_ret {A} (a : A) : keeps R (ret a).
Proof. intros st. simpl. reflexivity. Qed.
Lemma keeps_throw {A} e : keeps R (throw (A := A) e).
Proof. intros st. simpl. reflexivity. Qed.
Lemma keeps_lift {A} (r : result exn A) : keeps R (lift r).
Proof. intros st. simpl. reflexivity. Qed.
Lemma keeps_get : keeps R get.
Proof. intros st. simpl. reflexivity. Qed.

Lemma keeps_bind {A B} (m : M A) (f : A -> M B) :
  keeps R m -> (forall a, keeps R (f a)) -> keeps R (bind m f).
Proof.
  intros Hm Hf st. unfold bind. specialize (Hm st).
  destruct (m st) as [st' [a|e]]; simpl in *; [|done].
  transitivity st'; [done|]. apply Hf.
Qed.

Lemma keeps_forM {A} (l : list A) (f : A -> M unit) :
  (forall a, a ∈ l -> keeps R (f a)) -> keeps R (forM l f).
Proof.
  induction l as [|x l IH]; intros Hf; simpl; [apply keeps_ret|].
  apply keeps_bind; [apply Hf; by left|]. intros _. apply IH. intros; apply Hf. by right.
Qed.

Lemma keeps_catch {A} (m : M A) h :
  keeps R m -> (forall e, keeps R (h e)) -> keeps R (catch m h).
Proof.
  intros Hm Hh st. unfold catch. specialize (Hm st).
  destruct (m st) as [st' [a|e]]; simpl in *; [done|].
  transitivity st'; [done|]. apply Hh.
Qed.

Lemma keeps_finally {A} (m : M A) f : keeps R m -> keeps R f -> keeps R (finally m f).
Proof.
  intros Hm Hf st. unfold finally. specialize (Hm st).
  destruct (m st) as [st' r]; simpl in *. specialize (Hf st').
  destruct (f st') as [st'' [u|e]]; simpl in *; by transitivity st'.
Qed.
End Keeps.

(** ** Weakest preconditions *)

Definition wp {A} (m : M A) (Q : result exn A -> st_t -> Prop) (st : st_t) : Prop :=
  Q (m st).2 (m st).1.

Lemma wp_bind {A B} (m : M A) (f : A -> M B) Q st :
  wp m (fun r st' => match r with Ok a => wp (f a) Q st' | Err e => Q (Err e) st' end) st ->
  wp (bind m f) Q st.
Proof. unfold wp, bind. by destruct (m st) as [st' [a|e]]. Qed.

Lemma wp_mono {A} (m : M A) (P Q : result exn A -> st_t -> Prop) st :
  wp m P st -> (forall r st', P r st' -> Q r st') -> wp m Q st.
Proof. unfold wp. auto. Qed.

Lemma wp_catch {A} (m : M A) h Q st :
  wp m (fun r st' => match r with Ok a => Q (Ok a) st' | Err e => wp (h e) Q st' end) st ->
  wp (catch m h) Q st.
Proof. unfold wp, catch. by destruct (m st) as [st' [a|e]]. Qed.

Lemma wp_finally {A} (m : M A) f Q st :
  wp m (fun r st' => wp f (fun r' st'' => Q (match r' with Ok _ => r | Err e => Err e end) st'') st')
     st ->
  wp (finally m f) Q st.
Proof. unfold wp, finally. destruct (m st) as [st' r]. simpl. by destruct (f st') as [st'' [u|e]]. Qed.

Lemma wp_keeps (R : st_t -> st_t -> Prop) {A} (m : M A) Q st :
  keeps R m -> (forall r st', R st st' -> Q r st') -> wp m Q st.
Proof. intros Hm HQ. apply HQ, Hm. Qed.

(** ** The store frame: what only touches the store and the counters *)

Definition store_only (st st' : st_t) : Prop :=
  rs_int st' = rs_int st /\ rs_lock st' = rs_lock st /\ rs_now st' = rs_now st /\
  rs_events st' = rs_events st.

#[export] Instance store_only_preorder : PreOrder store_only.
Proof.
  split; [by intros []|]. unfold store_only.
  intros st1 st2 st3 (->&->&->&->) (->&->&->&->). done.
Qed.

(** A state change that leaves the store and only draws identifiers. *)
Definition same_store (st st' : st_t) : Prop :=
  rs_store st' = rs_store st /\ rs_ids st <= rs_ids st'.

#[export] Instance same_store_preorder : PreOrder same_store.
Proof.
  split; [by intros []|]. intros st1 st2 st3 [E1 ?] [E2 ?]. split; [congruence|lia].
Qed.

(** Only events are added. *)
Definition events_only (st st' : st_t) : Prop :=
  rs_store st' = rs_store st /\ rs_ids st' = rs_ids st /\ rs_int st' = rs_int st /\
  rs_tick st' = rs_tick st /\ rs_lock st' = rs_lock st /\ rs_now st' = rs_now st.

#[export] Instance events_only_preorder : PreOrder events_only.
Proof.
  split; [by intros []|]. unfold events_only. intros st1 st2 st3. intuition congruence.
Qed.

Lemma events_only_yield e : keeps events_only (yield e).
Proof. by intros []. Qed.
Lemma events_only_yield_if b e : keeps events_only (yield_if b e).
Proof. destruct b; by intros []. Qed.

Lemma same_store_set_int f : keeps same_store (set_int f).
Proof. by intros []. Qed.
Lemma same_store_yield e : keeps same_store (yield e).
Proof. by intros []. Qed.
Lemma same_store_yield_if b e : keeps same_store (yield_if b e).
Proof. destruct b; by intros []. Qed.

Lemma keeps_fresh newId p : keeps store_only (fresh newId p).
Proof. by intros []. Qed.
Lemma keeps_await world : keeps store_only (await_store world).
Proof. by intros []. Qed.
Lemma keeps_set_store f : keeps store_only (set_store f).
Proof. by intros []. Qed.
Lemma keeps_set_ids n : keeps store_only (set_ids n).
Proof. by intros []. Qed.
End Facts.

Create HintDb keeps discriminated.
#[export] Hint Resolve keeps_ret keeps_throw keeps_lift keeps_get keeps_fresh keeps_await
  keeps_set_store keeps_set_ids same_store_set_int same_store_yield same_store_yield_if
  events_only_yield events_only_yield_if : keeps.
#[export] Hint Extern 3 (keeps same_store (set_status _)) => apply same_store_set_int : keeps.
#[export] Hint Extern 3 (keeps same_store close) => apply same_store_set_int : keeps.

(** Decompose a computation along its binds and branches. *)
Ltac keeps_step :=
  intros; lazymatch goal with
  | |- PreOrder _ => apply _
  | |- keeps _ (bind _ _) => apply keeps_bind
  | |- keeps _ (catch _ _) => apply keeps_catch
  | |- keeps _ (finally _ _) => apply keeps_finally
  | |- keeps _ (forM _ _) => apply keeps_forM
  | |- keeps _ (let '(_, _) := ?x in _) => destruct x
  | |- keeps _ (match ?x with _ => _ end) => destruct x
  | |- keeps _ (let x := _ in _) => cbv zeta
  | |- keeps _ (if ?b then _ else _) => destruct b
  | |- keeps _ _ => solve [eauto 3 with keeps typeclass_instances]
  end.
Ltac solve_keeps := repeat (cbv zeta; keeps_step).

(** Run the first operation of a bind. *)
Ltac wp_run := apply wp_bind; unfold wp at 1; cbn [ret throw lift get fresh set_int set_status set_pauses set_frontier set_state fst snd].

Section Frames.
Context {S : Type} `{CheckpointStore S}.
Context (newId : string -> nat -> string) (world : nat -> S -> S).

Lemma persistCheckpoint_frame args s n f w :
  keeps store_only (persistCheckpoint newId world args s n f w).
Proof. unfold persistCheckpoint. solve_keeps. Qed.

Lemma journal_intent_frame args tasks : keeps store_only (journal_intent world args tasks).
Proof. unfold journal_intent. solve_keeps. Qed.
End Frames.

Lemma same_store_checkpointEvent {S : Type} args id :
  keeps same_store (checkpointEvent (S := S) args id).
Proof. unfold checkpointEvent. solve_keeps. Qed.

Lemma events_only_checkpointEvent {S : Type} args id :
  keeps events_only (checkpointEvent (S := S) args id).
Proof. unfold checkpointEvent. solve_keeps. Qed.

#[export] Hint Resolve same_store_checkpointEvent events_only_checkpointEvent persistCheckpoint_frame journal_intent_frame : keeps.

(** ** Facts about one step

    Determinism of a step under every completion order of its parallel tasks,
    the planner's guarantees, and the node policy's attempt bounds. *)

(** ** Re-keying by identifier *)

Definition index_by {A} (f : A -> string) (l : list A) : list (string * A) :=
  foldl (fun m x => jset (f x) x m) [] l.

Lemma index_by_snoc {A} (f : A -> string) l x :
  index_by f (l ++ [x]) = jset (f x) x (index_by f l).
Proof. unfold index_by. by rewrite foldl_app. Qed.

Lemma jget_index_by {A} (f : A -> string) (l : list A) k x :
  NoDup (map f l) -> jget k (index_by f l) = Some x <-> x ∈ l /\ f x = k.
Proof.
  induction l as [|y l IH] using rev_ind; intros Hnd.
  - simpl. split; [done|]. by intros [?%elem_of_nil _].
  - rewrite map_app in Hnd. apply NoDup_app in Hnd as (Hnd & Hdis & _).
    rewrite index_by_snoc, jget_jset. case_decide as Hk.
    + split.
      * intros [= ->]. split; [|done]. apply elem_of_app. right. by left.
      * intros [[Hx| ->%list_elem_of_singleton]%elem_of_app Hf]; [|done].
        exfalso. apply (Hdis k); [|subst k; by left].
        apply list_elem_of_fmap. by exists x.
    + rewrite IH by done. rewrite elem_of_app, list_elem_of_singleton. naive_solver.
Qed.

Lemma index_by_perm {A} (f : A -> string) (l1 l2 : list A) k :
  NoDup (map f l1) -> l1 ≡ₚ l2 -> jget k (index_by f l1) = jget k (index_by f l2).
Proof.
  intros Hnd Hp. assert (NoDup (map f l2)) as Hnd2 by by rewrite <-Hp.
  apply option_eq. intros x. rewrite !jget_index_by by done. by rewrite Hp.
Qed.

(** ** Outcomes up to the identifiers of dispatched tasks *)

Record StrippedOutcome := mkStripped {
  so_task : PlannedTask;
  so_writes : list ChannelWrite;
  so_paused : option value;
  so_status : task_status;
  so_dispatches : list (string * option value);
  so_rejected : bool;
}.

Definition strip_task (t : PlannedTask) : string * option value := (tk_node t, tk_args t).

Definition strip (o : Outcome) : StrippedOutcome :=
  mkStripped (oc_task o) (oc_writes o) (oc_paused o) (oc_status o)
             (map strip_task (oc_dispatches o)) (oc_rejectedResume o).

Definition outcome_id (o : Outcome) : string := tk_id (oc_task o).

Lemma orderOutcomes_index tasks os :
  orderOutcomes tasks os = omap (fun t => jget (tk_id t) (index_by outcome_id os)) tasks.
Proof. reflexivity. Qed.

Lemma orderOutcomes_strip tasks os1 os2 :
  NoDup (map outcome_id os1) ->
  map strip os1 ≡ₚ map strip os2 ->
  map strip (orderOutcomes tasks os1) = map strip (orderOutcomes tasks os2).
Proof.
  intros Hnd Hp.
  set (sid := fun s => tk_id (so_task s)).
  assert (forall os, map sid (map strip os) = map outcome_id os) as Hids.
  { intros os. by rewrite map_map. }
  assert (NoDup (map outcome_id os2)) as Hnd2.
  { rewrite <-Hids, <-Hp, Hids. done. }
  assert (forall os k, NoDup (map outcome_id os) ->
            strip <$> jget k (index_by outcome_id os) = jget k (index_by sid (map strip os))) as Hst.
  { intros os k Hndo. apply option_eq. intros s.
    rewrite jget_index_by by by rewrite Hids. rewrite fmap_Some.
    setoid_rewrite jget_index_by; [|done]. rewrite list_elem_of_fmap.
    split.
    - intros (o & [Hin Hk] & ->). split; [by exists o|done].
    - intros [(o & -> & Hin) Hk]. by exists o. }
  rewrite !orderOutcomes_index.
  induction tasks as [|t tasks IH]; csimpl; [done|].
  assert (strip <$> jget (tk_id t) (index_by outcome_id os1) =
          strip <$> jget (tk_id t) (index_by outcome_id os2)) as Heq.
  { rewrite !Hst by done. apply index_by_perm; [by rewrite Hids|done]. }
  destruct (jget (tk_id t) (index_by outcome_id os1)) as [o1|],
           (jget (tk_id t) (index_by outcome_id os2)) as [o2|];
    simpl in *; congruence.
Qed.

(** What the engine derives from the ordered outcomes. *)
Lemma completedWrites_strip l1 l2 :
  map strip l1 = map strip l2 -> completedWrites l1 = completedWrites l2.
Proof.
  unfold completedWrites, is_completed. revert l2.
  induction l1 as [|o1 l1 IH]; intros [|o2 l2]; simpl; try done.
  intros [= H1 H2 H3 H4 H5 H6 Hl]. rewrite H4. apply IH in Hl.
  destruct (bool_decide _); simpl; [by rewrite H2, Hl|done].
Qed.

Lemma pauseRecordsOf_strip l1 l2 :
  map strip l1 = map strip l2 -> pauseRecordsOf l1 = pauseRecordsOf l2.
Proof.
  unfold pauseRecordsOf. revert l2.
  induction l1 as [|o1 l1 IH]; intros [|o2 l2]; csimpl; try done.
  intros [= H1 H2 H3 H4 H5 H6 Hl]. rewrite H3. apply IH in Hl.
  destruct (oc_paused o2) as [v|]; simpl; [|done]. rewrite Hl.
  unfold pauseRecordOf. by rewrite H1, H6.
Qed.

Lemma completedDispatches_strip l1 l2 :
  map strip l1 = map strip l2 ->
  map strip_task (completedDispatches l1) = map strip_task (completedDispatches l2).
Proof.
  unfold completedDispatches, is_completed. revert l2.
  induction l1 as [|o1 l1 IH]; intros [|o2 l2]; simpl; try done.
  intros [= H1 H2 H3 H4 H5 H6 Hl]. rewrite H4. apply IH in Hl.
  destruct (bool_decide _); simpl; [by rewrite !map_app, H5, Hl|done].
Qed.

Lemma completedNodes_strip l1 l2 :
  map strip l1 = map strip l2 ->
  map (fun o => tk_node (oc_task o)) (List.filter is_completed l1) =
  map (fun o => tk_node (oc_task o)) (List.filter is_completed l2).
Proof.
  unfold is_completed. revert l2.
  induction l1 as [|o1 l1 IH]; intros [|o2 l2]; simpl; try done.
  intros [= H1 H2 H3 H4 H5 H6 Hl]. rewrite H4. apply IH in Hl.
  destruct (bool_decide _); simpl; [by rewrite H1, Hl|done].
Qed.

(** The failed step's task list reads outcomes by identifier only. *)
Lemma status_index k os :
  jget k (foldl (fun m o => jset (tk_id (oc_task o)) (oc_status o) m) [] os) =
  oc_status <$> jget k (index_by outcome_id os).
Proof.
  induction os as [|o os IH] using rev_ind; [done|].
  rewrite index_by_snoc, foldl_app. cbn [foldl]. rewrite !jget_jset, IH.
  unfold outcome_id. by case_decide.
Qed.

Lemma strip_index k os :
  NoDup (map outcome_id os) ->
  strip <$> jget k (index_by outcome_id os) =
  jget k (index_by (fun s => tk_id (so_task s)) (map strip os)).
Proof.
  intros Hnd. apply option_eq. intros s.
  rewrite jget_index_by by by rewrite map_map. rewrite fmap_Some.
  setoid_rewrite jget_index_by; [|done]. rewrite list_elem_of_fmap.
  split.
  - intros (o & [Hin Hk] & ->). split; [by exists o|done].
  - intros [(o & -> & Hin) Hk]. by exists o.
Qed.

Lemma failureFrontier_strip cfg tasks os1 os2 ps :
  NoDup (map outcome_id os1) -> map strip os1 ≡ₚ map strip os2 ->
  failureFrontier cfg tasks os1 ps = failureFrontier cfg tasks os2 ps.
Proof.
  intros Hnd Hp.
  assert (forall os, map (fun s => tk_id (so_task s)) (map strip os) = map outcome_id os) as Hids.
  { intros os. by rewrite map_map. }
  assert (NoDup (map outcome_id os2)) as Hnd2 by (rewrite <-Hids, <-Hp, Hids; done).
  unfold failureFrontier. f_equal. f_equal. apply map_ext. intros t.
  rewrite !status_index. do 2 f_equal.
  assert (forall o : option Outcome, oc_status <$> o = so_status <$> (strip <$> o)) as Hss by by intros [].
  rewrite !Hss, !strip_index by done. f_equal. apply index_by_perm; [by rewrite Hids|done].
Qed.

Lemma any_failed_strip os1 os2 : map strip os1 ≡ₚ map strip os2 -> any_failed os1 = any_failed os2.
Proof.
  intros Hp. unfold any_failed. apply eq_true_iff_eq. rewrite !existsb_true_iff.
  assert (forall os, (exists o, o ∈ os /\ bool_decide (oc_status o = TFailed) = true) <->
            exists s, s ∈ map strip os /\ so_status s = TFailed) as Hex.
  { intros os. setoid_rewrite bool_decide_eq_true. setoid_rewrite list_elem_of_fmap. split.
    - intros (o & Hin & Hf). exists (strip o). split; [by exists o|done].
    - intros (s & (o & -> & Hin) & Hf). by exists o. }
  rewrite !Hex. by setoid_rewrite Hp.
Qed.

(** ** Executing tasks *)

Section Exec.
Context {S : Type} `{CheckpointStore S}.
Context (newId : string -> nat -> string) (world : nat -> S -> S).
Implicit Types (st : RunState (S := S)) (sr : StepRun).

(** The body's result and the attempt that settled it. *)
Definition body_result (args : RunArgs) (step : nat) (view : jstate) (env : TaskEnv)
    (task : PlannedTask) : result exn value * nat :=
  let cfg := ra_cfg args in
  match jget (tk_node task) (cfg_nodes cfg) with
  | None => (Err (NodeExecutionError (tk_node task) (PlainError "node not registered")), 0)
  | Some node =>
      runNodeWithPolicy node
        (mkCtx (ra_threadId args) step (tk_id task) view (tk_args task)) task
        (match wn_timeoutMs node with Some ms => Some ms | None => cfg_defaultTimeoutMs cfg end)
        (match wn_retry node with Some p => Some p | None => cfg_defaultRetry cfg end) env
  end.

(** The outcome of a task is a function of the task, the snapshot and its
    own schedule. *)
Definition spec_outcome (args : RunArgs) (step : nat) (view : jstate) (env : TaskEnv)
    (task : PlannedTask) : StrippedOutcome :=
  let '(r, settled) := body_result args step view env task in
  let '(writes, ds) :=
    match r with
    | Ok out => harvestNodeOutput (tk_node task) (tk_id task) out
    | Err _ => ([], [])
    end in
  let '(paused, s, rejected, _) := classify args task (aborted_after env settled) r in
  mkStripped task writes paused s (map (fun d => (d.1, defined d.2)) ds) rejected.

(** The failure it contributes to the step. *)
Definition spec_failure (args : RunArgs) (step : nat) (view : jstate) (env : TaskEnv)
    (task : PlannedTask) : option exn :=
  let '(r, settled) := body_result args step view env task in
  (classify args task (aborted_after env settled) r).2.

Lemma strip_dispatches ids (ds : list (string * value)) :
  map strip_task (imap (fun i d => dispatch_task (newId "task" (ids + i)) d.1 (defined d.2)) ds) =
  map (fun d => (d.1, defined d.2)) ds.
Proof.
  revert ids. induction ds as [|d ds IH]; intros ids; simpl; [done|].
  f_equal. rewrite <-(IH (1 + ids)). f_equal. apply imap_ext. intros i x _. simpl.
  by rewrite Nat.add_succ_r.
Qed.

(** The error event of a rejected payload, and the identifiers drawn. *)
Definition spec_errors (args : RunArgs) (step : nat) (view : jstate) (env : TaskEnv)
    (task : PlannedTask) : list event :=
  match (body_result args step view env task).1 with
  | Err (AwakeablePayloadError name _) =>
      [emitError (ra_threadId args) (WorkflowError "awakeable-payload-invalid" name)]
  | _ => []
  end.

Definition spec_draws (args : RunArgs) (step : nat) (view : jstate) (env : TaskEnv)
    (task : PlannedTask) : nat :=
  match (body_result args step view env task).1 with
  | Ok out => length (harvestNodeOutput (tk_node task) (tk_id task) out).2
  | Err _ => 0
  end.

(** The state after some tasks ran without journaling. *)
Definition ran st (draws : nat) (errors : list event) : RunState :=
  mkRun (rs_store st) (rs_ids st + draws) (rs_tick st) (rs_now st)
        (rs_events st ++ errors)%list (rs_lock st) (rs_int st).

Lemma executeOneTask_spec args env view task sr st :
  let step := ri_stepNumber (rs_int st) in
  exists o,
    executeOneTask newId world args env view None task sr st =
      (ran st (spec_draws args step view env task) (spec_errors args step view env task),
       Ok (mkStepRun (sr_outcomes sr ++ [o])
             (match sr_failure sr with
              | Some f => Some f
              | None => (fun e => (tk_node task, e)) <$> spec_failure args step view env task
              end))) /\
    strip o = spec_outcome args step view env task.
Proof.
  intros step. unfold executeOneTask, spec_outcome, spec_failure, spec_errors, spec_draws.
  unfold bind at 1, get at 1. fold step. fold (body_result args step view env task).
  destruct (body_result args step view env task) as [r settled].
  assert (length (match r with Ok out => harvestNodeOutput (tk_node task) (tk_id task) out
                             | Err _ => ([], []) end).2 =
          match r with Ok out => length (harvestNodeOutput (tk_node task) (tk_id task) out).2
                     | Err _ => 0 end) as Hlen by by destruct r.
  destruct (match r with Ok out => _ | Err _ => _ end) as [writes ds]. cbn [fst snd] in Hlen |- *.
  destruct (classify args task (aborted_after env settled) r) as [[[paused s] rejected] failure].
  exists (mkOutcome task writes paused s
    (imap (fun i d => dispatch_task (newId "task" (rs_ids st + i)) d.1 (defined d.2)) ds) rejected).
  split; [|unfold strip; simpl; by rewrite strip_dispatches].
  unfold bind, set_ids, ran. rewrite <-Hlen.
  destruct r as [v|[]]; simpl; rewrite ?app_nil_r; reflexivity.
Qed.

Definition total_draws (args : RunArgs) (env : StepEnv) (step : nat) (view : jstate)
    (tasks : list PlannedTask) (order : list nat) : nat :=
  sum_list (omap (fun i => spec_draws args step view (se_tasks env i) <$> tasks !! i) order).

Definition all_errors (args : RunArgs) (env : StepEnv) (step : nat) (view : jstate)
    (tasks : list PlannedTask) (order : list nat) : list event :=
  concat (omap (fun i => spec_errors args step view (se_tasks env i) <$> tasks !! i) order).

Definition all_outcomes (args : RunArgs) (env : StepEnv) (step : nat) (view : jstate)
    (tasks : list PlannedTask) (order : list nat) : list StrippedOutcome :=
  omap (fun i => spec_outcome args step view (se_tasks env i) <$> tasks !! i) order.

(** No task that runs fails. *)
Definition no_failure (args : RunArgs) (env : StepEnv) (step : nat) (view : jstate)
    (tasks : list PlannedTask) (order : list nat) : Prop :=
  forall i t, i ∈ order -> tasks !! i = Some t ->
    spec_failure args step view (se_tasks env i) t = None.

Lemma executeTasks_spec args env view tasks order sr st :
  let step := ri_stepNumber (rs_int st) in
  no_failure args env step view tasks order -> sr_failure sr = None ->
  exists sr',
    executeTasks newId world args env view None tasks order sr st =
      (ran st (total_draws args env step view tasks order)
              (all_errors args env step view tasks order), Ok sr') /\
    map strip (sr_outcomes sr') =
      (map strip (sr_outcomes sr) ++ all_outcomes args env step view tasks order)%list /\
    sr_failure sr' = None.
Proof.
  revert sr st. induction order as [|i order IH]; intros sr st step Hno Hf;
    unfold total_draws, all_errors, all_outcomes in *.
  - exists sr. rewrite app_nil_r. split; [|done]. unfold ran. simpl.
    rewrite app_nil_r, Nat.add_0_r. by destruct st.
  - csimpl. destruct (tasks !! i) as [task|] eqn:Ei.
    2: { apply IH; [|done]. intros j t Hj. apply Hno. by right. }
    destruct (executeOneTask_spec args (se_tasks env i) view task sr st) as (o & Heq & Hstrip).
    fold step in Heq, Hstrip. rewrite Hf, (Hno i task) in Heq by (done || by left).
    unfold bind at 1. rewrite Heq. simpl.
    destruct (IH (mkStepRun (sr_outcomes sr ++ [o]) None)
      (ran st (spec_draws args step view (se_tasks env i) task)
              (spec_errors args step view (se_tasks env i) task))) as (sr' & -> & Hm & Hf'); [|done|].
    { intros j t Hj. apply Hno. by right. }
    exists sr'. split; [|split; [|done]].
    + unfold ran. simpl. by rewrite Nat.add_assoc, app_assoc.
    + rewrite Hm. simpl. rewrite map_app. simpl. by rewrite Hstrip, <-app_assoc.
Qed.
End Exec.
