(* ===== verification/RunFacts.v ===== *)
(** * Progress and trace of a run

    One iteration of the driver loop either ends the invocation or advances
    its step counter, and yields a lifecycle event only when it ends it. *)

From S2P Require Import Prelude JsValue Json Errors Pause Channels CheckpointStore Frontier Engine EngineRun EngineFacts.

Local Open Scope string_scope.

(** Events an iteration may yield without ending the run.  A rejected
    awakeable payload is reported while the thread stays suspended. *)
Definition silent (e : event) : Prop :=
  match e with
  | EvStepStart _ _ | EvStepEnd _ _ | EvChannelUpdate _ _ _ _ | EvCheckpointWritten _ _ => True
  | EvError _ code => code = "awakeable-payload-invalid"
  | EvStart _ _ | EvResumed _ _ _ | EvSuspended _ _ _ _ | EvEnd _ _ => False
  end.

(** The events that end an invocation. *)
Definition final (e : event) : Prop :=
  match e with EvSuspended _ _ _ _ | EvEnd _ _ | EvError _ _ => True | _ => False end.

Section Progress.
Context {S : Type} `{CheckpointStore S}.
Context (newId : string -> nat -> string) (world : nat -> S -> S).
Implicit Types (st : RunState (S := S)).

(** Counters and lock stay, only silent events are added. *)
Definition quiet st st' : Prop :=
  rs_lock st' = rs_lock st /\ rs_now st' = rs_now st /\
  ri_closed (rs_int st') = ri_closed (rs_int st) /\
  ri_stepsThisInvocation (rs_int st') = ri_stepsThisInvocation (rs_int st) /\
  ri_stepNumber (rs_int st') = ri_stepNumber (rs_int st) /\
  exists mid, Forall silent mid /\ rs_events st' = (rs_events st ++ mid)%list.

#[export] Instance quiet_preorder : PreOrder quiet.
Proof.
  split.
  - intros st. split_and!; try done. exists []. by rewrite app_nil_r.
  - intros st1 st2 st3 (?&?&?&?&?&m1&?&E1) (?&?&?&?&?&m2&?&E2).
    split_and!; try congruence. exists (m1 ++ m2)%list.
    split; [by apply Forall_app|]. by rewrite E2, E1, app_assoc.
Qed.

Lemma store_only_quiet {A} (m : M A) : keeps store_only m -> keeps quiet m.
Proof.
  intros Hm st. destruct (Hm st) as (Hi & Hl & Hn & He).
  unfold quiet. rewrite Hi, Hl, Hn, He. split_and!; try done. exists []. by rewrite app_nil_r.
Qed.

Lemma quiet_yield e : silent e -> keeps quiet (yield e).
Proof. intros He st. split_and!; try done. exists [e]. by rewrite Forall_singleton. Qed.

Lemma quiet_yield_if b e : silent e -> keeps quiet (yield_if b e).
Proof. destruct b; [apply quiet_yield|intros; apply keeps_ret; apply _]. Qed.

Lemma quiet_set_int (f : RunInternalState -> RunInternalState) :
  (forall i, ri_closed (f i) = ri_closed i /\
     ri_stepsThisInvocation (f i) = ri_stepsThisInvocation i /\
     ri_stepNumber (f i) = ri_stepNumber i) ->
  keeps quiet (set_int f).
Proof.
  intros Hf st. destruct (Hf (rs_int st)) as (Hc & Hs & Hn).
  split_and!; try done. exists []. by rewrite app_nil_r.
Qed.

Lemma quiet_set_status s : keeps quiet (set_status s).
Proof. by apply quiet_set_int. Qed.
Lemma quiet_set_pauses ps : keeps quiet (set_pauses ps).
Proof. by apply quiet_set_int. Qed.
Lemma quiet_set_frontier ts ns : keeps quiet (set_frontier ts ns).
Proof. by apply quiet_set_int. Qed.
Lemma quiet_set_state s v : keeps quiet (set_state s v).
Proof. by apply quiet_set_int. Qed.
Lemma quiet_set_parent p : keeps quiet (set_parent p).
Proof. by apply quiet_set_int. Qed.
End Progress.

(** Computations that leave the [closed] flag alone. *)
Definition same_closed {S : Type} (st st' : RunState (S := S)) : Prop :=
  ri_closed (rs_int st') = ri_closed (rs_int st).

#[export] Instance same_closed_preorder {S : Type} : PreOrder (same_closed (S := S)).
Proof. split; [done|]. unfold same_closed. intros st1 st2 st3. congruence. Qed.

Lemma same_closed_quiet {S A : Type} (m : M (S := S) A) : keeps quiet m -> keeps same_closed m.
Proof. intros Hm st. apply Hm. Qed.

Lemma same_closed_advance {S : Type} : keeps same_closed (advance (S := S)).
Proof. done. Qed.

#[export] Hint Resolve same_closed_advance : keeps.
#[export] Hint Extern 3 (keeps same_closed _) =>
  apply same_closed_quiet; solve [eauto 4 with keeps] : keeps.

#[export] Hint Resolve quiet_set_status quiet_set_pauses quiet_set_frontier quiet_set_state
  quiet_set_parent : keeps.
#[export] Hint Extern 2 (keeps quiet (yield _)) => apply quiet_yield; exact I : keeps.
#[export] Hint Extern 2 (keeps quiet (yield_if _ _)) => apply quiet_yield_if; exact I : keeps.
#[export] Hint Extern 3 (keeps quiet _) =>
  apply store_only_quiet; solve [eauto 2 with keeps] : keeps.

Section Iteration.
Context {S : Type} `{CheckpointStore S}.
Context (newId : string -> nat -> string) (world : nat -> S -> S).
Implicit Types (st : RunState (S := S)).

Lemma quiet_checkpointEvent args id : keeps quiet (checkpointEvent (S := S) args id).
Proof. unfold checkpointEvent. solve_keeps. Qed.
Hint Resolve quiet_checkpointEvent : keeps.

Lemma quiet_stop_with args s e : keeps quiet (stop_with newId world args s e).
Proof. unfold stop_with. solve_keeps. Qed.
Hint Resolve quiet_stop_with : keeps.

Lemma quiet_loop_guards args env : keeps quiet (loop_guards newId world args env).
Proof. unfold loop_guards. solve_keeps. Qed.

Lemma quiet_on_dead_end args stalled : keeps quiet (on_dead_end newId world args stalled).
Proof. unfold on_dead_end. solve_keeps. Qed.

Lemma quiet_executeOneTask args env view journal task sr :
  keeps quiet (executeOneTask newId world args env view journal task sr).
Proof.
  unfold executeOneTask. solve_keeps. by apply quiet_yield.
Qed.
Hint Resolve quiet_executeOneTask : keeps.

Lemma quiet_executeTasks args env view journal tasks order sr :
  keeps quiet (executeTasks newId world args env view journal tasks order sr).
Proof.
  revert sr. induction order as [|i order IH]; intros sr; simpl; solve_keeps; apply IH.
Qed.

Lemma quiet_on_failure args env tasks os ordered f :
  keeps quiet (on_failure newId world args env tasks os ordered f).
Proof. unfold on_failure. solve_keeps. Qed.

Lemma quiet_merge_step args ordered : keeps quiet (merge_step newId world args ordered).
Proof. unfold merge_step. solve_keeps. Qed.

Lemma quiet_channel_events args n applied :
  keeps quiet (channel_events (S := S) args n applied).
Proof. unfold channel_events. solve_keeps. Qed.
End Iteration.

#[export] Hint Resolve quiet_checkpointEvent quiet_stop_with quiet_loop_guards quiet_on_dead_end
  quiet_executeTasks quiet_on_failure quiet_merge_step quiet_channel_events : keeps.

Section Loop.
Context {S : Type} `{CheckpointStore S}.
Context (newId : string -> nat -> string) (world : nat -> S -> S).
Implicit Types (st : RunState (S := S)).

Definition same_env st st' : Prop := rs_lock st' = rs_lock st /\ rs_now st' = rs_now st.

(** Only silent events were added. *)
Definition hushed st st' : Prop :=
  same_env st st' /\
  exists mid, Forall silent mid /\ rs_events st' = (rs_events st ++ mid)%list.

(** The invocation ended, reporting [e]. *)
Definition ended_by (e : event) st st' : Prop :=
  same_env st st' /\ ri_closed (rs_int st') = true /\
  exists mid, Forall silent mid /\ rs_events st' = (rs_events st ++ mid ++ [e])%list.

(** The invocation goes on, one step further. *)
Definition advanced st st' : Prop :=
  hushed st st' /\
  ri_closed (rs_int st') = ri_closed (rs_int st) /\
  ri_stepsThisInvocation (rs_int st') = 1 + ri_stepsThisInvocation (rs_int st) /\
  ri_stepNumber (rs_int st') = 1 + ri_stepNumber (rs_int st).

Definition iter_post st (r : result exn unit) st' : Prop :=
  match r with
  | Err _ => hushed st st'
  | Ok _ => (exists e, final e /\ ended_by e st st') \/ advanced st st'
  end.

Lemma hushed_quiet st1 st2 st3 : quiet st1 st2 -> hushed st2 st3 -> hushed st1 st3.
Proof.
  intros (?&?&_&_&_&m1&?&E1) ([??]&m2&?&E2). split; [split; congruence|].
  exists (m1 ++ m2)%list. split; [by apply Forall_app|]. by rewrite E2, E1, app_assoc.
Qed.

Lemma iter_post_quiet st1 st2 r st3 : quiet st1 st2 -> iter_post st2 r st3 -> iter_post st1 r st3.
Proof.
  intros Hq. destruct r as [[]|e]; simpl; [|by apply hushed_quiet].
  intros [(e & He & [Hl Hn] & Hc & m2 & Hm & E2)|(Hh & Hc & Hs & Hn)].
  - left. exists e. split; [done|]. destruct Hq as (?&?&_&_&_&m1&?&E1).
    split; [split; congruence|]. split; [done|]. exists (m1 ++ m2)%list.
    split; [by apply Forall_app|]. by rewrite E2, E1, <-!app_assoc.
  - right. split; [by eapply hushed_quiet|]. destruct Hq as (?&?&?&?&?&_).
    split_and!; congruence.
Qed.

Lemma quiet_hushed st st' : quiet st st' -> hushed st st'.
Proof. intros (?&?&_&_&_&m&?&?). split; [done|]. by exists m. Qed.

(** A quiet prefix, then the rest. *)
Lemma iter_bind {A} (m : M A) (f : A -> M unit) st :
  keeps quiet m -> (forall a st', wp (f a) (iter_post st') st') ->
  wp (bind m f) (iter_post st) st.
Proof.
  intros Hm Hf. apply wp_bind, (wp_keeps quiet); [done|]. intros [a|e] st' Hq.
  - eapply wp_mono; [apply Hf|]. intros r st''. by apply iter_post_quiet.
  - by apply quiet_hushed.
Qed.

Lemma iter_throws (m : M unit) st :
  keeps quiet m -> (forall st' u, (m st').2 <> Ok u) -> wp m (iter_post st) st.
Proof.
  intros Hm Hno. pose proof (Hm st) as Hq. unfold wp. specialize (Hno st).
  destruct (m st) as [st' [u|e]]; simpl in *; [by destruct (Hno u)|by apply quiet_hushed].
Qed.

(** [yield e; internal.closed = true; return] *)
Lemma iter_close e st : final e -> wp (bind (yield e) (fun _ => close)) (iter_post st) st.
Proof.
  intros He. left. exists e. split; [done|]. split; [done|]. split; [done|]. by exists [].
Qed.

Lemma bind_throws {A B} (m : M A) (f : A -> M B) :
  (forall a st b, (f a st).2 <> Ok b) -> forall st b, (bind (S := S) m f st).2 <> Ok b.
Proof. intros Hf st b. unfold bind. destruct (m st) as [st' [a|e]]; [apply Hf|done]. Qed.

Lemma stop_with_throws args s e st u : (stop_with newId world args s e st).2 <> Ok u.
Proof. unfold stop_with. revert st u. repeat (apply bind_throws; intros _ || intros ?). done. Qed.
End Loop.

Ltac iter_step :=
  lazymatch goal with
  | |- wp (bind (yield _) (fun _ => close)) _ _ => apply iter_close; exact I
  | |- wp (bind _ _) _ _ => apply iter_bind; [solve_keeps|intros]
  end.

Section Drive.
Context {S : Type} `{CheckpointStore S}.
Context (newId : string -> nat -> string) (world : nat -> S -> S).
Implicit Types (st : RunState (S := S)).

Lemma on_suspend_before_iter args gated rest st :
  wp (on_suspend_before newId world args gated rest) (iter_post st) st.
Proof. unfold on_suspend_before. cbv zeta. repeat iter_step. Qed.

Lemma on_completed_iter args st : wp (on_completed newId world args) (iter_post st) st.
Proof. unfold on_completed. cbv zeta. repeat iter_step. Qed.

Lemma on_suspended_iter args pauses first st :
  wp (on_suspended newId world args pauses first) (iter_post st) st.
Proof. unfold on_suspended. cbv zeta. repeat iter_step. Qed.

Lemma on_running_iter args env st : wp (on_running newId world args env) (iter_post st) st.
Proof.
  unfold on_running. do 4 iter_step. iter_step. rename st'3 into st1.
  apply wp_bind. unfold wp at 1, advance, set_int. cbn [fst snd].
  set (st2 := mkRun _ _ _ _ _ _ _).
  assert (advanced st1 st2) as Hadv.
  { split; [|done]. split; [done|]. exists []. by rewrite app_nil_r. }
  destruct (se_abort_after env).
  - pose proof (quiet_stop_with newId world args Aborted
                  (WorkflowAbortedError (ra_threadId args)) st2) as Hq.
    pose proof (stop_with_throws newId world args Aborted
                  (WorkflowAbortedError (ra_threadId args)) st2) as Hno.
    unfold wp. destruct (stop_with _ _ _ _ _ st2) as [st3 [u|e]]; simpl in *; [by destruct (Hno u)|].
    destruct (quiet_hushed _ _ Hq) as ([Hl Hn] & mid & Hm & He).
    split; [done|]. exists mid. by split.
  - by right.
Qed.

Lemma finish_step_iter args env tasks sr st :
  wp (finish_step newId world args env tasks sr) (iter_post st) st.
Proof.
  unfold finish_step. cbv zeta. destruct (abort_failure _ _ _ _) as [f|].
  - apply iter_throws; [solve_keeps|]. unfold on_failure.
    repeat (apply bind_throws; intros ?). done.
  - do 5 iter_step. destruct (match pauseRecordsOf _ with [] => _ | _ => _ end) as [|first ps].
    + apply on_running_iter.
    + apply on_suspended_iter.
Qed.

Lemma run_step_iter args env tasks st :
  wp (run_step newId world args env tasks) (iter_post st) st.
Proof. unfold run_step. do 5 iter_step. apply finish_step_iter. Qed.

Lemma loop_body_iter args env st : wp (loop_body newId world args env) (iter_post st) st.
Proof.
  unfold loop_body. do 2 iter_step.
  destruct (planTasks _ _ _ _) as [[[|t ts]|gated rest|stalled] ids']; do 2 iter_step.
  - apply on_completed_iter.
  - apply run_step_iter.
  - apply on_suspend_before_iter.
  - apply iter_throws; [solve_keeps|]. unfold on_dead_end.
    repeat (apply bind_throws; intros ?). done.
Qed.

(** The step cap ends the iteration. *)
Lemma loop_guards_capped args env st :
  maxSteps_of (ra_cfg args) <= ri_stepsThisInvocation (rs_int st) ->
  exists st' e, loop_guards newId world args env st = (st', Err e).
Proof.
  intros Hcap.
  pose proof (stop_with_throws newId world args Aborted (WorkflowAbortedError (ra_threadId args)) st)
    as Hno1.
  pose proof (stop_with_throws newId world args Failed (WorkflowError "max-steps-exceeded" "maxSteps")
    st) as Hno2.
  unfold loop_guards, bind. destruct (se_abort_top env); simpl.
  - destruct (stop_with newId world args Aborted _ st) as [st' [u|e]]; simpl in *;
      [by destruct (Hno1 u)|by eauto].
  - rewrite decide_True by done.
    destruct (stop_with newId world args Failed _ st) as [st' [u|e]]; simpl in *;
      [by destruct (Hno2 u)|by eauto].
Qed.

Lemma loop_body_capped args env st :
  maxSteps_of (ra_cfg args) <= ri_stepsThisInvocation (rs_int st) ->
  exists e, loop_body newId world args env st = ((loop_guards newId world args env st).1, Err e).
Proof.
  intros (st' & e & E)%(loop_guards_capped args env). exists e. unfold loop_body, bind at 1. by rewrite E.
Qed.

(** Below it, and with neither an abort nor the total cap, the guards pass. *)
Lemma loop_guards_pass args env st :
  se_abort_top env = false -> ri_stepsThisInvocation (rs_int st) < maxSteps_of (ra_cfg args) ->
  (forall cap, cfg_maxTotalSteps (ra_cfg args) = Some cap -> ri_stepNumber (rs_int st) < cap) ->
  loop_guards newId world args env st = (st, Ok ()).
Proof.
  intros Ha Hlt Ht. unfold loop_guards. rewrite Ha. unfold bind, ret, get. rewrite decide_False by lia.
  destruct (cfg_maxTotalSteps (ra_cfg args)) as [cap|]; [|done]. specialize (Ht cap eq_refl). by rewrite decide_False by lia.
Qed.

Definition drive_post st (r : result exn bool) st' : Prop :=
  match r with
  | Ok b => b = true /\ (ri_closed (rs_int st) = true /\ st' = st \/
                         exists e, final e /\ ended_by e st st')
  | Err _ => hushed st st'
  end.

Lemma hushed_trans st1 st2 st3 : hushed st1 st2 -> hushed st2 st3 -> hushed st1 st3.
Proof.
  intros ([??]&m1&?&E1) ([??]&m2&?&E2). split; [split; congruence|].
  exists (m1 ++ m2)%list. split; [by apply Forall_app|]. by rewrite E2, E1, app_assoc.
Qed.

(** The driver stops within the fuel its step cap allows. *)
Lemma driveRun_post args envs fuel st :
  maxSteps_of (ra_cfg args) + 1 <= fuel + ri_stepsThisInvocation (rs_int st) ->
  ri_stepsThisInvocation (rs_int st) <= maxSteps_of (ra_cfg args) ->
  ri_closed (rs_int st) = false ->
  wp (driveRun newId world fuel args envs) (drive_post st) st.
Proof.
  revert st. induction fuel as [|fuel IH]; intros st Hfuel Hsteps Hopen; [lia|].
  simpl. apply wp_bind. unfold wp at 1, get. cbn [fst snd]. rewrite Hopen. apply wp_bind.
  pose proof (loop_body_capped args (envs (ri_stepsThisInvocation (rs_int st))) st) as Hcap.
  pose proof (loop_body_iter args (envs (ri_stepsThisInvocation (rs_int st))) st) as Hiter.
  unfold wp in *. destruct (loop_body _ _ _ _ st) as [st1 [[]|e]]; simpl in *; [|done].
  destruct (decide (maxSteps_of (ra_cfg args) <= ri_stepsThisInvocation (rs_int st))) as [Hle|Hlt].
  { by destruct (Hcap Hle) as [e [=]]. }
  destruct Hiter as [(e & He & Hend)|(Hh & Hc & Hs & _)].
  - destruct fuel; simpl; unfold bind, get; rewrite (proj1 (proj2 Hend)); simpl; by eauto 10.
  - specialize (IH st1). rewrite Hs, Hc in IH. specialize (IH ltac:(lia) ltac:(lia) Hopen).
    destruct (driveRun _ _ _ _ _ st1) as [st2 [b|e]]; simpl in *; [|by eapply hushed_trans].
    destruct IH as [-> [[Hcl _]|(e & He & Hend)]]; [congruence|].
    split; [done|]. right. exists e. split; [done|].
    destruct Hh as ([??] & m1 & ? & E1), Hend as ([??] & ? & m2 & ? & E2).
    split; [split; congruence|]. split; [done|]. exists (m1 ++ m2)%list.
    split; [by apply Forall_app|]. by rewrite E2, E1, <-!app_assoc.
Qed.
End Drive.

(** ** The step cap *)

Definition is_step_start (e : event) : bool := match e with EvStepStart _ _ => true | _ => false end.

Section Cap.
Context {S : Type} `{CheckpointStore S}.
Context (newId : string -> nat -> string) (world : nat -> S -> S).
Implicit Types (st : RunState (S := S)).

(** Steps announced, and steps counted against the cap. *)
Definition starts st : nat := length (List.filter is_step_start (rs_events st)).
Definition steps st : nat := ri_stepsThisInvocation (rs_int st).

Definition unmoved st st' : Prop := starts st' = starts st /\ steps st' = steps st.
Definition counted st st' : Prop := starts st' = starts st /\ steps st' <= 1 + steps st.
Definition stepped st st' : Prop := starts st' <= 1 + starts st /\ steps st' <= 1 + steps st.

#[local] Instance unmoved_preorder : PreOrder unmoved.
Proof. split; [by intros []|]. unfold unmoved. intros st1 st2 st3. intuition congruence. Qed.

Lemma unmoved_yield e : is_step_start e = false -> keeps unmoved (yield e).
Proof. intros He st. split; [|done]. unfold starts. simpl. rewrite List.filter_app. simpl. by rewrite He, app_nil_r. Qed.

Lemma unmoved_yield_if b e : is_step_start e = false -> keeps unmoved (yield_if b e).
Proof. destruct b; [apply unmoved_yield|intros; apply keeps_ret; apply _]. Qed.

Lemma unmoved_set_int (f : RunInternalState -> RunInternalState) :
  (forall i, ri_stepsThisInvocation (f i) = ri_stepsThisInvocation i) -> keeps unmoved (set_int f).
Proof. intros Hf st. split; [done|]. apply Hf. Qed.

Lemma store_only_unmoved {A} (m : M A) : keeps store_only m -> keeps unmoved m.
Proof. intros Hm st. destruct (Hm st) as (Hi & _ & _ & He). unfold unmoved, starts, steps. by rewrite Hi, He. Qed.

Hint Extern 2 (keeps unmoved (yield _)) => apply unmoved_yield; reflexivity : keeps.
Hint Extern 2 (keeps unmoved (yield_if _ _)) => apply unmoved_yield_if; reflexivity : keeps.
Hint Extern 2 (keeps unmoved (set_status _)) => apply unmoved_set_int; reflexivity : keeps.
Hint Extern 2 (keeps unmoved (set_pauses _)) => apply unmoved_set_int; reflexivity : keeps.
Hint Extern 2 (keeps unmoved (set_frontier _ _)) => apply unmoved_set_int; reflexivity : keeps.
Hint Extern 2 (keeps unmoved (set_state _ _)) => apply unmoved_set_int; reflexivity : keeps.
Hint Extern 2 (keeps unmoved (set_parent _)) => apply unmoved_set_int; reflexivity : keeps.
Hint Extern 2 (keeps unmoved close) => apply unmoved_set_int; reflexivity : keeps.
Hint Extern 3 (keeps unmoved _) => apply store_only_unmoved; solve [eauto 2 with keeps] : keeps.

Lemma unmoved_checkpointEvent args id : keeps unmoved (checkpointEvent (S := S) args id).
Proof. unfold checkpointEvent. solve_keeps. Qed.
Hint Resolve unmoved_checkpointEvent : keeps.

Lemma unmoved_stop_with args s e : keeps unmoved (stop_with newId world args s e).
Proof. unfold stop_with. solve_keeps. Qed.
Hint Resolve unmoved_stop_with : keeps.

Lemma unmoved_loop_guards args env : keeps unmoved (loop_guards newId world args env).
Proof. unfold loop_guards. solve_keeps. Qed.

Lemma unmoved_executeOneTask args env view journal task sr :
  keeps unmoved (executeOneTask newId world args env view journal task sr).
Proof. unfold executeOneTask. solve_keeps. Qed.
Hint Resolve unmoved_executeOneTask : keeps.

Lemma unmoved_executeTasks args env view journal tasks order sr :
  keeps unmoved (executeTasks newId world args env view journal tasks order sr).
Proof. revert sr. induction order as [|i order IH]; intros sr; simpl; solve_keeps; apply IH. Qed.
Hint Resolve unmoved_executeTasks : keeps.

Lemma unmoved_on_dead_end args stalled : keeps unmoved (on_dead_end newId world args stalled).
Proof. unfold on_dead_end. solve_keeps. Qed.
Lemma unmoved_on_suspend_before args gated rest : keeps unmoved (on_suspend_before newId world args gated rest).
Proof. unfold on_suspend_before. solve_keeps. Qed.
Lemma unmoved_on_completed args : keeps unmoved (on_completed newId world args).
Proof. unfold on_completed. solve_keeps. Qed.
Lemma unmoved_on_suspended args pauses first : keeps unmoved (on_suspended newId world args pauses first).
Proof. unfold on_suspended. solve_keeps. Qed.
Lemma unmoved_on_failure args env tasks os ordered f : keeps unmoved (on_failure newId world args env tasks os ordered f).
Proof. unfold on_failure. solve_keeps. Qed.
Lemma unmoved_merge_step args ordered : keeps unmoved (merge_step newId world args ordered).
Proof. unfold merge_step. solve_keeps. Qed.
Lemma unmoved_channel_events args n applied : keeps unmoved (channel_events (S := S) args n applied).
Proof. unfold channel_events. solve_keeps. Qed.
Hint Resolve unmoved_on_dead_end unmoved_on_suspend_before unmoved_on_completed unmoved_on_suspended
  unmoved_on_failure unmoved_merge_step unmoved_channel_events : keeps.

Lemma bind_counted {A B} (m : M A) (f : A -> M B) :
  keeps unmoved m -> (forall a, keeps counted (f a)) -> keeps counted (bind m f).
Proof.
  intros Hm Hf st. unfold bind. specialize (Hm st). destruct (m st) as [st1 [a|e]]; simpl in *.
  - specialize (Hf a st1). unfold unmoved, counted in *. lia.
  - unfold unmoved, counted in *. lia.
Qed.

Lemma unmoved_counted {A} (m : M A) : keeps unmoved m -> keeps counted m.
Proof. intros Hm st. specialize (Hm st). unfold unmoved, counted in *. lia. Qed.

Lemma counted_on_running args env : keeps counted (on_running newId world args env).
Proof.
  unfold on_running. do 5 (apply bind_counted; [solve_keeps|intros ?]).
  intros st. unfold bind. cbn [advance set_int]. set (st1 := mkRun _ _ _ _ _ _ _).
  assert (keeps unmoved (if se_abort_after env then stop_with newId world args Aborted (WorkflowAbortedError (ra_threadId args))
                         else ret ())) as Hk by solve_keeps.
  specialize (Hk st1). unfold unmoved, counted, starts, steps in *. simpl in Hk |- *. lia.
Qed.

Lemma counted_finish_step args env tasks sr : keeps counted (finish_step newId world args env tasks sr).
Proof.
  unfold finish_step. cbv zeta. destruct (abort_failure _ _ _ _) as [f|]; [apply unmoved_counted; auto with keeps|].
  do 5 (apply bind_counted; [solve_keeps|intros ?]).
  destruct (match pauseRecordsOf _ with [] => _ | _ => _ end); [apply counted_on_running|].
  apply unmoved_counted. auto with keeps.
Qed.

Lemma stepped_run_step args env tasks : keeps stepped (run_step newId world args env tasks).
Proof.
  intros st. unfold run_step. unfold bind at 1. cbn [get]. unfold bind at 1.
  set (m := bind _ _). enough (keeps counted (m : M unit)) as Hm; [|unfold m].
  - unfold yield_if. destruct (includeStepEvents args); cbn [yield ret].
    + set (st1 := mkRun _ _ _ _ _ _ _). specialize (Hm st1).
      assert (starts st1 = 1 + starts st) as E1.
      { unfold starts, st1. simpl. rewrite List.filter_app, length_app. simpl. lia. }
      assert (steps st1 = steps st) as E2 by done. unfold counted, stepped in *. lia.
    + specialize (Hm st). unfold counted, stepped in *. lia.
  - do 3 (apply bind_counted; [solve_keeps|intros ?]). apply counted_finish_step.
Qed.

Lemma unmoved_stepped {A} (m : M A) : keeps unmoved m -> keeps stepped m.
Proof. intros Hm st. specialize (Hm st). unfold unmoved, stepped in *. lia. Qed.

Lemma bind_stepped {A B} (m : M A) (f : A -> M B) :
  keeps unmoved m -> (forall a, keeps stepped (f a)) -> keeps stepped (bind m f).
Proof.
  intros Hm Hf st. unfold bind. specialize (Hm st). destruct (m st) as [st1 [a|e]]; simpl in *.
  - specialize (Hf a st1). unfold unmoved, stepped in *. lia.
  - unfold unmoved, stepped in *. lia.
Qed.

Lemma stepped_loop_body args env : keeps stepped (loop_body newId world args env).
Proof.
  unfold loop_body. apply bind_stepped; [apply unmoved_loop_guards|intros _]. apply bind_stepped; [solve_keeps|intros rs].
  destruct (planTasks _ _ _ _) as [p ids']. do 2 (apply bind_stepped; [solve_keeps|intros _]).
  destruct p as [[|t ts]|gated rest|stalled]; first [apply stepped_run_step|apply unmoved_stepped; auto with keeps].
Qed.

(** An invocation announces and counts at most [maxSteps] steps. *)
Lemma driveRun_capped args envs fuel st st' r :
  steps st <= maxSteps_of (ra_cfg args) -> driveRun newId world fuel args envs st = (st', r) ->
  steps st' <= maxSteps_of (ra_cfg args) /\ starts st' + steps st <= starts st + maxSteps_of (ra_cfg args).
Proof.
  revert st. induction fuel as [|fuel IH]; intros st Hle; simpl; unfold bind at 1; cbn [get].
  { destruct (ri_closed _); intros [= <- _]; lia. }
  destruct (ri_closed (rs_int st)) eqn:Ec; [intros [= <- _]; lia|]. set (env := envs _). unfold bind.
  pose proof (loop_body_capped newId world args env st) as Hcap.
  pose proof (stepped_loop_body args env st) as Hst. pose proof (unmoved_loop_guards args env st) as Hg.
  pose proof (loop_body_iter newId world args env st) as Hiter. unfold wp in Hiter.
  destruct (decide (maxSteps_of (ra_cfg args) <= steps st)) as [Hge|Hlt].
  { destruct (Hcap Hge) as [e ->]. intros [= <- _]. unfold unmoved in Hg. lia. }
  destruct (loop_body newId world args env st) as [st1 [[]|e]]; simpl in *; unfold stepped in Hst;
    [|intros [= <- _]; lia].
  destruct Hiter as [(e & He & _ & Hc & _)|(_ & _ & Hs & _)].
  - destruct fuel; simpl; unfold bind; simpl; rewrite Hc; intros [= <- _]; lia.
  - fold (steps st1) (steps st) in Hs. intros E. specialize (IH st1 ltac:(lia) E). lia.
Qed.
End Cap.
