(* ===== verification/Timeline.v ===== *)
(** * The checkpoint timeline of a thread

    The checkpoints of one thread form a chain: each one names its
    predecessor as parent and carries a greater step number.  The file proves
    that a run only ever extends that chain, whatever other writers append to
    the thread between the run's own store calls. *)

From S2P Require Import Prelude JsValue Json Errors Pause Channels CheckpointStore Frontier Engine EngineRun EngineFacts RunFacts.

#[local] Set Default Proof Using "Type*".

Create HintDb safe discriminated.

(** ** Chains of checkpoints *)

Definition linear (cps : list Checkpoint) : Prop :=
  forall i x y, cps !! i = Some x -> cps !! S i = Some y ->
    cp_parentId y = Some (cp_id x) /\ cp_stepNumber x < cp_stepNumber y.

Lemma linear_nil : linear [].
Proof. by intros []. Qed.

Lemma linear_snoc cps y :
  linear cps ->
  (forall x, last cps = Some x ->
     cp_parentId y = Some (cp_id x) /\ cp_stepNumber x < cp_stepNumber y) ->
  linear (cps ++ [y]).
Proof.
  intros Hl Hy i x z Hx Hz.
  assert (i < length cps) as Hi.
  { apply lookup_lt_Some in Hz. rewrite length_app in Hz. simpl in Hz. lia. }
  rewrite lookup_app_l in Hx by done.
  destruct (decide (S i < length cps)) as [Hlt|Hge].
  - rewrite lookup_app_l in Hz by done. by eapply Hl.
  - assert (S i = length cps) as Hlen by lia.
    rewrite Hlen, lookup_app_r, Nat.sub_diag in Hz by lia. simplify_eq/=.
    apply Hy. rewrite last_lookup, <-Hlen. done.
Qed.

Lemma linear_prefix a b : linear (a ++ b) -> linear a.
Proof.
  intros Hl i x y Hx Hy. apply (Hl i); by apply lookup_app_l_Some.
Qed.

(** The latest checkpoint of a chain is its last one. *)
Lemma latest_of_snoc ts x :
  latest_of (ts ++ [x]) = match latest_of ts with
                          | None => Some x
                          | Some l => if decide (ct_step l < ct_step x) then Some x else Some l
                          end.
Proof. unfold latest_of. rewrite foldl_app. simpl. by destruct (foldl _ _ _). Qed.

Lemma linear_latest ts : linear (map ct_checkpoint ts) -> latest_of ts = last ts.
Proof.
  induction ts as [|x ts IH] using rev_ind; intros Hl; [done|].
  rewrite latest_of_snoc, last_snoc. rewrite map_app in Hl.
  rewrite IH by by eapply linear_prefix.
  destruct (last ts) as [l|] eqn:Hlast; [|done].
  rewrite last_lookup in Hlast. rewrite decide_True; [done|].
  apply (Hl (pred (length ts)) (ct_checkpoint l) (ct_checkpoint x)).
  - apply lookup_app_l_Some. by rewrite list_lookup_map, Hlast.
  - apply lookup_lt_Some in Hlast. replace (S (pred (length ts))) with (length ts) by lia.
    rewrite lookup_app_r by (rewrite length_map; lia). by rewrite length_map, Nat.sub_diag.
Qed.

Lemma NoDup_map_inj {A B} (f : A -> B) l x y :
  NoDup (map f l) -> x ∈ l -> y ∈ l -> f x = f y -> x = y.
Proof.
  intros Hnd [i Hi]%list_elem_of_lookup [j Hj]%list_elem_of_lookup Hf.
  assert (i = j) as ->; [|by simplify_eq].
  apply (NoDup_lookup _ i j (f x) Hnd).
  - by rewrite list_lookup_map, Hi.
  - by rewrite list_lookup_map, Hj, Hf.
Qed.

Lemma last_Some_elem_of {A} (l : list A) x : last l = Some x -> x ∈ l.
Proof. rewrite last_lookup. apply list_elem_of_lookup_2. Qed.

(** ** The run's invariant *)

Section Timeline.
Context {S : Type} `{CheckpointStoreSpec S}.
Context (newId : string -> nat -> string) (world : nat -> S -> S) (args : RunArgs).
Implicit Types (st : RunState (S := S)) (s : S).

Notation t := (ra_threadId args).
Notation n := (ra_ns args).

(** The thread's checkpoints, in the order they were put. *)
Definition cps s : list Checkpoint := map ct_checkpoint (view s t n).

(** Other writers append to the thread as any engine instance does: the
    chain stays a chain, and identifiers are not reused. *)
Record world_ok : Prop := {
  wo_wf : forall k s, store_wf s -> store_wf (world k s);
  wo_append : forall k s, store_wf s -> exists l, cps (world k s) = (cps s ++ l)%list /\
    (linear (cps s) -> linear (cps s ++ l)) /\ Forall (fun cp => forall j, cp_id cp <> newId "cp" j) l;
}.

(** No other writer touches the thread. *)
Definition alone : Prop := forall k s, store_wf s -> cps (world k s) = cps s.

Context (t_ok : name_ok t) (n_ok : name_ok n).
Context (newId_inj : forall i j, newId "cp" i = newId "cp" j -> i = j).
Context (w_ok : world_ok).

Definition ids_fresh (k : nat) s : Prop := forall j, k <= j -> newId "cp" j ∉ map cp_id (cps s).

Definition winv st : Prop :=
  store_wf (rs_store st) /\ linear (cps (rs_store st)) /\ ids_fresh (rs_ids st) (rs_store st).

(** The parent pointer names a checkpoint older than the current step; a run
    without parent owns an empty thread. *)
Definition parent_ok st : Prop :=
  match ri_parent (rs_int st) with
  | Some p => exists cp, cp ∈ cps (rs_store st) /\ cp_id cp = p /\
      cp_stepNumber cp < ri_stepNumber (rs_int st)
  | None => alone /\ cps (rs_store st) = []
  end.

Definition inv st : Prop := winv st /\ parent_ok st.

(** What every part of a run guarantees, even when it throws. *)
Definition extended st st' : Prop :=
  winv st' /\ cps (rs_store st) `prefix_of` cps (rs_store st').

Lemma extended_trans st1 st2 st3 : extended st1 st2 -> extended st2 st3 -> extended st1 st3.
Proof. intros [_ H1] [? H2]. split; [done|]. by etrans. Qed.

Lemma cps_nodup s : store_wf s -> NoDup (map cp_id (cps s)).
Proof. intros Hwf. unfold cps. rewrite map_map. by apply view_nodup. Qed.

Lemma winv_same st st' : winv st -> same_store st st' -> winv st'.
Proof.
  intros (Hwf & Hl & Hf) [Hs Hi]. unfold winv. rewrite Hs. split_and!; [done|done|].
  intros j Hj. apply Hf. lia.
Qed.

Lemma extended_same st st' : winv st -> same_store st st' -> extended st st'.
Proof. intros Hw Hs. split; [by eapply winv_same|]. by rewrite (proj1 Hs). Qed.

Lemma inv_same st st' :
  inv st -> same_store st st' -> rs_int st' = rs_int st -> inv st'.
Proof.
  intros [Hw Hp] Hs Hi. split; [by eapply winv_same|].
  unfold parent_ok in *. by rewrite Hi, (proj1 Hs).
Qed.

(** Appending to the chain. *)
Lemma parent_ok_prefix st st' :
  rs_int st' = rs_int st -> parent_ok st ->
  cps (rs_store st) `prefix_of` cps (rs_store st') ->
  (ri_parent (rs_int st) = None -> cps (rs_store st') = []) -> parent_ok st'.
Proof.
  unfold parent_ok. intros -> Hp [l ->] Hnone. destruct (ri_parent _) as [p|].
  - destruct Hp as (cp & Hin & ?). exists cp. split; [apply elem_of_app; by left|done].
  - split; [apply Hp|]. by apply Hnone.
Qed.

Definition await_state st : RunState := (await_store world st).1.

Lemma await_extended st : winv st -> extended st (await_state st).
Proof.
  intros (Hwf & Hl & Hf). unfold await_state. simpl.
  destruct (wo_append w_ok (rs_tick st) (rs_store st) Hwf) as (l & Hl' & Hlin & Hids).
  split; [|simpl; rewrite Hl'; by exists l]. split_and!; simpl.
  - by apply (wo_wf w_ok).
  - rewrite Hl'. by apply Hlin.
  - intros j Hj. simpl. rewrite Hl', map_app, not_elem_of_app. split; [by apply Hf|].
    intros (cp & Heq & Hin)%list_elem_of_fmap. rewrite Forall_forall in Hids.
    by apply (Hids cp Hin j).
Qed.

Lemma await_inv st : inv st -> inv (await_state st).
Proof.
  intros [Hw Hp]. destruct (await_extended st Hw) as [Hw' Hpre]. split; [done|].
  apply (parent_ok_prefix st); try done. intros Hnone.
  unfold parent_ok in Hp. rewrite Hnone in Hp. destruct Hp as [Hal He].
  unfold await_state. simpl. rewrite Hal; [done|apply Hw].
Qed.

Lemma putWrites_cps id ws task s :
  store_wf s -> cps (putWrites t n id ws task s) = cps s.
Proof.
  intros Hwf. by apply putWrites_checkpoints.
Qed.

(** Writes never change the chain. *)
Lemma putWrites_extended id ws task st :
  winv st -> extended st (set_store (putWrites t n id ws task) st).1.
Proof.
  intros (Hwf & Hl & Hf). unfold extended, winv, ids_fresh. simpl.
  rewrite putWrites_cps by done. split; [|done]. split_and!; try done.
  by destruct (putWrites_spec (rs_store st) t n id ws task Hwf t_ok n_ok) as (? & _).
Qed.

(** The identifier drawn for a checkpoint stays unused until its put. *)
Definition id_free (id : string) st : Prop := id ∉ map cp_id (cps (rs_store st)).

Lemma await_free j st : winv st -> id_free (newId "cp" j) st -> id_free (newId "cp" j) (await_state st).
Proof.
  intros (Hwf & _ & _) Hfree. unfold id_free, await_state. simpl.
  destruct (wo_append w_ok (rs_tick st) (rs_store st) Hwf) as (l & -> & _ & Hids).
  rewrite map_app, not_elem_of_app. split; [done|].
  intros (cp & Heq & Hin)%list_elem_of_fmap. rewrite Forall_forall in Hids. by apply (Hids cp Hin j).
Qed.

(** A guarded put extends the chain by one checkpoint. *)
Lemma put_extends st cp md s' j :
  inv st -> cp_id cp = newId "cp" j -> j < rs_ids st -> id_free (cp_id cp) st ->
  cp_parentId cp = ri_parent (rs_int st) -> cp_stepNumber cp = ri_stepNumber (rs_int st) ->
  put t n cp md (Some <$> ri_parent (rs_int st)) (rs_store st) = Ok s' ->
  store_wf s' /\ cps s' = (cps (rs_store st) ++ [cp])%list /\ linear (cps s') /\
  ids_fresh (rs_ids st) s'.
Proof.
  intros [(Hwf & Hl & Hf) Hp] Hid Hj Hfree Hpar Hstep Hput.
  pose proof (put_spec (rs_store st) t n cp md (Some <$> ri_parent (rs_int st)) Hwf t_ok n_ok) as Hspec.
  rewrite Hput in Hspec. destruct Hspec as (Hcas & Hwf' & Hview & _).
  assert (cps s' = (cps (rs_store st) ++ [cp])%list) as Hcps.
  { unfold cps. rewrite Hview. unfold v_put. rewrite decide_False; [by rewrite map_app|].
    unfold id_free, cps in Hfree. rewrite map_map in Hfree. exact Hfree. }
  split_and!; [done|done| |].
  - rewrite Hcps. apply linear_snoc; [done|]. intros x Hx. rewrite Hpar, Hstep.
    unfold parent_ok in Hp. destruct (ri_parent (rs_int st)) as [p|]; [|by rewrite (proj2 Hp) in Hx].
    simpl in Hcas. rewrite linear_latest in Hcas by done.
    assert (cp_id x = p) as <-.
    { unfold cps in Hx. change (map ct_checkpoint) with (fmap (M := list) ct_checkpoint) in Hx.
      rewrite fmap_last in Hx. destruct (last (view (rs_store st) t n)); [|done].
      simpl in *. simplify_eq/=. done. }
    split; [done|]. destruct Hp as (cp' & Hin & Hid' & Hlt).
    assert (cp' = x) as ->; [|done].
    apply last_Some_elem_of in Hx.
    apply (NoDup_map_inj cp_id (cps (rs_store st))); try done. by apply cps_nodup.
  - intros k Hk. rewrite Hcps, map_app, not_elem_of_app. split; [by apply Hf|].
    cbn [map]. rewrite list_elem_of_singleton, Hid. intros ?%newId_inj. lia.
Qed.

Lemma forM_writes_extended id (w : list (string * list ChannelWrite)) st :
  winv st ->
  wp (forM w (fun g => bind (await_store world) (fun _ =>
        set_store (putWrites t n id (pending_of g.2) g.1))))
     (fun _ st' => extended st st') st.
Proof.
  revert st. induction w as [|g w IH]; intros st Hw; simpl.
  - unfold wp, extended. simpl. done.
  - apply wp_bind, wp_bind. unfold wp at 1. cbn [await_store fst snd].
    fold (await_state st). pose proof (await_extended st Hw) as H1.
    unfold wp at 1. cbn [set_store snd].
    pose proof (putWrites_extended id (pending_of g.2) g.1 _ (proj1 H1)) as H2.
    eapply wp_mono; [apply IH, H2|]. intros r st' H3. simpl.
    eapply extended_trans; [exact H1|]. by eapply extended_trans.
Qed.

Definition persisted st (r : result exn (option string)) st' : Prop :=
  extended st st' /\
  match r with
  | Ok None => inv st'
  | Ok (Some id) => exists cp, cp ∈ cps (rs_store st') /\ cp_id cp = id /\
      cp_stepNumber cp = ri_stepNumber (rs_int st)
  | Err _ => True
  end.

(** The guarded put and the writes that follow it. *)
Lemma commit_post st cp md j w :
  inv st -> cp_id cp = newId "cp" j -> j < rs_ids st -> id_free (cp_id cp) st ->
  cp_parentId cp = ri_parent (rs_int st) -> cp_stepNumber cp = ri_stepNumber (rs_int st) ->
  wp (bind (bind (await_store world) (fun _ => bind get (fun rs =>
        match put t n cp md (Some <$> ri_parent (rs_int rs)) (rs_store rs) with
        | Ok s' => set_store (fun _ => s')
        | Err e => throw (put_error t e)
        end)))
      (fun _ => bind (forM w (fun g => bind (await_store world) (fun _ =>
                  set_store (putWrites t n (cp_id cp) (pending_of g.2) g.1))))
                 (fun _ => ret (Some (cp_id cp)))))
     (persisted st) st.
Proof.
  intros Hinv Hid Hj Hfree Hpar Hstep.
  assert (inv (await_state st)) as Hinv1 by by apply await_inv.
  assert (extended st (await_state st)) as He1 by apply await_extended, Hinv.
  assert (id_free (cp_id cp) (await_state st)) as Hfree1.
  { rewrite Hid in *. apply await_free; [apply Hinv|done]. }
  do 2 apply wp_bind. unfold wp at 1. cbn [await_store snd]. fold (await_state st). wp_run.
  destruct (put _ _ _ _ _ _) as [s'|e] eqn:Eput; [|by split].
  destruct (put_extends (await_state st) cp md s' j) as (Hwf' & Hcps & Hlin & Hfr); try done.
  unfold wp at 1, set_store. cbn [fst snd]. set (st2 := mkRun _ _ _ _ _ _ _).
  assert (winv st2) as Hw2 by by split_and!.
  assert (extended st st2) as He2.
  { eapply extended_trans; [exact He1|]. split; [done|]. simpl. rewrite Hcps. by eexists. }
  apply wp_bind. eapply wp_mono; [by apply forM_writes_extended|].
  intros r st' He3. cbn beta.
  destruct r as [[]|e]; [|split; [by eapply extended_trans|done]].
  unfold wp, persisted. cbn [ret fst snd]. split; [by eapply extended_trans|].
  exists cp. split; [|by rewrite Hstep]. destruct He3 as [_ [l Hl]]. rewrite Hl.
  apply elem_of_app. left. simpl. rewrite Hcps. apply elem_of_app. right. by left.
Qed.

(** What a persist adds to the thread, on every exit. *)
Lemma persist_post sts nn f w st :
  inv st -> (sts = Running -> w = []) ->
  wp (persistCheckpoint newId world args sts nn f w) (persisted st) st.
Proof.
  intros Hinv Hw. unfold persistCheckpoint. cbv zeta. wp_run.
  set (st1 := mkRun _ _ _ _ _ _ _).
  assert (inv st1) as Hinv1 by (apply (inv_same st); [done|split; simpl; [done|lia]|done]).
  assert (extended st st1) as He1
    by (apply extended_same; [apply Hinv|split; simpl; [done|lia]]).
  assert (id_free (newId "cp" (rs_ids st)) st1) as Hfree1 by by apply Hinv.
  wp_run. destruct (match f with Some f0 => _ | None => _ end) as [[]|e]; [|done].
  destruct (bool_decide (ra_durability args = Exit) && bool_decide (sts = Running)) eqn:Eskip.
  { apply andb_true_iff in Eskip as [_ ->%bool_decide_eq_true]. rewrite Hw by done.
    do 3 wp_run. destruct (serializeState _); [|done]. do 2 wp_run. done. }
  apply wp_bind. wp_run. cbn [await_store snd]. fold (await_state st1).
  assert (inv (await_state st1)) as Hinv2 by by apply await_inv.
  assert (extended st (await_state st1)) as He2.
  { eapply extended_trans; [done|]. apply await_extended, Hinv1. }
  assert (id_free (newId "cp" (rs_ids st)) (await_state st1)) as Hfree2
    by (apply await_free; [apply Hinv1|done]).
  wp_run. unfold wp at 1, lift. cbn [fst snd].
  destruct (precheck _ _ _); [|done]. wp_run. wp_run.
  destruct (serializeState _) as [sv|e]; [|done].
  eapply wp_mono; [apply (commit_post (await_state st1) (mkCheckpoint _ _ _ _ _ _ _ _) _ (rs_ids st));
    try done; simpl; lia|].
  intros r st' [He Hr]. split; [by eapply extended_trans|done].
Qed.

(** ** The calculus of the invariant

    [safe m] goes on with the invariant; [ending m] may be the last thing a
    run does; [closing m] ends the run when it returns. *)

Definition safe {A} (m : M A) : Prop := forall st, inv st ->
  wp m (fun r st' => extended st st' /\ (is_ok r = true -> inv st')) st.

Definition ending {A} (m : M A) : Prop := forall st, inv st ->
  wp m (fun _ st' => extended st st') st.

Definition throws {A} (m : M A) : Prop := forall st a, (m st).2 <> Ok a.

Lemma ending_safe {A} (m : M A) : safe m -> ending m.
Proof. intros Hm st Hi. eapply wp_mono; [by apply Hm|]. by intros r st' []. Qed.

Lemma safe_throws {A} (m : M A) : ending m -> throws m -> safe m.
Proof.
  intros Hm Ht st Hi. specialize (Hm st Hi). specialize (Ht st). unfold wp in *.
  destruct (m st) as [st' [a|e]]; simpl in *; [by destruct (Ht a)|done].
Qed.

Lemma safe_bind {A B} (m : M A) (f : A -> M B) :
  safe m -> (forall a, safe (f a)) -> safe (bind m f).
Proof.
  intros Hm Hf st Hi. apply wp_bind. eapply wp_mono; [by apply Hm|].
  intros [a|e] st' [He Hi']; [|done]. eapply wp_mono; [by apply Hf, Hi'|].
  intros r st'' [He' Hi'']. split; [by eapply extended_trans|done].
Qed.

Lemma ending_bind {A B} (m : M A) (f : A -> M B) :
  safe m -> (forall a, ending (f a)) -> ending (bind m f).
Proof.
  intros Hm Hf st Hi. apply wp_bind. eapply wp_mono; [by apply Hm|].
  intros [a|e] st' [He Hi']; [|done]. eapply wp_mono; [by apply Hf, Hi'|].
  intros r st'' He'. by eapply extended_trans.
Qed.

Lemma ending_persist {B} sts nn f w (k : option string -> M B) :
  (sts = Running -> w = []) -> (forall id, keeps same_store (k id)) ->
  ending (bind (persistCheckpoint newId world args sts nn f w) k).
Proof.
  intros Hw Hk st Hi. apply wp_bind. eapply wp_mono; [by apply persist_post|].
  intros [id|e] st' [He _]; [|done]. unfold wp. eapply extended_trans; [done|].
  apply extended_same; [apply He|apply Hk].
Qed.

Lemma safe_same {A} (m : M A) : keeps same_store m -> keeps store_only m -> safe m.
Proof.
  intros Hs Hf st Hi. split; [apply extended_same; [apply Hi|apply Hs]|]. intros _.
  apply (inv_same st); [done|apply Hs|apply Hf].
Qed.

Lemma safe_set_int (f : RunInternalState -> RunInternalState) :
  (forall i, ri_parent (f i) = ri_parent i /\ ri_stepNumber (f i) = ri_stepNumber i) ->
  safe (set_int f).
Proof.
  intros Hf st Hi. destruct (Hf (rs_int st)) as [Hp Hn]. split; [by apply extended_same; [apply Hi|]|].
  intros _. split; [by apply (winv_same st); [apply Hi|]|]. destruct Hi as [_ Hpar].
  unfold parent_ok in *. simpl. by rewrite Hp, Hn.
Qed.

Lemma safe_yield e : safe (yield e).
Proof. intros st Hi. split; [by apply extended_same; [apply Hi|]|]. by intros _. Qed.

Lemma safe_await : safe (await_store world).
Proof. intros st Hi. split; [apply await_extended, Hi|]. intros _. by apply await_inv. Qed.

Lemma safe_putWrites id ws task : safe (set_store (putWrites t n id ws task)).
Proof.
  intros st Hi. pose proof (putWrites_extended id ws task st (proj1 Hi)) as He.
  split; [done|]. intros _. split; [apply He|]. destruct Hi as [(Hwf & _) Hp].
  unfold parent_ok in *. simpl. by rewrite putWrites_cps.
Qed.

Lemma safe_forM {A} (l : list A) f : (forall a, safe (f a)) -> safe (forM l f).
Proof.
  intros Hf. induction l as [|x l IH]; simpl; [by apply safe_same; apply keeps_ret; apply _|].
  by apply safe_bind.
Qed.

Definition safe_at {A} st (m : M A) : Prop :=
  wp m (fun r st' => extended st st' /\ (is_ok r = true -> inv st')) st.

Lemma safe_get {A} (f : RunState -> M A) :
  (forall st, inv st -> safe_at st (f st)) -> safe (bind get f).
Proof. intros Hf st Hi. apply wp_bind. unfold wp at 1. cbn. by apply Hf. Qed.

Lemma safe_at_bind {A B} st (m : M A) (f : A -> M B) :
  safe_at st m -> (forall a, safe (f a)) -> safe_at st (bind m f).
Proof.
  intros Hm Hf. apply wp_bind. eapply wp_mono; [by apply Hm|].
  intros [a|e] st' [He Hi']; [|done]. eapply wp_mono; [by apply Hf, Hi'|].
  intros r st'' [He' Hi'']. split; [by eapply extended_trans|done].
Qed.

Lemma safe_at_set_ids st k : inv st -> rs_ids st <= k -> safe_at st (set_ids k).
Proof.
  intros Hi Hk. assert (same_store st (set_ids k st).1) as Hs by by split.
  split; [apply extended_same; [apply Hi|done]|]. intros _. by apply (inv_same st).
Qed.

Lemma safe_ret {A} (a : A) : safe (ret a).
Proof. apply safe_same; apply keeps_ret; apply _. Qed.
Lemma safe_lift {A} (r : result exn A) : safe (lift r).
Proof. apply safe_same; apply keeps_lift; apply _. Qed.
Lemma safe_throw {A} e : safe (throw (A := A) e).
Proof. apply safe_same; apply keeps_throw; apply _. Qed.
Lemma safe_get_only : safe get.
Proof. apply safe_same; apply keeps_get; apply _. Qed.
Lemma safe_yield_if b e : safe (yield_if b e).
Proof. destruct b; [by apply safe_yield|apply safe_ret]. Qed.
Lemma safe_checkpointEvent id : safe (checkpointEvent args id).
Proof.
  unfold checkpointEvent. apply safe_bind; [apply safe_get_only|]. intros rs.
  destruct id; [apply safe_yield_if|apply safe_ret].
Qed.

Hint Resolve safe_ret safe_lift safe_throw safe_get_only safe_yield safe_yield_if safe_await
  safe_putWrites safe_checkpointEvent : safe.
Hint Extern 3 (safe (set_int _)) => apply safe_set_int; done : safe.
Hint Extern 3 (safe (set_status _)) => apply safe_set_int; done : safe.
Hint Extern 3 (safe (set_pauses _)) => apply safe_set_int; done : safe.
Hint Extern 3 (safe (set_frontier _ _)) => apply safe_set_int; done : safe.
Hint Extern 3 (safe (set_state _ _)) => apply safe_set_int; done : safe.
Hint Extern 3 (safe close) => apply safe_set_int; done : safe.

Ltac safe_step :=
  intros; lazymatch goal with
  | |- safe (bind _ _) => apply safe_bind
  | |- safe (forM _ _) => apply safe_forM
  | |- safe (match ?x with _ => _ end) => destruct x
  | |- safe _ => solve [eauto 2 with safe]
  end.
Ltac solve_safe := repeat (cbv zeta; safe_step).

Lemma throws_bind {A B} (m : M A) (f : A -> M B) : (forall a, throws (f a)) -> throws (bind m f).
Proof. intros Hf st b. unfold bind. destruct (m st) as [st' [a|e]]; [apply Hf|done]. Qed.

Ltac solve_throws := repeat (apply throws_bind; intros); done.
Ltac ending_step :=
  lazymatch goal with
  | |- ending (bind (persistCheckpoint _ _ _ _ _ _ _) _) =>
      apply ending_persist; [done|intros; solve_keeps]
  | |- ending (bind _ _) => apply ending_bind; [solve_safe|intros]
  end.
Ltac solve_ending := cbv zeta; repeat ending_step.

Lemma safe_stop_with sts e : sts <> Running -> safe (stop_with newId world args sts e).
Proof. intros Hs. unfold stop_with. apply safe_throws; [solve_ending|solve_throws]. Qed.

Lemma safe_loop_guards env : safe (loop_guards newId world args env).
Proof. unfold loop_guards. solve_safe; by apply safe_stop_with. Qed.

Lemma safe_on_dead_end stalled : safe (on_dead_end newId world args stalled).
Proof. unfold on_dead_end. apply safe_throws; [solve_ending|solve_throws]. Qed.

Lemma safe_on_failure env tasks os ordered f : safe (on_failure newId world args env tasks os ordered f).
Proof.
  unfold on_failure. apply safe_throws; [|solve_throws]. cbv zeta.
  apply ending_persist; [by destruct (_ && _)|intros; solve_keeps].
Qed.

Lemma safe_merge_step ordered : safe (merge_step newId world args ordered).
Proof.
  unfold merge_step. apply safe_bind; [solve_safe|]. intros rs. cbv zeta.
  destruct (applyWrites _ _ _ _) as [applied|e].
  - destruct (cfg_validateState _) as [validate|]; [|apply safe_ret].
    destruct (validate _); [apply safe_ret|]. apply safe_throws; [solve_ending|solve_throws].
  - apply safe_throws; [solve_ending|solve_throws].
Qed.

Lemma ending_on_suspend_before gated rest : ending (on_suspend_before newId world args gated rest).
Proof. unfold on_suspend_before. solve_ending. Qed.

Lemma ending_on_completed : ending (on_completed newId world args).
Proof. unfold on_completed. solve_ending. Qed.

Lemma ending_on_suspended pauses first : ending (on_suspended newId world args pauses first).
Proof. unfold on_suspended. solve_ending. Qed.

Lemma inv_events st st' : inv st -> events_only st st' -> inv st'.
Proof.
  intros Hi (Hs & Hid & Hint & _). apply (inv_same st); [done| |done].
  split; [done|by rewrite Hid].
Qed.

(** The running checkpoint becomes the parent of the next step. *)
Lemma inv_next st cp step :
  winv st -> cp ∈ cps (rs_store st) -> ri_parent (rs_int st) = Some (cp_id cp) ->
  cp_stepNumber cp = step -> ri_stepNumber (rs_int st) = 1 + step -> inv st.
Proof.
  intros Hw Hin Hp Hs Hn. split; [done|]. unfold parent_ok. rewrite Hp. exists cp.
  split_and!; [done|done|lia].
Qed.

Lemma inv_advance st : inv st -> inv (advance st).1.
Proof.
  intros [Hw Hp]. split; [by apply (winv_same st)|]. unfold parent_ok in *. simpl.
  destruct (ri_parent (rs_int st)) as [p|]; [|done].
  destruct Hp as (cp & ? & ? & ?). exists cp. split_and!; [done|done|lia].
Qed.

Lemma on_running_advance id st0 st1 :
  persisted st0 (Ok id) st1 -> rs_int st1 = rs_int st0 ->
  wp (bind (match id with Some cp => set_parent cp | None => ret () end) (fun _ => advance))
     (fun r st' => inv st' /\ extended st1 st') st1.
Proof.
  intros [He Hid] Hint. apply wp_bind. destruct id as [id|]; unfold wp; simpl.
  - destruct Hid as (cp & Hin & Hcp & Hstep). split; [|by apply extended_same; [apply He|]].
    eapply inv_next; [by apply (winv_same st1); [apply He|]|exact Hin|by simpl; rewrite Hcp| |].
    + exact Hstep.
    + simpl. by rewrite Hint.
  - split; [by apply (inv_advance st1)|by apply extended_same; [apply He|]].
Qed.

Lemma persisted_events st0 r st1 st2 :
  persisted st0 r st1 -> events_only st1 st2 -> persisted st0 r st2.
Proof.
  intros [He Hr] Hev. assert (same_store st1 st2) as Hs.
  { destruct Hev as (? & Hid & _). split; [done|by rewrite Hid]. }
  split; [eapply extended_trans; [exact He|]; apply extended_same; [apply He|done]|].
  destruct r as [[id|]|e]; [by rewrite (proj1 Hs)|by apply (inv_events st1)|done].
Qed.

Lemma safe_on_running env : safe (on_running newId world args env).
Proof.
  intros st Hi. unfold on_running. wp_run. apply wp_bind.
  pose proof (persistCheckpoint_frame newId world args Running None
    (Some (currentFrontier args st)) [] st) as (Hint & _).
  pose proof (persist_post Running None (Some (currentFrontier args st)) [] st Hi ltac:(done)) as Hp.
  unfold wp in Hp |- * at 1.
  destruct (persistCheckpoint _ _ _ _ _ _ _ st) as [st1 [id|e]]; simpl in Hint, Hp |- *;
    [|by split; [apply Hp|]].
  apply wp_bind, (wp_keeps events_only); [solve_keeps|]. intros r2 st2 H2.
  pose proof (persisted_events _ _ _ _ Hp H2) as Hp2.
  destruct r2; [|by split; [apply Hp2|]].
  apply wp_bind, (wp_keeps events_only); [solve_keeps|]. intros r3 st3 H3.
  pose proof (persisted_events _ _ _ _ Hp2 H3) as Hp3.
  destruct r3; [|by split; [apply Hp3|]].
  destruct H2 as (_ & _ & Hint2 & _), H3 as (_ & _ & Hint3 & _).
  pose proof (on_running_advance id st st3 Hp3 ltac:(congruence)) as Hadv.
  unfold wp, bind in Hadv |- *.
  destruct ((match id with Some cp => set_parent cp | None => ret () end) st3) as [st4 [u|e]] eqn:E4.
  2: { by destruct id. }
  simpl in Hadv |- *. destruct Hadv as [Hinv5 He5].
  set (st5 := mkRun _ _ _ _ _ _ _) in *.
  assert (extended st st5) as He by (eapply extended_trans; [apply Hp3|done]).
  destruct (se_abort_after env); [|done].
  destruct (safe_stop_with Aborted (WorkflowAbortedError t) ltac:(done) st5 Hinv5) as [He6 Hok].
  destruct (stop_with _ _ _ _ _ st5) as [st6 r6]. simpl in *.
  split; [by eapply extended_trans|done].
Qed.

Lemma safe_journal_intent tasks : safe (journal_intent world args tasks).
Proof. unfold journal_intent. solve_safe. Qed.

Lemma safe_executeOneTask env view journal task sr :
  safe (executeOneTask newId world args env view journal task sr).
Proof.
  unfold executeOneTask. cbv zeta. apply safe_get. intros st Hi.
  destruct (match jget _ _ with Some _ => _ | None => _ end) as [r settled].
  destruct (match r with Ok _ => _ | Err _ => _ end) as [writes ds].
  apply safe_at_bind; [apply safe_at_set_ids; [done|lia]|]. intros _.
  destruct (classify _ _ _ _) as [[[paused sts] rejected] failure]. solve_safe.
Qed.

Lemma safe_executeTasks env view journal tasks order sr :
  safe (executeTasks newId world args env view journal tasks order sr).
Proof.
  revert sr. induction order as [|i order IH]; intros sr; simpl; [apply safe_ret|].
  destruct (tasks !! i); [|apply IH]. apply safe_bind; [apply safe_executeOneTask|]. intros; apply IH.
Qed.

(** ** Whole iterations *)

Definition steady {A} (m : M A) : Prop := forall st, inv st ->
  wp m (fun r st' => extended st st' /\
          (is_ok r = true -> ri_closed (rs_int st') = false -> inv st')) st.

Lemma steady_safe {A} (m : M A) : safe m -> steady m.
Proof. intros Hm st Hi. eapply wp_mono; [by apply Hm|]. naive_solver. Qed.

Lemma steady_bind {A B} (m : M A) (f : A -> M B) :
  safe m -> (forall a, steady (f a)) -> steady (bind m f).
Proof.
  intros Hm Hf st Hi. apply wp_bind. eapply wp_mono; [by apply Hm|].
  intros [a|e] st' [He Hi']; [|done]. eapply wp_mono; [by apply Hf, Hi'|].
  intros r st'' [He' Hi'']. split; [by eapply extended_trans|done].
Qed.

Definition closes (m : M unit) : Prop :=
  forall st u, (m st).2 = Ok u -> ri_closed (rs_int (m st).1) = true.

Lemma closes_bind {A} (m : M A) (f : A -> M unit) : (forall a, closes (f a)) -> closes (bind m f).
Proof.
  intros Hf st u. unfold bind. destruct (m st) as [st' [a|e]]; [apply Hf|done].
Qed.

Lemma steady_closes (m : M unit) : ending m -> closes m -> steady m.
Proof.
  intros Hm Hc st Hi. specialize (Hm st Hi). specialize (Hc st). unfold wp in *.
  destruct (m st) as [st' [[]|e]]; simpl in *; [|done]. split; [done|].
  by rewrite (Hc tt).
Qed.

Ltac solve_closes := cbv zeta; repeat (apply closes_bind; intros); by intros [].

Lemma steady_finish_step env tasks sr : steady (finish_step newId world args env tasks sr).
Proof.
  unfold finish_step. cbv zeta. destruct (abort_failure _ _ _ _) as [f|].
  { apply steady_safe, safe_on_failure. }
  apply steady_bind; [apply safe_merge_step|]. intros applied.
  repeat (apply steady_bind; [unfold channel_events; solve_safe|intros]).
  destruct (match pauseRecordsOf _ with [] => _ | _ => _ end) as [|first ps].
  - apply steady_safe, safe_on_running.
  - apply steady_closes; [apply ending_on_suspended|]. unfold on_suspended. solve_closes.
Qed.

Lemma steady_run_step env tasks : steady (run_step newId world args env tasks).
Proof.
  unfold run_step. apply steady_bind; [solve_safe|]. intros rs.
  apply steady_bind; [solve_safe|]. intros _. apply steady_bind; [solve_safe|]. intros view.
  apply steady_bind; [apply safe_journal_intent|]. intros journal.
  apply steady_bind; [apply safe_executeTasks|]. intros sr. apply steady_finish_step.
Qed.

Lemma plan_edges_ids cfg state names acc : acc.2 <= (foldl (plan_edges newId cfg state) acc names).2.
Proof.
  revert acc. induction names as [|x names IH]; intros acc; simpl; [lia|].
  etrans; [|apply IH]. destruct acc as [planned ids]. unfold plan_edges.
  by case_match; [|case_match]; simpl; lia.
Qed.

Lemma planTasks_ids cfg internal ids : ids <= (planTasks newId cfg internal ids).2.
Proof.
  unfold planTasks. cbv zeta.
  pose proof (plan_edges_ids cfg (ri_state internal)
    (reachable cfg (ri_completed internal) (ri_state internal)) (ri_dynamic internal, ids)) as Hle.
  destruct (foldl _ _ _) as [planned ids']. simpl in Hle.
  destruct (split_gated _ _ _) as [[gated rest]|]; [done|].
  by repeat case_match.
Qed.

Lemma steady_loop_body env : steady (loop_body newId world args env).
Proof.
  unfold loop_body. apply steady_bind; [apply safe_loop_guards|]. intros _.
  intros st Hi. wp_run.
  pose proof (planTasks_ids (ra_cfg args) (rs_int st) (rs_ids st)) as Hle.
  destruct (planTasks _ _ (rs_int st) _) as [p ids']. simpl in Hle. apply wp_bind.
  eapply wp_mono; [by apply (safe_at_set_ids st ids')|].
  intros [[]|e] st' [He Hi']; [|done].
  assert (steady (bind (set_frontier [] []) (fun _ =>
       match p with
       | PlanDeadEnd stalled => on_dead_end newId world args stalled
       | PlanSuspend gated rest => on_suspend_before newId world args gated rest
       | PlanTasks [] => on_completed newId world args
       | PlanTasks tasks => run_step newId world args env tasks
       end))) as Hst.
  { apply steady_bind; [solve_safe|]. intros _. destruct p as [[|task tasks]|gated rest|stalled].
    - apply steady_closes; [apply ending_on_completed|]. unfold on_completed. solve_closes.
    - apply steady_run_step.
    - apply steady_closes; [apply ending_on_suspend_before|]. unfold on_suspend_before. solve_closes.
    - apply steady_safe, safe_on_dead_end. }
  eapply wp_mono; [by apply Hst, Hi'|]. intros r st'' [He' Hi''].
  split; [by eapply extended_trans|done].
Qed.

Lemma driveRun_extended envs fuel st :
  (ri_closed (rs_int st) = false -> inv st) -> winv st ->
  extended st (driveRun newId world fuel args envs st).1.
Proof.
  revert st. induction fuel as [|fuel IH]; intros st Hi Hw; simpl; unfold bind at 1, get;
    destruct (ri_closed (rs_int st)) eqn:Ec; simpl; try by split.
  unfold bind. pose proof (steady_loop_body (envs (ri_stepsThisInvocation (rs_int st))) st (Hi eq_refl)) as Hb.
  unfold wp in Hb. destruct (loop_body _ _ _ _ st) as [st1 [u|e]]; simpl in *; [|apply Hb].
  destruct Hb as [He Hinv]. eapply extended_trans; [exact He|].
  apply IH; [by apply Hinv|apply He].
Qed.

Lemma drive_catching_extended envs st :
  inv st -> extended st (drive_catching newId world args envs st).1.
Proof.
  intros Hi. unfold drive_catching, catch, drive.
  pose proof (driveRun_extended envs (maxSteps_of (ra_cfg args) + 2) st (fun _ => Hi) (proj1 Hi)) as He.
  destruct (driveRun _ _ _ _ _ st) as [st1 [b|e]]; simpl in *; [done|].
  eapply extended_trans; [exact He|]. by apply extended_same; [apply He|].
Qed.

(** ** Starting points *)

Lemma fan_out_ids b a acc p : acc.2 <= (fan_out newId b a acc p).2.
Proof. destruct acc as [r ids]. simpl. destruct (pp_staticAfter p); simpl; lia. Qed.

Lemma fan_outs_ids b a ps acc : acc.2 <= (foldl (fan_out newId b a) acc ps).2.
Proof.
  revert acc. induction ps as [|p ps IH]; intros acc; simpl; [lia|].
  etrans; [apply (fan_out_ids b a acc p)|apply IH].
Qed.

Lemma restore_suspended_ids cfg opts sts f pend step ids r ids' :
  restore_suspended newId t cfg opts sts f pend step ids = Ok (r, ids') -> ids <= ids'.
Proof.
  unfold restore_suspended. cbn [restore_frontier].
  set (base := mkRestored _ _ _). set (ids1 := ids + _).
  destruct (match bool_decide (sts = Running) && cfg_journalSteps cfg with true => _ | false => _ end) as [j|]; [intros [= <- <-]; lia|].
  assert (forall p ps a, ids <= (foldl (fan_out newId false a)
            (fan_out newId true a (base, ids1) p) ps).2) as Hfan.
  { intros p ps a. etrans; [|apply fan_outs_ids]. etrans; [|apply fan_out_ids]. simpl. lia. }
  assert (ids <= ids1) by lia.
  destruct (ro_directive opts ≫= dr_goto) as [[|c g]|]; [|intros [= <- <-]; lia|];
    (destruct (ro_selectPause opts) as [sel|];
     [destruct (select_pause _ _ _) as [[target others]|]; [|done]
     |destruct (fe_pauses f) as [|p ps]; [intros [= <- <-]; lia|]];
     intros [= Heq]; apply (f_equal snd) in Heq; cbn [snd] in Heq; rewrite <-Heq; apply Hfan).
Qed.

Lemma restore_ids cfg opts tuple f step ids r ids' :
  restore newId t cfg opts tuple f step ids = Ok (r, ids') -> ids <= ids'.
Proof.
  unfold restore. cbv zeta. destruct (match bool_decide (ct_status tuple ∈ [Failed; Aborted]) with true => _ | false => _ end) as [|st0 sts].
  - apply restore_suspended_ids.
  - intros [= <- <-]. lia.
Qed.

Lemma resume_checks_latest opts st tuple f :
  store_wf (rs_store st) -> linear (cps (rs_store st)) ->
  resume_checks args opts st = Ok (tuple, f) ->
  ct_checkpoint tuple ∈ cps (rs_store st) /\ f = readFrontier (ct_metadata tuple).
Proof.
  intros Hwf Hl. unfold resume_checks.
  destruct (check_directive _); [|done]. rewrite getTuple_latest by done.
  rewrite linear_latest by done. destruct (last _) as [tup|] eqn:Hlast; [|done].
  destruct (resumable _ _); [|done]. case_match; [done|].
  destruct (missingNodes _ _); [|done]. intros [= <- <-]. split; [|done].
  apply list_elem_of_fmap. exists tup. split; [done|]. by apply last_Some_elem_of.
Qed.

Lemma safe_apply_to_internal cfg ws : safe (apply_to_internal cfg ws).
Proof. unfold apply_to_internal. solve_safe. Qed.

Lemma resume_run_extended opts envs tuple r st :
  winv st -> ct_checkpoint tuple ∈ cps (rs_store st) ->
  extended st (resume_run newId world args opts envs tuple r st).1.
Proof.
  intros Hw Hin. unfold resume_run. cbv zeta. set (m := bind (match rd_replay r with [] => _ | _ => _ end) _).
  assert (ending m) as Hm.
  { apply ending_bind; [destruct (rd_replay r); [apply safe_ret|apply safe_apply_to_internal]|].
    intros _. apply ending_bind.
    { destruct (_ ≫= _) as [u|]; [|apply safe_ret].
      destruct (truthy u); [apply safe_apply_to_internal|apply safe_ret]. }
    intros _. apply ending_bind; [solve_safe|]. intros rs. apply ending_bind; [solve_safe|].
    intros _ st2 Hi2. by apply drive_catching_extended. }
  unfold bind at 1, set_int. set (st1 := mkRun _ _ _ _ _ _ _).
  assert (inv st1) as Hi1.
  { split; [by apply (winv_same st)|]. exists (ct_checkpoint tuple). split_and!; [done|done|]. simpl.
    unfold ct_step. lia. }
  eapply extended_trans; [|apply (Hm st1 Hi1)]. by apply extended_same.
Qed.

(** A resume only extends the chain. *)
Lemma resumeEngine_extended opts envs st :
  winv st -> extended st (resumeEngine newId world args opts envs st).1.
Proof.
  intros Hw. unfold resumeEngine. cbv zeta. unfold bind at 1, get at 1.
  destruct (decide _); [by apply extended_same|].
  unfold bind at 1, set_lock at 1. set (st1 := mkRun _ _ _ _ _ _ _).
  assert (extended st st1) as He1 by by apply extended_same.
  unfold finally. set (m := bind (await_store world) _).
  assert (extended st1 (m st1).1) as He2.
  { change (wp m (fun _ st' => extended st1 st') st1). unfold m. apply wp_bind.
    unfold wp at 1. cbn [await_store snd]. fold (await_state st1).
    assert (extended st1 (await_state st1)) as He2 by apply await_extended, He1.
    generalize dependent (await_state st1). intros st2 He2. wp_run.
    destruct (resume_checks args opts st2) as [[tuple f]|e] eqn:Ec.
    2: { eapply extended_trans; [exact He2|]. apply extended_same; [apply He2|by split]. }
    destruct (resume_checks_latest opts st2 tuple f) as [Hin _]; [apply He2|apply He2|done|].
    destruct (restore _ _ _ _ _ _ _ _) as [[r ids']|e] eqn:Er.
    2: { eapply extended_trans; [exact He2|]. apply extended_same; [apply He2|by split]. }
    apply restore_ids in Er. unfold wp, bind, set_ids. set (st3 := mkRun _ _ _ _ _ _ _).
    assert (extended st2 st3) as He3 by (apply extended_same; [apply He2|by split]).
    eapply extended_trans; [exact He2|]. eapply extended_trans; [exact He3|].
    apply resume_run_extended; [apply He3|exact Hin]. }
  destruct (m st1) as [st2 r]. simpl in *. eapply extended_trans; [exact He1|].
  eapply extended_trans; [exact He2|]. by apply extended_same; [apply He2|].
Qed.

(** A fresh run builds the chain of its own thread. *)
Lemma runEngine_extended input envs st :
  winv st -> alone -> cps (rs_store st) = [] ->
  extended st (runEngine newId world args input envs st).1.
Proof.
  intros Hw Ha Hnil. unfold runEngine, bind at 1, set_int. unfold bind, yield.
  set (st1 := mkRun _ _ _ _ _ _ _). eapply extended_trans; [by apply (extended_same st st1)|].
  apply drive_catching_extended. split; [by apply (winv_same st)|]. by split.
Qed.

(** ** What the last persist of a run leaves in the store *)

Definition stored_as (sts : status) (f : option FrontierEnvelope) (step : nat) (state : jstate)
    (versions : jversions) (s : S) : Prop :=
  exists tuple, latest_of (view s t n) = Some tuple /\
    ct_status tuple = sts /\ ct_step tuple = step /\
    md_tags (ct_metadata tuple) = encodeFrontier <$> f /\
    serializeState state = Ok (cp_state (ct_checkpoint tuple)) /\
    cp_channelVersions (ct_checkpoint tuple) = versions /\
    ct_pendingWrites tuple = [] /\
    (forall g, f = Some g -> assertFrontierJsonSafe g = Ok ()).

(** A guarded put makes its checkpoint the latest one. *)
Lemma put_latest st cp md s' j :
  inv st -> cp_id cp = newId "cp" j -> j < rs_ids st -> id_free (cp_id cp) st ->
  cp_parentId cp = ri_parent (rs_int st) -> cp_stepNumber cp = ri_stepNumber (rs_int st) ->
  put t n cp md (Some <$> ri_parent (rs_int st)) (rs_store st) = Ok s' ->
  latest_of (view s' t n) = Some (mkTuple cp md []).
Proof.
  intros Hinv Hid Hj Hfree Hpar Hstep Hput.
  destruct (put_extends st cp md s' j) as (_ & _ & Hlin & _); try done.
  rewrite linear_latest by exact Hlin.
  pose proof (put_spec (rs_store st) t n cp md (Some <$> ri_parent (rs_int st))
    (proj1 (proj1 Hinv)) t_ok n_ok) as Hspec.
  rewrite Hput in Hspec. destruct Hspec as (_ & _ & -> & _).
  unfold v_put. rewrite decide_False; [by rewrite last_snoc|].
  unfold id_free, cps in Hfree. rewrite map_map in Hfree. exact Hfree.
Qed.

Lemma persist_stored sts nn f st :
  inv st -> sts <> Running ->
  wp (persistCheckpoint newId world args sts nn f []) (fun r st' =>
    is_ok r = true ->
    stored_as sts f (ri_stepNumber (rs_int st)) (ri_state (rs_int st)) (ri_versions (rs_int st))
      (rs_store st')) st.
Proof.
  intros Hinv Hrun. unfold persistCheckpoint. cbv zeta. wp_run.
  set (st1 := mkRun _ _ _ _ _ _ _).
  assert (inv st1) as Hinv1 by (apply (inv_same st); [done|split; simpl; [done|lia]|done]).
  assert (id_free (newId "cp" (rs_ids st)) st1) as Hfree1 by by apply Hinv.
  wp_run. destruct (match f with Some f0 => _ | None => _ end) as [[]|e] eqn:Hsafe; [|done].
  rewrite (bool_decide_eq_false_2 (sts = Running)), andb_false_r by done.
  apply wp_bind. wp_run. cbn [await_store snd]. fold (await_state st1).
  assert (inv (await_state st1)) as Hinv2 by by apply await_inv.
  assert (id_free (newId "cp" (rs_ids st)) (await_state st1)) as Hfree2
    by (apply await_free; [apply Hinv1|done]).
  wp_run. unfold wp at 1, lift. cbn [fst snd].
  destruct (precheck _ _ _); [|done]. do 2 wp_run.
  destruct (serializeState _) as [sv|e] eqn:Eser; [|done].
  apply wp_bind, wp_bind. unfold wp at 1. cbn [await_store snd]. fold (await_state (await_state st1)).
  set (st3 := await_state (await_state st1)).
  assert (inv st3) as Hinv3 by by apply await_inv.
  assert (id_free (newId "cp" (rs_ids st)) st3) as Hfree3
    by (apply await_free; [apply Hinv2|done]).
  wp_run. destruct (put _ _ _ _ _ _) as [s'|e] eqn:Eput; [|done].
  apply (put_latest st3 _ _ s' (rs_ids st)) in Eput; try done; [|simpl; lia].
  intros _. eexists. split; [exact Eput|]. simpl. split_and!; try done.
  intros g ->. exact Hsafe.
Qed.

(** The store behind a final event. *)
Definition settled (e : event) (s : S) : Prop :=
  match e with
  | EvSuspended t' step state v => t' = t /\ exists f first rest versions,
      stored_as Suspended (Some f) step state versions s /\ fe_pauses f = first :: rest /\
      pp_value first = v /\ fe_version f = cfg_version (ra_cfg args) /\ fe_stepTasks f = None
  | EvEnd t' state => t' = t /\ exists step versions, stored_as Completed None step state versions s
  | _ => True
  end.

Definition ends_settled (r : result exn unit) st' : Prop :=
  is_ok r = true -> ri_closed (rs_int st') = true ->
  exists evs e, rs_events st' = (evs ++ [e])%list /\ settled e (rs_store st').

(** Computations that leave the store and report [e] last. *)
Definition reports (e : event) (m : M unit) : Prop := forall st,
  wp m (fun r st' => is_ok r = true ->
    rs_store st' = rs_store st /\ exists evs, rs_events st' = (evs ++ [e])%list) st.

Lemma reports_close e : reports e (bind (yield e) (fun _ => close)).
Proof. intros st _. split; [done|]. by exists (rs_events st). Qed.

Lemma reports_bind {A} e (m : M A) f :
  keeps events_only m -> (forall a, reports e (f a)) -> reports e (bind m f).
Proof.
  intros Hm Hf st. apply wp_bind, (wp_keeps events_only); [done|]. intros [a|x] st1 H1; [|done].
  eapply wp_mono; [apply Hf|]. intros r st2 H2 Hok. destruct (H2 Hok) as [-> Hev].
  by rewrite (proj1 H1).
Qed.

(** Persist, then report the final event. *)
Lemma persist_then_report sts nn f (k : option string -> M unit) (e : event) st :
  inv st -> sts <> Running ->
  (forall s, stored_as sts f (ri_stepNumber (rs_int st)) (ri_state (rs_int st))
               (ri_versions (rs_int st)) s -> settled e s) ->
  (forall id, reports e (k id)) ->
  wp (bind (persistCheckpoint newId world args sts nn f []) k) ends_settled st.
Proof.
  intros Hi Hs He Hk. apply wp_bind. eapply wp_mono; [by apply persist_stored|].
  intros [id|x] st1 H1; [|by intros ?]. specialize (H1 eq_refl).
  eapply wp_mono; [apply Hk|]. intros r st2 H2 Hok _. destruct (H2 Hok) as [Hst [evs Hev]].
  exists evs, e. split; [done|]. rewrite Hst. by apply He.
Qed.

Lemma inv_int st st' :
  inv st -> same_store st st' -> ri_parent (rs_int st') = ri_parent (rs_int st) ->
  ri_stepNumber (rs_int st') = ri_stepNumber (rs_int st) -> inv st'.
Proof.
  intros [Hw Hp] Hs Hpar Hn. split; [by eapply winv_same|].
  unfold parent_ok in *. by rewrite Hpar, Hn, (proj1 Hs).
Qed.

Ltac solve_reports := intros; repeat first [apply reports_close | apply reports_bind; [solve_keeps|intros]].

Lemma on_suspended_settled pauses first rest st :
  inv st -> pauses = first :: rest ->
  wp (on_suspended newId world args pauses first) ends_settled st.
Proof.
  intros Hi ->. unfold on_suspended. wp_run. wp_run. wp_run.
  apply persist_then_report with
    (e := EvSuspended t (ri_stepNumber (rs_int st)) (ri_state (rs_int st)) (pp_value first));
    [|done| |solve_reports].
  - by apply (inv_int st).
  - simpl. intros s Hs. split; [done|]. do 4 eexists. by split; [exact Hs|].
Qed.

Lemma on_suspend_before_settled gated rest st :
  inv st -> wp (on_suspend_before newId world args gated rest) ends_settled st.
Proof.
  intros Hi. unfold on_suspend_before. cbv zeta. do 5 wp_run.
  apply persist_then_report with (e := EvSuspended t (ri_stepNumber (rs_int st))
      (ri_state (rs_int st)) (VObj [("kind", VStr "static-before"); ("node", VStr (tk_node gated))])%string);
    [by apply (inv_int st)|done| |solve_reports].
  simpl. intros s Hs. split; [done|]. do 4 eexists. by split; [exact Hs|].
Qed.

Lemma on_completed_settled st : inv st -> wp (on_completed newId world args) ends_settled st.
Proof.
  intros Hi. unfold on_completed. wp_run. set (st1 := mkRun _ _ _ _ _ _ _).
  assert (inv st1) as Hi1 by by apply (inv_int st).
  pose proof (persist_stored Completed None None st1 Hi1 ltac:(done)) as Hst.
  pose proof (persistCheckpoint_frame newId world args Completed None None [] st1) as (Hint & _).
  apply wp_bind. unfold wp in Hst |- * at 1.
  destruct (persistCheckpoint _ _ _ _ _ _ _ st1) as [st2 [id|x]]; simpl in *; [|by intros ?].
  specialize (Hst eq_refl).
  apply wp_bind, (wp_keeps events_only); [solve_keeps|]. intros [[]|x] st3 H3; [|by intros ?].
  wp_run. intros _ _. exists (rs_events st3). eexists. split; [reflexivity|].
  simpl. destruct H3 as (-> & _ & -> & _). rewrite Hint. split; [done|]. eauto.
Qed.

Definition open st : Prop := inv st /\ ri_closed (rs_int st) = false.

Lemma settled_bind {A} (m : M A) (f : A -> M unit) st :
  safe m -> keeps quiet m -> (forall a st', open st' -> wp (f a) ends_settled st') -> open st ->
  wp (bind m f) ends_settled st.
Proof.
  intros Hm Hq Hf [Hi Ho]. apply wp_bind. specialize (Hm st Hi). specialize (Hq st).
  unfold wp in Hm |- * at 1. destruct (m st) as [st1 [a|e]]; simpl in *; [|by intros ?].
  apply Hf. split; [by apply Hm|]. destruct Hq as (_ & _ & Hc & _). congruence.
Qed.

Lemma settled_throws (m : M unit) st : throws m -> wp m ends_settled st.
Proof.
  intros Hm. specialize (Hm st). unfold wp, ends_settled.
  destruct (m st) as [st1 [u|e]]; [by destruct (Hm u)|done].
Qed.

Lemma on_running_settled env st : open st -> wp (on_running newId world args env) ends_settled st.
Proof.
  intros [_ Ho] _ Hc. assert (keeps same_closed (on_running newId world args env)) as Hk.
  { unfold on_running. solve_keeps. }
  specialize (Hk st). unfold same_closed in Hk. congruence.
Qed.

Lemma finish_step_settled env tasks sr st :
  open st -> wp (finish_step newId world args env tasks sr) ends_settled st.
Proof.
  unfold finish_step. cbv zeta. destruct (abort_failure _ _ _ _) as [f|].
  { intros _. apply settled_throws. unfold on_failure. solve_throws. }
  apply settled_bind; [apply safe_merge_step|solve_keeps|]. intros applied st1.
  do 4 (apply settled_bind; [unfold channel_events; solve_safe|solve_keeps|]; intros ? ?).
  destruct (match pauseRecordsOf _ with [] => _ | _ => _ end) as [|first ps].
  - apply on_running_settled.
  - intros [Hi _]. by eapply on_suspended_settled.
Qed.

Lemma run_step_settled env tasks st :
  open st -> wp (run_step newId world args env tasks) ends_settled st.
Proof.
  unfold run_step. do 3 (apply settled_bind; [solve_safe|solve_keeps|]; intros ? ?).
  apply settled_bind; [apply safe_journal_intent|solve_keeps|]. intros journal st1.
  apply settled_bind; [apply safe_executeTasks|solve_keeps|]. intros sr st2.
  apply finish_step_settled.
Qed.

Lemma loop_body_settled env st :
  open st -> wp (loop_body newId world args env) ends_settled st.
Proof.
  unfold loop_body. apply settled_bind; [apply safe_loop_guards|solve_keeps|]. intros _ st1 Hi.
  wp_run. pose proof (planTasks_ids (ra_cfg args) (rs_int st1) (rs_ids st1)) as Hle.
  destruct (planTasks _ _ (rs_int st1) _) as [p ids']. simpl in Hle. apply wp_bind.
  unfold wp at 1. cbn [set_ids fst snd]. wp_run. set (st2 := mkRun _ _ _ _ _ _ _).
  assert (open st2) as Ho by (destruct Hi; split; [by apply (inv_int st1)|done]).
  destruct p as [[|task tasks]|gated rest|stalled].
  - by apply on_completed_settled, Ho.
  - by apply run_step_settled.
  - by apply on_suspend_before_settled, Ho.
  - apply settled_throws. unfold on_dead_end. solve_throws.
Qed.

Lemma driveRun_settled envs fuel st :
  open st ->
  wp (driveRun newId world fuel args envs) (fun r st' => r = Ok true ->
    exists evs e, rs_events st' = (evs ++ [e])%list /\ settled e (rs_store st')) st.
Proof.
  revert st. induction fuel as [|fuel IH]; intros st [Hi Ho]; simpl; wp_run; rewrite Ho; [done|].
  apply wp_bind. pose proof (steady_loop_body (envs (ri_stepsThisInvocation (rs_int st))) st Hi) as Hst.
  pose proof (loop_body_settled (envs (ri_stepsThisInvocation (rs_int st))) st (conj Hi Ho)) as Hse.
  unfold wp in Hst, Hse |- * at 1. destruct (loop_body _ _ _ _ st) as [st1 [u|e]]; simpl in *; [|done].
  destruct (ri_closed (rs_int st1)) eqn:Hc.
  - destruct fuel; simpl; wp_run; rewrite Hc; intros _; by apply Hse.
  - apply IH. split; [by apply Hst|done].
Qed.

Lemma drive_catching_settled envs st :
  open st -> ri_stepsThisInvocation (rs_int st) = 0 ->
  exists evs e, rs_events (drive_catching newId world args envs st).1 = (evs ++ [e])%list /\
    settled e (rs_store (drive_catching newId world args envs st).1).
Proof.
  intros Hi Hs. unfold drive_catching, catch, drive.
  pose proof (driveRun_settled envs (maxSteps_of (ra_cfg args) + 2) st Hi) as Hd.
  pose proof (driveRun_post newId world args envs (maxSteps_of (ra_cfg args) + 2) st) as Hp.
  specialize (Hp ltac:(lia) ltac:(lia) (proj2 Hi)). unfold wp in Hd, Hp.
  destruct (driveRun _ _ _ _ _ st) as [st1 [b|e]]; simpl in *.
  - destruct Hp as [-> _]. by apply Hd.
  - by exists (rs_events st1), (emitError t e).
Qed.

(** A run about to enter the driver. *)
Definition started st : Prop := open st /\ ri_stepsThisInvocation (rs_int st) = 0.

Lemma started_step (m : M unit) st :
  (m = ret () \/ exists cfg ws, m = apply_to_internal cfg ws) -> started st ->
  wp m (fun r st' => is_ok r = true -> started st') st.
Proof.
  intros [->|(cfg & ws & ->)] Hst; [by intros _|]. destruct Hst as [[Hi Hc] Hs].
  pose proof (safe_apply_to_internal cfg ws st Hi) as Hsafe.
  unfold wp, apply_to_internal, bind, get, lift in *.
  destruct (applyWrites _ _ _ _) as [a|e]; simpl in *; [|done].
  intros _. split; [|done]. split; [by apply Hsafe|done].
Qed.

Lemma resume_run_settled opts envs tuple r st :
  winv st -> ct_checkpoint tuple ∈ cps (rs_store st) ->
  wp (resume_run newId world args opts envs tuple r) (fun r st' => is_ok r = true ->
    exists evs e, rs_events st' = (evs ++ [e])%list /\ settled e (rs_store st')) st.
Proof.
  intros Hw Hin. unfold resume_run. cbv zeta. wp_run. set (st1 := mkRun _ _ _ _ _ _ _).
  assert (started st1) as Hst1.
  { split; [|done]. split; [|done]. split; [by apply (winv_same st)|].
    exists (ct_checkpoint tuple). split_and!; [done|done|]. simpl. unfold ct_step. lia. }
  apply wp_bind. eapply wp_mono; [apply started_step; [|exact Hst1]|].
  { destruct (rd_replay r); [by left|right; by eauto]. }
  intros [[]|e] st2 Hst2; [|done]. specialize (Hst2 eq_refl).
  apply wp_bind. eapply wp_mono; [apply started_step; [|exact Hst2]|].
  { destruct (_ ≫= _) as [u|]; [|by left]. destruct (truthy u); [right; by eauto|by left]. }
  intros [[]|e] st3 Hst3; [|done]. destruct (Hst3 eq_refl) as [[Hi Hc] Hs].
  do 2 wp_run. cbn [yield fst snd]. set (st4 := mkRun _ _ _ _ _ _ _). intros _.
  apply drive_catching_settled; [|exact Hs]. split; [by apply (inv_int st3)|exact Hc].
Qed.

Lemma resumeEngine_settled opts envs st :
  winv st -> t ∉ rs_lock st ->
  wp (resumeEngine newId world args opts envs) (fun r st' => is_ok r = true ->
    exists evs e, rs_events st' = (evs ++ [e])%list /\ settled e (rs_store st')) st.
Proof.
  intros Hw Hlock. unfold resumeEngine. cbv zeta. wp_run. rewrite decide_False by done.
  apply wp_bind. unfold wp at 1, set_lock. cbn [fst snd]. set (st1 := mkRun _ _ _ _ _ _ _).
  apply wp_finally. apply wp_bind.
  unfold wp at 1. cbn [await_store snd]. fold (await_state st1).
  assert (winv (await_state st1)) as Hw2 by (apply await_extended; by apply (winv_same st)).
  generalize dependent (await_state st1). intros st2 Hw2. wp_run.
  destruct (resume_checks args opts st2) as [[tuple f]|e] eqn:Ec.
  2: { unfold wp. simpl. intros _. eexists _, _. split; [done|]. done. }
  destruct (resume_checks_latest opts st2 tuple f) as [Hin _]; [apply Hw2|apply Hw2|done|].
  destruct (restore _ _ _ _ _ _ _ _) as [[r ids']|e] eqn:Er.
  2: { unfold wp. simpl. intros _. eexists _, _. split; [done|]. done. }
  apply restore_ids in Er. apply wp_bind. unfold wp at 1, set_ids. cbn [fst snd].
  eapply wp_mono; [apply resume_run_settled; [by apply (winv_same st2)|exact Hin]|].
  intros r' st' Hr. exact Hr.
Qed.
End Timeline.
