(* ===== verification/Demo.v ===== *)
(** * A worked workflow

    A two-node workflow on the in-memory store: [ask] waits for an approval
    and logs the answer, [fin] counts.  Its suspended and resumed runs are the
    concrete inputs the properties are instantiated at. *)

From S2P Require Import Prelude JsValue Json Errors Pause Channels CheckpointStore Frontier Engine EngineRun.
From stdpp Require Import pretty.

Local Open Scope string_scope.

Definition demo_newId (prefix : string) (k : nat) : string := prefix +:+ "_" +:+ pretty k.

Lemma demo_newId_inj i j : demo_newId "cp" i = demo_newId "cp" j -> i = j.
Proof. unfold demo_newId. intros E. by do 2 apply (inj _) in E; apply (inj _) in E. Qed.

Definition demo_world (_ : nat) (s : Mem.t) : Mem.t := s.

Definition sum_reducer (a b : value) : result exn value :=
  match a, b with
  | VNum (NFin x), VNum (NFin y) => Ok (VNum (NFin (x + y)))
  | _, _ => Err (PlainError "not numbers")
  end.

Definition ask_body : prog :=
  requestApproval "ship" None None None (fun answer => PRet (VObj [("log", VArr [answer])])).

Definition ask_node : WorkflowNode := mkNode (fun _ _ => ask_body) None None.
Definition fin_node : WorkflowNode :=
  mkNode (fun _ _ => PRet (VObj [("n", VNum (NFin 1))])) None None.

Definition demo_cfg : WorkflowConfig :=
  mkConfig "demo" [("ask", ask_node); ("fin", fin_node)]
    [mkEdge START_NODE "ask" None; mkEdge "ask" "fin" None; mkEdge "fin" END_NODE None]
    [("n", reducer sum_reducer (Some (VNum (NFin 0)))); ("log", listAggregate (Some []))]
    [] [] [] None None None None None None (Some "1") false.

Definition demo_args : RunArgs := mkArgs demo_cfg "t1" Sync SDebug.

Definition demo_envs (_ : nat) : StepEnv := quiet_step 4.

Definition demo_start : RunState (S := Mem.t) :=
  mkRun Mem.empty 0 0 0 [] [] (initialInternal demo_cfg []).

(** The state after the first run, suspended on the approval. *)
Definition demo_suspended : RunState (S := Mem.t) :=
  (runEngine demo_newId demo_world demo_args [] demo_envs demo_start).1.

Definition demo_resume : ResumeOptions :=
  mkResume (Some (mkDirective None (VStr "yes") None)) ModeResume None None false.

Definition demo_resumed : RunState (S := Mem.t) :=
  (resumeEngine demo_newId demo_world demo_args demo_resume demo_envs demo_suspended).1.

(** Statuses and steps of a thread's checkpoints, in put order. *)
Definition demo_timeline (st : RunState (S := Mem.t)) : list (string * nat * status) :=
  map (fun x => (ct_id x, ct_step x, ct_status x))
      (view (rs_store st) (ra_threadId demo_args) (ra_ns demo_args)).

Example demo_suspends : demo_timeline demo_suspended = [("cp_1", 0, Suspended)].
Proof. vm_compute. reflexivity. Qed.

Example demo_completes :
  demo_timeline demo_resumed =
    [("cp_1", 0, Suspended); ("cp_3", 1, Running); ("cp_5", 2, Running); ("cp_6", 3, Completed)].
Proof. vm_compute. reflexivity. Qed.
