(* ===== verification/EngineProps.v ===== *)
(** * Properties of a run

    Termination, the shape of the event trace, and the linearity of the
    checkpoint timeline under concurrent writers. *)

From stdpp Require Import relations.
From S2P Require Import Prelude JsValue Json Errors Pause Channels CheckpointStore Frontier Engine EngineRun EngineFacts RunFacts Timeline Demo.

Local Open Scope string_scope.

Section Trace.
Context {S : Type} `{CheckpointStore S}.
Context (newId : string -> nat -> string) (world : nat -> S -> S).
Implicit Types (st : RunState (S := S)).

(** An invocation reports one final event, last. *)
Definition reported st st' : Prop :=
  exists mid e, Forall silent mid /\ final e /\
    rs_events st' = (rs_events st ++ mid ++ [e])%list.

Lemma drive_catching_reported args envs st :
  ri_closed (rs_int st) = false -> ri_stepsThisInvocation (rs_int st) = 0 ->
  exists st', drive_catching newId world args envs st = (st', Ok true) /\
    reported st st' /\ same_env st st'.
Proof.
  intros Hc Hs. unfold drive_catching, drive, catch.
  pose proof (driveRun_post newId world args envs (maxSteps_of (ra_cfg args) + 2) st) as Hd.
  specialize (Hd ltac:(lia) ltac:(lia) Hc). unfold wp in Hd.
  destruct (driveRun _ _ _ _ _ st) as [st1 [b|e]]; simpl in Hd.
  - destruct Hd as [-> [[??]|(e & He & Henv & _ & mid & Hm & Hev)]]; [congruence|].
    exists st1. split; [done|]. split; [|done]. by exists mid, e.
  - destruct Hd as (Henv & mid & Hm & Hev). eexists. split; [reflexivity|]. split; [|done].
    exists mid, (emitError (ra_threadId args) e). split_and!; [done|done|].
    simpl. by rewrite Hev, <-app_assoc.
Qed.

Lemma drive_catching_capped args envs st :
  steps st <= maxSteps_of (ra_cfg args) ->
  let st' := (drive_catching newId world args envs st).1 in
  steps st' <= maxSteps_of (ra_cfg args) /\ starts st' + steps st <= starts st + maxSteps_of (ra_cfg args).
Proof.
  intros Hle. unfold drive_catching, drive, catch.
  destruct (driveRun _ _ _ _ _ st) as [st1 r] eqn:E. destruct (driveRun_capped _ _ _ _ _ _ _ _ Hle E) as [H1 H2].
  destruct r as [b|e]; [done|]. simpl in *. split; [done|].
  unfold starts in *. simpl. rewrite List.filter_app, length_app. simpl. lia.
Qed.

(** C2: Every [run] of a workflow whose bodies settle terminates (the step cap
    is enough fuel, so the driver never runs dry), after at most [maxSteps] steps:
    no more are announced and no more are counted. Its event stream is the start
    event, intermediate events, and one closing event (end, suspended or error) in
    last position; the intermediate events are steps, channel updates, checkpoints
    and the notices of rejected awakeable payloads, so the run is closed once. The
    cap is exact: with neither an abort nor the thread's total cap, an iteration
    passes the guards exactly when fewer than [maxSteps] steps were taken. *)
Theorem run_terminates_and_reports args input envs st :
  (exists st' mid e,
    runEngine newId world args input envs st = (st', Ok true) /\
    Forall silent mid /\ final e /\
    rs_events st' =
      (rs_events st ++ [EvStart (ra_threadId args) (cfg_name (ra_cfg args))] ++ mid ++ [e])%list /\
    length (List.filter is_step_start mid) <= maxSteps_of (ra_cfg args) /\
    ri_stepsThisInvocation (rs_int st') <= maxSteps_of (ra_cfg args)) /\
  (forall env st1, se_abort_top env = false ->
    (forall cap, cfg_maxTotalSteps (ra_cfg args) = Some cap -> ri_stepNumber (rs_int st1) < cap) ->
    (loop_guards newId world args env st1).2 = Ok () <->
    ri_stepsThisInvocation (rs_int st1) < maxSteps_of (ra_cfg args)).
Proof.
  split.
  - unfold runEngine, bind, set_int, yield. set (st1 := mkRun _ _ _ _ _ _ _).
    destruct (drive_catching_reported args envs st1 eq_refl eq_refl)
      as (st' & E & (mid & e & Hm & He & Hev) & _).
    destruct (drive_catching_capped args envs st1 (Nat.le_0_l _)) as [H1 H2]. rewrite E in H1, H2 |- *. simpl in H1, H2.
    exists st', mid, e. split_and!; try done; [rewrite Hev; simpl; by rewrite <-app_assoc|].
    unfold starts, steps in H2. rewrite Hev in H2. unfold st1 in H2. simpl in H2.
    rewrite !List.filter_app, !length_app in H2. simpl in H2. lia.
  - intros env st1 Ha Ht. split.
    + intros E. destruct (decide (maxSteps_of (ra_cfg args) <= ri_stepsThisInvocation (rs_int st1))) as [Hge|]; [|lia].
      destruct (loop_guards_capped newId world args env st1 Hge) as (st' & e & E1). rewrite E1 in E. discriminate E.
    + intros Hlt. by rewrite loop_guards_pass.
Qed.

(** The replayed writes and the directive's update yield nothing. *)
Definition calm st st' : Prop :=
  rs_events st' = rs_events st /\ rs_lock st' = rs_lock st /\
  ri_closed (rs_int st') = ri_closed (rs_int st) /\
  ri_stepsThisInvocation (rs_int st') = ri_stepsThisInvocation (rs_int st).

#[local] Instance calm_preorder : PreOrder calm.
Proof. split; [by intros []|]. unfold calm. intros st1 st2 st3. intuition congruence. Qed.

Lemma calm_apply cfg ws : keeps calm (apply_to_internal (S := S) cfg ws).
Proof.
  intros st. unfold apply_to_internal, bind, get, lift. by destruct (applyWrites _ _ _ _).
Qed.

(** A resume that starts: the resumed event, then one final event; a merge
    error of the replayed writes is thrown before any event. *)
Definition resume_report args st (r : result exn bool) st' : Prop :=
  rs_lock st' = rs_lock st /\
  match r with
  | Ok b => b = true /\ exists step state mid e, Forall silent mid /\ final e /\
      rs_events st' =
        (rs_events st ++ [EvResumed (ra_threadId args) step state] ++ mid ++ [e])%list
  | Err _ => rs_events st' = rs_events st
  end.

Lemma resume_run_report args opts envs tuple r st :
  wp (resume_run newId world args opts envs tuple r) (resume_report args st) st.
Proof.
  unfold resume_run. cbv zeta. wp_run. set (st1 := mkRun _ _ _ _ _ _ _).
  apply wp_bind, (wp_keeps calm).
  { destruct (rd_replay r); [apply keeps_ret; apply _|apply calm_apply]. }
  intros r2 st2 H2. destruct r2; [|by destruct H2 as (? & ? & _)].
  apply wp_bind, (wp_keeps calm).
  { destruct (_ ≫= _) as [u|]; [|apply keeps_ret; apply _].
    destruct (truthy u); [apply calm_apply|apply keeps_ret; apply _]. }
  intros r3 st3 H3. assert (calm st1 st3) as (Hev & Hl & Hc & Hs) by by etrans.
  destruct r3; [|done]. do 2 wp_run. cbn [yield fst snd]. set (st4 := mkRun _ _ _ _ _ _ _).
  destruct (drive_catching_reported args envs st4 Hc Hs) as (st' & Hrun & (mid & e & ? & ? & Hev') & [Hl' _]).
  unfold wp. rewrite Hrun. split; [simpl; rewrite Hl'; exact Hl|]. split; [done|].
  exists (ri_stepNumber (rs_int st3)), (ri_state (rs_int st3)), mid, e. split_and!; try done.
  simpl. rewrite Hev'. simpl. by rewrite Hev, <-app_assoc.
Qed.

(** A resume of a locked thread is rejected without any effect.  Any
    other resume releases its lock and either reports one error event
    (thread unknown, wrong status, version or definition mismatch, no such
    pause), or yields the resumed event, intermediate events and exactly one
    final event, or throws the merge error of the replayed writes before
    yielding anything. *)
Theorem resume_reports args opts envs st :
  match resumeEngine newId world args opts envs st with
  | (st', r) =>
      if decide (ra_threadId args ∈ rs_lock st)
      then st' = st /\ r = Err (ConcurrentResumeError (ra_threadId args))
      else rs_lock st' = rs_lock st /\
           match r with
           | Err _ => rs_events st' = rs_events st
           | Ok b => b = true /\
               ((exists c, rs_events st' = (rs_events st ++ [EvError (ra_threadId args) c])%list) \/
                exists step state mid e, Forall silent mid /\ final e /\
                  rs_events st' = (rs_events st ++ [EvResumed (ra_threadId args) step state] ++
                                   mid ++ [e])%list)
           end
  end.
Proof.
  unfold resumeEngine. cbv zeta. unfold bind at 1, get at 1. case_decide as Hlock; [done|].
  unfold bind at 1, set_lock at 1, finally. set (st1 := mkRun _ _ _ _ _ _ _).
  set (m := bind (await_store world) _).
  assert (wp m (fun r st' => rs_lock st' = rs_lock st1 /\
    match r with
    | Err _ => rs_events st' = rs_events st
    | Ok b => b = true /\
        ((exists c, rs_events st' = (rs_events st ++ [EvError (ra_threadId args) c])%list) \/
         exists step state mid e, Forall silent mid /\ final e /\
           rs_events st' = (rs_events st ++ [EvResumed (ra_threadId args) step state] ++
                            mid ++ [e])%list)
    end) st1) as Hm.
  { unfold m. do 2 wp_run. cbn [await_store fst].
    destruct (resume_checks _ _ _) as [[tuple f]|e]; [|by split; [|split; [|left; eexists]]].
    destruct (restore _ _ _ _ _ _ _ _) as [[r ids']|e]; [|by split; [|split; [|left; eexists]]].
    wp_run. cbn [set_ids fst snd]. eapply wp_mono; [apply resume_run_report|].
    intros [b|e] st' [Hl Hr]; [|done]. split; [done|]. destruct Hr as [-> Hr]. split; [done|].
    by right. }
  unfold wp in Hm. destruct (m st1) as [st2 r]. simpl in Hm |- *.
  destruct Hm as [Hl Hm]. split; [|done]. rewrite Hl. simpl.
  rewrite bool_decide_eq_true_2 by done. simpl.
  clear -Hlock. induction (rs_lock st) as [|x l IH]; simpl; [done|].
  apply not_elem_of_cons in Hlock as [? ?]. rewrite bool_decide_eq_false_2 by congruence. simpl.
  by rewrite IH.
Qed.
End Trace.

(** ** The timeline *)

Section Linear.
Context {S : Type} `{CheckpointStoreSpec S}.
Context (newId : string -> nat -> string) (world : nat -> S -> S) (args : RunArgs).
Implicit Types (st : RunState (S := S)).

(** What another resume does to the store between two of this one's calls: it
    persists a checkpoint, naming as parent, and expecting as latest, one that was
    there, with a greater step number and an identifier of its own; it appends
    pending writes; or it works on other threads. *)
Inductive peer_write : S -> S -> Prop :=
| peer_persist cp md p s s' :
    put (ra_threadId args) (ra_ns args) cp md (Some (Some p)) s = Ok s' -> cp_parentId cp = Some p ->
    (forall q, q ∈ cps args s -> cp_id q = p -> cp_stepNumber q < cp_stepNumber cp) ->
    cp_id cp ∉ map cp_id (cps args s) -> (forall j, cp_id cp <> newId "cp" j) -> peer_write s s'
| peer_writes id ws taskId s : peer_write s (putWrites (ra_threadId args) (ra_ns args) id ws taskId s)
| peer_elsewhere t' n' cp md e s s' :
    name_ok t' -> name_ok n' -> (t', n') <> (ra_threadId args, ra_ns args) -> put t' n' cp md e s = Ok s' ->
    peer_write s s'
| peer_writes_elsewhere t' n' id ws taskId s :
    name_ok t' -> name_ok n' -> (t', n') <> (ra_threadId args, ra_ns args) ->
    peer_write s (putWrites t' n' id ws taskId s).

Lemma peer_write_ok s s' :
  name_ok (ra_threadId args) -> name_ok (ra_ns args) -> store_wf s -> peer_write s s' ->
  store_wf s' /\ exists l, cps args s' = (cps args s ++ l)%list /\
    (linear (cps args s) -> linear (cps args s ++ l)) /\ Forall (fun cp => forall j, cp_id cp <> newId "cp" j) l.
Proof.
  intros Ht Hn Hwf Hw.
  assert (forall s', cps args s' = cps args s -> exists l, cps args s' = (cps args s ++ l)%list /\
    (linear (cps args s) -> linear (cps args s ++ l)) /\ Forall (fun cp => forall j, cp_id cp <> newId "cp" j) l) as Hsame
    by (intros s1 E; exists []; by rewrite app_nil_r).
  destruct Hw as [cp md p s s' Hput Hpar Hstep Hfree Hid|id ws task s|t' n' cp md e s s' Ht' Hn' Hne Hput|t' n' id ws task s Ht' Hn' Hne].
  - pose proof (put_spec s _ _ cp md (Some (Some p)) Hwf Ht Hn) as Hs. rewrite Hput in Hs.
    destruct Hs as (Hcas & Hwf' & Hview & _). split; [done|]. exists [cp].
    assert (cps args s' = (cps args s ++ [cp])%list) as Ecps.
    { unfold cps. rewrite Hview. unfold v_put. rewrite decide_False; [by rewrite map_app|].
      unfold cps in Hfree. by rewrite map_map in Hfree. }
    split_and!; [done| |by constructor]. intros Hl. apply linear_snoc; [done|]. intros x Hx.
    simpl in Hcas. rewrite linear_latest in Hcas by done.
    assert (cp_id x = p) as Hx'.
    { unfold cps in Hx. change (map ct_checkpoint) with (fmap (M := list) ct_checkpoint) in Hx.
      rewrite fmap_last in Hx. destruct (last (view s _ _)); [|done]. by simplify_eq/=. }
    split; [by rewrite Hpar, Hx'|]. apply Hstep; [by apply last_Some_elem_of|done].
  - destruct (putWrites_spec s _ _ id ws task Hwf Ht Hn) as (Hwf' & _ & _). split; [done|]. apply Hsame.
    by apply putWrites_checkpoints.
  - pose proof (put_spec s t' n' cp md e Hwf Ht' Hn') as Hs. rewrite Hput in Hs. destruct Hs as (_ & Hwf' & _ & Ho).
    split; [done|]. apply Hsame. unfold cps. by rewrite Ho.
  - destruct (putWrites_spec s t' n' id ws task Hwf Ht' Hn') as (Hwf' & _ & Ho).
    split; [done|]. apply Hsame. unfold cps. by rewrite Ho.
Qed.

Lemma peers_world_ok :
  name_ok (ra_threadId args) -> name_ok (ra_ns args) ->
  (forall k s, store_wf s -> rtc peer_write s (world k s)) -> world_ok newId world args.
Proof.
  intros Ht Hn Hw.
  assert (forall s s', rtc peer_write s s' -> store_wf s -> store_wf s' /\ exists l, cps args s' = (cps args s ++ l)%list /\
    (linear (cps args s) -> linear (cps args s ++ l)) /\ Forall (fun cp => forall j, cp_id cp <> newId "cp" j) l) as Hr.
  { intros s s' Hr. induction Hr as [s|s s1 s2 H1 _ IH]; intros Hwf.
    - split; [done|]. exists []. by rewrite app_nil_r.
    - destruct (peer_write_ok s s1 Ht Hn Hwf H1) as (Hwf1 & l1 & E1 & Hl1 & Hf1).
      destruct (IH Hwf1) as (Hwf2 & l2 & E2 & Hl2 & Hf2). split; [done|]. exists (l1 ++ l2)%list.
      rewrite E2, E1 in *. rewrite <-app_assoc. split_and!; [done| |by apply Forall_app].
      intros Hl. rewrite app_assoc. by apply Hl2, Hl1. }
  split; intros k s Hwf; by apply (Hr s (world k s)); [apply Hw|].
Qed.

(** C1: Racing resumes cannot fork a thread. On a thread whose checkpoints form
    one chain (each names its predecessor as parent and has a greater step
    number), whatever other resumes write between this one's store calls (guarded
    persists of a checkpoint that names the parent they expect, pending writes,
    other threads) and whatever options and step schedules this one runs with, the
    checkpoints remain one chain and this resume only appends to it: everything
    recorded before is still there. Identifiers are drawn without repetition, and
    the writers do not share them. *)
Theorem resume_keeps_timeline_linear opts envs st :
  name_ok (ra_threadId args) -> name_ok (ra_ns args) ->
  (forall i j, newId "cp" i = newId "cp" j -> i = j) ->
  (forall k s, store_wf s -> rtc peer_write s (world k s)) ->
  store_wf (rs_store st) -> linear (cps args (rs_store st)) ->
  ids_fresh newId args (rs_ids st) (rs_store st) ->
  let st' := (resumeEngine newId world args opts envs st).1 in
  linear (cps args (rs_store st')) /\
  cps args (rs_store st) `prefix_of` cps args (rs_store st').
Proof.
  intros Ht Hn Hinj Hw%peers_world_ok Hwf Hl Hf st'; [|done|done].
  by destruct (resumeEngine_extended newId world args Ht Hn Hinj Hw opts envs st)
    as [(_ & Hl' & _) Hp].
Qed.

(** A fresh run on a thread of its own builds a linear timeline from
    nothing, in every durability mode and on every exit. *)
Theorem run_builds_linear_timeline input envs st :
  name_ok (ra_threadId args) -> name_ok (ra_ns args) ->
  (forall i j, newId "cp" i = newId "cp" j -> i = j) ->
  world_ok newId world args -> alone world args ->
  store_wf (rs_store st) -> cps args (rs_store st) = [] ->
  linear (cps args (rs_store (runEngine newId world args input envs st).1)).
Proof.
  intros Ht Hn Hinj Hw Ha Hwf Hnil.
  destruct (runEngine_extended newId world args Ht Hn Hinj Hw input envs st) as [(_ & Hl & _) _];
    try done.
  split_and!; [done|rewrite Hnil; apply linear_nil|]. intros j _. rewrite Hnil. by intros ?%elem_of_nil.
Qed.

(** The report of a run on a thread of its own. *)
Lemma run_report_settled input envs st :
  name_ok (ra_threadId args) -> name_ok (ra_ns args) ->
  (forall i j, newId "cp" i = newId "cp" j -> i = j) ->
  world_ok newId world args -> alone world args ->
  store_wf (rs_store st) -> cps args (rs_store st) = [] ->
  let st' := (runEngine newId world args input envs st).1 in
  exists evs e, rs_events st' = (evs ++ [e])%list /\ settled args e (rs_store st').
Proof.
  intros Ht Hn Hinj Hw Ha Hwf Hnil. unfold runEngine, bind, set_int, yield. cbv zeta.
  apply (drive_catching_settled newId world args); try done. split; [|done]. split.
  - split_and!; [done|simpl; rewrite Hnil; apply linear_nil|].
    intros j _. simpl. rewrite Hnil. by intros ?%elem_of_nil.
  - by split.
Qed.

(** The report of a resume, even while other instances write to the thread. *)
Lemma resume_report_settled opts envs st :
  name_ok (ra_threadId args) -> name_ok (ra_ns args) ->
  (forall i j, newId "cp" i = newId "cp" j -> i = j) ->
  world_ok newId world args ->
  store_wf (rs_store st) -> linear (cps args (rs_store st)) ->
  ids_fresh newId args (rs_ids st) (rs_store st) ->
  ra_threadId args ∉ rs_lock st ->
  forall st' b, resumeEngine newId world args opts envs st = (st', Ok b) ->
  exists evs e, rs_events st' = (evs ++ [e])%list /\ settled args e (rs_store st').
Proof.
  intros Ht Hn Hinj Hw Hwf Hl Hf Hlock st' b Hrun.
  pose proof (resumeEngine_settled newId world args Ht Hn Hinj Hw opts envs st
    ltac:(by split_and!) Hlock) as Hs.
  unfold wp in Hs. rewrite Hrun in Hs. by apply Hs.
Qed.

(** C4: What an invocation reports is durable: when its last event says
    suspended, the latest checkpoint of the thread is a suspended one with that
    step and state, whose tags encode a frontier led by the reported pause and
    stamped with the workflow version; when it says end, the latest checkpoint is
    a completed one with the final state. This holds of a [run] on a thread with
    no checkpoints that nobody else writes to meanwhile, and of a [resume] that
    returns on a thread whose checkpoints form a chain, whatever other resumes
    write to the thread before its last store call. *)
Theorem reports_are_durable st :
  name_ok (ra_threadId args) -> name_ok (ra_ns args) ->
  (forall i j, newId "cp" i = newId "cp" j -> i = j) ->
  (forall k s, store_wf s -> rtc peer_write s (world k s)) ->
  store_wf (rs_store st) ->
  (forall input envs, alone world args -> cps args (rs_store st) = [] ->
     let st' := (runEngine newId world args input envs st).1 in
     exists evs e, rs_events st' = (evs ++ [e])%list /\ settled args e (rs_store st')) /\
  (forall opts envs, linear (cps args (rs_store st)) -> ids_fresh newId args (rs_ids st) (rs_store st) ->
     ra_threadId args ∉ rs_lock st ->
     forall st' b, resumeEngine newId world args opts envs st = (st', Ok b) ->
     exists evs e, rs_events st' = (evs ++ [e])%list /\ settled args e (rs_store st')).
Proof.
  intros Ht Hn Hinj Hw%peers_world_ok Hwf; [|done|done]. split.
  - intros input envs Ha Hnil. by apply run_report_settled.
  - intros opts envs Hl Hf Hlock st' b Hrun. by eapply resume_report_settled.
Qed.

Lemma put_stale cp md p s :
  name_ok (ra_threadId args) -> name_ok (ra_ns args) -> store_wf s ->
  ct_id <$> getTuple (ra_threadId args) (ra_ns args) None s <> Some p ->
  put (ra_threadId args) (ra_ns args) cp md (Some <$> Some p) s =
    Err (CheckpointConflictError (ra_threadId args) (Some p)
           (ct_id <$> getTuple (ra_threadId args) (ra_ns args) None s)).
Proof.
  intros Ht Hn Hwf. rewrite getTuple_latest by done. intros Hne.
  pose proof (put_spec s (ra_threadId args) (ra_ns args) cp md (Some <$> Some p) Hwf Ht Hn) as Hput.
  destruct (put _ _ _ _ _ _) as [s'|e]; [by destruct Hput|]. by destruct Hput as [_ ->].
Qed.

(** C5: A writer that lost the race changes nothing.  When the thread's
    latest checkpoint at the moment of the put is not the run's parent, the
    persist throws a version conflict (from the pre-check or from the store's
    compare-and-set) and the store is what the other writers made it. *)
Theorem stale_persist_is_rejected sts nodeName f w p st sv :
  name_ok (ra_threadId args) -> name_ok (ra_ns args) ->
  (forall k s, store_wf s -> store_wf (world k s)) -> store_wf (rs_store st) ->
  ra_durability args <> Exit \/ sts <> Running ->
  (forall g, f = Some g -> assertFrontierJsonSafe g = Ok ()) ->
  serializeState (ri_state (rs_int st)) = Ok sv ->
  ri_parent (rs_int st) = Some p ->
  let s1 := world (rs_tick st) (rs_store st) in
  let s2 := world (1 + rs_tick st) s1 in
  ct_id <$> getTuple (ra_threadId args) (ra_ns args) None s2 <> Some p ->
  exists st' actual,
    persistCheckpoint newId world args sts nodeName f w st =
      (st', Err (CheckpointVersionConflictError (ra_threadId args) p actual)) /\
    (rs_store st' = s1 \/ rs_store st' = s2).
Proof.
  intros Ht Hn Hw Hwf Hskip Hsafe Hser Hpar s1 s2 Hstale. unfold persistCheckpoint. cbv zeta.
  assert (bool_decide (ra_durability args = Exit) && bool_decide (sts = Running) = false) as ->.
  { destruct Hskip; [rewrite bool_decide_eq_false_2 by done; done|].
    rewrite (bool_decide_eq_false_2 (sts = Running)) by done. apply andb_false_r. }
  assert (match f with Some g => assertFrontierJsonSafe g | None => Ok () end = Ok ()) as Hs.
  { destruct f; [by apply Hsafe|done]. }
  unfold bind at 1, fresh at 1. unfold bind at 1, lift at 1. rewrite Hs.
  unfold bind at 1. unfold bind at 1, await_store at 1. unfold bind at 1, get at 1.
  unfold lift at 1, precheck. cbn [rs_int rs_store rs_tick]. rewrite Hpar. fold s1.
  destruct (getTuple _ _ None s1) as [l|]; [case_decide as Hl|];
    [|eexists _, _; split; [reflexivity|by left]|];
    (unfold bind at 1, get at 1; unfold bind at 1, lift at 1; cbn [rs_int]; rewrite Hser;
     unfold bind at 1; unfold bind at 1, await_store at 1; unfold bind at 1, get at 1;
     cbn [rs_int rs_store rs_tick]; rewrite Hpar;
     rewrite (put_stale _ _ p) by (try apply Hw; try apply Hw; done);
     eexists _, _; split; [reflexivity|by right]).
Qed.
End Linear.

(** ** Instances on the worked workflow *)

Lemma demo_world_ok : world_ok demo_newId demo_world demo_args.
Proof.
  constructor; [done|]. intros k s _. exists []. unfold demo_world. rewrite app_nil_r. done.
Qed.

Lemma demo_alone : alone (S := Mem.t) demo_world demo_args.
Proof. done. Qed.

Lemma demo_suspended_winv : winv demo_newId demo_args demo_suspended.
Proof.
  destruct (runEngine_extended demo_newId demo_world demo_args) with
    (input := [] : jstate) (envs := demo_envs) (st := demo_start) as [Hw _]; try done.
  - exact demo_newId_inj.
  - exact demo_world_ok.
  - split_and!; [apply MemRefine.empty_wf|apply linear_nil|]. intros j _. by intros ?%elem_of_nil.
Qed.

Lemma run_builds_linear_timeline_witness :
  linear (cps demo_args (rs_store demo_suspended)) /\
  length (cps demo_args (rs_store demo_suspended)) = 1.
Proof.
  split; [|vm_compute; reflexivity].
  apply (run_builds_linear_timeline demo_newId demo_world demo_args [] demo_envs demo_start).
  - vm_compute. reflexivity.
  - vm_compute. reflexivity.
  - exact demo_newId_inj.
  - exact demo_world_ok.
  - exact demo_alone.
  - apply MemRefine.empty_wf.
  - reflexivity.
Defined.

(** Another instance that resumes the thread first: it persists a step after the
    latest checkpoint, once. *)
Definition rival (s : Mem.t) : Mem.t :=
  match getTuple (ra_threadId demo_args) (ra_ns demo_args) None s with
  | Some x =>
      let cp := mkCheckpoint "rival" (ra_threadId demo_args) (ra_ns demo_args) (Some (ct_id x)) (VObj []) []
                  (1 + list_max (map cp_stepNumber (cps demo_args s))) 0 in
      if decide ("rival" ∈ map cp_id (cps demo_args s)) then s
      else match put (ra_threadId demo_args) (ra_ns demo_args) cp (mkMetadata Sync Running None None None)
                   (Some (Some (ct_id x))) s with
           | Ok s' => s'
           | Err _ => s
           end
  | None => s
  end.

Definition rival_world (k : nat) (s : Mem.t) : Mem.t :=
  if decide (k = 1 + rs_tick demo_suspended) then rival s else s.

Lemma rival_is_a_peer k s : store_wf s -> rtc (peer_write demo_newId demo_args) s (rival_world k s).
Proof.
  intros Hwf. unfold rival_world. case_decide; [|apply rtc_refl]. unfold rival.
  destruct (getTuple _ _ _ s) as [x|]; [|apply rtc_refl]. case_decide as Hin; [apply rtc_refl|].
  destruct (put _ _ _ _ _ s) as [s'|] eqn:E; [|apply rtc_refl]. apply rtc_once.
  eapply peer_persist; [exact E|done| |done|].
  - intros q Hq _. simpl. enough (cp_stepNumber q <= list_max (map cp_stepNumber (cps demo_args s))) by lia.
    assert (Forall (fun n => n <= list_max (map cp_stepNumber (cps demo_args s))) (map cp_stepNumber (cps demo_args s)))
      as HF by by apply list_max_le. rewrite List.Forall_forall in HF. apply HF, in_map, list_elem_of_In, Hq.
  - intros j. discriminate.
Qed.

(** The rival comes first: the resume finds its parent stale and the chain has
    the rival's checkpoint only. *)
Lemma resume_keeps_timeline_linear_witness :
  let st' := (resumeEngine demo_newId rival_world demo_args demo_resume demo_envs demo_suspended).1 in
  map cp_id (cps demo_args (rs_store st')) = ["cp_1"; "rival"] /\
  linear (cps demo_args (rs_store st')) /\
  cps demo_args (rs_store demo_suspended) `prefix_of` cps demo_args (rs_store st').
Proof.
  split; [vm_compute; reflexivity|].
  apply (resume_keeps_timeline_linear demo_newId rival_world demo_args demo_resume demo_envs
           demo_suspended).
  - vm_compute. reflexivity.
  - vm_compute. reflexivity.
  - exact demo_newId_inj.
  - exact rival_is_a_peer.
  - apply demo_suspended_winv.
  - apply demo_suspended_winv.
  - apply demo_suspended_winv.
Defined.

(** The suspension of the worked workflow is on disk, and so is its completion
    after the resume. *)
Lemma reports_are_durable_witness :
  (exists evs e, rs_events demo_suspended = (evs ++ [e])%list /\ settled demo_args e (rs_store demo_suspended)) /\
  (exists evs e, rs_events demo_resumed = (evs ++ [e])%list /\ settled demo_args e (rs_store demo_resumed)).
Proof.
  split.
  - apply (reports_are_durable demo_newId demo_world demo_args demo_start);
      [vm_compute; reflexivity|vm_compute; reflexivity|exact demo_newId_inj|intros k s _; apply rtc_refl
      |apply MemRefine.empty_wf|exact demo_alone|reflexivity].
  - destruct (reports_are_durable demo_newId demo_world demo_args demo_suspended) as [_ H];
      [vm_compute; reflexivity|vm_compute; reflexivity|exact demo_newId_inj|intros k s _; apply rtc_refl
      |apply demo_suspended_winv|].
    apply (H demo_resume demo_envs) with (b := true);
      [apply demo_suspended_winv|apply demo_suspended_winv|vm_compute; by intros ?%elem_of_nil|vm_compute; reflexivity].
Defined.

(** A run whose parent is not the thread's latest checkpoint. *)
Definition demo_stale : RunState (S := Mem.t) :=
  let i := rs_int demo_suspended in
  mkRun (rs_store demo_suspended) (rs_ids demo_suspended) 0 0 [] []
    (mkInternal [] [] [] [] 7 0 (Some "cp_old") [] Running false).

Lemma stale_persist_is_rejected_witness :
  let s1 := demo_world (rs_tick demo_stale) (rs_store demo_stale) in
  let s2 := demo_world (1 + rs_tick demo_stale) s1 in
  exists st' actual,
    persistCheckpoint demo_newId demo_world demo_args Running None (Some emptyFrontier) [] demo_stale =
      (st', Err (CheckpointVersionConflictError (ra_threadId demo_args) "cp_old" actual)) /\
    (rs_store st' = s1 \/ rs_store st' = s2).
Proof.
  refine (stale_persist_is_rejected demo_newId demo_world demo_args Running None (Some emptyFrontier)
            [] "cp_old" demo_stale
            (VObj [("schema", VStr CHECKPOINT_SCHEMA_VERSION); ("state", VObj [])])
            _ _ _ _ _ _ _ _ _).
  - vm_compute. reflexivity.
  - vm_compute. reflexivity.
  - by intros.
  - apply demo_suspended_winv.
  - left. discriminate.
  - intros g [= <-]. reflexivity.
  - reflexivity.
  - reflexivity.
  - vm_compute. discriminate.
Defined.
