(* ===== verification/ResumeProps.v ===== *)
(** * Resuming a suspension

    From the pause a body raised, through the persisted frontier, to the task
    that re-runs it: the answer reaches the right [pause] call, the other
    pausers wait again, and nothing of the frontier is lost. *)

From S2P Require Import Prelude JsValue Json Errors Pause Channels CheckpointStore Frontier Engine EngineRun Demo.

Local Open Scope string_scope.

(** ** The identity recorded for a pause admits the same pause again *)

Lemma str_of_norm_field v : str_of (norm_field v) = str_of v.
Proof. unfold norm_field. by destruct v. Qed.

Lemma str_of_jnorm v : str_of (jnorm v) = str_of v.
Proof. by destruct v. Qed.

Lemma str_of_jget_imap k (vs : list value) f :
  str_of (default VUndef (jget k (imap (fun i x => (f i, x)) (map jnorm vs)))) =
  str_of (default VUndef (jget k (imap (fun i x => (f i, x)) vs))).
Proof.
  revert f. induction vs as [|v vs IH]; intros f; simpl; [done|].
  case_decide; simpl; [apply str_of_jnorm|]. apply (IH (fun i => f (S i))).
Qed.

(** String properties survive the JSON round trip. *)
Lemma str_of_getp_norm k v :
  storable v = true -> str_of (getp k (norm_field v)) = str_of (getp k v).
Proof.
  intros [Hs Hw]%storable_spec. destruct v as [| | | [] | | vs | fs |]; try done.
  - apply str_of_jget_imap.
  - change (norm_field (VObj fs)) with (jnorm (VObj fs)). rewrite getp_jnorm.
    + apply str_of_norm_field.
    + simpl in Hw. apply andb_true_iff in Hw as [Hw _]. by apply bool_decide_eq_true in Hw.
Qed.

Lemma is_object_norm v : storable v = true -> is_object (norm_field v) = is_object v.
Proof. intros [Hs _]%storable_spec. by destruct v. Qed.

Definition kind_of (v : value) : option string :=
  if is_object v then str_of (getp "kind" v) else None.

Lemma identityOfPauseValue_kind v : id_kind (identityOfPauseValue v) = kind_of v.
Proof. unfold identityOfPauseValue, kind_of. by destruct (is_object v). Qed.

Lemma pauseMetaOf_kind p : id_kind (pauseMetaOf p) = kind_of (pp_value p).
Proof. done. Qed.

Lemma kind_of_norm v : storable v = true -> kind_of (norm_field v) = kind_of v.
Proof. intros H. unfold kind_of. by rewrite is_object_norm, str_of_getp_norm. Qed.

Lemma pauseMeta_admits o v :
  storable v = true ->
  diverges (pauseMetaOf (pnorm (pauseRecordOf o v))) (identityOfPauseValue v) = false.
Proof.
  intros Hv. unfold diverges. rewrite pauseMetaOf_kind, identityOfPauseValue_kind. simpl.
  rewrite kind_of_norm by done. rewrite (bool_decide_eq_true_2 (kind_of v = kind_of v)) by done.
  rewrite andb_false_r. simpl. unfold identityOfPauseValue.
  destruct (isAwakeablePauseValue v || isApprovalPauseValue v) eqn:E; [|done].
  assert (is_object v = true) as ->.
  { apply orb_true_iff in E as [E|E]; unfold isAwakeablePauseValue, isApprovalPauseValue in E;
      by destruct (is_object v). }
  simpl. rewrite (bool_decide_eq_true_2 (_ = _)) by done. apply andb_false_r.
Qed.

(** ** From the paused task to the resumed one *)

(** Answers and identities of a task go together; only a resumed task has
    any. *)
Definition task_ok (task : PlannedTask) : Prop :=
  if decide (tk_source task = SrcResume)
  then length (default [] (tk_resumeMeta task)) = length (default [] (tk_resumeValues task)) /\
       is_Some (tk_resumeMeta task)
  else tk_resumeValues task = None /\ tk_resumeMeta task = None.

Lemma nonempty_default {A} (l : list A) : default [] (nonempty l) = l.
Proof. by destruct l. Qed.

(** A body that reached its pause was never told off on the way. *)
Lemma run_from_admits values meta n p v q :
  run_from values meta n p = Err (PauseSignal v) -> feed p (drop n values) = Some q ->
  forall i w e, asked p (drop n values) !! i = Some w -> meta_at meta (n + i) = Some e ->
    diverges e (identityOfPauseValue w) = false.
Proof.
  revert n. induction p as [o|e'|w' k IH]; intros n Hrun Hfeed i w e Hw He;
    destruct (drop n values) as [|a rest] eqn:Ed; try done.
  assert (values !! n = Some a) as Ha by by rewrite <-(Nat.add_0_r n), <-lookup_drop, Ed.
  assert (drop (S n) values = rest) as Ed'.
  { rewrite (drop_S _ _ _ Ha) in Ed. by simplify_eq. }
  simpl in Hrun. unfold pause in Hrun. rewrite Ha in Hrun.
  destruct (match meta_at meta n with Some _ => _ | None => _ end) as [a'|] eqn:Ep.
  2: { destruct (meta_at meta n) as [x|]; [|done]. destruct (diverges x _); by simplify_eq. }
  assert (a' = a) as ->.
  { destruct (meta_at meta n) as [x|]; [|by simplify_eq]. destruct (diverges x _); by simplify_eq. }
  destruct i as [|i]; simpl in Hw.
  - simplify_eq. rewrite Nat.add_0_r in He. rewrite He in Ep. by destruct (diverges e _).
  - apply (IH a (S n) Hrun) with (i := i); [by rewrite Ed'|by rewrite Ed'|].
    by rewrite Nat.add_succ_l, <-Nat.add_succ_r.
Qed.

Lemma run_body_admits node ctx task attempt v q :
  task_ok task -> run_body node ctx task attempt = Err (PauseSignal v) ->
  feed (wn_run node ctx attempt) (default [] (tk_resumeValues task)) = Some q ->
  admits (Some (default [] (tk_resumeMeta task)))
         (asked (wn_run node ctx attempt) (default [] (tk_resumeValues task))).
Proof.
  unfold task_ok, run_body. intros Hok Hrun Hfeed i w e Hw He. case_decide.
  - destruct Hok as [Hlen [ms Hms]]. rewrite Hms in *. simpl in *.
    eapply (run_from_admits _ (Some ms) 0); rewrite ?drop_0; done.
  - destruct Hok as [Hv _]. by rewrite Hv in Hw.
Qed.

Lemma admits_snoc ms vs m v :
  length ms = length vs -> admits (Some ms) vs -> diverges m (identityOfPauseValue v) = false ->
  admits (Some (ms ++ [Some m])%list) (vs ++ [v])%list.
Proof.
  intros Hlen Hadm Hm i w e Hw He. unfold meta_at in *.
  destruct (decide (i < length vs)) as [Hlt|Hge].
  - rewrite lookup_app_l in Hw by done. rewrite lookup_app_l in He by lia.
    by eapply Hadm.
  - assert (i = length vs) as ->.
    { apply lookup_lt_Some in Hw. rewrite length_app in Hw. simpl in Hw. lia. }
    rewrite lookup_app_r, Nat.sub_diag in Hw by lia.
    rewrite lookup_app_r, Hlen, Nat.sub_diag in He by lia. by simplify_eq/=.
Qed.

Lemma map_jnorm_id vs : forallb vdef vs = true -> forallb storable vs = true -> map jnorm vs = vs.
Proof.
  induction vs as [|v vs IH]; simpl; [done|].
  intros [Hd ?]%andb_true_iff [[Hs _]%storable_spec ?]%andb_true_iff.
  by rewrite jnorm_vdef, IH.
Qed.

(** What the record of a paused task says after the round trip. *)
Lemma pauseRecord_restored task v :
  task_ok task -> forallb vdef (default [] (tk_resumeValues task)) = true ->
  let rec := pauseRecordOf (mkOutcome task [] (Some v) TPaused [] false) v in
  pause_ok rec = true ->
  default [] (pp_satisfied (pnorm rec)) = default [] (tk_resumeValues task) /\
  priorMetaOf (pnorm rec) = default [] (tk_resumeMeta task).
Proof.
  intros Hok Hdef rec Hrec. unfold pause_ok in Hrec. rewrite !andb_true_iff in Hrec.
  destruct Hrec as [[_ Hsat] _]. unfold rec in *. simpl in *. rewrite nonempty_default in Hsat.
  split.
  - destruct (default [] (tk_resumeValues task)) as [|a l] eqn:E; [done|]. simpl nonempty.
    by apply (map_jnorm_id (a :: l)).
  - unfold priorMetaOf. simpl. destruct (default [] (tk_resumeMeta task)) as [|m ms] eqn:Em; [|done].
    simpl. unfold task_ok in Hok. case_decide.
    + destruct Hok as [Hlen _]. rewrite Em in Hlen. by destruct (default [] (tk_resumeValues task)).
    + destruct Hok as [-> _]. done.
Qed.

Lemma run_body_resume node ctx id rec extra extraMeta fr attempt :
  pp_staticBefore rec = false ->
  run_body node ctx (resume_task id rec extra extraMeta fr) attempt =
  runWithPauseResume (default [] (pp_satisfied rec) ++ extra)%list
    (Some (priorMetaOf rec ++ extraMeta)%list) (wn_run node ctx attempt).
Proof. intros Hsb. unfold run_body, resume_task. by rewrite Hsb. Qed.

(** C3: A resume continues the body at the pause it suspended on.  Take a task
    whose body reached [pause(v)] after consuming its earlier answers; persist
    its pause record in a checkpoint's frontier and read it back.  The task
    built for the chosen pause replays the earlier answers and delivers the
    new one, so the (deterministic) body runs on as [k answer]; the task built
    for a pause that was not chosen suspends again on the same value. *)
Theorem resume_continues_body node ctx ctx' attempt attempt' task v k answer id f md i :
  task_ok task ->
  run_body node ctx task attempt = Err (PauseSignal v) ->
  feed (wn_run node ctx attempt) (default [] (tk_resumeValues task)) = Some (PPause v k) ->
  wn_run node ctx' attempt' = wn_run node ctx attempt ->
  forallb vdef (default [] (tk_resumeValues task)) = true ->
  frontier_ok f = true -> md_tags md = Some (encodeFrontier f) ->
  fe_pauses f !! i = Some (pauseRecordOf (mkOutcome task [] (Some v) TPaused [] false) v) ->
  exists rec, fe_pauses (readFrontier md) !! i = Some rec /\
    run_body node ctx' (resume_task id rec [answer] [Some (pauseMetaOf rec)] true) attempt' =
      run_unscoped (k answer) /\
    run_body node ctx' (resume_task id rec [] [] false) attempt' = Err (PauseSignal v).
Proof.
  intros Hok Hrun Hfeed Hsame Hdef Hf Htags Hi.
  set (rec := pauseRecordOf _ v) in Hi. exists (pnorm rec).
  assert (pause_ok rec = true) as Hrec.
  { unfold frontier_ok in Hf. rewrite !andb_true_iff in Hf. destruct Hf as [[Hp _] _].
    apply (forallb_elem _ _ _ Hp). by eapply list_elem_of_lookup_2. }
  split.
  { rewrite (readFrontier_encode f md) by done. simpl.
    by rewrite list_lookup_map, Hi. }
  destruct (pauseRecord_restored task v Hok Hdef Hrec) as [Hsat Hmeta].
  pose proof (run_body_admits _ _ _ _ _ _ Hok Hrun Hfeed) as Hadm.
  pose proof (asked_length _ _ _ Hfeed) as Hlen.
  assert (storable v = true) as Hv.
  { unfold pause_ok in Hrec. rewrite !andb_true_iff in Hrec. apply Hrec. }
  fold rec in Hsat, Hmeta.
  rewrite !run_body_resume by done. rewrite Hsame, Hsat, Hmeta. split.
  - apply runWithPauseResume_feed; [by rewrite feed_app, Hfeed|].
    rewrite (asked_app _ _ _ _ Hfeed). apply admits_snoc; [|done|by apply pauseMeta_admits].
    rewrite Hlen. unfold task_ok in Hok. case_decide; [apply Hok|by destruct Hok as [-> ->]].
  - rewrite !app_nil_r. rewrite (runWithPauseResume_feed _ _ _ _ Hfeed Hadm). done.
Qed.

(** The first run of the worked workflow's [ask] node, and its resumption. *)
Definition demo_task : PlannedTask := mkTask "task_0" "ask" SrcEdge None None None false false.

Definition demo_pause : value := approval_value "ship" None None None.

Definition demo_record : PendingPauseRecord :=
  pauseRecordOf (mkOutcome demo_task [] (Some demo_pause) TPaused [] false) demo_pause.

Definition demo_frontier : FrontierEnvelope := mkFrontier (Some "1") [demo_record] [] [] None.

Definition demo_ctx : WorkflowContext := mkCtx "t1" 0 "task_0" [] None.

Lemma resume_continues_body_witness :
  exists rec, fe_pauses (readFrontier (mkMetadata Sync Suspended None
                                         (Some (encodeFrontier demo_frontier)) None)) !! 0 = Some rec /\
    run_body ask_node demo_ctx
      (resume_task "task_9" rec [VStr "yes"] [Some (pauseMetaOf rec)] true) 1 =
      run_unscoped (PRet (VObj [("log", VArr [VStr "yes"])])) /\
    run_body ask_node demo_ctx (resume_task "task_9" rec [] [] false) 1 =
      Err (PauseSignal demo_pause).
Proof.
  refine (resume_continues_body ask_node demo_ctx demo_ctx 1 1 demo_task demo_pause
            (fun answer => PRet (VObj [("log", VArr [answer])])) (VStr "yes") "task_9"
            demo_frontier _ 0 _ _ _ _ _ _ _ _).
  - split; reflexivity.
  - reflexivity.
  - reflexivity.
  - reflexivity.
  - reflexivity.
  - vm_compute. reflexivity.
  - reflexivity.
  - reflexivity.
Defined.

(** A payload the awakeable's schema rejects is discarded.  The record
    persisted for the re-suspended task holds exactly the answers and
    identities it had before the rejected delivery, so the same payload is
    not replayed on the next resume. *)
Theorem rejected_payload_is_discarded id rec payload meta name :
  pp_staticBefore rec = false ->
  let task := resume_task id rec [payload] [meta] true in
  let rec' := pauseRecordOf
    (mkOutcome task [] (Some (awakeable_value name)) TPaused [] (tk_freshResume task))
    (awakeable_value name) in
  default [] (pp_satisfied rec') = default [] (pp_satisfied rec) /\
  default [] (pp_satisfiedMeta rec') = priorMetaOf rec /\
  pp_nodeName rec' = pp_nodeName rec /\ pp_name rec' = Some name.
Proof.
  intros Hsb. unfold resume_task. rewrite Hsb. simpl. rewrite !nonempty_default.
  unfold drop_last. rewrite !length_app, !Nat.add_sub. simpl. by rewrite !take_app_length.
Qed.

Lemma rejected_payload_is_discarded_witness :
  let rec := mkPause "ask" (awakeable_value "hook") None false false (Some [VBool true])
               (Some [None]) None (Some "hook") in
  let task := resume_task "task_3" rec [VStr "bad"] [Some (pauseMetaOf rec)] true in
  let rec' := pauseRecordOf
    (mkOutcome task [] (Some (awakeable_value "hook")) TPaused [] (tk_freshResume task))
    (awakeable_value "hook") in
  default [] (pp_satisfied rec') = [VBool true] /\ default [] (pp_satisfiedMeta rec') = [None] /\
  pp_nodeName rec' = "ask" /\ pp_name rec' = Some "hook".
Proof.
  exact (rejected_payload_is_discarded "task_3"
    (mkPause "ask" (awakeable_value "hook") None false false (Some [VBool true])
       (Some [None]) None (Some "hook"))
    (VStr "bad") (Some (pauseMetaOf (mkPause "ask" (awakeable_value "hook") None false false
       (Some [VBool true]) (Some [None]) None (Some "hook")))) "hook" eq_refl).
Defined.

(** ** The frontier fans back out *)

Section Restore.
Definition erase_id (t : PlannedTask) : PlannedTask :=
  mkTask "" (tk_node t) (tk_source t) (tk_args t) (tk_resumeValues t) (tk_resumeMeta t)
         (tk_staticBefore t) (tk_freshResume t).

Lemma erase_dispatches (g : nat -> string) ds :
  map erase_id (imap (fun i d => dispatch_task (g i) (dy_nodeName d) (dy_dispatchArgs d)) ds) =
  map (fun d => dispatch_task "" (dy_nodeName d) (dy_dispatchArgs d)) ds.
Proof.
  revert g. induction ds as [|d ds IH]; intros g; [done|]. simpl. f_equal.
  apply (IH (fun i => g (S i))).
Qed.

(** The task a pause record stands for: none for a node that already ran. *)
Definition pause_task (answer : value) (primary : bool) (p : PendingPauseRecord) :
    list PlannedTask :=
  if pp_staticAfter p then []
  else [resume_task "" p (if primary then [answer] else [])
          (if primary then [Some (pauseMetaOf p)] else []) primary].

Definition answer_of (opts : ResumeOptions) : value :=
  match ro_directive opts with Some d => dr_resume d | None => VUndef end.

(** [target] is the pause the resume addresses, [others] the rest in order. *)
Definition chosen (opts : ResumeOptions) (f : FrontierEnvelope) (target : PendingPauseRecord)
    (others : list PendingPauseRecord) : Prop :=
  match ro_selectPause opts with
  | None => fe_pauses f = target :: others
  | Some sel => exists pre post, fe_pauses f = (pre ++ target :: post)%list /\
      others = (pre ++ post)%list /\ sel target = true /\ Forall (fun p => sel p = false) pre
  end.

Lemma select_pause_spec sel pre ps target post :
  sel target = true -> Forall (fun p => sel p = false) ps ->
  select_pause sel pre (ps ++ target :: post)%list = Some (target, (pre ++ ps ++ post)%list).
Proof.
  intros Ht Hps. revert pre. induction Hps as [|p ps Hp _ IH]; intros pre; simpl.
  - by rewrite Ht.
  - rewrite Hp, IH. by rewrite <-app_assoc.
Qed.

Lemma select_pause_None sel pre ps :
  Forall (fun p => sel p = false) ps -> select_pause sel pre ps = None.
Proof.
  intros Hps. revert pre. induction Hps as [|p ps Hp _ IH]; intros pre; simpl; [done|].
  by rewrite Hp, IH.
Qed.

Lemma elem_of_push_completed n completed m :
  n ∈ push_completed completed m <-> n ∈ completed \/ n = m.
Proof.
  unfold push_completed. case_decide; [naive_solver|].
  rewrite elem_of_app, list_elem_of_singleton. done.
Qed.

Context (newId : string -> nat -> string).

Lemma fan_out_spec primary answer r ids p :
  let r' := (fan_out newId primary answer (r, ids) p).1 in
  rd_replay r' = rd_replay r /\
  map erase_id (rd_tasks r') = (map erase_id (rd_tasks r) ++ pause_task answer primary p)%list /\
  (forall n, n ∈ rd_completed r' <->
     n ∈ rd_completed r \/ (pp_staticAfter p = true /\ n = pp_nodeName p)).
Proof.
  unfold fan_out, pause_task. destruct (pp_staticAfter p) eqn:E; simpl; split_and!; try done.
  - by rewrite app_nil_r.
  - intros n. rewrite elem_of_push_completed. naive_solver.
  - by rewrite map_app.
  - naive_solver.
Qed.

Lemma fan_outs_spec answer ps acc :
  let r' := (foldl (fan_out newId false answer) acc ps).1 in
  rd_replay r' = rd_replay acc.1 /\
  map erase_id (rd_tasks r') =
    (map erase_id (rd_tasks acc.1) ++ flat_map (pause_task answer false) ps)%list /\
  (forall n, n ∈ rd_completed r' <->
     n ∈ rd_completed acc.1 \/ exists p, p ∈ ps /\ pp_staticAfter p = true /\ n = pp_nodeName p).
Proof.
  revert acc. induction ps as [|p ps IH]; intros [r ids]; cbn [foldl flat_map fst].
  - rewrite app_nil_r. split_and!; try done. intros n. split; [by left|].
    intros [?|(p & ?%elem_of_nil & _)]; done.
  - destruct (fan_out_spec false answer r ids p) as (H1 & H2 & H3).
    destruct (IH (fan_out newId false answer (r, ids) p)) as (I1 & I2 & I3).
    split_and!; [by rewrite I1, H1|by rewrite I2, H2, <-app_assoc|].
    intros n. rewrite I3, H3. setoid_rewrite elem_of_cons. naive_solver.
Qed.

Lemma restore_suspended_spec t cfg opts s f pend step ids target others :
  (s = Running -> cfg_journalSteps cfg = false) ->
  ro_directive opts ≫= dr_goto = None ->
  chosen opts f target others ->
  exists r ids', restore_suspended newId t cfg opts s f pend step ids = Ok (r, ids') /\
    rd_replay r = [] /\
    map erase_id (rd_tasks r) =
      (map (fun d => dispatch_task "" (dy_nodeName d) (dy_dispatchArgs d)) (fe_dynamic f) ++
       pause_task (answer_of opts) true target ++
       flat_map (pause_task (answer_of opts) false) others)%list /\
    (forall n, n ∈ rd_completed r <-> n ∈ fe_completed f \/
       exists p, p ∈ fe_pauses f /\ pp_staticAfter p = true /\ n = pp_nodeName p).
Proof.
  intros Hj Hgoto Hch. unfold restore_suspended. cbn [restore_frontier].
  assert (bool_decide (s = Running) && cfg_journalSteps cfg = false) as ->.
  { case_bool_decide; [by rewrite Hj|done]. }
  rewrite Hgoto. fold (answer_of opts). set (a := answer_of opts).
  set (base := mkRestored _ _ _). set (ids1 := ids + _).
  assert (exists R, (match ro_selectPause opts with
    | Some sel => match select_pause sel [] (fe_pauses f) with
        | None => Err (PauseNotFoundError t (default "<selector>" (ro_selectPauseLabel opts)))
        | Some (tg, os) => Ok (foldl (fan_out newId false a) (fan_out newId true a (base, ids1) tg) os)
        end
    | None => match fe_pauses f with
        | [] => Ok (base, ids1)
        | p :: os => Ok (foldl (fan_out newId false a) (fan_out newId true a (base, ids1) p) os)
        end
    end) = Ok R /\ R = foldl (fan_out newId false a) (fan_out newId true a (base, ids1) target) others /\
    forall p, p ∈ fe_pauses f <-> p = target \/ p ∈ others) as (R & -> & HR & Hps).
  { unfold chosen in Hch. destruct (ro_selectPause opts) as [sel|].
    - destruct Hch as (pre & post & -> & -> & Ht & Hpre). rewrite select_pause_spec by done.
      eexists. split_and!; [reflexivity|done|]. set_solver.
    - rewrite Hch. eexists. split_and!; [reflexivity|done|]. set_solver. }
  destruct (fan_out_spec true a base ids1 target) as (H1 & H2 & H3).
  destruct (fan_outs_spec a others (fan_out newId true a (base, ids1) target)) as (I1 & I2 & I3).
  rewrite <-HR in I1, I2, I3. exists R.1, R.2. split; [by destruct R|].
  split_and!; [by rewrite I1, H1| |].
  - rewrite I2, H2, <-app_assoc. f_equal.
    apply (erase_dispatches (fun i => newId "task" (ids + i))).
  - intros n. rewrite I3, H3. setoid_rewrite Hps. naive_solver.
Qed.
(** Nothing of a suspension is lost on resume.  Restoring a frontier
    yields its pending dispatches first, then one task per paused node in
    order, the addressed pause ahead and alone carrying the answer, every
    task with the answers it had already received; the nodes whose edges
    remain to be walked are the recorded ones plus the nodes held by a
    pause-after gate. *)
Theorem suspended_restore_keeps_everything t cfg opts s f pend step ids target others :
  (s = Running -> cfg_journalSteps cfg = false) ->
  ro_directive opts ≫= dr_goto = None ->
  chosen opts f target others ->
  exists r ids', restore_suspended newId t cfg opts s f pend step ids = Ok (r, ids') /\
    rd_replay r = [] /\
    map erase_id (rd_tasks r) =
      (map (fun d => dispatch_task "" (dy_nodeName d) (dy_dispatchArgs d)) (fe_dynamic f) ++
       pause_task (answer_of opts) true target ++
       flat_map (pause_task (answer_of opts) false) others)%list /\
    (forall n, n ∈ rd_completed r <-> n ∈ fe_completed f \/
       exists p, p ∈ fe_pauses f /\ pp_staticAfter p = true /\ n = pp_nodeName p).
Proof. apply restore_suspended_spec. Qed.
End Restore.

Lemma suspended_restore_keeps_everything_witness :
  exists r ids', restore_suspended demo_newId "t1" demo_cfg demo_resume Suspended demo_frontier [] 1 5 =
      Ok (r, ids') /\
    rd_replay r = [] /\
    map erase_id (rd_tasks r) = (pause_task (VStr "yes") true demo_record ++ [])%list /\
    (forall n, n ∈ rd_completed r <-> n ∈ fe_completed demo_frontier \/
       exists p, p ∈ fe_pauses demo_frontier /\ pp_staticAfter p = true /\ n = pp_nodeName p).
Proof.
  refine (suspended_restore_keeps_everything demo_newId "t1" demo_cfg demo_resume Suspended
            demo_frontier [] 1 5 demo_record [] _ _ _).
  - discriminate.
  - reflexivity.
  - reflexivity.
Defined.
