(* ===== verification/PlanProps.v ===== *)
(** * What the planner guarantees

    [planTasks] runs the carried tasks and one task per target of a fired
    edge, holds joins until their barrier is complete, stops at the first
    gated task, and completes a run only through a satisfied END edge. *)

From S2P Require Import Prelude JsValue Json Errors Pause Channels CheckpointStore Frontier Engine EngineRun Demo.

Local Open Scope string_scope.

(** ** Fired edges *)

(** Some edge out of a completed node into [target] fires. *)
Definition fired (cfg : WorkflowConfig) (completed : list string) (state : jstate)
    (target : string) : Prop :=
  exists e, e ∈ cfg_edges cfg /\ we_from e ∈ completed /\ we_to e = target /\
    edge_fires e state = true.

Lemma elem_of_reachable cfg completed state n :
  n ∈ reachable cfg completed state <-> n <> END_NODE /\ fired cfg completed state n.
Proof.
  unfold reachable, fired. rewrite list_elem_of_In, in_flat_map. split.
  - intros (c & Hc%list_elem_of_In & (e & <- & He)%in_map_iff).
    apply filter_In in He as [He [[Hf Hne]%andb_true_iff Hw]%andb_true_iff].
    apply bool_decide_eq_true in Hf. apply negb_true_iff, bool_decide_eq_false in Hne.
    split; [done|]. exists e. rewrite list_elem_of_In, Hf. done.
  - intros [Hne (e & He%list_elem_of_In & Hf%list_elem_of_In & <- & Hw)].
    exists (we_from e). split; [done|]. apply in_map, filter_In. split; [done|].
    rewrite bool_decide_eq_true_2 by done. rewrite bool_decide_eq_false_2 by done. done.
Qed.

Lemma reachableEnd_spec cfg completed state :
  reachableEnd cfg completed state = true <-> fired cfg completed state END_NODE.
Proof.
  unfold reachableEnd, fired. rewrite existsb_true_iff. split.
  - intros (c & Hc & (e & He & [[Hf Ht]%andb_true_iff Hw]%andb_true_iff)%existsb_true_iff).
    apply bool_decide_eq_true in Hf, Ht. subst c. by exists e.
  - intros (e & He & Hf & Ht & Hw). exists (we_from e). split; [done|].
    apply existsb_true_iff. exists e. split; [done|]. by rewrite !bool_decide_eq_true_2, Hw.
Qed.

Section Plan.
(** ** One task per fired edge target *)

Record planned_from (cfg : WorkflowConfig) (state : jstate) (dynamic : list PlannedTask)
    (names : list string) (edges : list PlannedTask) : Prop := {
  pf_edge : Forall (fun t => tk_source t = SrcEdge /\ tk_args t = None /\ tk_resumeValues t = None)
              edges;
  pf_nodup : NoDup (map tk_node edges);
  pf_nodes : forall n, n ∈ map tk_node edges <->
    n ∈ names /\ barrierDefersNode cfg state n = false /\ n ∉ map tk_node dynamic;
}.

Lemma existsb_node n (ts : list PlannedTask) :
  existsb (fun t => bool_decide (tk_node t = n)) ts = bool_decide (n ∈ map tk_node ts).
Proof.
  apply eq_true_iff_eq. rewrite existsb_true_iff, bool_decide_eq_true, list_elem_of_fmap.
  setoid_rewrite bool_decide_eq_true. naive_solver.
Qed.

Context (newId : string -> nat -> string).

Lemma plan_edges_spec cfg state dynamic names ids :
  exists edges, (foldl (plan_edges newId cfg state) (dynamic, ids) names).1 =
      (dynamic ++ edges)%list /\ planned_from cfg state dynamic names edges.
Proof.
  induction names as [|n names (edges & Heq & [He Hnd Hn])] using rev_ind.
  { exists []. rewrite app_nil_r. split; [done|]. split; [done|apply NoDup_nil_2|].
    intros n. simpl. split; [by intros ?%elem_of_nil|by intros [?%elem_of_nil _]]. }
  rewrite foldl_app. cbn [foldl]. destruct (foldl _ _ names) as [planned ids'].
  simpl in Heq. subst planned. unfold plan_edges. rewrite existsb_node, map_app.
  case_bool_decide as Hin; [|destruct (barrierDefersNode cfg state n) eqn:Hd].
  - exists edges. split; [done|]. split; [done|done|]. intros m. rewrite Hn.
    rewrite (elem_of_app names), list_elem_of_singleton. split; [naive_solver|].
    intros ([Hm| ->] & Hb & Hnot); [done|]. apply elem_of_app in Hin as [?|Hin]; [done|].
    by apply Hn in Hin.
  - exists edges. split; [done|]. split; [done|done|]. intros m. rewrite Hn.
    rewrite (elem_of_app names), list_elem_of_singleton. split; [naive_solver|].
    intros ([Hm| ->] & Hb & Hnot); [done|congruence].
  - apply not_elem_of_app in Hin as [Hin1 Hin2].
    exists (edges ++ [mkTask (newId "task" ids') n SrcEdge None None None false false])%list.
    split; [simpl; by rewrite app_assoc|]. split.
    + apply Forall_app. by rewrite Forall_singleton.
    + rewrite map_app. apply NoDup_app. split_and!; [done|set_solver|apply NoDup_singleton].
    + intros m. rewrite map_app, elem_of_app, Hn, (elem_of_app names). cbn [map tk_node].
      rewrite !list_elem_of_singleton. naive_solver.
Qed.

(** ** The gate *)

Definition gated (cfg : WorkflowConfig) (t : PlannedTask) : bool :=
  negb (bool_decide (tk_source t = SrcResume)) && negb (tk_staticBefore t) &&
  bool_decide (tk_node t ∈ cfg_pauseBefore cfg).

Lemma split_gated_spec cfg pre planned :
  match split_gated (cfg_pauseBefore cfg) pre planned with
  | None => Forall (fun t => gated cfg t = false) planned
  | Some (g, rest) => exists a b, planned = (a ++ g :: b)%list /\ rest = (pre ++ a ++ b)%list /\
      gated cfg g = true /\ Forall (fun t => gated cfg t = false) a
  end.
Proof.
  revert pre. induction planned as [|t planned IH]; intros pre; simpl; [done|].
  fold (gated cfg t). destruct (gated cfg t) eqn:E.
  - exists [], planned. done.
  - specialize (IH (pre ++ [t])%list). destruct (split_gated _ _ planned) as [[g rest]|].
    + destruct IH as (a & b & -> & -> & Hg & Ha). exists (t :: a), b.
      split_and!; [done|by rewrite <-!app_assoc|done|by constructor].
    + by constructor.
Qed.

(** The tasks of a round before the gate is consulted. *)
Definition round (cfg : WorkflowConfig) (i : RunInternalState) (planned : list PlannedTask) : Prop :=
  exists edges, planned = (ri_dynamic i ++ edges)%list /\
    planned_from cfg (ri_state i) (ri_dynamic i)
      (reachable cfg (ri_completed i) (ri_state i)) edges.

Lemma planTasks_cases cfg i ids :
  exists planned, round cfg i planned /\
    match (planTasks newId cfg i ids).1 with
    | PlanTasks ts => ts = planned /\ Forall (fun t => gated cfg t = false) planned /\
        (planned = [] -> ri_completed i <> [] -> fired cfg (ri_completed i) (ri_state i) END_NODE)
    | PlanSuspend g rest => exists a b, planned = (a ++ g :: b)%list /\ rest = (a ++ b)%list /\
        gated cfg g = true /\ Forall (fun t => gated cfg t = false) a
    | PlanDeadEnd stalled => stalled = ri_completed i /\ planned = [] /\ ri_completed i <> [] /\
        ~ fired cfg (ri_completed i) (ri_state i) END_NODE
    end.
Proof.
  unfold planTasks. cbv zeta.
  destruct (plan_edges_spec cfg (ri_state i) (ri_dynamic i)
    (reachable cfg (ri_completed i) (ri_state i)) ids) as (edges & Heq & Hpf).
  destruct (foldl _ _ _) as [planned ids']. simpl in Heq.
  exists planned. split; [by exists edges|].
  pose proof (split_gated_spec cfg [] planned) as Hg.
  destruct (split_gated _ _ planned) as [[g rest]|]; [done|].
  destruct (decide (planned = [])) as [->|Hne].
  - rewrite (bool_decide_eq_true_2 ([] = [])) by done. simpl.
    destruct (decide (ri_completed i = [])) as [Hc|Hc].
    + rewrite bool_decide_eq_true_2 by done. simpl. done.
    + rewrite bool_decide_eq_false_2 by done. simpl.
      destruct (reachableEnd _ _ _) eqn:E; simpl.
      * by apply reachableEnd_spec in E.
      * split_and!; try done. intros Hf%reachableEnd_spec. congruence.
  - rewrite bool_decide_eq_false_2 by done. simpl. done.
Qed.
End Plan.

(** C8: A planned round runs exactly what is due: the carried tasks first and
    unchanged, then one edge task for each node that some fired edge out of a
    completed node reaches, that no incomplete barrier holds back and that is
    not already planned; no node twice, and no task behind a closed gate. *)
Theorem plan_runs_exactly_what_is_due newId cfg i ids tasks ids' :
  planTasks newId cfg i ids = (PlanTasks tasks, ids') ->
  exists edges, tasks = (ri_dynamic i ++ edges)%list /\
    Forall (fun t => tk_source t = SrcEdge /\ tk_args t = None /\ tk_resumeValues t = None) edges /\
    NoDup (map tk_node edges) /\
    (forall n, n ∈ map tk_node edges <->
       n <> END_NODE /\ fired cfg (ri_completed i) (ri_state i) n /\
       barrierDefersNode cfg (ri_state i) n = false /\ n ∉ map tk_node (ri_dynamic i)) /\
    Forall (fun t => gated cfg t = false) tasks.
Proof.
  intros Hplan. destruct (planTasks_cases newId cfg i ids) as (planned & (edges & -> & [He Hnd Hn]) & Hc).
  rewrite Hplan in Hc. simpl in Hc. destruct Hc as (-> & Hg & _).
  exists edges. split_and!; try done. intros n. rewrite Hn, elem_of_reachable. naive_solver.
Qed.

(** Completion must be earned.  A run that still has completed nodes to
    walk from ends (plans nothing) only if one of them has a satisfied edge to
    END; and the planner declares a dead end exactly when nothing is carried,
    nothing that fires may run now, and no END edge is satisfied. *)
Theorem completion_is_earned newId cfg i ids :
  ri_completed i <> [] ->
  let p := (planTasks newId cfg i ids).1 in
  (p = PlanTasks [] -> fired cfg (ri_completed i) (ri_state i) END_NODE) /\
  (p = PlanDeadEnd (ri_completed i) <->
     ri_dynamic i = [] /\ ~ fired cfg (ri_completed i) (ri_state i) END_NODE /\
     forall n, n <> END_NODE -> fired cfg (ri_completed i) (ri_state i) n ->
       barrierDefersNode cfg (ri_state i) n = true).
Proof.
  intros Hne p. destruct (planTasks_cases newId cfg i ids) as (planned & (edges & Hpl & [He Hnd Hn]) & Hc).
  fold p in Hc. split.
  { intros Hp. rewrite Hp in Hc. destruct Hc as (<- & _ & Hend). by apply Hend. }
  assert (planned = [] <-> ri_dynamic i = [] /\ edges = []) as Hnil.
  { rewrite Hpl. split; [apply app_nil|by intros [-> ->]]. }
  assert (ri_dynamic i = [] -> edges = [] <-> forall n, n <> END_NODE ->
            fired cfg (ri_completed i) (ri_state i) n -> barrierDefersNode cfg (ri_state i) n = true) as Hed.
  { intros Hdyn. split.
    - intros -> n Hn1 Hn2. destruct (barrierDefersNode cfg (ri_state i) n) eqn:E; [done|].
      exfalso. apply (elem_of_nil n), (proj2 (Hn n)). rewrite elem_of_reachable, Hdyn. split; [done|].
      split; [done|]. by intros ?%elem_of_nil.
    - intros Hall. destruct edges as [|t edges]; [done|]. exfalso.
      destruct (proj1 (Hn (tk_node t))) as (Hr & Hd & _); [by left|].
      apply elem_of_reachable in Hr as [Hr1 Hr2]. rewrite (Hall _ Hr1 Hr2) in Hd. done. }
  split.
  - intros Hp. rewrite Hp in Hc. destruct Hc as (_ & Hpn & _ & Hend).
    apply Hnil in Hpn as [Hdyn Hes]. split_and!; [done|done|]. by apply Hed.
  - intros (Hdyn & Hend & Hall). apply (Hed Hdyn) in Hall.
    assert (planned = []) as -> by by apply Hnil.
    destruct p as [ts|g rest|stalled].
    + destruct Hc as (_ & _ & Hc). by destruct Hend; apply Hc.
    + destruct Hc as (a & b & Heq & _). by destruct a.
    + by destruct Hc as (-> & _).
Qed.

(** A join runs only when it is complete.  A node with edges from two
    different writers of one barrier channel gets an edge task only in a state
    whose barrier map holds an entry of every writer the barrier declares
    (writers whose name every object inherits, which the membership test
    cannot tell apart, excepted). *)
Theorem join_waits_for_every_writer newId cfg i ids tasks ids' channelName from dflt a b n t :
  planTasks newId cfg i ids = (PlanTasks tasks, ids') ->
  t ∈ tasks -> tk_node t = n -> n ∉ map tk_node (ri_dynamic i) ->
  (channelName, Barrier from dflt) ∈ cfg_channels cfg ->
  a ∈ cfg_edges cfg -> b ∈ cfg_edges cfg -> we_to a = n -> we_to b = n ->
  we_from a ∈ from -> we_from b ∈ from -> we_from a <> we_from b ->
  forall writer, writer ∈ from -> writer ∉ OBJECT_PROTOTYPE_KEYS ->
    writer ∈ jkeys (barrier_map (ri_state i) channelName).
Proof.
  intros Hplan Ht Hnode Hdyn Hch Ha Hb Hat Hbt Haf Hbf Hab writer Hwr Hproto.
  destruct (planTasks_cases newId cfg i ids) as (planned & (edges & Hpl & [He Hnd Hn]) & Hc).
  rewrite Hplan in Hc. simpl in Hc. destruct Hc as (-> & _). subst planned.
  assert (n ∈ map tk_node edges) as Hin.
  { apply elem_of_app in Ht as [Ht|Ht].
    - destruct Hdyn. apply list_elem_of_fmap. by exists t.
    - apply list_elem_of_fmap. by exists t. }
  apply Hn in Hin as (_ & Hd & _). apply not_true_iff_false in Hd.
  destruct (decide (writer ∈ jkeys (barrier_map (ri_state i) channelName))) as [|Hno]; [done|].
  exfalso. apply Hd. unfold barrierDefersNode. apply existsb_true_iff.
  exists (channelName, Barrier from dflt). split; [done|]. simpl. apply andb_true_iff. split.
  - apply negb_true_iff, bool_decide_eq_false. intros Hlt.
    set (srcs := remove_dups _) in Hlt.
    assert (forall e, e ∈ cfg_edges cfg -> we_to e = n -> we_from e ∈ from -> we_from e ∈ srcs) as Hsrc.
    { intros e Hee Het Hef. apply elem_of_remove_dups, list_elem_of_fmap. exists e. split; [done|].
      apply list_elem_of_In, filter_In. split; [by apply list_elem_of_In|].
      by rewrite !bool_decide_eq_true_2. }
    pose proof (Hsrc a Ha Hat Haf) as H1. pose proof (Hsrc b Hb Hbt Hbf) as H2.
    destruct srcs as [|x [|y srcs]]; simpl in Hlt; [by apply elem_of_nil in H1| |lia].
    apply list_elem_of_singleton in H1, H2. congruence.
  - apply negb_true_iff, not_true_iff_false. rewrite forallb_forall. intros Hall.
    apply Hno. specialize (Hall writer (proj1 (list_elem_of_In _ _) Hwr)).
    by apply orb_true_iff in Hall as [Hall%bool_decide_eq_true|Hall%bool_decide_eq_true].
Qed.

(** The pause-before gate drops nothing.  When the planner suspends, the
    gated task is the first one of the round whose node is listed (and that is
    not a resumption or already gated), and the rest are exactly the other
    tasks of the round, in order. *)
Theorem gate_keeps_the_round newId cfg i ids g rest ids' :
  planTasks newId cfg i ids = (PlanSuspend g rest, ids') ->
  exists a b, round cfg i (a ++ g :: b)%list /\ rest = (a ++ b)%list /\
    gated cfg g = true /\ Forall (fun t => gated cfg t = false) a.
Proof.
  intros Hplan. destruct (planTasks_cases newId cfg i ids) as (planned & Hround & Hc).
  rewrite Hplan in Hc. simpl in Hc. destruct Hc as (a & b & -> & -> & Hg & Ha). by exists a, b.
Qed.

(** ** A fan-in workflow *)

Definition join_cfg (before : list string) : WorkflowConfig :=
  mkConfig "join" [("a", fin_node); ("b", fin_node); ("j", fin_node)]
    [mkEdge START_NODE "a" None; mkEdge START_NODE "b" None; mkEdge "a" "j" None; mkEdge "b" "j" None;
     mkEdge "j" END_NODE None]
    [("done", barrier ["a"; "b"] None)]
    [] before [] None None None None None None None false.

Definition join_state (completed : list string) (done : jstate) (dynamic : list PlannedTask) :
    RunInternalState :=
  mkInternal [("done", VObj done)] [] dynamic completed 1 1 None [] Running false.

Definition join_ready := join_state ["a"; "b"] [("a", VNull); ("b", VNull)] [].

Lemma plan_runs_exactly_what_is_due_witness :
  exists edges, [mkTask "task_0" "j" SrcEdge None None None false false] = ([] ++ edges)%list /\
    Forall (fun t => tk_source t = SrcEdge /\ tk_args t = None /\ tk_resumeValues t = None) edges /\
    NoDup (map tk_node edges) /\
    (forall n, n ∈ map tk_node edges <->
       n <> END_NODE /\ fired (join_cfg []) (ri_completed join_ready) (ri_state join_ready) n /\
       barrierDefersNode (join_cfg []) (ri_state join_ready) n = false /\ n ∉ map tk_node []) /\
    Forall (fun t => gated (join_cfg []) t = false)
      [mkTask "task_0" "j" SrcEdge None None None false false].
Proof.
  apply (plan_runs_exactly_what_is_due demo_newId (join_cfg []) join_ready 0 _ 1).
  vm_compute. reflexivity.
Defined.

Lemma completion_is_earned_witness :
  let i := join_state ["j"] [] [] in
  let p := (planTasks demo_newId (join_cfg []) i 0).1 in
  (p = PlanTasks [] -> fired (join_cfg []) (ri_completed i) (ri_state i) END_NODE) /\
  (p = PlanDeadEnd (ri_completed i) <->
     ri_dynamic i = [] /\ ~ fired (join_cfg []) (ri_completed i) (ri_state i) END_NODE /\
     forall n, n <> END_NODE -> fired (join_cfg []) (ri_completed i) (ri_state i) n ->
       barrierDefersNode (join_cfg []) (ri_state i) n = true).
Proof. apply (completion_is_earned demo_newId (join_cfg []) (join_state ["j"] [] []) 0). discriminate. Defined.

Lemma join_waits_for_every_writer_witness :
  "b" ∈ jkeys (barrier_map (ri_state join_ready) "done").
Proof.
  refine (join_waits_for_every_writer demo_newId (join_cfg []) join_ready 0
           [mkTask "task_0" "j" SrcEdge None None None false false] 1 "done" ["a"; "b"] None
           (mkEdge "a" "j" None) (mkEdge "b" "j" None) "j"
           (mkTask "task_0" "j" SrcEdge None None None false false) _ _ _ _ _ _ _ _ _ _ _ _ "b" _ _).
  - vm_compute. reflexivity.
  - constructor.
  - reflexivity.
  - apply not_elem_of_nil.
  - constructor.
  - repeat constructor.
  - repeat constructor.
  - reflexivity.
  - reflexivity.
  - constructor.
  - repeat constructor.
  - discriminate.
  - repeat constructor.
  - apply (bool_decide_unpack ("b" ∉ OBJECT_PROTOTYPE_KEYS)). vm_compute. exact I.
Defined.

Lemma gate_keeps_the_round_witness :
  exists a b, round (join_cfg ["j"]) join_ready
      (a ++ mkTask "task_0" "j" SrcEdge None None None false false :: b)%list /\
    [] = (a ++ b)%list /\
    gated (join_cfg ["j"]) (mkTask "task_0" "j" SrcEdge None None None false false) = true /\
    Forall (fun t => gated (join_cfg ["j"]) t = false) a.
Proof.
  apply (gate_keeps_the_round demo_newId (join_cfg ["j"]) join_ready 0 _ _ 1).
  vm_compute. reflexivity.
Defined.
