(* ===== verification/StepProps.v ===== *)
(** * A step does not depend on its schedule

    The parallel tasks of a step settle in any order.  Two schedules of the
    same step are related by a simulation on run states: same store, same
    internal state up to the identifiers of freshly dispatched tasks, same
    events up to order. *)

From S2P Require Import Prelude JsValue Json Errors Pause Channels CheckpointStore Frontier Engine EngineRun EngineFacts Demo.

Section Sim.
Context {S : Type} `{CheckpointStore S}.
Context (newId : string -> nat -> string) (world : nat -> S -> S).
Notation st_t := (RunState (S := S)).
Notation M := (M (S := S)).

(** Internal states that differ in dispatched task identifiers only. *)
Definition int_sim (i1 i2 : RunInternalState) : Prop :=
  ri_state i1 = ri_state i2 /\ ri_versions i1 = ri_versions i2 /\
  map strip_task (ri_dynamic i1) = map strip_task (ri_dynamic i2) /\
  ri_completed i1 = ri_completed i2 /\ ri_stepNumber i1 = ri_stepNumber i2 /\
  ri_stepsThisInvocation i1 = ri_stepsThisInvocation i2 /\ ri_parent i1 = ri_parent i2 /\
  ri_pauses i1 = ri_pauses i2 /\ ri_status i1 = ri_status i2 /\ ri_closed i1 = ri_closed i2.

Record sim (st1 st2 : st_t) : Prop := {
  sim_store : rs_store st1 = rs_store st2;
  sim_ids : rs_ids st1 = rs_ids st2;
  sim_tick : rs_tick st1 = rs_tick st2;
  sim_now : rs_now st1 = rs_now st2;
  sim_lock : rs_lock st1 = rs_lock st2;
  sim_events : rs_events st1 ≡ₚ rs_events st2;
  sim_int : int_sim (rs_int st1) (rs_int st2);
}.

Definition msim {A} (m1 m2 : M A) : Prop := forall st1 st2, sim st1 st2 ->
  sim (m1 st1).1 (m2 st2).1 /\ (m1 st1).2 = (m2 st2).2.

Lemma int_sim_refl i : int_sim i i.
Proof. done. Qed.
Lemma sim_refl st : sim st st.
Proof. by constructor. Qed.

Lemma msim_ret {A} (a : A) : msim (ret a) (ret a).
Proof. by intros st1 st2 Hs. Qed.
Lemma msim_throw {A} e : msim (throw (A := A) e) (throw e).
Proof. by intros st1 st2 Hs. Qed.
Lemma msim_lift {A} (r : result exn A) : msim (lift r) (lift r).
Proof. by intros st1 st2 Hs. Qed.

Lemma msim_bind {A B} (m1 m2 : M A) (f1 f2 : A -> M B) :
  msim m1 m2 -> (forall a, msim (f1 a) (f2 a)) -> msim (bind m1 f1) (bind m2 f2).
Proof.
  intros Hm Hf st1 st2 Hs. unfold bind. destruct (Hm st1 st2 Hs) as [Hs' Hr].
  destruct (m1 st1) as [st1' r1], (m2 st2) as [st2' r2]. simpl in *. subst r2.
  destruct r1 as [a|e]; [by apply Hf|done].
Qed.

Lemma msim_get {A} (f1 f2 : st_t -> M A) :
  (forall rs1 rs2, sim rs1 rs2 -> msim (f1 rs1) (f2 rs2)) -> msim (bind get f1) (bind get f2).
Proof. intros Hf st1 st2 Hs. unfold bind, get. by apply Hf. Qed.

Lemma msim_set_int f1 f2 :
  (forall i1 i2, int_sim i1 i2 -> int_sim (f1 i1) (f2 i2)) -> msim (set_int f1) (set_int f2).
Proof. intros Hf st1 st2 []. split; [|done]. constructor; simpl; try done. by apply Hf. Qed.

Lemma msim_set_store f1 f2 : (forall s, f1 s = f2 s) -> msim (set_store f1) (set_store f2).
Proof. intros Hf st1 st2 [Hs]. split; [|done]. constructor; simpl; try done. by rewrite Hs, Hf. Qed.

Lemma msim_yield e : msim (yield e) (yield e).
Proof.
  intros st1 st2 []. split; [|done]. constructor; simpl; try done. by apply Permutation_app_tail.
Qed.
Lemma msim_yield_if b e : msim (yield_if b e) (yield_if b e).
Proof. destruct b; [apply msim_yield|apply msim_ret]. Qed.

Lemma msim_fresh p : msim (fresh newId p) (fresh newId p).
Proof.
  intros st1 st2 [Hst Hid]. simpl. rewrite Hid. split; [|done].
  constructor; simpl; try done.
Qed.

Lemma msim_await : msim (await_store world) (await_store world).
Proof.
  intros st1 st2 [Hst Hid Htk]. split; [|done]. constructor; simpl; try done.
  - by rewrite Hst, Htk.
  - by rewrite Htk.
Qed.

Lemma msim_forM {A} (l : list A) f1 f2 :
  (forall a, msim (f1 a) (f2 a)) -> msim (forM l f1) (forM l f2).
Proof.
  intros Hf. induction l as [|x l IH]; simpl; [apply msim_ret|]. by apply msim_bind.
Qed.

Lemma msim_persist args s n f w :
  msim (persistCheckpoint newId world args s n f w) (persistCheckpoint newId world args s n f w).
Proof.
  unfold persistCheckpoint. apply msim_bind; [apply msim_fresh|]. intros cid.
  apply msim_bind; [apply msim_lift|]. intros _. cbv zeta. apply msim_bind.
  { destruct (_ && _); [apply msim_ret|]. apply msim_bind; [apply msim_await|]. intros _.
    apply msim_get. intros rs1 rs2 [Hst _ _ _ _ _ Hi]. destruct Hi as (_ & _ & _ & _ & _ & _ & Hp & _).
    rewrite Hst, Hp. apply msim_lift. }
  intros _. apply msim_get. intros rs1 rs2 [Hst _ _ Hnow _ _ Hi].
  destruct Hi as (H1 & H2 & _ & _ & H3 & _ & H4 & _). rewrite H1, H2, H3, H4, Hnow.
  apply msim_bind; [apply msim_lift|]. intros sv. apply msim_bind.
  { destruct (_ && _); [apply msim_ret|]. apply msim_bind; [apply msim_await|]. intros _.
    apply msim_get. intros rs1' rs2' [Hst' _ _ _ _ _ Hi']. destruct Hi' as (_ & _ & _ & _ & _ & _ & Hp & _).
    rewrite Hst', Hp. destruct (put _ _ _ _ _ _); [by apply msim_set_store|apply msim_throw]. }
  intros _. apply msim_bind; [|intros _; apply msim_ret].
  apply msim_forM. intros g. apply msim_bind; [apply msim_await|]. intros _. by apply msim_set_store.
Qed.

Lemma msim_checkpointEvent args id :
  msim (checkpointEvent args id) (checkpointEvent args id).
Proof.
  unfold checkpointEvent. apply msim_get. intros rs1 rs2 [_ _ _ _ _ _ Hi].
  destruct Hi as (_ & _ & _ & _ & -> & _). destruct id; [apply msim_yield_if|apply msim_ret].
Qed.

(** Simulated states have the same frontier. *)
Lemma currentFrontier_sim args st1 st2 :
  sim st1 st2 -> currentFrontier args st1 = currentFrontier args st2.
Proof.
  intros [_ _ _ _ _ _ (_ & _ & Hd & Hc & _ & _ & _ & Hp & _)].
  unfold currentFrontier, frontierFromInternal. rewrite Hc, Hp. f_equal.
  apply (f_equal (map (fun p => mkDynamic p.1 p.2))) in Hd. by rewrite !map_map in Hd.
Qed.

Lemma msim_same_int (f : RunInternalState -> RunInternalState) :
  (forall i1 i2, int_sim i1 i2 -> int_sim (f i1) (f i2)) -> msim (set_int f) (set_int f).
Proof. apply msim_set_int. Qed.

Ltac solve_int := apply msim_same_int; unfold int_sim; simpl; intuition congruence.

Lemma msim_stop_with args s e :
  msim (stop_with newId world args s e) (stop_with newId world args s e).
Proof.
  unfold stop_with. apply msim_bind; [solve_int|]. intros _.
  apply msim_get. intros rs1 rs2 Hs. rewrite (currentFrontier_sim args _ _ Hs).
  apply msim_bind; [apply msim_persist|]. intros _. apply msim_throw.
Qed.

Lemma msim_on_running args env :
  msim (on_running newId world args env) (on_running newId world args env).
Proof.
  unfold on_running. apply msim_get. intros rs1 rs2 Hs. rewrite (currentFrontier_sim args _ _ Hs).
  destruct Hs as [_ _ _ _ _ _ (Hst & _ & _ & _ & Hn & _)]. rewrite Hst, Hn.
  apply msim_bind; [apply msim_persist|]. intros id.
  apply msim_bind; [apply msim_yield_if|]. intros _.
  apply msim_bind; [apply msim_checkpointEvent|]. intros _.
  apply msim_bind; [destruct id; [solve_int|apply msim_ret]|]. intros _.
  apply msim_bind; [solve_int|]. intros _.
  destruct (se_abort_after env); [apply msim_stop_with|apply msim_ret].
Qed.

Lemma msim_on_suspended args pauses first :
  msim (on_suspended newId world args pauses first) (on_suspended newId world args pauses first).
Proof.
  unfold on_suspended. do 2 (apply msim_bind; [solve_int|]; intros _).
  apply msim_get. intros rs1 rs2 Hs. rewrite (currentFrontier_sim args _ _ Hs).
  destruct Hs as [_ _ _ _ _ _ (Hst & _ & _ & _ & Hn & _)]. rewrite Hst, Hn.
  apply msim_bind; [apply msim_persist|]. intros id.
  apply msim_bind; [apply msim_yield_if|]. intros _.
  apply msim_bind; [apply msim_checkpointEvent|]. intros _.
  apply msim_bind; [apply msim_yield|]. intros _. solve_int.
Qed.

Lemma msim_merge_step args o1 o2 :
  completedWrites o1 = completedWrites o2 ->
  msim (merge_step newId world args o1) (merge_step newId world args o2).
Proof.
  intros Hw. unfold merge_step. apply msim_get. intros rs1 rs2 Hs.
  rewrite (currentFrontier_sim args _ _ Hs), Hw.
  destruct Hs as [_ _ _ _ _ _ (Hst & Hv & _)]. rewrite Hst, Hv. cbv zeta.
  assert (forall e n f, msim
    (bind (persistCheckpoint newId world args Failed n f []) (fun id =>
       bind (checkpointEvent args id) (fun _ => bind (set_status Failed) (fun _ => throw (A := ApplyResult) e))))
    (bind (persistCheckpoint newId world args Failed n f []) (fun id =>
       bind (checkpointEvent args id) (fun _ => bind (set_status Failed) (fun _ => throw (A := ApplyResult) e)))))
    as Hfail.
  { intros e n f. apply msim_bind; [apply msim_persist|]. intros id.
    apply msim_bind; [apply msim_checkpointEvent|]. intros _.
    apply msim_bind; [solve_int|]. intros _. apply msim_throw. }
  destruct (applyWrites _ _ _ _) as [applied|e]; [|apply Hfail].
  destruct (cfg_validateState _) as [validate|]; [|apply msim_ret].
  destruct (validate _); [apply msim_ret|apply Hfail].
Qed.

Lemma msim_channel_events args n applied :
  msim (channel_events (S := S) args n applied) (channel_events args n applied).
Proof.
  unfold channel_events. destruct (includeChannelEvents args); [|apply msim_ret].
  apply msim_forM. intros c. apply msim_yield.
Qed.

Lemma msim_on_failure args env tasks os1 os2 f :
  NoDup (map outcome_id os1) -> map strip os1 ≡ₚ map strip os2 ->
  msim (on_failure newId world args env tasks os1 (orderOutcomes tasks os1) f)
       (on_failure newId world args env tasks os2 (orderOutcomes tasks os2) f).
Proof.
  intros Hnd Hp. pose proof (orderOutcomes_strip tasks os1 os2 Hnd Hp) as Ho.
  unfold on_failure. cbv zeta.
  rewrite (any_failed_strip os1 os2 Hp), (completedWrites_strip _ _ Ho),
    (pauseRecordsOf_strip _ _ Ho), (failureFrontier_strip _ _ os1 os2 _ Hnd Hp).
  apply msim_bind; [apply msim_persist|]. intros id.
  apply msim_bind; [apply msim_checkpointEvent|]. intros _.
  apply msim_bind; [solve_int|]. intros _. apply msim_throw.
Qed.

Lemma msim_finish_step args env tasks sr1 sr2 :
  NoDup (map outcome_id (sr_outcomes sr1)) ->
  map strip (sr_outcomes sr1) ≡ₚ map strip (sr_outcomes sr2) ->
  sr_failure sr1 = None -> sr_failure sr2 = None ->
  msim (finish_step newId world args env tasks sr1) (finish_step newId world args env tasks sr2).
Proof.
  intros Hnd Hp Hf1 Hf2. pose proof (orderOutcomes_strip tasks _ _ Hnd Hp) as Ho.
  unfold finish_step. cbv zeta. rewrite Hf1, Hf2.
  destruct (abort_failure _ _ _ _) as [f|]; [by apply msim_on_failure|].
  apply msim_bind; [apply msim_merge_step, completedWrites_strip, Ho|]. intros applied.
  apply msim_bind; [solve_int|]. intros _.
  apply msim_get. intros rs1 rs2 [_ _ _ _ _ _ (_ & _ & _ & _ & -> & _)].
  apply msim_bind; [apply msim_channel_events|]. intros _.
  rewrite (completedNodes_strip _ _ Ho), (pauseRecordsOf_strip _ _ Ho).
  apply msim_bind.
  { pose proof (completedDispatches_strip _ _ Ho) as Hd.
    apply msim_set_int. unfold int_sim. simpl. intuition congruence. }
  intros _. destruct (match pauseRecordsOf _ with [] => _ | _ => _ end);
    [apply msim_on_running|apply msim_on_suspended].
Qed.

(** ** Any completion order *)

Definition with_order (env : StepEnv) (order : list nat) : StepEnv :=
  mkStepEnv (se_abort_top env) order (se_tasks env) (se_abort_step env) (se_grace_expired env)
            (se_abort_after env).

Lemma all_outcomes_ids args env step view tasks order :
  map (fun s => tk_id (so_task s)) (all_outcomes args env step view tasks order) =
  omap (fun i => tk_id <$> tasks !! i) order.
Proof.
  unfold all_outcomes. induction order as [|i order IH]; csimpl; [done|].
  destruct (tasks !! i) as [t|]; csimpl; [|done]. rewrite IH. f_equal.
  unfold spec_outcome. destruct (body_result _ _ _ _ _) as [r settled].
  destruct (match r with Ok _ => _ | Err _ => _ end) as [ws ds].
  by destruct (classify _ _ _ _) as [[[? ?] ?] ?].
Qed.

Lemma omap_ids_nodup (tasks : list PlannedTask) order :
  NoDup (map tk_id tasks) -> NoDup order -> NoDup (omap (fun i => tk_id <$> tasks !! i) order).
Proof.
  intros Ht Ho. induction Ho as [|i order Hni Ho IH]; csimpl; [apply NoDup_nil_2|].
  destruct (tasks !! i) as [t|] eqn:Ei; csimpl; [|done].
  apply NoDup_cons. split; [|done]. intros (j & Hj & Hid)%list_elem_of_omap.
  destruct (tasks !! j) as [t'|] eqn:Ej; [|done]. simpl in Hid. injection Hid as Hid.
  assert (i = j) as ->; [|done].
  apply (NoDup_lookup (map tk_id tasks) i j (tk_id t)); [done| |].
  - by rewrite list_lookup_map, Ei.
  - by rewrite list_lookup_map, Ej, <-Hid.
Qed.

Lemma concat_perm {A} (l1 l2 : list (list A)) : l1 ≡ₚ l2 -> concat l1 ≡ₚ concat l2.
Proof.
  induction 1 as [|x l1 l2 _ IH|x y l|l1 l2 l3 _ IH1 _ IH2]; simpl; [done|by rewrite IH| |by etrans].
  rewrite !app_assoc. by rewrite (Permutation_app_comm y x).
Qed.

Lemma sum_list_perm l1 l2 : l1 ≡ₚ l2 -> sum_list l1 = sum_list l2.
Proof. induction 1; simpl; lia. Qed.
End Sim.


(** C6: A step is deterministic under every interleaving of its parallel
    tasks.  For a step in which no task fails and whose journal is off, two
    schedules that let the same
    tasks settle in different orders return the same result, leave the same
    store (the persisted checkpoint is equal, byte for byte), the same channel
    state, versions, pauses and completed nodes, the same dispatches up to
    their fresh identifiers, and the same events up to order. *)
Theorem step_ignores_completion_order {S : Type} `{CheckpointStore S} newId (world : nat -> S -> S)
    args env o1 o2 tasks (st : RunState) :
  NoDup (map tk_id tasks) -> NoDup o1 -> o1 ≡ₚ o2 ->
  cfg_journalSteps (ra_cfg args) = false ->
  (forall view, snapshot (ri_state (rs_int st)) = Ok view ->
     no_failure args env (ri_stepNumber (rs_int st)) view tasks o1) ->
  let run o := run_step newId world args (with_order env o) tasks st in
  (run o1).2 = (run o2).2 /\
  rs_store (run o1).1 = rs_store (run o2).1 /\
  rs_events (run o1).1 ≡ₚ rs_events (run o2).1 /\
  int_sim (rs_int (run o1).1) (rs_int (run o2).1).
Proof.
  intros Ht Ho Hp Hj Hno run.
  enough (sim (run o1).1 (run o2).1 /\ (run o1).2 = (run o2).2) as [[] ?] by done.
  assert (exists st0, rs_int st0 = rs_int st /\ forall o, run o =
    match snapshot (ri_state (rs_int st)) with
    | Err e => (st0, Err e)
    | Ok view => bind (executeTasks newId world args (with_order env o) view None tasks o
                         (mkStepRun [] None)) (finish_step newId world args (with_order env o) tasks) st0
    end) as (st0 & Hint & Hrun).
  { unfold run, run_step, bind, get, lift, journal_intent, yield_if. rewrite Hj.
    destruct (includeStepEvents args); eexists; (split; [|intros o; simpl; by destruct (snapshot _)]); done. }
  rewrite !Hrun. destruct (snapshot (ri_state (rs_int st))) as [view|e]; [|by split; [apply sim_refl|]].
  unfold bind.
  specialize (Hno view eq_refl).
  assert (no_failure args env (ri_stepNumber (rs_int st)) view tasks o2) as Hno2.
  { intros i t Hi. apply Hno. by rewrite Hp. }
  assert (forall o, no_failure args env (ri_stepNumber (rs_int st)) view tasks o ->
            exists sr', executeTasks newId world args (with_order env o) view None tasks o (mkStepRun [] None) st0 =
              (ran st0 (total_draws args env (ri_stepNumber (rs_int st)) view tasks o)
                       (all_errors args env (ri_stepNumber (rs_int st)) view tasks o), Ok sr') /\
              map strip (sr_outcomes sr') = all_outcomes args env (ri_stepNumber (rs_int st)) view tasks o /\
              sr_failure sr' = None) as Hex.
  { intros o Ho'. pose proof (executeTasks_spec newId world args (with_order env o) view tasks o
      (mkStepRun [] None) st0) as Hs. simpl in Hs. rewrite Hint in Hs. by apply Hs. }
  destruct (Hex o1 Hno) as (sr1 & -> & Hm1 & Hf1), (Hex o2 Hno2) as (sr2 & -> & Hm2 & Hf2).
  apply (msim_finish_step newId world args (with_order env o1) tasks sr1 sr2); try done.
  - replace (map outcome_id (sr_outcomes sr1))
      with (map (fun s => tk_id (so_task s)) (map strip (sr_outcomes sr1))) by by rewrite map_map.
    rewrite Hm1, all_outcomes_ids. by apply omap_ids_nodup.
  - rewrite Hm1, Hm2. unfold all_outcomes. by apply omap_Permutation.
  - constructor; simpl; try done.
    + f_equal. apply sum_list_perm. by apply omap_Permutation.
    + apply Permutation_app_head, concat_perm. by apply omap_Permutation.
Qed.

(** Two tasks of the worked workflow, settling in either order. *)
Definition pair_tasks : list PlannedTask :=
  [mkTask "x" "fin" SrcEdge None None None false false;
   mkTask "y" "ask" SrcEdge None None None false false].

Lemma step_ignores_completion_order_witness :
  let run o := run_step demo_newId demo_world demo_args (with_order (quiet_step 2) o) pair_tasks
                 demo_start in
  (run [0; 1]).2 = (run [1; 0]).2 /\
  rs_store (run [0; 1]).1 = rs_store (run [1; 0]).1 /\
  rs_events (run [0; 1]).1 ≡ₚ rs_events (run [1; 0]).1 /\
  int_sim (rs_int (run [0; 1]).1) (rs_int (run [1; 0]).1).
Proof.
  refine (step_ignores_completion_order demo_newId demo_world demo_args (quiet_step 2) [0; 1] [1; 0]
            pair_tasks demo_start _ _ _ _ _).
  - apply (bool_decide_unpack _). vm_compute. exact I.
  - apply (bool_decide_unpack _). vm_compute. exact I.
  - apply perm_swap.
  - reflexivity.
  - intros view [= <-] i t Hi Ht.
    destruct i as [|[|i]]; [| |by destruct i]; injection Ht as <-; vm_compute; reflexivity.
Defined.

(** ** The per-node execution policy

    The attempt loop of [runNodeWithPolicy] in
    [packages/workflow/src/internal/engine.ts]: retries with exponential
    backoff, cut short by a pause, an abort or the node timeout. *)

Local Open Scope string_scope.

Section Policy.
Context (node : WorkflowNode) (ctx : WorkflowContext) (task : PlannedTask)
        (retry : option RetryPolicy) (env : TaskEnv).

Notation body := (run_body node ctx task).

(** An attempt that is followed by another one. *)
Definition retried (k : nat) : Prop :=
  exists e, body k = Err e /\ isPauseSignal e = None /\ aborted_at_settle env k = false.

(** Why the loop stops at attempt [n], with [left] attempts unused. *)
Definition stops_at (n left : nat) : Prop :=
  match body n with
  | Ok _ => True
  | Err e => is_Some (isPauseSignal e) \/ is_Some (te_abort env) \/ left = 0
  end.

Lemma invoke_spec left attempt :
  let '(r, n) := invoke node ctx task retry env left attempt in
  attempt <= n <= attempt + left /\ r = body n /\
  (forall k, attempt <= k < n -> retried k) /\ stops_at n (attempt + left - n).
Proof.
  revert attempt. induction left as [|left IH]; intros attempt; cbn [invoke];
    destruct (body attempt) as [v|e] eqn:Hb.
  1, 3: split_and!; [lia|lia|by rewrite Hb|lia|unfold stops_at; by rewrite Hb].
  all: destruct (isPauseSignal e) eqn:Hp;
    [split_and!; [lia|lia|by rewrite Hb|lia|unfold stops_at; rewrite Hb, Hp; left; by eexists]|].
  all: destruct (aborted_at_settle env attempt) eqn:Ha.
  1, 3: split_and!; [lia|lia|by rewrite Hb|lia|]; unfold stops_at; rewrite Hb; right; left;
    unfold aborted_at_settle in Ha; by destruct (te_abort env).
  - split_and!; [lia|lia|by rewrite Hb|lia|]. unfold stops_at. rewrite Hb. right; right. lia.
  - destruct (bool_decide (0 < backoff_of retry attempt)%Z && aborted_after env attempt) eqn:Hc.
    + apply andb_true_iff in Hc as [_ Hc]. split_and!; [lia|lia|by rewrite Hb|lia|].
      unfold stops_at. rewrite Hb. right; left. unfold aborted_after in Hc.
      by destruct (te_abort env).
    + specialize (IH (S attempt)).
      destruct (invoke node ctx task retry env left (S attempt)) as [r n].
      destruct IH as (Hn & Hr & Hk & Hs). split_and!; [lia|lia|done| |].
      * intros k Hk'. destruct (decide (k = attempt)) as [->|]; [by exists e|apply Hk; lia].
      * by replace (attempt + S left - n) with (S attempt + left - n) by lia.
Qed.

(** retries are bounded and never repeat a settled body.  A node's
    result is the body's own result at the settling attempt [n], between
    one and the configured maximum; every earlier attempt failed with a
    plain error (neither a pause nor a success); and unless the step was
    aborted, a failing result means that all attempts were used.  A node
    timeout replaces the result only for a positive finite timeout that
    fires no later than the settling attempt. *)
Theorem retries_are_bounded timeoutMs :
  let '(r, n) := runNodeWithPolicy node ctx task timeoutMs retry env in
  (exists ms k, timeout_active timeoutMs = Some ms /\ te_timeout env = Some k /\ n = k /\
     r = Err (NodeTimeoutError (tk_node task) ms)) \/
  (1 <= n <= maxAttempts_of retry /\ r = body n /\ (forall k, 1 <= k < n -> retried k) /\
   stops_at n (maxAttempts_of retry - n)).
Proof.
  assert (1 <= maxAttempts_of retry) as Hmax by (unfold maxAttempts_of; lia).
  unfold runNodeWithPolicy.
  pose proof (invoke_spec (maxAttempts_of retry - 1) 1) as Hi.
  destruct (invoke _ _ _ _ _ _ 1) as [r n]. destruct Hi as (Hn & Hr & Hk & Hs).
  replace (1 + (maxAttempts_of retry - 1) - n) with (maxAttempts_of retry - n) in Hs by lia.
  assert (1 <= n <= maxAttempts_of retry /\ r = body n /\ (forall k, 1 <= k < n -> retried k) /\
          stops_at n (maxAttempts_of retry - n)) as Hrest by (split_and!; [lia|lia|done..]).
  destruct (timeout_active timeoutMs) as [ms|] eqn:Et; [|by right].
  destruct (te_timeout env) as [k|] eqn:Ek; [|by right].
  case_decide; [left; by exists ms, k|by right].
Qed.
End Policy.

(** A body that fails once and then succeeds, under a policy of three attempts. *)
Example flaky_settles_second :
  let flaky := mkNode (fun _ attempt => if decide (attempt < 2) then PThrow (PlainError "busy")
                                        else PRet (VNum (NFin 1))) None None in
  runNodeWithPolicy flaky (mkCtx "t1" 0 "task_0" [] None)
    (mkTask "task_0" "flaky" SrcEdge None None None false false) None
    (Some (mkRetry (Some 3%Z) None)) quiet_env = (Ok (VNum (NFin 1)), 2).
Proof. vm_compute. reflexivity. Qed.
