(* ===== verification/RetryProps.v ===== *)
(** * Retrying a failed step and recovering a crashed one

    Both paths rebuild the interrupted step from what the store kept: the
    tasks that completed are replayed from their recorded writes, in the order
    the store returns them, and the others run again. *)

From S2P Require Import Prelude JsValue Json Errors Pause Channels CheckpointStore Frontier Engine EngineRun EngineFacts Demo.

Local Open Scope string_scope.

(** ** Recorded writes accumulate *)

(** The writes of a task, as [harvestNodeOutput] numbers them. *)
Definition writes_ok (o : Outcome) : Prop :=
  exists ws, oc_writes o = number_writes (tk_node (oc_task o)) (outcome_id o) ws.

Lemma harvest_writes_ok task out paused s ds rejected :
  writes_ok (mkOutcome task (harvestNodeOutput (tk_node task) (tk_id task) out).1 paused s ds rejected).
Proof.
  unfold writes_ok, harvestNodeOutput, outcome_id. simpl.
  destruct (consume out) as [ws d]. by exists ws.
Qed.

Lemma pending_of_indices ws : map pw_index (pending_of ws) = seq 0 (length ws).
Proof. unfold pending_of. by apply imap_index. Qed.

Definition row_of (w : ChannelWrite) : PendingWrite :=
  mkPending (cw_taskId w) (cw_index w) (cw_channel w) (cw_value w).

(** A task's rows, written under its own identifier. *)
Lemma pending_of_annotate o :
  writes_ok o -> map (annotate (outcome_id o)) (pending_of (oc_writes o)) = map row_of (oc_writes o).
Proof.
  intros [ws ->]. unfold pending_of, number_writes.
  apply list_eq. intros i. rewrite !list_lookup_map, !list_lookup_imap. by destruct (ws !! i).
Qed.

Lemma writes_ok_elem o w :
  writes_ok o -> w ∈ oc_writes o -> cw_taskId w = outcome_id o /\ cw_nodeName w = tk_node (oc_task o).
Proof.
  intros [ws ->] Hw. unfold number_writes in Hw.
  apply elem_of_lookup_imap in Hw as (i & x & -> & _). done.
Qed.

Lemma jset_snoc {A} k (v v' : A) m :
  k ∉ jkeys m -> jset k v (m ++ [(k, v')])%list = (m ++ [(k, v)])%list.
Proof.
  induction m as [|[k0 v0] m IH]; simpl; intros Hk; [by rewrite decide_True|].
  apply not_elem_of_cons in Hk as [? ?]. rewrite decide_False by done. by rewrite IH.
Qed.

Lemma jget_snoc {A} k (v : A) m : k ∉ jkeys m -> jget k (m ++ [(k, v)])%list = Some v.
Proof.
  induction m as [|[k0 v0] m IH]; simpl; intros Hk; [by rewrite decide_True|].
  apply not_elem_of_cons in Hk as [? ?]. rewrite decide_False by done. by apply IH.
Qed.

Lemma group_one_task id ws out :
  id ∉ jkeys out -> Forall (fun w => cw_taskId w = id) ws ->
  foldl (fun out w => jset (cw_taskId w) (default [] (jget (cw_taskId w) out) ++ [w])%list out) out ws =
  match ws with [] => out | _ => (out ++ [(id, ws)])%list end.
Proof.
  intros Hid. induction ws as [|w ws IH] using rev_ind; intros Hall; [done|].
  apply Forall_app in Hall as [Hall Hw]. rewrite Forall_singleton in Hw.
  rewrite foldl_app, IH by done. simpl. rewrite Hw. destruct ws as [|w0 ws].
  - rewrite (proj2 (jget_None id out)) by done. simpl. by rewrite jset_fresh.
  - rewrite jget_snoc by done. simpl. by rewrite jset_snoc.
Qed.

Definition nonempty_writes (o : Outcome) : bool := match oc_writes o with [] => false | _ => true end.

Lemma groupWritesByTask_outcomes os :
  NoDup (map outcome_id os) -> Forall writes_ok os ->
  groupWritesByTask (flat_map oc_writes os) =
  map (fun o => (outcome_id o, oc_writes o)) (List.filter nonempty_writes os).
Proof.
  unfold groupWritesByTask. induction os as [|o os IH] using rev_ind; intros Hnd Hok; [done|].
  rewrite map_app in Hnd. apply NoDup_app in Hnd as (Hnd & Hdis & _).
  apply Forall_app in Hok as [Hok Ho]. rewrite Forall_singleton in Ho.
  rewrite flat_map_app, foldl_app, IH by done. simpl. rewrite app_nil_r.
  rewrite (group_one_task (outcome_id o)).
  - rewrite List.filter_app, map_app. cbn [List.filter].
    assert (nonempty_writes o = match oc_writes o with [] => false | _ => true end) as -> by done.
    destruct (oc_writes o) eqn:E; cbn [map]; [by rewrite app_nil_r|by rewrite E].
  - intros (p & Hp & (o' & -> & Hin%list_elem_of_In)%list_elem_of_fmap)%list_elem_of_fmap.
    apply filter_In in Hin as [Hin%list_elem_of_In _]. simpl in Hp.
    apply (Hdis (outcome_id o)); [|by left]. rewrite Hp. apply list_elem_of_fmap. by exists o'.
  - rewrite Forall_forall. intros w Hw. by apply writes_ok_elem.
Qed.

(** What the store holds after one [putWrites] per group. *)
Definition put_groups (groups : list (string * list PendingWrite)) (t : CheckpointTuple) :
    CheckpointTuple :=
  foldl (fun t g => add_writes g.1 g.2 t) t groups.

Lemma put_groups_rows groups t :
  NoDup (map fst groups) -> ct_pendingWrites t = [] ->
  Forall (fun g => NoDup (map pw_index g.2)) groups ->
  ct_pendingWrites (put_groups groups t) = flat_map (fun g => map (annotate g.1) g.2) groups.
Proof.
  unfold put_groups. induction groups as [|g groups IH] using rev_ind; intros Hnd Hnil Hidx; [done|].
  rewrite map_app in Hnd. apply NoDup_app in Hnd as (Hnd & Hdis & _).
  apply Forall_app in Hidx as [Hidx Hg]. rewrite Forall_singleton in Hg.
  rewrite foldl_app. simpl. rewrite IH by done.
  rewrite upsert_fresh; [by rewrite flat_map_app; simpl; rewrite app_nil_r| |done].
  rewrite Forall_forall. intros x Hx%list_elem_of_In.
  apply in_flat_map in Hx as (g' & Hg'%list_elem_of_In & (w & <- & _)%in_map_iff). simpl.
  intros Heq. apply (Hdis g'.1); [apply list_elem_of_fmap; by exists g'|rewrite Heq; by left].
Qed.

(** The rows of a failed step's completed tasks. *)
Lemma failed_rows os t :
  NoDup (map outcome_id os) -> Forall writes_ok os -> ct_pendingWrites t = [] ->
  ct_pendingWrites
    (put_groups (map (fun g => (g.1, pending_of g.2)) (groupWritesByTask (flat_map oc_writes os))) t) =
  map row_of (flat_map oc_writes os).
Proof.
  intros Hnd Hok Hnil. rewrite groupWritesByTask_outcomes by done. rewrite map_map. simpl.
  assert (NoDup (map outcome_id (List.filter nonempty_writes os))) as Hnd'.
  { clear -Hnd. induction os as [|o os IH]; simpl; [apply NoDup_nil_2|].
    apply NoDup_cons in Hnd as [Hni Hnd]. destruct (nonempty_writes o); [|by apply IH].
    apply NoDup_cons. split; [|by apply IH].
    intros (o' & Heq & Hin%list_elem_of_In)%list_elem_of_fmap. apply filter_In in Hin as [Hin _].
    apply Hni, list_elem_of_fmap. exists o'. split; [done|]. by apply list_elem_of_In. }
  rewrite put_groups_rows; [|by rewrite map_map|done|].
  - clear Hnd Hnd'. induction Hok as [|o os Ho _ IH]; simpl; [done|].
    rewrite map_app. unfold nonempty_writes at 1. destruct (oc_writes o) eqn:E; simpl; [done|].
    rewrite IH, E. rewrite <-E at 1. rewrite pending_of_annotate, E by done. done.
  - apply Forall_forall. intros g (o & -> & _)%list_elem_of_fmap. simpl.
    rewrite pending_of_indices. apply NoDup_seq.
Qed.

(** ** The failed step, seen by a retry *)

Lemma jget_index_map {A B} (f : A -> string) (g : A -> B) (l : list A) k :
  jget k (foldl (fun m x => jset (f x) (g x) m) [] l) = g <$> jget k (index_by f l).
Proof.
  induction l as [|x l IH] using rev_ind; [done|].
  rewrite index_by_snoc, foldl_app. cbn [foldl]. rewrite !jget_jset, IH. by case_decide.
Qed.

Section FailedStep.
Context (tasks : list PlannedTask) (outcomes : list Outcome).
Context (tasks_nodup : NoDup (map tk_id tasks)) (outcomes_nodup : NoDup (map outcome_id outcomes)).
Context (outcomes_tasks : Forall (fun o => oc_task o ∈ tasks /\ writes_ok o) outcomes).

(** The status recorded for a planned task: failed when it never settled. *)
Definition task_outcome (t : PlannedTask) : option Outcome :=
  jget (tk_id t) (index_by outcome_id outcomes).
Definition task_done (t : PlannedTask) : bool :=
  bool_decide (oc_status <$> task_outcome t = Some TCompleted).

Lemma task_outcome_Some t o :
  t ∈ tasks -> task_outcome t = Some o -> o ∈ outcomes /\ oc_task o = t /\ writes_ok o.
Proof using All.
  intros Ht Ho. apply jget_index_by in Ho as [Hin Hid]; [|done].
  rewrite Forall_forall in outcomes_tasks. destruct (outcomes_tasks o Hin) as [Ho Hw].
  split_and!; [done| |done]. unfold outcome_id in Hid.
  clear -Ht Ho Hid tasks_nodup.
  apply list_elem_of_lookup in Ht as [i Hi], Ho as [j Hj].
  assert (i = j) as ->; [|by simplify_eq].
  apply (NoDup_lookup _ i j (tk_id t) tasks_nodup); rewrite list_lookup_map; [by rewrite Hi|].
  rewrite Hj. simpl. by rewrite Hid.
Qed.

Lemma completed_nodes_of ts :
  ts ⊆ tasks ->
  map (fun o => tk_node (oc_task o))
      (List.filter is_completed (omap task_outcome ts)) =
  map tk_node (List.filter task_done ts).
Proof using All.
  induction ts as [|t ts IH]; intros Hsub; csimpl; [done|].
  assert (forall o, task_outcome t = Some o -> is_completed o = task_done t) as Hdone.
  { intros o Ho. unfold is_completed, task_done. rewrite Ho. apply bool_decide_ext. simpl.
    split; congruence. }
  destruct (task_outcome t) as [o|] eqn:Eo; cbn [List.filter].
  - destruct (task_outcome_Some t o) as (_ & Hot & _); [set_solver|done|].
    rewrite (Hdone o eq_refl). destruct (task_done t); cbn [map]; rewrite IH by set_solver; [|done].
    by rewrite Hot.
  - assert (task_done t = false) as -> by (unfold task_done; rewrite Eo; done). apply IH. set_solver.
Qed.

Lemma ordered_facts os :
  os = List.filter is_completed (orderOutcomes tasks outcomes) ->
  NoDup (map outcome_id os) /\ Forall writes_ok os /\
  Forall (fun o => oc_task o ∈ tasks /\ task_done (oc_task o) = true) os.
Proof using All.
  intros ->. rewrite orderOutcomes_index. fold task_outcome.
  assert (forall ts, ts ⊆ tasks -> NoDup (map tk_id ts) ->
    let os := List.filter is_completed (omap task_outcome ts) in
    NoDup (map outcome_id os) /\ Forall writes_ok os /\
    Forall (fun o => oc_task o ∈ ts /\ task_done (oc_task o) = true) os) as Hgen.
  { induction ts as [|t ts IH]; intros Hsub Hnd; csimpl; [split_and!; constructor|].
    apply NoDup_cons in Hnd as [Hni Hnd]. destruct IH as (I1 & I2 & I3); [set_solver|done|].
    assert (Forall (fun o => oc_task o ∈ t :: ts /\ task_done (oc_task o) = true)
              (List.filter is_completed (omap task_outcome ts))) as I3'.
    { eapply Forall_impl; [exact I3|]. simpl. intros o [Ho Hd]. split; [by right|done]. }
    destruct (task_outcome t) as [o|] eqn:Eo; [|done]. simpl.
    destruct (is_completed o) eqn:Ec; [|done]. simpl.
    destruct (task_outcome_Some t o) as (_ & Hot & Hw); [set_solver|done|].
    split_and!.
    - apply NoDup_cons. split; [|done]. intros (o' & Heq & Hin)%list_elem_of_fmap.
      rewrite Forall_forall in I3. destruct (I3 o' Hin) as [Hin' _].
      apply Hni, list_elem_of_fmap. exists (oc_task o'). unfold outcome_id in Heq.
      rewrite <-Heq, Hot. done.
    - by constructor.
    - constructor; [|done]. rewrite Hot. split; [by left|]. unfold task_done. rewrite Eo.
      unfold is_completed in Ec. apply bool_decide_eq_true in Ec. simpl. by rewrite Ec, bool_decide_eq_true_2. }
  by apply Hgen.
Qed.
End FailedStep.

Lemma filter_map_ext {A B} (f : B -> bool) (g : A -> B) (h : A -> bool) l :
  (forall x, f (g x) = h x) -> List.filter f (map g l) = map g (List.filter h l).
Proof.
  intros Hf. induction l as [|x l IH]; simpl; [done|]. rewrite Hf. destruct (h x); simpl; by rewrite IH.
Qed.

Lemma filter_true {A} (f : A -> bool) l : Forall (fun x => f x = true) l -> List.filter f l = l.
Proof. induction 1 as [|x l Hx _ IH]; simpl; [done|]. by rewrite Hx, IH. Qed.

(** The step task recorded for a planned task, after the JSON round trip. *)
Definition step_task (outcomes : list Outcome) (t : PlannedTask) : StepTask :=
  mkStepTask (tk_id t) (tk_node t) (default TFailed (oc_status <$> task_outcome outcomes t))
             (norm_args (tk_args t)).

Lemma failureFrontier_tasks cfg tasks outcomes ps :
  fe_stepTasks (fnorm (failureFrontier cfg tasks outcomes ps)) = Some (map (step_task outcomes) tasks).
Proof.
  simpl. rewrite map_map. f_equal. apply map_ext. intros t. simpl. unfold step_task. f_equal.
  by rewrite status_index.
Qed.

Lemma step_task_done outcomes t :
  bool_decide (st_status (step_task outcomes t) = TCompleted) = task_done outcomes t.
Proof.
  unfold task_done. simpl. apply bool_decide_ext. destruct (task_outcome outcomes t); simpl; split; congruence.
Qed.

Lemma replay_writes outcomes tasks ws :
  NoDup (map tk_id tasks) ->
  Forall (fun w => exists t, t ∈ tasks /\ task_done outcomes t = true /\
            cw_taskId w = tk_id t /\ cw_nodeName w = tk_node t) ws ->
  let stepTasks := map (step_task outcomes) tasks in
  let nameByTask := foldl (fun m t => jset (st_taskId t) (st_nodeName t) m) [] stepTasks in
  map (fun w => mkWrite (default "<replay>" (jget (pw_taskId w) nameByTask)) (pw_taskId w)
                  (pw_index w) (pw_channel w) (pw_value w))
    (List.filter (fun w => bool_decide (pw_taskId w ∈ map st_taskId
        (List.filter (fun t => bool_decide (st_status t = TCompleted)) stepTasks)))
      (map row_of ws)) = ws.
Proof.
  intros Hnd Hws stepTasks nameByTask. unfold stepTasks.
  rewrite (filter_map_ext _ _ (task_done outcomes)) by apply step_task_done.
  rewrite filter_true.
  - rewrite map_map. rewrite <-(map_id ws) at 2. apply map_ext_in. intros w Hw%list_elem_of_In.
    rewrite Forall_forall in Hws. destruct (Hws w Hw) as (t & Ht & _ & Hid & Hn).
    unfold nameByTask. rewrite jget_index_map. cbn [row_of pw_taskId].
    assert (jget (cw_taskId w) (index_by st_taskId stepTasks) = Some (step_task outcomes t)) as ->.
    { apply jget_index_by; [unfold stepTasks; by rewrite map_map|]. split; [|done].
      apply list_elem_of_fmap. by exists t. }
    simpl. rewrite <-Hn. by destruct w.
  - rewrite Forall_forall. intros r (w & -> & Hw)%list_elem_of_fmap. apply bool_decide_eq_true.
    rewrite Forall_forall in Hws. destruct (Hws w Hw) as (t & Ht & Hd & Hid & Hn).
    rewrite map_map. simpl. rewrite Hid. apply list_elem_of_fmap. exists t. split; [done|].
    apply list_elem_of_In, filter_In. split; [by apply list_elem_of_In|done].
Qed.

Lemma rerun_tasks (st : list StepTask) (mk : nat -> StepTask -> PlannedTask) :
  (forall i t, tk_node (mk i t) = st_nodeName t /\ tk_args (mk i t) = st_dispatchArgs t) ->
  map (fun t => (tk_node t, tk_args t)) (imap mk st) =
  map (fun t => (st_nodeName t, st_dispatchArgs t)) st.
Proof.
  intros Hmk. revert mk Hmk. induction st as [|t st IH]; intros mk Hmk; simpl; [done|].
  f_equal; [by destruct (Hmk 0 t) as [-> ->]|]. apply (IH (mk ∘ S)). intros i x. apply (Hmk (S i) x).
Qed.

(** The rows of some groups of a failed step, whatever order they come in. *)
Lemma group_rows os groups :
  NoDup (map outcome_id os) -> Forall writes_ok os ->
  groups ⊆ groupWritesByTask (flat_map oc_writes os) ->
  flat_map (fun g => map (annotate g.1) (pending_of g.2)) groups = map row_of (flat_map snd groups) /\
  Forall (fun w => exists o, o ∈ os /\ w ∈ oc_writes o) (flat_map snd groups).
Proof.
  intros Hnd Hok. rewrite groupWritesByTask_outcomes by done. induction groups as [|g groups IH]; intros Hsub; simpl; [done|].
  assert (g ∈ map (fun o => (outcome_id o, oc_writes o)) (List.filter nonempty_writes os)) as Hg by (apply Hsub; by left).
  destruct IH as [-> HF]; [intros x Hx; apply Hsub; by right|].
  apply list_elem_of_fmap in Hg as (o & -> & Ho%list_elem_of_In). apply filter_In in Ho as [Ho%list_elem_of_In _].
  rewrite Forall_forall in Hok. simpl. rewrite map_app, pending_of_annotate by by apply Hok. split; [done|].
  apply Forall_app. split; [|done]. apply Forall_forall. intros w Hw. by exists o.
Qed.

(** C7: Retrying a failed step loses no finished work. From the checkpoint a
    failed step leaves (its frontier in the tags, one group of pending writes per
    completed task, the groups in whatever order the store returns them, the
    writes of a group as written), a retry replays exactly the writes of the
    completed tasks, with their node names, each task's in order and the tasks in
    the store's order; walks on from exactly the completed nodes; and re-runs
    exactly the other tasks, in planned order and with their arguments. A store
    that keeps the rows as they were put (the in-memory one) returns the groups,
    and so replays the writes, in planned order. *)
Theorem retry_replays_completed_tasks newId t cfg opts tasks outcomes tuple groups step ids :
  let ordered := orderOutcomes tasks outcomes in
  let f := failureFrontier cfg tasks outcomes (pauseRecordsOf ordered) in
  let planned := groupWritesByTask (completedWrites ordered) in
  let rows := flat_map (fun g => map (annotate g.1) (pending_of g.2)) in
  tasks <> [] -> NoDup (map tk_id tasks) -> NoDup (map outcome_id outcomes) ->
  Forall (fun o => oc_task o ∈ tasks /\ writes_ok o) outcomes ->
  frontier_ok f = true -> md_tags (ct_metadata tuple) = Some (encodeFrontier f) ->
  ct_status tuple ∈ [Failed; Aborted] ->
  groups ≡ₚ planned -> ct_pendingWrites tuple = rows groups ->
  (exists r ids',
    restore newId t cfg opts tuple (readFrontier (ct_metadata tuple)) step ids = Ok (r, ids') /\
    rd_replay r = flat_map snd groups /\
    rd_completed r = map tk_node (List.filter (task_done outcomes) tasks) /\
    map (fun t => (tk_node t, tk_args t)) (rd_tasks r) =
      map (fun t => (tk_node t, norm_args (tk_args t)))
          (List.filter (fun t => negb (task_done outcomes t)) tasks)) /\
  flat_map snd planned = completedWrites ordered /\
  (forall empty, ct_pendingWrites empty = [] ->
     ct_pendingWrites (put_groups (map (fun g => (g.1, pending_of g.2)) planned) empty) = rows planned).
Proof.
  intros ordered f planned rows Hne Ht Ho Hall Hf Htags Hst Hperm Hpw.
  destruct (ordered_facts tasks outcomes Ht Ho Hall _ eq_refl) as (Hnd & Hok & Hin).
  set (os := List.filter is_completed (orderOutcomes tasks outcomes)) in *.
  destruct (group_rows os groups Hnd Hok) as [Hrows Hfrom]; [intros g; by rewrite Hperm|].
  destruct (group_rows os planned Hnd Hok) as [Hrows' _]; [done|].
  assert (flat_map snd planned = completedWrites ordered) as Eall.
  { change (flat_map snd (groupWritesByTask (flat_map oc_writes os)) = flat_map oc_writes os).
    rewrite groupWritesByTask_outcomes by done. generalize os. clear. intros os.
    induction os as [|o os IH]; simpl; [done|]. unfold nonempty_writes at 1. destruct (oc_writes o) eqn:E; simpl; [done|].
    by rewrite IH, E. }
  split_and!; [|done|intros empty Hnil; unfold rows; rewrite Hrows', Eall; by apply failed_rows].
  unfold restore. cbv zeta. unfold ct_status in *.
  rewrite bool_decide_eq_true_2 by done. rewrite (readFrontier_encode f) by done.
  assert (fe_stepTasks (fnorm f) = Some (map (step_task outcomes) tasks)) as Hsts
    by apply failureFrontier_tasks.
  rewrite Hsts. cbn [default from_option]. unfold id at 1.
  destruct (map (step_task outcomes) tasks) as [|st0 sts] eqn:Ests.
  { by destruct tasks. }
  rewrite <-Ests. eexists _, _. split; [reflexivity|]. unfold restore_failed. cbn [rd_replay rd_completed rd_tasks].
  split_and!.
  - rewrite Hpw. unfold rows. rewrite Hrows. apply replay_writes; [done|]. eapply Forall_impl; [exact Hfrom|].
    intros w (o & Ho' & Hw). rewrite Forall_forall in Hin, Hok. destruct (Hin o Ho') as [Hot Hd].
    destruct (writes_ok_elem o w (Hok o Ho') Hw) as [Hid Hn]. by exists (oc_task o).
  - rewrite (filter_map_ext _ _ (task_done outcomes)) by apply step_task_done. by rewrite map_map.
  - rewrite rerun_tasks.
    + rewrite (filter_map_ext _ _ (fun t => negb (task_done outcomes t))), map_map; [done|].
      intros x. by rewrite step_task_done.
    + intros i x. by destruct (decide _); [destruct (jget _ _)|].
Qed.

(** A step with two finished tasks and a failed one. *)
Definition retry_z : PlannedTask := mkTask "z" "fin" SrcEdge None None None false false.
Definition retry_x : PlannedTask := mkTask "x" "fin" SrcDispatch None None None false false.
Definition retry_y : PlannedTask := mkTask "y" "ask" SrcDispatch (Some (VStr "arg")) None None false false.

Definition retry_tasks : list PlannedTask := [retry_z; retry_x; retry_y].

Definition retry_outcomes : list Outcome :=
  [mkOutcome retry_y [] None TFailed [] false;
   mkOutcome retry_x [mkWrite "fin" "x" 0 "log" (VArr [VStr "x"])] None TCompleted [] false;
   mkOutcome retry_z [mkWrite "fin" "z" 0 "log" (VArr [VStr "z"]); mkWrite "fin" "z" 1 "n" (VNum (NFin 1))] None
     TCompleted [] false].

Definition retry_frontier : FrontierEnvelope :=
  failureFrontier demo_cfg retry_tasks retry_outcomes
    (pauseRecordsOf (orderOutcomes retry_tasks retry_outcomes)).

(** The groups as an adapter that sorts the rows by task returns them. *)
Definition retry_sorted : list (string * list ChannelWrite) :=
  [("x", [mkWrite "fin" "x" 0 "log" (VArr [VStr "x"])]);
   ("z", [mkWrite "fin" "z" 0 "log" (VArr [VStr "z"]); mkWrite "fin" "z" 1 "n" (VNum (NFin 1))])].

Definition retry_tuple : CheckpointTuple :=
  mkTuple (mkCheckpoint "cp" "t1" "workflow/demo" None VNull [] 4 0)
    (mkMetadata Sync Failed (Some "ask") (Some (encodeFrontier retry_frontier)) None)
    (flat_map (fun g => map (annotate g.1) (pending_of g.2)) retry_sorted).

Lemma retry_outcomes_ok :
  Forall (fun o => oc_task o ∈ retry_tasks /\ writes_ok o) retry_outcomes.
Proof.
  constructor; [split; [do 2 right; by left|by exists []]|].
  constructor; [split; [right; by left|by exists [("log", VArr [VStr "x"])]]|].
  constructor; [split; [by left|by exists [("log", VArr [VStr "z"]); ("n", VNum (NFin 1))]]|constructor].
Qed.

Lemma retry_replays_completed_tasks_witness :
  let ordered := orderOutcomes retry_tasks retry_outcomes in
  exists r ids',
    restore demo_newId "t1" demo_cfg demo_resume retry_tuple (readFrontier (ct_metadata retry_tuple)) 5 9 =
      Ok (r, ids') /\
    rd_replay r = flat_map snd retry_sorted /\
    rd_completed r = map tk_node (List.filter (task_done retry_outcomes) retry_tasks) /\
    map (fun t => (tk_node t, tk_args t)) (rd_tasks r) =
      map (fun t => (tk_node t, norm_args (tk_args t)))
          (List.filter (fun t => negb (task_done retry_outcomes t)) retry_tasks).
Proof.
  refine (proj1 (retry_replays_completed_tasks demo_newId "t1" demo_cfg demo_resume retry_tasks retry_outcomes
            retry_tuple retry_sorted 5 9 _ _ _ _ _ _ _ _ _)).
  - discriminate.
  - apply (bool_decide_unpack _). vm_compute. exact I.
  - apply (bool_decide_unpack _). vm_compute. exact I.
  - exact retry_outcomes_ok.
  - vm_compute. reflexivity.
  - reflexivity.
  - constructor.
  - vm_compute. apply Permutation_swap.
  - reflexivity.
Defined.

(** Planned order would replay z before x: on an adapter that sorts the rows by
    task the retry folds the same writes in another order. *)
Example sorted_rows_replay_out_of_order :
  map cw_taskId (flat_map snd retry_sorted) = ["x"; "z"; "z"] /\
  map cw_taskId (completedWrites (orderOutcomes retry_tasks retry_outcomes)) = ["z"; "z"; "x"].
Proof. vm_compute. split; reflexivity. Qed.

(** ** The journal of an interrupted step *)

Definition read_back (t : PlannedTask) : PlannedTask :=
  mkTask (tk_id t) (tk_node t) (if decide (tk_source t = SrcResume) then SrcResume else SrcDispatch)
         (tk_args t) (tk_resumeValues t) (tk_resumeMeta t) (tk_staticBefore t) false.

Lemma read_meta_of o : read_meta (meta_value o) = o.
Proof. by destruct o as [[[] []]|]. Qed.

Lemma read_intent_task_value t :
  tk_args t <> Some VUndef -> read_intent_task (intent_task_value t) = Some (read_back t).
Proof.
  intros Ha. unfold read_intent_task, intent_task_value, getp. cbn [entries]. fields.
  cbn [default from_option id]. unfold read_back. f_equal. f_equal.
  - by destruct (tk_source t).
  - destruct (tk_args t) as [[]|]; done.
  - by destruct (tk_resumeValues t).
  - destruct (tk_resumeMeta t) as [ms|]; [|done]. simpl. f_equal. rewrite map_map.
    rewrite <-(map_id ms) at 2. apply map_ext. apply read_meta_of.
  - by destruct (tk_staticBefore t).
Qed.

(** The rows a completed task journals. *)
Definition journal_rows (o : Outcome) : list PendingWrite :=
  (map row_of (oc_writes o) ++
   [mkPending (outcome_id o) (length (oc_writes o)) TASK_DONE_CHANNEL (VBool true)])%list.

Definition journal_group (o : Outcome) : string * list PendingWrite :=
  (outcome_id o, done_rows (outcome_id o) (oc_writes o)).

Lemma journal_rows_of o :
  writes_ok o -> map (annotate (outcome_id o)) (done_rows (outcome_id o) (oc_writes o)) = journal_rows o.
Proof.
  intros [ws Hws]. unfold done_rows, journal_rows. rewrite map_app. f_equal.
  rewrite Hws. unfold number_writes. apply list_eq. intros i.
  rewrite !list_lookup_map, !list_lookup_imap. by destruct (ws !! i).
Qed.

Lemma done_rows_indices id ws : NoDup (map pw_index (done_rows id ws)).
Proof.
  unfold done_rows. rewrite map_app, (imap_index _ _ 0) by done. simpl.
  apply NoDup_app. split_and!; [apply NoDup_seq| |apply NoDup_singleton].
  intros i Hi%elem_of_seq ?%list_elem_of_singleton. lia.
Qed.

(** What a task of a journal may look like. *)
Definition journal_ok (o : Outcome) : Prop :=
  writes_ok o /\ outcome_id o <> STEP_INTENT_TASK_ID /\
  Forall (fun w => cw_channel w <> TASK_DONE_CHANNEL) (oc_writes o).

Definition journal_tuple (step : nat) (tasks : list PlannedTask) (done : list Outcome)
    (tuple0 : CheckpointTuple) : CheckpointTuple :=
  put_groups ((STEP_INTENT_TASK_ID, [intent_row step tasks]) :: map journal_group done) tuple0.

Lemma journal_tuple_rows step tasks done tuple0 :
  NoDup (map outcome_id done) -> Forall journal_ok done -> ct_pendingWrites tuple0 = [] ->
  ct_pendingWrites (journal_tuple step tasks done tuple0) =
    intent_row step tasks :: flat_map journal_rows done.
Proof.
  intros Hnd Hok Hnil. unfold journal_tuple. rewrite put_groups_rows; [|..|].
  - simpl. f_equal. clear Hnd. induction Hok as [|o done (Hw & _) _ IH]; simpl; [done|].
    by rewrite IH, journal_rows_of.
  - cbn [map fst]. rewrite map_map. apply NoDup_cons. split; [|exact Hnd].
    intros (o & Heq & Hin)%list_elem_of_fmap. rewrite Forall_forall in Hok.
    by destruct (Hok o Hin) as (_ & Hne & _).
  - done.
  - constructor; [simpl; apply NoDup_singleton|]. rewrite Forall_forall.
    intros g (o & -> & _)%list_elem_of_fmap. apply done_rows_indices.
Qed.

Lemma journal_done_ids done :
  Forall journal_ok done ->
  map pw_taskId (List.filter (fun r => bool_decide (pw_channel r = TASK_DONE_CHANNEL))
                   (flat_map journal_rows done)) = map outcome_id done.
Proof.
  induction 1 as [|o done (_ & _ & Hch) _ IH]; simpl; [done|].
  rewrite List.filter_app, map_app, IH. unfold journal_rows. rewrite List.filter_app, map_app. simpl.
  replace (List.filter _ (map row_of (oc_writes o))) with (@nil PendingWrite); [done|].
  induction Hch as [|w ws Hw _ IHw]; simpl; [done|]. by rewrite bool_decide_eq_false_2.
Qed.

Lemma journal_task_rows done o :
  NoDup (map outcome_id done) -> Forall journal_ok done -> o ∈ done ->
  List.filter (fun r => bool_decide (pw_taskId r = outcome_id o) &&
                        negb (bool_decide (pw_channel r = TASK_DONE_CHANNEL)))
    (flat_map journal_rows done) = map row_of (oc_writes o).
Proof.
  intros Hnd Hok Hin.
  assert (forall o', journal_ok o' ->
    List.filter (fun r => bool_decide (pw_taskId r = outcome_id o) &&
                          negb (bool_decide (pw_channel r = TASK_DONE_CHANNEL))) (journal_rows o') =
    if decide (outcome_id o' = outcome_id o) then map row_of (oc_writes o') else []) as Hrow.
  { intros o' (Hw & _ & Hch). unfold journal_rows. rewrite List.filter_app. simpl.
    rewrite andb_false_r, app_nil_r. assert (Forall (fun w => cw_taskId w = outcome_id o') (oc_writes o')) as Hid.
    { rewrite Forall_forall. intros w Hw'. by apply writes_ok_elem. }
    clear Hw. case_decide as Hd; (induction Hch as [|w ws Hc _ IH]; [done|]; apply Forall_cons in Hid as [Hid1 Hid2];
      cbn [map List.filter row_of pw_taskId pw_channel]; rewrite Hid1).
    - rewrite bool_decide_eq_true_2, bool_decide_eq_false_2 by done. cbn. by rewrite IH.
    - rewrite bool_decide_eq_false_2 by done. cbn. by apply IH. }
  induction done as [|o' done IH]; [by apply elem_of_nil in Hin|].
  apply NoDup_cons in Hnd as [Hni Hnd]. apply Forall_cons in Hok as [Ho' Hok]. simpl.
  rewrite List.filter_app, Hrow by done.
  destruct (decide (outcome_id o' = outcome_id o)) as [Hid|Hid].
  - assert (forall o2, o2 ∈ done -> outcome_id o2 <> outcome_id o) as Hno.
    { intros o2 H2 Heq. apply Hni. rewrite Hid, <-Heq. apply list_elem_of_fmap. by exists o2. }
    apply elem_of_cons in Hin as [->|Hin]; [|by destruct (Hno o Hin)].
    replace (List.filter _ (flat_map journal_rows done)) with (@nil PendingWrite); [by rewrite app_nil_r|].
    clear -Hok Hrow Hno. induction Hok as [|o2 done H2 Hok IH]; [done|]. simpl.
    rewrite List.filter_app, Hrow, decide_False by (try apply Hno; done || by left). simpl.
    apply IH. intros o3 H3. apply Hno. by right.
  - apply IH; [done|done|]. apply elem_of_cons in Hin as [->|?]; done.
Qed.

Definition task_view (t : PlannedTask) :=
  (tk_node t, tk_args t, tk_resumeValues t, tk_resumeMeta t, tk_staticBefore t).

Lemma readStepJournal_intent newId tasks rest step ids :
  tasks <> [] -> Forall (fun t => tk_args t <> Some VUndef) tasks ->
  let isDone := fun t => bool_decide (tk_id t ∈ map pw_taskId
    (List.filter (fun r => bool_decide (pw_channel r = TASK_DONE_CHANNEL)) rest)) in
  readStepJournal newId (intent_row step tasks :: rest) step ids =
  Some (mkJournal
    (flat_map (fun t => if isDone t then
       map (fun r => mkWrite (tk_node t) (pw_taskId r) (pw_index r) (pw_channel r) (pw_value r))
         (List.filter (fun r => bool_decide (pw_taskId r = tk_id t) &&
                                negb (bool_decide (pw_channel r = TASK_DONE_CHANNEL)))
            (intent_row step tasks :: rest)) else []) (map read_back tasks))
    (map tk_node (List.filter isDone (map read_back tasks)))
    (imap (with_fresh_id newId ids) (List.filter (fun t => negb (isDone t)) (map read_back tasks)))).
Proof.
  intros Hne Hargs isDone. unfold readStepJournal. cbn [List.find].
  change (bool_decide (pw_taskId (intent_row step tasks) = STEP_INTENT_TASK_ID) &&
          bool_decide (pw_channel (intent_row step tasks) = STEP_INTENT_CHANNEL)) with true. cbn iota.
  cbv zeta. rewrite !(bool_decide_eq_true_2 (getp _ _ = _)) by done. cbn [andb].
  change (default [] (arr_of (getp "tasks" (pw_value (intent_row step tasks)))))
    with (map intent_task_value tasks).
  assert (omap read_intent_task (map intent_task_value tasks) = map read_back tasks) as ->.
  { apply omap_map_Some. intros t Hin. apply read_intent_task_value.
    rewrite Forall_forall in Hargs. by apply Hargs. }
  rewrite decide_False by by destruct tasks. done.
Qed.

(** The tasks that finished, by identifier. *)
Lemma finished_iff finished t :
  NoDup (map outcome_id finished) ->
  bool_decide (tk_id t ∈ map outcome_id finished) =
  bool_decide (is_Some (task_outcome finished t)).
Proof.
  intros Hnd. apply bool_decide_ext. split.
  - intros (o & Hid & Ho')%list_elem_of_fmap. exists o. by apply jget_index_by.
  - intros [o Ho']. apply jget_index_by in Ho' as [Hin' <-]; [|done]. apply list_elem_of_fmap. by exists o.
Qed.

Lemma flat_map_omap {A B C} (f : A -> list B) (g : A -> option C) (h : C -> list B) l :
  (forall x, x ∈ l -> f x = match g x with Some y => h y | None => [] end) ->
  flat_map f l = flat_map h (omap g l).
Proof.
  induction l as [|x l IH]; intros Hf; csimpl; [done|]. rewrite Hf by by left.
  rewrite IH by (intros; apply Hf; by right). by destruct (g x).
Qed.

Lemma map_filter_omap {A B C} (f : A -> B) (p : A -> bool) (g : A -> option C) (h : C -> B) l :
  (forall x, x ∈ l -> p x = bool_decide (is_Some (g x)) /\ forall y, g x = Some y -> h y = f x) ->
  map f (List.filter p l) = map h (omap g l).
Proof.
  induction l as [|x l IH]; intros Hf; csimpl; [done|]. destruct (Hf x) as [-> Hh]; [by left|].
  specialize (IH ltac:(intros; apply Hf; by right)).
  destruct (g x) as [y|]; csimpl; [by rewrite IH, (Hh y)|done].
Qed.

Lemma task_view_fresh newId ids l : map task_view (imap (with_fresh_id newId ids) l) = map task_view l.
Proof.
  apply list_eq. intros i. rewrite !list_lookup_map, list_lookup_imap. by destruct (l !! i).
Qed.

(** Crash recovery from the step journal does not depend on the order in
    which the tasks had completed.  With the intent record and the rows of any
    set of completed tasks on the parent checkpoint, written in any order, the
    journal of that step replays exactly their writes in planned order,
    reports their nodes as completed, and re-runs every other task with its
    arguments and delivered answers. *)
Theorem journal_recovers_in_planned_order newId tasks finished tuple0 step ids :
  tasks <> [] -> NoDup (map tk_id tasks) -> NoDup (map outcome_id finished) ->
  Forall (fun t => tk_args t <> Some VUndef) tasks ->
  Forall (fun o => oc_task o ∈ tasks /\ journal_ok o) finished ->
  ct_pendingWrites tuple0 = [] ->
  let rows := ct_pendingWrites (journal_tuple step tasks finished tuple0) in
  exists j, readStepJournal newId rows step ids = Some j /\
    sj_replayWrites j = flat_map oc_writes (orderOutcomes tasks finished) /\
    sj_completedNodes j = map (fun o => tk_node (oc_task o)) (orderOutcomes tasks finished) /\
    map task_view (sj_rerunTasks j) =
      map task_view (List.filter (fun t => negb (bool_decide (tk_id t ∈ map outcome_id finished))) tasks).
Proof.
  intros Hne Ht Ho Hargs Hall Hnil rows.
  assert (Forall journal_ok finished) as Hok by (eapply Forall_impl; [exact Hall|]; naive_solver).
  assert (Forall (fun o => oc_task o ∈ tasks /\ writes_ok o) finished) as Hall'.
  { eapply Forall_impl; [exact Hall|]. intros o [? (? & _)]. done. }
  unfold rows. rewrite journal_tuple_rows, readStepJournal_intent by done.
  eexists. split; [reflexivity|]. cbn [sj_replayWrites sj_completedNodes sj_rerunTasks].
  rewrite journal_done_ids by done. rewrite orderOutcomes_index. fold (task_outcome finished).
  assert (forall t o, t ∈ tasks -> task_outcome finished t = Some o ->
            o ∈ finished /\ oc_task o = t /\ journal_ok o) as Hsome.
  { intros t o Hin Hto. destruct (task_outcome_Some tasks finished Ht Ho Hall' t o Hin Hto) as (Hf & He & _).
    rewrite Forall_forall in Hok. by split_and!; [| |apply Hok]. }
  split_and!.
  - rewrite flat_map_concat_map, map_map, <-flat_map_concat_map. apply flat_map_omap. intros t Hin.
    cbn [tk_id tk_node read_back]. rewrite finished_iff by done.
    destruct (task_outcome finished t) as [o|] eqn:Eo; [|done].
    rewrite bool_decide_eq_true_2 by done. destruct (Hsome t o Hin Eo) as (Hf & <- & Hj).
    cbn [List.filter]. fold (outcome_id o). destruct Hj as (Hw & Hni & _).
    rewrite (bool_decide_eq_false_2 (pw_taskId (intent_row step tasks) = outcome_id o)) by (simpl; congruence).
    cbn [andb]. rewrite journal_task_rows by done. rewrite map_map.
    rewrite <-(map_id (oc_writes o)) at 2. apply map_ext_in. intros w Hin'%list_elem_of_In.
    destruct (writes_ok_elem o w Hw Hin') as [_ <-]. by destruct w.
  - rewrite (filter_map_ext _ _ (fun t => bool_decide (tk_id t ∈ map outcome_id finished))) by done.
    rewrite map_map. apply map_filter_omap. intros t Hin. split; [by apply finished_iff|].
    intros o Eo. by destruct (Hsome t o Hin Eo) as (_ & -> & _).
  - rewrite task_view_fresh.
    rewrite (filter_map_ext _ _ (fun t => negb (bool_decide (tk_id t ∈ map outcome_id finished)))) by done.
    by rewrite map_map.
Qed.

(** A step journaled before a crash: [z] had finished, [y] had not. *)
Definition journal_tasks : list PlannedTask := [retry_z; retry_y].
Definition journal_base : CheckpointTuple :=
  mkTuple (ct_checkpoint retry_tuple) (mkMetadata Sync Running None None None) [].

Lemma journal_recovers_in_planned_order_witness :
  let finished := [mkOutcome (mkTask "z" "fin" SrcEdge None None None false false)
                     [mkWrite "fin" "z" 0 "n" (VNum (NFin 1))] None TCompleted [] false] in
  let rows := ct_pendingWrites (journal_tuple 4 journal_tasks finished journal_base) in
  exists j, readStepJournal demo_newId rows 4 20 = Some j /\
    sj_replayWrites j = flat_map oc_writes (orderOutcomes journal_tasks finished) /\
    sj_completedNodes j = map (fun o => tk_node (oc_task o)) (orderOutcomes journal_tasks finished) /\
    map task_view (sj_rerunTasks j) =
      map task_view (List.filter (fun t => negb (bool_decide (tk_id t ∈ map outcome_id finished))) journal_tasks).
Proof.
  refine (journal_recovers_in_planned_order demo_newId journal_tasks _ journal_base 4 20 _ _ _ _ _ _).
  - discriminate.
  - apply (bool_decide_unpack _). vm_compute. exact I.
  - apply (bool_decide_unpack _). vm_compute. exact I.
  - repeat constructor; discriminate.
  - repeat constructor; [by exists [("n", VNum (NFin 1))]|discriminate|discriminate].
  - reflexivity.
Defined.
