(* ===== verification/DurabilityProps.v ===== *)
(** * What survives being stored

    The JSON-safety guards are sound: everything they let through comes back
    from the checkpoint text, and replay delivers recorded answers only to the
    pauses they were recorded for. *)

From S2P Require Import Prelude JsValue Json Errors Pause Channels CheckpointStore Frontier Engine EngineRun Demo.
From stdpp Require Import pretty.

Local Open Scope string_scope.

(** ** Channel state *)

Lemma foldM_unit_Ok {E A} (f : A -> result E unit) l :
  foldM (fun _ x => f x) () l = Ok () <-> Forall (fun x => f x = Ok ()) l.
Proof.
  induction l as [|x l IH]; simpl; [done|]. rewrite Forall_cons.
  destruct (f x) as [[]|e]; simpl; [|naive_solver]. rewrite IH. naive_solver.
Qed.

Lemma check_safe_Ok channel path v : check_safe channel path v = Ok () <-> jsafe v = true.
Proof.
  rewrite <-(findNonJsonSafe_None v path). unfold check_safe.
  destruct (findNonJsonSafe v path) as [[]|]; naive_solver.
Qed.

Lemma serializeState_Ok state sv :
  serializeState state = Ok sv <->
  jsafe (VObj state) = true /\
  sv = VObj [("schema", VStr CHECKPOINT_SCHEMA_VERSION); ("state", VObj state)].
Proof.
  unfold serializeState. rewrite rbind_Ok.
  assert (foldM (fun _ p => check_safe p.1 p.1 p.2) () state = Ok () <-> jsafe (VObj state) = true) as Hiff.
  { rewrite (foldM_unit_Ok (fun p => check_safe p.1 p.1 p.2)). simpl.
    rewrite Forall_forall, forallb_forall. setoid_rewrite check_safe_Ok. setoid_rewrite list_elem_of_In. done. }
  split.
  - intros ([] & Hf & Hsv). apply Hiff in Hf. split; [done|].
    rewrite (proj2 (jsafe_cloneable _ Hf)) in Hsv. congruence.
  - intros [Hs ->]. exists (). split; [by apply Hiff|]. by rewrite (proj2 (jsafe_cloneable _ Hs)).
Qed.

(** A checkpoint's state survives the store.  A channel state the guard
    accepts is restored exactly by a store that keeps values; a store that
    keeps JSON text restores it with the [undefined] channels dropped and
    every other channel equal up to dropped [undefined] properties. *)
Theorem checkpoint_state_survives state sv cp :
  serializeState state = Ok sv -> vwf (VObj state) = true ->
  (cp_state cp = sv -> (restoreState cp).1 = state) /\
  (Some (cp_state cp) = JSON_parse (JSON_stringify sv) -> (restoreState cp).1 = keep_defined state).
Proof.
  intros [Hs ->]%serializeState_Ok Hw. unfold restoreState. split.
  - intros ->. done.
  - rewrite JSON_roundtrip.
    + intros [= ->]. done.
    + simpl in Hs |- *. by rewrite Hs.
    + change (bool_decide (NoDup ["schema"; "state"]) && (true && (vwf (VObj state) && true)) = true).
      rewrite Hw. vm_compute. reflexivity.
Qed.

Lemma checkpoint_state_survives_witness :
  let state := [("n", VNum (NFin 4)); ("u", VUndef); ("log", VArr [VStr "a"; VNull])] in
  let sv := VObj [("schema", VStr CHECKPOINT_SCHEMA_VERSION); ("state", VObj state)] in
  let cp := mkCheckpoint "c" "t" "n" None sv [] 0 0 in
  (cp_state cp = sv -> (restoreState cp).1 = state) /\
  (Some (cp_state cp) = JSON_parse (JSON_stringify sv) -> (restoreState cp).1 = keep_defined state).
Proof.
  refine (checkpoint_state_survives [("n", VNum (NFin 4)); ("u", VUndef); ("log", VArr [VStr "a"; VNull])]
            _ _ _ _).
  - reflexivity.
  - vm_compute. reflexivity.
Defined.

(** ** Frontiers *)

(** Objects have distinct keys, and timer instants are finite. *)
Definition pause_wf (p : PendingPauseRecord) : bool :=
  vwf (pp_value p) && vwf (undef_or (pp_dispatchArgs p)) &&
  forallb vwf (default [] (pp_satisfied p)) &&
  match pp_wakeAt p with Some n => isFinite n | None => true end.

Definition frontier_wf (f : FrontierEnvelope) : bool :=
  forallb pause_wf (fe_pauses f) &&
  forallb (fun d => vwf (undef_or (dy_dispatchArgs d))) (fe_dynamic f) &&
  forallb (fun t => vwf (undef_or (st_dispatchArgs t))) (default [] (fe_stepTasks f)).

Lemma check_indexed_Ok channel path i vs :
  check_indexed channel path i vs = Ok () <-> forallb jsafe vs = true.
Proof.
  revert i. induction vs as [|v vs IH]; intros i; simpl; [done|].
  rewrite rbind_Ok, andb_true_iff, <-(IH (S i)), <-(check_safe_Ok channel (path +:+ "[" +:+ pretty i +:+ "]")).
  split; [intros ([] & ? & ?); done|intros [? ?]; by exists ()].
Qed.

Lemma forallb_storable vs :
  forallb jsafe vs = true -> forallb vwf vs = true -> forallb storable vs = true.
Proof.
  induction vs as [|v vs IH]; simpl; [done|]. unfold storable at 1.
  intros [-> ?]%andb_true_iff [-> ?]%andb_true_iff. by apply IH.
Qed.

Lemma check_pause_Ok p : check_pause () p = Ok () -> pause_wf p = true -> pause_ok p = true.
Proof.
  unfold check_pause, pause_wf, pause_ok. intros Hc.
  apply rbind_Ok in Hc as ([] & Hv%check_safe_Ok & Hc).
  apply rbind_Ok in Hc as ([] & Ha%check_safe_Ok & Hc).
  apply rbind_Ok in Hc as ([] & Hs%check_indexed_Ok & _).
  rewrite !andb_true_iff. intros [[[Hwv Hwa] Hws] Hw]. split_and!; try done.
  - by apply storable_spec.
  - by apply storable_spec.
  - by apply forallb_storable.
Qed.

Lemma assertFrontierJsonSafe_Ok f :
  assertFrontierJsonSafe f = Ok () -> frontier_wf f = true -> frontier_ok f = true.
Proof.
  unfold assertFrontierJsonSafe, frontier_wf, frontier_ok. intros Hc.
  apply rbind_Ok in Hc as ([] & Hp & Hc). apply rbind_Ok in Hc as ([] & Hd & Ht).
  pose proof (proj1 (foldM_unit_Ok (check_pause ()) _) Hp) as Fp.
  pose proof (proj1 (foldM_unit_Ok (fun d => check_safe ("<dispatch:" +:+ dy_nodeName d +:+ ">")
    (("<dispatch:" +:+ dy_nodeName d +:+ ">") +:+ ".dispatchArgs") (undef_or (dy_dispatchArgs d))) _) Hd) as Fd.
  pose proof (proj1 (foldM_unit_Ok (fun t => check_safe ("<task:" +:+ st_nodeName t +:+ ">")
    (("<task:" +:+ st_nodeName t +:+ ">") +:+ ".dispatchArgs") (undef_or (st_dispatchArgs t))) _) Ht) as Ft.
  clear Hp Hd Ht. rename Fp into Hp, Fd into Hd, Ft into Ht.
  rewrite Forall_forall in Hp. rewrite Forall_forall in Hd. rewrite Forall_forall in Ht. rewrite !andb_true_iff, !forallb_forall.
  setoid_rewrite <-list_elem_of_In. intros [[Hwp Hwd] Hwt]. split_and!.
  - intros p Hin. apply check_pause_Ok; [by apply Hp|by apply Hwp].
  - intros d Hin. apply storable_spec. split; [by eapply check_safe_Ok, Hd|by apply Hwd].
  - intros t Hin. apply storable_spec. split; [by eapply check_safe_Ok, Ht|by apply Hwt].
Qed.

(** C36: A frontier survives its tags.  Every frontier that passes the
    JSON-safety guard is read back from the encoded tags with all its pauses,
    dispatches, completed nodes, step tasks and version pin, values up to
    dropped [undefined]; with no [undefined] inside, it is read back exactly. *)
Theorem frontier_survives_its_tags f md :
  assertFrontierJsonSafe f = Ok () -> frontier_wf f = true ->
  md_tags md = Some (encodeFrontier f) -> readFrontier md = fnorm f.
Proof. intros Hs Hw Ht. apply readFrontier_encode; [by apply assertFrontierJsonSafe_Ok|done]. Qed.

Definition sample_frontier : FrontierEnvelope :=
  mkFrontier (Some "2")
    [mkPause "ask" (approval_value "ship" (Some (VStr "x")) (Some (NFin 9)) None) (Some (VNum (NFin 3)))
       false false (Some [VBool true; VNull]) (Some [None; Some (Identity (Some "k") None)])
       (Some (NFin 9)) (Some "ship")]
    [mkDynamic "fin" None] ["ask"] (Some [mkStepTask "id" "fin" TPaused (Some (VStr "a"))]).

Lemma frontier_survives_its_tags_witness :
  readFrontier (mkMetadata Sync Suspended None (Some (encodeFrontier sample_frontier)) None) =
    fnorm sample_frontier /\ fnorm sample_frontier = sample_frontier.
Proof.
  split; [|vm_compute; reflexivity].
  apply (frontier_survives_its_tags sample_frontier).
  - vm_compute. reflexivity.
  - vm_compute. reflexivity.
  - reflexivity.
Defined.

(** ** JSON text *)

(** [JSON.parse] inverts [JSON.stringify] on every value the guard
    accepts: strings with any bytes and escapes, integers, nested arrays and
    objects; [undefined] array slots come back [null], [undefined] properties
    are dropped, and nothing else changes. *)
Theorem json_text_roundtrip v path :
  findNonJsonSafe v path = None -> vwf v = true ->
  JSON_parse (JSON_stringify v) = Some (jnorm v) /\ (vdef v = true -> jnorm v = v).
Proof.
  intros Hs%findNonJsonSafe_None Hw. split; [by apply JSON_roundtrip|]. intros Hd. by apply jnorm_vdef.
Qed.

Lemma json_text_roundtrip_witness :
  let v := VObj [("a", VArr [VStr "q"; VUndef; VNum (NFin (-12))]); ("b", VUndef); ("c", VBool false)] in
  JSON_parse (JSON_stringify v) = Some (jnorm v) /\ (vdef v = true -> jnorm v = v).
Proof.
  apply (json_text_roundtrip
    (VObj [("a", VArr [VStr "q"; VUndef; VNum (NFin (-12))]); ("b", VUndef); ("c", VBool false)]) "p").
  - vm_compute. reflexivity.
  - vm_compute. reflexivity.
Defined.

(** ** Replay *)

(** Replay is exact.  Re-running a body with the answers to its first n
    pauses, against recorded identities that admit them, is the body resumed
    after those n pauses: it never pauses again for an answered one, and its
    next pause suspends. *)
Theorem replay_resumes_after_answered_pauses values meta p q :
  feed p values = Some q -> admits meta (asked p values) ->
  runWithPauseResume values meta p = run_unscoped q /\
  (forall v k, q = PPause v k -> runWithPauseResume values meta p = Err (PauseSignal v)).
Proof.
  intros Hf Ha. pose proof (runWithPauseResume_feed values meta p q Hf Ha) as Hr.
  split; [done|]. by intros v k ->.
Qed.

Lemma replay_resumes_after_answered_pauses_witness :
  runWithPauseResume [VBool true] (Some [Some (Identity (Some APPROVAL_PAUSE_KIND) (Some "ship"))]) ask_body =
    run_unscoped (PRet (VObj [("log", VArr [VBool true])])) /\
  (forall v k, PRet (VObj [("log", VArr [VBool true])]) = PPause v k ->
     runWithPauseResume [VBool true] (Some [Some (Identity (Some APPROVAL_PAUSE_KIND) (Some "ship"))]) ask_body =
       Err (PauseSignal v)).
Proof.
  apply (replay_resumes_after_answered_pauses [VBool true]
    (Some [Some (Identity (Some APPROVAL_PAUSE_KIND) (Some "ship"))]) ask_body).
  - reflexivity.
  - intros [|i] v e Hv He; [|by destruct i]. injection Hv as <-. injection He as <-. reflexivity.
Defined.

(** Divergent replays are caught.  If a body, after replaying its first n
    answers, pauses as something else than the journal recorded for answer n,
    the run fails with the divergence signal naming both identities and the
    position; the recorded value is not delivered. *)
Theorem divergent_replay_is_caught values meta p v k n a expected :
  feed p (take n values) = Some (PPause v k) ->
  admits meta (asked p (take n values)) ->
  values !! n = Some a -> meta_at meta n = Some expected ->
  diverges expected (identityOfPauseValue v) = true ->
  runWithPauseResume values meta p =
    Err (ReplayDivergenceSignal expected (identityOfPauseValue v) n).
Proof.
  intros Hf Ha Hn Hm Hd. unfold runWithPauseResume.
  assert (forall m p', m <= n ->
    feed p' (drop m (take n values)) = Some (PPause v k) ->
    (forall i w e, asked p' (drop m (take n values)) !! i = Some w -> meta_at meta (m + i) = Some e ->
       diverges e (identityOfPauseValue w) = false) ->
    run_from values meta m p' = Err (ReplayDivergenceSignal expected (identityOfPauseValue v) n)) as Hgen.
  { intros m. remember (n - m) as d eqn:Ed. revert m Ed. induction d as [|d IH]; intros m Ed p' Hle Hf' Ha'.
    - assert (m = n) as -> by lia. rewrite drop_ge in Hf' by (rewrite length_take; lia).
      simpl in Hf'. injection Hf' as ->. simpl. unfold pause. by rewrite Hn, Hm, Hd.
    - apply lookup_lt_Some in Hn as Hlen.
      destruct (lookup_lt_is_Some_2 values m) as [b Hb]; [lia|].
      assert (take n values !! m = Some b) as Hb' by (rewrite lookup_take_lt by lia; done).
      rewrite (drop_S _ _ _ Hb') in Hf', Ha'. simpl in Hf'. destruct p' as [| |w k']; try done.
      simpl in Ha' |- *. unfold pause. rewrite Hb.
      assert (match meta_at meta m with
              | Some e => if diverges e (identityOfPauseValue w) then Err (ReplayDivergenceSignal e (identityOfPauseValue w) m) else Ok b
              | None => Ok b end = Ok b) as ->.
      { destruct (meta_at meta m) as [e|] eqn:Ee; [|done]. rewrite (Ha' 0 w e); [done|done|by rewrite Nat.add_0_r]. }
      apply (IH (S m)); [lia|lia|done|]. intros i x e Hi He. apply (Ha' (S i) x e); [done|].
      by rewrite Nat.add_succ_r. }
  apply (Hgen 0 p); [lia|by rewrite drop_0|]. intros i w e. rewrite drop_0. apply Ha.
Qed.

Lemma divergent_replay_is_caught_witness :
  runWithPauseResume [VBool true] (Some [Some (Identity (Some TIMER_PAUSE_KIND) None)]) ask_body =
    Err (ReplayDivergenceSignal (Identity (Some TIMER_PAUSE_KIND) None)
           (Identity (Some APPROVAL_PAUSE_KIND) (Some "ship")) 0).
Proof.
  refine (divergent_replay_is_caught [VBool true] (Some [Some (Identity (Some TIMER_PAUSE_KIND) None)])
            ask_body (approval_value "ship" None None None) _ 0 (VBool true) _ _ _ _ _ _).
  - reflexivity.
  - intros [|i] v e Hv; discriminate.
  - reflexivity.
  - reflexivity.
  - reflexivity.
Defined.
