(* ===== verification/StoreProps.v ===== *)
(** * Retention and enumeration in the in-memory checkpoint store

    The operations of [packages/workflow/src/checkpoint-store-memory.ts] that
    walk the whole thread index ([deleteThread], [pruneThreads],
    [listSuspended]) or rewrite one pair ([compactThread]), stated on the
    abstract view of the store: the sequence of checkpoints of each
    (thread, namespace) pair. *)

From S2P Require Import Prelude JsValue Errors CheckpointStore.
From Stdlib Require Import Sorted.

Import Mem MemRefine.

Local Open Scope string_scope.

(** ** Deleting one pair *)

Definition pairs_of (st : Mem.t) : Datatypes.list (string * string) :=
  map splitKey (jkeys (m_threadIndex st)).

Definition clean_pair (p : string * string) : Prop := clean p.1 /\ clean p.2.

Definition pview (st : Mem.t) (p : string * string) : Datatypes.list CheckpointTuple :=
  mem_view st p.1 p.2.

(** [delete_pair] at the key the pair is stored under. *)
Definition drop_pair (p : string * string) (st : Mem.t) : Mem.t :=
  delete_pair p.1 p.2 (indexKey p.1 p.2) st.

Lemma drop_pair_ids p st q :
  clean_pair p -> clean_pair q ->
  ids_of q.1 q.2 (drop_pair p st) = if decide (q = p) then [] else ids_of q.1 q.2 st.
Proof.
  destruct p as [t n], q as [t' n']. intros [Ht Hn] [Ht' Hn'].
  unfold drop_pair, delete_pair, ids_of; simpl in *. rewrite jget_jdel.
  destruct (decide (indexKey t' n' = indexKey t n)) as [E|E].
  - apply indexKey_inj in E as [-> ->]; [|done|done]. by rewrite decide_True.
  - rewrite decide_False; [done|]. intros [=]. by subst.
Qed.

Lemma drop_pair_stored p st q id :
  mem_wf st -> clean_pair p -> clean_pair q ->
  jget (makeKey q.1 q.2 id) (m_checkpoints (drop_pair p st)) =
  if decide (q = p) then None else jget (makeKey q.1 q.2 id) (m_checkpoints st).
Proof.
  destruct p as [t n], q as [t' n']. intros Hwf [Ht Hn] [Ht' Hn']. simpl in *.
  unfold drop_pair, delete_pair; simpl. rewrite jget_jdel_all.
  fold (ids_of t n st).
  destruct (decide ((t', n') = (t, n))) as [[= -> ->]|Hne].
  - case_decide as Hin; [done|].
    destruct (jget (makeKey t n id) (m_checkpoints st)) eqn:E; [|done]. exfalso. apply Hin.
    apply list_elem_of_fmap. exists id. split; [done|].
    apply (mw_ids st Hwf); [done..|]. by rewrite E.
  - rewrite decide_False; [done|].
    intros (i & Hi & _)%list_elem_of_fmap. apply makeKey_inj in Hi; [naive_solver|done..].
Qed.

Lemma drop_pair_wf p st : mem_wf st -> clean_pair p -> mem_wf (drop_pair p st).
Proof.
  intros Hwf Hp. constructor.
  - apply jdel_wf, Hwf.
  - intros k. simpl. rewrite jkeys_jdel. intros [_ Hk]%list_elem_of_filter. by apply Hwf.
  - intros t n Ht Hn. pose proof (drop_pair_ids p st (t, n) Hp (conj Ht Hn)) as E; cbn [fst snd] in E.
    rewrite E. case_decide; [apply NoDup_nil_2|by apply Hwf].
  - intros t n id Ht Hn. pose proof (drop_pair_ids p st (t, n) Hp (conj Ht Hn)) as E.
    pose proof (drop_pair_stored p st (t, n) id Hwf Hp (conj Ht Hn)) as E'; cbn [fst snd] in E, E'.
    rewrite E, E'. case_decide; [|by apply Hwf]. split; [by intros ?%elem_of_nil|by intros []].
  - intros t n id s Ht Hn. pose proof (drop_pair_stored p st (t, n) id Hwf Hp (conj Ht Hn)) as E.
    cbn [fst snd] in E. rewrite E. case_decide; [done|by apply Hwf].
Qed.

Lemma drop_pair_view p st q :
  mem_wf st -> clean_pair p -> clean_pair q ->
  pview (drop_pair p st) q = if decide (q = p) then [] else pview st q.
Proof.
  intros Hwf Hp Hq. unfold pview, mem_view. rewrite drop_pair_ids by done.
  case_decide as E; [done|]. apply stored_of_ext. intros id _.
  rewrite drop_pair_stored by done. by rewrite decide_False.
Qed.

(** The pairs of a well-formed store are clean, distinct, and carry their
    index key; every other pair is empty. *)
Lemma pairs_of_key st k :
  mem_wf st -> k ∈ jkeys (m_threadIndex st) ->
  clean_pair (splitKey k) /\ indexKey (splitKey k).1 (splitKey k).2 = k.
Proof.
  intros Hwf (t & n & Ht & Hn & ->)%(mw_keys st Hwf). by rewrite splitKey_indexKey.
Qed.

Lemma pairs_of_nodup st : mem_wf st -> NoDup (pairs_of st).
Proof.
  intros Hwf. unfold pairs_of. pose proof (mw_index st Hwf) as Hnd. unfold jwf in Hnd.
  assert (forall k, k ∈ jkeys (m_threadIndex st) -> indexKey (splitKey k).1 (splitKey k).2 = k)
    as Hk by (intros k Hin; by apply (pairs_of_key st k Hwf Hin)).
  induction Hnd as [|k ks Hni Hnd IH]; simpl; [apply NoDup_nil_2|].
  apply NoDup_cons. split; [|apply IH; intros; apply Hk; by right].
  intros (k' & E & Hin)%list_elem_of_fmap. apply Hni.
  rewrite <-(Hk k) by by left. rewrite E, (Hk k') by by right. done.
Qed.

Lemma pairs_of_elem st p :
  mem_wf st -> clean_pair p ->
  p ∈ pairs_of st <-> is_Some (jget (indexKey p.1 p.2) (m_threadIndex st)).
Proof.
  intros Hwf [Hp1 Hp2]. rewrite jget_is_Some. unfold pairs_of. rewrite list_elem_of_fmap. split.
  - intros (k & -> & Hk). destruct (pairs_of_key st k Hwf Hk) as [_ E]. by rewrite E.
  - intros Hk. exists (indexKey p.1 p.2). split; [|done].
    rewrite splitKey_indexKey by done. by destruct p.
Qed.

Lemma pview_unknown st p : mem_wf st -> clean_pair p -> p ∉ pairs_of st -> pview st p = [].
Proof.
  intros Hwf Hp Hni. rewrite (pairs_of_elem st p Hwf Hp) in Hni.
  unfold pview, mem_view, ids_of. destruct (jget _ _); [|done]. exfalso; eauto.
Qed.

(** ** Sweeps

    A loop over the index keys that drops the pairs satisfying a predicate of
    their own view. *)

Section Sweep.
Variable doomed : string * string -> Datatypes.list CheckpointTuple -> bool.

Definition sweep (ps : Datatypes.list (string * string)) (acc : Mem.t * nat) : Mem.t * nat :=
  foldl (fun '(st, k) p =>
    if doomed p (pview st p) then (drop_pair p st, S k) else (st, k)) acc ps.

Lemma sweep_spec ps st k :
  mem_wf st -> Forall clean_pair ps -> NoDup ps ->
  mem_wf (sweep ps (st, k)).1 /\
  (forall q, clean_pair q ->
     pview (sweep ps (st, k)).1 q =
     if decide (q ∈ ps) then (if doomed q (pview st q) then [] else pview st q)
     else pview st q) /\
  (sweep ps (st, k)).2 = k + length (List.filter (fun p => doomed p (pview st p)) ps).
Proof.
  intros Hwf Hps Hnd. revert st k Hwf.
  induction ps as [|p ps IH]; intros st k Hwf; simpl; [split_and!; [done..|lia]|].
  apply Forall_cons in Hps as [Hp Hps]. apply NoDup_cons in Hnd as [Hni Hnd].
  specialize (IH Hps Hnd). unfold sweep in *. simpl.
  destruct (doomed p (pview st p)) eqn:Hd.
  - destruct (IH (drop_pair p st) (S k)) as (H1 & H2 & H3); [by apply drop_pair_wf|].
    split_and!; [done| |].
    + intros q Hq. rewrite H2 by done. rewrite drop_pair_view by done.
      destruct (decide (q = p)) as [->|Hne].
      * rewrite decide_False by done. rewrite decide_True by by left. by rewrite Hd.
      * repeat case_decide; set_solver.
    + rewrite H3. simpl. rewrite Nat.add_succ_r. do 3 f_equal. apply List.filter_ext_in.
      intros q Hq%list_elem_of_In. rewrite drop_pair_view;
        [by rewrite decide_False by set_solver|done|done|by eapply Forall_forall].
  - destruct (IH st k Hwf) as (H1 & H2 & H3). split_and!; [done| |done].
    intros q Hq. rewrite H2 by done.
    destruct (decide (q = p)) as [->|Hne]; [|repeat case_decide; set_solver].
    rewrite decide_False by done. rewrite decide_True by by left. by rewrite Hd.
Qed.
End Sweep.

Lemma pairs_of_clean st : mem_wf st -> Forall clean_pair (pairs_of st).
Proof.
  intros Hwf. apply Forall_forall. intros p (k & -> & Hk)%list_elem_of_fmap.
  by apply (pairs_of_key st).
Qed.

(** Every pair of the index is visited, and the pairs outside it are empty. *)
Lemma sweep_all doomed st :
  mem_wf st ->
  mem_wf (sweep doomed (pairs_of st) (st, 0)).1 /\
  (forall q, clean_pair q ->
     pview (sweep doomed (pairs_of st) (st, 0)).1 q =
     if doomed q (pview st q) then [] else pview st q) /\
  (sweep doomed (pairs_of st) (st, 0)).2 =
    length (List.filter (fun p => doomed p (pview st p)) (pairs_of st)).
Proof.
  intros Hwf. destruct (sweep_spec doomed (pairs_of st) st 0) as (H1 & H2 & H3);
    [done|by apply pairs_of_clean|by apply pairs_of_nodup|].
  split_and!; [done| |done].
  intros q Hq. rewrite H2 by done. case_decide as Hin; [done|].
  rewrite (pview_unknown st q) by done. by destruct (doomed _ _).
Qed.

(** [deleteThread] and [pruneThreads] are such sweeps. *)
Lemma startsWith_indexKey t t' n :
  clean t -> clean t' -> startsWith (t +:+ "::") (indexKey t' n) = bool_decide (t' = t).
Proof.
  intros Ht Ht'. case_bool_decide as E.
  - subst. unfold indexKey. rewrite <-str_app_assoc. apply startsWith_app.
  - destruct (startsWith _ _) eqn:Es; [|done].
    apply startsWith_spec in Es as [r Er]. rewrite str_app_assoc in Er.
    apply (indexKey_inj t' n t r) in Er as [-> _]; done.
Qed.

Lemma str_drop_indexKey t n : str_drop (String.length t + 2) (indexKey t n) = n.
Proof.
  unfold indexKey. induction t as [|c t IH]; [done|]. rewrite str_app_cons. apply IH.
Qed.

Definition index_keys (ks : Datatypes.list string) : Prop :=
  forall k, k ∈ ks -> exists t n, clean t /\ clean n /\ k = indexKey t n.

Lemma deleteThread_loop t ks st c :
  clean t -> index_keys ks ->
  foldl (fun st key =>
    if startsWith (t +:+ "::") key
    then delete_pair t (str_drop (String.length t + 2) key) key st
    else st) st ks =
  (sweep (fun p _ => bool_decide (p.1 = t)) (map splitKey ks) (st, c)).1.
Proof.
  intros Ht. unfold sweep. revert st c.
  induction ks as [|k ks IH]; intros st c Hkeys; [done|].
  destruct (Hkeys k) as (t' & n & Ht' & Hn & ->); [by left|].
  cbn [foldl map]. rewrite splitKey_indexKey, startsWith_indexKey by done. cbn [fst].
  case_bool_decide as E; [subst; rewrite str_drop_indexKey|];
    apply IH; intros ??; apply Hkeys; by right.
Qed.

Lemma deleteThread_sweep t st :
  mem_wf st -> clean t ->
  Mem.deleteThread t st = (sweep (fun p _ => bool_decide (p.1 = t)) (pairs_of st) (st, 0)).1.
Proof. intros Hwf Ht. apply deleteThread_loop; [done|exact (mw_keys st Hwf)]. Qed.

(** The retention rule: the latest checkpoint decides age and status. *)
Definition prunable (beforeEpochMs : Z) (onlyTerminal : bool)
    (ts : Datatypes.list CheckpointTuple) : bool :=
  match latest_of ts with
  | Some latest =>
      bool_decide (cp_createdAt (ct_checkpoint latest) < beforeEpochMs)%Z &&
      (negb onlyTerminal || terminal (ct_status latest))
  | None => false
  end.

Lemma pruneThreads_sweep b o st :
  mem_wf st ->
  Mem.pruneThreads b o st = sweep (fun _ => prunable b o) (pairs_of st) (st, 0).
Proof.
  intros Hwf. unfold Mem.pruneThreads, sweep, pairs_of.
  pose proof (mw_keys st Hwf) as Hkeys. clear Hwf. revert Hkeys. generalize 0.
  generalize (jkeys (m_threadIndex st)) as ks. intros ks. revert st.
  induction ks as [|k ks IH]; intros st c Hkeys; simpl; [done|].
  destruct (Hkeys k) as (t & n & Ht & Hn & ->); [by left|].
  rewrite splitKey_indexKey by done.
  match goal with |- foldl _ ?a _ = foldl _ ?b _ =>
    assert (a = b) as ->; [|destruct b; apply IH; intros; apply Hkeys; by right]
  end.
  unfold prunable, pview, mem_view, latestStored. fold (ids_of t n st). simpl.
  destruct (latest_of _) as [latest|]; [|done].
  case_decide; case_bool_decide; try lia; simpl; [done|].
  destruct o; simpl; [|done]. by destruct (terminal _).
Qed.

(** ** Compaction *)

Definition not_later (a b : CheckpointTuple) : Prop := ct_step b <= ct_step a.

Lemma insert_desc_head t ts :
  head (insert_desc t ts) =
  match head ts with
  | None => Some t
  | Some u => if decide (ct_step u < ct_step t) then Some t else Some u
  end.
Proof. destruct ts as [|u ts]; simpl; [done|]. by case_decide. Qed.

Lemma sort_desc_head ts : head (sort_desc ts) = latest_of ts.
Proof.
  unfold sort_desc, latest_of.
  induction ts as [|t ts IH] using rev_ind; [done|].
  rewrite !foldl_app. simpl. rewrite insert_desc_head, IH.
  destruct (foldl _ None ts); [|done]. by case_decide.
Qed.

Lemma insert_desc_sorted t ts :
  StronglySorted not_later ts -> StronglySorted not_later (insert_desc t ts).
Proof.
  induction 1 as [|u ts Hs IH Hu]; simpl; [repeat constructor|].
  case_decide as Hd.
  - constructor; [by constructor|]. constructor; [unfold not_later; lia|].
    eapply Forall_impl; [exact Hu|]. unfold not_later. simpl. lia.
  - constructor; [done|]. clear -Hu Hd. induction ts as [|v ts IH]; simpl.
    + constructor; [unfold not_later; lia|constructor].
    + apply Forall_cons in Hu as [Hv Hu]. case_decide; repeat constructor; auto;
        unfold not_later in *; lia.
Qed.

Lemma sort_desc_sorted ts : StronglySorted not_later (sort_desc ts).
Proof.
  unfold sort_desc. induction ts as [|t ts IH] using rev_ind; [constructor|].
  rewrite foldl_app. simpl. by apply insert_desc_sorted.
Qed.

Lemma insert_desc_perm t ts : insert_desc t ts ≡ₚ t :: ts.
Proof.
  induction ts as [|u ts IH]; simpl; [done|]. case_decide; [done|]. rewrite IH. constructor.
Qed.

Lemma sort_desc_perm ts : sort_desc ts ≡ₚ ts.
Proof.
  unfold sort_desc. induction ts as [|t ts IH] using rev_ind; [done|].
  rewrite foldl_app. simpl. rewrite insert_desc_perm, IH. apply Permutation_cons_append.
Qed.

Lemma latest_of_sorted ts : StronglySorted not_later ts -> latest_of ts = head ts.
Proof.
  intros Hs. rewrite <-sort_desc_head. unfold sort_desc.
  induction ts as [|t ts IH] using rev_ind; [done|].
  rewrite foldl_app. simpl. rewrite insert_desc_head, IH.
  - destruct ts as [|u ts]; [done|]. simpl. rewrite decide_False; [done|].
    simpl in Hs. apply StronglySorted_inv in Hs as [_ [_ H%Forall_inv]%Forall_app].
    unfold not_later in H. lia.
  - clear IH. induction ts as [|u ts IH]; [constructor|]. simpl in Hs.
    apply StronglySorted_inv in Hs as [Hs [Hu _]%Forall_app]. constructor; auto.
Qed.

Lemma sorted_take k ts : StronglySorted not_later ts -> StronglySorted not_later (take k ts).
Proof.
  intros Hs. revert k. induction Hs as [|t ts Hs IH Ht]; intros [|k]; simpl; try constructor; auto.
  by apply Forall_take.
Qed.

Lemma latest_of_newest k ts : 0 < k -> latest_of (take k (sort_desc ts)) = latest_of ts.
Proof.
  intros Hk. rewrite latest_of_sorted by apply sorted_take, sort_desc_sorted.
  rewrite <-sort_desc_head. destruct k; [lia|]. by destruct (sort_desc ts).
Qed.

(** What [compactThread] leaves behind, key by key. *)
Section Compact.
Context (st : Mem.t) (t n : string) (keepLast : Z).
Context (Hwf : mem_wf st) (Ht : clean t) (Hn : clean n).

Let st' := (Mem.compactThread t n keepLast st).1.
Let keep := Z.to_nat (Z.max 1 keepLast).
Let kept := take keep (sort_desc (mem_view st t n)).
Let victims := drop keep (sort_desc (mem_view st t n)).

Lemma compact_split_ids id :
  id ∈ ids_of t n st <-> id ∈ map ct_id kept \/ id ∈ map ct_id victims.
Proof using Hwf Ht Hn.
  rewrite <-elem_of_app, <-map_app. unfold kept, victims. rewrite take_drop.
  by rewrite <-(view_ids st t n Hwf Ht Hn), sort_desc_perm.
Qed.

Lemma compact_nodup : NoDup (map ct_id kept ++ map ct_id victims)%list.
Proof using Hwf Ht Hn.
  rewrite <-map_app. unfold kept, victims. rewrite take_drop.
  rewrite sort_desc_perm, view_ids by done. by apply Hwf.
Qed.

Lemma compact_ids t' n' :
  clean t' -> ids_of t' n' st' =
  if decide ((t', n') = (t, n)) then map ct_id kept else ids_of t' n' st.
Proof using Ht. intros Ht'. apply ids_of_jset; done. Qed.

Lemma compact_stored t' n' id :
  clean t' -> clean n' ->
  jget (makeKey t' n' id) (m_checkpoints st') =
  if decide ((t', n') = (t, n) /\ id ∈ map ct_id victims) then None
  else jget (makeKey t' n' id) (m_checkpoints st).
Proof using Ht Hn.
  intros Ht' Hn'. unfold st', Mem.compactThread; simpl.
  fold (mem_view st t n). fold keep. fold victims.
  rewrite (jget_jdel_all _ (fun v => makeKey t n (ct_id v))).
  case_decide as Hd; case_decide as Hd'; try done; exfalso.
  - apply list_elem_of_fmap in Hd as (v & E & Hv).
    apply makeKey_inj in E as (-> & -> & ->); [|done..].
    apply Hd'. split; [done|]. apply list_elem_of_fmap. eauto.
  - destruct Hd' as [[= -> ->] (v & -> & Hv)%list_elem_of_fmap].
    apply Hd, list_elem_of_fmap. eauto.
Qed.

Lemma compact_wf : mem_wf st'.
Proof using Hwf Ht Hn.
  pose proof compact_nodup as [Hk [Hkv _]]%NoDup_app. constructor.
  - unfold st'; simpl. apply jset_wf, Hwf.
  - intros k. unfold st'; simpl. rewrite jkeys_jset. case_decide; [apply Hwf|].
    intros [Hk'| ->%list_elem_of_singleton]%elem_of_app; [by apply Hwf|by exists t, n].
  - intros t' n' Ht' Hn'. rewrite compact_ids by done. case_decide; [done|by apply Hwf].
  - intros t' n' id Ht' Hn'. rewrite compact_ids, compact_stored by done.
    destruct (decide ((t', n') = (t, n))) as [[= -> ->]|Hne].
    + pose proof (compact_split_ids id). pose proof (mw_ids st Hwf t n id Ht Hn).
      case_decide as Hd; [|naive_solver].
      split; [|by intros []]. intros Hin. by destruct (Hkv id Hin); destruct Hd.
    + rewrite decide_False by naive_solver. by apply Hwf.
  - intros t' n' id s Ht' Hn'. rewrite compact_stored by done.
    case_decide; [done|by apply Hwf].
Qed.

(** The stored checkpoint of a member of the view is the member itself. *)
Lemma stored_of_members ts :
  (forall x, x ∈ ts -> x ∈ mem_view st t n) -> stored_of t n (map ct_id ts) st = ts.
Proof using Hwf Ht Hn.
  intros Hin. unfold stored_of. induction ts as [|x ts IH]; csimpl; [done|].
  rewrite IH by (intros; apply Hin; by right).
  assert (x ∈ mem_view st t n) as Hx by (apply Hin; by left).
  apply list_elem_of_omap in Hx as (i & Hi & (s & Hs & ->)%fmap_Some).
  assert (ct_id (tuple_of s) = i) as -> by by eapply (mw_cp st Hwf t n).
  by rewrite Hs.
Qed.

Lemma compact_view t' n' :
  clean t' -> clean n' -> mem_view st' t' n' =
  if decide ((t', n') = (t, n)) then kept else mem_view st t' n'.
Proof using Hwf Ht Hn.
  intros Ht' Hn'. unfold mem_view. rewrite compact_ids by done.
  destruct (decide ((t', n') = (t, n))) as [[= -> ->]|Hne].
  - pose proof compact_nodup as [_ [Hkv _]]%NoDup_app.
    rewrite (stored_of_ext t n (map ct_id kept) st st').
    + apply stored_of_members. intros x (i & Hi & _)%elem_of_take.
      rewrite <-sort_desc_perm. by eapply list_elem_of_lookup_2.
    + intros id Hid. rewrite compact_stored by done. rewrite decide_False; [done|].
      intros [_ Hv]. by eapply Hkv.
  - apply stored_of_ext. intros id _. rewrite compact_stored by done.
    by rewrite decide_False by naive_solver.
Qed.
End Compact.

(** ** Enumerating suspended threads *)

Definition wakes_at (ts : Datatypes.list CheckpointTuple) : option Z :=
  match latest_of ts with
  | Some latest =>
      if decide (ct_status latest = Suspended) then md_wakeAt (ct_metadata latest) else None
  | None => None
  end.

Definition due (dueBefore : option Z) (wakeAt : Z) : bool :=
  match dueBefore with Some d => bool_decide (wakeAt <= d)%Z | None => true end.

Definition no_later_wake (a b : string * Z) : Prop := (a.2 <= b.2)%Z.

Definition sort_wake (l : Datatypes.list (string * Z)) : Datatypes.list (string * Z) :=
  foldl (fun acc x => insert_wake x acc) [] l.

Lemma insert_wake_perm x l : insert_wake x l ≡ₚ x :: l.
Proof.
  induction l as [|y l IH]; simpl; [done|]. case_decide; [done|]. rewrite IH. constructor.
Qed.

Lemma sort_wake_perm l : sort_wake l ≡ₚ l.
Proof.
  unfold sort_wake. induction l as [|x l IH] using rev_ind; [done|].
  rewrite foldl_app. simpl. rewrite insert_wake_perm, IH. apply Permutation_cons_append.
Qed.

Lemma insert_wake_sorted x l :
  StronglySorted no_later_wake l -> StronglySorted no_later_wake (insert_wake x l).
Proof.
  induction 1 as [|y l Hs IH Hy]; simpl; [repeat constructor|]. case_decide as Hd.
  - constructor; [by constructor|]. constructor; [unfold no_later_wake; lia|].
    eapply Forall_impl; [exact Hy|]. unfold no_later_wake. simpl. lia.
  - constructor; [done|]. rewrite insert_wake_perm. constructor; [unfold no_later_wake; lia|done].
Qed.

Lemma sort_wake_sorted l : StronglySorted no_later_wake (sort_wake l).
Proof.
  unfold sort_wake. induction l as [|x l IH] using rev_ind; [constructor|].
  rewrite foldl_app. simpl. by apply insert_wake_sorted.
Qed.

(** The unsorted enumeration, pair by pair of the index. *)
Definition suspended_pairs (ns : string) (dueBefore : option Z) (st : Mem.t) :
    Datatypes.list (string * Z) :=
  omap (fun p => if decide (p.2 = ns) then
                   w ← wakes_at (pview st p); if due dueBefore w then Some (p.1, w) else None
                 else None) (pairs_of st).

Lemma listSuspended_pairs ns d lim st :
  mem_wf st ->
  Mem.listSuspended ns d lim st =
  let out := sort_wake (suspended_pairs ns d st) in
  match lim with Some k => take k out | None => out end.
Proof.
  intros Hwf. unfold Mem.listSuspended. fold (sort_wake).
  match goal with |- context [omap ?f (m_threadIndex st)] =>
    assert (omap f (m_threadIndex st) = suspended_pairs ns d st) as ->; [|done] end.
  unfold suspended_pairs, pairs_of, jkeys. rewrite map_map.
  apply list_omap_ext, Forall2_fmap_r, Forall_Forall2_diag, Forall_forall. intros [k ids] Hin.
  assert (k ∈ jkeys (m_threadIndex st)) as Hk by (apply list_elem_of_fmap; by exists (k, ids)).
  destruct (mw_keys st Hwf k Hk) as (t & n & Ht & Hn & ->). simpl.
  rewrite splitKey_indexKey by done. simpl. case_decide as Hns; [|done]. subst.
  unfold latestStored, wakes_at, pview, mem_view, ids_of. simpl.
  rewrite (jget_elem_wf _ ids) by (done || apply Hwf). simpl.
  destruct (latest_of _) as [l|]; [|done]. simpl. case_decide; [|done].
  destruct (md_wakeAt _) as [w|]; [|done]. simpl. unfold due.
  destruct d; [|done]. case_decide; case_bool_decide; done || lia.
Qed.

Lemma suspended_pairs_elem ns d st t w :
  mem_wf st -> clean ns ->
  (t, w) ∈ suspended_pairs ns d st <->
  clean t /\ wakes_at (mem_view st t ns) = Some w /\ due d w = true.
Proof.
  intros Hwf Hns. unfold suspended_pairs. rewrite list_elem_of_omap. split.
  - intros ([t' n] & Hin & H). simpl in H. case_decide; [|done]. subst n.
    apply bind_Some in H as (w' & Hw & H). destruct (due d w') eqn:Hd; [|done]. simplify_eq.
    split_and!; [|done..].
    by destruct (proj1 (Forall_forall _ _) (pairs_of_clean st Hwf) (t, ns) Hin).
  - intros (Ht & Hw & Hd). exists (t, ns). simpl. split.
    + destruct (decide ((t, ns) ∈ pairs_of st)) as [|Hni]; [done|].
      apply pview_unknown in Hni; [|done|done]. unfold pview in Hni. simpl in Hni.
      by rewrite Hni in Hw.
    + rewrite decide_True by done. unfold pview. simpl. rewrite Hw. simpl. by rewrite Hd.
Qed.

Lemma suspended_pairs_nodup ns d st : mem_wf st -> NoDup (map fst (suspended_pairs ns d st)).
Proof.
  intros Hwf. pose proof (pairs_of_nodup st Hwf) as Hnd. unfold suspended_pairs.
  induction Hnd as [|p ps Hni Hnd IH]; csimpl; [apply NoDup_nil_2|].
  case_decide as Hns; [|done].
  destruct (wakes_at _) as [w|]; simpl; [|done]. destruct (due d w); [|done].
  simpl. apply NoDup_cons. split; [|done].
  intros ([t' w'] & E & Hin)%list_elem_of_fmap. simpl in E. subst t'.
  apply list_elem_of_omap in Hin as (q & Hq & H). case_decide as Hqn; [|done].
  apply bind_Some in H as (w2 & _ & H). destruct (due d w2); [|done].
  injection H as Hfst _. apply Hni. destruct p, q. simpl in *. by subst.
Qed.

(** ** Properties *)

(** retention.  [pruneThreads] empties exactly the (thread, namespace)
    pairs whose latest checkpoint is older than the cutoff and, unless
    non-terminal pairs were asked for, terminal; every other pair keeps all of
    its checkpoints, and the returned number is the number of pairs emptied. *)
Theorem prune_removes_exactly_the_prunable (st : Mem.t) (before : Z) (onlyTerminal : bool) :
  mem_wf st ->
  let '(st', pruned) := Mem.pruneThreads before onlyTerminal st in
  mem_wf st' /\
  (forall t n, clean t -> clean n ->
     mem_view st' t n =
     if prunable before onlyTerminal (mem_view st t n) then [] else mem_view st t n) /\
  pruned = length (List.filter (fun p => prunable before onlyTerminal (pview st p)) (pairs_of st)) /\
  NoDup (pairs_of st).
Proof.
  intros Hwf. rewrite pruneThreads_sweep by done.
  destruct (sweep_all (fun _ => prunable before onlyTerminal) st Hwf) as (H1 & H2 & H3).
  destruct (sweep _ _ _) as [st' pruned]. split_and!; [done| |done|by apply pairs_of_nodup].
  intros t n Ht Hn. by apply (H2 (t, n)).
Qed.

(** [deleteThread] removes every checkpoint of the thread, in every
    namespace, and no checkpoint of any other thread. *)
Theorem delete_removes_exactly_the_thread (st : Mem.t) (threadId : string) :
  mem_wf st -> clean threadId ->
  mem_wf (Mem.deleteThread threadId st) /\
  forall t n, clean t -> clean n ->
    mem_view (Mem.deleteThread threadId st) t n =
    if decide (t = threadId) then [] else mem_view st t n.
Proof.
  intros Hwf Ht. rewrite deleteThread_sweep by done.
  destruct (sweep_all (fun p _ => bool_decide (p.1 = threadId)) st Hwf) as (H1 & H2 & _).
  split; [done|]. intros t n Ht' Hn'. pose proof (H2 (t, n) (conj Ht' Hn')) as E.
  unfold pview in E. cbn [fst snd] in E. rewrite E. repeat case_match; case_bool_decide; done.
Qed.

(** compaction keeps the [max(1, keepLast)] checkpoints with the greatest
    step numbers, newest first, removes the rest and counts them; the latest
    checkpoint of the pair, the one a resume starts from, is unchanged, and
    so is every other pair. *)
Theorem compact_keeps_the_newest (st : Mem.t) (t n : string) (keepLast : Z) :
  mem_wf st -> clean t -> clean n ->
  let '(st', removed) := Mem.compactThread t n keepLast st in
  let keep := Z.to_nat (Z.max 1 keepLast) in
  mem_wf st' /\
  mem_view st' t n = take keep (sort_desc (mem_view st t n)) /\
  sort_desc (mem_view st t n) ≡ₚ mem_view st t n /\
  StronglySorted not_later (sort_desc (mem_view st t n)) /\
  removed = length (mem_view st t n) - keep /\
  Mem.getTuple t n None st' = Mem.getTuple t n None st /\
  (forall t' n', clean t' -> clean n' -> (t', n') <> (t, n) ->
     mem_view st' t' n' = mem_view st t' n').
Proof.
  intros Hwf Ht Hn.
  pose proof (compact_wf st t n keepLast Hwf Ht Hn) as Hwf'.
  pose proof (compact_view st t n keepLast Hwf Ht Hn) as Hv.
  destruct (Mem.compactThread t n keepLast st) as [st' removed] eqn:E. simpl in Hwf', Hv.
  assert (mem_view st' t n = take (Z.to_nat (Z.max 1 keepLast)) (sort_desc (mem_view st t n)))
    as Hview by (rewrite Hv by done; by rewrite decide_True).
  split_and!; [done|done|apply sort_desc_perm|apply sort_desc_sorted| | |].
  - assert (removed = (Mem.compactThread t n keepLast st).2) as -> by by rewrite E.
    simpl. fold (mem_view st t n). by rewrite length_drop, sort_desc_perm.
  - pose proof (getTuple_latest st' t n Hwf' Ht Hn) as E1.
    pose proof (getTuple_latest st t n Hwf Ht Hn) as E2. simpl in E1, E2.
    rewrite E1, E2, Hview. apply latest_of_newest. lia.
  - intros t' n' Ht' Hn' Hne. rewrite Hv by done. by rewrite decide_False.
Qed.

(** [listSuspended] enumerates exactly the threads whose latest
    checkpoint in the namespace is suspended with a wake time that is due,
    each once, in the order of their wake times; a limit takes a prefix. *)
Theorem listSuspended_enumerates_due_threads
    (st : Mem.t) (ns : string) (dueBefore : option Z) (limit : option nat) :
  mem_wf st -> clean ns ->
  let all := Mem.listSuspended ns dueBefore None st in
  (forall t w, (t, w) ∈ all <->
     clean t /\ wakes_at (mem_view st t ns) = Some w /\ due dueBefore w = true) /\
  NoDup (map fst all) /\
  StronglySorted no_later_wake all /\
  Mem.listSuspended ns dueBefore limit st =
    match limit with Some k => take k all | None => all end.
Proof.
  intros Hwf Hns all. unfold all. rewrite !(listSuspended_pairs ns dueBefore) by done. simpl.
  split_and!; [| |apply sort_wake_sorted|done].
  - intros t w. rewrite sort_wake_perm. by apply suspended_pairs_elem.
  - rewrite sort_wake_perm. by apply suspended_pairs_nodup.
Qed.

(** ** A concrete store

    Three threads of one namespace: ["done"] completed after two steps,
    ["parked"] suspended on a timer, ["late"] suspended on a later one. *)

Definition sample_cp (thread id : string) (step : nat) (at_ : Z) : Checkpoint :=
  mkCheckpoint id thread "wf" None VNull [] step at_.

Definition sample_md (s : status) (wake : option Z) : CheckpointMetadata :=
  mkMetadata Sync s None None wake.

Definition sample_put (thread id : string) (step : nat) (at_ : Z) (s : status) (wake : option Z)
    (st : Mem.t) : Mem.t :=
  put_state thread "wf" (sample_cp thread id step at_) (sample_md s wake) st.

Definition sample_store : Mem.t :=
  sample_put "late" "c5" 1 50 Suspended (Some 900)%Z
    (sample_put "parked" "c4" 2 40 Suspended (Some 300)%Z
      (sample_put "parked" "c3" 1 30 Running None
        (sample_put "done" "c2" 2 20 Completed None
          (sample_put "done" "c1" 1 10 Running None Mem.empty)))).

Lemma sample_store_wf : mem_wf sample_store.
Proof.
  unfold sample_store, sample_put.
  repeat (apply put_state_wf; [|vm_compute; reflexivity..]). apply empty_wf.
Qed.

Lemma prune_removes_exactly_the_prunable_witness :
  mem_view (Mem.pruneThreads 45 true sample_store).1 "done" "wf" = [] /\
  length (mem_view (Mem.pruneThreads 45 true sample_store).1 "parked" "wf") = 2 /\
  (Mem.pruneThreads 45 true sample_store).2 = 1.
Proof.
  pose proof (prune_removes_exactly_the_prunable sample_store 45 true sample_store_wf) as H.
  destruct (Mem.pruneThreads 45 true sample_store) as [st' k].
  destruct H as (_ & Hv & Hk & _). cbn [fst snd].
  rewrite !Hv by (vm_compute; reflexivity).
  rewrite Hk. by vm_compute.
Defined.

Lemma delete_removes_exactly_the_thread_witness :
  mem_view (Mem.deleteThread "parked" sample_store) "parked" "wf" = [] /\
  length (mem_view (Mem.deleteThread "parked" sample_store) "done" "wf") = 2.
Proof.
  destruct (delete_removes_exactly_the_thread sample_store "parked" sample_store_wf)
    as [_ Hv]; [vm_compute; reflexivity|].
  rewrite !Hv by (vm_compute; reflexivity). by vm_compute.
Defined.

Lemma compact_keeps_the_newest_witness :
  map ct_id (mem_view (Mem.compactThread "parked" "wf" 1 sample_store).1 "parked" "wf") = ["c4"] /\
  (Mem.compactThread "parked" "wf" 1 sample_store).2 = 1.
Proof.
  pose proof (compact_keeps_the_newest sample_store "parked" "wf" 1 sample_store_wf) as H.
  destruct (Mem.compactThread "parked" "wf" 1 sample_store) as [st' k].
  destruct H as (_ & Hv & _ & _ & Hk & _);
    [vm_compute; reflexivity..|].
  cbn [fst snd]. rewrite Hv, Hk. by vm_compute.
Defined.

Lemma listSuspended_enumerates_due_threads_witness :
  ("parked", 300%Z) ∈ Mem.listSuspended "wf" (Some 500%Z) None sample_store /\
  ("late", 900%Z) ∉ Mem.listSuspended "wf" (Some 500%Z) None sample_store /\
  Mem.listSuspended "wf" None (Some 1) sample_store = [("parked", 300%Z)].
Proof.
  destruct (listSuspended_enumerates_due_threads sample_store "wf" (Some 500%Z) None
              sample_store_wf) as [Hin _]; [vm_compute; reflexivity|].
  rewrite !Hin. split_and!; [..|by vm_compute].
  - vm_compute; reflexivity.
  - by vm_compute.
  - by vm_compute.
  - intros (_ & _ & H). by vm_compute in H.
Defined.
