(* ===== verification/AwakeableRef.v ===== *)
(** * The textual address of a pending awakeable

    [packages/workflow/src/awakeable-ref.ts]: the triple (workflow, thread,
    name) is written [wf:<workflowId>:<threadId>:<name>] with URI-encoded
    segments and parsed back from untrusted text.

    Strings are sequences of UTF-16 code units here, because
    [encodeURIComponent] and [decodeURIComponent] treat surrogates specially:
    both are modelled from the language specification, with the [URIError]
    they throw as [None]. *)

From S2P Require Import Prelude JsValue Errors.

Local Open Scope Z_scope.

Module Ref.

(** A string as its code units, each in [0, 0xFFFF]. *)
Definition ustring := list Z.

Definition is_unit (c : Z) : bool := (0 <=? c) && (c <=? 0xFFFF).
Definition is_high (c : Z) : bool := (0xD800 <=? c) && (c <=? 0xDBFF).
Definition is_low (c : Z) : bool := (0xDC00 <=? c) && (c <=? 0xDFFF).

Definition between (lo c hi : Z) : bool := (lo <=? c) && (c <=? hi).

(** Letters, digits and [- _ . ! ~ * ' ( )]. *)
Definition unescaped (c : Z) : bool :=
  between 65 c 90 || between 97 c 122 || between 48 c 57 ||
  bool_decide (c ∈ [45; 95; 46; 33; 126; 42; 39; 40; 41]).

Definition hex_upper (n : Z) : Z := if n <? 10 then 48 + n else 55 + n.

Definition percent : Z := 37.
Definition colon : Z := 58.

Definition pct (b : Z) : ustring := [percent; hex_upper (b / 16); hex_upper (b mod 16)].

(** The UTF-8 octets of a code point. *)
Definition utf8 (cp : Z) : list Z :=
  if cp <=? 0x7F then [cp]
  else if cp <=? 0x7FF then [0xC0 + cp / 64; 0x80 + cp mod 64]
  else if cp <=? 0xFFFF then [0xE0 + cp / 4096; 0x80 + cp / 64 mod 64; 0x80 + cp mod 64]
  else [0xF0 + cp / 262144; 0x80 + cp / 4096 mod 64; 0x80 + cp / 64 mod 64; 0x80 + cp mod 64].

Definition pct_all (cp : Z) : ustring := flat_map pct (utf8 cp).

Definition pair_cp (hi lo : Z) : Z := 0x10000 + (hi - 0xD800) * 0x400 + (lo - 0xDC00).

(** [encodeURIComponent]; a lone surrogate throws. *)
Fixpoint encodeURIComponent (s : ustring) : option ustring :=
  match s with
  | [] => Some []
  | c :: s' =>
      if unescaped c then (fun r => c :: r) <$> encodeURIComponent s'
      else if is_high c then
        match s' with
        | d :: s'' => if is_low d
                      then (fun r => pct_all (pair_cp c d) ++ r) <$> encodeURIComponent s''
                      else None
        | [] => None
        end
      else if is_low c then None
      else (fun r => pct_all c ++ r) <$> encodeURIComponent s'
  end.

Definition parse_hex (c : Z) : option Z :=
  if between 48 c 57 then Some (c - 48)
  else if between 65 c 70 then Some (c - 55)
  else if between 97 c 102 then Some (c - 87)
  else None.

(** [%XX] at the head of the text. *)
Definition read_octet (s : ustring) : option (Z * ustring) :=
  match s with
  | p :: h :: l :: rest =>
      if decide (p = percent) then
        match parse_hex h, parse_hex l with
        | Some a, Some b => Some (16 * a + b, rest)
        | _, _ => None
        end
      else None
  | _ => None
  end.

(** A continuation octet, as its six payload bits. *)
Definition read_cont (s : ustring) : option (Z * ustring) :=
  match read_octet s with
  | Some (b, rest) => if between 0x80 b 0xBF then Some (b - 0x80, rest) else None
  | None => None
  end.

(** The octets after the lead octet [b], and the code point they encode;
    overlong forms, surrogates and values above [0x10FFFF] are rejected. *)
Definition read_tail (b : Z) (s : ustring) : option (Z * ustring) :=
  if b <=? 0x7F then Some (b, s)
  else if between 0xC0 b 0xDF then
    '(x, s1) ← read_cont s;
    let cp := (b - 0xC0) * 64 + x in
    if 0x80 <=? cp then Some (cp, s1) else None
  else if between 0xE0 b 0xEF then
    '(x, s1) ← read_cont s; '(y, s2) ← read_cont s1;
    let cp := ((b - 0xE0) * 64 + x) * 64 + y in
    if (0x800 <=? cp) && negb (is_high cp || is_low cp) then Some (cp, s2) else None
  else if between 0xF0 b 0xF7 then
    '(x, s1) ← read_cont s; '(y, s2) ← read_cont s1; '(z, s3) ← read_cont s2;
    let cp := (((b - 0xF0) * 64 + x) * 64 + y) * 64 + z in
    if between 0x10000 cp 0x10FFFF then Some (cp, s3) else None
  else None.

Definition utf16 (cp : Z) : ustring :=
  if cp <=? 0xFFFF then [cp]
  else [0xD800 + (cp - 0x10000) / 0x400; 0xDC00 + (cp - 0x10000) mod 0x400].

(** [decodeURIComponent]: every round consumes at least one code unit. *)
Fixpoint decode_go (fuel : nat) (s : ustring) : option ustring :=
  match s with
  | [] => Some []
  | c :: s' =>
      match fuel with
      | O => None
      | S fuel' =>
          if decide (c = percent) then
            '(b, s1) ← read_octet s;
            '(cp, s2) ← read_tail b s1;
            (fun r => utf16 cp ++ r) <$> decode_go fuel' s2
          else (fun r => c :: r) <$> decode_go fuel' s'
      end
  end.

Definition decodeURIComponent (s : ustring) : option ustring := decode_go (length s) s.

(** ** The module's own functions *)

Record AwakeableRef := mkRef {
  ar_workflowId : ustring;
  ar_threadId : ustring;
  ar_name : ustring;
}.

Inductive ref_error := EmptySegment (field : string) | URIError.

(** [REF_PREFIX = 'wf'] *)
Definition REF_PREFIX : ustring := [119; 102].

Definition join (parts : list ustring) : ustring :=
  match parts with
  | [] => []
  | p :: ps => p ++ flat_map (fun q => colon :: q) ps
  end.

Definition empty_field (ref : AwakeableRef) : option string :=
  fst <$> List.find (fun p : string * ustring => bool_decide (p.2 = []))
    [("workflowId"%string, ar_workflowId ref); ("threadId"%string, ar_threadId ref);
     ("name"%string, ar_name ref)].

Definition serializeAwakeableRef (ref : AwakeableRef) : result ref_error ustring :=
  match empty_field ref with
  | Some field => Err (EmptySegment field)
  | None =>
      match encodeURIComponent (ar_workflowId ref), encodeURIComponent (ar_threadId ref),
            encodeURIComponent (ar_name ref) with
      | Some w, Some t, Some n => Ok (join [REF_PREFIX; w; t; n])
      | _, _, _ => Err URIError
      end
  end.

(** [raw.split(':')] *)
Fixpoint split_colon (s : ustring) : list ustring :=
  match s with
  | [] => [[]]
  | c :: s' =>
      match split_colon s' with
      | p :: ps => if decide (c = colon) then [] :: p :: ps else (c :: p) :: ps
      | [] => [[]]
      end
  end.

(** One segment: non-empty before and after decoding. *)
Definition decode_segment (part : ustring) : option ustring :=
  if decide (part = []) then None else decodeURIComponent part.

Definition parseAwakeableRef (raw : ustring) : option AwakeableRef :=
  match split_colon raw with
  | [p; w; t; n] =>
      if decide (p = REF_PREFIX) then
        w' ← decode_segment w; t' ← decode_segment t; n' ← decode_segment n;
        if bool_decide (w' = []) || bool_decide (t' = []) || bool_decide (n' = []) then None
        else Some (mkRef w' t' n')
      else None
  | _ => None
  end.

(** ** Well-formed UTF-16: no lone surrogate *)

Fixpoint wf16 (s : ustring) : bool :=
  match s with
  | [] => true
  | c :: s' =>
      if is_high c then match s' with d :: s'' => is_low d && wf16 s'' | [] => false end
      else is_unit c && negb (is_low c) && wf16 s'
  end.

Definition segment_ok (s : ustring) : bool := negb (bool_decide (s = [])) && wf16 s.

Definition ref_ok (ref : AwakeableRef) : bool :=
  segment_ok (ar_workflowId ref) && segment_ok (ar_threadId ref) && segment_ok (ar_name ref).

(** ** Encoding and decoding one code point *)

Lemma parse_hex_upper d : 0 <= d < 16 -> parse_hex (hex_upper d) = Some d.
Proof.
  intros H. unfold parse_hex, hex_upper, between.
  destruct (d <? 10) eqn:E; [apply Z.ltb_lt in E|apply Z.ltb_ge in E].
  - replace (48 <=? 48 + d) with true by lia. replace (48 + d <=? 57) with true by lia.
    simpl. f_equal. lia.
  - replace (48 <=? 55 + d) with true by lia. replace (55 + d <=? 57) with false by lia.
    replace (65 <=? 55 + d) with true by lia. replace (55 + d <=? 70) with true by lia.
    simpl. f_equal. lia.
Qed.

Lemma read_octet_pct b rest : 0 <= b < 256 -> read_octet (pct b ++ rest) = Some (b, rest).
Proof.
  intros H. unfold pct, read_octet. cbn [app]. rewrite decide_True by done.
  rewrite !parse_hex_upper by (Z.div_mod_to_equations; lia).
  do 2 f_equal. Z.div_mod_to_equations; lia.
Qed.

Lemma read_cont_pct x rest : 0 <= x < 64 -> read_cont (pct (0x80 + x) ++ rest) = Some (x, rest).
Proof.
  intros H. unfold read_cont. rewrite read_octet_pct by lia. unfold between.
  replace (128 <=? 128 + x) with true by lia. replace (128 + x <=? 191) with true by lia.
  simpl. do 2 f_equal. lia.
Qed.

Definition scalar (cp : Z) : Prop :=
  0 <= cp <= 0x10FFFF /\ is_high cp = false /\ is_low cp = false.

Ltac bools := unfold between, is_high, is_low, is_unit in *.

(** Settle the comparisons of a case analysis with the arithmetic at hand. *)
Ltac cmp :=
  repeat match goal with
  | |- context [?a <=? ?b] =>
      first [ replace (a <=? b) with true by (Z.div_mod_to_equations; lia)
            | replace (a <=? b) with false by (Z.div_mod_to_equations; lia) ]
  end; cbn [andb orb negb].

Lemma read_tail_utf8 cp rest :
  scalar cp ->
  exists b tail, utf8 cp = b :: tail /\ 0 <= b < 256 /\ Forall (fun x => 0 <= x < 256) tail /\
    read_tail b (flat_map pct tail ++ rest) = Some (cp, rest).
Proof.
  intros (Hcp & Hh & Hl). unfold utf8, read_tail.
  destruct (cp <=? 0x7F) eqn:E1; [apply Z.leb_le in E1|apply Z.leb_gt in E1].
  { exists cp, []. split_and!; [done|lia|lia|constructor|]. by cmp. }
  destruct (cp <=? 0x7FF) eqn:E2; [apply Z.leb_le in E2|apply Z.leb_gt in E2].
  { eexists _, _. split_and!; [done|Z.div_mod_to_equations; lia..| |].
    { repeat constructor; Z.div_mod_to_equations; lia. }
    bools. cmp. cbn [flat_map]. rewrite <-!app_assoc, read_cont_pct by (Z.div_mod_to_equations; lia).
    cbn [mbind option_bind]. replace ((192 + cp / 64 - 192) * 64 + cp mod 64) with cp by (Z.div_mod_to_equations; lia).
    by cmp. }
  destruct (cp <=? 0xFFFF) eqn:E3; [apply Z.leb_le in E3|apply Z.leb_gt in E3].
  { eexists _, _. split_and!; [done|Z.div_mod_to_equations; lia..| |].
    { repeat constructor; Z.div_mod_to_equations; lia. }
    bools. cmp. cbn [flat_map].
    rewrite <-!app_assoc, !read_cont_pct by (Z.div_mod_to_equations; lia). cbn [mbind option_bind].
    rewrite !read_cont_pct by (Z.div_mod_to_equations; lia). cbn [mbind option_bind].
    replace (((224 + cp / 4096 - 224) * 64 + cp / 64 mod 64) * 64 + cp mod 64) with cp
      by (Z.div_mod_to_equations; lia).
    rewrite Hh, Hl. by cmp. }
  eexists _, _. split_and!; [done|Z.div_mod_to_equations; lia..| |].
  { repeat constructor; Z.div_mod_to_equations; lia. }
  bools. cmp. cbn [flat_map].
  rewrite <-!app_assoc, !read_cont_pct by (Z.div_mod_to_equations; lia). cbn [mbind option_bind].
  rewrite !read_cont_pct by (Z.div_mod_to_equations; lia). cbn [mbind option_bind].
  rewrite !read_cont_pct by (Z.div_mod_to_equations; lia). cbn [mbind option_bind].
  replace ((((240 + cp / 262144 - 240) * 64 + cp / 4096 mod 64) * 64 + cp / 64 mod 64) * 64 +
           cp mod 64) with cp by (Z.div_mod_to_equations; lia).
  by cmp.
Qed.

Lemma decode_pct_all cp enc out fuel :
  scalar cp -> decode_go fuel enc = Some out ->
  decode_go (S fuel) (pct_all cp ++ enc) = Some (utf16 cp ++ out).
Proof.
  intros Hcp Hout. destruct (read_tail_utf8 cp enc Hcp) as (b & tl & Hu & Hb & _ & Hr).
  unfold pct_all. rewrite Hu. cbn [flat_map].
  rewrite <-app_assoc. unfold pct at 1. cbn [app decode_go]. rewrite decide_True by done.
  change (percent :: hex_upper (b / 16) :: hex_upper (b mod 16) :: flat_map pct tl ++ enc)
    with (pct b ++ (flat_map pct tl ++ enc)).
  rewrite read_octet_pct by done. cbn [mbind option_bind]. rewrite Hr. cbn [mbind option_bind].
  by rewrite Hout.
Qed.

Lemma decode_go_fuel s out k k' :
  decode_go k s = Some out -> (k <= k')%nat -> decode_go k' s = Some out.
Proof.
  revert s out k'. induction k as [|k IH]; intros s out k' H Hle.
  - destruct s; [by destruct k'|done].
  - destruct s as [|c s]; [by destruct k'|]. destruct k' as [|k']; [lia|].
    cbn [decode_go] in H |- *. case_decide.
    + destruct (read_octet _) as [[b s1]|]; [|done]. cbn [mbind option_bind] in H |- *.
      destruct (read_tail b s1) as [[cp s2]|]; [|done]. cbn [mbind option_bind] in H |- *.
      apply fmap_Some in H as (r & Hr & ->). by rewrite (IH _ _ k' Hr) by lia.
    + apply fmap_Some in H as (r & Hr & ->). by rewrite (IH _ _ k' Hr) by lia.
Qed.

(** The encoded text holds neither a colon nor a bare percent sign. *)
Lemma unescaped_plain c : unescaped c = true -> c <> percent /\ c <> colon /\ is_high c = false.
Proof.
  unfold unescaped, percent, colon. bools. intros H.
  apply orb_true_iff in H as [H|H%bool_decide_eq_true]; [lia|].
  repeat (apply elem_of_cons in H as [->|H]; [done|]). by apply elem_of_nil in H.
Qed.

Lemma pct_all_no_colon cp : scalar cp -> colon ∉ pct_all cp.
Proof.
  intros Hcp. destruct (read_tail_utf8 cp [] Hcp) as (b & tl & Hu & Hb & Htl & _).
  unfold pct_all. rewrite Hu. intros (x & Hx & Hin)%list_elem_of_In%in_flat_map.
  apply list_elem_of_In in Hx.
  assert (0 <= x < 256) as Hr by (apply elem_of_cons in Hx as [->|Hx]; [done|];
    by eapply (proj1 (Forall_forall _ _) Htl)).
  unfold pct, colon, percent, hex_upper in Hin. simpl in Hin.
  destruct Hin as [?|[Hh|[Hh|[]]]]; [done| |].
  all: destruct (_ <? _) eqn:E in Hh; Z.div_mod_to_equations; lia.
Qed.

Lemma utf16_unit c : is_unit c = true -> utf16 c = [c].
Proof. unfold utf16. bools. intros. by cmp. Qed.

Lemma utf16_pair c d : is_high c = true -> is_low d = true -> utf16 (pair_cp c d) = [c; d].
Proof.
  unfold utf16, pair_cp. bools. intros Hc Hd. cmp.
  f_equal; [|f_equal]; Z.div_mod_to_equations; lia.
Qed.

Lemma pair_cp_scalar c d : is_high c = true -> is_low d = true -> scalar (pair_cp c d).
Proof. unfold scalar, pair_cp. bools. intros. split_and!; lia. Qed.

Lemma unit_scalar c :
  is_unit c = true -> is_high c = false -> is_low c = false -> scalar c.
Proof. unfold scalar. bools. intros. split_and!; lia. Qed.

Definition encodes (s enc : ustring) : Prop :=
  encodeURIComponent s = Some enc /\ colon ∉ enc /\ (s <> [] -> enc <> []) /\
  decodeURIComponent enc = Some s.

Lemma pct_all_length cp : (3 <= length (pct_all cp))%nat.
Proof. unfold pct_all, utf8. repeat case_match; simpl; lia. Qed.

Lemma decode_prefixed cp enc s :
  scalar cp -> decodeURIComponent enc = Some s ->
  decodeURIComponent (pct_all cp ++ enc) = Some (utf16 cp ++ s).
Proof.
  intros Hcp Hd. unfold decodeURIComponent in *.
  eapply decode_go_fuel; [by apply decode_pct_all|].
  rewrite length_app. pose proof (pct_all_length cp). lia.
Qed.

Lemma prefixed_nonempty cp (enc : ustring) : pct_all cp ++ enc <> [].
Proof.
  intros H%(f_equal length). rewrite length_app in H. pose proof (pct_all_length cp).
  simpl in H. lia.
Qed.

Lemma wf16_encodes s : wf16 s = true -> exists enc, encodes s enc.
Proof.
  induction s as [s IH] using (induction_ltof1 _ (@length Z)). unfold ltof in IH.
  destruct s as [|c s]; [intros _; exists []; split_and!; [done|set_solver|done|done]|].
  cbn [wf16]. intros Hwf. unfold encodes. cbn [encodeURIComponent].
  destruct (unescaped c) eqn:Hu.
  { destruct (unescaped_plain c Hu) as (Hp & Hcol & Hh). rewrite Hh in Hwf.
    apply andb_true_iff in Hwf as [_ Hwf].
    destruct (IH s) as (enc & -> & Hnc & _ & Hd); [simpl; lia|done|]. exists (c :: enc).
    split_and!; [done|set_solver|done|]. unfold decodeURIComponent in *. simpl.
    rewrite decide_False by done. by rewrite Hd. }
  destruct (is_high c) eqn:Hh.
  { destruct s as [|d s]; [done|]. apply andb_true_iff in Hwf as [Hl Hwf]. rewrite Hl.
    destruct (IH s) as (enc & -> & Hnc & _ & Hd); [simpl; lia|done|].
    pose proof (pair_cp_scalar c d Hh Hl) as Hs. exists (pct_all (pair_cp c d) ++ enc).
    split_and!; [done| |intros _; apply prefixed_nonempty|].
    - rewrite elem_of_app. by intros [?%pct_all_no_colon|?].
    - rewrite (decode_prefixed _ enc s) by done. by rewrite utf16_pair. }
  apply andb_true_iff in Hwf as [[Hun Hl%negb_true_iff]%andb_true_iff Hwf]. rewrite Hl.
  destruct (IH s) as (enc & -> & Hnc & _ & Hd); [simpl; lia|done|].
  pose proof (unit_scalar c Hun Hh Hl) as Hs. exists (pct_all c ++ enc).
  split_and!; [done| |intros _; apply prefixed_nonempty|].
  - rewrite elem_of_app. by intros [?%pct_all_no_colon|?].
  - rewrite (decode_prefixed _ enc s) by done. by rewrite utf16_unit.
Qed.

(** A lone surrogate is what makes [encodeURIComponent] throw. *)
Lemma encode_wf16 s enc :
  Forall (fun c => is_unit c = true) s -> encodeURIComponent s = Some enc -> wf16 s = true.
Proof.
  revert enc. induction s as [s IH] using (induction_ltof1 _ (@length Z)). unfold ltof in IH.
  intros enc Hu. destruct s as [|c s]; [done|]. apply Forall_cons in Hu as [Hc Hu].
  cbn [wf16 encodeURIComponent]. destruct (unescaped c) eqn:Hun.
  { destruct (unescaped_plain c Hun) as (_ & _ & Hh). rewrite Hh, Hc.
    intros (r & Hr & _)%fmap_Some.
    assert (is_low c = false) as -> by (unfold unescaped in Hun; bools;
      apply orb_true_iff in Hun as [H|H%bool_decide_eq_true]; [lia|];
      repeat (apply elem_of_cons in H as [->|H]; [done|]); by apply elem_of_nil in H).
    eapply IH; [simpl; lia|done|exact Hr]. }
  destruct (is_high c) eqn:Hh.
  { destruct s as [|d s]; [done|]. destruct (is_low d); [|done].
    apply Forall_cons in Hu as [_ Hu]. intros (r & Hr & _)%fmap_Some. simpl.
    eapply IH; [simpl; lia|done|exact Hr]. }
  destruct (is_low c); [done|]. rewrite Hc. intros (r & Hr & _)%fmap_Some.
  eapply IH; [simpl; lia|done|exact Hr].
Qed.

(** ** Splitting what was joined *)

Lemma split_colon_plain p : colon ∉ p -> split_colon p = [p].
Proof.
  induction p as [|c p IH]; [done|]. intros [Hc Hp]%not_elem_of_cons. simpl.
  rewrite IH by done. by rewrite decide_False.
Qed.

Lemma split_colon_cons p q : colon ∉ p -> split_colon (p ++ colon :: q) = p :: split_colon q.
Proof.
  induction p as [|c p IH]; intros Hp; simpl.
  - destruct (split_colon q) eqn:E; [|done].
    exfalso. destruct q as [|x q]; simpl in E; [done|].
    destruct (split_colon q); [done|]. by case_decide.
  - apply not_elem_of_cons in Hp as [Hc Hp]. rewrite IH by done. by rewrite decide_False.
Qed.

Lemma split_join4 p w t n :
  colon ∉ p -> colon ∉ w -> colon ∉ t -> colon ∉ n ->
  split_colon (join [p; w; t; n]) = [p; w; t; n].
Proof.
  intros Hp Hw Ht Hn. unfold join. cbn [flat_map]. rewrite app_nil_r. cbn [app].
  rewrite split_colon_cons by done. rewrite split_colon_cons by done.
  rewrite split_colon_cons by done. by rewrite split_colon_plain.
Qed.

(** ** Properties *)

Lemma empty_field_none ref :
  empty_field ref = None <->
  ar_workflowId ref <> [] /\ ar_threadId ref <> [] /\ ar_name ref <> [].
Proof.
  unfold empty_field. simpl. repeat case_bool_decide; simpl; split; naive_solver.
Qed.

Lemma decode_segment_encoded s enc : s <> [] -> encodes s enc -> decode_segment enc = Some s.
Proof.
  intros Hs (_ & _ & Hne & Hd). unfold decode_segment. by rewrite decide_False by auto.
Qed.

Lemma prefix_plain : colon ∉ REF_PREFIX.
Proof. intros H. repeat (apply elem_of_cons in H as [H|H]; [done|]). by apply elem_of_nil in H. Qed.

Lemma segment_ok_encodes s : segment_ok s = true -> s <> [] /\ exists enc, encodes s enc.
Proof.
  unfold segment_ok. intros [Hne Hwf]%andb_true_iff. apply negb_true_iff in Hne.
  apply bool_decide_eq_false in Hne. split; [done|by apply wf16_encodes].
Qed.

Lemma serialize_parse ref :
  ref_ok ref = true ->
  exists text, serializeAwakeableRef ref = Ok text /\ parseAwakeableRef text = Some ref.
Proof.
  unfold ref_ok. intros [[Hw Ht]%andb_true_iff Hn]%andb_true_iff.
  apply segment_ok_encodes in Hw as [Hw (w & Ew)]. apply segment_ok_encodes in Ht as [Ht (t & Et)].
  apply segment_ok_encodes in Hn as [Hn (n & En)].
  unfold serializeAwakeableRef. rewrite (proj2 (empty_field_none ref)) by done.
  rewrite (proj1 Ew), (proj1 Et), (proj1 En). eexists. split; [done|].
  unfold parseAwakeableRef.
  rewrite split_join4 by (apply Ew || apply Et || apply En || apply prefix_plain).
  rewrite decide_True by done.
  rewrite (decode_segment_encoded _ w Hw Ew), (decode_segment_encoded _ t Ht Et),
    (decode_segment_encoded _ n Hn En). cbn [mbind option_bind].
  rewrite !bool_decide_eq_false_2 by done. simpl. by destruct ref.
Qed.

(** an awakeable address survives its textual form.  For a triple of
    JavaScript strings, serialisation succeeds exactly when every segment
    is non-empty and free of lone surrogates, and whatever text it produces
    parses back to the same triple, whichever characters (separators,
    percent signs, astral characters) the segments contain. *)
Theorem awakeable_ref_roundtrip (ref : AwakeableRef) :
  Forall (fun c => is_unit c = true) (ar_workflowId ref ++ ar_threadId ref ++ ar_name ref) ->
  is_ok (serializeAwakeableRef ref) = ref_ok ref /\
  forall text, serializeAwakeableRef ref = Ok text -> parseAwakeableRef text = Some ref.
Proof.
  intros [Hw [Ht Hn]%Forall_app]%Forall_app.
  pose proof (serialize_parse ref) as Hgo.
  destruct (ref_ok ref) eqn:Hok.
  { destruct (Hgo eq_refl) as (text & -> & Hp). split; [done|]. by intros ? [= <-]. }
  destruct (serializeAwakeableRef ref) as [text|] eqn:E; [exfalso|done].
  unfold serializeAwakeableRef in E. destruct (empty_field ref) eqn:Ee; [done|].
  apply empty_field_none in Ee as (? & ? & ?).
  destruct (encodeURIComponent (ar_workflowId ref)) eqn:E1; [|done].
  destruct (encodeURIComponent (ar_threadId ref)) eqn:E2; [|done].
  destruct (encodeURIComponent (ar_name ref)) eqn:E3; [|done].
  apply encode_wf16 in E1, E2, E3; [|done..].
  unfold ref_ok, segment_ok in Hok. rewrite E1, E2, E3 in Hok.
  by rewrite !bool_decide_eq_false_2 in Hok.
Qed.

(** The thread id holds a colon, an accented letter and an astral character. *)
Lemma awakeable_ref_roundtrip_witness :
  let ref := mkRef [102; 108; 111; 119] [97; 58; 0xE9; 0xD83D; 0xDE00] [110; 37] in
  exists text, serializeAwakeableRef ref = Ok text /\ length text = 35%nat /\
               parseAwakeableRef text = Some ref.
Proof.
  intros ref. eexists. split; [vm_compute; reflexivity|]. split; [vm_compute; reflexivity|].
  apply (awakeable_ref_roundtrip ref); [|vm_compute; reflexivity].
  vm_compute. repeat constructor.
Defined.
End Ref.
