(* ===== verification/Factory.v ===== *)
(** * The workflow handle

    [packages/workflow/src/factory.ts]: the eager validation of a
    configuration, and the operations of the handle [createWorkflow] returns
    that are more than a call of the engine: [tick], [resolveAwakeable],
    [approve], [getState], [listCheckpoints] and [fork]; with the read path of
    [packages/workflow/src/inspect.ts] over a bare store. *)

From S2P Require Import Prelude JsValue Json Errors Pause Channels CheckpointStore Frontier Engine EngineRun.

Local Open Scope string_scope.

(** ** Comparisons of numbers *)

Definition num_ltb (a b : num) : bool :=
  match a, b with
  | NFin x, NFin y => bool_decide (x < y)%Z
  | NNegInf, (NFin _ | NPosInf) => true
  | NFin _, NPosInf => true
  | _, _ => false
  end.

Definition num_eqb (a b : num) : bool :=
  negb (bool_decide (a = NNaN)) && bool_decide (a = b).

Definition num_leb (a b : num) : bool := num_ltb a b || num_eqb a b.

(** [Math.min(...xs)] *)
Definition num_min (xs : list num) : num :=
  if bool_decide (NNaN ∈ xs) then NNaN
  else foldl (fun m x => if num_ltb x m then x else m) NPosInf xs.

Definition num_string (n : num) : string :=
  match n with
  | NFin z => pr_Z z ""
  | NNaN => "NaN"
  | NPosInf => "Infinity"
  | NNegInf => "-Infinity"
  end.

(** ** [validateConfig]

    The configuration as the caller passes it: the scalar options are still
    JavaScript numbers and strings, everything else has its declared type.
    The [typeof] checks that the declared types already guarantee have no
    counterpart. *)
Record ConfigInput := mkInput {
  in_config : WorkflowConfig;
  in_durability : option string;
  in_maxSteps : option num;
  in_maxTotalSteps : option num;
  in_cancelGraceMs : option num;
}.

(** [name in config.nodes] *)
Definition in_nodes (cfg : WorkflowConfig) (name : string) : bool :=
  in_object name (cfg_nodes cfg).

Definition require (b : bool) (e : exn) : result exn unit := if b then Ok () else Err e.

Definition validate_edge (cfg : WorkflowConfig) (_ : unit) (e : WorkflowEdge) : result exn unit :=
  rbind (require (bool_decide (we_from e = START_NODE) || in_nodes cfg (we_from e))
           (UnknownNodeError (we_from e) "edge.from")) (fun _ =>
  require (bool_decide (we_to e = END_NODE) || in_nodes cfg (we_to e))
    (UnknownNodeError (we_to e) "edge.to")).

Definition positive_integer (n : option num) : bool :=
  match n with
  | None => true
  | Some (NFin z) => bool_decide (1 <= z)%Z
  | Some _ => false
  end.

Definition non_negative_finite (n : option num) : bool :=
  match n with
  | None => true
  | Some (NFin z) => bool_decide (0 <= z)%Z
  | Some _ => false
  end.

Definition validateConfig (input : ConfigInput) : result exn unit :=
  let cfg := in_config input in
  let invalid := InvalidWorkflowConfigError in
  rbind (require (negb (bool_decide (cfg_name cfg = ""))) (invalid "name")) (fun _ =>
  rbind (require (negb (bool_decide (cfg_nodes cfg = []))) (invalid "nodes")) (fun _ =>
  rbind (foldM (fun _ name =>
           require (negb (bool_decide (name = START_NODE)) && negb (bool_decide (name = END_NODE)))
                   (invalid "reserved node name")) () (jkeys (cfg_nodes cfg))) (fun _ =>
  rbind (foldM (validate_edge cfg) () (cfg_edges cfg)) (fun _ =>
  rbind (require (existsb (fun e => bool_decide (we_from e = START_NODE)) (cfg_edges cfg))
           (invalid "no start edge")) (fun _ =>
  rbind (foldM (fun _ name => require (negb (bool_decide (name = TASKS_CHANNEL)))
                   (invalid "reserved channel name")) () (jkeys (cfg_channels cfg))) (fun _ =>
  rbind (require match in_durability input with
                 | None => true
                 | Some d => bool_decide (d ∈ ["sync"; "exit"; "async"])
                 end (invalid "durability")) (fun _ =>
  rbind (require (positive_integer (in_maxSteps input)) (invalid "maxSteps")) (fun _ =>
  rbind (require (positive_integer (in_maxTotalSteps input)) (invalid "maxTotalSteps")) (fun _ =>
  require (non_negative_finite (in_cancelGraceMs input)) (invalid "cancelGraceMs")))))))))).

(** [normalizeDurability]: the legacy ['async'] and an absent mode are [sync]. *)
Definition normalizeDurability (mode : option string) : DurabilityMode :=
  match mode with Some "exit" => Exit | _ => Sync end.

(** ** Timers of a frontier *)

Definition due_at (now : Z) (p : PendingPauseRecord) : bool :=
  match pp_wakeAt p with Some w => num_leb w (NFin now) | None => false end.

Definition pendingAfter (now : Z) (ps : list PendingPauseRecord) : list num :=
  List.filter (num_ltb (NFin now)) (omap pp_wakeAt ps).

Definition wakes_before (p q : PendingPauseRecord) : bool :=
  match pp_wakeAt p, pp_wakeAt q with Some a, Some b => num_ltb a b | _, _ => false end.

(** [due.reduce((min, p) => (p.wakeAt < min.wakeAt ? p : min))] *)
Definition earliest_of (due : list PendingPauseRecord) : option PendingPauseRecord :=
  match due with
  | [] => None
  | p :: ps => Some (foldl (fun mn q => if wakes_before q mn then q else mn) p ps)
  end.

(** The predicate [tick] hands to the engine. *)
Definition tick_select (e p : PendingPauseRecord) : bool :=
  match pp_wakeAt p, pp_wakeAt e with Some a, Some b => num_eqb a b | _, _ => false end &&
  bool_decide (pp_nodeName p = pp_nodeName e).

(** A named pause is answered with its timeout decision, denial by default. *)
Definition tick_directive (e : PendingPauseRecord) : option Directive :=
  match pp_name e with
  | Some _ =>
      let decision := match getp "timeoutDecision" (pp_value e) with
                      | VUndef | VNull => DEFAULT_APPROVAL_TIMEOUT_DECISION
                      | d => d
                      end in
      Some (mkDirective None decision None)
  | None => None
  end.

Definition tick_options (e : PendingPauseRecord) : ResumeOptions :=
  mkResume (tick_directive e) ModeResume (Some (tick_select e))
    (Some ("timer@" +:+ num_string (default NNaN (pp_wakeAt e)))) false.

Definition next_wake (ws : list num) : option num :=
  match ws with [] => None | _ => Some (num_min ws) end.

(** ** The read model *)

Record PendingPause := mkShownPause {
  pe_nodeName : string;
  pe_value : value;
  pe_dispatchArgs : option value;
  pe_staticBefore : bool;
  pe_staticAfter : bool;
}.

(** [readPauseTag] *)
Definition readPauseTag (md : CheckpointMetadata) : option PendingPause :=
  json ← find_tag PAUSE_TAG_PREFIX md;
  parsed ← JSON_parse json;
  nodeName ← str_of (getp "nodeName" parsed);
  Some (mkShownPause nodeName (getp "value" parsed) (defined (getp "dispatchArgs" parsed))
          (truthy (getp "staticBefore" parsed)) (truthy (getp "staticAfter" parsed))).

Record WorkflowState := mkState {
  ws_threadId : string;
  ws_stepNumber : nat;
  ws_status : status;
  ws_state : jstate;
  ws_checkpointId : string;
  ws_pendingPause : option PendingPause;
  ws_pendingPauses : list PendingPauseRecord;
}.

Record ThreadInspection := mkInspection {
  tn_workflowName : string;
  tn_namespace : string;
  tn_threadId : string;
  tn_checkpointId : string;
  tn_stepNumber : nat;
  tn_createdAt : Z;
  tn_status : status;
  tn_state : value;
  tn_nodeName : option string;
  tn_pendingPauses : list PendingPauseRecord;
}.

Record ThreadCheckpointSummary := mkSummary {
  su_checkpointId : string;
  su_parentId : option string;
  su_stepNumber : nat;
  su_createdAt : Z;
  su_status : status;
  su_nodeName : option string;
}.

Definition no_list_options : ListOptions := mkListOptions None None None.

Section Handle.
Context {S : Type} `{CheckpointStore S}.
Context (newId : string -> nat -> string) (world : nat -> S -> S).
Context (cfg : WorkflowConfig).

Let M A := M (S := S) A.

Local Notation "x <- m ;; k" := (bind m (fun x => k))
  (at level 100, m at next level, right associativity) : js_scope.
Local Notation "m ;; k" := (bind m (fun _ => k))
  (at level 100, k at level 200, right associativity) : js_scope.
Local Open Scope js_scope.

Definition namespace : string := namespaceFor (cfg_name cfg).

Definition read_latest (threadId : string) : M (option CheckpointTuple) :=
  await_store world ;;
  rs <- get ;;
  ret (getTuple threadId namespace None (rs_store rs)).

(** [for await (const event of events)] of a stream nobody else sees: the
    events the computation yielded, the outer trace untouched.  The source
    stops at the first error event, [drain] reads to the end: the two agree
    because an error event is the last one, except for the report of a
    payload that an awakeable's schema rejects, which a timer answer never
    is (only plain timers and approvals carry a wake time). *)
Definition drain {A} (m : M A) : M (list event) := fun st =>
  let inner := mkRun (rs_store st) (rs_ids st) (rs_tick st) (rs_now st) [] (rs_lock st) (rs_int st) in
  let '(st', r) := m inner in
  (mkRun (rs_store st') (rs_ids st') (rs_tick st') (rs_now st') (rs_events st) (rs_lock st')
         (rs_int st'),
   match r with Ok _ => Ok (rs_events st') | Err e => Err e end).

Definition first_error (events : list event) : option string :=
  head (omap (fun e => match e with EvError _ code => Some code | _ => None end) events).

Definition tick (threadId : string) (now : Z) (envs : nat -> StepEnv) : M (bool * option num) :=
  latest <- read_latest threadId ;;
  match latest with
  | None => throw (ThreadNotFoundError threadId)
  | Some tuple =>
      let pauses := fe_pauses (readFrontier (ct_metadata tuple)) in
      match earliest_of (List.filter (due_at now) pauses), ct_status tuple with
      | Some earliest, Suspended =>
          let args := mkArgs cfg threadId (default Sync (cfg_durability cfg)) SValues in
          events <- drain (resumeEngine newId world args (tick_options earliest) envs) ;;
          match first_error events with
          | Some code => throw (WorkflowError code "")
          | None =>
              after <- read_latest threadId ;;
              let remaining := match after with
                               | None => []
                               | Some t => omap pp_wakeAt (fe_pauses (readFrontier (ct_metadata t)))
                               end in
              ret (true, next_wake remaining)
          end
      | _, _ => ret (false, next_wake (pendingAfter now pauses))
      end
  end.

(** [execute] with the options' defaults. *)
Definition execute (thread : option string) (durability : option string) (input : jstate)
    (stream : option StreamMode) (envs : nat -> StepEnv) : M bool :=
  threadId <- match thread with Some t => ret t | None => fresh newId "thread" end ;;
  runEngine newId world
    (mkArgs cfg threadId (match durability with
                          | Some d => normalizeDurability (Some d)
                          | None => default Sync (cfg_durability cfg)
                          end) (default SValues stream)) input envs.

Definition resolve_options (name : string) (v : value) (allowVersionMismatch : bool) :
    ResumeOptions :=
  mkResume (Some (mkDirective None v None)) ModeResume
    (Some (fun p => bool_decide (pp_name p = Some name))) (Some name) allowVersionMismatch.

Definition resolveAwakeable (args : RunArgs) (name : string) (v : value)
    (allowVersionMismatch : bool) (envs : nat -> StepEnv) : M bool :=
  resumeEngine newId world args (resolve_options name v allowVersionMismatch) envs.

Definition approve (args : RunArgs) (name : string) (decision : value)
    (allowVersionMismatch : bool) (envs : nat -> StepEnv) : M bool :=
  resolveAwakeable args name decision allowVersionMismatch envs.

Definition getState (threadId : string) : M WorkflowState :=
  latest <- read_latest threadId ;;
  match latest with
  | None => throw (ThreadNotFoundError threadId)
  | Some tuple =>
      ret (mkState threadId (ct_step tuple) (ct_status tuple)
             (entries (unwrapPersistedState (cp_state (ct_checkpoint tuple)))) (ct_id tuple)
             (readPauseTag (ct_metadata tuple)) (fe_pauses (readFrontier (ct_metadata tuple))))
  end.

Definition listCheckpoints (threadId : string) : M (list Checkpoint) :=
  await_store world ;;
  rs <- get ;;
  ret (map ct_checkpoint (listTuples threadId namespace no_list_options (rs_store rs))).

Definition delete (threadId : string) : M unit :=
  await_store world ;;
  set_store (deleteThread threadId).

Definition fork (threadId fromCheckpointId : string) (patch : jstate) : M string :=
  await_store world ;;
  rs <- get ;;
  match getTuple threadId namespace (Some fromCheckpointId) (rs_store rs) with
  | None => throw (CheckpointNotFoundError threadId fromCheckpointId)
  | Some _ => forkThread newId world cfg threadId fromCheckpointId patch
  end.

(** ** [inspect.ts] *)

Definition readThreadState (threadId : string) (s : S) : option ThreadInspection :=
  tuple ← getTuple threadId namespace None s;
  Some (mkInspection (cfg_name cfg) namespace threadId (ct_id tuple) (ct_step tuple)
          (cp_createdAt (ct_checkpoint tuple)) (ct_status tuple)
          (unwrapPersistedState (cp_state (ct_checkpoint tuple)))
          (md_nodeName (ct_metadata tuple)) (fe_pauses (readFrontier (ct_metadata tuple)))).

Definition listThreadCheckpoints (threadId : string) (s : S) : list ThreadCheckpointSummary :=
  map (fun tuple =>
    mkSummary (ct_id tuple) (cp_parentId (ct_checkpoint tuple)) (ct_step tuple)
      (cp_createdAt (ct_checkpoint tuple)) (ct_status tuple) (md_nodeName (ct_metadata tuple)))
    (listTuples threadId namespace no_list_options s).
End Handle.
