(* ===== verification/FactoryProps.v ===== *)
(** * The workflow handle: validation, timers and forks

    A validated graph only ever schedules declared nodes; [tick] answers the
    earliest due pause and no other; a fork copies one checkpoint to a fresh
    thread and leaves every other thread alone. *)

From S2P Require Import Prelude JsValue Json Errors Pause Channels CheckpointStore Frontier Engine EngineRun EngineFacts Demo PlanProps ResumeProps Factory.

Local Open Scope string_scope.

(** ** Validation *)

Lemma foldM_unit {A} (f : unit -> A -> result exn unit) l :
  foldM f () l = Ok () <-> Forall (fun a => f () a = Ok ()) l.
Proof.
  induction l as [|a l IH]; simpl; [by split; constructor|].
  rewrite Forall_cons, <-IH. destruct (f () a) as [[]|]; simpl; naive_solver.
Qed.

Lemma require_Ok b e : require b e = Ok () <-> b = true.
Proof. by destruct b. Qed.

Lemma validate_edge_Ok cfg e :
  validate_edge cfg () e = Ok () <->
  (we_from e = START_NODE \/ in_nodes cfg (we_from e) = true) /\
  (we_to e = END_NODE \/ in_nodes cfg (we_to e) = true).
Proof.
  rewrite <-(bool_decide_eq_true (we_from e = START_NODE)), <-(bool_decide_eq_true (we_to e = END_NODE)).
  rewrite <-!orb_true_iff. unfold validate_edge.
  destruct (_ || in_nodes cfg (we_from e)), (_ || in_nodes cfg (we_to e)); simpl; naive_solver.
Qed.

Lemma validateConfig_Ok input :
  validateConfig input = Ok () ->
  Forall (fun e => validate_edge (in_config input) () e = Ok ()) (cfg_edges (in_config input)) /\
  (exists e, e ∈ cfg_edges (in_config input) /\ we_from e = START_NODE).
Proof.
  unfold validateConfig. intros Hv.
  do 9 (apply rbind_Ok in Hv as ([] & ? & Hv)).
  split; [by apply foldM_unit|].
  match goal with H : require (existsb _ _) _ = _ |- _ =>
    apply require_Ok, existsb_true_iff in H as (e & ? & ?%bool_decide_eq_true) end. eauto.
Qed.

(** The nodes a round of planning touches. *)
Definition plan_nodes (p : plan) : list string :=
  match p with
  | PlanTasks ts => map tk_node ts
  | PlanSuspend g rest => tk_node g :: map tk_node rest
  | PlanDeadEnd _ => []
  end.

(** a configuration that passes validation never schedules an undeclared
    node: whatever the state and whichever edges fire, every task a planning
    round produces is for a name the node table answers to, provided the
    tasks queued by dispatches are. *)
Theorem validated_plans_name_declared_nodes newId input i ids :
  validateConfig input = Ok () ->
  Forall (fun t => in_nodes (in_config input) (tk_node t) = true) (ri_dynamic i) ->
  Forall (fun n => in_nodes (in_config input) n = true)
         (plan_nodes (planTasks newId (in_config input) i ids).1).
Proof.
  intros [Hedges _]%validateConfig_Ok Hdyn.
  destruct (planTasks_cases newId (in_config input) i ids) as (planned & (es & -> & Hpf) & Hcase).
  assert (Forall (fun n => in_nodes (in_config input) n = true)
            (map tk_node (ri_dynamic i ++ es))) as Hall.
  { rewrite map_app. apply Forall_app. split; [by apply Forall_fmap|].
    apply Forall_forall. intros n (Hn & _ & _)%(pf_nodes _ _ _ _ _ Hpf).
    apply elem_of_reachable in Hn as [Hend (e & He & _ & Hto & _)].
    rewrite Forall_forall in Hedges. apply Hedges, validate_edge_Ok in He as [_ [?|?]]; congruence. }
  destruct (planTasks _ _ _ _).1 as [ts|g rest|stalled]; simpl in *.
  - by destruct Hcase as (-> & _).
  - destruct Hcase as (a & b & E & -> & _). rewrite E in Hall.
    rewrite map_app in *. cbn [map] in Hall. rewrite Forall_app, Forall_cons in Hall.
    rewrite Forall_cons, Forall_app. naive_solver.
  - constructor.
Qed.

Definition demo_input : ConfigInput := mkInput demo_cfg (Some "async") (Some (NFin 50)) None None.

Lemma validated_plans_name_declared_nodes_witness :
  Forall (fun n => in_nodes demo_cfg n = true)
         (plan_nodes (planTasks demo_newId demo_cfg (initialInternal demo_cfg []) 0).1) /\
  plan_nodes (planTasks demo_newId demo_cfg (initialInternal demo_cfg []) 0).1 = ["ask"].
Proof.
  split; [|vm_compute; reflexivity].
  apply (validated_plans_name_declared_nodes demo_newId demo_input (initialInternal demo_cfg []) 0);
    [vm_compute; reflexivity|constructor].
Defined.

(** ** Timers *)

Lemma num_ltb_trans a b c : num_ltb a b = true -> num_ltb b c = true -> num_ltb a c = true.
Proof.
  destruct a, b, c; simpl; try done. rewrite !bool_decide_eq_true. lia.
Qed.

Lemma num_ltb_ge_trans a b c :
  num_ltb a b = true -> num_ltb c b = false -> c <> NNaN -> num_ltb a c = true.
Proof.
  destruct a, b, c; simpl; try done. rewrite !bool_decide_eq_true, bool_decide_eq_false. lia.
Qed.

Lemma num_ltb_irrefl a b : num_ltb a b = true -> num_eqb b a = false.
Proof.
  unfold num_eqb. destruct a, b; simpl; try done. rewrite bool_decide_eq_true.
  intros. rewrite bool_decide_eq_false. intros [= ->]. lia.
Qed.

Lemma num_leb_not_nan a b : num_leb a b = true -> a <> NNaN.
Proof. by intros H ->. Qed.

(** The first of the earliest pauses. *)
Lemma earliest_of_spec now ps e :
  Forall (fun p => due_at now p = true) ps -> earliest_of ps = Some e ->
  exists pre post, ps = (pre ++ e :: post)%list /\
    Forall (fun p => wakes_before e p = true) pre /\
    Forall (fun p => wakes_before p e = false) post.
Proof.
  destruct ps as [|p ps]; [done|]. intros [Hp Hps]%Forall_cons [= <-].
  induction ps as [|q ps IH] using rev_ind.
  { exists [], []. split_and!; [done|constructor|constructor]. }
  apply Forall_app in Hps as [Hps Hq%Forall_singleton].
  destruct (IH Hps) as (pre & post & Heq & Hpre & Hpost). clear IH.
  rewrite foldl_app. cbn [foldl]. set (e := foldl _ p ps) in *.
  assert (Forall (fun x => due_at now x = true) (pre ++ e :: post)) as Hdue
    by (rewrite <-Heq; by constructor).
  change (p :: (ps ++ [q]))%list with ((p :: ps) ++ [q])%list. rewrite Heq.
  destruct (wakes_before q e) eqn:Hlt.
  - exists (pre ++ e :: post)%list, []. split_and!; [done| |constructor].
    rewrite Forall_app, Forall_cons in Hdue. destruct Hdue as (Hd1 & Hde & Hd2).
    apply Forall_app. split; [|apply Forall_cons; split; [done|]].
    + eapply Forall_impl; [exact Hpre|]. intros x. unfold wakes_before in *.
      destruct (pp_wakeAt q), (pp_wakeAt e), (pp_wakeAt x); try done. by apply num_ltb_trans.
    + apply Forall_forall. intros x Hx. rewrite Forall_forall in Hpost, Hd2.
      specialize (Hpost x Hx). specialize (Hd2 x Hx). unfold wakes_before, due_at in *.
      destruct (pp_wakeAt q), (pp_wakeAt e), (pp_wakeAt x); try done.
      eapply num_ltb_ge_trans; [done..|]. by eapply num_leb_not_nan.
  - exists pre, (post ++ [q])%list. split_and!; [by rewrite <-app_assoc|done|].
    apply Forall_app. by rewrite Forall_singleton.
Qed.

(** A filtered list, split at one of its elements. *)
Lemma filter_split {A} (f : A -> bool) l pre x post :
  List.filter f l = (pre ++ x :: post)%list ->
  exists a b, l = (a ++ x :: b)%list /\ List.filter f a = pre /\ List.filter f b = post.
Proof.
  revert pre. induction l as [|y l IH]; intros pre; simpl; [by destruct pre|].
  destruct (f y) eqn:E.
  - destruct pre as [|z pre]; simpl; intros [= -> Hl].
    + exists [], l. done.
    + destruct (IH pre Hl) as (a & b & -> & Ha & Hb). exists (z :: a), b.
      simpl. by rewrite E, Ha.
  - intros Hl. destruct (IH pre Hl) as (a & b & -> & Ha & Hb). exists (y :: a), b.
    simpl. by rewrite E.
Qed.

Lemma tick_chosen now f e :
  earliest_of (List.filter (due_at now) (fe_pauses f)) = Some e ->
  exists others, chosen (tick_options e) f e others /\ (e :: others) ≡ₚ fe_pauses f /\
    due_at now e = true /\
    Forall (fun p => due_at now p = true -> wakes_before p e = false) others.
Proof.
  intros He. assert (Forall (fun p => due_at now p = true)
    (List.filter (due_at now) (fe_pauses f))) as Hdue.
  { apply Forall_forall. intros p [_ Hp]%list_elem_of_In%filter_In. done. }
  destruct (earliest_of_spec now _ e Hdue He) as (pre & post & Heq & Hpre & Hpost).
  assert (due_at now e = true) as Hde
    by (rewrite Heq, Forall_app, Forall_cons in Hdue; naive_solver).
  apply filter_split in Heq as (a & b & Hab & <- & <-).
  rewrite Forall_forall in Hpre, Hpost. setoid_rewrite list_elem_of_In in Hpre.
  setoid_rewrite list_elem_of_In in Hpost. setoid_rewrite filter_In in Hpre.
  setoid_rewrite filter_In in Hpost.
  exists (a ++ b)%list. split_and!; [|by rewrite Hab, Permutation_middle|done|].
  - exists a, b. split_and!; [done|done| |].
    + unfold tick_select. rewrite bool_decide_eq_true_2, andb_true_r by done.
      unfold due_at in Hde. destruct (pp_wakeAt e); [|done]. unfold num_eqb.
      apply num_leb_not_nan in Hde. by rewrite bool_decide_eq_false_2, bool_decide_eq_true_2.
    + apply Forall_forall. intros p Hp%list_elem_of_In. unfold tick_select.
      apply andb_false_iff. left. destruct (due_at now p) eqn:Hdp.
      * specialize (Hpre p (conj Hp Hdp)). unfold wakes_before in Hpre.
        destruct (pp_wakeAt p), (pp_wakeAt e); try done. by apply num_ltb_irrefl.
      * unfold due_at in *. destruct (pp_wakeAt p) as [x|], (pp_wakeAt e) as [y|]; try done.
        unfold num_eqb. case_bool_decide; simpl; [done|]. case_bool_decide; [congruence|done].
  - apply Forall_forall. intros p [Hp|Hp]%elem_of_app Hdp; apply list_elem_of_In in Hp.
    + specialize (Hpre p (conj Hp Hdp)). unfold wakes_before in *.
      destruct (pp_wakeAt p) as [x|], (pp_wakeAt e) as [y|]; try done.
      destruct x, y; simpl in *; try done. rewrite bool_decide_eq_true in Hpre.
      rewrite bool_decide_eq_false. lia.
    + by apply Hpost.
Qed.

(** What the answered pause receives. *)
Definition tick_answer (e : PendingPauseRecord) : value :=
  match pp_name e with
  | None => VUndef
  | Some _ => match getp "timeoutDecision" (pp_value e) with
              | VUndef | VNull => VObj [("granted", VBool false); ("reason", VStr "defer-timeout")]
              | d => d
              end
  end.

Lemma tick_answer_of e : answer_of (tick_options e) = tick_answer e.
Proof. unfold answer_of, tick_answer. simpl. unfold tick_directive. by destruct (pp_name e). Qed.

(** firing timers fails closed.  When a pause of a suspended thread is
    due, [tick] resumes with exactly one answer: it goes to the earliest due
    pause, which gets its own timeout decision (denial by default) if it is a
    named approval or awakeable and nothing if it is a plain timer; every
    other pause of the frontier re-enters unanswered, and nothing else
    of the frontier is lost. *)
Theorem tick_answers_the_earliest_due_pause newId t cfg tuple f step ids now e :
  ct_status tuple = Suspended ->
  earliest_of (List.filter (due_at now) (fe_pauses f)) = Some e ->
  exists r ids' others,
    restore newId t cfg (tick_options e) tuple f step ids = Ok (r, ids') /\
    (e :: others) ≡ₚ fe_pauses f /\ due_at now e = true /\
    Forall (fun p => due_at now p = true -> wakes_before p e = false) others /\
    map erase_id (rd_tasks r) =
      (map (fun d => dispatch_task "" (dy_nodeName d) (dy_dispatchArgs d)) (fe_dynamic f) ++
       pause_task (tick_answer e) true e ++
       flat_map (pause_task (tick_answer e) false) others)%list.
Proof.
  intros Hs He. destruct (tick_chosen now f e He) as (others & Hch & Hperm & Hde & Hmin).
  destruct (restore_suspended_spec newId t cfg (tick_options e) Suspended f
              (ct_pendingWrites tuple) step ids e others) as (r & ids' & Hr & _ & Htasks & _);
    [done|simpl; unfold tick_directive; by destruct (pp_name e)|done|].
  exists r, ids', others. rewrite tick_answer_of in Htasks.
  split_and!; [|done..]. unfold restore. by rewrite Hs.
Qed.

(** An approval due at 300 next to a plain timer due at 500. *)
Definition timed_approval : PendingPauseRecord :=
  mkPause "ask" (approval_value "ship" None None None) None false false None None
    (Some (NFin 300)) (Some "ship").
Definition plain_timer : PendingPauseRecord :=
  mkPause "nap" (timer_value (NFin 200)) None false false None None (Some (NFin 500)) None.

Lemma tick_answers_the_earliest_due_pause_witness :
  exists r ids',
    restore demo_newId "t1" demo_cfg (tick_options timed_approval)
      (mkTuple (mkCheckpoint "c" "t1" "workflow/demo" None VNull [] 0 0)
               (mkMetadata Sync Suspended None None (Some 300%Z)) [])
      (mkFrontier None [plain_timer; timed_approval] [] [] None) 1 7 = Ok (r, ids') /\
    map tk_resumeValues (rd_tasks r) =
      [Some [DEFAULT_APPROVAL_TIMEOUT_DECISION]; Some []].
Proof.
  destruct (tick_answers_the_earliest_due_pause demo_newId "t1" demo_cfg
      (mkTuple (mkCheckpoint "c" "t1" "workflow/demo" None VNull [] 0 0)
               (mkMetadata Sync Suspended None None (Some 300%Z)) [])
      (mkFrontier None [plain_timer; timed_approval] [] [] None) 1 7 600 timed_approval)
    as (r & ids' & others & Hr & _); [reflexivity|reflexivity|].
  exists r, ids'. split; [done|]. vm_compute in Hr. by simplify_eq.
Defined.

(** ** Forks *)

Section Reindex.
Definition reindex (g : string * list PendingWrite) : list PendingWrite :=
  imap (fun i w => CheckpointStore.mkPending g.1 i (pw_channel w) (pw_value w)) g.2.

(** The pending writes of a forked checkpoint: the source's, task by task. *)
Definition regrouped (ws : list PendingWrite) : list PendingWrite :=
  flat_map reindex (groupPendingByTask ws).

Lemma upsert_group (g : string * list PendingWrite) ws :
  Forall (fun x => pw_taskId x <> g.1) ws ->
  foldl (upsert_write g.1) ws
    (imap (fun i w => CheckpointStore.mkPending (pw_taskId w) i (pw_channel w) (pw_value w)) g.2) =
  (ws ++ reindex g)%list.
Proof.
  intros Hws. rewrite upsert_fresh; [|done|].
  - f_equal. unfold reindex. generalize (g.2) as l. intros l.
    apply list_eq. intros i. rewrite list_lookup_map, !list_lookup_imap. by destruct (l !! i).
  - rewrite (imap_index _ _ 0) by done. apply NoDup_seq.
Qed.

Lemma reindex_task g : Forall (fun w => pw_taskId w = g.1) (reindex g).
Proof.
  apply Forall_forall. unfold reindex. intros w Hw%elem_of_lookup_imap.
  by destruct Hw as (i & x & -> & _).
Qed.

Lemma groupPending_keys ws : NoDup (jkeys (groupPendingByTask ws)).
Proof.
  unfold groupPendingByTask. induction ws as [|w ws IH] using rev_ind; [apply NoDup_nil_2|].
  rewrite foldl_app. simpl. by apply (jset_wf).
Qed.
End Reindex.

Section Fork.
Context {S : Type} `{InsertionOrder S}.
Context (world : nat -> S -> S).

Definition undisturbed : Prop := forall k s, store_wf s ->
  store_wf (world k s) /\ forall t n, name_ok t -> name_ok n -> view (world k s) t n = view s t n.

Definition forked (thread ns id : string) (patched : option value) (src : CheckpointTuple) :
    CheckpointTuple :=
  let cp := ct_checkpoint src in
  let md := ct_metadata src in
  mkTuple (mkCheckpoint id thread ns None (default (cp_state cp) patched)
             (cp_channelVersions cp) (cp_stepNumber cp) (cp_createdAt cp))
          (mkMetadata Sync (md_status md) (md_nodeName md) (md_tags md) None)
          (regrouped (ct_pendingWrites src)).

Definition same_views (s s' : S) : Prop :=
  forall t n, name_ok t -> name_ok n -> view s' t n = view s t n.

Definition same_elsewhere (nt ns : string) (s s' : S) : Prop :=
  forall t n, name_ok t -> name_ok n -> (t, n) <> (nt, ns) -> view s' t n = view s t n.

Context (Hworld : undisturbed).

Lemma fork_writes nt ns id groups st x :
  name_ok nt -> name_ok ns -> store_wf (rs_store st) -> NoDup (jkeys groups) ->
  Forall (fun w => pw_taskId w ∉ jkeys groups) (ct_pendingWrites x) ->
  view (rs_store st) nt ns = [x] -> ct_id x = id ->
  let '(st', r) := forM groups (fun g => bind (await_store world) (fun _ =>
    set_store (putWrites nt ns id
      (imap (fun i w => CheckpointStore.mkPending (pw_taskId w) i (pw_channel w) (pw_value w)) g.2)
      g.1))) st in
  r = Ok () /\ store_wf (rs_store st') /\
  view (rs_store st') nt ns =
    [mkTuple (ct_checkpoint x) (ct_metadata x)
             (ct_pendingWrites x ++ flat_map reindex groups)%list] /\
  same_elsewhere nt ns (rs_store st) (rs_store st').
Proof using H1 Hworld.
  intros Hnt Hns. revert st x. induction groups as [|g groups IH]; intros st x Hwf Hnd Hpw Hv Hid.
  { simpl. rewrite app_nil_r. destruct x. by split_and!. }
  apply NoDup_cons in Hnd as [Hni Hnd]. cbn [forM]. unfold bind at 1 2.
  cbn [await_store set_store rs_store].
  destruct (Hworld (rs_tick st) (rs_store st) Hwf) as [Hwf1 Hv1].
  set (ws := imap _ g.2).
  destruct (putWrites_spec (world (rs_tick st) (rs_store st)) nt ns id ws g.1 Hwf1 Hnt Hns)
    as (Hwf2 & _ & Ho2).
  pose proof (putWrites_order (world (rs_tick st) (rs_store st)) nt ns id ws g.1 Hwf1 Hnt Hns) as Hv2.
  rewrite Hv1, Hv in Hv2 by done. unfold v_putWrites in Hv2. cbn [map] in Hv2.
  rewrite decide_True in Hv2 by done. unfold add_writes in Hv2.
  rewrite (upsert_group g) in Hv2 by (eapply Forall_impl; [exact Hpw|]; set_solver).
  match goal with |- context [forM groups ?f ?st0] =>
    specialize (IH st0 (mkTuple (ct_checkpoint x) (ct_metadata x) (ct_pendingWrites x ++ reindex g)%list));
    destruct (forM groups f st0) as [st' r] end.
  destruct IH as (-> & Hwf' & Hv' & Ho'); [done|done| |done|done|].
  { cbn [ct_pendingWrites]. apply Forall_app. split.
    - eapply Forall_impl; [exact Hpw|]. set_solver.
    - eapply Forall_impl; [apply reindex_task|]. by intros w ->. }
  split_and!; [done|done| |].
  - rewrite Hv'. simpl. by rewrite <-app_assoc.
  - intros t n Ht Hn Hne. rewrite Ho' by done. cbn [rs_store]. rewrite Ho2 by done. by apply Hv1.
Qed.

(** forking is isolated and complete.  On a store that returns pending writes as
    they were written, with no other writer about and a
    fresh thread id, [forkThread] fails only for an unknown checkpoint or a
    rejected patch, leaving the store as it was; otherwise the new thread
    holds exactly one checkpoint, a root with the source's step, versions,
    status, frontier tags, (patched) state and pending writes regrouped by
    task, and no other thread or namespace, the source included, changes. *)
Theorem fork_copies_one_checkpoint newId cfg t id patch st :
  let ns := namespaceFor (cfg_name cfg) in
  let nt := newId "thread" (rs_ids st) in
  let cpid := newId "cp" (1 + rs_ids st) in
  let source := List.find (fun x => bool_decide (ct_id x = id)) (view (rs_store st) t ns) in
  name_ok t -> name_ok ns -> name_ok nt -> store_wf (rs_store st) ->
  view (rs_store st) nt ns = [] ->
  match forkThread newId world cfg t id patch st with
  | (st', Ok thread) =>
      thread = nt /\ store_wf (rs_store st') /\
      (exists src patched, source = Some src /\
         patched_state cfg patch (cp_state (ct_checkpoint src)) = Ok patched /\
         view (rs_store st') nt ns = [forked nt ns cpid patched src]) /\
      same_elsewhere nt ns (rs_store st) (rs_store st')
  | (st', Err e) =>
      same_views (rs_store st) (rs_store st') /\
      match source with
      | None => e = CheckpointNotFoundError t id
      | Some src => patched_state cfg patch (cp_state (ct_checkpoint src)) = Err e
      end
  end.
Proof using H1 Hworld.
  intros ns nt cpid source Ht Hns Hnt Hwf Hempty.
  unfold forkThread. fold ns. unfold bind at 1 2. cbn [await_store get rs_store].
  destruct (Hworld (rs_tick st) (rs_store st) Hwf) as [Hwf1 Hv1].
  rewrite (getTuple_by_id _ t ns id Hwf1 Ht Hns), Hv1 by done. fold source.
  destruct source as [src|]; [|split; [exact Hv1|done]].
  unfold bind at 1 2 3. cbn [fresh lift rs_ids].
  destruct (patched_state cfg patch _) as [patched|e] eqn:Hp; [|split; [exact Hv1|done]].
  unfold bind at 1 2. cbn [await_store get rs_store rs_tick]. cbv zeta.
  set (s2 := world _ (world _ _)).
  destruct (Hworld (1 + rs_tick st) _ Hwf1) as [Hwf2 Hv2].
  change (newId "thread" (rs_ids st)) with nt. change (newId "cp" (1 + rs_ids st)) with cpid.
  match goal with |- context [put nt ns ?cp ?md None s2] =>
    pose proof (put_spec s2 nt ns cp md None Hwf2 Hnt Hns) as Hput;
    destruct (put nt ns cp md None s2) as [s3|e] end; [|by destruct Hput as [[] _]].
  destruct Hput as (_ & Hwf3 & Hv3 & Ho3).
  assert (same_views (rs_store st) s2) as Hs2.
  { intros a b Ha Hb. etransitivity; [exact (Hv2 a b Ha Hb)|exact (Hv1 a b Ha Hb)]. }
  rewrite (Hs2 nt ns), Hempty in Hv3 by done. unfold v_put in Hv3. simpl in Hv3.
  unfold bind at 1. cbn [set_store].
  unfold bind at 1.
  match type of Hv3 with _ = [?x] =>
    match goal with |- context [forM ?gs ?f ?st0] =>
      pose proof (fork_writes nt ns cpid gs st0 x Hnt Hns Hwf3 (groupPending_keys _)
                    (Forall_nil_2 _)) as Hf;
      destruct (forM gs f st0) as [st' r] end end.
  specialize (Hf Hv3 eq_refl). destruct Hf as (-> & Hwf' & Hv' & Ho'). cbn [ret]. split_and!; [done|done| |].
  - exists src, patched. split_and!; [done|done|]. rewrite Hv'. done.
  - intros t' n' Ht' Hn' Hne. rewrite Ho' by done. cbn [rs_store]. rewrite Ho3 by done.
    by apply Hs2.
Qed.
End Fork.

(** The demo thread's suspended checkpoint, forked with a patched counter. *)
Definition fork_start : RunState (S := Mem.t) :=
  mkRun (MemRefine.put_state "t1" "workflow/demo"
           (mkCheckpoint "cp_1" "t1" "workflow/demo" None (VObj [("n", VNum (NFin 0))]) [("n", 1)] 4 9)
           (mkMetadata Sync Suspended (Some "ask") None (Some 300%Z)) Mem.empty)
        3 0 0 [] [] (initialInternal demo_cfg []).

Lemma fork_start_wf : store_wf (rs_store fork_start).
Proof. apply MemRefine.put_state_wf; [apply MemRefine.empty_wf|vm_compute; reflexivity..]. Qed.

Lemma fork_copies_one_checkpoint_witness :
  exists st', forkThread demo_newId demo_world demo_cfg "t1" "cp_1" [("n", VNum (NFin 5))] fork_start =
      (st', Ok "thread_3") /\
    map (fun x => (ct_id x, ct_step x, ct_status x)) (view (rs_store st') "thread_3" "workflow/demo") =
      [("cp_4", 4, Suspended)] /\
    view (rs_store st') "t1" "workflow/demo" = view (rs_store fork_start) "t1" "workflow/demo".
Proof.
  pose proof (fork_copies_one_checkpoint demo_world (fun k s Hs => conj Hs (fun t n _ _ => eq_refl))
                demo_newId demo_cfg "t1" "cp_1" [("n", VNum (NFin 5))] fork_start) as Hf.
  cbv zeta in Hf. eexists. split; [vm_compute; reflexivity|]. split; [vm_compute; reflexivity|].
  specialize (Hf ltac:(vm_compute; reflexivity) ltac:(vm_compute; reflexivity)
    ltac:(vm_compute; reflexivity)).
  specialize (Hf fork_start_wf).
  specialize (Hf ltac:(vm_compute; reflexivity)).
  destruct (forkThread _ _ _ _ _ _ _) as [st' r] eqn:E. vm_compute in E.
  injection E as <- <-. destruct Hf as (_ & _ & _ & Hsame).
  apply Hsame; [vm_compute; reflexivity|vm_compute; reflexivity|discriminate].
Defined.
