(* ===== verification/TimerDriver.v ===== *)
(** * The durable-timer polling driver

    [packages/workflow/src/timer-driver.ts].  [Sweep] is one poll pass: list
    the suspended threads of every workflow one poll interval ahead, tick the
    due ones, remember the earliest of the others.  [Polling] is the driver's
    life cycle as a state machine over the timers it arms, the passes in
    flight and the [start]/[stop]/[sweep] calls that interleave with them. *)

From S2P Require Import Prelude JsValue Errors.

Local Open Scope Z_scope.

(** ** One poll pass *)

Section Sweep.
(** [W] is everything outside the driver: stores, workflows and the clock.
    The two operations an entry needs are those of [TimerDriverEntry]; a
    sibling's error is a value, because every call is caught. *)
Context {W : Type} (now : W -> Z).

Record Entry := mkEntry {
  en_name : string;
  (** [listSuspended(namespace, { dueBefore, limit })] *)
  en_listSuspended : Z -> nat -> W -> W * result exn (list (string * Z));
  (** [tick(threadId, { now })] *)
  en_tick : string -> Z -> W -> W * result exn (bool * option Z);
}.

Definition isBenignConflict (e : exn) : bool :=
  match e with
  | CheckpointConflictError _ _ _ => true
  | _ => bool_decide (code_of e = Some "checkpoint-version-conflict"%string)
  end.

(** The calls a pass makes and the items it puts off, in order. *)
Inductive call :=
| Listed (workflow : string) (r : result exn (list (string * Z)))
| Deferred (workflow threadId : string) (wakeAt : Z)
| Ticked (workflow threadId : string) (r : result exn (bool * option Z)).

Record Pass := mkPass {
  ps_world : W;
  ps_fired : nat;
  ps_errors : nat;
  ps_earliest : option Z;
  ps_reported : list (string * string);  (** [onError] calls *)
  ps_calls : list call;
}.

(** [earliestNext === undefined ? w : Math.min(earliestNext, w)] *)
Definition sooner (earliest : option Z) (w : Z) : option Z :=
  Some match earliest with None => w | Some e => Z.min e w end.

Definition sweep_item (at_ : Z) (e : Entry) (p : Pass) (item : string * Z) : Pass :=
  if decide (at_ < item.2) then
    mkPass (ps_world p) (ps_fired p) (ps_errors p) (sooner (ps_earliest p) item.2)
      (ps_reported p) (ps_calls p ++ [Deferred (en_name e) item.1 item.2])
  else
    let '(w, r) := en_tick e item.1 (now (ps_world p)) (ps_world p) in
    let calls := (ps_calls p ++ [Ticked (en_name e) item.1 r])%list in
    match r with
    | Ok (fired, next) =>
        mkPass w (if fired then S (ps_fired p) else ps_fired p) (ps_errors p)
          (match next with Some n => sooner (ps_earliest p) n | None => ps_earliest p end)
          (ps_reported p) calls
    | Err err =>
        if isBenignConflict err
        then mkPass w (ps_fired p) (ps_errors p) (ps_earliest p) (ps_reported p) calls
        else mkPass w (ps_fired p) (S (ps_errors p)) (ps_earliest p)
               (ps_reported p ++ [(en_name e, item.1)]) calls
    end.

Definition sweep_entry (at_ lookahead : Z) (batchLimit : nat) (p : Pass) (e : Entry) : Pass :=
  let '(w, r) := en_listSuspended e lookahead batchLimit (ps_world p) in
  let calls := (ps_calls p ++ [Listed (en_name e) r])%list in
  match r with
  | Err _ =>
      mkPass w (ps_fired p) (S (ps_errors p)) (ps_earliest p)
        (ps_reported p ++ [(en_name e, "(listSuspended)"%string)]) calls
  | Ok suspended =>
      foldl (sweep_item at_ e)
        (mkPass w (ps_fired p) (ps_errors p) (ps_earliest p) (ps_reported p) calls) suspended
  end.

Definition sweepOnce (pollIntervalMs : Z) (batchLimit : nat) (entries : list Entry) (w : W) : Pass :=
  let at_ := now w in
  foldl (sweep_entry at_ (at_ + pollIntervalMs) batchLimit) (mkPass w 0 0 None [] []) entries.

(** ** What the calls of a pass add up to *)

Definition call_fired (c : call) : nat :=
  match c with Ticked _ _ (Ok (true, _)) => 1 | _ => 0 end.

Definition call_reported (c : call) : list (string * string) :=
  match c with
  | Listed n (Err _) => [(n, "(listSuspended)"%string)]
  | Ticked n t (Err e) => if isBenignConflict e then [] else [(n, t)]
  | _ => []
  end.

Definition call_wake (c : call) : list Z :=
  match c with
  | Deferred _ _ w => [w]
  | Ticked _ _ (Ok (_, Some w)) => [w]
  | _ => []
  end.

Record accounted (p : Pass) : Prop := {
  ac_fired : ps_fired p = list_sum (map call_fired (ps_calls p));
  ac_reported : ps_reported p = flat_map call_reported (ps_calls p);
  ac_errors : ps_errors p = length (ps_reported p);
  ac_earliest : ps_earliest p = foldl sooner None (flat_map call_wake (ps_calls p));
}.

(** What one listed item turns into. *)
Definition handled (at_ : Z) (e : Entry) (item : string * Z) (c : call) : Prop :=
  if decide (at_ < item.2) then c = Deferred (en_name e) item.1 item.2
  else exists r, c = Ticked (en_name e) item.1 r.

(** The calls made for one entry: the listing, then one per listed item. *)
Definition visit (at_ : Z) (e : Entry) (cs : list call) : Prop :=
  match cs with
  | Listed n (Err _) :: rest => n = en_name e /\ rest = []
  | Listed n (Ok items) :: rest => n = en_name e /\ Forall2 (handled at_ e) items rest
  | _ => False
  end.

Lemma accounted_snoc p c w fired errors earliest reported :
  accounted p ->
  fired = (ps_fired p + call_fired c)%nat ->
  reported = (ps_reported p ++ call_reported c)%list ->
  errors = (ps_errors p + length (call_reported c))%nat ->
  earliest = foldl sooner (ps_earliest p) (call_wake c) ->
  accounted (mkPass w fired errors earliest reported (ps_calls p ++ [c])).
Proof.
  intros [H1 H2 H3 H4] -> -> -> ->. constructor; simpl.
  - rewrite map_app, list_sum_app, H1. simpl. lia.
  - rewrite flat_map_app, H2. simpl. by rewrite app_nil_r.
  - rewrite length_app. lia.
  - rewrite flat_map_app, foldl_app, H4. simpl. by rewrite app_nil_r.
Qed.

Lemma sweep_item_post at_ e p item :
  accounted p ->
  accounted (sweep_item at_ e p item) /\
  exists c, ps_calls (sweep_item at_ e p item) = (ps_calls p ++ [c])%list /\ handled at_ e item c.
Proof.
  intros Hp. unfold sweep_item, handled. case_decide as Hd.
  - split; [|by eexists]. apply accounted_snoc; simpl; rewrite ?app_nil_r; done || lia.
  - destruct (en_tick e item.1 _ _) as [w [[fired next]|err]].
    + split; [|eexists; split; [done|by eexists]].
      destruct fired; apply accounted_snoc; simpl; rewrite ?app_nil_r; try (done || lia);
        by destruct next.
    + destruct (isBenignConflict err) eqn:E; (split; [|eexists; split; [done|by eexists]]);
        apply accounted_snoc; simpl; rewrite ?E, ?app_nil_r; simpl; done || lia.
Qed.

Lemma sweep_items_post at_ e items p :
  accounted p ->
  accounted (foldl (sweep_item at_ e) p items) /\
  exists cs, ps_calls (foldl (sweep_item at_ e) p items) = (ps_calls p ++ cs)%list /\
             Forall2 (handled at_ e) items cs.
Proof.
  revert p. induction items as [|i items IH]; intros p Hp; simpl.
  - split; [done|]. exists []. rewrite app_nil_r. by split; [|constructor].
  - destruct (sweep_item_post at_ e p i Hp) as (Hp' & c & Hc & Hh).
    destruct (IH _ Hp') as (Hp2 & cs & Hcs & Hall). split; [done|]. exists (c :: cs).
    split; [by rewrite Hcs, Hc, <-app_assoc|by constructor].
Qed.

Lemma sweep_entry_post at_ look batch p e :
  accounted p ->
  accounted (sweep_entry at_ look batch p e) /\
  exists cs, ps_calls (sweep_entry at_ look batch p e) = (ps_calls p ++ cs)%list /\ visit at_ e cs.
Proof.
  intros Hp. unfold sweep_entry. destruct (en_listSuspended _ _ _ _) as [w [items|err]].
  - match goal with |- context [foldl _ ?q items] =>
      destruct (sweep_items_post at_ e items q) as (Hq & cs & Hcs & Hall) end.
    { apply accounted_snoc; simpl; rewrite ?app_nil_r; done || lia. }
    split; [done|]. exists (Listed (en_name e) (Ok items) :: cs).
    split; [by rewrite Hcs; simpl; rewrite <-app_assoc|done].
  - split; [apply accounted_snoc; simpl; done || lia|].
    by exists [Listed (en_name e) (Err err)].
Qed.

Lemma sweep_entries_post at_ look batch entries p :
  accounted p ->
  let q := foldl (sweep_entry at_ look batch) p entries in
  accounted q /\ exists visits, ps_calls q = (ps_calls p ++ concat visits)%list /\
    Forall2 (visit at_) entries visits.
Proof.
  revert p. induction entries as [|e entries IH]; intros p Hp; simpl.
  - split; [done|]. exists []. rewrite app_nil_r. by split; [|constructor].
  - destruct (sweep_entry_post at_ look batch p e Hp) as (Hp' & cs & Hcs & Hv).
    destruct (IH _ Hp') as (Hq & vs & Hvs & Hall). split; [done|]. exists (cs :: vs).
    split; [by rewrite Hvs, Hcs, <-app_assoc|by constructor].
Qed.

(** one thread's failure never hides another's timer.  A poll pass lists
    every workflow once, in order, and handles every listed thread exactly
    once, in order, whatever the earlier calls returned: a due thread is
    ticked, a later one is only noted.  The counters add up: a fired count
    per firing tick, an error and a report per failure other than a lost
    compare-and-set race, and the next wake time is the least one seen. *)
Theorem sweep_handles_every_listed_thread pollIntervalMs batchLimit entries w :
  let p := sweepOnce pollIntervalMs batchLimit entries w in
  accounted p /\
  exists visits, ps_calls p = concat visits /\ Forall2 (visit (now w)) entries visits.
Proof.
  by apply (sweep_entries_post (now w) (now w + pollIntervalMs) batchLimit entries).
Qed.

Lemma sooner_least ws e w :
  w ∈ ws \/ e = Some w -> exists m, foldl sooner e ws = Some m /\ m <= w.
Proof.
  revert e w. induction ws as [|x ws IH]; intros e w; simpl.
  - intros [?%elem_of_nil| ->]; [done|]. by exists w.
  - intros [[->|Hin]%elem_of_cons| ->].
    + destruct e as [e|]; simpl.
      * destruct (IH (Some (Z.min e x)) (Z.min e x)) as (m & Hm & Hle); [by right|].
        exists m. split; [done|lia].
      * apply IH. by right.
    + apply IH. by left.
    + destruct (IH (Some (Z.min w x)) (Z.min w x)) as (m & Hm & Hle); [by right|].
      exists m. split; [done|lia].
Qed.

(** ** Re-arming ([schedule]) *)

Definition schedule_delay (pollIntervalMs base : Z) (nextWakeAt : option Z) : Z :=
  let target := match nextWakeAt with
                | Some n => Z.min (base + pollIntervalMs) n
                | None => base + pollIntervalMs
                end in
  Z.max 25 (target - base).

(** a short timer does not wait out a long poll interval.  The delay
    armed after a pass stays between 25 ms and the poll interval, and the
    next pass starts no later than any wake time the pass saw (or 25 ms
    from now, if that time is already here). *)
Theorem rearm_never_oversleeps pollIntervalMs batchLimit entries w base :
  let p := sweepOnce pollIntervalMs batchLimit entries w in
  let delay := schedule_delay pollIntervalMs base (ps_earliest p) in
  25 <= delay <= Z.max 25 pollIntervalMs /\
  forall wake, wake ∈ flat_map call_wake (ps_calls p) -> base + delay <= Z.max (base + 25) wake.
Proof.
  cbv zeta. split; [unfold schedule_delay; destruct (ps_earliest _); lia|].
  intros wake Hw. assert (accounted (sweepOnce pollIntervalMs batchLimit entries w)) as Hp.
  { by apply (sweep_entries_post (now w) (now w + pollIntervalMs) batchLimit entries). }
  rewrite (ac_earliest _ Hp).
  destruct (sooner_least _ None wake (or_introl Hw)) as (m & -> & Hm).
  unfold schedule_delay. lia.
Qed.
End Sweep.

(** ** The life cycle *)

Module Polling.

(** The timers the driver has armed and that have neither fired nor been
    cleared, the passes and manual sweeps in flight, and the variables
    [running], [handle] and [inFlight]. *)
Record State := mkState {
  running : bool;
  handle : option nat;
  armed : list nat;
  passes : nat;
  manual : nat;
  inFlight : bool;
  nextTimer : nat;
}.

Definition initial : State := mkState false None [] 0 0 false 0.

Inductive action :=
| Start
| Stop
| Fire (timer : nat)
| PassEnds
| SweepCall
| SweepEnds.

(** [handle = setT(...)] *)
Definition arm (s : State) : State :=
  mkState (running s) (Some (nextTimer s)) (nextTimer s :: armed s) (passes s) (manual s)
          (inFlight s) (S (nextTimer s)).

Definition schedule (s : State) : State := if running s then arm s else s.

Definition clear (timer : nat) (s : State) : State :=
  mkState (running s) (handle s) (filter (fun x => x <> timer) (armed s)) (passes s) (manual s)
          (inFlight s) (nextTimer s).

Definition set_running (b : bool) (s : State) : State :=
  mkState b (handle s) (armed s) (passes s) (manual s) (inFlight s) (nextTimer s).

Definition start (s : State) : State := if running s then s else arm (set_running true s).

Definition stop (s : State) : State :=
  let s' := set_running false s in
  match handle s' with
  | None => s'
  | Some h =>
      let s'' := clear h s' in
      mkState (running s'') None (armed s'') (passes s'') (manual s'') (inFlight s'') (nextTimer s'')
  end.

(** The head of [runPass], up to its await. *)
Definition runPass (s : State) : State :=
  if running s
  then mkState true (handle s) (armed s) (S (passes s)) (manual s) true (nextTimer s)
  else s.

(** Its [finally]. *)
Definition pass_ends (s : State) : State :=
  schedule (mkState (running s) (handle s) (armed s) (pred (passes s)) (manual s) false (nextTimer s)).

(** [sweep()] joins the pass in flight, or begins one of its own. *)
Definition sweep_call (s : State) : State :=
  if inFlight s then s
  else mkState (running s) (handle s) (armed s) (passes s) (S (manual s)) true (nextTimer s).

Definition sweep_ends (s : State) : State :=
  mkState (running s) (handle s) (armed s) (passes s) (pred (manual s)) false (nextTimer s).

Inductive step : State -> action -> State -> Prop :=
| step_start s : step s Start (start s)
| step_stop s : step s Stop (stop s)
| step_fire s k : k ∈ armed s -> step s (Fire k) (runPass (clear k s))
| step_pass_ends s : (0 < passes s)%nat -> step s PassEnds (pass_ends s)
| step_sweep s : step s SweepCall (sweep_call s)
| step_sweep_ends s : (0 < manual s)%nat -> step s SweepEnds (sweep_ends s).

Inductive steps : State -> list action -> State -> Prop :=
| steps_nil s : steps s [] s
| steps_cons s a s' l s'' : step s a s' -> steps s' l s'' -> steps s (a :: l) s''.

(** [start()] is never called while a pass is still in flight. *)
Inductive calm : State -> list action -> State -> Prop :=
| calm_nil s : calm s [] s
| calm_cons s a s' l s'' :
    step s a s' -> (a = Start -> running s = false -> passes s = 0%nat) ->
    calm s' l s'' -> calm s (a :: l) s''.

(** Polling chains: each armed timer and each pass in flight continues one. *)
Definition chains (s : State) : nat := (length (armed s) + passes s)%nat.

(** One chain while running; none armed once stopped; the only armed timer
    is the one [stop] would clear. *)
Record single (s : State) : Prop := {
  sg_running : running s = true -> chains s = 1%nat;
  sg_stopped : running s = false -> armed s = [] /\ (passes s <= 1)%nat;
  sg_handle : forall k, k ∈ armed s -> handle s = Some k;
}.

Lemma clear_handle s h :
  (forall k, k ∈ armed s -> Some h = Some k) -> filter (fun x => x <> h) (armed s) = [].
Proof.
  intros Hk. induction (armed s) as [|x l IH]; [done|]. rewrite filter_cons.
  assert (h = x) as -> by (assert (Some h = Some x) as [=] by (apply Hk; by left); done).
  rewrite decide_False by (intros Hx; by apply Hx). apply IH. intros k Hin. apply Hk. by right.
Qed.

Lemma stop_single s : single s -> single (stop s).
Proof.
  intros [Hr Hs Hh]. unfold stop. cbn [handle set_running].
  destruct (handle s) as [h|] eqn:E.
  - assert (filter (fun x => x <> h) (armed s) = []) as Hf by (apply clear_handle; intros; by apply Hh).
    constructor; cbn [running clear set_running armed passes handle].
    + done.
    + intros _. rewrite Hf. split; [done|]. destruct (running s) eqn:Er.
      * specialize (Hr eq_refl). unfold chains in Hr. lia.
      * by apply Hs.
    + rewrite Hf. by intros k ?%elem_of_nil.
  - assert (armed s = []) as Ha.
    { destruct (armed s) as [|k l]; [done|]. exfalso.
      assert (None = Some k) by (apply Hh; by left). done. }
    constructor; cbn [running set_running armed passes handle].
    + done.
    + intros _. split; [done|]. destruct (running s) eqn:Er; [|by apply Hs].
      specialize (Hr eq_refl). unfold chains in Hr. lia.
    + rewrite Ha. by intros k ?%elem_of_nil.
Qed.

Lemma step_single s a s' :
  step s a s' -> (a = Start -> running s = false -> passes s = 0%nat) -> single s -> single s'.
Proof.
  intros Hstep Hcalm Hsg. pose proof Hsg as [Hr Hs Hh]. destruct Hstep as [s|s|s k Hk|s Hp|s|s Hp].
  - unfold start. destruct (running s) eqn:Er; [done|]. destruct (Hs eq_refl) as [Ha _].
    specialize (Hcalm eq_refl eq_refl). constructor; unfold chains; simpl; rewrite Ha; simpl.
    + by rewrite Hcalm.
    + done.
    + intros k [->|?%elem_of_nil]%elem_of_cons; done.
  - by apply stop_single.
  - destruct (running s) eqn:Er.
    2:{ destruct (Hs eq_refl) as [Ha _]. rewrite Ha in Hk. by apply elem_of_nil in Hk. }
    assert (filter (fun x => x <> k) (armed s) = []) as Hf.
    { apply clear_handle. intros j Hj. rewrite <-(Hh k Hk). by apply Hh. }
    assert (passes s = 0%nat) as Hz.
    { specialize (Hr eq_refl). unfold chains in Hr. destruct (armed s); [by apply elem_of_nil in Hk|].
      simpl in Hr. lia. }
    unfold runPass. cbn [running clear]. rewrite Er.
    constructor; unfold chains; cbn [running armed passes handle clear]; rewrite ?Hf; simpl; [lia|done|].
    by intros j ?%elem_of_nil.
  - unfold pass_ends, schedule. cbn [running]. destruct (running s) eqn:Er.
    + specialize (Hr eq_refl). unfold chains in Hr.
      assert (armed s = []) as Ha by (destruct (armed s); simpl in *; [done|lia]).
      constructor; unfold chains, arm; simpl; rewrite Ha; simpl; [lia|done|].
      intros j [->|?%elem_of_nil]%elem_of_cons; done.
    + destruct (Hs eq_refl) as [Ha Hle]. constructor; cbn [running armed passes handle]; rewrite ?Ha.
      * done.
      * intros _. split; [done|lia].
      * by intros j ?%elem_of_nil.
  - unfold sweep_call. destruct (inFlight s); [done|]. by constructor.
  - by constructor.
Qed.

(** the driver polls on exactly one chain of timers.  As long as
    [start()] is not called while a pass is still in flight, every
    interleaving of [start], [stop], [sweep], timer expiries and pass
    completions leaves a running driver with exactly one pending
    continuation (an armed timer or a pass in flight), so it neither stalls
    nor polls twice, and a stopped driver with no armed timer. *)
Theorem polling_is_a_single_chain l s :
  calm initial l s ->
  (running s = true -> chains s = 1%nat) /\
  (running s = false -> armed s = [] /\ (passes s <= 1)%nat).
Proof.
  assert (single initial) as Hi.
  { constructor; simpl; [done|split; [done|lia]|by intros k ?%elem_of_nil]. }
  intros Hc. enough (single s) as [? ? ?] by done. revert Hi.
  induction Hc as [|s0 a s1 l s2 Hstep Hcalm _ IH]; [done|]. intros Hs. apply IH.
  by eapply step_single.
Qed.

Lemma polling_is_a_single_chain_witness :
  chains (pass_ends (runPass (clear 0%nat (start initial)))) = 1%nat.
Proof.
  apply (polling_is_a_single_chain [Start; Fire 0; PassEnds]); [|reflexivity].
  eapply calm_cons; [apply step_start|reflexivity|].
  eapply calm_cons; [apply step_fire; left|discriminate|].
  eapply calm_cons; [apply step_pass_ends; simpl; lia|discriminate|]. apply calm_nil.
Defined.

(** Without that proviso the chain doubles: restarting the driver while a
    pass is in flight leaves a timer from [start] and one from the pass's
    own [schedule], and each keeps re-arming itself. *)
Theorem restart_during_pass_doubles_polling :
  exists s, steps initial [Start; Fire 0; Stop; Start; PassEnds] s /\
    running s = true /\ chains s = 2%nat.
Proof.
  exists (pass_ends (start (stop (runPass (clear 0%nat (start initial)))))).
  split; [|split; reflexivity].
  eapply steps_cons; [apply step_start|].
  eapply steps_cons; [apply step_fire; left|].
  eapply steps_cons; [apply step_stop|].
  eapply steps_cons; [apply step_start|].
  eapply steps_cons; [apply step_pass_ends; simpl; lia|]. apply steps_nil.
Qed.
End Polling.
