(* ===== verification/Findings.v ===== *)
(** * Behaviours that differ from what the sources say

    Each example runs the model on a small workflow or store and evaluates to
    a behaviour that a comment, a document or the code's own intent rules
    out. *)

From S2P Require Import Prelude JsValue Json Errors Pause Channels CheckpointStore Frontier Engine EngineRun Demo.

Local Open Scope string_scope.

Definition codes (st : RunState (S := Mem.t)) : list string :=
  omap (fun e => match e with EvError _ c => Some c | EvEnd _ _ => Some "end" | _ => None end)
       (rs_events st).

Definition clear_events (st : RunState (S := Mem.t)) : RunState (S := Mem.t) :=
  mkRun (rs_store st) (rs_ids st) (rs_tick st) (rs_now st) [] (rs_lock st) (rs_int st).

Definition retry_opts : ResumeOptions := mkResume None ModeRetry None None false.

(** ** A dead end that a retry turns into success

    [stuck] completes and no edge leads on.  The run fails with [dead-end];
    its retry finds an empty frontier, plans nothing and reports completion. *)

Definition stuck_cfg : WorkflowConfig :=
  mkConfig "stuck" [("a", fin_node)]
    [mkEdge START_NODE "a" None; mkEdge "a" END_NODE (Some (fun _ => false))]
    [("n", reducer sum_reducer (Some (VNum (NFin 0))))] [] [] [] None None None None None None None false.

Definition stuck_args : RunArgs := mkArgs stuck_cfg "t1" Sync SValues.

Definition stuck_failed : RunState (S := Mem.t) :=
  (runEngine demo_newId demo_world stuck_args [] demo_envs demo_start).1.

Example dead_end_fails : codes stuck_failed = ["dead-end"].
Proof. vm_compute. reflexivity. Qed.

Theorem retry_after_dead_end_completes :
  codes (resumeEngine demo_newId demo_world stuck_args retry_opts demo_envs
           (clear_events stuck_failed)).1 = ["end"].
Proof. vm_compute. reflexivity. Qed.

(** ** A fresh run on a finished thread

    The pre-check lets a run without parent write over a terminal thread.  Its
    checkpoints restart at step 0, so the finished run's last checkpoint stays
    the latest: the new run reports a suspension that no resume can find. *)

Theorem fresh_run_on_completed_thread_is_lost :
  codes (runEngine demo_newId demo_world demo_args [("log", VArr [])] demo_envs
           (clear_events demo_resumed)).1 = [] /\
  codes (resumeEngine demo_newId demo_world demo_args demo_resume demo_envs
           (clear_events (runEngine demo_newId demo_world demo_args [] demo_envs
                            (clear_events demo_resumed)).1)).1 = ["resume-without-suspension"].
Proof. vm_compute. split; reflexivity. Qed.

(** ** The answer lost at a pause-before gate

    [ask] waits for an approval while [x] of the same step completes and leads
    to [gate], which has a pause-before gate.  The resume that delivers the
    approval plans [ask] and [gate] together; the gate persists the round with
    [ask] as a plain task, and the delivered answer is gone: the thread asks
    for the same approval again and its log stays empty. *)

Definition gate_cfg : WorkflowConfig :=
  mkConfig "gate" [("ask", ask_node); ("x", fin_node); ("gate", fin_node)]
    [mkEdge START_NODE "ask" None; mkEdge START_NODE "x" None; mkEdge "x" "gate" None;
     mkEdge "gate" END_NODE None; mkEdge "ask" END_NODE None]
    [("n", reducer sum_reducer (Some (VNum (NFin 0)))); ("log", listAggregate (Some []))]
    [] ["gate"] [] None None None None None None None false.

Definition gate_args : RunArgs := mkArgs gate_cfg "t1" Sync SValues.

Definition gate_resume (answer : string) (st : RunState (S := Mem.t)) : RunState (S := Mem.t) :=
  (resumeEngine demo_newId demo_world gate_args
     (mkResume (Some (mkDirective None (VStr answer) None)) ModeResume None None false)
     demo_envs (clear_events st)).1.

Definition gate_suspended : RunState (S := Mem.t) :=
  (runEngine demo_newId demo_world gate_args [] demo_envs demo_start).1.

Definition last_suspension (st : RunState (S := Mem.t)) : option (value * value) :=
  head (omap (fun e => match e with
                       | EvSuspended _ _ state v => Some (v, undef_or (jget "log" state))
                       | _ => None
                       end) (rs_events st)).

Theorem gate_loses_delivered_answer :
  last_suspension gate_suspended = Some (approval_value "ship" None None None, VArr []) /\
  last_suspension (gate_resume "yes" gate_suspended) =
    Some (VObj [("kind", VStr "static-before"); ("node", VStr "gate")], VArr []) /\
  last_suspension (gate_resume "go" (gate_resume "yes" gate_suspended)) =
    Some (approval_value "ship" None None None, VArr []).
Proof. vm_compute. split_and!; reflexivity. Qed.

(** ** Structural equality ignores keys the other side lacks *)

Theorem deepEqual_ignores_missing_keys :
  deepEqual (VObj [("x", VUndef)]) (VObj [("y", VNum (NFin 1))]) = true /\
  deepEqual (VObj [("y", VNum (NFin 1))]) (VObj [("x", VUndef)]) = false.
Proof. vm_compute. split; reflexivity. Qed.

(** ** Separators inside thread identifiers *)

Definition two_threads : Mem.t :=
  let cp t := mkCheckpoint "c1" t "wf" None VNull [] 0 0 in
  let md := mkMetadata Sync Suspended None None (Some 5%Z) in
  MemRefine.put_state "a::b" "wf" (cp "a::b") md (MemRefine.put_state "a" "wf" (cp "a") md Mem.empty).

Theorem delete_thread_reaches_other_threads :
  is_Some (Mem.getTuple "a::b" "wf" None two_threads) /\
  Mem.getTuple "a::b" "wf" None (Mem.deleteThread "a" two_threads) = None /\
  Mem.listSuspended "wf" None None two_threads = [("a", 5%Z)].
Proof. vm_compute. split_and!; [by eexists|reflexivity|reflexivity]. Qed.

(** ** Dispatches lost by a retry

    [fan] dispatches a task while its sibling [bad] fails.  The retry replays
    [fan]'s writes but not its dispatch: the dispatched [fin] never runs. *)

Definition fan_node : WorkflowNode :=
  mkNode (fun _ _ => PRet (VArr [Dispatch 1 "fin" VNull])) None None.
Definition bad_node : WorkflowNode :=
  mkNode (fun cx _ => if decide (cx_stepNumber cx = 0) then PThrow (PlainError "down")
                      else PRet VUndef) None None.

Definition fan_cfg : WorkflowConfig :=
  mkConfig "fan" [("fan", fan_node); ("bad", bad_node); ("fin", fin_node)]
    [mkEdge START_NODE "fan" None; mkEdge START_NODE "bad" None; mkEdge "fan" END_NODE None;
     mkEdge "bad" END_NODE None; mkEdge "fin" END_NODE None]
    [("n", reducer sum_reducer (Some (VNum (NFin 0))))] [] [] [] None None None None None None None false.

Definition fan_args : RunArgs := mkArgs fan_cfg "t1" Sync SValues.

Definition fan_failed : RunState (S := Mem.t) :=
  (runEngine demo_newId demo_world fan_args [] demo_envs demo_start).1.

Definition fan_retried : RunState (S := Mem.t) :=
  (resumeEngine demo_newId demo_world fan_args retry_opts demo_envs (clear_events fan_failed)).1.

Theorem retry_drops_completed_dispatches :
  codes fan_failed = ["node-execution-failed"] /\ codes fan_retried = ["end"] /\
  jget "n" (ri_state (rs_int fan_retried)) = Some (VNum (NFin 0)).
Proof. vm_compute. split_and!; reflexivity. Qed.

(** ** A forked timer is invisible to the timer driver *)

Definition sleeping : RunState (S := Mem.t) :=
  mkRun (MemRefine.put_state "t1" "workflow/demo"
           (mkCheckpoint "cp_1" "t1" "workflow/demo" None (VObj []) [] 0 0)
           (mkMetadata Sync Suspended (Some "nap") None (Some 300%Z)) Mem.empty)
        3 0 0 [] [] (initialInternal demo_cfg []).

Theorem fork_drops_wake_time :
  let st' := (forkThread demo_newId demo_world demo_cfg "t1" "cp_1" [] sleeping).1 in
  is_Some (Mem.getTuple "thread_3" "workflow/demo" None (rs_store st')) /\
  Mem.listSuspended "workflow/demo" None None (rs_store st') = [("t1", 300%Z)].
Proof. vm_compute. split; [by eexists|reflexivity]. Qed.
