(* ===== verification/Merkle.v ===== *)
(** * The audit log's Merkle layer

    [packages/security/src/audit/merkle.ts]: the RFC 6962 tree head over the
    audit entries, inclusion and consistency proofs, their verifiers, and the
    check of a live log against a signed checkpoint.

    SHA-256, the canonical JSON of an entry, hex encoding and the Ed25519
    check are parameters.  Tree sizes and leaf indices are integers; the
    verifiers' bit operations work on 32-bit integers as JavaScript's do. *)

From S2P Require Import Prelude JsValue Errors.

Local Open Scope nat_scope.

(** ** 32-bit integer operations of the verifiers *)

Definition toInt32 (z : Z) : Z := ((z + 2 ^ 31) mod 2 ^ 32 - 2 ^ 31)%Z.

(** [z >> 1], [(z & 1) === 1] *)
Definition shr1 (z : Z) : Z := (toInt32 z / 2)%Z.
Definition is_odd (z : Z) : bool := Z.odd z.

Definition isPowerOfTwo (n : Z) : bool :=
  (0 <? n)%Z && (Z.land (toInt32 n) (toInt32 (n - 1)) =? 0)%Z.

(** [while (fn !== 0 && (fn & 1) === 0) { fn >>= 1; sn >>= 1; }] *)
Fixpoint collapse (fuel : nat) (fn sn : Z) : Z * Z :=
  match fuel with
  | O => (fn, sn)
  | S fuel' =>
      if negb (fn =? 0)%Z && negb (is_odd fn) then collapse fuel' (shr1 fn) (shr1 sn) else (fn, sn)
  end.

(** [while ((fn & 1) === 1) { fn >>= 1; sn >>= 1; }] *)
Fixpoint climb (fuel : nat) (fn sn : Z) : Z * Z :=
  match fuel with
  | O => (fn, sn)
  | S fuel' => if is_odd fn then climb fuel' (shr1 fn) (shr1 sn) else (fn, sn)
  end.

(** 32-bit integers halve at most 32 times. *)
Definition BITS := 32.

(** One round of the verification loops: [None] when the path is too long,
    otherwise on which side the sibling goes ([true]: left) and the next
    indices. *)
Definition turn (fn sn : Z) : option (bool * Z * Z) :=
  if (sn =? 0)%Z then None
  else if is_odd fn || (fn =? sn)%Z then
    let '(fn', sn') := if is_odd fn then (fn, sn) else collapse BITS fn sn in
    Some (true, shr1 fn', shr1 sn')
  else Some (false, shr1 fn, shr1 sn).

(** ** The tree *)

(** [let k = 1; while (k * 2 < n) k *= 2;] *)
Fixpoint double_below (fuel k n : nat) : nat :=
  match fuel with
  | O => k
  | S fuel' => if decide (k * 2 < n) then double_below fuel' (k * 2) n else k
  end.

Definition largestPowerOfTwoBelow (n : nat) : nat := double_below n 1 n.

Section Merkle.
Context {Entry Hex : Type} `{EqDecision Hex}.
Context (sha256 : list Z -> list Z) (canonicalBytes : Entry -> list Z) (seq_of : Entry -> nat).
Context (toHex : list Z -> Hex) (ofHex : Hex -> list Z).

Definition leafHash (e : Entry) : list Z := sha256 (0%Z :: canonicalBytes e).
Definition nodeHash (l r : list Z) : list Z := sha256 (1%Z :: l ++ r).

(** The recursions are on slices; every call is on a shorter list. *)
Fixpoint tree_hash (fuel : nat) (leaves : list (list Z)) : list Z :=
  match fuel, leaves with
  | _, [] => sha256 []
  | _, [x] => x
  | O, _ => sha256 []
  | S fuel', _ =>
      let k := largestPowerOfTwoBelow (length leaves) in
      nodeHash (tree_hash fuel' (take k leaves)) (tree_hash fuel' (drop k leaves))
  end.

Definition merkleTreeHash (leaves : list (list Z)) : list Z := tree_hash (length leaves) leaves.

Fixpoint inclusion_path (fuel m : nat) (leaves : list (list Z)) : list (list Z) :=
  match fuel, leaves with
  | _, [] | _, [_] | O, _ => []
  | S fuel', _ =>
      let k := largestPowerOfTwoBelow (length leaves) in
      if decide (m < k)
      then inclusion_path fuel' m (take k leaves) ++ [merkleTreeHash (drop k leaves)]
      else inclusion_path fuel' (m - k) (drop k leaves) ++ [merkleTreeHash (take k leaves)]
  end.

Definition inclusionPath (m : nat) (leaves : list (list Z)) : list (list Z) :=
  inclusion_path (length leaves) m leaves.

Fixpoint consistency_path (fuel m : nat) (leaves : list (list Z)) (isCompleteSubtree : bool) :
    list (list Z) :=
  if decide (m = length leaves) then (if isCompleteSubtree then [] else [merkleTreeHash leaves])
  else match fuel with
       | O => []
       | S fuel' =>
           let k := largestPowerOfTwoBelow (length leaves) in
           if decide (m <= k)
           then consistency_path fuel' m (take k leaves) isCompleteSubtree ++
                [merkleTreeHash (drop k leaves)]
           else consistency_path fuel' (m - k) (drop k leaves) false ++
                [merkleTreeHash (take k leaves)]
       end.

Definition consistencyPath (m : nat) (leaves : list (list Z)) (isCompleteSubtree : bool) :
    list (list Z) := consistency_path (length leaves) m leaves isCompleteSubtree.

(** ** Heads and proofs over a stored log

    [db.iterate] yields the entries in [seq] order, its upper bound inclusive. *)

Record AuditTreeHead := mkHead {
  hd_size : Z;
  hd_rootHash : Hex;
  hd_lastSeq : nat;
}.

Record AuditInclusionProof := mkInclusion {
  ip_seq : nat;
  ip_leafIndex : Z;
  ip_treeSize : Z;
  ip_path : list Hex;
}.

Definition iterate (db : list Entry) (toSeq : option nat) : list Entry :=
  match toSeq with
  | None => db
  | Some b => List.filter (fun e => bool_decide (seq_of e <= b)) db
  end.

Definition loadLeaves (db : list Entry) (toSeq : option nat) : list (list Z) * nat :=
  let es := iterate db toSeq in
  (map leafHash es, default 0 (seq_of <$> last es)).

Definition computeAuditTreeHead (db : list Entry) (toSeq : option nat) : AuditTreeHead :=
  let '(leaves, lastSeq) := loadLeaves db toSeq in
  mkHead (Z.of_nat (length leaves)) (toHex (merkleTreeHash leaves)) lastSeq.

(** The position of the first entry with the given [seq]. *)
Fixpoint index_of (seq : nat) (es : list Entry) : option nat :=
  match es with
  | [] => None
  | e :: es' => if decide (seq_of e = seq) then Some 0 else S <$> index_of seq es'
  end.

Definition proveAuditInclusion (db : list Entry) (seq : nat) (head : AuditTreeHead) :
    result exn AuditInclusionProof :=
  let '(leaves, _) := loadLeaves db (Some (hd_lastSeq head)) in
  if decide (Z.of_nat (length leaves) = hd_size head) then
    match index_of seq (iterate db (Some (hd_lastSeq head))) with
    | Some leafIndex =>
        Ok (mkInclusion seq (Z.of_nat leafIndex) (hd_size head)
              (map toHex (inclusionPath leafIndex leaves)))
    | None => Err (PlainError "audit entry is not covered by this head")
    end
  else Err (PlainError "audit log size does not match head size").

(** ** The verifiers *)

(** Folding a path: [combine] is what one round does to the accumulator. *)
Fixpoint walk {X} (combine : bool -> list Z -> X -> X) (x : X) (fn sn : Z)
    (path : list (list Z)) : option (X * Z) :=
  match path with
  | [] => Some (x, sn)
  | c :: path' =>
      match turn fn sn with
      | None => None
      | Some (side, fn', sn') => walk combine (combine side c x) fn' sn' path'
      end
  end.

Definition fold_leaf (side : bool) (c h : list Z) : list Z :=
  if side then nodeHash c h else nodeHash h c.

Definition verifyAuditInclusion (entry : Entry) (proof : AuditInclusionProof) (head : AuditTreeHead) :
    bool :=
  if negb (ip_treeSize proof =? hd_size head)%Z then false
  else if (ip_leafIndex proof <? 0)%Z || (ip_treeSize proof <=? ip_leafIndex proof)%Z then false
  else match walk fold_leaf (leafHash entry) (ip_leafIndex proof) (ip_treeSize proof - 1)
                  (map ofHex (ip_path proof)) with
       | None => false
       | Some (h, sn) => (sn =? 0)%Z && bool_decide (toHex h = hd_rootHash head)
       end.

(** [fr] is the older root, [sr] the newer one. *)
Definition fold_roots (side : bool) (c : list Z) (x : list Z * list Z) : list Z * list Z :=
  if side then (nodeHash c x.1, nodeHash c x.2) else (x.1, nodeHash x.2 c).

Definition proveAuditConsistency (db : list Entry) (older newer : AuditTreeHead) :
    result exn (list Hex) :=
  if (hd_size newer <? hd_size older)%Z
  then Err (PlainError "consistency proofs go from the SMALLER head to the larger")
  else
    let '(leaves, _) := loadLeaves db (Some (hd_lastSeq newer)) in
    if decide (Z.of_nat (length leaves) = hd_size newer) then
      if (hd_size older =? 0)%Z || (hd_size older =? hd_size newer)%Z then Ok []
      else Ok (map toHex (consistencyPath (Z.to_nat (hd_size older)) leaves true))
    else Err (PlainError "audit log size does not match head size").

Definition verifyAuditConsistency (older newer : AuditTreeHead) (proof : list Hex) : bool :=
  if (hd_size newer <? hd_size older)%Z then false
  else if (hd_size older =? 0)%Z then true
  else if (hd_size older =? hd_size newer)%Z then
    bool_decide (hd_rootHash older = hd_rootHash newer) && bool_decide (proof = [])
  else
    let path := map ofHex proof in
    let full := if isPowerOfTwo (hd_size older) then ofHex (hd_rootHash older) :: path else path in
    match full with
    | [] => false
    | seed :: rest =>
        let '(fn, sn) := climb BITS (hd_size older - 1) (hd_size newer - 1) in
        match walk fold_roots (seed, seed) fn sn rest with
        | None => false
        | Some ((fr, sr), sn') =>
            bool_decide (toHex fr = hd_rootHash older) && bool_decide (toHex sr = hd_rootHash newer) &&
            (sn' =? 0)%Z
        end
    end.

(** ** Signed checkpoints *)

Record SignedAuditCheckpoint := mkSigned {
  sg_head : AuditTreeHead;
  sg_writerId : string;
  sg_signedAt : string;
  sg_signature : string;
  sg_publicKeyPem : string;
}.

(** Ed25519: the signature over the checkpoint body (head, writer, time) and the
    public half of a private key. *)
Context (cryptoSign : AuditTreeHead -> string -> string -> string -> string).
Context (publicKeyOf : string -> string).

Definition signAuditCheckpoint (db : list Entry) (privateKeyPem writerId signedAt : string) :
    SignedAuditCheckpoint :=
  let head := computeAuditTreeHead db None in
  mkSigned head writerId signedAt (cryptoSign head writerId signedAt privateKeyPem)
    (publicKeyOf privateKeyPem).

(** [verifyAuditCheckpointSignature]: an external check, [false] when it throws. *)
Context (signature_ok : SignedAuditCheckpoint -> string -> bool).

Inductive AnchorResult :=
| AnchorOk (current : AuditTreeHead)
| BadSignature
| InconsistentLog (current : AuditTreeHead).

Definition verifyAuditAgainstCheckpoint (db : list Entry) (checkpoint : SignedAuditCheckpoint)
    (publicKeyPem : string) : result exn AnchorResult :=
  if signature_ok checkpoint publicKeyPem then
    let current := computeAuditTreeHead db None in
    if (hd_size current <? hd_size (sg_head checkpoint))%Z then Ok (InconsistentLog current)
    else
      rbind (proveAuditConsistency db (sg_head checkpoint) current) (fun proof =>
        Ok (if verifyAuditConsistency (sg_head checkpoint) current proof
            then AnchorOk current else InconsistentLog current))
  else Ok BadSignature.
End Merkle.
