(* ===== verification/MerkleFacts.v ===== *)
(** * Sides: what a proof path looks like

    Which side each sibling of a proof path stands on depends only on the leaf
    index and the tree size.  [sides] reads it off the tree top-down, as the
    prover splits it; the verifiers find it bottom-up by shifting indices
    ([turn]).  The two agree ([turn_sides]), so every verifier run is a
    [replay] of the path along [sides]. *)

From Stdlib Require Import ZifyNat.
From S2P Require Import Prelude JsValue Errors Merkle.

Local Open Scope nat_scope.

Ltac Zify.zify_post_hook ::= Z.to_euclidean_division_equations.

(** ** The split point *)

Lemma double_below_spec fuel k n :
  0 < k < n -> n <= k * 2 ^ fuel ->
  exists i, double_below fuel k n = k * 2 ^ i /\ k * 2 ^ i < n <= 2 * (k * 2 ^ i).
Proof.
  revert k. induction fuel as [|fuel IH]; intros k Hk Hn; simpl in *; [lia|].
  case_decide.
  - destruct (IH (k * 2)) as (i & -> & ?); [lia|lia|]. exists (S i). simpl. lia.
  - exists 0. simpl. lia.
Qed.

Lemma split_spec n :
  2 <= n ->
  exists i, largestPowerOfTwoBelow n = 2 ^ i /\ 2 ^ i < n <= 2 * 2 ^ i.
Proof.
  intros Hn. unfold largestPowerOfTwoBelow.
  destruct (double_below_spec n 1 n) as (i & Heq & Hb); [lia| |].
  - rewrite Nat.mul_1_l. apply Nat.lt_le_incl, Nat.pow_gt_lin_r. lia.
  - exists i. rewrite Nat.mul_1_l in *. done.
Qed.

Lemma split_unique n i : 2 ^ i < n <= 2 * 2 ^ i -> largestPowerOfTwoBelow n = 2 ^ i.
Proof.
  intros Hi. assert (2 ^ i <> 0) by (by apply Nat.pow_nonzero).
  destruct (split_spec n) as (j & -> & Hj); [lia|].
  destruct (Nat.lt_trichotomy i j) as [Hlt|[->|Hlt]]; [|done|];
    apply (Nat.pow_le_mono_r 2) in Hlt; simpl in Hlt; lia.
Qed.

Lemma split_bounds n :
  2 <= n -> 0 < largestPowerOfTwoBelow n < n /\ n <= 2 * largestPowerOfTwoBelow n.
Proof.
  intros Hn. destruct (split_spec n Hn) as (i & -> & ?).
  assert (2 ^ i <> 0) by (by apply Nat.pow_nonzero). lia.
Qed.

(** A tree of more than the split's leaves splits at the same place. *)
Lemma split_between m n :
  largestPowerOfTwoBelow n < m <= n -> 2 <= n ->
  largestPowerOfTwoBelow m = largestPowerOfTwoBelow n.
Proof.
  intros Hm Hn. destruct (split_spec n Hn) as (i & Heq & ?). rewrite Heq in *.
  apply split_unique. lia.
Qed.

(** Halving the tree halves the split. *)
Lemma split_half n :
  3 <= n -> largestPowerOfTwoBelow n = 2 * largestPowerOfTwoBelow ((n - 1) / 2 + 1).
Proof.
  intros Hn. destruct (split_spec n) as (i & -> & Hi); [lia|].
  destruct i as [|i]; [simpl in Hi; lia|]. rewrite Nat.pow_succ_r' in *.
  pose proof (Nat.div_mod_eq (n - 1) 2). pose proof (Nat.mod_upper_bound (n - 1) 2).
  rewrite (split_unique _ i); lia.
Qed.

(** Trees are built by splitting. *)
Lemma split_ind (P : nat -> Prop) :
  P 0 -> P 1 ->
  (forall n, 2 <= n -> P (largestPowerOfTwoBelow n) -> P (n - largestPowerOfTwoBelow n) -> P n) ->
  forall n, P n.
Proof.
  intros H0 H1 Hs n. induction (lt_wf n) as [n _ IH].
  destruct (decide (n <= 1)); [destruct n as [|[|]]; [done|done|lia]|].
  pose proof (split_bounds n ltac:(lia)). apply Hs; [lia| |]; apply IH; lia.
Qed.

(** ** Sides, top-down *)

Fixpoint sides_f (fuel m n : nat) : list bool :=
  match fuel with
  | O => []
  | S fuel' =>
      if decide (n <= 1) then []
      else let k := largestPowerOfTwoBelow n in
           if decide (m < k) then sides_f fuel' m k ++ [false]
           else sides_f fuel' (m - k) (n - k) ++ [true]
  end.

Definition sides (m n : nat) : list bool := sides_f n m n.

Lemma sides_f_fuel f1 f2 m n : n <= f1 -> n <= f2 -> sides_f f1 m n = sides_f f2 m n.
Proof.
  revert f2 m n. induction f1 as [|f1 IH]; intros [|f2] m n H1 H2; simpl; try done;
    try (rewrite decide_True by lia; done).
  case_decide; [done|]. pose proof (split_bounds n ltac:(lia)).
  case_decide; f_equal; apply IH; lia.
Qed.

Lemma sides_leaf m n : n <= 1 -> sides m n = [].
Proof. intros. unfold sides. destruct n; simpl; [done|]. by rewrite decide_True by lia. Qed.

Lemma sides_split m n :
  2 <= n ->
  sides m n =
    if decide (m < largestPowerOfTwoBelow n)
    then sides m (largestPowerOfTwoBelow n) ++ [false]
    else sides (m - largestPowerOfTwoBelow n) (n - largestPowerOfTwoBelow n) ++ [true].
Proof.
  intros Hn. pose proof (split_bounds n Hn). unfold sides at 1.
  destruct n as [|n]; [lia|]. cbn [sides_f]. rewrite decide_False by lia.
  unfold sides. case_decide; f_equal; apply sides_f_fuel; lia.
Qed.

Lemma odd_mod2 m : Nat.odd m = bool_decide (m mod 2 = 1).
Proof.
  pose proof (Nat.div2_odd m) as E. pose proof (Nat.div_mod_eq m 2).
  pose proof (Nat.mod_upper_bound m 2). rewrite Nat.div2_div in E.
  destruct (Nat.odd m); case_bool_decide; simpl in *; lia.
Qed.

(** Halving both indices drops the lowest sibling; a rightmost leaf at an even
    index has none at that level. *)
Lemma sides_half n m :
  m < n -> 2 <= n ->
  sides m n =
    (if Nat.odd m then [true] else if decide (m = n - 1) then [] else [false]) ++
    sides (m / 2) ((n - 1) / 2 + 1).
Proof.
  revert m. induction n as [| |n Hn IHl IHr] using split_ind; intros m Hm H2; [lia|lia|].
  clear H2. destruct (decide (n = 2)) as [->|].
  { destruct m as [|[|]]; [done|done|lia]. }
  assert (Hhalf := split_half n ltac:(lia)). pose proof (split_bounds n Hn).
  rewrite (sides_split m n), (sides_split (m / 2)) by lia.
  set (k := largestPowerOfTwoBelow n) in *.
  set (k' := largestPowerOfTwoBelow ((n - 1) / 2 + 1)) in *. clearbody k k'.
  assert (Hodd : Nat.odd (m - k) = Nat.odd m \/ m < k).
  { rewrite !odd_mod2. destruct (decide (m < k)); [by right|left]. apply bool_decide_ext. lia. }
  destruct (decide (m < k)) as [Hlt|Hge].
  - rewrite (decide_True (P := m / 2 < k')) by lia.
    rewrite (IHl m) by lia. replace ((k - 1) / 2 + 1) with k' by lia.
    rewrite <- app_assoc. f_equal. rewrite odd_mod2. case_bool_decide; [done|].
    by rewrite !decide_False by lia.
  - rewrite (decide_False (P := m / 2 < k')) by lia. destruct Hodd as [Hodd|]; [|lia].
    destruct (decide (n - k = 1)) as [Hone|].
    { rewrite odd_mod2, bool_decide_false by lia. rewrite (decide_True (P := m = n - 1)) by lia.
      by rewrite !sides_leaf by lia. }
    rewrite (IHr (m - k)), Hodd, <- app_assoc by lia.
    replace ((m - k) / 2) with (m / 2 - k') by lia.
    replace ((n - k - 1) / 2 + 1) with ((n - 1) / 2 + 1 - k') by lia.
    f_equal. destruct (Nat.odd m); [done|]. repeat case_decide; try done; lia.
Qed.

(** ** Sides, bottom-up *)

Lemma shr1_nat m : (Z.of_nat m < 2 ^ 31)%Z -> shr1 (Z.of_nat m) = Z.of_nat (m / 2).
Proof. unfold shr1, toInt32. intros. rewrite Z.mod_small by lia. lia. Qed.

Lemma is_odd_nat m : is_odd (Z.of_nat m) = Nat.odd m.
Proof.
  unfold is_odd. rewrite odd_mod2, Zodd_mod. destruct (Z.eqb_spec (Z.of_nat m mod 2) 1); symmetry;
    [apply bool_decide_true|apply bool_decide_false]; lia.
Qed.

(** A rightmost node at an even index is promoted until its index is odd. *)
Lemma collapse_spec fuel m :
  0 < m -> (Z.of_nat m < 2 ^ Z.of_nat fuel)%Z -> (Z.of_nat m < 2 ^ 31)%Z ->
  exists r, collapse fuel (Z.of_nat m) (Z.of_nat m) = (Z.of_nat r, Z.of_nat r) /\
    Nat.odd r = true /\ r <= m /\ sides m (S m) = sides r (S r).
Proof.
  revert m. induction fuel as [|fuel IH]; intros m Hm Hf Hb; [simpl in Hf; lia|].
  cbn [collapse]. rewrite is_odd_nat. destruct (Nat.odd m) eqn:Ho; simpl.
  - rewrite andb_false_r. by exists m.
  - rewrite (proj2 (Z.eqb_neq _ _)) by lia. simpl. rewrite shr1_nat by done.
    rewrite odd_mod2 in Ho. apply bool_decide_eq_false in Ho.
    rewrite Nat2Z.inj_succ, Z.pow_succ_r in Hf by lia.
    destruct (IH (m / 2)) as (r & -> & Hr & Hle & Hs); [lia|lia|lia|].
    exists r. split_and!; [done|done|lia|].
    rewrite sides_half, odd_mod2 by lia. rewrite bool_decide_false by done.
    rewrite decide_True by lia. cbn [app]. replace (S m - 1) with m by lia.
    by replace (m / 2 + 1) with (S (m / 2)) by lia.
Qed.

(** One round of a verifier reads the lowest side and moves to a smaller tree. *)
Lemma turn_sides m n :
  m < n -> 2 <= n -> (Z.of_nat n <= 2 ^ 31)%Z ->
  exists s m' n', turn (Z.of_nat m) (Z.of_nat n - 1) = Some (s, Z.of_nat m', Z.of_nat n' - 1)%Z /\
    m' < n' < n /\ sides m n = s :: sides m' n'.
Proof.
  intros Hm Hn Hb. replace (Z.of_nat n - 1)%Z with (Z.of_nat (n - 1)) by lia.
  unfold turn. rewrite (proj2 (Z.eqb_neq _ _)), is_odd_nat by lia.
  pose proof (sides_half n m Hm Hn) as Hh.
  destruct (Nat.odd m) eqn:Ho; [cbn [app orb] in Hh |- *|].
  - exists true, (m / 2), ((n - 1) / 2 + 1). rewrite !shr1_nat by lia.
    split_and!; [repeat f_equal; lia|lia|lia|done].
  - destruct (decide (m = n - 1)) as [->|Hne]; simpl orb.
    + rewrite (proj2 (Z.eqb_eq _ _)) by lia.
      destruct (collapse_spec BITS (n - 1)) as (r & -> & Hr & Hle & Hs); [lia|unfold BITS; lia|lia|].
      exists true, (r / 2), (r / 2 + 1). rewrite !shr1_nat by lia. split_and!; [repeat f_equal; lia|lia|lia|].
      replace n with (S (n - 1)) at 2 by lia. rewrite Hs, sides_half, Hr by (destruct r; simpl in *; [done|lia]).
      cbn [app]. by replace (S r - 1) with r by lia.
    + rewrite (proj2 (Z.eqb_neq _ _)) by lia.
      exists false, (m / 2), ((n - 1) / 2 + 1). rewrite !shr1_nat by lia.
      split_and!; [repeat f_equal; lia|lia|lia|done].
Qed.

(** ** A verifier run is a replay along the sides *)

Fixpoint replay {X} (combine : bool -> list Z -> X -> X) (x : X) (ss : list bool)
    (path : list (list Z)) : option X :=
  match ss, path with
  | [], [] => Some x
  | s :: ss', c :: path' => replay combine (combine s c x) ss' path'
  | _, _ => None
  end.

Lemma replay_snoc {X} (f : bool -> list Z -> X -> X) x ss s path h :
  replay f x (ss ++ [s]) path = Some h <->
  exists p c x', path = p ++ [c] /\ replay f x ss p = Some x' /\ h = f s c x'.
Proof.
  revert x path. induction ss as [|s' ss IH]; intros x path; simpl.
  - destruct path as [|c [|]]; simpl; split; try done; try by intros ([|? []] & ? & ? & ? & ? & ?).
    + intros [= <-]. by exists [], c, x.
    + intros (p & c' & x' & Hp & Hx & ->). destruct p as [|? []]; simplify_list_eq. done.
  - destruct path as [|c path]; simpl; [split; [done|by intros ([] & ? & ? & ? & ?)]|].
    rewrite IH. split.
    + intros (p & c' & x' & -> & ? & ->). by exists (c :: p), c', x'.
    + intros ([|c0 p] & c' & x' & Hp & ? & ->); simplify_list_eq. by exists p, c', x'.
Qed.

Lemma walk_replay {X} (f : bool -> list Z -> X -> X) x m n path h :
  m < n -> (Z.of_nat n <= 2 ^ 31)%Z ->
  walk f x (Z.of_nat m) (Z.of_nat n - 1) path = Some (h, 0%Z) <->
  replay f x (sides m n) path = Some h.
Proof.
  revert x m n. induction path as [|c path IH]; intros x m n Hm Hn; simpl.
  - destruct (decide (n = 1)) as [->|]; [by rewrite sides_leaf; naive_solver|].
    destruct (turn_sides m n) as (s & m' & n' & _ & _ & ->); [lia..|]. simpl.
    split; [|done]. intros [= _ ?]. lia.
  - destruct (decide (n = 1)) as [->|]; [by rewrite sides_leaf|].
    destruct (turn_sides m n) as (s & m' & n' & -> & ? & ->); [lia..|]. simpl.
    apply IH; lia.
Qed.

(** ** Consistency proofs start at the older tree's last complete subtree *)

Fixpoint csides_f (fuel m n : nat) : list bool :=
  if decide (m = n) then []
  else match fuel with
       | O => []
       | S fuel' =>
           let k := largestPowerOfTwoBelow n in
           if decide (m <= k) then csides_f fuel' m k ++ [false]
           else csides_f fuel' (m - k) (n - k) ++ [true]
       end.

Definition csides (m n : nat) : list bool := csides_f n m n.

Lemma csides_f_fuel f1 f2 m n :
  0 < m <= n -> n <= f1 -> n <= f2 -> csides_f f1 m n = csides_f f2 m n.
Proof.
  revert f2 m n. induction f1 as [|f1 IH]; intros [|f2] m n Hm H1 H2; simpl;
    case_decide; try done; try lia.
  pose proof (split_bounds n ltac:(lia)). case_decide; f_equal; apply IH; lia.
Qed.

Lemma csides_same n : csides n n = [].
Proof. unfold csides. destruct n; simpl; [done|]. by rewrite decide_True. Qed.

Lemma csides_split m n :
  0 < m < n ->
  csides m n =
    if decide (m <= largestPowerOfTwoBelow n)
    then csides m (largestPowerOfTwoBelow n) ++ [false]
    else csides (m - largestPowerOfTwoBelow n) (n - largestPowerOfTwoBelow n) ++ [true].
Proof.
  intros Hm. pose proof (split_bounds n ltac:(lia)). unfold csides at 1.
  destruct n as [|n]; [lia|]. cbn [csides_f]. rewrite decide_False by lia.
  unfold csides. case_decide; f_equal; apply csides_f_fuel; lia.
Qed.

Lemma sides_last n : sides (n - 1) n = replicate (length (sides (n - 1) n)) true.
Proof.
  induction n as [| |n Hn _ IH] using split_ind; [done|done|].
  pose proof (split_bounds n Hn). rewrite sides_split, decide_False by lia.
  replace (n - 1 - largestPowerOfTwoBelow n) with (n - largestPowerOfTwoBelow n - 1) by lia.
  rewrite IH at 1. rewrite length_app, Nat.add_comm. simpl.
  by rewrite replicate_cons_app.
Qed.

(** The path of the older tree's last leaf is a run of left siblings inside that
    subtree, then the consistency path. *)
Lemma sides_csides n m :
  0 < m < n ->
  exists t rest, csides m n = false :: rest /\ sides (m - 1) n = replicate t true ++ false :: rest.
Proof.
  revert m. induction n as [| |n Hn IHl IHr] using split_ind; intros m Hm; [lia|lia|].
  pose proof (split_bounds n Hn). rewrite csides_split, sides_split by lia.
  destruct (decide (m = largestPowerOfTwoBelow n)) as [Heq|Hne].
  - rewrite decide_True, decide_True by lia. rewrite <- Heq, csides_same, sides_last.
    by eexists _, [].
  - repeat case_decide; try lia.
    + destruct (IHl m) as (t & rest & -> & ->); [lia|]. exists t, (rest ++ [false]).
      by rewrite <- app_assoc.
    + destruct (IHr (m - largestPowerOfTwoBelow n)) as (t & rest & -> & Hs); [lia|].
      exists t, (rest ++ [true]). split; [done|].
      replace (m - 1 - largestPowerOfTwoBelow n) with (m - largestPowerOfTwoBelow n - 1) by lia.
      by rewrite Hs, <- app_assoc.
Qed.

(** At an even index a run of left siblings is empty. *)
Lemma even_sides_start m n t rest :
  m < n -> Nat.odd m = false -> sides m n = replicate t true ++ false :: rest ->
  sides m n = false :: rest.
Proof.
  intros Hm Ho Hs. destruct t as [|t]; [done|exfalso].
  destruct (decide (m = n - 1)) as [->|Hne].
  - rewrite sides_last in Hs. apply (f_equal (fun l => false ∈ l)) in Hs.
    assert (false ∈ replicate (length (sides (n - 1) n)) true) as Hin by (rewrite Hs; set_solver).
    by apply elem_of_replicate in Hin as [? _].
  - rewrite sides_half, Ho, decide_False in Hs by lia. done.
Qed.

(** The verifier's opening loop climbs over exactly that run. *)
Lemma climb_sides fuel m n t rest :
  m < n -> (Z.of_nat n <= 2 ^ 31)%Z -> (Z.of_nat m < 2 ^ Z.of_nat fuel)%Z ->
  sides m n = replicate t true ++ false :: rest ->
  exists m' n', climb fuel (Z.of_nat m) (Z.of_nat n - 1) = (Z.of_nat m', Z.of_nat n' - 1)%Z /\
    m' < n' <= n /\ sides m' n' = false :: rest.
Proof.
  revert m n t. induction fuel as [|fuel IH]; intros m n t Hm Hn Hf Hs.
  { assert (m = 0) as -> by (simpl in Hf; lia). exists 0, n. split; [done|]. split; [lia|].
    by apply (even_sides_start 0 n t). }
  cbn [climb]. rewrite is_odd_nat. destruct (Nat.odd m) eqn:Ho.
  - assert (n <> 1) by (intros ->; destruct m; [done|lia]).
    rewrite sides_half, Ho in Hs by lia. destruct t as [|t]; [done|]. injection Hs as Hs.
    replace (Z.of_nat n - 1)%Z with (Z.of_nat (n - 1)) by lia. rewrite !shr1_nat by lia.
    rewrite Nat2Z.inj_succ, Z.pow_succ_r in Hf by lia.
    destruct (IH (m / 2) ((n - 1) / 2 + 1) t) as (m' & n' & Heq & ? & ?); [lia|lia|lia|done|].
    exists m', n'. split_and!; [|lia|lia|done]. rewrite <- Heq. f_equal. lia.
  - exists m, n. split; [done|]. split; [lia|]. by apply (even_sides_start m n t).
Qed.
