(* ===== verification/MerkleHash.v ===== *)
(** * Merkle trees and their proofs

    Completeness: an honest path replays to the roots.  Soundness: a path that
    replays to the root of a tree carries that tree's leaf (or, for
    consistency, that tree's prefix) as long as SHA-256 has no collision among
    the inputs that the tree and the verifier actually hash. *)

From S2P Require Import Prelude JsValue Errors Merkle MerkleFacts.

Local Open Scope nat_scope.

(** Induction on a list of leaves by its split. *)
Lemma leaves_ind (P : list (list Z) -> Prop) :
  P [] -> (forall x, P [x]) ->
  (forall L, 2 <= length L -> P (take (largestPowerOfTwoBelow (length L)) L) ->
    P (drop (largestPowerOfTwoBelow (length L)) L) -> P L) ->
  forall L, P L.
Proof.
  intros H0 H1 Hs L. induction (well_founded_ltof _ (@length (list Z)) L) as [L _ IH]. unfold ltof in IH.
  destruct L as [|x [|y L]]; [done..|]. set (l := x :: y :: L) in *.
  assert (2 <= length l) by (simpl; lia). pose proof (split_bounds _ H).
  apply Hs; [done| |]; apply IH; rewrite ?length_take, ?length_drop; lia.
Qed.

Create HintDb digests.

Section Trees.
Context (sha256 : list Z -> list Z).
Notation node := (nodeHash sha256).
Notation mth := (merkleTreeHash sha256).
Notation half L := (largestPowerOfTwoBelow (length L)).
Implicit Types (L : list (list Z)) (path : list (list Z)).

(** ** The recursions, by their splits *)

Lemma tree_hash_S f L :
  2 <= length L ->
  tree_hash sha256 (S f) L =
    node (tree_hash sha256 f (take (half L) L)) (tree_hash sha256 f (drop (half L) L)).
Proof. intros. destruct L as [|x [|y L]]; [simpl in *; lia..|done]. Qed.

Lemma tree_hash_fuel f1 f2 L :
  length L <= f1 -> length L <= f2 -> tree_hash sha256 f1 L = tree_hash sha256 f2 L.
Proof.
  revert f2 L. induction f1 as [|f1 IH]; intros [|f2] L H1 H2;
    try (destruct L; [done|simpl in *; lia]).
  destruct (decide (2 <= length L)) as [HL|]; [|by destruct L as [|? [|]]; [| |simpl in *; lia]].
  pose proof (split_bounds _ HL). rewrite !tree_hash_S by done.
  f_equal; apply IH; rewrite ?length_take, ?length_drop; lia.
Qed.

Lemma mth_split L : 2 <= length L -> mth L = node (mth (take (half L) L)) (mth (drop (half L) L)).
Proof.
  intros HL. pose proof (split_bounds _ HL). unfold merkleTreeHash at 1.
  rewrite (tree_hash_fuel _ (S (length L))), tree_hash_S by lia.
  f_equal; apply tree_hash_fuel; rewrite ?length_take, ?length_drop; lia.
Qed.

Lemma inclusion_path_S f m L :
  2 <= length L ->
  inclusion_path sha256 (S f) m L =
    if decide (m < half L)
    then inclusion_path sha256 f m (take (half L) L) ++ [mth (drop (half L) L)]
    else inclusion_path sha256 f (m - half L) (drop (half L) L) ++ [mth (take (half L) L)].
Proof. intros. destruct L as [|x [|y L]]; [simpl in *; lia..|done]. Qed.

Lemma inclusion_path_fuel f1 f2 m L :
  length L <= f1 -> length L <= f2 ->
  inclusion_path sha256 f1 m L = inclusion_path sha256 f2 m L.
Proof.
  revert f2 m L. induction f1 as [|f1 IH]; intros [|f2] m L H1 H2;
    try (destruct L; [done|simpl in *; lia]).
  destruct (decide (2 <= length L)) as [HL|]; [|by destruct L as [|? [|]]; [| |simpl in *; lia]].
  pose proof (split_bounds _ HL). rewrite !inclusion_path_S by done.
  case_decide; f_equal; apply IH; rewrite ?length_take, ?length_drop; lia.
Qed.

Lemma inclusionPath_split m L :
  2 <= length L ->
  inclusionPath sha256 m L =
    if decide (m < half L)
    then inclusionPath sha256 m (take (half L) L) ++ [mth (drop (half L) L)]
    else inclusionPath sha256 (m - half L) (drop (half L) L) ++ [mth (take (half L) L)].
Proof.
  intros HL. pose proof (split_bounds _ HL). unfold inclusionPath at 1.
  rewrite (inclusion_path_fuel _ (S (length L))), inclusion_path_S by lia.
  case_decide; f_equal; apply inclusion_path_fuel; rewrite ?length_take, ?length_drop; lia.
Qed.

Lemma consistency_path_fuel f1 f2 m L b :
  0 < m <= length L -> length L <= f1 -> length L <= f2 ->
  consistency_path sha256 f1 m L b = consistency_path sha256 f2 m L b.
Proof.
  revert f2 m L b. induction f1 as [|f1 IH]; intros [|f2] m L b Hm H1 H2; simpl;
    case_decide; try done; try lia.
  pose proof (split_bounds (length L) ltac:(lia)).
  case_decide; f_equal; apply IH; rewrite ?length_take, ?length_drop; lia.
Qed.

Lemma consistencyPath_same L b :
  consistencyPath sha256 (length L) L b = if b then [] else [mth L].
Proof. unfold consistencyPath. destruct (length L) eqn:E; simpl; by rewrite decide_True. Qed.

Lemma consistencyPath_split m L b :
  0 < m < length L ->
  consistencyPath sha256 m L b =
    if decide (m <= half L)
    then consistencyPath sha256 m (take (half L) L) b ++ [mth (drop (half L) L)]
    else consistencyPath sha256 (m - half L) (drop (half L) L) false ++ [mth (take (half L) L)].
Proof.
  intros Hm. pose proof (split_bounds (length L) ltac:(lia)). unfold consistencyPath at 1.
  destruct (length L) eqn:E at 1; [lia|]. cbn [consistency_path]. rewrite decide_False by lia.
  unfold consistencyPath. case_decide; f_equal; apply consistency_path_fuel;
    rewrite ?length_take, ?length_drop; lia.
Qed.

(** ** Honest paths replay to the roots *)

Lemma inclusion_replays L m x :
  L !! m = Some x ->
  replay (fold_leaf sha256) x (sides m (length L)) (inclusionPath sha256 m L) = Some (mth L).
Proof.
  revert m. induction L as [|y|L HL IHl IHr] using leaves_ind; intros m Hm; [done| |].
  { by destruct m as [|]; simplify_eq/=. }
  pose proof (lookup_lt_Some _ _ _ Hm). pose proof (split_bounds _ HL).
  rewrite sides_split, inclusionPath_split, (mth_split L) by done.
  rewrite length_take_le in IHl by lia. rewrite length_drop in IHr.
  case_decide; apply replay_snoc.
  - eexists _, _, _. split; [done|]. split; [apply IHl; by rewrite lookup_take_lt|done].
  - eexists _, _, _. split; [done|]. split; [|done]. apply IHr.
    rewrite lookup_drop. rewrite <- Hm. f_equal. lia.
Qed.

Lemma consistency_replays L m :
  0 < m <= length L ->
  exists seed path, consistencyPath sha256 m L false = seed :: path /\
    replay (fold_roots sha256) (seed, seed) (csides m (length L)) path = Some (mth (take m L), mth L).
Proof.
  revert m. induction L as [|y|L HL IHl IHr] using leaves_ind; intros m Hm; [simpl in *; lia| |].
  { destruct m as [|[|]]; simpl in Hm; [lia| |lia]. by eexists _, []. }
  pose proof (split_bounds _ HL). destruct (decide (m = length L)) as [->|Hne].
  { rewrite consistencyPath_same, csides_same, take_ge by lia. by eexists _, []. }
  rewrite csides_split, consistencyPath_split, (mth_split L) by lia.
  rewrite length_take_le in IHl by lia. rewrite length_drop in IHr. case_decide.
  - destruct (IHl m) as (seed & path & -> & Hr); [lia|]. eexists seed, _. split; [done|].
    apply replay_snoc. eexists _, _, _. split; [done|]. split; [exact Hr|].
    by rewrite take_take, Nat.min_l by lia.
  - destruct (IHr (m - half L)) as (seed & path & -> & Hr); [lia|]. eexists seed, _.
    split; [done|]. apply replay_snoc. eexists _, _, _. split; [done|]. split; [exact Hr|].
    unfold fold_roots. simpl. f_equal.
    rewrite (mth_split (take m L)) by (rewrite length_take; lia).
    rewrite length_take_le, (split_between m (length L)) by lia.
    by rewrite take_take, Nat.min_l, skipn_firstn_comm by lia.
Qed.

(** The seed is left out of a proof exactly when the older tree is complete. *)
Lemma consistency_seed L m :
  0 < m <= length L -> (m = length L -> exists i, m = 2 ^ i) ->
  ((exists i, m = 2 ^ i) ->
     consistencyPath sha256 m L false = mth (take m L) :: consistencyPath sha256 m L true) /\
  ((~ exists i, m = 2 ^ i) -> consistencyPath sha256 m L true = consistencyPath sha256 m L false).
Proof.
  revert m. induction L as [|y|L HL IHl IHr] using leaves_ind; intros m Hm Hpow; [simpl in *; lia| |].
  { destruct m as [|[|]]; simpl in Hm; [lia| |lia]. split; [done|].
    intros Hno. exfalso. apply Hno. by exists 0. }
  pose proof (split_bounds _ HL). destruct (decide (m = length L)) as [->|Hne].
  { rewrite !consistencyPath_same, take_ge by lia. naive_solver. }
  rewrite (consistencyPath_split m L true), (consistencyPath_split m L false) by lia.
  rewrite length_take_le in IHl by lia. case_decide.
  - destruct (IHl m) as [IH1 IH2]; [lia| |].
    { intros ->. destruct (split_spec _ HL) as (i & ? & _). eauto. }
    rewrite take_take, Nat.min_l in IH1 by lia.
    split; intros Hp; [by rewrite (IH1 Hp)|by rewrite (IH2 Hp)].
  - split; [|done]. intros [i ->]. exfalso.
    destruct (split_spec _ HL) as (j & Heq & Hj). rewrite Heq in *.
    assert (j < i) as Hlt by (apply (Nat.pow_lt_mono_r_iff 2); lia).
    apply (Nat.pow_le_mono_r 2) in Hlt; simpl in Hlt; lia.
Qed.

(** ** The inputs that get hashed *)

Fixpoint tree_inputs_f (fuel : nat) (leaves : list (list Z)) : list (list Z) :=
  match fuel, leaves with
  | O, _ | _, [] | _, [_] => []
  | S fuel', _ =>
      let k := largestPowerOfTwoBelow (length leaves) in
      (1%Z :: mth (take k leaves) ++ mth (drop k leaves)) ::
        tree_inputs_f fuel' (take k leaves) ++ tree_inputs_f fuel' (drop k leaves)
  end.

Definition tree_inputs (leaves : list (list Z)) : list (list Z) := tree_inputs_f (length leaves) leaves.

(** A walk that also records the inputs [ins] of each round. *)
Definition logged {X} (ins : bool -> list Z -> X -> list (list Z)) (combine : bool -> list Z -> X -> X)
    (side : bool) (c : list Z) (x : X * list (list Z)) : X * list (list Z) :=
  (combine side c x.1, ins side c x.1 ++ x.2).

Definition leaf_ins (side : bool) (c h : list Z) : list (list Z) :=
  [1%Z :: if side then c ++ h else h ++ c].

Definition roots_ins (side : bool) (c : list Z) (x : list Z * list Z) : list (list Z) :=
  if side then [1%Z :: c ++ x.1; 1%Z :: c ++ x.2] else [1%Z :: x.2 ++ c].

(** No two distinct inputs among these have the same hash. *)
Definition collision_free (ins : list (list Z)) : Prop :=
  forall a b, a ∈ ins -> b ∈ ins -> sha256 a = sha256 b -> a = b.

Lemma collision_free_sub ins ins' : ins' ⊆ ins -> collision_free ins -> collision_free ins'.
Proof. intros Hsub H a b Ha Hb. apply H; by apply Hsub. Qed.

Lemma tree_inputs_f_S f L :
  2 <= length L ->
  tree_inputs_f (S f) L = (1%Z :: mth (take (half L) L) ++ mth (drop (half L) L)) ::
    tree_inputs_f f (take (half L) L) ++ tree_inputs_f f (drop (half L) L).
Proof. intros. destruct L as [|x [|y L]]; [simpl in *; lia..|done]. Qed.

Lemma tree_inputs_f_fuel f1 f2 L :
  length L <= f1 -> length L <= f2 -> tree_inputs_f f1 L = tree_inputs_f f2 L.
Proof.
  revert f2 L. induction f1 as [|f1 IH]; intros [|f2] L H1 H2;
    try (destruct L; [done|simpl in *; lia]).
  destruct (decide (2 <= length L)) as [HL|]; [|by destruct L as [|? [|]]; [| |simpl in *; lia]].
  pose proof (split_bounds _ HL). rewrite !tree_inputs_f_S by done.
  f_equal. f_equal; apply IH; rewrite ?length_take, ?length_drop; lia.
Qed.

Lemma tree_inputs_split L :
  2 <= length L ->
  tree_inputs L = (1%Z :: mth (take (half L) L) ++ mth (drop (half L) L)) ::
    tree_inputs (take (half L) L) ++ tree_inputs (drop (half L) L).
Proof.
  intros HL. pose proof (split_bounds _ HL). unfold tree_inputs at 1.
  rewrite (tree_inputs_f_fuel _ (S (length L))), tree_inputs_f_S by lia.
  f_equal. f_equal; apply tree_inputs_f_fuel; rewrite ?length_take, ?length_drop; lia.
Qed.

(** ** Accepted paths carry the tree's own leaves *)

Section Sound.
Context (sha256_length : forall b, length (sha256 b) = 32).

Definition digests L : Prop := Forall (fun x => length x = 32) L.

Lemma digests_take k L : digests L -> digests (take k L).
Proof. apply Forall_take. Qed.

Lemma digests_drop k L : digests L -> digests (drop k L).
Proof. apply Forall_drop. Qed.

Hint Resolve digests_take digests_drop : digests.

Lemma mth_length L : digests L -> length (mth L) = 32.
Proof using sha256_length.
  intros HL. destruct (decide (2 <= length L)); [rewrite mth_split by done; apply sha256_length|].
  destruct L as [|x [|]]; [apply sha256_length|by inversion HL|simpl in *; lia].
Qed.

(** Equal node hashes have equal children, if one child of each has 32 bytes. *)
Lemma node_inj ins a b c d :
  collision_free ins -> 1%Z :: a ++ b ∈ ins -> 1%Z :: c ++ d ∈ ins ->
  length a = length c \/ length b = length d ->
  node a b = node c d -> a = c /\ b = d.
Proof.
  intros Hcf Hab Hcd Hlen Heq. apply (Hcf _ _ Hab Hcd) in Heq. injection Heq as Heq.
  destruct Hlen; [by apply app_inj_1|by apply app_inj_2].
Qed.

Lemma mth_inj L1 L2 :
  length L1 = length L2 -> digests L1 -> digests L2 ->
  collision_free (tree_inputs L1 ++ tree_inputs L2) -> mth L1 = mth L2 -> L1 = L2.
Proof using sha256_length.
  revert L2. induction L1 as [|x|L1 HL IHl IHr] using leaves_ind; intros L2 Hlen HD1 HD2 Hcf Heq.
  - by destruct L2.
  - destruct L2 as [|y [|]]; [done| |done]. change (x = y) in Heq. by subst.
  - pose proof (split_bounds _ HL).
    rewrite (mth_split L1), (mth_split L2), <- !Hlen in Heq by lia.
    rewrite (tree_inputs_split L1), (tree_inputs_split L2), <- !Hlen in Hcf by lia.
    set (k := half L1) in *.
    apply (node_inj _ _ _ _ _ Hcf) in Heq as [Hl Hr]; [|set_solver|set_solver|left].
    + rewrite <- (take_drop k L1), <- (take_drop k L2).
      f_equal; [apply IHl|apply IHr]; try done; rewrite ?length_take, ?length_drop; auto with lia digests;
        (eapply collision_free_sub; [|exact Hcf]; set_solver).
    + rewrite !mth_length; auto with digests.
Qed.

Lemma leaf_replay_length x log0 ss path h log :
  length x = 32 ->
  replay (logged leaf_ins (fold_leaf sha256)) (x, log0) ss path = Some (h, log) -> length h = 32.
Proof using sha256_length.
  revert x log0 path. induction ss as [|s ss IH]; intros x log0 [|c path] Hx Hr; simplify_eq/=; [done|].
  eapply IH; [|exact Hr]. unfold fold_leaf. destruct s; apply sha256_length.
Qed.

Lemma inclusion_path_sound L m x path log :
  m < length L -> digests L -> length x = 32 ->
  collision_free (tree_inputs L ++ log) ->
  replay (logged leaf_ins (fold_leaf sha256)) (x, []) (sides m (length L)) path = Some (mth L, log) ->
  L !! m = Some x.
Proof using sha256_length.
  revert m path log. induction L as [|y|L HL IHl IHr] using leaves_ind;
    intros m path log Hm HD Hx Hcf Hr; [simpl in *; lia| |].
  { destruct m as [|]; [|simpl in *; lia]. destruct path; simplify_eq/=. done. }
  pose proof (split_bounds _ HL).
  rewrite sides_split in Hr by lia. rewrite tree_inputs_split in Hcf by lia.
  rewrite length_take_le in IHl by lia. rewrite length_drop in IHr.
  rewrite (mth_split L) in Hr by lia.
  case_decide as Hk; apply replay_snoc in Hr as (p & c & [h lg] & -> & Hr & [= Heq ->]);
    pose proof (leaf_replay_length _ _ _ _ _ _ Hx Hr) as Hh;
    apply (node_inj _ _ _ _ _ Hcf) in Heq as [Hl Hr']; try (simpl; set_solver).
  - rewrite <- (lookup_take_lt _ (half L)) by done. subst h c.
    eapply IHl; eauto with digests. eapply collision_free_sub; [|exact Hcf]. simpl; set_solver.
  - left. rewrite mth_length; auto with digests.
  - replace m with (half L + (m - half L)) by lia. rewrite <- lookup_drop. subst h c.
    eapply IHr; eauto with digests; [lia|]. eapply collision_free_sub; [|exact Hcf]. simpl; set_solver.
  - right. rewrite mth_length; auto with digests.
Qed.

Lemma roots_replay_length x log0 ss path fr sr log :
  ss <> [] ->
  replay (logged roots_ins (fold_roots sha256)) (x, log0) ss path = Some ((fr, sr), log) ->
  length sr = 32.
Proof using sha256_length.
  destruct ss as [|s ss] using rev_ind; [done|]. intros _.
  intros (p & c & [[f r] lg] & -> & _ & Heq)%replay_snoc. destruct s; injection Heq as -> -> _;
    apply sha256_length.
Qed.

Lemma csides_cons m n : 0 < m < n -> csides m n <> [].
Proof. intros Hm. by destruct (sides_csides n m Hm) as (t & rest & -> & _). Qed.

Lemma prefix_by_halves {A} k (l1 l2 : list A) :
  k <= length l1 -> take k l1 = take k l2 -> drop k l1 = take (length (drop k l1)) (drop k l2) ->
  l1 = take (length l1) l2.
Proof.
  intros Hk Ht Hd. rewrite <- (take_drop k l1) at 1.
  rewrite Ht, Hd, length_drop, take_drop_commute, <- (take_drop k (take (length l1) l2)).
  rewrite take_take, Nat.min_l by lia. do 3 f_equal. lia.
Qed.

Lemma consistency_path_sound L2 L1 seed path log :
  0 < length L1 <= length L2 -> digests L1 -> digests L2 ->
  collision_free (tree_inputs L1 ++ tree_inputs L2 ++ log) ->
  replay (logged roots_ins (fold_roots sha256)) ((seed, seed), []) (csides (length L1) (length L2)) path =
    Some ((mth L1, mth L2), log) ->
  L1 = take (length L1) L2.
Proof using sha256_length.
  revert L1 path log. induction L2 as [|y|L2 HL IHl IHr] using leaves_ind;
    intros L1 path log Hlen HD1 HD2 Hcf Hr; [simpl in *; lia| |].
  { destruct L1 as [|x [|]]; [simpl in *; lia| |simpl in *; lia].
    destruct path; simplify_eq/=. by apply (f_equal (fun h => [h])). }
  pose proof (split_bounds _ HL). destruct (decide (length L1 = length L2)) as [Heq|Hne].
  { rewrite Heq, csides_same in Hr. rewrite Heq, take_ge by lia. destruct path; [|done]. simplify_eq/=.
    apply mth_inj; try done. eapply collision_free_sub; [|exact Hcf]. set_solver. }
  rewrite csides_split in Hr by lia. rewrite (tree_inputs_split L2) in Hcf by lia.
  rewrite (mth_split L2) in Hr by lia.
  case_decide as Hk; apply replay_snoc in Hr as (p & c & [[fr sr] lg] & -> & Hr & Heq);
    injection Heq as Hfr Hsr Hlog; rewrite Hlog in Hcf.
  - assert (length sr = 32) as Hlsr.
    { destruct (decide (length L1 = half L2)) as [Hhalf|].
      - rewrite Hhalf, csides_same in Hr. destruct p; simplify_eq/=. by rewrite mth_length.
      - apply roots_replay_length in Hr; [done|]. apply csides_cons; lia. }
    apply (node_inj _ _ _ _ _ Hcf) in Hsr as [<- <-];
      [|set_solver|set_solver|left; rewrite mth_length; auto with digests].
    subst fr. rewrite (IHl L1 p lg) at 1; auto with digests.
    + by rewrite take_take, Nat.min_l by lia.
    + rewrite length_take; lia.
    + eapply collision_free_sub; [|exact Hcf]. set_solver.
    + by rewrite length_take_le by lia.
  - assert (length sr = 32) as Hlsr by (apply roots_replay_length in Hr; [done|apply csides_cons; lia]).
    assert (half L1 = half L2) as Hhalf by (apply split_between; lia).
    rewrite (mth_split L1), Hhalf in Hfr by lia.
    rewrite (tree_inputs_split L1), Hhalf in Hcf by lia.
    apply (node_inj _ _ _ _ _ Hcf) in Hsr as [Hc <-];
      [|set_solver|set_solver|right; rewrite mth_length; auto with digests].
    apply (node_inj _ _ _ _ _ Hcf) in Hfr as [Hc' <-];
      [|set_solver|set_solver|left; rewrite <- Hc, !mth_length; auto with digests].
    apply (prefix_by_halves (half L2)); [lia| |].
    + apply mth_inj; auto with digests; [rewrite !length_take; lia| |congruence].
      eapply collision_free_sub; [|exact Hcf]. set_solver.
    + eapply IHr; auto with digests; rewrite ?length_drop; [lia| |exact Hr].
      eapply collision_free_sub; [|exact Hcf]. set_solver.
Qed.
End Sound.
End Trees.
