(* ===== verification/MerkleProps.v ===== *)
(** * What the audit log's proofs guarantee

    Inclusion and consistency proofs of an honest log verify; what verifies is
    in the log, and a log that verifies against an anchored checkpoint still
    begins with the anchored entries.

    The soundness theorems assume that SHA-256 has no collision among the
    inputs hashed for the logs at hand and by the verifier run itself, which is
    a finite list of byte strings and not every input. *)

From stdpp Require Import sorting.
From S2P Require Import Prelude JsValue Errors Merkle MerkleFacts MerkleHash.

Local Open Scope nat_scope.

Lemma isPowerOfTwo_spec m :
  0 < m -> (Z.of_nat m < 2 ^ 31)%Z -> isPowerOfTwo (Z.of_nat m) = true <-> exists i, m = 2 ^ i.
Proof.
  intros Hm Hb. unfold isPowerOfTwo, toInt32. rewrite !Z.mod_small by lia.
  rewrite (proj2 (Z.ltb_lt _ _)) by lia. rewrite andb_true_l, Z.eqb_eq.
  replace (Z.of_nat m + 2 ^ 31 - 2 ^ 31)%Z with (Z.of_nat m) by lia.
  replace (Z.of_nat m - 1 + 2 ^ 31 - 2 ^ 31)%Z with (Z.of_nat m - 1)%Z by lia.
  split.
  - intros Hland. exists (Z.to_nat (Z.log2 (Z.of_nat m))).
    destruct (Z.log2_spec (Z.of_nat m)) as [Hlo Hhi]; [lia|].
    pose proof (Z.log2_nonneg (Z.of_nat m)). set (i := Z.log2 (Z.of_nat m)) in *.
    destruct (decide (Z.of_nat m = 2 ^ i)%Z) as [Heq|Hne].
    { apply Nat2Z.inj. rewrite Nat2Z.inj_pow, Z2Nat.id by done. done. }
    exfalso. apply (f_equal (fun z => Z.testbit z i)) in Hland.
    rewrite Z.land_spec, Z.bits_0 in Hland. unfold i in Hland at 1.
    rewrite Z.bit_log2 in Hland by lia.
    rewrite <- (Z.log2_unique (Z.of_nat m - 1) i), Z.bit_log2 in Hland by lia. done.
  - intros [i ->]. rewrite Nat2Z.inj_pow. change (Z.of_nat 2) with 2%Z.
    rewrite Z.sub_1_r, <- Z.ones_equiv, Z.land_ones by lia. apply Z_mod_same_full.
Qed.

Lemma bfilter_all {A} (f : A -> bool) l : Forall (fun x => f x = true) l -> List.filter f l = l.
Proof. induction 1 as [|x l Hx _ IH]; simpl; [done|]. by rewrite Hx, IH. Qed.

Lemma bfilter_none {A} (f : A -> bool) l : Forall (fun x => f x = false) l -> List.filter f l = [].
Proof. induction 1 as [|x l Hx _ IH]; simpl; [done|]. by rewrite Hx, IH. Qed.

Section Walks.
Context {X : Type} (ins : bool -> list Z -> X -> list (list Z)) (combine : bool -> list Z -> X -> X).

(** Recording inputs does not change a walk. *)
Lemma walk_logged x log0 fn sn path h sn' :
  walk combine x fn sn path = Some (h, sn') ->
  exists log, walk (logged ins combine) (x, log0) fn sn path = Some ((h, log), sn').
Proof.
  revert x log0 fn sn. induction path as [|c path IH]; intros x log0 fn sn; simpl.
  - intros [= -> ->]. by exists log0.
  - destruct (turn fn sn) as [[[side fn'] sn1]|]; [|done]. apply IH.
Qed.
End Walks.

Section Order.
Context {Entry : Type} (seq_of : Entry -> nat).

(** A log is stored in the order of its sequence numbers. *)
Definition ordered (es : list Entry) : Prop := StronglySorted (fun a b => seq_of a < seq_of b) es.

Lemma index_of_lookup es i e :
  ordered es -> es !! i = Some e -> index_of seq_of (seq_of e) es = Some i.
Proof.
  revert i. induction es as [|e0 es IH]; intros i Hord Hi; [done|]. simpl.
  apply StronglySorted_cons in Hord as [Hall Hord]. destruct i as [|i]; simpl in Hi.
  - by simplify_eq; rewrite decide_True.
  - pose proof (proj1 (Forall_lookup _ _) Hall i e Hi) as Hlt. simpl in Hlt.
    by rewrite decide_False, (IH i) by lia || done.
Qed.

End Order.

Section Log.
Context {Entry Hex : Type} `{EqDecision Hex}.
Context (sha256 : list Z -> list Z) (canonicalBytes : Entry -> list Z) (seq_of : Entry -> nat).
Context (toHex : list Z -> Hex) (ofHex : Hex -> list Z).
Notation leaf := (leafHash sha256 canonicalBytes).
Notation mth := (merkleTreeHash sha256).
Notation treeHead := (computeAuditTreeHead sha256 canonicalBytes seq_of toHex).
Notation verifyInclusion := (verifyAuditInclusion sha256 canonicalBytes toHex ofHex).
Notation verifyConsistency := (verifyAuditConsistency sha256 toHex ofHex).

(** ** The inputs hashed for a log and by a verifier *)

Definition leaf_input (e : Entry) : list Z := 0%Z :: canonicalBytes e.

Definition log_inputs (es : list Entry) : list (list Z) :=
  map leaf_input es ++ tree_inputs sha256 (map leaf es).

Definition inclusion_inputs (e : Entry) (proof : AuditInclusionProof (Hex := Hex)) : list (list Z) :=
  leaf_input e ::
  match walk (logged leaf_ins (fold_leaf sha256)) (leaf e, []) (ip_leafIndex proof)
             (ip_treeSize proof - 1) (map ofHex (ip_path proof)) with
  | Some ((_, log), _) => log
  | None => []
  end.

(** The hashes a consistency verifier folds: the older root first when its size
    is a power of two. *)
Definition seeded (older : AuditTreeHead (Hex := Hex)) (proof : list Hex) : list (list Z) :=
  if isPowerOfTwo (hd_size older) then ofHex (hd_rootHash older) :: map ofHex proof else map ofHex proof.

Definition consistency_inputs (older newer : AuditTreeHead (Hex := Hex)) (proof : list Hex) :
    list (list Z) :=
  match seeded older proof with
  | [] => []
  | seed :: rest =>
      let '(fn, sn) := climb BITS (hd_size older - 1) (hd_size newer - 1) in
      match walk (logged roots_ins (fold_roots sha256)) ((seed, seed), []) fn sn rest with
      | Some ((_, log), _) => log
      | None => []
      end
  end.

(** ** Heads of logs *)

Lemma loadLeaves_all db :
  loadLeaves sha256 canonicalBytes seq_of db None = (map leaf db, default 0 (seq_of <$> last db)).
Proof. done. Qed.

Lemma head_size db toSeq :
  hd_size (treeHead db toSeq) = Z.of_nat (length (iterate seq_of db toSeq)).
Proof. unfold computeAuditTreeHead. simpl. by rewrite length_map. Qed.

Lemma head_root db toSeq :
  hd_rootHash (treeHead db toSeq) = toHex (mth (map leaf (iterate seq_of db toSeq))).
Proof. done. Qed.

(** Reading up to the sequence number of an earlier head gives the log that
    head covered, however much was appended since. *)
Lemma iterate_to_head db later :
  db <> [] -> ordered seq_of (db ++ later) ->
  iterate seq_of (db ++ later) (Some (hd_lastSeq (treeHead db None))) = db.
Proof.
  intros Hne Hord. destruct db as [|e0 db _] using rev_ind; [done|clear Hne].
  unfold computeAuditTreeHead. simpl. rewrite last_snoc. simpl.
  assert (Forall (fun e => seq_of e <= seq_of e0) (db ++ [e0])) as Hle.
  { apply Forall_app. split; [|by repeat constructor]. apply Forall_forall. intros e He.
    apply StronglySorted_app_1_l in Hord. apply Nat.lt_le_incl.
    eapply (StronglySorted_app_1_elem_of _ _ _ _ _ Hord He). by left. }
  assert (Forall (fun e => ~ seq_of e <= seq_of e0) later) as Hgt.
  { apply Forall_forall. intros e He. apply Nat.lt_nge.
    eapply (StronglySorted_app_1_elem_of _ _ _ _ _ Hord); [|done]. apply elem_of_app. right. by left. }
  rewrite List.filter_app, bfilter_all, bfilter_none, app_nil_r; [done| |];
    eapply Forall_impl; try done; intros e ?; by (apply bool_decide_true || apply bool_decide_false).
Qed.

Section Laws.
Context (sha256_length : forall b, length (sha256 b) = 32).
Context (hex_roundtrip : forall b, ofHex (toHex b) = b).

Lemma leaf_digests es : digests (map leaf es).
Proof using sha256_length. apply Forall_fmap, Forall_forall. intros e _. apply sha256_length. Qed.

Lemma hex_path path : map ofHex (map toHex path) = path.
Proof using hex_roundtrip. rewrite map_map. rewrite <- map_id. by apply map_ext. Qed.

Lemma toHex_inj a b : toHex a = toHex b -> a = b.
Proof using hex_roundtrip. intros Heq. by rewrite <- (hex_roundtrip a), Heq, hex_roundtrip. Qed.

(** Equal leaf hashes come from entries with equal canonical bytes. *)
Lemma leaves_inj ins es1 es2 :
  collision_free sha256 ins -> map leaf_input es1 ⊆ ins -> map leaf_input es2 ⊆ ins ->
  map leaf es1 = map leaf es2 -> map canonicalBytes es1 = map canonicalBytes es2.
Proof.
  intros Hcf. revert es2. induction es1 as [|e1 es1 IH]; intros [|e2 es2] H1 H2 Heq; try done.
  injection Heq as Hl Heq. simpl. f_equal.
  - apply Hcf in Hl; [by injection Hl|apply H1; by left|apply H2; by left].
  - apply IH; [intros x Hx; apply H1; by right|intros x Hx; apply H2; by right|done].
Qed.

(** Inclusion proofs of an honest log verify, whatever was appended after
    the head was taken: for every entry the head covers, a proof is produced and
    the verifier accepts it for that entry against that head. *)
Theorem inclusion_proofs_verify db later i e :
  ordered seq_of (db ++ later) -> db !! i = Some e -> (Z.of_nat (length db) < 2 ^ 31)%Z ->
  exists proof,
    proveAuditInclusion sha256 canonicalBytes seq_of toHex (db ++ later) (seq_of e) (treeHead db None) =
      Ok proof /\
    verifyInclusion e proof (treeHead db None) = true.
Proof using hex_roundtrip.
  intros Hord He Hsz. pose proof (lookup_lt_Some _ _ _ He).
  assert (db <> []) as Hne by (intros ->; done).
  unfold proveAuditInclusion, loadLeaves. rewrite iterate_to_head by done.
  rewrite head_size, decide_True by by rewrite length_map.
  rewrite (index_of_lookup seq_of db i e) by (done || by eapply StronglySorted_app_1_l).
  eexists. split; [done|]. unfold verifyAuditInclusion. rewrite head_size, head_root.
  simpl iterate. cbn [ip_treeSize ip_leafIndex ip_path]. rewrite Z.eqb_refl. simpl negb.
  rewrite (proj2 (Z.ltb_ge _ _)), (proj2 (Z.leb_gt _ _)) by lia. cbn [orb].
  assert (walk (fold_leaf sha256) (leaf e) (Z.of_nat i) (Z.of_nat (length db) - 1)
            (inclusionPath sha256 i (map leaf db)) = Some (mth (map leaf db), 0%Z)) as Hw.
  { apply walk_replay; [lia..|]. rewrite <- (length_map leaf db). apply inclusion_replays.
    by rewrite list_lookup_map, He. }
  rewrite hex_path, Hw. by rewrite bool_decide_true.
Qed.

(** An inclusion proof that verifies is about an entry of the log: whatever
    entry and proof are presented, acceptance means that the log holds, at the
    proof's leaf index, an entry with the same canonical bytes. *)
Theorem verified_inclusion_is_membership db toSeq e proof :
  (Z.of_nat (length (iterate seq_of db toSeq)) < 2 ^ 31)%Z ->
  collision_free sha256 (log_inputs (iterate seq_of db toSeq) ++ inclusion_inputs e proof) ->
  verifyInclusion e proof (treeHead db toSeq) = true ->
  exists e', iterate seq_of db toSeq !! Z.to_nat (ip_leafIndex proof) = Some e' /\
    canonicalBytes e' = canonicalBytes e.
Proof using sha256_length hex_roundtrip.
  unfold verifyAuditInclusion, inclusion_inputs. rewrite head_size, head_root.
  set (es := iterate seq_of db toSeq). intros Hsz Hcf Hv.
  destruct (Z.eqb_spec (ip_treeSize proof) (Z.of_nat (length es))) as [Hts|]; [|done]. cbn [negb] in Hv.
  destruct (Z.ltb_spec (ip_leafIndex proof) 0), (Z.leb_spec (ip_treeSize proof) (ip_leafIndex proof));
    try done. cbn [orb] in Hv. rewrite Hts in *.
  replace (ip_leafIndex proof) with (Z.of_nat (Z.to_nat (ip_leafIndex proof))) in Hv, Hcf by lia.
  set (m := Z.to_nat (ip_leafIndex proof)) in *.
  destruct (walk (fold_leaf sha256) _ _ _ _) as [[h sn]|] eqn:Hw; [|done].
  apply andb_true_iff in Hv as [->%Z.eqb_eq ->%bool_decide_eq_true%toHex_inj].
  destruct (walk_logged leaf_ins _ _ [] _ _ _ _ _ Hw) as [log Hlog]. rewrite Hlog in Hcf.
  apply walk_replay in Hlog; [|lia..]. rewrite <- (length_map leaf es) in Hlog.
  apply inclusion_path_sound in Hlog; [|done|rewrite length_map; lia|apply leaf_digests|apply sha256_length|].
  - rewrite list_lookup_map in Hlog. destruct (es !! m) as [e'|] eqn:He'; [|done].
    exists e'. split; [done|]. injection Hlog as Hlog. unfold log_inputs in Hcf.
    apply Hcf in Hlog; [by injection Hlog| |set_solver].
    apply elem_of_app. left. apply elem_of_app. left. apply list_elem_of_fmap.
    exists e'. split; [done|by eapply list_elem_of_lookup_2].
  - eapply collision_free_sub; [|exact Hcf]. unfold log_inputs. set_solver.
Qed.

(** ** Consistency *)

Lemma leaves_prefix db1 db2 ins :
  collision_free sha256 (log_inputs db1 ++ log_inputs db2 ++ ins) ->
  map leaf db1 = take (length db1) (map leaf db2) ->
  map canonicalBytes db1 `prefix_of` map canonicalBytes db2.
Proof.
  intros Hcf Htake. exists (drop (length db1) (map canonicalBytes db2)).
  rewrite <- (take_drop (length db1) (map canonicalBytes db2)) at 1. f_equal.
  rewrite firstn_map in Htake |- *. symmetry. eapply leaves_inj; [exact Hcf| | |done];
    unfold log_inputs; [clear; set_solver|].
  rewrite <- firstn_map. etrans; [apply subseteq_take|]. clear. set_solver.
Qed.

(** The verifier's indices after its opening loop stand for the sides of the
    consistency path. *)
Lemma climb_csides m n :
  0 < m < n -> (Z.of_nat n < 2 ^ 31)%Z ->
  exists m' n', climb BITS (Z.of_nat m - 1) (Z.of_nat n - 1) = (Z.of_nat m', Z.of_nat n' - 1)%Z /\
    m' < n' <= n /\ sides m' n' = csides m n.
Proof.
  intros Hm Hn. destruct (sides_csides n m Hm) as (t & rest & -> & Hs).
  destruct (climb_sides BITS (m - 1) n t rest) as (m' & n' & Hc & ? & ?); [lia|lia|unfold BITS; lia|done|].
  exists m', n'. by replace (Z.of_nat m - 1)%Z with (Z.of_nat (m - 1)) by lia.
Qed.

Lemma prefix_leaves db1 db2 :
  map canonicalBytes db1 `prefix_of` map canonicalBytes db2 ->
  map leaf db1 = take (length db1) (map leaf db2).
Proof.
  intros [rest Hrest].
  assert (forall es, map leaf es = map (fun b => sha256 (0%Z :: b)) (map canonicalBytes es)) as Hleaf
    by (intros es; by rewrite map_map).
  rewrite !Hleaf, Hrest, map_app, take_app_length'; [done|by rewrite !length_map].
Qed.

(** What acceptance means for a strictly smaller, non-empty older head. *)
Lemma verify_consistency_run (older newer : AuditTreeHead (Hex := Hex)) proof :
  (0 < hd_size older < hd_size newer)%Z ->
  verifyConsistency older newer proof = true <->
  exists seed rest fn sn fr sr,
    seeded older proof = seed :: rest /\
    climb BITS (hd_size older - 1) (hd_size newer - 1) = (fn, sn) /\
    walk (fold_roots sha256) (seed, seed) fn sn rest = Some ((fr, sr), 0%Z) /\
    toHex fr = hd_rootHash older /\ toHex sr = hd_rootHash newer.
Proof.
  intros Hsz. unfold verifyAuditConsistency. fold (seeded older proof).
  rewrite (proj2 (Z.ltb_ge _ _)), !(proj2 (Z.eqb_neq _ _)) by lia.
  destruct (seeded older proof) as [|seed rest]; [split; [done|by intros (? & ? & ? & ? & ? & ? & ? & _)]|].
  destruct (climb _ _ _) as [fn sn]. split.
  - destruct (walk _ _ _ _ _) as [[[fr sr] sn']|] eqn:Hw; [|done].
    rewrite !andb_true_iff, !bool_decide_eq_true, Z.eqb_eq. intros [[? ?] ->].
    by exists seed, rest, fn, sn, fr, sr.
  - intros (seed' & rest' & fn' & sn' & fr & sr & [= <- <-] & [= <- <-] & -> & ? & ?).
    by rewrite !bool_decide_true.
Qed.

Lemma honest_consistency_verifies L m (older newer : AuditTreeHead (Hex := Hex)) :
  0 < m < length L -> (Z.of_nat (length L) < 2 ^ 31)%Z ->
  hd_size older = Z.of_nat m -> hd_rootHash older = toHex (mth (take m L)) ->
  hd_size newer = Z.of_nat (length L) -> hd_rootHash newer = toHex (mth L) ->
  verifyConsistency older newer (map toHex (consistencyPath sha256 m L true)) = true.
Proof using hex_roundtrip.
  intros Hm Hn Hos Hor Hns Hnr. apply verify_consistency_run; [lia|].
  destruct (consistency_replays sha256 L m) as (seed & path & Hpath & Hr); [lia|].
  destruct (climb_csides m (length L)) as (m' & n' & Hc & Hmn & Hs); [lia..|].
  exists seed, path, (Z.of_nat m'), (Z.of_nat n' - 1)%Z, (mth (take m L)), (mth L).
  rewrite Hos, Hns. split_and!; [|done| |done..].
  - unfold seeded. rewrite Hos, Hor, hex_roundtrip, hex_path.
    destruct (consistency_seed sha256 L m) as [Hpow Hnot]; [lia|lia|]. rewrite <- Hpath.
    destruct (isPowerOfTwo (Z.of_nat m)) eqn:Hp; symmetry.
    + apply Hpow. apply isPowerOfTwo_spec; [lia..|done].
    + symmetry. apply Hnot. intros Hpw. apply isPowerOfTwo_spec in Hpw; [congruence|lia..].
  - apply walk_replay; [lia..|]. by rewrite Hs.
Qed.

(** Acceptance for a strictly smaller, non-empty older log. *)
Lemma verified_smaller_log db1 db2 proof :
  0 < length db1 < length db2 -> (Z.of_nat (length db2) < 2 ^ 31)%Z ->
  collision_free sha256
    (log_inputs db1 ++ log_inputs db2 ++ consistency_inputs (treeHead db1 None) (treeHead db2 None) proof) ->
  verifyConsistency (treeHead db1 None) (treeHead db2 None) proof = true ->
  map leaf db1 = take (length db1) (map leaf db2).
Proof using sha256_length hex_roundtrip.
  intros Hlen Hsz Hcf Hv. unfold log_inputs in Hcf.
  apply verify_consistency_run in Hv as (seed & rest & fn & sn & fr & sr & Hs & Hc & Hw & Hfr & Hsr);
    [|rewrite !head_size; simpl; lia].
  unfold consistency_inputs in Hcf. rewrite Hs, Hc in Hcf.
  destruct (walk_logged roots_ins _ _ [] _ _ _ _ _ Hw) as [log Hlog]. rewrite Hlog in Hcf.
  rewrite !head_size in Hc. simpl iterate in Hc.
  destruct (climb_csides (length db1) (length db2)) as (m' & n' & Hc' & Hmn & Hcs); [lia..|].
  rewrite Hc' in Hc. injection Hc as <- <-. apply walk_replay in Hlog; [|lia..].
  rewrite Hcs in Hlog. rewrite head_root in Hfr, Hsr. apply toHex_inj in Hfr as ->, Hsr as ->.
  rewrite <- (length_map leaf db1), <- (length_map leaf db2) in Hlog.
  rewrite <- (length_map leaf db1).
  eapply consistency_path_sound; [done|rewrite !length_map; lia|apply leaf_digests..| |exact Hlog].
  eapply collision_free_sub; [|exact Hcf]. clear. set_solver.
Qed.

(** ... and for any older log. *)
Lemma verified_leaves db1 db2 proof :
  (Z.of_nat (length db2) < 2 ^ 31)%Z ->
  collision_free sha256
    (log_inputs db1 ++ log_inputs db2 ++ consistency_inputs (treeHead db1 None) (treeHead db2 None) proof) ->
  verifyConsistency (treeHead db1 None) (treeHead db2 None) proof = true ->
  map leaf db1 = take (length db1) (map leaf db2).
Proof using sha256_length hex_roundtrip.
  intros Hsz Hcf Hv. destruct (decide (0 < length db1 < length db2)); [by eapply verified_smaller_log|].
  unfold verifyAuditConsistency in Hv. rewrite !head_size, !head_root in Hv. simpl iterate in Hv.
  destruct (Z.ltb_spec (Z.of_nat (length db2)) (Z.of_nat (length db1))); [done|].
  destruct (decide (length db1 = 0)) as [Hz|]; [by rewrite (nil_length_inv db1)|].
  rewrite (proj2 (Z.eqb_neq _ _)), (proj2 (Z.eqb_eq _ _)) in Hv by lia.
  apply andb_true_iff in Hv as [Hroot%bool_decide_eq_true%toHex_inj _].
  rewrite take_ge by (rewrite length_map; lia).
  eapply mth_inj; [done|rewrite !length_map; lia|apply leaf_digests..| |done].
  eapply collision_free_sub; [|exact Hcf]. unfold log_inputs. clear. set_solver.
Qed.

(** C34: A verified consistency proof means append-only: if a proof, however
    obtained, verifies between the heads of two logs of fewer than [2 ^ 31]
    entries, and no two of the inputs hashed collide, the older log is a prefix
    of the newer one, entry by entry in canonical bytes; nothing it covered was
    rewritten, reordered or truncated. *)
Theorem verified_consistency_is_extension db1 db2 proof :
  (Z.of_nat (length db2) < 2 ^ 31)%Z ->
  collision_free sha256
    (log_inputs db1 ++ log_inputs db2 ++ consistency_inputs (treeHead db1 None) (treeHead db2 None) proof) ->
  verifyConsistency (treeHead db1 None) (treeHead db2 None) proof = true ->
  map canonicalBytes db1 `prefix_of` map canonicalBytes db2.
Proof using sha256_length hex_roundtrip.
  intros Hsz Hcf Hv. by eapply leaves_prefix, verified_leaves.
Qed.

Lemma live_leaves db :
  ordered seq_of db ->
  loadLeaves sha256 canonicalBytes seq_of db (Some (hd_lastSeq (treeHead db None))) =
    loadLeaves sha256 canonicalBytes seq_of db None.
Proof.
  intros Hord. unfold loadLeaves. destruct (decide (db = [])) as [->|]; [done|].
  rewrite <- (app_nil_r db) at 1 3. by rewrite iterate_to_head by by rewrite ?app_nil_r.
Qed.

(** The proof that the live log offers for an earlier head. *)
Lemma proveAuditConsistency_live db0 db :
  ordered seq_of db -> length db0 <= length db ->
  proveAuditConsistency sha256 canonicalBytes seq_of toHex db (treeHead db0 None) (treeHead db None) =
    Ok (if decide (0 < length db0 < length db)
        then map toHex (consistencyPath sha256 (length db0) (map leaf db) true) else []).
Proof.
  intros Hord Hle. unfold proveAuditConsistency. rewrite live_leaves, !head_size by done. simpl iterate.
  rewrite (proj2 (Z.ltb_ge _ _)), loadLeaves_all by lia. rewrite decide_True by by rewrite length_map.
  destruct (Z.eqb_spec (Z.of_nat (length db0)) 0), (Z.eqb_spec (Z.of_nat (length db0)) (Z.of_nat (length db)));
    simpl orb; case_decide; try lia; try done. by rewrite Nat2Z.id.
Qed.

(** ... and it verifies when the earlier log is still the log's beginning. *)
Lemma extension_verifies db0 db :
  map leaf db0 = take (length db0) (map leaf db) -> length db0 <= length db ->
  (Z.of_nat (length db) < 2 ^ 31)%Z ->
  verifyConsistency (treeHead db0 None) (treeHead db None)
    (if decide (0 < length db0 < length db)
     then map toHex (consistencyPath sha256 (length db0) (map leaf db) true) else []) = true.
Proof using hex_roundtrip.
  intros Htake Hle Hsz. case_decide as Hlt.
  - apply honest_consistency_verifies; rewrite ?head_size, ?head_root, ?length_map; try done; try lia.
    simpl. by rewrite Htake.
  - unfold verifyAuditConsistency. rewrite !head_size, !head_root. simpl iterate.
    rewrite (proj2 (Z.ltb_ge _ _)) by lia. case (Z.eqb_spec (Z.of_nat (length db0)) 0) as [|Hz]; [done|].
    rewrite (proj2 (Z.eqb_eq _ _)) by lia. rewrite take_ge in Htake by (rewrite length_map; lia).
    by rewrite Htake, !bool_decide_true.
Qed.

(** Checking the live log against a signed checkpoint decides append-only
    extension: for a checkpoint signed over the log as it was then, whose
    signature verifies, the answer is [ok] exactly when the log as it was then
    is a prefix of the log now, and [inconsistent-log] otherwise; the check
    never throws. *)
Theorem anchored_check_decides_extension sign pub signature_ok db0 db key writer at_ pem
    (cp := signAuditCheckpoint sha256 canonicalBytes seq_of toHex sign pub db0 key writer at_) :
  signature_ok cp pem = true ->
  ordered seq_of db -> (Z.of_nat (length db) < 2 ^ 31)%Z ->
  (forall proof,
     proveAuditConsistency sha256 canonicalBytes seq_of toHex db (treeHead db0 None) (treeHead db None) =
       Ok proof ->
     collision_free sha256 (log_inputs db0 ++ log_inputs db ++
       consistency_inputs (treeHead db0 None) (treeHead db None) proof)) ->
  verifyAuditAgainstCheckpoint sha256 canonicalBytes seq_of toHex ofHex signature_ok db cp pem =
    Ok (if decide (map canonicalBytes db0 `prefix_of` map canonicalBytes db)
        then AnchorOk (treeHead db None) else InconsistentLog (treeHead db None)).
Proof using sha256_length hex_roundtrip.
  intros Hsig Hord Hsz Hcf. unfold verifyAuditAgainstCheckpoint. rewrite Hsig. simpl sg_head. rewrite !head_size.
  simpl iterate. destruct (Z.ltb_spec (Z.of_nat (length db)) (Z.of_nat (length db0))) as [Hlt|Hle].
  { rewrite decide_False; [done|]. intros Hpre%prefix_length. rewrite !length_map in Hpre. lia. }
  rewrite proveAuditConsistency_live in Hcf |- * by (done || lia). simpl rbind.
  specialize (Hcf _ eq_refl). f_equal.
  destruct (verifyConsistency _ _ _) eqn:Hv.
  - rewrite decide_True; [done|]. by eapply leaves_prefix, verified_leaves.
  - rewrite decide_False; [done|]. intros Hpre. rewrite extension_verifies in Hv; [done| |lia|done].
    by apply prefix_leaves.
Qed.
End Laws.
End Log.

(** ** A worked log

    A toy hash (the input read as a number modulo a prime, in 32 places) and the identity as
    hex encoding satisfy the laws the theorems assume. *)

Module Toy.
Definition hash (b : list Z) : list Z :=
  foldl (fun acc x => (acc * 257 + x + 1) mod 2305843009213693951)%Z 0%Z b :: replicate 31 0%Z.

Lemma hash_length b : length (hash b) = 32.
Proof. done. Qed.

Definition Entry : Type := nat * list Z.
Definition entry (seq : nat) (b : Z) : Entry := (seq, [Z.of_nat seq; b]).

Definition log : list Entry := [entry 1 7; entry 2 7; entry 3 9].
Definition later : list Entry := [entry 4 1; entry 5 2].

Definition head (db : list Entry) : AuditTreeHead (Hex := list Z) :=
  computeAuditTreeHead hash snd fst id db None.

(** [collision_free], decided. *)
Definition no_collision (ins : list (list Z)) : bool :=
  let hashed := map (fun a => (hash a, a)) ins in
  forallb (fun p => forallb (fun q => bool_decide (p.1 <> q.1) || bool_decide (p.2 = q.2)) hashed) hashed.

Lemma no_collision_spec ins : no_collision ins = true -> collision_free hash ins.
Proof.
  unfold no_collision. rewrite forallb_forall. intros Hf a b Ha Hb Hab.
  apply list_elem_of_In, (in_map (fun a => (hash a, a))) in Ha, Hb.
  apply Hf in Ha. rewrite forallb_forall in Ha. apply Ha in Hb.
  apply orb_true_iff in Hb as [Hb|Hb]; apply bool_decide_eq_true in Hb; done.
Qed.

End Toy.

Lemma inclusion_proofs_verify_witness :
  exists proof,
    proveAuditInclusion Toy.hash snd fst id (Toy.log ++ Toy.later) 2 (Toy.head Toy.log) = Ok proof /\
    verifyAuditInclusion Toy.hash snd id id (Toy.entry 2 7) proof (Toy.head Toy.log) = true.
Proof.
  apply (inclusion_proofs_verify Toy.hash snd fst id id (fun _ => eq_refl) Toy.log Toy.later 1 (Toy.entry 2 7)).
  - repeat constructor; simpl; lia.
  - reflexivity.
  - simpl. lia.
Defined.

Lemma verified_inclusion_is_membership_witness :
  exists e', Toy.log !! 2 = Some e' /\ snd e' = [3; 9]%Z.
Proof.
  apply (verified_inclusion_is_membership Toy.hash snd fst id id Toy.hash_length (fun _ => eq_refl)
           Toy.log None (Toy.entry 3 9)
           (mkInclusion 3 2 3 [merkleTreeHash Toy.hash (map (leafHash Toy.hash snd) (take 2 Toy.log))])).
  - simpl. lia.
  - apply Toy.no_collision_spec. vm_compute. reflexivity.
  - vm_compute. reflexivity.
Defined.

Lemma verified_consistency_is_extension_witness :
  map snd Toy.log `prefix_of` map snd (Toy.log ++ Toy.later).
Proof.
  apply (verified_consistency_is_extension Toy.hash snd fst id id Toy.hash_length (fun _ => eq_refl)
           Toy.log (Toy.log ++ Toy.later)
           (consistencyPath Toy.hash 3 (map (leafHash Toy.hash snd) (Toy.log ++ Toy.later)) true)).
  - simpl. lia.
  - apply Toy.no_collision_spec. vm_compute. reflexivity.
  - vm_compute. reflexivity.
Defined.

(** A rewritten log against a checkpoint of the original. *)
Lemma anchored_check_decides_extension_witness :
  verifyAuditAgainstCheckpoint Toy.hash snd fst id id (fun cp pem => bool_decide (sg_publicKeyPem cp = pem))
    (Toy.entry 1 8 :: drop 1 Toy.log ++ Toy.later)
    (signAuditCheckpoint Toy.hash snd fst id (fun _ _ _ k => k) id Toy.log "key" "ci" "t") "key" =
  Ok (InconsistentLog (Toy.head (Toy.entry 1 8 :: drop 1 Toy.log ++ Toy.later))).
Proof.
  rewrite (anchored_check_decides_extension Toy.hash snd fst id id Toy.hash_length (fun _ => eq_refl)
    (fun _ _ _ k => k) id).
  - vm_compute. reflexivity.
  - reflexivity.
  - repeat constructor; simpl; lia.
  - simpl. lia.
  - intros proof Hp. apply Toy.no_collision_spec.
    assert (proof = consistencyPath Toy.hash 3
              (map (leafHash Toy.hash snd) (Toy.entry 1 8 :: drop 1 Toy.log ++ Toy.later)) true) as ->.
    { vm_compute in Hp |- *. congruence. }
    vm_compute. reflexivity.
Defined.
