(* ===== verification/Canonical.v ===== *)
(** * Canonical JSON

    [packages/security/src/audit/canonical-json.ts]: the serialiser whose
    output the audit log hashes.  Its result is the ordinary JSON text of a
    normal form ([csort]: properties sorted by key, [undefined] properties
    dropped), and two values have the same canonical text exactly when they
    have the same normal form ([serialize_inj]).

    The ['en'] collator is a parameter; what the sort relies on (a consistent
    comparison) is the class [Collator]. *)

From S2P Require Import Prelude JsValue Json.

Local Open Scope string_scope.

(** What the audit code throws: [AuditPayloadSerializationError], and errors of
    the database driver with their [code] and [message]. *)
Inductive audit_error :=
| AuditPayloadSerializationError (reason : string)
| DriverError (code message : string)
| AuditRangeError (message : string).

(** ** The printer of [Json], by concatenation *)

Lemma pr_uint_app u k : pr_uint u k = pr_uint u "" +:+ k.
Proof. induction u as [|u IH|u IH|u IH|u IH|u IH|u IH|u IH|u IH|u IH|u IH]; simpl; [done|..];
  by rewrite IH, ?str_app_cons. Qed.

Lemma pr_Z_app z k : pr_Z z k = pr_Z z "" +:+ k.
Proof. unfold pr_Z. destruct (Z.to_int z); [apply pr_uint_app|]. by rewrite pr_uint_app. Qed.

Lemma pr_char_app c k k' : pr_char c (k +:+ k') = pr_char c k +:+ k'.
Proof. unfold pr_char. repeat case_decide; done. Qed.

Lemma pr_chars_app s k k' : pr_chars s (k +:+ k') = pr_chars s k +:+ k'.
Proof. induction s as [|c s IH]; simpl; [done|]. by rewrite IH, pr_char_app. Qed.

Lemma pr_str_app s k : pr_str s k = pr_str s "" +:+ k.
Proof. unfold pr_str. rewrite str_app_cons, <- pr_chars_app. done. Qed.

Lemma str_cons_app c (k : string) : String c k = String c "" +:+ k.
Proof. done. Qed.

Lemma pr_app v k : pr v k = pr v "" +:+ k.
Proof.
  revert k. induction v as [| | [] | [z| | |] | s | vs IH | fs IH | ek ei fs IH] using value_ind';
    intros k; try done.
  - apply pr_Z_app.
  - apply pr_str_app.
  - rewrite !pr_arr, str_app_cons. f_equal. generalize true.
    induction IH as [|x vs Hx _ IHvs]; intros b; simpl; [done|].
    rewrite (IHvs false), (Hx (_ +:+ _)), (Hx (pr_elems false vs "")). destruct b;
      by rewrite ?str_app_cons, str_app_assoc.
  - rewrite !pr_obj, str_app_cons. f_equal. generalize true.
    induction IH as [|[key x] fs Hx _ IHfs]; intros b; simpl; [done|]. simpl in Hx.
    destruct (is_undef x); [apply IHfs|].
    rewrite (IHfs false), (Hx (_ +:+ _)), (Hx (pr_fields false fs "")).
    rewrite (pr_str_app key (String ":" (_ +:+ _ +:+ _))), (pr_str_app key (String ":" (_ +:+ _))).
    destruct b; rewrite ?str_app_cons, !str_app_assoc; simpl; by rewrite ?str_app_cons, ?str_app_assoc.
Qed.

(** [parts.join(',')] *)
Fixpoint join_comma (parts : list string) : string :=
  match parts with
  | [] => ""
  | [p] => p
  | p :: ps => p +:+ "," +:+ join_comma ps
  end.

Lemma join_comma_cons p ps :
  join_comma (p :: ps) = p +:+ match ps with [] => "" | _ => "," +:+ join_comma ps end.
Proof. destruct ps; [|done]. simpl. induction p; [done|]. by rewrite str_app_cons, <- IHp. Qed.

(** What [join_comma] leaves after its first element. *)
Definition join_rest (ps : list string) : string :=
  match ps with [] => "" | _ => "," +:+ join_comma ps end.

Lemma pr_elems_join vs k :
  pr_elems true vs k = join_comma (map JSON_stringify vs) +:+ String "]" k /\
  pr_elems false vs k = join_rest (map JSON_stringify vs) +:+ String "]" k.
Proof.
  induction vs as [|x vs [_ IH]]; [done|]. cbn [pr_elems map]. unfold join_rest.
  rewrite IH, (pr_app x), join_comma_cons. fold (JSON_stringify x).
  split; [by rewrite str_app_assoc|]. by rewrite ?str_app_cons, !str_app_assoc.
Qed.

Lemma pr_fields_join fs k :
  forallb (fun p => negb (is_undef p.2)) fs = true ->
  let text := map (fun p => pr_str p.1 "" +:+ ":" +:+ JSON_stringify p.2) fs in
  pr_fields true fs k = join_comma text +:+ String "}" k /\
  pr_fields false fs k = join_rest text +:+ String "}" k.
Proof.
  induction fs as [|[key x] fs IH]; [done|]. cbn [forallb]. intros [Hx Hfs]%andb_true_iff.
  destruct (IH Hfs) as [_ IH2]. clear IH. cbn [pr_fields map]. simpl in Hx.
  destruct (is_undef x); [done|]. unfold join_rest. rewrite IH2, (pr_app x), pr_str_app, join_comma_cons.
  cbn [fst snd]. fold (JSON_stringify x). rewrite ?str_app_cons, !str_app_assoc.
  split; by rewrite ?str_app_nil_l, ?str_app_cons, ?str_app_assoc.
Qed.

(** JSON values: safe, distinct keys, no [undefined]. *)
Definition plain (v : value) : bool := jsafe v && vwf v && vdef v.

Lemma plain_obj fs :
  jwf fs -> forallb (fun p => plain p.2) fs = true -> plain (VObj fs) = true.
Proof.
  intros Hwf Hp. unfold plain in *. simpl. rewrite bool_decide_true by done. simpl.
  induction fs as [|[k x] fs IH]; simpl in *; [done|].
  unfold jwf in Hwf. simpl in Hwf. apply NoDup_cons in Hwf as [_ Hwf].
  apply andb_true_iff in Hp as [Hx Hp]. specialize (IH Hwf Hp).
  rewrite !andb_true_iff in *. naive_solver.
Qed.

Class Collator (collate : string -> string -> comparison) : Prop := {
  collate_opp : forall a b, collate b a = CompOpp (collate a b);
  collate_trans : forall a b c, collate a b <> Gt -> collate b c <> Gt -> collate a c <> Gt;
}.

Section Canonical.
Context (collate : string -> string -> comparison).

(** The comparator: the collator first, then code units. *)
Definition key_leb (a b : string) : bool :=
  match collate a b with
  | Lt => true
  | Gt => false
  | Eq => String.leb a b
  end.

(** [entries.sort(...)] *)
Fixpoint insert_entry {A} (e : string * A) (es : list (string * A)) : list (string * A) :=
  match es with
  | [] => [e]
  | e' :: es' => if key_leb e.1 e'.1 then e :: es else e' :: insert_entry e es'
  end.

Fixpoint sort_entries {A} (es : list (string * A)) : list (string * A) :=
  match es with
  | [] => []
  | e :: es' => insert_entry e (sort_entries es')
  end.

Definition entry_text (e : string * string) : string := pr_str e.1 "" +:+ ":" +:+ e.2.

(** References are trees here, so the [seen] set never finds a cycle. *)
Fixpoint serialize (v : value) : result audit_error string :=
  let fields :=
    fix go (fs : list (string * value)) : result audit_error (list (string * string)) :=
      match fs with
      | [] => Ok []
      | (k, x) :: fs' =>
          if is_undef x then go fs'
          else rbind (serialize x) (fun t => rbind (go fs') (fun es => Ok ((k, t) :: es)))
      end in
  let object (fs : list (string * value)) :=
    rbind (fields fs) (fun es =>
      Ok ("{" +:+ join_comma (map entry_text (sort_entries es)) +:+ "}")) in
  match v with
  | VNull => Ok "null"
  | VBool b => Ok (if b then "true" else "false")
  | VNum (NFin z) => Ok (pr_Z z "")
  | VNum _ => Err (AuditPayloadSerializationError "non-finite number")
  | VStr s => Ok (pr_str s "")
  | VExotic XBigint _ _ => Err (AuditPayloadSerializationError "BigInt is not supported")
  | VExotic XFunction _ _ | VExotic XSymbol _ _ =>
      Err (AuditPayloadSerializationError "cannot serialise")
  | VArr vs =>
      rbind ((fix go (vs : list value) : result audit_error (list string) :=
        match vs with
        | [] => Ok []
        | x :: vs' =>
            rbind (if is_undef x then Ok "null" else serialize x) (fun t =>
              rbind (go vs') (fun ts => Ok (t :: ts)))
        end) vs) (fun parts => Ok ("[" +:+ join_comma parts +:+ "]"))
  | VObj fs | VExotic _ _ fs => object fs
  | VUndef => Err (AuditPayloadSerializationError "unsupported type")
  end.

Definition canonicalJson (v : value) : result audit_error string :=
  if is_undef v then Err (AuditPayloadSerializationError "top-level value is undefined")
  else serialize v.

(** ** The normal form *)

Fixpoint csort (v : value) : value :=
  let fields := fun fs : list (string * value) =>
    flat_map (fun p => if is_undef p.2 then [] else [(p.1, csort p.2)]) fs in
  match v with
  | VUndef => VNull
  | VArr vs => VArr (map csort vs)
  | VObj fs | VExotic _ _ fs => VObj (sort_entries (fields fs))
  | _ => v
  end.

(** Accepted by the serialiser. *)
Fixpoint cok (v : value) : bool :=
  match v with
  | VNum (NFin _) => true
  | VNum _ => false
  | VArr vs => forallb cok vs
  | VObj fs => forallb (fun p => cok p.2) fs
  | VExotic XBigint _ _ | VExotic XFunction _ _ | VExotic XSymbol _ _ => false
  | VExotic _ _ fs => forallb (fun p => cok p.2) fs
  | _ => true
  end.

(** ** Serialisation of arrays and objects *)

Fixpoint serialize_elems (vs : list value) : result audit_error (list string) :=
  match vs with
  | [] => Ok []
  | x :: vs' =>
      rbind (if is_undef x then Ok "null" else serialize x) (fun t =>
        rbind (serialize_elems vs') (fun ts => Ok (t :: ts)))
  end.

Fixpoint serialize_fields (fs : list (string * value)) : result audit_error (list (string * string)) :=
  match fs with
  | [] => Ok []
  | (k, x) :: fs' =>
      if is_undef x then serialize_fields fs'
      else rbind (serialize x) (fun t => rbind (serialize_fields fs') (fun es => Ok ((k, t) :: es)))
  end.

Definition cfields (fs : list (string * value)) : list (string * value) :=
  flat_map (fun p => if is_undef p.2 then [] else [(p.1, csort p.2)]) fs.

Lemma serialize_arr vs :
  serialize (VArr vs) =
    rbind (serialize_elems vs) (fun parts => Ok ("[" +:+ join_comma parts +:+ "]")).
Proof. done. Qed.

Definition object_text (fs : list (string * value)) : result audit_error string :=
  rbind (serialize_fields fs) (fun es =>
    Ok ("{" +:+ join_comma (map entry_text (sort_entries es)) +:+ "}")).

Lemma serialize_obj fs : serialize (VObj fs) = object_text fs.
Proof.
  done.
Qed.

Definition objectlike (k : exotic) : bool :=
  match k with XBigint | XFunction | XSymbol => false | _ => true end.

Lemma serialize_exotic k i fs :
  objectlike k = true -> serialize (VExotic k i fs) = object_text fs.
Proof. rewrite <- (serialize_obj fs). by destruct k. Qed.

(** ** Sorting by key *)

Section Sort.
Context {A : Type}.
Implicit Types (es : list (string * A)).

Lemma insert_entry_perm (e : string * A) es : insert_entry e es ≡ₚ e :: es.
Proof.
  induction es as [|e' es IH]; simpl; [done|]. destruct (key_leb _ _); [done|].
  rewrite IH. constructor.
Qed.

Lemma sort_entries_perm es : sort_entries es ≡ₚ es.
Proof.
  induction es as [|e es IH]; simpl; [done|]. by rewrite insert_entry_perm, IH.
Qed.

Lemma sort_entries_keys es : jkeys (sort_entries es) ≡ₚ jkeys es.
Proof. apply Permutation_map, sort_entries_perm. Qed.

Lemma sort_entries_wf es : jwf es -> jwf (sort_entries es).
Proof. unfold jwf. by rewrite sort_entries_keys. Qed.

Lemma jget_sort_entries k es : jwf es -> jget k (sort_entries es) = jget k es.
Proof.
  intros Hwf. apply option_eq. intros v. split; intros H%jget_Some_elem.
  - apply jget_elem_wf; [done|]. by rewrite <- sort_entries_perm.
  - apply jget_elem_wf; [by apply sort_entries_wf|]. by rewrite sort_entries_perm.
Qed.
End Sort.

(** Sorting looks at keys only. *)
Lemma insert_entry_map {A B} (f : A -> B) e es :
  insert_entry (e.1, f e.2) (map (fun p => (p.1, f p.2)) es) =
  map (fun p => (p.1, f p.2)) (insert_entry e es).
Proof.
  induction es as [|e' es IH]; simpl; [done|]. destruct (key_leb _ _); simpl; [done|]. by rewrite IH.
Qed.

Lemma sort_entries_map {A B} (f : A -> B) es :
  sort_entries (map (fun p => (p.1, f p.2)) es) = map (fun p => (p.1, f p.2)) (sort_entries es).
Proof. induction es as [|e es IH]; simpl; [done|]. by rewrite IH, insert_entry_map. Qed.

(** Code-unit order is transitive. *)
Lemma string_leb_trans a b c : String.leb a b = true -> String.leb b c = true -> String.leb a c = true.
Proof.
  unfold String.leb. revert b c. induction a as [|x a IH]; intros [|y b] [|z c]; simpl; try done.
  unfold Ascii.compare.
  destruct (N.compare_spec (N_of_ascii x) (N_of_ascii y)), (N.compare_spec (N_of_ascii y) (N_of_ascii z)),
    (N.compare_spec (N_of_ascii x) (N_of_ascii z)); try done; try lia. apply IH.
Qed.

Section Order.
Context `{!Collator collate}.

Lemma key_leb_antisym a b : key_leb a b = true -> key_leb b a = true -> a = b.
Proof using Collator0.
  unfold key_leb. rewrite (collate_opp a b). destruct (collate a b); simpl; try done.
  apply String.leb_antisym.
Qed.

Lemma key_leb_total a b : key_leb a b = false -> key_leb b a = true.
Proof using Collator0.
  unfold key_leb. rewrite (collate_opp a b). destruct (collate a b); simpl; try done.
  destruct (String.leb_total a b) as [->|]; done.
Qed.

Lemma key_leb_trans a b c : key_leb a b = true -> key_leb b c = true -> key_leb a c = true.
Proof using Collator0.
  unfold key_leb.
  assert (forall x y, collate y x = CompOpp (collate x y)) as Hopp by apply collate_opp.
  assert (forall x y z, collate x y <> Gt -> collate y z <> Gt -> collate x z <> Gt) as T
    by apply collate_trans.
  pose proof (T a b c) as T1. pose proof (T b c a) as T2. pose proof (T c a b) as T3. clear T.
  rewrite (Hopp a c), ?(Hopp a b) in T2. rewrite (Hopp a c), (Hopp b c) in T3. clear Hopp.
  destruct (collate a b) eqn:Eab, (collate b c) eqn:Ebc, (collate a c) eqn:Eac; simpl in *; try done;
    try (exfalso; naive_solver).
  intros. by eapply string_leb_trans.
Qed.

Lemma insert_entry_comm {A} (e1 e2 : string * A) es :
  e1.1 <> e2.1 -> insert_entry e1 (insert_entry e2 es) = insert_entry e2 (insert_entry e1 es).
Proof using Collator0.
  intros Hne. induction es as [|e es IH]; simpl.
  - destruct (key_leb e1.1 e2.1) eqn:H12, (key_leb e2.1 e1.1) eqn:H21; try done.
    + by destruct Hne; apply key_leb_antisym.
    + by rewrite (key_leb_total _ _ H12) in H21.
  - destruct (key_leb e1.1 e.1) eqn:H1, (key_leb e2.1 e.1) eqn:H2; simpl; rewrite ?H1, ?H2; simpl;
      try (by rewrite IH).
    + destruct (key_leb e1.1 e2.1) eqn:H12, (key_leb e2.1 e1.1) eqn:H21; try done.
      * by destruct Hne; apply key_leb_antisym.
      * by rewrite (key_leb_total _ _ H12) in H21.
    + destruct (key_leb e2.1 e1.1) eqn:H21; [|by rewrite ?H1, ?H2].
      by rewrite (key_leb_trans _ _ _ H21 H1) in H2.
    + destruct (key_leb e1.1 e2.1) eqn:H12; [|by rewrite ?H1, ?H2].
      by rewrite (key_leb_trans _ _ _ H12 H2) in H1.
Qed.

(** The order in which the properties were inserted does not matter. *)
Lemma sort_entries_canonical {A} (es1 es2 : list (string * A)) :
  jwf es1 -> es1 ≡ₚ es2 -> sort_entries es1 = sort_entries es2.
Proof using Collator0.
  intros Hwf Hp. unfold jwf, jkeys in Hwf. induction Hp as [|e es1 es2 Hp IH|e1 e2 es|es1 es2 es3 H1 IH1 H2 IH2];
    simpl in *.
  - done.
  - apply NoDup_cons in Hwf as [_ Hwf]. by rewrite IH.
  - apply insert_entry_comm. apply NoDup_cons in Hwf as [Hni _]. set_solver.
  - rewrite IH1, IH2; [done| |done]. by rewrite <- H1.
Qed.
End Order.

(** ** The text is the JSON of the normal form *)

Lemma cfields_defined fs : forallb (fun p => negb (is_undef p.2)) (cfields fs) = true.
Proof.
  apply forallb_forall. intros [k y] (p & _ & Hp)%in_flat_map.
  destruct (is_undef p.2) eqn:E; simpl in Hp; [done|]. destruct Hp as [Hp|[]]. simplify_eq/=.
  by destruct p.2 as [| | | | | | |].
Qed.

Lemma forallb_perm {A} (f : A -> bool) l l' : l ≡ₚ l' -> forallb f l = forallb f l'.
Proof. induction 1; simpl; try congruence. by rewrite !andb_assoc, (andb_comm (f y)). Qed.

Lemma object_text_csort fs :
  serialize_fields fs = Ok (map (fun p => (p.1, JSON_stringify p.2)) (cfields fs)) ->
  object_text fs = Ok (JSON_stringify (VObj (sort_entries (cfields fs)))).
Proof.
  intros Hs. unfold object_text. rewrite Hs. simpl rbind. f_equal.
  assert (forallb (fun p => negb (is_undef p.2)) (sort_entries (cfields fs)) = true) as Hd.
  { by rewrite (forallb_perm _ _ _ (sort_entries_perm _)), cfields_defined. }
  unfold JSON_stringify at 2. rewrite pr_obj, (proj1 (pr_fields_join _ _ Hd)).
  by rewrite sort_entries_map, map_map.
Qed.

Lemma serialize_fields_ok fs :
  Forall (fun p => is_undef p.2 = false -> cok p.2 = true ->
                   serialize p.2 = Ok (JSON_stringify (csort p.2))) fs ->
  forallb (fun p => cok p.2) fs = true ->
  serialize_fields fs = Ok (map (fun p => (p.1, JSON_stringify p.2)) (cfields fs)).
Proof.
  induction 1 as [|[k x] fs Hx _ IH]; simpl; [done|]. intros [Hc Hfs]%andb_true_iff.
  destruct (is_undef x) eqn:E; [by apply IH|]. simpl in Hx. by rewrite Hx, IH.
Qed.

Lemma serialize_csort v :
  is_undef v = false -> cok v = true -> serialize v = Ok (JSON_stringify (csort v)).
Proof.
  induction v as [| | [] | [z| | |] | s | vs IH | fs IH | ek ei fs IH] using value_ind';
    intros Hu Hc; try done.
  - rewrite serialize_arr.
    assert (serialize_elems vs = Ok (map (fun x => JSON_stringify (csort x)) vs)) as ->.
    { simpl in Hc. clear Hu. induction IH as [|x vs Hx _ IHvs]; simpl in *; [done|].
      apply andb_true_iff in Hc as [Hcx Hcv]. rewrite IHvs by done.
      destruct (is_undef x) eqn:E; [by destruct x|]. by rewrite Hx. }
    simpl rbind. f_equal. unfold JSON_stringify at 2. simpl csort. rewrite pr_arr.
    rewrite (proj1 (pr_elems_join _ _)), map_map. done.
  - rewrite serialize_obj. by apply object_text_csort, serialize_fields_ok.
  - simpl in Hc. destruct (objectlike ek) eqn:E; [|by destruct ek].
    rewrite serialize_exotic by done. apply object_text_csort, serialize_fields_ok; [done|].
    by destruct ek.
Qed.

(** What is not accepted is reported, never skipped. *)
Lemma serialize_rejects v :
  is_undef v = false -> cok v = false -> exists e, serialize v = Err e.
Proof.
  assert (forall fs, Forall (fun p => is_undef p.2 = false -> cok p.2 = false ->
                                      exists e, serialize p.2 = Err e) fs ->
            forallb (fun p => cok p.2) fs = false -> exists e, serialize_fields fs = Err e) as Hfields.
  { induction 1 as [|[k x] fs Hx _ IH]; simpl; [done|]. simpl in Hx. intros Hc.
    destruct (is_undef x) eqn:E; [apply IH; by destruct x|].
    destruct (cok x) eqn:Ecx; simpl in Hc.
    - destruct (IH Hc) as [e ->]. rewrite serialize_csort by done. eauto.
    - destruct (Hx eq_refl eq_refl) as [e ->]. eauto. }
  induction v as [| | [] | [z| | |] | s | vs IH | fs IH | ek ei fs IH] using value_ind';
    intros Hu Hc; try done; try (eexists; reflexivity).
  - rewrite serialize_arr. simpl in Hc. clear Hu Hfields.
    assert (exists e, serialize_elems vs = Err e) as [e ->]; [|eauto].
    induction IH as [|x vs Hx _ IHvs]; simpl in *; [done|].
    destruct (is_undef x) eqn:E; [destruct IHvs as [e ->]; [by destruct x|eauto]|].
    destruct (cok x) eqn:Ecx; simpl in Hc.
    + destruct (IHvs Hc) as [e ->]. rewrite serialize_csort by done. eauto.
    + destruct (Hx eq_refl eq_refl) as [e ->]. eauto.
  - rewrite serialize_obj. unfold object_text. destruct (Hfields fs IH Hc) as [e ->]. eauto.
  - destruct (objectlike ek) eqn:E; [|destruct ek; try done; eauto].
    rewrite serialize_exotic by done. unfold object_text.
    destruct (Hfields fs IH) as [e ->]; [by destruct ek|eauto].
Qed.

(** ** The normal form is ordinary JSON *)

Lemma cfields_keys k fs : k ∈ jkeys (cfields fs) -> k ∈ jkeys fs.
Proof.
  induction fs as [|[key x] fs IH]; simpl; [done|].
  destruct (is_undef x); simpl; rewrite ?elem_of_cons; naive_solver.
Qed.

Lemma cfields_wf fs : jwf fs -> jwf (cfields fs).
Proof.
  unfold jwf. induction fs as [|[key x] fs IH]; simpl; [done|].
  intros [Hni Hnd]%NoDup_cons. destruct (is_undef x); simpl; [auto|].
  apply NoDup_cons. split; [|auto]. by intros ?%cfields_keys.
Qed.

Lemma cfields_forallb (P : value -> bool) fs :
  Forall (fun p => cok p.2 = true -> vwf p.2 = true -> P (csort p.2) = true) fs ->
  forallb (fun p => cok p.2) fs = true -> forallb (fun p => vwf p.2) fs = true ->
  forallb (fun p => P p.2) (sort_entries (cfields fs)) = true.
Proof.
  intros HF Hc Hw. rewrite (forallb_perm _ _ _ (sort_entries_perm _)).
  induction HF as [|[k x] fs Hx _ IH]; simpl in *; [done|].
  apply andb_true_iff in Hc as [Hcx Hc], Hw as [Hwx Hw].
  destruct (is_undef x); simpl; [by apply IH|]. by rewrite Hx, IH.
Qed.

Lemma csort_plain v : cok v = true -> vwf v = true -> plain (csort v) = true.
Proof.
  induction v as [| | [] | [z| | |] | s | vs IH | fs IH | ek ei fs IH] using value_ind';
    intros Hc Hw; try done.
  - unfold plain. simpl in *.
    induction IH as [|x vs Hx _ IHvs]; simpl in *; [done|].
    apply andb_true_iff in Hc as [Hcx Hc], Hw as [Hwx Hw].
    specialize (Hx Hcx Hwx). specialize (IHvs Hc Hw). unfold plain in Hx.
    rewrite !andb_true_iff in *. naive_solver.
  - simpl in *. apply andb_true_iff in Hw as [Hnd%bool_decide_eq_true Hw].
    apply plain_obj; [by apply sort_entries_wf, cfields_wf|]. by apply cfields_forallb.
  - simpl in *. apply andb_true_iff in Hw as [Hnd%bool_decide_eq_true Hw].
    apply plain_obj; [by apply sort_entries_wf, cfields_wf|]. apply cfields_forallb; [done| |done].
    by destruct ek.
Qed.

(** Equal canonical texts come from equal normal forms. *)
Lemma serialize_inj v w s :
  vwf v = true -> vwf w = true -> serialize v = Ok s -> serialize w = Ok s -> csort v = csort w.
Proof.
  assert (forall x t, vwf x = true -> serialize x = Ok t -> JSON_parse t = Some (csort x)) as Hparse.
  { intros x t Hw Ht. destruct (is_undef x) eqn:Eu; [by destruct x|].
    destruct (cok x) eqn:Ec; [|by destruct (serialize_rejects x Eu Ec) as [e He]; congruence].
    rewrite serialize_csort in Ht by done. injection Ht as <-.
    pose proof (csort_plain x Ec Hw) as Hp. unfold plain in Hp. rewrite !andb_true_iff in Hp.
    destruct Hp as [[Hj Hwf] Hd]. rewrite JSON_roundtrip by done. f_equal. by apply jnorm_vdef. }
  intros Hv Hw H1%Hparse H2%Hparse; [congruence|done..].
Qed.

Lemma jget_csort k fs :
  jwf fs -> jget k (sort_entries (cfields fs)) = csort <$> (jget k fs ≫= defined).
Proof.
  intros Hwf. rewrite jget_sort_entries by by apply cfields_wf.
  unfold jwf in Hwf. induction fs as [|[key x] fs IH]; simpl in *; [done|].
  apply NoDup_cons in Hwf as [Hni Hwf]. specialize (IH Hwf).
  destruct (decide (k = key)) as [->|Hne].
  - destruct x; simpl; rewrite ?decide_True by done; try done.
    rewrite IH. assert (jget key fs = None) as -> by by apply jget_None. done.
  - destruct x; simpl; rewrite ?decide_False by done; done.
Qed.
End Canonical.
