(* ===== verification/AuditChain.v ===== *)
(** * The audit hash chain

    [packages/security/src/audit]: types.ts, append.ts, verify-chain.ts,
    prune.ts and export.ts over the database contract of audit-db.ts.

    The database is a class of operations ([AuditDb]) with the laws the
    contract documents ([AuditDbSpec]) over the list of entries it holds.
    What other processes do to a shared database between two awaits of an
    append is the parameter [world]. *)

From stdpp Require Import sorting.
From S2P Require Import Prelude JsValue Json Canonical.

Local Open Scope string_scope.

(** ** Types *)

Inductive AuditActorKind := AToken | ACli | AAgent | ATool | ASystem | ASubagent.

Definition actor_kind_text (k : AuditActorKind) : string :=
  match k with
  | AToken => "token" | ACli => "cli" | AAgent => "agent"
  | ATool => "tool" | ASystem => "system" | ASubagent => "subagent"
  end.

Record AuditActor := mkActor { ac_kind : AuditActorKind; ac_id : string; ac_label : option string }.

Inductive AuditDecision := DSuccess | DDenied | DError | DNotFound.

Definition decision_text (d : AuditDecision) : string :=
  match d with DSuccess => "success" | DDenied => "denied" | DError => "error" | DNotFound => "not-found" end.

Record AuditContext := mkContext {
  cx_runId : option string;
  cx_sessionId : option string;
  cx_toolName : option string;
}.

Record AuditEntryInput := mkInput {
  in_actor : AuditActor;
  in_action : string;
  in_target : string;
  in_decision : AuditDecision;
  in_context : option AuditContext;
  in_metadata : option (list (string * value));
  in_ts : option Z;
}.

Record StoredAuditEntry := mkEntry {
  ae_seq : nat;
  ae_ts : Z;
  ae_actor : AuditActor;
  ae_action : string;
  ae_target : string;
  ae_decision : AuditDecision;
  ae_context : option AuditContext;
  ae_metadata : option (list (string * value));
  ae_prevHash : string;
  ae_hash : string;
}.

Inductive AuditChainVerifyResult :=
| ChainOk (count : nat)
| ChainBroken (brokenAt : nat) (expected actual : string).

(** The entry as the object literal that is serialised; [...(x === undefined ?
    {} : { k: x })] is an optional property. *)
Definition optional (k : string) (v : option value) : list (string * value) :=
  match v with Some x => [(k, x)] | None => [] end.

Definition actor_value (a : AuditActor) : value :=
  VObj ([("kind", VStr (actor_kind_text (ac_kind a))); ("id", VStr (ac_id a))] ++
        optional "label" (VStr <$> ac_label a))%list.

Definition context_value (c : AuditContext) : value :=
  VObj (optional "runId" (VStr <$> cx_runId c) ++ optional "sessionId" (VStr <$> cx_sessionId c) ++
        optional "toolName" (VStr <$> cx_toolName c))%list.

Definition base_fields (e : StoredAuditEntry) : list (string * value) :=
  ([("seq", VNum (NFin (Z.of_nat (ae_seq e)))); ("ts", VNum (NFin (ae_ts e)));
    ("actor", actor_value (ae_actor e)); ("action", VStr (ae_action e));
    ("target", VStr (ae_target e)); ("decision", VStr (decision_text (ae_decision e)))] ++
   optional "context" (context_value <$> ae_context e) ++
   optional "metadata" (VObj <$> ae_metadata e) ++
   [("prevHash", VStr (ae_prevHash e))])%list.

Definition entry_value (e : StoredAuditEntry) : value :=
  VObj (base_fields e ++ [("hash", VStr (ae_hash e))])%list.

(** [Buffer.from(text, 'utf8')] of code units below 256. *)
Definition utf8_char (c : ascii) : list Z :=
  let n := Z.of_nat (nat_of_ascii c) in
  if (n <? 128)%Z then [n] else [192 + n / 64; 128 + n mod 64]%Z.

Fixpoint utf8 (s : string) : list Z :=
  match s with
  | EmptyString => []
  | String c s' => (utf8_char c ++ utf8 s')%list
  end.

(** ** The database contract *)

(** The driver reports a constraint violation. *)
Definition isSeqConflictError (err : audit_error) : bool :=
  match err with
  | DriverError code message =>
      str_includes "SQLITE_CONSTRAINT" code ||
      str_includes "UNIQUE CONSTRAINT" (str_upper message) || str_includes "PRIMARY KEY" (str_upper message)
  | _ => false
  end.

Class AuditDb (D : Type) := {
  db_insert : StoredAuditEntry -> D -> result audit_error D;
  db_latest : D -> option StoredAuditEntry;
  db_iterate : option nat -> option nat -> D -> list StoredAuditEntry;
  db_count : D -> nat;
  db_deleteUpTo : nat -> D -> nat * D;
  db_replaceEntry : StoredAuditEntry -> D -> result audit_error D;
  (** whether the binding implements [transact] *)
  db_transact : bool;
}.

Section Chain.
Context (collate : string -> string -> comparison).
Context (sha256 : list Z -> list Z) (toHex : list Z -> string).
Context {D : Type} `{AuditDb D}.

Definition GENESIS_PREV_HASH : string := String.concat "" (repeat "0" 64).

Definition computeAuditHash (e : StoredAuditEntry) : result audit_error string :=
  rbind (canonicalJson collate (VObj (base_fields e))) (fun canonical =>
    Ok (toHex (sha256 (utf8 canonical)))).

Definition with_hash (e : StoredAuditEntry) (h : string) : StoredAuditEntry :=
  mkEntry (ae_seq e) (ae_ts e) (ae_actor e) (ae_action e) (ae_target e) (ae_decision e)
    (ae_context e) (ae_metadata e) (ae_prevHash e) h.

(** ** append.ts *)

(** The entry that [appendOnce] builds on the tip it read. *)
Definition next_entry (last : option StoredAuditEntry) (input : AuditEntryInput) (now : Z) :
    result audit_error StoredAuditEntry :=
  let base := mkEntry (S (default 0 (ae_seq <$> last))) (default now (in_ts input)) (in_actor input)
    (in_action input) (in_target input) (in_decision input) (in_context input) (in_metadata input)
    (default GENESIS_PREV_HASH (ae_hash <$> last)) "" in
  rbind (computeAuditHash base) (fun hash => Ok (with_hash base hash)).

(** [between] is what happens to the database between [latest()] and
    [insert()]. *)
Definition appendOnce (between : D -> D) (input : AuditEntryInput) (now : Z) (d : D) :
    result audit_error StoredAuditEntry * D :=
  match next_entry (db_latest d) input now with
  | Err e => (Err e, d)
  | Ok stored =>
      let d1 := between d in
      match db_insert stored d1 with
      | Ok d2 => (Ok stored, d2)
      | Err e => (Err e, d1)
      end
  end.

Definition APPEND_SEQ_CONFLICT_RETRIES : nat := 3.

Fixpoint append_attempts (left attempt : nat) (world : nat -> D -> D) (input : AuditEntryInput)
    (clock : nat -> Z) (lastError : audit_error) (d : D) : result audit_error StoredAuditEntry * D :=
  match left with
  | O => (Err lastError, d)
  | S left' =>
      match appendOnce (world attempt) input (clock attempt) d with
      | (Ok stored, d') => (Ok stored, d')
      | (Err e, d') =>
          if isSeqConflictError e
          then append_attempts left' (S attempt) world input clock e d'
          else (Err e, d')
      end
  end.

(** With [transact] the read and the insert run under the write lock, and a
    failure rolls back. *)
Definition appendAuditUnsynchronized (world : nat -> D -> D) (input : AuditEntryInput) (clock : nat -> Z)
    (d : D) : result audit_error StoredAuditEntry * D :=
  if db_transact (D := D) then appendOnce id input (clock 0) d
  else append_attempts (S APPEND_SEQ_CONFLICT_RETRIES) 0 world input clock (DriverError "" "") d.

(** Calls against one handle: each runs when the previous one has settled,
    whatever its outcome; [worlds i] and [clocks i] belong to the [i]-th. *)
Fixpoint appendAudit_all (i : nat) (worlds : nat -> nat -> D -> D) (clocks : nat -> nat -> Z)
    (inputs : list AuditEntryInput) (d : D) : list (result audit_error StoredAuditEntry) * D :=
  match inputs with
  | [] => ([], d)
  | input :: inputs' =>
      let '(r, d1) := appendAuditUnsynchronized (worlds i) input (clocks i) d in
      let '(rs, d2) := appendAudit_all (S i) worlds clocks inputs' d1 in
      (r :: rs, d2)
  end.

(** ** verify-chain.ts *)

(** The walk over the remaining entries; [expected] is the hash the next one
    must point to. *)
Fixpoint verify_from (count : nat) (expected : string) (es : list StoredAuditEntry) :
    result audit_error AuditChainVerifyResult :=
  match es with
  | [] => Ok (ChainOk count)
  | e :: es' =>
      if decide (ae_prevHash e = expected) then
        rbind (computeAuditHash e) (fun recomputed =>
          if decide (recomputed = ae_hash e) then verify_from (S count) (ae_hash e) es'
          else Ok (ChainBroken (ae_seq e) recomputed (ae_hash e)))
      else Ok (ChainBroken (ae_seq e) expected (ae_prevHash e))
  end.

Definition verifyAuditChain (fromSeq toSeq : option nat) (d : D) :
    result audit_error AuditChainVerifyResult :=
  let es := db_iterate fromSeq toSeq d in
  verify_from 0
    (match fromSeq with
     | Some n => if decide (n <= 1)%nat then GENESIS_PREV_HASH
                 else default GENESIS_PREV_HASH (ae_prevHash <$> head es)
     | None => GENESIS_PREV_HASH
     end) es.

(** ** prune.ts *)

(** The last entry of the leading run that may be deleted. *)
Fixpoint last_qualifying (total walked : nat) (beforeMs : Z) (retain : nat)
    (found : option nat) (es : list StoredAuditEntry) : option nat :=
  match es with
  | [] => found
  | e :: es' =>
      let walked := S walked in
      if (beforeMs <=? ae_ts e)%Z then found
      else if decide (total - walked < retain)%nat then found
      else last_qualifying total walked beforeMs retain (Some (ae_seq e)) es'
  end.

Definition withRehashedChain (e : StoredAuditEntry) (prevHash : string) :
    result audit_error StoredAuditEntry :=
  let base := mkEntry (ae_seq e) (ae_ts e) (ae_actor e) (ae_action e) (ae_target e) (ae_decision e)
    (ae_context e) (ae_metadata e) prevHash "" in
  rbind (computeAuditHash base) (fun hash => Ok (with_hash base hash)).

Definition REWRITE_BATCH_SIZE : nat := 500.

(** One batch: the database, the first rewritten entry and the running hash. *)
Fixpoint rewrite_batch (batch : list StoredAuditEntry) (prevHash : string)
    (first : option StoredAuditEntry) (d : D) : result audit_error (string * option StoredAuditEntry * D) :=
  match batch with
  | [] => Ok (prevHash, first, d)
  | e :: batch' =>
      rbind (withRehashedChain e prevHash) (fun rewritten =>
        rbind (db_replaceEntry rewritten d) (fun d' =>
          rewrite_batch batch' (ae_hash rewritten) (Some (default rewritten first)) d'))
  end.

(** Every batch takes at least one entry with [fromSeq <= seq], so the number
    of entries bounds the rounds. *)
Fixpoint rewrite_all (fuel fromSeq : nat) (prevHash : string) (first : option StoredAuditEntry) (d : D) :
    result audit_error (option StoredAuditEntry * D) :=
  match fuel with
  | O => Ok (first, d)
  | S fuel' =>
      let batch := take REWRITE_BATCH_SIZE (db_iterate (Some fromSeq) None d) in
      match last batch with
      | None => Ok (first, d)
      | Some lastInBatch =>
          rbind (rewrite_batch batch prevHash first d) (fun '(prevHash', first', d') =>
            rewrite_all fuel' (S (ae_seq lastInBatch)) prevHash' first' d')
      end
  end.

Record PruneAuditResult := mkPrune { pr_deleted : nat; pr_firstSurvivingSeq : option nat }.

(** [beforeMs] is [None] when it is not finite.  A failure inside the
    transaction rolls it back. *)
Definition pruneAudit (beforeMs : option Z) (retainOpt : option Z) (d : D) :
    result audit_error PruneAuditResult * D :=
  match beforeMs with
  | None => (Err (AuditRangeError "'before' must be finite"), d)
  | Some before =>
      if db_transact (D := D) then
        let retain := Z.to_nat (Z.max 1 (default 1 retainOpt)%Z) in
        let total := db_count d in
        if decide (total = 0)%nat then (Ok (mkPrune 0 None), d)
        else
          match last_qualifying total 0 before retain None (db_iterate None None d) with
          | None => (Ok (mkPrune 0 None), d)
          | Some threshold =>
              let '(removed, d1) := db_deleteUpTo threshold d in
              match rewrite_all (S (db_count d1)) 0 GENESIS_PREV_HASH None d1 with
              | Ok (first, d2) => (Ok (mkPrune removed (ae_seq <$> first)), d2)
              | Err e => (Err e, d)
              end
          end
      else (Err (AuditRangeError "the binding does not implement transact()"), d)
  end.

(** ** export.ts *)

(** The lines written; [include] is the optional predicate. *)
Definition exportAudit (fromSeq toSeq : option nat) (include : option (StoredAuditEntry -> bool)) (d : D) :
    result audit_error (list string * nat) :=
  let es := match include with
            | Some f => List.filter f (db_iterate fromSeq toSeq d)
            | None => db_iterate fromSeq toSeq d
            end in
  rbind (foldM (fun lines e => rbind (canonicalJson collate (entry_value e)) (fun l =>
           Ok (lines ++ [l +:+ String (ascii_of_nat 10) ""])%list)) [] es)
        (fun lines => Ok (lines, length lines)).
End Chain.
