(* ===== verification/AuditFacts.v ===== *)
(** * Entries, their texts and the laws of an audit database

    What the canonical text of an entry determines ([base_text_inj]), the
    equivalence of entries that differ only in the representation of their
    metadata, and the laws of the database contract. *)

From stdpp Require Import sorting.
From S2P Require Import Prelude JsValue Json Canonical AuditChain.

Local Open Scope string_scope.

(** ** UTF-8 *)

Lemma utf8_char_inj c1 c2 k1 k2 :
  (utf8_char c1 ++ k1 = utf8_char c2 ++ k2)%list -> c1 = c2 /\ k1 = k2.
Proof.
  intros Heq. assert (nat_of_ascii c1 = nat_of_ascii c2 /\ k1 = k2) as [Hn ->].
  { pose proof (nat_ascii_bounded c1). pose proof (nat_ascii_bounded c2). unfold utf8_char in Heq.
    destruct (Z.ltb_spec (Z.of_nat (nat_of_ascii c1)) 128), (Z.ltb_spec (Z.of_nat (nat_of_ascii c2)) 128);
      simplify_list_eq; split; try done; Z.to_euclidean_division_equations; lia. }
  split; [|done]. by rewrite <- (ascii_nat_embedding c1), Hn, ascii_nat_embedding.
Qed.

Lemma utf8_inj s1 s2 : utf8 s1 = utf8 s2 -> s1 = s2.
Proof.
  revert s2. induction s1 as [|c1 s1 IH]; intros [|c2 s2]; simpl; intros Heq.
  - done.
  - exfalso. unfold utf8_char in Heq. by destruct (_ <? _)%Z.
  - exfalso. unfold utf8_char in Heq. by destruct (_ <? _)%Z.
  - apply utf8_char_inj in Heq as [-> ->%IH]. done.
Qed.

Section Entries.
Context (collate : string -> string -> comparison).
Notation csort := (csort collate).

(** Metadata that survives the JSON columns of a database. *)
Definition storable (e : StoredAuditEntry) : bool :=
  match ae_metadata e with Some m => jsafe (VObj m) && vwf (VObj m) | None => true end.

(** Entries with the same fields, metadata compared by its normal form. *)
Definition same_base (e1 e2 : StoredAuditEntry) : Prop :=
  ae_seq e1 = ae_seq e2 /\ ae_ts e1 = ae_ts e2 /\ ae_actor e1 = ae_actor e2 /\
  ae_action e1 = ae_action e2 /\ ae_target e1 = ae_target e2 /\ ae_decision e1 = ae_decision e2 /\
  ae_context e1 = ae_context e2 /\ ae_prevHash e1 = ae_prevHash e2 /\
  (csort ∘ VObj) <$> ae_metadata e1 = (csort ∘ VObj) <$> ae_metadata e2.

Definition same_entry (e1 e2 : StoredAuditEntry) : Prop :=
  same_base e1 e2 /\ ae_hash e1 = ae_hash e2.

#[export] Instance same_entry_equiv : Equivalence same_entry.
Proof.
  split; unfold same_entry, same_base.
  - intros ?. naive_solver.
  - intros ???. naive_solver.
  - intros ??? H1 H2. destruct_and!. split_and!; congruence.
Qed.

(** ** The object literals are well formed *)

Lemma actor_value_wf a : vwf (actor_value a) = true /\ cok (actor_value a) = true.
Proof. by destruct a as [? ? []]. Qed.

Lemma context_value_wf c : vwf (context_value c) = true /\ cok (context_value c) = true.
Proof. by destruct c as [[] [] []]. Qed.

Lemma jsafe_cok v : jsafe v = true -> cok v = true.
Proof.
  induction v as [| | [] | [z| | |] | s | vs IH | fs IH | ek ei fs IH] using value_ind'; simpl; try done.
  - induction IH as [|x vs Hx _ IHvs]; simpl; [done|]. intros [? ?]%andb_true_iff.
    rewrite Hx by done. by apply IHvs.
  - induction IH as [|[k x] fs Hx _ IHfs]; simpl in *; [done|]. intros [? ?]%andb_true_iff.
    rewrite Hx by done. by apply IHfs.
Qed.

Definition fields_ok (fs : list (string * value)) : Prop :=
  Forall (fun p => vwf p.2 = true /\ cok p.2 = true) fs.

Lemma fields_ok_obj fs : jwf fs -> fields_ok fs -> vwf (VObj fs) = true /\ cok (VObj fs) = true.
Proof.
  intros Hwf Hok. simpl. rewrite bool_decide_true by done. simpl.
  clear Hwf. induction Hok as [|[k x] fs [H1 H2] _ [IH1 IH2]]; simpl in *; [done|].
  by rewrite H1, H2, IH1, IH2.
Qed.

Lemma base_fields_ok e : storable e = true -> fields_ok (base_fields e).
Proof.
  unfold storable, fields_ok, base_fields. intros Hs. rewrite !Forall_app. split_and!.
  - repeat constructor; try done; apply actor_value_wf.
  - destruct (ae_context e); repeat constructor; apply context_value_wf.
  - destruct (ae_metadata e); [|constructor]. apply andb_true_iff in Hs as [Hj Hw].
    repeat constructor; [done|by apply jsafe_cok].
  - repeat constructor.
Qed.

Lemma full_keys_wf e : jwf (base_fields e ++ [("hash", VStr (ae_hash e))])%list.
Proof.
  unfold jwf, base_fields. destruct (ae_context e), (ae_metadata e);
    unfold jkeys; simpl; apply (bool_decide_unpack _); vm_compute; exact I.
Qed.

Lemma base_keys_wf e : jwf (base_fields e).
Proof.
  pose proof (full_keys_wf e) as Hwf. unfold jwf, jkeys in *. rewrite map_app in Hwf.
  by apply NoDup_app in Hwf as [? _].
Qed.

Lemma base_value_ok e :
  storable e = true -> vwf (VObj (base_fields e)) = true /\ cok (VObj (base_fields e)) = true.
Proof. intros. apply fields_ok_obj; [apply base_keys_wf|by apply base_fields_ok]. Qed.

Lemma entry_value_ok e :
  storable e = true -> vwf (entry_value e) = true /\ cok (entry_value e) = true.
Proof.
  intros. apply fields_ok_obj; [apply full_keys_wf|].
  apply Forall_app. split; [by apply base_fields_ok|by repeat constructor].
Qed.

(** The canonical text of a storable entry. *)
Lemma canonical_base e :
  storable e = true ->
  canonicalJson collate (VObj (base_fields e)) = Ok (JSON_stringify (csort (VObj (base_fields e)))).
Proof. intros [? Hc]%base_value_ok. by apply serialize_csort. Qed.

Lemma canonical_entry e :
  storable e = true -> canonicalJson collate (entry_value e) = Ok (JSON_stringify (csort (entry_value e))).
Proof. intros [? Hc]%entry_value_ok. by apply serialize_csort. Qed.

(** ** What the normal form of an entry determines *)

Lemma csort_field k fs gs :
  jwf fs -> jwf gs -> csort (VObj fs) = csort (VObj gs) ->
  csort <$> (jget k fs ≫= defined) = csort <$> (jget k gs ≫= defined).
Proof.
  intros H1 H2 Heq. injection Heq as Heq. rewrite <- !jget_csort by done.
  change (sort_entries collate (cfields collate fs) = sort_entries collate (cfields collate gs)) in Heq.
  by rewrite Heq.
Qed.

Lemma csort_actor a1 a2 : csort (actor_value a1) = csort (actor_value a2) -> a1 = a2.
Proof.
  intros Heq. destruct a1 as [k1 i1 l1], a2 as [k2 i2 l2].
  assert (forall a, jwf (entries (actor_value a))) as Hwf.
  { intros [? ? []]; unfold jwf, jkeys; simpl; apply (bool_decide_unpack _); vm_compute; exact I. }
  pose proof (fun k => csort_field k _ _ (Hwf (mkActor k1 i1 l1)) (Hwf (mkActor k2 i2 l2)) Heq) as Hf.
  pose proof (Hf "kind") as Hk. pose proof (Hf "id") as Hi. pose proof (Hf "label") as Hl.
  simpl in Hk, Hi, Hl. f_equal.
  - by destruct k1, k2.
  - by simplify_eq.
  - by destruct l1, l2; simplify_eq/=.
Qed.

Lemma csort_context c1 c2 : csort (context_value c1) = csort (context_value c2) -> c1 = c2.
Proof.
  intros Heq. destruct c1 as [r1 s1 t1], c2 as [r2 s2 t2].
  assert (forall c, jwf (entries (context_value c))) as Hwf.
  { intros [[] [] []]; unfold jwf, jkeys; simpl; apply (bool_decide_unpack _); vm_compute; exact I. }
  pose proof (fun k => csort_field k _ _ (Hwf (mkContext r1 s1 t1)) (Hwf (mkContext r2 s2 t2)) Heq) as Hf.
  pose proof (Hf "runId") as H1. pose proof (Hf "sessionId") as H2. pose proof (Hf "toolName") as H3.
  simpl in H1, H2, H3. f_equal.
  - by destruct r1, r2, s1, s2, t1, t2; simplify_eq/=.
  - by destruct r1, r2, s1, s2, t1, t2; simplify_eq/=.
  - by destruct r1, r2, s1, s2, t1, t2; simplify_eq/=.
Qed.

Definition same_field (k : string) (fs gs : list (string * value)) : Prop :=
  csort <$> (jget k fs ≫= defined) = csort <$> (jget k gs ≫= defined).

Lemma base_of_fields e1 e2 :
  (forall k, k <> "hash" -> same_field k (base_fields e1) (base_fields e2)) -> same_base e1 e2.
Proof.
  intros Hf.
  assert (forall e, jget "context" (base_fields e) = context_value <$> ae_context e) as Hctx.
  { intros e. unfold base_fields. by destruct (ae_context e), (ae_metadata e). }
  assert (forall e, jget "metadata" (base_fields e) = VObj <$> ae_metadata e) as Hmeta.
  { intros e. unfold base_fields. by destruct (ae_context e), (ae_metadata e). }
  assert (forall e, jget "prevHash" (base_fields e) = Some (VStr (ae_prevHash e))) as Hprev.
  { intros e. unfold base_fields. by destruct (ae_context e), (ae_metadata e). }
  assert (same_field "context" (base_fields e1) (base_fields e2)) as H1 by by apply Hf.
  assert (same_field "metadata" (base_fields e1) (base_fields e2)) as H2 by by apply Hf.
  assert (same_field "prevHash" (base_fields e1) (base_fields e2)) as H3 by by apply Hf.
  unfold same_field in H1, H2, H3. rewrite !Hctx in H1. rewrite !Hmeta in H2. rewrite !Hprev in H3.
  clear Hctx Hmeta Hprev. unfold same_base. split_and!.
  - assert (same_field "seq" (base_fields e1) (base_fields e2)) as H by by apply Hf. injection H. lia.
  - assert (same_field "ts" (base_fields e1) (base_fields e2)) as H by by apply Hf. by injection H.
  - assert (same_field "actor" (base_fields e1) (base_fields e2)) as H by by apply Hf.
    by apply csort_actor, (inj Some).
  - assert (same_field "action" (base_fields e1) (base_fields e2)) as H by by apply Hf. by injection H.
  - assert (same_field "target" (base_fields e1) (base_fields e2)) as H by by apply Hf. by injection H.
  - assert (same_field "decision" (base_fields e1) (base_fields e2)) as H by by apply Hf.
    injection H as H. by destruct (ae_decision e1), (ae_decision e2).
  - destruct (ae_context e1), (ae_context e2); try done. f_equal. by apply csort_context, (inj Some).
  - by injection H3.
  - by destruct (ae_metadata e1), (ae_metadata e2).
Qed.

Lemma csort_base e1 e2 :
  csort (VObj (base_fields e1)) = csort (VObj (base_fields e2)) -> same_base e1 e2.
Proof.
  intros Heq. apply base_of_fields. intros k _.
  by apply csort_field; [apply base_keys_wf..|].
Qed.

Lemma cfields_app fs gs : cfields collate (fs ++ gs) = (cfields collate fs ++ cfields collate gs)%list.
Proof. apply flat_map_app. Qed.

Lemma same_base_csort e1 e2 :
  same_base e1 e2 -> cfields collate (base_fields e1) = cfields collate (base_fields e2).
Proof.
  intros (H1 & H2 & H3 & H4 & H5 & H6 & H7 & H8 & H9). unfold base_fields.
  rewrite !cfields_app, H1, H2, H3, H4, H5, H6, H7, H8. do 3 f_equal.
  destruct (ae_metadata e1) as [m1|], (ae_metadata e2) as [m2|]; try done.
  apply (inj Some) in H9. change (csort (VObj m1) = csort (VObj m2)) in H9.
  cbn [fmap option_fmap option_map optional cfields flat_map is_undef snd fst app]. by rewrite H9.
Qed.

Lemma csort_obj fs : csort (VObj fs) = VObj (sort_entries collate (cfields collate fs)).
Proof. done. Qed.

Lemma same_entry_csort e1 e2 : same_entry e1 e2 -> csort (entry_value e1) = csort (entry_value e2).
Proof.
  intros [Hb Hh]. unfold entry_value. by rewrite !csort_obj, !cfields_app, (same_base_csort e1 e2), Hh.
Qed.

Lemma csort_entry e1 e2 : csort (entry_value e1) = csort (entry_value e2) -> same_entry e1 e2.
Proof.
  intros Heq.
  pose proof (fun k => csort_field k _ _ (full_keys_wf e1) (full_keys_wf e2) Heq) as Hf.
  assert (forall e k, k <> "hash" ->
            jget k (base_fields e ++ [("hash", VStr (ae_hash e))])%list = jget k (base_fields e)) as Hbase.
  { intros e k Hk. induction (base_fields e) as [|[k' x] fs IH]; simpl; [by rewrite decide_False|].
    by rewrite IH. }
  split.
  - apply base_of_fields. intros k Hk. unfold same_field. rewrite <- !Hbase by done. apply Hf.
  - specialize (Hf "hash").
    assert (forall e, jget "hash" (base_fields e ++ [("hash", VStr (ae_hash e))])%list =
                      Some (VStr (ae_hash e))) as Hh.
    { intros e. unfold base_fields. by destruct (ae_context e), (ae_metadata e). }
    rewrite !Hh in Hf. by injection Hf.
Qed.

(** ** Storing metadata as JSON keeps its normal form *)

Lemma csort_jnorm v : csort (jnorm v) = csort v.
Proof.
  induction v as [| | [] | [z| | |] | s | vs IH | fs IH | ek ei fs IH] using value_ind'; try done.
  - simpl. f_equal. rewrite map_map. induction IH as [|x vs Hx _ IHvs]; simpl; [done|]. by rewrite Hx, IHvs.
  - change (jnorm (VObj fs)) with (VObj (keep_defined fs)). rewrite !csort_obj. do 2 f_equal.
    induction IH as [|[k x] fs Hx _ IHfs]; simpl in *; [done|].
    destruct (is_undef x) eqn:E; [done|]. simpl.
    assert (is_undef (jnorm x) = false) as -> by by destruct x. by rewrite Hx, IHfs.
Qed.
End Entries.

#[export] Existing Instance same_entry_equiv.

(** ** The laws of a database *)

Definition in_bounds (lo hi : option nat) (e : StoredAuditEntry) : bool :=
  match lo with Some n => bool_decide (n <= ae_seq e)%nat | None => true end &&
  match hi with Some n => bool_decide (ae_seq e <= n)%nat | None => true end.

Definition rehashed (e : StoredAuditEntry) (x : StoredAuditEntry) : StoredAuditEntry :=
  mkEntry (ae_seq x) (ae_ts x) (ae_actor x) (ae_action x) (ae_target x) (ae_decision x)
    (ae_context x) (ae_metadata x) (ae_prevHash e) (ae_hash e).

Definition by_seq (a b : StoredAuditEntry) : Prop := (ae_seq a < ae_seq b)%nat.

#[export] Instance by_seq_antisymm : AntiSymm eq by_seq.
Proof. intros a b Hab Hba. unfold by_seq in *. lia. Qed.

Lemma sorted_last es e x :
  StronglySorted by_seq es -> last es = Some e -> x ∈ es -> (ae_seq x <= ae_seq e)%nat.
Proof.
  intros Hs [es' ->]%last_Some Hx. apply elem_of_app in Hx as [Hx| ->%list_elem_of_singleton]; [|done].
  apply Nat.lt_le_incl. eapply (StronglySorted_app_1_elem_of _ _ _ _ _ Hs Hx). by left.
Qed.

Lemma sorted_lookup es i j e1 e2 :
  StronglySorted by_seq es -> es !! i = Some e1 -> es !! j = Some e2 -> (i < j)%nat ->
  (ae_seq e1 < ae_seq e2)%nat.
Proof.
  intros Hs Hi Hj Hlt. rewrite <- (take_drop (S i) es) in Hs.
  apply (StronglySorted_app_1_elem_of _ _ _ e1 e2 Hs).
  - apply list_elem_of_lookup. exists i. rewrite lookup_take_lt by lia. done.
  - apply list_elem_of_lookup. exists (j - S i)%nat. rewrite lookup_drop.
    by replace (S i + (j - S i))%nat with j by lia.
Qed.

(** [view] is the list of stored entries in [seq] order; an insert may change
    the representation of the metadata but not its normal form. *)
Class AuditDbSpec (collate : string -> string -> comparison) (D : Type) `{AuditDb D} := {
  db_wf : D -> Prop;
  view : D -> list StoredAuditEntry;
  view_sorted d : db_wf d -> StronglySorted by_seq (view d);
  latest_view d : db_wf d -> db_latest d = last (view d);
  iterate_view d lo hi : db_wf d -> db_iterate lo hi d = List.filter (in_bounds lo hi) (view d);
  count_view d : db_wf d -> db_count d = length (view d);
  insert_taken d e :
    db_wf d -> ae_seq e ∈ map ae_seq (view d) ->
    exists err, db_insert e d = Err err /\ isSeqConflictError err = true;
  insert_Ok d e d' :
    db_wf d -> storable e = true -> (1 <= ae_seq e)%nat -> db_insert e d = Ok d' ->
    db_wf d' /\ exists e', same_entry collate e' e /\ storable e' = true /\ view d' ≡ₚ e' :: view d;
  insert_fresh d e :
    db_wf d -> storable e = true -> ae_seq e ∉ map ae_seq (view d) -> ae_hash e ∉ map ae_hash (view d) ->
    is_ok (db_insert e d) = true;
  delete_view d t :
    db_wf d ->
    db_wf (db_deleteUpTo t d).2 /\
    view (db_deleteUpTo t d).2 = List.filter (fun e => negb (bool_decide (ae_seq e <= t)%nat)) (view d) /\
    (db_deleteUpTo t d).1 = length (List.filter (fun e => bool_decide (ae_seq e <= t)%nat) (view d));
  replace_Ok d e d' :
    db_wf d -> db_replaceEntry e d = Ok d' ->
    db_wf d' /\ view d' = map (fun x => if decide (ae_seq x = ae_seq e) then rehashed e x else x) (view d);
  replace_fresh d e :
    db_wf d -> (forall x, x ∈ view d -> ae_hash x = ae_hash e -> ae_seq x = ae_seq e) ->
    is_ok (db_replaceEntry e d) = true;
}.

(** ** Linked entries *)

Section Links.
Context (collate : string -> string -> comparison) (sha256 : list Z -> list Z) (toHex : list Z -> string).
Notation hash_of := (computeAuditHash collate sha256 toHex).

(** The text that is hashed for an entry. *)
Definition hash_input (e : StoredAuditEntry) : list Z :=
  utf8 (JSON_stringify (csort collate (VObj (base_fields e)))).

Lemma hash_of_storable e : storable e = true -> hash_of e = Ok (toHex (sha256 (hash_input e))).
Proof. intros Hs. unfold computeAuditHash. by rewrite canonical_base. Qed.

(** Each entry points to the hash of the one before and carries its own. *)
Fixpoint linked (prev : string) (es : list StoredAuditEntry) : Prop :=
  match es with
  | [] => True
  | e :: es' =>
      ae_prevHash e = prev /\ storable e = true /\ ae_hash e = toHex (sha256 (hash_input e)) /\
      linked (ae_hash e) es'
  end.

Definition tip_hash (prev : string) (es : list StoredAuditEntry) : string :=
  default prev (ae_hash <$> last es).

Lemma linked_app prev es1 es2 :
  linked prev (es1 ++ es2) <-> linked prev es1 /\ linked (tip_hash prev es1) es2.
Proof.
  revert prev. induction es1 as [|e es1 IH]; intros prev; simpl; [by split; [|intros []]|].
  rewrite IH. unfold tip_hash. rewrite last_cons. destruct (last es1); simpl; naive_solver.
Qed.

(** The chain of a log that only [appendAudit] and [pruneAudit] have touched. *)
Fixpoint consecutive (es : list StoredAuditEntry) : Prop :=
  match es with
  | e1 :: ((e2 :: _) as es') => ae_seq e2 = S (ae_seq e1) /\ consecutive es'
  | _ => True
  end.

Definition chain_ok (es : list StoredAuditEntry) : Prop :=
  linked GENESIS_PREV_HASH es /\ consecutive es.

Lemma consecutive_app es e' :
  consecutive es -> match last es with Some e => ae_seq e' = S (ae_seq e) | None => True end ->
  consecutive (es ++ [e']).
Proof.
  induction es as [|e1 [|e2 es] IH]; [done|by intros; simpl in *|].
  intros [H1 H2] Hl. split; [done|]. by apply IH.
Qed.
End Links.
