(* ===== verification/AuditBinding.v ===== *)
(** * The default audit database

    [packages/server/src/app-audit-binding.ts]: the [audit_log] table and the
    statements of the binding.  A table is the list of its rows in primary-key
    order; actor, context and metadata are stored as JSON text.  Sequence
    numbers stay below [Number.MAX_SAFE_INTEGER], so that default upper bound
    of [iterate] never bites; [open], the cipher pragmas and [close] are not
    modelled.  [table_spec] proves the laws of the contract. *)

From S2P Require Import Prelude JsValue Json Canonical AuditChain AuditFacts MerkleProps MerkleHash.
From stdpp Require Import sorting.

Local Open Scope string_scope.

Record Row := mkRow {
  r_seq : nat;
  r_ts : Z;
  r_actor_json : string;
  r_action : string;
  r_target : string;
  r_decision : string;
  r_context_json : option string;
  r_metadata_json : option string;
  r_prev_hash : string;
  r_hash : string;
}.

Definition entryToRow (e : StoredAuditEntry) : Row :=
  mkRow (ae_seq e) (ae_ts e) (JSON_stringify (actor_value (ae_actor e))) (ae_action e) (ae_target e)
    (decision_text (ae_decision e)) (JSON_stringify ∘ context_value <$> ae_context e)
    (JSON_stringify ∘ VObj <$> ae_metadata e) (ae_prevHash e) (ae_hash e).

(** Reading the parsed JSON back as the record types. *)
Definition kind_of_text (s : string) : option AuditActorKind :=
  list_find (fun k => actor_kind_text k = s) [AToken; ACli; AAgent; ATool; ASystem; ASubagent] ≫=
    fun p => Some p.2.

Definition decision_of_text (s : string) : option AuditDecision :=
  list_find (fun d => decision_text d = s) [DSuccess; DDenied; DError; DNotFound] ≫= fun p => Some p.2.

Definition str_of (v : value) : option string := match v with VStr s => Some s | _ => None end.

Definition actor_of_value (v : value) : option AuditActor :=
  k ← str_of (getp "kind" v) ≫= kind_of_text; i ← str_of (getp "id" v);
  Some (mkActor k i (str_of (getp "label" v))).

Definition context_of_value (v : value) : AuditContext :=
  mkContext (str_of (getp "runId" v)) (str_of (getp "sessionId" v)) (str_of (getp "toolName" v)).

Definition fields_of (v : value) : option (list (string * value)) :=
  match v with VObj fs => Some fs | _ => None end.

Definition rowToEntry (r : Row) : option StoredAuditEntry :=
  actor ← JSON_parse (r_actor_json r) ≫= actor_of_value;
  decision ← decision_of_text (r_decision r);
  context ← match r_context_json r with
            | None => Some None
            | Some t => Some ∘ context_of_value <$> JSON_parse t
            end;
  metadata ← match r_metadata_json r with
             | None => Some None
             | Some t => Some <$> (JSON_parse t ≫= fields_of)
             end;
  Some (mkEntry (r_seq r) (r_ts r) actor (r_action r) (r_target r) decision context metadata
          (r_prev_hash r) (r_hash r)).

(** ** The statements *)

Definition Table := list Row.

Fixpoint insert_row (r : Row) (t : Table) : Table :=
  match t with
  | [] => [r]
  | r' :: t' => if decide (r_seq r < r_seq r')%nat then r :: t else r' :: insert_row r t'
  end.

(** [INSERT]: [seq] is the primary key and [hash] is unique. *)
Definition table_insert (e : StoredAuditEntry) (t : Table) : result audit_error Table :=
  if decide (ae_seq e ∈ map r_seq t)
  then Err (DriverError "SQLITE_CONSTRAINT_PRIMARYKEY" "UNIQUE constraint failed: audit_log.seq")
  else if decide (ae_hash e ∈ map r_hash t)
  then Err (DriverError "SQLITE_CONSTRAINT_UNIQUE" "UNIQUE constraint failed: audit_log.hash")
  else Ok (insert_row (entryToRow e) t).

Definition table_latest (t : Table) : option StoredAuditEntry := last t ≫= rowToEntry.

(** [WHERE seq BETWEEN ? AND ?] *)
Definition between (lo hi : option nat) (n : nat) : bool :=
  bool_decide (default 1 lo <= n)%nat &&
  match hi with Some m => bool_decide (n <= m)%nat | None => true end.

Definition table_iterate (lo hi : option nat) (t : Table) : list StoredAuditEntry :=
  omap rowToEntry (List.filter (fun r => between lo hi (r_seq r)) t).

Definition table_deleteUpTo (threshold : nat) (t : Table) : nat * Table :=
  (length (List.filter (fun r => bool_decide (r_seq r <= threshold)%nat) t),
   List.filter (fun r => negb (bool_decide (r_seq r <= threshold)%nat)) t).

(** [UPDATE audit_log SET prev_hash = ?, hash = ? WHERE seq = ?] *)
Definition table_replaceEntry (e : StoredAuditEntry) (t : Table) : result audit_error Table :=
  if existsb (fun r => bool_decide (r_seq r = ae_seq e)) t &&
     existsb (fun r => bool_decide (r_hash r = ae_hash e) && negb (bool_decide (r_seq r = ae_seq e))) t
  then Err (DriverError "SQLITE_CONSTRAINT_UNIQUE" "UNIQUE constraint failed: audit_log.hash")
  else Ok (map (fun r => if decide (r_seq r = ae_seq e)
                         then mkRow (r_seq r) (r_ts r) (r_actor_json r) (r_action r) (r_target r)
                                (r_decision r) (r_context_json r) (r_metadata_json r)
                                (ae_prevHash e) (ae_hash e)
                         else r) t).

#[export] Instance table_db : AuditDb Table := {
  db_insert := table_insert;
  db_latest := table_latest;
  db_iterate := table_iterate;
  db_count t := length t;
  db_deleteUpTo := table_deleteUpTo;
  db_replaceEntry := table_replaceEntry;
  db_transact := true;
}.

(** ** Rows and entries *)

Definition stored (e : StoredAuditEntry) : StoredAuditEntry :=
  mkEntry (ae_seq e) (ae_ts e) (ae_actor e) (ae_action e) (ae_target e) (ae_decision e)
    (ae_context e) (keep_defined <$> ae_metadata e) (ae_prevHash e) (ae_hash e).

Lemma json_plain v : plain v = true -> JSON_parse (JSON_stringify v) = Some v.
Proof.
  unfold plain. rewrite !andb_true_iff. intros [[Hj Hw] Hd]. rewrite JSON_roundtrip by done.
  by rewrite jnorm_vdef.
Qed.

Lemma actor_roundtrip a : JSON_parse (JSON_stringify (actor_value a)) ≫= actor_of_value = Some a.
Proof.
  rewrite json_plain by by destruct a as [? ? []]. by destruct a as [[] ? []].
Qed.

Lemma context_roundtrip c :
  Some ∘ context_of_value <$> JSON_parse (JSON_stringify (context_value c)) = Some (Some c).
Proof.
  rewrite json_plain by by destruct c as [[] [] []]. by destruct c as [[] [] []].
Qed.

Lemma rowToEntry_entryToRow e : storable e = true -> rowToEntry (entryToRow e) = Some (stored e).
Proof.
  intros Hs. unfold rowToEntry, entryToRow. simpl. rewrite actor_roundtrip. simpl.
  assert (decision_of_text (decision_text (ae_decision e)) = Some (ae_decision e)) as ->
    by by destruct (ae_decision e).
  simpl. unfold stored.
  assert (match JSON_stringify ∘ context_value <$> ae_context e with
          | None => Some None
          | Some t => Some ∘ context_of_value <$> JSON_parse t
          end = Some (ae_context e)) as ->.
  { destruct (ae_context e) as [c|]; simpl; [|done]. apply context_roundtrip. }
  simpl. unfold storable in Hs.
  destruct (ae_metadata e) as [m|]; simpl; [|done]. apply andb_true_iff in Hs as [Hj Hw].
  by rewrite JSON_roundtrip.
Qed.

Lemma rowToEntry_fields r e :
  rowToEntry r = Some e -> ae_seq e = r_seq r /\ ae_hash e = r_hash r.
Proof.
  unfold rowToEntry. destruct (JSON_parse (r_actor_json r) ≫= actor_of_value); simpl; [|done].
  destruct (decision_of_text (r_decision r)); simpl; [|done].
  repeat match goal with |- context [?o ≫= _] => destruct o; simpl; [|done] end.
  by intros [= <-].
Qed.

Lemma keep_defined_storable m :
  jsafe (VObj m) && vwf (VObj m) = true -> jsafe (VObj (keep_defined m)) && vwf (VObj (keep_defined m)) = true.
Proof.
  intros [Hj Hw]%andb_true_iff.
  enough (forall v, jsafe v = true -> vwf v = true -> jsafe (jnorm v) && vwf (jnorm v) = true) as Hn
    by exact (Hn (VObj m) Hj Hw).
  clear. induction v as [| | [] | [z| | |] | s | vs IH | fs IH | ek ei fs IH] using value_ind';
    simpl; try done.
  - induction IH as [|x vs Hx _ IHvs]; simpl; [done|].
    intros [Hj1 Hj2]%andb_true_iff [Hw1 Hw2]%andb_true_iff.
    specialize (Hx Hj1 Hw1). specialize (IHvs Hj2 Hw2). rewrite !andb_true_iff in *. naive_solver.
  - intros Hj [Hnd%bool_decide_eq_true Hw]%andb_true_iff. fold (keep_defined fs).
    rewrite (bool_decide_true (NoDup (jkeys (keep_defined fs)))) by by apply (keep_defined_wf fs).
    clear Hnd. induction IH as [|[k x] fs Hx _ IHfs]; simpl in *; [done|].
    apply andb_true_iff in Hj as [Hj1 Hj2], Hw as [Hw1 Hw2]. specialize (IHfs Hj2 Hw2).
    destruct (is_undef x); [done|]. specialize (Hx Hj1 Hw1). simpl. rewrite !andb_true_iff in *. naive_solver.
Qed.

Section Spec.
Context (collate : string -> string -> comparison).

Definition row_ok (r : Row) : Prop :=
  (1 <= r_seq r)%nat /\ exists e, rowToEntry r = Some e /\ storable e = true.

Definition row_lt (a b : Row) : Prop := (r_seq a < r_seq b)%nat.

Definition table_wf (t : Table) : Prop := StronglySorted row_lt t /\ Forall row_ok t.
Definition table_view (t : Table) : list StoredAuditEntry := omap rowToEntry t.

Lemma view_pairs t : Forall row_ok t -> Forall2 (fun r e => rowToEntry r = Some e) t (table_view t).
Proof.
  unfold table_view. induction 1 as [|r t (_ & e & He & _) _ IH]; simpl; [done|].
  rewrite He. by constructor.
Qed.

Lemma view_seqs t : Forall row_ok t -> map ae_seq (table_view t) = map r_seq t.
Proof.
  intros Hok%view_pairs. induction Hok as [|r e t es Hr _ IH]; simpl; [done|].
  by rewrite IH, (proj1 (rowToEntry_fields _ _ Hr)).
Qed.

Lemma view_hashes t : Forall row_ok t -> map ae_hash (table_view t) = map r_hash t.
Proof.
  intros Hok%view_pairs. induction Hok as [|r e t es Hr _ IH]; simpl; [done|].
  by rewrite IH, (proj2 (rowToEntry_fields _ _ Hr)).
Qed.

(** Selecting rows by sequence number selects the same entries. *)
Lemma view_filter (p : nat -> bool) t :
  Forall row_ok t ->
  omap rowToEntry (List.filter (fun r => p (r_seq r)) t) = List.filter (fun e => p (ae_seq e)) (table_view t).
Proof.
  unfold table_view. induction 1 as [|r t (_ & e & He & _) _ IH]; simpl; [done|].
  rewrite He. csimpl. destruct (rowToEntry_fields _ _ He) as [-> _].
  destruct (p (r_seq r)); csimpl; rewrite ?He; csimpl; [by f_equal|done].
Qed.

Lemma insert_row_perm r t : insert_row r t ≡ₚ r :: t.
Proof.
  induction t as [|r' t IH]; simpl; [done|]. case_decide; [done|]. rewrite IH. constructor.
Qed.

Lemma insert_row_sorted r t :
  StronglySorted row_lt t -> r_seq r ∉ map r_seq t -> StronglySorted row_lt (insert_row r t).
Proof.
  unfold row_lt. induction 1 as [|r' t Hs IH HF]; simpl; intros Hni; [by repeat constructor|].
  apply not_elem_of_cons in Hni as [Hne Hni]. case_decide as Hlt.
  - constructor; [by constructor|]. constructor; [done|]. eapply Forall_impl; [exact HF|simpl; lia].
  - constructor; [by apply IH|]. rewrite insert_row_perm. constructor; [lia|done].
Qed.

Lemma table_iterate_view lo hi t :
  table_wf t -> table_iterate lo hi t = List.filter (in_bounds lo hi) (table_view t).
Proof.
  intros [_ Hok]. unfold table_iterate.
  rewrite (view_filter (between lo hi) t Hok).
  apply List.filter_ext_in. intros e He%list_elem_of_In. unfold in_bounds, between. f_equal.
  destruct lo; simpl; [done|]. apply bool_decide_true.
  apply (list_elem_of_fmap_2 ae_seq) in He. change (ae_seq <$> table_view t) with (map ae_seq (table_view t)) in He.
  rewrite view_seqs in He by done. apply list_elem_of_fmap in He as (r & -> & Hr).
  apply (proj1 (Forall_forall _ _) Hok r Hr).
Qed.

Lemma view_sorted_table t : table_wf t -> StronglySorted by_seq (table_view t).
Proof.
  intros [Hs Hok]. assert (Hseq := view_seqs t Hok). revert Hs Hseq. generalize (table_view t). clear Hok.
  unfold row_lt, by_seq. induction t as [|r t IH]; intros [|e es] Hs Heq; try done; [constructor|].
  injection Heq as He Heq. apply StronglySorted_cons in Hs as [HF Hs]. constructor; [by apply IH|].
  revert HF Heq. clear -He. revert es. induction t as [|r' t IH]; intros [|e' es] HF Heq; try done.
  injection Heq as He' Heq. apply Forall_cons in HF as [Hlt HF]. constructor; [lia|by apply IH].
Qed.

Lemma table_latest_view t : table_wf t -> table_latest t = last (table_view t).
Proof.
  intros [_ Hok]. unfold table_latest, table_view. destruct t as [|r t _] using rev_ind; [done|].
  apply Forall_app in Hok as [_ Hr]. apply Forall_singleton in Hr as (_ & e & He & _).
  rewrite last_snoc, omap_app. csimpl. rewrite He. csimpl. by rewrite last_snoc.
Qed.

Lemma stored_same e : same_entry collate (stored e) e.
Proof.
  split; [|done]. unfold same_base, stored. simpl. split_and!; try done.
  destruct (ae_metadata e) as [m|]; [|done]. cbn [fmap option_fmap option_map]. f_equal.
  exact (csort_jnorm collate (VObj m)).
Qed.

Lemma stored_storable e : storable e = true -> storable (stored e) = true.
Proof.
  unfold storable, stored. simpl. destruct (ae_metadata e); [|done]. apply keep_defined_storable.
Qed.

Lemma table_insert_Ok e t t' :
  table_wf t -> storable e = true -> (1 <= ae_seq e)%nat -> table_insert e t = Ok t' ->
  table_wf t' /\ exists e', same_entry collate e' e /\ storable e' = true /\
    table_view t' ≡ₚ e' :: table_view t.
Proof.
  intros [Hs Hok] He Hseq. unfold table_insert. case_decide as Hni; [done|]. case_decide; [done|].
  intros [= <-]. pose proof (rowToEntry_entryToRow e He) as Hrow. split; [split|].
  - by apply insert_row_sorted.
  - rewrite insert_row_perm. constructor; [|done]. split; [done|].
    exists (stored e). split; [done|by apply stored_storable].
  - exists (stored e). split; [apply stored_same|]. split; [by apply stored_storable|].
    unfold table_view. rewrite (omap_Permutation _ _ _ (insert_row_perm _ _)). csimpl. by rewrite Hrow.
Qed.

(** The row an [UPDATE] leaves. *)
Lemma rowToEntry_rehashed r e x :
  rowToEntry r = Some x ->
  rowToEntry (mkRow (r_seq r) (r_ts r) (r_actor_json r) (r_action r) (r_target r) (r_decision r)
     (r_context_json r) (r_metadata_json r) (ae_prevHash e) (ae_hash e)) = Some (rehashed e x).
Proof.
  unfold rowToEntry. cbn [r_seq r_ts r_actor_json r_action r_target r_decision r_context_json r_metadata_json
    r_prev_hash r_hash]. destruct (JSON_parse (r_actor_json r) ≫= actor_of_value); simpl; [|done].
  destruct (decision_of_text (r_decision r)); simpl; [|done].
  repeat match goal with |- context [?o ≫= _] => destruct o; simpl; [|done] end.
  by intros [= <-].
Qed.

Lemma table_replace_Ok e t t' :
  table_wf t -> table_replaceEntry e t = Ok t' ->
  table_wf t' /\
  table_view t' = map (fun x => if decide (ae_seq x = ae_seq e) then rehashed e x else x) (table_view t).
Proof.
  intros [Hs Hok]. unfold table_replaceEntry. destruct (_ && _); [done|]. intros [= <-].
  assert (Hview : forall t, Forall row_ok t -> 
    Forall row_ok (map (fun r => if decide (r_seq r = ae_seq e)
                         then mkRow (r_seq r) (r_ts r) (r_actor_json r) (r_action r) (r_target r)
                                (r_decision r) (r_context_json r) (r_metadata_json r)
                                (ae_prevHash e) (ae_hash e) else r) t) /\
    table_view (map (fun r => if decide (r_seq r = ae_seq e)
                         then mkRow (r_seq r) (r_ts r) (r_actor_json r) (r_action r) (r_target r)
                                (r_decision r) (r_context_json r) (r_metadata_json r)
                                (ae_prevHash e) (ae_hash e) else r) t) =
    map (fun x => if decide (ae_seq x = ae_seq e) then rehashed e x else x) (table_view t)).
  { clear. unfold table_view. induction 1 as [|r t (H1 & x & Hx & Hst) _ [IH1 IH2]]; [done|]. csimpl.
    rewrite Hx. csimpl. rewrite (proj1 (rowToEntry_fields _ _ Hx)).
    case_decide.
    - rewrite (rowToEntry_rehashed _ _ _ Hx). csimpl. rewrite IH2. split; [|done].
      constructor; [|done]. split; [done|]. exists (rehashed e x). split; [by apply rowToEntry_rehashed|done].
    - rewrite Hx. csimpl. rewrite IH2. split; [|done]. constructor; [|done]. split; [done|by exists x]. }
  destruct (Hview t Hok) as [Hok' Hv]. split; [|done]. split; [|done].
  clear -Hs. unfold row_lt in *. induction Hs as [|r t Hs IH HF]; simpl; [constructor|].
  constructor; [done|]. apply Forall_map. eapply Forall_impl; [exact HF|].
  intros r' Hlt. simpl. repeat case_decide; done.
Qed.

Lemma filter_ok (p : Row -> bool) t : table_wf t -> table_wf (List.filter p t).
Proof.
  intros [Hs Hok]. split.
  - unfold row_lt in *. induction Hs as [|r t Hs IH HF]; simpl; [constructor|].
    apply Forall_cons in Hok as [Hr Hok]. destruct (p r); [|by apply IH]. constructor; [by apply IH|].
    apply Forall_forall. intros x [Hx _]%list_elem_of_In%filter_In.
    apply (proj1 (Forall_forall _ _) HF). by apply list_elem_of_In.
  - apply Forall_forall. intros x [Hx _]%list_elem_of_In%filter_In.
    apply (proj1 (Forall_forall _ _) Hok). by apply list_elem_of_In.
Qed.

Lemma filter_view_length (p : nat -> bool) t :
  Forall row_ok t ->
  length (List.filter (fun r => p (r_seq r)) t) = length (List.filter (fun e => p (ae_seq e)) (table_view t)).
Proof.
  unfold table_view. induction 1 as [|r t (_ & e & He & _) _ IH]; [done|]. csimpl.
  rewrite He. csimpl. rewrite (proj1 (rowToEntry_fields _ _ He)). destruct (p (r_seq r)); csimpl; by rewrite IH.
Qed.

#[export] Instance table_spec : AuditDbSpec collate Table.
Proof.
  refine {| db_wf := table_wf; view := table_view |}.
  - apply view_sorted_table.
  - apply table_latest_view.
  - intros t lo hi. apply table_iterate_view.
  - intros t [_ Hok]. pose proof (f_equal length (view_seqs t Hok)) as Hl.
    by rewrite !length_map in Hl.
  - intros t e [_ Hok] Hin. rewrite view_seqs in Hin by done. simpl. unfold table_insert.
    rewrite decide_True by done. by eexists.
  - intros t e t'. apply table_insert_Ok.
  - intros t e [_ Hok] _ Hs Hh. rewrite view_seqs in Hs by done. rewrite view_hashes in Hh by done.
    simpl. unfold table_insert. by rewrite !decide_False by done.
  - intros t n Hwf. destruct Hwf as [Hs Hok]. simpl. split_and!.
    + by apply filter_ok.
    + set (p := fun m : nat => negb (bool_decide (m <= n)%nat)). exact (view_filter p t Hok).
    + set (p := fun m : nat => bool_decide (m <= n)%nat). exact (filter_view_length p t Hok).
  - intros t e t'. apply table_replace_Ok.
  - intros t e [_ Hok] Hfresh. simpl. unfold table_replaceEntry.
    destruct (existsb (fun r => bool_decide (r_hash r = ae_hash e) && _) t) eqn:E; [|by rewrite andb_false_r].
    exfalso. apply existsb_true_iff in E as (r & Hr & [Hh%bool_decide_eq_true Hq]%andb_true_iff).
    apply negb_true_iff, bool_decide_eq_false in Hq. apply Hq.
    destruct (proj1 (Forall_forall _ _) Hok r Hr) as (_ & x & Hx & _).
    destruct (rowToEntry_fields _ _ Hx) as [<- Hhx]. apply Hfresh; [|congruence].
    apply list_elem_of_omap. by exists r.
Defined.
End Spec.

(** ** A worked audit log

    Three entries in the table of the default binding, and the toy digest and
    digest text the properties are instantiated at.  [plain_db] is the same
    table without [transact], so that another writer can get in between the two
    halves of an append. *)

Module Log.
Definition sha256 := Toy.hash.

(** The digest as text: its numbers as a JSON array. *)
Definition toHex (b : list Z) : string := JSON_stringify (VArr (map (fun z => VNum (NFin z)) b)).

Definition num_of (v : value) : Z := match v with VNum (NFin z) => z | _ => 0%Z end.

Definition ofHex (s : string) : list Z :=
  match JSON_parse s with Some (VArr vs) => map num_of vs | _ => [] end.

Lemma hex_roundtrip b : ofHex (toHex b) = b.
Proof.
  unfold ofHex, toHex. rewrite json_plain.
  - rewrite map_map. simpl. apply map_id.
  - unfold plain. induction b as [|z b IH]; [done|]. simpl in *. by rewrite IH.
Qed.

Lemma hex_inj a b : toHex a = toHex b -> a = b.
Proof. intros Heq. by rewrite <- (hex_roundtrip a), Heq, hex_roundtrip. Qed.

Definition input (action : string) (ts : Z) (metadata : option (list (string * value))) : AuditEntryInput :=
  mkInput (mkActor ACli "ops" None) action "thread:1" DSuccess (Some (mkContext (Some "r1") None None))
    metadata (Some ts).

Definition inputs : list AuditEntryInput :=
  [input "tool.run" 10 None;
   input "secret.get" 20 (Some [("why", VStr "deploy"); ("n", VNum (NFin 2))]);
   input "tool.run" 30 (Some [("why", VUndef)])].

Notation append_all inputs t :=
  (appendAudit_all (H := table_db) String.compare sha256 toHex 0 (fun _ _ => id) (fun _ _ => 0%Z) inputs t).

Definition table : Table := (append_all inputs []).2.

(** The same table behind a binding without [transact]. *)
Definition plain_db : AuditDb Table := {|
  db_insert := table_insert;
  db_latest := table_latest;
  db_iterate := table_iterate;
  db_count t := length t;
  db_deleteUpTo := table_deleteUpTo;
  db_replaceEntry := table_replaceEntry;
  db_transact := false;
|}.

Definition plain_spec collate : @AuditDbSpec collate Table plain_db :=
  match table_spec collate with
  | Build_AuditDbSpec _ _ _ wf v h1 h2 h3 h4 h5 h6 h7 h8 h9 h10 =>
      @Build_AuditDbSpec collate Table plain_db wf v h1 h2 h3 h4 h5 h6 h7 h8 h9 h10
  end.
End Log.
