(* ===== verification/AuditRefine.v ===== *)
(** * The audit binding refines a log

    The contract as an abstract machine: a log is the list of its entries in
    sequence order, and the operations act on it directly.  Whatever sequence
    of operations is run, the SQL table of the default binding gives the same
    replies as the log it stands for. *)

From stdpp Require Import sorting.
From S2P Require Import Prelude JsValue Json Canonical AuditChain AuditFacts AuditBinding.

Local Open Scope string_scope.

Module LogSpec.
Definition Log := list StoredAuditEntry.

Fixpoint insert_sorted (e : StoredAuditEntry) (l : Log) : Log :=
  match l with
  | [] => [e]
  | e' :: l' => if decide (ae_seq e < ae_seq e')%nat then e :: l else e' :: insert_sorted e l'
  end.

(** Sequence numbers and hashes are unique; what is stored is the entry as JSON
    keeps it. *)
Definition insert (e : StoredAuditEntry) (l : Log) : option Log :=
  if decide (ae_seq e ∈ map ae_seq l \/ ae_hash e ∈ map ae_hash l) then None
  else Some (insert_sorted (stored e) l).

Definition replace (e : StoredAuditEntry) (l : Log) : option Log :=
  if decide (ae_seq e ∈ map ae_seq l /\ Exists (fun x => ae_hash x = ae_hash e /\ ae_seq x <> ae_seq e) l)
  then None
  else Some (map (fun x => if decide (ae_seq x = ae_seq e) then rehashed e x else x) l).
End LogSpec.

Inductive Op :=
| OInsert (e : StoredAuditEntry)
| OLatest
| OIterate (lo hi : option nat)
| OCount
| ODeleteUpTo (n : nat)
| OReplace (e : StoredAuditEntry).

Inductive Reply :=
| RDone
| RRefused
| RLatest (e : option StoredAuditEntry)
| REntries (es : list StoredAuditEntry)
| RCount (n : nat).

Definition done_or_refused {D} (d : D) (r : option D) : Reply * D :=
  match r with Some d' => (RDone, d') | None => (RRefused, d) end.

Definition log_op (o : Op) (l : LogSpec.Log) : Reply * LogSpec.Log :=
  match o with
  | OInsert e => done_or_refused l (LogSpec.insert e l)
  | OLatest => (RLatest (last l), l)
  | OIterate lo hi => (REntries (List.filter (in_bounds lo hi) l), l)
  | OCount => (RCount (length l), l)
  | ODeleteUpTo n => (RCount (length (List.filter (fun e => bool_decide (ae_seq e <= n)%nat) l)),
                      List.filter (fun e => negb (bool_decide (ae_seq e <= n)%nat)) l)
  | OReplace e => done_or_refused l (LogSpec.replace e l)
  end.

Definition to_option {E A} (r : result E A) : option A := match r with Ok a => Some a | Err _ => None end.

Definition db_op {D} `{AuditDb D} (o : Op) (d : D) : Reply * D :=
  match o with
  | OInsert e => done_or_refused d (to_option (db_insert e d))
  | OLatest => (RLatest (db_latest d), d)
  | OIterate lo hi => (REntries (db_iterate lo hi d), d)
  | OCount => (RCount (db_count d), d)
  | ODeleteUpTo n => let '(k, d') := db_deleteUpTo n d in (RCount k, d')
  | OReplace e => done_or_refused d (to_option (db_replaceEntry e d))
  end.

Fixpoint run_ops {D} (step : Op -> D -> Reply * D) (os : list Op) (d : D) : list Reply * D :=
  match os with
  | [] => ([], d)
  | o :: os' => let '(r, d1) := step o d in let '(rs, d2) := run_ops step os' d1 in (r :: rs, d2)
  end.

(** The entries callers insert: JSON-safe metadata, numbered from one. *)
Definition op_ok (o : Op) : bool :=
  match o with OInsert e => storable e && bool_decide (1 <= ae_seq e)%nat | _ => true end.

Lemma insert_row_view e t :
  Forall row_ok t -> storable e = true ->
  table_view (insert_row (entryToRow e) t) = LogSpec.insert_sorted (stored e) (table_view t).
Proof.
  intros Hok Hs. unfold table_view. induction Hok as [|r t (_ & x & Hx & _) _ IH]; csimpl.
  - by rewrite rowToEntry_entryToRow.
  - rewrite Hx. csimpl. destruct (rowToEntry_fields _ _ Hx) as [Hseq _]. simpl. rewrite Hseq.
    case_decide; csimpl; rewrite ?rowToEntry_entryToRow, ?Hx by done; csimpl; rewrite ?Hx; csimpl; [done|by rewrite IH].
Qed.

Lemma table_insert_log (collate : string -> string -> comparison) e t :
  table_wf t -> op_ok (OInsert e) = true ->
  let r := db_op (OInsert e) t in
  table_wf r.2 /\ (r.1, table_view r.2) = log_op (OInsert e) (table_view t).
Proof.
  intros Hwf [Hs Hseq%bool_decide_eq_true]%andb_true_iff. simpl.
  destruct (table_insert e t) as [t'|err] eqn:Hi; simpl.
  - destruct (table_insert_Ok collate e t t' Hwf Hs Hseq Hi) as [Hwf' _]. split; [done|].
    destruct Hwf as [_ Hok]. unfold table_insert in Hi. unfold LogSpec.insert.
    rewrite view_seqs, view_hashes by done.
    case_decide; [done|]. case_decide; [done|]. injection Hi as <-.
    rewrite decide_False by naive_solver. simpl. by rewrite insert_row_view.
  - split; [done|]. destruct Hwf as [_ Hok]. unfold table_insert in Hi. unfold LogSpec.insert.
    rewrite view_seqs, view_hashes by done. rewrite decide_True; [done|].
    repeat case_decide; [by left|by right|done].
Qed.

Lemma clash_view e t :
  Forall row_ok t ->
  existsb (fun r => bool_decide (r_seq r = ae_seq e)) t = true <-> ae_seq e ∈ map ae_seq (table_view t).
Proof.
  intros Hok. rewrite view_seqs by done. rewrite existsb_true_iff, list_elem_of_fmap.
  setoid_rewrite bool_decide_eq_true. naive_solver.
Qed.

Lemma other_hash_view e t :
  Forall row_ok t ->
  existsb (fun r => bool_decide (r_hash r = ae_hash e) && negb (bool_decide (r_seq r = ae_seq e))) t = true <->
  Exists (fun x => ae_hash x = ae_hash e /\ ae_seq x <> ae_seq e) (table_view t).
Proof.
  intros Hok. unfold table_view. induction Hok as [|r t (_ & x & Hx & _) _ IH]; csimpl; [by rewrite Exists_nil|].
  rewrite Hx. csimpl. destruct (rowToEntry_fields _ _ Hx) as [Hq Hh].
  rewrite orb_true_iff, Exists_cons, IH, andb_true_iff, negb_true_iff, bool_decide_eq_true, bool_decide_eq_false.
  by rewrite Hq, Hh.
Qed.

Lemma table_replace_log e t :
  table_wf t ->
  let r := db_op (OReplace e) t in
  table_wf r.2 /\ (r.1, table_view r.2) = log_op (OReplace e) (table_view t).
Proof.
  intros Hwf. simpl. unfold LogSpec.replace. pose proof (proj2 Hwf) as Hok.
  pose proof (clash_view e t Hok) as H1. pose proof (other_hash_view e t Hok) as H2.
  destruct (table_replaceEntry e t) as [t'|err] eqn:Hr; simpl.
  - destruct (table_replace_Ok e t t' Hwf Hr) as [Hwf' Hv]. split; [done|].
    rewrite decide_False; [simpl; by rewrite Hv|]. intros [Ha%H1 Hb%H2].
    unfold table_replaceEntry in Hr. by rewrite Ha, Hb in Hr.
  - split; [done|]. unfold table_replaceEntry in Hr. destruct (_ && _) eqn:E; [|done].
    apply andb_true_iff in E as [Ha%H1 Hb%H2]. by rewrite decide_True.
Qed.

(** One operation. *)
Lemma table_op_log o t :
  table_wf t -> op_ok o = true ->
  table_wf (db_op o t).2 /\ ((db_op o t).1, table_view (db_op o t).2) = log_op o (table_view t).
Proof.
  intros Hwf Ho. destruct o as [e| |lo hi| |n|e].
  - by apply (table_insert_log String.compare).
  - split; [done|]. simpl. by rewrite table_latest_view.
  - split; [done|]. simpl. by rewrite table_iterate_view.
  - split; [done|]. simpl. pose proof (f_equal length (view_seqs t (proj2 Hwf))) as Hl.
    rewrite !length_map in Hl. by rewrite Hl.
  - simpl. split; [by apply filter_ok|]. f_equal.
    + f_equal. exact (filter_view_length (fun m => bool_decide (m <= n)%nat) t (proj2 Hwf)).
    + exact (view_filter (fun m => negb (bool_decide (m <= n)%nat)) t (proj2 Hwf)).
  - by apply table_replace_log.
Qed.

(** C35: The binding refines the log: started on a table and on the entries it
    holds, any sequence of inserts, reads, range iterations, counts, deletions
    and hash rewrites gives the same replies, refusals included, and leaves a
    table that holds exactly the entries of the log. *)
Theorem binding_refines_log os t :
  table_wf t -> forallb op_ok os = true ->
  (run_ops db_op os t).1 = (run_ops log_op os (table_view t)).1 /\
  table_view (run_ops db_op os t).2 = (run_ops log_op os (table_view t)).2.
Proof.
  revert t. induction os as [|o os IH]; intros t Hwf Hos; simpl; [done|].
  simpl in Hos. apply andb_true_iff in Hos as [Ho Hos].
  destruct (table_op_log o t Hwf Ho) as [Hwf1 Heq].
  destruct (db_op o t) as [r t1]. rewrite <- Heq. simpl in *.
  destruct (IH t1 Hwf1 Hos) as [H1 H2].
  destruct (run_ops db_op os t1), (run_ops log_op os (table_view t1)). simpl in *. by subst.
Qed.

Definition demo_entry (seq : nat) (hash : string) : StoredAuditEntry :=
  mkEntry seq 10 (mkActor ACli "ops" None) "tool.run" "t" DSuccess None (Some [("n", VNull); ("u", VUndef)])
    "prev" hash.

Definition demo_ops : list Op :=
  [OInsert (demo_entry 2 "b"); OInsert (demo_entry 1 "a"); OInsert (demo_entry 2 "c"); OInsert (demo_entry 3 "a");
   OReplace (demo_entry 2 "a"); OReplace (demo_entry 2 "z"); OIterate None None; ODeleteUpTo 1; OLatest; OCount].

Lemma binding_refines_log_witness :
  (run_ops db_op demo_ops ([] : Table)).1 =
    [RDone; RDone; RRefused; RRefused; RRefused; RDone;
     REntries [stored (demo_entry 1 "a"); stored (demo_entry 2 "z")]; RCount 1;
     RLatest (Some (stored (demo_entry 2 "z"))); RCount 1].
Proof.
  rewrite (proj1 (binding_refines_log demo_ops [] ltac:(repeat constructor) eq_refl)).
  vm_compute. reflexivity.
Defined.
