(* ===== verification/AuditProps.v ===== *)
(** * What the audit chain guarantees

    Appends keep the chain whatever other processes append to the same
    database; verification finds the first broken link; the last hash commits
    to the whole log; and an export can be read back. *)

From stdpp Require Import sorting.
From S2P Require Import Prelude JsValue Json Canonical AuditChain AuditFacts MerkleHash MerkleProps AuditBinding.

Local Open Scope string_scope.

Definition input_storable (i : AuditEntryInput) : bool :=
  match in_metadata i with Some m => jsafe (VObj m) && vwf (VObj m) | None => true end.

Section Props.
Context (collate : string -> string -> comparison) (sha256 : list Z -> list Z) (toHex : list Z -> string).
Context {D : Type} `{AuditDbSpec collate D}.
Notation hash_of := (computeAuditHash collate sha256 toHex).
Notation chain_ok := (chain_ok collate sha256 toHex).
Notation linked := (linked collate sha256 toHex).

(** ** Appending *)

(** [es'] is [es] with entries appended the way [appendAudit] numbers them. *)
Definition appended (es es' : list StoredAuditEntry) : Prop :=
  chain_ok es' /\ exists more, es' = (es ++ more)%list /\
    (es = [] -> match more with e :: _ => ae_seq e = 1%nat | [] => True end).

Lemma appended_refl es : chain_ok es -> appended es es.
Proof. intros Hc. split; [done|]. exists []. by rewrite app_nil_r. Qed.

Lemma appended_trans es1 es2 es3 : appended es1 es2 -> appended es2 es3 -> appended es1 es3.
Proof.
  intros [_ (m1 & -> & H1)] [Hc (m2 & -> & H2)]. split; [done|].
  exists (m1 ++ m2)%list. split; [by rewrite app_assoc|]. intros ->. simpl in *.
  destruct m1; [by apply H2|by apply H1].
Qed.

Lemma appended_chain es es' : appended es es' -> chain_ok es'.
Proof. by intros []. Qed.

(** What other processes may do between the two halves of an append. *)
Definition only_appends (between : D -> D) : Prop :=
  forall d, db_wf d -> chain_ok (view d) -> db_wf (between d) /\ appended (view d) (view (between d)).

Lemma next_entry_storable last input now :
  input_storable input = true ->
  exists e, next_entry collate sha256 toHex last input now = Ok e /\ storable e = true /\
    ae_seq e = S (default 0 (ae_seq <$> last)) /\
    ae_prevHash e = default GENESIS_PREV_HASH (ae_hash <$> last) /\
    ae_hash e = toHex (sha256 (hash_input collate e)).
Proof.
  intros Hi. unfold next_entry. rewrite hash_of_storable by done. simpl. by eexists.
Qed.

(** An entry built on the tip links to it. *)
Lemma chain_ok_snoc es e :
  chain_ok es -> storable e = true -> ae_seq e = S (default 0 (ae_seq <$> last es)) ->
  ae_prevHash e = default GENESIS_PREV_HASH (ae_hash <$> last es) ->
  ae_hash e = toHex (sha256 (hash_input collate e)) -> appended es (es ++ [e])%list.
Proof.
  intros [Hl Hc] Hs Hseq Hprev Hhash. split; [split|].
  - apply linked_app. done.
  - apply consecutive_app; [done|]. by destruct (last es).
  - exists [e]. split; [done|]. by intros ->.
Qed.

Lemma same_entry_fields e e' :
  same_entry collate e' e -> storable e' = true -> storable e = true ->
  ae_seq e' = ae_seq e /\ ae_prevHash e' = ae_prevHash e /\ ae_hash e' = ae_hash e /\
  hash_input collate e' = hash_input collate e.
Proof.
  intros [Hb Hh] Hs' Hs. assert (Hb' := Hb). destruct Hb' as (? & _ & _ & _ & _ & _ & _ & ? & _).
  split_and!; [done..|]. unfold hash_input. by rewrite !csort_obj, (same_base_csort _ _ _ Hb).
Qed.

Lemma sorted_snoc es es' e :
  StronglySorted by_seq es -> StronglySorted by_seq es' -> es' ≡ₚ e :: es ->
  Forall (fun x => ae_seq x < ae_seq e)%nat es -> es' = (es ++ [e])%list.
Proof.
  intros Hs Hs' Hp Hlt. apply (StronglySorted_unique by_seq).
  - done.
  - apply StronglySorted_app. split_and!; [|done|by repeat constructor].
    intros x y Hx ->%list_elem_of_singleton. by apply (proj1 (Forall_forall _ _) Hlt).
  - rewrite Hp. apply Permutation_cons_append.
Qed.

Lemma below_next es e :
  StronglySorted by_seq es -> ae_seq e = S (default 0 (ae_seq <$> last es)) ->
  Forall (fun x => ae_seq x < ae_seq e)%nat es.
Proof.
  intros Hs Hseq. apply Forall_forall. intros x Hx.
  destruct (last es) as [l|] eqn:Hl; [|by apply last_None in Hl; subst; apply not_elem_of_nil in Hx].
  pose proof (sorted_last _ _ _ Hs Hl Hx). simpl in Hseq. lia.
Qed.

(** If anything was appended meanwhile, the sequence number is taken. *)
Lemma appended_taken es es' e :
  appended es es' -> ae_seq e = S (default 0 (ae_seq <$> last es)) ->
  ae_seq e ∉ map ae_seq es' -> es' = es.
Proof.
  intros [[_ Hc] (more & -> & Hfirst)] Hseq Hni. destruct more as [|e1 more]; [by rewrite app_nil_r|exfalso].
  apply Hni. rewrite map_app. apply elem_of_app. right. simpl. apply elem_of_cons. left.
  destruct es as [|x es _] using rev_ind; [by rewrite Hseq, Hfirst|].
  rewrite last_snoc in Hseq. simpl in Hseq. rewrite Hseq. clear Hseq Hni Hfirst.
  rewrite <- app_assoc in Hc. simpl in Hc. induction es as [|y [|z es] IH]; simpl in *; naive_solver.
Qed.

(** One attempt: either an entry was appended at the end, or nothing was. *)
Lemma appendOnce_extends between input now d r d' :
  db_wf d -> chain_ok (view d) -> only_appends between -> input_storable input = true ->
  appendOnce collate sha256 toHex between input now d = (r, d') ->
  db_wf d' /\ appended (view d) (view d') /\
  match r with Ok e => exists e', last (view d') = Some e' /\ same_entry collate e' e | Err _ => True end.
Proof.
  intros Hwf Hc Hb Hi. unfold appendOnce. rewrite latest_view by done.
  destruct (next_entry_storable (last (view d)) input now Hi) as (e & -> & Hs & Hseq & Hprev & Hhash).
  destruct (Hb d Hwf Hc) as [Hwf1 Happ].
  destruct (db_insert e (between d)) as [d2|err] eqn:Hins; intros [= <- <-]; [|done].
  assert (ae_seq e ∉ map ae_seq (view (between d))) as Hni.
  { intros Hin. destruct (insert_taken _ _ Hwf1 Hin) as (err & Herr & _). congruence. }
  pose proof (appended_taken _ _ _ Happ Hseq Hni) as Heq.
  destruct (insert_Ok _ _ _ Hwf1 Hs ltac:(lia) Hins) as (Hwf2 & e' & Hsame & Hs' & Hperm).
  destruct (same_entry_fields _ _ Hsame Hs' Hs) as (Hq & Hp & Hh & Hin).
  rewrite Heq in Hperm. pose proof (view_sorted d Hwf) as Hsd.
  assert (view d2 = (view d ++ [e'])%list) as Hview.
  { apply sorted_snoc; [done|by apply view_sorted|done|].
    rewrite Hq. by apply below_next. }
  split; [done|]. rewrite Hview. split.
  - apply chain_ok_snoc; rewrite ?Hq, ?Hp, ?Hh, ?Hin; done.
  - exists e'. by rewrite last_snoc.
Qed.

Lemma append_attempts_extends left attempt world input clock err d r d' :
  db_wf d -> chain_ok (view d) -> (forall k, only_appends (world k)) -> input_storable input = true ->
  append_attempts collate sha256 toHex left attempt world input clock err d = (r, d') ->
  db_wf d' /\ appended (view d) (view d') /\
  match r with Ok e => exists e', last (view d') = Some e' /\ same_entry collate e' e | Err _ => True end.
Proof.
  intros Hwf Hc Hw Hi. revert attempt err d Hwf Hc.
  induction left as [|left IH]; intros attempt err d Hwf Hc; simpl.
  - intros [= <- <-]. by split; [|split; [apply appended_refl|]].
  - destruct (appendOnce _ _ _ _ _ _ d) as [[e|e] d1] eqn:Ho;
      apply appendOnce_extends in Ho as (Hwf1 & Ha & Hl); try done.
    + by intros [= <- <-].
    + destruct (isSeqConflictError e); [|by intros [= <- <-]].
      intros (Hwf2 & Ha2 & Hl2)%IH; [|done|by eapply appended_chain].
      split; [done|]. split; [by eapply appended_trans|done].
Qed.

Lemma append_extends world input clock d r d' :
  db_wf d -> chain_ok (view d) -> (forall k, only_appends (world k)) -> input_storable input = true ->
  appendAuditUnsynchronized collate sha256 toHex world input clock d = (r, d') ->
  db_wf d' /\ appended (view d) (view d') /\
  match r with Ok e => exists e', last (view d') = Some e' /\ same_entry collate e' e | Err _ => True end.
Proof.
  intros Hwf Hc Hw Hi. unfold appendAuditUnsynchronized. destruct db_transact.
  - apply appendOnce_extends; try done. intros d1 ??. split; [done|by apply appended_refl].
  - by apply append_attempts_extends.
Qed.

Lemma append_all_extends i worlds clocks inputs d rs d' :
  db_wf d -> chain_ok (view d) -> (forall i k, only_appends (worlds i k)) ->
  forallb input_storable inputs = true ->
  appendAudit_all collate sha256 toHex i worlds clocks inputs d = (rs, d') ->
  db_wf d' /\ appended (view d) (view d') /\
  Forall (fun r => match r with Ok e => exists e', e' ∈ view d' /\ same_entry collate e' e
                              | Err _ => True end) rs.
Proof.
  intros Hwf Hc Hw Hi. revert i d rs Hwf Hc.
  induction inputs as [|input inputs IH]; intros i d rs Hwf Hc; simpl.
  - intros [= <- <-]. split; [done|]. by split; [apply appended_refl|].
  - destruct (appendAuditUnsynchronized _ _ _ _ _ _ _) as [r d1] eqn:Hr.
    destruct (appendAudit_all _ _ _ _ _ _ _ _) as [rs' d2] eqn:Hrs. intros [= <- <-].
    simpl in Hi. apply andb_true_iff in Hi as [Hi1 Hi2].
    apply append_extends in Hr as (Hwf1 & Ha1 & Hl); [|done..].
    apply IH in Hrs as (Hwf2 & Ha2 & HF); [|done|done|by eapply appended_chain].
    split; [done|]. split; [by eapply appended_trans|]. constructor; [|done].
    destruct r as [e|]; [|done]. destruct Hl as (e' & Hlast & Hsame). exists e'. split; [|done].
    destruct Ha2 as [_ (more & -> & _)]. apply elem_of_app. left. by apply last_Some_elem_of.
Qed.

(** Appends keep the chain: whatever the other processes append between the
    two halves of each call, after any sequence of calls the log is the old log
    with entries appended, its chain is intact, and every entry a call returned
    is in it. *)
Theorem appends_keep_the_chain i worlds clocks inputs d rs d' :
  db_wf d -> chain_ok (view d) -> (forall i k, only_appends (worlds i k)) ->
  forallb input_storable inputs = true ->
  appendAudit_all collate sha256 toHex i worlds clocks inputs d = (rs, d') ->
  chain_ok (view d') /\ view d `prefix_of` view d' /\
  Forall (fun r => match r with
                   | Ok e => exists e', e' ∈ view d' /\ same_entry collate e' e
                   | Err _ => True
                   end) rs.
Proof.
  intros Hwf Hc Hw Hi Heq.
  destruct (append_all_extends _ _ _ _ _ _ _ Hwf Hc Hw Hi Heq) as (_ & [Hc' (more & Hm & _)] & HF).
  split; [done|]. split; [rewrite Hm; by exists more|done].
Qed.

(** ** Verification *)

Lemma verify_from_linked count prev es :
  linked prev es -> verify_from collate sha256 toHex count prev es = Ok (ChainOk (count + length es)).
Proof.
  revert count prev. induction es as [|e es IH]; intros count prev; simpl.
  - intros _. by rewrite Nat.add_0_r.
  - intros (Hp & Hs & Hh & Hl). rewrite decide_True, hash_of_storable by done. simpl.
    rewrite decide_True by done. rewrite IH by done. do 2 f_equal. lia.
Qed.

(** What a broken link looks like at entry [e], after the hash [prev]. *)
Definition broken_link (prev : string) (e : StoredAuditEntry) (expected actual : string) : Prop :=
  (ae_prevHash e <> prev /\ expected = prev /\ actual = ae_prevHash e) \/
  (ae_prevHash e = prev /\ expected = toHex (sha256 (hash_input collate e)) /\ actual = ae_hash e /\
   expected <> actual).

Lemma verify_from_broken count prev es e rest :
  linked prev es -> storable e = true -> forall expected actual,
  broken_link (tip_hash prev es) e expected actual ->
  verify_from collate sha256 toHex count prev (es ++ e :: rest) =
    Ok (ChainBroken (ae_seq e) expected actual).
Proof.
  intros Hl Hs expected actual Hb. revert count prev Hl Hb.
  induction es as [|e0 es IH]; intros count prev; simpl.
  - intros _ [(Hp & -> & ->)|(Hp & -> & -> & Hne)]; [by rewrite decide_False|].
    rewrite decide_True, hash_of_storable by done. simpl. by rewrite decide_False.
  - intros (Hp & Hs0 & Hh & Hl) Hb. rewrite decide_True, hash_of_storable by done. simpl.
    rewrite decide_True by done. apply IH; [done|].
    unfold tip_hash in *. rewrite last_cons in Hb. by destruct (last es).
Qed.

(** A stored log is linked or has a first broken link. *)
Lemma linked_or_broken prev es :
  Forall (fun e => storable e = true) es ->
  linked prev es \/
  exists es1 e rest expected actual, es = (es1 ++ e :: rest)%list /\ linked prev es1 /\
    storable e = true /\ broken_link (tip_hash prev es1) e expected actual.
Proof.
  intros Hall. revert prev. induction Hall as [|e es Hs _ IH]; intros prev; [by left|].
  destruct (decide (ae_prevHash e = prev)) as [Hp|Hp].
  2: { right. exists [], e, es, prev, (ae_prevHash e). split_and!; try done. by left. }
  destruct (decide (toHex (sha256 (hash_input collate e)) = ae_hash e)) as [Hh|Hh].
  2: { right. eexists [], e, es, _, _. split_and!; try done. right. done. }
  destruct (IH (ae_hash e)) as [Hl|(es1 & e1 & rest & ex & ac & -> & Hl & Hs1 & Hb)]; [by left|].
  right. exists (e :: es1), e1, rest, ex, ac. split_and!; try done.
  unfold tip_hash in *. rewrite last_cons. by destruct (last es1).
Qed.

(** Verification reports the first broken link and nothing else: on any log
    read back from the database it answers [ok] with the entry count exactly
    when every entry links to its predecessor and carries its own hash;
    otherwise it names the first entry that does not, after a linked prefix. *)
Theorem verify_reports_first_break d :
  db_wf d -> Forall (fun e => storable e = true) (view d) ->
  (linked GENESIS_PREV_HASH (view d) /\
   verifyAuditChain collate sha256 toHex None None d = Ok (ChainOk (length (view d)))) \/
  (exists es e rest expected actual,
     view d = (es ++ e :: rest)%list /\ linked GENESIS_PREV_HASH es /\
     broken_link (tip_hash GENESIS_PREV_HASH es) e expected actual /\
     verifyAuditChain collate sha256 toHex None None d = Ok (ChainBroken (ae_seq e) expected actual)).
Proof.
  intros Hwf Hall. unfold verifyAuditChain. rewrite iterate_view by done.
  rewrite bfilter_all by (apply Forall_forall; done).
  destruct (linked_or_broken GENESIS_PREV_HASH (view d) Hall)
    as [Hl|(es & e & rest & ex & ac & Hv & Hl & Hs & Hb)].
  - left. split; [done|]. by apply (verify_from_linked 0).
  - right. exists es, e, rest, ex, ac. split_and!; try done. rewrite Hv. by apply verify_from_broken.
Qed.

(** ** What the last hash commits to *)

Section Commit.
Context (toHex_inj : forall a b, toHex a = toHex b -> a = b).

Lemma hash_input_inj e1 e2 :
  storable e1 = true -> storable e2 = true ->
  hash_input collate e1 = hash_input collate e2 -> same_base collate e1 e2.
Proof.
  intros H1 H2 Heq%utf8_inj. apply csort_base.
  destruct (base_value_ok e1 H1) as [Hw1 Hc1], (base_value_ok e2 H2) as [Hw2 Hc2].
  apply (serialize_inj collate _ _ (JSON_stringify (csort collate (VObj (base_fields e1))))); [done..| |].
  - by apply serialize_csort.
  - rewrite Heq. by apply serialize_csort.
Qed.

(** Own hash, as [linked] states it for each entry. *)
Definition hashed (e : StoredAuditEntry) : Prop :=
  storable e = true /\ ae_hash e = toHex (sha256 (hash_input collate e)).

Lemma hashed_same_base ins e1 e2 :
  collision_free sha256 ins -> hash_input collate e1 ∈ ins -> hash_input collate e2 ∈ ins ->
  hashed e1 -> hashed e2 -> ae_hash e1 = ae_hash e2 -> same_base collate e1 e2.
Proof using toHex_inj.
  intros Hcf Hi1 Hi2 [Hs1 Hh1] [Hs2 Hh2] Heq. apply hash_input_inj; [done..|].
  apply Hcf; [done..|]. apply toHex_inj. congruence.
Qed.

Lemma linked_hashed prev es : linked prev es -> Forall hashed es.
Proof.
  revert prev. induction es as [|e es IH]; intros prev; simpl; [done|].
  intros (_ & Hs & Hh & Hl). constructor; [done|]. by eapply IH.
Qed.

Lemma linked_commits es1 es2 :
  linked GENESIS_PREV_HASH es1 -> linked GENESIS_PREV_HASH es2 ->
  collision_free sha256 (map (hash_input collate) es1 ++ map (hash_input collate) es2) ->
  Forall (fun e => ae_hash e <> GENESIS_PREV_HASH) (es1 ++ es2) ->
  tip_hash GENESIS_PREV_HASH es1 = tip_hash GENESIS_PREV_HASH es2 ->
  Forall2 (same_entry collate) es1 es2.
Proof using toHex_inj.
  intros Hl1 Hl2. assert (HF1 := linked_hashed _ _ Hl1). assert (HF2 := linked_hashed _ _ Hl2).
  revert es2 Hl1 Hl2 HF1 HF2. unfold tip_hash.
  induction es1 as [|e1 es1 IH] using rev_ind; intros es2 Hl1 Hl2 HF1 HF2 Hcf Hg Htip;
    destruct es2 as [|e2 es2 _] using rev_ind; rewrite ?last_snoc in Htip; simpl in Htip.
  - constructor.
  - rewrite !Forall_app, Forall_singleton in Hg. destruct Hg as (_ & _ & Hg). congruence.
  - rewrite app_nil_r, Forall_app, Forall_singleton in Hg. destruct Hg as [_ Hg]. congruence.
  - rewrite Forall_app, Forall_singleton in HF1, HF2. destruct HF1 as [HF1 Hh1], HF2 as [HF2 Hh2].
    assert (same_base collate e1 e2) as Hb.
    { eapply hashed_same_base; [exact Hcf| | |done|done|done]; rewrite !map_app; set_solver. }
    apply linked_app in Hl1 as [Hl1 [Hp1 _]], Hl2 as [Hl2 [Hp2 _]].
    apply Forall2_app; [|by constructor]. apply IH; try done.
    + eapply collision_free_sub; [|exact Hcf]. rewrite !map_app. set_solver.
    + rewrite !Forall_app in Hg. rewrite Forall_app. naive_solver.
    + destruct Hb as (_ & _ & _ & _ & _ & _ & _ & Hprev & _). unfold tip_hash in *. congruence.
Qed.

Lemma verify_Ok_linked d n :
  db_wf d -> Forall (fun e => storable e = true) (view d) ->
  verifyAuditChain collate sha256 toHex None None d = Ok (ChainOk n) ->
  linked GENESIS_PREV_HASH (view d).
Proof.
  intros Hwf Hall. unfold verifyAuditChain. rewrite iterate_view by done.
  rewrite bfilter_all by (apply Forall_forall; done).
  destruct (linked_or_broken GENESIS_PREV_HASH (view d) Hall)
    as [Hl|(es & e & rest & ex & ac & Hv & Hl & Hs & Hb)]; [done|].
  rewrite Hv, (verify_from_broken _ _ _ _ _ Hl Hs _ _ Hb). done.
Qed.

(** The last hash commits to the whole log: two databases that verify and
    whose newest entries carry the same hash hold the same entries, one by one,
    so a rewritten, reordered or truncated log that verifies has another last
    hash (up to a SHA-256 collision among the hashed texts). *)
Theorem last_hash_commits_to_log d1 d2 n1 n2 :
  db_wf d1 -> db_wf d2 ->
  Forall (fun e => storable e = true) (view d1) -> Forall (fun e => storable e = true) (view d2) ->
  verifyAuditChain collate sha256 toHex None None d1 = Ok (ChainOk n1) ->
  verifyAuditChain collate sha256 toHex None None d2 = Ok (ChainOk n2) ->
  ae_hash <$> db_latest d1 = ae_hash <$> db_latest d2 ->
  collision_free sha256 (map (hash_input collate) (view d1) ++ map (hash_input collate) (view d2)) ->
  Forall (fun e => ae_hash e <> GENESIS_PREV_HASH) (view d1 ++ view d2) ->
  Forall2 (same_entry collate) (view d1) (view d2).
Proof using toHex_inj.
  intros Hwf1 Hwf2 Hs1 Hs2 Hv1 Hv2 Hlast Hcf Hg. rewrite !latest_view in Hlast by done.
  apply linked_commits; try done; [by eapply verify_Ok_linked..|]. unfold tip_hash. by rewrite Hlast.
Qed.

End Commit.

(** ** Export *)

Lemma canonical_parse e s :
  storable e = true -> canonicalJson collate (entry_value e) = Ok s ->
  JSON_parse s = Some (csort collate (entry_value e)).
Proof.
  intros Hs Heq. rewrite canonical_entry in Heq by done. injection Heq as <-.
  destruct (entry_value_ok e Hs) as [Hw Hc]. apply json_plain. by apply csort_plain.
Qed.

Definition newline : string := String (ascii_of_nat 10) "".

(** The line of one entry. *)
Definition exported (e : StoredAuditEntry) : string :=
  JSON_stringify (csort collate (entry_value e)) +:+ newline.

Lemma export_fold lines es :
  Forall (fun e => storable e = true) es ->
  foldM (fun lines e => rbind (canonicalJson collate (entry_value e)) (fun l =>
           Ok (lines ++ [l +:+ newline])%list)) lines es = Ok (lines ++ map exported es)%list :> result audit_error (list string).
Proof.
  intros Hall. revert lines. induction Hall as [|e es Hs _ IH]; intros lines; simpl.
  - by rewrite app_nil_r.
  - rewrite canonical_entry by done. simpl. rewrite IH, <- app_assoc. done.
Qed.

(** An export can be read back: it writes one line per entry of the
    requested range that the predicate keeps, in order, and counts them; each
    line is a JSON text, ended by a newline, from which the entry it was written
    for can be recovered, and no other stored entry has that text. *)
Theorem export_reads_back fromSeq toSeq include d
    (es := match include with
           | Some f => List.filter f (List.filter (in_bounds fromSeq toSeq) (view d))
           | None => List.filter (in_bounds fromSeq toSeq) (view d)
           end) :
  db_wf d -> Forall (fun e => storable e = true) (view d) ->
  exists lines, exportAudit collate fromSeq toSeq include d = Ok (lines, length es) /\
    Forall2 (fun l e => exists text, l = text +:+ newline /\
                        JSON_parse text = Some (csort collate (entry_value e)) /\
                        forall e', storable e' = true ->
                          canonicalJson collate (entry_value e') = Ok text -> same_entry collate e' e)
      lines es.
Proof.
  intros Hwf Hall. unfold exportAudit. rewrite iterate_view by done.
  change (match include with Some f => _ | None => _ end) with es.
  assert (Forall (fun e => storable e = true) es) as Hes.
  { eapply Forall_forall. intros e He. eapply (proj1 (Forall_forall _ _) Hall).
    subst es. destruct include; rewrite !list_elem_of_In, !filter_In in *; by destruct_and?. }
  fold newline. rewrite export_fold by done. simpl. rewrite length_map.
  eexists. split; [done|]. clear Hall. induction Hes as [|e es' Hs _ IH]; simpl; constructor; [|done].
  exists (JSON_stringify (csort collate (entry_value e))). split; [done|].
  assert (JSON_parse (JSON_stringify (csort collate (entry_value e))) = Some (csort collate (entry_value e)))
    as Hp by by apply (canonical_parse e); [|apply canonical_entry].
  split; [done|]. intros e' Hs' Heq. apply csort_entry.
  apply canonical_parse in Heq; [|done]. congruence.
Qed.
End Props.

(** ** Instances *)

Notation stored_in := (view (AuditDbSpec := table_spec String.compare)).
Notation well_formed := (db_wf (AuditDbSpec := table_spec String.compare)).

Lemma only_appends_id collate sha256 toHex {D} `{AuditDbSpec collate D} : only_appends collate sha256 toHex id.
Proof. intros d Hwf Hc. split; [done|by apply appended_refl]. Qed.

Lemma empty_ok : well_formed [] /\ chain_ok String.compare Log.sha256 Log.toHex (stored_in []).
Proof. repeat constructor. Qed.

Lemma append_all_ok inputs :
  forallb input_storable inputs = true ->
  well_formed (Log.append_all inputs []).2 /\
  chain_ok String.compare Log.sha256 Log.toHex (stored_in (Log.append_all inputs []).2).
Proof.
  intros Hi. destruct (Log.append_all inputs []) as [rs t] eqn:E.
  apply (append_all_extends String.compare Log.sha256 Log.toHex (H0 := table_spec String.compare)) in E as (Hwf & [Hc _] & _); [by split| | | |done]; [apply empty_ok..|].
  intros _ _. apply only_appends_id.
Qed.

Lemma demo_ok : well_formed Log.table /\ chain_ok String.compare Log.sha256 Log.toHex (stored_in Log.table).
Proof. exact (append_all_ok Log.inputs eq_refl). Qed.

Lemma demo_storable : Forall (fun e => storable e = true) (stored_in Log.table).
Proof.
  destruct demo_ok as [_ [Hl _]]. eapply Forall_impl; [by eapply linked_hashed|]. by intros ? [].
Qed.

(** Well-formedness of a table, decided. *)
Definition table_okb (t : Table) : bool :=
  bool_decide (StronglySorted lt (map r_seq t)) &&
  forallb (fun r => bool_decide (1 <= r_seq r)%nat &&
                    match rowToEntry r with Some e => storable e | None => false end) t.

Lemma table_wf_dec t : table_okb t = true -> well_formed t.
Proof.
  unfold table_okb. rewrite andb_true_iff, bool_decide_eq_true, forallb_forall. intros [Hs HF]. split.
  - clear HF. induction t as [|r t IH]; [constructor|]. simpl in Hs.
    apply StronglySorted_cons in Hs as [HF Hs]. constructor; [by apply IH|].
    revert HF. clear. induction t; simpl; [done|]. intros [??]%Forall_cons. constructor; auto.
  - apply Forall_forall. intros r Hr%list_elem_of_In. specialize (HF r Hr).
    apply andb_true_iff in HF as [H1%bool_decide_eq_true H2]. split; [done|].
    destruct (rowToEntry r) as [e|]; [|done]. by exists e.
Qed.

Lemma entries_storable es : forallb storable es = true -> Forall (fun e => storable e = true) es.
Proof. rewrite forallb_forall, Forall_forall. intros Hf e He%list_elem_of_In. by apply Hf. Qed.

(** Another process appends between the two halves of the first attempt. *)
Definition racing (i k : nat) (t : Table) : Table :=
  match k with
  | O => (appendOnce (H := Log.plain_db) String.compare Log.sha256 Log.toHex id
            (Log.input "other.process" 40 None) 0 t).2
  | S _ => t
  end.

Lemma racing_appends i k :
  only_appends (H := Log.plain_db) (H0 := Log.plain_spec String.compare)
    String.compare Log.sha256 Log.toHex (racing i k).
Proof.
  destruct k as [|k]; [|by apply only_appends_id]. intros t Hwf Hc. simpl.
  destruct (appendOnce _ _ _ _ _ _ t) as [r t'] eqn:E.
  apply (appendOnce_extends String.compare Log.sha256 Log.toHex (H := Log.plain_db) (H0 := Log.plain_spec String.compare)) in E; try done.
  - by destruct E as (? & ? & _).
  - apply only_appends_id.
Qed.

Lemma appends_keep_the_chain_witness :
  exists rs t,
    appendAudit_all (H := Log.plain_db) String.compare Log.sha256 Log.toHex 0 racing (fun _ _ => 0%Z)
      Log.inputs [] = (rs, t) /\
    (length t = 6%nat /\ forallb is_ok rs = true) /\
    chain_ok String.compare Log.sha256 Log.toHex (table_view t).
Proof.
  assert (let r := appendAudit_all (H := Log.plain_db) String.compare Log.sha256 Log.toHex 0 racing
                     (fun _ _ => 0%Z) Log.inputs [] in
          length r.2 = 6%nat /\ forallb is_ok r.1 = true) as Hr
    by (vm_compute; split; reflexivity).
  destruct (appendAudit_all _ _ _ _ _ _ _ _) as [rs t] eqn:Heq.
  exists rs, t. split; [reflexivity|]. split; [exact Hr|].
  apply (appends_keep_the_chain String.compare Log.sha256 Log.toHex (H := Log.plain_db)
           (H0 := Log.plain_spec String.compare) 0 racing (fun _ _ => 0%Z) Log.inputs [] rs t).
  - apply empty_ok.
  - apply empty_ok.
  - apply racing_appends.
  - reflexivity.
  - exact Heq.
Defined.

(** A log with one rewritten field. *)
Definition tampered : Table :=
  map (fun r => if decide (r_seq r = 2)%nat
                then mkRow (r_seq r) (r_ts r) (r_actor_json r) "tool.run" (r_target r) (r_decision r)
                       (r_context_json r) (r_metadata_json r) (r_prev_hash r) (r_hash r)
                else r) Log.table.

Lemma verify_reports_first_break_witness :
  exists expected actual,
  verifyAuditChain String.compare Log.sha256 Log.toHex None None tampered =
    Ok (ChainBroken 2 expected actual).
Proof.
  assert (match verifyAuditChain String.compare Log.sha256 Log.toHex None None tampered with
          | Ok (ChainBroken n _ _) => n = 2%nat
          | _ => False
          end) as Hv by (vm_compute; reflexivity).
  destruct (verify_reports_first_break String.compare Log.sha256 Log.toHex tampered)
    as [[_ Hok]|(es & e & rest & expected & actual & _ & _ & _ & Hbroken)].
  - apply (table_wf_dec tampered). vm_compute. reflexivity.
  - apply entries_storable. vm_compute. reflexivity.
  - rewrite Hok in Hv. destruct Hv.
  - rewrite Hbroken in Hv. exists expected, actual. rewrite Hbroken, Hv. reflexivity.
Defined.

(** The same entries, with the keys of the metadata in another order. *)
Definition reordered_inputs : list AuditEntryInput :=
  map (fun i => mkInput (in_actor i) (in_action i) (in_target i) (in_decision i) (in_context i)
                  (reverse <$> in_metadata i) (in_ts i)) Log.inputs.

Definition reordered : Table := (Log.append_all reordered_inputs []).2.

Lemma last_hash_commits_to_log_witness :
  Forall2 (same_entry String.compare) (stored_in Log.table) (stored_in reordered).
Proof.
  apply (last_hash_commits_to_log String.compare Log.sha256 Log.toHex Log.hex_inj Log.table reordered 3 3).
  - exact (proj1 demo_ok).
  - exact (proj1 (append_all_ok reordered_inputs eq_refl)).
  - exact demo_storable.
  - apply entries_storable. vm_compute. reflexivity.
  - vm_compute. reflexivity.
  - vm_compute. reflexivity.
  - vm_compute. reflexivity.
  - apply Toy.no_collision_spec. vm_compute. reflexivity.
  - apply (bool_decide_unpack _). vm_compute. exact I.
Defined.

Lemma export_reads_back_witness :
  exists lines, exportAudit String.compare (Some 2%nat) None None Log.table = Ok (lines, 2%nat) /\
    length lines = 2%nat.
Proof.
  destruct (export_reads_back String.compare (Some 2%nat) None None Log.table) as (lines & Heq & HF).
  - exact (proj1 demo_ok).
  - exact demo_storable.
  - apply Forall2_length in HF. exists lines. split; [rewrite Heq|rewrite HF]; vm_compute; reflexivity.
Defined.
