(* ===== verification/PruneProps.v ===== *)
(** * Pruning and anchors

    Pruning removes exactly the expired prefix and leaves a chain that
    verifies; the anchored check of the Merkle layer accepts a log that was only
    appended to and refuses one that was pruned. *)

From stdpp Require Import sorting.
From S2P Require Import Prelude JsValue Json Canonical AuditChain AuditFacts Errors Merkle MerkleFacts MerkleHash MerkleProps AuditBinding AuditProps.

Local Open Scope string_scope.

Section Prune.
Context (collate : string -> string -> comparison) (sha256 : list Z -> list Z) (toHex : list Z -> string).
Context {D : Type} `{AuditDbSpec collate D}.
Context (toHex_inj : forall a b, toHex a = toHex b -> a = b).
Notation chain_ok := (chain_ok collate sha256 toHex).
Notation linked := (linked collate sha256 toHex).
Notation hashed := (hashed collate sha256 toHex).
Notation only_appends := (only_appends collate sha256 toHex).

(** ** Pruning *)

Definition rehash (prev : string) (e : StoredAuditEntry) : StoredAuditEntry :=
  let base := mkEntry (ae_seq e) (ae_ts e) (ae_actor e) (ae_action e) (ae_target e) (ae_decision e)
    (ae_context e) (ae_metadata e) prev "" in
  with_hash base (toHex (sha256 (hash_input collate base))).

(** The surviving entries, linked anew from [prev]. *)
Fixpoint reroot (prev : string) (es : list StoredAuditEntry) : list StoredAuditEntry :=
  match es with
  | [] => []
  | e :: es' => rehash prev e :: reroot (ae_hash (rehash prev e)) es'
  end.

Lemma withRehashedChain_rehash e prev :
  storable e = true -> withRehashedChain collate sha256 toHex e prev = Ok (rehash prev e).
Proof. intros Hs. unfold withRehashedChain. by rewrite hash_of_storable. Qed.

Lemma reroot_app prev es1 es2 :
  reroot prev (es1 ++ es2) = (reroot prev es1 ++ reroot (tip_hash prev (reroot prev es1)) es2)%list.
Proof.
  revert prev. induction es1 as [|e es1 IH]; intros prev; [done|]. cbn [app reroot]. rewrite IH.
  cbn [app]. do 3 f_equal. unfold tip_hash. rewrite last_cons. by destruct (last (reroot _ es1)).
Qed.

Lemma reroot_seqs prev es : map ae_seq (reroot prev es) = map ae_seq es.
Proof. revert prev. induction es as [|e es IH]; intros prev; [done|]. cbn [reroot map]. by rewrite IH. Qed.

Lemma rehash_hashed prev e : storable e = true -> hashed (rehash prev e).
Proof. done. Qed.

Lemma reroot_linked prev es : Forall (fun e => storable e = true) es -> linked prev (reroot prev es).
Proof.
  intros Hall. revert prev. induction Hall as [|e es Hs _ IH]; intros prev; [done|].
  cbn [reroot AuditFacts.linked]. by split_and!.
Qed.

Lemma consecutive_seqs es es' :
  map ae_seq es = map ae_seq es' -> consecutive es -> consecutive es'.
Proof.
  revert es'. induction es as [|e1 [|e2 es] IH]; intros [|e1' [|e2' es']] Heq; try done.
  injection Heq as H1 H2 H3. intros [Hc1 Hc2]. split; [congruence|].
  apply IH; [|done]. cbn [map]. by rewrite H2, H3.
Qed.

Lemma consecutive_drop k es : consecutive es -> consecutive (drop k es).
Proof.
  revert es. induction k as [|k IH]; intros [|e1 [|e2 es]]; try done; [by destruct k|].
  intros [_ Hc]. apply (IH (e2 :: es) Hc).
Qed.

(** The loop invariant: the front of the log is rewritten, the rest is as it
    was; every entry carries its own hash, computed from a text in [ins]. *)
Definition rewriting (ins : list (list Z)) (front todo : list StoredAuditEntry) (d : D) : Prop :=
  db_wf d /\ view d = (front ++ todo)%list /\
  Forall (fun e => hashed e /\ hash_input collate e ∈ ins) (front ++ todo).

Lemma replace_one ins front e todo prev d :
  collision_free sha256 ins -> rewriting ins front (e :: todo) d ->
  hash_input collate (rehash prev e) ∈ ins ->
  exists d', db_replaceEntry (rehash prev e) d = Ok d' /\ rewriting ins (front ++ [rehash prev e]) todo d'.
Proof using toHex_inj.
  intros Hcf (Hwf & Hview & HF) Hin. pose proof HF as HF'.
  rewrite Forall_app, Forall_cons in HF. destruct HF as (HF1 & [[Hs Hh] Hin0] & HF2).
  assert (is_ok (db_replaceEntry (rehash prev e) d) = true) as Hok.
  { apply replace_fresh; [done|]. intros x Hx Heq. rewrite Hview in Hx.
    destruct (proj1 (Forall_forall _ _) HF' x Hx) as [Hhx Hinx].
    assert (same_base collate x (rehash prev e)) as Hb by by eapply hashed_same_base.
    apply Hb. }
  destruct (db_replaceEntry _ d) as [d'|] eqn:Hr; [|done]. exists d'. split; [done|].
  destruct (replace_Ok _ _ _ Hwf Hr) as [Hwf' Hview']. split; [done|].
  pose proof (view_sorted d Hwf) as Hsort. rewrite Hview in Hsort, Hview'.
  apply StronglySorted_app in Hsort as (Hsep & _ & [He _]%StronglySorted_cons).
  assert (view d' = (front ++ rehash prev e :: todo)%list) as ->.
  { rewrite Hview', map_app. cbn [map]. rewrite decide_True by done. f_equal; [|f_equal].
    - rewrite <- map_id. apply map_ext_in. intros x Hx%list_elem_of_In.
      rewrite decide_False; [done|]. pose proof (Hsep x e Hx (list_elem_of_here _ _)) as Hlt.
      unfold by_seq in Hlt. simpl. lia.
    - rewrite <- map_id. apply map_ext_in. intros x Hx%list_elem_of_In.
      rewrite decide_False; [done|]. pose proof (proj1 (Forall_forall _ _) He x Hx) as Hlt.
      unfold by_seq in Hlt. simpl. lia. }
  split; [by rewrite <- app_assoc|]. rewrite <- app_assoc. cbn [app].
  rewrite Forall_app, Forall_cons. by split_and!.
Qed.

Definition first_of {A} (a b : option A) : option A :=
  match a with Some x => Some x | None => b end.

Lemma rewrite_batch_ok ins front batch todo prev first d :
  collision_free sha256 ins -> rewriting ins front (batch ++ todo) d ->
  Forall (fun e => hash_input collate e ∈ ins) (reroot prev batch) ->
  exists d', rewrite_batch collate sha256 toHex batch prev first d =
      Ok (tip_hash prev (reroot prev batch), first_of first (head (reroot prev batch)), d') /\
    rewriting ins (front ++ reroot prev batch) todo d'.
Proof using toHex_inj.
  intros Hcf. revert front prev first d. induction batch as [|e batch IH]; intros front prev first d Hrw Hins.
  - exists d. cbn [rewrite_batch reroot]. rewrite app_nil_r. split; [|done]. by destruct first.
  - cbn [reroot] in Hins. apply Forall_cons in Hins as [Hin Hins].
    cbn [rewrite_batch app]. destruct Hrw as (Hwf & Hview & HF).
    assert (storable e = true) as Hs.
    { cbn [app] in HF. rewrite Forall_app, Forall_cons in HF. apply HF. }
    rewrite withRehashedChain_rehash by done. cbn [rbind].
    destruct (replace_one ins front e (batch ++ todo) prev d Hcf) as (d1 & -> & Hrw1); [done|done|].
    cbn [rbind]. destruct (IH _ (ae_hash (rehash prev e)) (Some (default (rehash prev e) first)) d1 Hrw1 Hins)
      as (d2 & -> & Hrw2).
    exists d2. split.
    + assert (tip_hash prev (reroot prev (e :: batch)) =
              tip_hash (ae_hash (rehash prev e)) (reroot (ae_hash (rehash prev e)) batch)) as ->.
      { unfold tip_hash. cbn [reroot]. rewrite last_cons. by destruct (last (reroot _ batch)). }
      by destruct first.
    + cbn [reroot]. by rewrite <- app_assoc in Hrw2.
Qed.

Lemma Forall_seqs (P : nat -> Prop) es es' :
  map ae_seq es = map ae_seq es' -> Forall (fun e => P (ae_seq e)) es -> Forall (fun e => P (ae_seq e)) es'.
Proof.
  revert es'. induction es as [|e es IH]; intros [|e' es'] Heq HF; try done.
  injection Heq as He Heq. apply Forall_cons in HF as [H1 H2]. constructor; [by rewrite <- He|by apply IH].
Qed.

(** The entries not yet rewritten are those from [fromSeq] on. *)
Lemma rewriting_iterate ins front todo fromSeq d :
  rewriting ins front todo d ->
  Forall (fun e => ae_seq e < fromSeq)%nat front -> Forall (fun e => fromSeq <= ae_seq e)%nat todo ->
  db_iterate (Some fromSeq) None d = todo.
Proof.
  intros (Hwf & Hview & _) H1 H2. rewrite iterate_view, Hview, List.filter_app by done.
  rewrite bfilter_none, bfilter_all; [done| |].
  - eapply Forall_impl; [exact H2|]. intros e He. unfold in_bounds. by rewrite bool_decide_true.
  - eapply Forall_impl; [exact H1|]. intros e He. unfold in_bounds. rewrite bool_decide_false; [done|].
    simpl in He. lia.
Qed.

Lemma rewrite_all_ok ins fuel front todo prev first fromSeq d :
  collision_free sha256 ins -> rewriting ins front todo d -> (length todo < fuel)%nat ->
  Forall (fun e => ae_seq e < fromSeq)%nat front -> Forall (fun e => fromSeq <= ae_seq e)%nat todo ->
  Forall (fun e => hash_input collate e ∈ ins) (reroot prev todo) ->
  exists d', rewrite_all collate sha256 toHex fuel fromSeq prev first d =
      Ok (first_of first (head (reroot prev todo)), d') /\
    rewriting ins (front ++ reroot prev todo) [] d'.
Proof using toHex_inj.
  intros Hcf. revert front todo prev first fromSeq d.
  induction fuel as [|fuel IH]; intros front todo prev first fromSeq d Hrw Hfuel Hlo Hhi Hins; [lia|].
  cbn [rewrite_all]. rewrite (rewriting_iterate _ _ _ _ _ Hrw Hlo Hhi).
  destruct (last (take REWRITE_BATCH_SIZE todo)) as [l|] eqn:Hlast.
  2: { apply last_None in Hlast. assert (todo = []) as -> by by destruct todo.
       exists d. split; [by destruct first|]. cbn [reroot]. by rewrite app_nil_r. }
  set (batch := take REWRITE_BATCH_SIZE todo) in *. set (rest := drop REWRITE_BATCH_SIZE todo).
  assert (todo = (batch ++ rest)%list) as Htodo by (symmetry; apply take_drop). clearbody batch rest.
  rewrite Htodo, reroot_app in Hins. apply Forall_app in Hins as [Hins1 Hins2].
  pose proof Hrw as Hrw'. rewrite Htodo in Hrw'.
  destruct (rewrite_batch_ok ins front batch rest prev first d Hcf Hrw' Hins1) as (d1 & -> & Hrw1).
  cbn [rbind]. assert (0 < length batch)%nat as Hb by (apply last_Some in Hlast as [? ->]; rewrite length_app; simpl; lia).
  assert (StronglySorted by_seq (batch ++ rest)) as Hsort.
  { destruct Hrw' as (Hwf & Hv & _). pose proof (view_sorted d Hwf) as Hs. rewrite Hv in Hs.
    by apply StronglySorted_app_1_r in Hs. }
  destruct (IH (front ++ reroot prev batch)%list rest (tip_hash prev (reroot prev batch))
              (first_of first (head (reroot prev batch))) (S (ae_seq l)) d1) as (d2 & -> & Hrw2).
  - done.
  - apply (f_equal length) in Htodo. rewrite length_app in Htodo. lia.
  - assert (Forall (fun x => ae_seq x <= ae_seq l)%nat batch) as Hle.
    { apply Forall_forall. intros x Hx. eapply sorted_last; [|exact Hlast|done].
      by eapply StronglySorted_app_1_l. }
    assert (fromSeq <= ae_seq l)%nat as Hl.
    { apply (proj1 (Forall_forall _ _) Hhi l). rewrite Htodo. apply elem_of_app. left.
      by apply last_Some_elem_of. }
    apply Forall_app. split; [eapply Forall_impl; [exact Hlo|simpl; lia]|].
    apply (Forall_seqs (fun n => n < S (ae_seq l))%nat batch); [by rewrite reroot_seqs|].
    eapply Forall_impl; [exact Hle|simpl; lia].
  - apply Forall_forall. intros x Hx.
    pose proof (StronglySorted_app_1_elem_of _ _ _ l x Hsort (last_Some_elem_of _ _ Hlast) Hx) as Hlt.
    unfold by_seq in Hlt. lia.
  - done.
  - exists d2. rewrite Htodo, reroot_app. split; [|by rewrite app_assoc].
    do 2 f_equal. destruct first; [done|]. destruct batch; [simpl in Hb; lia|done].
Qed.

(** How many leading entries a prune may delete: those before the cutoff, and
    no more than leaves [retain]. *)
Fixpoint expired_run (before : Z) (es : list StoredAuditEntry) : nat :=
  match es with
  | [] => 0
  | e :: es' => if (before <=? ae_ts e)%Z then 0 else S (expired_run before es')
  end.

Definition prunable (before : Z) (retain : nat) (es : list StoredAuditEntry) : nat :=
  Nat.min (expired_run before es) (length es - retain).

Lemma last_qualifying_spec total walked before retain found es :
  total = (walked + length es)%nat ->
  last_qualifying total walked before retain found es =
    match prunable before retain es with
    | O => found
    | S j => ae_seq <$> es !! j
    end.
Proof.
  revert walked found. unfold prunable. induction es as [|e es IH]; intros walked found Ht; [done|].
  cbn [last_qualifying expired_run length]. destruct (before <=? ae_ts e)%Z; [done|].
  simpl in Ht. case_decide as Hlt.
  - replace (S (length es) - retain)%nat with 0%nat by lia. by rewrite Nat.min_0_r.
  - rewrite IH by lia. replace (S (length es) - retain)%nat with (S (length es - retain)) by lia.
    simpl. by destruct (Nat.min _ _).
Qed.

Lemma sorted_delete es j e :
  StronglySorted by_seq es -> es !! j = Some e ->
  List.filter (fun x => negb (bool_decide (ae_seq x <= ae_seq e)%nat)) es = drop (S j) es /\
  length (List.filter (fun x => bool_decide (ae_seq x <= ae_seq e)%nat) es) = S j.
Proof.
  intros Hs Hj. pose proof (lookup_lt_Some _ _ _ Hj).
  assert (last (take (S j) es) = Some e) as Hlast by by rewrite (take_S_r _ _ _ Hj), last_snoc.
  assert (length (take (S j) es) = S j) as Hlen by (rewrite length_take; lia).
  pose proof (take_drop (S j) es) as Htd. rewrite <- Htd in Hs. rewrite <- Htd at 1 3.
  set (l := take (S j) es) in *. set (r := drop (S j) es) in *.
  assert (Forall (fun x => ae_seq x <= ae_seq e)%nat l) as Hle.
  { apply Forall_forall. intros x Hx. eapply sorted_last; [by eapply StronglySorted_app_1_l|done..]. }
  assert (Forall (fun x => ~ ae_seq x <= ae_seq e)%nat r) as Hgt.
  { apply Forall_forall. intros x Hx. apply Nat.lt_nge.
    by apply (StronglySorted_app_1_elem_of _ _ _ e x Hs (last_Some_elem_of _ _ Hlast)). }
  rewrite !List.filter_app. split.
  - rewrite bfilter_none, bfilter_all; [done| |]; (eapply Forall_impl; [eassumption|]);
      intros x Hx; [by rewrite bool_decide_false|by rewrite bool_decide_true].
  - rewrite bfilter_all, bfilter_none, app_nil_r; [done| |]; (eapply Forall_impl; [eassumption|]);
      intros x Hx; [by rewrite bool_decide_false|by rewrite bool_decide_true].
Qed.

(** The rewrite loop, run on what the deletion left. *)
Lemma reroot_database es k d1 :
  collision_free sha256 (map (hash_input collate) (es ++ reroot GENESIS_PREV_HASH (drop k es))) ->
  db_wf d1 -> linked GENESIS_PREV_HASH es -> view d1 = drop k es ->
  exists d2, rewrite_all collate sha256 toHex (S (db_count d1)) 0 GENESIS_PREV_HASH None d1 =
      Ok (head (reroot GENESIS_PREV_HASH (drop k es)), d2) /\
    db_wf d2 /\ view d2 = reroot GENESIS_PREV_HASH (drop k es).
Proof using toHex_inj.
  intros Hcf Hwf Hl Hview. rewrite map_app in Hcf.
  destruct (rewrite_all_ok _ (S (db_count d1)) [] (drop k es) GENESIS_PREV_HASH None 0 d1 Hcf)
    as (d2 & -> & (Hwf2 & Hv & _)).
  - split_and!; [done|done|]. apply Forall_drop, Forall_forall. intros e He. split.
    + apply linked_hashed in Hl. by apply (proj1 (Forall_forall _ _) Hl).
    + apply elem_of_app. left. apply list_elem_of_fmap. by exists e.
  - rewrite count_view, Hview by done. lia.
  - constructor.
  - apply Forall_forall. intros. lia.
  - apply Forall_forall. intros e He. apply elem_of_app. right. apply list_elem_of_fmap. by exists e.
  - exists d2. split; [done|]. split; [done|]. by rewrite Hv, app_nil_r.
Qed.

Lemma prune_ok before retainOpt d
    (retain := Z.to_nat (Z.max 1 (default 1 retainOpt)%Z)) (k := prunable before retain (view d)) :
  db_wf d -> chain_ok (view d) -> db_transact (D := D) = true ->
  collision_free sha256 (map (hash_input collate)
    (view d ++ reroot GENESIS_PREV_HASH (drop k (view d)))) ->
  exists d',
    pruneAudit collate sha256 toHex (Some before) retainOpt d =
      (Ok (mkPrune k (if decide (k = 0)%nat then None else ae_seq <$> view d !! k)), d') /\
    view d' = (if decide (k = 0)%nat then view d else reroot GENESIS_PREV_HASH (drop k (view d))) /\
    db_wf d' /\ chain_ok (view d') /\ (k < length (view d) \/ view d = [])%nat.
Proof using toHex_inj.
  intros Hwf [Hl Hc] Ht Hcf. unfold pruneAudit. rewrite Ht, count_view by done. fold retain.
  assert (1 <= retain)%nat as Hret by lia.
  destruct (decide (length (view d) = 0)%nat) as [Hz|Hz].
  { apply nil_length_inv in Hz. exists d. unfold k. rewrite Hz in *. simpl.
    split; [done|]. split; [done|]. split; [done|]. split; [done|by right]. }
  rewrite iterate_view, bfilter_all by (done || (apply Forall_forall; done)).
  rewrite last_qualifying_spec by done. fold k.
  assert (k < length (view d))%nat as Hk by (unfold k, prunable; lia).
  destruct k as [|j] eqn:Ek.
  { exists d. split_and!; try done. by left. }
  destruct (lookup_lt_is_Some_2 (view d) j ltac:(lia)) as [e He]. rewrite He. simpl fmap.
  pose proof (view_sorted d Hwf) as Hsort. destruct (delete_view d (ae_seq e) Hwf) as (Hwf1 & Hview1 & Hn).
  destruct (db_deleteUpTo (ae_seq e) d) as [removed d1]. cbn [fst snd] in *.
  destruct (sorted_delete _ _ _ Hsort He) as [Hfil Hcnt]. rewrite Hfil in Hview1. rewrite Hcnt in Hn.
  destruct (reroot_database _ _ d1 Hcf Hwf1 Hl Hview1) as (d2 & -> & Hwf2 & Hview2).
  exists d2. rewrite Hn, (decide_False (P := S j = 0%nat)) by done. split.
  - do 3 f_equal. rewrite <- Hview1. destruct (view d1) as [|x xs] eqn:E.
    + apply (f_equal length) in Hview1. rewrite length_drop in Hview1. simpl in Hview1. lia.
    + simpl. rewrite <- (Nat.add_0_r (S j)), <- lookup_drop, <- Hview1. done.
  - split; [done|]. split; [done|]. split; [|by left]. rewrite Hview2. split.
    + apply reroot_linked. apply Forall_drop. eapply Forall_impl; [by eapply linked_hashed|]. by intros ? [].
    + eapply consecutive_seqs; [symmetry; apply reroot_seqs|]. by apply consecutive_drop.
Qed.

(** A prune removes exactly the expired prefix and leaves a chain: of a log
    whose chain is intact it deletes the longest leading run of entries older
    than the cutoff that still leaves [retain] of them (at least one); the
    survivors keep their contents and are linked anew from the genesis hash, in
    one pass whatever the batch boundaries; nothing else changes, and the chain
    of what is left verifies. *)
Theorem prune_removes_expired_prefix before retainOpt d
    (retain := Z.to_nat (Z.max 1 (default 1 retainOpt)%Z)) (k := prunable before retain (view d)) :
  db_wf d -> chain_ok (view d) -> db_transact (D := D) = true ->
  collision_free sha256 (map (hash_input collate)
    (view d ++ reroot GENESIS_PREV_HASH (drop k (view d)))) ->
  exists d',
    pruneAudit collate sha256 toHex (Some before) retainOpt d =
      (Ok (mkPrune k (if decide (k = 0)%nat then None else ae_seq <$> view d !! k)), d') /\
    view d' = (if decide (k = 0)%nat then view d else reroot GENESIS_PREV_HASH (drop k (view d))) /\
    chain_ok (view d') /\ (k < length (view d) \/ view d = [])%nat.
Proof using toHex_inj.
  intros Hwf Hc Ht Hcf. destruct (prune_ok before retainOpt d Hwf Hc Ht Hcf) as (d' & ? & ? & _ & ? & ?).
  by exists d'.
Qed.

(** ** Anchors *)

Section Anchors.
Context (ofHex : string -> list Z).
Context (hex_roundtrip : forall b, ofHex (toHex b) = b).

(** The bytes that [leafHash] hashes for an entry. *)
Definition entry_bytes (e : StoredAuditEntry) : list Z :=
  match canonicalJson collate (entry_value e) with Ok s => utf8 s | Err _ => [] end.

Lemma entry_bytes_inj e1 e2 :
  storable e1 = true -> storable e2 = true -> entry_bytes e1 = entry_bytes e2 -> same_entry collate e1 e2.
Proof.
  unfold entry_bytes. intros H1 H2. rewrite !canonical_entry by done. intros Heq%utf8_inj. apply csort_entry.
  destruct (entry_value_ok e1 H1) as [Hw1 Hc1], (entry_value_ok e2 H2) as [Hw2 Hc2].
  apply (serialize_inj collate _ _ (JSON_stringify (csort collate (entry_value e1)))); [done..| |].
  - by apply serialize_csort.
  - rewrite Heq. by apply serialize_csort.
Qed.

Notation treeHead := (computeAuditTreeHead sha256 entry_bytes ae_seq toHex).
Notation sign := (signAuditCheckpoint sha256 entry_bytes ae_seq toHex).
Notation check := (verifyAuditAgainstCheckpoint sha256 entry_bytes ae_seq toHex ofHex).

(** Appending never invalidates an anchor: a checkpoint signed over the log
    still checks [ok] after any sequence of appends, by this process and by
    others. *)
Theorem appends_keep_anchors cryptoSign pub signature_ok key writer at_ pem i worlds clocks inputs d rs d'
    (cp := sign cryptoSign pub (view d) key writer at_) :
  db_wf d -> chain_ok (view d) -> (forall i k, only_appends (worlds i k)) ->
  forallb input_storable inputs = true ->
  appendAudit_all collate sha256 toHex i worlds clocks inputs d = (rs, d') ->
  (Z.of_nat (length (view d')) < 2 ^ 31)%Z -> signature_ok cp pem = true ->
  check signature_ok (view d') cp pem = Ok (AnchorOk (treeHead (view d') None)).
Proof using hex_roundtrip.
  intros Hwf Hc Hw Hi Heq Hsz Hsig.
  destruct (append_all_extends _ _ _ _ _ _ _ _ _ _ Hwf Hc Hw Hi Heq) as (Hwf' & [_ (more & Hm & _)] & _).
  assert (length (view d) <= length (view d'))%nat as Hle by (rewrite Hm, length_app; lia).
  unfold verifyAuditAgainstCheckpoint. rewrite Hsig. subst cp. cbn [sg_head signAuditCheckpoint].
  rewrite !head_size. simpl iterate. rewrite (proj2 (Z.ltb_ge _ _)) by lia.
  rewrite proveAuditConsistency_live by (done || by apply view_sorted). cbn [rbind].
  rewrite extension_verifies; try done. apply prefix_leaves. rewrite Hm, map_app. by eexists.
Qed.

(** A prune voids every anchor: once a prune has deleted entries, a
    checkpoint signed over the log before it is refused as [inconsistent-log],
    however many entries are appended afterwards. *)
Theorem prune_voids_anchors cryptoSign pub signature_ok key writer at_ pem before retainOpt
    i worlds clocks inputs d r d1 rs d2 (cp := sign cryptoSign pub (view d) key writer at_) :
  (forall b, length (sha256 b) = 32%nat) ->
  db_wf d -> chain_ok (view d) -> db_transact (D := D) = true ->
  collision_free sha256 (map (hash_input collate) (view d ++ reroot GENESIS_PREV_HASH
    (drop (prunable before (Z.to_nat (Z.max 1 (default 1 retainOpt)%Z)) (view d)) (view d)))) ->
  pruneAudit collate sha256 toHex (Some before) retainOpt d = (Ok r, d1) -> pr_deleted r <> 0%nat ->
  (forall i k, only_appends (worlds i k)) -> forallb input_storable inputs = true ->
  appendAudit_all collate sha256 toHex i worlds clocks inputs d1 = (rs, d2) ->
  (Z.of_nat (length (view d2)) < 2 ^ 31)%Z -> signature_ok cp pem = true ->
  (forall proof,
     proveAuditConsistency sha256 entry_bytes ae_seq toHex (view d2) (treeHead (view d) None)
       (treeHead (view d2) None) = Ok proof ->
     collision_free sha256 (log_inputs sha256 entry_bytes (view d) ++
     log_inputs sha256 entry_bytes (view d2) ++
     consistency_inputs sha256 ofHex (treeHead (view d) None) (treeHead (view d2) None) proof)) ->
  check signature_ok (view d2) cp pem = Ok (InconsistentLog (treeHead (view d2) None)).
Proof using hex_roundtrip toHex_inj.
  intros Hlen Hwf Hc Ht Hcf Hp Hdel Hw Hi Heq Hsz Hsig Hcf2.
  destruct (prune_ok before retainOpt d Hwf Hc Ht Hcf) as (d' & Hp' & Hview1 & Hwf1 & Hc1 & Hk).
  rewrite Hp' in Hp. injection Hp as <- ->. simpl in Hdel. rewrite decide_False in Hview1 by done.
  set (k := prunable _ _ _) in *.
  destruct (append_all_extends _ _ _ _ _ _ _ _ _ _ Hwf1 Hc1 Hw Hi Heq) as (Hwf2 & [Hc2 (more & Hm & _)] & _).
  unfold verifyAuditAgainstCheckpoint. rewrite Hsig. subst cp. cbn [sg_head signAuditCheckpoint].
  rewrite !head_size. simpl iterate.
  destruct (Z.ltb_spec (Z.of_nat (length (view d2))) (Z.of_nat (length (view d)))) as [|Hge]; [done|].
  rewrite proveAuditConsistency_live in Hcf2 |- * by (done || lia || by apply view_sorted).
  specialize (Hcf2 _ eq_refl). cbn [rbind].
  destruct (verifyAuditConsistency _ _ _ _ _ _) eqn:Hv; [exfalso|done].
  assert (map entry_bytes (view d) `prefix_of` map entry_bytes (view d2)) as Hpre
    by (eapply leaves_prefix; [exact Hcf2|by eapply verified_leaves]).
  destruct Hk as [Hk|Hk]; [|by apply Hdel; unfold k, prunable; rewrite Hk].
  destruct (lookup_lt_is_Some_2 (view d) 0 ltac:(lia)) as [e0 He0].
  destruct (lookup_lt_is_Some_2 (view d) k Hk) as [ek Hek].
  assert (exists more', view d2 = (rehash GENESIS_PREV_HASH ek :: more')%list) as [more' Hv2].
  { rewrite Hm, Hview1, (drop_S _ _ _ Hek). by eexists. }
  assert (view d = (e0 :: drop 1 (view d))%list) as Hvd by by destruct (view d); simplify_eq/=.
  rewrite Hvd, Hv2 in Hpre. cbn [map] in Hpre. apply prefix_cons_inv_1 in Hpre.
  pose proof (linked_hashed _ _ _ _ _ (proj1 Hc)) as HF. rewrite Forall_lookup in HF.
  apply entry_bytes_inj in Hpre as [Hb _]; [|apply (HF 0%nat _ He0)|apply (HF k _ Hek)].
  pose proof (sorted_lookup _ 0 k e0 ek (view_sorted d Hwf) He0 Hek ltac:(lia)) as Hlt.
  destruct Hb as (Hseq & _). simpl in Hseq. lia.
Qed.
End Anchors.
End Prune.

(** ** Instances *)

Notation toy_head es := (computeAuditTreeHead Log.sha256 (entry_bytes String.compare) ae_seq Log.toHex es None).
Notation toy_sign es := (signAuditCheckpoint Log.sha256 (entry_bytes String.compare) ae_seq Log.toHex
                           (fun _ _ _ k => k) id es "key" "ci" "t").
Notation toy_check := (verifyAuditAgainstCheckpoint Log.sha256 (entry_bytes String.compare) ae_seq Log.toHex
                         Log.ofHex (fun cp pem => bool_decide (sg_publicKeyPem cp = pem))).

(** The entry at 10 is older than the cutoff. *)
Lemma prune_removes_expired_prefix_witness :
  exists t, pruneAudit String.compare Log.sha256 Log.toHex (Some 15%Z) None Log.table =
              (Ok (mkPrune 1 (Some 2%nat)), t) /\
            chain_ok String.compare Log.sha256 Log.toHex (stored_in t).
Proof.
  destruct (prune_removes_expired_prefix String.compare Log.sha256 Log.toHex Log.hex_inj 15 None Log.table)
    as (t & Hp & _ & Hc & _).
  - exact (proj1 demo_ok).
  - exact (proj2 demo_ok).
  - reflexivity.
  - apply Toy.no_collision_spec. vm_compute. reflexivity.
  - exists t. split; [|exact Hc]. rewrite Hp. f_equal.
Defined.

Lemma appends_keep_anchors_witness :
  exists rs t, Log.append_all Log.inputs Log.table = (rs, t) /\
    toy_check (stored_in t) (toy_sign (stored_in Log.table)) "key" = Ok (AnchorOk (toy_head (stored_in t))).
Proof.
  assert (Z.of_nat (length (stored_in (Log.append_all Log.inputs Log.table).2)) < 2 ^ 31)%Z as Hl
    by (vm_compute; reflexivity).
  destruct (Log.append_all Log.inputs Log.table) as [rs t] eqn:Heq. exists rs, t. split; [reflexivity|].
  apply (appends_keep_anchors String.compare Log.sha256 Log.toHex Log.ofHex Log.hex_roundtrip
           (fun _ _ _ k => k) id (fun cp pem => bool_decide (sg_publicKeyPem cp = pem))
           "key" "ci" "t" "key" 0 (fun _ _ => id) (fun _ _ => 0%Z) Log.inputs Log.table rs t).
  - exact (proj1 demo_ok).
  - exact (proj2 demo_ok).
  - intros _ _. apply only_appends_id.
  - reflexivity.
  - exact Heq.
  - exact Hl.
  - reflexivity.
Defined.

(** The log after a prune and two more appends. *)
Definition pruned : Table := (pruneAudit String.compare Log.sha256 Log.toHex (Some 15%Z) None Log.table).2.
Definition grown : list (result audit_error StoredAuditEntry) * Table :=
  Log.append_all (take 2 Log.inputs) pruned.

Lemma Ok_inj {E A} (a b : A) : Ok a = Ok b :> result E A -> a = b.
Proof. by intros [= ->]. Qed.

Lemma prune_voids_anchors_witness :
  toy_check (stored_in grown.2) (toy_sign (stored_in Log.table)) "key" =
    Ok (InconsistentLog (toy_head (stored_in grown.2))).
Proof.
  apply (prune_voids_anchors String.compare Log.sha256 Log.toHex Log.hex_inj Log.ofHex Log.hex_roundtrip
           (fun _ _ _ k => k) id (fun cp pem => bool_decide (sg_publicKeyPem cp = pem))
           "key" "ci" "t" "key" 15 None 0 (fun _ _ => id) (fun _ _ => 0%Z) (take 2 Log.inputs) Log.table
           (mkPrune 1 (Some 2%nat)) pruned grown.1 grown.2).
  - exact Toy.hash_length.
  - exact (proj1 demo_ok).
  - exact (proj2 demo_ok).
  - reflexivity.
  - apply Toy.no_collision_spec. vm_compute. reflexivity.
  - vm_compute. reflexivity.
  - discriminate.
  - intros _ _. apply only_appends_id.
  - reflexivity.
  - vm_compute. reflexivity.
  - vm_compute. reflexivity.
  - reflexivity.
  - intros proof Hp. apply Toy.no_collision_spec.
    assert (Ok (map Log.toHex (consistencyPath Log.sha256 3
              (map (leafHash Log.sha256 (entry_bytes String.compare)) (stored_in grown.2)) true)) = Ok proof)
      as Heq by (rewrite <- Hp; vm_compute; reflexivity).
    rewrite <- (Ok_inj _ _ Heq). vm_compute. reflexivity.
Defined.
