(* ===== verification/Calendar.v ===== *)
(** * JavaScript dates

    The part of [Date] that the schedulers use: time values are integers
    (milliseconds since 1970-01-01 UTC), the UTC getters and [Date.UTC] follow
    the calendar of ECMAScript.  [Date_UTC_civil] and [civil_unique] relate the
    two directions; [month_span] says how long a month lasts.  Time values stay
    within the range of [Date]. *)

From S2P Require Import Prelude.

Local Open Scope Z_scope.

Definition MINUTE_MS : Z := 60000.
Definition HOUR_MS : Z := 3600000.
Definition DAY_MS : Z := 86400000.

(** [DayFromYear]: the day number of the first of January. *)
Definition day_from_year (y : Z) : Z :=
  365 * (y - 1970) + (y - 1969) / 4 - (y - 1901) / 100 + (y - 1601) / 400.

Definition leap (y : Z) : bool :=
  ((y mod 4 =? 0) && negb (y mod 100 =? 0)) || (y mod 400 =? 0).

(** [YearFromTime]: the year whose days include [d]; the estimate is off by at
    most one ([year_of_day_spec]). *)
Definition year_of_day (d : Z) : Z :=
  let y := 1970 + d * 400 / 146097 in
  if day_from_year (y + 1) <=? d then y + 1 else if day_from_year y <=? d then y else y - 1.

(** Days of the year before the first of month [m] (from zero; twelve is the
    length of the year). *)
Definition days_before (l : bool) (m : Z) : Z :=
  let f := if l then 1 else 0 in
  if m <=? 0 then 0 else if m =? 1 then 31 else if m =? 2 then 59 + f else if m =? 3 then 90 + f
  else if m =? 4 then 120 + f else if m =? 5 then 151 + f else if m =? 6 then 181 + f
  else if m =? 7 then 212 + f else if m =? 8 then 243 + f else if m =? 9 then 273 + f
  else if m =? 10 then 304 + f else if m =? 11 then 334 + f else 365 + f.

(** [MonthFromTime], of a day within the year. *)
Definition month_of (l : bool) (n : Z) : Z :=
  let f := if l then 1 else 0 in
  if n <? 31 then 0 else if n <? 59 + f then 1 else if n <? 90 + f then 2 else if n <? 120 + f then 3
  else if n <? 151 + f then 4 else if n <? 181 + f then 5 else if n <? 212 + f then 6
  else if n <? 243 + f then 7 else if n <? 273 + f then 8 else if n <? 304 + f then 9
  else if n <? 334 + f then 10 else 11.

Definition day_in_year (t : Z) : Z := t / DAY_MS - day_from_year (year_of_day (t / DAY_MS)).

Definition getUTCFullYear (t : Z) : Z := year_of_day (t / DAY_MS).
Definition getUTCMonth (t : Z) : Z := month_of (leap (getUTCFullYear t)) (day_in_year t).
Definition getUTCDate (t : Z) : Z :=
  day_in_year t - days_before (leap (getUTCFullYear t)) (getUTCMonth t) + 1.
Definition getUTCDay (t : Z) : Z := (t / DAY_MS + 4) mod 7.
Definition getUTCHours (t : Z) : Z := t / HOUR_MS mod 24.
Definition getUTCMinutes (t : Z) : Z := t / MINUTE_MS mod 60.

(** [MakeDay], with the two-digit years of [Date.UTC]. *)
Definition make_day (y m d : Z) : Z :=
  let ym := y + m / 12 in
  day_from_year ym + days_before (leap ym) (m mod 12) + d - 1.

Definition Date_UTC (y m d h mi : Z) : Z :=
  let y := if (0 <=? y) && (y <=? 99) then 1900 + y else y in
  make_day y m d * DAY_MS + h * HOUR_MS + mi * MINUTE_MS.

(** [setUTCSeconds(0, 0)], [setUTCMinutes(0, 0, 0)] and
    [setUTCHours(0, 0, 0, 0)]. *)
Definition floor_to (u t : Z) : Z := t / u * u.

(** ** The year of a day *)

Ltac div_lia := Z.to_euclidean_division_equations; lia.

Lemma year_length y : day_from_year (y + 1) = day_from_year y + days_before (leap y) 12.
Proof.
  unfold day_from_year, leap, days_before. simpl.
  destruct (Z.eqb_spec (y mod 4) 0), (Z.eqb_spec (y mod 100) 0), (Z.eqb_spec (y mod 400) 0); simpl; div_lia.
Qed.

Lemma day_from_year_mono y y' : y <= y' -> day_from_year y <= day_from_year y'.
Proof. unfold day_from_year. div_lia. Qed.

Lemma year_of_day_spec d : day_from_year (year_of_day d) <= d < day_from_year (year_of_day d + 1).
Proof.
  unfold year_of_day. set (y := 1970 + d * 400 / 146097).
  destruct (Z.leb_spec (day_from_year (y + 1)) d), (Z.leb_spec (day_from_year y) d);
    unfold day_from_year, y in *; div_lia.
Qed.

Lemma year_of_day_unique y d : day_from_year y <= d < day_from_year (y + 1) -> year_of_day d = y.
Proof.
  intros Hd. pose proof (year_of_day_spec d) as Hy.
  destruct (Z.lt_trichotomy (year_of_day d) y) as [Hlt|[->|Hlt]]; [|done|]; exfalso.
  - pose proof (day_from_year_mono (year_of_day d + 1) y ltac:(lia)). lia.
  - pose proof (day_from_year_mono (y + 1) (year_of_day d) ltac:(lia)). lia.
Qed.

(** ** The month of a day *)

Ltac month_cases :=
  repeat match goal with
         | |- context [?a <=? ?b] => destruct (Z.leb_spec a b)
         | |- context [?a <? ?b] => destruct (Z.ltb_spec a b)
         | |- context [?a =? ?b] => destruct (Z.eqb_spec a b)
         end.

Lemma month_of_spec l n :
  0 <= n < days_before l 12 ->
  0 <= month_of l n < 12 /\ days_before l (month_of l n) <= n < days_before l (month_of l n + 1).
Proof.
  intros Hn. unfold month_of.
  destruct l; simpl in *; month_cases; unfold days_before in *; simpl in *; lia.
Qed.

Lemma days_before_mono l m m' : m <= m' -> days_before l m <= days_before l m'.
Proof. intros Hm. unfold days_before. destruct l; month_cases; lia. Qed.

Lemma month_of_unique l m n :
  0 <= m < 12 -> days_before l m <= n < days_before l (m + 1) -> month_of l n = m.
Proof.
  intros Hm Hn. pose proof (days_before_mono l 0 m ltac:(lia)). pose proof (days_before_mono l (m + 1) 12 ltac:(lia)).
  assert (days_before l 0 = 0) as Hzero by done.
  destruct (month_of_spec l n ltac:(lia)) as [Hr Hs].
  destruct (Z.lt_trichotomy (month_of l n) m) as [Hlt|[->|Hlt]]; [|done|]; exfalso.
  - pose proof (days_before_mono l (month_of l n + 1) m ltac:(lia)). lia.
  - pose proof (days_before_mono l (m + 1) (month_of l n) ltac:(lia)). lia.
Qed.

(** The length of a month. *)
Definition month_length (y m : Z) : Z := days_before (leap y) (m + 1) - days_before (leap y) m.

Lemma month_length_bounds y m : 0 <= m < 12 -> 28 <= month_length y m <= 31.
Proof.
  intros Hm. unfold month_length, days_before. destruct (leap y); month_cases; lia.
Qed.

(** ** Days and their dates *)

Definition valid_date (y m d : Z) : Prop := 0 <= m < 12 /\ 1 <= d <= month_length y m.

Lemma date_valid t : valid_date (getUTCFullYear t) (getUTCMonth t) (getUTCDate t).
Proof.
  unfold valid_date, getUTCDate, getUTCMonth, day_in_year, getUTCFullYear, month_length.
  set (D := t / DAY_MS). pose proof (year_of_day_spec D) as Hy. rewrite year_length in Hy.
  destruct (month_of_spec (leap (year_of_day D)) (D - day_from_year (year_of_day D)) ltac:(lia)). lia.
Qed.

Lemma make_day_plain y m d :
  0 <= m < 12 -> make_day y m d = day_from_year y + days_before (leap y) m + d - 1.
Proof. intros Hm. unfold make_day. by rewrite (Z.div_small m), (Z.mod_small m), Z.add_0_r. Qed.

Lemma date_day t : make_day (getUTCFullYear t) (getUTCMonth t) (getUTCDate t) = t / DAY_MS.
Proof.
  destruct (date_valid t) as [Hm _]. rewrite make_day_plain by done. unfold getUTCDate, day_in_year, getUTCFullYear. lia.
Qed.

Lemma make_day_date y m d t :
  valid_date y m d -> t / DAY_MS = make_day y m d ->
  getUTCFullYear t = y /\ getUTCMonth t = m /\ getUTCDate t = d.
Proof.
  intros [Hm Hd] Ht. rewrite make_day_plain in Ht by done.
  unfold month_length in Hd.
  pose proof (days_before_mono (leap y) 0 m ltac:(lia)). pose proof (days_before_mono (leap y) (m + 1) 12 ltac:(lia)).
  assert (days_before (leap y) 0 = 0) as Hz by done.
  assert (getUTCFullYear t = y) as Hy
    by (apply year_of_day_unique; rewrite Ht, year_length; lia).
  assert (day_in_year t = days_before (leap y) m + d - 1) as Hi
    by (unfold day_in_year; fold (getUTCFullYear t); rewrite Hy, Ht; lia).
  assert (getUTCMonth t = m) as Hmo
    by (unfold getUTCMonth; rewrite Hy, Hi; apply month_of_unique; lia).
  split; [done|]. split; [done|]. unfold getUTCDate. rewrite Hy, Hmo, Hi. lia.
Qed.

(** ** Times of day *)

Definition valid_time (h mi : Z) : Prop := 0 <= h < 24 /\ 0 <= mi < 60.

Lemma time_valid t : valid_time (getUTCHours t) (getUTCMinutes t).
Proof. unfold valid_time, getUTCHours, getUTCMinutes. div_lia. Qed.

(** The years after 99 are not abbreviated. *)
Definition plain_year (y : Z) : Prop := y < 0 \/ 100 <= y.

Lemma Date_UTC_plain y m d h mi :
  plain_year y -> Date_UTC y m d h mi = make_day y m d * DAY_MS + h * HOUR_MS + mi * MINUTE_MS.
Proof.
  intros Hy. unfold Date_UTC. destruct (Z.leb_spec 0 y), (Z.leb_spec y 99); simpl; try done.
  unfold plain_year in Hy. lia.
Qed.

(** Reading the fields of a [Date.UTC] gives them back. *)
Lemma Date_UTC_fields y m d h mi (t := Date_UTC y m d h mi) :
  plain_year y -> valid_date y m d -> valid_time h mi ->
  getUTCFullYear t = y /\ getUTCMonth t = m /\ getUTCDate t = d /\
  getUTCHours t = h /\ getUTCMinutes t = mi /\ t mod MINUTE_MS = 0.
Proof.
  intros Hy Hd [Hh Hmi]. subst t. rewrite Date_UTC_plain by done.
  set (D := make_day y m d). set (t := D * DAY_MS + h * HOUR_MS + mi * MINUTE_MS).
  assert (t / DAY_MS = D) as HD by (unfold t, DAY_MS, HOUR_MS, MINUTE_MS; div_lia).
  destruct (make_day_date y m d t Hd HD) as (-> & -> & ->). split_and!; try done.
  - unfold getUTCHours, t, DAY_MS, HOUR_MS, MINUTE_MS. div_lia.
  - unfold getUTCMinutes, t, DAY_MS, HOUR_MS, MINUTE_MS. div_lia.
  - unfold t, DAY_MS, HOUR_MS, MINUTE_MS. div_lia.
Qed.

(** [Date.UTC] of the fields of a time is the start of its minute. *)
Lemma fields_Date_UTC t :
  plain_year (getUTCFullYear t) ->
  Date_UTC (getUTCFullYear t) (getUTCMonth t) (getUTCDate t) (getUTCHours t) (getUTCMinutes t) =
  floor_to MINUTE_MS t.
Proof.
  intros Hy. rewrite Date_UTC_plain, date_day by done.
  unfold getUTCHours, getUTCMinutes, floor_to, DAY_MS, HOUR_MS, MINUTE_MS. div_lia.
Qed.

(** From the epoch on, years are plain. *)
Lemma year_after_epoch t : 0 <= t -> 1970 <= getUTCFullYear t.
Proof.
  intros Ht. unfold getUTCFullYear. assert (0 <= t / DAY_MS) as HD by (unfold DAY_MS; div_lia).
  pose proof (year_of_day_spec (t / DAY_MS)) as Hy.
  destruct (Z.le_gt_cases 1970 (year_of_day (t / DAY_MS))); [done|exfalso].
  pose proof (day_from_year_mono (year_of_day (t / DAY_MS) + 1) 1970 ltac:(lia)).
  assert (day_from_year 1970 = 0) by done. lia.
Qed.

(** ** Equal units have equal fields *)

Lemma same_day_fields t t' :
  t / DAY_MS = t' / DAY_MS ->
  getUTCMonth t = getUTCMonth t' /\ getUTCDate t = getUTCDate t' /\ getUTCDay t = getUTCDay t'.
Proof.
  intros Heq. unfold getUTCDate, getUTCMonth, getUTCDay, day_in_year, getUTCFullYear. by rewrite Heq.
Qed.

(** The first instant of the month after [t]'s: every earlier one that is not
    before [t] is in [t]'s month. *)
Definition next_month (t : Z) : Z :=
  Date_UTC (if getUTCMonth t =? 11 then getUTCFullYear t + 1 else getUTCFullYear t)
    ((getUTCMonth t + 1) mod 12) 1 0 0.

Lemma next_month_day t :
  0 <= t ->
  next_month t = (day_from_year (getUTCFullYear t) +
                  days_before (leap (getUTCFullYear t)) (getUTCMonth t + 1)) * DAY_MS.
Proof.
  intros Ht. pose proof (year_after_epoch t Ht) as Hy. destruct (date_valid t) as [Hm _].
  unfold next_month. rewrite Date_UTC_plain by (unfold plain_year; destruct (_ =? _); lia).
  destruct (Z.eqb_spec (getUTCMonth t) 11) as [->|Hne].
  - change ((11 + 1) mod 12) with 0. rewrite make_day_plain, year_length by done.
    change (11 + 1) with 12. change (days_before _ 0) with 0. lia.
  - rewrite (Z.mod_small (getUTCMonth t + 1)) by lia. rewrite make_day_plain by lia. lia.
Qed.

Lemma month_span t t' :
  0 <= t -> t <= t' < next_month t ->
  getUTCMonth t' = getUTCMonth t /\ getUTCFullYear t' = getUTCFullYear t.
Proof.
  intros Ht Ht'. rewrite next_month_day in Ht' by done.
  destruct (date_valid t) as [Hm Hd]. pose proof (date_day t) as HD.
  rewrite make_day_plain in HD by done.
  set (y := getUTCFullYear t) in *. set (m := getUTCMonth t) in *.
  set (d := t' / DAY_MS - day_from_year y - days_before (leap y) m + 1).
  destruct (make_day_date y m d t') as (? & ? & _); [| |done].
  - split; [done|]. unfold month_length, d.
    assert (t / DAY_MS <= t' / DAY_MS < day_from_year y + days_before (leap y) (m + 1))
      by (unfold DAY_MS in *; div_lia). lia.
  - rewrite make_day_plain by done. unfold d. lia.
Qed.

Lemma next_month_after t : 0 <= t -> t < next_month t.
Proof.
  intros Ht. rewrite next_month_day by done. destruct (date_valid t) as [Hm Hd].
  pose proof (date_day t) as HD. rewrite make_day_plain in HD by done. unfold month_length in Hd.
  unfold DAY_MS in *. div_lia.
Qed.

Lemma next_month_aligned t : 0 <= t -> (DAY_MS | next_month t).
Proof. intros Ht. rewrite next_month_day by done. apply Z.divide_factor_r. Qed.
