(* ===== verification/Cron.v ===== *)
(** * Cron expressions

    [packages/triggers/src/cron.ts]: the five-field parser, the search for the
    next fire in UTC, and the search on the wall clock of a time zone.

    A [Set<number>] is its list of elements in insertion order.  What
    [Intl.DateTimeFormat] reports for an instant in a zone is the parameter
    [wallPartsAt] (the formatter cache behind it has no observable effect). *)

From S2P Require Import Prelude Calendar.

Local Open Scope string_scope.
Local Open Scope Z_scope.

(** ** Loops *)

(** [n] rounds of a loop body that either continues or returns. *)
Fixpoint iter_until {S R} (f : S -> S + R) (n : positive) (s : S) : S + R :=
  match n with
  | xH => f s
  | xO p => match iter_until f p s with inl s' => iter_until f p s' | inr r => inr r end
  | xI p =>
      match f s with
      | inl s1 => match iter_until f p s1 with inl s2 => iter_until f p s2 | inr r => inr r end
      | inr r => inr r
      end
  end.

Fixpoint first_some {A B} (f : A -> option B) (l : list A) : option B :=
  match l with
  | [] => None
  | a :: l' => match f a with Some b => Some b | None => first_some f l' end
  end.

(** ** Strings *)

(** [s.split(/\s+/)]: [cur] is the piece being read. *)
Fixpoint split_spaces (in_space : bool) (cur s : string) : list string :=
  match s with
  | EmptyString => [cur]
  | String c s' =>
      if is_space c
      then if in_space then split_spaces true cur s' else cur :: split_spaces true EmptyString s'
      else split_spaces false (cur +:+ String c EmptyString) s'
  end.

(** [s.split(c)] *)
Fixpoint split_on (sep : ascii) (cur s : string) : list string :=
  match s with
  | EmptyString => [cur]
  | String c s' =>
      if decide (c = sep) then cur :: split_on sep EmptyString s'
      else split_on sep (cur +:+ String c EmptyString) s'
  end.

Definition is_digit (c : ascii) : bool := bool_decide (48 <= nat_of_ascii c <= 57)%nat.
Definition digit_value (c : ascii) : Z := Z.of_nat (nat_of_ascii c) - 48.

Fixpoint all_digits (s : string) : bool :=
  match s with EmptyString => true | String c s' => is_digit c && all_digits s' end.

(** The value of the leading digits; [None] when there are none. *)
Fixpoint leading_digits (acc : option Z) (s : string) : option Z :=
  match s with
  | EmptyString => acc
  | String c s' =>
      if is_digit c then leading_digits (Some (default 0 acc * 10 + digit_value c)) s' else acc
  end.

(** [Number.parseInt(s, 10)], [None] being [NaN]. *)
Definition parseInt (s : string) : option Z :=
  match trim_start s with
  | String "-" s' => Z.opp <$> leading_digits None s'
  | String "+" s' => leading_digits None s'
  | s' => leading_digits None s'
  end.

(** Integers from here on round to [Infinity]. *)
Definition DOUBLE_LIMIT : Z := 2 ^ 1024 - 2 ^ 970.

(** ** Parsing *)

Inductive CronField := FMinute | FHour | FDay | FMonth | FDayOfWeek.

Inductive cron_reason :=
| EmptyExpression
| FieldCount (n : nat)
| EmptyListElement (f : CronField)
| InvalidStep (f : CronField)
| EmptyNumeric (f : CronField)
| NotNumeric (f : CronField) (raw : string)
| OutOfRange (f : CronField).

Inductive CronError := CronParseError (expression : string) (reason : cron_reason).

Record FieldRange := mkRange { fr_min : Z; fr_max : Z }.

Definition RANGES (f : CronField) : FieldRange :=
  match f with
  | FMinute => mkRange 0 59
  | FHour => mkRange 0 23
  | FDay => mkRange 1 31
  | FMonth => mkRange 1 12
  | FDayOfWeek => mkRange 0 6
  end.

Record ParsedCron := mkCron {
  pc_expression : string;
  pc_minute : list Z;
  pc_hour : list Z;
  pc_day : list Z;
  pc_month : list Z;
  pc_dayOfWeek : list Z;
}.

Definition has (v : Z) (s : list Z) : bool := bool_decide (v ∈ s).
Definition set_add (v : Z) (s : list Z) : list Z := if has v s then s else (s ++ [v])%list.

(** [for (let v = from; v <= to; v += step) out.add(v)] *)
Fixpoint add_steps (fuel : nat) (v to step : Z) (out : list Z) : list Z :=
  match fuel with
  | O => out
  | S fuel' => if v <=? to then add_steps fuel' (v + step) to step (set_add v out) else out
  end.

Section Parse.
Context (expression : string).
Notation throw r := (Err (CronParseError expression r)).

Definition parseNumeric (f : CronField) (raw : option string) : result CronError Z :=
  match raw with
  | None | Some "" => throw (EmptyNumeric f)
  | Some raw =>
      if all_digits raw then Ok (default 0 (leading_digits None raw)) else throw (NotNumeric f raw)
  end.

(** One element of the comma list. *)
Definition parse_part (f : CronField) (range : FieldRange) (out : list Z) (part : string) :
    result CronError (list Z) :=
  if decide (part = "") then throw (EmptyListElement f)
  else
    let '(bodyStr, stepStr) :=
      if has_char "/" part
      then let pieces := split_on "/" "" part in (default "" (pieces !! 0%nat), pieces !! 1%nat)
      else (part, None) in
    let step := match stepStr with None => Some 1 | Some s => parseInt s end in
    match step with
    | None => throw (InvalidStep f)
    | Some step =>
        if (step <=? 0) || (DOUBLE_LIMIT <=? step) then throw (InvalidStep f)
        else
          rbind
            (if decide (bodyStr = "*") then Ok (fr_min range, fr_max range)
             else if has_char "-" bodyStr then
               let pieces := split_on "-" "" bodyStr in
               rbind (parseNumeric f (pieces !! 0%nat)) (fun a =>
                 rbind (parseNumeric f (pieces !! 1%nat)) (fun b => Ok (a, b)))
             else
               rbind (parseNumeric f (Some bodyStr)) (fun single =>
                 Ok (single, match stepStr with None => single | Some _ => fr_max range end)))
            (fun '(from, to) =>
              if (from <? fr_min range) || (fr_max range <? to) || (to <? from) then throw (OutOfRange f)
              else Ok (add_steps (Z.to_nat (to - from + 1)) from to step out))
    end.

Definition parseField (f : CronField) (raw : string) (range : FieldRange) : result CronError (list Z) :=
  foldM (parse_part f range) [] (split_on "," "" raw).
End Parse.

Definition parseCron (expression : string) : result CronError ParsedCron :=
  let trimmed := trim expression in
  if decide (trimmed = "") then Err (CronParseError expression EmptyExpression)
  else
    match split_spaces false "" trimmed with
    | [minuteStr; hourStr; dayStr; monthStr; dowStr] =>
        rbind (parseField expression FMinute minuteStr (RANGES FMinute)) (fun minute =>
        rbind (parseField expression FHour hourStr (RANGES FHour)) (fun hour =>
        rbind (parseField expression FDay dayStr (RANGES FDay)) (fun day =>
        rbind (parseField expression FMonth monthStr (RANGES FMonth)) (fun month =>
        rbind (parseField expression FDayOfWeek dowStr (RANGES FDayOfWeek)) (fun dayOfWeek =>
        Ok (mkCron trimmed minute hour day month dayOfWeek))))))
    | fields => Err (CronParseError expression (FieldCount (length fields)))
    end.

(** ** The next fire in UTC *)

Definition HORIZON_MS : Z := 4 * 365 * 24 * 60 * 60 * 1000.

(** One round of the search at [cursor]. *)
Definition next_round (parsed : ParsedCron) (horizon cursor : Z) : Z + option Z :=
  if horizon <=? cursor then inr None
  else if negb (has (getUTCMonth cursor + 1) (pc_month parsed)) then inl (next_month cursor)
  else if negb (has (getUTCDate cursor) (pc_day parsed)) || negb (has (getUTCDay cursor) (pc_dayOfWeek parsed))
  then inl (floor_to DAY_MS (cursor + DAY_MS))
  else if negb (has (getUTCHours cursor) (pc_hour parsed)) then inl (floor_to HOUR_MS (cursor + HOUR_MS))
  else if negb (has (getUTCMinutes cursor) (pc_minute parsed))
  then inl (floor_to MINUTE_MS (cursor + MINUTE_MS))
  else inr (Some cursor).

(** Every round advances the cursor by a minute at least. *)
Definition next_rounds : positive := 2102401.

Definition next_start (from : Z) : Z := floor_to MINUTE_MS (from + MINUTE_MS).

Definition nextFireUTC (parsed : ParsedCron) (from : Z) : option Z :=
  let start := next_start from in
  match iter_until (next_round parsed (start + HORIZON_MS)) next_rounds start with
  | inr r => r
  | inl _ => None
  end.

(** ** The next fire on the wall clock of a zone *)

Record WallParts := mkWall { wp_year : Z; wp_month : Z; wp_day : Z; wp_hour : Z; wp_minute : Z }.

Fixpoint insert_Z (v : Z) (l : list Z) : list Z :=
  match l with
  | [] => [v]
  | x :: l' => if v <=? x then v :: l else x :: insert_Z v l'
  end.

Definition sort_Z (l : list Z) : list Z := foldr insert_Z [] l.

Definition isFullRange (s : list Z) (range : FieldRange) : bool :=
  forallb (fun v => has v s) (seqZ (fr_min range) (fr_max range - fr_min range + 1)).

Definition wall_day (t : Z) : Z * Z * Z := (getUTCFullYear t, getUTCMonth t + 1, getUTCDate t).
Definition nextWallDay (year month day : Z) : Z * Z * Z :=
  wall_day (Date_UTC year (month - 1) day 0 0 + DAY_MS).
Definition previousWallDay (year month day : Z) : Z * Z * Z :=
  wall_day (Date_UTC year (month - 1) day 0 0 - DAY_MS).

Definition MAX_DAY_SCAN : nat := 1464.

Section Zone.
(** [wallPartsAt(utcMs, timeZone)] for one zone *)
Context (wallPartsAt : Z -> WallParts).

Definition wall_ms (w : WallParts) : Z :=
  Date_UTC (wp_year w) (wp_month w - 1) (wp_day w) (wp_hour w) (wp_minute w).

Definition offsetAt (utcMs : Z) : Z := wall_ms (wallPartsAt utcMs) - floor_to MINUTE_MS utcMs.

Definition instant_with (wallMs offset : Z) : option Z :=
  let utc := wallMs - offset in if offsetAt utc =? offset then Some utc else None.

Definition offsets_around (wallMs : Z) : list Z :=
  set_add (offsetAt (wallMs + DAY_MS)) (set_add (offsetAt wallMs) (set_add (offsetAt (wallMs - DAY_MS)) [])).

Definition utcInstantsForWall (wallMs : Z) : list Z :=
  sort_Z (omap (instant_with wallMs) (offsets_around wallMs)).

(** The binary search halves at most 2880 minutes. *)
Fixpoint gap_search (fuel : nat) (offLo lo hi : Z) : Z :=
  match fuel with
  | O => hi
  | S fuel' =>
      if hi - lo <=? MINUTE_MS then hi
      else
        let mid := lo + (hi - lo) / (2 * MINUTE_MS) * MINUTE_MS in
        if (mid <=? lo) || (hi <=? mid) then hi
        else if offsetAt mid =? offLo then gap_search fuel' offLo mid hi
        else gap_search fuel' offLo lo mid
  end.

Definition gapTransitionEnd (wallMs : Z) : Z :=
  let lo := floor_to MINUTE_MS (wallMs - DAY_MS) in
  let hi := floor_to MINUTE_MS (wallMs + DAY_MS) in
  gap_search 13 (offsetAt lo) lo hi.

Section Scan.
Context (parsed : ParsedCron) (fromMs : Z) (fixedTime : bool).

(** The instant of one wall-clock minute that comes after [fromMs]. *)
Definition try_wall (year month day hour minute : Z) : option Z :=
  let wallMs := Date_UTC year (month - 1) day hour minute in
  let instants := utcInstantsForWall wallMs in
  let utc :=
    match instants with
    | [] => if fixedTime then Some (gapTransitionEnd wallMs) else None
    | [t] => Some t
    | t :: _ => if fixedTime then Some t else List.find (fun t => fromMs <? t) instants
    end in
  match utc with
  | Some t => if fromMs <? t then Some t else None
  | None => None
  end.

Definition try_day (year month day : Z) : option Z :=
  first_some (fun hour => first_some (fun minute => try_wall year month day hour minute)
                            (sort_Z (pc_minute parsed))) (sort_Z (pc_hour parsed)).

Fixpoint scan_days (scans : nat) (year month day : Z) : option Z :=
  match scans with
  | O => None
  | S scans' =>
      if negb (has month (pc_month parsed)) then
        if month =? 12 then scan_days scans' (year + 1) 1 1 else scan_days scans' year (month + 1) 1
      else
        let dow := getUTCDay (Date_UTC year (month - 1) day 0 0) in
        match (if has day (pc_day parsed) && has dow (pc_dayOfWeek parsed)
               then try_day year month day else None) with
        | Some t => Some t
        | None => let '(y, m, d) := nextWallDay year month day in scan_days scans' y m d
        end
  end.
End Scan.

Definition nextFireAfterInZone (parsed : ParsedCron) (fromMs : Z) : option Z :=
  let fixedTime := negb (isFullRange (pc_minute parsed) (RANGES FMinute)) &&
                   negb (isFullRange (pc_hour parsed) (RANGES FHour)) in
  let startWall := wallPartsAt fromMs in
  let '(year, month, day) := previousWallDay (wp_year startWall) (wp_month startWall) (wp_day startWall) in
  scan_days parsed fromMs fixedTime MAX_DAY_SCAN year month day.
End Zone.

(** [zones] resolves a time-zone name; without one, and for ['UTC'], the
    calendar is used directly. *)
Definition nextFireAfter (zones : string -> Z -> WallParts) (parsed : ParsedCron) (from : Z)
    (timeZone : option string) : option Z :=
  match timeZone with
  | Some tz => if decide (tz = "UTC") then nextFireUTC parsed from
               else nextFireAfterInZone (zones tz) parsed from
  | None => nextFireUTC parsed from
  end.

(** ** The search for the next fire

    The loop rule, and what one round of the UTC search skips. *)

Local Open Scope Z_scope.

(** ** Loops *)

Fixpoint rounds {S R} (f : S -> S + R) (n : nat) (s : S) : S + R :=
  match n with
  | O => inl s
  | S n' => match f s with inl s' => rounds f n' s' | inr r => inr r end
  end.

Lemma rounds_add {S R} (f : S -> S + R) n m s :
  rounds f (n + m) s = match rounds f n s with inl s' => rounds f m s' | inr r => inr r end.
Proof. revert s. induction n as [|n IH]; intros s; simpl; [done|]. by destruct (f s). Qed.

Lemma iter_until_rounds {S R} (f : S -> S + R) p s : iter_until f p s = rounds f (Pos.to_nat p) s.
Proof.
  revert s. induction p as [p IH|p IH|]; intros s; cbn [iter_until].
  - rewrite Pos2Nat.inj_xI. simpl. destruct (f s) as [s1|r]; [|done].
    rewrite Nat.add_0_r, rounds_add, <- !IH. destruct (iter_until f p s1) eqn:E; [|done]. by rewrite <- IH.
  - rewrite Pos2Nat.inj_xO. simpl. rewrite Nat.add_0_r, rounds_add, <- !IH.
    destruct (iter_until f p s) eqn:E; [|done]. by rewrite <- IH.
  - rewrite Pos2Nat.inj_1. simpl. by destruct (f s).
Qed.

(** Partial and total correctness at once: an invariant, a result predicate and
    a measure below the number of rounds. *)
Lemma iter_until_rule {S R} (f : S -> S + R) (I : S -> Prop) (Q : R -> Prop) (mu : S -> nat) p s :
  (forall s, I s -> match f s with inl s' => I s' /\ (mu s' < mu s)%nat | inr r => Q r end) ->
  I s -> (mu s < Pos.to_nat p)%nat -> exists r, iter_until f p s = inr r /\ Q r.
Proof.
  intros Hstep Hi Hmu. rewrite iter_until_rounds. revert s Hi Hmu.
  induction (Pos.to_nat p) as [|n IH]; intros s Hi Hmu; simpl; [lia|].
  pose proof (Hstep s Hi) as Hs. destruct (f s) as [s'|r]; [|by exists r].
  destruct Hs as [Hi' Hlt]. apply IH; [done|lia].
Qed.

(** ** Matching *)

Definition cron_matches (p : ParsedCron) (t : Z) : bool :=
  has (getUTCMonth t + 1) (pc_month p) && has (getUTCDate t) (pc_day p) &&
  has (getUTCDay t) (pc_dayOfWeek p) && has (getUTCHours t) (pc_hour p) &&
  has (getUTCMinutes t) (pc_minute p).

Definition on_minute (t : Z) : Prop := t mod MINUTE_MS = 0.

Lemma floor_next u t : 0 < u -> floor_to u (t + u) = (t / u + 1) * u.
Proof.
  intros Hu. unfold floor_to. replace (t + u) with (t + 1 * u) by lia. by rewrite Z.div_add by lia.
Qed.

Lemma floor_next_spec u t t' :
  0 < u -> t <= t' < floor_to u (t + u) -> t' / u = t / u.
Proof.
  intros Hu Ht. rewrite floor_next in Ht by done.
  symmetry. apply (Z.div_unique_pos _ _ _ (t' - t / u * u)); [|lia].
  pose proof (Z.mul_div_le t u Hu). lia.
Qed.

Lemma floor_next_after u t : 0 < u -> t < floor_to u (t + u).
Proof. intros Hu. rewrite floor_next by done. pose proof (Z.mul_succ_div_gt t u Hu). lia. Qed.

Lemma aligned_floor u t : (MINUTE_MS | u) -> on_minute (floor_to u t).
Proof.
  intros Hu. apply Z.mod_divide; [done|]. unfold floor_to. by apply Z.divide_mul_r.
Qed.

(** What a continuing round skips does not match. *)
Lemma next_round_skips p horizon c c' t :
  0 <= c -> next_round p horizon c = inl c' -> c <= t < c' -> cron_matches p t = false.
Proof.
  intros Hc. unfold next_round, cron_matches. destruct (Z.leb_spec horizon c); [done|].
  destruct (has (getUTCMonth c + 1) (pc_month p)) eqn:Hm; simpl.
  2: { intros [= <-] Ht. destruct (month_span c t Hc Ht) as [-> _]. by rewrite Hm. }
  destruct (negb _ || negb _) eqn:Hd.
  { intros [= <-] Ht. apply floor_next_spec in Ht; [|done].
    destruct (same_day_fields t c Ht) as (-> & -> & ->). rewrite Hm.
    apply orb_true_iff in Hd as [Hd%negb_true_iff|Hd%negb_true_iff]; by rewrite Hd, ?andb_false_r. }
  destruct (has (getUTCHours c) (pc_hour p)) eqn:Hh; simpl.
  2: { intros [= <-] Ht. apply floor_next_spec in Ht; [|done].
       unfold getUTCHours in *. by rewrite Ht, Hh, andb_false_r. }
  destruct (has (getUTCMinutes c) (pc_minute p)) eqn:Hmi; simpl; [done|].
  intros [= <-] Ht. apply floor_next_spec in Ht; [|done].
  unfold getUTCMinutes in *. by rewrite Ht, Hmi, andb_false_r.
Qed.

Lemma next_round_found p horizon c t :
  next_round p horizon c = inr (Some t) -> t = c /\ c < horizon /\ cron_matches p c = true.
Proof.
  unfold next_round, cron_matches. destruct (Z.leb_spec horizon c); [done|].
  repeat match goal with |- context [has ?a ?b] => destruct (has a b); simpl; [|done] end.
  by intros [= <-].
Qed.

Lemma next_round_stops p horizon c : next_round p horizon c = inr None -> horizon <= c.
Proof.
  unfold next_round. destruct (Z.leb_spec horizon c); [done|].
  repeat match goal with |- context [has ?a ?b] => destruct (has a b); simpl; [|done] end. done.
Qed.

(** A continuing round moves to a later minute. *)
Lemma next_round_advances p horizon c c' :
  0 <= c -> next_round p horizon c = inl c' -> c < c' /\ on_minute c'.
Proof.
  intros Hc. unfold next_round. destruct (Z.leb_spec horizon c); [done|].
  destruct (has _ (pc_month p)); simpl.
  2: { intros [= <-]. split; [by apply next_month_after|]. apply Z.mod_divide; [done|].
       eapply Z.divide_trans; [|by apply next_month_aligned]. by exists 1440. }
  destruct (negb _ || negb _).
  { intros [= <-]. split; [by apply floor_next_after|]. apply aligned_floor. by exists 1440. }
  destruct (has _ (pc_hour p)); simpl.
  2: { intros [= <-]. split; [by apply floor_next_after|]. apply aligned_floor. by exists 60. }
  destruct (has _ (pc_minute p)); simpl; [done|].
  intros [= <-]. split; [by apply floor_next_after|]. apply aligned_floor. by exists 1.
Qed.

(** ** The least match *)

Definition next_horizon (from : Z) : Z := next_start from + HORIZON_MS.

(** [r] is the first matching minute after [from] and before the horizon. *)
Definition first_match (p : ParsedCron) (from : Z) (r : option Z) : Prop :=
  match r with
  | Some t => from < t < next_horizon from /\ on_minute t /\ cron_matches p t = true /\
              (forall t', from < t' < t -> on_minute t' -> cron_matches p t' = false)
  | None => forall t', from < t' < next_horizon from -> on_minute t' -> cron_matches p t' = false
  end.

Lemma next_start_least from t : on_minute t -> from < t <-> next_start from <= t.
Proof.
  intros Ht. unfold next_start, floor_to, on_minute, MINUTE_MS in *. div_lia.
Qed.

Lemma next_start_after from : from < next_start from.
Proof. by apply floor_next_after. Qed.

Lemma nextFireUTC_first p from : 0 <= from -> first_match p from (nextFireUTC p from).
Proof.
  intros Hfrom. unfold nextFireUTC. fold (next_horizon from). pose proof (next_start_after from) as Hstart.
  set (h := next_horizon from).
  destruct (iter_until_rule (next_round p h)
    (fun c => next_start from <= c /\ on_minute c /\
              forall t', next_start from <= t' < c -> cron_matches p t' = false)
    (first_match p from) (fun c => Z.to_nat ((h - c) / MINUTE_MS)) next_rounds (next_start from))
    as (r & -> & Hr); [| | |done].
  - intros c (Hc & Hon & Hno). destruct (next_round p h c) as [c'|r] eqn:E.
    + pose proof (next_round_skips p h c c') as Hskip.
      destruct (next_round_advances p h c c' ltac:(lia) E) as [Hlt Hon'].
      split; [split; [lia|split; [done|]]|].
      * intros t' Ht'. destruct (Z.lt_ge_cases t' c); [by apply Hno; lia|]. apply Hskip; [lia|done|lia].
      * unfold next_round in E. destruct (Z.leb_spec h c); [done|]. clear E Hskip Hno.
        assert (on_minute h) as Hh.
        { unfold h, next_horizon, next_start, floor_to, on_minute, HORIZON_MS, MINUTE_MS. div_lia. }
        unfold on_minute, MINUTE_MS in *. clear Hstart Hc Hfrom.
        assert ((h - c') / 60000 < (h - c) / 60000 /\ 1 <= (h - c) / 60000) by div_lia. lia.
    + destruct r as [t|].
      * apply next_round_found in E as (-> & Hlt & Hm). split; [split; [lia|done]|]. split; [done|].
        split; [done|]. intros t' Ht' Hon'. apply Hno. pose proof (proj1 (next_start_least from t' Hon')). lia.
      * apply next_round_stops in E. intros t' Ht' Hon'. apply Hno.
        pose proof (proj1 (next_start_least from t' Hon')). fold h in Ht'. lia.
  - split; [done|]. split; [|intros; lia]. apply aligned_floor. by exists 1.
  - unfold h, next_horizon, HORIZON_MS, MINUTE_MS, next_rounds.
    rewrite Z.add_comm, Z.add_simpl_r. apply Nat2Z.inj_lt. rewrite positive_nat_Z, Z2Nat.id; vm_compute; done.
Qed.

Lemma nextFireAfter_utc zones p from : nextFireAfter zones p from None = nextFireUTC p from.
Proof. unfold nextFireAfter. exact (eq_refl _). Qed.
