(* ===== verification/CronParse.v ===== *)
(** * The grammar of cron expressions

    The documented syntax as data: an item is a star, a number or a range with
    an optional step; a field is a comma list of items.  The lemmas compute what
    the parser does on the text of such a field. *)

From Stdlib Require Import DecimalNat.
From S2P Require Import Prelude Json Calendar Cron.

Local Open Scope string_scope.
Local Open Scope Z_scope.

(** ** Characters *)

Fixpoint all_chars (P : ascii -> bool) (s : string) : bool :=
  match s with EmptyString => true | String c s' => P c && all_chars P s' end.

Lemma all_chars_app P a b : all_chars P (a +:+ b) = all_chars P a && all_chars P b.
Proof. induction a as [|c a IH]; simpl; [done|]. rewrite <- andb_assoc, <- IH. done. Qed.

Lemma all_chars_impl (P Q : ascii -> bool) s :
  (forall c, P c = true -> Q c = true) -> all_chars P s = true -> all_chars Q s = true.
Proof.
  intros HPQ. induction s as [|c s IH]; simpl; [done|]. intros [Hc Hs]%andb_true_iff.
  by rewrite (HPQ c Hc), IH.
Qed.

Lemma has_char_all c s : has_char c s = negb (all_chars (fun x => bool_decide (x <> c)) s).
Proof.
  induction s as [|x s IH]; simpl; [done|]. rewrite IH, negb_andb. f_equal.
  destruct (decide (x = c)) as [->|]; [by rewrite bool_decide_true, bool_decide_false by naive_solver|].
  by rewrite bool_decide_false, bool_decide_true by congruence.
Qed.

Definition lacks (c : ascii) (s : string) : bool := all_chars (fun x => bool_decide (x <> c)) s.

Lemma lacks_app c a b : lacks c (a +:+ b) = lacks c a && lacks c b.
Proof. apply all_chars_app. Qed.

Lemma lacks_cons c x s : lacks c (String x s) = bool_decide (x <> c) && lacks c s.
Proof. done. Qed.

Lemma app_char (cur : string) c s : (cur +:+ String c "") +:+ s = cur +:+ String c s.
Proof. by rewrite str_app_assoc. Qed.

Lemma split_on_one sep cur s : lacks sep s = true -> split_on sep cur s = [cur +:+ s].
Proof.
  revert cur. induction s as [|c s IH]; intros cur; simpl; [by rewrite str_app_nil_r|].
  intros [Hc%bool_decide_eq_true Hs]%andb_true_iff. rewrite decide_False by done. by rewrite IH, app_char.
Qed.

Lemma split_on_cons sep cur s rest :
  lacks sep s = true ->
  split_on sep cur (s +:+ String sep rest) = (cur +:+ s) :: split_on sep "" rest.
Proof.
  revert cur. induction s as [|c s IH]; intros cur; simpl.
  - intros _. by rewrite decide_True, str_app_nil_r.
  - intros [Hc%bool_decide_eq_true Hs]%andb_true_iff. rewrite decide_False by done. by rewrite IH, app_char.
Qed.

(** [sep]-separated texts. *)
Fixpoint joined (sep : ascii) (ss : list string) : string :=
  match ss with
  | [] => ""
  | [s] => s
  | s :: ss' => s +:+ String sep (joined sep ss')
  end.

Lemma split_joined sep s ss :
  Forall (fun s => lacks sep s = true) (s :: ss) -> split_on sep "" (joined sep (s :: ss)) = s :: ss.
Proof.
  revert s. induction ss as [|s' ss IH]; intros s HF; inversion HF; subst.
  - simpl. by rewrite split_on_one.
  - change (joined sep (s :: s' :: ss)) with (s +:+ String sep (joined sep (s' :: ss))).
    rewrite split_on_cons by done. by rewrite IH.
Qed.

Lemma joined_chars P sep ss :
  P sep = true -> Forall (fun s => all_chars P s = true) ss -> all_chars P (joined sep ss) = true.
Proof.
  intros Hsep HF. induction HF as [|s [|s' ss] Hs _ IH]; [done|done|].
  change (joined sep (s :: s' :: ss)) with (s +:+ String sep (joined sep (s' :: ss))).
  rewrite all_chars_app, Hs. simpl. by rewrite Hsep.
Qed.

(** ** White space *)

Definition solid (s : string) : bool := all_chars (fun c => negb (is_space c)) s.

Lemma trim_start_solid s rest : s <> "" -> solid s = true -> trim_start (s +:+ rest) = s +:+ rest.
Proof.
  destruct s as [|c s]; [done|]. intros _. unfold solid. simpl. intros [Hc _]%andb_true_iff.
  apply negb_true_iff in Hc. by rewrite Hc.
Qed.

Lemma trim_end_solid s : solid s = true -> trim_end s = s.
Proof.
  unfold solid. induction s as [|c s IH]; simpl; [done|]. intros [Hc Hs]%andb_true_iff. rewrite IH by done.
  apply negb_true_iff in Hc. rewrite Hc. by destruct s.
Qed.

Lemma trim_end_app a s : s <> "" -> trim_end s = s -> trim_end (a +:+ s) = a +:+ s.
Proof.
  intros Hne Hs. induction a as [|c a IH]; [done|].
  change (trim_end (String c (a +:+ s)) = String c (a +:+ s)). simpl. rewrite IH.
  destruct (a +:+ s) eqn:E; [|done]. destruct a, s; done.
Qed.

Lemma split_spaces_word in_space cur s rest :
  s <> "" -> solid s = true ->
  split_spaces in_space cur (s +:+ String " " rest) = (cur +:+ s) :: split_spaces true "" rest.
Proof.
  revert in_space cur. induction s as [|c s IH]; intros in_space cur; [done|]. intros _ Hs.
  unfold solid in Hs. simpl in Hs. apply andb_true_iff in Hs as [Hc Hs]. apply negb_true_iff in Hc.
  change (split_spaces in_space cur (String c (s +:+ String " " rest)) =
          (cur +:+ String c s) :: split_spaces true "" rest).
  cbn [split_spaces]. rewrite Hc. destruct s as [|c' s].
  - change ("" +:+ String " " rest) with (String " " rest). done.
  - rewrite IH by done. by rewrite app_char.
Qed.

Lemma split_spaces_last in_space cur s :
  s <> "" -> solid s = true -> split_spaces in_space cur s = [cur +:+ s].
Proof.
  revert in_space cur. induction s as [|c s IH]; intros in_space cur; [done|]. intros _ Hs.
  unfold solid in Hs. simpl in Hs. apply andb_true_iff in Hs as [Hc Hs]. apply negb_true_iff in Hc.
  cbn [split_spaces]. rewrite Hc. destruct s as [|c' s]; [done|]. rewrite IH by done. by rewrite app_char.
Qed.

(** ** Numbers *)

Definition numeral (n : nat) : string := pr_uint (Nat.to_uint n) "".

Lemma numeral_digits n : all_chars is_digit (numeral n) = true.
Proof. unfold numeral. induction (Nat.to_uint n) as [|u IH|u IH|u IH|u IH|u IH|u IH|u IH|u IH|u IH|u IH]; simpl; done. Qed.

Lemma all_digits_chars s : all_digits s = all_chars is_digit s.
Proof. induction s as [|c s IH]; simpl; [done|]. by rewrite IH. Qed.

Lemma numeral_nonempty n : numeral n <> "".
Proof.
  unfold numeral. pose proof (Unsigned.to_of (Nat.to_uint n)) as Hn. rewrite Unsigned.of_to in Hn.
  by destruct (Nat.to_uint n).
Qed.

Lemma leading_digits_acc u acc :
  leading_digits (Some (Z.of_nat acc)) (pr_uint u "") = Some (Z.of_nat (Nat.of_uint_acc u acc)).
Proof.
  revert acc. induction u as [|u IH|u IH|u IH|u IH|u IH|u IH|u IH|u IH|u IH|u IH]; intros acc; [done|..];
    cbn [pr_uint leading_digits Nat.of_uint_acc is_digit]; rewrite <- IH; simpl; do 2 f_equal;
    rewrite Nat.tail_mul_spec; unfold digit_value;
    match goal with |- context [nat_of_ascii ?c] =>
      let v := eval vm_compute in (nat_of_ascii c) in change (nat_of_ascii c) with v end; lia.
Qed.

Lemma leading_digits_numeral n : leading_digits None (numeral n) = Some (Z.of_nat n).
Proof.
  pose proof (numeral_nonempty n) as Hne. rewrite <- (Unsigned.of_to n) at 2. unfold numeral, Nat.of_uint in *.
  rewrite <- leading_digits_acc. destruct (Nat.to_uint n); done.
Qed.

Lemma parseInt_numeral n : parseInt (numeral n) = Some (Z.of_nat n).
Proof.
  rewrite <- leading_digits_numeral. pose proof (numeral_digits n) as Hd. pose proof (numeral_nonempty n) as Hne.
  unfold parseInt. destruct (numeral n) as [|c s]; [done|]. simpl in Hd. apply andb_true_iff in Hd as [Hc _].
  assert (is_space c = false) as Hs.
  { unfold is_digit, is_space in *. apply bool_decide_eq_true in Hc. rewrite !bool_decide_false by lia. done. }
  simpl trim_start. rewrite Hs. destruct c as [[] [] [] [] [] [] [] []]; vm_compute in Hc; done.
Qed.

(** ** The grammar *)

Inductive item_body := BStar | BNum (n : nat) | BRange (a b : nat).

Record item := mkItem { it_body : item_body; it_step : option nat }.

Definition body_text (b : item_body) : string :=
  match b with
  | BStar => "*"
  | BNum n => numeral n
  | BRange a b => numeral a +:+ String "-" (numeral b)
  end.

Definition item_text (i : item) : string :=
  body_text (it_body i) +:+ match it_step i with Some k => String "/" (numeral k) | None => "" end.

Definition field_text (items : list item) : string := joined "," (map item_text items).

(** First and last value, and the step. *)
Definition item_from (r : FieldRange) (i : item) : Z :=
  match it_body i with BStar => fr_min r | BNum n => Z.of_nat n | BRange a _ => Z.of_nat a end.
Definition item_to (r : FieldRange) (i : item) : Z :=
  match it_body i with
  | BStar => fr_max r
  | BNum n => match it_step i with Some _ => fr_max r | None => Z.of_nat n end
  | BRange _ b => Z.of_nat b
  end.
Definition item_every (i : item) : Z := match it_step i with Some k => Z.of_nat k | None => 1 end.

Definition item_ok (r : FieldRange) (i : item) : bool :=
  (0 <? item_every i) && (item_every i <? DOUBLE_LIMIT) &&
  (fr_min r <=? item_from r i) && (item_to r i <=? fr_max r) && (item_from r i <=? item_to r i).

(** The values an item stands for. *)
Definition denotes (r : FieldRange) (i : item) (v : Z) : Prop :=
  exists k, 0 <= k /\ v = item_from r i + k * item_every i /\ v <= item_to r i.

(** *** Its characters *)

Definition item_char (c : ascii) : bool :=
  is_digit c || bool_decide (c = "*"%char) || bool_decide (c = "-"%char) || bool_decide (c = "/"%char).

Lemma numeral_chars (P : ascii -> bool) n :
  (forall c, is_digit c = true -> P c = true) -> all_chars P (numeral n) = true.
Proof. intros HP. eapply all_chars_impl; [exact HP|apply numeral_digits]. Qed.

Lemma digit_not c d : is_digit c = false -> is_digit d = true -> bool_decide (d <> c) = true.
Proof. intros Hc Hd. apply bool_decide_eq_true. intros ->. congruence. Qed.

Lemma numeral_lacks c n : is_digit c = false -> lacks c (numeral n) = true.
Proof. intros Hc. apply numeral_chars. intros d. by apply digit_not. Qed.

Lemma numeral_item_chars n : all_chars item_char (numeral n) = true.
Proof. apply numeral_chars. intros c Hc. unfold item_char. by rewrite Hc. Qed.

Lemma item_chars i : all_chars item_char (item_text i) = true.
Proof.
  unfold item_text. rewrite all_chars_app. apply andb_true_iff. split.
  - destruct (it_body i); simpl; [done|apply numeral_item_chars|].
    rewrite all_chars_app, numeral_item_chars. simpl. apply numeral_item_chars.
  - destruct (it_step i); [|done]. simpl. apply numeral_item_chars.
Qed.

Lemma item_char_lacks c s : item_char c = false -> all_chars item_char s = true -> lacks c s = true.
Proof.
  intros Hc. apply all_chars_impl. intros d Hd. apply bool_decide_eq_true. intros ->. congruence.
Qed.

Lemma body_nonempty b : body_text b <> "".
Proof.
  destruct b as [|n|a b]; simpl; [done|apply numeral_nonempty|].
  pose proof (numeral_nonempty a). by destruct (numeral a).
Qed.

Lemma item_nonempty i : item_text i <> "".
Proof. unfold item_text. pose proof (body_nonempty (it_body i)). by destruct (body_text _). Qed.

Lemma field_text_split i items : split_on "," "" (field_text (i :: items)) = map item_text (i :: items).
Proof.
  unfold field_text. cbn [map]. apply split_joined. rewrite Forall_cons. split.
  - apply item_char_lacks; [done|apply item_chars].
  - apply Forall_map, Forall_forall. intros x _. apply item_char_lacks; [done|apply item_chars].
Qed.

Lemma field_solid items : solid (field_text items) = true.
Proof.
  unfold solid, field_text. apply joined_chars; [done|]. apply Forall_map, Forall_forall. intros i _.
  eapply all_chars_impl; [|apply item_chars]. intros c. unfold item_char. rewrite !orb_true_iff.
  intros [[[Hc|Hc]|Hc]|Hc]; [|apply bool_decide_eq_true in Hc as ->; done..].
  unfold is_digit in Hc. apply bool_decide_eq_true in Hc. unfold is_space. rewrite !bool_decide_false by lia. done.
Qed.

Lemma field_nonempty i items : field_text (i :: items) <> "".
Proof.
  unfold field_text. pose proof (item_nonempty i) as Hi. destruct items as [|i' items]; [done|].
  change (joined "," (map item_text (i :: i' :: items))) with
    (item_text i +:+ String "," (joined "," (map item_text (i' :: items)))).
  by destruct (item_text i).
Qed.

(** *** What the parser makes of it *)

Local Arguments parseNumeric : simpl never.

Lemma parseNumeric_numeral e f n : parseNumeric e f (Some (numeral n)) = Ok (Z.of_nat n).
Proof.
  unfold parseNumeric. pose proof (numeral_nonempty n) as Hne.
  pose proof (leading_digits_numeral n) as Hl. pose proof (numeral_digits n) as Hd.
  destruct (numeral n) as [|c s]; [done|]. by rewrite all_digits_chars, Hd, Hl.
Qed.

Lemma body_lacks_slash b : lacks "/" (body_text b) = true.
Proof.
  destruct b as [|n|a b]; simpl; [done|by apply numeral_lacks|].
  by rewrite lacks_app, lacks_cons, (numeral_lacks "/" a), (numeral_lacks "/" b).
Qed.

Lemma item_pieces i :
  (if has_char "/" (item_text i)
   then let pieces := split_on "/" "" (item_text i) in (default "" (pieces !! 0%nat), pieces !! 1%nat)
   else (item_text i, None)) = (body_text (it_body i), numeral <$> it_step i).
Proof.
  pose proof (body_lacks_slash (it_body i)) as Hb. rewrite has_char_all. fold (lacks "/" (item_text i)).
  unfold item_text. rewrite lacks_app, Hb.
  destruct (it_step i) as [k|]; simpl; [|by rewrite str_app_nil_r].
  rewrite split_on_cons by done. rewrite split_on_one by by apply numeral_lacks. done.
Qed.

Lemma numeral_not_star n : numeral n <> "*".
Proof. intros Heq. pose proof (numeral_digits n) as Hd. by rewrite Heq in Hd. Qed.

Lemma body_span e f r i :
  (if decide (body_text (it_body i) = "*") then Ok (fr_min r, fr_max r)
   else if has_char "-" (body_text (it_body i)) then
     let pieces := split_on "-" "" (body_text (it_body i)) in
     rbind (parseNumeric e f (pieces !! 0%nat)) (fun a =>
       rbind (parseNumeric e f (pieces !! 1%nat)) (fun b => Ok (a, b)))
   else
     rbind (parseNumeric e f (Some (body_text (it_body i)))) (fun single =>
       Ok (single, match numeral <$> it_step i with None => single | Some _ => fr_max r end))) =
  Ok (item_from r i, item_to r i).
Proof.
  unfold item_from, item_to. rewrite has_char_all. fold (lacks "-" (body_text (it_body i))).
  destruct (it_body i) as [|n|a b]; simpl.
  - done.
  - rewrite decide_False by apply numeral_not_star. rewrite (numeral_lacks "-" n) by done. simpl.
    rewrite parseNumeric_numeral. simpl. by destruct (it_step i).
  - rewrite decide_False.
    2: { pose proof (numeral_nonempty a) as Hne. pose proof (numeral_not_star a).
         destruct (numeral a) as [|c [|c1 s]]; [done|..]; intros [=]. }
    rewrite lacks_app, lacks_cons. simpl. rewrite andb_false_r. simpl.
    rewrite split_on_cons by by apply numeral_lacks. rewrite split_on_one by by apply numeral_lacks. simpl.
    rewrite !str_app_nil_l. by rewrite !parseNumeric_numeral.
Qed.

Lemma parse_item e f r out i :
  parse_part e f r out (item_text i) =
    if item_ok r i
    then Ok (add_steps (Z.to_nat (item_to r i - item_from r i + 1)) (item_from r i) (item_to r i) (item_every i) out)
    else Err (CronParseError e (if (0 <? item_every i) && (item_every i <? DOUBLE_LIMIT)
                                then OutOfRange f else InvalidStep f)).
Proof.
  unfold parse_part. rewrite decide_False by apply item_nonempty. rewrite item_pieces.
  assert (match numeral <$> it_step i with None => Some 1 | Some s => parseInt s end = Some (item_every i)) as ->.
  { unfold item_every. destruct (it_step i); simpl; [apply parseInt_numeral|done]. }
  rewrite body_span. unfold item_ok. cbn [rbind].
  rewrite (Z.ltb_antisym (item_every i) 0), (Z.ltb_antisym DOUBLE_LIMIT (item_every i)).
  destruct (item_every i <=? 0), (DOUBLE_LIMIT <=? item_every i); simpl; try done.
  rewrite (Z.ltb_antisym (fr_min r)), (Z.ltb_antisym (item_to r i)), (Z.ltb_antisym (item_from r i)).
  by destruct (fr_min r <=? item_from r i), (item_to r i <=? fr_max r), (item_from r i <=? item_to r i).
Qed.
