(* ===== verification/CronProps.v ===== *)
(** * What the cron module guarantees

    The parser implements the documented grammar and returns only values in
    range; the search finds the first matching minute; schedules that have a
    day in every month always have a next fire. *)

From S2P Require Import Prelude Json Calendar Cron CronParse.

Local Open Scope string_scope.
Local Open Scope Z_scope.

(** ** Sets *)

Lemma elem_set_add v x s : x ∈ set_add v s <-> x ∈ s \/ x = v.
Proof.
  unfold set_add, has. destruct (bool_decide (v ∈ s)) eqn:E.
  - apply bool_decide_eq_true in E. naive_solver.
  - rewrite elem_of_app, list_elem_of_singleton. done.
Qed.

Lemma set_add_nodup v s : NoDup s -> NoDup (set_add v s).
Proof.
  intros Hs. unfold set_add, has. case_bool_decide; [done|]. apply NoDup_app.
  split; [done|]. split; [|apply NoDup_singleton]. intros x Hx ->%list_elem_of_singleton. done.
Qed.

Lemma add_steps_elem fuel v to step out x :
  0 < step -> to - v < Z.of_nat fuel ->
  x ∈ add_steps fuel v to step out <-> x ∈ out \/ exists k, 0 <= k /\ x = v + k * step /\ x <= to.
Proof.
  intros Hstep. revert v out. induction fuel as [|fuel IH]; intros v out Hf; simpl.
  - split; [by left|]. intros [?|(k & ? & ? & ?)]; [done|nia].
  - destruct (Z.leb_spec v to) as [Hle|Hgt].
    + rewrite IH by lia. rewrite elem_set_add. split.
      * intros [[?| ->]|(k & Hk & -> & ?)]; [by left|right; exists 0; lia|right; exists (k + 1); lia].
      * intros [?|(k & Hk & -> & ?)]; [by left; left|]. destruct (decide (k = 0)) as [->|]; [left; right; lia|].
        right. exists (k - 1). lia.
    + split; [by left|]. intros [?|(k & ? & ? & ?)]; [done|nia].
Qed.

Lemma add_steps_nodup fuel v to step out : NoDup out -> NoDup (add_steps fuel v to step out).
Proof.
  revert v out. induction fuel as [|fuel IH]; intros v out Hout; simpl; [done|].
  destruct (v <=? to); [|done]. by apply IH, set_add_nodup.
Qed.

(** ** The fields of an expression *)

Definition pc_field (p : ParsedCron) (f : CronField) : list Z :=
  match f with
  | FMinute => pc_minute p
  | FHour => pc_hour p
  | FDay => pc_day p
  | FMonth => pc_month p
  | FDayOfWeek => pc_dayOfWeek p
  end.

Definition in_range (r : FieldRange) (v : Z) : Prop := fr_min r <= v <= fr_max r.

(** A parsed field: values in range, each once, at least one. *)
Definition field_wf (r : FieldRange) (s : list Z) : Prop := s <> [] /\ NoDup s /\ Forall (in_range r) s.

Lemma parse_part_wf e f r out part out' :
  NoDup out -> Forall (in_range r) out -> parse_part e f r out part = Ok out' -> field_wf r out'.
Proof.
  intros Hnd HF. unfold parse_part. case_decide; [done|].
  match goal with |- (let '(_, _) := ?x in _) = _ -> _ => destruct x as [bodyStr stepStr] end.
  destruct (match stepStr with None => Some 1 | Some s => parseInt s end) as [step|]; [|done].
  destruct ((step <=? 0) || (DOUBLE_LIMIT <=? step)) eqn:Hstep; [done|].
  apply orb_false_iff in Hstep as [Hpos%Z.leb_gt _].
  intros ([from to] & _ & Heq)%rbind_Ok.
  destruct ((from <? fr_min r) || (fr_max r <? to) || (to <? from)) eqn:Hr; [done|].
  apply orb_false_iff in Hr as [[Hlo%Z.ltb_ge Hhi%Z.ltb_ge]%orb_false_iff Hle%Z.ltb_ge].
  injection Heq as <-. split; [|split].
  - intros Hnil. assert (from ∈ add_steps (Z.to_nat (to - from + 1)) from to step out) as Hin.
    { apply add_steps_elem; [done|lia|]. right. exists 0. lia. }
    rewrite Hnil in Hin. by apply not_elem_of_nil in Hin.
  - by apply add_steps_nodup.
  - apply Forall_forall. intros x [Hx|(k & ? & -> & ?)]%add_steps_elem; [| |done|lia].
    + by apply (proj1 (Forall_forall _ _) HF).
    + unfold in_range. nia.
Qed.

Lemma split_on_nonempty sep cur s : split_on sep cur s <> [].
Proof. revert cur. induction s as [|c s IH]; intros cur; simpl; [done|]. case_decide; [done|apply IH]. Qed.

Lemma parseField_wf e f raw r s : parseField e f raw r = Ok s -> field_wf r s.
Proof.
  unfold parseField. pose proof (split_on_nonempty "," "" raw) as Hne.
  destruct (split_on "," "" raw) as [|part parts]; [done|]. simpl.
  intros (out & Hpart & Hrest)%rbind_Ok.
  apply parse_part_wf in Hpart; [|constructor|constructor].
  revert Hrest. apply (foldM_ind (field_wf r)); [|done].
  intros a b a' _ (_ & Hnd & HF) Hb. by eapply parse_part_wf.
Qed.

Lemma parseCron_Ok e p :
  parseCron e = Ok p -> forall f, exists raw, parseField e f raw (RANGES f) = Ok (pc_field p f).
Proof.
  unfold parseCron. case_decide; [done|].
  destruct (split_spaces false "" (trim e)) as [|a [|b [|c [|d [|w [|]]]]]]; try done.
  intros (m & Hm & (h & Hh & (dd & Hd & (mo & Hmo & (ww & Hw & Heq)%rbind_Ok)%rbind_Ok)%rbind_Ok)%rbind_Ok)%rbind_Ok.
  injection Heq as <-. intros []; simpl; eauto.
Qed.

(** C40: Whatever text is parsed, an accepted expression has at least one value
    in every field, each once, and all of them in the field's range. *)
Theorem parsed_cron_well_formed e p :
  parseCron e = Ok p -> forall f, field_wf (RANGES f) (pc_field p f).
Proof.
  intros Hp f. destruct (parseCron_Ok e p Hp f) as [raw Hraw]. by eapply parseField_wf.
Qed.

(** ** The grammar *)

Lemma parse_items e f r items out :
  match foldM (parse_part e f r) out (map item_text items) with
  | Ok s => forallb (item_ok r) items = true /\
            forall v, v ∈ s <-> v ∈ out \/ Exists (fun i => denotes r i v) items
  | Err _ => forallb (item_ok r) items = false
  end.
Proof.
  revert out. induction items as [|i items IH]; intros out; simpl.
  - split; [done|]. intros v. rewrite Exists_nil. naive_solver.
  - rewrite parse_item. destruct (item_ok r i) eqn:Hok; simpl; [|done].
    set (out' := add_steps _ _ _ _ _). specialize (IH out').
    destruct (foldM _ _ _) as [s|]; [|done]. destruct IH as [Hall Hs]. split; [done|].
    intros v. rewrite Hs, Exists_cons. unfold out', denotes.
    unfold item_ok in Hok. rewrite !andb_true_iff in Hok. destruct Hok as [[[[Hpos _] _] _] _].
    rewrite add_steps_elem by lia. tauto.
Qed.

(** The text of an expression, from its five comma lists. *)
Definition cron_text (items : CronField -> list item) : string :=
  joined " " (map (fun f => field_text (items f)) [FMinute; FHour; FDay; FMonth; FDayOfWeek]).

Lemma cron_text_fields items :
  (forall f, items f <> []) ->
  trim (cron_text items) = cron_text items /\ cron_text items <> "" /\
  split_spaces false "" (cron_text items) =
    map (fun f => field_text (items f)) [FMinute; FHour; FDay; FMonth; FDayOfWeek].
Proof.
  intros Hne.
  assert (forall f, field_text (items f) <> "") as Hn.
  { intros f. specialize (Hne f). destruct (items f); [done|]. apply field_nonempty. }
  assert (forall f, solid (field_text (items f)) = true) as Hs by (intros f; apply field_solid).
  unfold cron_text. cbn [map joined]. split_and!.
  - unfold trim. rewrite trim_start_solid by auto. rewrite <- !str_app_cons, <- !str_app_assoc.
    apply trim_end_app; [done|]. apply (trim_end_app " "); [auto|by apply trim_end_solid].
  - specialize (Hn FMinute). by destruct (field_text (items FMinute)).
  - rewrite !split_spaces_word by auto. rewrite split_spaces_last by auto. by rewrite !str_app_nil_l.
Qed.

Definition all_ok (items : CronField -> list item) : bool :=
  forallb (fun f => forallb (item_ok (RANGES f)) (items f)) [FMinute; FHour; FDay; FMonth; FDayOfWeek].

Lemma parse_field_text e f i items :
  match parseField e f (field_text (i :: items)) (RANGES f) with
  | Ok s => forallb (item_ok (RANGES f)) (i :: items) = true /\
            forall v, v ∈ s <-> Exists (fun x => denotes (RANGES f) x v) (i :: items)
  | Err _ => forallb (item_ok (RANGES f)) (i :: items) = false
  end.
Proof.
  unfold parseField. rewrite field_text_split. pose proof (parse_items e f (RANGES f) (i :: items) []) as Hp.
  destruct (foldM _ _ _) as [s|]; [|done]. destruct Hp as [Hok Hs]. split; [done|].
  intros v. rewrite Hs. split; [|by right]. intros [[]%not_elem_of_nil|]; done.
Qed.

(** The parser implements the documented grammar: the text of five comma
    lists of stars, numbers and ranges with optional steps is accepted exactly
    when every item is in range (and every step positive), and then each field
    holds exactly the values its items stand for. *)
Theorem parser_implements_grammar items :
  (forall f, items f <> []) ->
  match parseCron (cron_text items) with
  | Ok p => all_ok items = true /\
            forall f v, v ∈ pc_field p f <-> Exists (fun i => denotes (RANGES f) i v) (items f)
  | Err _ => all_ok items = false
  end.
Proof.
  intros Hne. destruct (cron_text_fields items Hne) as (Htrim & Htext & Hsplit).
  unfold parseCron. rewrite Htrim, decide_False, Hsplit by done. cbn [map].
  assert (forall f, match parseField (cron_text items) f (field_text (items f)) (RANGES f) with
                    | Ok s => forallb (item_ok (RANGES f)) (items f) = true /\
                              forall v, v ∈ s <-> Exists (fun x => denotes (RANGES f) x v) (items f)
                    | Err _ => forallb (item_ok (RANGES f)) (items f) = false
                    end) as Hf.
  { intros f. specialize (Hne f). destruct (items f); [done|]. apply parse_field_text. }
  unfold all_ok. cbn [forallb].
  pose proof (Hf FMinute) as H1. pose proof (Hf FHour) as H2. pose proof (Hf FDay) as H3.
  pose proof (Hf FMonth) as H4. pose proof (Hf FDayOfWeek) as H5. clear Hf.
  repeat match goal with
  | |- context [parseField ?e ?f ?t ?r] => destruct (parseField e f t r); cbn [rbind]
  end; destruct_and?; rewrite ?andb_true_iff, ?andb_false_iff; [|tauto..].
  split; [tauto|]. intros []; simpl; done.
Qed.

(** ** The next fire *)

Lemma in_minute_year t : 0 <= t -> day_from_year (getUTCFullYear t) * DAY_MS <= t < day_from_year (getUTCFullYear t + 1) * DAY_MS.
Proof.
  intros Ht. unfold getUTCFullYear. pose proof (year_of_day_spec (t / DAY_MS)).
  unfold DAY_MS in *. div_lia.
Qed.

(** A date that every year has. *)
Lemma yearly_match p y m d h mi :
  1970 <= y -> valid_date y (m - 1) d -> valid_time h mi ->
  m ∈ pc_month p -> d ∈ pc_day p -> h ∈ pc_hour p -> mi ∈ pc_minute p ->
  (forall w, 0 <= w <= 6 -> w ∈ pc_dayOfWeek p) ->
  let t := Date_UTC y (m - 1) d h mi in
  cron_matches p t = true /\ on_minute t /\
  day_from_year y * DAY_MS <= t < day_from_year (y + 1) * DAY_MS.
Proof.
  intros Hy Hd Ht Hm Hday Hh Hmi Hw t. destruct (Date_UTC_fields y (m - 1) d h mi) as (E1 & E2 & E3 & E4 & E5 & E6);
    [unfold plain_year; lia|done..|]. fold t in E1, E2, E3, E4, E5, E6.
  split; [|split; [done|]].
  - unfold cron_matches, has. rewrite E2, E3, E4, E5. replace (m - 1 + 1) with m by lia.
    rewrite !bool_decide_true; try done. apply Hw. unfold getUTCDay. div_lia.
  - rewrite <- E1. apply in_minute_year. unfold t. rewrite Date_UTC_plain by (unfold plain_year; lia).
    destruct Hd as [Hm12 Hd]. rewrite make_day_plain by done. destruct Ht.
    pose proof (day_from_year_mono 1970 y Hy). pose proof (days_before_mono (leap y) 0 (m - 1) ltac:(lia)).
    assert (day_from_year 1970 = 0) by done. assert (days_before (leap y) 0 = 0) by done.
    unfold DAY_MS, HOUR_MS, MINUTE_MS. lia.
Qed.

Lemma field_value f p :
  field_wf (RANGES f) (pc_field p f) -> exists v, v ∈ pc_field p f /\ in_range (RANGES f) v.
Proof.
  intros (Hne & _ & HF). destruct (pc_field p f) as [|v s]; [done|]. exists v. split; [by left|].
  by apply Forall_inv in HF.
Qed.

Lemma keeps_firing p from d :
  (forall f, field_wf (RANGES f) (pc_field p f)) -> 0 <= from -> d ∈ pc_day p -> d <= 28 ->
  (forall w, 0 <= w <= 6 -> w ∈ pc_dayOfWeek p) ->
  exists t, nextFireUTC p from = Some t /\ from < t <= from + 732 * DAY_MS /\ cron_matches p t = true.
Proof.
  intros Hwf Hfrom Hd Hd28 Hw.
  destruct (field_value FMinute p (Hwf FMinute)) as (mi & Hmi & Hmir).
  destruct (field_value FHour p (Hwf FHour)) as (h & Hh & Hhr).
  destruct (field_value FMonth p (Hwf FMonth)) as (m & Hm & Hmr).
  pose proof (proj2 (proj2 (Hwf FDay))) as HF. pose proof (proj1 (Forall_forall _ _) HF d Hd) as Hdr.
  unfold in_range in *. simpl in *. set (y := getUTCFullYear from).
  pose proof (year_after_epoch from Hfrom) as Hy. fold y in Hy.
  pose proof (month_length_bounds (y + 1) (m - 1) ltac:(lia)).
  destruct (yearly_match p (y + 1) m d h mi) as (Hmatch & Hon & Hspan); try done; [lia|split; lia|split; lia|].
  set (t := Date_UTC (y + 1) (m - 1) d h mi) in *.
  pose proof (in_minute_year from Hfrom) as Hfy. fold y in Hfy.
  pose proof (year_length y) as L1. pose proof (year_length (y + 1)) as L2.
  assert (from < t <= from + 732 * DAY_MS) as Ht.
  { unfold days_before in L1, L2. unfold DAY_MS in *. destruct (leap y), (leap (y + 1)); simpl in L1, L2; lia. }
  pose proof (next_start_after from).
  generalize (nextFireUTC_first p from Hfrom). generalize (nextFireUTC p from). intros [t'|] Hfirst.
  - destruct Hfirst as (Hlt & _ & Hm' & Hno). exists t'. split; [done|]. split; [|done].
    split; [lia|]. destruct (Z.le_gt_cases t' t); [lia|]. rewrite Hno in Hmatch; [done|lia|done].
  - rewrite Hfirst in Hmatch; [done| |done]. unfold next_horizon, HORIZON_MS, DAY_MS in *. lia.
Qed.

(** C39: In UTC and from the epoch on, the search finds the first matching
    minute: an answer is strictly later than [from], on a minute, matches all five
    fields, and no minute between them does; whenever some minute of the
    [4 * 365] days that follow [from] matches, there is an answer (no later than
    that minute). So an accepted expression that leaves the day of the week open
    and allows a day up to the 28th has a next fire after every instant, at most
    two years and two days away. *)
Theorem next_fire_is_first_match zones p from :
  0 <= from ->
  (forall t, nextFireAfter zones p from None = Some t ->
     from < t /\ on_minute t /\ cron_matches p t = true /\
     (forall t', from < t' < t -> on_minute t' -> cron_matches p t' = false)) /\
  (forall t', from < t' <= from + 4 * 365 * DAY_MS -> on_minute t' -> cron_matches p t' = true ->
     exists t, nextFireAfter zones p from None = Some t /\ t <= t') /\
  (forall e d, parseCron e = Ok p -> d ∈ pc_day p -> d <= 28 -> (forall w, 0 <= w <= 6 -> w ∈ pc_dayOfWeek p) ->
     exists t, nextFireAfter zones p from None = Some t /\ t <= from + 732 * DAY_MS).
Proof.
  intros Hfrom. assert (first_match p from (nextFireAfter zones p from None)) as Hf by by apply nextFireUTC_first.
  split_and!.
  - intros t E. rewrite E in Hf. destruct Hf as ([H1 _] & H2 & H3 & H4). done.
  - intros t' Ht Hon Hm. destruct (nextFireAfter zones p from None) as [t|].
    + exists t. split; [done|]. destruct Hf as (_ & _ & _ & Hno). destruct (Z.le_gt_cases t t'); [done|].
      rewrite Hno in Hm; [done|lia|done].
    + rewrite Hf in Hm; [done| |done]. split; [lia|]. pose proof (proj1 (next_start_least from t' Hon) ltac:(lia)).
      unfold next_horizon, HORIZON_MS, DAY_MS in *.
      pose proof (next_start_after from). lia.
  - intros e d Hp Hd H28 Hw. destruct (keeps_firing p from d) as (t & Et & Ht & _); try done.
    + intros f. destruct (parseCron_Ok e p Hp f) as [raw Hraw]. by eapply parseField_wf.
    + exists t. unfold nextFireAfter. split; [exact Et|lia].
Qed.

(** ** Instances *)

(** Noon on the first Monday of every month, and a list with steps. *)
Definition first_monday : ParsedCron :=
  match parseCron "0 12 1-7 * 1" with Ok p => p | Err _ => mkCron "" [] [] [] [] [] end.

Definition quarter_items (f : CronField) : list item :=
  match f with
  | FMinute => [mkItem BStar (Some 15%nat)]
  | FHour => [mkItem (BRange 0 6) (Some 3%nat); mkItem (BNum 22) None]
  | FDay => [mkItem (BNum 10) (Some 7%nat)]
  | FMonth | FDayOfWeek => [mkItem BStar None]
  end.

Definition quarters : ParsedCron :=
  match parseCron "*/15 0-6/3,22 10/7 * *" with Ok p => p | Err _ => mkCron "" [] [] [] [] [] end.

Definition no_zones (_ : string) (_ : Z) : WallParts := mkWall 1970 1 1 0 0.

Lemma parsed_cron_well_formed_witness : field_wf (RANGES FHour) [0; 3; 6; 22].
Proof.
  change [0; 3; 6; 22] with (pc_field quarters FHour).
  apply (parsed_cron_well_formed "*/15 0-6/3,22 10/7 * *"). vm_compute. reflexivity.
Defined.

Lemma parser_implements_grammar_witness :
  cron_text quarter_items = "*/15 0-6/3,22 10/7 * *" /\
  forall v, v ∈ [10; 17; 24; 31] <-> Exists (fun i => denotes (RANGES FDay) i v) [mkItem (BNum 10) (Some 7%nat)].
Proof.
  split; [vm_compute; reflexivity|]. intros v.
  pose proof (parser_implements_grammar quarter_items ltac:(by intros [])) as Hp.
  assert (parseCron (cron_text quarter_items) = Ok quarters) as E by (vm_compute; reflexivity).
  rewrite E in Hp. exact (proj2 Hp FDay v).
Defined.

(** 2023-11-14 22:13:20 to 2023-12-04 12:00. *)
Lemma next_fire_is_first_match_witness :
  nextFireAfter no_zones first_monday 1700000000000 None = Some 1701691200000 /\
  (forall t', 1700000000000 < t' < 1701691200000 -> on_minute t' -> cron_matches first_monday t' = false) /\
  exists t, nextFireAfter no_zones quarters 1700000000000 None = Some t /\ t <= 1700000000000 + 732 * DAY_MS.
Proof.
  assert (nextFireAfter no_zones first_monday 1700000000000 None = Some 1701691200000) as E
    by (vm_compute; reflexivity).
  split; [exact E|]. split.
  - apply (next_fire_is_first_match no_zones first_monday 1700000000000 ltac:(lia)). exact E.
  - destruct (next_fire_is_first_match no_zones quarters 1700000000000 ltac:(lia)) as (_ & _ & H).
    apply (H "*/15 0-6/3,22 10/7 * *" 10); [vm_compute; reflexivity|apply (bool_decide_unpack _); vm_compute; exact I|lia|].
    intros w Hw. assert (w ∈ [0; 1; 2; 3; 4; 5; 6]) as Hin by (rewrite !elem_of_cons; lia). exact Hin.
Defined.
