(* ===== verification/CronZone.v ===== *)
(** * Cron on the wall clock of a zone

    Every fire the zone search returns is a wall-clock match (or the end of a
    gap that swallowed one), and in a zone whose offset never changes the search
    is the UTC search, shifted. *)

From stdpp Require Import sorting.
From S2P Require Import Prelude Calendar Cron CronProps.

Local Open Scope Z_scope.

(** What the zone data promises: valid calendar fields, for instants from the
    epoch on. *)
Definition valid_wall (w : WallParts) : Prop :=
  1969 <= wp_year w /\ valid_date (wp_year w) (wp_month w - 1) (wp_day w) /\
  valid_time (wp_hour w) (wp_minute w).

Definition zone_ok (wallPartsAt : Z -> WallParts) : Prop := forall t, 0 <= t -> valid_wall (wallPartsAt t).

Definition wall_matches (p : ParsedCron) (w : WallParts) : bool :=
  has (wp_month w) (pc_month p) && has (wp_day w) (pc_day p) &&
  has (getUTCDay (Date_UTC (wp_year w) (wp_month w - 1) (wp_day w) 0 0)) (pc_dayOfWeek p) &&
  has (wp_hour w) (pc_hour p) && has (wp_minute w) (pc_minute p).

(** ** Lists *)

Lemma insert_Z_perm v l : insert_Z v l ≡ₚ v :: l.
Proof.
  induction l as [|x l IH]; simpl; [done|]. destruct (v <=? x); [done|]. rewrite IH. constructor.
Qed.

Lemma sort_Z_perm l : sort_Z l ≡ₚ l.
Proof. induction l as [|v l IH]; simpl; [done|]. by rewrite insert_Z_perm, IH. Qed.

Lemma elem_sort_Z x l : x ∈ sort_Z l <-> x ∈ l.
Proof. by rewrite sort_Z_perm. Qed.

Lemma insert_Z_sorted v l : StronglySorted Z.le l -> StronglySorted Z.le (insert_Z v l).
Proof.
  induction 1 as [|x l Hs IH HF]; simpl; [by repeat constructor|].
  destruct (Z.leb_spec v x).
  - constructor; [by constructor|]. constructor; [done|]. eapply Forall_impl; [exact HF|simpl; lia].
  - constructor; [done|]. rewrite insert_Z_perm. constructor; [lia|done].
Qed.

Lemma sort_Z_sorted l : StronglySorted Z.le (sort_Z l).
Proof. induction l as [|v l IH]; simpl; [constructor|by apply insert_Z_sorted]. Qed.

Lemma first_some_Some {A B} (f : A -> option B) l b :
  first_some f l = Some b -> exists a, a ∈ l /\ f a = Some b.
Proof.
  induction l as [|a l IH]; simpl; [done|]. destruct (f a) eqn:E.
  - intros [= <-]. exists a. split; [by left|done].
  - intros (x & ? & ?)%IH. exists x. split; [by right|done].
Qed.

(** ** Wall times *)

Lemma Date_UTC_minute y m d h mi : on_minute (Date_UTC y m d h mi).
Proof. unfold on_minute, Date_UTC, DAY_MS, HOUR_MS, MINUTE_MS. div_lia. Qed.

Lemma Date_UTC_inj y m d h mi y' m' d' h' mi' :
  plain_year y -> plain_year y' -> valid_date y m d -> valid_date y' m' d' -> valid_time h mi -> valid_time h' mi' ->
  Date_UTC y m d h mi = Date_UTC y' m' d' h' mi' -> y = y' /\ m = m' /\ d = d' /\ h = h' /\ mi = mi'.
Proof.
  intros Hy Hy' Hd Hd' Ht Ht' Heq.
  destruct (Date_UTC_fields y m d h mi Hy Hd Ht) as (E1 & E2 & E3 & E4 & E5 & _).
  destruct (Date_UTC_fields y' m' d' h' mi' Hy' Hd' Ht') as (F1 & F2 & F3 & F4 & F5 & _).
  rewrite Heq in E1, E2, E3, E4, E5. split_and!; congruence.
Qed.

Lemma floor_on_minute t : on_minute t -> floor_to MINUTE_MS t = t.
Proof. unfold on_minute, floor_to, MINUTE_MS. div_lia. Qed.

Lemma year_lower t : day_from_year 1900 * DAY_MS <= t -> 1900 <= getUTCFullYear t.
Proof.
  intros Ht. unfold getUTCFullYear.
  assert (day_from_year 1900 <= t / DAY_MS) as HD by (apply Z.div_le_lower_bound; unfold DAY_MS in *; lia).
  pose proof (year_of_day_spec (t / DAY_MS)) as Hs.
  destruct (Z.le_gt_cases 1900 (year_of_day (t / DAY_MS))) as [|Hlt]; [done|exfalso].
  pose proof (day_from_year_mono (year_of_day (t / DAY_MS) + 1) 1900 ltac:(lia)). lia.
Qed.

Lemma Date_UTC_year y m d h mi :
  1900 <= y -> valid_date y m d -> valid_time h mi ->
  day_from_year y * DAY_MS <= Date_UTC y m d h mi < day_from_year (y + 1) * DAY_MS.
Proof.
  intros Hy [Hm Hd] [Hh Hmi]. rewrite Date_UTC_plain by (unfold plain_year; lia). rewrite make_day_plain by done.
  rewrite year_length. unfold month_length in Hd.
  pose proof (days_before_mono (leap y) 0 m ltac:(lia)). pose proof (days_before_mono (leap y) (m + 1) 12 ltac:(lia)).
  assert (days_before (leap y) 0 = 0) by done. unfold DAY_MS, HOUR_MS, MINUTE_MS. lia.
Qed.

(** Moving by a day within the calendar. *)
Lemma wall_day_valid t :
  day_from_year 1900 * DAY_MS <= t ->
  let '(y, m, d) := wall_day t in 1900 <= y /\ valid_date y (m - 1) d.
Proof.
  intros Ht. unfold wall_day. rewrite Z.add_simpl_r. split; [by apply year_lower|apply date_valid].
Qed.

Lemma nextWallDay_valid y m d :
  1900 <= y -> valid_date y (m - 1) d ->
  let '(y', m', d') := nextWallDay y m d in 1900 <= y' /\ valid_date y' (m' - 1) d'.
Proof.
  intros Hy Hd. apply wall_day_valid.
  pose proof (Date_UTC_year y (m - 1) d 0 0 Hy Hd ltac:(by unfold valid_time)) as Hyear.
  pose proof (day_from_year_mono 1900 y Hy). unfold DAY_MS in *. lia.
Qed.

Lemma Date_UTC_day y m d h mi :
  plain_year y -> valid_time h mi -> Date_UTC y m d h mi / DAY_MS = make_day y m d.
Proof.
  intros Hy [Hh Hmi]. rewrite Date_UTC_plain by done. unfold DAY_MS, HOUR_MS, MINUTE_MS. div_lia.
Qed.

Section Zone.
Context (wallPartsAt : Z -> WallParts).
Notation offsetAt := (offsetAt wallPartsAt).

Lemma offset_minutes t : on_minute (offsetAt t).
Proof.
  unfold Cron.offsetAt, wall_ms. pose proof (Date_UTC_minute (wp_year (wallPartsAt t))
    (wp_month (wallPartsAt t) - 1) (wp_day (wallPartsAt t)) (wp_hour (wallPartsAt t)) (wp_minute (wallPartsAt t))) as Hm.
  unfold on_minute, floor_to, MINUTE_MS in *. div_lia.
Qed.

Lemma instant_with_Some w off t :
  instant_with wallPartsAt w off = Some t -> t = w - off /\ offsetAt t = off.
Proof.
  unfold instant_with. destruct (Z.eqb_spec (offsetAt (w - off)) off) as [Heq|]; [|done]. by intros [= <-].
Qed.

(** The list of instants, by its definition. *)
Lemma instants_eq w :
  sort_Z (omap (instant_with wallPartsAt w) (offsets_around wallPartsAt w)) = utcInstantsForWall wallPartsAt w.
Proof. unfold utcInstantsForWall. exact (eq_refl _). Qed.

(** The instants of a wall time show that wall time. *)
Lemma instants_show w t :
  on_minute w -> t ∈ utcInstantsForWall wallPartsAt w -> on_minute t /\ wall_ms (wallPartsAt t) = w.
Proof.
  intros Hw Ht. rewrite <- instants_eq in Ht. apply (proj1 (elem_sort_Z _ _)) in Ht.
  apply list_elem_of_omap in Ht as (off & _ & [Ht Hoff]%instant_with_Some).
  pose proof (offset_minutes t) as Hm. rewrite Hoff in Hm.
  assert (on_minute t) as Hon by (unfold on_minute, MINUTE_MS in *; clear Hoff; div_lia).
  split; [done|]. unfold Cron.offsetAt in Hoff. rewrite floor_on_minute in Hoff by done. lia.
Qed.

(** ** Soundness *)

Section Sound.
Context (p : ParsedCron) (from : Z) (fixedTime : bool).

(** Either [t] shows a wanted wall time, or a wanted wall time does not exist and
    [t] is the end of the gap. *)
Definition justified (t : Z) : Prop :=
  (on_minute t /\ exists w, 1900 <= wp_year w /\ valid_date (wp_year w) (wp_month w - 1) (wp_day w) /\
     valid_time (wp_hour w) (wp_minute w) /\ wall_matches p w = true /\ wall_ms (wallPartsAt t) = wall_ms w) \/
  (fixedTime = true /\ exists w, wall_matches p w = true /\
     utcInstantsForWall wallPartsAt (wall_ms w) = [] /\ t = gapTransitionEnd wallPartsAt (wall_ms w)).

Lemma try_wall_justified y m d h mi t :
  let w := mkWall y m d h mi in
  1900 <= y -> valid_date y (m - 1) d -> valid_time h mi -> wall_matches p w = true ->
  try_wall wallPartsAt from fixedTime y m d h mi = Some t -> from < t /\ justified t.
Proof.
  intros w Hy Hd Ht Hm. unfold try_wall. change (Date_UTC y (m - 1) d h mi) with (wall_ms w).
  assert (forall t, t ∈ utcInstantsForWall wallPartsAt (wall_ms w) -> justified t) as Hin.
  { intros t' Hin. apply instants_show in Hin as [Hon Hw]; [|apply Date_UTC_minute]. left. split; [done|].
    exists w. done. }
  destruct (utcInstantsForWall wallPartsAt (wall_ms w)) as [|t1 [|t2 ts]] eqn:E.
  - destruct fixedTime eqn:Ef; [|done]. destruct (Z.ltb_spec from (gapTransitionEnd wallPartsAt (wall_ms w))); [|done].
    intros [= <-]. split; [done|]. right. split; [done|]. by exists w.
  - destruct (Z.ltb_spec from t1); [|done]. intros [= <-]. split; [done|]. apply Hin. by left.
  - destruct fixedTime.
    + destruct (Z.ltb_spec from t1); [|done]. intros [= <-]. split; [done|]. apply Hin. by left.
    + destruct (List.find _ _) as [t'|] eqn:Ef; [|done]. apply List.find_some in Ef as [Hin' Hlt].
      rewrite Hlt. intros [= <-]. split; [lia|]. apply Hin. by apply list_elem_of_In.
Qed.

Lemma try_day_justified y m d t :
  (forall f, field_wf (RANGES f) (pc_field p f)) ->
  1900 <= y -> valid_date y (m - 1) d ->
  has m (pc_month p) = true -> has d (pc_day p) = true ->
  has (getUTCDay (Date_UTC y (m - 1) d 0 0)) (pc_dayOfWeek p) = true ->
  try_day wallPartsAt p from fixedTime y m d = Some t -> from < t /\ justified t.
Proof.
  intros Hwf Hy Hd Hmo Hda Hdow (h & Hh & (mi & Hmi & Ht)%first_some_Some)%first_some_Some.
  apply (proj1 (elem_sort_Z _ _)) in Hh, Hmi.
  destruct (Hwf FHour) as (_ & _ & HFh). destruct (Hwf FMinute) as (_ & _ & HFm).
  pose proof (proj1 (Forall_forall _ _) HFh h Hh) as Hhr. pose proof (proj1 (Forall_forall _ _) HFm mi Hmi) as Hmr.
  unfold in_range in *. simpl in *.
  apply (try_wall_justified y m d h mi); [done|done|split; lia| |done].
  unfold wall_matches. simpl. rewrite Hmo, Hda, Hdow. unfold has. by rewrite !bool_decide_true.
Qed.

Lemma scan_justified scans y m d t :
  (forall f, field_wf (RANGES f) (pc_field p f)) ->
  1900 <= y -> valid_date y (m - 1) d ->
  scan_days wallPartsAt p from fixedTime scans y m d = Some t -> from < t /\ justified t.
Proof.
  intros Hwf. revert y m d. induction scans as [|scans IH]; intros y m d Hy Hd; [done|]. cbn [scan_days].
  destruct (has m (pc_month p)) eqn:Hm; cbn [negb].
  2: { destruct (Z.eqb_spec m 12).
       - apply IH; [lia|]. split; [lia|]. pose proof (month_length_bounds (y + 1) (1 - 1) ltac:(lia)). lia.
       - destruct Hd as [Hm12 _]. apply IH; [done|]. split; [lia|].
         pose proof (month_length_bounds y (m + 1 - 1) ltac:(lia)). lia. }
  pose proof (nextWallDay_valid y m d Hy Hd) as Hv. destruct (nextWallDay y m d) as [[y' m'] d'].
  destruct (has d (pc_day p) && has _ (pc_dayOfWeek p)) eqn:Hdd; [|by apply IH; apply Hv].
  apply andb_true_iff in Hdd as [Hday Hdow].
  destruct (try_day _ _ _ _ _ _ _) as [t'|] eqn:Ht; [|by apply IH; apply Hv].
  intros [= <-]. by eapply try_day_justified.
Qed.
End Sound.
End Zone.

(** ** Gaps *)

Section Gap.
Context (wallPartsAt : Z -> WallParts).
Notation offsetAt := (offsetAt wallPartsAt).

(** The minute at which the offset stops being [off]. *)
Definition offset_change (t off : Z) : Prop := offsetAt (t - MINUTE_MS) = off /\ offsetAt t <> off.

Lemma gap_search_change fuel off lo n :
  1 <= n <= 2 ^ Z.of_nat fuel -> offsetAt lo = off -> offsetAt (lo + n * MINUTE_MS) <> off ->
  exists k, 1 <= k <= n /\ gap_search wallPartsAt fuel off lo (lo + n * MINUTE_MS) = lo + k * MINUTE_MS /\
    offset_change (lo + k * MINUTE_MS) off.
Proof.
  assert (forall lo, offsetAt lo = off -> offsetAt (lo + 1 * MINUTE_MS) <> off ->
            offset_change (lo + 1 * MINUTE_MS) off) as Hone.
  { intros l Hl Hr. split; [|done]. by replace (l + 1 * MINUTE_MS - MINUTE_MS) with l by lia. }
  revert lo n. induction fuel as [|fuel IH]; intros lo n Hn Hlo Hhi.
  - change (2 ^ Z.of_nat 0) with 1 in Hn. replace n with 1 in * by lia. exists 1. split; [lia|]. split; [done|auto].
  - cbn [gap_search]. rewrite Z.add_simpl_l. destruct (Z.leb_spec (n * MINUTE_MS) MINUTE_MS) as [Hle|Hgt].
    { assert (n = 1) as -> by (unfold MINUTE_MS in *; lia). exists 1. split; [lia|]. split; [done|auto]. }
    replace (n * MINUTE_MS / (2 * MINUTE_MS)) with (n / 2) by (unfold MINUTE_MS; div_lia).
    rewrite Nat2Z.inj_succ, Z.pow_succ_r in Hn by lia.
    set (h := n / 2). assert (1 <= h < n /\ n - h <= 2 ^ Z.of_nat fuel /\ h <= 2 ^ Z.of_nat fuel) as Hh.
    { unfold h, MINUTE_MS in *. clear -Hn Hgt. revert Hn. generalize (2 ^ Z.of_nat fuel). intros q Hq. div_lia. }
    rewrite (proj2 (Z.leb_gt _ _)), (proj2 (Z.leb_gt _ _)) by (unfold MINUTE_MS; lia). cbn [orb].
    destruct (Z.eqb_spec (offsetAt (lo + h * MINUTE_MS)) off) as [Hmid|Hmid].
    + replace (lo + n * MINUTE_MS) with (lo + h * MINUTE_MS + (n - h) * MINUTE_MS) in * by lia.
      destruct (IH (lo + h * MINUTE_MS) (n - h) ltac:(lia) Hmid Hhi) as (k & Hk & -> & Hc).
      exists (h + k). split; [lia|].
      replace (lo + (h + k) * MINUTE_MS) with (lo + h * MINUTE_MS + k * MINUTE_MS) by lia. done.
    + destruct (IH lo h ltac:(lia) Hlo Hmid) as (k & Hk & -> & Hc). exists k. split; [lia|]. done.
Qed.

(** When the offsets a day before and a day after differ, the end of the gap is a
    minute at which the offset changes, within these two days. *)
Lemma gap_end_changes w :
  on_minute w -> offsetAt (w - DAY_MS) <> offsetAt (w + DAY_MS) ->
  w - DAY_MS < gapTransitionEnd wallPartsAt w <= w + DAY_MS /\
  offset_change (gapTransitionEnd wallPartsAt w) (offsetAt (w - DAY_MS)).
Proof.
  intros Hw Hne. unfold gapTransitionEnd.
  assert (on_minute (w - DAY_MS) /\ on_minute (w + DAY_MS)) as [H1 H2].
  { clear Hne. unfold on_minute, DAY_MS, MINUTE_MS in *. div_lia. }
  rewrite !floor_on_minute by done.
  replace (w + DAY_MS) with (w - DAY_MS + 2880 * MINUTE_MS) in * by (unfold DAY_MS, MINUTE_MS; lia).
  destruct (gap_search_change 13 (offsetAt (w - DAY_MS)) (w - DAY_MS) 2880) as (k & Hk & -> & Hc);
    [done|done|congruence|]. split; [unfold MINUTE_MS; lia|done].
Qed.
End Gap.

(** A fire on the wall clock of a zone is one the expression asks for: it is
    later than [from], and either the zone's clock shows a matching minute then,
    or the job names fixed times, a matching minute was swallowed by a gap, and
    the fire is the end of that gap: the minute at which the offset changes. *)
Theorem zone_fires_show_wanted_time zones tz e p from t :
  tz <> "UTC"%string -> zone_ok (zones tz) -> parseCron e = Ok p -> 0 <= from ->
  nextFireAfter zones p from (Some tz) = Some t ->
  from < t /\
  ((on_minute t /\ wall_matches p (zones tz t) = true) \/
   (isFullRange (pc_minute p) (RANGES FMinute) = false /\ isFullRange (pc_hour p) (RANGES FHour) = false /\
    exists w, wall_matches p w = true /\ utcInstantsForWall (zones tz) (wall_ms w) = [] /\
      (offsetAt (zones tz) (wall_ms w - DAY_MS) <> offsetAt (zones tz) (wall_ms w + DAY_MS) ->
       offset_change (zones tz) t (offsetAt (zones tz) (wall_ms w - DAY_MS))))).
Proof.
  intros Htz Hzone Hp Hfrom. unfold nextFireAfter. rewrite decide_False by done. unfold nextFireAfterInZone.
  set (fixed := negb _ && negb _). destruct (Hzone from Hfrom) as (Hy & Hd & _).
  pose proof (wall_day_valid (Date_UTC (wp_year (zones tz from)) (wp_month (zones tz from) - 1)
                (wp_day (zones tz from)) 0 0 - DAY_MS)) as Hv.
  assert (1900 <= wp_year (zones tz from)) as Hy0 by lia.
  pose proof (Date_UTC_year _ _ _ 0 0 Hy0 Hd ltac:(by unfold valid_time)) as Hyear.
  pose proof (day_from_year_mono 1969 _ Hy). assert (day_from_year 1900 + 1 <= day_from_year 1969) by done.
  unfold previousWallDay. destruct (wall_day _) as [[y m] d]. destruct Hv as [Hy' Hd']; [unfold DAY_MS in *; lia|].
  intros [Hlt Hj]%scan_justified; [|intros f; destruct (parseCron_Ok e p Hp f); by eapply parseField_wf|done|done].
  split; [done|]. destruct Hj as [(Hon & w & Hwy & Hwd & Hwt & Hwm & Hms)|(Hfix & w & Hwm & Hnone & ->)].
  - left. split; [done|]. destruct (Hzone t ltac:(lia)) as (Hty & Htd & Htt).
    apply Date_UTC_inj in Hms as (E1 & E2 & E3 & E4 & E5); try done; [|unfold plain_year; lia..].
    unfold wall_matches in *. replace (wp_month (zones tz t)) with (wp_month w) by lia. by rewrite E1, E3, E4, E5.
  - right. apply andb_true_iff in Hfix as [F1%negb_true_iff F2%negb_true_iff]. split; [done|]. split; [done|].
    exists w. split; [done|]. split; [done|]. intros Hne. by apply gap_end_changes; [apply Date_UTC_minute|].
Qed.

(** ** Zones without transitions *)

(** A zone that is always [off] milliseconds ahead of UTC. *)
Definition shifted (off t : Z) : WallParts :=
  mkWall (getUTCFullYear (t + off)) (getUTCMonth (t + off) + 1) (getUTCDate (t + off))
    (getUTCHours (t + off)) (getUTCMinutes (t + off)).

Lemma first_some_least {B} (f : Z -> option B) l a b :
  StronglySorted Z.le l -> a ∈ l -> f a = Some b -> (forall x, x ∈ l -> x < a -> f x = None) ->
  first_some f l = Some b.
Proof.
  intros Hs Ha Hf Hless. induction Hs as [|x l Hs IH HF]; [by apply not_elem_of_nil in Ha|]. simpl.
  apply elem_of_cons in Ha as [->|Ha]; [by rewrite Hf|].
  pose proof (proj1 (Forall_forall _ _) HF a Ha) as Hle.
  destruct (decide (x = a)) as [->|Hne]; [by rewrite Hf|].
  rewrite (Hless x) by (by left || lia). apply IH; [done|]. intros y Hy. apply Hless. by right.
Qed.

Lemma first_some_None {A B} (f : A -> option B) l : (forall x, x ∈ l -> f x = None) -> first_some f l = None.
Proof.
  induction l as [|a l IH]; simpl; [done|]. intros Hf. rewrite Hf by by left. apply IH. intros x Hx.
  apply Hf. by right.
Qed.

(** Calendar steps of the scan, by day number. *)
Lemma epoch_day y m d : 1970 <= y -> valid_date y m d -> 0 <= make_day y m d.
Proof.
  intros Hy [Hm Hd]. rewrite make_day_plain by done. pose proof (day_from_year_mono 1970 y Hy).
  pose proof (days_before_mono (leap y) 0 m ltac:(lia)). assert (days_before (leap y) 0 = 0) by done.
  assert (day_from_year 1970 = 0) by done. lia.
Qed.

Lemma day_start_fields y m d :
  valid_date y m d ->
  let t := make_day y m d * DAY_MS in getUTCFullYear t = y /\ getUTCMonth t = m /\ getUTCDate t = d.
Proof. intros Hd. apply make_day_date; [done|]. by rewrite Z.div_mul. Qed.

Lemma month_of_day y m d t :
  1970 <= y -> valid_date y (m - 1) d ->
  make_day y (m - 1) d * DAY_MS <= t < next_month (make_day y (m - 1) d * DAY_MS) -> getUTCMonth t + 1 = m.
Proof.
  intros Hy Hd Ht. pose proof (epoch_day y (m - 1) d Hy Hd) as Hpos.
  destruct (day_start_fields y (m - 1) d Hd) as (_ & E2 & _).
  destruct (month_span (make_day y (m - 1) d * DAY_MS) t) as [Em _]; [unfold DAY_MS; lia|done|]. lia.
Qed.

Lemma month_jump y m d :
  1970 <= y -> valid_date y (m - 1) d ->
  (if m =? 12 then make_day (y + 1) (1 - 1) 1 else make_day y (m + 1 - 1) 1) * DAY_MS =
    next_month (make_day y (m - 1) d * DAY_MS) /\
  make_day y (m - 1) d < (if m =? 12 then make_day (y + 1) (1 - 1) 1 else make_day y (m + 1 - 1) 1) /\
  if m =? 12 then valid_date (y + 1) (1 - 1) 1 else valid_date y (m + 1 - 1) 1.
Proof.
  intros Hy Hd. pose proof (epoch_day y (m - 1) d Hy Hd) as Hpos.
  destruct (day_start_fields y (m - 1) d Hd) as (E1 & E2 & _). destruct Hd as [Hm Hd].
  rewrite next_month_day by (unfold DAY_MS; lia). rewrite E1, E2, (make_day_plain y (m - 1)) by done.
  replace (m - 1 + 1) with m by lia. unfold month_length in Hd. replace (m - 1 + 1) with m in Hd by lia.
  destruct (Z.eqb_spec m 12) as [->|Hne].
  - pose proof (month_length_bounds (y + 1) 0 ltac:(lia)). change (1 - 1) with 0.
    rewrite make_day_plain, year_length by lia. change (days_before (leap (y + 1)) 0) with 0.
    split_and!; [|lia|split; lia]. lia.
  - pose proof (month_length_bounds y m ltac:(lia)). rewrite Z.add_simpl_r, make_day_plain by lia.
    split_and!; [|lia|split; lia]. lia.
Qed.

Lemma next_wall_day y m d :
  1970 <= y -> valid_date y (m - 1) d ->
  let '(y', m', d') := nextWallDay y m d in
  1970 <= y' /\ valid_date y' (m' - 1) d' /\ make_day y' (m' - 1) d' = make_day y (m - 1) d + 1.
Proof.
  intros Hy Hd. pose proof (epoch_day y (m - 1) d Hy Hd) as Hpos. unfold nextWallDay, wall_day.
  rewrite Date_UTC_plain by (unfold plain_year; lia). rewrite Z.mul_0_l, Z.mul_0_l, !Z.add_0_r, !Z.add_simpl_r.
  split_and!; [apply year_after_epoch; unfold DAY_MS; lia|apply date_valid|].
  rewrite date_day. unfold DAY_MS. div_lia.
Qed.

Section Fixed.
Context (off : Z) (off_minutes : on_minute off) (off_small : - DAY_MS <= off <= DAY_MS).

Lemma shifted_offset t : day_from_year 1900 * DAY_MS <= t + off -> offsetAt (shifted off) t = off.
Proof using off_minutes.
  intros Ht. unfold offsetAt, wall_ms, shifted. cbn [wp_year wp_month wp_day wp_hour wp_minute].
  rewrite Z.add_simpl_r, fields_Date_UTC by (pose proof (year_lower _ Ht); unfold plain_year; lia).
  unfold floor_to, on_minute, MINUTE_MS in *. clear Ht off_small. div_lia.
Qed.

Lemma shifted_instants w :
  day_from_year 1969 * DAY_MS <= w -> utcInstantsForWall (shifted off) w = [w - off].
Proof using off_minutes off_small.
  intros Hw. assert (day_from_year 1900 * DAY_MS + 3 * DAY_MS <= day_from_year 1969 * DAY_MS) by done.
  rewrite <- instants_eq. unfold offsets_around, instant_with.
  rewrite !shifted_offset by (unfold DAY_MS in *; lia).
  assert (set_add off [] = [off]) as -> by done.
  assert (set_add off [off] = [off]) as E by (unfold set_add, has; by rewrite bool_decide_true by by left).
  rewrite !E. cbn [omap list_omap]. rewrite shifted_offset by (unfold DAY_MS in *; lia).
  by rewrite Z.eqb_refl.
Qed.

Section Search.
Context (p : ParsedCron) (from : Z) (fixedTime : bool) (T : Z).
Context (from_late : DAY_MS <= from + off) (wf : forall f, field_wf (RANGES f) (pc_field p f)).
Context (T_first : from + off < T) (T_on : on_minute T) (T_matches : cron_matches p T = true).
Context (T_least : forall t, from + off < t < T -> on_minute t -> cron_matches p t = false).

Lemma shifted_try_wall y m d h mi :
  1970 <= y -> valid_date y (m - 1) d -> valid_time h mi ->
  try_wall (shifted off) from fixedTime y m d h mi =
    if from + off <? Date_UTC y (m - 1) d h mi then Some (Date_UTC y (m - 1) d h mi - off) else None.
Proof using off_minutes off_small.
  intros Hy Hd Ht. unfold try_wall.
  pose proof (Date_UTC_year y (m - 1) d h mi ltac:(lia) Hd Ht) as Hyear.
  pose proof (day_from_year_mono 1969 y ltac:(lia)).
  rewrite shifted_instants by (unfold DAY_MS in *; lia).
  destruct (Z.ltb_spec from (Date_UTC y (m - 1) d h mi - off)),
    (Z.ltb_spec (from + off) (Date_UTC y (m - 1) d h mi)); lia || done.
Qed.

(** A wall minute of the schedule that is not after [T]. *)
Lemma wall_minute y m d h mi (t := Date_UTC y (m - 1) d h mi) :
  1970 <= y -> valid_date y (m - 1) d -> valid_time h mi ->
  has m (pc_month p) = true -> has d (pc_day p) = true ->
  has (getUTCDay (Date_UTC y (m - 1) d 0 0)) (pc_dayOfWeek p) = true ->
  h ∈ pc_hour p -> mi ∈ pc_minute p -> t < T -> t <= from + off.
Proof using T_least.
  intros Hy Hd Ht Hm Hda Hdow Hh Hmi HT.
  destruct (Date_UTC_fields y (m - 1) d h mi) as (E1 & E2 & E3 & E4 & E5 & _); [unfold plain_year; lia|done..|].
  fold t in E1, E2, E3, E4, E5. destruct (Z.le_gt_cases t (from + off)) as [|Hgt]; [done|exfalso].
  assert (cron_matches p t = true) as Hmatch; [|by rewrite T_least in Hmatch; [|lia|apply Date_UTC_minute]].
  unfold cron_matches. rewrite E2, E3, E4, E5. replace (m - 1 + 1) with m by lia. rewrite Hm, Hda.
  replace (getUTCDay t) with (getUTCDay (Date_UTC y (m - 1) d 0 0)).
  - rewrite Hdow. unfold has. by rewrite !bool_decide_true.
  - unfold getUTCDay, t. by rewrite (Date_UTC_day y (m - 1) d h mi), (Date_UTC_day y (m - 1) d 0 0)
      by (unfold plain_year; lia || by unfold valid_time).
Qed.

Lemma hour_valid h : h ∈ pc_hour p -> 0 <= h < 24.
Proof using wf.
  intros Hh. destruct (wf FHour) as (_ & _ & HF). pose proof (proj1 (Forall_forall _ _) HF h Hh) as Hr.
  unfold in_range in Hr. simpl in Hr. lia.
Qed.

Lemma minute_valid mi : mi ∈ pc_minute p -> 0 <= mi < 60.
Proof using wf.
  intros Hmi. destruct (wf FMinute) as (_ & _ & HF). pose proof (proj1 (Forall_forall _ _) HF mi Hmi) as Hr.
  unfold in_range in Hr. simpl in Hr. lia.
Qed.

(** Before the day of [T] nothing is found. *)
Lemma shifted_try_day_before y m d :
  1970 <= y -> valid_date y (m - 1) d ->
  has m (pc_month p) = true -> has d (pc_day p) = true ->
  has (getUTCDay (Date_UTC y (m - 1) d 0 0)) (pc_dayOfWeek p) = true ->
  make_day y (m - 1) d < T / DAY_MS -> try_day (shifted off) p from fixedTime y m d = None.
Proof using off_minutes off_small wf T_least.
  intros Hy Hd Hm Hda Hdow HT. apply first_some_None. intros h Hh%(proj1 (elem_sort_Z _ _)).
  apply first_some_None. intros mi Hmi%(proj1 (elem_sort_Z _ _)).
  assert (valid_time h mi) as Ht by (split; [by apply hour_valid|by apply minute_valid]).
  rewrite shifted_try_wall by done. rewrite (proj2 (Z.ltb_ge _ _)); [done|].
  apply wall_minute; try done. pose proof (Date_UTC_day y (m - 1) d h mi ltac:(unfold plain_year; lia) Ht) as HD.
  rewrite <- HD in HT. clear -HT. unfold DAY_MS in *. div_lia.
Qed.

(** On the day of [T] it is found. *)
Lemma shifted_try_day_on y m d :
  1970 <= y -> valid_date y (m - 1) d -> make_day y (m - 1) d = T / DAY_MS ->
  has m (pc_month p) && has d (pc_day p) &&
    has (getUTCDay (Date_UTC y (m - 1) d 0 0)) (pc_dayOfWeek p) = true /\
  try_day (shifted off) p from fixedTime y m d = Some (T - off).
Proof using off_minutes off_small wf T_least T_first T_on T_matches.
  intros Hy Hd HD. destruct (make_day_date y (m - 1) d T Hd (eq_sym HD)) as (E1 & E2 & E3).
  pose proof T_matches as HT. unfold cron_matches in HT. rewrite E2, E3 in HT. rewrite !andb_true_iff in HT.
  destruct HT as [[[[Hm Hda] Hdow] Hh] Hmi]. replace (m - 1 + 1) with m in Hm by lia.
  assert (getUTCDay (Date_UTC y (m - 1) d 0 0) = getUTCDay T) as Edow.
  { unfold getUTCDay. by rewrite Date_UTC_day, HD by (unfold plain_year; lia || by unfold valid_time). }
  rewrite Edow, Hm, Hda, Hdow. split; [done|].
  pose proof (time_valid T) as Ht.
  assert (Date_UTC y (m - 1) d (getUTCHours T) (getUTCMinutes T) = T) as EU.
  { rewrite <- E1, <- E2, <- E3. rewrite fields_Date_UTC by (rewrite E1; unfold plain_year; lia).
    by apply floor_on_minute. }
  apply bool_decide_eq_true in Hh, Hmi.
  assert (forall h mi, h ∈ pc_hour p -> mi ∈ pc_minute p -> (h < getUTCHours T \/ h = getUTCHours T /\ mi < getUTCMinutes T) ->
            try_wall (shifted off) from fixedTime y m d h mi = None) as Hless.
  { intros h mi Hh' Hmi' Hlt.
    assert (valid_time h mi) as Ht' by (split; [by apply hour_valid|by apply minute_valid]).
    rewrite shifted_try_wall by done. rewrite (proj2 (Z.ltb_ge _ _)); [done|].
    apply wall_minute; try done; [unfold has; by rewrite Edow|].
    rewrite <- EU, !Date_UTC_plain by (unfold plain_year; lia).
    clear -Hlt Ht Ht'. destruct Ht, Ht'. unfold HOUR_MS, MINUTE_MS. lia. }
  apply (first_some_least _ _ (getUTCHours T)); [apply sort_Z_sorted|by apply elem_sort_Z| |].
  - apply (first_some_least _ _ (getUTCMinutes T)); [apply sort_Z_sorted|by apply elem_sort_Z| |].
    + rewrite shifted_try_wall, EU by done. by rewrite (proj2 (Z.ltb_lt _ _)).
    + intros mi Hmi'%(proj1 (elem_sort_Z _ _)) Hlt. apply Hless; [done|done|by right].
  - intros h Hh'%(proj1 (elem_sort_Z _ _)) Hlt. apply first_some_None.
    intros mi Hmi'%(proj1 (elem_sort_Z _ _)). apply Hless; [done|done|by left].
Qed.

(** The scan reaches the day of [T]. *)
Lemma shifted_scan scans y m d :
  1970 <= y -> valid_date y (m - 1) d ->
  make_day y (m - 1) d <= T / DAY_MS < make_day y (m - 1) d + Z.of_nat scans ->
  scan_days (shifted off) p from fixedTime scans y m d = Some (T - off).
Proof using off_minutes off_small wf T_least T_first T_on T_matches.
  revert y m d. induction scans as [|scans IH]; intros y m d Hy Hd HD; [lia|]. cbn [scan_days].
  set (D := make_day y (m - 1) d) in *.
  destruct (has m (pc_month p)) eqn:Hm; cbn [negb].
  2: { assert (next_month (D * DAY_MS) <= T) as Hnext.
       { destruct (Z.le_gt_cases (next_month (D * DAY_MS)) T) as [|Hgt]; [done|exfalso].
         pose proof T_matches as HT. unfold cron_matches in HT.
         rewrite (month_of_day y m d T Hy Hd) in HT by (fold D; clear -HD Hgt; unfold DAY_MS in *; div_lia).
         by rewrite Hm in HT. }
       destruct (month_jump y m d Hy Hd) as [Hj [Hlt Hv]]. fold D in Hj, Hlt.
       destruct (m =? 12); (apply IH; [lia|by apply Hv|]); rewrite <- Hj in Hnext;
         clear -Hnext Hlt HD; unfold DAY_MS in *; div_lia. }
  pose proof (next_wall_day y m d Hy Hd) as Hn. fold D in Hn.
  destruct (decide (D = T / DAY_MS)) as [HDT|HDT].
  - destruct (shifted_try_day_on y m d Hy Hd HDT) as [Hok ->]. rewrite !andb_true_iff in Hok.
    destruct Hok as [[_ ->] ->]. done.
  - destruct (nextWallDay y m d) as [[y' m'] d']. destruct Hn as (Hy' & Hd' & HD').
    assert (scan_days (shifted off) p from fixedTime scans y' m' d' = Some (T - off)) as Hrest
      by (apply IH; [done|done|lia]).
    destruct (has d (pc_day p) && has _ (pc_dayOfWeek p)) eqn:Hdd; [|done].
    apply andb_true_iff in Hdd as [Hda Hdow]. rewrite shifted_try_day_before; [done|done..|fold D; lia].
Qed.
End Search.
End Fixed.

Lemma fixed_zone_first off p from t :
  on_minute off -> - DAY_MS <= off <= DAY_MS -> DAY_MS <= from + off ->
  (forall f, field_wf (RANGES f) (pc_field p f)) -> first_match p (from + off) (Some t) ->
  nextFireAfterInZone (shifted off) p from = Some (t - off).
Proof.
  intros Hon Hsmall Hfrom Hwf (Hlt & Hton & Hm & Hleast).
  assert (0 <= from + off) as Hpos by (unfold DAY_MS in *; lia). unfold nextFireAfterInZone.
  set (F := from + off) in *. unfold shifted at 1 2 3. fold F. cbn [wp_year wp_month wp_day].
  unfold previousWallDay, wall_day. rewrite Z.add_simpl_r.
  pose proof (year_after_epoch F Hpos) as Hy. rewrite Date_UTC_plain, date_day by (unfold plain_year; lia).
  rewrite Z.mul_0_l, Z.mul_0_l, !Z.add_0_r. set (t0 := F / DAY_MS * DAY_MS - DAY_MS).
  assert (0 <= t0) as Ht0 by (unfold t0, DAY_MS in *; div_lia).
  apply shifted_scan; try done; rewrite ?Z.add_simpl_r.
  - unfold F in *. lia.
  - by apply year_after_epoch.
  - apply date_valid.
  - rewrite date_day. unfold next_horizon, next_start, HORIZON_MS, floor_to, MAX_DAY_SCAN in *.
    clear - Hlt. unfold t0, DAY_MS, MINUTE_MS in *. div_lia.
Qed.

(** In a zone whose offset never changes, evaluating on the wall clock is
    evaluating in UTC and shifting: whenever the UTC search finds the next fire
    after the wall time of [from], the zone search finds the same wall time. *)
Theorem fixed_zone_is_shifted_utc zones tz off e p from t :
  tz <> "UTC"%string -> zones tz = shifted off -> on_minute off -> - DAY_MS <= off <= DAY_MS ->
  DAY_MS <= from + off -> parseCron e = Ok p ->
  nextFireAfter zones p (from + off) None = Some t ->
  nextFireAfter zones p from (Some tz) = Some (t - off).
Proof.
  intros Htz Hz Hon Hsmall Hfrom Hp Hutc. rewrite nextFireAfter_utc in Hutc.
  assert (0 <= from + off) as Hpos by (unfold DAY_MS in *; lia).
  pose proof (nextFireUTC_first p (from + off) Hpos) as Hfirst. rewrite Hutc in Hfirst.
  unfold nextFireAfter. rewrite decide_False, Hz by done. apply fixed_zone_first; try done.
  intros f. destruct (parseCron_Ok e p Hp f). by eapply parseField_wf.
Qed.

(** ** Instances *)

(** Central Europe around 2025-03-30 and 2025-10-26 01:00 UTC. *)
Definition spring_at : Z := 1743296400000.
Definition autumn_at : Z := 1761440400000.

Definition europe (t : Z) : WallParts :=
  shifted (if (spring_at <=? t) && (t <? autumn_at) then 7200000 else 3600000) t.

Definition india (t : Z) : WallParts := shifted 19800000 t.

Definition zones (tz : string) : Z -> WallParts :=
  if decide (tz = "Asia/Kolkata"%string) then shifted 19800000 else europe.

Lemma shifted_valid off t : 0 <= t -> - DAY_MS <= off -> valid_wall (shifted off t).
Proof.
  intros Ht Hoff. unfold valid_wall, shifted. cbn [wp_year wp_month wp_day wp_hour wp_minute].
  rewrite Z.add_simpl_r. split; [|split; [apply date_valid|apply time_valid]].
  unfold getUTCFullYear. assert (-1 <= (t + off) / DAY_MS) as HD by (unfold DAY_MS in *; div_lia).
  pose proof (year_of_day_spec ((t + off) / DAY_MS)).
  destruct (Z.le_gt_cases 1969 (year_of_day ((t + off) / DAY_MS))) as [|Hlt]; [done|exfalso].
  pose proof (day_from_year_mono (year_of_day ((t + off) / DAY_MS) + 1) 1969 ltac:(lia)).
  assert (day_from_year 1969 = -365) by done. lia.
Qed.

Definition at_half_two : ParsedCron :=
  match parseCron "30 2 * * *" with Ok p => p | Err _ => mkCron "" [] [] [] [] [] end.

(** 02:30 does not exist on 2025-03-30: the job runs at the transition. *)
Lemma zone_fires_show_wanted_time_witness :
  nextFireAfter zones at_half_two 1743260400000 (Some "Europe/Berlin"%string) = Some spring_at /\
  1743260400000 < spring_at /\ exists w, wall_matches at_half_two w = true /\ utcInstantsForWall europe (wall_ms w) = [].
Proof.
  assert (nextFireAfter zones at_half_two 1743260400000 (Some "Europe/Berlin"%string) = Some spring_at) as E
    by (vm_compute; reflexivity).
  assert (wall_matches at_half_two (zones "Europe/Berlin" spring_at) = false) as Hgap by (vm_compute; reflexivity).
  split; [exact E|].
  destruct (zone_fires_show_wanted_time zones "Europe/Berlin" "30 2 * * *" at_half_two 1743260400000 spring_at)
    as [Hlt [[_ Hm]|(_ & _ & w & Hm & Hnone & _)]].
  - discriminate.
  - intros t Ht. change (zones "Europe/Berlin" t) with (europe t).
    unfold europe. apply shifted_valid; [done|]. destruct (_ && _); unfold DAY_MS; lia.
  - vm_compute. reflexivity.
  - lia.
  - exact E.
  - exfalso. rewrite Hgap in Hm. discriminate Hm.
  - split; [exact Hlt|]. exists w. split; [exact Hm|exact Hnone].
Defined.

Lemma fixed_zone_is_shifted_utc_witness :
  nextFireAfter zones first_monday (1700000000000 - 19800000) (Some "Asia/Kolkata"%string) =
    Some (1701691200000 - 19800000).
Proof.
  apply (fixed_zone_is_shifted_utc zones "Asia/Kolkata" 19800000 "0 12 1-7 * 1").
  - discriminate.
  - reflexivity.
  - reflexivity.
  - unfold DAY_MS. lia.
  - unfold DAY_MS. lia.
  - vm_compute. reflexivity.
  - vm_compute. reflexivity.
Defined.

(** A half-hourly job skips a run when the clock goes back: from the first 02:00
    the search answers the second 02:00, although 02:30 of the first pass comes
    before it.  (A job that runs every minute stands still for the hour.) *)
Example overlap_skips_first_pass :
  match parseCron "0,30 * * * *" with
  | Ok p => nextFireAfter zones p (autumn_at - HOUR_MS) (Some "Europe/Berlin"%string) = Some autumn_at /\
            wall_matches p (europe (autumn_at - HOUR_MS + 30 * MINUTE_MS)) = true
  | Err _ => False
  end.
Proof. vm_compute. split; reflexivity. Qed.

(** After 2024-02-29 12:00 the next leap day lies beyond the horizon. *)
Example leap_day_job_dries_up :
  match parseCron "0 12 29 2 *" with
  | Ok p => nextFireAfter zones p 1709208000000 None = None /\ cron_matches p 1835438400000 = true
  | Err _ => False
  end.
Proof. vm_compute. split; reflexivity. Qed.
