(* ===== verification/Scheduler.v ===== *)
(** * The trigger scheduler

    [packages/triggers/src/index.ts] over the rows of
    [packages/store-sqlite/src/trigger-store.ts].

    An [async] method is a sequence of segments, the code between two awaits;
    a [task] is a method waiting for its next segment, and [perform] is an awaited
    store operation, which may fail, whose continuation runs some time later.
    The step relation of [SchedulerProps] interleaves the segments of all calls,
    timers and callbacks in every order.

    Declarations are those of the four constructors with integral milliseconds;
    ISO-8601 texts of the rows are the instants they stand for.  [fired] records
    the callback invocations; console warnings and the consumers of the event
    stream are not modelled. *)

From S2P Require Import Prelude Calendar Cron.

Local Open Scope string_scope.
Local Open Scope Z_scope.

(** ** Declarations *)

Inductive CatchupPolicy := CatchNone | CatchLast | CatchAll.

(** [kind] and [spec] *)
Inductive TriggerSpec :=
| TCron (expression : string)
| TInterval (ms : Z)
| TIdle (ms : Z)
| TEvent (name : string).

Record TriggerOptions := mkOptions {
  op_catchupPolicy : option CatchupPolicy;
  op_maxCatchupRuns : option Z;
  op_catchupWindowMs : option Z;
  op_tags : option (list string);
  op_acknowledgeLibMode : bool;
  op_timezone : option string;
  op_jitterMs : option Z;
  op_expiresAt : option Z;
}.

Definition no_options : TriggerOptions := mkOptions None None None None false None None None.

Record TriggerDeclaration := mkDecl { td_id : string; td_spec : TriggerSpec; td_options : TriggerOptions }.

Inductive trigger_error :=
| CronError_ (e : CronError)
| UnknownTimeZone (tz : string)
| InvalidPeriod (id : string)
| EmptyEventName (id : string)
| InvalidJitter (id : string)
| TriggerLimitError (id limit : string)
| UnknownTrigger (id : string)
| StoreFailure.

(** The constructors; [zone_known] is [isValidTimeZone]. *)
Definition validateHarnessOptions (id : string) (o : TriggerOptions) : result trigger_error unit :=
  match op_jitterMs o with
  | Some j => if j <? 0 then Err (InvalidJitter id) else Ok tt
  | None => Ok tt
  end.

Definition cron (zone_known : string -> bool) (id expression : string) (o : TriggerOptions) :
    result trigger_error TriggerDeclaration :=
  match parseCron expression with
  | Err e => Err (CronError_ e)
  | Ok _ =>
      match op_timezone o with
      | Some tz => if zone_known tz
                   then rbind (validateHarnessOptions id o) (fun _ => Ok (mkDecl id (TCron expression) o))
                   else Err (UnknownTimeZone tz)
      | None => rbind (validateHarnessOptions id o) (fun _ => Ok (mkDecl id (TCron expression) o))
      end
  end.

Definition interval (id : string) (ms : Z) (o : TriggerOptions) : result trigger_error TriggerDeclaration :=
  if ms <=? 0 then Err (InvalidPeriod id)
  else rbind (validateHarnessOptions id o) (fun _ => Ok (mkDecl id (TInterval ms) o)).

Definition idle (id : string) (ms : Z) (o : TriggerOptions) : result trigger_error TriggerDeclaration :=
  if ms <=? 0 then Err (InvalidPeriod id)
  else rbind (validateHarnessOptions id o) (fun _ => Ok (mkDecl id (TIdle ms) o)).

Definition event (id name : string) (o : TriggerOptions) : result trigger_error TriggerDeclaration :=
  if decide (name = "") then Err (EmptyEventName id)
  else rbind (validateHarnessOptions id o) (fun _ => Ok (mkDecl id (TEvent name) o)).

(** ** Rows *)

Record TriggerState := mkState {
  ts_id : string;
  ts_spec : TriggerSpec;
  ts_nextFireAt : option Z;
  ts_lastFiredAt : option Z;
  ts_missedFires : Z;
  ts_disabled : bool;
  ts_catchupPolicy : CatchupPolicy;
  ts_maxCatchupRuns : Z;
  ts_catchupWindowMs : Z;
  ts_tags : option (list string);
  ts_createdAt : Z;
  ts_updatedAt : option Z;
}.

(** [SqliteTriggerStore]: the rows in key order. *)
Module Store.
Definition t := list TriggerState.

Fixpoint upsert (st : TriggerState) (rows : t) : t :=
  match rows with
  | [] => [st]
  | r :: rows' =>
      if decide (ts_id r = ts_id st) then st :: rows'
      else if String.ltb (ts_id st) (ts_id r) then st :: rows else r :: upsert st rows'
  end.

Definition get (id : string) (rows : t) : option TriggerState :=
  List.find (fun r => bool_decide (ts_id r = id)) rows.

Definition remove (id : string) (rows : t) : t := List.filter (fun r => negb (bool_decide (ts_id r = id))) rows.

(** The update with its monotonic fence. *)
Definition recordFire (id : string) (firedAt : Z) (nextFireAt : option Z) (rows : t) : t :=
  map (fun r =>
    if bool_decide (ts_id r = id) && match ts_lastFiredAt r with Some l => l <? firedAt | None => true end
    then mkState (ts_id r) (ts_spec r) nextFireAt (Some firedAt) 0 (ts_disabled r) (ts_catchupPolicy r)
           (ts_maxCatchupRuns r) (ts_catchupWindowMs r) (ts_tags r) (ts_createdAt r) (Some firedAt)
    else r) rows.
End Store.

Definition with_next (st : TriggerState) (next : option Z) (at_ : Z) : TriggerState :=
  mkState (ts_id st) (ts_spec st) (match next with Some n => Some n | None => ts_nextFireAt st end)
    (ts_lastFiredAt st) (ts_missedFires st) (ts_disabled st) (ts_catchupPolicy st) (ts_maxCatchupRuns st)
    (ts_catchupWindowMs st) (ts_tags st) (ts_createdAt st) (Some at_).

Definition with_disabled (st : TriggerState) (b : bool) (at_ : Z) : TriggerState :=
  mkState (ts_id st) (ts_spec st) (ts_nextFireAt st) (ts_lastFiredAt st) (ts_missedFires st) b
    (ts_catchupPolicy st) (ts_maxCatchupRuns st) (ts_catchupWindowMs st) (ts_tags st) (ts_createdAt st) (Some at_).

Definition with_missed (st : TriggerState) (n : Z) : TriggerState :=
  mkState (ts_id st) (ts_spec st) (ts_nextFireAt st) (ts_lastFiredAt st) n (ts_disabled st)
    (ts_catchupPolicy st) (ts_maxCatchupRuns st) (ts_catchupWindowMs st) (ts_tags st) (ts_createdAt st)
    (ts_updatedAt st).

(** ** The scheduler *)

(** Without the trigger kind and the error value they also carry. *)
Inductive SchedulerEvent :=
| EStarted
| EStopped
| ERegistered (id : string)
| EFireStart (id : string) (firedAt : Z)
| EFireEnd (id : string) (durationMs : Z)
| EFireError (id : string) (durationMs : Z)
| ECatchupApplied (id : string) (missed : Z)
| ELibModeWarning (id : string)
| EOrphaned (id : string)
| EExpired (id : string).

Record SchedulerLimits := mkLimits { li_intervalFloorMs : option Z; li_maxDeclarations : option Z }.

(** What an armed timer will do. *)
Inductive timer_action := FireTimer | WakeTimer.

Record Timer := mkTimer { tm_handle : nat; tm_id : string; tm_due : Z; tm_action : timer_action }.

(** A [Map] keeps its entries in insertion order and empties deleted ones, so an
    iteration by position sees what JavaScript's does. *)
Definition DeclMap := list (option TriggerDeclaration).

Definition decl_is (id : string) (e : option TriggerDeclaration) : bool :=
  match e with Some d => bool_decide (td_id d = id) | None => false end.

Definition decl_get (id : string) (m : DeclMap) : option TriggerDeclaration :=
  match List.find (decl_is id) m with Some e => e | None => None end.

Definition decl_set (d : TriggerDeclaration) (m : DeclMap) : DeclMap :=
  if existsb (decl_is (td_id d)) m then map (fun e => if decl_is (td_id d) e then Some d else e) m
  else (m ++ [Some d])%list.

Definition decl_delete (id : string) (m : DeclMap) : DeclMap :=
  map (fun e => if decl_is id e then None else e) m.

Definition decl_size (m : DeclMap) : Z := Z.of_nat (length (omap id m)).

Record Sch := mkSch {
  sc_store : Store.t;
  sc_now : Z;
  sc_started : bool;
  sc_lastActivity : Z;
  sc_handles : list (string * nat);
  sc_timers : list Timer;
  sc_nextHandle : nat;
  sc_declarations : DeclMap;
  sc_parsedCron : list (string * ParsedCron);
  sc_disabled : list string;
  sc_pendingCatchup : list string;
  sc_events : list SchedulerEvent;
  sc_closedEvents : bool;
  sc_libWarned : bool;
  sc_fired : list (string * Z);
}.

Definition set_store st s := mkSch st (sc_now s) (sc_started s) (sc_lastActivity s) (sc_handles s) (sc_timers s)
  (sc_nextHandle s) (sc_declarations s) (sc_parsedCron s) (sc_disabled s) (sc_pendingCatchup s) (sc_events s)
  (sc_closedEvents s) (sc_libWarned s) (sc_fired s).
Definition set_now t s := mkSch (sc_store s) t (sc_started s) (sc_lastActivity s) (sc_handles s) (sc_timers s)
  (sc_nextHandle s) (sc_declarations s) (sc_parsedCron s) (sc_disabled s) (sc_pendingCatchup s) (sc_events s)
  (sc_closedEvents s) (sc_libWarned s) (sc_fired s).
Definition set_started b s := mkSch (sc_store s) (sc_now s) b (sc_lastActivity s) (sc_handles s) (sc_timers s)
  (sc_nextHandle s) (sc_declarations s) (sc_parsedCron s) (sc_disabled s) (sc_pendingCatchup s) (sc_events s)
  (sc_closedEvents s) (sc_libWarned s) (sc_fired s).
Definition set_lastActivity t s := mkSch (sc_store s) (sc_now s) (sc_started s) t (sc_handles s) (sc_timers s)
  (sc_nextHandle s) (sc_declarations s) (sc_parsedCron s) (sc_disabled s) (sc_pendingCatchup s) (sc_events s)
  (sc_closedEvents s) (sc_libWarned s) (sc_fired s).
Definition set_timers h t n s := mkSch (sc_store s) (sc_now s) (sc_started s) (sc_lastActivity s) h t n
  (sc_declarations s) (sc_parsedCron s) (sc_disabled s) (sc_pendingCatchup s) (sc_events s)
  (sc_closedEvents s) (sc_libWarned s) (sc_fired s).
Definition set_declarations d p s := mkSch (sc_store s) (sc_now s) (sc_started s) (sc_lastActivity s) (sc_handles s)
  (sc_timers s) (sc_nextHandle s) d p (sc_disabled s) (sc_pendingCatchup s) (sc_events s)
  (sc_closedEvents s) (sc_libWarned s) (sc_fired s).
Definition set_disabled d s := mkSch (sc_store s) (sc_now s) (sc_started s) (sc_lastActivity s) (sc_handles s)
  (sc_timers s) (sc_nextHandle s) (sc_declarations s) (sc_parsedCron s) d (sc_pendingCatchup s) (sc_events s)
  (sc_closedEvents s) (sc_libWarned s) (sc_fired s).
Definition set_pending p s := mkSch (sc_store s) (sc_now s) (sc_started s) (sc_lastActivity s) (sc_handles s)
  (sc_timers s) (sc_nextHandle s) (sc_declarations s) (sc_parsedCron s) (sc_disabled s) p (sc_events s)
  (sc_closedEvents s) (sc_libWarned s) (sc_fired s).
Definition set_events e c w s := mkSch (sc_store s) (sc_now s) (sc_started s) (sc_lastActivity s) (sc_handles s)
  (sc_timers s) (sc_nextHandle s) (sc_declarations s) (sc_parsedCron s) (sc_disabled s) (sc_pendingCatchup s) e c w
  (sc_fired s).
Definition add_fired id s := mkSch (sc_store s) (sc_now s) (sc_started s) (sc_lastActivity s) (sc_handles s)
  (sc_timers s) (sc_nextHandle s) (sc_declarations s) (sc_parsedCron s) (sc_disabled s) (sc_pendingCatchup s)
  (sc_events s) (sc_closedEvents s) (sc_libWarned s) (sc_fired s ++ [(id, sc_now s)]).

(** ** Segments and tasks *)

Inductive task :=
| Done
| Await (k : bool -> Sch -> Sch * task)
| Fork (spawned rest : task).

Definition seg := Sch -> Sch * task.

Definition finish : seg := fun s => (s, Done).

(** [await store.op(...)]: the operation takes effect or fails at some later
    moment, and the code after it runs later still. *)
Definition perform {A} (op : Sch -> A * Sch) (ok : A -> seg) (failed : seg) : seg := fun s =>
  (s, Await (fun b s1 =>
        if b then let '(a, s2) := op s1 in (s2, Await (fun _ => ok a))
        else (s1, Await (fun _ => failed)))).

(** The code after [await this.method(...)] runs later, whatever the method did. *)
Definition later (k : seg) : seg := fun s => (s, Await (fun _ => k)).

Definition store_get (id : string) (s : Sch) : option TriggerState * Sch := (Store.get id (sc_store s), s).
Definition store_list (s : Sch) : list TriggerState * Sch := (sc_store s, s).
Definition store_upsert (st : TriggerState) (s : Sch) : unit * Sch :=
  (tt, set_store (Store.upsert st (sc_store s)) s).
Definition store_remove (id : string) (s : Sch) : unit * Sch := (tt, set_store (Store.remove id (sc_store s)) s).
Definition store_recordFire (id : string) (firedAt : Z) (next : option Z) (s : Sch) : unit * Sch :=
  (tt, set_store (Store.recordFire id firedAt next (sc_store s)) s).

Definition publish (e : SchedulerEvent) (s : Sch) : Sch :=
  if sc_closedEvents s then s
  else set_events (sc_events s ++ [e]) (sc_closedEvents s) (sc_libWarned s) s.

Definition add_id (id : string) (l : list string) : list string :=
  if bool_decide (id ∈ l) then l else (l ++ [id])%list.
Definition delete_id (id : string) (l : list string) : list string :=
  List.filter (fun x => negb (bool_decide (x = id))) l.

(** ** Timers *)

Definition cancelHandle (id : string) (s : Sch) : Sch :=
  match jget id (sc_handles s) with
  | Some h =>
      set_timers (jdel id (sc_handles s))
        (List.filter (fun tm => negb (bool_decide (tm_handle tm = h))) (sc_timers s)) (sc_nextHandle s) s
  | None => s
  end.

Definition MAX_TIMEOUT_MS : Z := 2 ^ 31 - 1.

(** The delay Node's [setTimeout] uses: one millisecond for those it cannot
    represent. *)
Definition timeout_delay (ms : Z) : Z := if (MAX_TIMEOUT_MS <? ms) || (ms <? 1) then 1 else ms.

(** [setTimeout] and [handles.set] *)
Definition arm (id : string) (action : timer_action) (delay : Z) (s : Sch) : Sch :=
  let h := sc_nextHandle s in
  set_timers (jset id h (sc_handles s)) (mkTimer h id (sc_now s + timeout_delay delay) action :: sc_timers s) (S h) s.

Definition isExpired (d : TriggerDeclaration) (s : Sch) : bool :=
  match op_expiresAt (td_options d) with Some e => e <=? sc_now s | None => false end.

Definition autoPauseExpired (id : string) (ret : seg) : seg := fun s =>
  let s := cancelHandle id s in
  perform (store_get id) (fun st =>
    match st with
    | None => ret
    | Some st =>
        if ts_disabled st then ret
        else fun s => perform (store_upsert (with_disabled st true (sc_now s))) (fun _ s =>
               ret (publish (EExpired id) (set_disabled (add_id id (sc_disabled s)) s))) ret s
    end) ret s.

(** FNV-1a on 32 bits *)
Fixpoint fnv_from (hash : Z) (s : string) : Z :=
  match s with
  | EmptyString => hash
  | String c s' => fnv_from ((Z.lxor hash (Z.of_nat (nat_of_ascii c)) * 16777619) mod 2 ^ 32) s'
  end.

Definition fnv1a (s : string) : Z := fnv_from 2166136261 s.

Definition jitterOffset (d : TriggerDeclaration) : Z :=
  match op_jitterMs (td_options d) with
  | None => 0
  | Some j =>
      if j <=? 0 then 0
      else match td_spec d with
           | TCron _ | TInterval _ => fnv1a (td_id d) mod (j + 1)
           | _ => 0
           end
  end.

Definition DEFAULT_CATCHUP_WINDOW_MS : Z := 24 * 60 * 60 * 1000.
Definition DEFAULT_INTERVAL_FLOOR_MS : Z := 60000.
Definition SCAN_CAP : nat := 1000.

Section Scheduler.
(** The zone data, the mode and the limits. *)
Context (zones : string -> Z -> WallParts) (lib_mode : bool) (limits : option SchedulerLimits).

(** The parsed expression of a registered cron trigger. *)
Definition cron_of (d : TriggerDeclaration) (expression : string) (s : Sch) : option ParsedCron :=
  match jget (td_id d) (sc_parsedCron s) with
  | Some p => Some p
  | None => match parseCron expression with Ok p => Some p | Err _ => None end
  end.

(** [lastFired] is the [lastFiredAt] of the state passed. *)
Definition computeNextFire (d : TriggerDeclaration) (lastFired : option Z) (now : Z) (s : Sch) : option Z :=
  match td_spec d with
  | TCron e => cron_of d e s ≫= fun p => nextFireAfter zones p now (op_timezone (td_options d))
  | TInterval ms =>
      let last := default now lastFired in
      let next := last + ms in
      if (next <=? now) && (0 <? ms) then Some (last + ((now - last) / ms + 1) * ms) else Some next
  | TIdle ms => Some (sc_lastActivity s + ms)
  | TEvent _ => None
  end.

Definition schedule (id : string) (st : TriggerState) : seg := fun s =>
  let s := cancelHandle id s in
  if ts_disabled st then (s, Done)
  else
    match decl_get id (sc_declarations s) with
    | None => (s, Done)
    | Some d =>
        match td_spec d with
        | TEvent _ => (s, Done)
        | _ =>
            if isExpired d s then autoPauseExpired id finish s
            else
              let delay :=
                match ts_nextFireAt st with
                | Some n => Some (n - sc_now s)
                | None => (fun n => n - sc_now s) <$> computeNextFire d (ts_lastFiredAt st) (sc_now s) s
                end in
              match delay with
              | None => (s, Done)
              | Some delay =>
                  let delay := Z.max 0 delay + jitterOffset d in
                  if MAX_TIMEOUT_MS <? delay then (arm id WakeTimer MAX_TIMEOUT_MS s, Done)
                  else (arm id FireTimer delay s, Done)
              end
        end
    end.

(** [schedule] as a statement: what it spawns runs beside the rest. *)
Definition then_ (a : seg) (k : seg) : seg := fun s =>
  let '(s1, t1) := a s in let '(s2, t2) := k s1 in (s2, Fork t1 t2).

Definition is_idle (d : TriggerDeclaration) : bool := match td_spec d with TIdle _ => true | _ => false end.

(** ** Firing *)

(** The [catch] of [fire]. *)
Definition fire_failed (id : string) (d : TriggerDeclaration) (firedAt : Z) (ret : seg) : seg := fun s =>
  let s := publish (EFireError id (sc_now s - firedAt)) s in
  perform (store_get id) (fun st =>
    match st with
    | None => ret
    | Some st =>
        if is_idle d then ret
        else fun s =>
          let updated := with_next st (computeNextFire d (Some firedAt) (sc_now s) s) (sc_now s) in
          perform (store_upsert updated) (fun _ s =>
            if sc_started s then then_ (schedule id updated) ret s else ret s) ret s
    end) ret s.

(** The rest of the [try] once the callback has returned. *)
Definition fire_returned (id : string) (d : TriggerDeclaration) (firedAt : Z) (ret : seg) : seg := fun s =>
  let s := publish (EFireEnd id (sc_now s - firedAt)) s in
  perform (store_get id) (fun st s =>
    let next := match st with
                | Some st => if is_idle d then None else computeNextFire d (Some firedAt) (sc_now s) s
                | None => None
                end in
    perform (store_recordFire id firedAt next) (fun _ s =>
      if sc_started s && negb (is_idle d)
      then perform (store_get id) (fun refreshed =>
             match refreshed with
             | Some st => then_ (schedule id st) ret
             | None => ret
             end) (fire_failed id d firedAt ret) s
      else ret s) (fire_failed id d firedAt ret) s)
    (fire_failed id d firedAt ret) s.

Definition fire (id : string) (ret throw : seg) : seg := fun s =>
  match decl_get id (sc_declarations s) with
  | None => throw s
  | Some d =>
      if isExpired d s then autoPauseExpired id (later ret) s
      else if bool_decide (id ∈ sc_disabled s) then ret s
      else
        let firedAt := sc_now s in
        (add_fired id (publish (EFireStart id firedAt) s),
         Await (fun ok => if ok then fire_returned id d firedAt ret else fire_failed id d firedAt ret))
  end.

Definition wake (id : string) : seg :=
  perform (store_get id) (fun st => match st with Some st => schedule id st | None => finish end) finish.

(** ** Catching up *)

Fixpoint count_missed (fuel : nat) (next : Z -> option Z) (cursor now : Z) : Z :=
  match fuel with
  | O => 0
  | S fuel' =>
      match next cursor with
      | Some t => if now <? t then 0 else 1 + count_missed fuel' next t now
      | None => 0
      end
  end.

Definition missed_fires (d : TriggerDeclaration) (lastFired now : Z) (s : Sch) : Z :=
  match td_spec d with
  | TCron e =>
      match cron_of d e s with
      | Some p => count_missed SCAN_CAP (fun c => nextFireAfter zones p c (op_timezone (td_options d))) lastFired now
      | None => 0
      end
  | TInterval ms => (now - lastFired) / ms
  | _ => 0
  end.

Fixpoint fire_times (n : nat) (id : string) (ret throw : seg) : seg :=
  match n with O => ret | S n' => fire id (later (fire_times n' id ret throw)) (later throw) end.

Definition catches_up (d : TriggerDeclaration) : bool :=
  match td_spec d with TCron _ | TInterval _ => true | _ => false end.

Definition to_fire (st : TriggerState) (missed : Z) : Z :=
  match ts_catchupPolicy st with CatchLast => 1 | _ => Z.min missed (ts_maxCatchupRuns st) end.

Definition applyCatchup (st existing : TriggerState) (now : Z) (ret throw : seg) : seg := fun s =>
  match ts_catchupPolicy st, decl_get (ts_id st) (sc_declarations s), ts_lastFiredAt existing with
  | CatchNone, _, _ => ret s
  | _, Some d, Some lastFired =>
      if negb (catches_up d) || (lastFired <? now - ts_catchupWindowMs st) then ret s
      else
        let missed := missed_fires d lastFired now s in
        if missed <=? 0 then ret s
        else
          let n := to_fire st missed in
          let finished := fun s => ret (publish (ECatchupApplied (ts_id st) missed) s) in
          fire_times (Z.to_nat n) (ts_id st)
            (if 0 <? missed - n
             then perform (store_get (ts_id st)) (fun refreshed =>
                    match refreshed with
                    | Some r => perform (store_upsert (with_missed r (missed - n))) (fun _ => finished) throw
                    | None => finished
                    end) throw
             else finished) throw s
  | _, _, _ => ret s
  end.

(** ** The public methods *)

Definition enforceLimits (d : TriggerDeclaration) (s : Sch) : result trigger_error unit :=
  match limits with
  | None => Ok tt
  | Some l =>
      let floor := default DEFAULT_INTERVAL_FLOOR_MS (li_intervalFloorMs l) in
      if (0 <? floor) && match td_spec d with TInterval ms | TIdle ms => ms <? floor | _ => false end
      then Err (TriggerLimitError (td_id d) "interval-floor")
      else
        match li_maxDeclarations l with
        | Some m => if bool_decide (decl_get (td_id d) (sc_declarations s) = None) && (m <=? decl_size (sc_declarations s))
                    then Err (TriggerLimitError (td_id d) "max-declarations") else Ok tt
        | None => Ok tt
        end
  end.

(** The row [register] writes over the one it found. *)
Definition registered_state (d : TriggerDeclaration) (existing : option TriggerState) (now : Z) (s : Sch) :
    TriggerState :=
  let o := td_options d in
  mkState (td_id d) (td_spec d) (computeNextFire d (existing ≫= ts_lastFiredAt) now s)
    (existing ≫= ts_lastFiredAt) 0 (match existing with Some r => ts_disabled r | None => false end)
    (default CatchNone (op_catchupPolicy o)) (default 1 (op_maxCatchupRuns o))
    (default DEFAULT_CATCHUP_WINDOW_MS (op_catchupWindowMs o)) (op_tags o)
    (match existing with Some r => ts_createdAt r | None => now end)
    (match existing with Some _ => Some now | None => None end).

Definition register_scheduled (d : TriggerDeclaration) (st : TriggerState) (ret : seg) : seg := fun s =>
  if sc_started s then then_ (schedule (td_id d) st) ret s else ret s.

(** After the row is written. *)
Definition register_written (d : TriggerDeclaration) (st : TriggerState) (existing : option TriggerState) (now : Z)
    (ret throw : seg) : seg := fun s =>
  let id := td_id d in
  let s := set_disabled (if ts_disabled st then add_id id (sc_disabled s) else delete_id id (sc_disabled s)) s in
  let s := publish (ERegistered id) s in
  match existing with
  | Some ex =>
      if catches_up d then
        if sc_started s then applyCatchup st ex now (later (register_scheduled d st ret)) (later throw) s
        else register_scheduled d st ret (set_pending (add_id id (sc_pendingCatchup s)) s)
      else register_scheduled d st ret s
  | None => register_scheduled d st ret s
  end.

Definition libModeWarning (d : TriggerDeclaration) (s : Sch) : Sch :=
  if lib_mode && negb (op_acknowledgeLibMode (td_options d)) && negb (sc_libWarned s)
  then publish (ELibModeWarning (td_id d)) (set_events (sc_events s) (sc_closedEvents s) true s)
  else s.

(** The synchronous start of [register]; [None] when it throws. *)
Definition register_declare (d : TriggerDeclaration) (s : Sch) : option Sch :=
  match td_spec d with
  | TCron e =>
      match parseCron e with
      | Ok p => Some (set_declarations (decl_set d (sc_declarations s)) (jset (td_id d) p (sc_parsedCron s)) s)
      | Err _ => None
      end
  | _ => Some (set_declarations (decl_set d (sc_declarations s)) (sc_parsedCron s) s)
  end.

Definition register (d : TriggerDeclaration) (ret throw : seg) : seg := fun s =>
  match enforceLimits d s with
  | Err _ => throw s
  | Ok _ =>
      let s := libModeWarning d s in
      match register_declare d s with
      | None => throw s
      | Some s =>
          let now := sc_now s in
          perform (store_get (td_id d)) (fun existing s =>
            let st := registered_state d existing now s in
            perform (store_upsert st) (fun _ => register_written d st existing now ret throw) throw s) throw s
      end
  end.

Definition unregister (id : string) (ret throw : seg) : seg := fun s =>
  let s := cancelHandle id s in
  let s := set_disabled (delete_id id (sc_disabled s)) s in
  let s := set_declarations (decl_delete id (sc_declarations s)) (jdel id (sc_parsedCron s)) s in
  let s := set_pending (delete_id id (sc_pendingCatchup s)) s in
  perform (store_remove id) (fun _ => ret) throw s.

(** One row of the listing in [start]. *)
Definition start_row (st : TriggerState) (k : seg) : seg := fun s =>
  match decl_get (ts_id st) (sc_declarations s) with
  | None => k (publish (EOrphaned (ts_id st)) s)
  | Some _ =>
      if ts_disabled st then k (set_disabled (add_id (ts_id st) (sc_disabled s)) s)
      else then_ (schedule (ts_id st) st) k (set_disabled (delete_id (ts_id st) (sc_disabled s)) s)
  end.

Fixpoint drain (ids : list string) (ret throw : seg) : seg := fun s =>
  match ids with
  | [] => ret s
  | id :: ids' =>
      match decl_get id (sc_declarations s) with
      | None => drain ids' ret throw s
      | Some _ =>
          perform (store_get id) (fun fresh =>
            match fresh with
            | None => drain ids' ret throw
            | Some st => if ts_disabled st then drain ids' ret throw
                         else fun s => applyCatchup st st (sc_now s) (later (drain ids' ret throw)) (later throw) s
            end) throw s
      end
  end.

Definition drainPendingCatchup (ret throw : seg) : seg := fun s =>
  drain (sc_pendingCatchup s) ret throw (set_pending [] s).

Definition start (ret throw : seg) : seg := fun s =>
  if sc_started s then ret s
  else
    let s := publish EStarted (set_started true s) in
    perform store_list (fun rows => foldr start_row (drainPendingCatchup (later ret) (later throw)) rows) throw s.

Definition stop (ret : seg) : seg := fun s =>
  if sc_started s then
    let s := set_started false s in
    let s := foldl (fun s id => cancelHandle id s) s (map fst (sc_handles s)) in
    let s := publish EStopped s in
    ret (set_events (sc_events s) true (sc_libWarned s) s)
  else ret s.

(** The loop of [emit] from position [i] of the declarations; what is registered
    while it waits is visited too, [fuel] positions at most. *)
Fixpoint emit_from (fuel i : nat) (name : string) (ret throw : seg) : seg := fun s =>
  match fuel with
  | O => ret s
  | S fuel' =>
      match sc_declarations s !! i with
      | None => ret s
      | Some (Some d) =>
          match td_spec d with
          | TEvent n => if decide (n = name) then fire (td_id d) (later (emit_from fuel' (S i) name ret throw)) (later throw) s
                        else emit_from fuel' (S i) name ret throw s
          | _ => emit_from fuel' (S i) name ret throw s
          end
      | Some None => emit_from fuel' (S i) name ret throw s
      end
  end.

Definition setDisabled (id : string) (b : bool) (ret throw : seg) : seg :=
  perform (store_get id) (fun st =>
    match st with
    | None => throw
    | Some st => fun s =>
        let now := sc_now s in
        if b then
          let s := set_disabled (add_id id (sc_disabled s)) (cancelHandle id s) in
          perform (store_upsert (with_disabled st true now)) (fun _ => ret) throw s
        else
          let next := decl_get id (sc_declarations s) ≫= fun d => computeNextFire d (Some now) now s in
          let updated := with_next (with_disabled st false now) next now in
          let s := set_disabled (delete_id id (sc_disabled s)) s in
          perform (store_upsert updated) (fun _ s =>
            if sc_started s then then_ (schedule id updated) ret s else ret s) throw s
    end) throw.

(** One declaration in [recordActivity]. *)
Definition activity_decl (d : TriggerDeclaration) (k : seg) : seg := fun s =>
  match td_spec d with
  | TIdle ms =>
      let s := cancelHandle (td_id d) s in
      if isExpired d s then then_ (autoPauseExpired (td_id d) finish) k s
      else k (arm (td_id d) FireTimer ms s)
  | _ => k s
  end.

Definition recordActivity (ret : seg) : seg := fun s =>
  let s := set_lastActivity (sc_now s) s in
  if sc_started s then foldr activity_decl ret (omap id (sc_declarations s)) s else ret s.

Definition orphans (s : Sch) : list TriggerState :=
  List.filter (fun st => bool_decide (decl_get (ts_id st) (sc_declarations s) = None)) (sc_store s).
End Scheduler.
