(* ===== verification/SchedulerProps.v ===== *)
(** * The scheduler under every interleaving

    The step relation runs the calls of the application, the segments of
    suspended methods, due timers and the clock in any order, with any outcome of
    callbacks and store operations.  Invariants: each trigger has at most one
    armed timer, the one its handle names, and armed timers belong to registered
    triggers; callbacks run only for registered, enabled, unexpired ones. *)

From S2P Require Import Prelude Calendar Cron Scheduler.
From stdpp Require Import relations.

Local Open Scope string_scope.
Local Open Scope Z_scope.

(** ** Sets of ids *)

Lemma elem_add id x l : x ∈ add_id id l <-> x = id \/ x ∈ l.
Proof. unfold add_id. case_bool_decide; rewrite ?elem_of_app, ?list_elem_of_singleton; naive_solver. Qed.

Lemma elem_delete id x l : x ∈ delete_id id l <-> x ∈ l /\ x <> id.
Proof. unfold delete_id. rewrite !list_elem_of_In, filter_In, negb_true_iff, bool_decide_eq_false. done. Qed.

Section Props.
Context (zones : string -> Z -> WallParts) (lib_mode : bool) (limits : option SchedulerLimits).

(** ** Steps *)

Inductive call :=
| CRegister (d : TriggerDeclaration)
| CUnregister (id : string)
| CStart
| CStop
| CEmit (fuel : nat) (name : string)
| CFire (id : string)
| CSetDisabled (id : string) (b : bool)
| CRecordActivity.

Definition call_seg (c : call) : seg :=
  match c with
  | CRegister d => register zones lib_mode limits d finish finish
  | CUnregister id => unregister id finish finish
  | CStart => start zones finish finish
  | CStop => stop finish
  | CEmit fuel name => emit_from zones fuel 0 name finish finish
  | CFire id => fire zones id finish finish
  | CSetDisabled id b => setDisabled zones id b finish finish
  | CRecordActivity => recordActivity finish
  end.

Fixpoint flatten (t : task) : list task :=
  match t with
  | Done => []
  | Await k => [Await k]
  | Fork a b => (flatten a ++ flatten b)%list
  end.

Record Sys := mkSys { sy_sch : Sch; sy_tasks : list task }.

(** Running a segment: the tasks it leaves join the others. *)
Definition run_seg (m : seg) (s : Sch) (before after : list task) : Sys :=
  let '(s', t) := m s in mkSys s' (before ++ flatten t ++ after)%list.

Definition take_timer (tm : Timer) (s : Sch) : Sch :=
  set_timers (sc_handles s) (List.filter (fun x => negb (bool_decide (tm_handle x = tm_handle tm))) (sc_timers s))
    (sc_nextHandle s) s.

Definition timer_seg (tm : Timer) : seg :=
  match tm_action tm with FireTimer => fire zones (tm_id tm) finish finish | WakeTimer => wake zones (tm_id tm) end.

Inductive step : Sys -> Sys -> Prop :=
| step_call c s ts : step (mkSys s ts) (run_seg (call_seg c) s [] ts)
| step_resume k b s before after :
    step (mkSys s (before ++ Await k :: after)) (run_seg (k b) s before after)
| step_timer tm s ts :
    tm ∈ sc_timers s -> tm_due tm <= sc_now s ->
    step (mkSys s ts) (run_seg (timer_seg tm) (take_timer tm s) [] ts)
| step_clock t s ts : sc_now s <= t -> step (mkSys s ts) (mkSys (set_now t s) ts).

(** A new scheduler over the rows of an earlier process. *)
Definition initial (rows : Store.t) (now : Z) : Sch :=
  mkSch rows now false now [] [] 0 [] [] [] [] [] false false [].

Inductive reachable : Sys -> Prop :=
| reach_init rows now : reachable (mkSys (initial rows now) [])
| reach_step sys sys' : reachable sys -> step sys sys' -> reachable sys'.

(** *** Runs *)

(** A choice of the environment: a call, the [i]-th suspended method resumed with
    an outcome, the [i]-th timer's callback, time passing. *)
Inductive move := MCall (c : call) | MResume (i : nat) (b : bool) | MTimer (i : nat) | MClock (t : Z).

Definition play_move (m : move) (y : Sys) : option Sys :=
  match m with
  | MCall c => Some (run_seg (call_seg c) (sy_sch y) [] (sy_tasks y))
  | MResume i b =>
      match sy_tasks y !! i with
      | Some (Await k) => Some (run_seg (k b) (sy_sch y) (take i (sy_tasks y)) (drop (S i) (sy_tasks y)))
      | _ => None
      end
  | MTimer i =>
      match sc_timers (sy_sch y) !! i with
      | Some tm => if tm_due tm <=? sc_now (sy_sch y)
                   then Some (run_seg (timer_seg tm) (take_timer tm (sy_sch y)) [] (sy_tasks y)) else None
      | None => None
      end
  | MClock t => if sc_now (sy_sch y) <=? t then Some (mkSys (set_now t (sy_sch y)) (sy_tasks y)) else None
  end.

Fixpoint play (ms : list move) (y : Sys) : option Sys :=
  match ms with [] => Some y | m :: ms' => play_move m y ≫= play ms' end.

Lemma play_move_step m y y' : play_move m y = Some y' -> step y y'.
Proof.
  destruct y as [s ts], m as [c|i b|i|t]; simpl.
  - intros [= <-]. constructor.
  - destruct (ts !! i) as [[|k|]|] eqn:E; try done. intros [= <-].
    rewrite <- (take_drop_middle ts i (Await k) E) at 1. constructor.
  - destruct (sc_timers s !! i) as [tm|] eqn:E; [|done]. destruct (Z.leb_spec (tm_due tm) (sc_now s)); [|done].
    intros [= <-]. constructor; [|done]. by eapply list_elem_of_lookup_2.
  - destruct (Z.leb_spec (sc_now s) t); [|done]. intros [= <-]. by constructor.
Qed.

Lemma play_reachable ms y y' : reachable y -> play ms y = Some y' -> reachable y'.
Proof.
  revert y. induction ms as [|m ms IH]; simpl; intros y Hy; [by intros [= <-]|].
  destruct (play_move m y) as [y1|] eqn:E; [|done]. simpl. apply IH. by eapply reach_step, play_move_step.
Qed.

(** ** Invariant *)

Definition declared (id : string) (s : Sch) : Prop := decl_get id (sc_declarations s) <> None.

Record inv (s : Sch) : Prop := {
  inv_handle tm : tm ∈ sc_timers s -> jget (tm_id tm) (sc_handles s) = Some (tm_handle tm);
  inv_nodup : NoDup (map tm_handle (sc_timers s));
  inv_fresh tm : tm ∈ sc_timers s -> (tm_handle tm < sc_nextHandle s)%nat;
  inv_declared tm : tm ∈ sc_timers s -> declared (tm_id tm) s;
}.

(** What a segment may add to the callback log. *)
Definition fires_ok (s s' : Sch) : Prop :=
  sc_fired s' = sc_fired s \/
  exists id d, sc_fired s' = (sc_fired s ++ [(id, sc_now s')])%list /\
    decl_get id (sc_declarations s') = Some d /\ isExpired d s' = false /\ id ∉ sc_disabled s'.

Inductive task_ok : task -> Prop :=
| ok_done : task_ok Done
| ok_await k :
    (forall b s, inv s -> inv (k b s).1 /\ fires_ok s (k b s).1) ->
    (forall b s, inv s -> task_ok (k b s).2) -> task_ok (Await k)
| ok_fork a b : task_ok a -> task_ok b -> task_ok (Fork a b).

Definition seg_ok (m : seg) : Prop :=
  forall s, inv s -> (inv (m s).1 /\ fires_ok s (m s).1) /\ task_ok (m s).2.

(** Segments that do not run callbacks. *)
Definition quiet (f : Sch -> Sch) : Prop := forall s, inv s -> inv (f s) /\ sc_fired (f s) = sc_fired s.

Lemma await_ok k : (forall b, seg_ok (k b)) -> task_ok (Await k).
Proof. intros Hk. constructor; intros b s Hs; by apply (Hk b s Hs). Qed.

Lemma fires_refl s : fires_ok s s.
Proof. by left. Qed.

Lemma fires_quiet s s1 s2 : sc_fired s1 = sc_fired s -> fires_ok s1 s2 -> fires_ok s s2.
Proof. unfold fires_ok. by intros ->. Qed.

Lemma seg_quiet f m : quiet f -> seg_ok m -> seg_ok (fun s => m (f s)).
Proof.
  intros Hf Hm s Hs. destruct (Hf s Hs) as [Hi Hfi]. destruct (Hm (f s) Hi) as [[Hi' Hfo] Ht].
  split; [split; [done|by eapply fires_quiet]|done].
Qed.

Lemma finish_ok : seg_ok finish.
Proof. intros s Hs. split; [split; [done|apply fires_refl]|constructor]. Qed.

Lemma later_ok m : seg_ok m -> seg_ok (later m).
Proof. intros Hm s Hs. split; [split; [done|apply fires_refl]|]. by apply await_ok. Qed.

Lemma perform_ok {A} (op : Sch -> A * Sch) ok failed :
  quiet (fun s => (op s).2) -> (forall a, seg_ok (ok a)) -> seg_ok failed -> seg_ok (perform op ok failed).
Proof.
  intros Hop Hok Hf s Hs. split; [split; [done|apply fires_refl]|]. simpl. apply await_ok. intros b s1 Hs1.
  destruct b.
  - destruct (Hop s1 Hs1) as [Hi Hfi]. destruct (op s1) as [a s2]. simpl in *.
    split; [split; [done|by left]|]. by apply await_ok.
  - split; [split; [done|apply fires_refl]|]. by apply await_ok.
Qed.

(** A silent segment followed by another. *)
Lemma then_ok a k :
  (forall s, inv s -> (inv (a s).1 /\ sc_fired (a s).1 = sc_fired s) /\ task_ok (a s).2) ->
  seg_ok k -> seg_ok (then_ a k).
Proof.
  intros Ha Hk s Hs. destruct (Ha s Hs) as [[Hi Hf] Ht]. unfold then_.
  destruct (a s) as [s1 t1]. simpl in *. destruct (Hk s1 Hi) as [[Hi2 Hf2] Ht2].
  destruct (k s1) as [s2 t2]. simpl in *. split; [split; [done|by eapply fires_quiet]|by constructor].
Qed.

(** ** Updates that leave timers and declarations alone *)

Lemma inv_frame s s' :
  sc_timers s' = sc_timers s -> sc_handles s' = sc_handles s -> sc_nextHandle s' = sc_nextHandle s ->
  sc_declarations s' = sc_declarations s -> inv s -> inv s'.
Proof.
  intros Ht Hh Hn Hd []. split; rewrite ?Ht, ?Hh, ?Hn; try done.
  intros tm Hin. unfold declared. rewrite Hd. by apply inv_declared0.
Qed.

Lemma quiet_frame f :
  (forall s, sc_timers (f s) = sc_timers s) -> (forall s, sc_handles (f s) = sc_handles s) ->
  (forall s, sc_nextHandle (f s) = sc_nextHandle s) -> (forall s, sc_declarations (f s) = sc_declarations s) ->
  (forall s, sc_fired (f s) = sc_fired s) -> quiet f.
Proof. intros H1 H2 H3 H4 H5 s Hs. split; [|done]. by apply (inv_frame s). Qed.

Lemma quiet_comp f g : quiet f -> quiet g -> quiet (fun s => g (f s)).
Proof. intros Hf Hg s Hs. destruct (Hf s Hs) as [Hi <-]. by apply Hg. Qed.

Lemma quiet_id : quiet (fun s => s).
Proof. intros s Hs. done. Qed.

Lemma quiet_publish e : quiet (publish e).
Proof. apply quiet_frame; intros s; unfold publish; by destruct (sc_closedEvents s). Qed.

Lemma quiet_store_get id : quiet (fun s => (store_get id s).2).
Proof. apply quiet_id. Qed.

Lemma quiet_store_upsert st : quiet (fun s => (store_upsert st s).2).
Proof. by apply quiet_frame. Qed.

Lemma quiet_store_remove id : quiet (fun s => (store_remove id s).2).
Proof. by apply quiet_frame. Qed.

Lemma quiet_store_recordFire id t n : quiet (fun s => (store_recordFire id t n s).2).
Proof. by apply quiet_frame. Qed.

Lemma quiet_set_disabled (f : Sch -> list string) : quiet (fun s => set_disabled (f s) s).
Proof. by apply quiet_frame. Qed.

Lemma quiet_set_pending (f : Sch -> list string) : quiet (fun s => set_pending (f s) s).
Proof. by apply quiet_frame. Qed.

(** ** Timers *)

Lemma elem_bfilter {A} (f : A -> bool) x l : x ∈ List.filter f l <-> x ∈ l /\ f x = true.
Proof. rewrite !list_elem_of_In. apply filter_In. Qed.

Lemma nodup_bfilter (f : Timer -> bool) l :
  NoDup (map tm_handle l) -> NoDup (map tm_handle (List.filter f l)).
Proof.
  induction l as [|tm l IH]; simpl; [done|]. intros [Hni Hnd]%NoDup_cons. destruct (f tm); simpl; [|by apply IH].
  apply NoDup_cons. split; [|by apply IH]. intros Hin. apply Hni.
  apply list_elem_of_fmap in Hin as (x & Hx & [Hin _]%elem_bfilter). apply list_elem_of_fmap. by exists x.
Qed.

(** Dropping timers keeps the invariant. *)
Lemma inv_drop (f : Timer -> bool) s :
  inv s -> inv (set_timers (sc_handles s) (List.filter f (sc_timers s)) (sc_nextHandle s) s).
Proof.
  intros []. split; simpl; try (intros tm [Hin _]%elem_bfilter; solve [eauto]). by apply nodup_bfilter.
Qed.

Lemma cancel_spec id s :
  inv s ->
  inv (cancelHandle id s) /\ sc_fired (cancelHandle id s) = sc_fired s /\
  sc_declarations (cancelHandle id s) = sc_declarations s /\
  (forall tm, tm ∈ sc_timers (cancelHandle id s) -> tm_id tm <> id).
Proof.
  intros Hs. unfold cancelHandle. destruct (jget id (sc_handles s)) as [h|] eqn:Eh.
  - assert (forall tm, tm ∈ sc_timers s -> negb (bool_decide (tm_handle tm = h)) = true -> tm_id tm <> id) as Hne.
    { intros tm Hin Hh%negb_true_iff%bool_decide_eq_false Heq. apply Hh.
      pose proof (inv_handle s Hs tm Hin) as Hg. rewrite Heq, Eh in Hg. congruence. }
    split_and!; try done.
    + destruct Hs. split; simpl; try (intros tm [Hin _]%elem_bfilter; solve [eauto]).
      * intros tm [Hin Hh]%elem_bfilter. rewrite jget_jdel, decide_False by by apply Hne. auto.
      * by apply nodup_bfilter.
    + simpl. intros tm [Hin Hh]%elem_bfilter. by apply Hne.
  - split_and!; try done. intros tm Hin Heq. pose proof (inv_handle s Hs tm Hin) as Hg. congruence.
Qed.

Lemma quiet_cancel id : quiet (cancelHandle id).
Proof. intros s Hs. by destruct (cancel_spec id s Hs) as (? & ? & _). Qed.

Lemma arm_inv id action delay s :
  inv s -> declared id s -> (forall tm, tm ∈ sc_timers s -> tm_id tm <> id) -> inv (arm id action delay s).
Proof.
  intros Hs Hd Hno. destruct Hs. split; simpl.
  - intros tm [->|Hin]%elem_of_cons; simpl; [apply jget_jset_eq|]. rewrite jget_jset_ne by by apply Hno. auto.
  - apply NoDup_cons. split; [|done]. intros Hin. apply list_elem_of_fmap in Hin as (tm & Heq & Hin).
    apply inv_fresh0 in Hin. lia.
  - intros tm [->|Hin]%elem_of_cons; simpl; [lia|]. apply inv_fresh0 in Hin. lia.
  - intros tm [->|Hin]%elem_of_cons; simpl; [done|]. by apply inv_declared0.
Qed.

(** ** Declarations *)

Lemma decl_get_cons id e m :
  decl_get id (e :: m) = if decl_is id e then e else decl_get id m.
Proof. unfold decl_get. simpl. by destruct (decl_is id e). Qed.

Lemma decl_get_app id m m' :
  decl_get id (m ++ m')%list = match decl_get id m with Some d => Some d | None => decl_get id m' end.
Proof.
  induction m as [|e m IH]; [done|]. change ((e :: m) ++ m')%list with (e :: (m ++ m'))%list.
  rewrite !decl_get_cons, IH. destruct (decl_is id e) eqn:E; [|done]. by destruct e.
Qed.

Lemma decl_is_false id m : existsb (decl_is id) m = false -> decl_get id m = None.
Proof.
  induction m as [|e m IH]; simpl; [done|]. intros [He Hm]%orb_false_iff. by rewrite decl_get_cons, He, IH.
Qed.

Lemma decl_get_set id d m :
  decl_get id (decl_set d m) = if decide (td_id d = id) then Some d else decl_get id m.
Proof.
  unfold decl_set. destruct (existsb (decl_is (td_id d)) m) eqn:E.
  - induction m as [|e m IH]; [done|]. simpl in *.
    rewrite !decl_get_cons. destruct (decl_is (td_id d) e) eqn:Ed; simpl in *.
    + case_decide as Hid; [by rewrite bool_decide_true|]. rewrite bool_decide_false by done.
      assert (decl_is id e = false) as ->.
      { destruct e as [x|]; [|done]. simpl in *. apply bool_decide_eq_true in Ed. apply bool_decide_false. congruence. }
      clear IH E. induction m as [|e' m IH]; [done|]. simpl. rewrite !decl_get_cons, IH.
      destruct (decl_is (td_id d) e') eqn:Ed'; [|done]. simpl. rewrite bool_decide_false by done.
      destruct e' as [x|]; [|done]. simpl in *. apply bool_decide_eq_true in Ed'.
      rewrite bool_decide_false by congruence. done.
    + rewrite IH by done. destruct (decl_is id e) eqn:Ei; [|done].
      case_decide as Hid; [|done]. subst id. congruence.
  - rewrite decl_get_app, decl_get_cons. simpl. case_decide as Hid.
    + subst id. by rewrite (decl_is_false _ _ E), bool_decide_true.
    + rewrite bool_decide_false by done. by destruct (decl_get id m).
Qed.

Lemma decl_get_delete id id' m :
  id' <> id -> decl_get id' (decl_delete id m) = decl_get id' m.
Proof.
  intros Hne. unfold decl_delete. induction m as [|e m IH]; [done|]. simpl. rewrite !decl_get_cons, IH.
  destruct (decl_is id e) eqn:E; [|done]. simpl. destruct e as [x|]; [|done]. simpl in *.
  apply bool_decide_eq_true in E. by rewrite bool_decide_false by congruence.
Qed.

(** ** The methods *)

(** Segments that keep the invariant and run no callback. *)
Definition silent (m : seg) : Prop :=
  forall s, inv s -> (inv (m s).1 /\ sc_fired (m s).1 = sc_fired s) /\ task_ok (m s).2.

Lemma silent_ok m : silent m -> seg_ok m.
Proof. intros Hm s Hs. destruct (Hm s Hs) as [[Hi Hf] Ht]. split; [split; [done|by left]|done]. Qed.

Lemma perform_silent {A} (op : Sch -> A * Sch) ok failed :
  quiet (fun s => (op s).2) -> (forall a, seg_ok (ok a)) -> seg_ok failed -> silent (perform op ok failed).
Proof.
  intros Hop Hok Hf s Hs. destruct (perform_ok op ok failed Hop Hok Hf s Hs) as [[Hi _] Ht]. done.
Qed.

Lemma silent_quiet f m : quiet f -> silent m -> silent (fun s => m (f s)).
Proof.
  intros Hf Hm s Hs. destruct (Hf s Hs) as [Hi Hfi]. destruct (Hm (f s) Hi) as [[Hi' Hfo] Ht].
  split; [split; [done|congruence]|done].
Qed.

Lemma finish_silent : silent finish.
Proof. intros s Hs. split; [done|constructor]. Qed.

Hint Resolve finish_ok finish_silent later_ok quiet_store_get quiet_store_upsert quiet_store_remove
  quiet_store_recordFire quiet_publish quiet_cancel quiet_id silent_ok : sched.

Lemma autoPause_silent id ret : seg_ok ret -> silent (autoPauseExpired id ret).
Proof.
  intros Hret. apply (silent_quiet (cancelHandle id)); [apply quiet_cancel|].
  apply perform_silent; [apply quiet_store_get| |done]. intros [st|]; [|done].
  destruct (ts_disabled st); [done|]. intros s Hs.
  apply perform_ok; [apply quiet_store_upsert| |done|done]. intros _.
  apply (seg_quiet (fun s => publish (EExpired id) (set_disabled (add_id id (sc_disabled s)) s))); [|done].
  apply (quiet_comp (fun s => set_disabled (add_id id (sc_disabled s)) s)); [|apply quiet_publish].
  apply (quiet_set_disabled (fun s => add_id id (sc_disabled s))).
Qed.

Lemma schedule_silent id st : silent (schedule zones id st).
Proof.
  intros s Hs. unfold schedule.
  destruct (cancel_spec id s Hs) as (Hc & Hf & Hd & Hno). set (s1 := cancelHandle id s) in *.
  assert (silent finish) as Hfin by apply finish_silent.
  assert ((inv s1 /\ sc_fired s1 = sc_fired s) /\ task_ok Done) as Hstay by (split; [done|constructor]).
  destruct (ts_disabled st); [done|]. destruct (decl_get id (sc_declarations s1)) as [d|] eqn:Ed; [|done].
  assert (forall a delay, (inv (arm id a delay s1) /\ sc_fired (arm id a delay s1) = sc_fired s) /\ task_ok Done) as Harm.
  { intros a delay. split; [split; [|done]|constructor]. apply arm_inv; [done| |done]. unfold declared. by rewrite Ed. }
  assert ((inv (autoPauseExpired id finish s1).1 /\ sc_fired (autoPauseExpired id finish s1).1 = sc_fired s) /\
          task_ok (autoPauseExpired id finish s1).2) as Hpause.
  { rewrite <- Hf. by apply (autoPause_silent id finish finish_ok s1). }
  destruct (td_spec d); try done; (destruct (isExpired d s1); [done|]);
    (destruct (match ts_nextFireAt st with Some _ => _ | None => _ end); [|done]);
    (destruct (_ <? _); apply Harm).
Qed.

Lemma then_schedule_ok id st k : seg_ok k -> seg_ok (then_ (schedule zones id st) k).
Proof. intros Hk. apply then_ok; [|done]. apply schedule_silent. Qed.

Hint Resolve then_schedule_ok : sched.

Lemma seg_if (b : Sch -> bool) m1 m2 : seg_ok m1 -> seg_ok m2 -> seg_ok (fun s => if b s then m1 s else m2 s).
Proof. intros H1 H2 s Hs. destruct (b s); [by apply H1|by apply H2]. Qed.

(** A segment that first reads the state. *)
Lemma seg_read {A} (f : Sch -> A) (m : A -> seg) : (forall a, seg_ok (m a)) -> seg_ok (fun s => m (f s) s).
Proof. intros Hm s Hs. by apply Hm. Qed.

Lemma fire_failed_ok id d t ret : seg_ok ret -> seg_ok (fire_failed zones id d t ret).
Proof.
  intros Hret.
  apply (seg_read (fun s => sc_now s - t) (fun dur s => perform _ _ _ (publish (EFireError id dur) s))). intros dur.
  apply (seg_quiet (publish _)); [apply quiet_publish|]. apply perform_ok; [apply quiet_store_get| |done].
  intros [st|]; [|done]. destruct (is_idle d); [done|].
  apply (seg_read (fun s => with_next st (computeNextFire zones d (Some t) (sc_now s) s) (sc_now s))
           (fun u => perform (store_upsert u) (fun _ s => if sc_started s then then_ (schedule zones id u) ret s else ret s) ret)).
  intros u. apply perform_ok; [apply quiet_store_upsert| |done]. intros _.
  apply (seg_if sc_started); auto with sched.
Qed.

Lemma fire_returned_ok id d t ret : seg_ok ret -> seg_ok (fire_returned zones id d t ret).
Proof.
  intros Hret. pose proof (fire_failed_ok id d t ret Hret) as Hfail.
  apply (seg_read (fun s => sc_now s - t) (fun dur s => perform _ _ _ (publish (EFireEnd id dur) s))). intros dur.
  apply (seg_quiet (publish _)); [apply quiet_publish|]. apply perform_ok; [apply quiet_store_get| |done]. intros st.
  apply (seg_read (fun s => match st with
                            | Some _ => if is_idle d then None else computeNextFire zones d (Some t) (sc_now s) s
                            | None => None
                            end) (fun next => perform (store_recordFire id t next) _ _)). intros next.
  apply perform_ok; [apply quiet_store_recordFire| |done]. intros _.
  apply (seg_if (fun s => sc_started s && negb (is_idle d))); [|done].
  apply perform_ok; [apply quiet_store_get| |done]. intros [r|]; auto with sched.
Qed.

Lemma fire_ok id ret throw : seg_ok ret -> seg_ok throw -> seg_ok (fire zones id ret throw).
Proof.
  intros Hret Hthrow s Hs. unfold fire. destruct (decl_get id (sc_declarations s)) as [d|] eqn:Ed; [|by apply Hthrow].
  destruct (isExpired d s) eqn:Ee; [apply silent_ok; [apply autoPause_silent, later_ok|]; done|].
  destruct (bool_decide (id ∈ sc_disabled s)) eqn:Eb; [by apply Hret|]. apply bool_decide_eq_false in Eb.
  destruct (quiet_publish (EFireStart id (sc_now s)) s Hs) as [Hi Hf].
  set (s1 := publish _ s) in *.
  assert (sc_declarations s1 = sc_declarations s /\ sc_now s1 = sc_now s /\ sc_disabled s1 = sc_disabled s) as (E1 & E2 & E3).
  { unfold s1, publish. by destruct (sc_closedEvents s). }
  split; [split|].
  - by eapply inv_frame; [..|exact Hi].
  - right. exists id, d. simpl. rewrite Hf, E1, E2, E3. split_and!; try done.
    unfold isExpired in *. simpl. by rewrite E2.
  - apply await_ok. intros []; [by apply fire_returned_ok|by apply fire_failed_ok].
Qed.

Lemma wake_ok id : seg_ok (wake zones id).
Proof.
  apply perform_ok; [apply quiet_store_get| |apply finish_ok]. intros [st|]; [|apply finish_ok].
  apply silent_ok, schedule_silent.
Qed.

Lemma fire_times_ok n id ret throw : seg_ok ret -> seg_ok throw -> seg_ok (fire_times zones n id ret throw).
Proof. intros Hret Hthrow. induction n as [|n IH]; simpl; [done|]. by apply fire_ok; apply later_ok. Qed.

Lemma applyCatchup_ok st ex now ret throw :
  seg_ok ret -> seg_ok throw -> seg_ok (applyCatchup zones st ex now ret throw).
Proof.
  intros Hret Hthrow s Hs. unfold applyCatchup.
  destruct (ts_catchupPolicy st) eqn:Ep; [by apply Hret|..];
    (destruct (decl_get (ts_id st) (sc_declarations s)) as [d|]; [|by apply Hret]);
    (destruct (ts_lastFiredAt ex) as [last|]; [|by apply Hret]);
    (destruct (negb (catches_up d) || _); [by apply Hret|]);
    (destruct (_ <=? 0); [by apply Hret|]);
    (apply fire_times_ok; [|done|done]);
    (assert (forall m, seg_ok (fun s => ret (publish (ECatchupApplied (ts_id st) m) s))) as Hfin
      by (intros m; apply (seg_quiet (publish _)); [apply quiet_publish|done]));
    (destruct (0 <? _); [|apply Hfin]);
    (apply perform_ok; [apply quiet_store_get| |done]); (intros [r|]; [|apply Hfin]);
    (apply perform_ok; [apply quiet_store_upsert|intros _; apply Hfin|done]).
Qed.

Lemma register_scheduled_ok d st ret : seg_ok ret -> seg_ok (register_scheduled zones d st ret).
Proof. intros Hret. apply (seg_if sc_started); auto with sched. Qed.

Lemma register_written_ok d st ex now ret throw :
  seg_ok ret -> seg_ok throw -> seg_ok (register_written zones d st ex now ret throw).
Proof.
  intros Hret Hthrow. pose proof (register_scheduled_ok d st ret Hret) as Hsch.
  apply (seg_quiet (fun s => publish (ERegistered (td_id d))
    (set_disabled (if ts_disabled st then add_id (td_id d) (sc_disabled s) else delete_id (td_id d) (sc_disabled s)) s))
    (fun s => match ex with
              | Some ex => if catches_up d
                           then if sc_started s
                                then applyCatchup zones st ex now (later (register_scheduled zones d st ret)) (later throw) s
                                else register_scheduled zones d st ret (set_pending (add_id (td_id d) (sc_pendingCatchup s)) s)
                           else register_scheduled zones d st ret s
              | None => register_scheduled zones d st ret s
              end)).
  - apply quiet_comp; [|apply quiet_publish].
    apply (quiet_set_disabled (fun s => if ts_disabled st then add_id (td_id d) (sc_disabled s)
                                        else delete_id (td_id d) (sc_disabled s))).
  - destruct ex as [ex|]; [|done]. destruct (catches_up d); [|done]. apply (seg_if sc_started).
    + apply applyCatchup_ok; auto with sched.
    + apply (seg_quiet (fun s => set_pending (add_id (td_id d) (sc_pendingCatchup s)) s)); [|done].
      apply (quiet_set_pending (fun s => add_id (td_id d) (sc_pendingCatchup s))).
Qed.

Lemma quiet_libMode d : quiet (libModeWarning lib_mode d).
Proof.
  intros s Hs. unfold libModeWarning. destruct (_ && _); [|done].
  destruct (quiet_publish (ELibModeWarning (td_id d)) (set_events (sc_events s) (sc_closedEvents s) true s)) as [Hi Hf];
    [by eapply inv_frame; [..|exact Hs]|]. by rewrite Hf.
Qed.

Lemma inv_redeclare s m p :
  inv s -> (forall id, declared id s -> decl_get id m <> None) -> inv (set_declarations m p s).
Proof. intros [] Hm. split; simpl; try done. intros tm Hin. by apply Hm, inv_declared0. Qed.

Lemma register_declare_inv d s s' :
  inv s -> register_declare d s = Some s' -> inv s' /\ sc_fired s' = sc_fired s.
Proof.
  intros Hs. assert (forall p, inv (set_declarations (decl_set d (sc_declarations s)) p s)) as Hset.
  { intros p. apply inv_redeclare; [done|]. intros id Hid. rewrite decl_get_set. by case_decide. }
  unfold register_declare. destruct (td_spec d) as [e|ms|ms|n]; [destruct (parseCron e); [|done]|..];
    intros [= <-]; by split.
Qed.

Lemma register_ok d ret throw : seg_ok ret -> seg_ok throw -> seg_ok (register zones lib_mode limits d ret throw).
Proof.
  intros Hret Hthrow s Hs. unfold register. destruct (enforceLimits limits d s); [|by apply Hthrow].
  destruct (quiet_libMode d s Hs) as [Hi Hf]. set (s1 := libModeWarning lib_mode d s) in *.
  destruct (register_declare d s1) as [s2|] eqn:E.
  2: { destruct (Hthrow s1 Hi) as [[? ?] ?]. split; [split; [done|by eapply fires_quiet]|done]. }
  destruct (register_declare_inv d s1 s2 Hi E) as [Hi2 Hf2].
  assert (seg_ok (perform (store_get (td_id d)) (fun existing s =>
            let st := registered_state zones d existing (sc_now s2) s in
            perform (store_upsert st) (fun _ => register_written zones d st existing (sc_now s2) ret throw) throw s)
            throw)) as Hseg.
  { apply perform_ok; [apply quiet_store_get| |done]. intros ex.
    apply (seg_read (registered_state zones d ex (sc_now s2))
             (fun st => perform (store_upsert st) (fun _ => register_written zones d st ex (sc_now s2) ret throw) throw)).
    intros st. apply perform_ok; [apply quiet_store_upsert| |done]. intros _. by apply register_written_ok. }
  destruct (Hseg s2 Hi2) as [[Hi3 Hf3] Ht]. split; [split; [done|]|done].
  eapply fires_quiet; [|exact Hf3]. congruence.
Qed.

Lemma unregister_ok id ret throw : seg_ok ret -> seg_ok throw -> seg_ok (unregister id ret throw).
Proof.
  intros Hret Hthrow s Hs. unfold unregister. destruct (cancel_spec id s Hs) as (Hc & Hf & Hd & Hno).
  set (s1 := cancelHandle id s) in *.
  set (s2 := set_pending _ _).
  assert (inv s2) as Hi.
  { destruct Hc. split; simpl; try done. intros tm Hin. unfold declared. simpl.
    rewrite decl_get_delete by by apply Hno. by apply inv_declared0. }
  destruct (perform_ok (store_remove id) (fun _ => ret) throw (quiet_store_remove id) (fun _ => Hret) Hthrow s2 Hi)
    as [[Hi3 Hf3] Ht].
  split; [split; [done|]|done]. by eapply fires_quiet; [|exact Hf3].
Qed.

Lemma drain_ok ids ret throw : seg_ok ret -> seg_ok throw -> seg_ok (drain zones ids ret throw).
Proof.
  intros Hret Hthrow. induction ids as [|id ids IH]; [done|]. intros s Hs. simpl.
  destruct (decl_get id (sc_declarations s)); [|by apply IH].
  apply perform_ok; [apply quiet_store_get| |done|done]. intros [st|]; [|done]. destruct (ts_disabled st); [done|].
  apply (seg_read sc_now (fun now => applyCatchup zones st st now (later (drain zones ids ret throw)) (later throw))).
  intros now. apply applyCatchup_ok; auto with sched.
Qed.

Lemma start_row_ok st k : seg_ok k -> seg_ok (start_row zones st k).
Proof.
  intros Hk s Hs. unfold start_row. destruct (decl_get (ts_id st) (sc_declarations s)).
  - destruct (ts_disabled st).
    + apply (seg_quiet (fun s => set_disabled (add_id (ts_id st) (sc_disabled s)) s)); [|done|done].
      apply (quiet_set_disabled (fun s => add_id (ts_id st) (sc_disabled s))).
    + apply (seg_quiet (fun s => set_disabled (delete_id (ts_id st) (sc_disabled s)) s)
               (then_ (schedule zones (ts_id st) st) k)); [|auto with sched|done].
      apply (quiet_set_disabled (fun s => delete_id (ts_id st) (sc_disabled s))).
  - apply (seg_quiet (publish _)); [apply quiet_publish|done|done].
Qed.

Lemma start_ok ret throw : seg_ok ret -> seg_ok throw -> seg_ok (start zones ret throw).
Proof.
  intros Hret Hthrow. apply (seg_if sc_started); [done|].
  apply (seg_quiet (fun s => publish EStarted (set_started true s))).
  { apply (quiet_comp (set_started true)); [by apply quiet_frame|apply quiet_publish]. }
  apply perform_ok; [apply quiet_id| |done]. intros rows. induction rows as [|r rows IH]; simpl; [|by apply start_row_ok].
  apply (seg_read sc_pendingCatchup (fun ids s => drain zones ids (later ret) (later throw) (set_pending [] s))).
  intros ids. apply (seg_quiet (set_pending [])); [by apply quiet_frame|]. apply drain_ok; auto with sched.
Qed.

Lemma quiet_cancel_all ids : quiet (fun s => foldl (fun s id => cancelHandle id s) s ids).
Proof.
  induction ids as [|id ids IH]; [apply quiet_id|].
  apply (quiet_comp (cancelHandle id) (fun s => foldl (fun s id => cancelHandle id s) s ids)); [apply quiet_cancel|exact IH].
Qed.

Lemma stop_ok ret : seg_ok ret -> seg_ok (stop ret).
Proof.
  intros Hret. apply (seg_if sc_started); [|done].
  apply (seg_quiet (set_started false)
    (fun s => let s := foldl (fun s id => cancelHandle id s) s (map fst (sc_handles s)) in
              let s := publish EStopped s in ret (set_events (sc_events s) true (sc_libWarned s) s))).
  { by apply quiet_frame. }
  apply (seg_read (fun s => map fst (sc_handles s))
    (fun ids s => let s := foldl (fun s id => cancelHandle id s) s ids in
                  let s := publish EStopped s in ret (set_events (sc_events s) true (sc_libWarned s) s))).
  intros ids. apply (seg_quiet (fun s => foldl (fun s id => cancelHandle id s) s ids)
    (fun s => let s := publish EStopped s in ret (set_events (sc_events s) true (sc_libWarned s) s)));
    [apply quiet_cancel_all|].
  apply (seg_quiet (publish EStopped) (fun s => ret (set_events (sc_events s) true (sc_libWarned s) s)));
    [apply quiet_publish|].
  apply (seg_quiet (fun s => set_events (sc_events s) true (sc_libWarned s) s)); [by apply quiet_frame|done].
Qed.

Lemma emit_ok fuel i name ret throw : seg_ok ret -> seg_ok throw -> seg_ok (emit_from zones fuel i name ret throw).
Proof.
  intros Hret Hthrow. revert i. induction fuel as [|fuel IH]; intros i; [done|]. intros s Hs. simpl.
  destruct (sc_declarations s !! i) as [[d|]|]; [|by apply IH|by apply Hret].
  destruct (td_spec d) as [| | |n]; try by apply IH. case_decide; [|by apply IH].
  apply fire_ok; [apply later_ok, IH|by apply later_ok|done].
Qed.

Lemma setDisabled_ok id b ret throw : seg_ok ret -> seg_ok throw -> seg_ok (setDisabled zones id b ret throw).
Proof.
  intros Hret Hthrow. apply perform_ok; [apply quiet_store_get| |done]. intros [st|]; [|done]. destruct b.
  - apply (seg_read sc_now (fun now s => perform (store_upsert (with_disabled st true now)) (fun _ => ret) throw
             (set_disabled (add_id id (sc_disabled s)) (cancelHandle id s)))). intros now.
    apply (seg_quiet (fun s => set_disabled (add_id id (sc_disabled s)) (cancelHandle id s))).
    + intros s Hs. destruct (quiet_cancel id s Hs) as [Hi Hf].
      split; [by eapply inv_frame; [..|exact Hi]|done].
    + by apply perform_ok; [apply quiet_store_upsert|..].
  - apply (seg_read (fun s => with_next (with_disabled st false (sc_now s))
             (decl_get id (sc_declarations s) ≫= fun d => computeNextFire zones d (Some (sc_now s)) (sc_now s) s) (sc_now s))
             (fun u s => perform (store_upsert u) (fun _ s => if sc_started s then then_ (schedule zones id u) ret s else ret s)
                           throw (set_disabled (delete_id id (sc_disabled s)) s))). intros u.
    apply (seg_quiet (fun s => set_disabled (delete_id id (sc_disabled s)) s)).
    + apply (quiet_set_disabled (fun s => delete_id id (sc_disabled s))).
    + apply perform_ok; [apply quiet_store_upsert| |done]. intros _. apply (seg_if sc_started); auto with sched.
Qed.

Lemma activity_ok ds ret s :
  seg_ok ret -> inv s -> Forall (fun d => declared (td_id d) s) ds ->
  (inv (foldr activity_decl ret ds s).1 /\ fires_ok s (foldr activity_decl ret ds s).1) /\
  task_ok (foldr activity_decl ret ds s).2.
Proof.
  intros Hret. revert s. induction ds as [|d ds IH]; intros s Hs HF; simpl; [by apply Hret|].
  apply Forall_cons in HF as [Hd HF]. revert IH. generalize (foldr activity_decl ret ds). intros k IH.
  unfold activity_decl. destruct (td_spec d) as [| |ms|]; try by apply IH.
  destruct (cancel_spec (td_id d) s Hs) as (Hc & Hf & Hdecl & Hno). set (s1 := cancelHandle (td_id d) s) in *.
  assert (forall id, declared id s1 <-> declared id s) as Hsame by (intros id; unfold declared; by rewrite Hdecl).
  destruct (isExpired d s1).
  - unfold then_. destruct (autoPause_silent (td_id d) finish finish_ok s1 Hc) as [[Hi Hfi] Ht].
    assert (sc_declarations (autoPauseExpired (td_id d) finish s1).1 = sc_declarations s1) as Hd1.
    { simpl. by destruct (cancel_spec (td_id d) s1 Hc) as (_ & _ & ? & _). }
    destruct (autoPauseExpired (td_id d) finish s1) as [s2 t2]. simpl in *.
    destruct (IH s2 Hi) as [[Hi3 Hf3] Ht3].
    { eapply Forall_impl; [exact HF|]. intros x. unfold declared. by rewrite Hd1, Hdecl. }
    destruct (k s2) as [s3 t3]. simpl in *.
    split; [split; [done|]|by constructor]. eapply fires_quiet; [|exact Hf3]. congruence.
  - assert (inv (arm (td_id d) FireTimer ms s1)) as Hi by (apply arm_inv; [done|by apply Hsame|done]).
    destruct (IH _ Hi) as [[Hi3 Hf3] Ht3].
    { eapply Forall_impl; [exact HF|]. intros x Hx. by apply Hsame in Hx. }
    split; [split; [done|]|done]. by eapply fires_quiet; [|exact Hf3].
Qed.

Lemma decl_get_member d m : Some d ∈ m -> decl_get (td_id d) m <> None.
Proof.
  induction m as [|e m IH]; intros Hin; [by apply not_elem_of_nil in Hin|]. rewrite decl_get_cons.
  apply elem_of_cons in Hin as [<-|Hin]; [simpl; by rewrite bool_decide_true|].
  destruct (decl_is (td_id d) e) eqn:E; [by destruct e|by apply IH].
Qed.

Lemma recordActivity_ok ret : seg_ok ret -> seg_ok (recordActivity ret).
Proof.
  intros Hret. apply (seg_read sc_now (fun t s => (fun s => if sc_started s
    then foldr activity_decl ret (omap id (sc_declarations s)) s else ret s) (set_lastActivity t s))).
  intros t. apply (seg_quiet (set_lastActivity t) (fun s => if sc_started s
    then foldr activity_decl ret (omap id (sc_declarations s)) s else ret s)); [by apply quiet_frame|]. intros s Hs.
  destruct (sc_started s); [|by apply Hret]. apply activity_ok; [done|done|].
  apply Forall_forall. intros d Hd. apply list_elem_of_omap in Hd as (e & He & Heq). simpl in Heq. subst e.
  by apply decl_get_member.
Qed.

Lemma call_ok c : seg_ok (call_seg c).
Proof.
  pose proof finish_ok. destruct c; simpl; [by apply register_ok|by apply unregister_ok|by apply start_ok|
    by apply stop_ok|by apply emit_ok|by apply fire_ok|by apply setDisabled_ok|by apply recordActivity_ok].
Qed.

Lemma timer_ok tm : seg_ok (timer_seg tm).
Proof. pose proof finish_ok. unfold timer_seg. destruct (tm_action tm); [by apply fire_ok|apply wake_ok]. Qed.

(** ** Reachable states *)

Definition sys_ok (y : Sys) : Prop := inv (sy_sch y) /\ Forall task_ok (sy_tasks y).

Lemma flatten_ok t : task_ok t -> Forall task_ok (flatten t).
Proof. induction 1 as [|k H1 H2 _|a b _ IHa _ IHb]; simpl; [done|constructor; [by apply ok_await|constructor]|by apply Forall_app]. Qed.

Lemma run_seg_ok m s before after :
  seg_ok m -> inv s -> Forall task_ok (before ++ after) ->
  sys_ok (run_seg m s before after) /\ fires_ok s (sy_sch (run_seg m s before after)).
Proof.
  intros Hm Hs HF. destruct (Hm s Hs) as [[Hi Hf] Ht]. unfold run_seg. destruct (m s) as [s' t]. simpl in *.
  split; [|done]. split; [done|]. simpl. apply Forall_app in HF as [H1 H2]. rewrite !Forall_app.
  split_and!; [done|by apply flatten_ok|done].
Qed.

Lemma await_segs k : task_ok (Await k) -> forall b, seg_ok (k b).
Proof. inversion 1 as [|k' H1 H2|]; subst. intros b s Hs. split; [by apply H1|by apply H2]. Qed.

Lemma step_ok y y' : sys_ok y -> step y y' -> sys_ok y' /\ fires_ok (sy_sch y) (sy_sch y').
Proof.
  intros [Hi HF] Hstep. destruct Hstep as [c s ts|k b s before after|tm s ts Hin Hdue|t s ts Ht]; simpl in *.
  - by apply run_seg_ok; [apply call_ok|..].
  - apply Forall_app in HF as [H1 [Hk H2]%Forall_cons]. apply run_seg_ok; [|done|by apply Forall_app].
    by apply await_segs.
  - assert (inv (take_timer tm s)) as Hi' by by apply inv_drop.
    destruct (run_seg_ok (timer_seg tm) (take_timer tm s) [] ts (timer_ok tm) Hi' HF) as [Hok Hf].
    split; [done|]. by eapply fires_quiet; [|exact Hf].
  - split; [|by left]. split; [|done]. by eapply inv_frame; [..|exact Hi].
Qed.

Lemma reachable_ok y : reachable y -> sys_ok y.
Proof.
  induction 1 as [rows now|y y' _ IH Hstep]; [|by eapply step_ok].
  split; [|constructor]. split; simpl; try (intros tm Hin; by apply not_elem_of_nil in Hin). constructor.
Qed.

(** C38: Each trigger has at most one armed timer: however the calls, the
    suspended methods, the due timers and the clock interleave, and whatever
    callbacks and store operations return, an armed timer is the one the
    trigger's handle names (so cancelling reaches it), no trigger has two, and
    every armed timer belongs to a registered trigger. *)
Theorem one_timer_per_trigger y :
  reachable y ->
  (forall tm, tm ∈ sc_timers (sy_sch y) ->
     jget (tm_id tm) (sc_handles (sy_sch y)) = Some (tm_handle tm) /\
     decl_get (tm_id tm) (sc_declarations (sy_sch y)) <> None) /\
  NoDup (map tm_id (sc_timers (sy_sch y))).
Proof.
  intros [[Hh Hnd Hfr Hd] _]%reachable_ok. split; [intros tm Hin; split; [by apply Hh|exact (Hd tm Hin)]|].
  revert Hh Hnd. clear Hfr Hd. generalize (sc_timers (sy_sch y)) as l. induction l as [|tm l IH]; simpl; intros Hh Hnd; [constructor|].
  apply NoDup_cons in Hnd as [Hni Hnd]. apply NoDup_cons. split; [|apply IH; [|done]].
  - intros Hin. apply Hni. apply list_elem_of_fmap in Hin as (x & Heq & Hx). apply list_elem_of_fmap. exists x.
    split; [|done]. pose proof (Hh tm ltac:(by left)) as E1. pose proof (Hh x ltac:(by right)) as E2. congruence.
  - intros x Hx. apply Hh. by right.
Qed.

(** A callback runs only for a registered trigger that is neither paused nor
    expired: on every path (timer, catch-up, event, manual call) and under every
    interleaving, a step that invokes a callback invokes one, of a trigger that
    is registered, not in the disabled set and before its expiry at that moment. *)
Lemma callbacks_respect_pause_and_expiry y y' :
  reachable y -> step y y' ->
  sc_fired (sy_sch y') = sc_fired (sy_sch y) \/
  exists id d, sc_fired (sy_sch y') = (sc_fired (sy_sch y) ++ [(id, sc_now (sy_sch y'))])%list /\
    decl_get id (sc_declarations (sy_sch y')) = Some d /\
    match op_expiresAt (td_options d) with Some e => sc_now (sy_sch y') < e | None => True end /\
    id ∉ sc_disabled (sy_sch y').
Proof.
  intros Hy%reachable_ok Hstep. destruct (step_ok y y' Hy Hstep) as [_ [Hf|(id & d & H1 & H2 & H3 & H4)]]; [by left|].
  right. exists id, d. split_and!; try done. unfold isExpired in H3. destruct (op_expiresAt _); [|done]. lia.
Qed.

(** ** A pause holds *)

Section Paused.
Context (id0 : string).

Definition paused (s : Sch) : Prop := id0 ∈ sc_disabled s.

(** The callbacks of the trigger that were invoked. *)
Definition fired_of (s : Sch) : list (string * Z) := List.filter (fun e => bool_decide (e.1 = id0)) (sc_fired s).

(** Of a paused trigger nothing runs and the pause stays. *)
Definition holds (s s' : Sch) : Prop := paused s' /\ fired_of s' = fired_of s.

Inductive task_held : task -> Prop :=
| held_done : task_held Done
| held_await k :
    (forall b s, paused s -> holds s (k b s).1) -> (forall b s, task_held (k b s).2) -> task_held (Await k)
| held_fork a b : task_held a -> task_held b -> task_held (Fork a b).

Definition seg_held (m : seg) : Prop := forall s, (paused s -> holds s (m s).1) /\ task_held (m s).2.

Definition keeps (f : Sch -> Sch) : Prop := forall s, paused s -> holds s (f s).

Lemma await_held k : (forall b, seg_held (k b)) -> task_held (Await k).
Proof. intros Hk. constructor; intros b s; by apply (Hk b s). Qed.

Lemma holds_trans s1 s2 s3 : holds s1 s2 -> holds s2 s3 -> holds s1 s3.
Proof. unfold holds. intros [_ H1] [H2 H3]. split; [done|congruence]. Qed.

Lemma keeps_same f : (forall s, sc_disabled (f s) = sc_disabled s) -> (forall s, sc_fired (f s) = sc_fired s) -> keeps f.
Proof. intros Hd Hf s Hs. unfold holds, paused, fired_of. by rewrite Hd, Hf. Qed.

Lemma held_after f m : keeps f -> seg_held m -> seg_held (fun s => m (f s)).
Proof.
  intros Hf Hm s. destruct (Hm (f s)) as [H2 Ht]. split; [intros Hs|done].
  pose proof (Hf s Hs) as H1. eapply holds_trans; [exact H1|apply H2, H1].
Qed.

Lemma held_read {A} (f : Sch -> A) (m : A -> seg) : (forall a, seg_held (m a)) -> seg_held (fun s => m (f s) s).
Proof. intros Hm s. by apply Hm. Qed.

Lemma held_if (b : Sch -> bool) m1 m2 : seg_held m1 -> seg_held m2 -> seg_held (fun s => if b s then m1 s else m2 s).
Proof. intros H1 H2 s. destruct (b s); [by apply H1|by apply H2]. Qed.

Lemma finish_held : seg_held finish.
Proof. intros s. split; [done|constructor]. Qed.

Lemma later_held m : seg_held m -> seg_held (later m).
Proof. intros Hm s. split; [done|]. by apply await_held. Qed.

Lemma perform_held {A} (op : Sch -> A * Sch) ok failed :
  keeps (fun s => (op s).2) -> (forall a, seg_held (ok a)) -> seg_held failed -> seg_held (perform op ok failed).
Proof.
  intros Hop Hok Hf s. split; [done|]. apply await_held. intros [] s1.
  - pose proof (Hop s1) as H1. simpl in H1. destruct (op s1) as [a s2]. split; [exact H1|]. by apply await_held.
  - split; [done|]. by apply await_held.
Qed.

Lemma then_held a k : seg_held a -> seg_held k -> seg_held (then_ a k).
Proof.
  intros Ha Hk s. destruct (Ha s) as [H1 Ht]. unfold then_. destruct (a s) as [s1 t1]. simpl in *.
  destruct (Hk s1) as [H2 Ht2]. destruct (k s1) as [s2 t2]. simpl in *.
  split; [intros Hs; eapply holds_trans; [by apply H1|apply H2, H1, Hs]|by constructor].
Qed.

Lemma keeps_publish e : keeps (publish e).
Proof. apply keeps_same; intros s; unfold publish; by destruct (sc_closedEvents s). Qed.

Lemma keeps_cancel id : keeps (cancelHandle id).
Proof. apply keeps_same; intros s; unfold cancelHandle; by destruct (jget id (sc_handles s)). Qed.

Lemma keeps_add id : keeps (fun s => set_disabled (add_id id (sc_disabled s)) s).
Proof. intros s Hs. split; [|done]. unfold paused in *. simpl. apply elem_add. by right. Qed.

Lemma keeps_delete id : id <> id0 -> keeps (fun s => set_disabled (delete_id id (sc_disabled s)) s).
Proof. intros Hne s Hs. split; [|done]. unfold paused in *. simpl. apply elem_delete. done. Qed.

Hint Resolve finish_held later_held then_held keeps_publish keeps_cancel keeps_add keeps_delete : held.
Hint Extern 1 (keeps (fun s => (_ s).2)) => (by apply keeps_same) : held.

Lemma autoPause_held id ret : seg_held ret -> seg_held (autoPauseExpired id ret).
Proof.
  intros Hret. apply (held_after (cancelHandle id)); [apply keeps_cancel|].
  apply perform_held; [by apply keeps_same| |done]. intros [st|]; [|done]. destruct (ts_disabled st); [done|].
  apply (held_read sc_now (fun now => perform (store_upsert (with_disabled st true now)) _ _)). intros now.
  apply perform_held; [by apply keeps_same| |done]. intros _.
  apply (held_after (fun s => set_disabled (add_id id (sc_disabled s)) s) (fun s => ret (publish (EExpired id) s)));
    [apply keeps_add|]. by apply (held_after (publish _)); auto with held.
Qed.

Lemma schedule_held id st : seg_held (schedule zones id st).
Proof.
  intros s. unfold schedule. cbv zeta. set (s1 := cancelHandle id s).
  assert (paused s -> holds s s1) as Hc by apply keeps_cancel.
  assert ((paused s -> holds s s1) /\ task_held Done) as Hstay by (split; [done|constructor]).
  assert ((paused s -> holds s (autoPauseExpired id finish s1).1) /\ task_held (autoPauseExpired id finish s1).2) as Hpause.
  { destruct (autoPause_held id finish finish_held s1) as [H1 Ht]. split; [|done]. intros Hs.
    eapply holds_trans; [by apply Hc|]. by apply H1, Hc. }
  destruct (ts_disabled st); [done|]. destruct (decl_get id (sc_declarations s1)) as [d|]; [|done].
  destruct (td_spec d); try done; (destruct (isExpired d s1); [done|]);
    (destruct (match ts_nextFireAt st with Some _ => _ | None => _ end); [|done]);
    (destruct (_ <? _); (split; [intros Hs; by apply Hc|constructor])).
Qed.

Hint Resolve autoPause_held schedule_held : held.

Lemma fire_failed_held id d t ret : seg_held ret -> seg_held (fire_failed zones id d t ret).
Proof.
  intros Hret. apply (held_read (fun s => sc_now s - t) (fun dur s => perform _ _ _ (publish (EFireError id dur) s))). intros dur.
  apply (held_after (publish _)); [apply keeps_publish|]. apply perform_held; [by apply keeps_same| |done].
  intros [st|]; [|done]. destruct (is_idle d); [done|].
  apply (held_read (fun s => with_next st (computeNextFire zones d (Some t) (sc_now s) s) (sc_now s))
           (fun u => perform (store_upsert u) (fun _ s => if sc_started s then then_ (schedule zones id u) ret s else ret s) ret)).
  intros u. apply perform_held; [by apply keeps_same| |done]. intros _. apply (held_if sc_started); auto with held.
Qed.

Lemma fire_returned_held id d t ret : seg_held ret -> seg_held (fire_returned zones id d t ret).
Proof.
  intros Hret. pose proof (fire_failed_held id d t ret Hret) as Hfail.
  apply (held_read (fun s => sc_now s - t) (fun dur s => perform _ _ _ (publish (EFireEnd id dur) s))). intros dur.
  apply (held_after (publish _)); [apply keeps_publish|]. apply perform_held; [by apply keeps_same| |done]. intros st.
  apply (held_read (fun s => match st with
                            | Some _ => if is_idle d then None else computeNextFire zones d (Some t) (sc_now s) s
                            | None => None
                            end) (fun next => perform (store_recordFire id t next) _ _)). intros next.
  apply perform_held; [by apply keeps_same| |done]. intros _.
  apply (held_if (fun s => sc_started s && negb (is_idle d))); [|done].
  apply perform_held; [by apply keeps_same| |done]. intros [r|]; auto with held.
Qed.

Lemma fire_held id ret throw : seg_held ret -> seg_held throw -> seg_held (fire zones id ret throw).
Proof.
  intros Hret Hthrow s. unfold fire. destruct (decl_get id (sc_declarations s)) as [d|]; [|by apply Hthrow].
  destruct (isExpired d s); [by apply autoPause_held, later_held|].
  destruct (bool_decide (id ∈ sc_disabled s)) eqn:Eb; [by apply Hret|]. apply bool_decide_eq_false in Eb.
  split; [intros Hs|apply await_held; intros []; [by apply fire_returned_held|by apply fire_failed_held]].
  assert (id <> id0) as Hne by (intros ->; contradiction).
  pose proof (keeps_publish (EFireStart id (sc_now s)) s Hs) as [H1 H2].
  split; [exact H1|]. unfold fired_of in *. simpl. rewrite List.filter_app, H2. simpl.
  rewrite bool_decide_eq_false_2 by done. by rewrite app_nil_r.
Qed.

Hint Resolve fire_held : held.

Lemma fire_times_held n id ret throw : seg_held ret -> seg_held throw -> seg_held (fire_times zones n id ret throw).
Proof. intros Hret Hthrow. induction n as [|n IH]; simpl; auto with held. Qed.

Lemma applyCatchup_held st ex now ret throw :
  seg_held ret -> seg_held throw -> seg_held (applyCatchup zones st ex now ret throw).
Proof.
  intros Hret Hthrow s. unfold applyCatchup.
  destruct (ts_catchupPolicy st) eqn:Ep; [by apply Hret|..];
    (destruct (decl_get (ts_id st) (sc_declarations s)) as [d|]; [|by apply Hret]);
    (destruct (ts_lastFiredAt ex) as [last|]; [|by apply Hret]);
    (destruct (negb (catches_up d) || _); [by apply Hret|]);
    (destruct (_ <=? 0); [by apply Hret|]);
    (apply fire_times_held; [|done]);
    (assert (forall m, seg_held (fun s => ret (publish (ECatchupApplied (ts_id st) m) s))) as Hfin
      by (intros m; apply (held_after (publish _)); auto with held));
    (destruct (0 <? _); [|apply Hfin]);
    (apply perform_held; [by apply keeps_same| |done]); (intros [r|]; [|apply Hfin]);
    (apply perform_held; [by apply keeps_same|intros _; apply Hfin|done]).
Qed.

Lemma register_written_held d st ex now ret throw :
  td_id d <> id0 -> seg_held ret -> seg_held throw -> seg_held (register_written zones d st ex now ret throw).
Proof.
  intros Hne Hret Hthrow.
  assert (seg_held (register_scheduled zones d st ret)) as Hsch by (apply (held_if sc_started); auto with held).
  apply (held_after (fun s => publish (ERegistered (td_id d))
    (set_disabled (if ts_disabled st then add_id (td_id d) (sc_disabled s) else delete_id (td_id d) (sc_disabled s)) s))
    (fun s => match ex with
              | Some ex => if catches_up d
                           then if sc_started s
                                then applyCatchup zones st ex now (later (register_scheduled zones d st ret)) (later throw) s
                                else register_scheduled zones d st ret (set_pending (add_id (td_id d) (sc_pendingCatchup s)) s)
                           else register_scheduled zones d st ret s
              | None => register_scheduled zones d st ret s
              end)).
  - intros s Hs. eapply holds_trans; [|apply keeps_publish]; destruct (ts_disabled st);
      [by apply keeps_add|by apply keeps_delete|by apply keeps_add|by apply keeps_delete].
  - destruct ex as [ex|]; [|done]. destruct (catches_up d); [|done]. apply (held_if sc_started).
    + apply applyCatchup_held; auto with held.
    + by apply (held_after (fun s => set_pending (add_id (td_id d) (sc_pendingCatchup s)) s)); [apply keeps_same|].
Qed.

Lemma keeps_libMode d : keeps (libModeWarning lib_mode d).
Proof. intros s Hs. unfold libModeWarning. destruct (_ && _); [|done]. by apply (keeps_publish _ (set_events _ _ _ s)). Qed.

Lemma register_held d ret throw :
  td_id d <> id0 -> seg_held ret -> seg_held throw -> seg_held (register zones lib_mode limits d ret throw).
Proof.
  intros Hne Hret Hthrow. intros s. unfold register. destruct (enforceLimits limits d s); [|by apply Hthrow].
  apply (held_after (libModeWarning lib_mode d) (fun s => match register_declare d s with None => throw s | Some s => _ s end));
    [apply keeps_libMode|]. clear s. intros s1.
  destruct (register_declare d s1) as [s2|] eqn:E; [|by apply Hthrow].
  assert (paused s1 -> holds s1 s2) as H2.
  { intros Hs. unfold register_declare in E.
    destruct (td_spec d) as [e|ms|ms|n]; [destruct (parseCron e); [|done]|..]; injection E as <-; by split. }
  assert (seg_held (perform (store_get (td_id d)) (fun existing s =>
            let st := registered_state zones d existing (sc_now s2) s in
            perform (store_upsert st) (fun _ => register_written zones d st existing (sc_now s2) ret throw) throw s)
            throw)) as Hseg.
  { apply perform_held; [by apply keeps_same| |done]. intros ex.
    apply (held_read (registered_state zones d ex (sc_now s2))
             (fun st => perform (store_upsert st) (fun _ => register_written zones d st ex (sc_now s2) ret throw) throw)).
    intros st. apply perform_held; [by apply keeps_same| |done]. intros _. by apply register_written_held. }
  destruct (Hseg s2) as [H3 Ht]. split; [|done]. intros Hs. eapply holds_trans; [by apply H2|]. apply H3, H2, Hs.
Qed.

Lemma emit_held fuel i name ret throw : seg_held ret -> seg_held throw -> seg_held (emit_from zones fuel i name ret throw).
Proof.
  intros Hret Hthrow. revert i. induction fuel as [|fuel IH]; intros i; [done|]. intros s. simpl.
  destruct (sc_declarations s !! i) as [[d|]|]; [|by apply IH|by apply Hret].
  destruct (td_spec d) as [| | |n]; try by apply IH. case_decide; [|by apply IH].
  apply fire_held; auto with held.
Qed.

Lemma setDisabled_held id b ret throw :
  (b = false -> id <> id0) -> seg_held ret -> seg_held throw -> seg_held (setDisabled zones id b ret throw).
Proof.
  intros Hne Hret Hthrow. apply perform_held; [by apply keeps_same| |done]. intros [st|]; [|done]. destruct b.
  - apply (held_read sc_now (fun now s => perform (store_upsert (with_disabled st true now)) (fun _ => ret) throw
             (set_disabled (add_id id (sc_disabled s)) (cancelHandle id s)))). intros now.
    apply (held_after (fun s => set_disabled (add_id id (sc_disabled s)) (cancelHandle id s))).
    + intros s Hs. pose proof (keeps_cancel id s Hs) as H1. set (s1 := cancelHandle id s) in *.
      assert (sc_disabled s1 = sc_disabled s) as <- by (unfold s1, cancelHandle; by destruct (jget id (sc_handles s))).
      eapply holds_trans; [exact H1|]. apply keeps_add, H1.
    + by apply perform_held; [apply keeps_same|..].
  - apply (held_read (fun s => with_next (with_disabled st false (sc_now s))
             (decl_get id (sc_declarations s) ≫= fun d => computeNextFire zones d (Some (sc_now s)) (sc_now s) s) (sc_now s))
             (fun u s => perform (store_upsert u) (fun _ s => if sc_started s then then_ (schedule zones id u) ret s else ret s)
                           throw (set_disabled (delete_id id (sc_disabled s)) s))). intros u.
    apply (held_after (fun s => set_disabled (delete_id id (sc_disabled s)) s)); [apply keeps_delete; auto|].
    apply perform_held; [by apply keeps_same| |done]. intros _. apply (held_if sc_started); auto with held.
Qed.

Lemma unregister_held id ret throw : id <> id0 -> seg_held ret -> seg_held throw -> seg_held (unregister id ret throw).
Proof.
  intros Hne Hret Hthrow s. unfold unregister. cbv zeta. set (s1 := cancelHandle id s). set (s2 := set_disabled _ _). set (s3 := set_pending _ _).
  destruct (perform_held (store_remove id) (fun _ => ret) throw ltac:(by apply keeps_same) (fun _ => Hret) Hthrow s3) as [H4 Ht].
  split; [intros Hs|done]. assert (holds s s1) as H1 by by apply keeps_cancel.
  assert (holds s1 s2) as H2 by apply (keeps_delete id Hne s1 (proj1 H1)).
  assert (holds s s3) as H3 by (eapply holds_trans; [exact H1|]; eapply holds_trans; [exact H2|]; split; [apply H2|done]).
  eapply holds_trans; [exact H3|apply H4, H3].
Qed.

Lemma keeps_cancel_all ids : keeps (fun s => foldl (fun s id => cancelHandle id s) s ids).
Proof.
  induction ids as [|id ids IH]; intros s Hs; simpl; [done|].
  pose proof (keeps_cancel id s Hs) as H1. eapply holds_trans; [exact H1|]. apply IH, H1.
Qed.

Lemma stop_held ret : seg_held ret -> seg_held (stop ret).
Proof.
  intros Hret s. unfold stop. destruct (sc_started s); [|by apply Hret]. cbv zeta.
  set (s1 := set_started false s). set (s2 := foldl _ s1 _). set (s3 := publish EStopped s2). set (s4 := set_events _ _ _ s3).
  destruct (Hret s4) as [H5 Ht]. split; [intros Hs|done].
  assert (holds s s2) as H2 by (apply (keeps_cancel_all (map fst (sc_handles s1)) s1); done).
  assert (holds s s4) as H4.
  { eapply holds_trans; [exact H2|]. pose proof (keeps_publish EStopped s2 (proj1 H2)) as H3. eapply holds_trans; [exact H3|].
    split; [apply H3|done]. }
  eapply holds_trans; [exact H4|apply H5, H4].
Qed.

Lemma activity_held ds ret : seg_held ret -> seg_held (foldr activity_decl ret ds).
Proof.
  intros Hret. induction ds as [|d ds IH]; simpl; [done|]. revert IH. generalize (foldr activity_decl ret ds). intros k IH s.
  unfold activity_decl. destruct (td_spec d) as [| |ms|]; try by apply IH.
  cbv zeta. set (s1 := cancelHandle (td_id d) s). assert (paused s -> holds s s1) as Hc by apply keeps_cancel.
  assert (seg_held (fun s => if isExpired d s then then_ (autoPauseExpired (td_id d) finish) k s else k (arm (td_id d) FireTimer ms s))) as Hm.
  { apply (held_if (isExpired d)); [auto with held|]. by apply (held_after (arm (td_id d) FireTimer ms)); [apply keeps_same|]. }
  destruct (Hm s1) as [H1 Ht]. split; [|exact Ht]. intros Hs. eapply holds_trans; [by apply Hc|]. by apply H1, Hc.
Qed.

Lemma wake_held id : seg_held (wake zones id).
Proof. apply perform_held; [by apply keeps_same| |auto with held]. intros [st|]; auto with held. Qed.

(** Calls that may end a pause of the trigger. *)
Definition may_resume (c : call) : Prop :=
  match c with
  | CSetDisabled id false | CUnregister id => id = id0
  | CRegister d => td_id d = id0
  | CStart => True
  | _ => False
  end.

Lemma call_held c : ~ may_resume c -> seg_held (call_seg c).
Proof.
  pose proof finish_held. destruct c as [d|id| | |fuel name|id|id b|]; simpl; intros Hc;
    [by apply register_held|by apply unregister_held|by destruct Hc|by apply stop_held|by apply emit_held|by apply fire_held|..].
  - apply setDisabled_held; [|done|done]. by intros ->.
  - intros s. unfold recordActivity. cbv zeta. set (s1 := set_lastActivity _ s).
    destruct (sc_started s1); [exact (activity_held _ finish finish_held s1)|split; [done|constructor]].
Qed.

(** Steps in which no such call is made. *)
Inductive calm : Sys -> Sys -> Prop :=
| calm_call c s ts : ~ may_resume c -> calm (mkSys s ts) (run_seg (call_seg c) s [] ts)
| calm_resume k b s before after : calm (mkSys s (before ++ Await k :: after)) (run_seg (k b) s before after)
| calm_timer tm s ts :
    tm ∈ sc_timers s -> tm_due tm <= sc_now s -> calm (mkSys s ts) (run_seg (timer_seg tm) (take_timer tm s) [] ts)
| calm_clock t s ts : sc_now s <= t -> calm (mkSys s ts) (mkSys (set_now t s) ts).

Lemma flatten_held t : task_held t -> Forall task_held (flatten t).
Proof. induction 1 as [|k H1 H2 _|a b _ IHa _ IHb]; simpl; [done|constructor; [by apply held_await|constructor]|by apply Forall_app]. Qed.

Lemma run_held m s before after :
  seg_held m -> Forall task_held (before ++ after) ->
  Forall task_held (sy_tasks (run_seg m s before after)) /\ (paused s -> holds s (sy_sch (run_seg m s before after))).
Proof.
  intros Hm HF. destruct (Hm s) as [Hf Ht]. unfold run_seg. destruct (m s) as [s' t]. simpl in *.
  split; [|done]. apply Forall_app in HF as [H1 H2]. rewrite !Forall_app. split_and!; [done|by apply flatten_held|done].
Qed.

Lemma calm_held y y' :
  Forall task_held (sy_tasks y) -> calm y y' ->
  Forall task_held (sy_tasks y') /\ (paused (sy_sch y) -> holds (sy_sch y) (sy_sch y')).
Proof.
  intros HF Hst. destruct Hst as [c s ts Hc|k b s before after|tm s ts _ _|t s ts Ht]; simpl in *.
  - by apply run_held; [apply call_held|].
  - apply Forall_app in HF as [H1 [Hk H2]%Forall_cons]. apply run_held; [|by apply Forall_app].
    inversion Hk as [|k' Ha Hb|]; subst. intros s1. split; [apply Ha|apply Hb].
  - destruct (run_held (timer_seg tm) (take_timer tm s) [] ts) as [H1 H2]; [|done|split; [done|exact H2]].
    unfold timer_seg. destruct (tm_action tm); [auto with held|apply wake_held].
  - split; [done|]. intros Hs. by split.
Qed.

Lemma calms_held y y' :
  Forall task_held (sy_tasks y) -> rtc calm y y' ->
  Forall task_held (sy_tasks y') /\ (paused (sy_sch y) -> holds (sy_sch y) (sy_sch y')).
Proof.
  intros HF Hr. induction Hr as [y|y y1 y2 Hst _ IH]; [done|]. destruct (calm_held y y1 HF Hst) as [HF1 H1].
  destruct (IH HF1) as [HF2 H2]. split; [done|]. intros Hs. eapply holds_trans; [by apply H1|]. by apply H2, H1.
Qed.

Lemma play_calm ms y y' :
  Forall (fun m => match m with MCall c => ~ may_resume c | _ => True end) ms -> play ms y = Some y' -> rtc calm y y'.
Proof.
  revert y. induction ms as [|m ms IH]; simpl; intros y HF; [intros [= <-]; apply rtc_refl|].
  apply Forall_cons in HF as [Hm HF]. destruct (play_move m y) as [y1|] eqn:E; [|done]. intros E1.
  eapply rtc_l; [|by apply IH]. clear IH E1 HF. destruct y as [s ts], m as [c|i b|i|t]; simpl in E, Hm.
  - injection E as <-. by constructor.
  - destruct (ts !! i) as [[|k|]|] eqn:Ei; try done. injection E as <-.
    rewrite <- (take_drop_middle ts i (Await k) Ei) at 1. constructor.
  - destruct (sc_timers s !! i) as [tm|] eqn:Ei; [|done]. destruct (Z.leb_spec (tm_due tm) (sc_now s)); [|done].
    injection E as <-. constructor; [|done]. by eapply list_elem_of_lookup_2.
  - destruct (Z.leb_spec (sc_now s) t); [|done]. injection E as <-. by constructor.
Qed.

End Paused.

(** The listing in [start] puts every paused row of a registered trigger in the
    set. *)
Lemma start_rows_pause rows id st ret s :
  (forall s1, sc_disabled s1 = sc_disabled (ret s1).1) ->
  NoDup (map ts_id rows) -> st ∈ rows -> ts_id st = id -> ts_disabled st = true -> declared id s ->
  id ∈ sc_disabled (foldr (start_row zones) ret rows s).1.
Proof.
  intros Hret Hnd Hin <- Hdis Hdecl.
  assert (Hkeep : forall rows s, Forall (fun r => ts_id r <> ts_id st) rows -> ts_id st ∈ sc_disabled s ->
    ts_id st ∈ sc_disabled (foldr (start_row zones) ret rows s).1).
  { clear -Hret. intros rows. induction rows as [|r rows IH]; simpl; intros s HF Hs; [by rewrite <- Hret|].
    apply Forall_cons in HF as [Hr HF]. unfold start_row at 1. destruct (decl_get (ts_id r) (sc_declarations s)) as [d|].
    - destruct (ts_disabled r); [apply IH; [done|]; simpl; apply elem_add; by right|].
      unfold then_ at 1. set (s0 := set_disabled _ s). assert (ts_id st ∈ sc_disabled s0) as H0 by (simpl; by apply elem_delete).
      pose proof (proj1 (schedule_held (ts_id st) (ts_id r) r s0) H0) as [H1 _].
      destruct (schedule zones (ts_id r) r s0) as [s1 t1]. specialize (IH s1 HF H1). by destruct (foldr (start_row zones) ret rows s1).
    - apply IH; [done|]. unfold publish. by destruct (sc_closedEvents s). }
  revert s Hdecl. induction rows as [|r rows IH]; simpl; intros s Hdecl; [by apply not_elem_of_nil in Hin|].
  apply NoDup_cons in Hnd as [Hni Hnd].
  apply elem_of_cons in Hin as [->|Hin].
  - unfold start_row at 1. destruct (decl_get (ts_id r) (sc_declarations s)) eqn:E; [|by destruct Hdecl]. rewrite Hdis.
    apply Hkeep; [|simpl; apply elem_add; by left]. apply Forall_forall. intros x Hx Heq. apply Hni. rewrite <- Heq.
    by apply list_elem_of_fmap_2.
  - unfold start_row at 1. destruct (decl_get (ts_id r) (sc_declarations s)) as [d|] eqn:E; [|apply IH; [done|done|]].
    2: { unfold declared, publish in *. by destruct (sc_closedEvents s). }
    destruct (ts_disabled r); [by apply IH|]. unfold then_ at 1. set (s0 := set_disabled _ s).
    assert (sc_declarations (schedule zones (ts_id r) r s0).1 = sc_declarations s0) as Ed.
    { unfold schedule. cbv zeta. assert (sc_declarations (cancelHandle (ts_id r) s0) = sc_declarations s0) as Ec
        by (unfold cancelHandle; by destruct (jget _ (sc_handles s0))). set (s1 := cancelHandle (ts_id r) s0) in *.
      destruct (ts_disabled r); [done|]. destruct (decl_get (ts_id r) (sc_declarations s1)) as [d1|]; [|done].
      assert (sc_declarations (autoPauseExpired (ts_id r) finish s1).1 = sc_declarations s0) as Ep.
      { simpl. unfold cancelHandle at 1. by destruct (jget _ (sc_handles s1)). }
      destruct (td_spec d1); try done; (destruct (isExpired d1 s1); [done|]); by repeat case_match. }
    destruct (schedule zones (ts_id r) r s0) as [s1 t1]. simpl in Ed.
    assert (declared (ts_id st) s1) as Hd1 by (unfold declared; rewrite Ed; exact Hdecl).
    specialize (IH Hnd Hin s1 Hd1). by destruct (foldr (start_row zones) ret rows s1).
Qed.

(** A method resumed at each of its awaits in the state the others have left it,
    its store operations succeeding. *)
Fixpoint drive (ss : list Sch) (m : Sch * task) : Sch * task :=
  match ss, m with
  | s :: ss', (_, Await k) => drive ss' (k true s)
  | _, _ => m
  end.

Lemma drain_disabled ids ret throw s :
  (forall s1, sc_disabled (ret s1).1 = sc_disabled s1) -> sc_disabled (drain zones ids ret throw s).1 = sc_disabled s.
Proof.
  intros Hret. revert s. induction ids as [|i ids IH]; intros s; simpl; [apply Hret|].
  destruct (decl_get i (sc_declarations s)); [done|apply IH].
Qed.

Lemma start_pauses st s0 s1 s2 :
  sc_started s0 = false -> NoDup (map ts_id (sc_store s1)) -> st ∈ sc_store s1 -> ts_disabled st = true ->
  declared (ts_id st) s2 -> ts_id st ∈ sc_disabled (drive [s1; s2] (start zones finish finish s0)).1.
Proof.
  intros E Hnd Hin Hdis Hd. unfold start. rewrite E. simpl.
  set (ret := drainPendingCatchup zones (later finish) (later finish)).
  pose proof (start_rows_pause (sc_store s1) (ts_id st) st ret s2) as H.
  assert (ts_id st ∈ sc_disabled (foldr (start_row zones) ret (sc_store s1) s2).1) as Hg.
  { apply H; try done. intros s. unfold ret, drainPendingCatchup. by rewrite drain_disabled. }
  by destruct (foldr (start_row zones) ret (sc_store s1) s2) as [s []].
Qed.

Lemma setDisabled_pauses id st s0 s1 s2 :
  Store.get id (sc_store s1) = Some st ->
  id ∈ sc_disabled (drive [s1; s2] (setDisabled zones id true finish finish s0)).1.
Proof. intros E. simpl. rewrite E. simpl. apply elem_add. by left. Qed.

Lemma autoPause_pauses id st s0 s1 s2 s3 s4 :
  Store.get id (sc_store s1) = Some st -> ts_disabled st = false ->
  id ∈ sc_disabled (drive [s1; s2; s3; s4] (autoPauseExpired id finish s0)).1.
Proof.
  intros E Ed. simpl. rewrite E, Ed. simpl. unfold publish.
  destruct (sc_closedEvents _); simpl; apply elem_add; by left.
Qed.

Lemma register_written_pauses d st ex now s :
  ts_disabled st = true -> td_id d ∈ sc_disabled (register_written zones d st ex now finish finish s).1.
Proof.
  intros Ed. unfold register_written. rewrite Ed. cbv zeta. set (s1 := publish _ _).
  assert (paused (td_id d) s1) as Hs.
  { unfold s1, paused, publish. simpl. destruct (sc_closedEvents s); simpl; apply elem_add; by left. }
  assert (forall m, seg_held (td_id d) m -> td_id d ∈ sc_disabled (m s1).1) as Hm by (intros m Hm; apply (Hm s1), Hs).
  assert (seg_held (td_id d) (register_scheduled zones d st finish)) as Hsch.
  { apply held_if; [|apply finish_held]. apply then_held; [apply schedule_held|apply finish_held]. }
  destruct ex as [ex|]; [|by apply Hm]. destruct (catches_up d); [|by apply Hm].
  destruct (sc_started s1).
  - apply Hm, applyCatchup_held; [by apply later_held|apply later_held, finish_held].
  - apply Hsch. exact Hs.
Qed.

Lemma register_pauses d st s0 s1 s2 s3 s4 :
  enforceLimits limits d s0 = Ok tt -> register_declare d (libModeWarning lib_mode d s0) <> None ->
  Store.get (td_id d) (sc_store s1) = Some st -> ts_disabled st = true ->
  td_id d ∈ sc_disabled (drive [s1; s2; s3; s4] (register zones lib_mode limits d finish finish s0)).1.
Proof.
  intros El Hd E Ed. unfold register. rewrite El. destruct (register_declare _ _) as [s|]; [|done].
  cbv zeta. cbn [drive perform store_get store_upsert]. rewrite E.
  match goal with |- context [register_written zones d ?u ?ex ?now finish finish s4] =>
    pose proof (register_written_pauses d u ex now s4 Ed) as H;
    by destruct (register_written zones d u ex now finish finish s4) as [? []] end.
Qed.

(** C37: pauses are recorded and hold. Pausing a trigger the store knows,
    [register] of a declaration whose row is paused, [start] over the rows of
    registered triggers (one row per id), and the automatic pause of an expired
    trigger put the trigger in the set [fire] consults, whatever the other methods
    do to the state at each await in between, the store operations succeeding. And
    from a scheduler with no method in flight, as long as nobody enables,
    unregisters or registers that trigger or starts the scheduler, once it is in
    the set it stays there and no callback of it is invoked, on any path (timer,
    catch-up, event, manual call), however the other calls, the suspended methods,
    the timers and the clock interleave and whichever store operations fail. *)
Theorem pauses_are_recorded_and_hold id :
  (forall st s0 s1 s2, Store.get id (sc_store s1) = Some st ->
     id ∈ sc_disabled (drive [s1; s2] (setDisabled zones id true finish finish s0)).1) /\
  (forall d st s0 s1 s2 s3 s4, td_id d = id ->
     enforceLimits limits d s0 = Ok tt -> register_declare d (libModeWarning lib_mode d s0) <> None ->
     Store.get id (sc_store s1) = Some st -> ts_disabled st = true ->
     id ∈ sc_disabled (drive [s1; s2; s3; s4] (register zones lib_mode limits d finish finish s0)).1) /\
  (forall st s0 s1 s2, sc_started s0 = false -> NoDup (map ts_id (sc_store s1)) ->
     st ∈ sc_store s1 -> ts_id st = id -> ts_disabled st = true -> decl_get id (sc_declarations s2) <> None ->
     id ∈ sc_disabled (drive [s1; s2] (start zones finish finish s0)).1) /\
  (forall st s0 s1 s2 s3 s4, Store.get id (sc_store s1) = Some st -> ts_disabled st = false ->
     id ∈ sc_disabled (drive [s1; s2; s3; s4] (autoPauseExpired id finish s0)).1) /\
  (forall y0 y y', sy_tasks y0 = [] -> rtc (calm id) y0 y -> id ∈ sc_disabled (sy_sch y) -> rtc (calm id) y y' ->
     id ∈ sc_disabled (sy_sch y') /\ fired_of id (sy_sch y') = fired_of id (sy_sch y)).
Proof.
  split_and!.
  - intros st s0 s1 s2. apply setDisabled_pauses.
  - intros d st s0 s1 s2 s3 s4 <-. apply register_pauses.
  - intros st s0 s1 s2 H1 H2 H3 <-. by apply start_pauses.
  - intros st s0 s1 s2 s3 s4. apply autoPause_pauses.
  - intros y0 y y' E H1 Hs H2. destruct (calms_held id y0 y) as [HF _]; [by rewrite E|done|].
    by destruct (calms_held id y y' HF H2) as [_ [H3 H4]].
Qed.

End Props.

(** ** Instances *)

Definition demo_zones (_ : string) (_ : Z) : WallParts := mkWall 1970 1 1 0 0.

(** An hourly interval trigger that expires after a day. *)
Definition hourly : TriggerDeclaration :=
  mkDecl "hourly" (TInterval 3600000) (mkOptions None None None None false None None (Some 86400000)).

Definition settle (n : nat) : list move := repeat (MResume 0 true) n.

(** Started and registered: the timer is armed. *)
Definition armed_moves : list move := MCall CStart :: settle 2 ++ MCall (CRegister hourly) :: settle 4.

Definition played (ms : list move) : Sys :=
  default (mkSys (initial [] 0) []) (play demo_zones false None ms (mkSys (initial [] 0) [])).

Definition playable (ms : list move) : bool :=
  match play demo_zones false None ms (mkSys (initial [] 0) []) with Some _ => true | None => false end.

Lemma played_reachable ms : playable ms = true -> reachable demo_zones false None (played ms).
Proof.
  unfold played, playable. intros H. destruct (play _ _ _ ms _) as [y|] eqn:E; [|done].
  by eapply play_reachable; [apply reach_init|exact E].
Qed.

Lemma play_snoc ms m y y' y0 :
  play demo_zones false None (ms ++ [m]) y = Some y' ->
  step demo_zones false None (default y0 (play demo_zones false None ms y)) y'.
Proof.
  revert y. induction ms as [|m' ms IH]; simpl; intros y; [|destruct (play_move _ _ _ m' y) as [y1|]; [apply IH|done]].
  intros E. apply (play_move_step demo_zones false None m). by destruct (play_move _ _ _ m y).
Qed.

Lemma played_step ms m : playable (ms ++ [m]) = true -> step demo_zones false None (played ms) (played (ms ++ [m])).
Proof.
  unfold playable. intros H. destruct (play _ _ _ (ms ++ [m]) _) as [y'|] eqn:E; [|done].
  unfold played at 1. apply (play_snoc ms m). unfold played. by rewrite E.
Qed.

Lemma one_timer_per_trigger_witness :
  map (fun tm => (tm_id tm, tm_due tm)) (sc_timers (sy_sch (played armed_moves))) = [("hourly", 3600000)] /\
  NoDup (map tm_id (sc_timers (sy_sch (played armed_moves)))).
Proof.
  split; [vm_compute; reflexivity|].
  apply (one_timer_per_trigger demo_zones false None (played armed_moves)).
  apply played_reachable. vm_compute. reflexivity.
Defined.

(** Its timer fires. *)
Lemma callbacks_respect_pause_and_expiry_witness :
  let y := played (armed_moves ++ [MClock 3600000]) in
  let y' := played (armed_moves ++ [MClock 3600000; MTimer 0]) in
  sc_fired (sy_sch y') = [("hourly", 3600000)] /\
  (sc_fired (sy_sch y') = sc_fired (sy_sch y) \/
   exists id d, sc_fired (sy_sch y') = (sc_fired (sy_sch y) ++ [(id, sc_now (sy_sch y'))])%list /\
     decl_get id (sc_declarations (sy_sch y')) = Some d /\
     match op_expiresAt (td_options d) with Some e => sc_now (sy_sch y') < e | None => True end /\
     id ∉ sc_disabled (sy_sch y')).
Proof.
  intros y y'. split; [vm_compute; reflexivity|].
  apply (callbacks_respect_pause_and_expiry demo_zones false None y y').
  - apply played_reachable. vm_compute. reflexivity.
  - apply (played_step (armed_moves ++ [MClock 3600000]) (MTimer 0)). vm_compute. reflexivity.
Defined.

(** ** The pause of the hourly trigger *)

Definition pause_moves : list move := MCall (CSetDisabled "hourly" true) :: settle 4.

(** Its hour comes, somebody calls [fire], and the scheduler is stopped. *)
Definition later_moves : list move := [MClock 3600000; MCall (CFire "hourly"); MCall CRecordActivity; MCall CStop].

Definition replayed (ms : list move) (y : Sys) : Sys := default y (play demo_zones false None ms y).

Definition armed : Sys := replayed (settle 1) (played armed_moves).
Definition paused_sys : Sys := replayed pause_moves armed.

Lemma pauses_are_recorded_and_hold_witness :
  map tm_id (sc_timers (sy_sch armed)) = ["hourly"] /\ sc_timers (sy_sch paused_sys) = [] /\
  let y' := replayed later_moves paused_sys in
  sc_now (sy_sch y') = 3600000 /\ "hourly" ∈ sc_disabled (sy_sch y') /\
  fired_of "hourly" (sy_sch y') = fired_of "hourly" (sy_sch paused_sys).
Proof.
  split; [vm_compute; reflexivity|]. split; [vm_compute; reflexivity|].
  split; [vm_compute; reflexivity|].
  destruct (pauses_are_recorded_and_hold demo_zones false None "hourly") as (_ & _ & _ & _ & H).
  apply (H armed paused_sys (replayed later_moves paused_sys)).
  - vm_compute. reflexivity.
  - apply (play_calm demo_zones false None "hourly" pause_moves); [|vm_compute; reflexivity].
    repeat (constructor; [first [exact I | intros []]|]). constructor.
  - apply (bool_decide_unpack _). vm_compute. exact I.
  - apply (play_calm demo_zones false None "hourly" later_moves); [|vm_compute; reflexivity].
    repeat (constructor; [first [exact I | intros []]|]). constructor.
Defined.

(** A mail trigger an earlier process left paused. *)
Definition mail : TriggerDeclaration := mkDecl "mail" (TEvent "mail.in") no_options.
Definition mail_row : TriggerState :=
  mkState "mail" (TEvent "mail.in") None None 0 true CatchNone 1 DEFAULT_CATCHUP_WINDOW_MS None 0 None.

(** [register] puts the declaration in place before it has read the row: an event
    that comes in between runs the callback of the paused trigger. *)
Example register_opens_a_window :
  let y0 := mkSys (initial [mail_row] 1000) [] in
  let y1 := replayed (MCall (CRegister mail) :: settle 4) y0 in
  sc_disabled (sy_sch y1) = ["mail"] /\
  sc_fired (sy_sch (replayed [MCall (CEmit 9 "mail.in")] y1)) = [] /\
  sc_fired (sy_sch (replayed [MCall (CRegister mail); MCall (CEmit 9 "mail.in")] y0)) = [("mail", 1000)].
Proof. vm_compute. split_and!; reflexivity. Qed.
