(* ===== verification/SchedulerFires.v ===== *)
(** * When triggers fire

    The arithmetic of the schedule: interval boundaries, the catch-up count, the
    armed delay; and that a trigger is armed again after each run, whether its
    callback returned or threw. *)

From S2P Require Import Prelude Calendar Cron CronProps Scheduler SchedulerProps.

Local Open Scope string_scope.
Local Open Scope Z_scope.

(** ** Intervals *)

(** After downtime an interval trigger resumes on its own cadence: the next
    fire is the first instant after [now] that lies a whole number of periods,
    at least one, after the last fire. *)
Theorem interval_keeps_cadence zones d ms last now s :
  td_spec d = TInterval ms -> 0 < ms -> last <= now ->
  exists k, 1 <= k /\ computeNextFire zones d (Some last) now s = Some (last + k * ms) /\
    now < last + k * ms /\ forall j, 1 <= j < k -> last + j * ms <= now.
Proof.
  intros Hd Hms Hle. unfold computeNextFire. rewrite Hd. simpl.
  pose proof (Z.mul_div_le (now - last) ms Hms) as H1. pose proof (Z.mul_succ_div_gt (now - last) ms Hms) as H2.
  destruct (Z.leb_spec (last + ms) now) as [Hpast|Hfuture]; simpl.
  - rewrite (proj2 (Z.ltb_lt 0 ms)) by done. exists ((now - last) / ms + 1).
    assert (0 <= (now - last) / ms) by (apply Z.div_pos; lia). split_and!; [lia|done|lia|]. intros j Hj. nia.
  - exists 1. split_and!; [lia|by rewrite Z.mul_1_l|lia|]. lia.
Qed.

(** ** Catching up *)

(** The matching minutes after [c], among the minutes [mins]. *)
Definition matches_after (p : ParsedCron) (mins : list Z) (c : Z) : list Z :=
  List.filter (fun t => (c <? t) && cron_matches p t) mins.

(** All minutes of [(last, now]]. *)
Definition minutes_of (last now : Z) : list Z :=
  map (fun k => next_start last + k * MINUTE_MS) (seqZ 0 ((now - next_start last) / MINUTE_MS + 1)).

Lemma elem_minutes last now t :
  last <= now -> t ∈ minutes_of last now <-> last < t <= now /\ on_minute t.
Proof.
  intros Hle. unfold minutes_of. rewrite list_elem_of_fmap. setoid_rewrite elem_of_seqZ.
  assert (on_minute (next_start last)) as Hs by (apply aligned_floor; by exists 1). split.
  - intros (k & -> & Hk). pose proof (next_start_after last).
    unfold on_minute, MINUTE_MS in *. div_lia.
  - intros [Ht Hon]. pose proof (proj1 (next_start_least last t Hon)) as Hst. exists ((t - next_start last) / MINUTE_MS).
    unfold on_minute, MINUTE_MS in *. div_lia.
Qed.

Lemma minutes_nodup last now : NoDup (minutes_of last now).
Proof.
  apply NoDup_fmap_2; [|apply NoDup_seqZ]. intros a b Heq. unfold MINUTE_MS in *. lia.
Qed.

Lemma nodup_filter {A} (f : A -> bool) l : NoDup l -> NoDup (List.filter f l).
Proof.
  induction 1 as [|x l Hni _ IH]; simpl; [constructor|]. destruct (f x); [|done].
  apply NoDup_cons. split; [|done]. by intros [? _]%elem_bfilter.
Qed.

Lemma count_missed_exact zones p last now fuel c :
  0 <= last <= c -> c <= now -> now < next_horizon last ->
  count_missed fuel (fun c => nextFireAfter zones p c None) c now =
    Z.min (Z.of_nat fuel) (Z.of_nat (length (matches_after p (minutes_of last now) c))).
Proof.
  revert c. induction fuel as [|fuel IH]; intros c Hc Hle Hh; cbn [count_missed]; [lia|].
  assert (forall t, c < t <= now -> on_minute t -> t ∈ minutes_of last now) as Hmins
    by (intros t Ht Hon; apply elem_minutes; [lia|split; [lia|done]]).
  assert (next_horizon last <= next_horizon c) as Hhor.
  { unfold next_horizon, next_start, floor_to, MINUTE_MS. clear -Hc. div_lia. }
  pose proof (nextFireUTC_first p c ltac:(lia)) as Hf. rewrite <- (nextFireAfter_utc zones) in Hf.
  destruct (nextFireAfter zones p c None) as [t|].
  - destruct Hf as (Ht & Hon & Hm & Hleast). destruct (Z.ltb_spec now t) as [Hlate|Hin].
    + assert (matches_after p (minutes_of last now) c = []) as ->; [|done].
      apply elem_of_nil_inv. intros x [Hx [Hcx Hxm]%andb_true_iff]%elem_bfilter.
      apply elem_minutes in Hx as [Hx1 Hx2]; [|lia]. rewrite Hleast in Hxm; [done|lia|done].
    + rewrite IH by lia.
      assert (matches_after p (minutes_of last now) c ≡ₚ t :: matches_after p (minutes_of last now) t) as Hperm.
      { apply NoDup_Permutation; [apply nodup_filter, minutes_nodup| |].
        - apply NoDup_cons. split; [|apply nodup_filter, minutes_nodup].
          intros [_ [Hlt _]%andb_true_iff]%elem_bfilter. lia.
        - intros x. unfold matches_after. rewrite elem_of_cons, !elem_bfilter, !andb_true_iff, !Z.ltb_lt. split.
          + intros (Hx & Hcx & Hxm). destruct (Z.lt_trichotomy x t) as [Hlt|[->|Hgt]]; [|by left|by right].
            apply elem_minutes in Hx as [Hx1 Hx2]; [|lia]. rewrite Hleast in Hxm; [done|lia|done].
          + intros [->|(Hx & Htx & Hxm)]; [|split_and!; [done|lia|done]].
            split_and!; [apply Hmins; [lia|done]|lia|done]. }
      rewrite (Permutation_length Hperm). simpl. lia.
  - assert (matches_after p (minutes_of last now) c = []) as ->; [|done].
    apply elem_of_nil_inv. intros x [Hx [Hcx Hxm]%andb_true_iff]%elem_bfilter.
    apply elem_minutes in Hx as [Hx1 Hx2]; [|lia]. rewrite Hf in Hxm; [done|lia|done].
Qed.

(** Catch-up counts the fires that were really missed: for a cron trigger in
    UTC the count is the number of minutes after the last fire, up to now, that
    match the expression, capped at 1000. *)
Theorem catchup_counts_real_misses zones d e p last now s :
  td_spec d = TCron e -> cron_of d e s = Some p -> op_timezone (td_options d) = None ->
  0 <= last <= now -> now < next_horizon last ->
  exists L, NoDup L /\ (forall t, t ∈ L <-> last < t <= now /\ on_minute t /\ cron_matches p t = true) /\
    missed_fires zones d last now s = Z.min 1000 (Z.of_nat (length L)).
Proof.
  intros Hd Hp Htz Hle Hh. exists (matches_after p (minutes_of last now) last). split_and!.
  - apply nodup_filter, minutes_nodup.
  - intros t. unfold matches_after. rewrite elem_bfilter, elem_minutes, andb_true_iff, Z.ltb_lt by lia. tauto.
  - unfold missed_fires. rewrite Hd, Hp, Htz, (count_missed_exact zones p last) by lia. done.
Qed.

(** ** Armed delays *)

Lemma jitter_bounds d : 0 <= jitterOffset d <= Z.max 0 (default 0 (op_jitterMs (td_options d))).
Proof.
  unfold jitterOffset. destruct (op_jitterMs (td_options d)) as [j|]; simpl; [|lia].
  destruct (Z.leb_spec j 0); [lia|]. pose proof (Z.mod_pos_bound (fnv1a (td_id d)) (j + 1) ltac:(lia)).
  destruct (td_spec d); lia.
Qed.

(** Nothing stops this trigger from being armed. *)
Definition armable (id : string) (d : TriggerDeclaration) (st : TriggerState) (s : Sch) : Prop :=
  decl_get id (sc_declarations s) = Some d /\ (forall n, td_spec d <> TEvent n) /\
  isExpired d s = false /\ ts_disabled st = false.

Lemma cancel_same id s :
  sc_now (cancelHandle id s) = sc_now s /\ sc_declarations (cancelHandle id s) = sc_declarations s /\
  sc_store (cancelHandle id s) = sc_store s /\ sc_started (cancelHandle id s) = sc_started s.
Proof. unfold cancelHandle. by destruct (jget id (sc_handles s)). Qed.

Lemma schedule_arms zones id d st s n :
  armable id d st s -> ts_nextFireAt st = Some n ->
  let delay := Z.max 0 (n - sc_now s) + jitterOffset d in
  schedule zones id st s =
    (if MAX_TIMEOUT_MS <? delay then arm id WakeTimer MAX_TIMEOUT_MS (cancelHandle id s)
     else arm id FireTimer delay (cancelHandle id s), Done).
Proof.
  intros (Hd & Hev & He & Hdis) Hn delay. unfold schedule. destruct (cancel_same id s) as (E1 & E2 & _).
  rewrite Hdis, E2, Hd, Hn. assert (isExpired d (cancelHandle id s) = false) as He' by (unfold isExpired in *; by rewrite E1).
  destruct (td_spec d) as [| | |name]; [..|by specialize (Hev name)]; rewrite He', E1; fold delay;
    by destruct (MAX_TIMEOUT_MS <? delay).
Qed.

(** A trigger is never armed early and never sleeps through its time: arming
    a row for the instant [n] leaves one timer of this trigger; if it fires the
    callback, it is due at [n] plus the trigger's jitter, at most one millisecond
    later (or that long from now when [n] has passed), the jitter lying between
    zero and the configured maximum; if the wait is longer than a timer can
    hold, it is a wake-up that is due before that instant and re-arms. *)
Theorem armed_on_time zones id d st s n (j := jitterOffset d) :
  inv s -> armable id d st s -> ts_nextFireAt st = Some n ->
  0 <= j <= Z.max 0 (default 0 (op_jitterMs (td_options d))) /\
  exists tm, tm ∈ sc_timers (schedule zones id st s).1 /\ tm_id tm = id /\
    (forall tm', tm' ∈ sc_timers (schedule zones id st s).1 -> tm_id tm' = id -> tm' = tm) /\
    match tm_action tm with
    | FireTimer => Z.max (sc_now s) n + j <= tm_due tm <= Z.max (sc_now s) n + j + 1
    | WakeTimer => sc_now s < tm_due tm < Z.max (sc_now s) n + j
    end.
Proof.
  intros Hs Ha Hn. split; [apply jitter_bounds|]. pose proof (jitter_bounds d) as Hj. fold j in Hj.
  destruct (cancel_spec id s Hs) as (_ & _ & _ & Hno). destruct (cancel_same id s) as (E1 & _).
  rewrite (schedule_arms zones id d st s n Ha Hn). fold j. simpl.
  set (delay := Z.max 0 (n - sc_now s) + j).
  assert (forall a dl, sc_timers (arm id a dl (cancelHandle id s)) =
            mkTimer (sc_nextHandle (cancelHandle id s)) id (sc_now s + timeout_delay dl) a :: sc_timers (cancelHandle id s)) as Harm
    by (intros a dl; simpl; by rewrite E1).
  destruct (Z.ltb_spec MAX_TIMEOUT_MS delay) as [Hlong|Hshort]; rewrite Harm; eexists; (split; [by left|]);
    (split; [done|]); (split; [intros tm' [->|Hin]%elem_of_cons Hid; [done|by apply Hno in Hin]|]); simpl.
  - unfold timeout_delay, MAX_TIMEOUT_MS, delay in *. simpl. lia.
  - unfold timeout_delay. rewrite (proj2 (Z.ltb_ge MAX_TIMEOUT_MS delay)) by done. cbn [orb].
    destruct (Z.ltb_spec delay 1); unfold delay in *; lia.
Qed.

(** ** Firing again *)

(** A task run to its end with nothing in between, given the outcomes of what it
    awaits. *)
Fixpoint run_alone (outcomes : list bool) (r : Sch * task) : Sch * list task :=
  match flatten r.2, outcomes with
  | [Await k], b :: outcomes' => run_alone outcomes' (k b r.1)
  | ts, _ => (r.1, ts)
  end.

Lemma perform_runs {A} (op : Sch -> A * Sch) ok failed s outcomes :
  run_alone (true :: true :: outcomes) (perform op ok failed s) = run_alone outcomes (ok (op s).1 (op s).2).
Proof. unfold perform. simpl. destruct (op s) as [a s2]. done. Qed.

Lemma get_upsert id st rows : ts_id st = id -> Store.get id (Store.upsert st rows) = Some st.
Proof.
  intros <-. unfold Store.get. induction rows as [|r rows IH]; simpl; [by rewrite bool_decide_true|].
  case_decide; simpl; [by rewrite bool_decide_true|]. destruct (String.ltb _ _); simpl; [by rewrite bool_decide_true|].
  by rewrite bool_decide_false.
Qed.

Lemma get_recordFire id t next rows r :
  Store.get id rows = Some r -> match ts_lastFiredAt r with Some l => l < t | None => True end ->
  exists r', Store.get id (Store.recordFire id t next rows) = Some r' /\
    ts_nextFireAt r' = next /\ ts_lastFiredAt r' = Some t /\ ts_disabled r' = ts_disabled r.
Proof.
  unfold Store.get, Store.recordFire. induction rows as [|x rows IH]; simpl; [done|].
  destruct (bool_decide (ts_id x = id)) eqn:E; simpl.
  - intros [= ->] Hl. assert (match ts_lastFiredAt r with Some l => l <? t | None => true end = true) as ->
      by (destruct (ts_lastFiredAt r); lia). simpl. rewrite E. eexists. split; [done|]. done.
  - rewrite E. apply IH.
Qed.

(** States that agree on what the schedule depends on. *)
Definition same_setting (s s' : Sch) : Prop :=
  sc_now s' = sc_now s /\ sc_declarations s' = sc_declarations s /\ sc_started s' = sc_started s /\
  sc_parsedCron s' = sc_parsedCron s /\ sc_lastActivity s' = sc_lastActivity s.

Lemma computeNextFire_same zones d last now s s' :
  same_setting s s' -> computeNextFire zones d last now s' = computeNextFire zones d last now s.
Proof.
  intros (_ & _ & _ & Hp & Hl). unfold computeNextFire, cron_of. destruct (td_spec d); by rewrite ?Hp, ?Hl.
Qed.

Lemma armable_same id d st s s' : same_setting s s' -> armable id d st s -> armable id d st s'.
Proof.
  intros (Hn & Hd & _) (H1 & H2 & H3 & H4). unfold armable, isExpired in *. by rewrite Hn, Hd.
Qed.

Lemma get_id id rows r : Store.get id rows = Some r -> ts_id r = id.
Proof. intros [_ H%bool_decide_eq_true]%find_some. done. Qed.

Definition has_timer (id : string) (s : Sch) : Prop := exists tm, tm ∈ sc_timers s /\ tm_id tm = id.

(** What is left after [schedule] armed a trigger in a task that then ends. *)
Lemma schedule_ends zones id d st s n outcomes :
  armable id d st s -> ts_nextFireAt st = Some n ->
  exists s', run_alone outcomes (then_ (schedule zones id st) finish s) = (s', []) /\
    has_timer id s' /\ sc_store s' = sc_store s /\ sc_fired s' = sc_fired s.
Proof.
  intros Ha Hn. unfold then_. rewrite (schedule_arms zones id d st s n Ha Hn). cbn [finish].
  eexists. split; [by destruct outcomes|]. destruct (cancel_same id s) as (_ & _ & E & _).
  assert (sc_fired (cancelHandle id s) = sc_fired s) as Ef by (unfold cancelHandle; by destruct (jget id (sc_handles s))).
  destruct (MAX_TIMEOUT_MS <? _); simpl; (split; [by eexists; split; [left|]|done]).
Qed.

Section Rearm.
Context (zones : string -> Z -> WallParts) (id : string) (d : TriggerDeclaration) (r : TriggerState) (s : Sch) (n : Z).
Context (Ha : armable id d r s) (Hidle : is_idle d = false) (Hstart : sc_started s = true).
Context (Hrow : Store.get id (sc_store s) = Some r).
Context (Hnext : computeNextFire zones d (Some (sc_now s)) (sc_now s) s = Some n).

Lemma published e s1 :
  same_setting s s1 -> sc_store s1 = sc_store s ->
  same_setting s (publish e s1) /\ sc_store (publish e s1) = sc_store s /\ sc_fired (publish e s1) = sc_fired s1.
Proof. intros H1 H2. unfold publish. by destruct (sc_closedEvents s1). Qed.

(** The callback threw: the row moves on, the last fire stays. *)
Lemma failed_rearms outcomes s1 :
  same_setting s s1 -> sc_store s1 = sc_store s ->
  exists s' r', run_alone (true :: true :: true :: true :: outcomes) (fire_failed zones id d (sc_now s) finish s1) = (s', []) /\
    Store.get id (sc_store s') = Some r' /\ ts_nextFireAt r' = Some n /\ ts_lastFiredAt r' = ts_lastFiredAt r /\
    has_timer id s' /\ sc_fired s' = sc_fired s1.
Proof using Ha Hidle Hstart Hrow Hnext.
  intros Hs1 Est. unfold fire_failed. rewrite perform_runs.
  set (e := EFireError _ _). set (s2 := publish e s1). destruct (published e s1 Hs1 Est) as (Hs2 & Est2 & Ef2).
  fold s2 in Hs2, Est2, Ef2.
  cbn [store_get fst snd]. rewrite Est2, Hrow, Hidle, perform_runs. cbn [store_upsert fst snd].
  rewrite (computeNextFire_same zones d _ _ s s2 Hs2), (proj1 Hs2), Hnext.
  set (r' := with_next r (Some n) (sc_now s)). set (s3 := set_store _ s2).
  assert (same_setting s s3) as Hs3 by exact Hs2.
  replace (sc_started s3) with true by (symmetry; etrans; [apply Hs3|done]).
  destruct (schedule_ends zones id d r' s3 n outcomes) as (s' & Hrun & Ht & Es & Ef).
  - apply (armable_same id d r' s s3 Hs3). exact Ha.
  - done.
  - exists s', r'. rewrite Hrun, Es, Ef. split_and!; try done.
    apply get_upsert. exact (get_id id (sc_store s) r Hrow).
Qed.

(** The callback returned: the fire is recorded. *)
Lemma returned_rearms outcomes s1 :
  match ts_lastFiredAt r with Some l => l < sc_now s | None => True end ->
  same_setting s s1 -> sc_store s1 = sc_store s ->
  exists s' r', run_alone (true :: true :: true :: true :: true :: true :: outcomes)
      (fire_returned zones id d (sc_now s) finish s1) = (s', []) /\
    Store.get id (sc_store s') = Some r' /\ ts_nextFireAt r' = Some n /\ ts_lastFiredAt r' = Some (sc_now s) /\
    has_timer id s' /\ sc_fired s' = sc_fired s1.
Proof using Ha Hidle Hstart Hrow Hnext.
  intros Hfence Hs1 Est. unfold fire_returned. rewrite perform_runs.
  set (e := EFireEnd _ _). set (s2 := publish e s1). destruct (published e s1 Hs1 Est) as (Hs2 & Est2 & Ef2).
  fold s2 in Hs2, Est2, Ef2. cbn [store_get fst snd]. rewrite Est2, Hrow, Hidle, perform_runs. cbn [store_recordFire fst snd].
  rewrite (computeNextFire_same zones d _ _ s s2 Hs2), (proj1 Hs2), Hnext, Est2.
  set (s3 := set_store _ s2). assert (same_setting s s3) as Hs3 by exact Hs2.
  replace (sc_started s3) with true by (symmetry; etrans; [apply Hs3|done]).
  cbn [negb andb]. rewrite perform_runs. cbn [store_get fst snd].
  destruct (get_recordFire id (sc_now s) (Some n) (sc_store s) r Hrow Hfence) as (r' & Hr' & Hn' & Hl' & Hd').
  change (sc_store s3) with (Store.recordFire id (sc_now s) (Some n) (sc_store s)). rewrite Hr'.
  destruct (schedule_ends zones id d r' s3 n outcomes) as (s' & Hrun & Ht & Es & Ef); [|done|].
  - apply (armable_same id d r' s s3 Hs3). destruct Ha as (? & ? & ? & ?). split_and!; try done. by rewrite Hd'.
  - exists s', r'. rewrite Hrun, Es, Ef. by split_and!.
Qed.
End Rearm.

(** A trigger that fires keeps firing: a fire of a started, enabled,
    unexpired cron or interval trigger, whether its callback returns or throws,
    runs to its end, invokes the callback once, leaves the row due at the next
    instant of the schedule with this fire recorded exactly when the callback
    returned, and leaves a timer armed for the trigger. *)
Theorem fire_rearms zones id d r s n returned :
  armable id d r s -> is_idle d = false -> id ∉ sc_disabled s -> sc_started s = true ->
  Store.get id (sc_store s) = Some r ->
  match ts_lastFiredAt r with Some l => l < sc_now s | None => True end ->
  computeNextFire zones d (Some (sc_now s)) (sc_now s) s = Some n ->
  exists s' r', run_alone (returned :: repeat true 6) (fire zones id finish finish s) = (s', []) /\
    sc_fired s' = (sc_fired s ++ [(id, sc_now s)])%list /\
    Store.get id (sc_store s') = Some r' /\ ts_nextFireAt r' = Some n /\
    ts_lastFiredAt r' = (if returned then Some (sc_now s) else ts_lastFiredAt r) /\ has_timer id s'.
Proof.
  intros Ha Hidle Hdis Hstart Hrow Hfence Hnext. unfold fire. destruct Ha as (Hd & Hev & Hexp & Hoff) eqn:EHa.
  rewrite Hd, Hexp, bool_decide_false by done. cbn [run_alone flatten repeat].
  set (e := EFireStart id (sc_now s)). set (s1 := add_fired id (publish e s)).
  assert (same_setting s s1 /\ sc_store s1 = sc_store s /\ sc_fired s1 = (sc_fired s ++ [(id, sc_now s)])%list) as (Hs1 & Est & Ef)
    by (unfold s1, publish; by destruct (sc_closedEvents s)).
  destruct returned.
  - destruct (returned_rearms zones id d r s n Ha Hidle Hstart Hrow Hnext [] s1 Hfence Hs1 Est)
      as (s' & r' & Hrun & Hr & Hn & Hl & Ht & Ef'). exists s', r'. rewrite Ef', Ef. by split_and!.
  - destruct (failed_rearms zones id d r s n Ha Hidle Hstart Hrow Hnext [true; true] s1 Hs1 Est)
      as (s' & r' & Hrun & Hr & Hn & Hl & Ht & Ef'). exists s', r'. rewrite Ef', Ef. by split_and!.
Qed.

(** ** Instances *)

Definition half_hours : TriggerDeclaration := mkDecl "half" (TCron "30 * * * *") no_options.

Lemma interval_keeps_cadence_witness :
  exists k, 1 <= k /\ computeNextFire demo_zones hourly (Some 0) 10000000 (initial [] 0) = Some (0 + k * 3600000) /\
    10000000 < 0 + k * 3600000 /\ forall j, 1 <= j < k -> 0 + j * 3600000 <= 10000000.
Proof.
  exact (interval_keeps_cadence demo_zones hourly 3600000 0 10000000 (initial [] 0) eq_refl ltac:(lia) ltac:(lia)).
Defined.

(** Five hours of downtime. *)
Lemma catchup_counts_real_misses_witness :
  missed_fires demo_zones half_hours 0 18000000 (initial [] 0) = 5 /\
  exists p L, NoDup L /\ (forall t, t ∈ L <-> 0 < t <= 18000000 /\ on_minute t /\ cron_matches p t = true) /\
    missed_fires demo_zones half_hours 0 18000000 (initial [] 0) = Z.min 1000 (Z.of_nat (length L)).
Proof.
  split; [vm_compute; reflexivity|].
  exists (match parseCron "30 * * * *" with Ok p => p | Err _ => mkCron "" [] [] [] [] [] end).
  apply (catchup_counts_real_misses demo_zones half_hours "30 * * * *"); try (vm_compute; reflexivity).
  lia.
Defined.

(** The row of [hourly] and the scheduler at its first fire. *)
Definition hourly_row : TriggerState :=
  mkState "hourly" (TInterval 3600000) (Some 3600000) None 0 false CatchNone 1 DEFAULT_CATCHUP_WINDOW_MS None 0 None.

Definition due_state : Sch := sy_sch (played (armed_moves ++ [MClock 3600000])).

Lemma due_armable : armable "hourly" hourly hourly_row due_state.
Proof. split_and!; [vm_compute; reflexivity|intros n; discriminate|vm_compute; reflexivity|reflexivity]. Qed.

Lemma armed_on_time_witness :
  exists tm, tm ∈ sc_timers (schedule demo_zones "hourly" (with_next hourly_row (Some 7200000) 0) due_state).1 /\
    tm_id tm = "hourly".
Proof.
  destruct (armed_on_time demo_zones "hourly" hourly (with_next hourly_row (Some 7200000) 0) due_state 7200000)
    as [_ (tm & Hin & Hid & _)].
  - apply (reachable_ok demo_zones false None (played (armed_moves ++ [MClock 3600000]))), played_reachable.
    vm_compute. reflexivity.
  - exact due_armable.
  - reflexivity.
  - exists tm. split; assumption.
Defined.

(** A callback that throws. *)
Lemma fire_rearms_witness :
  exists s' r', run_alone (false :: repeat true 6) (fire demo_zones "hourly" finish finish due_state) = (s', []) /\
    sc_fired s' = (sc_fired due_state ++ [("hourly", sc_now due_state)])%list /\
    Store.get "hourly" (sc_store s') = Some r' /\ ts_nextFireAt r' = Some 7200000 /\
    ts_lastFiredAt r' = None /\ has_timer "hourly" s'.
Proof.
  apply (fire_rearms demo_zones "hourly" hourly hourly_row due_state 7200000 false).
  - exact due_armable.
  - reflexivity.
  - apply (bool_decide_unpack _). vm_compute. exact I.
  - vm_compute. reflexivity.
  - vm_compute. reflexivity.
  - exact I.
  - vm_compute. reflexivity.
Defined.

(** ** Deviations *)

(** [stop] while [start] reads the rows: the rest of [start] arms the timers of a
    stopped scheduler, and the callback runs. *)
Definition raced_moves : list move :=
  MCall (CRegister hourly) :: settle 4 ++ [MCall CStart; MCall CStop] ++ settle 2 ++ [MClock 3600000; MTimer 0].

Example stop_during_start_fires :
  sc_started (sy_sch (played raced_moves)) = false /\
  sc_fired (sy_sch (played raced_moves)) = [("hourly", 3600000)].
Proof. split; vm_compute; reflexivity. Qed.

(** An idle period longer than a timer can hold: activity arms it for the next
    millisecond. *)
Definition monthly_idle : TriggerDeclaration := mkDecl "idle" (TIdle 2592000000) no_options.

Definition idle_moves : list move :=
  MCall (CRegister monthly_idle) :: settle 4 ++ MCall CStart :: settle 3 ++ [MClock 5000; MCall CRecordActivity].

Example long_idle_fires_at_once :
  map (fun tm => (tm_due tm, tm_action tm)) (sc_timers (sy_sch (played idle_moves))) = [(5001, FireTimer)].
Proof. vm_compute. reflexivity. Qed.

(** After a restart the event stream stays closed. *)
Example restart_publishes_nothing :
  let s := sy_sch (played ([MCall CStart] ++ settle 3 ++ [MCall CStop; MCall CStart])) in
  sc_started s = true /\ sc_events s = [EStarted; EStopped].
Proof. split; vm_compute; reflexivity. Qed.
