(* ===== verification/Idempotency.v ===== *)
(** * Idempotent requests

    [packages/server/src/middleware/idempotency.ts] over the rows of
    [packages/store-sqlite/src/idempotency-store.ts], with the request
    fingerprint of [packages/server/src/internal/json.ts].

    A keyed request is looked up in a bounded cache and then in the store; a
    live record is replayed, otherwise the request executes and its response is
    recorded.  The handler is split at its awaits.  A store operation takes
    effect when it is called (the SQLite calls are synchronous), and what comes
    after its [await] waits in [queue], the microtask queue, which is served in
    order; reading bodies and [next()] take any time.  [IdempotencyProps] has
    the step relation.

    SHA-256 is a parameter.  Header echoes on the replayed response, the
    [Retry-After] header and error messages are not kept. *)

From S2P Require Import Prelude JsValue Json Canonical.

Local Open Scope string_scope.
Local Open Scope Z_scope.

(** ** The request fingerprint *)

(** Code-unit order of the keys. *)
Definition by_units (_ _ : string) : comparison := Eq.

(** Assigning [__proto__] on the fresh object sets its prototype, or does
    nothing: no property results. *)
Fixpoint canonicalize (v : value) : value :=
  match v with
  | VArr vs => VArr (map canonicalize vs)
  | VObj fs =>
      VObj (sort_entries by_units
        (flat_map (fun p => if decide (p.1 = "__proto__") then [] else [(p.1, canonicalize p.2)]) fs))
  | _ => v
  end.

Definition canonicalBody (v : value) : string := JSON_stringify (canonicalize v).

(** ** Requests *)

Record Request := mkRequest {
  rq_method : string;
  rq_path : string;
  rq_key : option string;
  rq_contentType : option string;
  rq_text : option string;      (** [None]: the body cannot be read *)
  rq_token : option string;     (** the verified token, if any *)
}.

Inductive RequireKey := RKOff | RKWarn | RKEnforce.

Record IdempotencyConfig := mkIdemConfig {
  ic_enabled : bool;
  ic_requireKey : RequireKey;
  ic_ttlSeconds : Z;
  ic_checkBodyFingerprint : bool;
  ic_lruCacheSize : nat;
}.

Definition SAFE_METHODS : list string := ["GET"; "HEAD"; "OPTIONS"; "TRACE"].
Definition NON_CACHEABLE_STATUS : list Z := [408; 425; 429; 500; 502; 503; 504].

Definition key_char (c : ascii) : bool :=
  let n := nat_of_ascii c in
  bool_decide (65 <= n <= 90)%nat || bool_decide (97 <= n <= 122)%nat || bool_decide (48 <= n <= 57)%nat ||
  bool_decide (n = 95)%nat || bool_decide (n = 45)%nat || bool_decide (n = 58)%nat.

Fixpoint all_key_chars (s : string) : bool :=
  match s with EmptyString => true | String c s' => key_char c && all_key_chars s' end.

Definition KEY_RE (s : string) : bool := all_key_chars s && bool_decide (8 <= String.length s <= 255)%nat.

(** [None] is [INVALID_JSON_BODY]. *)
Definition readJsonBody (text : option string) : option value :=
  match text with
  | None => None
  | Some t => if decide (trim t = "") then Some (VObj []) else JSON_parse t
  end.

Definition json_type (ct : option string) : bool :=
  match ct with Some ct => str_includes "application/json" (str_lower ct) | None => false end.

(** ** Records and rows *)

Record IdempotencyRecord := mkIdem {
  ir_key : string;
  ir_requestHash : string;
  ir_statusCode : Z;
  ir_response : value;
  ir_responseHeaders : option value;
  ir_scope : option string;
  ir_createdAt : Z;
  ir_expiresAt : Z;
}.

Record IdempotencyRow := mkIdemRow {
  iw_key : string;
  iw_request_hash : string;
  iw_status_code : Z;
  iw_response_json : string;
  iw_response_headers_json : option string;
  iw_scope : option string;
  iw_created_at : Z;
  iw_expires_at : Z;
}.

(** [SqliteIdempotencyStore] *)
Module IdemStore.
Definition t := list (string * IdempotencyRow).

Definition row_of (r : IdempotencyRecord) : IdempotencyRow :=
  mkIdemRow (ir_key r) (ir_requestHash r) (ir_statusCode r) (JSON_stringify (ir_response r))
    (JSON_stringify <$> ir_responseHeaders r) (ir_scope r) (ir_createdAt r) (ir_expiresAt r).

Definition put (r : IdempotencyRecord) (rows : t) : t := jset (ir_key r) (row_of r) rows.

(** [None] when a column does not parse. *)
Definition record_of (w : IdempotencyRow) : option IdempotencyRecord :=
  match JSON_parse (iw_response_json w), iw_response_headers_json w with
  | Some body, None =>
      Some (mkIdem (iw_key w) (iw_request_hash w) (iw_status_code w) body None (iw_scope w) (iw_created_at w) (iw_expires_at w))
  | Some body, Some h =>
      (fun hs => mkIdem (iw_key w) (iw_request_hash w) (iw_status_code w) body (Some hs) (iw_scope w) (iw_created_at w) (iw_expires_at w))
        <$> JSON_parse h
  | None, _ => None
  end.

Definition get (key : string) (rows : t) : result unit (option IdempotencyRecord) :=
  match jget key rows with
  | None => Ok None
  | Some w => match record_of w with Some r => Ok (Some r) | None => Err tt end
  end.

Definition delete (key : string) (rows : t) : t := jdel key rows.

Definition prune (olderThan : Z) (rows : t) : t * Z :=
  (List.filter (fun p => negb (iw_expires_at p.2 <? olderThan)) rows,
   Z.of_nat (length (List.filter (fun p => iw_expires_at p.2 <? olderThan) rows))).
End IdemStore.

(** ** The bounded cache *)

Module SimpleLru.
Section Lru.
Context {V : Type}.

Definition get (key : string) (m : list (string * V)) : option V * list (string * V) :=
  match jget key m with
  | Some v => (Some v, jdel key m ++ [(key, v)])%list
  | None => (None, m)
  end.

(** The loop drops the oldest entries beyond the capacity. *)
Definition set (capacity : nat) (key : string) (v : V) (m : list (string * V)) : list (string * V) :=
  let m' := (jdel key m ++ [(key, v)])%list in
  drop (length m' - Nat.max 1 capacity) m'.

Definition delete (key : string) (m : list (string * V)) : list (string * V) := jdel key m.
End Lru.
End SimpleLru.

Record CacheEntry := mkCached { ce_record : IdempotencyRecord; ce_cachedAt : Z }.

Definition LRU_FRESH_MS : Z := 5 * 60 * 1000.

(** ** Responses *)

(** What [next()] left in [c.res]; header names are lower-case. *)
Record Response := mkResponse { re_status : Z; re_text : option string; re_headers : list (string * string) }.

(** [null], which is also what a body of [null] parses to, is [None]. *)
Definition captureJsonResponse (r : Response) : option value :=
  if str_includes "application/json" (str_lower (default "" (jget "content-type" (re_headers r)))) then
    match re_text r with
    | None | Some "" => None
    | Some t => match JSON_parse t with Some VNull => None | o => o end
    end
  else None.

Definition collectResponseHeaders (r : Response) : option value :=
  let out := foldl (fun out p => if decide (str_lower p.1 = "content-length") then out else jset p.1 (VStr p.2) out)
               [] (re_headers r) in
  match out with [] => None | _ => Some (VObj out) end.

Inductive Reply :=
| RepPassed                                   (** handled without the middleware *)
| RepError (status : Z) (error : string)
| RepReplay (status : Z) (body : string) (headers : option value)
| RepExecuted
| RepThrew.

(** ** The handler *)

(** A keyed request past its checks. *)
Record Keyed := mkKeyed { kq_id : nat; kq_key : string; kq_fingerprint : string; kq_principal : string }.

Inductive Admission :=
| Pass
| Refuse (status : Z) (error : string)
| Admit (key fingerprint principal : string).

(** The rest of a request behind an [await] on the store. *)
Inductive Pending :=
| PGet (q : Keyed) (answer : result unit (option IdempotencyRecord))
| PDelete (q : Keyed) (done_ : bool)
| PPut (q : Keyed) (r : IdempotencyRecord) (done_ : bool).

Inductive Logged :=
| LExec (q : Keyed) (at_ : Z)
| LStored (r : IdempotencyRecord)
| LReply (id : nat) (key : string) (principal fingerprint : string) (at_ : Z) (reply : Reply).

Record Mw := mkMw {
  mw_rows : IdemStore.t;
  mw_lru : list (string * CacheEntry);
  mw_inFlight : list string;
  mw_now : Z;
  mw_reading : list Keyed;     (** awaiting their bodies *)
  mw_queue : list Pending;
  mw_running : list Keyed;     (** awaiting [next()] *)
  mw_hits : Z;
  mw_lookups : Z;
  mw_log : list Logged;
}.

Definition mw_set_rows v s := mkMw v (mw_lru s) (mw_inFlight s) (mw_now s) (mw_reading s) (mw_queue s) (mw_running s)
  (mw_hits s) (mw_lookups s) (mw_log s).
Definition mw_set_lru v s := mkMw (mw_rows s) v (mw_inFlight s) (mw_now s) (mw_reading s) (mw_queue s) (mw_running s)
  (mw_hits s) (mw_lookups s) (mw_log s).
Definition mw_set_inFlight v s := mkMw (mw_rows s) (mw_lru s) v (mw_now s) (mw_reading s) (mw_queue s) (mw_running s)
  (mw_hits s) (mw_lookups s) (mw_log s).
Definition mw_set_now v s := mkMw (mw_rows s) (mw_lru s) (mw_inFlight s) v (mw_reading s) (mw_queue s) (mw_running s)
  (mw_hits s) (mw_lookups s) (mw_log s).
Definition mw_set_reading v s := mkMw (mw_rows s) (mw_lru s) (mw_inFlight s) (mw_now s) v (mw_queue s) (mw_running s)
  (mw_hits s) (mw_lookups s) (mw_log s).
Definition mw_set_queue v s := mkMw (mw_rows s) (mw_lru s) (mw_inFlight s) (mw_now s) (mw_reading s) v (mw_running s)
  (mw_hits s) (mw_lookups s) (mw_log s).
Definition mw_set_running v s := mkMw (mw_rows s) (mw_lru s) (mw_inFlight s) (mw_now s) (mw_reading s) (mw_queue s) v
  (mw_hits s) (mw_lookups s) (mw_log s).
Definition mw_add_log e s := mkMw (mw_rows s) (mw_lru s) (mw_inFlight s) (mw_now s) (mw_reading s) (mw_queue s) (mw_running s)
  (mw_hits s) (mw_lookups s) (mw_log s ++ [e])%list.

Definition enqueue (p : Pending) (s : Mw) : Mw := mw_set_queue (mw_queue s ++ [p])%list s.

(** [recordCacheOutcome], with a registry. *)
Definition recordCacheOutcome (hit : bool) (s : Mw) : Mw :=
  mkMw (mw_rows s) (mw_lru s) (mw_inFlight s) (mw_now s) (mw_reading s) (mw_queue s) (mw_running s)
    (if hit then mw_hits s + 1 else mw_hits s) (mw_lookups s + 1) (mw_log s).

Definition reply (q : Keyed) (r : Reply) (s : Mw) : Mw :=
  mw_add_log (LReply (kq_id q) (kq_key q) (kq_principal q) (kq_fingerprint q) (mw_now s) r) s.

Section Middleware.
Context (sha256Hex : string -> string) (config : IdempotencyConfig) (excluded : list string).

Definition fingerprintRequest (method path : string) (body : value) : string :=
  sha256Hex (str_upper method +:+ " " +:+ path +:+ String "010" (canonicalBody body)).

(** The body of a readable request. *)
Definition fingerprint_body (rq : Request) : value :=
  let text := default "" (rq_text rq) in
  if json_type (rq_contentType rq)
  then match JSON_parse text with Some v => v | None => VStr text end
  else VStr text.

Definition computeFingerprint (rq : Request) : string :=
  fingerprintRequest (rq_method rq) (rq_path rq) (fingerprint_body rq).

(** Everything before the cache is consulted. *)
Definition screen_request (rq : Request) : Admission :=
  if negb (ic_enabled config) then Pass
  else if bool_decide (str_upper (rq_method rq) ∈ SAFE_METHODS) then Pass
  else if bool_decide (rq_path rq ∈ excluded) then Pass
  else
    let key := default "" (trim <$> rq_key rq) in
    if decide (key = "") then
      match ic_requireKey config with
      | RKEnforce => Refuse 400 "idempotency-key-required"
      | _ => Pass
      end
    else if negb (KEY_RE key) then Refuse 400 "idempotency-key-required"
    else
      match readJsonBody (rq_text rq) with
      | None => Refuse 400 "invalid-json"
      | Some _ => Admit key (computeFingerprint rq) (default "anonymous" (rq_token rq))
      end.

Definition arrive (id : nat) (rq : Request) (s : Mw) : Mw :=
  match screen_request rq with
  | Pass => reply (mkKeyed id "" "" "") RepPassed s
  | Refuse status e => reply (mkKeyed id "" "" "") (RepError status e) s
  | Admit key fp principal => mw_set_reading (mw_reading s ++ [mkKeyed id key fp principal])%list s
  end.

(** The in-flight gate. *)
Definition begin (q : Keyed) (s : Mw) : Mw :=
  if bool_decide (kq_key q ∈ mw_inFlight s) then reply q (RepError 409 "idempotency-in-flight") s
  else
    let s := mw_set_inFlight (mw_inFlight s ++ [kq_key q])%list s in
    let s := recordCacheOutcome false s in
    mw_set_running (mw_running s ++ [q])%list (mw_add_log (LExec q (mw_now s)) s).

(** With the record known; [ok] is the outcome of the store call, if one is made. *)
Definition settle (ok : bool) (q : Keyed) (record : option IdempotencyRecord) (s : Mw) : Mw :=
  match record with
  | None => begin q s
  | Some r =>
      if match ir_scope r with Some p => negb (bool_decide (p = kq_principal q)) | None => false end
      then reply q (RepError 409 "idempotency-conflict") s
      else if ic_checkBodyFingerprint config && negb (bool_decide (ir_requestHash r = kq_fingerprint q))
      then reply q (RepError 409 "idempotency-conflict") s
      else if mw_now s <? ir_expiresAt r
      then reply q (RepReplay (ir_statusCode r) (JSON_stringify (ir_response r)) (ir_responseHeaders r))
             (recordCacheOutcome true s)
      else
        let s := mw_set_lru (SimpleLru.delete (kq_key q) (mw_lru s)) s in
        enqueue (PDelete q ok) (if ok then mw_set_rows (IdemStore.delete (kq_key q) (mw_rows s)) s else s)
  end.

Definition lookup (ok : bool) (q : Keyed) (s : Mw) : Mw :=
  let '(cached, lru) := SimpleLru.get (kq_key q) (mw_lru s) in
  let s := mw_set_lru lru s in
  let ask := enqueue (PGet q (if ok then IdemStore.get (kq_key q) (mw_rows s) else Err tt)) s in
  match cached with
  | Some e => if mw_now s - ce_cachedAt e <? LRU_FRESH_MS then settle ok q (Some (ce_record e)) s else ask
  | None => ask
  end.

Definition remember (q : Keyed) (r : IdempotencyRecord) (s : Mw) : Mw :=
  mw_set_lru (SimpleLru.set (ic_lruCacheSize config) (kq_key q) (mkCached r (mw_now s)) (mw_lru s)) s.

(** The [finally]. *)
Definition release (q : Keyed) (s : Mw) : Mw :=
  mw_set_inFlight (List.filter (fun k => negb (bool_decide (k = kq_key q))) (mw_inFlight s)) s.

(** After an [await] on the store. *)
Definition respond (ok : bool) (p : Pending) (s : Mw) : Mw :=
  match p with
  | PGet q (Err _) => reply q RepThrew s
  | PGet q (Ok None) => settle ok q None s
  | PGet q (Ok (Some r)) => settle ok q (Some r) (remember q r s)
  | PDelete q true => begin q s
  | PDelete q false => reply q RepThrew s
  | PPut q r done_ => reply q RepExecuted (release q (if done_ then remember q r s else s))
  end.

Definition record_for (q : Keyed) (r : Response) (body : value) (now : Z) : IdempotencyRecord :=
  mkIdem (kq_key q) (kq_fingerprint q) (re_status r) body (collectResponseHeaders r) (Some (kq_principal q))
    now (now + ic_ttlSeconds config * 1000).

(** After [next()] ([None]: it threw) and the capture of the response. *)
Definition finish (ok : bool) (q : Keyed) (res : option Response) (s : Mw) : Mw :=
  match res with
  | None => reply q RepThrew (release q s)
  | Some r =>
      if bool_decide (re_status r ∈ NON_CACHEABLE_STATUS) then reply q RepExecuted (release q s)
      else
        match captureJsonResponse r with
        | None => reply q RepExecuted (release q s)
        | Some body =>
            let rec := record_for q r body (mw_now s) in
            enqueue (PPut q rec ok)
              (if ok then mw_add_log (LStored rec) (mw_set_rows (IdemStore.put rec (mw_rows s)) s) else s)
        end
  end.

(** The sweep of [scheduleIdempotencyPruning]. *)
Definition sweep (s : Mw) : Mw := mw_set_rows (IdemStore.prune (mw_now s) (mw_rows s)).1 s.
End Middleware.
