(* ===== verification/IdempotencyFacts.v ===== *)
(** * Facts on idempotency records

    JSON parsing yields plain values, so rows read back as the records they
    were written from; the bounded cache; the fingerprint. *)

From S2P Require Import Prelude JsValue Json Canonical Idempotency.

Local Open Scope string_scope.
Local Open Scope Z_scope.

(** ** Parsed values are plain *)

Lemma plain_arr vs : forallb plain vs = true -> plain (VArr vs) = true.
Proof.
  unfold plain. simpl. induction vs as [|x vs IH]; simpl; [done|]. rewrite !andb_true_iff in *.
  intros [[[]] ?]. destruct IH as [[] ?]; done.
Qed.

Lemma plain_spread fs :
  forallb (fun p => plain p.2) fs = true -> plain (VObj (jspread [] fs)) = true.
Proof.
  intros H. apply plain_obj; [apply jspread_wf; constructor|].
  assert (forall acc, forallb (fun p : string * value => plain p.2) acc = true ->
            forallb (fun p => plain p.2) (jspread acc fs) = true) as Hacc; [|by apply Hacc].
  unfold jspread. induction fs as [|[k x] fs IH]; intros acc Ha; simpl in *; [done|].
  apply andb_true_iff in H as [Hx H]. apply IH; [done|].
  induction acc as [|[k' x'] acc IHa]; simpl in *; [by rewrite Hx|].
  apply andb_true_iff in Ha as [Hx' Ha]. case_decide; simpl; [by rewrite Hx|by rewrite Hx', IHa].
Qed.

Lemma parse_num_plain s v r : parse_num s = Some (v, r) -> plain v = true.
Proof. unfold parse_num. intros H. repeat case_match; simplify_eq; done. Qed.

Lemma parse_lit_plain s v r : parse_lit s = Some (v, r) -> plain v = true.
Proof. unfold parse_lit. intros H. repeat case_match; simplify_eq; done. Qed.

Lemma parse_plain fuel :
  (forall s v r, parse_value fuel s = Some (v, r) -> plain v = true) /\
  (forall s vs r, parse_elems fuel s = Some (vs, r) -> forallb plain vs = true) /\
  (forall s fs r, parse_fields fuel s = Some (fs, r) -> forallb (fun p => plain p.2) fs = true).
Proof.
  induction fuel as [|f (IHv & IHe & IHf)]; [done|]. split_and!; intros s v r.
  - cbn [parse_value]. destruct (skip_ws s) as [|c s']; [done|].
    destruct (decide (c = c_quote)); [destruct (parse_str s') as [[? ?]|]; intros; by simplify_eq|].
    destruct (decide (c = "["%char)).
    { destruct (parse_elems f s') as [[vs r']|] eqn:E.
      - apply IHe in E. intros H. repeat case_match; simplify_eq; try done; by apply plain_arr.
      - intros H. repeat case_match; by simplify_eq. }
    destruct (decide (c = "{"%char)).
    { destruct (parse_fields f s') as [[fs r']|] eqn:E.
      - apply IHf in E. intros H. repeat case_match; simplify_eq; try done; by apply plain_spread.
      - intros H. repeat case_match; by simplify_eq. }
    destruct (decide (c = "-"%char)); [apply parse_num_plain|].
    destruct (digit_of c); [apply parse_num_plain|apply parse_lit_plain].
  - simpl. destruct (parse_value f s) as [[x rx]|] eqn:E; [|done]. apply IHv in E.
    intros H. repeat case_match; simplify_eq; simpl; rewrite E; try done;
      match goal with H : parse_elems f _ = _ |- _ => apply IHe in H; by rewrite H end.
  - simpl. intros H. repeat case_match; simplify_eq; simpl;
      match goal with H : parse_value f _ = _ |- _ => apply IHv in H; rewrite H end; try done;
      match goal with H : parse_fields f _ = _ |- _ => apply IHf in H; by rewrite H end.
Qed.

Lemma JSON_parse_plain t v : JSON_parse t = Some v -> plain v = true.
Proof.
  unfold JSON_parse. destruct (parse_value _ t) as [[x r]|] eqn:E; [|done].
  apply parse_plain in E. case_decide; intros; by simplify_eq.
Qed.

Lemma plain_roundtrip v : plain v = true -> JSON_parse (JSON_stringify v) = Some v.
Proof.
  unfold plain. intros [[Hs Hw]%andb_true_iff Hd]%andb_true_iff. rewrite JSON_roundtrip by done. f_equal.
  by apply jnorm_vdef.
Qed.

(** ** Rows *)

(** A record that the store returns as it was put. *)
Definition rec_ok (r : IdempotencyRecord) : Prop :=
  plain (ir_response r) = true /\ match ir_responseHeaders r with Some h => plain h = true | None => True end.

Lemma record_of_row r : rec_ok r -> IdemStore.record_of (IdemStore.row_of r) = Some r.
Proof.
  intros [Hb Hh]. destruct r as [k h st body hs sc c e]. unfold IdemStore.record_of, IdemStore.row_of. simpl in *.
  rewrite plain_roundtrip by done. destruct hs as [hs|]; simpl; [|done]. by rewrite plain_roundtrip.
Qed.

Lemma headers_plain r h : collectResponseHeaders r = Some h -> plain h = true.
Proof.
  unfold collectResponseHeaders.
  assert (forall acc : list (string * value), jwf acc -> forallb (fun p => plain p.2) acc = true ->
    let out := foldl (fun out p => if decide (str_lower p.1 = "content-length") then out else jset p.1 (VStr p.2) out)
                 acc (re_headers r) in jwf out /\ forallb (fun p => plain p.2) out = true) as H.
  { induction (re_headers r) as [|[n v] hs IH]; intros acc Hw Hp; simpl; [done|]. apply IH; case_decide; try done.
    - by apply jset_wf.
    - clear Hw IH. induction acc as [|[k x] acc IHa]; simpl in *; [done|]. apply andb_true_iff in Hp as [Hx Hp].
      case_decide; simpl; [by rewrite Hp|by rewrite Hx, IHa]. }
  destruct (H [] ltac:(constructor) eq_refl) as [Hw Hp]. intros E. case_match; simplify_eq.
  by apply plain_obj.
Qed.

Lemma capture_plain r v : captureJsonResponse r = Some v -> plain v = true.
Proof.
  unfold captureJsonResponse. intros H. repeat case_match; simplify_eq; by eapply JSON_parse_plain.
Qed.

Lemma record_for_ok config q r body now :
  captureJsonResponse r = Some body -> rec_ok (record_for config q r body now).
Proof.
  intros Hb. split; [by apply (capture_plain r)|]. simpl.
  destruct (collectResponseHeaders r) as [h|] eqn:E; [by eapply headers_plain|done].
Qed.

(** ** The cache *)

Lemma jget_drop {A} k n (l : list (string * A)) v : jwf l -> jget k (drop n l) = Some v -> jget k l = Some v.
Proof.
  intros Hw H%jget_Some_elem. apply jget_elem_wf; [done|]. rewrite <- (take_drop n l). apply elem_of_app. by right.
Qed.

Lemma move_wf {A} k (v : A) m : jwf m -> jwf (jdel k m ++ [(k, v)]).
Proof.
  intros Hw. unfold jwf, jkeys. rewrite map_app. apply NoDup_app. split_and!; [by apply jdel_wf| |apply NoDup_singleton].
  intros x Hx ->%list_elem_of_singleton. fold (jkeys (jdel k m)) in Hx. rewrite jkeys_jdel in Hx.
  by apply list_elem_of_filter in Hx as [? _].
Qed.

Lemma move_get {A} k k' (v : A) m : jget k (jdel k' m ++ [(k', v)]) = if decide (k = k') then Some v else jget k m.
Proof.
  rewrite jget_app, jget_jdel. case_decide as E; [subst; simpl; by rewrite decide_True|].
  destruct (jget k m); [done|]. simpl. by rewrite decide_False.
Qed.

Section Lru.
Context {V : Type}.
Implicit Types (m : list (string * V)).

Lemma lru_get_spec k m v m' :
  SimpleLru.get k m = (v, m') -> jwf m -> v = jget k m /\ jwf m' /\ forall k', jget k' m' = jget k' m.
Proof.
  unfold SimpleLru.get. destruct (jget k m) as [x|] eqn:E; intros H Hw; simplify_eq; [|done].
  split_and!; [done|by apply move_wf|]. intros k'. rewrite move_get. case_decide; congruence.
Qed.

Lemma drop_snoc_last {A} n (l : list A) x : (n <= length l)%nat -> drop n (l ++ [x]) = (drop n l ++ [x])%list.
Proof. intros. rewrite drop_app. replace (n - length l)%nat with 0%nat by lia. done. Qed.

Lemma jwf_drop {A} n (l : list (string * A)) : jwf l -> jwf (drop n l).
Proof.
  unfold jwf, jkeys. intros H. rewrite <- (take_drop n l), map_app in H. by apply NoDup_app in H as (_ & _ & H).
Qed.

Lemma lru_set_spec cap k v m :
  jwf m -> let m' := SimpleLru.set cap k v m in
  jwf m' /\ jget k m' = Some v /\ (length m' <= Nat.max 1 cap)%nat /\
  (forall k' x, k' <> k -> jget k' m' = Some x -> jget k' m = Some x).
Proof.
  intros Hw m'. unfold m', SimpleLru.set. split_and!.
  - apply jwf_drop. by apply move_wf.
  - rewrite drop_snoc_last by (rewrite length_app; simpl; lia).
    rewrite jget_app. simpl. rewrite decide_True by done.
    destruct (jget k (drop _ (jdel k m))) as [x|] eqn:E; [|done]. exfalso.
    apply jget_drop in E; [|by apply jdel_wf]. rewrite jget_jdel in E. by rewrite decide_True in E.
  - rewrite length_drop. lia.
  - intros k' x Hne H%jget_drop; [|by apply move_wf]. rewrite move_get in H. by rewrite decide_False in H.
Qed.
End Lru.

(** ** The fingerprint *)

#[export] Instance by_units_collator : Collator by_units.
Proof. by split. Qed.

(** No property named [__proto__]. *)
Fixpoint no_proto (v : value) : bool :=
  match v with
  | VArr vs => forallb no_proto vs
  | VObj fs => forallb (fun p => negb (bool_decide (p.1 = "__proto__")) && no_proto p.2) fs
  | _ => true
  end.

(** The same value up to the order of properties. *)
Inductive same_value : value -> value -> Prop :=
| same_leaf v : match v with VArr _ | VObj _ => False | _ => True end -> same_value v v
| same_arr vs ws : Forall2 same_value vs ws -> same_value (VArr vs) (VArr ws)
| same_obj fs gs : (forall k, option_Forall2 same_value (jget k fs) (jget k gs)) -> same_value (VObj fs) (VObj gs).

Definition canon_fields (fs : list (string * value)) : list (string * value) :=
  map (fun p => (p.1, canonicalize p.2)) fs.

Lemma canonicalize_obj fs :
  no_proto (VObj fs) = true -> canonicalize (VObj fs) = VObj (sort_entries by_units (canon_fields fs)).
Proof.
  intros H. simpl in *. do 2 f_equal. induction fs as [|[k x] fs IH]; simpl in *; [done|].
  apply andb_true_iff in H as [[Hk%negb_true_iff%bool_decide_eq_false _]%andb_true_iff H].
  rewrite decide_False by done. simpl. by rewrite IH.
Qed.

Lemma canon_fields_wf fs : jwf fs -> jwf (canon_fields fs).
Proof. unfold jwf, canon_fields, jkeys. by rewrite map_map. Qed.

Lemma jget_canon k fs : jget k (canon_fields fs) = canonicalize <$> jget k fs.
Proof. induction fs as [|[k' x] fs IH]; simpl; [done|]. by case_decide. Qed.

Lemma jget_ext_perm {A} (l1 l2 : list (string * A)) :
  jwf l1 -> jwf l2 -> (forall k, jget k l1 = jget k l2) -> l1 ≡ₚ l2.
Proof.
  intros H1 H2 H. apply NoDup_Permutation; [by eapply NoDup_fmap_1..|]. intros [k v]. split; intros Hin.
  - apply jget_Some_elem. rewrite <- H. by apply jget_elem_wf.
  - apply jget_Some_elem. rewrite H. by apply jget_elem_wf.
Qed.

Lemma sort_entries_ext (l1 l2 : list (string * value)) :
  jwf l1 -> jwf l2 -> (sort_entries by_units l1 = sort_entries by_units l2 <-> forall k, jget k l1 = jget k l2).
Proof.
  intros H1 H2. split.
  - intros Heq k. by rewrite <- (jget_sort_entries by_units k l1), Heq, jget_sort_entries.
  - intros H. refine (sort_entries_canonical by_units l1 l2 H1 _). by apply jget_ext_perm.
Qed.

(** A request body as JSON can carry it. *)
Definition body_ok (v : value) : bool := plain v && no_proto v.

Lemma body_ok_arr vs : body_ok (VArr vs) = true -> Forall (fun v => body_ok v = true) vs.
Proof.
  unfold body_ok, plain. simpl. rewrite !andb_true_iff. intros [[[Hs Hv] Hd] Hp].
  induction vs as [|x vs IH]; simpl in *; [constructor|].
  apply andb_true_iff in Hs as [Hs1 Hs], Hv as [Hv1 Hv], Hd as [Hd1 Hd], Hp as [Hp1 Hp].
  constructor; [|by apply IH]. by rewrite Hs1, Hv1, Hd1, Hp1.
Qed.

Lemma body_ok_obj fs :
  body_ok (VObj fs) = true -> jwf fs /\ no_proto (VObj fs) = true /\ Forall (fun p => body_ok p.2 = true) fs.
Proof.
  unfold body_ok, plain. simpl. rewrite !andb_true_iff. intros [[[Hs [Hw%bool_decide_eq_true Hv]] Hd] Hp].
  split; [exact Hw|]. split; [exact Hp|]. clear Hw. induction fs as [|[k x] fs IH]; simpl in *; [constructor|].
  apply andb_true_iff in Hs as [Hs1 Hs], Hv as [Hv1 Hv], Hd as [Hd1 Hd], Hp as [[_ Hp1]%andb_true_iff Hp].
  constructor; [|by apply IH]. simpl. by rewrite Hs1, Hv1, Hd1, Hp1.
Qed.

Lemma canonicalize_same a b :
  body_ok a = true -> body_ok b = true -> canonicalize a = canonicalize b <-> same_value a b.
Proof.
  revert b. induction a as [| | x | x | x | vs IH | fs IH | ek ei fs IH] using value_ind'; intros b Ha Hb; try done.
  1-4: split; [destruct b; intros H; simplify_eq/=; by apply same_leaf|by inversion 1].
  - apply body_ok_arr in Ha. split.
    + destruct b as [| | | | |ws| |]; intros H; try done. injection H as H. apply body_ok_arr in Hb. constructor.
      revert ws Hb H. induction IH as [|x vs Hx _ IHvs]; intros [|y ws] Hb H; try done; constructor;
        apply Forall_cons in Ha as [Hax Ha], Hb as [Hby Hb]; injection H as H1 H2; [by apply Hx|by apply IHvs].
    + inversion 1 as [|? ws H2|]; subst; [done|]. apply body_ok_arr in Hb. simpl. f_equal.
      clear H. induction H2 as [|x y vs ws Hxy _ IHvs]; [done|]. simpl.
      apply Forall_cons in IH as [Hx IH], Ha as [Hax Ha], Hb as [Hby Hb]. f_equal; [by apply Hx|by apply IHvs].
  - apply body_ok_obj in Ha as (Hw & Hn & Ha). split.
    + destruct b as [| | | | | |gs|]; intros H; try done. apply body_ok_obj in Hb as (Hw' & Hn' & Hb).
      rewrite !canonicalize_obj in H by done. injection H as H.
      pose proof (proj1 (sort_entries_ext _ _ (canon_fields_wf fs Hw) (canon_fields_wf gs Hw')) H) as Hk. constructor. intros k. specialize (Hk k).
      clear H. rename Hk into H. rewrite !jget_canon in H. destruct (jget k fs) as [x|] eqn:E1, (jget k gs) as [y|] eqn:E2; simpl in H; try done; constructor.
      apply jget_Some_elem in E1, E2. rewrite Forall_forall in IH, Ha, Hb.
      apply (IH (k, x) E1); [apply (Ha _ E1)|apply (Hb _ E2)|simpl; congruence].
    + inversion 1 as [| |? gs H2]; subst; [done|]. apply body_ok_obj in Hb as (Hw' & Hn' & Hb).
      rewrite !canonicalize_obj by done. f_equal. apply sort_entries_ext; [by apply canon_fields_wf..|]. intros k.
      specialize (H2 k). rewrite !jget_canon. destruct (jget k fs) as [x|] eqn:E1, (jget k gs) as [y|] eqn:E2; inversion H2; subst; [|done].
      apply jget_Some_elem in E1, E2. rewrite Forall_forall in IH, Ha, Hb. simpl. f_equal.
      apply (IH (k, x) E1); [apply (Ha _ E1)|apply (Hb _ E2)|done].
Qed.

Lemma canonicalize_plain v : body_ok v = true -> plain (canonicalize v) = true.
Proof.
  induction v as [| | x | x | x | vs IH | fs IH | ek ei fs IH] using value_ind'; intros Hv;
    try (by apply andb_true_iff in Hv as [? _]).
  - apply body_ok_arr in Hv. simpl. apply plain_arr. induction IH as [|x vs Hx _ IHvs]; [done|]. simpl.
    apply Forall_cons in Hv as [H1 H2]. rewrite Hx by done. by apply IHvs.
  - pose proof (body_ok_obj fs Hv) as (Hw & Hn & Hok). rewrite canonicalize_obj by done.
    apply plain_obj; [by apply sort_entries_wf, canon_fields_wf|]. apply forallb_forall. intros p Hp.
    apply list_elem_of_In in Hp. rewrite sort_entries_perm in Hp.
    apply list_elem_of_fmap in Hp as ([k x] & -> & Hp). simpl. rewrite Forall_forall in IH, Hok.
    apply (IH (k, x) Hp), (Hok _ Hp).
Qed.
