(* ===== verification/IdempotencyProps.v ===== *)
(** * One execution per key

    The steps of the middleware and its invariant.  Seen from one key, the
    state is in one of three phases (idle, executing, recording), which
    determine what the store, the cache and the pending answers can hold. *)

From S2P Require Import Prelude JsValue Json Canonical Idempotency IdempotencyFacts.

Local Open Scope string_scope.
Local Open Scope Z_scope.

(** ** One key's view *)

Inductive kind := KGet (r : IdempotencyRecord) | KGo | KFail | KPut (r : IdempotencyRecord) (done_ : bool).

Definition pend_of (p : Pending) : Keyed := match p with PGet q _ | PDelete q _ | PPut q _ _ => q end.

Definition kind_of (p : Pending) : kind :=
  match p with
  | PGet _ (Ok (Some r)) => KGet r
  | PGet _ (Ok None) | PDelete _ true => KGo
  | PGet _ (Err _) | PDelete _ false => KFail
  | PPut _ r d => KPut r d
  end.

Definition view (k : string) (ps : list Pending) : list kind :=
  map kind_of (List.filter (fun p => bool_decide (kq_key (pend_of p) = k)) ps).

Definition stored (k : string) (s : Mw) : option IdempotencyRecord := jget k (mw_rows s) ≫= IdemStore.record_of.

(** The cache entry, while it is fresh. *)
Definition cached (k : string) (s : Mw) : option IdempotencyRecord :=
  match jget k (mw_lru s) with
  | Some e => if mw_now s - ce_cachedAt e <? LRU_FRESH_MS then Some (ce_record e) else None
  | None => None
  end.

Definition fly (k : string) (s : Mw) : bool := bool_decide (k ∈ mw_inFlight s).

Definition runs (k : string) (s : Mw) : nat :=
  length (List.filter (fun q => bool_decide (kq_key q = k)) (mw_running s)).

(** A record read is the one stored, or has expired. *)
Definition current (now : Z) (st : option IdempotencyRecord) (r : IdempotencyRecord) : Prop :=
  match st with Some r0 => r = r0 | None => ir_expiresAt r <= now end.

Definition harmless (x : kind) : Prop := x = KGo \/ x = KFail.
Definition is_get (x : kind) : Prop := x = KFail \/ exists r, x = KGet r.
Definition after_put (r : IdempotencyRecord) (d : bool) (x : kind) : Prop :=
  x = KFail \/ x = if d then KGet r else KGo.

Record idle (now : Z) (st ca : option IdempotencyRecord) (Q : list kind) : Prop := {
  idle_get r : KGet r ∈ Q -> current now st r;
  idle_cached r : ca = Some r -> current now st r;
  idle_go : KGo ∈ Q -> st = None /\ ca = None;
  idle_order : exists A B, Q = (A ++ B)%list /\ Forall is_get A /\ Forall harmless B;
}.

Inductive phase (now : Z) (st ca : option IdempotencyRecord) (Q : list kind) : bool -> nat -> Prop :=
| ph_idle : idle now st ca Q -> phase now st ca Q false 0
| ph_running : st = None -> ca = None -> Forall harmless Q -> phase now st ca Q true 1
| ph_putting Q1 r d Q2 :
    Q = (Q1 ++ KPut r d :: Q2)%list -> Forall harmless Q1 -> ca = None -> st = (if d then Some r else None) ->
    Forall (after_put r d) Q2 -> phase now st ca Q true 0.

(** *** Changes of phase *)

Lemma current_later now now' st r : now <= now' -> current now st r -> current now' st r.
Proof. unfold current. destruct st; [done|lia]. Qed.

Lemma phase_weaken now now' st ca ca' Q fl nr :
  now <= now' -> ca' = ca \/ ca' = None -> phase now st ca Q fl nr -> phase now' st ca' Q fl nr.
Proof.
  intros Hle Hca. destruct 1 as [[H1 H2 H3 H4]|Hst Hc HQ|Q1 r d Q2 HQ H1 Hc Hst H2].
  - apply ph_idle. split; [..|done].
    + intros r Hr. by eapply current_later, H1.
    + intros r Hr. eapply current_later, H2; [done|]. by destruct Hca as [<-| ->].
    + intros [-> ->]%H3. by destruct Hca as [->| ->].
  - apply ph_running; [done| |done]. by destruct Hca as [->| ->].
  - eapply ph_putting; try done. by destruct Hca as [->| ->].
Qed.

Lemma idle_harmless now Q : Forall harmless Q -> idle now None None Q.
Proof.
  intros HQ. split; [|done..|].
  - intros r Hr. rewrite Forall_forall in HQ. by destruct (HQ _ Hr).
  - by exists [], Q.
Qed.

(** A new answer of the store joins the queue. *)
Lemma phase_ask now st ca Q fl nr (ok : bool) :
  ca = None -> phase now st ca Q fl nr ->
  phase now st ca (Q ++ [if ok then match st with Some r => KGet r | None => KGo end else KFail]) fl nr.
Proof.
  intros Hca. destruct 1 as [[H1 H2 H3 (A & B & -> & HA & HB)]|Hst Hc HQ|Q1 r d Q2 -> H1 Hc Hst H2].
  - apply ph_idle. destruct ok; [destruct st as [r|]|]; (split; [|done|..]); try done.
    + intros r' [Hr'|[= ->]%list_elem_of_singleton]%elem_of_app; [by apply H1|done].
    + intros [Hgo|Hgo%list_elem_of_singleton]%elem_of_app; [by apply H3|done].
    + exists ((A ++ B) ++ [KGet r])%list, []. rewrite app_nil_r. split_and!; [done| |constructor].
      rewrite !Forall_app. split_and!; [done| |constructor; [right; by eexists|constructor]].
      apply Forall_forall. intros x Hx. rewrite Forall_forall in HB. destruct (HB x Hx) as [->| ->]; [|by left].
      destruct H3 as [? _]; [set_solver|done].
    + intros r' [Hr'|Hr'%list_elem_of_singleton]%elem_of_app; [by apply H1|done].
    + exists A, (B ++ [KGo])%list. rewrite (assoc_L app). split_and!; [done..|]. apply Forall_app. split; [done|]. constructor; [by left|constructor].
    + intros r' [Hr'|Hr'%list_elem_of_singleton]%elem_of_app; [by apply H1|done].
    + intros [Hgo|Hgo%list_elem_of_singleton]%elem_of_app; [by apply H3|done].
    + exists A, (B ++ [KFail])%list. rewrite (assoc_L app). split_and!; [done..|]. apply Forall_app. split; [done|]. constructor; [by right|constructor].
  - subst st. apply ph_running; [done..|]. apply Forall_app. split; [done|]. constructor; [|constructor].
    destruct ok; [by left|by right].
  - refine (ph_putting _ _ _ _ Q1 r d (Q2 ++ [_]) _ H1 Hc Hst _).
    + by rewrite <- (assoc_L app).
    + apply Forall_app. split; [done|]. constructor; [|constructor]. subst st. unfold after_put.
      destruct ok, d; by auto.
Qed.

Lemma phase_fail now st ca Q fl nr : phase now st ca (KFail :: Q) fl nr -> phase now st ca Q fl nr.
Proof.
  remember (KFail :: Q) as Q0 eqn:E.
  destruct 1 as [[H1 H2 H3 (A & B & HAB & HA & HB)]|Hst Hc HQ|Q1 r d Q2 HQ H1 Hc Hst H2]; subst.
  - apply ph_idle. split; [|done|..].
    + intros r Hr. apply H1. by right.
    + intros Hgo. apply H3. by right.
    + destruct A as [|a A]; simpl in HAB; [subst B; apply Forall_cons in HB as [_ HB]; by exists [], Q|].
      injection HAB as <- ->. apply Forall_cons in HA as [_ HA]. by exists A, B.
  - apply Forall_cons in HQ as [_ HQ]. by apply ph_running.
  - destruct Q1 as [|x Q1]; simpl in HQ; [done|]. injection HQ as <- ->. apply Forall_cons in H1 as [_ H1].
    by eapply ph_putting.
Qed.

Lemma phase_go now st ca Q fl nr :
  phase now st ca (KGo :: Q) fl nr ->
  (fl = true /\ phase now st ca Q fl nr) \/ (fl = false /\ nr = 0%nat /\ st = None /\ ca = None /\ Forall harmless Q).
Proof.
  remember (KGo :: Q) as Q0 eqn:E.
  destruct 1 as [[H1 H2 H3 (A & B & HAB & HA & HB)]|Hst Hc HQ|Q1 r d Q2 HQ H1 Hc Hst H2]; subst.
  - right. destruct H3 as [-> ->]; [by left|]. split_and!; try done.
    destruct A as [|a A]; simpl in HAB; [subst B; by apply Forall_cons in HB as [_ HB]|].
    injection HAB as <- _. apply Forall_cons in HA as [[?|[? ?]] _]; done.
  - left. apply Forall_cons in HQ as [_ HQ]. split; [done|by apply ph_running].
  - left. destruct Q1 as [|x Q1]; simpl in HQ; [done|]. injection HQ as <- ->. apply Forall_cons in H1 as [_ H1].
    split; [done|by eapply ph_putting].
Qed.

Lemma phase_get now st ca Q fl nr r :
  phase now st ca (KGet r :: Q) fl nr -> fl = false /\ nr = 0%nat /\ idle now st ca (KGet r :: Q).
Proof.
  remember (KGet r :: Q) as Q0 eqn:E.
  destruct 1 as [H|Hst Hc HQ|Q1 r' d Q2 HQ H1 Hc Hst H2]; subst; [done| |].
  - apply Forall_cons in HQ as [[?|?] _]; done.
  - destruct Q1 as [|x Q1]; simpl in HQ; [done|]. injection HQ as <- ->. apply Forall_cons in H1 as [[?|?] _]; done.
Qed.

Lemma phase_put now st ca Q fl nr r d :
  phase now st ca (KPut r d :: Q) fl nr ->
  fl = true /\ nr = 0%nat /\ ca = None /\ st = (if d then Some r else None) /\ Forall (after_put r d) Q.
Proof.
  remember (KPut r d :: Q) as Q0 eqn:E.
  destruct 1 as [[H1 H2 H3 (A & B & HAB & HA & HB)]|Hst Hc HQ|Q1 r' d' Q2 HQ H1 Hc Hst H2]; subst.
  - destruct A as [|a A]; simpl in HAB; [subst B; apply Forall_cons in HB as [[?|?] _]; done|].
    injection HAB as <- _. apply Forall_cons in HA as [[?|[? ?]] _]; done.
  - apply Forall_cons in HQ as [[?|?] _]; done.
  - destruct Q1 as [|x Q1]; simpl in HQ; [by injection HQ as -> -> ->|]. injection HQ as <- _.
    apply Forall_cons in H1 as [[?|?] _]; done.
Qed.

Lemma phase_runs now st ca Q fl nr :
  phase now st ca Q fl nr -> nr <> 0%nat -> nr = 1%nat /\ fl = true /\ st = None /\ ca = None /\ Forall harmless Q.
Proof. by destruct 1. Qed.

(** ** The invariant *)

(** Every execution starts after the records stored before it for its key have
    expired. *)
Definition once_per_ttl (log : list Logged) : Prop :=
  forall l1 q t l2, log = (l1 ++ LExec q t :: l2)%list ->
  forall r, LStored r ∈ l1 -> ir_key r = kq_key q -> ir_expiresAt r <= t.

Section Owner.
(** All requests with a key come from one principal and carry one body. *)
Context (owner : string -> string * string).

Definition owned_q (q : Keyed) : Prop := owner (kq_key q) = (kq_principal q, kq_fingerprint q).

Definition owned_r (k : string) (r : IdempotencyRecord) : Prop :=
  (ir_scope r = None \/ ir_scope r = Some (owner k).1) /\ ir_requestHash r = (owner k).2.

Definition pend_ok (p : Pending) : Prop :=
  owned_q (pend_of p) /\
  match p with PGet q (Ok (Some r)) | PPut q r _ => owned_r (kq_key q) r | _ => True end.

Definition ph (k : string) (s : Mw) : Prop :=
  phase (mw_now s) (stored k s) (cached k s) (view k (mw_queue s)) (fly k s) (runs k s).

(** Everything but the phase of the key [k0]. *)
Record good_but (k0 : string) (s : Mw) : Prop := {
  gb_rows : jwf (mw_rows s);
  gb_row k w : jget k (mw_rows s) = Some w ->
    exists r, rec_ok r /\ w = IdemStore.row_of r /\ ir_key r = k /\ owned_r k r;
  gb_lru : jwf (mw_lru s);
  gb_cached k e : jget k (mw_lru s) = Some e -> owned_r k (ce_record e);
  gb_reading : Forall owned_q (mw_reading s);
  gb_running : Forall owned_q (mw_running s);
  gb_queue : Forall pend_ok (mw_queue s);
  gb_phase k : k <> k0 -> ph k s;
  gb_log r : LStored r ∈ mw_log s -> stored (ir_key r) s = Some r \/ ir_expiresAt r <= mw_now s;
  gb_once : once_per_ttl (mw_log s);
}.

Definition good (s : Mw) : Prop := forall k, good_but k s /\ ph k s.

Lemma good_intro k0 s : good_but k0 s -> ph k0 s -> good s.
Proof.
  intros H Hk k. destruct H. split; [split; try done|]; [intros k'|]; destruct (decide (k' = k0)) as [->|] || destruct (decide (k = k0)) as [->|]; auto.
Qed.

Lemma view_app k ps ps' : view k (ps ++ ps') = (view k ps ++ view k ps')%list.
Proof. unfold view. by rewrite List.filter_app, map_app. Qed.

Lemma view_cons k p ps :
  view k (p :: ps) = if decide (kq_key (pend_of p) = k) then kind_of p :: view k ps else view k ps.
Proof. unfold view. simpl. case_decide; [by rewrite bool_decide_true|by rewrite bool_decide_false]. Qed.

Lemma once_app log e :
  once_per_ttl log ->
  (forall q t, e = LExec q t -> forall r, LStored r ∈ log -> ir_key r = kq_key q -> ir_expiresAt r <= t) ->
  once_per_ttl (log ++ [e]).
Proof.
  intros H He l1 q t l2 Heq. destruct l2 as [|x l2 _] using rev_ind.
  - apply app_inj_tail in Heq as [-> ->]. by apply He.
  - rewrite app_comm_cons, (assoc_L app) in Heq. apply app_inj_tail in Heq as [-> _]. by apply (H l1 q t l2).
Qed.

(** A reply only grows the log. *)
Lemma reply_good k0 q r s : good_but k0 s -> good_but k0 (reply q r s).
Proof.
  intros []. split; try done.
  - intros r' [Hr'|?%list_elem_of_singleton]%elem_of_app; [by apply gb_log0|done].
  - by apply once_app.
Qed.

Lemma outcome_good k0 b s : good_but k0 s -> good_but k0 (recordCacheOutcome b s).
Proof. by intros []. Qed.

Lemma stored_None_expired k0 s r :
  good_but k0 s -> stored k0 s = None -> LStored r ∈ mw_log s -> ir_key r = k0 -> ir_expiresAt r <= mw_now s.
Proof. intros H Hst Hr <-. destruct (gb_log _ _ H r Hr); congruence. Qed.

Lemma runs_app k s qs :
  runs k (mw_set_running (mw_running s ++ qs)%list s) =
  (runs k s + length (List.filter (fun q => bool_decide (kq_key q = k)) qs))%nat.
Proof. unfold runs. simpl. by rewrite List.filter_app, length_app. Qed.

Lemma begin_good q s :
  owned_q q -> good_but (kq_key q) s ->
  (fly (kq_key q) s = true /\ ph (kq_key q) s) \/
  (fly (kq_key q) s = false /\ runs (kq_key q) s = 0%nat /\ stored (kq_key q) s = None /\
   cached (kq_key q) s = None /\ Forall harmless (view (kq_key q) (mw_queue s))) ->
  good (begin q s).
Proof.
  intros Hq Hs [[Hf Hp]|(Hf & Hr & Hst & Hca & Hv)]; unfold begin; unfold fly in Hf; rewrite Hf.
  - apply (good_intro (kq_key q)); [by apply reply_good|done].
  - apply (good_intro (kq_key q)).
    + pose proof (fun r => stored_None_expired (kq_key q) s r Hs Hst) as Hexp. destruct (outcome_good _ false _ Hs). split; try done.
      * apply Forall_app. split; [done|]. by constructor.
      * intros k Hk. specialize (gb_phase0 k Hk). unfold ph in *.
        replace (fly k _) with (fly k s); [replace (runs k _) with (runs k s); [done|]|].
        -- unfold runs. simpl. rewrite List.filter_app. simpl. rewrite bool_decide_false by done. by rewrite app_nil_r.
        -- unfold fly. simpl. apply bool_decide_ext. set_solver.
      * intros r [Hr'|?%list_elem_of_singleton]%elem_of_app; [by apply gb_log0|done].
      * apply once_app; [done|]. intros q' t [= <- <-] r Hr' Hk. by apply Hexp.
    + unfold ph. replace (fly _ _) with true by (symmetry; apply bool_decide_eq_true; simpl; set_solver).
      replace (runs _ _) with 1%nat; [by apply ph_running|]. unfold runs in *. simpl.
      rewrite List.filter_app, length_app. simpl. rewrite bool_decide_true by done. simpl. lia.
Qed.

(** *** The cache *)

Lemma cached_sub k s lru :
  (forall e, jget k lru = Some e -> jget k (mw_lru s) = Some e) ->
  cached k (mw_set_lru lru s) = cached k s \/ cached k (mw_set_lru lru s) = None.
Proof.
  intros H. unfold cached. simpl. destruct (jget k lru) as [e|] eqn:E; [|by right]. left. by rewrite (H e).
Qed.

Lemma lru_good k0 lru s :
  jwf lru -> (forall k e, k <> k0 -> jget k lru = Some e -> jget k (mw_lru s) = Some e) ->
  (forall e, jget k0 lru = Some e -> owned_r k0 (ce_record e)) ->
  good_but k0 s -> good_but k0 (mw_set_lru lru s).
Proof.
  intros Hw Hsub Hown []. split; try done.
  - intros k e Hk. destruct (decide (k = k0)) as [->|Hne]; [by apply Hown|]. by eapply gb_cached0, Hsub.
  - intros k Hk. apply (phase_weaken (mw_now s) _ _ (cached k s)); [done| |by apply gb_phase0].
    apply cached_sub. intros e. by apply Hsub.
Qed.

Lemma remember_good config q r s :
  owned_r (kq_key q) r -> good_but (kq_key q) s ->
  good_but (kq_key q) (remember config q r s) /\ cached (kq_key q) (remember config q r s) = Some r.
Proof.
  intros Hr Hs. unfold remember.
  destruct (lru_set_spec (ic_lruCacheSize config) (kq_key q) (mkCached r (mw_now s)) (mw_lru s) (gb_lru _ _ Hs))
    as (Hw & Hget & _ & Hsub). split.
  - apply lru_good; [done|intros k e Hk; by apply Hsub|intros e; rewrite Hget; by intros [= <-]|done].
  - unfold cached. simpl. rewrite Hget. simpl. by rewrite Z.sub_diag.
Qed.

Lemma forget_good q s :
  good_but (kq_key q) s ->
  let s' := mw_set_lru (SimpleLru.delete (kq_key q) (mw_lru s)) s in
  good_but (kq_key q) s' /\ cached (kq_key q) s' = None.
Proof.
  intros Hs s'. unfold SimpleLru.delete in s'. split.
  - apply lru_good; [by apply jdel_wf, (gb_lru _ _ Hs)| | |done].
    + intros k e Hk. rewrite jget_jdel. by rewrite decide_False.
    + intros e. rewrite jget_jdel. by rewrite decide_True.
  - unfold cached. simpl. rewrite jget_jdel. by rewrite decide_True.
Qed.

(** *** The queue and the rows *)

Lemma enqueue_good p s :
  pend_ok p -> good_but (kq_key (pend_of p)) s -> good_but (kq_key (pend_of p)) (enqueue p s).
Proof.
  intros Hp []. split; try done; simpl.
  - apply Forall_app. split; [done|]. by constructor.
  - intros k Hk. unfold ph. simpl. rewrite view_app, view_cons, decide_False by done. simpl. rewrite app_nil_r.
    by apply gb_phase0.
Qed.

Lemma view_enqueue p s :
  view (kq_key (pend_of p)) (mw_queue (enqueue p s)) = (view (kq_key (pend_of p)) (mw_queue s) ++ [kind_of p])%list.
Proof. simpl. rewrite view_app, view_cons, decide_True by done. done. Qed.

Lemma delete_good k0 s :
  (forall r, stored k0 s = Some r -> ir_expiresAt r <= mw_now s) -> good_but k0 s ->
  good_but k0 (mw_set_rows (IdemStore.delete k0 (mw_rows s)) s) /\
  stored k0 (mw_set_rows (IdemStore.delete k0 (mw_rows s)) s) = None.
Proof.
  intros Hexp []. unfold IdemStore.delete.
  assert (forall k, k <> k0 -> stored k (mw_set_rows (jdel k0 (mw_rows s)) s) = stored k s) as Hst.
  { intros k Hk. unfold stored. simpl. rewrite jget_jdel. by rewrite decide_False. }
  assert (stored k0 (mw_set_rows (jdel k0 (mw_rows s)) s) = None) as Hno.
  { unfold stored. simpl. rewrite jget_jdel. by rewrite decide_True. }
  split; [|done]. split; try done.
  - by apply jdel_wf.
  - intros k w. simpl. rewrite jget_jdel. case_decide; [done|]. apply gb_row0.
  - intros k Hk. unfold ph. rewrite Hst by done. by apply gb_phase0.
  - intros r Hr. destruct (decide (ir_key r = k0)) as [<-|Hne]; [|rewrite Hst by done; by apply gb_log0].
    right. destruct (gb_log0 r Hr) as [?|?]; [by apply Hexp|done].
Qed.

(** *** Settling *)

(** A record has been read for an idle key. *)
Record ready (q : Keyed) (r : IdempotencyRecord) (s : Mw) : Prop := {
  rd_owned : owned_r (kq_key q) r;
  rd_current : current (mw_now s) (stored (kq_key q) s) r;
  rd_fly : fly (kq_key q) s = false;
  rd_runs : runs (kq_key q) s = 0%nat;
  rd_gets r' : KGet r' ∈ view (kq_key q) (mw_queue s) -> current (mw_now s) (stored (kq_key q) s) r';
  rd_go : KGo ∈ view (kq_key q) (mw_queue s) -> stored (kq_key q) s = None;
  rd_order : exists A B, view (kq_key q) (mw_queue s) = (A ++ B)%list /\ Forall is_get A /\ Forall harmless B;
}.

Lemma expired_idle now st r Q (ok : bool) :
  current now st r -> ir_expiresAt r <= now -> (forall r', KGet r' ∈ Q -> current now st r') ->
  (KGo ∈ Q -> st = None) -> (exists A B, Q = (A ++ B)%list /\ Forall is_get A /\ Forall harmless B) ->
  idle now (if ok then None else st) None (Q ++ [if ok then KGo else KFail]).
Proof.
  intros Hr He HQ Hgo (A & B & -> & HA & HB). split; [|done|..].
  - intros r' [Hr'%HQ|Hr'%list_elem_of_singleton]%elem_of_app; [|by destruct ok].
    destruct ok; [|done]. simpl. destruct st as [r0|]; simpl in *; congruence.
  - intros [Hg|Hg%list_elem_of_singleton]%elem_of_app; [rewrite (Hgo Hg); by destruct ok|by destruct ok].
  - exists A, (B ++ [if ok then KGo else KFail])%list. rewrite (assoc_L app). split_and!; [done..|].
    apply Forall_app. split; [done|]. constructor; [|constructor]. destruct ok; [by left|by right].
Qed.

Lemma owner_passes config q r :
  owned_q q -> owned_r (kq_key q) r ->
  match ir_scope r with Some p => negb (bool_decide (p = kq_principal q)) | None => false end = false /\
  ic_checkBodyFingerprint config && negb (bool_decide (ir_requestHash r = kq_fingerprint q)) = false.
Proof.
  intros Hq [Hsc Hh]. unfold owned_q in Hq. rewrite Hq in Hsc, Hh. simpl in *. split.
  - destruct Hsc as [->| ->]; [done|]. by rewrite bool_decide_true.
  - rewrite Hh, bool_decide_true by done. by destruct (ic_checkBodyFingerprint config).
Qed.

Lemma settle_good config ok q r s :
  owned_q q -> good_but (kq_key q) s -> cached (kq_key q) s = Some r -> ready q r s ->
  good (settle config ok q (Some r) s).
Proof.
  intros Hq Hs Hca [Hown Hcur Hf Hr Hgets Hgo Hord]. unfold settle.
  destruct (owner_passes config q r Hq Hown) as [-> ->].
  destruct (Z.ltb_spec (mw_now s) (ir_expiresAt r)) as [Hlive|Hexp].
  - apply (good_intro (kq_key q)); [by apply reply_good, outcome_good|]. unfold ph.
    change (phase (mw_now s) (stored (kq_key q) s) (cached (kq_key q) s) (view (kq_key q) (mw_queue s))
              (fly (kq_key q) s) (runs (kq_key q) s)).
    rewrite Hf, Hr, Hca. apply ph_idle. split; [done|by intros ? [= <-]| |done].
    intros Hg. rewrite (Hgo Hg) in Hcur. simpl in Hcur. lia.
  - destruct (forget_good q s Hs) as [Hs1 Hca1]. set (s1 := mw_set_lru _ s) in *.
    assert (forall r', stored (kq_key q) s1 = Some r' -> ir_expiresAt r' <= mw_now s1) as Hall.
    { intros r' Hst. change (stored (kq_key q) s1) with (stored (kq_key q) s) in Hst. rewrite Hst in Hcur. simpl in Hcur. by subst. }
    pose proof (expired_idle (mw_now s) (stored (kq_key q) s) r _ ok Hcur Hexp Hgets Hgo Hord) as Hidle.
    set (p := PDelete q ok). apply (good_intro (kq_key (pend_of p))).
    + apply enqueue_good; [done|]. destruct ok; [by apply delete_good|done].
    + unfold ph. rewrite view_enqueue.
      change (fly (kq_key (pend_of p)) _) with (fly (kq_key q) (if ok then mw_set_rows (IdemStore.delete (kq_key q) (mw_rows s1)) s1 else s1)).
      destruct (delete_good (kq_key q) s1 Hall Hs1) as [_ Hno].
      destruct ok; [replace (stored _ _) with (@None IdempotencyRecord) by (symmetry; exact Hno)|];
        (replace (cached _ _) with (@None IdempotencyRecord) by (symmetry; exact Hca1));
        (replace (fly _ _) with false by (symmetry; exact Hf)); (replace (runs _ _) with 0%nat by (symmetry; exact Hr));
        apply ph_idle; exact Hidle.
Qed.

(** *** Steps keep the invariant *)

Lemma good_reading k0 l s : Forall owned_q l -> good_but k0 s -> good_but k0 (mw_set_reading l s).
Proof. intros Hl []. by split. Qed.

Lemma store_get_good k0 k s :
  good_but k0 s -> IdemStore.get k (mw_rows s) = Ok (stored k s) /\
  (forall r, stored k s = Some r -> owned_r k r /\ rec_ok r /\ ir_key r = k).
Proof.
  intros Hs. unfold IdemStore.get, stored. destruct (jget k (mw_rows s)) as [w|] eqn:E; [|done].
  destruct (gb_row _ _ Hs k w E) as (r & Hr & -> & Hk & Hown). simpl. rewrite record_of_row by done.
  split; [done|]. by intros ? [= <-].
Qed.

Lemma lookup_good config ok q s : owned_q q -> good s -> good (lookup config ok q s).
Proof.
  intros Hq Hgood. destruct (Hgood (kq_key q)) as [Hs Hp]. unfold lookup.
  destruct (SimpleLru.get (kq_key q) (mw_lru s)) as [c lru] eqn:E.
  destruct (lru_get_spec _ _ _ _ E (gb_lru _ _ Hs)) as (-> & Hw & Hsame).
  set (s1 := mw_set_lru lru s).
  assert (forall k, cached k s1 = cached k s) as Hcs by (intros k; unfold cached; simpl; by rewrite Hsame).
  assert (good_but (kq_key q) s1) as Hs1.
  { apply lru_good; [done|intros k e _; by rewrite Hsame| |done]. intros e. rewrite Hsame. apply (gb_cached _ _ Hs). }
  destruct (store_get_good _ (kq_key q) s1 Hs1) as [Hget Hstown].
  assert (cached (kq_key q) s = None ->
    good (enqueue (PGet q (if ok then IdemStore.get (kq_key q) (mw_rows s1) else Err ())) s1)) as Hask.
  { intros Hca. rewrite Hget. set (p := PGet q _). apply (good_intro (kq_key (pend_of p))).
    - apply enqueue_good; [|done]. split; [done|]. unfold p. destruct ok; [|done].
      destruct (stored (kq_key q) s1) as [r|] eqn:Est; [|done]. by apply Hstown.
    - unfold ph. rewrite view_enqueue. unfold ph in Hp. rewrite <- Hcs in Hp.
      rewrite <- Hcs in Hca. pose proof (phase_ask _ _ _ _ _ _ ok Hca Hp) as Hask.
      replace (kind_of p) with (if ok then match stored (kq_key q) s with Some r => KGet r | None => KGo end else KFail);
        [exact Hask|]. unfold p. change (stored (kq_key q) s1) with (stored (kq_key q) s).
      destruct ok; [|done]. by destruct (stored (kq_key q) s). }
  destruct (jget (kq_key q) (mw_lru s)) as [e|] eqn:Ee.
  - change (mw_now s1) with (mw_now s).
    destruct (mw_now s - ce_cachedAt e <? LRU_FRESH_MS) eqn:Efresh.
    + assert (cached (kq_key q) s = Some (ce_record e)) as Hca by (unfold cached; by rewrite Ee, Efresh).
      unfold ph in Hp. rewrite Hca in Hp. inversion Hp as [[H1 H2 H3 H4] Hf Hr|? ? ?|]; [|done..].
      apply settle_good; [done..|by rewrite Hcs|]. split; try done.
      * by apply (gb_cached _ _ Hs).
      * by apply H2.
      * intros [? _]%H3. done.
    + apply Hask. unfold cached. by rewrite Ee, Efresh.
  - apply Hask. unfold cached. by rewrite Ee.
Qed.

Lemma pop_good p rest s :
  mw_queue s = p :: rest -> good s ->
  pend_ok p /\ good_but (kq_key (pend_of p)) (mw_set_queue rest s) /\
  let k := kq_key (pend_of p) in let s' := mw_set_queue rest s in
  phase (mw_now s') (stored k s') (cached k s') (kind_of p :: view k (mw_queue s')) (fly k s') (runs k s').
Proof.
  intros Hq Hgood. destruct (Hgood (kq_key (pend_of p))) as [[] Hp]. unfold ph in Hp. rewrite Hq in *.
  apply Forall_cons in gb_queue0 as [Hpok Hrest]. rewrite view_cons, decide_True in Hp by done.
  split_and!; [done| |exact Hp]. split; try done. intros k Hk. specialize (gb_phase0 k Hk). unfold ph in *.
  rewrite Hq, view_cons, decide_False in gb_phase0 by done. exact gb_phase0.
Qed.

Lemma release_good q s : good_but (kq_key q) s -> good_but (kq_key q) (release q s) /\ fly (kq_key q) (release q s) = false.
Proof.
  intros []. split.
  - split; try done. intros k Hk. specialize (gb_phase0 k Hk). unfold ph in *.
    replace (fly k _) with (fly k s); [done|]. unfold fly. simpl. apply bool_decide_ext.
    rewrite !list_elem_of_In, List.filter_In, negb_true_iff, bool_decide_eq_false. naive_solver.
  - unfold fly. simpl. apply bool_decide_eq_false.
    rewrite list_elem_of_In, List.filter_In, negb_true_iff, bool_decide_eq_false. naive_solver.
Qed.

Lemma respond_good config ok p rest s :
  mw_queue s = p :: rest -> good s -> good (respond config ok p (mw_set_queue rest s)).
Proof.
  intros Hq Hgood. destruct (pop_good p rest s Hq Hgood) as ([Hqo Hpo] & Hs & Hp). set (s' := mw_set_queue rest s) in *.
  destruct p as [q [[r|]|[]]|q []|q r d]; cbn [pend_of kind_of] in *; cbn [respond].
  - apply phase_get in Hp as (Hf & Hr & [H1 H2 H3 H4]). destruct (remember_good config q r s' Hpo Hs) as [Hs2 Hca].
    apply settle_good; [done..|]. split; try done.
    + apply H1. by left.
    + intros r' Hr'. apply H1. by right.
    + intros Hg. apply H3. by right.
    + destruct H4 as (A & B & HAB & HA & HB). destruct A as [|a A]; simpl in HAB.
      * subst B. apply Forall_cons in HB as [[?|?] _]; done.
      * injection HAB as <- HAB. apply Forall_cons in HA as [_ HA]. by exists A, B.
  - apply begin_good; [done..|]. by apply phase_go in Hp.
  - apply (good_intro (kq_key q)); [by apply reply_good|]. by apply phase_fail in Hp.
  - apply begin_good; [done..|]. by apply phase_go in Hp.
  - apply (good_intro (kq_key q)); [by apply reply_good|]. by apply phase_fail in Hp.
  - apply phase_put in Hp as (Hf & Hr & Hca & Hst & HQ).
    set (s2 := if d then remember config q r s' else s').
    assert (good_but (kq_key q) s2 /\ cached (kq_key q) s2 = if d then Some r else None) as [Hs2 Hca2].
    { unfold s2. destruct d; [by apply remember_good|done]. }
    destruct (release_good q s2 Hs2) as [Hs3 Hf3]. apply (good_intro (kq_key q)); [by apply reply_good|]. unfold ph.
    replace (fly _ _) with false by (symmetry; exact Hf3).
    replace (cached _ _) with (if d then Some r else None) by (symmetry; exact Hca2).
    replace (stored _ _) with (if d then Some r else None) by (symmetry; rewrite <- Hst; by destruct d).
    replace (runs _ _) with 0%nat by (symmetry; rewrite <- Hr; by destruct d).
    replace (view _ _) with (view (kq_key q) (mw_queue s')) by by destruct d.
    apply ph_idle. destruct d; simpl.
    + rewrite Forall_forall in HQ. split.
      * intros r' Hr'. destruct (HQ _ Hr') as [?|[= ->]]; done.
      * by intros ? [= <-].
      * intros Hg. destruct (HQ _ Hg); done.
      * eexists _, []. rewrite app_nil_r. split_and!; [done| |constructor]. apply Forall_forall. intros x Hx.
        destruct (HQ x Hx) as [->| ->]; [by left|right; by eexists].
    + apply idle_harmless. eapply Forall_impl; [exact HQ|]. intros x [->| ->]; [by right|by left].
Qed.

Lemma take_running pre q post s :
  mw_running s = (pre ++ q :: post)%list -> good s ->
  let s' := mw_set_running (pre ++ post)%list s in
  owned_q q /\ good_but (kq_key q) s' /\ fly (kq_key q) s' = true /\ runs (kq_key q) s' = 0%nat /\
  stored (kq_key q) s' = None /\ cached (kq_key q) s' = None /\ Forall harmless (view (kq_key q) (mw_queue s')).
Proof.
  intros Hrun Hgood s'. destruct (Hgood (kq_key q)) as [[] Hp].
  assert (forall k, runs k s = (runs k s' + if decide (kq_key q = k) then 1 else 0)%nat) as Hruns.
  { intros k. unfold runs. simpl. rewrite Hrun, !List.filter_app, !length_app. simpl.
    case_decide; [rewrite bool_decide_true by done|rewrite bool_decide_false by done]; simpl; lia. }
  rewrite Hrun in gb_running0. apply Forall_app in gb_running0 as [H1 [Hq H2]%Forall_cons].
  assert (good_but (kq_key q) s') as Hs'.
  { split; try done; [by apply Forall_app|]. intros k Hk. specialize (gb_phase0 k Hk). unfold ph in *.
    rewrite Hruns, decide_False, Nat.add_0_r in gb_phase0 by done. exact gb_phase0. }
  unfold ph in Hp. rewrite Hruns, decide_True in Hp by done.
  destruct (phase_runs _ _ _ _ _ _ Hp) as (Hn & Hf & Hst & Hca & HQ); [lia|].
  split_and!; try done. lia.
Qed.

Lemma put_good config q r body s :
  owned_q q -> captureJsonResponse r = Some body -> good_but (kq_key q) s -> stored (kq_key q) s = None ->
  let rec := record_for config q r body (mw_now s) in
  let s' := mw_add_log (LStored rec) (mw_set_rows (IdemStore.put rec (mw_rows s)) s) in
  good_but (kq_key q) s' /\ stored (kq_key q) s' = Some rec /\ owned_r (kq_key q) rec.
Proof.
  intros Hq Hb Hs Hst rec s'. pose proof (record_for_ok config q r body (mw_now s) Hb) as Hok. fold rec in Hok.
  assert (owned_r (kq_key q) rec) as Hown by (unfold owned_q in Hq; split; rewrite Hq; [by right|done]).
  assert (forall k, stored k s' = if decide (k = kq_key q) then Some rec else stored k s) as Hst'.
  { intros k. unfold stored. simpl. unfold IdemStore.put. change (ir_key rec) with (kq_key q). rewrite jget_jset.
    case_decide; [|done]. simpl. by apply record_of_row. }
  split_and!; [|by rewrite Hst', decide_True|done].
  pose proof (fun r => stored_None_expired (kq_key q) s r Hs Hst) as Hexp. destruct Hs. split; try done.
  - by apply jset_wf.
  - intros k w. simpl. unfold IdemStore.put. change (ir_key rec) with (kq_key q). rewrite jget_jset.
    case_decide; [subst k; intros [= <-]; by exists rec|apply gb_row0].
  - intros k Hk. unfold ph. rewrite Hst', decide_False by done. by apply gb_phase0.
  - intros r' Hr'. rewrite Hst'. apply elem_of_app in Hr' as [Hr'|[= ->]%list_elem_of_singleton];
      [|left; by rewrite decide_True].
    destruct (decide (ir_key r' = kq_key q)) as [Hk|Hne]; [right; by apply Hexp|by apply gb_log0].
  - by apply once_app.
Qed.

Lemma finish_good config ok res pre q post s :
  mw_running s = (pre ++ q :: post)%list -> good s -> good (finish config ok q res (mw_set_running (pre ++ post) s)).
Proof.
  intros Hrun Hgood. destruct (take_running pre q post s Hrun Hgood) as (Hq & Hs & Hf & Hr & Hst & Hca & HQ).
  set (s' := mw_set_running _ s) in *.
  assert (forall rep, good (reply q rep (release q s'))) as Hend.
  { intros rep. destruct (release_good q s' Hs) as [Hs2 Hf2]. apply (good_intro (kq_key q)); [by apply reply_good|].
    unfold ph. replace (fly _ _) with false by (symmetry; exact Hf2). replace (runs _ _) with 0%nat by (symmetry; exact Hr).
    apply ph_idle. replace (stored _ _) with (@None IdempotencyRecord) by (symmetry; exact Hst).
    replace (cached _ _) with (@None IdempotencyRecord) by (symmetry; exact Hca). by apply idle_harmless. }
  unfold finish. destruct res as [r|]; [|apply Hend]. case_bool_decide; [apply Hend|].
  destruct (captureJsonResponse r) as [body|] eqn:Hb; [|apply Hend].
  destruct (put_good config q r body s' Hq Hb Hs Hst) as (Hs2 & Hst2 & Hown).
  set (rec := record_for config q r body (mw_now s')) in *. set (p := PPut q rec ok).
  apply (good_intro (kq_key (pend_of p))).
  - apply enqueue_good; [done|]. by destruct ok.
  - unfold ph. rewrite view_enqueue. cbn [kind_of p].
    replace (stored _ _) with (if ok then Some rec else None) by (symmetry; destruct ok; [exact Hst2|exact Hst]).
    replace (cached _ _) with (@None IdempotencyRecord) by (symmetry; rewrite <- Hca; by destruct ok).
    replace (fly _ _) with true by (symmetry; rewrite <- Hf; by destruct ok).
    replace (runs _ _) with 0%nat by (symmetry; rewrite <- Hr; by destruct ok).
    eapply (ph_putting _ _ _ _ (view (kq_key q) (mw_queue s')) rec ok []); try done. by destruct ok.
Qed.

Lemma tick_good t s : mw_now s <= t -> good s -> good (mw_set_now t s).
Proof.
  intros Ht Hgood.
  assert (forall k, ph k (mw_set_now t s)) as Hph.
  { intros k. apply (phase_weaken (mw_now s) _ _ (cached k s)); [done| |apply Hgood]. unfold cached. simpl.
    destruct (jget k (mw_lru s)) as [e|]; [|by left].
    destruct (Z.ltb_spec (t - ce_cachedAt e) LRU_FRESH_MS); [|by right]. left.
    by rewrite (proj2 (Z.ltb_lt (mw_now s - ce_cachedAt e) LRU_FRESH_MS)) by lia. }
  intros k. split; [|done]. destruct (Hgood k) as [[] _]. split; try done.
  intros r Hr. destruct (gb_log0 r Hr) as [?|?]; [by left|right; simpl; lia].
Qed.

Lemma jget_filter {A} (f : string * A -> bool) k l :
  jwf l -> jget k (List.filter f l) = match jget k l with Some v => if f (k, v) then Some v else None | None => None end.
Proof.
  unfold jwf. induction l as [|[k' v] l IH]; [done|]. simpl. intros [Hni Hw]%NoDup_cons. specialize (IH Hw).
  assert (k = k' -> jget k l = None) as Hnone by (intros ->; by apply jget_None).
  destruct (f (k', v)) eqn:E; simpl; case_decide as Hk; subst; rewrite ?E; try done.
  rewrite IH. by rewrite Hnone.
Qed.

Lemma sweep_stored k0 k s :
  good_but k0 s -> stored k (sweep s) = stored k s \/
  (stored k (sweep s) = None /\ exists r, stored k s = Some r /\ ir_expiresAt r <= mw_now s).
Proof.
  intros Hs. unfold stored. simpl. rewrite jget_filter by apply (gb_rows _ _ Hs).
  destruct (jget k (mw_rows s)) as [w|] eqn:E; [|by left].
  destruct (gb_row _ _ Hs k w E) as (r & Hr & -> & _). simpl.
  destruct (Z.ltb_spec (ir_expiresAt r) (mw_now s)); simpl; [right; split; [done|]; exists r|by left].
  rewrite record_of_row by done. split; [done|lia].
Qed.

Lemma sweep_good s : mw_queue s = [] -> good s -> good (sweep s).
Proof.
  intros Hempty Hgood.
  assert (forall k, ph k (sweep s)) as Hph.
  { intros k. destruct (Hgood k) as [Hs Hp]. unfold ph in *. change (mw_queue (sweep s)) with (mw_queue s).
    rewrite Hempty in *. cbn [view] in *.
    destruct (sweep_stored k k s Hs) as [->|(-> & r & Hr & Hexp)]; [exact Hp|]. rewrite Hr in Hp.
    inversion Hp as [[H1 H2 H3 H4] Hf Hn|? ? ?|Q1 ? ? Q2 HQ]; [|done|by destruct Q1].
    change (fly k (sweep s)) with (fly k s). rewrite <- Hf. change (runs k (sweep s)) with (runs k s). rewrite <- Hn.
    apply ph_idle. split; [|..|by exists [], []].
    - by intros ? ?%not_elem_of_nil.
    - intros r' Hr'. specialize (H2 r' Hr'). simpl in H2. by subst.
    - by intros ?%not_elem_of_nil. }
  intros k. split; [|done]. destruct (Hgood k) as [Hs _]. pose proof Hs as Hs0. destruct Hs0. split; try done.
  - unfold jwf, jkeys. simpl. revert gb_rows0. unfold jwf, jkeys. generalize (mw_rows s) as l. induction l as [|x l IH]; simpl; [done|].
    intros [Hni Hw]%NoDup_cons. destruct (negb _); simpl; [|by apply IH]. apply NoDup_cons. split; [|by apply IH].
    intros (y & Heq & Hy)%list_elem_of_fmap. apply Hni. rewrite list_elem_of_In, List.filter_In, <- list_elem_of_In in Hy.
    apply list_elem_of_fmap. exists y. by destruct Hy.
  - intros k' w. simpl. rewrite jget_filter by done. destruct (jget k' (mw_rows s)) as [w'|] eqn:E; [|done].
    destruct (negb _); [|done]. intros [= <-]. by apply gb_row0.
  - intros r Hr. destruct (gb_log0 r Hr) as [Hst|?]; [|by right].
    destruct (sweep_stored k (ir_key r) s Hs) as [->|(_ & r' & Hr' & Hexp)]; [by left|right]. simpl. congruence.
Qed.
End Owner.

(** ** Steps *)

Section Props.
Context (sha256Hex : string -> string) (config : IdempotencyConfig) (excluded : list string).

Local Notation arrive := (arrive sha256Hex config excluded).
Local Notation screen_request := (screen_request sha256Hex config excluded).
Local Notation lookup := (lookup config).
Local Notation respond := (respond config).
Local Notation finish := (finish config).

Section Steps.
(** The requests that may arrive. *)
Context (allowed : Request -> Prop).

Inductive istep (s : Mw) : Mw -> Prop :=
| arrives id rq : allowed rq -> istep s (arrive id rq s)
| looks ok pre q post :
    mw_reading s = (pre ++ q :: post)%list -> istep s (lookup ok q (mw_set_reading (pre ++ post)%list s))
| responds ok p rest : mw_queue s = p :: rest -> istep s (respond ok p (mw_set_queue rest s))
| finishes ok res pre q post :
    mw_running s = (pre ++ q :: post)%list -> istep s (finish ok q res (mw_set_running (pre ++ post)%list s))
| ticks t : mw_now s <= t -> istep s (mw_set_now t s)
| sweeps : mw_queue s = [] -> istep s (sweep s).

(** A new process over the records of earlier ones. *)
Definition booted (recs : list IdempotencyRecord) (now : Z) : Mw :=
  mkMw (map (fun r => (ir_key r, IdemStore.row_of r)) recs) [] [] now [] [] [] 0 0 (map LStored recs).

Inductive served (recs : list IdempotencyRecord) (now : Z) : Mw -> Prop :=
| served_boot : served recs now (booted recs now)
| served_step s s' : served recs now s -> istep s s' -> served recs now s'.
End Steps.


(** ** At most one execution *)

Lemma boot_stored recs now r : NoDup (map ir_key recs) -> Forall rec_ok recs -> r ∈ recs ->
  stored (ir_key r) (booted recs now) = Some r.
Proof.
  intros Hnd Hok Hr. unfold stored. simpl.
  rewrite (jget_elem_wf (ir_key r) (IdemStore.row_of r)); [simpl; apply record_of_row; rewrite Forall_forall in Hok; by apply Hok| |].
  - unfold jwf, jkeys. by rewrite map_map.
  - apply list_elem_of_fmap. by exists r.
Qed.

Section Once.
Context (owner : string -> string * string).

(** Requests with a key are retries of one request: same principal, same
    fingerprint. *)
Definition retries_agree (rq : Request) : Prop :=
  forall key fp principal, screen_request rq = Admit key fp principal -> owner key = (principal, fp).

Lemma arrive_good id rq s : retries_agree rq -> good owner s -> good owner (arrive id rq s).
Proof.
  intros Hrq Hgood. unfold Idempotency.arrive. destruct (screen_request rq) as [|status e|key fp principal] eqn:E.
  - intros k. destruct (Hgood k) as [Hs Hp]. split; [by apply reply_good|exact Hp].
  - intros k. destruct (Hgood k) as [Hs Hp]. split; [by apply reply_good|exact Hp].
  - intros k. destruct (Hgood k) as [Hs Hp]. split; [|exact Hp]. apply good_reading; [|done].
    apply Forall_app. split; [apply (gb_reading _ _ _ Hs)|]. constructor; [|constructor]. unfold owned_q. simpl.
    by apply Hrq.
Qed.

Lemma boot_good recs now :
  NoDup (map ir_key recs) -> Forall (fun r => rec_ok r /\ owned_r owner (ir_key r) r) recs -> good owner (booted recs now).
Proof.
  intros Hnd Hrecs. assert (Forall rec_ok recs) as Hok by (eapply Forall_impl; [exact Hrecs|]; by intros ? []).
  assert (forall k, ph k (booted recs now)) as Hph.
  { intros k. apply ph_idle. split; [..|by exists [], []]; try done; by intros ? ?%not_elem_of_nil || by intros ?%not_elem_of_nil. }
  intros k. split; [|done]. split; try done; simpl; try (by constructor).
  - unfold jwf, jkeys. by rewrite map_map.
  - intros k' w (r & Heq & Hr)%jget_Some_elem%list_elem_of_fmap. simplify_eq.
    rewrite Forall_forall in Hrecs. destruct (Hrecs r Hr). by exists r.
  - intros r (r' & Heq & Hr)%list_elem_of_fmap. simplify_eq. left. by apply boot_stored.
  - intros l1 q t l2 Heq. exfalso. assert (LExec q t ∈ map LStored recs) as Hin
      by (rewrite Heq; apply elem_of_app; right; left).
    apply list_elem_of_fmap in Hin as (? & ? & ?). done.
Qed.

Lemma served_good recs now s :
  NoDup (map ir_key recs) -> Forall (fun r => rec_ok r /\ owned_r owner (ir_key r) r) recs ->
  served retries_agree recs now s -> good owner s.
Proof.
  intros Hnd Hrecs. induction 1 as [|s s' _ IH Hstep]; [by apply boot_good|].
  destruct Hstep as [id rq Hrq|ok pre q post Hread|ok p rest Hq|ok res pre q post Hrun|t Ht|Hq].
  - by apply arrive_good.
  - assert (Forall (owned_q owner) (pre ++ q :: post)) as HF by (rewrite <- Hread; exact (gb_reading _ _ _ (proj1 (IH EmptyString)))).
    apply Forall_app in HF as [H1 [Hq H2]%Forall_cons]. apply lookup_good; [done|].
    intros k. destruct (IH k) as [Hs Hp]. split; [|exact Hp]. apply good_reading; [by apply Forall_app|done].
  - by apply respond_good.
  - by apply finish_good.
  - by apply tick_good.
  - by apply sweep_good.
Qed.
End Once.
End Props.
