(* ===== verification/IdempotencyReplay.v ===== *)
(** * What is replayed

    Every record the middleware can see was stored for its key, so a replayed
    response is that of an execution of the same request; the request
    fingerprint; concrete runs. *)

From S2P Require Import Prelude JsValue Json Canonical Idempotency IdempotencyFacts IdempotencyProps.

Local Open Scope string_scope.
Local Open Scope Z_scope.

(** ** Properties of every log entry, given the entries before it *)

Definition each_entry (P : list Logged -> Logged -> Prop) (log : list Logged) : Prop :=
  forall l1 e l2, log = (l1 ++ e :: l2)%list -> P l1 e.

Lemma each_entry_app P log e : each_entry P log -> P log e -> each_entry P (log ++ [e]).
Proof.
  intros H He l1 x l2 Heq. destruct l2 as [|y l2 _] using rev_ind.
  - by apply app_inj_tail in Heq as [-> ->].
  - rewrite app_comm_cons, (assoc_L app) in Heq. apply app_inj_tail in Heq as [-> _]. by apply (H l1 x l2).
Qed.

Section Replay.
Context (config : IdempotencyConfig) (recs : list IdempotencyRecord).

(** Where a stored record comes from: an earlier process, or an execution. *)
Definition origin (log : list Logged) (r : IdempotencyRecord) : Prop :=
  r ∈ recs \/
  exists q t, LExec q t ∈ log /\ kq_key q = ir_key r /\ ir_scope r = Some (kq_principal q) /\
    ir_requestHash r = kq_fingerprint q /\ ir_statusCode r ∉ NON_CACHEABLE_STATUS.

Definition justified (log : list Logged) (e : Logged) : Prop :=
  match e with
  | LStored r => origin log r
  | LReply _ key principal fp t (RepReplay status body headers) =>
      exists r, LStored r ∈ log /\ ir_key r = key /\ (ir_scope r = None \/ ir_scope r = Some principal) /\
        (ic_checkBodyFingerprint config = true -> ir_requestHash r = fp) /\ t < ir_expiresAt r /\
        status = ir_statusCode r /\ body = JSON_stringify (ir_response r) /\ headers = ir_responseHeaders r
  | _ => True
  end.

Definition known (log : list Logged) (k : string) (r : IdempotencyRecord) : Prop := LStored r ∈ log /\ ir_key r = k.

Definition pend_known (log : list Logged) (p : Pending) : Prop :=
  match p with
  | PGet q (Ok (Some r)) | PPut q r true => known log (kq_key q) r
  | _ => True
  end.

Record traced (s : Mw) : Prop := {
  tr_rows : Forall (fun p => exists r, rec_ok r /\ p.2 = IdemStore.row_of r /\ known (mw_log s) p.1 r) (mw_rows s);
  tr_lru : Forall (fun p => known (mw_log s) p.1 (ce_record p.2)) (mw_lru s);
  tr_queue : Forall (pend_known (mw_log s)) (mw_queue s);
  tr_running : Forall (fun q => exists t, LExec q t ∈ mw_log s) (mw_running s);
  tr_log : each_entry justified (mw_log s);
}.

Lemma known_app log e k r : known log k r -> known (log ++ [e]) k r.
Proof. intros [H ?]. split; [apply elem_of_app; by left|done]. Qed.

Lemma log_traced e s : traced s -> justified (mw_log s) e -> traced (mw_add_log e s).
Proof.
  intros [H1 H2 H3 H4 H5] He. split; simpl.
  - eapply Forall_impl; [exact H1|]. intros p (r & ? & ? & ?). exists r. split_and!; [done..|by apply known_app].
  - eapply Forall_impl; [exact H2|]. intros p. apply known_app.
  - eapply Forall_impl; [exact H3|]. intros [q [[r|]|]|q d|q r []]; try done; apply known_app.
  - eapply Forall_impl; [exact H4|]. intros q [t Ht]. exists t. apply elem_of_app. by left.
  - by apply each_entry_app.
Qed.

Lemma reply_traced q r s :
  match r with RepReplay _ _ _ => False | _ => True end -> traced s -> traced (reply q r s).
Proof. intros Hr Hs. apply log_traced; [done|]. by destruct r. Qed.

Lemma lru_traced lru s :
  traced s -> Forall (fun p => known (mw_log s) p.1 (ce_record p.2)) lru -> traced (mw_set_lru lru s).
Proof. intros [] H. by split. Qed.

Lemma rows_traced rows s :
  traced s -> Forall (fun p => exists r, rec_ok r /\ p.2 = IdemStore.row_of r /\ known (mw_log s) p.1 r) rows ->
  traced (mw_set_rows rows s).
Proof. intros [] H. by split. Qed.

Lemma enqueue_traced p s : traced s -> pend_known (mw_log s) p -> traced (enqueue p s).
Proof. intros [] H. split; try done. simpl. apply Forall_app. split; [done|]. by constructor. Qed.

Lemma Forall_move {A} (P : string * A -> Prop) k v l : P (k, v) -> Forall P l -> Forall P (jdel k l ++ [(k, v)]).
Proof. intros Hv Hl. apply Forall_app. split; [by apply Forall_jdel|by constructor]. Qed.

Lemma begin_traced q s : traced s -> traced (begin q s).
Proof.
  intros Hs. unfold begin. case_bool_decide; [by apply reply_traced|].
  set (s1 := recordCacheOutcome _ _). assert (traced s1) as Hs1 by (destruct Hs; by split).
  destruct (log_traced (LExec q (mw_now s1)) s1 Hs1 I). split; try done. simpl. apply Forall_app. split; [done|].
  constructor; [|constructor]. exists (mw_now s1). apply elem_of_app. by right; left.
Qed.

Lemma settle_traced ok q o s :
  traced s -> match o with Some r => known (mw_log s) (kq_key q) r | None => True end -> traced (settle config ok q o s).
Proof.
  intros Hs Ho. unfold settle. destruct o as [r|]; [|by apply begin_traced].
  destruct (match ir_scope r with Some p => _ | None => false end) eqn:Esc; [by apply reply_traced|].
  destruct (ic_checkBodyFingerprint config && _) eqn:Efp; [by apply reply_traced|].
  destruct (Z.ltb_spec (mw_now s) (ir_expiresAt r)) as [Hlive|Hexp].
  - apply log_traced; [by destruct Hs|]. simpl. exists r. destruct Ho as [Hin Hk]. split_and!; try done.
    + destruct (ir_scope r) as [p|]; [right|by left]. apply negb_false_iff, bool_decide_eq_true in Esc. by subst.
    + intros Hc. rewrite Hc in Efp. simpl in Efp. by apply negb_false_iff, bool_decide_eq_true in Efp.
  - apply enqueue_traced; [|by destruct ok].
    assert (traced (mw_set_lru (SimpleLru.delete (kq_key q) (mw_lru s)) s)) as Hs1
      by (apply lru_traced; [done|]; apply Forall_jdel; by destruct Hs).
    destruct ok; [|done]. apply rows_traced; [done|]. apply Forall_jdel. by destruct Hs1.
Qed.

Lemma remember_traced q r s : traced s -> known (mw_log s) (kq_key q) r -> traced (remember config q r s).
Proof.
  intros Hs Hr. apply lru_traced; [done|]. unfold SimpleLru.set. apply Forall_drop, Forall_move; [done|by destruct Hs].
Qed.

Lemma get_traced k s r : traced s -> IdemStore.get k (mw_rows s) = Ok (Some r) -> known (mw_log s) k r.
Proof.
  intros Hs. unfold IdemStore.get. destruct (jget k (mw_rows s)) as [w|] eqn:E; [|done].
  apply jget_Some_elem in E. pose proof (tr_rows _ Hs) as HF. rewrite Forall_forall in HF.
  destruct (HF _ E) as (r' & Hok & Hw & Hk). simpl in Hw. subst w. rewrite record_of_row by done. by intros [= <-].
Qed.

Lemma lookup_traced ok q s : traced s -> traced (lookup config ok q s).
Proof.
  intros Hs. unfold lookup. destruct (SimpleLru.get _ _) as [c lru] eqn:E. unfold SimpleLru.get in E.
  pose proof (tr_lru _ Hs) as Hlru.
  assert (Forall (fun p => known (mw_log s) p.1 (ce_record p.2)) lru /\
          match c with Some e => known (mw_log s) (kq_key q) (ce_record e) | None => True end) as [Hlru' Hc].
  { destruct (jget (kq_key q) (mw_lru s)) as [e|] eqn:Ee; simplify_eq; [|done].
    apply jget_Some_elem in Ee. pose proof (proj1 (Forall_forall _ _) Hlru _ Ee) as He. simpl in He.
    split; [by apply Forall_move|done]. }
  set (s1 := mw_set_lru lru s). assert (traced s1) as Hs1 by by apply lru_traced.
  assert (traced (enqueue (PGet q (if ok then IdemStore.get (kq_key q) (mw_rows s1) else Err ())) s1)) as Hask.
  { apply enqueue_traced; [done|]. destruct ok; [|done]. simpl.
    destruct (IdemStore.get (kq_key q) (mw_rows s)) as [[r|]|] eqn:Eg; [|done..]. by apply (get_traced _ s). }
  destruct c as [e|]; [|done]. destruct (_ <? _); [by apply settle_traced|done].
Qed.

Lemma respond_traced ok p rest s :
  mw_queue s = p :: rest -> traced s -> traced (respond config ok p (mw_set_queue rest s)).
Proof.
  intros Hq Hs. assert (pend_known (mw_log s) p /\ traced (mw_set_queue rest s)) as [Hp Hs'].
  { destruct Hs. rewrite Hq in tr_queue0. apply Forall_cons in tr_queue0 as [? ?]. split; [done|by split]. }
  destruct p as [q [[r|]|[]]|q []|q r d]; cbn [respond].
  - apply settle_traced; [by apply remember_traced|done].
  - by apply settle_traced.
  - by apply reply_traced.
  - by apply begin_traced.
  - by apply reply_traced.
  - apply reply_traced; [done|]. set (s2 := if d then _ else _). assert (traced s2) as [] by (destruct d; [by apply remember_traced|done]).
    by split.
Qed.

Lemma finish_traced ok res pre q post s :
  mw_running s = (pre ++ q :: post)%list -> traced s -> traced (finish config ok q res (mw_set_running (pre ++ post) s)).
Proof.
  intros Hrun Hs. assert ((exists t, LExec q t ∈ mw_log s) /\ traced (mw_set_running (pre ++ post) s)) as [[t Ht] Hs'].
  { destruct Hs. rewrite Hrun in tr_running0. apply Forall_app in tr_running0 as [? [? ?]%Forall_cons].
    split; [done|]. split; try done. by apply Forall_app. }
  set (s1 := mw_set_running _ s) in *.
  assert (forall rep, match rep with RepReplay _ _ _ => False | _ => True end -> traced (reply q rep (release q s1))) as Hend.
  { intros rep Hrep. apply reply_traced; [done|]. destruct Hs'. by split. }
  unfold finish. destruct res as [r|]; [|by apply Hend]. case_bool_decide as Hst; [by apply Hend|].
  destruct (captureJsonResponse r) as [body|] eqn:Hb; [|by apply Hend].
  set (rec := record_for config q r body (mw_now s1)). destruct ok; [|by apply enqueue_traced].
  assert (known (mw_log s1 ++ [LStored rec]) (kq_key q) rec) as Hkn by (split; [apply elem_of_app; by right; left|done]).
  apply enqueue_traced; [|done].
  assert (traced (mw_add_log (LStored rec) s1)) as Hs2 by (apply log_traced; [done|]; right; by exists q, t).
  apply (rows_traced (IdemStore.put rec (mw_rows s1)) _ Hs2). unfold IdemStore.put. apply Forall_jset; [|by destruct Hs2].
  exists rec. split_and!; [by apply record_for_ok|done|done].
Qed.

Lemma step_traced sha256Hex excluded allowed s s' :
  istep sha256Hex config excluded allowed s s' -> traced s -> traced s'.
Proof.
  intros [id rq _|ok pre q post _|ok p rest Hq|ok res pre q post Hrun|t _|_] Hs.
  - unfold arrive. destruct (screen_request _ _ _ rq); [by apply reply_traced..|]. destruct Hs. by split.
  - apply lookup_traced. destruct Hs. by split.
  - by apply respond_traced.
  - by apply finish_traced.
  - destruct Hs. by split.
  - apply rows_traced; [done|]. simpl. destruct Hs. clear -tr_rows0. induction tr_rows0; simpl; [constructor|].
    destruct (negb _); [by constructor|done].
Qed.
End Replay.

Lemma served_traced sha256Hex config excluded allowed recs now s :
  Forall rec_ok recs -> served sha256Hex config excluded allowed recs now s -> traced config recs s.
Proof.
  intros Hok. induction 1 as [|s s' _ IH Hstep]; [|by eapply step_traced].
  split; simpl; try constructor.
  - apply Forall_forall. intros p (r & -> & Hr)%list_elem_of_fmap. exists r. rewrite Forall_forall in Hok.
    split_and!; [by apply Hok|done|]. split; [|done]. apply list_elem_of_fmap. by exists r.
  - intros l1 e l2 Heq. assert (e ∈ map LStored recs) as Hin by (rewrite Heq; apply elem_of_app; right; left).
    apply list_elem_of_fmap in Hin as (r & -> & Hr). by left.
Qed.

(** A replayed response is the response of the same request: whatever
    requests arrive and however they interleave, a reply marked as replayed
    carries the status, body and headers of an unexpired record that was stored
    for its key before, and that record comes from an earlier process or from
    an execution in this one with the same key, by the same principal and
    (when fingerprints are checked) with the same fingerprint, whose status is
    not one of the retryable ones. *)
Theorem replays_are_faithful sha256Hex config excluded allowed recs now s l1 id key principal fp t status body headers l2 :
  Forall rec_ok recs -> served sha256Hex config excluded allowed recs now s ->
  mw_log s = (l1 ++ LReply id key principal fp t (RepReplay status body headers) :: l2)%list ->
  exists r, LStored r ∈ l1 /\ ir_key r = key /\ t < ir_expiresAt r /\
    status = ir_statusCode r /\ body = JSON_stringify (ir_response r) /\ headers = ir_responseHeaders r /\
    (r ∈ recs \/
     exists q t', LExec q t' ∈ l1 /\ kq_key q = key /\ kq_principal q = principal /\
       (ic_checkBodyFingerprint config = true -> kq_fingerprint q = fp) /\ status ∉ NON_CACHEABLE_STATUS).
Proof.
  intros Hok Hs%served_traced Hlog; [|done]. pose proof (tr_log _ _ _ Hs) as Hj.
  destruct (Hj _ _ _ Hlog) as (r & Hr & Hk & Hsc & Hfp & Hlive & -> & -> & ->). exists r. split_and!; try done.
  apply list_elem_of_split in Hr as (a & b & ->). rewrite <- (assoc_L app) in Hlog. simpl in Hlog.
  destruct (Hj _ _ _ Hlog) as [?|(q & t' & Hq & Hkq & Hscq & Hfpq & Hst)]; [by left|right].
  exists q, t'. split_and!; [apply elem_of_app; by left|congruence| | |done].
  - destruct Hsc; congruence.
  - intros Hc. rewrite <- Hfpq. by apply Hfp.
Qed.

(** A retry that nothing else runs beside, with a working store. *)
Definition retry_alone (config : IdempotencyConfig) (q : Keyed) (s : Mw) : Mw :=
  let s1 := lookup config true q s in
  match mw_queue s1 with
  | p :: rest => respond config true p (mw_set_queue rest s1)
  | [] => s1
  end.

Lemma settle_live config ok q r s :
  match ir_scope r with Some p => negb (bool_decide (p = kq_principal q)) | None => false end = false ->
  ic_checkBodyFingerprint config && negb (bool_decide (ir_requestHash r = kq_fingerprint q)) = false ->
  mw_now s < ir_expiresAt r ->
  settle config ok q (Some r) s =
    reply q (RepReplay (ir_statusCode r) (JSON_stringify (ir_response r)) (ir_responseHeaders r)) (recordCacheOutcome true s).
Proof. intros H1 H2 H3. unfold settle. rewrite H1, H2. by rewrite (proj2 (Z.ltb_lt _ _) H3). Qed.

(** A retry within the lifetime of the record is answered from it: when a
    live record is stored for a key and no answer is pending, a retry of its
    request gets the recorded status, body and headers, and nothing is
    executed. *)
Theorem live_record_is_replayed sha256Hex config excluded owner recs now s q r :
  NoDup (map ir_key recs) -> Forall (fun r => rec_ok r /\ owned_r owner (ir_key r) r) recs ->
  served sha256Hex config excluded (retries_agree sha256Hex config excluded owner) recs now s ->
  owned_q owner q -> mw_queue s = [] ->
  LStored r ∈ mw_log s -> ir_key r = kq_key q -> mw_now s < ir_expiresAt r ->
  let s' := retry_alone config q s in
  mw_log s' = (mw_log s ++ [LReply (kq_id q) (kq_key q) (kq_principal q) (kq_fingerprint q) (mw_now s)
    (RepReplay (ir_statusCode r) (JSON_stringify (ir_response r)) (ir_responseHeaders r))])%list /\
  mw_running s' = mw_running s /\ mw_queue s' = [].
Proof.
  intros Hnd Hrecs Hs%served_good Hq Hempty Hr Hk Hlive s'; [|done..]. destruct (Hs (kq_key q)) as [Hg Hp].
  assert (stored (kq_key q) s = Some r) as Hst by (destruct (gb_log _ _ _ Hg r Hr); [congruence|lia]).
  destruct (store_get_good owner _ (kq_key q) s Hg) as [Hget Hown]. destruct (Hown r Hst) as (Hor & _).
  destruct (owner_passes owner config q r Hq Hor) as [H1 H2]. unfold ph in Hp. rewrite Hst in Hp.
  assert (forall r', cached (kq_key q) s = Some r' -> r' = r) as Hca by (destruct Hp as [[]| |]; [auto|done|congruence]).
  unfold s', retry_alone, lookup. destruct (SimpleLru.get _ _) as [c lru] eqn:E.
  destruct (lru_get_spec _ _ _ _ E (gb_lru _ _ _ Hg)) as (-> & _ & _). unfold cached in Hca.
  cbn [mw_now mw_set_lru mw_rows]. rewrite Hget, Hst. destruct (jget (kq_key q) (mw_lru s)) as [e|].
  - destruct (mw_now s - ce_cachedAt e <? LRU_FRESH_MS); [rewrite (Hca _ eq_refl), settle_live by done; simpl; by rewrite Hempty|].
    unfold enqueue. cbn [mw_queue mw_set_queue mw_set_lru]. rewrite Hempty. cbn [app respond]. by rewrite settle_live.
  - unfold enqueue. cbn [mw_queue mw_set_queue mw_set_lru]. rewrite Hempty. cbn [app respond]. by rewrite settle_live.
Qed.

(** The fingerprint identifies the request: provided the two texts do not
    collide under SHA-256, two requests have the same fingerprint exactly when
    they have the same method (in any case) and path and their bodies are equal
    up to the order of object properties.  (Methods have no space, paths no
    line break; bodies have no property named [__proto__].) *)
Theorem fingerprint_identifies_request sha256Hex m p a m' p' b :
  has_char " " (str_upper m) = false -> has_char " " (str_upper m') = false ->
  has_char "010" p = false -> has_char "010" p' = false ->
  body_ok a = true -> body_ok b = true ->
  (let text m p v := str_upper m +:+ " " +:+ p +:+ String "010" (canonicalBody v) in
   sha256Hex (text m p a) = sha256Hex (text m' p' b) -> text m p a = text m' p' b) ->
  fingerprintRequest sha256Hex m p a = fingerprintRequest sha256Hex m' p' b <->
  str_upper m = str_upper m' /\ p = p' /\ same_value a b.
Proof.
  intros Hm Hm' Hp Hp' Ha Hb Hcf. unfold fingerprintRequest. split.
  - intros Htext%Hcf. apply str_split_unique in Htext as [Hmeth Htext]; [|done..].
    apply str_split_unique in Htext as [Hpath Htext]; [|done..]. split_and!; [done..|].
    apply canonicalize_same; [done..|]. unfold canonicalBody in Htext.
    apply (f_equal JSON_parse) in Htext. rewrite !plain_roundtrip in Htext by by apply canonicalize_plain. congruence.
  - intros (Hmeth & -> & Hsame). apply canonicalize_same in Hsame; [|done..]. unfold canonicalBody. by rewrite Hmeth, Hsame.
Qed.

(** ** Concrete runs *)

Inductive imove :=
| IArrive (id : nat) (rq : Request)
| ILook (i : nat) (ok : bool)
| IRespond (ok : bool)
| IFinish (i : nat) (res : option Response) (ok : bool)
| ITick (t : Z)
| ISweep.

Section Play.
Context (sha256Hex : string -> string) (config : IdempotencyConfig) (excluded : list string).

Definition iplay_move (m : imove) (s : Mw) : option Mw :=
  match m with
  | IArrive id rq => Some (arrive sha256Hex config excluded id rq s)
  | ILook i ok =>
      (fun q => lookup config ok q (mw_set_reading (take i (mw_reading s) ++ drop (S i) (mw_reading s))%list s)) <$> mw_reading s !! i
  | IRespond ok =>
      match mw_queue s with p :: rest => Some (respond config ok p (mw_set_queue rest s)) | [] => None end
  | IFinish i res ok =>
      (fun q => finish config ok q res (mw_set_running (take i (mw_running s) ++ drop (S i) (mw_running s))%list s)) <$> mw_running s !! i
  | ITick t => if mw_now s <=? t then Some (mw_set_now t s) else None
  | ISweep => match mw_queue s with [] => Some (sweep s) | _ => None end
  end.

Fixpoint iplay (ms : list imove) (s : Mw) : option Mw :=
  match ms with [] => Some s | m :: ms' => iplay_move m s ≫= iplay ms' end.

Definition arrivals (ms : list imove) : list Request := omap (fun m => match m with IArrive _ rq => Some rq | _ => None end) ms.

Lemma iplay_served allowed recs now ms s s' :
  Forall allowed (arrivals ms) -> served sha256Hex config excluded allowed recs now s -> iplay ms s = Some s' ->
  served sha256Hex config excluded allowed recs now s'.
Proof.
  revert s. induction ms as [|m ms IH]; intros s HF Hs; simpl; [by intros [= <-]|].
  destruct (iplay_move m s) as [s1|] eqn:E; [|done]. simpl.
  assert (istep sha256Hex config excluded allowed s s1 /\ Forall allowed (arrivals ms)) as [Hstep HF'].
  { destruct m as [id rq|i ok|ok|i res ok|t|]; simpl in E, HF.
    - apply Forall_cons in HF as [? ?]. simplify_eq. split; [by constructor|done].
    - split; [|done]. destruct (mw_reading s !! i) as [q|] eqn:Eq; simplify_eq/=. apply looks.
      by rewrite take_drop_middle.
    - split; [|done]. destruct (mw_queue s) as [|p rest] eqn:Eq; simplify_eq. by apply responds.
    - split; [|done]. destruct (mw_running s !! i) as [q|] eqn:Eq; simplify_eq/=. apply finishes.
      by rewrite take_drop_middle.
    - split; [|done]. destruct (Z.leb_spec (mw_now s) t); simplify_eq. by apply ticks.
    - split; [|done]. destruct (mw_queue s) eqn:Eq; simplify_eq. by apply sweeps. }
  apply IH; [done|]. by eapply served_step.
Qed.
End Play.

Definition demo_config : IdempotencyConfig := mkIdemConfig true RKWarn 86400 true 2.
Definition demo_hash (s : string) : string := s.

(** A run request, its retry with the properties in another order, and its
    response. *)
Definition demo_request (body token : string) : Request :=
  mkRequest "POST" "/v1/agents/a/run" (Some "key-00001") (Some "application/json") (Some body) (Some token).

Definition demo_body : string := JSON_stringify (VObj [("a", VNum (NFin 1)); ("b", VNum (NFin 2))]).
Definition demo_body' : string := JSON_stringify (VObj [("b", VNum (NFin 2)); ("a", VNum (NFin 1))]).

Definition demo_response : Response :=
  mkResponse 202 (Some (JSON_stringify (VObj [("runId", VStr "r1")]))) [("content-type", "application/json")].

Definition demo_fp : string := computeFingerprint demo_hash (demo_request demo_body "tok").

Definition demo_owner (_ : string) : string * string := ("tok", demo_fp).

(** Two concurrent retries: one executes, the other is refused; then a retry
    after a minute. *)
Definition demo_moves : list imove :=
  [IArrive 1 (demo_request demo_body "tok"); IArrive 2 (demo_request demo_body' "tok"); ILook 0 true; ILook 0 true;
   IRespond true; IRespond true; IFinish 0 (Some demo_response) true; IRespond true; ITick 60000;
   IArrive 3 (demo_request demo_body' "tok")].

Definition demo_end : Mw :=
  default (booted [] 0) (iplay demo_hash demo_config [] demo_moves (booted [] 0)).

Definition demo_end_replayed : Mw := default (booted [] 0) (iplay demo_hash demo_config [] [ILook 0 true] demo_end).

Lemma demo_served : served demo_hash demo_config [] (retries_agree demo_hash demo_config [] demo_owner) [] 0 demo_end.
Proof.
  unfold demo_end. destruct (iplay _ _ _ _ _) as [s|] eqn:E; [simpl|apply served_boot].
  eapply iplay_served; [|apply served_boot|exact E].
  assert (forall b, b = demo_body \/ b = demo_body' -> retries_agree demo_hash demo_config [] demo_owner (demo_request b "tok")) as H.
  { intros b [-> | ->] key fp pr Ha; vm_compute in Ha; injection Ha as <- <- <-; vm_compute; reflexivity. }
  repeat constructor; apply H; auto.
Qed.

(** C31: Retries of one request execute it once per lifetime of its record:
    whatever the interleaving of the requests, their bodies, executions and
    store answers, the clock and the sweeps, and whatever store operations
    fail, an execution under a key starts only after every record stored
    before it for that key (by this process or an earlier one) has expired, and
    no two executions of a key run at the same time.  The retries of a key are
    assumed to come from one principal with one body, and the store to answer its
    operations in the order they were asked. *)
Theorem retries_execute_once sha256Hex config excluded owner recs now s :
  NoDup (map ir_key recs) -> Forall (fun r => rec_ok r /\ owned_r owner (ir_key r) r) recs ->
  served sha256Hex config excluded (retries_agree sha256Hex config excluded owner) recs now s ->
  (forall l1 q t l2, mw_log s = (l1 ++ LExec q t :: l2)%list ->
   forall r, LStored r ∈ l1 -> ir_key r = kq_key q -> ir_expiresAt r <= t) /\
  NoDup (map kq_key (mw_running s)).
Proof.
  intros Hnd Hrecs Hs%served_good; [|done..]. split; [exact (gb_once _ _ _ (proj1 (Hs EmptyString)))|].
  assert (forall k, runs k s <= 1)%nat as Hruns.
  { intros k. destruct (Hs k) as [_ Hp]. unfold ph in Hp. by destruct Hp; lia. }
  unfold runs in Hruns. clear Hs. induction (mw_running s) as [|q qs IH]; simpl; [constructor|].
  apply NoDup_cons. split.
  - intros (q' & Heq & Hq')%list_elem_of_fmap. specialize (Hruns (kq_key q)). simpl in Hruns.
    rewrite bool_decide_true in Hruns by done. simpl in Hruns.
    assert (q' ∈ List.filter (fun q0 => bool_decide (kq_key q0 = kq_key q)) qs) as Hin.
    { rewrite list_elem_of_In, List.filter_In, <- list_elem_of_In. by rewrite bool_decide_true. }
    destruct (List.filter _ qs); [by apply not_elem_of_nil in Hin|simpl in Hruns; lia].
  - apply IH. intros k. specialize (Hruns k). simpl in Hruns. destruct (bool_decide _); simpl in Hruns; lia.
Qed.

Lemma retries_execute_once_witness :
  map (fun e => match e with LExec _ _ => true | _ => false end) (mw_log demo_end) = [true; false; false; false] /\
  NoDup (map kq_key (mw_running demo_end)).
Proof.
  split; [vm_compute; reflexivity|].
  apply (retries_execute_once demo_hash demo_config [] demo_owner [] 0 demo_end); [constructor..|exact demo_served].
Defined.

Definition demo_retry : Keyed := mkKeyed 3 "key-00001" demo_fp "tok".

Lemma demo_end_log : exists l1 l2 r, mw_log demo_end = (l1 ++ LStored r :: l2)%list /\ ir_key r = "key-00001" /\
  ir_expiresAt r = 86400000 /\ ir_statusCode r = 202.
Proof.
  assert (exists e1 e2 r e3, mw_log demo_end = [e1; e2; LStored r; e3] /\ ir_key r = "key-00001" /\
    ir_expiresAt r = 86400000 /\ ir_statusCode r = 202) as (e1 & e2 & r & e3 & E & H).
  { do 4 eexists. split; [vm_compute; reflexivity|]. vm_compute. auto. }
  exists [e1; e2], [e3], r. split; [exact E|exact H].
Qed.

Lemma live_record_is_replayed_witness :
  exists status body headers,
    mw_log (retry_alone demo_config demo_retry demo_end) =
      (mw_log demo_end ++ [LReply 3 "key-00001" "tok" demo_fp 60000 (RepReplay status body headers)])%list.
Proof.
  destruct demo_end_log as (l1 & l2 & r & Hlog & Hk & He & _).
  destruct (live_record_is_replayed demo_hash demo_config [] demo_owner [] 0 demo_end demo_retry r) as [H _].
  - constructor.
  - constructor.
  - exact demo_served.
  - reflexivity.
  - vm_compute. reflexivity.
  - rewrite Hlog. apply elem_of_app. right. left.
  - exact Hk.
  - rewrite He. vm_compute. reflexivity.
  - eexists _, _, _. exact H.
Defined.

Lemma replays_are_faithful_witness :
  exists r, LStored r ∈ mw_log demo_end /\ ir_key r = "key-00001" /\ 202 = ir_statusCode r.
Proof.
  assert (exists body headers, mw_log demo_end_replayed =
    (mw_log demo_end ++ LReply 3 "key-00001" "tok" demo_fp 60000 (RepReplay 202 body headers) :: [])%list) as (body & headers & E)
    by (do 2 eexists; vm_compute; reflexivity).
  assert (served demo_hash demo_config [] (fun _ => True) [] 0 demo_end_replayed) as Hs.
  { assert (iplay demo_hash demo_config [] (demo_moves ++ [ILook 0 true])%list (booted [] 0) = Some demo_end_replayed) as Hp
      by (vm_compute; reflexivity).
    eapply iplay_served; [|apply served_boot|exact Hp]. by apply Forall_true. }
  destruct (replays_are_faithful demo_hash demo_config [] (fun _ => True) [] 0 demo_end_replayed (mw_log demo_end) 3
    "key-00001" "tok" demo_fp 60000 202 body headers [] ltac:(constructor) Hs E) as (r & H1 & H2 & _ & H3 & _).
  exists r. auto.
Defined.

Lemma fingerprint_identifies_request_witness :
  same_value (VObj [("a", VNum (NFin 1)); ("b", VNum (NFin 2))]) (VObj [("b", VNum (NFin 2)); ("a", VNum (NFin 1))]).
Proof.
  apply (fingerprint_identifies_request demo_hash "post" "/v1/x" (VObj [("a", VNum (NFin 1)); ("b", VNum (NFin 2))])
           "POST" "/v1/x" (VObj [("b", VNum (NFin 2)); ("a", VNum (NFin 1))])); vm_compute; reflexivity.
Defined.

(** ** Deviations *)

(** Bodies that differ only in a property named [__proto__] have one
    fingerprint. *)
Example fingerprint_ignores_proto :
  canonicalBody (VObj [("__proto__", VObj [("admin", VBool true)])]) = canonicalBody (VObj []).
Proof. vm_compute. reflexivity. Qed.

(** A request under the key by another principal puts the expired record back
    into the cache; a retry that arrives while the new response is being
    recorded finds it, deletes the new record, and executes again. *)
Definition stranger_record : IdempotencyRecord :=
  mkIdem "key-00001" demo_fp 202 (VObj []) None (Some "tok") (-86400000) 0.

Definition stranger_moves : list imove :=
  [IArrive 1 (demo_request demo_body "tok"); IArrive 2 (demo_request demo_body "other"); ILook 0 true; ILook 0 true;
   IRespond true;   (* 1: expired, delete asked *)
   IRespond true;   (* 2: cached, refused *)
   IRespond true;   (* 1 executes *)
   IArrive 3 (demo_request demo_body "tok");
   IFinish 0 (Some demo_response) true;
   ILook 0 true;    (* 3: expired record from the cache, delete asked *)
   IRespond true;   (* 1 recorded *)
   IRespond true].  (* 3 executes *)

Example stranger_causes_second_execution :
  match iplay demo_hash demo_config [] stranger_moves (booted [stranger_record] 0) with
  | Some s => map (fun e => match e with LExec q t => Some (kq_id q, t) | _ => None end)
                (List.filter (fun e => match e with LExec _ _ => true | _ => false end) (mw_log s))
  | None => []
  end = [Some (1%nat, 0); Some (3%nat, 0)].
Proof. vm_compute. reflexivity. Qed.
