(* ===== verification/Subjects.v ===== *)
(** * Scopes and subjects

    [packages/security/src/auth/scope.ts] and
    [packages/server/src/ws/subjects.ts]: the scope grammar and its matching
    rule, the subject grammar, and the scope each subject requires. *)

From S2P Require Import Prelude.

Local Open Scope string_scope.

(** ** Scopes *)

Record ParsedScope := mkScope {
  sp_resource : string;
  sp_action : string;
  sp_target : option string;   (** [None]: a two-segment scope *)
  sp_raw : string;
}.

Inductive scope_reason := SEmpty | SSegments (n : nat) | SResource | SAction | STarget.
Inductive ScopeParseError := mkScopeError (input : string) (reason : scope_reason).

Definition in_range (lo hi : nat) (c : ascii) : bool := bool_decide (lo <= nat_of_ascii c <= hi).
Definition is_lower (c : ascii) : bool := in_range 97 122 c.
Definition is_upper (c : ascii) : bool := in_range 65 90 c.
Definition is_num (c : ascii) : bool := in_range 48 57 c.

Fixpoint all_chars (f : ascii -> bool) (s : string) : bool :=
  match s with EmptyString => true | String c s' => f c && all_chars f s' end.

Definition slug_char (c : ascii) : bool := is_lower c || is_num c || bool_decide (c = "-"%char).

Definition lower_slug (s : string) : bool :=
  match s with EmptyString => false | String c s' => is_lower c && all_chars slug_char s' end.

Definition RESOURCE_RE (s : string) : bool := lower_slug s && bool_decide (String.length s <= 32).
Definition ACTION_RE (s : string) : bool := lower_slug s || bool_decide (s = "*").

Definition target_char (c : ascii) : bool :=
  is_upper c || is_lower c || is_num c || bool_decide (c = "_"%char) || bool_decide (c = "."%char) || bool_decide (c = "-"%char).

Definition TARGET_RE (s : string) : bool :=
  (all_chars target_char s && bool_decide (1 <= String.length s <= 128)) || bool_decide (s = "*").

(** [s.split(c)] *)
Fixpoint split_char (sep : ascii) (s : string) : list string :=
  match s with
  | EmptyString => [EmptyString]
  | String c s' =>
      if decide (c = sep) then EmptyString :: split_char sep s'
      else match split_char sep s' with
           | w :: ws => String c w :: ws
           | [] => [String c EmptyString]
           end
  end.

Definition parseScope (input : string) : result ScopeParseError ParsedScope :=
  if decide (input = "") then Err (mkScopeError input SEmpty)
  else
    let segments := split_char ":" input in
    let parsed resource action target :=
      if negb (RESOURCE_RE resource) then Err (mkScopeError input SResource)
      else if negb (ACTION_RE action) then Err (mkScopeError input SAction)
      else match target with
           | None => Ok (mkScope resource action None input)
           | Some t => if negb (TARGET_RE t) then Err (mkScopeError input STarget)
                       else Ok (mkScope resource action (Some t) input)
           end in
    match segments with
    | [resource; action] => parsed resource action None
    | [resource; action; target] => parsed resource action (Some target)
    | _ => Err (mkScopeError input (SSegments (length segments)))
    end.

Definition tryParseScope (input : string) : option ParsedScope :=
  match parseScope input with Ok s => Some s | Err _ => None end.

Definition scopeMatches (granted required : ParsedScope) : bool :=
  if bool_decide (sp_resource granted = "admin") && bool_decide (sp_action granted = "*") then true
  else if negb (bool_decide (sp_resource granted = sp_resource required)) then false
  else if negb (bool_decide (sp_action granted = "*")) && negb (bool_decide (sp_action granted = sp_action required)) then false
  else
    match sp_target required, sp_target granted with
    | None, None => true
    | None, Some t => bool_decide (t = "*")
    | Some _, None => true
    | Some r, Some t => bool_decide (t = "*") || bool_decide (t = r)
    end.

Definition scopeSetMatches (granted : list string) (required : ParsedScope) : bool :=
  existsb (fun entry => match tryParseScope entry with Some g => scopeMatches g required | None => false end) granted.

Definition validateScopeSet (scopes : list string) : list ScopeParseError :=
  omap (fun s => match parseScope s with Err e => Some e | Ok _ => None end) scopes.

(** ** Subjects *)

Inductive ParsedSubject :=
| SessionEvents (sessionId : string)
| SessionRunEvents (sessionId runId : string)
| AgentRunEvents (agentId runId : string)
| WorkflowEvents (workflowId : string)
| WorkflowRunEvents (workflowId runId : string)
| MemoryConflicts
| AuditEvents.

Inductive subject_reason := WildcardNotSupported | UnknownSubject | Malformed.

(** [[A-Za-z0-9_-]] *)
Definition id_char (c : ascii) : bool :=
  is_upper c || is_lower c || is_num c || bool_decide (c = "_"%char) || bool_decide (c = "-"%char).

(** [[A-Za-z0-9_-]+], as much as there is, and the rest of the text. *)
Fixpoint take_id (s : string) : string * string :=
  match s with
  | EmptyString => (EmptyString, EmptyString)
  | String c s' => if id_char c then let '(w, r) := take_id s' in (String c w, r) else (EmptyString, s)
  end.

Definition match_id (s : string) : option (string * string) :=
  match take_id s with (EmptyString, _) => None | p => Some p end.

(** The text after a literal prefix. *)
Definition match_lit (p s : string) : option string :=
  if startsWith p s then Some (str_drop (String.length p) s) else None.

(** [^family:(id)/events$] *)
Definition match_events (family raw : string) : option string :=
  match_lit (family +:+ ":") raw ≫= fun r => match_id r ≫= fun '(i, r) =>
  if decide (r = "/events") then Some i else None.

(** [^family:(id)/runs/(id)/events$] *)
Definition match_run_events (family raw : string) : option (string * string) :=
  match_lit (family +:+ ":") raw ≫= fun r => match_id r ≫= fun '(i, r) =>
  match_lit "/runs/" r ≫= fun r => match_id r ≫= fun '(run, r) =>
  if decide (r = "/events") then Some (i, run) else None.

Definition tryParseSubject (raw : string) : result subject_reason ParsedSubject :=
  if decide (raw = "") then Err Malformed
  else if has_char "*" raw || has_char "#" raw then Err WildcardNotSupported
  else if decide (raw = "memory/conflicts") then Ok MemoryConflicts
  else if decide (raw = "audit/events") then Ok AuditEvents
  else
    match match_run_events "session" raw with
    | Some (i, run) => Ok (SessionRunEvents i run)
    | None =>
        match match_run_events "agent" raw with
        | Some (i, run) => Ok (AgentRunEvents i run)
        | None =>
            match match_events "session" raw with
            | Some i => Ok (SessionEvents i)
            | None =>
                match match_run_events "workflow" raw with
                | Some (i, run) => Ok (WorkflowRunEvents i run)
                | None =>
                    match match_events "workflow" raw with
                    | Some i => Ok (WorkflowEvents i)
                    | None => Err UnknownSubject
                    end
                end
            end
        end
    end.

Definition requiredScopeFor (s : ParsedSubject) : result ScopeParseError ParsedScope :=
  match s with
  | SessionEvents i | SessionRunEvents i _ => parseScope ("sessions:read:" +:+ i)
  | AgentRunEvents i _ => parseScope ("agents:read:" +:+ i)
  | WorkflowEvents i | WorkflowRunEvents i _ => parseScope ("workflows:read:" +:+ i)
  | MemoryConflicts => parseScope "memory:read"
  | AuditEvents => parseScope "audit:read"
  end.

Definition isSubjectAllowed (granted : list ParsedScope) (s : ParsedSubject) : result ScopeParseError bool :=
  rbind (requiredScopeFor s) (fun required => Ok (existsb (fun g => scopeMatches g required) granted)).

(** The client's [subjectFor], of [packages/client/src/graphorin-client.ts]. *)
Inductive SubscriptionTarget :=
| TSession (id : string)
| TAgent (id runId : string)
| TRun (runId : string) (sessionId : option string)
| TWorkflow (id : string) (runId : option string).

Definition assertNonEmpty (s : string) : result unit unit := if decide (s = "") then Err tt else Ok tt.

Definition subjectFor (t : SubscriptionTarget) : result unit string :=
  match t with
  | TSession i => rbind (assertNonEmpty i) (fun _ => Ok ("session:" +:+ i +:+ "/events"))
  | TAgent i run =>
      rbind (assertNonEmpty i) (fun _ => rbind (assertNonEmpty run) (fun _ =>
        Ok ("agent:" +:+ i +:+ "/runs/" +:+ run +:+ "/events")))
  | TRun run session =>
      rbind (assertNonEmpty run) (fun _ =>
        match session with
        | Some i => rbind (assertNonEmpty i) (fun _ => Ok ("session:" +:+ i +:+ "/runs/" +:+ run +:+ "/events"))
        | None => Err tt
        end)
  | TWorkflow i run =>
      rbind (assertNonEmpty i) (fun _ =>
        match run with
        | Some run => rbind (assertNonEmpty run) (fun _ => Ok ("workflow:" +:+ i +:+ "/runs/" +:+ run +:+ "/events"))
        | None => Ok ("workflow:" +:+ i +:+ "/events")
        end)
  end.

(** ** The grammar *)

Definition subject_text (s : ParsedSubject) : string :=
  match s with
  | SessionEvents i => "session:" +:+ i +:+ "/events"
  | SessionRunEvents i r => "session:" +:+ i +:+ "/runs/" +:+ r +:+ "/events"
  | AgentRunEvents i r => "agent:" +:+ i +:+ "/runs/" +:+ r +:+ "/events"
  | WorkflowEvents i => "workflow:" +:+ i +:+ "/events"
  | WorkflowRunEvents i r => "workflow:" +:+ i +:+ "/runs/" +:+ r +:+ "/events"
  | MemoryConflicts => "memory/conflicts"
  | AuditEvents => "audit/events"
  end.

Definition good_id (s : string) : Prop := s <> "" /\ all_chars id_char s = true.

Definition subject_ok (s : ParsedSubject) : Prop :=
  match s with
  | SessionEvents i | WorkflowEvents i => good_id i
  | SessionRunEvents i r | AgentRunEvents i r | WorkflowRunEvents i r => good_id i /\ good_id r
  | MemoryConflicts | AuditEvents => True
  end.

(** *** Matching *)

Lemma match_lit_spec p s r : match_lit p s = Some r <-> s = p +:+ r.
Proof.
  unfold match_lit. split.
  - destruct (startsWith p s) eqn:E; [|done]. intros [= <-]. destruct (startsWith_spec p s E) as [r ->].
    by rewrite str_drop_app.
  - intros ->. by rewrite startsWith_app, str_drop_app.
Qed.

Lemma take_id_spec s w r : take_id s = (w, r) -> s = w +:+ r /\ all_chars id_char w = true.
Proof.
  revert w r. induction s as [|c s IH]; simpl; intros w r H; [by simplify_eq|].
  destruct (id_char c) eqn:E; [|by simplify_eq]. destruct (take_id s) as [w' r'] eqn:E2. simplify_eq.
  destruct (IH _ _ eq_refl) as [-> Hw]. rewrite str_app_cons. simpl. by rewrite E, Hw.
Qed.

Lemma take_id_app w r :
  all_chars id_char w = true -> match r with String c _ => id_char c = false | EmptyString => True end ->
  take_id (w +:+ r) = (w, r).
Proof.
  intros Hw Hr. induction w as [|c w IH]; simpl in *; rewrite ?str_app_nil_l, ?str_app_cons.
  - destruct r as [|c r]; simpl; [done|]. by rewrite Hr.
  - apply andb_true_iff in Hw as [Hc Hw]. simpl. by rewrite Hc, IH.
Qed.

Lemma match_id_spec s w r : match_id s = Some (w, r) -> s = w +:+ r /\ good_id w.
Proof.
  unfold match_id. destruct (take_id s) as [w' r'] eqn:E. destruct (take_id_spec _ _ _ E) as [-> Hw].
  destruct w'; [done|]. intros [= <- <-]. split; [done|]. split; [done|exact Hw].
Qed.

Lemma match_id_app w r :
  good_id w -> match r with String c _ => id_char c = false | EmptyString => True end -> match_id (w +:+ r) = Some (w, r).
Proof. intros [Hne Hw] Hr. unfold match_id. rewrite take_id_app by done. by destruct w. Qed.

Lemma match_events_spec f raw i :
  match_events f raw = Some i <-> raw = f +:+ ":" +:+ i +:+ "/events" /\ good_id i.
Proof.
  unfold match_events. split.
  - destruct (match_lit (f +:+ ":") raw) as [r1|] eqn:E1; [|done]. simpl. apply match_lit_spec in E1 as ->.
    destruct (match_id r1) as [[w r2]|] eqn:E2; [|done]. simpl. apply match_id_spec in E2 as [-> Hw].
    case_decide; [|done]. intros [= ->]. subst. by rewrite str_app_assoc.
  - intros [-> Hi]. rewrite (proj2 (match_lit_spec (f +:+ ":") _ (i +:+ "/events"))) by by rewrite str_app_assoc.
    simpl. rewrite match_id_app by done. done.
Qed.

Lemma match_run_events_spec f raw i run :
  match_run_events f raw = Some (i, run) <->
  raw = f +:+ ":" +:+ i +:+ "/runs/" +:+ run +:+ "/events" /\ good_id i /\ good_id run.
Proof.
  unfold match_run_events. split.
  - destruct (match_lit (f +:+ ":") raw) as [r1|] eqn:E1; [|done]. simpl. apply match_lit_spec in E1 as ->.
    destruct (match_id r1) as [[w r2]|] eqn:E2; [|done]. simpl. apply match_id_spec in E2 as [-> Hw].
    destruct (match_lit "/runs/" r2) as [r3|] eqn:E3; [|done]. simpl. apply match_lit_spec in E3 as ->.
    destruct (match_id r3) as [[w' r4]|] eqn:E4; [|done]. simpl. apply match_id_spec in E4 as [-> Hw'].
    case_decide; [|done]. intros [= -> ->]. subst. by rewrite str_app_assoc.
  - intros (-> & Hi & Hr).
    rewrite (proj2 (match_lit_spec (f +:+ ":") _ (i +:+ "/runs/" +:+ run +:+ "/events"))) by by rewrite str_app_assoc.
    cbn [mbind option_bind]. rewrite match_id_app by done. cbn [mbind option_bind].
    rewrite (proj2 (match_lit_spec "/runs/" _ (run +:+ "/events"))) by done. cbn [mbind option_bind].
    rewrite match_id_app by done. done.
Qed.

(** *** Families are told apart *)

Lemma good_id_no_char c i : id_char c = false -> good_id i -> has_char c i = false.
Proof.
  intros Hc [_ Hi]. induction i as [|x i IH]; simpl in *; [done|]. apply andb_true_iff in Hi as [Hx Hi].
  rewrite IH by done. rewrite bool_decide_false; [done|]. by intros ->; congruence.
Qed.

Lemma has_char_app c a b : has_char c (a +:+ b) = has_char c a || has_char c b.
Proof. induction a as [|x a IH]; [done|]. rewrite str_app_cons. simpl. by rewrite IH, orb_assoc. Qed.

Lemma subject_text_plain s : subject_ok s -> has_char "*" (subject_text s) = false /\ has_char "#" (subject_text s) = false.
Proof.
  assert (forall i, good_id i -> has_char "*" i = false /\ has_char "#" i = false) as Hid
    by (intros i Hi; split; by apply good_id_no_char).
  destruct s; simpl; intros Hok;
    repeat match goal with
    | H : _ /\ _ |- _ => destruct H
    | H : good_id ?i |- _ => pose proof (proj1 (Hid i H)); pose proof (proj2 (Hid i H)); clear H
    end; rewrite ?has_char_app; simpl;
    repeat match goal with H : has_char _ _ = false |- _ => rewrite H; clear H end; done.
Qed.

Lemma family_events_run f i f' i' r :
  has_char ":" f = false -> has_char ":" f' = false -> good_id i -> good_id i' ->
  f +:+ ":" +:+ i +:+ "/events" = f' +:+ ":" +:+ i' +:+ "/runs/" +:+ r +:+ "/events" -> False.
Proof.
  intros Hf Hf' Hi Hi' H. apply str_split_unique in H as [_ H]; [|done..].
  apply str_split_unique in H as [_ H]; [done|by apply good_id_no_char..].
Qed.

Lemma family_text_inj f x f' x' :
  has_char ":" f = false -> has_char ":" f' = false -> f +:+ ":" +:+ x = f' +:+ ":" +:+ x' -> f = f' /\ x = x'.
Proof. intros Hf Hf' H. by apply str_split_unique in H. Qed.

(** Refute an equation between texts of different forms. *)
Ltac other_family H f := apply (family_text_inj f _ _ _ eq_refl eq_refl) in H as [? ?]; discriminate.
Ltac other_form H :=
  first [ other_family H "session" | other_family H "agent" | other_family H "workflow"
        | by eapply (family_events_run "session" _ "session") in H
        | by eapply (family_events_run "workflow" _ "workflow") in H
        | symmetry in H; by eapply (family_events_run "session" _ "session") in H
        | symmetry in H; by eapply (family_events_run "workflow" _ "workflow") in H ].

(** A match of another form is impossible. *)
Lemma run_events_None f raw :
  (forall i r, good_id i -> good_id r -> raw <> f +:+ ":" +:+ i +:+ "/runs/" +:+ r +:+ "/events") ->
  match_run_events f raw = None.
Proof.
  intros H. destruct (match_run_events f raw) as [[i r]|] eqn:E; [|done].
  apply match_run_events_spec in E as (-> & Hi & Hr). by destruct (H i r).
Qed.

Lemma events_None f raw :
  (forall i, good_id i -> raw <> f +:+ ":" +:+ i +:+ "/events") -> match_events f raw = None.
Proof.
  intros H. destruct (match_events f raw) as [i|] eqn:E; [|done]. apply match_events_spec in E as [-> Hi]. by destruct (H i).
Qed.

Lemma parse_subject_text s : subject_ok s -> tryParseSubject (subject_text s) = Ok s.
Proof.
  intros Hok. destruct (subject_text_plain s Hok) as [H1 H2]. unfold tryParseSubject. rewrite H1, H2.
  destruct s as [i|i r|i r|i|i r| |]; simpl in Hok; cbn [subject_text orb]; try done;
    rewrite !decide_False by (intros Heq; vm_compute in Heq; discriminate).
  all: try rewrite (run_events_None "session") by (intros i' r' Hi' Hr' Heq; other_form Heq).
  all: try rewrite (run_events_None "agent") by (intros i' r' Hi' Hr' Heq; other_form Heq).
  all: try rewrite (events_None "session") by (intros i' Hi' Heq; other_form Heq).
  all: try rewrite (run_events_None "workflow") by (intros i' r' Hi' Hr' Heq; other_form Heq).
  - by rewrite (proj2 (match_events_spec "session" _ i)).
  - by rewrite (proj2 (match_run_events_spec "session" _ i r)).
  - by rewrite (proj2 (match_run_events_spec "agent" _ i r)).
  - by rewrite (proj2 (match_events_spec "workflow" _ i)).
  - by rewrite (proj2 (match_run_events_spec "workflow" _ i r)).
Qed.

(** The subject parser accepts exactly the documented subjects and reads
    them back: a text parses to a subject if and only if it is that subject's
    text and its identifiers are non-empty words of the identifier alphabet. *)
Theorem subjects_parse_exactly raw s :
  tryParseSubject raw = Ok s <-> raw = subject_text s /\ subject_ok s.
Proof.
  split; [|intros [-> Hok]; by apply parse_subject_text].
  unfold tryParseSubject. case_decide; [done|]. destruct (_ || _); [done|].
  case_decide; [intros [= <-]; by subst|]. case_decide; [intros [= <-]; by subst|].
  destruct (match_run_events "session" raw) as [[i r]|] eqn:E1;
    [intros [= <-]; by apply match_run_events_spec in E1 as (-> & ? & ?)|].
  destruct (match_run_events "agent" raw) as [[i r]|] eqn:E2;
    [intros [= <-]; by apply match_run_events_spec in E2 as (-> & ? & ?)|].
  destruct (match_events "session" raw) as [i|] eqn:E3;
    [intros [= <-]; by apply match_events_spec in E3 as (-> & ?)|].
  destruct (match_run_events "workflow" raw) as [[i r]|] eqn:E4;
    [intros [= <-]; by apply match_run_events_spec in E4 as (-> & ? & ?)|].
  destruct (match_events "workflow" raw) as [i|] eqn:E5; [|done].
  intros [= <-]. by apply match_events_spec in E5 as (-> & ?).
Qed.

(** ** Scopes as an order *)

Lemma scopeMatches_spec g r :
  scopeMatches g r = true <->
  (sp_resource g = "admin" /\ sp_action g = "*") \/
  (sp_resource g = sp_resource r /\ (sp_action g = "*" \/ sp_action g = sp_action r) /\
   (sp_target g = None \/ sp_target g = Some "*" \/ (sp_target r <> None /\ sp_target g = sp_target r))).
Proof.
  unfold scopeMatches.
  repeat (case_bool_decide || case_match); simpl; repeat case_bool_decide; simpl; naive_solver.
Qed.

(** Scope matching is a preorder, so a grant that covers a grant covers all
    that it covers: tokens narrowed step by step never gain authority. *)
Theorem scope_matching_is_preorder g m r :
  scopeMatches g g = true /\
  (scopeMatches g m = true -> scopeMatches m r = true -> scopeMatches g r = true).
Proof.
  rewrite !scopeMatches_spec. split.
  - right. split; [done|]. split; [by right|]. destruct (sp_target g); [right; by right|by left].
  - intros [?|(Hr1 & Ha1 & Ht1)]; [by left|]. intros [[Hr2 Ha2]|(Hr2 & Ha2 & Ht2)].
    + left. split; [congruence|]. destruct Ha1; congruence.
    + right. split; [congruence|]. split.
      * destruct Ha1 as [?|Ha1]; [by left|]. rewrite Ha1. destruct Ha2; [by left|by right].
      * destruct Ht1 as [?|[?|[Hm Ht1]]]; [by left|right; by left|]. rewrite Ht1. exact Ht2.
Qed.

Lemma scope_matching_is_preorder_witness :
  let s r a t := mkScope r a t "" in
  scopeMatches (s "agents" "*" None) (s "agents" "read" (Some "a1")) = true.
Proof.
  intros s. apply (scope_matching_is_preorder (s "agents" "*" None) (s "agents" "read" (Some "*")) (s "agents" "read" (Some "a1"))).
  - reflexivity.
  - reflexivity.
Defined.

(** A grant of the admin wildcard for one target covers everything. *)
Example admin_target_is_ignored :
  match parseScope "admin:*:readonly", parseScope "tokens:create" with
  | Ok g, Ok r => scopeMatches g r
  | _, _ => false
  end = true.
Proof. vm_compute. reflexivity. Qed.

(** An identifier the subject grammar accepts and the scope grammar refuses. *)
Fixpoint repeat_char (n : nat) : string := match n with O => EmptyString | S n' => String "a" (repeat_char n') end.

Example long_subject_id_throws :
  match tryParseSubject ("session:" +:+ repeat_char 129 +:+ "/events") with
  | Ok s => match requiredScopeFor s with Err (mkScopeError _ STarget) => true | _ => false end
  | Err _ => false
  end = true.
Proof. vm_compute. reflexivity. Qed.
