(* ===== verification/ReplayBuffer.v ===== *)
(** * The replay buffer

    [packages/server/src/ws/replay-buffer.ts]: bounded, expiring per-subject
    lists of event frames, from which a reconnecting client catches up; and the
    abstract specification it implements, a function of the whole history of
    each subject. *)

From S2P Require Import Prelude JsValue.

Local Open Scope string_scope.
Local Open Scope Z_scope.

(** [ServerEventFrame], of [packages/protocol/src/server-message.ts] *)
Record EventFrame := mkFrame {
  fr_eventId : string;
  fr_subscriptionId : string;
  fr_subject : string;
  fr_type : string;
  fr_payload : value;
}.

Record BufferedEvent := mkBuffered { be_event : EventFrame; be_at : Z }.

Record ReplayBufferSlice := mkSlice {
  sl_events : list EventFrame;
  sl_droppedCount : Z;
  sl_nextEventIdHint : option string;
}.

(** The two maps of [createReplayBuffer]. *)
Record ReplayBuffer := mkBuffer {
  rb_buffers : list (string * list BufferedEvent);
  rb_dropped : list (string * Z);
}.

Definition empty_buffer : ReplayBuffer := mkBuffer [] [].

Section Buffer.
Context (maxEvents ttlMs : Z).

(** How many leading entries are older than [cutoff]. *)
Fixpoint cutoff_index (cutoff : Z) (l : list BufferedEvent) : nat :=
  match l with
  | [] => 0
  | e :: l' => if cutoff <=? be_at e then 0 else S (cutoff_index cutoff l')
  end.

Definition add_dropped (subject : string) (n : nat) (b : ReplayBuffer) : list (string * Z) :=
  jset subject (default 0 (jget subject (rb_dropped b)) + Z.of_nat n) (rb_dropped b).

Definition pruneSubject (now : Z) (subject : string) (b : ReplayBuffer) : ReplayBuffer :=
  match jget subject (rb_buffers b) with
  | None | Some [] => b
  | Some l =>
      let n := cutoff_index (now - ttlMs) l in
      let l' := drop n l in
      let b := if decide (n = 0%nat) then b else mkBuffer (jset subject l' (rb_buffers b)) (add_dropped subject n b) in
      match l' with
      | [] => mkBuffer (jdel subject (rb_buffers b)) (jdel subject (rb_dropped b))
      | _ => b
      end
  end.

Definition push (now : Z) (subject : string) (event : EventFrame) (b : ReplayBuffer) : ReplayBuffer :=
  let b := pruneSubject now subject b in
  let l := (default [] (jget subject (rb_buffers b)) ++ [mkBuffered event now])%list in
  if maxEvents <? Z.of_nat (length l) then
    let overflow := Z.to_nat (Z.of_nat (length l) - maxEvents) in
    mkBuffer (jset subject (drop overflow l) (rb_buffers b)) (add_dropped subject overflow b)
  else mkBuffer (jset subject l (rb_buffers b)) (rb_dropped b).

(** The entries after the first with the given id. *)
Fixpoint after_id (id : string) (l : list BufferedEvent) : option (list BufferedEvent) :=
  match l with
  | [] => None
  | e :: l' => if decide (fr_eventId (be_event e) = id) then Some l' else after_id id l'
  end.

Definition last_id (l : list EventFrame) : option string := fr_eventId <$> last l.

Definition replay (now : Z) (subject : string) (since : option string) (b : ReplayBuffer) :
    ReplayBufferSlice * ReplayBuffer :=
  let b := pruneSubject now subject b in
  let l := default [] (jget subject (rb_buffers b)) in
  let droppedCount := default 0 (jget subject (rb_dropped b)) in
  let all := map be_event l in
  let slice :=
    match since with
    | None => mkSlice all droppedCount (last_id all)
    | Some id =>
        match after_id id l with
        | None => mkSlice all (Z.max droppedCount 1) (last_id all)
        | Some rest => mkSlice (map be_event rest) 0 (last_id (map be_event rest))
        end
    end in
  (slice, b).

Definition size (now : Z) (subject : string) (b : ReplayBuffer) : nat * ReplayBuffer :=
  let b := pruneSubject now subject b in (length (default [] (jget subject (rb_buffers b))), b).

Definition forget (subject : string) (b : ReplayBuffer) : ReplayBuffer :=
  mkBuffer (jdel subject (rb_buffers b)) (jdel subject (rb_dropped b)).

Definition prune (now : Z) (b : ReplayBuffer) : ReplayBuffer :=
  foldl (fun b subject => pruneSubject now subject b) b (jkeys (rb_buffers b)).

Definition stats (b : ReplayBuffer) : nat * nat :=
  (length (rb_buffers b), sum_list (map (fun p => length p.2) (rb_buffers b))).

(** ** Specification

    The state is the history of every subject; what a client can catch up on
    is a function of it. *)

Definition lastN {A} (n : Z) (l : list A) : list A := drop (length l - Z.to_nat n) l.

Definition retained (now : Z) (h : list BufferedEvent) : list BufferedEvent :=
  List.filter (fun e => now - ttlMs <=? be_at e) (lastN maxEvents h).

Inductive rb_op :=
| RPush (subject : string) (event : EventFrame)
| RReplay (subject : string) (since : option string)
| RSize (subject : string)
| RForget (subject : string)
| RPrune.

(** What a caller sees: the frames with the hint, and whether a gap is
    signalled to a client that sent a cursor. *)
Inductive rb_reply :=
| RNothing
| RSlice (events : list EventFrame) (hint : option string) (gap : bool)
| RCount (n : nat).

Definition seen (since : option string) (s : ReplayBufferSlice) : rb_reply :=
  RSlice (sl_events s) (sl_nextEventIdHint s)
    match since with Some _ => 0 <? sl_droppedCount s | None => false end.

Definition impl_step (now : Z) (o : rb_op) (b : ReplayBuffer) : rb_reply * ReplayBuffer :=
  match o with
  | RPush s e => (RNothing, push now s e b)
  | RReplay s since => let '(r, b) := replay now s since b in (seen since r, b)
  | RSize s => let '(n, b) := size now s b in (RCount n, b)
  | RForget s => (RNothing, forget s b)
  | RPrune => (RNothing, prune now b)
  end.

Definition History := list (string * list BufferedEvent).

Definition spec_step (now : Z) (o : rb_op) (h : History) : rb_reply * History :=
  match o with
  | RPush s e => (RNothing, jset s (default [] (jget s h) ++ [mkBuffered e now])%list h)
  | RReplay s since =>
      let kept := retained now (default [] (jget s h)) in
      (match since ≫= fun id => after_id id kept with
       | Some rest => RSlice (map be_event rest) (last_id (map be_event rest)) false
       | None => RSlice (map be_event kept) (last_id (map be_event kept)) (bool_decide (is_Some since))
       end, h)
  | RSize s => (RCount (length (retained now (default [] (jget s h)))), h)
  | RForget s => (RNothing, jdel s h)
  | RPrune => (RNothing, h)
  end.

Fixpoint run {S} (step : Z -> rb_op -> S -> rb_reply * S) (ops : list (Z * rb_op)) (s : S) : list rb_reply :=
  match ops with
  | [] => []
  | (now, o) :: ops' => let '(r, s') := step now o s in r :: run step ops' s'
  end.

(** ** Simulation *)

Definition buffer_of (s : string) (b : ReplayBuffer) : list BufferedEvent := default [] (jget s (rb_buffers b)).
Definition history_of (s : string) (h : History) : list BufferedEvent := default [] (jget s h).

Definition ascending (now : Z) (l : list BufferedEvent) : Prop :=
  (forall i j x y, (i < j)%nat -> l !! i = Some x -> l !! j = Some y -> be_at x <= be_at y) /\
  (forall x, x ∈ l -> be_at x <= now).

(** One subject's buffer is the end of its history; what is missing has expired,
    unless the buffer is full. *)
Record linked (now : Z) (l h : list BufferedEvent) (dropped : Z) : Prop := {
  lk_asc : ascending now h;
  lk_suffix : exists pre, h = (pre ++ l)%list /\
    (Z.of_nat (length l) = maxEvents \/ forall x, x ∈ pre -> be_at x < now - ttlMs);
  lk_bound : Z.of_nat (length l) <= maxEvents;
  lk_dropped : 0 <= dropped;
}.

Definition related (now : Z) (b : ReplayBuffer) (h : History) : Prop :=
  forall s, linked now (buffer_of s b) (history_of s h) (default 0 (jget s (rb_dropped b))).

Lemma cutoff_index_spec cutoff l :
  (forall x, x ∈ take (cutoff_index cutoff l) l -> be_at x < cutoff) /\
  (forall x, head (drop (cutoff_index cutoff l) l) = Some x -> cutoff <= be_at x).
Proof.
  induction l as [|e l [IH1 IH2]]; simpl; [split; [by intros x ?%not_elem_of_nil|done]|].
  destruct (Z.leb_spec cutoff (be_at e)); simpl.
  - split; [by intros x ?%not_elem_of_nil|by intros x [= <-]].
  - split; [|done]. intros x [->|?]%elem_of_cons; [lia|by apply IH1].
Qed.

Lemma ascending_app now a b : ascending now (a ++ b) -> ascending now b /\ forall x y, x ∈ a -> y ∈ b -> be_at x <= be_at y.
Proof.
  intros [H1 H2]. split; [split|].
  - intros i j x y Hij Hx Hy. apply (H1 (length a + i) (length a + j) x y)%nat; [lia|..];
      rewrite lookup_app_r by lia; [replace (length a + i - length a)%nat with i by lia|replace (length a + j - length a)%nat with j by lia]; done.
  - intros x Hx. apply H2. apply elem_of_app. by right.
  - intros x y [i Hi]%list_elem_of_lookup_1 [j Hj]%list_elem_of_lookup_1. apply lookup_lt_Some in Hi as Hlt.
    apply (H1 i (length a + j) x y)%nat; [lia|by apply lookup_app_l_Some|].
    rewrite lookup_app_r by lia. by replace (length a + j - length a)%nat with j by lia.
Qed.

Context (Hmax : 1 <= maxEvents).

(** After pruning, the buffer holds exactly the retained part of the history. *)
Lemma prune_retained now l h dropped :
  linked now l h dropped -> drop (cutoff_index (now - ttlMs) l) l = retained now h.
Proof using Hmax.
  intros [Hasc (pre & -> & Hpre) Hb _]. destruct (cutoff_index_spec (now - ttlMs) l) as [Hold Hnew].
  set (n := cutoff_index (now - ttlMs) l) in *.
  assert (forall q r : list BufferedEvent, (forall x, x ∈ q -> be_at x < now - ttlMs) ->
            List.filter (fun e => now - ttlMs <=? be_at e) (q ++ r) = List.filter (fun e => now - ttlMs <=? be_at e) r) as Hdrop.
  { intros q r Hq. induction q as [|x q IH]; [done|]. simpl.
    rewrite (proj2 (Z.leb_gt _ _)) by (apply Hq; by left). apply IH. intros y Hy. apply Hq. by right. }
  assert (List.filter (fun e => now - ttlMs <=? be_at e) (drop n l) = drop n l) as Hkeep.
  { destruct (ascending_app _ _ _ Hasc) as [Hl _]. rewrite <- (take_drop n l) in Hl.
    destruct (ascending_app _ _ _ Hl) as [[Hd _] _]. destruct (drop n l) as [|e r] eqn:E; [done|].
    specialize (Hnew e eq_refl). assert (forall x, x ∈ e :: r -> now - ttlMs <= be_at x) as Hall.
    { intros x [->|[i Hi]%list_elem_of_lookup_1]%elem_of_cons; [done|]. specialize (Hd 0%nat (S i) e x ltac:(lia) eq_refl Hi). lia. }
    clear -Hall. induction (e :: r) as [|x q IH]; [done|]. simpl.
    rewrite (proj2 (Z.leb_le _ _)) by (apply Hall; by left). f_equal. apply IH. intros y Hy. apply Hall. by right. }
  unfold retained, lastN. rewrite length_app. rewrite drop_app.
  assert (length pre + length l - Z.to_nat maxEvents <= length pre)%nat as Hle by lia.
  replace (length pre + length l - Z.to_nat maxEvents - length pre)%nat with 0%nat by lia. rewrite drop_0.
  rewrite Hdrop.
  - rewrite <- (take_drop n l) at 2. rewrite Hdrop by done. by rewrite Hkeep.
  - intros x Hx. destruct Hpre as [Hfull|Hpre].
    + replace (length pre + length l - Z.to_nat maxEvents)%nat with (length pre) in Hx by lia.
      by rewrite drop_all in Hx; apply not_elem_of_nil in Hx.
    + apply Hpre. rewrite <- (take_drop (length pre + length l - Z.to_nat maxEvents) pre). apply elem_of_app. by right.
Qed.
Lemma linked_later now now' l h d : now <= now' -> linked now l h d -> linked now' l h d.
Proof using Hmax.
  intros Hle [[Ha Hn] (pre & -> & Hpre) Hb Hd]. split; [|exists pre; split; [done|]|done|done].
  - split; [exact Ha|]. intros x Hx. specialize (Hn x Hx). lia.
  - destruct Hpre as [?|Hpre]; [by left|right]. intros x Hx. specialize (Hpre x Hx). lia.
Qed.

Lemma linked_pruned now l h d d' :
  0 <= d' -> linked now l h d -> linked now (drop (cutoff_index (now - ttlMs) l) l) h d'.
Proof using Hmax.
  intros Hd' [Hasc (pre & -> & Hpre) Hb Hd]. destruct (cutoff_index_spec (now - ttlMs) l) as [Hold _].
  set (n := cutoff_index (now - ttlMs) l) in *.
  split; [done| |rewrite length_drop; lia|done].
  exists (pre ++ take n l)%list. rewrite <- app_assoc, take_drop. split; [done|].
  destruct (take n l) as [|e q] eqn:E.
  - rewrite app_nil_r. enough (drop n l = l) as ->; [done|].
    rewrite <- (take_drop n l) at 2. by rewrite E.
  - right. intros x [Hx|Hx]%elem_of_app; [|by apply Hold].
    specialize (Hold e ltac:(by left)). destruct (ascending_app _ _ _ Hasc) as [_ Hle].
    specialize (Hle x e Hx). enough (be_at x <= be_at e) by lia. apply Hle.
    rewrite <- (take_drop n l), E. by left.
Qed.

Lemma linked_push now l h d d' e :
  0 <= d' -> be_at e = now -> linked now l h d ->
  linked now (drop (Z.to_nat (Z.of_nat (length (l ++ [e])) - maxEvents)) (l ++ [e])) (h ++ [e])%list d'.
Proof using Hmax.
  intros Hd' He [[Ha Hn] (pre & -> & Hpre) Hb Hd]. rewrite length_app. simpl.
  set (k := Z.to_nat (Z.of_nat (length l + 1) - maxEvents)).
  split; [split| |rewrite length_drop, length_app; simpl; lia|done].
  - intros i j x y Hij Hx Hy. destruct (decide (j < length (pre ++ l))%nat) as [Hj|Hj].
    + rewrite lookup_app_l in Hx by lia. rewrite lookup_app_l in Hy by done. by apply (Ha i j).
    + assert (y = e) as ->. { rewrite lookup_app_r in Hy by lia. by apply list_lookup_singleton_Some in Hy as [_ ->]. }
      apply list_elem_of_lookup_2, elem_of_app in Hx as [Hx|Hx%list_elem_of_singleton]; [specialize (Hn x Hx); lia|subst; lia].
  - intros x [Hx|Hx%list_elem_of_singleton]%elem_of_app; [by apply Hn|subst; lia].
  - exists (pre ++ take k (l ++ [e]))%list. rewrite <- !app_assoc, take_drop. split; [done|].
    destruct (decide (Z.of_nat (length l) = maxEvents)) as [Hfull|Hroom].
    + left. rewrite length_drop, length_app. simpl. lia.
    + destruct Hpre as [?|Hpre]; [done|]. right. replace k with 0%nat by lia. by rewrite take_0, app_nil_r.
Qed.

Lemma pruneSubject_state now s b s' :
  buffer_of s' (pruneSubject now s b) =
    (if decide (s' = s) then drop (cutoff_index (now - ttlMs) (buffer_of s b)) (buffer_of s b) else buffer_of s' b) /\
  (0 <= default 0 (jget s (rb_dropped b)) -> 0 <= default 0 (jget s' (rb_dropped b)) ->
   0 <= default 0 (jget s' (rb_dropped (pruneSubject now s b)))) /\
  (s' <> s -> jget s' (rb_dropped (pruneSubject now s b)) = jget s' (rb_dropped b)).
Proof using Hmax.
  unfold pruneSubject, buffer_of, add_dropped.
  destruct (jget s (rb_buffers b)) as [[|e l]|] eqn:E;
    [case_decide as Hs; [subst; rewrite E|]; done| |case_decide as Hs; [subst; rewrite E|]; done].
  change (default [] (Some (e :: l))) with (e :: l). generalize (cutoff_index (now - ttlMs) (e :: l)) as n. intros n.
  destruct (drop n (e :: l)) as [|e' l'] eqn:Ed; case_decide as Hn; simpl; try (rewrite Hn in Ed; simpl in Ed; simplify_eq).
  all: rewrite ?jget_jdel, ?jget_jset; destruct (decide (s' = s)) as [->|Hs]; simpl; rewrite ?E; simpl; split_and!; try done; try lia.
Qed.

Lemma related_prune now s b h : related now b h -> related now (pruneSubject now s b) h.
Proof using Hmax.
  intros Hr s'. destruct (pruneSubject_state now s b s') as (-> & Hd & _).
  specialize (Hd (lk_dropped _ _ _ _ (Hr s)) (lk_dropped _ _ _ _ (Hr s'))).
  case_decide as Hs; [subst|].
  - by apply (linked_pruned _ _ _ _ _ Hd (Hr s)).
  - destruct (Hr s'). by split.
Qed.

Lemma related_later now now' b h : now <= now' -> related now b h -> related now' b h.
Proof using Hmax. intros Hle Hr s. by apply (linked_later now). Qed.

Lemma pruned_buffer now s b h :
  related now b h -> buffer_of s (pruneSubject now s b) = retained now (history_of s h).
Proof using Hmax.
  intros Hr. destruct (pruneSubject_state now s b s) as (-> & _). rewrite decide_True by done.
  by apply (prune_retained _ _ _ _ (Hr s)).
Qed.

Lemma related_push now s e b h :
  related now b h ->
  related now (push now s e b) (jset s (history_of s h ++ [mkBuffered e now])%list h).
Proof using Hmax.
  intros Hr%(related_prune now s). unfold push. cbv zeta. set (b' := pruneSubject now s b) in *.
  change (default [] (jget s (rb_buffers b'))) with (buffer_of s b').
  set (l := buffer_of s b') in *. set (x := mkBuffered e now).
  set (k := Z.to_nat (Z.of_nat (length (l ++ [x])) - maxEvents)).
  pose proof (fun d H => linked_push now l (history_of s h) _ d x H eq_refl (Hr s)) as Hp. fold k in Hp.
  intros s'. unfold history_of at 1. rewrite jget_jset.
  destruct (Z.ltb_spec maxEvents (Z.of_nat (length (l ++ [x])))); unfold buffer_of, add_dropped; simpl;
    rewrite ?jget_jset; case_decide as Hs; subst; simpl; try apply Hr.
  - apply Hp. pose proof (lk_dropped _ _ _ _ (Hr s)). lia.
  - replace k with 0%nat in Hp by lia. rewrite drop_0 in Hp. apply Hp, (lk_dropped _ _ _ _ (Hr s)).
Qed.

Lemma linked_nil now : linked now [] [] 0.
Proof using Hmax.
  split; [split; [intros ?? x y _ H; by rewrite lookup_nil in H|by intros x ?%not_elem_of_nil]| |simpl; lia|done].
  exists []. split; [done|]. right. by intros x ?%not_elem_of_nil.
Qed.

Lemma related_forget now s b h : related now b h -> related now (forget s b) (jdel s h).
Proof using Hmax.
  intros Hr s'. unfold forget, buffer_of, history_of. simpl. rewrite !jget_jdel. case_decide as Hs; simpl; [apply linked_nil|apply Hr].
Qed.

Lemma related_prune_all now b h : related now b h -> related now (prune now b) h.
Proof using Hmax.
  unfold prune. generalize (jkeys (rb_buffers b)) as ks. intros ks. revert b.
  induction ks as [|k ks IH]; intros b Hr; simpl; [done|]. by apply IH, related_prune.
Qed.

Lemma step_simulated now o b h :
  related now b h ->
  (impl_step now o b).1 = (spec_step now o h).1 /\
  related now (impl_step now o b).2 (spec_step now o h).2.
Proof using Hmax.
  intros Hr. destruct o as [s e|s since|s|s|]; simpl.
  - split; [done|by apply related_push].
  - split; [|by apply related_prune].
    pose proof (pruned_buffer now s b h Hr) as Hb. unfold buffer_of, history_of in Hb.
    unfold seen. rewrite Hb. destruct since as [id|]; simpl; [|done].
    destruct (after_id id _) as [rest|]; simpl; [done|].
    by rewrite (proj2 (Z.ltb_lt _ _)) by lia.
  - split; [|by apply related_prune]. do 2 f_equal. by apply (pruned_buffer now s b h Hr).
  - split; [done|by apply related_forget].
  - split; [done|by apply related_prune_all].
Qed.

(** The clock does not go back. *)
Fixpoint clocked (t : Z) (ops : list (Z * rb_op)) : bool :=
  match ops with [] => true | (now, _) :: ops' => (t <=? now) && clocked now ops' end.

Lemma run_simulated t ops b h :
  clocked t ops = true -> related t b h -> run impl_step ops b = run spec_step ops h.
Proof using Hmax.
  revert t b h. induction ops as [|[now o] ops IH]; intros t b h; simpl; [done|].
  intros [Ht%Z.leb_le Hops]%andb_prop Hr%(related_later _ _ _ _ Ht).
  destruct (step_simulated now o b h Hr) as [Hreply Hr'].
  destruct (impl_step now o b) as [r b'], (spec_step now o h) as [r' h']. simpl in *. subst r'.
  f_equal. by apply (IH now).
Qed.
End Buffer.

(** C32: The replay buffer implements its specification. Whatever pushes, replays,
    size queries, forgets and sweeps are made, in whatever order and at whatever
    non-decreasing times, every answer is the one computed from the complete
    history of the subject: the frames among its last [maxEvents] that are no
    older than [ttlMs], from just after the cursor when the cursor is among them,
    all of them with a gap signalled when it is not. The incremental trimming, the
    release of emptied subjects and the periodic sweep change no answer. *)
Theorem buffer_refines_history (maxEvents ttlMs t : Z) (ops : list (Z * rb_op)) :
  1 <= maxEvents -> clocked t ops = true ->
  run (impl_step maxEvents ttlMs) ops empty_buffer = run (spec_step maxEvents ttlMs) ops [].
Proof.
  intros Hmax Hops. apply (run_simulated _ _ Hmax t); [done|]. intros s. by apply linked_nil.
Qed.

Lemma buffer_refines_history_witness :
  let f i := mkFrame i "__pending__" "session:s/events" "tick" VNull in
  let S := "session:s/events"%string in
  let ops := [(0, RPush S (f "a")); (1, RPush S (f "b")); (2, RPush S (f "c")); (3, RReplay S (Some "b"%string));
              (4, RReplay S (Some "a"%string)); (12, RReplay S (Some "c"%string)); (13, RSize S)]%string in
  run (impl_step 2 10) ops empty_buffer =
    [RNothing; RNothing; RNothing; RSlice [f "c"] (Some "c") false; RSlice [f "b"; f "c"] (Some "c") true;
     RSlice [] None false; RCount 0]%string /\
  run (impl_step 2 10) ops empty_buffer = run (spec_step 2 10) ops [].
Proof.
  intros f S ops. split; [vm_compute; reflexivity|].
  apply (buffer_refines_history 2 10 0); [lia|vm_compute; reflexivity].
Defined.
