(* ===== verification/Sanitizer.v ===== *)
(** * The delivery sanitizer

    [packages/server/src/commentary/sanitizer.ts] over the catalogue and the
    envelope helpers of [packages/tools/src/outbound/commentary-patterns.ts]:
    string leaves of selected event payloads are scanned for the signatures of
    internal agent events, and each match is wrapped in an envelope or removed.

    A pattern is the sequence of regular-expression items the catalogue uses,
    matched with the backtracking order of the language: greedy [\s*] and
    runs of characters other than a quote, lazy [[\s\S]*?]. *)

From S2P Require Import Prelude JsValue Subjects ReplayBuffer.

Local Open Scope string_scope.

(** ** Regular expressions *)

Inductive re_item :=
| RLit (l : string)
| RSpaces                      (** [\s*] *)
| RLazyAny                     (** [[\s\S]*?] *)
| RNotQuote                    (** one or more characters other than the quote *)
| RAlt (a b : string).         (** [(?:a|b)] *)

Definition quote : ascii := "034"%char.

(** Repeat a character class, longest first. *)
Fixpoint greedy (f : ascii -> bool) (k : string -> option string) (s : string) : option string :=
  match s with
  | EmptyString => k s
  | String c s' => if f c then match greedy f k s' with Some r => Some r | None => k s end else k s
  end.

(** Skip characters, fewest first. *)
Fixpoint lazy (k : string -> option string) (s : string) : option string :=
  match k s with
  | Some r => Some r
  | None => match s with EmptyString => None | String _ s' => lazy k s' end
  end.

Definition not_quote (c : ascii) : bool := negb (bool_decide (c = quote)).

(** Match at the start of the text; the result is what follows the match. *)
Fixpoint match_items (items : list re_item) (s : string) : option string :=
  match items with
  | [] => Some s
  | RLit l :: items' => match_lit l s ≫= match_items items'
  | RSpaces :: items' => greedy is_space (match_items items') s
  | RLazyAny :: items' => lazy (match_items items') s
  | RNotQuote :: items' =>
      match s with
      | String c s' => if not_quote c then greedy not_quote (match_items items') s' else None
      | EmptyString => None
      end
  | RAlt a b :: items' =>
      match match_lit a s ≫= match_items items' with
      | Some r => Some r
      | None => match_lit b s ≫= match_items items'
      end
  end.

(** The first match: the text before it, the match, the text after it. *)
Fixpoint find_match (items : list re_item) (s : string) : option (string * string * string) :=
  match match_items items s with
  | Some r => Some ("", str_take (String.length s - String.length r) s, r)
  | None =>
      match s with
      | EmptyString => None
      | String c s' => '(u, m, r) ← find_match items s'; Some (String c u, m, r)
      end
  end.

(** [s.replace(regex, f)] with the [g] flag, for patterns that match no empty text. *)
Fixpoint replace_all (fuel : nat) (items : list re_item) (f : string -> string) (s : string) : string :=
  match fuel with
  | 0 => s
  | S fuel' =>
      match find_match items s with
      | None => s
      | Some (u, m, r) => u +:+ f m +:+ replace_all fuel' items f r
      end
  end.

Definition replace (items : list re_item) (f : string -> string) (s : string) : string :=
  replace_all (S (String.length s)) items f s.

Definition matches (items : list re_item) (s : string) : bool := bool_decide (is_Some (find_match items s)).

(** ** The catalogue *)

Inductive reason :=
| ToolCallStart | ToolCallDelta | ToolCallEnd | ToolExecuteEnd | AgentFanout | ContextCompacted | ModelFellback.
#[export] Instance reason_eq_dec : EqDecision reason.
Proof. solve_decision. Defined.

Record Pattern := mkPattern { pt_reason : reason; pt_regex : list re_item }.

Definition q (s : string) : string := String quote (s +:+ String quote "").

(** The head every signature starts with: a brace, the [type] key, a colon. *)
Definition type_prefix : list re_item := [RLit "{"; RSpaces; RLit (q "type"); RSpaces; RLit ":"; RSpaces].

Definition OUTBOUND_COMMENTARY_PATTERNS : list Pattern :=
  [ mkPattern ToolCallStart
      (type_prefix ++ [RLit (q "tool.call.start"); RLazyAny; RLit (q "toolName"); RSpaces; RLit ":"; RSpaces;
                       RLit (String quote ""); RNotQuote; RLit (String quote ""); RLazyAny; RLit "}"]);
    mkPattern ToolCallDelta
      (type_prefix ++ [RLit (q "tool.call.delta"); RLazyAny; RLit (q "argsDelta"); RLazyAny; RLit "}"]);
    mkPattern ToolCallEnd
      (type_prefix ++ [RLit (q "tool.call.end"); RLazyAny; RLit (q "finalArgs"); RLazyAny; RLit "}"]);
    mkPattern ToolExecuteEnd
      (type_prefix ++ [RLit (q "tool.execute.end"); RLazyAny; RLit (q "result"); RSpaces; RLit ":"; RSpaces; RLazyAny; RLit "}"]);
    mkPattern AgentFanout
      (type_prefix ++ [RLit (String quote "agent.fanout."); RAlt "spawned" "merged"; RLit (String quote ""); RLazyAny; RLit "}"]);
    mkPattern ContextCompacted
      (type_prefix ++ [RLit (q "context.compacted"); RLazyAny; RLit (q "originalTokens"); RLazyAny; RLit "}"]);
    mkPattern ModelFellback
      (type_prefix ++ [RLit (q "agent.model.fellback"); RLazyAny; RLit (q "fromModel"); RLazyAny; RLit "}"]) ]%list.

Definition COMMENTARY_WRAP_OPEN : string := "<<<commentary>>>".
Definition COMMENTARY_WRAP_CLOSE : string := "<<</commentary>>>".

Definition DEFAULT_APPLY_TO_EVENTS : list string := ["tool.execute.end"; "tool.execute.error"; "text.delta"].

(** ** Envelopes *)

Inductive segment := Plain (text : string) | Wrapped (text : string).

(** The text at and after the cursor; [None] when the fuel does not reach its end. *)
Fixpoint split_envelope (fuel : nat) (open close text : string) : option (list segment) :=
  match fuel with
  | 0 => None
  | S fuel' =>
      if decide (text = "") then Some []
      else match indexOf open text with
           | None => Some [Plain text]
           | Some openAt =>
               let before := if decide (openAt = 0) then [] else [Plain (str_take openAt text)] in
               let from := str_drop openAt text in
               match indexOf close (str_drop (String.length open) from) with
               | None => Some (before ++ [Plain from])%list
               | Some n =>
                   let stop := String.length open + n + String.length close in
                   rest ← split_envelope fuel' open close (str_drop stop from);
                   Some (before ++ Wrapped (str_take stop from) :: rest)%list
               end
           end
  end.

Definition splitByWrapEnvelope (text open close : string) : option (list segment) :=
  split_envelope (S (String.length text)) open close text.

(** ** Sanitizing *)

Inductive Policy := Wrap | StripMatch | PassThrough.
#[export] Instance Policy_eq_dec : EqDecision Policy.
Proof. solve_decision. Defined.

Record Config := mkConfig {
  cf_policy : Policy;
  cf_applyToEvents : list string;
  cf_patterns : list Pattern;
  cf_open : string;
  cf_close : string;
}.

Definition default_config : Config :=
  mkConfig Wrap DEFAULT_APPLY_TO_EVENTS OUTBOUND_COMMENTARY_PATTERNS COMMENTARY_WRAP_OPEN COMMENTARY_WRAP_CLOSE.

(** [Set.prototype.add] on a set kept in insertion order. *)
Definition add_reason (rs : list reason) (r : reason) : list reason := if decide (r ∈ rs) then rs else (rs ++ [r])%list.

Section Sanitize.
Context (cf : Config).

Definition rewrite_match (m : string) : string :=
  match cf_policy cf with StripMatch => "" | _ => cf_open cf +:+ m +:+ cf_close cf end.

Definition apply_pattern (acc : string * list reason) (p : Pattern) : string * list reason :=
  (replace (pt_regex p) rewrite_match acc.1,
   if matches (pt_regex p) acc.1 then add_reason acc.2 (pt_reason p) else acc.2).

Fixpoint apply_segments (segs : list segment) (rs : list reason) : string * list reason :=
  match segs with
  | [] => ("", rs)
  | Wrapped t :: segs' => let '(out, rs) := apply_segments segs' rs in (t +:+ out, rs)
  | Plain t :: segs' =>
      let '(t', rs) := foldl apply_pattern (t, rs) (cf_patterns cf) in
      let '(out, rs) := apply_segments segs' rs in (t' +:+ out, rs)
  end.

(** [None]: the loop does not end (both delimiters empty). *)
Definition applyToText (text : string) : option (string * list reason) :=
  segs ← splitByWrapEnvelope text (cf_open cf) (cf_close cf); Some (apply_segments segs []).

(** What the callback given to [walkAndSanitize] accumulates: [allReasons] and [mutated]. *)
Definition Seen : Type := list reason * bool.

Definition transform (st : Seen) (text : string) : option (string * Seen) :=
  '(out, rs) ← applyToText text;
  Some (out, (foldl add_reason st.1 rs, st.2 || negb (bool_decide (out = text)))).

(** The result, whether it is a different value for [!==] (a string that
    changed, a container that was rebuilt, a [NaN]), and what was accumulated. *)
Fixpoint walkAndSanitize (st : Seen) (v : value) {struct v} : option (value * bool * Seen) :=
  let fields :=
    fix go (st : Seen) (fs : list (string * value)) {struct fs} : option (list (string * value) * bool * Seen) :=
      match fs with
      | [] => Some ([], false, st)
      | (k, x) :: fs' =>
          '(x', b, st) ← walkAndSanitize st x;
          '(rest, b', st) ← go st fs';
          Some ((if decide (k = "__proto__") then rest else (k, x') :: rest), orb b b', st)
      end in
  match v with
  | VStr s => '(s', st) ← transform st s; Some (VStr s', negb (bool_decide (s' = s)), st)
  | VNum NNaN => Some (v, true, st)
  | VUndef | VNull | VBool _ | VNum _ => Some (v, false, st)
  | VExotic XBigint _ _ | VExotic XFunction _ _ | VExotic XSymbol _ _ => Some (v, false, st)
  | VArr vs =>
      '(vs', b, st) ← (fix go (st : Seen) (vs : list value) {struct vs} : option (list value * bool * Seen) :=
         match vs with
         | [] => Some ([], false, st)
         | x :: vs' =>
             '(x', b, st) ← walkAndSanitize st x;
             '(rest, b', st) ← go st vs';
             Some (x' :: rest, orb b b', st)
         end) st vs;
      Some (if (b : bool) then VArr vs' else v, b, st)
  | VObj fs | VExotic _ _ fs =>
      '(fs', b, st) ← fields st fs; Some (if (b : bool) then VObj fs' else v, b, st)
  end.

(** [JSON.stringify] throws on a [bigint]. *)
Fixpoint stringifies (v : value) : bool :=
  match v with
  | VExotic XBigint _ _ => false
  | VExotic XFunction _ _ | VExotic XSymbol _ _ => true
  | VArr vs => forallb stringifies vs
  | VObj fs | VExotic _ _ fs => forallb (fun p => stringifies p.2) fs
  | _ => true
  end.

Record CommentaryDecision := mkCommentaryDecision { dc_policy : Policy; dc_reasons : list reason; dc_matched : option reason; dc_eventType : string }.

(** The frame to deliver with the audit decision, if the payload was rewritten;
    [None] when the call does not return. *)
Definition sanitize (frame : EventFrame) : option (EventFrame * option CommentaryDecision) :=
  if decide (cf_policy cf = PassThrough) then Some (frame, None)
  else if negb (bool_decide (fr_type frame ∈ cf_applyToEvents cf)) then Some (frame, None)
  else if negb (stringifies (fr_payload frame)) then None
  else
    '(next, _, (reasons, mutated)) ← walkAndSanitize ([], false) (fr_payload frame);
    if (mutated : bool) then
      Some (mkFrame (fr_eventId frame) (fr_subscriptionId frame) (fr_subject frame) (fr_type frame) next,
            Some (mkCommentaryDecision (cf_policy cf) reasons (head reasons) (fr_type frame)))
    else Some (frame, None).
End Sanitize.

(** An event whose text carries two nested signatures. *)
Definition nested_signatures : string :=
  "{" +:+ q "type" +:+ ":" +:+ q "tool.call.start" +:+ " {" +:+ q "type" +:+ ":" +:+ q "context.compacted" +:+ "," +:+
  q "originalTokens" +:+ "} {" +:+ q "type" +:+ ":" +:+ q "tool.call.start" +:+ "," +:+ q "toolName" +:+ ":" +:+ q "x" +:+ "}".

(** A second pass over sanitized text wraps a fragment again, when one
    signature lies inside the match of another. *)
Example second_pass_wraps_again :
  let once := default "" (fst <$> applyToText default_config nested_signatures) in
  let twice := default "" (fst <$> applyToText default_config once) in
  bool_decide (once = twice) = false.
Proof. vm_compute. reflexivity. Qed.
