(* ===== verification/SanitizerProps.v ===== *)
(** * What the sanitizer guarantees

    Facts on matching and on envelopes, the exactness and stability of wrapping,
    and the walk over a payload as a map over its string leaves. *)

From S2P Require Import Prelude JsValue Subjects ReplayBuffer Sanitizer.

Local Open Scope string_scope.

(** ** Strings *)

Lemma str_length_app (a b : string) : String.length (a +:+ b) = (String.length a + String.length b)%nat.
Proof. induction a as [|c a IH]; [done|]. rewrite str_app_cons. simpl. by rewrite IH. Qed.

Lemma startsWith_more p s x : startsWith p s = true -> startsWith p (s +:+ x) = true.
Proof. intros [r ->]%startsWith_spec. rewrite str_app_assoc. apply startsWith_app. Qed.

Lemma indexOf_None p s :
  indexOf p s = None <-> forall a b, s = a +:+ b -> startsWith p b = false.
Proof.
  induction s as [|c s IH]; simpl.
  - destruct (startsWith p "") eqn:E; split; try done.
    + intros H. specialize (H "" "" eq_refl). congruence.
    + by intros _ [|? ?] b; rewrite ?str_app_nil_l, ?str_app_cons; [intros <-|].
  - destruct (startsWith p (String c s)) eqn:E; split; try done.
    + intros H. specialize (H "" _ eq_refl). congruence.
    + intros H%fmap_None [|x a] b; rewrite ?str_app_nil_l, ?str_app_cons; [by intros <-|intros [= _ ->]; by eapply IH].
    + intros H. apply fmap_None, IH. intros a b ->. by apply (H (String c a)).
Qed.

Lemma indexOf_sub p a b c : indexOf p (a +:+ b +:+ c) = None -> indexOf p b = None.
Proof.
  rewrite !indexOf_None. intros H u v ->. destruct (startsWith p v) eqn:E; [|done].
  apply (startsWith_more _ _ c) in E. rewrite (H (a +:+ u) (v +:+ c)) in E; [done|]. by rewrite !str_app_assoc.
Qed.

Lemma indexOf_here p s : startsWith p s = true -> indexOf p s = Some 0%nat.
Proof. intros H. destruct s; cbn [indexOf]; by rewrite H. Qed.

(** No proper suffix of a delimiter is one of its prefixes. *)
Fixpoint unbordered_from (n : nat) (d : string) : bool :=
  match n with 0 => true | S n' => negb (startsWith (str_drop n d) d) && unbordered_from n' d end.

Definition unbordered (d : string) : bool := unbordered_from (String.length d - 1) d.

Lemma unbordered_spec d a b : unbordered d = true -> d = a +:+ b -> a <> "" -> b <> "" -> startsWith b d = false.
Proof.
  intros Hu Hd Ha Hb. assert (forall n k, 0 < k <= n -> unbordered_from n d = true -> startsWith (str_drop k d) d = false) as H.
  { induction n as [|n IH]; intros k Hk; [lia|]. cbn [unbordered_from].
    intros [Hn%negb_true_iff Hr]%andb_prop. destruct (decide (k = S n)) as [->|]; [done|]. apply IH; [lia|done]. }
  assert (0 < String.length a <= String.length d - 1)%nat as Hlen.
  { rewrite Hd, str_length_app. destruct a, b; simpl; try done; lia. }
  specialize (H _ _ Hlen Hu). rewrite Hd in H at 1. by rewrite str_drop_app in H.
Qed.

Lemma app_eq_split (a b c d : string) :
  a +:+ b = c +:+ d -> (exists x, a = c +:+ x /\ d = x +:+ b) \/ (exists x, c = a +:+ x /\ b = x +:+ d).
Proof.
  revert c. induction a as [|x a IH]; intros [|y c]; rewrite ?str_app_nil_l, ?str_app_cons.
  - intros ->. left. by exists "".
  - intros ->. right. by exists (String y c).
  - intros <-. left. by exists (String x a).
  - intros [= -> H]. destruct (IH _ H) as [(z & -> & ->)|(z & -> & ->)]; [left|right]; by exists z.
Qed.

(** The first occurrence of a delimiter after text without one. *)
Lemma indexOf_first d u r :
  unbordered d = true -> d <> "" -> indexOf d u = None -> indexOf d (u +:+ d +:+ r) = Some (String.length u).
Proof.
  intros Hun Hne. induction u as [|c u IH]; intros Hu.
  - rewrite str_app_nil_l. apply indexOf_here, startsWith_app.
  - rewrite str_app_cons. cbn [indexOf]. pose proof (proj1 (indexOf_None _ _) Hu) as Hocc.
    destruct (startsWith d (String c (u +:+ d +:+ r))) eqn:E.
    + exfalso. apply startsWith_spec in E as [x E]. rewrite <- str_app_cons in E.
      apply app_eq_split in E as [(y & E & Ex)|(y & E & Ex)].
      * specialize (Hocc "" _ eq_refl). rewrite E, startsWith_app in Hocc. done.
      * assert (y <> "") as Hy.
        { intros ->. rewrite str_app_nil_r in E. specialize (Hocc "" _ eq_refl). rewrite <- E in Hocc.
          by rewrite <- (str_app_nil_r d) in Hocc at 2; rewrite startsWith_app in Hocc. }
        pose proof (unbordered_spec d _ y Hun E ltac:(done) Hy) as Hb.
        apply app_eq_split in Ex as [(z & Ez & _)|(z & Ez & _)].
        { rewrite Ez, startsWith_app in Hb. done. }
        { assert (String.length d = String.length (String c u) + String.length y)%nat as Hl1 by (rewrite E at 1; apply str_length_app).
          assert (String.length y = String.length d + String.length z)%nat as Hl2 by (rewrite Ez at 1; apply str_length_app).
          simpl in Hl1. lia. }
    + rewrite IH; [done|]. apply (indexOf_sub d (String c "") u ""). by rewrite str_app_nil_r.
Qed.

(** ** Matching *)

Lemma greedy_here f k s : is_Some (k s) -> is_Some (greedy f k s).
Proof. destruct s as [|c s]; simpl; [done|]. intros ?. destruct (f c); [|done]. by destruct (greedy f k s); eauto. Qed.

Lemma greedy_more f k x s :
  (forall s, is_Some (k s) -> is_Some (k (s +:+ x))) -> is_Some (greedy f k s) -> is_Some (greedy f k (s +:+ x)).
Proof.
  intros Hk. induction s as [|c s IH].
  - intros H. apply greedy_here. by apply (Hk "").
  - intros H. rewrite str_app_cons. simpl in *. destruct (f c); [|by apply (Hk (String c s))].
    destruct (greedy f k s) eqn:E.
    + destruct (IH ltac:(by eauto)) as [y ->]. by eauto.
    + destruct (greedy f k (s +:+ x)); [by eauto|by apply (Hk (String c s))].
Qed.

Lemma lazy_here k s : is_Some (k s) -> is_Some (lazy k s).
Proof. intros [r E]. destruct s; simpl; rewrite E; by eauto. Qed.

Lemma lazy_more k x s :
  (forall s, is_Some (k s) -> is_Some (k (s +:+ x))) -> is_Some (lazy k s) -> is_Some (lazy k (s +:+ x)).
Proof.
  intros Hk. induction s as [|c s IH]; intros H; cbn [lazy] in H.
  - apply lazy_here. destruct (k "") eqn:E; [apply (Hk ""); by eauto|by destruct H].
  - rewrite str_app_cons. destruct (k (String c s)) eqn:E.
    + apply lazy_here. apply (Hk (String c s)). by eauto.
    + simpl. destruct (k (String c (s +:+ x))); [by eauto|by apply IH].
Qed.

Lemma strip_more l x (k : string -> option string) s :
  (forall s, is_Some (k s) -> is_Some (k (s +:+ x))) ->
  is_Some (match_lit l s ≫= k) -> is_Some (match_lit l (s +:+ x) ≫= k).
Proof.
  intros Hk. destruct (match_lit l s) as [r|] eqn:E; simpl; [|by intros []].
  apply match_lit_spec in E as ->. rewrite str_app_assoc. rewrite (proj2 (match_lit_spec _ _ _) eq_refl). apply Hk.
Qed.

(** Text that follows can only help a match. *)
Lemma match_more items x s : is_Some (match_items items s) -> is_Some (match_items items (s +:+ x)).
Proof.
  revert s. induction items as [|[l| | | |a b] items IH]; intros s; simpl; [by eauto|..].
  - by apply strip_more.
  - by apply greedy_more.
  - by apply lazy_more.
  - destruct s as [|c s]; [by intros []|]. rewrite str_app_cons. destruct (not_quote c); [by apply greedy_more|by intros []].
  - intros H. destruct (match_lit a s ≫= match_items items) eqn:E.
    + destruct (strip_more a x (match_items items) s IH ltac:(rewrite E; by eauto)) as [y ->]. by eauto.
    + destruct (match_lit a (s +:+ x) ≫= match_items items); [by eauto|by apply strip_more].
Qed.

Definition suffix_of (r s : string) : Prop := exists m, s = m +:+ r.

Lemma suffix_cons c r s : suffix_of r s -> suffix_of r (String c s).
Proof. intros [m ->]. by exists (String c m). Qed.

Lemma suffix_trans r s t : suffix_of r s -> suffix_of s t -> suffix_of r t.
Proof. intros [m ->] [n ->]. exists (n +:+ m). by rewrite str_app_assoc. Qed.

Lemma greedy_suffix f k s r :
  (forall s r, k s = Some r -> suffix_of r s) -> greedy f k s = Some r -> suffix_of r s.
Proof.
  intros Hk. induction s as [|c s IH]; simpl; [apply Hk|]. destruct (f c); [|apply Hk].
  destruct (greedy f k s); [|apply Hk]. intros [= ->]. apply suffix_cons. by apply IH.
Qed.

Lemma lazy_suffix k s r :
  (forall s r, k s = Some r -> suffix_of r s) -> lazy k s = Some r -> suffix_of r s.
Proof.
  intros Hk. induction s as [|c s IH]; simpl; destruct (k _) eqn:E; try done; try (intros [= <-]; by apply Hk).
  intros H. apply suffix_cons. by apply IH.
Qed.

Lemma strip_suffix l (k : string -> option string) s r :
  (forall s r, k s = Some r -> suffix_of r s) -> match_lit l s ≫= k = Some r -> suffix_of r s.
Proof.
  intros Hk. destruct (match_lit l s) as [y|] eqn:E; [|done]. apply match_lit_spec in E as ->. simpl.
  intros H%Hk. apply (suffix_trans _ _ _ H). by exists l.
Qed.

Lemma match_suffix items s r : match_items items s = Some r -> suffix_of r s.
Proof.
  revert s r. induction items as [|[l| | | |a b] items IH]; intros s r; simpl.
  - intros [= <-]. by exists "".
  - by apply strip_suffix.
  - by apply greedy_suffix.
  - by apply lazy_suffix.
  - destruct s as [|c s]; [done|]. destruct (not_quote c); [|done]. intros H. apply suffix_cons. by eapply greedy_suffix.
  - destruct (match_lit a s ≫= match_items items) eqn:E; [intros [= <-]|]; by eapply strip_suffix.
Qed.

(** Patterns that start with a literal match no empty text. *)
Definition guarded (items : list re_item) : bool :=
  match items with RLit (String _ _) :: _ => true | _ => false end.

Lemma guarded_empty items : guarded items = true -> match_items items "" = None.
Proof. destruct items as [|[[|c l]| | | |] items]; done. Qed.

Lemma guarded_shorter items s r :
  guarded items = true -> match_items items s = Some r -> (String.length r < String.length s)%nat.
Proof.
  destruct items as [|[[|c l]| | | |] items]; try done. intros _. cbn [match_items].
  destruct (match_lit _ s) as [y|] eqn:E; [|done]. apply match_lit_spec in E as ->. simpl.
  intros [m ->]%match_suffix. rewrite !str_length_app. lia.
Qed.

Lemma suffix_take r s : suffix_of r s -> s = str_take (String.length s - String.length r) s +:+ r.
Proof.
  intros [m ->]. rewrite str_length_app.
  replace (String.length m + String.length r - String.length r)%nat with (String.length m) by lia. by rewrite str_take_app.
Qed.

Lemma match_here items s r :
  match_items items s = Some r ->
  let m := str_take (String.length s - String.length r) s in
  s = "" +:+ m +:+ r /\ match_items items (m +:+ r) = Some r.
Proof.
  intros H m. pose proof (suffix_take _ _ (match_suffix _ _ _ H)) as Hs. fold m in Hs. split; [done|]. by rewrite <- Hs.
Qed.

Lemma find_match_Some items s u m r :
  find_match items s = Some (u, m, r) ->
  s = u +:+ m +:+ r /\ match_items items (m +:+ r) = Some r /\
  forall a b, u = a +:+ b -> b <> "" -> match_items items (b +:+ m +:+ r) = None.
Proof.
  revert u. induction s as [|c s IH]; intros u; cbn [find_match];
    [destruct (match_items items "") as [y|] eqn:E; [|done]|destruct (match_items items (String c s)) as [y|] eqn:E].
  1, 2: destruct (match_here _ _ _ E) as [H1 H2]; intros [= <- <- <-]; split_and!; [exact H1|exact H2|by intros [|] [|]].
  destruct (find_match items s) as [[[u' m'] r']|] eqn:F; [|done]. cbn. intros [= <- <- <-].
  destruct (IH u' eq_refl) as (-> & Hm & Hu). split_and!; [done|done|].
  intros [|x a] b; rewrite ?str_app_nil_l, ?str_app_cons; [by intros <- _|intros [= _ ->]; by apply (Hu a)].
Qed.

Lemma find_match_None items s :
  find_match items s = None <-> forall a b, s = a +:+ b -> match_items items b = None.
Proof.
  induction s as [|c s IH]; simpl.
  - destruct (match_items items "") eqn:E; split; try done.
    + intros H. by rewrite (H "" "" eq_refl) in E.
    + by intros _ [|? ?] b; rewrite ?str_app_nil_l, ?str_app_cons; [intros <-|].
  - destruct (match_items items (String c s)) eqn:E; split; try done.
    + intros H. by rewrite (H "" _ eq_refl) in E.
    + intros H [|x a] b; rewrite ?str_app_nil_l, ?str_app_cons; [by intros <-|intros [= _ ->]].
      destruct (find_match items _) as [[[]]|] eqn:F; [done|]. by eapply IH.
    + intros H. destruct (find_match items s) as [[[u m] r]|] eqn:F; [|done].
      exfalso. enough (Some (u, m, r) = None) by done. apply IH. intros a b ->. by apply (H (String c a)).
Qed.

Lemma matches_false items s : matches items s = false <-> find_match items s = None.
Proof. unfold matches. rewrite bool_decide_eq_false, eq_None_not_Some. done. Qed.

(** Without a match in a text, there is none in a part of it. *)
Lemma matches_sub items a b c : matches items (a +:+ b +:+ c) = false -> matches items b = false.
Proof.
  rewrite !matches_false, !find_match_None. intros H u v ->. apply eq_None_not_Some. intros Hm%(match_more _ c).
  rewrite (H (a +:+ u) (v +:+ c)) in Hm; [by destruct Hm|by rewrite !str_app_assoc].
Qed.

(** ** Pieces of a text: what lies before each match, the matches, what is left *)

Fixpoint join (f : string -> string) (pieces : list (string * string)) (tail : string) : string :=
  match pieces with
  | [] => tail
  | (u, m) :: pieces' => u +:+ f m +:+ join f pieces' tail
  end.

Lemma join_sub f pieces tail :
  (forall u m, (u, m) ∈ pieces -> exists a c, join f pieces tail = a +:+ u +:+ c) /\
  (forall u m, (u, m) ∈ pieces -> exists a c, join f pieces tail = a +:+ f m +:+ c) /\
  (exists a, join f pieces tail = a +:+ tail).
Proof.
  induction pieces as [|[u0 m0] pieces (IHu & IHm & a & IHt)]; cbn [join].
  - split_and!; [by intros ?? ?%not_elem_of_nil..|by exists ""].
  - split_and!.
    + intros u m [[= -> ->]|Hin]%elem_of_cons; [by exists "", (f m0 +:+ join f pieces tail)|].
      destruct (IHu u m Hin) as (b & c & ->). exists (u0 +:+ f m0 +:+ b), c. by rewrite !str_app_assoc.
    + intros u m [[= -> ->]|Hin]%elem_of_cons; [by exists u0, (join f pieces tail)|].
      destruct (IHm u m Hin) as (b & c & ->). exists (u0 +:+ f m0 +:+ b), c. by rewrite !str_app_assoc.
    + exists (u0 +:+ f m0 +:+ a). by rewrite IHt, !str_app_assoc.
Qed.

Lemma replace_pieces items f s :
  guarded items = true ->
  exists pieces tail,
    s = join id pieces tail /\ replace items f s = join f pieces tail /\
    (forall u m, (u, m) ∈ pieces -> matches items u = false) /\ matches items tail = false.
Proof.
  intros Hg. unfold replace. generalize (le_n (S (String.length s))). generalize (S (String.length s)) at 2 3 as fuel.
  intros fuel. revert s. induction fuel as [|fuel IH]; intros s Hs; [lia|]. cbn [replace_all].
  destruct (find_match items s) as [[[u m] r]|] eqn:F.
  - destruct (find_match_Some _ _ _ _ _ F) as (-> & Hm & Hu).
    pose proof (guarded_shorter _ _ _ Hg Hm) as Hlen. rewrite !str_length_app in *.
    destruct (IH r ltac:(lia)) as (pieces & tail & Hr & Hrep & Hp & Ht). exists ((u, m) :: pieces), tail. cbn [join].
    rewrite Hrep. split_and!; [by rewrite Hr at 1|done| |done].
    intros u' m' [[= -> ->]|Hin]%elem_of_cons; [|by eapply Hp].
    apply matches_false, find_match_None. intros a b ->. destruct (decide (b = "")) as [->|Hb]; [by apply guarded_empty|].
    apply eq_None_not_Some. intros H%(match_more _ (m +:+ r)). rewrite (Hu a b eq_refl Hb) in H. by destruct H.
  - exists [], s. split_and!; [done|done|by intros ?? ?%not_elem_of_nil|by apply matches_false].
Qed.

(** ** Envelopes *)

Definition plain_seg (t : string) : list segment := if decide (t = "") then [] else [Plain t].

Fixpoint segments_of (open close : string) (pieces : list (string * string)) (tail : string) : list segment :=
  match pieces with
  | [] => plain_seg tail
  | (u, m) :: pieces' => (plain_seg u ++ Wrapped (open +:+ m +:+ close) :: segments_of open close pieces' tail)%list
  end.

(** The loop ends: each round passes a delimiter. *)
Lemma split_total open close fuel text : open <> "" -> (String.length text < fuel)%nat -> is_Some (split_envelope fuel open close text).
Proof.
  intros Hone. revert text. induction fuel as [|fuel IH]; intros text Hf; [lia|]. cbn [split_envelope].
  case_decide; [by eauto|]. destruct (indexOf open text) as [at_|]; [|by eauto].
  destruct (indexOf close _) as [n|]; [|by eauto].
  edestruct IH as [rest ->]; [|by eauto].
  assert (forall n s, String.length (str_drop n s) = String.length s - n)%nat as Hd.
  { clear. intros n. induction n as [|n IH]; intros [|c s]; simpl; [done..|apply IH]. }
  rewrite !Hd. destruct open; [done|]. destruct text; [done|]. simpl in *. lia.
Qed.
Section Envelopes.
Context (open close : string).
Context (Hopen : unbordered open = true) (Hclose : unbordered close = true).
Context (Hone : open <> "") (Hcne : close <> "").

Lemma split_pieces fuel pieces tail :
  (String.length (join (fun m => open +:+ m +:+ close) pieces tail) < fuel)%nat ->
  (forall u m, (u, m) ∈ pieces -> indexOf open u = None /\ indexOf close m = None) -> indexOf open tail = None ->
  split_envelope fuel open close (join (fun m => open +:+ m +:+ close) pieces tail) = Some (segments_of open close pieces tail).
Proof using Hopen Hclose Hone Hcne.
  intros Hf Hp Ht. revert fuel Hf. induction pieces as [|[u m] pieces IH]; intros [|fuel] Hf; try lia; cbn [split_envelope join segments_of].
  - unfold plain_seg. cbn [join] in *. case_decide; [done|]. by rewrite Ht.
  - destruct (Hp u m ltac:(by left)) as [Hu Hm]. cbn [join] in Hf. set (rest := join _ pieces tail) in *.
    rewrite !str_length_app in Hf. rewrite decide_False; cycle 1.
    { intros H. apply (f_equal String.length) in H. rewrite !str_length_app in H. destruct open; [done|]. simpl in H. lia. }
    rewrite !str_app_assoc. rewrite (indexOf_first open u _ Hopen Hone Hu).
    rewrite str_take_app, str_drop_app, str_drop_app, (indexOf_first close m _ Hclose Hcne Hm).
    replace (String.length open + String.length m + String.length close)%nat with (String.length (open +:+ m +:+ close))
      by (rewrite !str_length_app; lia).
    replace (open +:+ m +:+ close +:+ rest) with ((open +:+ m +:+ close) +:+ rest) by by rewrite !str_app_assoc.
    rewrite str_drop_app, str_take_app. rewrite IH; [|by intros ???; apply (Hp u0 m0); right|destruct open; [done|]; simpl in Hf; lia].
    simpl. f_equal. unfold plain_seg. destruct u; by repeat case_decide.
Qed.
End Envelopes.

(** ** One pass over a text *)

Definition quiet (ps : list Pattern) (t : string) : Prop := forall p, p ∈ ps -> matches (pt_regex p) t = false.

Lemma quiet_sub ps a b c : quiet ps (a +:+ b +:+ c) -> quiet ps b.
Proof. intros H p Hp. by eapply matches_sub, H. Qed.

Lemma apply_quiet cf p t rs : matches (pt_regex p) t = false -> apply_pattern cf (t, rs) p = (t, rs).
Proof.
  intros H. unfold apply_pattern. simpl. rewrite H. unfold replace. cbn [replace_all].
  by rewrite (proj1 (matches_false _ _) H).
Qed.

Lemma fold_quiet cf ps t rs : quiet ps t -> foldl (apply_pattern cf) (t, rs) ps = (t, rs).
Proof.
  induction ps as [|p ps IH]; intros Hq; cbn [foldl]; [done|].
  rewrite apply_quiet by (apply Hq; by left). apply IH. intros q' Hq'. apply Hq. by right.
Qed.

Lemma apply_reasons cf p acc :
  (length acc.2 <= length (apply_pattern cf acc p).2)%nat /\
  (matches (pt_regex p) acc.1 = true -> pt_reason p ∉ acc.2 -> length (apply_pattern cf acc p).2 = S (length acc.2)).
Proof.
  unfold apply_pattern, add_reason. simpl. destruct (matches _ _); [|by split; [lia|]].
  case_decide; rewrite ?length_app; simpl; split; try done; lia.
Qed.

Lemma fold_grows cf ps acc : (length acc.2 <= length (foldl (apply_pattern cf) acc ps).2)%nat.
Proof.
  revert acc. induction ps as [|p ps IH]; intros acc; cbn [foldl]; [lia|].
  specialize (IH (apply_pattern cf acc p)). pose proof (proj1 (apply_reasons cf p acc)). lia.
Qed.

(** When no new reason is recorded, no pattern matched. *)
Lemma fold_no_new cf ps t rs :
  NoDup (map pt_reason ps) -> (forall p, p ∈ ps -> pt_reason p ∉ rs) ->
  (length (foldl (apply_pattern cf) (t, rs) ps).2 <= length rs)%nat -> quiet ps t.
Proof.
  revert rs. induction ps as [|p ps IH]; intros rs Hnd Hrs Hlen; [by intros ? ?%not_elem_of_nil|]. cbn [foldl map] in *.
  apply NoDup_cons in Hnd as [Hp Hnd].
  destruct (matches (pt_regex p) t) eqn:E.
  - pose proof (fold_grows cf ps (apply_pattern cf (t, rs) p)).
    rewrite (proj2 (apply_reasons cf p (t, rs)) E) in H by (apply Hrs; by left). simpl in H. lia.
  - rewrite apply_quiet in Hlen by done. intros p' [->|Hin]%elem_of_cons; [done|].
    apply (IH rs); [done| |done|done]. intros p'' ?. apply Hrs. by right.
Qed.

(** A pass that records at most one reason applies at most one pattern. *)
Lemma fold_single cf ps t out rs :
  NoDup (map pt_reason ps) -> foldl (apply_pattern cf) (t, []) ps = (out, rs) -> (length rs <= 1)%nat ->
  (out = t /\ rs = [] /\ quiet ps t) \/
  exists ps1 p ps2, ps = (ps1 ++ p :: ps2)%list /\ quiet ps1 t /\ out = replace (pt_regex p) (rewrite_match cf) t /\ quiet ps2 out.
Proof.
  induction ps as [|p ps IH]; intros Hnd Hf Hlen; cbn [foldl] in Hf.
  { left. simplify_eq. split_and!; [done..|by intros ? ?%not_elem_of_nil]. }
  cbn [map] in Hnd. apply NoDup_cons in Hnd as [Hp Hnd]. destruct (matches (pt_regex p) t) eqn:E.
  - right. exists [], p, ps. unfold apply_pattern in Hf at 2. simpl in Hf. rewrite E in Hf.
    change (add_reason [] (pt_reason p)) with [pt_reason p] in Hf.
    assert (quiet ps (replace (pt_regex p) (rewrite_match cf) t)) as Hq.
    { apply (fold_no_new cf ps _ [pt_reason p] Hnd); [|by rewrite Hf].
      intros p' Hin Heq%list_elem_of_singleton. apply Hp. rewrite <- Heq. apply list_elem_of_fmap. by exists p'. }
    rewrite fold_quiet in Hf by done. simplify_eq. split_and!; [done|by intros ? ?%not_elem_of_nil|done|done].
  - rewrite apply_quiet in Hf by done. destruct (IH Hnd Hf Hlen) as [(-> & -> & Hq)|(ps1 & p0 & ps2 & -> & H1 & -> & H2)].
    + left. split_and!; [done..|]. by intros p' [->|Hin]%elem_of_cons; [|apply Hq].
    + right. exists (p :: ps1), p0, ps2. split_and!; [done| |done|done]. by intros p' [->|Hin]%elem_of_cons; [|apply H1].
Qed.

Lemma apply_segments_quiet cf open close pieces tail rs :
  (forall u m, (u, m) ∈ pieces -> quiet (cf_patterns cf) u) -> quiet (cf_patterns cf) tail ->
  apply_segments cf (segments_of open close pieces tail) rs = (join (fun m => open +:+ m +:+ close) pieces tail, rs).
Proof.
  intros Hp Ht. assert (forall t k, quiet (cf_patterns cf) t ->
    apply_segments cf (plain_seg t ++ k) rs = (t +:+ (apply_segments cf k rs).1, (apply_segments cf k rs).2)) as Hs.
  { intros t k Hq. unfold plain_seg. case_decide as Ht'; simpl; [subst; by destruct (apply_segments cf k rs)|].
    rewrite fold_quiet by done. by destruct (apply_segments cf k rs). }
  induction pieces as [|[u m] pieces IH]; cbn [segments_of join].
  - rewrite <- (app_nil_r (plain_seg tail)), Hs by done. simpl. by rewrite str_app_nil_r.
  - rewrite Hs by (apply (Hp u m); by left). cbn [apply_segments].
    rewrite IH by (intros u' m' ?; apply (Hp u' m'); by right). simpl. by rewrite !str_app_assoc.
Qed.

Lemma quiet_split ps1 p ps2 t :
  quiet ps1 t -> matches (pt_regex p) t = false -> quiet ps2 t -> quiet (ps1 ++ p :: ps2) t.
Proof. intros H1 Hp H2 p' [?|[->|?]%elem_of_cons]%elem_of_app; [by apply H1|done|by apply H2]. Qed.

Section OnePass.
Context (cf : Config).
Context (Hwrap : cf_policy cf = Wrap).
Context (Hopen : unbordered (cf_open cf) = true) (Hclose : unbordered (cf_close cf) = true).
Context (Hone : cf_open cf <> "") (Hcne : cf_close cf <> "").
Context (Hg : forall p, p ∈ cf_patterns cf -> guarded (pt_regex p) = true).
Context (Hnd : NoDup (map pt_reason (cf_patterns cf))).

Lemma one_pass t out rs :
  indexOf (cf_open cf) t = None -> indexOf (cf_close cf) t = None ->
  applyToText cf t = Some (out, rs) -> (length rs <= 1)%nat ->
  exists pieces tail,
    t = join id pieces tail /\ out = join (fun m => cf_open cf +:+ m +:+ cf_close cf) pieces tail /\
    (forall u m, (u, m) ∈ pieces -> quiet (cf_patterns cf) u) /\ quiet (cf_patterns cf) tail.
Proof using Hwrap Hg Hnd.
  intros Ho Hc. unfold applyToText, splitByWrapEnvelope. cbn [split_envelope]. case_decide as Ht.
  { subst t. simpl. intros [= <- <-] _. exists [], "". split_and!; [done|done|by intros ?? ?%not_elem_of_nil|].
    intros p Hp. apply matches_false, find_match_None. intros [|? ?] b; rewrite ?str_app_nil_l, ?str_app_cons; [intros <-|done].
    by apply guarded_empty, Hg. }
  rewrite Ho. cbn -[foldl]. destruct (foldl _ _ _) as [out' rs'] eqn:F. rewrite str_app_nil_r. intros [= -> ->] Hlen.
  destruct (fold_single _ _ _ _ _ Hnd F Hlen) as [(-> & _ & Hq)|(ps1 & p & ps2 & Hps & H1 & -> & H2)].
  - exists [], t. split_and!; [done|done|by intros ?? ?%not_elem_of_nil|done].
  - destruct (replace_pieces (pt_regex p) (rewrite_match cf) t) as (pieces & tail & Hj & Hr & Hp & Htl).
    { apply Hg. rewrite Hps. apply elem_of_app. right. by left. }
    exists pieces, tail. rewrite Hr in H2 |- *. unfold rewrite_match in H2 |- *. rewrite Hwrap in H2 |- *. split_and!; [done|done|..].
    + intros u m Hin. rewrite Hps. destruct (join_sub id pieces tail) as (Hu & _). destruct (Hu u m Hin) as (a & c & Ha).
      destruct (join_sub (fun m => cf_open cf +:+ m +:+ cf_close cf) pieces tail) as (Hu' & _). destruct (Hu' u m Hin) as (a' & c' & Ha').
      apply quiet_split; [apply (quiet_sub _ a _ c); by rewrite <- Ha, <- Hj|by eapply Hp|apply (quiet_sub _ a' _ c'); by rewrite <- Ha'].
    + rewrite Hps. destruct (join_sub id pieces tail) as (_ & _ & a & Ha).
      destruct (join_sub (fun m => cf_open cf +:+ m +:+ cf_close cf) pieces tail) as (_ & _ & a' & Ha').
      apply quiet_split; [apply (quiet_sub _ a _ ""); rewrite str_app_nil_r; by rewrite <- Ha, <- Hj|done|].
      apply (quiet_sub _ a' _ ""). rewrite str_app_nil_r. by rewrite <- Ha'.
Qed.

Lemma pass_exact_stable t out rs :
  indexOf (cf_open cf) t = None -> indexOf (cf_close cf) t = None ->
  applyToText cf t = Some (out, rs) -> (length rs <= 1)%nat ->
  (exists pieces tail,
    t = join id pieces tail /\
    splitByWrapEnvelope out (cf_open cf) (cf_close cf) = Some (segments_of (cf_open cf) (cf_close cf) pieces tail) /\
    (forall u m, (u, m) ∈ pieces -> quiet (cf_patterns cf) u) /\ quiet (cf_patterns cf) tail) /\
  applyToText cf out = Some (out, []).
Proof using Hwrap Hopen Hclose Hone Hcne Hg Hnd.
  intros Ho Hc Ha Hlen. destruct (one_pass _ _ _ Ho Hc Ha Hlen) as (pieces & tail & -> & -> & Hp & Ht).
  destruct (join_sub id pieces tail) as (Hsu & Hsm & a0 & Hst).
  assert (splitByWrapEnvelope (join (fun m => cf_open cf +:+ m +:+ cf_close cf) pieces tail) (cf_open cf) (cf_close cf) =
          Some (segments_of (cf_open cf) (cf_close cf) pieces tail)) as Hsp.
  { apply split_pieces; [done..|lia| |].
    - intros u m Hin. destruct (Hsu u m Hin) as (a & c & Hu), (Hsm u m Hin) as (b & d & Hm). split.
      + apply (indexOf_sub _ a _ c). by rewrite <- Hu.
      + apply (indexOf_sub _ b (id m) d). by rewrite <- Hm.
    - apply (indexOf_sub _ a0 _ ""). rewrite str_app_nil_r. by rewrite <- Hst. }
  split; [by exists pieces, tail|]. unfold applyToText. rewrite Hsp. simpl. by rewrite apply_segments_quiet.
Qed.
End OnePass.

(** Wrapping is exact and stable. For text that carries neither delimiter, when
    the pass over it records at most one kind of signature: reading the output
    back by its envelopes gives exactly the original text cut into pieces, every
    enclosed piece being a match and no piece left outside containing any
    signature of the catalogue; and a second pass changes nothing and records
    nothing. *)
Theorem wrapping_exact_and_stable (t out : string) (rs : list reason) :
  str_includes COMMENTARY_WRAP_OPEN t = false -> str_includes COMMENTARY_WRAP_CLOSE t = false ->
  applyToText default_config t = Some (out, rs) -> (length rs <= 1)%nat ->
  (exists pieces tail,
    t = join id pieces tail /\
    splitByWrapEnvelope out COMMENTARY_WRAP_OPEN COMMENTARY_WRAP_CLOSE =
      Some (segments_of COMMENTARY_WRAP_OPEN COMMENTARY_WRAP_CLOSE pieces tail) /\
    (forall u m, (u, m) ∈ pieces -> quiet OUTBOUND_COMMENTARY_PATTERNS u) /\ quiet OUTBOUND_COMMENTARY_PATTERNS tail) /\
  applyToText default_config out = Some (out, []).
Proof.
  intros Ho%bool_decide_eq_false Hc%bool_decide_eq_false. apply eq_None_not_Some in Ho, Hc.
  apply (pass_exact_stable default_config eq_refl); try done.
  - intros p. change (cf_patterns default_config) with OUTBOUND_COMMENTARY_PATTERNS.
    intros Hp. assert (forallb (fun p => guarded (pt_regex p)) OUTBOUND_COMMENTARY_PATTERNS = true) as H by (vm_compute; done).
    rewrite forallb_forall in H. apply H. by apply list_elem_of_In.
  - apply (bool_decide_unpack _). vm_compute. done.
Qed.

Lemma wrapping_exact_and_stable_witness :
  let t := "say {" +:+ q "type" +:+ ":" +:+ q "agent.fanout.merged" +:+ "} ok" in
  let out := "say <<<commentary>>>{" +:+ q "type" +:+ ":" +:+ q "agent.fanout.merged" +:+ "}<<</commentary>>> ok" in
  applyToText default_config t = Some (out, [AgentFanout]) /\
  applyToText default_config out = Some (out, []).
Proof.
  intros t out. assert (applyToText default_config t = Some (out, [AgentFanout])) as H by (vm_compute; reflexivity).
  split; [exact H|]. apply (wrapping_exact_and_stable t out [AgentFanout]); [vm_compute; reflexivity..|exact H|simpl; lia].
Defined.

(** A close delimiter inside a match ends its envelope early: what follows it
    reads as plain text, signature included. *)
Example embedded_close_escapes :
  let hidden := "{" +:+ q "type" +:+ ":" +:+ q "agent.fanout.spawned" +:+ "}" in
  let t := "{" +:+ q "type" +:+ ":" +:+ q "agent.fanout.merged" +:+ COMMENTARY_WRAP_CLOSE +:+ " " +:+ hidden in
  match applyToText default_config t with
  | Some (out, rs) => rs = [AgentFanout] /\
      splitByWrapEnvelope out COMMENTARY_WRAP_OPEN COMMENTARY_WRAP_CLOSE =
      Some [Wrapped (COMMENTARY_WRAP_OPEN +:+ "{" +:+ q "type" +:+ ":" +:+ q "agent.fanout.merged" +:+ COMMENTARY_WRAP_CLOSE);
            Plain (" " +:+ hidden +:+ COMMENTARY_WRAP_CLOSE)]
  | None => False
  end.
Proof. vm_compute. split; reflexivity. Qed.

(** Under the strip policy, text that arrives in an envelope is delivered whole. *)
Example strip_keeps_enveloped_text :
  let t := COMMENTARY_WRAP_OPEN +:+ "{" +:+ q "type" +:+ ":" +:+ q "agent.fanout.merged" +:+ "}" +:+ COMMENTARY_WRAP_CLOSE in
  applyToText (mkConfig StripMatch DEFAULT_APPLY_TO_EVENTS OUTBOUND_COMMENTARY_PATTERNS COMMENTARY_WRAP_OPEN COMMENTARY_WRAP_CLOSE) t
  = Some (t, []).
Proof. vm_compute. reflexivity. Qed.

(** ** Payloads *)

Fixpoint map_strings (f : string -> string) (v : value) : value :=
  match v with
  | VStr s => VStr (f s)
  | VArr vs => VArr (map (map_strings f) vs)
  | VObj fs => VObj (map (fun p => (p.1, map_strings f p.2)) fs)
  | _ => v
  end.

(** Values [JSON.parse] can produce, without a property named [__proto__]. *)
Fixpoint json_value (v : value) : bool :=
  match v with
  | VExotic _ _ _ => false
  | VArr vs => forallb json_value vs
  | VObj fs => forallb (fun p => negb (bool_decide (p.1 = "__proto__")) && json_value p.2) fs
  | _ => true
  end.

Lemma json_stringifies v : json_value v = true -> stringifies v = true.
Proof.
  induction v as [| |x|n|s|vs IH|fs IH|k i fs IH] using value_ind'; try done; simpl;
    rewrite !forallb_forall, Forall_forall in *; intros H x Hx.
  - apply IH; [by apply list_elem_of_In|by apply H].
  - apply (IH x); [by apply list_elem_of_In|]. specialize (H x Hx). by apply andb_prop in H as [_ ?].
Qed.

Section Payload.
Context (cf : Config) (Hone : cf_open cf <> "").

Definition rewritten (s : string) : string := default s (fst <$> applyToText cf s).

Lemma applyToText_total s : exists rs, applyToText cf s = Some (rewritten s, rs).
Proof using Hone.
  unfold rewritten, applyToText, splitByWrapEnvelope.
  destruct (split_total (cf_open cf) (cf_close cf) (S (String.length s)) s Hone ltac:(lia)) as [segs ->]. simpl.
  destruct (apply_segments cf segs []) as [out rs]. by exists rs.
Qed.

Definition walks (v : value) : Prop := forall st, exists b rs,
  walkAndSanitize cf st v = Some (map_strings rewritten v, b, (rs, st.2 || bool_decide (map_strings rewritten v <> v))) /\
  (b = false -> map_strings rewritten v = v).

Lemma or_changed {A} `{EqDecision A} (x y : A) {B} `{EqDecision B} (xs ys : B) {C} `{EqDecision C} (u v : C) b :
  (u = v <-> x = y /\ xs = ys) ->
  b || bool_decide (x <> y) || bool_decide (xs <> ys) = b || bool_decide (u <> v).
Proof.
  intros H. rewrite <- orb_assoc. f_equal. repeat case_bool_decide; simpl; try done; naive_solver.
Qed.

Lemma walk_leaves v : json_value v = true -> walks v.
Proof using Hone.
  induction v as [| |x|n|s|vs IH|fs IH|k i fs IH] using value_ind'; intros Hj; try done.
  1, 2, 3: intros [rs m]; exists false, rs; cbn [map_strings walkAndSanitize snd]; by rewrite bool_decide_eq_false_2, orb_false_r by (intros H; by apply H).
  - intros [rs m]. exists (match n with NNaN => true | _ => false end), rs. cbn [map_strings walkAndSanitize snd].
    rewrite bool_decide_eq_false_2, orb_false_r by (intros H; by apply H). by destruct n.
  - intros [rs m]. destruct (applyToText_total s) as [rs' E]. exists (negb (bool_decide (rewritten s = s))), (foldl add_reason rs rs').
    cbn [map_strings walkAndSanitize snd]. unfold transform. rewrite E. cbn [mbind option_bind fst snd]. split; [|by intros ->%negb_false_iff%bool_decide_eq_true].
    rewrite (bool_decide_ext (VStr (rewritten s) <> VStr s) (rewritten s <> s)) by (split; intros Hd Hd'; apply Hd; congruence).
    by rewrite bool_decide_not.
  - cbn [json_value] in Hj. unfold walks. cbn [map_strings]. intros st. cbn [walkAndSanitize].
    match goal with |- exists b rs, ?g st vs ≫= _ = _ /\ _ => set (go := g) end.
    assert (forall st, exists b rs, go st vs = Some (map (map_strings rewritten) vs, b,
              (rs, st.2 || bool_decide (map (map_strings rewritten) vs <> vs))) /\ (b = false -> map (map_strings rewritten) vs = vs)) as Hgo.
    { clear st. induction IH as [|x vs Hx _ IHvs]; intros st.
      { exists false, st.1. simpl. rewrite orb_false_r. by destruct st. }
      cbn [forallb] in Hj. apply andb_prop in Hj as [Hjx Hjs]. destruct (Hx Hjx st) as (b & rs & Ex & Hb).
      destruct (IHvs Hjs (rs, st.2 || bool_decide (map_strings rewritten x <> x))) as (b' & rs' & Es & Hb').
      exists (orb b b'), rs'. unfold go in Es |- *. cbn -[walkAndSanitize]. rewrite Ex. cbn [mbind option_bind]. rewrite Es. cbn [mbind option_bind snd].
      rewrite (or_changed _ _ _ _ (map_strings rewritten x :: map (map_strings rewritten) vs) (x :: vs)) by (split; [by intros [= -> ->]|by intros [-> ->]]).
      split; [done|]. intros [Hb1 Hb2]%orb_false_iff. by rewrite Hb, Hb'. }
    destruct (Hgo st) as (b & rs & E & Hb). exists b, rs. rewrite E. cbn [mbind option_bind].
    rewrite (bool_decide_ext (VArr (map (map_strings rewritten) vs) <> VArr vs) (map (map_strings rewritten) vs <> vs)) by (split; intros Hd Hd'; apply Hd; congruence).
    split; [destruct b; [done|]; by rewrite (Hb eq_refl)|intros H; by rewrite (Hb H)].
  - cbn [json_value] in Hj. unfold walks. cbn [map_strings]. intros st. cbn [walkAndSanitize].
    match goal with |- exists b rs, ?g st fs ≫= _ = _ /\ _ => set (go := g) end.
    set (f := fun p : string * value => (p.1, map_strings rewritten p.2)).
    assert (forall st, exists b rs, go st fs = Some (map f fs, b, (rs, st.2 || bool_decide (map f fs <> fs))) /\ (b = false -> map f fs = fs)) as Hgo.
    { clear st. induction IH as [|[k x] fs Hx _ IHfs]; intros st.
      { exists false, st.1. simpl. rewrite orb_false_r. by destruct st. }
      cbn [forallb fst snd] in Hj. apply andb_prop in Hj as [[Hk%negb_true_iff%bool_decide_eq_false Hjx]%andb_prop Hjs].
      destruct (Hx Hjx st) as (b & rs & Ex & Hb). cbn [snd] in Ex, Hb.
      destruct (IHfs Hjs (rs, st.2 || bool_decide (map_strings rewritten x <> x))) as (b' & rs' & Es & Hb').
      exists (orb b b'), rs'. unfold go in Es |- *. cbn -[walkAndSanitize]. rewrite Ex. cbn [mbind option_bind]. rewrite Es. cbn [mbind option_bind snd].
      rewrite decide_False by done.
      rewrite (or_changed _ _ _ _ (f (k, x) :: map f fs) ((k, x) :: fs)) by (unfold f; cbn [fst snd]; split; [by intros [= -> ->]|by intros [-> ->]]).
      split; [done|]. intros [Hb1 Hb2]%orb_false_iff. rewrite Hb' by done. unfold f. cbn [fst snd]. by rewrite Hb. }
    destruct (Hgo st) as (b & rs & E & Hb). exists b, rs. rewrite E. cbn [mbind option_bind].
    rewrite (bool_decide_ext (VObj (map f fs) <> VObj fs) (map f fs <> fs)) by (split; intros Hd Hd'; apply Hd; congruence).
    split; [destruct b; [done|]; by rewrite (Hb eq_refl)|intros H; by rewrite (Hb H)].
Qed.
End Payload.

(** Sanitizing a frame is a map over the strings of its payload. With an
    active policy, for a selected event type and a JSON payload, the call returns;
    the delivered frame has the same ids, subject and type, its payload is the
    original with every string leaf replaced by its rewritten text and nothing
    else touched; and an audit decision is issued exactly when the payload
    changed. (Frames of other types, and all frames under the pass-through
    policy, are returned as they are.) *)
Theorem sanitize_maps_string_leaves (cf : Config) (frame : EventFrame) :
  cf_open cf <> "" -> cf_policy cf <> PassThrough -> fr_type frame ∈ cf_applyToEvents cf ->
  json_value (fr_payload frame) = true ->
  exists d,
    sanitize cf frame =
      Some (mkFrame (fr_eventId frame) (fr_subscriptionId frame) (fr_subject frame) (fr_type frame)
              (map_strings (rewritten cf) (fr_payload frame)), d) /\
    (is_Some d <-> map_strings (rewritten cf) (fr_payload frame) <> fr_payload frame).
Proof.
  intros Hone Hpol Htype Hj. unfold sanitize. rewrite decide_False by done. rewrite (bool_decide_eq_true_2 _ Htype).
  rewrite (json_stringifies _ Hj). cbn [negb].
  destruct (walk_leaves cf Hone _ Hj ([], false)) as (b & rs & -> & _). cbn [mbind option_bind snd orb].
  case_bool_decide as Hc.
  - eexists. split; [done|]. by split; [|eauto].
  - exists None. rewrite Hc. split; [by destruct frame|]. split; [by intros []|by intros []].
Qed.

Lemma sanitize_maps_string_leaves_witness :
  let leak := "{" +:+ q "type" +:+ ":" +:+ q "agent.fanout.merged" +:+ "}" in
  let f := mkFrame "e1" "s1" "session:a/events" "text.delta" (VObj [("delta", VStr leak); ("n", VNum (NFin 1))]) in
  exists d,
    sanitize default_config f =
      Some (mkFrame "e1" "s1" "session:a/events" "text.delta"
              (VObj [("delta", VStr ("<<<commentary>>>" +:+ leak +:+ "<<</commentary>>>")); ("n", VNum (NFin 1))]), d) /\
    is_Some d.
Proof.
  intros leak f.
  destruct (sanitize_maps_string_leaves default_config f ltac:(done) ltac:(done)
              ltac:(right; right; by left) ltac:(vm_compute; reflexivity)) as (d & E & Hd).
  exists d. split; [rewrite E; vm_compute; reflexivity|]. apply Hd.
  apply (bool_decide_unpack _). vm_compute. exact I.
Defined.
