(* ===== verification/Dispatcher.v ===== *)
(** * The WebSocket dispatcher

    [packages/server/src/ws/dispatcher.ts] with the frame schemas of
    [packages/protocol/src/server-message.ts]: connections, their subscriptions,
    the subject index, fan-out through the sanitizer and the schema check,
    backpressure, replay and shutdown.

    A connection's [send] and [bufferedAmount] belong to the socket; they are
    functions of the connection and of the number of earlier attempts. A subscription record is an
    object that a pending replay may hold after the map has dropped it: it
    carries the number of its allocation. Everything else happens in one
    synchronous call, at one time of the clock; an exception out of a call
    leaves the state reached so far. *)

From S2P Require Import Prelude JsValue Json Subjects ReplayBuffer Sanitizer.

Local Open Scope string_scope.
Local Open Scope Z_scope.

(** ** Frames *)

Inductive LifecycleStatus := Running | Paused | Completed | Aborted | Failed.

Inductive RpcId := IdStr (s : string) | IdNum (n : Z).

Inductive ServerMessage :=
| MEvent (f : EventFrame)
| MLifecycle (subscriptionId : string) (status : LifecycleStatus) (reason : option string)
| MReplayMarker (subscriptionId eventId : string) (droppedCount : Z) (note : string)
| MSubscribed (subscriptionId subject : string) (snapshotEventId : option string)
| MUnsubscribed (subscriptionId : string)
| MPong (nonce : option string)
| MSuccess (id : RpcId) (result : value)
| MFailure (id : RpcId) (code : Z) (message : string).

(** [z.string().min(1)], and the optional form *)
Definition min1 (s : string) : bool := negb (bool_decide (s = "")).
Definition min1_opt (s : option string) : bool := match s with Some s => min1 s | None => true end.
Definition RpcId_ok (i : RpcId) : bool := match i with IdStr s => min1 s | IdNum _ => true end.

(** [ServerMessageSchema.safeParse] on the frames the server builds *)
Definition ServerMessageSchema (m : ServerMessage) : bool :=
  match m with
  | MEvent f => min1 (fr_eventId f) && min1 (fr_subscriptionId f) && min1 (fr_subject f) && min1 (fr_type f)
  | MLifecycle sid _ reason => min1 sid && min1_opt reason
  | MReplayMarker sid eid n note => min1 sid && min1 eid && (0 <=? n) && min1 note
  | MSubscribed sid subject snap => min1 sid && min1 subject && min1_opt snap
  | MUnsubscribed sid => min1 sid
  | MPong nonce => min1_opt nonce
  | MSuccess i _ => RpcId_ok i
  | MFailure i _ message => RpcId_ok i && min1 message
  end.

(** ** State *)

Record Handle := mkHandle {
  h_id : string;
  h_tokenId : string;
  h_grantedScopes : list ParsedScope;
  h_samples : bool;              (** [bufferedAmount] is implemented *)
}.

Record SubscriberRecord := mkSubscriber {
  sb_handle : Handle;
  sb_subscriptions : list string;
  sb_outstanding : Z;
  sb_closed : bool;
}.

Record SubscriptionRecord := mkSubscription {
  sr_ref : nat;
  sr_subscriberId : string;
  sr_tokenId : string;
  sr_subscriptionId : string;
  sr_subject : string;
  sr_parsed : ParsedSubject;
  sr_createdAt : Z;
  sr_lastEventId : option string;
}.

Inductive Warning :=
| InvalidFrame (subscriptionId : string)
| QueueOverflow (subscriptionId : string)
| SubjectRejected (subject : string) (reason : subject_reason).

(** What the dispatcher does to the outside, in order. *)
Inductive action :=
| ASend (connection : string) (m : ServerMessage)
| AClose (connection : string) (code : Z) (reason : string)
| AWarn (w : Warning)
| AAudit (d : CommentaryDecision).

Record Dispatcher := mkDispatcher {
  d_subscribers : list (string * SubscriberRecord);
  d_subscriptions : list (string * SubscriptionRecord);
  d_subjectIndex : list (string * list string);
  d_eventCounter : Z;
  d_buffer : ReplayBuffer;
  d_attempts : nat;
  d_refs : nat;
  d_log : list action;
}.

Definition createWsDispatcher : Dispatcher := mkDispatcher [] [] [] 0 empty_buffer 0 0 [].

Definition set_subscribers x (d : Dispatcher) : Dispatcher :=
  mkDispatcher x (d_subscriptions d) (d_subjectIndex d) (d_eventCounter d) (d_buffer d) (d_attempts d) (d_refs d) (d_log d).
Definition set_subscriptions x (d : Dispatcher) : Dispatcher :=
  mkDispatcher (d_subscribers d) x (d_subjectIndex d) (d_eventCounter d) (d_buffer d) (d_attempts d) (d_refs d) (d_log d).
Definition set_subjectIndex x (d : Dispatcher) : Dispatcher :=
  mkDispatcher (d_subscribers d) (d_subscriptions d) x (d_eventCounter d) (d_buffer d) (d_attempts d) (d_refs d) (d_log d).
Definition set_eventCounter x (d : Dispatcher) : Dispatcher :=
  mkDispatcher (d_subscribers d) (d_subscriptions d) (d_subjectIndex d) x (d_buffer d) (d_attempts d) (d_refs d) (d_log d).
Definition set_buffer x (d : Dispatcher) : Dispatcher :=
  mkDispatcher (d_subscribers d) (d_subscriptions d) (d_subjectIndex d) (d_eventCounter d) x (d_attempts d) (d_refs d) (d_log d).
Definition set_refs x (d : Dispatcher) : Dispatcher :=
  mkDispatcher (d_subscribers d) (d_subscriptions d) (d_subjectIndex d) (d_eventCounter d) (d_buffer d) (d_attempts d) x (d_log d).
Definition attempted (d : Dispatcher) : Dispatcher :=
  mkDispatcher (d_subscribers d) (d_subscriptions d) (d_subjectIndex d) (d_eventCounter d) (d_buffer d) (S (d_attempts d)) (d_refs d) (d_log d).
Definition log (a : action) (d : Dispatcher) : Dispatcher :=
  mkDispatcher (d_subscribers d) (d_subscriptions d) (d_subjectIndex d) (d_eventCounter d) (d_buffer d) (d_attempts d) (d_refs d)
    (d_log d ++ [a])%list.

(** [Set.prototype.add] and [delete] in insertion order *)
Definition set_add (x : string) (l : list string) : list string := if decide (x ∈ l) then l else (l ++ [x])%list.
Definition set_del (x : string) (l : list string) : list string := filter (fun y => y <> x) l.

Definition indexed (subject : string) (d : Dispatcher) : list string := default [] (jget subject (d_subjectIndex d)).

Definition indexSubject (subject id : string) (d : Dispatcher) : Dispatcher :=
  set_subjectIndex (jset subject (set_add id (indexed subject d)) (d_subjectIndex d)) d.

Definition deindexSubject (subject id : string) (d : Dispatcher) : Dispatcher :=
  match jget subject (d_subjectIndex d) with
  | None => d
  | Some set =>
      let set := set_del id set in
      set_subjectIndex (if decide (set = []) then jdel subject (d_subjectIndex d) else jset subject set (d_subjectIndex d)) d
  end.

(** ** [Number.prototype.toString(36)] on a natural number *)

Definition digit36 (n : Z) : ascii := ascii_of_nat (Z.to_nat (if n <? 10 then 48 + n else 87 + n)).

Fixpoint digits36 (fuel : nat) (n : Z) (acc : string) : string :=
  match fuel with
  | O => acc
  | S fuel' =>
      let acc := String (digit36 (n mod 36)) acc in
      if n <? 36 then acc else digits36 fuel' (n / 36) acc
  end.

Definition toString36 (n : Z) : string := digits36 (S (Z.to_nat (Z.log2 n))) n "".

Definition nextEventId (now : Z) (d : Dispatcher) : string * Dispatcher :=
  let n := d_eventCounter d + 1 in
  ("evt-" +:+ toString36 now +:+ "-" +:+ toString36 n, set_eventCounter n d).

Section Dispatch.
Context (cf : Config) (maxEvents ttlMs perConnectionQueueLimit : Z).
(** Of each socket: the backlog seen by the n-th attempt, and whether [send] returns. *)
Context (net_buffered : string -> nat -> Z) (net_sends : string -> nat -> bool).

(** The loop body shared by [shutdownSubscriber] and [unregister]. *)
Definition drop_subscription (d : Dispatcher) (id : string) : Dispatcher :=
  match jget id (d_subscriptions d) with
  | None => d
  | Some sub => let d := deindexSubject (sr_subject sub) id d in set_subscriptions (jdel id (d_subscriptions d)) d
  end.

Definition shutdownSubscriber (sb : SubscriberRecord) (code : Z) (reason : string) (d : Dispatcher) : Dispatcher :=
  if sb_closed sb then d
  else
    let d := log (AClose (h_id (sb_handle sb)) code reason) d in
    let d := foldl drop_subscription d (sb_subscriptions sb) in
    set_subscribers (jdel (h_id (sb_handle sb)) (d_subscribers d)) d.

Definition with_outstanding (n : Z) (sb : SubscriberRecord) : SubscriberRecord :=
  mkSubscriber (sb_handle sb) (sb_subscriptions sb) n (sb_closed sb).

Definition dispatchToSubscriber (r : SubscriptionRecord) (m : ServerMessage) (d : Dispatcher) : Dispatcher :=
  match jget (sr_subscriberId r) (d_subscribers d) with
  | None => d
  | Some sb =>
      if sb_closed sb then d
      else
        let n := d_attempts d in
        let d := attempted d in
        let buffered := if h_samples (sb_handle sb) then net_buffered (h_id (sb_handle sb)) n else 0 in
        let throttled d := shutdownSubscriber sb 4006 "flow.throttled" (log (AWarn (QueueOverflow (sr_subscriptionId r))) d) in
        if (perConnectionQueueLimit <=? sb_outstanding sb) || (perConnectionQueueLimit * 1024 <=? buffered) then throttled d
        else
          let outstanding := sb_outstanding sb + 1 in
          if net_sends (h_id (sb_handle sb)) n then
            let d := log (ASend (h_id (sb_handle sb)) m) d in
            set_subscribers (jset (sr_subscriberId r) (with_outstanding (Z.max 0 (outstanding - 1)) sb) (d_subscribers d)) d
          else throttled d
  end.

Definition validateAndDispatch (r : SubscriptionRecord) (m : ServerMessage) (d : Dispatcher) : Dispatcher :=
  if ServerMessageSchema m then dispatchToSubscriber r m d
  else log (AWarn (InvalidFrame (sr_subscriptionId r))) d.

Definition with_lastEventId (e : string) (r : SubscriptionRecord) : SubscriptionRecord :=
  mkSubscription (sr_ref r) (sr_subscriberId r) (sr_tokenId r) (sr_subscriptionId r) (sr_subject r) (sr_parsed r)
    (sr_createdAt r) (Some e).

(** [record.lastEventId = e]: seen through the map while it holds this record. *)
Definition touch (r : SubscriptionRecord) (e : string) (d : Dispatcher) : Dispatcher :=
  match jget (sr_subscriptionId r) (d_subscriptions d) with
  | Some r' =>
      if decide (sr_ref r' = sr_ref r)
      then set_subscriptions (jset (sr_subscriptionId r) (with_lastEventId e r') (d_subscriptions d)) d
      else d
  | None => d
  end.

Definition audit (dc : option CommentaryDecision) (d : Dispatcher) : Dispatcher :=
  match dc with Some dc => log (AAudit dc) d | None => d end.

(** [false]: the sanitizer threw. *)
Definition dispatchSanitized (r : SubscriptionRecord) (f : EventFrame) (d : Dispatcher) : Dispatcher * bool :=
  match sanitize cf f with
  | None => (d, false)
  | Some (f', dc) => (touch r (fr_eventId f') (validateAndDispatch r (MEvent f') (audit dc d)), true)
  end.

Definition with_subscriptionId (id : string) (f : EventFrame) : EventFrame :=
  mkFrame (fr_eventId f) id (fr_subject f) (fr_type f) (fr_payload f).

(** ** Operations *)

Definition registerSubscriber (h : Handle) (d : Dispatcher) : Dispatcher :=
  set_subscribers (jset (h_id h) (mkSubscriber h [] 0 false) (d_subscribers d)) d.

Definition unregister (id : string) (d : Dispatcher) : Dispatcher :=
  match jget id (d_subscribers d) with
  | None => d
  | Some sb =>
      let d := foldl drop_subscription d (sb_subscriptions sb) in
      set_subscribers (jdel id (d_subscribers d)) d
  end.

Record Snapshot := mkSnapshot {
  sn_subscriptionId : string;
  sn_subject : string;
  sn_kind : ParsedSubject;
  sn_subscriberId : string;
  sn_tokenId : string;
  sn_createdAt : Z;
  sn_lastEventId : option string;
}.

Definition snapshotForRecord (r : SubscriptionRecord) : Snapshot :=
  mkSnapshot (sr_subscriptionId r) (sr_subject r) (sr_parsed r) (sr_subscriberId r) (sr_tokenId r) (sr_createdAt r) (sr_lastEventId r).

(** What the [dispatchReplay] closure holds. *)
Record Replay := mkReplay {
  rp_record : SubscriptionRecord;
  rp_events : list EventFrame;
  rp_droppedCount : Z;
  rp_snapshotEventId : option string;
  rp_dispatched : bool;
}.

Definition replay_note (n : Z) : string := "Replay buffer dropped " +:+ pr_Z n " events before resume.".

Fixpoint replay_events (r : SubscriptionRecord) (es : list EventFrame) (d : Dispatcher) : Dispatcher * bool :=
  match es with
  | [] => (d, true)
  | e :: es' =>
      match dispatchSanitized r (with_subscriptionId (sr_subscriptionId r) e) d with
      | (d, true) => replay_events r es' d
      | (d, false) => (d, false)
      end
  end.

Definition fallback_id (now : Z) : string := "evt-replay-" +:+ toString36 now.

Definition dispatchReplay (now : Z) (p : Replay) (d : Dispatcher) : Dispatcher * bool * Replay :=
  if rp_dispatched p then (d, true, p)
  else
    let p' := mkReplay (rp_record p) (rp_events p) (rp_droppedCount p) (rp_snapshotEventId p) true in
    match replay_events (rp_record p) (rp_events p) d with
    | (d, false) => (d, false, p')
    | (d, true) =>
        let id := sr_subscriptionId (rp_record p) in
        (if 0 <? rp_droppedCount p
         then validateAndDispatch (rp_record p)
                (MReplayMarker id (default (fallback_id now) (rp_snapshotEventId p)) (rp_droppedCount p)
                   (replay_note (rp_droppedCount p))) d
         else d, true, p')
    end.

Inductive SubscribeReason := SubjectMalformed | SubjectUnknown | SubjectWildcard | ScopeDenied.

Inductive SubscribeResult :=
| SubscribeOk (s : Snapshot) (replayedCount : nat) (snapshotEventId : option string) (p : Replay)
| SubscribeFailed (reason : SubscribeReason).

(** [None]: the call threw. *)
Definition subscribe (now : Z) (subscriberId subject subscriptionId : string) (since : option string) (deferReplay : bool)
    (d : Dispatcher) : Dispatcher * option SubscribeResult :=
  match jget subscriberId (d_subscribers d) with
  | None => (d, Some (SubscribeFailed SubjectUnknown))
  | Some sb =>
      match tryParseSubject subject with
      | Err reason =>
          (log (AWarn (SubjectRejected subject reason)) d,
           Some (SubscribeFailed match reason with
                                 | WildcardNotSupported => SubjectWildcard
                                 | UnknownSubject => SubjectUnknown
                                 | Malformed => SubjectMalformed
                                 end))
      | Ok parsed =>
          match isSubjectAllowed (h_grantedScopes (sb_handle sb)) parsed with
          | Err _ => (d, None)
          | Ok false => (d, Some (SubscribeFailed ScopeDenied))
          | Ok true =>
              let r := mkSubscription (d_refs d) subscriberId (h_tokenId (sb_handle sb)) subscriptionId subject parsed now None in
              let d := set_refs (S (d_refs d)) d in
              let d := set_subscriptions (jset subscriptionId r (d_subscriptions d)) d in
              let d := set_subscribers (jset subscriberId
                         (mkSubscriber (sb_handle sb) (set_add subscriptionId (sb_subscriptions sb)) (sb_outstanding sb) (sb_closed sb))
                         (d_subscribers d)) d in
              let d := indexSubject subject subscriptionId d in
              let '(slice, b) := replay ttlMs now subject since (d_buffer d) in
              let d := set_buffer b d in
              let snapshotEventId :=
                match sl_nextEventIdHint slice with
                | Some e => Some e
                | None => if 0 <? sl_droppedCount slice then Some (fallback_id now) else None
                end in
              let p := mkReplay r (sl_events slice) (sl_droppedCount slice) snapshotEventId false in
              let '(d, ok, p) := if deferReplay then (d, true, p) else dispatchReplay now p d in
              let current :=
                if deferReplay then r
                else match last_id (sl_events slice) with Some e => with_lastEventId e r | None => r end in
              (d, if ok then Some (SubscribeOk (snapshotForRecord current) (length (sl_events slice)) snapshotEventId p) else None)
          end
      end
  end.

Definition unsubscribe (id : string) (d : Dispatcher) : Dispatcher * bool :=
  match jget id (d_subscriptions d) with
  | None => (d, false)
  | Some r =>
      let d := match jget (sr_subscriberId r) (d_subscribers d) with
               | None => d
               | Some sb =>
                   set_subscribers (jset (sr_subscriberId r)
                     (mkSubscriber (sb_handle sb) (set_del id (sb_subscriptions sb)) (sb_outstanding sb) (sb_closed sb))
                     (d_subscribers d)) d
               end in
      let d := deindexSubject (sr_subject r) id d in
      (set_subscriptions (jdel id (d_subscriptions d)) d, true)
  end.

Record BareEventFrame := mkBare { bf_type : string; bf_payload : value; bf_eventId : option string }.

(** The ids still in the set, in order: an entry removed while the loop runs is
    not visited. *)
Fixpoint emit_loop (subject : string) (f : EventFrame) (ids : list string) (d : Dispatcher) : Dispatcher * bool :=
  match ids with
  | [] => (d, true)
  | id :: ids' =>
      if decide (id ∈ indexed subject d) then
        match jget id (d_subscriptions d) with
        | None => emit_loop subject f ids' d
        | Some r =>
            match dispatchSanitized r (with_subscriptionId id f) d with
            | (d, true) => emit_loop subject f ids' d
            | (d, false) => (d, false)
            end
        end
      else emit_loop subject f ids' d
  end.

Definition emit (now : Z) (subject : string) (bare : BareEventFrame) (d : Dispatcher) : Dispatcher * bool :=
  let '(eventId, d) := match bf_eventId bare with Some e => (e, d) | None => nextEventId now d end in
  let f := mkFrame eventId "__pending__" subject (bf_type bare) (bf_payload bare) in
  let d := set_buffer (push maxEvents ttlMs now subject f (d_buffer d)) d in
  emit_loop subject f (indexed subject d) d.

Definition emitLifecycle (id : string) (status : LifecycleStatus) (reason : option string) (d : Dispatcher) : Dispatcher :=
  match jget id (d_subscriptions d) with
  | None => d
  | Some r => validateAndDispatch r (MLifecycle id status reason) d
  end.

Definition listForSubscriber (id : string) (d : Dispatcher) : list Snapshot :=
  match jget id (d_subscribers d) with
  | None => []
  | Some sb => map snapshotForRecord (omap (fun id => jget id (d_subscriptions d)) (sb_subscriptions sb))
  end.

Definition snapshotSubscription (id : string) (d : Dispatcher) : option Snapshot :=
  snapshotForRecord <$> jget id (d_subscriptions d).

Definition dispatcher_size (d : Dispatcher) : nat * nat := (length (d_subscribers d), length (d_subscriptions d)).

(** Frames of the closing round skip the schema and the backpressure checks. *)
Definition farewell (d : Dispatcher) (r : SubscriptionRecord) : Dispatcher :=
  match jget (sr_subscriberId r) (d_subscribers d) with
  | None => d
  | Some sb =>
      let n := d_attempts d in
      let d := attempted d in
      if net_sends (h_id (sb_handle sb)) n
      then log (ASend (h_id (sb_handle sb)) (MLifecycle (sr_subscriptionId r) Aborted (Some "server-shutdown"))) d
      else d
  end.

Definition shutdown (d : Dispatcher) : Dispatcher :=
  let d := foldl farewell d (map snd (d_subscriptions d)) in
  let d := foldl (fun d h => log (AClose (h_id h) 4007 "server.shutdown") d) d (map (fun p => sb_handle p.2) (d_subscribers d)) in
  set_subscribers [] (set_subjectIndex [] (set_subscriptions [] d)).
End Dispatch.
