(* ===== verification/DispatcherFacts.v ===== *)
(** * The dispatcher's invariant

    The subscription map, the subject index and the connections' sets describe
    one relation; every operation keeps them in step. *)

From S2P Require Import Prelude JsValue Json Subjects ReplayBuffer Sanitizer Dispatcher.

Local Open Scope string_scope.

Definition record_at (id : string) (d : Dispatcher) : option SubscriptionRecord := jget id (d_subscriptions d).
Definition connection (c : string) (d : Dispatcher) : option SubscriberRecord := jget c (d_subscribers d).

(** The index is the subject of each subscription, grouped. *)
Record aligned (d : Dispatcher) : Prop := {
  al_index : forall s id, id ∈ indexed s d -> exists r, record_at id d = Some r /\ sr_subject r = s;
  al_listed : forall id r, record_at id d = Some r -> id ∈ indexed (sr_subject r) d;
  al_nodup : forall s, NoDup (indexed s d);
  al_nonempty : forall s, jget s (d_subjectIndex d) <> Some [];
  al_id : forall id r, record_at id d = Some r -> sr_subscriptionId r = id;
}.

Record wired (d : Dispatcher) : Prop := {
  wi_aligned : aligned d;
  wi_owned : forall id r, record_at id d = Some r ->
    exists sb, connection (sr_subscriberId r) d = Some sb /\ id ∈ sb_subscriptions sb;
  wi_conn : forall c sb, connection c d = Some sb ->
    h_id (sb_handle sb) = c /\ sb_closed sb = false /\ sb_outstanding sb = 0%Z /\ NoDup (sb_subscriptions sb) /\
    forall id, id ∈ sb_subscriptions sb -> exists r, record_at id d = Some r /\ sr_subscriberId r = c;
}.

Lemma elem_of_set_add x y l : x ∈ set_add y l <-> x = y \/ x ∈ l.
Proof. unfold set_add. case_decide; set_solver. Qed.

Lemma NoDup_set_add y l : NoDup l -> NoDup (set_add y l).
Proof.
  intros H. unfold set_add. case_decide; [done|]. apply NoDup_app. split_and!; [done|set_solver|apply NoDup_singleton].
Qed.

Lemma filter_id {A} (P : A -> Prop) `{!forall x, Decision (P x)} (l : list A) : (forall x, x ∈ l -> P x) -> filter P l = l.
Proof.
  induction l as [|x l IH]; intros HP; [done|]. rewrite filter_cons_True by (apply HP; by left).
  by rewrite IH by (intros y Hy; apply HP; by right).
Qed.

(** ** Removing subscriptions *)

Definition same_rest (d d' : Dispatcher) : Prop :=
  d_subscribers d' = d_subscribers d /\ d_eventCounter d' = d_eventCounter d /\ d_buffer d' = d_buffer d /\
  d_attempts d' = d_attempts d /\ d_refs d' = d_refs d /\ d_log d' = d_log d.

Lemma indexed_deindex s subject id d :
  indexed s (deindexSubject subject id d) = if decide (s = subject) then set_del id (indexed s d) else indexed s d.
Proof.
  unfold deindexSubject. destruct (jget subject (d_subjectIndex d)) as [l|] eqn:E.
  - unfold indexed. simpl. case_decide as Hl; rewrite ?jget_jdel, ?jget_jset; case_decide as Hs; try done; subst; rewrite E; simpl; done.
  - case_decide as Hs; [subst|done]. unfold indexed. by rewrite E.
Qed.

Lemma drop_spec d id :
  aligned d ->
  aligned (drop_subscription d id) /\ same_rest d (drop_subscription d id) /\
  (forall id', record_at id' (drop_subscription d id) = if decide (id' = id) then None else record_at id' d) /\
  (forall s, indexed s (drop_subscription d id) = set_del id (indexed s d)).
Proof.
  intros [Hi Hl Hn Hne Hid]. unfold drop_subscription.
  change (jget id (d_subscriptions d)) with (record_at id d). destruct (record_at id d) as [r|] eqn:E.
  - set (d1 := deindexSubject (sr_subject r) id d).
    assert (d_subscriptions d1 = d_subscriptions d) as Hsubs by (unfold d1, deindexSubject; by destruct (jget _ _)).
    assert (forall id', record_at id' (set_subscriptions (jdel id (d_subscriptions d1)) d1) =
              if decide (id' = id) then None else record_at id' d) as Hrec.
    { intros id'. unfold record_at. simpl. by rewrite jget_jdel, Hsubs. }
    assert (forall s, indexed s (set_subscriptions (jdel id (d_subscriptions d1)) d1) = set_del id (indexed s d)) as Hix.
    { intros s. unfold indexed at 1. simpl. fold (indexed s d1). unfold d1. rewrite indexed_deindex. case_decide as Hs; [done|].
      symmetry. apply filter_id. intros x Hx ->. destruct (Hi s id Hx) as (r' & Hr' & <-). congruence. }
    split_and!; [|unfold d1, deindexSubject; by destruct (jget _ _)|done|done].
    split.
    + intros s id'. rewrite Hix, Hrec. unfold set_del. rewrite list_elem_of_filter. intros [Hne' Hin].
      rewrite decide_False by done. by apply Hi.
    + intros id' r'. rewrite Hrec. case_decide as Hd; [done|]. intros Hr'. rewrite Hix. apply list_elem_of_filter. by split; [|apply Hl].
    + intros s. rewrite Hix. by apply NoDup_filter.
    + intros s. simpl. unfold d1, deindexSubject. destruct (jget (sr_subject r) (d_subjectIndex d)) as [l|] eqn:El; [|apply Hne].
      simpl. case_decide as Hd; rewrite ?jget_jdel, ?jget_jset; case_decide as Hs; try done; congruence.
    + intros id' r'. rewrite Hrec. case_decide as Hd; [done|]. apply Hid.
  - split_and!; [by split|done| |].
    + intros id'. case_decide as Hd; [by subst|done].
    + intros s. symmetry. apply filter_id. intros x Hx ->. destruct (Hi s id Hx) as (r' & Hr' & _). congruence.
Qed.

Lemma drop_all_spec ids d :
  aligned d ->
  aligned (foldl drop_subscription d ids) /\ same_rest d (foldl drop_subscription d ids) /\
  (forall id', record_at id' (foldl drop_subscription d ids) = if decide (id' ∈ ids) then None else record_at id' d) /\
  (forall s, indexed s (foldl drop_subscription d ids) = filter (fun x => x ∉ ids) (indexed s d)).
Proof.
  revert d. induction ids as [|id ids IH]; intros d Ha; cbn [foldl].
  - split_and!; [done|done|..].
    + intros id'. by rewrite decide_False by apply not_elem_of_nil.
    + intros s. symmetry. apply filter_id. intros x _. apply not_elem_of_nil.
  - destruct (drop_spec d id Ha) as (Ha1 & Hs1 & Hr1 & Hi1). destruct (IH _ Ha1) as (Ha2 & Hs2 & Hr2 & Hi2).
    split_and!; [done|unfold same_rest in *; naive_solver congruence|..].
    + intros id'. rewrite Hr2, Hr1. repeat case_decide; set_solver.
    + intros s. rewrite Hi2, Hi1. unfold set_del. rewrite list_filter_filter. apply list_filter_iff. set_solver.
Qed.

(** ** Removing a connection *)

Definition purge (c : string) (sb : SubscriberRecord) (d : Dispatcher) : Dispatcher :=
  let d := foldl drop_subscription d (sb_subscriptions sb) in set_subscribers (jdel c (d_subscribers d)) d.

(** The subscription belongs to another connection. *)
Definition other_owner (c : string) (d : Dispatcher) (id : string) : Prop :=
  match record_at id d with Some r => sr_subscriberId r <> c | None => True end.

#[export] Instance other_owner_dec c d id : Decision (other_owner c d id).
Proof. unfold other_owner. destruct (record_at id d); apply _. Defined.

Lemma owned_iff d c sb id :
  wired d -> connection c d = Some sb ->
  (id ∈ sb_subscriptions sb <-> exists r, record_at id d = Some r /\ sr_subscriberId r = c).
Proof.
  intros Hw Hc. split; [by apply (wi_conn d Hw c sb Hc)|].
  intros (r & Hr & <-). destruct (wi_owned d Hw id r Hr) as (sb' & Hc' & Hin). congruence.
Qed.

Lemma purge_spec c sb d :
  wired d -> connection c d = Some sb ->
  wired (purge c sb d) /\
  (forall c', connection c' (purge c sb d) = if decide (c' = c) then None else connection c' d) /\
  (forall id, record_at id (purge c sb d) = if decide (other_owner c d id) then record_at id d else None) /\
  (forall s, indexed s (purge c sb d) = filter (other_owner c d) (indexed s d)) /\
  d_log (purge c sb d) = d_log d /\ d_buffer (purge c sb d) = d_buffer d /\ d_refs (purge c sb d) = d_refs d /\
  d_attempts (purge c sb d) = d_attempts d /\ d_eventCounter (purge c sb d) = d_eventCounter d.
Proof.
  intros Hw Hc. pose proof (owned_iff d c sb) as Hown.
  assert (forall id, id ∉ sb_subscriptions sb <-> other_owner c d id) as Hoo.
  { intros id. unfold other_owner. rewrite (Hown id Hw Hc). destruct (record_at id d) as [r|]; naive_solver. }
  destruct (drop_all_spec (sb_subscriptions sb) d (wi_aligned d Hw)) as (Ha & (S1 & S2 & S3 & S4 & S5 & S6) & Hr & Hi).
  unfold purge. set (d1 := foldl drop_subscription d (sb_subscriptions sb)) in *.
  assert (forall c', connection c' (set_subscribers (jdel c (d_subscribers d1)) d1) = if decide (c' = c) then None else connection c' d) as Hconn.
  { intros c'. unfold connection. simpl. by rewrite jget_jdel, S1. }
  assert (forall id, record_at id (set_subscribers (jdel c (d_subscribers d1)) d1) = if decide (other_owner c d id) then record_at id d else None) as Hrec.
  { intros id. change (record_at id (set_subscribers _ d1)) with (record_at id d1). rewrite Hr. specialize (Hoo id).
    repeat case_decide; try done; naive_solver. }
  split_and!; [|done|done| |done..].
  - split.
    + destruct Ha. by split.
    + intros id r Hid. rewrite Hrec in Hid. case_decide as Hd; [|done].
      destruct (wi_owned d Hw id r Hid) as (sb' & Hc' & Hin). exists sb'. split; [|done]. rewrite Hconn.
      rewrite decide_False; [done|]. intros Heq. unfold other_owner in Hd. rewrite Hid in Hd. done.
    + intros c' sb'. rewrite Hconn. case_decide as Hd; [done|]. intros Hc'.
      destruct (wi_conn d Hw c' sb' Hc') as (H1 & H2 & H3 & H4 & H5). split_and!; try done.
      intros id Hin. destruct (H5 id Hin) as (r & Hr' & Hs). exists r. rewrite Hrec, decide_True; [done|].
      unfold other_owner. rewrite Hr'. congruence.
  - intros s. change (indexed s (set_subscribers _ d1)) with (indexed s d1). rewrite Hi. apply list_filter_iff. exact Hoo.
Qed.

(** ** Changes the invariant does not see *)

Definition same_core (d d' : Dispatcher) : Prop :=
  d_subscribers d' = d_subscribers d /\ d_subscriptions d' = d_subscriptions d /\
  d_subjectIndex d' = d_subjectIndex d /\ d_refs d' = d_refs d.

Lemma same_core_wired d d' : same_core d d' -> wired d -> wired d'.
Proof.
  intros (E1 & E2 & E3 & E4) [[A1 A2 A3 A4 A5] B C].
  unfold record_at, connection, indexed in *. split; [split|..]; unfold record_at, connection, indexed; rewrite ?E1, ?E2, ?E3, ?E4; done.
Qed.

Lemma touch_spec r e d :
  aligned d ->
  d_subscribers (touch r e d) = d_subscribers d /\ d_subjectIndex (touch r e d) = d_subjectIndex d /\
  d_refs (touch r e d) = d_refs d /\ d_log (touch r e d) = d_log d /\ d_buffer (touch r e d) = d_buffer d /\
  d_attempts (touch r e d) = d_attempts d /\ d_eventCounter (touch r e d) = d_eventCounter d /\
  forall id, record_at id (touch r e d) = record_at id d \/
    exists r', record_at id d = Some r' /\ record_at id (touch r e d) = Some (with_lastEventId e r').
Proof.
  intros Ha. unfold touch. change (jget (sr_subscriptionId r) (d_subscriptions d)) with (record_at (sr_subscriptionId r) d).
  destruct (record_at (sr_subscriptionId r) d) as [r'|] eqn:E; [|split_and!; by auto].
  case_decide as Hr; [|split_and!; by auto]. split_and!; [done..|].
  intros id. unfold record_at. simpl. rewrite jget_jset. case_decide as Hid; [subst|by left]. right. by exists r'.
Qed.

Lemma touch_wired r e d : wired d -> wired (touch r e d).
Proof.
  intros [[A1 A2 A3 A4 A5] B C].
  destruct (touch_spec r e d (Build_aligned _ A1 A2 A3 A4 A5)) as (T1 & T2 & T3 & _ & _ & _ & _ & T).
  assert (forall id r1, record_at id (touch r e d) = Some r1 -> exists r2, record_at id d = Some r2 /\ sr_subject r1 = sr_subject r2 /\
            sr_subscriptionId r1 = sr_subscriptionId r2 /\ sr_ref r1 = sr_ref r2 /\ sr_subscriberId r1 = sr_subscriberId r2) as Hback.
  { intros id r1 H. destruct (T id) as [Ht|(r' & Hr' & Ht)]; rewrite Ht in H; [by exists r1|]. simplify_eq. by exists r'. }
  assert (forall id r2, record_at id d = Some r2 -> exists r1, record_at id (touch r e d) = Some r1 /\ sr_subject r1 = sr_subject r2 /\
            sr_subscriberId r1 = sr_subscriberId r2) as Hforth.
  { intros id r2 H. destruct (T id) as [Ht|(r' & Hr' & Ht)]; rewrite Ht; [by exists r2|]. simplify_eq. by eexists. }
  assert (forall s, indexed s (touch r e d) = indexed s d) as Hix by (intros s; unfold indexed; by rewrite T2).
  assert (forall c, connection c (touch r e d) = connection c d) as Hc by (intros c; unfold connection; by rewrite T1).
  split; [split|..].
  - intros s id. rewrite Hix. intros Hin. destruct (A1 s id Hin) as (r2 & Hr2 & <-). destruct (Hforth id r2 Hr2) as (r1 & ? & ? & _). by exists r1.
  - intros id r1 Hr1. destruct (Hback id r1 Hr1) as (r2 & Hr2 & -> & _). rewrite Hix. by apply A2.
  - intros s. by rewrite Hix.
  - by rewrite T2.
  - intros id r1 Hr1. destruct (Hback id r1 Hr1) as (r2 & Hr2 & _ & -> & _). by apply A5.
  - intros id r1 Hr1. destruct (Hback id r1 Hr1) as (r2 & Hr2 & _ & _ & _ & ->). destruct (B id r2 Hr2) as (sb & ? & ?). exists sb. by rewrite Hc.
  - intros c sb. rewrite Hc. intros H. destruct (C c sb H) as (? & ? & ? & ? & H5). split_and!; try done.
    intros id Hin. destruct (H5 id Hin) as (r2 & Hr2 & <-). destruct (Hforth id r2 Hr2) as (r1 & ? & _ & ?). by exists r1.
Qed.

(** ** One delivery *)

Section Delivery.
Context (cf : Config) (maxEvents ttlMs limit : Z).
Context (net_buffered : string -> nat -> Z) (net_sends : string -> nat -> bool).
Local Notation dispatchToSubscriber := (dispatchToSubscriber limit net_buffered net_sends).
Local Notation validateAndDispatch := (validateAndDispatch limit net_buffered net_sends).
Local Notation dispatchSanitized := (dispatchSanitized cf limit net_buffered net_sends).
Local Notation emit_loop := (emit_loop cf limit net_buffered net_sends).
Local Notation replay_events := (replay_events cf limit net_buffered net_sends).

(** The socket takes every frame and never lags by more than the limit allows. *)
Definition healthy (c : string) : Prop :=
  (1 <= limit)%Z /\ forall n, (net_buffered c n < limit * 1024)%Z /\ net_sends c n = true.

(** Closing a lagging connection. *)
Definition cut_off (c sid : string) (sb : SubscriberRecord) (d : Dispatcher) : Dispatcher :=
  purge c sb (log (AClose c 4006 "flow.throttled") (log (AWarn (QueueOverflow sid)) (attempted d))).

Lemma same_core_log a d : same_core d (log a d).
Proof. done. Qed.
Lemma same_core_attempted d : same_core d (attempted d).
Proof. done. Qed.

Lemma dispatch_cases r m d :
  wired d ->
  let c := sr_subscriberId r in
  (connection c d = None /\ dispatchToSubscriber r m d = d) \/
  exists sb, connection c d = Some sb /\
    (dispatchToSubscriber r m d = log (ASend c m) (attempted d) \/
     dispatchToSubscriber r m d = cut_off c (sr_subscriptionId r) sb d /\ ~ healthy c).
Proof.
  intros Hw c. unfold Dispatcher.dispatchToSubscriber.
  change (jget (sr_subscriberId r) (d_subscribers d)) with (connection c d).
  destruct (connection c d) as [sb|] eqn:E; [|by left]. right. exists sb. split; [done|].
  destruct (wi_conn d Hw c sb E) as (Hh & Hcl & Ho & _). rewrite Hcl, Ho, Hh. cbv zeta.
  assert (forall x, shutdownSubscriber sb 4006 "flow.throttled" (log (AWarn (QueueOverflow (sr_subscriptionId r))) x) =
            purge c sb (log (AClose c 4006 "flow.throttled") (log (AWarn (QueueOverflow (sr_subscriptionId r))) x))) as Hsd.
  { intros x. unfold shutdownSubscriber. rewrite Hcl, Hh. done. }
  rewrite Hsd. fold (cut_off c (sr_subscriptionId r) sb d).
  destruct (_ || _)%bool eqn:Et; [|destruct (net_sends c (d_attempts d)) eqn:Es].
  - right. split; [done|]. intros [Hl Hn]. destruct (Hn (d_attempts d)) as [Hb _].
    apply orb_true_iff in Et as [Et%Z.leb_le|Et%Z.leb_le]; [lia|]. destruct (h_samples (sb_handle sb)); lia.
  - left. unfold log. simpl. unfold attempted, set_subscribers. simpl. f_equal.
    apply jset_id. fold c. change (jget c (d_subscribers d)) with (connection c d). rewrite E. f_equal.
    destruct sb; simpl in *; by subst.
  - right. split; [done|]. intros [_ Hn]. destruct (Hn (d_attempts d)) as [_ Hs]. congruence.
Qed.

(** What one delivery can do: nothing but a record in the log, one frame to the
    record's connection, or the end of that connection. *)
Inductive delivery (r : SubscriptionRecord) (m : ServerMessage) (d : Dispatcher) : Dispatcher -> Prop :=
| DlGone : connection (sr_subscriberId r) d = None -> delivery r m d d
| DlInvalid w : ServerMessageSchema m = false -> delivery r m d (log (AWarn w) d)
| DlSent sb :
    connection (sr_subscriberId r) d = Some sb -> delivery r m d (log (ASend (sr_subscriberId r) m) (attempted d))
| DlCut sb :
    connection (sr_subscriberId r) d = Some sb -> ~ healthy (sr_subscriberId r) ->
    delivery r m d (cut_off (sr_subscriberId r) (sr_subscriptionId r) sb d).

Lemma validate_delivery r m d : wired d -> delivery r m d (validateAndDispatch r m d).
Proof.
  intros Hw. unfold Dispatcher.validateAndDispatch. destruct (ServerMessageSchema m) eqn:E; [|by constructor].
  destruct (dispatch_cases r m d Hw) as [[Hn ->]|(sb & Hc & [->|[-> Hh]])]; by econstructor.
Qed.

Lemma cut_off_spec c sid sb d :
  wired d -> connection c d = Some sb ->
  wired (cut_off c sid sb d) /\
  (forall c', connection c' (cut_off c sid sb d) = if decide (c' = c) then None else connection c' d) /\
  (forall id, record_at id (cut_off c sid sb d) = if decide (other_owner c d id) then record_at id d else None) /\
  (forall s, indexed s (cut_off c sid sb d) = filter (other_owner c d) (indexed s d)) /\
  d_log (cut_off c sid sb d) = (d_log d ++ [AWarn (QueueOverflow sid); AClose c 4006 "flow.throttled"])%list /\
  d_buffer (cut_off c sid sb d) = d_buffer d /\ d_refs (cut_off c sid sb d) = d_refs d.
Proof.
  intros Hw Hc. unfold cut_off. set (d1 := log _ _).
  assert (wired d1) as Hw1 by (apply (same_core_wired d); [done|done]).
  destruct (purge_spec c sb d1 Hw1 Hc) as (H1 & H2 & H3 & H4 & H5 & H6 & H7 & _).
  split_and!; try done. rewrite H5. unfold d1. simpl. by rewrite <- app_assoc.
Qed.

Lemma delivery_wired r m d d' : wired d -> delivery r m d d' -> wired d'.
Proof.
  intros Hw []; [done|by apply (same_core_wired d)|by apply (same_core_wired d)|by apply cut_off_spec].
Qed.

Lemma delivery_buffer r m d d' : wired d -> delivery r m d d' -> d_buffer d' = d_buffer d.
Proof. intros Hw []; try done. by apply cut_off_spec. Qed.

(** Frames sent by a delivery go to the record's connection. *)
Lemma delivery_log r m d d' :
  wired d -> delivery r m d d' ->
  exists new, d_log d' = (d_log d ++ new)%list /\ forall c m', ASend c m' ∈ new -> c = sr_subscriberId r /\ m' = m.
Proof.
  intros Hw [].
  - exists []. rewrite app_nil_r. split; [done|]. by intros ?? ?%not_elem_of_nil.
  - eexists. split; [done|]. intros c m' ?%list_elem_of_singleton. done.
  - eexists. split; [done|]. intros c m' Hin%list_elem_of_singleton. by simplify_eq.
  - destruct (cut_off_spec (sr_subscriberId r) (sr_subscriptionId r) sb d Hw) as (_ & _ & _ & _ & -> & _); [done|].
    eexists. split; [done|]. intros c m'. set_solver.
Qed.

Lemma delivery_connections r m d d' c sb :
  wired d -> delivery r m d d' -> connection c d' = Some sb -> connection c d = Some sb.
Proof.
  intros Hw [] Hc; try done. destruct (cut_off_spec (sr_subscriberId r) (sr_subscriptionId r) sb0 d Hw) as (_ & H2 & _); [done|].
  rewrite H2 in Hc. by case_decide.
Qed.

Lemma delivery_records r m d d' id q :
  wired d -> delivery r m d d' -> record_at id d' = Some q -> record_at id d = Some q.
Proof.
  intros Hw [] Hc; try done. destruct (cut_off_spec (sr_subscriberId r) (sr_subscriptionId r) sb d Hw) as (_ & _ & H3 & _); [done|].
  rewrite H3 in Hc. by case_decide.
Qed.
End Delivery.

(** ** Connections and subscriptions come and go *)

Lemma register_wired h d : wired d -> connection (h_id h) d = None -> wired (registerSubscriber h d).
Proof.
  intros [Ha Ho Hc] Hnew. assert (forall c, connection c (registerSubscriber h d) =
    if decide (c = h_id h) then Some (mkSubscriber h [] 0 false) else connection c d) as Hconn.
  { intros c. unfold connection. simpl. by rewrite jget_jset. }
  split; [destruct Ha; by split|..].
  - intros id r Hr. destruct (Ho id r Hr) as (sb & Hsb & Hin). exists sb. rewrite Hconn, decide_False; [done|]. congruence.
  - intros c sb. rewrite Hconn. case_decide as Hd; [intros [= <-]; subst|apply Hc].
    split_and!; [done..|apply NoDup_nil_2|]. by intros id ?%not_elem_of_nil.
Qed.

Lemma unregister_purge c d :
  unregister c d = match connection c d with None => d | Some sb => purge c sb d end.
Proof. done. Qed.

Lemma unregister_wired c d : wired d -> wired (unregister c d).
Proof.
  intros Hw. rewrite unregister_purge. destruct (connection c d) as [sb|] eqn:E; [|done]. by apply purge_spec.
Qed.

(** A new record entered in the three maps. *)
Definition enrol (r : SubscriptionRecord) (sb : SubscriberRecord) (d : Dispatcher) : Dispatcher :=
  let d := set_refs (S (d_refs d)) d in
  let d := set_subscriptions (jset (sr_subscriptionId r) r (d_subscriptions d)) d in
  let d := set_subscribers (jset (sr_subscriberId r)
             (mkSubscriber (sb_handle sb) (set_add (sr_subscriptionId r) (sb_subscriptions sb)) (sb_outstanding sb) (sb_closed sb))
             (d_subscribers d)) d in
  indexSubject (sr_subject r) (sr_subscriptionId r) d.

Lemma enrol_spec r sb d :
  wired d -> connection (sr_subscriberId r) d = Some sb -> record_at (sr_subscriptionId r) d = None ->
  wired (enrol r sb d) /\
  (forall id, record_at id (enrol r sb d) = if decide (id = sr_subscriptionId r) then Some r else record_at id d) /\
  (forall c sb', connection c (enrol r sb d) = Some sb' -> exists sb0, connection c d = Some sb0 /\ sb_handle sb' = sb_handle sb0).
Proof.
  intros [[A1 A2 A3 A4 A5] Ho Hc] Hconn Hnew.
  assert (forall id, record_at id (enrol r sb d) = if decide (id = sr_subscriptionId r) then Some r else record_at id d) as Hrec.
  { intros id. unfold record_at. simpl. by rewrite jget_jset. }
  set (sb1 := mkSubscriber (sb_handle sb) (set_add (sr_subscriptionId r) (sb_subscriptions sb)) (sb_outstanding sb) (sb_closed sb)).
  assert (forall c, connection c (enrol r sb d) = if decide (c = sr_subscriberId r) then Some sb1 else connection c d) as Hcn.
  { intros c. unfold connection. simpl. by rewrite jget_jset. }
  assert (forall s, indexed s (enrol r sb d) = if decide (s = sr_subject r) then set_add (sr_subscriptionId r) (indexed s d) else indexed s d) as Hix.
  { intros s. unfold enrol, indexSubject. unfold indexed at 1. simpl. rewrite jget_jset. case_decide; [by subst|done]. }
  assert (forall s, sr_subscriptionId r ∉ indexed s d) as Hfresh.
  { intros s Hin. destruct (A1 s _ Hin) as (q & Hq & _). congruence. }
  split_and!; [split; [split|..]|done|].
  - intros s id. rewrite Hix, Hrec. case_decide as Hs.
    + rewrite elem_of_set_add. intros [->|Hin]; [rewrite decide_True by done; by exists r|].
      rewrite decide_False by (intros ->; by apply (Hfresh s)). by apply A1.
    + intros Hin. rewrite decide_False by (intros ->; by apply (Hfresh s)). by apply A1.
  - intros id q. rewrite Hrec, Hix. case_decide as Hid; [intros [= <-]; subst|intros Hq].
    + rewrite decide_True by done. apply elem_of_set_add. by left.
    + apply A2 in Hq as Hin. case_decide; [apply elem_of_set_add; by right|done].
  - intros s. rewrite Hix. case_decide; [by apply NoDup_set_add|done].
  - intros s. unfold enrol, indexSubject. simpl. rewrite jget_jset. case_decide; [|by apply A4].
    unfold set_add. case_decide; [|by destruct (indexed _ _)]. set_solver.
  - intros id q. rewrite Hrec. case_decide; [intros [= <-]; by subst|apply A5].
  - intros id q. rewrite Hrec. case_decide as Hid; [intros [= <-]; subst id|intros Hq].
    + exists sb1. rewrite Hcn, decide_True by done. split; [done|]. apply elem_of_set_add. by left.
    + destruct (Ho id q Hq) as (sb' & Hsb' & Hin). rewrite Hcn. case_decide as Hcc; [|by exists sb'].
      exists sb1. split; [done|]. apply elem_of_set_add. right. congruence.
  - intros c sb'. rewrite Hcn. case_decide as Hcc; [intros [= <-]; subst c|intros Hsb'].
    + destruct (Hc _ sb Hconn) as (C1 & C2 & C3 & C4 & C5). split_and!; [done..|by apply NoDup_set_add|].
      intros id [->|Hin]%elem_of_set_add; [exists r; by rewrite Hrec, decide_True|].
      destruct (C5 id Hin) as (q & Hq & Hs). exists q. rewrite Hrec, decide_False by congruence. done.
    + destruct (Hc _ sb' Hsb') as (C1 & C2 & C3 & C4 & C5). split_and!; try done.
      intros id Hin. destruct (C5 id Hin) as (q & Hq & Hs). exists q. rewrite Hrec, decide_False by congruence. done.
  - intros c sb'. rewrite Hcn. case_decide as Hcc; [intros [= <-]; subst c; by exists sb|intros H; by exists sb'].
Qed.

Lemma unsubscribe_spec id d d' ok :
  wired d -> unsubscribe id d = (d', ok) ->
  wired d' /\
  (forall id', record_at id' d' = if decide (id' = id) then None else record_at id' d) /\
  (forall c sb', connection c d' = Some sb' -> exists sb0, connection c d = Some sb0 /\ sb_handle sb' = sb_handle sb0) /\
  d_log d' = d_log d /\ d_buffer d' = d_buffer d.
Proof.
  intros Hw. unfold unsubscribe. change (jget id (d_subscriptions d)) with (record_at id d).
  destruct (record_at id d) as [r|] eqn:E; intros [= <- <-]; cycle 1.
  { split_and!; [done| |by eauto|done|done]. intros id'. case_decide; [by subst|done]. }
  destruct (wi_owned d Hw id r E) as (sb & Hsb & Hin). unfold connection in Hsb. rewrite Hsb.
  set (sb1 := mkSubscriber (sb_handle sb) (set_del id (sb_subscriptions sb)) (sb_outstanding sb) (sb_closed sb)).
  set (d1 := set_subscribers (jset (sr_subscriberId r) sb1 (d_subscribers d)) d).
  assert (aligned d1) as Ha1 by (destruct (wi_aligned d Hw); by split).
  destruct (drop_spec d1 id Ha1) as (Ha & (S1 & S2 & S3 & S4 & S5 & S6) & Hr & Hi).
  unfold drop_subscription in Ha, S1, S2, S3, S4, S5, S6, Hr, Hi.
  change (jget id (d_subscriptions d1)) with (record_at id d) in *. rewrite E in *.
  set (d2 := set_subscriptions _ _) in *.
  assert (forall c, connection c d2 = if decide (c = sr_subscriberId r) then Some sb1 else connection c d) as Hcn.
  { intros c. unfold connection. rewrite S1. simpl. by rewrite jget_jset. }
  split_and!; [split; [done|..]|done| |done|done].
  - intros id' q. rewrite Hr. case_decide as Hid; [done|]. intros Hq.
    destruct (wi_owned d Hw id' q Hq) as (sb' & Hsb' & Hin'). rewrite Hcn. case_decide as Hc; [|by exists sb'].
    exists sb1. split; [done|]. apply list_elem_of_filter. split; [done|]. unfold connection in Hsb'. congruence.
  - intros c sb'. rewrite Hcn. case_decide as Hc; [intros [= <-]; subst c|intros Hsb'].
    + destruct (wi_conn d Hw _ sb Hsb) as (C1 & C2 & C3 & C4 & C5). split_and!; [done..|by apply NoDup_filter|].
      intros id' [Hne Hin']%list_elem_of_filter. destruct (C5 id' Hin') as (q & Hq & Hs). exists q. by rewrite Hr, decide_False.
    + destruct (wi_conn d Hw _ sb' Hsb') as (C1 & C2 & C3 & C4 & C5). split_and!; try done.
      intros id' Hin'. destruct (C5 id' Hin') as (q & Hq & Hs). exists q. rewrite Hr, decide_False; [done|]. intros ->. congruence.
  - intros c sb'. rewrite Hcn. case_decide as Hc; [intros [= <-]; subst c; by exists sb|by eauto].
Qed.
