(* ===== verification/DispatcherProps.v ===== *)
(** * What the dispatcher guarantees

    The dispatcher with the replays its callers still hold, as a state machine;
    the invariant of its maps, and the safety of its deliveries. *)

From S2P Require Import Prelude JsValue Json Subjects ReplayBuffer Sanitizer Dispatcher DispatcherFacts.
From stdpp Require Import relations.

Local Open Scope string_scope.

Lemma sanitize_keeps cf f f' dc :
  sanitize cf f = Some (f', dc) ->
  fr_subject f' = fr_subject f /\ fr_eventId f' = fr_eventId f /\ fr_subscriptionId f' = fr_subscriptionId f /\ fr_type f' = fr_type f.
Proof.
  unfold sanitize. case_decide; [by intros [= <- <-]|]. destruct (negb _); [by intros [= <- <-]|]. destruct (negb _); [done|].
  destruct (walkAndSanitize _ _ _) as [[[next b] [rs []]]|]; simpl; [|intros [= <- <-]|]; try done; by intros [= <- <-].
Qed.

Definition allowed (h : Handle) (subject : string) : Prop :=
  exists p, tryParseSubject subject = Ok p /\ isSubjectAllowed (h_grantedScopes h) p = Ok true.

(** The record up to its [lastEventId]. *)
Definition alike (r r' : SubscriptionRecord) : Prop :=
  sr_subscriberId r = sr_subscriberId r' /\ sr_subject r = sr_subject r' /\ sr_subscriptionId r = sr_subscriptionId r'.

Section Props.
Context (cf : Config) (maxEvents ttlMs limit : Z).
Context (net_buffered : string -> nat -> Z) (net_sends : string -> nat -> bool).
Local Notation delivery := (delivery limit net_buffered net_sends).
Local Notation validateAndDispatch := (validateAndDispatch limit net_buffered net_sends).
Local Notation dispatchSanitized := (dispatchSanitized cf limit net_buffered net_sends).
Local Notation emit_loop := (emit_loop cf limit net_buffered net_sends).
Local Notation replay_events := (replay_events cf limit net_buffered net_sends).
Local Notation dispatchReplay := (dispatchReplay cf limit net_buffered net_sends).
Local Notation subscribe := (subscribe cf ttlMs limit net_buffered net_sends).
Local Notation emit := (emit cf maxEvents ttlMs limit net_buffered net_sends).
Local Notation emitLifecycle := (emitLifecycle limit net_buffered net_sends).
Local Notation shutdown := (shutdown net_sends).

(** ** Sequences of deliveries *)

Inductive progress (P : SubscriptionRecord -> ServerMessage -> Prop) : Dispatcher -> Dispatcher -> Prop :=
| PrRefl d : progress P d d
| PrDeliver r m d1 d2 d3 : P r m -> delivery r m d1 d2 -> progress P d2 d3 -> progress P d1 d3
| PrTouch r e d1 d2 : progress P (touch r e d1) d2 -> progress P d1 d2
| PrAudit dc d1 d2 : progress P (log (AAudit dc) d1) d2 -> progress P d1 d2.

Lemma progress_trans P d1 d2 d3 : progress P d1 d2 -> progress P d2 d3 -> progress P d1 d3.
Proof. induction 1; [done|by econstructor; eauto|by econstructor; eauto|by econstructor; eauto]. Qed.

Record outcome (P : SubscriptionRecord -> ServerMessage -> Prop) (d d' : Dispatcher) : Prop := {
  oc_wired : wired d';
  oc_buffer : d_buffer d' = d_buffer d;
  oc_log : exists new, d_log d' = (d_log d ++ new)%list /\
             forall c m, ASend c m ∈ new -> exists r, P r m /\ c = sr_subscriberId r;
  oc_conn : forall c sb, connection c d' = Some sb -> connection c d = Some sb;
  oc_rec : forall id q, record_at id d' = Some q -> exists q', record_at id d = Some q' /\ alike q q';
}.

Lemma progress_outcome P d d' : wired d -> progress P d d' -> outcome P d d'.
Proof.
  intros Hw Hp. revert Hw. induction Hp as [d|r m d1 d2 d3 HP Hd Hp IH|r e d1 d2 Hp IH|dc d1 d2 Hp IH]; intros Hw.
  - split; [done..|exists []|done|].
    + rewrite app_nil_r. split; [done|]. by intros ?? ?%not_elem_of_nil.
    + intros id q Hq. by exists q.
  - destruct (IH (delivery_wired _ _ _ _ _ _ _ Hw Hd)) as [O1 O2 (new & O3 & O3') O4 O5].
    destruct (delivery_log _ _ _ _ _ _ _ Hw Hd) as (new0 & L1 & L2). split; [done| | | |].
    + by rewrite O2, (delivery_buffer _ _ _ _ _ _ _ Hw Hd).
    + exists (new0 ++ new)%list. rewrite O3, L1, app_assoc. split; [done|].
      intros c m' [Hin|Hin]%elem_of_app; [|by apply O3']. destruct (L2 c m' Hin) as [-> ->]. by exists r.
    + intros c sb Hc. by eapply delivery_connections, O4.
    + intros id q (q' & Hq' & Ha)%O5. exists q'. split; [|done]. by eapply delivery_records.
  - destruct (touch_spec r e d1 (wi_aligned _ Hw)) as (T1 & T2 & T3 & T4 & T5 & _ & _ & T).
    destruct (IH (touch_wired _ _ _ Hw)) as [O1 O2 O3 O4 O5]. rewrite T5 in O2. rewrite T4 in O3.
    split; [done..| |].
    + intros c sb Hc%O4. unfold connection in *. by rewrite T1 in Hc.
    + intros id q (q' & Hq' & Ha)%O5. destruct (T id) as [Ht|(q2 & Hq2 & Ht)]; rewrite Ht in Hq'; [by exists q'|].
      simplify_eq. by exists q2.
  - destruct (IH (same_core_wired _ _ (same_core_log _ _) Hw)) as [O1 O2 (new & O3 & O3') O4 O5].
    split; [done..| |done|done]. simpl in O3. exists (AAudit dc :: new). rewrite O3, <- app_assoc. split; [done|].
    intros c m [?|Hin]%elem_of_cons; [done|by apply O3'].
Qed.

Lemma sanitized_progress (P : SubscriptionRecord -> ServerMessage -> Prop) r f d d' ok :
  wired d -> (forall f' dc, sanitize cf f = Some (f', dc) -> P r (MEvent f')) ->
  dispatchSanitized r f d = (d', ok) -> progress P d d'.
Proof.
  intros Hw HP. unfold Dispatcher.dispatchSanitized. destruct (sanitize cf f) as [[f' dc]|] eqn:E; intros [= <- <-]; [|constructor].
  assert (wired (audit dc d)) as Hw1 by (destruct dc; [by apply (same_core_wired d)|done]).
  assert (progress P (audit dc d) (touch r (fr_eventId f') (validateAndDispatch r (MEvent f') (audit dc d)))) as Hp.
  { eapply PrDeliver; [by eapply HP|by apply validate_delivery|]. eapply PrTouch, PrRefl. }
  destruct dc as [dc|]; [|done]. by eapply PrAudit.
Qed.

Lemma replay_progress (P : SubscriptionRecord -> ServerMessage -> Prop) r es d d' ok :
  wired d ->
  (forall e f' dc, e ∈ es -> sanitize cf (with_subscriptionId (sr_subscriptionId r) e) = Some (f', dc) -> P r (MEvent f')) ->
  replay_events r es d = (d', ok) -> progress P d d'.
Proof.
  revert d. induction es as [|e es IH]; intros d Hw HP; simpl; [intros [= <- <-]; constructor|].
  destruct (dispatchSanitized _ _ d) as [d1 ok1] eqn:E.
  assert (progress P d d1) as Hp1 by (eapply sanitized_progress; [done| |done]; intros f' dc Hs; eapply HP; [by left|done]).
  destruct ok1; [|by intros [= <- <-]]. intros H. eapply progress_trans; [done|].
  apply IH; [by apply (progress_outcome _ _ _ Hw Hp1)| |done]. intros e' f' dc Hin. apply HP. by right.
Qed.

Lemma emit_progress (P : SubscriptionRecord -> ServerMessage -> Prop) subject f ids d d' ok :
  wired d ->
  (forall id r q f' dc, record_at id d = Some q -> alike r q -> sr_subject q = subject -> id ∈ ids ->
     sanitize cf (with_subscriptionId id f) = Some (f', dc) -> P r (MEvent f')) ->
  emit_loop subject f ids d = (d', ok) -> progress P d d'.
Proof.
  revert d. induction ids as [|id ids IH]; intros d Hw HP; simpl; [intros [= <- <-]; constructor|].
  assert (forall d1, progress P d d1 -> emit_loop subject f ids d1 = (d', ok) -> progress P d d') as Hnext.
  { intros d1 Hp Hl. eapply progress_trans; [done|]. destruct (progress_outcome _ _ _ Hw Hp) as [O1 _ _ _ O5].
    apply (IH d1); [done| |done].
    intros id' r q f' dc (q' & Hq' & (A1 & A2 & A3))%O5 (B1 & B2 & B3) Hs Hin Hsan.
    apply (HP id' r q' f' dc); [done| |congruence|by right|done]. split_and!; congruence. }
  case_decide as Hin; [|by apply Hnext, PrRefl]. destruct (jget id (d_subscriptions d)) as [r|] eqn:E; [|by apply Hnext, PrRefl].
  destruct (dispatchSanitized r _ d) as [d1 ok1] eqn:Ed.
  assert (progress P d d1) as Hp1.
  { eapply sanitized_progress; [done| |done]. intros f' dc. apply (HP id r r); [done|done| |by left].
    destruct (al_index _ (wi_aligned _ Hw) _ _ Hin) as (q & Hq & <-). unfold record_at in Hq. congruence. }
  destruct ok1; [by apply Hnext|by intros [= <- <-]].
Qed.

(** ** The dispatcher in use

    With the replays still held by callers, every handle ever registered and
    every subscription id ever issued. Connection and subscription ids are
    random tokens of the server: a new one differs from all earlier ones. *)

Record World := mkWorld {
  w_d : Dispatcher;
  w_pending : list Replay;
  w_handles : list (string * Handle);
  w_used : list string;
}.

Definition initial : World := mkWorld createWsDispatcher [] [] [].

Inductive wstep (w : World) : World -> Prop :=
| WRegister h :
    jget (h_id h) (w_handles w) = None ->
    wstep w (mkWorld (registerSubscriber h (w_d w)) (w_pending w) (jset (h_id h) h (w_handles w)) (w_used w))
| WUnregister c : wstep w (mkWorld (unregister c (w_d w)) (w_pending w) (w_handles w) (w_used w))
| WSubscribe now c subject sid since defer d' res :
    sid ∉ w_used w -> subscribe now c subject sid since defer (w_d w) = (d', res) ->
    wstep w (mkWorld d' (match res with Some (SubscribeOk _ _ _ p) => p :: w_pending w | _ => w_pending w end)
               (w_handles w) (sid :: w_used w))
| WReplay now i p d' ok p' :
    w_pending w !! i = Some p -> dispatchReplay now p (w_d w) = (d', ok, p') ->
    wstep w (mkWorld d' (<[i := p']> (w_pending w)) (w_handles w) (w_used w))
| WUnsubscribe sid d' ok :
    unsubscribe sid (w_d w) = (d', ok) -> wstep w (mkWorld d' (w_pending w) (w_handles w) (w_used w))
| WEmit now subject bare d' ok :
    emit now subject bare (w_d w) = (d', ok) -> wstep w (mkWorld d' (w_pending w) (w_handles w) (w_used w))
| WLifecycle sid status reason :
    wstep w (mkWorld (emitLifecycle sid status reason (w_d w)) (w_pending w) (w_handles w) (w_used w))
| WShutdown : wstep w (mkWorld (shutdown (w_d w)) (w_pending w) (w_handles w) (w_used w)).

Definition reachable (w : World) : Prop := rtc wstep initial w.

(** The record's connection holds a scope for the record's subject. *)
Definition cleared (H : list (string * Handle)) (r : SubscriptionRecord) : Prop :=
  exists h, jget (sr_subscriberId r) H = Some h /\ allowed h (sr_subject r).

Definition filed (b : ReplayBuffer) : Prop := forall s x, x ∈ buffer_of s b -> fr_subject (be_event x) = s.

Definition sent_ok (H : list (string * Handle)) (l : list action) : Prop :=
  forall c f, ASend c (MEvent f) ∈ l -> exists h, jget c H = Some h /\ allowed h (fr_subject f).

Record sound (w : World) : Prop := {
  so_wired : wired (w_d w);
  so_handles : forall c sb, connection c (w_d w) = Some sb -> jget c (w_handles w) = Some (sb_handle sb);
  so_records : forall id r, record_at id (w_d w) = Some r -> cleared (w_handles w) r /\ id ∈ w_used w;
  so_pending : forall p, p ∈ w_pending w ->
    cleared (w_handles w) (rp_record p) /\ forall e, e ∈ rp_events p -> fr_subject e = sr_subject (rp_record p);
  so_buffer : filed (d_buffer (w_d w));
  so_log : sent_ok (w_handles w) (d_log (w_d w));
}.

(** A sequence of deliveries to cleared records keeps a world sound. *)
Lemma sound_progress w d d' (P : SubscriptionRecord -> ServerMessage -> Prop) :
  sound w -> w_d w = d -> progress P d d' ->
  (forall r f, P r (MEvent f) -> exists h, jget (sr_subscriberId r) (w_handles w) = Some h /\ allowed h (fr_subject f)) ->
  sound (mkWorld d' (w_pending w) (w_handles w) (w_used w)).
Proof.
  intros [W1 W2 W3 W4 W5 W6] <- Hp HP. destruct (progress_outcome _ _ _ W1 Hp) as [O1 O2 (new & O3 & O3') O4 O5].
  split; simpl; [done| | |done| |].
  - intros c sb Hc%O4. by apply W2.
  - intros id r (q & Hq & (A1 & A2 & _))%O5. destruct (W3 id q Hq) as [Hcl Hu]. split; [|done]. unfold cleared. by rewrite A1, A2.
  - by rewrite O2.
  - rewrite O3. intros c f [Hin|Hin]%elem_of_app; [by apply W6|]. destruct (O3' _ _ Hin) as (r & Hr & ->). by apply HP.
Qed.

Lemma prune_sublist now s b s' x :
  x ∈ buffer_of s' (pruneSubject ttlMs now s b) -> x ∈ buffer_of s' b.
Proof.
  assert (forall n (l : list BufferedEvent), x ∈ drop n l -> x ∈ l) as Hdrop.
  { intros n l H. rewrite <- (take_drop n l). apply elem_of_app. by right. }
  unfold pruneSubject, buffer_of. destruct (jget s (rb_buffers b)) as [[|e l]|] eqn:E; [done| |done].
  assert (forall n, x ∈ drop n (e :: l) -> x ∈ e :: l) as Hl by (intros; by eapply Hdrop).
  cbv zeta. specialize (Hl (cutoff_index (now - ttlMs) (e :: l))). revert Hl. generalize (cutoff_index (now - ttlMs) (e :: l)) as n.
  intros n Hl. destruct (drop n (e :: l)) as [|e' l'] eqn:Ed; case_decide as Hn; cbn [rb_buffers];
    rewrite ?jget_jdel, ?jget_jset; repeat case_decide; subst; rewrite ?E; simpl in *; try done; try by intros ?%not_elem_of_nil.
Qed.

Lemma push_filed now s f b : filed b -> fr_subject f = s -> filed (push maxEvents ttlMs now s f b).
Proof.
  intros Hb Hf s' x. assert (forall y, y ∈ (default [] (jget s (rb_buffers (pruneSubject ttlMs now s b))) ++ [mkBuffered f now])%list ->
    fr_subject (be_event y) = s) as Hl.
  { intros y [Hy|Hy%list_elem_of_singleton]%elem_of_app; [by eapply Hb, prune_sublist|by subst]. }
  unfold push, buffer_of. cbv zeta. destruct (_ <? _)%Z; simpl; rewrite jget_jset; case_decide as Hs; simpl.
  - subst s'. intros Hx. apply Hl. rewrite <- (take_drop (Z.to_nat (Z.of_nat (length (default [] (jget s (rb_buffers (pruneSubject ttlMs now s b))) ++ [mkBuffered f now])) - maxEvents)) (_ ++ _)).
    apply elem_of_app. by right.
  - intros Hx. by eapply Hb, prune_sublist.
  - subst s'. apply Hl.
  - intros Hx. by eapply Hb, prune_sublist.
Qed.

Lemma replay_filed now s since b slice b' :
  filed b -> replay ttlMs now s since b = (slice, b') -> filed b' /\ forall e, e ∈ sl_events slice -> fr_subject e = s.
Proof.
  intros Hb. unfold replay. intros [= <- <-]. split; [intros s' x Hx; by eapply Hb, prune_sublist|].
  assert (forall e, e ∈ map be_event (default [] (jget s (rb_buffers (pruneSubject ttlMs now s b)))) -> fr_subject e = s) as Hall.
  { intros e (x & -> & Hx)%list_elem_of_fmap. by eapply Hb, prune_sublist. }
  assert (forall id l rest, after_id id l = Some rest -> forall x, x ∈ rest -> x ∈ l) as Hafter.
  { intros id l rest. induction l as [|y l IH]; simpl; [done|]. case_decide; [intros [= ->] x Hx; by right|intros Hr x Hx; right; by apply IH]. }
  destruct since as [id|]; simpl; [|done]. destruct (after_id _ _) as [rest|] eqn:E; simpl; [|done].
  intros e (x & -> & Hx)%list_elem_of_fmap. apply Hall. apply list_elem_of_fmap. exists x. split; [done|]. by eapply Hafter.
Qed.

Lemma jget_fresh {A} k k' (v : A) m : jget k' m = None -> forall w, jget k m = Some w -> jget k (jset k' v m) = Some w.
Proof. intros Hn w Hw. rewrite jget_jset_ne; [done|]. intros ->. congruence. Qed.

Lemma sound_register w h :
  sound w -> jget (h_id h) (w_handles w) = None ->
  sound (mkWorld (registerSubscriber h (w_d w)) (w_pending w) (jset (h_id h) h (w_handles w)) (w_used w)).
Proof.
  intros [W1 W2 W3 W4 W5 W6] Hn.
  assert (forall r, cleared (w_handles w) r -> cleared (jset (h_id h) h (w_handles w)) r) as Hcl.
  { intros r (h' & Hh' & Ha). exists h'. split; [by apply jget_fresh|done]. }
  split; simpl; [| | | |done|].
  - apply register_wired; [done|]. destruct (connection (h_id h) (w_d w)) eqn:E; [|done]. by rewrite (W2 _ _ E) in Hn.
  - intros c sb. unfold connection. simpl. rewrite !jget_jset. case_decide; [by intros [= <-]|apply W2].
  - intros id r Hr. destruct (W3 id r Hr) as [Hc Hu]. split; [by apply Hcl|done].
  - intros p Hp. destruct (W4 p Hp) as [Hc He]. split; [by apply Hcl|done].
  - intros c f Hin. destruct (W6 c f Hin) as (h' & Hh' & Ha). exists h'. split; [by apply jget_fresh|done].
Qed.

Lemma sound_shrink w d' :
  sound w -> wired d' ->
  (forall c sb', connection c d' = Some sb' -> exists sb, connection c (w_d w) = Some sb /\ sb_handle sb' = sb_handle sb) ->
  (forall id r, record_at id d' = Some r -> record_at id (w_d w) = Some r) ->
  d_log d' = d_log (w_d w) -> d_buffer d' = d_buffer (w_d w) ->
  sound (mkWorld d' (w_pending w) (w_handles w) (w_used w)).
Proof.
  intros [W1 W2 W3 W4 W5 W6] Hw Hc Hr Hl Hb. split; simpl; [done| | |done|by rewrite Hb|by rewrite Hl].
  - intros c sb' (sb & Hsb & ->)%Hc. by apply W2.
  - intros id r Hid%Hr. by apply W3.
Qed.

Lemma sound_unregister w c : sound w -> sound (mkWorld (unregister c (w_d w)) (w_pending w) (w_handles w) (w_used w)).
Proof.
  intros Hs. pose proof (so_wired w Hs) as Hw. rewrite unregister_purge. destruct (connection c (w_d w)) as [sb|] eqn:E; [|by destruct w].
  destruct (purge_spec c sb (w_d w) Hw E) as (P1 & P2 & P3 & P4 & P5 & P6 & _). apply sound_shrink; try done.
  - intros c' sb'. rewrite P2. case_decide; [done|]. by exists sb'.
  - intros id r. rewrite P3. by case_decide.
Qed.

Lemma sound_unsubscribe w sid d' ok :
  sound w -> unsubscribe sid (w_d w) = (d', ok) -> sound (mkWorld d' (w_pending w) (w_handles w) (w_used w)).
Proof.
  intros Hs Hu. destruct (unsubscribe_spec sid (w_d w) d' ok (so_wired w Hs) Hu) as (U1 & U2 & U3 & U4 & U5).
  apply sound_shrink; try done. intros id r. rewrite U2. by case_decide.
Qed.

Lemma sound_emit w now subject bare d' ok :
  sound w -> emit now subject bare (w_d w) = (d', ok) -> sound (mkWorld d' (w_pending w) (w_handles w) (w_used w)).
Proof.
  intros Hs. unfold Dispatcher.emit. destruct (match bf_eventId bare with Some e => _ | None => _ end) as [e d0] eqn:E0.
  set (f := mkFrame e "__pending__" subject (bf_type bare) (bf_payload bare)).
  set (d1 := set_buffer (push maxEvents ttlMs now subject f (d_buffer d0)) d0).
  assert (same_core (w_d w) d1 /\ d_log d1 = d_log (w_d w) /\ d_buffer d0 = d_buffer (w_d w)) as (Hcore & Hlog & Hbuf)
    by (destruct (bf_eventId bare); unfold nextEventId in E0; by simplify_eq).
  intros Hl. assert (sound (mkWorld d1 (w_pending w) (w_handles w) (w_used w))) as Hs1.
  { destruct Hs as [W1 W2 W3 W4 W5 W6]. destruct Hcore as (C1 & C2 & C3 & C4).
    split; simpl; [by eapply same_core_wired| | |done| |by cbn in Hlog |- *; rewrite Hlog].
    - intros c sb. unfold connection. rewrite C1. apply W2.
    - intros id r. unfold record_at. rewrite C2. apply W3.
    - apply push_filed; [by rewrite Hbuf|done]. }
  change (mkWorld d' (w_pending w) (w_handles w) (w_used w)) with
    (let w1 := mkWorld d1 (w_pending w) (w_handles w) (w_used w) in mkWorld d' (w_pending w1) (w_handles w1) (w_used w1)).
  cbv zeta. eapply (sound_progress _ d1 d' (fun r m => forall f', m = MEvent f' -> fr_subject f' = sr_subject r /\ cleared (w_handles w) r) Hs1 eq_refl).
  - eapply emit_progress; [exact (so_wired _ Hs1)| |exact Hl].
    intros id r q f' dc Hq (A1 & A2 & A3) Hsub Hin Hsan f'' [= <-]. destruct (sanitize_keeps _ _ _ _ Hsan) as (-> & _).
    split; [simpl; congruence|]. destruct (so_records _ Hs1 id q Hq) as [Hcl _]. unfold cleared in *. by rewrite A1, A2.
  - intros r f' HP. destruct (HP f' eq_refl) as (Heq & h & Hh & Ha). exists h. split; [done|]. by rewrite Heq.
Qed.

Lemma sound_lifecycle w sid status reason :
  sound w -> sound (mkWorld (emitLifecycle sid status reason (w_d w)) (w_pending w) (w_handles w) (w_used w)).
Proof.
  intros Hs. unfold Dispatcher.emitLifecycle. destruct (jget sid (d_subscriptions (w_d w))) as [r|] eqn:E; [|by destruct w].
  eapply (sound_progress w (w_d w) _ (fun _ m => forall f, m <> MEvent f)); [done|done| |].
  - eapply PrDeliver; [|by apply validate_delivery, so_wired|apply PrRefl]. done.
  - intros r' f HP. by destruct (HP f).
Qed.

Lemma replay_all_progress w now p d d' ok p' :
  wired d -> dispatchReplay now p d = (d', ok, p') ->
  cleared (w_handles w) (rp_record p) -> (forall e, e ∈ rp_events p -> fr_subject e = sr_subject (rp_record p)) ->
  progress (fun r m => forall f', m = MEvent f' -> fr_subject f' = sr_subject r /\ cleared (w_handles w) r) d d' /\
  rp_record p' = rp_record p /\ rp_events p' = rp_events p.
Proof.
  intros Hw. unfold Dispatcher.dispatchReplay. destruct (rp_dispatched p); [intros [= <- <- <-] _ _; split; [constructor|done]|].
  destruct (replay_events _ _ d) as [d1 ok1] eqn:E. intros H Hcl Hev.
  set (P := fun r m => forall f', m = MEvent f' -> fr_subject f' = sr_subject r /\ cleared (w_handles w) r).
  assert (progress P d d1) as Hp.
  { eapply replay_progress; [done| |exact E]. intros e f' dc Hin Hsan f'' [= <-].
    destruct (sanitize_keeps _ _ _ _ Hsan) as (-> & _). split; [|done]. simpl. by apply Hev. }
  destruct ok1; simplify_eq; [|done]. split; [|done]. destruct (_ <? _)%Z; [|done]. eapply progress_trans; [exact Hp|].
  eapply PrDeliver; [|apply validate_delivery, (progress_outcome _ _ _ Hw Hp)|apply PrRefl]. intros f'. done.
Qed.

Lemma sound_replay w now i p d' ok p' :
  sound w -> w_pending w !! i = Some p -> dispatchReplay now p (w_d w) = (d', ok, p') ->
  sound (mkWorld d' (<[i := p']> (w_pending w)) (w_handles w) (w_used w)).
Proof.
  intros Hs Hi Hd. destruct (so_pending w Hs p ltac:(by eapply list_elem_of_lookup_2)) as [Hcl Hev].
  destruct (replay_all_progress w now p (w_d w) d' ok p' (so_wired w Hs) Hd Hcl Hev) as (Hp & Hr & He).
  assert (sound (mkWorld d' (w_pending w) (w_handles w) (w_used w))) as [W1 W2 W3 W4 W5 W6].
  { eapply sound_progress; [done|done|exact Hp|]. intros r f' HP. destruct (HP f' eq_refl) as (Heq & h & Hh & Ha).
    exists h. split; [done|]. by rewrite Heq. }
  split; simpl in *; try done. intros q Hq. apply list_elem_of_lookup_1 in Hq as [j Hj].
  apply list_lookup_insert_Some in Hj as [(-> & <- & _)|[_ Hj]]; [rewrite Hr, He; done|]. apply W4. by eapply list_elem_of_lookup_2.
Qed.

Lemma sound_use w sid : sound w -> sound (mkWorld (w_d w) (w_pending w) (w_handles w) (sid :: w_used w)).
Proof. intros [W1 W2 W3 W4 W5 W6]. split; simpl; try done. intros id r Hr. destruct (W3 id r Hr). split; [done|by right]. Qed.

Lemma sound_log_other w a :
  sound w -> (forall c f, a <> ASend c (MEvent f)) ->
  sound (mkWorld (log a (w_d w)) (w_pending w) (w_handles w) (w_used w)).
Proof.
  intros [W1 W2 W3 W4 W5 W6] Ha. split; simpl; try done; [by apply (same_core_wired (w_d w))|].
  intros c f [Hin|Hin%list_elem_of_singleton]%elem_of_app; [by apply W6|]. by destruct (Ha c f).
Qed.

(** The state in which [subscribe] builds its replay. *)
Lemma sound_enrol w r sb b slice now since :
  sound w -> connection (sr_subscriberId r) (w_d w) = Some sb -> sr_subscriptionId r ∉ w_used w ->
  allowed (sb_handle sb) (sr_subject r) -> replay ttlMs now (sr_subject r) since (d_buffer (w_d w)) = (slice, b) ->
  sound (mkWorld (set_buffer b (enrol r sb (w_d w))) (w_pending w) (w_handles w) (sr_subscriptionId r :: w_used w)) /\
  cleared (w_handles w) r /\ forall e, e ∈ sl_events slice -> fr_subject e = sr_subject r.
Proof.
  intros [W1 W2 W3 W4 W5 W6] Hc Hfresh Hal Hrep. destruct (replay_filed _ _ _ _ _ _ W5 Hrep) as [Hfb Hev].
  assert (record_at (sr_subscriptionId r) (w_d w) = None) as Hnew.
  { destruct (record_at _ _) as [q|] eqn:E; [|done]. by destruct (W3 _ _ E). }
  destruct (enrol_spec r sb (w_d w) W1 Hc Hnew) as (E1 & E2 & E3).
  assert (cleared (w_handles w) r) as Hcl by (exists (sb_handle sb); split; [by apply W2|done]).
  split_and!; [|done|done]. split; simpl; [|..|done].
  - by apply (same_core_wired (enrol r sb (w_d w))).
  - intros c sb' Hc'. destruct (E3 c sb' Hc') as (sb0 & Hsb0 & ->). by apply W2.
  - intros id q Hq. change (record_at id (enrol r sb (w_d w)) = Some q) in Hq. rewrite E2 in Hq.
    case_decide; [simplify_eq; split; [done|by left]|]. destruct (W3 id q Hq). split; [done|by right].
  - done.
  - done.
Qed.

Lemma sound_subscribe w now c subject sid since defer d' res :
  sound w -> sid ∉ w_used w -> subscribe now c subject sid since defer (w_d w) = (d', res) ->
  sound (mkWorld d' (match res with Some (SubscribeOk _ _ _ p) => p :: w_pending w | _ => w_pending w end)
           (w_handles w) (sid :: w_used w)).
Proof.
  intros Hs Hfresh. unfold Dispatcher.subscribe. change (jget c (d_subscribers (w_d w))) with (connection c (w_d w)).
  destruct (connection c (w_d w)) as [sb|] eqn:Ec; [|intros [= <- <-]; by apply sound_use].
  destruct (tryParseSubject subject) as [parsed|reason] eqn:Ep.
  2: { intros [= <- <-]. apply (sound_log_other (mkWorld _ _ _ _)); [by apply (sound_use w)|done]. }
  destruct (isSubjectAllowed _ parsed) as [[|]|] eqn:Ea; [|intros [= <- <-]; by apply sound_use|intros [= <- <-]; by apply sound_use].
  cbv zeta. set (r := mkSubscription (d_refs (w_d w)) c (h_tokenId (sb_handle sb)) sid subject parsed now None).
  change (indexSubject subject sid _) with (enrol r sb (w_d w)).
  change (d_buffer (enrol r sb (w_d w))) with (d_buffer (w_d w)).
  destruct (replay ttlMs now subject since (d_buffer (w_d w))) as [slice b] eqn:Er.
  destruct (sound_enrol w r sb b slice now since Hs Ec Hfresh ltac:(by exists parsed) Er) as (Hs1 & Hcl & Hev).
  set (w1 := mkWorld (set_buffer b (enrol r sb (w_d w))) (w_pending w) (w_handles w) (sid :: w_used w)) in *.
  set (p := mkReplay r (sl_events slice) (sl_droppedCount slice) _ false).
  assert (forall d2 q, sound (mkWorld d2 (w_pending w) (w_handles w) (sid :: w_used w)) -> rp_record q = r -> rp_events q = sl_events slice ->
            sound (mkWorld d2 (q :: w_pending w) (w_handles w) (sid :: w_used w))) as Hadd.
  { intros d2 q [V1 V2 V3 V4 V5 V6] Hq He. split; simpl; try done. intros p0 [->|Hp0]%elem_of_cons; [|by apply V4]. by rewrite Hq, He. }
  destruct defer; [intros [= <- <-]; by apply Hadd|].
  destruct (dispatchReplay now p _) as [[d2 ok] q] eqn:Ed.
  destruct (replay_all_progress w1 now p (w_d w1) d2 ok q (so_wired _ Hs1) Ed Hcl Hev) as (Hp & Hq & He).
  assert (sound (mkWorld d2 (w_pending w) (w_handles w) (sid :: w_used w))) as Hs2.
  { eapply (sound_progress w1); [done|done|exact Hp|]. intros r' f' HP. destruct (HP f' eq_refl) as (Heq & h & Hh & Hal).
    exists h. split; [done|]. by rewrite Heq. }
  destruct ok; intros [= <- <-]; [by apply Hadd|done].
Qed.

Lemma farewell_core d r : same_core d (farewell net_sends d r) /\ d_buffer (farewell net_sends d r) = d_buffer d /\
  exists new, d_log (farewell net_sends d r) = (d_log d ++ new)%list /\ forall c f, ASend c (MEvent f) ∉ new.
Proof.
  unfold farewell. destruct (jget _ _) as [sb|]; [destruct (net_sends _ _)|].
  - split_and!; [done..|eexists; split; [done|]]. intros c f ?%list_elem_of_singleton. done.
  - split_and!; [done..|exists []; simpl; rewrite app_nil_r; split; [done|]]. intros c f ?%not_elem_of_nil. done.
  - split_and!; [done..|exists []; simpl; rewrite app_nil_r; split; [done|]]. intros c f ?%not_elem_of_nil. done.
Qed.

Lemma sound_shutdown w : sound w -> sound (mkWorld (shutdown (w_d w)) (w_pending w) (w_handles w) (w_used w)).
Proof.
  intros [W1 W2 W3 W4 W5 W6]. unfold Dispatcher.shutdown.
  set (d1 := foldl (farewell net_sends) (w_d w) _).
  assert (d_buffer d1 = d_buffer (w_d w) /\ sent_ok (w_handles w) (d_log d1)) as [Hb1 Hl1].
  { unfold d1. generalize (map snd (d_subscriptions (w_d w))) as rs. intros rs. clear d1 W1 W2 W3.
    generalize dependent (w_d w). induction rs as [|r rs IH]; intros d Hb Hl; simpl; [done|].
    destruct (farewell_core d r) as (_ & F1 & new & F2 & F3). destruct (IH (farewell net_sends d r)) as [H1 H2].
    - by rewrite F1.
    - rewrite F2. intros c f [?|Hin]%elem_of_app; [by apply Hl|]. by destruct (F3 c f).
    - by rewrite H1, F1. }
  set (d2 := foldl _ d1 _).
  assert (d_buffer d2 = d_buffer d1 /\ sent_ok (w_handles w) (d_log d2)) as [Hb2 Hl2].
  { unfold d2. generalize (map (fun p => sb_handle p.2) (d_subscribers d1)) as hs. intros hs. clearbody d1. clear d2. clear Hb1.
    revert d1 Hl1. induction hs as [|h hs IH]; intros d Hl; simpl; [done|]. destruct (IH (log (AClose (h_id h) 4007 "server.shutdown") d)) as [H1 H2].
    - intros c f [?|Hin%list_elem_of_singleton]%elem_of_app; [by apply Hl|done].
    - done. }
  split; simpl; [|by intros c sb|by intros id r|done|by rewrite Hb2, Hb1|done].
  split; [split|..]; intros; try done; try apply NoDup_nil_2. by apply not_elem_of_nil in H.
Qed.

Lemma sound_step w w' : sound w -> wstep w w' -> sound w'.
Proof.
  intros Hs []; eauto using sound_register, sound_unregister, sound_subscribe, sound_replay, sound_unsubscribe, sound_emit,
    sound_lifecycle, sound_shutdown.
Qed.

Lemma sound_initial : sound initial.
Proof.
  split; simpl; [|by intros c sb|by intros id r|by intros p ?%not_elem_of_nil|by intros s x ?%not_elem_of_nil|by intros c f ?%not_elem_of_nil].
  split; [split|..]; intros; try done; try apply NoDup_nil_2. by apply not_elem_of_nil in H.
Qed.

Lemma sound_reachable w : reachable w -> sound w.
Proof.
  apply (rtc_ind_r (R := wstep)); [apply sound_initial|]. intros w1 w2 _ Hstep Hs. by eapply sound_step.
Qed.
End Props.

(** C29: Every event reaches only connections that may see it. Whatever
    connections come and go, whatever they subscribe to, emit, replay, throttle or
    shut down, and however the sockets behave: an event frame written to a
    connection is on a subject that parses, and the scopes granted to that
    connection when it registered cover the scope the subject requires. *)
Theorem deliveries_are_authorised (cf : Config) (maxEvents ttlMs limit : Z)
    (net_buffered : string -> nat -> Z) (net_sends : string -> nat -> bool) (w : World) (c : string) (f : EventFrame) :
  reachable cf maxEvents ttlMs limit net_buffered net_sends w ->
  ASend c (MEvent f) ∈ d_log (w_d w) ->
  exists h p, jget c (w_handles w) = Some h /\
    tryParseSubject (fr_subject f) = Ok p /\ isSubjectAllowed (h_grantedScopes h) p = Ok true.
Proof.
  intros Hr Hin. destruct (so_log _ (sound_reachable _ _ _ _ _ _ _ Hr) c f Hin) as (h & Hh & p & Hp & Ha). by exists h, p.
Qed.

(** The dispatcher's maps always agree. In every reachable state: an id is
    listed under a subject exactly when the subscription with that id is on that
    subject; it is in a connection's set exactly when the subscription belongs to
    that connection; every subscription belongs to a live connection; no list
    repeats an id, no empty list is kept; and no connection in the map is closed
    or has a frame outstanding. *)
Theorem subscription_maps_agree (cf : Config) (maxEvents ttlMs limit : Z)
    (net_buffered : string -> nat -> Z) (net_sends : string -> nat -> bool) (w : World) :
  reachable cf maxEvents ttlMs limit net_buffered net_sends w ->
  let d := w_d w in
  (forall s id, id ∈ indexed s d <-> exists r, record_at id d = Some r /\ sr_subject r = s) /\
  (forall c sb id, connection c d = Some sb ->
     (id ∈ sb_subscriptions sb <-> exists r, record_at id d = Some r /\ sr_subscriberId r = c)) /\
  (forall id r, record_at id d = Some r -> sr_subscriptionId r = id /\ is_Some (connection (sr_subscriberId r) d)) /\
  (forall s, NoDup (indexed s d) /\ jget s (d_subjectIndex d) <> Some []) /\
  (forall c sb, connection c d = Some sb -> sb_closed sb = false /\ sb_outstanding sb = 0%Z /\ NoDup (sb_subscriptions sb)).
Proof.
  intros Hr d. pose proof (so_wired _ (sound_reachable _ _ _ _ _ _ _ Hr)) as Hw. fold d in Hw.
  pose proof (wi_aligned d Hw) as Ha. split_and!.
  - intros s id. split; [by apply al_index|]. intros (r & Hr' & <-). by apply al_listed.
  - intros c sb id Hc. by apply owned_iff.
  - intros id r Hr'. split; [by eapply al_id|]. destruct (wi_owned d Hw id r Hr') as (sb & Hsb & _). by exists sb.
  - intros s. split; [by apply al_nodup|by apply al_nonempty].
  - intros c sb Hc. destruct (wi_conn d Hw c sb Hc) as (_ & ? & ? & ? & _). done.
Qed.

(** ** A run: one connection subscribes to its session, and an event is emitted. *)

Module WsDemo.
Definition no_lag (_ : string) (_ : nat) : Z := 0.
Definition no_fault (_ : string) (_ : nat) : bool := true.
Definition handle : Handle := mkHandle "c1" "tok" [mkScope "sessions" "read" (Some "a") "sessions:read:a"] false.
Definition subject : string := "session:a/events".
Definition d1 : Dispatcher := registerSubscriber handle createWsDispatcher.
Definition sub := subscribe default_config 1000 10 no_lag no_fault 5 "c1" subject "s1" None true d1.
Definition emitted := emit default_config 100 1000 10 no_lag no_fault 6 subject (mkBare "tick" VNull (Some "e1")) sub.1.
Definition w : World :=
  mkWorld emitted.1 (match sub.2 with Some (SubscribeOk _ _ _ p) => [p] | _ => [] end) [("c1", handle)] ["s1"].
Definition frame : EventFrame := mkFrame "e1" "s1" subject "tick" VNull.

Lemma w_reachable : reachable default_config 100 1000 10 no_lag no_fault w.
Proof.
  eapply rtc_l; [apply (WRegister _ _ _ _ _ _ initial handle); done|].
  eapply rtc_l; [apply (WSubscribe _ _ _ _ _ _ _ 5 "c1" subject "s1" None true sub.1 sub.2); [apply not_elem_of_nil|apply surjective_pairing]|].
  eapply rtc_l; [apply (WEmit _ _ _ _ _ _ _ 6 subject (mkBare "tick" VNull (Some "e1")) emitted.1 emitted.2), surjective_pairing|].
  apply rtc_refl.
Qed.
End WsDemo.

Lemma deliveries_are_authorised_witness :
  ASend "c1" (MEvent WsDemo.frame) ∈ d_log (w_d WsDemo.w) /\
  exists h p, jget "c1" (w_handles WsDemo.w) = Some h /\
    tryParseSubject (fr_subject WsDemo.frame) = Ok p /\ isSubjectAllowed (h_grantedScopes h) p = Ok true.
Proof.
  assert (ASend "c1" (MEvent WsDemo.frame) ∈ d_log (w_d WsDemo.w)) as H by (vm_compute; by left).
  split; [exact H|]. apply (deliveries_are_authorised _ _ _ _ _ _ _ _ _ WsDemo.w_reachable H).
Defined.

Lemma subscription_maps_agree_witness :
  "s1" ∈ indexed WsDemo.subject (w_d WsDemo.w) /\ exists r, record_at "s1" (w_d WsDemo.w) = Some r /\ sr_subject r = WsDemo.subject.
Proof.
  assert ("s1" ∈ indexed WsDemo.subject (w_d WsDemo.w)) as H by (vm_compute; by left).
  split; [exact H|]. destruct (subscription_maps_agree _ _ _ _ _ _ _ WsDemo.w_reachable) as (Hi & _). by apply Hi.
Defined.
