(* ===== verification/FanOut.v ===== *)
(** * Fan-out

    An emitted event is delivered to every subscription on its subject, in
    order, and trouble on one connection is confined to it. *)

From S2P Require Import Prelude JsValue Json Subjects ReplayBuffer Sanitizer Dispatcher DispatcherFacts DispatcherProps.

Local Open Scope string_scope.

(** The frames written to one connection. *)
Definition sends_to (c : string) (l : list action) : list ServerMessage :=
  omap (fun a => match a with ASend c' m => if decide (c' = c) then Some m else None | _ => None end) l.

Definition owned_by (c : string) (d : Dispatcher) (id : string) : Prop :=
  match record_at id d with Some r => sr_subscriberId r = c | None => False end.

#[export] Instance owned_by_dec c d id : Decision (owned_by c d id).
Proof. unfold owned_by. destruct (record_at id d); apply _. Defined.


Lemma sanitize_any_id cf id f f' dc :
  sanitize cf f = Some (f', dc) -> sanitize cf (with_subscriptionId id f) = Some (with_subscriptionId id f', dc).
Proof.
  unfold sanitize, with_subscriptionId. simpl. case_decide; [by intros [= <- <-]|]. destruct (negb _); [by intros [= <- <-]|].
  destruct (negb _); [done|]. destruct (walkAndSanitize _ _ _) as [[[next b] [rs []]]|]; simpl; [|intros [= <- <-]|]; try done; by intros [= <- <-].
Qed.


Section FanOut.
Context (cf : Config) (maxEvents ttlMs limit : Z).
Context (net_buffered : string -> nat -> Z) (net_sends : string -> nat -> bool).
Local Notation emit_loop := (emit_loop cf limit net_buffered net_sends).
Local Notation healthy := (healthy limit net_buffered net_sends).

(** Still to be served: listed under the subject, and the connection's own. *)
Definition due (subject c : string) (d : Dispatcher) (id : string) : Prop := id ∈ indexed subject d /\ owned_by c d id.

#[local] Instance due_dec subject c d id : Decision (due subject c d id).
Proof. apply and_dec; apply _. Defined.

Lemma owned_touch c r e d id : wired d -> owned_by c (touch r e d) id <-> owned_by c d id.
Proof.
  intros Hw. destruct (touch_spec r e d (wi_aligned _ Hw)) as (_ & _ & _ & _ & _ & _ & _ & T). unfold owned_by.
  by destruct (T id) as [->|(q & -> & ->)].
Qed.

Lemma due_touch subject c r e d id : wired d -> due subject c (touch r e d) id <-> due subject c d id.
Proof.
  intros Hw. unfold due. rewrite owned_touch by done.
  destruct (touch_spec r e d (wi_aligned _ Hw)) as (_ & T2 & _). unfold indexed. by rewrite T2.
Qed.

Lemma due_cut subject c c0 sid sb d id :
  wired d -> connection c0 d = Some sb ->
  due subject c (cut_off c0 sid sb d) id <-> due subject c d id /\ c <> c0.
Proof.
  intros Hw Hc. destruct (cut_off_spec c0 sid sb d Hw Hc) as (_ & _ & Hr & Hi & _). unfold due, owned_by.
  rewrite Hr, Hi, list_elem_of_filter. case_decide as Ho; unfold other_owner in *; clear -Ho; destruct (record_at id d) as [r|]; naive_solver.
Qed.

(** One delivery of the loop, seen from the connections. *)
Lemma sanitized_step subject f f' dc id r d :
  sanitize cf f = Some (f', dc) -> wired d -> is_Some (connection (sr_subscriberId r) d) ->
  ServerMessageSchema (MEvent (with_subscriptionId id f')) = true ->
  exists d1 new,
    dispatchSanitized cf limit net_buffered net_sends r (with_subscriptionId id f) d = (d1, true) /\ wired d1 /\
    d_log d1 = (d_log d ++ new)%list /\ d_buffer d1 = d_buffer d /\
    ((sends_to (sr_subscriberId r) new = [MEvent (with_subscriptionId id f')] /\ (forall c x, due subject c d1 x <-> due subject c d x) /\
      (forall c, connection c d1 = connection c d)) \/
     (sends_to (sr_subscriberId r) new = [] /\ ~ healthy (sr_subscriberId r) /\
      (forall c x, due subject c d1 x <-> due subject c d x /\ c <> sr_subscriberId r))) /\
    (forall c, c <> sr_subscriberId r -> sends_to c new = []).
Proof.
  intros Hsan Hw Hr Hok. unfold dispatchSanitized. rewrite (sanitize_any_id _ id _ _ _ Hsan).
  set (da := audit dc d). set (m := MEvent (with_subscriptionId id f')). fold m in Hok.
  assert (exists a, d_log da = (d_log d ++ a)%list /\ (forall c, sends_to c a = []) /\ wired da /\ d_buffer da = d_buffer d /\
            (forall c x, due subject c da x <-> due subject c d x) /\ forall c, connection c da = connection c d) as (a & La & Na & Wa & Ba & Da & Ca).
  { unfold da. destruct dc as [dc|]; [exists [AAudit dc]|exists []; rewrite app_nil_r]; split_and!; try done. by apply (same_core_wired d). }
  pose proof (validate_delivery limit net_buffered net_sends r m da Wa) as Hd.
  destruct Hr as [sb Hsb].
  inversion Hd as [Hgone|w Hbad|sb0 Hc0 Heq|sb0 Hc0 Hun Heq].
  - rewrite Ca in Hgone. congruence.
  - congruence.
  - eexists _, (a ++ [ASend (sr_subscriberId r) m])%list.
    assert (wired (log (ASend (sr_subscriberId r) m) (attempted da))) as W1 by by apply (same_core_wired da).
    destruct (touch_spec r (fr_eventId (with_subscriptionId id f')) _ (wi_aligned _ W1)) as (T1 & _ & _ & T4 & T5 & _).
    split_and!; [done|by apply touch_wired|by rewrite T4; simpl; rewrite La, <- app_assoc|by rewrite T5| |].
    + left. split_and!; [unfold sends_to; rewrite omap_app; fold (sends_to (sr_subscriberId r) a); rewrite Na; simpl; by rewrite decide_True|..].
      { intros c x. rewrite due_touch by done. apply Da. }
      intros c. unfold connection. rewrite T1. apply Ca.
    + intros c Hne. unfold sends_to. rewrite omap_app. fold (sends_to c a). rewrite Na. simpl. by rewrite decide_False.
  - destruct (cut_off_spec (sr_subscriberId r) (sr_subscriptionId r) sb0 da Wa Hc0) as (W1 & _ & _ & _ & L1 & B1 & _).
    eexists _, (a ++ [AWarn (QueueOverflow (sr_subscriptionId r)); AClose (sr_subscriberId r) 4006 "flow.throttled"])%list.
    destruct (touch_spec r (fr_eventId (with_subscriptionId id f')) _ (wi_aligned _ W1)) as (_ & _ & _ & T4 & T5 & _).
    split_and!; [done|by apply touch_wired|by rewrite T4, L1, La, <- app_assoc|by rewrite T5, B1| |].
    + right. split_and!; [unfold sends_to; rewrite omap_app; fold (sends_to (sr_subscriberId r) a); by rewrite Na|done|].
      intros c x. rewrite due_touch, due_cut by done. by rewrite Da.
    + intros c Hne. unfold sends_to. rewrite omap_app. fold (sends_to c a). by rewrite Na.
Qed.

Lemma sends_app c a b : sends_to c (a ++ b) = (sends_to c a ++ sends_to c b)%list.
Proof. apply omap_app. Qed.



(** The frame as it leaves for a subscription. *)
Definition outgoing (sid : string) (e : EventFrame) : EventFrame :=
  match sanitize cf (with_subscriptionId sid e) with Some (f', _) => f' | None => e end.

Lemma replay_events_sends r es d :
  wired d -> is_Some (connection (sr_subscriberId r) d) -> healthy (sr_subscriberId r) ->
  (forall e, e ∈ es -> is_Some (sanitize cf e) /\ ServerMessageSchema (MEvent (outgoing (sr_subscriptionId r) e)) = true) ->
  exists d' new,
    replay_events cf limit net_buffered net_sends r es d = (d', true) /\ wired d' /\ is_Some (connection (sr_subscriberId r) d') /\
    d_log d' = (d_log d ++ new)%list /\
    sends_to (sr_subscriberId r) new = map (fun e => MEvent (outgoing (sr_subscriptionId r) e)) es.
Proof.
  intros Hw Hc Hh. revert d Hw Hc. induction es as [|e es IH]; intros d Hw Hc Hok.
  { exists d, []. rewrite app_nil_r. split_and!; done. }
  destruct (Hok e ltac:(by left)) as [[[f' dc] Hsan] Hval].
  assert (outgoing (sr_subscriptionId r) e = with_subscriptionId (sr_subscriptionId r) f') as Hout
    by (unfold outgoing; by rewrite (sanitize_any_id _ _ _ _ _ Hsan)).
  rewrite Hout in Hval.
  destruct (sanitized_step "" e f' dc (sr_subscriptionId r) r d Hsan Hw Hc Hval) as (d1 & new1 & E1 & W1 & L1 & _ & Hcase & _).
  destruct Hcase as [(Hs & _ & Hcn)|(_ & Hun & _)]; [|done].
  destruct (IH d1 W1) as (d' & new & E & W & C & L & S); [by rewrite Hcn|intros; apply Hok; by right|].
  exists d', (new1 ++ new)%list. cbn [Dispatcher.replay_events map]. rewrite E1, Hout. split_and!; [done|done|done|by rewrite L, L1, app_assoc|].
  by rewrite sends_app, Hs, S.
Qed.

Lemma validate_sends r m d :
  wired d -> is_Some (connection (sr_subscriberId r) d) -> healthy (sr_subscriberId r) -> ServerMessageSchema m = true ->
  exists new, d_log (validateAndDispatch limit net_buffered net_sends r m d) = (d_log d ++ new)%list /\ sends_to (sr_subscriberId r) new = [m].
Proof.
  intros Hw [sb Hsb] Hh Hok. pose proof (validate_delivery limit net_buffered net_sends r m d Hw) as Hd.
  inversion Hd; try congruence. exists [ASend (sr_subscriberId r) m]. split; [done|]. simpl. by rewrite decide_True.
Qed.
End FanOut.



Lemma replay_hint ttlMs now s since b slice b' :
  replay ttlMs now s since b = (slice, b') -> sl_nextEventIdHint slice = last_id (sl_events slice).
Proof.
  unfold replay. intros [= <- <-]. destruct since as [e|]; [|done]. by destruct (after_id _ _).
Qed.

(** Subscribing replays what is missed, after the acknowledgement. For a
    registered connection whose socket keeps up, a subject its scopes cover and a
    fresh id: [subscribe] succeeds and writes nothing, so the reply can go first;
    the replay it returns then writes, in buffer order, exactly the frames the
    buffer holds after the cursor, sanitized and addressed to the subscription,
    followed by one replay marker with the number of dropped events when there
    are any; and running the replay again writes nothing. *)
Theorem subscribe_replays_missed_events (cf : Config) (maxEvents ttlMs limit : Z)
    (net_buffered : string -> nat -> Z) (net_sends : string -> nat -> bool)
    (w : World) (now : Z) (c subject sid : string) (since : option string) (sb : SubscriberRecord)
    (slice : ReplayBufferSlice) (b : ReplayBuffer) :
  reachable cf maxEvents ttlMs limit net_buffered net_sends w ->
  connection c (w_d w) = Some sb -> healthy limit net_buffered net_sends c -> allowed (sb_handle sb) subject ->
  sid ∉ w_used w -> sid <> "" ->
  replay ttlMs now subject since (d_buffer (w_d w)) = (slice, b) ->
  (forall e, e ∈ sl_events slice -> is_Some (sanitize cf e) /\ ServerMessageSchema (MEvent (outgoing cf sid e)) = true) ->
  exists d1 sn snap p d2 p' new,
    subscribe cf ttlMs limit net_buffered net_sends now c subject sid since true (w_d w) =
      (d1, Some (SubscribeOk sn (length (sl_events slice)) snap p)) /\
    d_log d1 = d_log (w_d w) /\
    dispatchReplay cf limit net_buffered net_sends now p d1 = (d2, true, p') /\ d_log d2 = (d_log d1 ++ new)%list /\
    sends_to c new =
      (map (fun e => MEvent (outgoing cf sid e)) (sl_events slice) ++
       (if (0 <? sl_droppedCount slice)%Z
        then [MReplayMarker sid (default (fallback_id now) snap) (sl_droppedCount slice) (replay_note (sl_droppedCount slice))]
        else []))%list /\
    dispatchReplay cf limit net_buffered net_sends now p' d2 = (d2, true, p').
Proof.
  intros Hr Hc Hh (parsed & Hp & Ha) Hfresh Hne Hrep Hev. pose proof (sound_reachable _ _ _ _ _ _ _ Hr) as Hs.
  unfold subscribe. change (jget c (d_subscribers (w_d w))) with (connection c (w_d w)). rewrite Hc, Hp, Ha. cbv zeta.
  set (r := mkSubscription (d_refs (w_d w)) c (h_tokenId (sb_handle sb)) sid subject parsed now None).
  change (indexSubject subject sid _) with (enrol r sb (w_d w)). change (d_buffer (enrol r sb (w_d w))) with (d_buffer (w_d w)).
  rewrite Hrep. set (d1 := set_buffer b (enrol r sb (w_d w))).
  destruct (sound_enrol ttlMs w r sb b slice now since Hs Hc Hfresh ltac:(by exists parsed) Hrep) as (Hs1 & _ & _).
  pose proof (so_wired _ Hs1) as Hw1. cbn [w_d] in Hw1. fold d1 in Hw1.
  assert (is_Some (connection (sr_subscriberId r) d1)) as Hconn.
  { unfold d1, connection. simpl. rewrite jget_jset, decide_True by done. by eexists. }
  destruct (replay_events_sends cf limit net_buffered net_sends r (sl_events slice) d1 Hw1 Hconn Hh Hev) as (d2 & new & E & W & C & L & S).
  set (snap := match sl_nextEventIdHint slice with Some e => Some e | None => _ end).
  assert (min1 (default (fallback_id now) snap) = true) as Hsnap.
  { unfold snap. rewrite (replay_hint _ _ _ _ _ _ _ Hrep). unfold last_id. destruct (last (sl_events slice)) as [e|] eqn:El; simpl.
    - destruct (Hev e) as [_ Hv]; [by apply last_Some_elem_of|]. cbn in Hv. rewrite !andb_true_iff in Hv.
      destruct Hv as [[[Hv _] _] _]. unfold outgoing in Hv. destruct (sanitize cf (with_subscriptionId sid e)) as [[f' dc]|] eqn:Es; [|done].
      destruct (sanitize_keeps _ _ _ _ Es) as (_ & Hid & _). by rewrite Hid in Hv.
    - by destruct (0 <? sl_droppedCount slice)%Z. }
  set (p := mkReplay r (sl_events slice) (sl_droppedCount slice) snap false).
  set (p' := mkReplay r (sl_events slice) (sl_droppedCount slice) snap true).
  destruct (0 <? sl_droppedCount slice)%Z eqn:Ed.
  - destruct (validate_sends limit net_buffered net_sends r
      (MReplayMarker sid (default (fallback_id now) snap) (sl_droppedCount slice) (replay_note (sl_droppedCount slice))) d2 W C Hh) as (new2 & L2 & S2).
    { cbn [ServerMessageSchema]. rewrite Hsnap. unfold min1 at 1. rewrite bool_decide_eq_false_2 by done.
      rewrite (proj2 (Z.leb_le _ _)) by (apply Z.ltb_lt in Ed; lia). done. }
    eexists d1, _, snap, p, (validateAndDispatch limit net_buffered net_sends r
      (MReplayMarker sid (default (fallback_id now) snap) (sl_droppedCount slice) (replay_note (sl_droppedCount slice))) d2), p', (new ++ new2)%list. split_and!; [done|done| | | |done].
    + unfold dispatchReplay. cbn [rp_dispatched rp_record rp_events rp_droppedCount rp_snapshotEventId p]. rewrite E, Ed. done.
    + by rewrite L2, L, app_assoc.
    + rewrite sends_app. change c with (sr_subscriberId r). by rewrite S, S2.
  - eexists d1, _, snap, p, d2, p', new. split_and!; [done|done| |done| |done].
    + unfold dispatchReplay. cbn [rp_dispatched rp_record rp_events rp_droppedCount rp_snapshotEventId p]. by rewrite E, Ed.
    + rewrite app_nil_r. exact S.
Qed.

Lemma subscribe_replays_missed_events_witness :
  exists d1 sn snap p d2 p' new,
    subscribe default_config 1000 10 WsDemo.no_lag WsDemo.no_fault 8 "c1" WsDemo.subject "s2" None true (w_d WsDemo.w) =
      (d1, Some (SubscribeOk sn 1 snap p)) /\ d_log d1 = d_log (w_d WsDemo.w) /\
    dispatchReplay default_config 10 WsDemo.no_lag WsDemo.no_fault 8 p d1 = (d2, true, p') /\ d_log d2 = (d_log d1 ++ new)%list /\
    sends_to "c1" new = [MEvent (mkFrame "e1" "s2" WsDemo.subject "tick" VNull)].
Proof.
  set (slice := mkSlice [mkFrame "e1" "__pending__" WsDemo.subject "tick" VNull] 0 (Some "e1")).
  set (sb := default (mkSubscriber WsDemo.handle [] 0 false) (connection "c1" (w_d WsDemo.w))).
  destruct (subscribe_replays_missed_events default_config 100 1000 10 WsDemo.no_lag WsDemo.no_fault WsDemo.w 8 "c1" WsDemo.subject "s2" None sb
              slice (d_buffer (w_d WsDemo.w)) WsDemo.w_reachable) as (d1 & sn & snap & p & d2 & p' & new & H1 & H2 & H3 & H4 & H5 & _).
  - vm_compute. reflexivity.
  - split; [lia|]. intros n. split; [vm_compute; reflexivity|reflexivity].
  - exists (SessionEvents "a"). split; vm_compute; reflexivity.
  - intros Hin. apply list_elem_of_singleton in Hin. done.
  - done.
  - vm_compute. reflexivity.
  - intros e He. apply list_elem_of_singleton in He as ->. split; [by eexists|vm_compute; reflexivity].
  - exists d1, sn, snap, p, d2, p', new. split_and!; [exact H1|exact H2|exact H3|exact H4|]. rewrite H5. vm_compute. reflexivity.
Defined.
