(* ===== verification/ClientStream.v ===== *)
(** * The client's event stream

    The subscription object built by [#createSubscription] of
    [packages/client/src/graphorin-client.ts]: frames pushed by the transport
    are queued for, or handed to, the consumer that calls [next()]; and the
    abstract stream it implements.

    Each call of [next()] is a promise numbered in call order; [cs_settled]
    holds the promises settled so far. *)

From S2P Require Import Prelude JsValue ReplayBuffer Dispatcher.

Local Open Scope string_scope.

Inductive CloseReason := CUnsubscribed | CTransportClosed | CAborted.

(** [ClientAbortedError], the [flow-overflow] error, and errors passed in. *)
Inductive ClientError := EAborted | EFlowOverflow | EGiven (message : string).

Inductive outcome := GotValue (f : EventFrame) | GotDone | GotError (e : ClientError).

Record ClientSub := mkSub {
  cs_id : string;
  cs_subject : string;
  cs_queue : list EventFrame;
  cs_lifecycle : list (LifecycleStatus * option string);
  cs_markers : list (string * Z);
  cs_waiters : list nat;
  cs_closed : bool;
  cs_closeError : option ClientError;
  cs_last : option string;
  cs_nexts : nat;
  cs_settled : list (nat * outcome);
}.

(** [#createSubscription] *)
Definition createSubscription (id subject : string) (snapshotEventId : option string) : ClientSub :=
  mkSub id subject [] [] [] [] false None snapshotEventId 0 [].

Definition upd_stream queue waiters last settled (s : ClientSub) : ClientSub :=
  mkSub (cs_id s) (cs_subject s) queue (cs_lifecycle s) (cs_markers s) waiters (cs_closed s) (cs_closeError s) last
    (cs_nexts s) settled.

Definition end_outcome (e : option ClientError) : outcome := match e with Some e => GotError e | None => GotDone end.

Definition close (reason : CloseReason) (err : option ClientError) (s : ClientSub) : ClientSub :=
  if cs_closed s then s
  else
    let closeError := match err, reason with
                      | Some e, _ => Some e
                      | None, CAborted => Some EAborted
                      | None, _ => cs_closeError s
                      end in
    mkSub (cs_id s) (cs_subject s) (cs_queue s) (cs_lifecycle s) (cs_markers s) [] true closeError (cs_last s) (cs_nexts s)
      (cs_settled s ++ map (fun t => (t, end_outcome closeError)) (cs_waiters s))%list.

Section Stream.
Context (queueLimit : nat).

Definition push (frame : EventFrame) (s : ClientSub) : ClientSub :=
  if cs_closed s then s
  else
    let last := Some (fr_eventId frame) in
    match cs_waiters s with
    | t :: ts => upd_stream (cs_queue s) ts last (cs_settled s ++ [(t, GotValue frame)])%list s
    | [] =>
        if bool_decide (0 < queueLimit) && bool_decide (queueLimit <= length (cs_queue s))
        then close CAborted (Some EFlowOverflow) (upd_stream (cs_queue s) [] last (cs_settled s) s)
        else upd_stream (cs_queue s ++ [frame])%list [] last (cs_settled s) s
    end.

(** [next()] of the iterator *)
Definition next (s : ClientSub) : ClientSub :=
  let t := cs_nexts s in
  let issued waiters queue settled :=
    mkSub (cs_id s) (cs_subject s) queue (cs_lifecycle s) (cs_markers s) waiters (cs_closed s) (cs_closeError s) (cs_last s)
      (S t) settled in
  match cs_queue s with
  | f :: q => issued (cs_waiters s) q (cs_settled s ++ [(t, GotValue f)])%list
  | [] =>
      if cs_closed s then issued (cs_waiters s) [] (cs_settled s ++ [(t, end_outcome (cs_closeError s))])%list
      else issued (cs_waiters s ++ [t])%list [] (cs_settled s)
  end.

(** [return()] of the iterator: its own promise is settled at once. *)
Definition iterator_return (s : ClientSub) : ClientSub := close CUnsubscribed None s.

Definition pushLifecycle (status : LifecycleStatus) (reason : option string) (s : ClientSub) : ClientSub :=
  let s := mkSub (cs_id s) (cs_subject s) (cs_queue s) (cs_lifecycle s ++ [(status, reason)])%list (cs_markers s) (cs_waiters s)
             (cs_closed s) (cs_closeError s) (cs_last s) (cs_nexts s) (cs_settled s) in
  match status with
  | Completed => close CUnsubscribed None s
  | Aborted | Failed => close CAborted None s
  | Running | Paused => s
  end.

Definition pushReplayMarker (eventId : string) (droppedCount : Z) (s : ClientSub) : ClientSub :=
  mkSub (cs_id s) (cs_subject s) (cs_queue s) (cs_lifecycle s) (cs_markers s ++ [(eventId, droppedCount)])%list (cs_waiters s)
    (cs_closed s) (cs_closeError s) (cs_last s) (cs_nexts s) (cs_settled s).

Definition rebind (id : string) (s : ClientSub) : ClientSub :=
  mkSub id (cs_subject s) (cs_queue s) (cs_lifecycle s) (cs_markers s) (cs_waiters s) (cs_closed s) (cs_closeError s)
    (cs_last s) (cs_nexts s) (cs_settled s).

(** ** The abstract stream

    The frames accepted, how many were asked for, and how it ended. *)

Record Stream := mkStream { st_frames : list EventFrame; st_asked : nat; st_end : option outcome }.

Inductive stream_op :=
| OPush (f : EventFrame)
| ONext
| OReturn
| OClose (reason : CloseReason) (err : option ClientError)
| OLifecycle (status : LifecycleStatus) (reason : option string)
| OMarker (eventId : string) (droppedCount : Z)
| ORebind (id : string).

Definition impl_step (o : stream_op) (s : ClientSub) : ClientSub :=
  match o with
  | OPush f => push f s
  | ONext => next s
  | OReturn => iterator_return s
  | OClose r e => close r e s
  | OLifecycle st r => pushLifecycle st r s
  | OMarker e n => pushReplayMarker e n s
  | ORebind id => rebind id s
  end.

Definition finish (e : outcome) (a : Stream) : Stream :=
  match st_end a with Some _ => a | None => mkStream (st_frames a) (st_asked a) (Some e) end.

(** A frame is accepted unless the stream has ended, or the consumer is
    [queueLimit] frames behind: then it ends. *)
Definition spec_step (o : stream_op) (a : Stream) : Stream :=
  match o with
  | OPush f =>
      match st_end a with
      | Some _ => a
      | None =>
          if bool_decide (0 < queueLimit) && bool_decide (queueLimit <= length (st_frames a) - st_asked a)
          then finish (GotError EFlowOverflow) a
          else mkStream (st_frames a ++ [f])%list (st_asked a) None
      end
  | ONext => mkStream (st_frames a) (S (st_asked a)) (st_end a)
  | OReturn => finish GotDone a
  | OClose r (Some e) => finish (GotError e) a
  | OClose CAborted None => finish (GotError EAborted) a
  | OClose _ None => finish GotDone a
  | OLifecycle Completed _ => finish GotDone a
  | OLifecycle (Aborted | Failed) _ => finish (GotError EAborted) a
  | OLifecycle _ _ | OMarker _ _ | ORebind _ => a
  end.

(** What the [t]-th call of [next()] yields: the [t]-th accepted frame, else the
    end of the stream, else nothing yet. *)
Definition answer (a : Stream) (t : nat) : option outcome :=
  match st_frames a !! t with Some f => Some (GotValue f) | None => st_end a end.

Fixpoint settled_at (t : nat) (l : list (nat * outcome)) : option outcome :=
  match l with [] => None | (t', o) :: l' => if decide (t = t') then Some o else settled_at t l' end.

(** ** Refinement *)

Record matches (s : ClientSub) (a : Stream) : Prop := {
  mt_asked : cs_nexts s = st_asked a;
  mt_queue : cs_queue s = drop (st_asked a) (st_frames a);
  mt_end : st_end a = if cs_closed s then Some (end_outcome (cs_closeError s)) else None;
  mt_fresh : cs_closed s = false -> cs_closeError s = None;
  mt_waiters : cs_waiters s = if cs_closed s then [] else seq (length (st_frames a)) (st_asked a - length (st_frames a));
  mt_settled : forall t, settled_at t (cs_settled s) = if decide (t < st_asked a) then answer a t else None;
}.

Lemma settled_app t l l' : settled_at t (l ++ l') = match settled_at t l with Some o => Some o | None => settled_at t l' end.
Proof. induction l as [|[t' o] l IH]; simpl; [done|]. by case_decide. Qed.

Lemma settled_map t (l : list nat) o : settled_at t (map (fun t => (t, o)) l) = if decide (t ∈ l) then Some o else None.
Proof.
  induction l as [|x l IH]; [done|]. cbn [map settled_at]. rewrite IH. repeat case_decide; set_solver.
Qed.

Lemma matches_initial id subject snap : matches (createSubscription id subject snap) (mkStream [] 0 None).
Proof. split; try done. Qed.

Lemma matches_close s a reason err e :
  matches s a ->
  e = match err, reason with Some e, _ => GotError e | None, CAborted => GotError EAborted | None, _ => GotDone end ->
  matches (close reason err s) (finish e a).
Proof.
  intros [M1 M2 M3 M4 M5 M6] ->. unfold close, finish. destruct (cs_closed s) eqn:Ec; rewrite M3; [by split; rewrite ?Ec|].
  rewrite (M4 eq_refl). set (ce := match err, reason with Some e, _ => Some e | None, CAborted => Some EAborted | None, _ => None end).
  assert (match err, reason with Some e, _ => GotError e | None, CAborted => GotError EAborted | None, _ => GotDone end = end_outcome ce) as ->
    by (unfold ce; by destruct err, reason).
  split; cbn -[seq]; try done. intros t. rewrite settled_app, M6, settled_map, M5. unfold answer. rewrite M3. cbn -[seq].
  destruct (decide (t ∈ seq _ _)) as [Hin|Hin]; rewrite elem_of_seq in Hin;
    (destruct (st_frames a !! t) as [f|] eqn:Ef; [apply lookup_lt_Some in Ef|apply lookup_ge_None in Ef]); repeat case_decide; try done; lia.
Qed.

Lemma matches_push s a f : matches s a -> matches (push f s) (spec_step (OPush f) a).
Proof.
  intros HM. pose proof HM as [M1 M2 M3 M4 M5 M6]. unfold push. cbn [spec_step]. destruct (cs_closed s) eqn:Ec; rewrite M3; [done|].
  rewrite M5. destruct (decide (length (st_frames a) < st_asked a)) as [Hlt|Hge].
  - replace (st_asked a - length (st_frames a))%nat with (S (st_asked a - S (length (st_frames a)))) by lia. cbn [seq].
    rewrite (bool_decide_ext (queueLimit <= length (st_frames a) - st_asked a)%nat (queueLimit = 0)%nat) by lia.
    replace (bool_decide (0 < queueLimit) && bool_decide (queueLimit = 0))%nat with false by (repeat case_bool_decide; simpl; try done; lia).
    split; cbn; try done.
    + rewrite M2, !drop_ge; [done|rewrite length_app; simpl; lia|lia].
    + by rewrite Ec.
    + intros _. by apply M4.
    + rewrite Ec, length_app. simpl. f_equal; lia.
    + intros t. rewrite settled_app, M6. unfold answer. rewrite M3. cbn.
      destruct (decide (t = length (st_frames a))) as [->|Hne].
      * rewrite lookup_ge_None_2, list_lookup_middle by done. repeat case_decide; try done; lia.
      * destruct (decide (t < length (st_frames a)))%nat as [Hl|Hl].
        { destruct (lookup_lt_is_Some_2 (st_frames a) t Hl) as [g Hg]. rewrite Hg, (lookup_app_l_Some _ _ _ _ Hg). repeat case_decide; try done; lia. }
        { rewrite !lookup_ge_None_2 by (rewrite ?length_app; simpl; lia). repeat case_decide; try done; lia. }
  - replace (st_asked a - length (st_frames a))%nat with 0%nat by lia. cbn [seq].
    assert (length (cs_queue s) = length (st_frames a) - st_asked a)%nat as Hq by (rewrite M2; apply length_drop).
    rewrite Hq. destruct (bool_decide _ && bool_decide _).
    + apply matches_close; [|done]. split; cbn; rewrite ?Ec; try done.
      by replace (st_asked a - length (st_frames a))%nat with 0%nat by lia.
    + split; cbn; try done.
      * rewrite M2, drop_app_le by lia. done.
      * by rewrite Ec.
      * intros _. by apply M4.
      * rewrite Ec, length_app. simpl. by replace (st_asked a - (length (st_frames a) + 1))%nat with 0%nat by lia.
      * intros t. rewrite M6. unfold answer. rewrite M3. cbn. case_decide; [|done].
        destruct (lookup_lt_is_Some_2 (st_frames a) t ltac:(lia)) as [g Hg]. by rewrite Hg, (lookup_app_l_Some _ _ _ _ Hg).
Qed.

Lemma matches_next s a : matches s a -> matches (next s) (spec_step ONext a).
Proof.
  intros HM. pose proof HM as [M1 M2 M3 M4 M5 M6]. unfold next. cbn [spec_step]. rewrite M1.
  assert (forall o settled', settled' = (cs_settled s ++ [(st_asked a, o)])%list -> answer a (st_asked a) = Some o ->
            forall t, settled_at t settled' = if decide (t < S (st_asked a)) then answer a t else None) as Hset.
  { intros o settled' -> Ho t. rewrite settled_app, M6. simpl. repeat case_decide; subst; try done; try lia.
    by destruct (answer a t). }
  destruct (cs_queue s) as [|f q] eqn:Eq.
  - symmetry in M2. apply (f_equal length) in M2 as Hlen. rewrite length_drop in Hlen. simpl in Hlen.
    assert (st_frames a !! st_asked a = None) as Hnone by (apply lookup_ge_None_2; lia).
    assert (drop (S (st_asked a)) (st_frames a) = []) as Hdrop by (apply drop_ge; lia).
    destruct (cs_closed s) eqn:Ec; split; cbn -[drop seq]; rewrite ?Ec; try done.
    + apply (Hset (end_outcome (cs_closeError s))); [done|]. unfold answer. by rewrite Hnone.
    + rewrite M5. replace (S (st_asked a) - length (st_frames a))%nat with (S (st_asked a - length (st_frames a)))%nat by lia.
      rewrite seq_S. f_equal. f_equal. lia.
    + intros t. rewrite M6. change (answer (mkStream (st_frames a) (S (st_asked a)) (st_end a)) t) with (answer a t).
      repeat case_decide; try done; try lia. assert (t = st_asked a) as -> by lia. unfold answer. by rewrite Hnone, M3.
  - assert (st_frames a !! st_asked a = Some f) as Hf.
    { rewrite <- (Nat.add_0_r (st_asked a)), <- lookup_drop, <- M2. done. }
    apply lookup_lt_Some in Hf as Hlt. split; cbn -[drop seq]; try done.
    + rewrite (drop_S _ _ _ Hf) in M2. by simplify_eq.
    + rewrite M5. destruct (cs_closed s); [done|].
      replace (st_asked a - length (st_frames a))%nat with 0%nat by lia. by replace (S (st_asked a) - length (st_frames a))%nat with 0%nat by lia.
    + apply (Hset (GotValue f)); [done|]. unfold answer. by rewrite Hf.
Qed.

Lemma matches_step o s a : matches s a -> matches (impl_step o s) (spec_step o a).
Proof.
  intros HM. destruct o as [f| | |r e|st r|e n|id]; cbn [impl_step spec_step].
  - by apply matches_push.
  - by apply matches_next.
  - by apply matches_close.
  - destruct e as [e|], r; by apply matches_close.
  - assert (matches (mkSub (cs_id s) (cs_subject s) (cs_queue s) (cs_lifecycle s ++ [(st, r)])%list (cs_markers s) (cs_waiters s)
              (cs_closed s) (cs_closeError s) (cs_last s) (cs_nexts s) (cs_settled s)) a) as HM' by (destruct HM; by split).
    unfold pushLifecycle. destruct st; try done; by apply matches_close.
  - destruct HM. by split.
  - destruct HM. by split.
Qed.
End Stream.

(** C33: The client's event stream is a queue. Under any interleaving of frames
    arriving, [next()] calls, iterator returns, lifecycle frames, errors, replay
    markers and re-binding to a new server id, the [t]-th call of [next()] is
    answered exactly as the abstract stream says: with the [t]-th frame accepted,
    as soon as there is one; with the end of the stream (the error, if it ended
    abnormally), once it has ended and every accepted frame has been handed out;
    and it stays pending otherwise. Frames are accepted until the stream ends,
    which it does when the consumer falls [queueLimit] frames behind. *)
Theorem stream_is_a_queue (queueLimit : nat) (id subject : string) (snap : option string) (ops : list stream_op) (t : nat) :
  let s := foldl (fun s o => impl_step queueLimit o s) (createSubscription id subject snap) ops in
  let a := foldl (fun a o => spec_step queueLimit o a) (mkStream [] 0 None) ops in
  settled_at t (cs_settled s) = if decide (t < st_asked a) then answer a t else None.
Proof.
  intros s a. apply mt_settled. unfold s, a. generalize (matches_initial id subject snap).
  generalize (createSubscription id subject snap) as s0. generalize (mkStream [] 0 None) as a0.
  induction ops as [|o ops IH]; intros a0 s0 HM; simpl; [done|]. by apply IH, matches_step.
Qed.
