(* ===== verification/Resume.v ===== *)
(** * Resuming a stream

    One client subscription over a sequence of connections: the server's replay
    buffer ([ReplayBuffer]), frames on the way, and the client's stream
    ([ClientStream]) with its cursor. Connections drop and are re-established
    ([#reconnect] of [packages/client/src/graphorin-client.ts] and the subscribe
    branch of [packages/server/src/ws/upgrade.ts]); what was on the way is lost
    and asked for again from the last event id the client saw.

    [lk_history] and [lk_stream] record, for the statements, all that was emitted
    and the abstract state of the client's stream. [lk_gap] tells whether some
    session began with a replay marker, [lk_early] whether the connection was lost
    after a subscribe reply had set the cursor and before the first frame. *)

From S2P Require Import Prelude JsValue ReplayBuffer Sanitizer Dispatcher DispatcherProps ClientStream.
From stdpp Require Import relations.

Local Open Scope string_scope.
Local Open Scope Z_scope.

Record Link := mkLink {
  lk_now : Z;
  lk_buffer : ReplayBuffer;
  lk_history : History;
  lk_up : bool;
  lk_flight : list EventFrame;
  lk_sub : option ClientSub;
  lk_stream : Stream;
  lk_gap : bool;
  lk_early : bool;
}.

Definition link_start (now : Z) : Link := mkLink now empty_buffer [] false [] None (mkStream [] 0 None) false false.

Section Link.
Context (cf : Config) (maxEvents ttlMs : Z) (queueLimit : nat) (subject : string).

(** The frame as it leaves the server for a subscription. *)
Definition wire (sid : string) (f : EventFrame) : EventFrame :=
  match sanitize cf (with_subscriptionId sid f) with Some (f', _) => f' | None => f end.

Definition event_id (x : BufferedEvent) : string := fr_eventId (be_event x).
Definition history (k : Link) : list BufferedEvent := history_of subject (lk_history k).
Definition history_ids (k : Link) : list string := map event_id (history k).

(** [snapshotEventId] of the subscribe reply *)
Definition snapshot_of (now : Z) (slice : ReplayBufferSlice) : option string :=
  match sl_nextEventIdHint slice with
  | Some e => Some e
  | None => if 0 <? sl_droppedCount slice then Some (fallback_id now) else None
  end.

(** The consumer's own operations, and the frames that carry no event. *)
Definition local_op (o : stream_op) : bool :=
  match o with OPush _ | ORebind _ => false | _ => true end.

(** The connection is lost after the subscribe reply, which set the cursor, and
    before the first frame. *)
Definition early_drop (c : ClientSub) (a : Stream) : bool :=
  bool_decide (is_Some (cs_last c)) && match st_frames a with [] => true | _ => false end.

Inductive link_step (k : Link) : Link -> Prop :=
| LEmit now s f :
    lk_now k <= now -> event_id (mkBuffered f now) ∉ map event_id (history_of s (lk_history k)) -> is_Some (sanitize cf f) ->
    link_step k (mkLink now (ReplayBuffer.push maxEvents ttlMs now s f (lk_buffer k))
      (jset s (history_of s (lk_history k) ++ [mkBuffered f now])%list (lk_history k)) (lk_up k)
      (match lk_sub k with
       | Some c => if lk_up k && bool_decide (s = subject) then (lk_flight k ++ [wire (cs_id c) f])%list else lk_flight k
       | None => lk_flight k
       end) (lk_sub k) (lk_stream k) (lk_gap k) (lk_early k))
| LSweep now :
    lk_now k <= now ->
    link_step k (mkLink now (prune ttlMs now (lk_buffer k)) (lk_history k) (lk_up k) (lk_flight k) (lk_sub k) (lk_stream k) (lk_gap k) (lk_early k))
| LSubscribe now sid since slice b :
    lk_now k <= now -> lk_sub k = None -> replay ttlMs now subject since (lk_buffer k) = (slice, b) ->
    link_step k (mkLink now b (lk_history k) true (map (wire sid) (sl_events slice))
      (Some (createSubscription sid subject (snapshot_of now slice))) (lk_stream k)
      (lk_gap k || (0 <? sl_droppedCount slice)) (lk_early k))
| LReceive c f fl :
    lk_sub k = Some c -> lk_up k = true -> lk_flight k = f :: fl ->
    link_step k (mkLink (lk_now k) (lk_buffer k) (lk_history k) true fl (Some (ClientStream.push queueLimit f c))
      (ClientStream.spec_step queueLimit (OPush f) (lk_stream k)) (lk_gap k) (lk_early k))
| LLocal c o :
    lk_sub k = Some c -> local_op o = true ->
    link_step k (mkLink (lk_now k) (lk_buffer k) (lk_history k) (lk_up k) (lk_flight k)
      (Some (ClientStream.impl_step queueLimit o c)) (ClientStream.spec_step queueLimit o (lk_stream k)) (lk_gap k) (lk_early k))
| LDrop c :
    lk_sub k = Some c -> lk_up k = true ->
    link_step k (mkLink (lk_now k) (lk_buffer k) (lk_history k) false [] (lk_sub k) (lk_stream k) (lk_gap k)
      (lk_early k || early_drop c (lk_stream k)))
| LReconnect now sid c slice b :
    lk_now k <= now -> lk_sub k = Some c -> lk_up k = false -> cs_closed c = false ->
    replay ttlMs now subject (cs_last c) (lk_buffer k) = (slice, b) ->
    link_step k (mkLink now b (lk_history k) true (map (wire sid) (sl_events slice)) (Some (rebind sid c)) (lk_stream k)
      (lk_gap k || (0 <? sl_droppedCount slice)) (lk_early k)).

Lemma wire_id sid f : fr_eventId (wire sid f) = fr_eventId f.
Proof. unfold wire. destruct (sanitize cf _) as [[f' dc]|] eqn:E; [|done]. by destruct (sanitize_keeps _ _ _ _ E) as (_ & -> & _). Qed.

Lemma wire_ids sid l : map fr_eventId (map (wire sid) l) = map fr_eventId l.
Proof. induction l as [|f l IH]; simpl; [done|]. by rewrite wire_id, IH. Qed.

Definition received (k : Link) : list string := map fr_eventId (st_frames (lk_stream k)).

(** What the client has, and what is on the way to it, is a segment of the
    subject's history; its cursor is the last event it has. *)
Record in_step (k : Link) (c : ClientSub) : Prop := {
  is_segment : exists i, i + Z.of_nat (length (received k)) <= Z.of_nat (length (history_ids k)) /\ 0 <= i /\
    if lk_up k then (received k ++ map fr_eventId (lk_flight k))%list = drop (Z.to_nat i) (history_ids k)
    else received k = take (length (received k)) (drop (Z.to_nat i) (history_ids k));
  is_cursor : received k <> [] -> cs_last c = last (received k);
  is_first : received k = [] -> lk_up k = false -> cs_last c = None;
}.

Record coherent (k : Link) : Prop := {
  co_related : related maxEvents ttlMs (lk_now k) (lk_buffer k) (lk_history k);
  co_distinct : forall s, NoDup (map event_id (history_of s (lk_history k)));
  co_fresh : lk_sub k = None -> lk_stream k = mkStream [] 0 None;
  co_stream : forall c, lk_sub k = Some c -> matches c (lk_stream k);
  co_in_step : forall c, lk_sub k = Some c -> cs_closed c = false -> lk_gap k = false -> lk_early k = false -> in_step k c;
}.

Context (Hmax : 1 <= maxEvents).

Lemma after_id_spec id l rest :
  after_id id l = Some rest -> exists a x, l = (a ++ x :: rest)%list /\ event_id x = id.
Proof.
  induction l as [|y l IH]; simpl; [done|]. case_decide as Hy; [intros [= <-]; by exists [], y|].
  intros H. destruct (IH H) as (a & x & -> & Hx). by exists (y :: a), x.
Qed.

Lemma map_event_ids l : map fr_eventId (map be_event l) = map event_id l.
Proof. by rewrite map_map. Qed.

(** What a replay returns, when it signals no gap. *)
Lemma replay_suffix now s since b h slice b' :
  related maxEvents ttlMs now b h -> replay ttlMs now s since b = (slice, b') ->
  let ids := map event_id (history_of s h) in
  related maxEvents ttlMs now b' h /\ sl_nextEventIdHint slice = last (map fr_eventId (sl_events slice)) /\
  ((0 <? sl_droppedCount slice) = false ->
   match since with
   | None => exists j, (j <= length ids)%nat /\ map fr_eventId (sl_events slice) = drop j ids
   | Some e => exists p, ids !! p = Some e /\ map fr_eventId (sl_events slice) = drop (S p) ids
   end).
Proof using Hmax.
  intros Hr Hrep ids. pose proof (related_prune _ _ Hmax now s b h Hr) as Hr1.
  assert (forall l, last_id l = last (map fr_eventId l)) as Hlast by (intros l; unfold last_id; by rewrite <- fmap_last).
  unfold replay in Hrep. set (b1 := pruneSubject ttlMs now s b) in *. change (default [] (jget s (rb_buffers b1))) with (buffer_of s b1) in Hrep.
  destruct (lk_suffix _ _ _ _ _ _ (Hr1 s)) as (pre & Hpre & _).
  assert (ids = (map event_id pre ++ map event_id (buffer_of s b1))%list) as Hids by (unfold ids; by rewrite Hpre, map_app).
  destruct since as [e|]; cycle 1.
  { simplify_eq/=. split_and!; [done|by rewrite Hlast|]. intros _. exists (length pre).
    rewrite Hids, map_event_ids, length_app, length_map. split; [lia|].
    by rewrite <- (length_map event_id pre), drop_app_length. }
  destruct (after_id e (buffer_of s b1)) as [rest|] eqn:Ea; simplify_eq/=; (split_and!; [done|by rewrite Hlast|]).
  - intros _. destruct (after_id_spec _ _ _ Ea) as (a & x & Hl & Hx). exists (length pre + length a)%nat.
    rewrite Hids, Hl, map_event_ids, map_app. simpl. rewrite app_assoc.
    assert (length (map event_id pre ++ map event_id a)%list = length pre + length a)%nat as Hlen by by rewrite length_app, !length_map.
    split; [rewrite <- Hlen, list_lookup_middle by done; by rewrite Hx|].
    change (event_id x :: map event_id rest) with ([event_id x] ++ map event_id rest)%list. rewrite app_assoc.
    replace (S (length pre + length a)) with (length ((map event_id pre ++ map event_id a) ++ [event_id x]))%list
      by (rewrite !length_app, !length_map; simpl; lia). by rewrite drop_app_length.
  - intros H. apply Z.ltb_ge in H. lia.
Qed.

(** ** Every step keeps the link coherent *)

Lemma coherent_start now : coherent (link_start now).
Proof using Hmax.
  split; [|intros s; apply NoDup_nil_2|done..]. intros s. by apply linked_nil.
Qed.

Lemma history_jset s s' l h : history_of s' (jset s l h) = if decide (s' = s) then l else history_of s' h.
Proof. unfold history_of. rewrite jget_jset. by case_decide. Qed.

Lemma coherent_emit k now s f :
  coherent k -> lk_now k <= now -> event_id (mkBuffered f now) ∉ map event_id (history_of s (lk_history k)) ->
  coherent (mkLink now (ReplayBuffer.push maxEvents ttlMs now s f (lk_buffer k))
      (jset s (history_of s (lk_history k) ++ [mkBuffered f now])%list (lk_history k)) (lk_up k)
      (match lk_sub k with
       | Some c => if lk_up k && bool_decide (s = subject) then (lk_flight k ++ [wire (cs_id c) f])%list else lk_flight k
       | None => lk_flight k
       end) (lk_sub k) (lk_stream k) (lk_gap k) (lk_early k)).
Proof using Hmax.
  intros [C1 C2 C3 C4 C5] Hnow Hfresh. split; simpl; [| |done|done|].
  - apply related_push; [done|]. by eapply related_later.
  - intros s'. rewrite history_jset. case_decide; [subst|done]. rewrite map_app. apply NoDup_app.
    split_and!; [done|set_solver|apply NoDup_singleton].
  - intros c Hc Ho Hg He. destruct (C5 c Hc Ho Hg He) as [(i & Hlen & Hi & Hseg) H2 H3]. rewrite Hc.
    unfold history_ids, history in Hlen, Hseg.
    split; [|done|done]. exists i. unfold history_ids, history, received in *. simpl. rewrite history_jset.
    destruct (decide (subject = s)) as [<-|Hs].
    + rewrite (bool_decide_eq_true_2 _ eq_refl), andb_true_r, map_app, length_app. simpl. split_and!; [lia|done|].
      destruct (lk_up k).
      * rewrite map_app, app_assoc, Hseg. simpl. rewrite wire_id, drop_app_le by lia. done.
      * rewrite drop_app_le by lia. rewrite take_app_le; [done|]. rewrite length_drop. lia.
    + rewrite (bool_decide_eq_false_2 (s = subject)), andb_false_r by done. done.
Qed.

Lemma coherent_connect k now c c' since slice b :
  coherent k -> lk_now k <= now -> matches c' (lk_stream k) ->
  replay ttlMs now subject since (lk_buffer k) = (slice, b) ->
  (forall sid, lk_gap k || (0 <? sl_droppedCount slice) = false -> lk_early k = false -> cs_closed c' = false ->
     in_step (mkLink now b (lk_history k) true (map (wire sid) (sl_events slice)) c (lk_stream k)
                (lk_gap k || (0 <? sl_droppedCount slice)) (lk_early k)) c') ->
  forall sid, coherent (mkLink now b (lk_history k) true (map (wire sid) (sl_events slice)) (Some c') (lk_stream k)
                (lk_gap k || (0 <? sl_droppedCount slice)) (lk_early k)).
Proof using Hmax.
  intros [C1 C2 C3 C4 C5] Hnow Hm Hrep His sid. split; simpl; [|done|done| |].
  - eapply replay_suffix; [by eapply related_later|done].
  - by intros ? [= <-].
  - intros ? [= <-] Hcl Hg He. destruct (His sid Hg He Hcl). by split.
Qed.

Lemma coherent_subscribe k now sid since slice b :
  coherent k -> lk_now k <= now -> lk_sub k = None -> replay ttlMs now subject since (lk_buffer k) = (slice, b) ->
  coherent (mkLink now b (lk_history k) true (map (wire sid) (sl_events slice))
      (Some (createSubscription sid subject (snapshot_of now slice))) (lk_stream k) (lk_gap k || (0 <? sl_droppedCount slice)) (lk_early k)).
Proof using Hmax.
  intros Hc Hnow Hsub Hrep. pose proof (co_fresh k Hc Hsub) as Hst.
  apply (coherent_connect k now (Some (createSubscription sid subject (snapshot_of now slice))) _ since); [done|done| |done|].
  { rewrite Hst. apply matches_initial. }
  intros sid' [_ Hg]%orb_false_iff _ _.
  destruct (replay_suffix now subject since (lk_buffer k) (lk_history k) slice b) as (_ & _ & Hsuf); [by eapply related_later, co_related|done|].
  specialize (Hsuf Hg). assert (exists j, (j <= length (history_ids k))%nat /\ map fr_eventId (sl_events slice) = drop j (history_ids k)) as (j & Hj & Hev).
  { destruct since as [e|]; [|done]. destruct Hsuf as (p & Hp & Hev). exists (S p). split; [|done]. apply lookup_lt_Some in Hp.
    unfold history_ids, history. lia. }
  assert (forall u fl m g y, received (mkLink now b (lk_history k) u fl m (lk_stream k) g y) = []) as Hnil by (intros; unfold received; simpl; by rewrite Hst).
  split; [exists (Z.of_nat j)|by rewrite Hnil|done]. rewrite Hnil. cbn [lk_up lk_flight length app].
  change (history_ids (mkLink _ _ _ _ _ _ _ _ _)) with (history_ids k). rewrite wire_ids, Nat2Z.id. split_and!; [lia|lia|done].
Qed.

Lemma coherent_reconnect k now sid c slice b :
  coherent k -> lk_now k <= now -> lk_sub k = Some c -> lk_up k = false -> cs_closed c = false ->
  replay ttlMs now subject (cs_last c) (lk_buffer k) = (slice, b) ->
  coherent (mkLink now b (lk_history k) true (map (wire sid) (sl_events slice)) (Some (rebind sid c)) (lk_stream k)
      (lk_gap k || (0 <? sl_droppedCount slice)) (lk_early k)).
Proof using Hmax.
  intros Hc Hnow Hsub Hup Hopen Hrep.
  apply (coherent_connect k now (Some (rebind sid c)) _ (cs_last c)); [done|done| |done|].
  { pose proof (co_stream k Hc c Hsub) as []. by split. }
  intros sid' [Hgap Hg]%orb_false_iff He _. destruct (co_in_step k Hc c Hsub Hopen Hgap He) as [(i & Hlen & Hi & Hseg) Hcur Hfirst].
  rewrite Hup in Hseg.
  destruct (replay_suffix now subject (cs_last c) (lk_buffer k) (lk_history k) slice b) as (_ & _ & Hsuf); [by eapply related_later, co_related|done|].
  specialize (Hsuf Hg). change (map event_id (history_of subject (lk_history k))) with (history_ids k) in Hsuf.
  split; [|exact Hcur|done].
  change (received (mkLink _ _ _ _ _ _ _ _ _)) with (received k). change (history_ids (mkLink _ _ _ _ _ _ _ _ _)) with (history_ids k).
  cbn [lk_up lk_flight]. rewrite wire_ids. destruct (decide (received k = [])) as [Hnil|Hne].
  - rewrite (Hfirst Hnil Hup) in Hsuf. destruct Hsuf as (j & Hj & ->). exists (Z.of_nat j). rewrite Hnil, Nat2Z.id. simpl.
    split_and!; [lia|lia|done].
  - rewrite (Hcur Hne) in Hsuf. destruct (last (received k)) as [e|] eqn:El; [|by apply last_None in El].
    destruct Hsuf as (p & Hp & ->). exists i. split_and!; [done|done|].
    assert (p = Z.to_nat i + (length (received k) - 1))%nat as ->.
    { eapply (NoDup_lookup (history_ids k)); [apply (co_distinct k Hc subject)|exact Hp|]. rewrite last_lookup in El.
      rewrite Hseg, lookup_take_Some, lookup_drop in El. destruct El as [El _].
      replace (Nat.pred (length (received k))) with (length (received k) - 1)%nat in El by lia.
      rewrite length_take, length_drop in El. replace (Nat.pred (length (received k) `min` (length (history_ids k) - Z.to_nat i)))%nat
        with (length (received k) - 1)%nat in El by lia. done. }
    rewrite Hseg at 1. replace (S (Z.to_nat i + (length (received k) - 1)))%nat with (Z.to_nat i + length (received k))%nat
      by (destruct (received k); simpl; [done|lia]).
    rewrite <- drop_drop. apply take_drop.
Qed.

Lemma local_keeps o c a :
  local_op o = true ->
  cs_last (ClientStream.impl_step queueLimit o c) = cs_last c /\
  st_frames (ClientStream.spec_step queueLimit o a) = st_frames a /\
  (cs_closed (ClientStream.impl_step queueLimit o c) = false -> cs_closed c = false).
Proof.
  assert (forall r e s, cs_last (close r e s) = cs_last s /\ (cs_closed (close r e s) = false -> cs_closed s = false)) as Hcl
    by (intros r e s; unfold close; by destruct (cs_closed s) eqn:E; rewrite ?E).
  assert (forall e a, st_frames (finish e a) = st_frames a) as Hf by (intros e a0; unfold finish; by destruct (st_end a0)).
  destruct o as [f| | |r e|st r|e n|id]; try done; intros _; cbn [ClientStream.impl_step ClientStream.spec_step].
  - unfold next. destruct (cs_queue c); [destruct (cs_closed c) eqn:E|]; simpl; by rewrite ?E.
  - unfold iterator_return. destruct (Hcl CUnsubscribed None c). by rewrite Hf.
  - destruct (Hcl r e c). destruct r, e; by rewrite ?Hf.
  - unfold pushLifecycle. destruct st; try done; rewrite Hf;
      match goal with |- cs_last (close ?x ?y ?z) = _ /\ _ => destruct (Hcl x y z) as [-> Hc] end; done.
Qed.

Lemma coherent_local k c o :
  coherent k -> lk_sub k = Some c -> local_op o = true ->
  coherent (mkLink (lk_now k) (lk_buffer k) (lk_history k) (lk_up k) (lk_flight k)
      (Some (ClientStream.impl_step queueLimit o c)) (ClientStream.spec_step queueLimit o (lk_stream k)) (lk_gap k) (lk_early k)).
Proof.
  intros [C1 C2 C3 C4 C5] Hc Ho. destruct (local_keeps o c (lk_stream k) Ho) as (Hl & Hf & Hcl). split; simpl; [done|done|done| |].
  - intros ? [= <-]. by apply matches_step, C4.
  - intros ? [= <-] Hopen Hg He. destruct (C5 c Hc (Hcl Hopen) Hg He) as [H1 H2 H3].
    assert (received (mkLink (lk_now k) (lk_buffer k) (lk_history k) (lk_up k) (lk_flight k) (Some (ClientStream.impl_step queueLimit o c))
              (ClientStream.spec_step queueLimit o (lk_stream k)) (lk_gap k) (lk_early k)) = received k) as Hr by (unfold received; simpl; by rewrite Hf).
    split; rewrite ?Hr, ?Hl; done.
Qed.

Lemma coherent_receive k c f fl :
  coherent k -> lk_sub k = Some c -> lk_up k = true -> lk_flight k = f :: fl ->
  coherent (mkLink (lk_now k) (lk_buffer k) (lk_history k) true fl (Some (ClientStream.push queueLimit f c))
      (ClientStream.spec_step queueLimit (OPush f) (lk_stream k)) (lk_gap k) (lk_early k)).
Proof.
  intros [C1 C2 C3 C4 C5] Hc Hup Hfl. pose proof (matches_push queueLimit c (lk_stream k) f (C4 c Hc)) as Hm.
  split; [done|done|done|by intros ? [= <-]|].
  intros ? [= <-] Hopen Hg He.
  assert (cs_closed c = false) as Hopen0 by (destruct (cs_closed c) eqn:E; [unfold ClientStream.push in Hopen; rewrite E in Hopen; congruence|done]).
  destruct (C5 c Hc Hopen0 Hg He) as [(i & Hlen & Hi & Hseg) H2 H3]. rewrite Hup, Hfl in Hseg.
  pose proof (mt_end _ _ Hm) as Hend. rewrite Hopen in Hend. pose proof (mt_end _ _ (C4 c Hc)) as Hend0. rewrite Hopen0 in Hend0.
  assert (ClientStream.spec_step queueLimit (OPush f) (lk_stream k) = mkStream (st_frames (lk_stream k) ++ [f])%list (st_asked (lk_stream k)) None) as Hst.
  { cbn [ClientStream.spec_step] in Hend |- *. rewrite Hend0 in Hend |- *. destruct (_ && _); [|done].
    unfold finish in Hend. rewrite Hend0 in Hend. done. }
  assert (cs_last (ClientStream.push queueLimit f c) = Some (fr_eventId f)) as Hlast.
  { unfold ClientStream.push. rewrite Hopen0. destruct (cs_waiters c); [|done]. destruct (_ && _); [|done]. unfold close. simpl. by rewrite Hopen0. }
  set (k' := mkLink _ _ _ _ _ _ _ _ _).
  assert (received k' = (received k ++ [fr_eventId f])%list) as Hr by (unfold received, k'; cbn [lk_stream]; rewrite Hst; cbn [st_frames]; by rewrite map_app).
  change (history_ids k) with (history_ids k') in *. simpl in Hseg.
  split; rewrite ?Hr; [|by rewrite last_snoc|by destruct (received k)].
  exists i. cbn [lk_up lk_flight k']. rewrite <- app_assoc. simpl. split_and!; [|done|done].
  rewrite length_app. simpl. apply (f_equal length) in Hseg. rewrite length_app, length_drop in Hseg. simpl in Hseg. lia.
Qed.

Lemma coherent_drop k c :
  coherent k -> lk_sub k = Some c -> lk_up k = true ->
  coherent (mkLink (lk_now k) (lk_buffer k) (lk_history k) false [] (lk_sub k) (lk_stream k) (lk_gap k)
    (lk_early k || early_drop c (lk_stream k))).
Proof.
  intros [C1 C2 C3 C4 C5] Hc Hup. split; simpl; [done..|]. intros c' Hc' Hopen Hg [He Hcase]%orb_false_iff.
  destruct (C5 c' Hc' Hopen Hg He) as [(i & Hlen & Hi & Hseg) H2 H3]. rewrite Hup in Hseg. split; [|done|].
  - exists i. split_and!; [done|done|]. cbn [lk_up]. change (received k = take (length (received k)) (drop (Z.to_nat i) (history_ids k))).
    rewrite <- Hseg. by rewrite take_app_length.
  - intros Hnil _. assert (c' = c) as -> by congruence. unfold received in Hnil. simpl in Hnil. unfold early_drop in Hcase.
    destruct (st_frames (lk_stream k)); [|done]. rewrite andb_true_r in Hcase. apply bool_decide_eq_false in Hcase.
    by apply eq_None_not_Some.
Qed.

Lemma coherent_step k k' : coherent k -> link_step k k' -> coherent k'.
Proof using Hmax.
  intros Hc []; [by apply coherent_emit| |eapply coherent_subscribe; eassumption|eapply coherent_receive; eassumption|
    eapply coherent_local; eassumption|eapply coherent_drop; eassumption|eapply coherent_reconnect; eassumption].
  destruct Hc as [C1 C2 C3 C4 C5]. split; simpl; [|done|done|done|].
  - apply related_prune_all; [done|]. by eapply related_later.
  - intros c Hsub Hopen Hgap He. destruct (C5 c Hsub Hopen Hgap He). by split.
Qed.

Definition link_reachable (k : Link) : Prop := exists now, rtc link_step (link_start now) k.

Lemma coherent_reachable k : link_reachable k -> coherent k.
Proof using Hmax.
  intros [now H]. revert k H. apply (rtc_ind_r (R := link_step)); [apply coherent_start|]. intros k1 k2 _ Hstep Hc. by eapply coherent_step.
Qed.
End Link.

(** C24: Resuming loses and repeats nothing, or says so. For one subscription over
    any number of connections that drop, at any points in the flow of frames, and
    are re-established: as long as no session began with a replay marker, the
    stream is open, and no drop fell between a subscribe reply that set the cursor
    and the first frame the client received, there is a point [i] of the subject's history such that the
    [t]-th event the consumer is given is event number [i + t] of the history;
    and while connected, everything emitted since is with the client or on its
    way to it. *)
Theorem resume_is_seamless (cf : Config) (maxEvents ttlMs : Z) (queueLimit : nat) (subject : string) (k : Link) (c : ClientSub) :
  1 <= maxEvents -> link_reachable cf maxEvents ttlMs queueLimit subject k ->
  lk_sub k = Some c -> cs_closed c = false -> lk_gap k = false -> lk_early k = false ->
  exists i,
    (forall t f, settled_at t (cs_settled c) = Some (GotValue f) -> history_ids subject k !! (i + t)%nat = Some (fr_eventId f)) /\
    (lk_up k = true -> (received k ++ map fr_eventId (lk_flight k))%list = drop i (history_ids subject k)).
Proof.
  intros Hmax Hr Hc Ho Hg He. pose proof (coherent_reachable _ _ _ _ _ Hmax k Hr) as Hco.
  destruct (co_in_step _ _ _ _ Hco c Hc Ho Hg He) as [(i & Hlen & Hi & Hseg) _ _]. exists (Z.to_nat i). split; cycle 1.
  { intros Hup. by rewrite Hup in Hseg. }
  intros t f Hs. pose proof (co_stream _ _ _ _ Hco c Hc) as Hm. rewrite (mt_settled _ _ Hm) in Hs. case_decide as Ht; [|done].
  unfold answer in Hs. rewrite (mt_end _ _ Hm), Ho in Hs. destruct (st_frames (lk_stream k) !! t) as [g|] eqn:Eg; simplify_eq.
  assert (received k !! t = Some (fr_eventId f)) as Hrec by (unfold received; pose proof (list_lookup_fmap fr_eventId (st_frames (lk_stream k)) t) as Hl; rewrite Eg in Hl; exact Hl).
  rewrite <- lookup_drop. destruct (lk_up k).
  - rewrite <- Hseg. by apply lookup_app_l_Some.
  - rewrite Hseg in Hrec. by apply lookup_take_Some in Hrec as [? _].
Qed.

(** ** Runs *)

Module ResumeDemo.
Definition subject : string := "session:a/events".
Definition ev (id : string) : EventFrame := mkFrame id "__pending__" subject "tick" VNull.
Definition emit_at (now : Z) (f : EventFrame) (k : Link) : Link :=
  mkLink now (ReplayBuffer.push 10 1000 now subject f (lk_buffer k))
    (jset subject (history_of subject (lk_history k) ++ [mkBuffered f now])%list (lk_history k)) (lk_up k)
    (match lk_sub k with
     | Some c => if lk_up k && bool_decide (subject = subject) then (lk_flight k ++ [wire default_config (cs_id c) f])%list else lk_flight k
     | None => lk_flight k
     end) (lk_sub k) (lk_stream k) (lk_gap k) (lk_early k).
Definition subscribe_at (now : Z) (sid : string) (k : Link) : Link :=
  let r := replay 1000 now subject None (lk_buffer k) in
  mkLink now r.2 (lk_history k) true (map (wire default_config sid) (sl_events r.1))
    (Some (createSubscription sid subject (snapshot_of now r.1))) (lk_stream k) (lk_gap k || (0 <? sl_droppedCount r.1)) (lk_early k).
Definition receive (k : Link) : Link :=
  match lk_sub k, lk_flight k with
  | Some c, f :: fl => mkLink (lk_now k) (lk_buffer k) (lk_history k) true fl (Some (ClientStream.push 5 f c))
                         (ClientStream.spec_step 5 (OPush f) (lk_stream k)) (lk_gap k) (lk_early k)
  | _, _ => k
  end.
Definition drop (k : Link) : Link :=
  mkLink (lk_now k) (lk_buffer k) (lk_history k) false [] (lk_sub k) (lk_stream k) (lk_gap k)
    (lk_early k || match lk_sub k with Some c => early_drop c (lk_stream k) | None => false end).
Definition reconnect_at (now : Z) (sid : string) (k : Link) : Link :=
  match lk_sub k with
  | Some c => let r := replay 1000 now subject (cs_last c) (lk_buffer k) in
      mkLink now r.2 (lk_history k) true (map (wire default_config sid) (sl_events r.1)) (Some (rebind sid c)) (lk_stream k)
        (lk_gap k || (0 <? sl_droppedCount r.1)) (lk_early k)
  | None => k
  end.
Definition ask (k : Link) : Link :=
  match lk_sub k with
  | Some c => mkLink (lk_now k) (lk_buffer k) (lk_history k) (lk_up k) (lk_flight k) (Some (ClientStream.impl_step 5 ONext c))
                (ClientStream.spec_step 5 ONext (lk_stream k)) (lk_gap k) (lk_early k)
  | None => k
  end.

(** Two events reach the client, the connection drops with a third on the way,
    a fourth is emitted meanwhile, the client reconnects. *)
Definition k1 := emit_at 1 (ev "a") (subscribe_at 0 "s1" (link_start 0)).
Definition k2 := receive (receive (emit_at 2 (ev "b") k1)).
Definition k3 := emit_at 4 (ev "d") (drop (emit_at 3 (ev "c") k2)).
Definition k4 := ask (ask (ask (receive (reconnect_at 5 "s2" k3)))).

Local Notation steps := (link_step default_config 10 1000 5 subject).

Lemma step_emit now id k :
  (lk_now k <=? now) = true -> bool_decide (id ∈ map event_id (history_of subject (lk_history k))) = false ->
  steps k (emit_at now (ev id) k).
Proof. intros Ht%Z.leb_le Hid%bool_decide_eq_false. apply LEmit; [done|done|by eexists]. Qed.

Lemma step_subscribe now sid k : (lk_now k <=? now) = true -> lk_sub k = None -> steps k (subscribe_at now sid k).
Proof. intros Ht%Z.leb_le Hs. eapply LSubscribe; [done|done|apply surjective_pairing]. Qed.

Lemma step_receive c f fl k : lk_sub k = Some c -> lk_up k = true -> lk_flight k = f :: fl -> steps k (receive k).
Proof. intros Hc Hu Hf. unfold receive. rewrite Hc, Hf. by eapply LReceive. Qed.

Lemma step_drop c k : lk_sub k = Some c -> lk_up k = true -> steps k (drop k).
Proof. intros Hc Hu. unfold drop. pose proof (LDrop default_config 10 1000 5 subject k c Hc Hu) as H. by rewrite Hc in H |- *. Qed.

Lemma step_reconnect now sid c k :
  (lk_now k <=? now) = true -> lk_sub k = Some c -> lk_up k = false -> cs_closed c = false -> steps k (reconnect_at now sid k).
Proof. intros Ht%Z.leb_le Hc Hu Ho. unfold reconnect_at. rewrite Hc. eapply LReconnect; [done..|apply surjective_pairing]. Qed.

Lemma step_ask c k : lk_sub k = Some c -> steps k (ask k).
Proof. intros Hc. unfold ask. rewrite Hc. by apply LLocal. Qed.

Lemma k4_reachable : link_reachable default_config 10 1000 5 subject k4.
Proof.
  exists 0. unfold k4, k3, k2, k1.
  do 3 (eapply rtc_r; [|eapply step_ask; vm_compute; reflexivity]).
  eapply rtc_r; [|eapply step_receive; vm_compute; reflexivity].
  eapply rtc_r; [|eapply step_reconnect; vm_compute; reflexivity].
  eapply rtc_r; [|apply step_emit; vm_compute; reflexivity].
  eapply rtc_r; [|eapply step_drop; vm_compute; reflexivity].
  eapply rtc_r; [|apply step_emit; vm_compute; reflexivity].
  do 2 (eapply rtc_r; [|eapply step_receive; vm_compute; reflexivity]).
  do 2 (eapply rtc_r; [|apply step_emit; vm_compute; reflexivity]).
  eapply rtc_r; [apply rtc_refl|apply step_subscribe; vm_compute; reflexivity].
Qed.

Definition c4 : ClientSub := default (createSubscription "" "" None) (lk_sub k4).

(** An event is buffered, the client subscribes and the connection drops before
    the replayed frame arrives: the cursor already stands at that event, and the
    next session neither sends it nor signals a gap. *)
Definition lossy : Link := reconnect_at 3 "s2" (drop (subscribe_at 2 "s1" (emit_at 1 (ev "a") (link_start 0)))).

Example snapshot_cursor_loses_replay :
  lk_gap lossy = false /\ lk_early lossy = true /\ lk_up lossy = true /\ history_ids subject lossy = ["a"] /\ received lossy = [] /\ lk_flight lossy = [].
Proof. vm_compute. repeat split. Qed.
End ResumeDemo.

Lemma resume_is_seamless_witness :
  let k := ResumeDemo.k4 in let c := ResumeDemo.c4 in
  history_ids ResumeDemo.subject k = ["a"; "b"; "c"; "d"] /\
  exists i,
    (forall t f, settled_at t (cs_settled c) = Some (GotValue f) -> history_ids ResumeDemo.subject k !! (i + t)%nat = Some (fr_eventId f)) /\
    (received k ++ map fr_eventId (lk_flight k))%list = drop i (history_ids ResumeDemo.subject k).
Proof.
  intros k c. split; [vm_compute; reflexivity|].
  destruct (resume_is_seamless default_config 10 1000 5 ResumeDemo.subject k c ltac:(lia) ResumeDemo.k4_reachable
              ltac:(vm_compute; reflexivity) ltac:(vm_compute; reflexivity) ltac:(vm_compute; reflexivity) ltac:(vm_compute; reflexivity)) as (i & H1 & H2).
  exists i. split; [exact H1|]. apply H2. vm_compute. reflexivity.
Defined.
