(* ===== verification/Tokens.v ===== *)
(** * The server token format

    [packages/security/src/auth/token-format.ts]: the CRC-32 register at its
    32-bit width, the two base 62 encoders, generation, the structural
    parser and its pre-filter.

    Strings are sequences of code units below 256; [Buffer.from] of an ASCII
    string is its bytes.  The bytes that [crypto.randomBytes] returns are an
    argument of [generateRawToken].  Messages of thrown errors are not kept. *)

From S2P Require Import Prelude Merkle Subjects.

Local Open Scope js_scope.
Local Open Scope string_scope.
Local Open Scope Z_scope.

(** ** 32-bit operators: [>>>] and [^] *)

Definition toUint32 (z : Z) : Z := z mod 2 ^ 32.
Definition ushr (z k : Z) : Z := Z.shiftr (toUint32 z) k.
Definition xor32 (a b : Z) : Z := toInt32 (Z.lxor (toInt32 a) (toInt32 b)).
Definition and32 (a b : Z) : Z := toInt32 (Z.land (toInt32 a) (toInt32 b)).

(** ** Constants *)

Definition BASE62_ALPHABET : string := "0123456789ABCDEFGHIJKLMNOPQRSTUVWXYZabcdefghijklmnopqrstuvwxyz".

Definition code (c : ascii) : nat := nat_of_ascii c.

(** [new Int8Array(128).fill(-1)], then one write per letter. *)
Fixpoint index_letters (i : nat) (letters : string) (m : list Z) : list Z :=
  match letters with
  | EmptyString => m
  | String c rest => index_letters (S i) rest (<[code c := Z.of_nat i]> m)
  end.
Definition BASE62_INDEX : list Z := index_letters 0 BASE62_ALPHABET (replicate 128 (-1)).

Definition DEFAULT_TOKEN_PREFIX : string := "gph".
Definition TOKEN_ENTROPY_BYTES : nat := 32.
Definition TOKEN_ENTROPY_LENGTH : nat := 43.
Definition TOKEN_CHECKSUM_LENGTH : nat := 6.
Definition TOKEN_VERSION : string := "v1".
Definition TOKEN_ENVIRONMENTS : list string := ["live"; "test"; "local"].

(** [/^[a-z][a-z0-9-]{0,15}$/] *)
Definition ENV_LABEL_RE (s : string) : bool := lower_slug s && bool_decide (String.length s <= 16)%nat.

(** ** CRC-32 *)

(** [c & 1 ? 0xedb88320 ^ (c >>> 1) : c >>> 1] *)
Definition table_round (c : Z) : Z :=
  if bool_decide (and32 c 1 <> 0) then xor32 0xedb88320 (ushr c 1) else ushr c 1.
Definition table_entry (n : Z) : Z := toUint32 (Nat.iter 8 table_round n).
Definition CRC32_TABLE : list Z := map (fun n => table_entry (Z.of_nat n)) (seq 0 256).

Definition crc_step (table : list Z) (crc byte : Z) : Z :=
  let idx := and32 (xor32 crc byte) 0xff in
  let next := default 0 (table !! Z.to_nat idx) in
  xor32 (ushr crc 8) next.

Definition crc32_bytes (bytes : list Z) : Z :=
  ushr (xor32 (fold_left (crc_step CRC32_TABLE) bytes 0xffffffff) 0xffffffff) 0.

Definition bytes_of (s : string) : list Z := map (fun c => Z.of_nat (code c)) (String.list_ascii_of_string s).
Definition crc32 (input : string) : Z := crc32_bytes (bytes_of input).

(** ** Base 62 *)

(** The [RangeError]s thrown by the encoders and the label checks. *)
Inductive range_error := NegativeValue | BadWidth (width : Z) | TooWide (chars width : Z) | BadLabel (label : string).

(** [BASE62_ALPHABET.charAt(n)], the empty string out of range *)
Definition charAt (s : string) (n : Z) : string :=
  match String.get (Z.to_nat n) s with
  | Some c => if 0 <=? n then String c EmptyString else EmptyString
  | None => EmptyString
  end.

Fixpoint repeat_str (c : string) (n : nat) : string :=
  match n with O => EmptyString | S n' => c +:+ repeat_str c n' end.

Definition padStart (s : string) (width : Z) (c : string) : string :=
  repeat_str c (Z.to_nat width - String.length s) +:+ s.

(** [while (n > 0) { out = charAt(n % 62) + out; n = Math.floor(n / 62); }];
    [None] when the fuel runs out *)
Fixpoint integer_digits (fuel : nat) (n : Z) (out : string) : option string :=
  if n >? 0 then
    match fuel with
    | O => None
    | S fuel' => integer_digits fuel' (n / 62) (charAt BASE62_ALPHABET (n mod 62) +:+ out)
    end
  else Some out.

(** A value has no more base 62 digits than binary ones. *)
Definition integer_fuel (n : Z) : nat := S (Z.to_nat (Z.log2 n)).

Definition encodeBase62Integer (value width : Z) : option (result range_error string) :=
  if value <? 0 then Some (Err NegativeValue)
  else if width <=? 0 then Some (Err (BadWidth width))
  else
    out ← integer_digits (integer_fuel value) value "";
    let len := Z.of_nat (String.length out) in
    Some (if len >? width then Err (TooWide len width) else Ok (padStart out width "0")).

(** The inner [for]: one pass of the long division. *)
Fixpoint divide_pass (value : list Z) (remainder : Z) (leadingZero : bool) : list Z * Z :=
  match value with
  | [] => ([], remainder)
  | byte :: rest =>
      let acc := remainder * 256 + byte in
      let quotient := acc / 62 in
      let remainder' := acc - quotient * 62 in
      if negb leadingZero || (quotient >? 0) then
        let '(next, r) := divide_pass rest remainder' false in (quotient :: next, r)
      else divide_pass rest remainder' leadingZero
  end.

(** The outer [while]; [out] grows at its end, least significant digit
    first. *)
Fixpoint divide_loop (fuel : nat) (value : list Z) (out : list string) : option (list string) :=
  match value with
  | [] => Some out
  | _ =>
      match fuel with
      | O => None
      | S fuel' =>
          let '(next, remainder) := divide_pass value 0 true in
          divide_loop fuel' next (out ++ [charAt BASE62_ALPHABET remainder])
      end
  end.

Definition join (l : list string) : string := foldr (fun a b => a +:+ b) EmptyString l.

Definition encodeBase62Bytes (bytes : list Z) (width : Z) : option (result range_error string) :=
  if width <=? 0 then Some (Err (BadWidth width))
  else if decide (bytes = []) then Some (Ok (repeat_str "0" (Z.to_nat width)))
  else
    out ← divide_loop (2 * length bytes) bytes [];
    let len := Z.of_nat (length out) in
    Some (if len >? width then Err (TooWide len width)
          else Ok (join (rev (out ++ replicate (Z.to_nat width - length out) "0")))).

(** ** Generation *)

Record GenerateRawTokenOptions := mkGenerate { go_prefix : option string; go_env : string }.

Definition validateLabel (label : string) : result range_error unit :=
  if ENV_LABEL_RE label then Ok tt else Err (BadLabel label).

Definition token_text (prefix env version entropy checksum : string) : string :=
  prefix +:+ "_" +:+ env +:+ "_" +:+ version +:+ "_" +:+ entropy +:+ "_" +:+ checksum.

(** [entropyBytes] is what [randomBytes(TOKEN_ENTROPY_BYTES)] returned. *)
Definition generateRawToken (opts : GenerateRawTokenOptions) (entropyBytes : list Z) : option (result range_error string) :=
  let prefix := default DEFAULT_TOKEN_PREFIX (go_prefix opts) in
  match validateLabel prefix, validateLabel (go_env opts) with
  | Err e, _ | Ok _, Err e => Some (Err e)
  | Ok _, Ok _ =>
      entropy ← encodeBase62Bytes entropyBytes (Z.of_nat TOKEN_ENTROPY_LENGTH);
      match entropy with
      | Err e => Some (Err e)
      | Ok entropy =>
          checksum ← encodeBase62Integer (crc32 entropy) (Z.of_nat TOKEN_CHECKSUM_LENGTH);
          Some (let! checksum := checksum in Ok (token_text prefix (go_env opts) TOKEN_VERSION entropy checksum))
      end
  end.

(** ** Parsing *)

Inductive TokenFormatErrorKind :=
  | EmptyInput | WrongPrefix | WrongVersion | WrongLength | InvalidEnvironment | InvalidEntropy | InvalidChecksum.

Inductive token_error :=
  | TokenFormatError (kind : TokenFormatErrorKind) (inputLength : nat)
  | ParserThrew (e : range_error)
  | ParserDiverged.

Record ParsedToken := mkParsed {
  pt_prefix : string; pt_env : string; pt_version : string; pt_entropy : string; pt_checksum : string; pt_raw : string }.

Record ParseTokenOptions := mkParseOpts { acceptPrefix : option string; acceptEnvironments : option (list string) }.
Definition default_parse : ParseTokenOptions := mkParseOpts None None.

Definition isAcceptedEnvironment (env : string) (accept : option (list string)) : bool :=
  if bool_decide (String.length env = 0)%nat || bool_decide (16 < String.length env)%nat then false
  else match accept with
       | Some [] => ENV_LABEL_RE env
       | Some l => bool_decide (env ∈ l)
       | None => bool_decide (env ∈ TOKEN_ENVIRONMENTS)
       end.

Definition isBase62 (input : string) : bool :=
  all_chars (fun c => negb (bool_decide (128 <= code c)%nat || bool_decide (BASE62_INDEX !! code c = Some (-1)))) input.

Definition parseToken (input : string) (opts : ParseTokenOptions) : result token_error ParsedToken :=
  let err kind := Err (TokenFormatError kind (String.length input)) in
  if decide (input = "") then err EmptyInput
  else match split_char "_" input with
  | [prefix; env; version; entropy; checksum] =>
      if negb (bool_decide (prefix = default DEFAULT_TOKEN_PREFIX (acceptPrefix opts))) then err WrongPrefix
      else if negb (isAcceptedEnvironment env (acceptEnvironments opts)) then err InvalidEnvironment
      else if negb (bool_decide (version = TOKEN_VERSION)) then err WrongVersion
      else if negb (bool_decide (String.length entropy = TOKEN_ENTROPY_LENGTH)) || negb (isBase62 entropy) then err InvalidEntropy
      else if negb (bool_decide (String.length checksum = TOKEN_CHECKSUM_LENGTH)) || negb (isBase62 checksum) then err InvalidChecksum
      else match encodeBase62Integer (crc32 entropy) (Z.of_nat TOKEN_CHECKSUM_LENGTH) with
           | None => Err ParserDiverged
           | Some (Err e) => Err (ParserThrew e)
           | Some (Ok expected) =>
               if negb (bool_decide (expected = checksum)) then err InvalidChecksum
               else Ok (mkParsed prefix env TOKEN_VERSION entropy checksum input)
           end
  | _ => err WrongLength
  end.

Definition verifyOffline (input : string) (opts : ParseTokenOptions) : result token_error string :=
  let! parsed := parseToken input opts in Ok (pt_env parsed).
