(* ===== verification/TokenFacts.v ===== *)
(** * Facts about the token encodings

    The CRC-32 register as a linear, invertible map on 32-bit words, and the
    base 62 encoders as positional notation.  [TokenProps] builds on both. *)

From S2P Require Import Prelude Merkle Subjects Tokens.

Local Open Scope string_scope.
Local Open Scope list_scope.
Local Open Scope Z_scope.

(** ** 32-bit words *)

Definition word32 (z : Z) : Prop := 0 <= z < 2 ^ 32.
Definition byte (b : Z) : Prop := 0 <= b < 256.

Lemma toUint32_land z : toUint32 z = Z.land z (Z.ones 32).
Proof. symmetry. apply Z.land_ones. lia. Qed.

Lemma toUint32_word z : word32 (toUint32 z).
Proof. unfold toUint32, word32. apply Z.mod_pos_bound. lia. Qed.

Lemma toUint32_small z : word32 z -> toUint32 z = z.
Proof. intros Hz. apply Z.mod_small, Hz. Qed.

Lemma toUint32_toInt32 z : toUint32 (toInt32 z) = toUint32 z.
Proof. unfold toUint32, toInt32. rewrite Zminus_mod_idemp_l. f_equal. lia. Qed.

Lemma toInt32_small z : 0 <= z < 2 ^ 31 -> toInt32 z = z.
Proof. intros Hz. unfold toInt32. rewrite Z.mod_small; lia. Qed.

Lemma land_lxor_l a b m : Z.land (Z.lxor a b) m = Z.lxor (Z.land a m) (Z.land b m).
Proof.
  apply Z.bits_inj'. intros i Hi. rewrite Z.lxor_spec, !Z.land_spec, Z.lxor_spec.
  destruct (Z.testbit a i), (Z.testbit b i), (Z.testbit m i); done.
Qed.

Lemma toUint32_lxor a b : toUint32 (Z.lxor a b) = Z.lxor (toUint32 a) (toUint32 b).
Proof. rewrite !toUint32_land. apply land_lxor_l. Qed.

Lemma toUint32_xor32 a b : toUint32 (xor32 a b) = Z.lxor (toUint32 a) (toUint32 b).
Proof. unfold xor32. by rewrite toUint32_toInt32, toUint32_lxor, !toUint32_toInt32. Qed.

Lemma land_lt a n : 0 <= n -> 0 <= Z.land a (Z.ones n) < 2 ^ n.
Proof. intros Hn. rewrite Z.land_ones by done. apply Z.mod_pos_bound. lia. Qed.

Lemma lxor_word a b : word32 a -> word32 b -> word32 (Z.lxor a b).
Proof.
  intros Ha Hb. rewrite <- (toUint32_small a), <- (toUint32_small b), <- toUint32_lxor by done.
  apply toUint32_word.
Qed.

Lemma lxor_cancel_l a b c : Z.lxor a b = Z.lxor a c -> b = c.
Proof.
  intros E. rewrite <- (Z.lxor_0_l b), <- (Z.lxor_0_l c), <- (Z.lxor_nilpotent a), !Z.lxor_assoc.
  by rewrite E.
Qed.

Lemma shiftr_word a n : 0 <= n -> word32 a -> word32 (Z.shiftr a n).
Proof.
  intros Hn [H1 H2]. rewrite Z.shiftr_div_pow2 by done. split; [apply Z.div_pos; lia|].
  apply Z.le_lt_trans with a; [|done]. apply Z.div_le_upper_bound; nia.
Qed.

(** The index of a table lookup is the low byte of the register. *)
Lemma and32_byte z : and32 z 0xff = Z.land (toUint32 z) 255.
Proof.
  unfold and32. change (toInt32 255) with (Z.ones 8). pose proof (land_lt (toInt32 z) 8 ltac:(lia)).
  rewrite toInt32_small by lia. change 255 with (Z.ones 8). rewrite <- (toUint32_toInt32 z), toUint32_land.
  rewrite <- Z.land_assoc. by change (Z.land (Z.ones 32) (Z.ones 8)) with (Z.ones 8).
Qed.

(** ** The CRC register *)

(** One round of the table's construction on the unsigned word: multiplication
    by [x] in the field of the polynomial. *)
Definition R (x : Z) : Z := Z.lxor (if Z.odd x then 0xedb88320 else 0) (Z.shiftr x 1).

Lemma table_round_R c : toUint32 (table_round c) = R (toUint32 c).
Proof.
  assert (and32 c 1 = if Z.odd (toUint32 c) then 1 else 0) as E.
  { unfold and32. change (toInt32 1) with 1. change 1 with (Z.ones 1). rewrite Z.land_ones by lia.
    change (2 ^ 1) with 2. rewrite Zmod_odd, <- (toUint32_toInt32 c). set (z := toInt32 c).
    replace (Z.odd (toUint32 z)) with (Z.odd z); [by destruct (Z.odd z)|].
    unfold toUint32. by rewrite <- !Z.bit0_odd, Z.mod_pow2_bits_low by lia. }
  assert (word32 (ushr c 1)) as Hw by (apply shiftr_word, toUint32_word; lia).
  unfold table_round, R. rewrite E. destruct (Z.odd (toUint32 c)).
  - rewrite bool_decide_true by done. by rewrite toUint32_xor32, (toUint32_small _ Hw).
  - rewrite bool_decide_false by (intros []; done). by rewrite (toUint32_small _ Hw), Z.lxor_0_l.
Qed.

Lemma R_linear x y : R (Z.lxor x y) = Z.lxor (R x) (R y).
Proof.
  unfold R. rewrite Z.shiftr_lxor, <- !Z.bit0_odd, Z.lxor_spec, !Z.bit0_odd.
  destruct (Z.odd x), (Z.odd y); cbn [xorb]; rewrite ?Z.lxor_0_l; [|by rewrite ?Z.lxor_assoc|..].
  - rewrite (Z.lxor_comm 0xedb88320 (Z.shiftr y 1)), Z.lxor_assoc, <- (Z.lxor_assoc (Z.shiftr x 1)).
    by rewrite (Z.lxor_comm _ 0xedb88320), <- Z.lxor_assoc, Z.lxor_nilpotent, Z.lxor_0_l.
  - by rewrite <- !Z.lxor_assoc, (Z.lxor_comm (Z.shiftr x 1)).
  - done.
Qed.

Definition T (b : Z) : Z := default 0 (CRC32_TABLE !! Z.to_nat b).
Definition F (x : Z) : Z := Z.lxor (Z.shiftr x 8) (T (Z.land x 255)).

Lemma iter_linear n x y : Nat.iter n R (Z.lxor x y) = Z.lxor (Nat.iter n R x) (Nat.iter n R y).
Proof. induction n as [|n IH]; [done|]. rewrite ?Nat.iter_succ. by rewrite IH, R_linear. Qed.

Lemma iter_table_round n c : toUint32 (Nat.iter n table_round c) = Nat.iter n R (toUint32 c).
Proof. induction n as [|n IH]; [done|]. rewrite ?Nat.iter_succ. by rewrite table_round_R, IH. Qed.

Lemma byte_word b : byte b -> word32 b.
Proof. unfold byte, word32. lia. Qed.

Lemma T_rounds b : byte b -> T b = Nat.iter 8 R b.
Proof.
  intros Hb. unfold T, CRC32_TABLE. rewrite list_lookup_map, lookup_seq_lt by (unfold byte in Hb; lia).
  change (table_entry (Z.of_nat (0 + Z.to_nat b)%nat) = Nat.iter 8 R b). rewrite Nat.add_0_l, Z2Nat.id by (unfold byte in Hb; lia).
  unfold table_entry. by rewrite iter_table_round, (toUint32_small b) by by apply byte_word.
Qed.

(** Entries of non-zero bytes have a non-zero top byte. *)
Lemma top_bytes : forallb (fun n => 2 ^ 24 <=? Nat.iter 8 R (Z.of_nat n)) (seq 1 255) = true.
Proof. vm_compute. reflexivity. Qed.

Lemma table_at a : byte a -> word32 (T a) /\ (a <> 0 -> 2 ^ 24 <= T a)
  /\ forall b, byte b -> T (Z.lxor a b) = Z.lxor (T a) (T b).
Proof.
  intros Ha. split; [|split].
  - rewrite T_rounds by done. pose proof (iter_table_round 8 a) as E.
    rewrite (toUint32_small a) in E by by apply byte_word. rewrite <- E. apply toUint32_word.
  - intros Hne. rewrite T_rounds by done. pose proof top_bytes as Hc. rewrite forallb_forall in Hc.
    specialize (Hc (Z.to_nat a)). rewrite in_seq in Hc. unfold byte in Ha. rewrite Z2Nat.id in Hc by lia.
    apply Z.leb_le, Hc. lia.
  - intros b Hb. assert (byte (Z.lxor a b)) as Hab.
    { unfold byte in *. rewrite <- (Z.mod_small a (2 ^ 8)), <- (Z.mod_small b (2 ^ 8)) by done.
      rewrite <- !Z.land_ones, <- land_lxor_l by lia. apply (land_lt _ 8). lia. }
    rewrite !T_rounds by done. apply iter_linear.
Qed.

Lemma T_0 : T 0 = 0.
Proof. vm_compute. reflexivity. Qed.

Lemma low_byte x : byte (Z.land x 255).
Proof. change 255 with (Z.ones 8). apply (land_lt x 8). lia. Qed.

Lemma F_word x : word32 x -> word32 (F x).
Proof. intros Hx. apply lxor_word; [by apply shiftr_word; [lia|]|]. apply table_at, low_byte. Qed.

Lemma F_linear x y : F (Z.lxor x y) = Z.lxor (F x) (F y).
Proof.
  unfold F. rewrite Z.shiftr_lxor, land_lxor_l.
  rewrite (proj2 (proj2 (table_at _ (low_byte x))) _ (low_byte y)).
  rewrite !Z.lxor_assoc. f_equal. rewrite <- !Z.lxor_assoc. f_equal. apply Z.lxor_comm.
Qed.

Lemma F_kernel x : word32 x -> F x = 0 -> x = 0.
Proof.
  intros Hx E. apply Z.lxor_eq in E. pose proof (table_at _ (low_byte x)) as (_ & Hbig & _).
  assert (Z.shiftr x 8 < 2 ^ 24).
  { rewrite Z.shiftr_div_pow2 by lia. apply Z.div_lt_upper_bound; unfold word32 in Hx; lia. }
  destruct (decide (Z.land x 255 = 0)) as [E0|E0]; [|specialize (Hbig E0); lia].
  rewrite E0, T_0 in E. change 255 with (Z.ones 8) in E0. rewrite Z.land_ones in E0 by lia.
  rewrite Z.shiftr_div_pow2 in E by lia. pose proof (Z.div_mod x (2 ^ 8)). lia.
Qed.

Lemma F_inj x y : word32 x -> word32 y -> F x = F y -> x = y.
Proof.
  intros Hx Hy E. apply Z.lxor_eq, F_kernel; [by apply lxor_word|]. by rewrite F_linear, E, Z.lxor_nilpotent.
Qed.

Lemma F_shift x : 0 <= x -> F (Z.shiftl x 8) = x.
Proof.
  intros Hx. unfold F. rewrite Z.shiftr_shiftl_l, Z.sub_diag, Z.shiftl_0_r by lia.
  change 255 with (Z.ones 8). rewrite Z.land_ones, Z.shiftl_mul_pow2, Z.mod_mul by lia.
  rewrite T_0. apply Z.lxor_0_r.
Qed.

(** The register as the unsigned word it stands for. *)
Definition reg (s : Z) (l : list Z) : Z := fold_left (fun x b => F (Z.lxor x b)) l s.

Lemma crc_step_word crc b : byte b -> toUint32 (crc_step CRC32_TABLE crc b) = F (Z.lxor (toUint32 crc) b).
Proof.
  intros Hb. unfold crc_step. rewrite toUint32_xor32, and32_byte, toUint32_xor32.
  assert (word32 b) as Hw by (unfold byte, word32 in *; lia). rewrite (toUint32_small b Hw). fold (T (Z.land (Z.lxor (toUint32 crc) b) 255)).
  rewrite (toUint32_small (T _)) by apply table_at, low_byte. unfold F. f_equal.
  unfold ushr. rewrite toUint32_small by (apply shiftr_word, toUint32_word; lia).
  rewrite Z.shiftr_lxor. replace (Z.shiftr b 8) with 0; [symmetry; apply Z.lxor_0_r|].
  rewrite Z.shiftr_div_pow2 by lia. symmetry. apply Z.div_small. unfold byte in Hb. lia.
Qed.

Lemma crc_fold l crc : Forall byte l -> toUint32 (fold_left (crc_step CRC32_TABLE) l crc) = reg (toUint32 crc) l.
Proof.
  intros Hl. revert crc. induction Hl as [|b l Hb _ IH]; intros crc; [done|].
  cbn [fold_left]. by rewrite IH, crc_step_word.
Qed.

Lemma crc32_bytes_reg l : Forall byte l -> crc32_bytes l = Z.lxor (reg 0xffffffff l) 0xffffffff.
Proof.
  intros Hl. unfold crc32_bytes, ushr. rewrite Z.shiftr_0_r, toUint32_xor32, crc_fold by done. done.
Qed.

Lemma reg_word s l : word32 s -> Forall byte l -> word32 (reg s l).
Proof.
  intros Hs Hl. revert s Hs. induction Hl as [|b l Hb _ IH]; intros s Hs; [done|].
  apply IH, F_word, lxor_word, byte_word; done.
Qed.

Lemma crc32_bytes_word l : Forall byte l -> word32 (crc32_bytes l).
Proof.
  intros Hl. rewrite crc32_bytes_reg by done. apply lxor_word; [apply reg_word; [|done]|]; unfold word32; lia.
Qed.

Lemma reg_inj s s' l : word32 s -> word32 s' -> Forall byte l -> reg s l = reg s' l -> s = s'.
Proof.
  intros Hs Hs' Hl. revert s s' Hs Hs'. induction Hl as [|b l Hb _ IH]; intros s s' Hs Hs' E; [done|].
  apply byte_word in Hb. apply IH, F_inj in E; try by repeat first [apply F_word|apply lxor_word].
  apply (lxor_cancel_l b). by rewrite !(Z.lxor_comm b).
Qed.

(** Four bytes as a little-endian word. *)
Fixpoint word_of (l : list Z) : Z :=
  match l with [] => 0 | b :: l' => Z.lxor b (Z.shiftl (word_of l') 8) end.

Lemma lxor_low_high b w : byte b -> 0 <= w -> Z.lxor b (Z.shiftl w 8) = b + w * 256.
Proof.
  intros Hb Hw. rewrite <- Z.add_nocarry_lxor; [by rewrite Z.shiftl_mul_pow2 by lia|].
  apply Z.bits_inj'. intros i Hi. rewrite Z.land_spec, Z.bits_0, Z.shiftl_spec by done.
  destruct (decide (i < 8)); [rewrite (Z.testbit_neg_r w) by lia; apply andb_false_r|].
  replace b with (b mod 2 ^ 8) by (apply Z.mod_small, Hb). by rewrite Z.mod_pow2_bits_high by lia.
Qed.

Lemma word_of_cons b l : byte b -> 0 <= word_of l -> word_of (b :: l) = b + word_of l * 256.
Proof. apply lxor_low_high. Qed.

Lemma word_of_bounds l : Forall byte l -> 0 <= word_of l < 256 ^ Z.of_nat (length l).
Proof.
  induction 1 as [|b l Hb _ IH]; [done|]. rewrite word_of_cons by (done || lia). cbn [length].
  rewrite Nat2Z.inj_succ, Z.pow_succ_r by lia. unfold byte in Hb. lia.
Qed.

Lemma word_of_inj l l' : Forall byte l -> Forall byte l' -> length l = length l' -> word_of l = word_of l' -> l = l'.
Proof.
  intros Hl. revert l'. induction Hl as [|b l Hb Hl IH]; intros l' Hl' Hlen; destruct Hl' as [|b' l' Hb' Hl']; try done.
  injection Hlen as Hlen. pose proof (word_of_bounds l Hl). pose proof (word_of_bounds l' Hl').
  rewrite !word_of_cons by (done || lia). unfold byte in *. intros E.
  assert (b = b' /\ word_of l = word_of l') as [-> Ew] by lia. f_equal. by apply IH.
Qed.

Lemma reg_as_power s l : Forall byte l -> reg s l = Nat.iter (length l) F (Z.lxor s (word_of l)).
Proof.
  intros Hl. revert s. induction Hl as [|b l Hb Hl IH]; intros s; [cbn; by rewrite Z.lxor_0_r|].
  change (reg s (b :: l)) with (reg (F (Z.lxor s b)) l). rewrite IH.
  rewrite <- (F_shift (word_of l)) at 1 by apply (word_of_bounds l Hl).
  rewrite <- F_linear, Z.lxor_assoc. cbn [length word_of]. by rewrite Nat.iter_succ_r.
Qed.

Lemma iter_F_inj n x y : word32 x -> word32 y -> Nat.iter n F x = Nat.iter n F y -> x = y.
Proof.
  revert x y. induction n as [|n IH]; intros x y Hx Hy; [done|]. rewrite !Nat.iter_succ_r. intros E.
  apply F_inj; [done..|]. apply IH; [by apply F_word..|done].
Qed.

(** A corruption confined to four consecutive bytes changes the CRC. *)
Lemma crc_burst pre w w' post :
  Forall byte (pre ++ w ++ post) -> Forall byte w' -> length w = length w' -> (length w <= 4)%nat ->
  crc32_bytes (pre ++ w ++ post) = crc32_bytes (pre ++ w' ++ post) -> w = w'.
Proof.
  rewrite !Forall_app. intros (Hpre & Hw & Hpost) Hw' Hlen H4 E.
  rewrite !crc32_bytes_reg in E by (rewrite !Forall_app; done).
  rewrite !(Z.lxor_comm _ 0xffffffff) in E. apply lxor_cancel_l in E. unfold reg in E. rewrite !fold_left_app in E.
  fold (reg 0xffffffff pre) in E. set (s := reg 0xffffffff pre) in *.
  assert (word32 s) as Hs by (apply reg_word; [unfold word32; lia|done]).
  fold (reg s w) in E. fold (reg s w') in E. apply reg_inj in E; [|by apply reg_word..|done].
  rewrite !reg_as_power, <- Hlen in E by done.
  assert (forall v, Forall byte v -> length v = length w -> word32 (word_of v)) as Hv.
  { intros v Hb Hl. pose proof (word_of_bounds v Hb). rewrite Hl in H.
    pose proof (Z.pow_le_mono_r 256 (Z.of_nat (length w)) 4 ltac:(lia) ltac:(lia)). unfold word32. lia. }
  apply iter_F_inj, lxor_cancel_l in E; [by apply word_of_inj|apply lxor_word; auto..].
Qed.

(** ** Base 62 as positional notation *)

Definition digit (d : Z) : Prop := 0 <= d < 62.

Definition big_endian (base : Z) (l : list Z) : Z := fold_left (fun acc d => acc * base + d) l 0.
Definition bytes_value : list Z -> Z := big_endian 256.

(** The value of a base 62 text, read through the parser's own index. *)
Definition digit_of (c : ascii) : Z := default (-1) (BASE62_INDEX !! code c).
Definition text_value (s : string) : Z := big_endian 62 (map digit_of (String.list_ascii_of_string s)).

Definition text (ds : list Z) : string := join (map (charAt BASE62_ALPHABET) ds).

Lemma big_endian_app base l1 l2 acc :
  fold_left (fun acc d => acc * base + d) (l1 ++ l2) acc
  = fold_left (fun acc d => acc * base + d) l1 acc * base ^ Z.of_nat (length l2) + big_endian base l2.
Proof.
  revert l1 acc. induction l2 as [|d l2 IH] using rev_ind; intros l1 acc.
  { rewrite app_nil_r. cbn. lia. }
  unfold big_endian. rewrite app_assoc, fold_left_app, IH, (fold_left_app _ l2 [d]). cbn [fold_left]. rewrite length_app. cbn [length].
  rewrite Nat2Z.inj_add, Z.pow_add_r by lia. unfold big_endian. lia.
Qed.

Lemma big_endian_cons base d l : big_endian base (d :: l) = d * base ^ Z.of_nat (length l) + big_endian base l.
Proof. exact (big_endian_app base [d] l 0). Qed.

Lemma big_endian_snoc base l d : big_endian base (l ++ [d]) = big_endian base l * base + d.
Proof. unfold big_endian. by rewrite fold_left_app. Qed.

Lemma big_endian_zeros base n l : big_endian base (replicate n 0 ++ l) = big_endian base l.
Proof. unfold big_endian. rewrite fold_left_app. f_equal. induction n as [|n IH]; [done|exact IH]. Qed.

Lemma big_endian_bounds base l :
  0 < base -> Forall (fun d => 0 <= d < base) l -> 0 <= big_endian base l < base ^ Z.of_nat (length l).
Proof.
  intros Hb Hl. induction Hl as [|d l Hd _ IH]; [cbn; lia|]. rewrite big_endian_cons. cbn [length].
  rewrite Nat2Z.inj_succ, Z.pow_succ_r by lia. nia.
Qed.

Lemma big_endian_inj base l l' :
  0 < base -> Forall (fun d => 0 <= d < base) l -> Forall (fun d => 0 <= d < base) l' -> length l = length l' ->
  big_endian base l = big_endian base l' -> l = l'.
Proof.
  intros Hb Hl. revert l'. induction Hl as [|d l Hd Hl IH]; intros l' Hl' Hlen E; destruct Hl' as [|d' l' Hd' Hl']; try done.
  injection Hlen as Hlen. rewrite !big_endian_cons, <- Hlen in E.
  pose proof (big_endian_bounds base l Hb Hl). pose proof (big_endian_bounds base l' Hb Hl'). rewrite <- Hlen in *.
  assert (d = d') as -> by nia. f_equal. apply IH; [done|done|lia].
Qed.

(** Each digit is one letter that the index reads back, and that no other
    part of a token contains. *)
Definition letter_ok (d : Z) : bool :=
  match charAt BASE62_ALPHABET d with
  | String c EmptyString => (digit_of c =? d) && isBase62 (String c EmptyString) && negb (bool_decide (c = "_"%char))
  | _ => false
  end.

Lemma letters_ok : forallb (fun n => letter_ok (Z.of_nat n)) (seq 0 62) = true.
Proof. vm_compute. reflexivity. Qed.

Lemma charAt_digit d : digit d -> exists c, charAt BASE62_ALPHABET d = String c EmptyString
  /\ digit_of c = d /\ isBase62 (String c EmptyString) = true /\ c <> "_"%char.
Proof.
  intros Hd. pose proof letters_ok as Hc. rewrite forallb_forall in Hc. specialize (Hc (Z.to_nat d)).
  unfold digit in Hd. rewrite in_seq, Z2Nat.id in Hc by lia. specialize (Hc ltac:(lia)). unfold letter_ok in Hc.
  destruct (charAt BASE62_ALPHABET d) as [|c [|? ?]]; try done. exists c.
  rewrite !andb_true_iff, negb_true_iff, bool_decide_eq_false in Hc. destruct Hc as [[E ?] ?]. split; [done|]. lia || (split; [by apply Z.eqb_eq|done]).
Qed.

Lemma chars_app f a b : all_chars f (a +:+ b) = all_chars f a && all_chars f b.
Proof. induction a as [|c a IH]; [done|]. rewrite str_app_cons. cbn [all_chars]. by rewrite IH, andb_assoc. Qed.

Lemma length_str_app (a b : string) : String.length (a +:+ b) = (String.length a + String.length b)%nat.
Proof. induction a as [|c a IH]; [done|]. rewrite str_app_cons. cbn [String.length]. by rewrite IH. Qed.

Lemma list_ascii_app (a b : string) :
  String.list_ascii_of_string (a +:+ b) = String.list_ascii_of_string a ++ String.list_ascii_of_string b.
Proof. induction a as [|c a IH]; [done|]. rewrite str_app_cons. cbn [String.list_ascii_of_string]. by rewrite IH. Qed.

Lemma text_spec ds :
  Forall digit ds ->
  String.length (text ds) = length ds /\ isBase62 (text ds) = true /\ has_char "_" (text ds) = false
  /\ map digit_of (String.list_ascii_of_string (text ds)) = ds.
Proof.
  induction 1 as [|d ds Hd _ (IHl & IHb & IHu & IHv)]; [done|].
  destruct (charAt_digit d Hd) as (c & E & Hv & Hb & Hc). unfold text in *. cbn [map join foldr]. fold (join (map (charAt BASE62_ALPHABET) ds)).
  rewrite E, str_app_cons, str_app_nil_l. cbn [String.length has_char String.list_ascii_of_string map length].
  rewrite IHl, IHu, IHv, Hv. split; [done|]. split; [|split; [|done]].
  - unfold isBase62 in *. cbn [all_chars] in *. rewrite andb_true_r in Hb. by rewrite Hb, IHb.
  - rewrite orb_false_r. by apply bool_decide_eq_false.
Qed.

Lemma text_value_text ds : Forall digit ds -> text_value (text ds) = big_endian 62 ds.
Proof. intros Hd. unfold text_value. by rewrite (proj2 (proj2 (proj2 (text_spec ds Hd)))). Qed.

Lemma text_app a b : text (a ++ b) = text a +:+ text b.
Proof.
  unfold text, join. rewrite map_app, foldr_app. induction a as [|d a IH]; [by rewrite str_app_nil_l|].
  cbn [map foldr]. by rewrite IH, str_app_assoc.
Qed.

Lemma text_zeros n : text (replicate n 0) = repeat_str "0" n.
Proof. induction n as [|n IH]; [done|]. cbn [replicate repeat_str]. rewrite <- IH. done. Qed.

(** ** The encoders *)

Lemma integer_digits_spec k fuel n out :
  0 <= n < 62 ^ Z.of_nat k -> (k <= fuel)%nat ->
  exists ds, integer_digits fuel n out = Some (text ds +:+ out)
    /\ Forall digit ds /\ big_endian 62 ds = n /\ (length ds <= k)%nat.
Proof.
  revert fuel n out. induction k as [|k IH]; intros fuel n out Hn Hk.
  { exists []. assert (n = 0) as -> by (cbn in Hn; lia). by destruct fuel. }
  destruct (decide (n = 0)) as [->|Hpos]; [exists []; split; [by destruct fuel|split; [done|split; [done|cbn; lia]]]|].
  destruct fuel as [|fuel]; [lia|]. cbn [integer_digits]. rewrite (proj2 (Z.gtb_lt n 0)) by lia.
  rewrite Nat2Z.inj_succ, Z.pow_succ_r in Hn by lia.
  destruct (IH fuel (n / 62) (charAt BASE62_ALPHABET (n mod 62) +:+ out)) as (ds & -> & Hd & Hv & Hl).
  { split; [apply Z.div_pos; lia|apply Z.div_lt_upper_bound; lia]. } { lia. }
  exists (ds ++ [n mod 62]). split; [|split; [|split]].
  - rewrite text_app, <- str_app_assoc. do 2 f_equal. unfold text. cbn. by rewrite str_app_nil_r.
  - apply Forall_app. split; [done|]. constructor; [|done]. apply Z.mod_pos_bound. lia.
  - rewrite big_endian_snoc, Hv. pose proof (Z.div_mod n 62). lia.
  - rewrite length_app. cbn. lia.
Qed.

(** What the encoders return: the base 62 text of the value, of the width
    asked for. *)
Definition encodes (n : Z) (width : nat) (s : string) : Prop :=
  exists ds, Forall digit ds /\ length ds = width /\ big_endian 62 ds = n /\ s = text ds.

Lemma encodes_inj n n' w s : encodes n w s -> encodes n' w s -> n = n'.
Proof. intros (ds & Hd & _ & <- & ->) (ds' & Hd' & _ & <- & E). by rewrite <- !text_value_text, E. Qed.

Lemma encodes_fun n w s s' : encodes n w s -> encodes n w s' -> s = s'.
Proof.
  intros (ds & Hd & Hl & Hv & ->) (ds' & Hd' & Hl' & Hv' & ->). f_equal.
  apply (big_endian_inj 62); [lia|done|done|congruence|congruence].
Qed.

Lemma encodes_shape n w s : encodes n w s ->
  String.length s = w /\ isBase62 s = true /\ has_char "_" s = false /\ text_value s = n.
Proof.
  intros (ds & Hd & <- & <- & ->). rewrite text_value_text by done. by destruct (text_spec ds Hd) as (? & ? & ? & _).
Qed.

Lemma encodes_pad ds w : Forall digit ds -> (length ds <= w)%nat ->
  encodes (big_endian 62 ds) w (repeat_str "0" (w - length ds) +:+ text ds).
Proof.
  intros Hd Hl. exists (replicate (w - length ds) 0 ++ ds). split; [|split; [|split]].
  - apply Forall_app. split; [apply Forall_replicate; unfold digit; lia|done].
  - rewrite length_app, length_replicate. lia.
  - apply big_endian_zeros.
  - by rewrite text_app, text_zeros.
Qed.

Lemma encodeBase62Integer_spec n w :
  (0 < w)%nat -> 0 <= n < 62 ^ Z.of_nat w ->
  exists s, encodeBase62Integer n (Z.of_nat w) = Some (Ok s) /\ encodes n w s.
Proof.
  intros Hw Hn. unfold encodeBase62Integer. rewrite (proj2 (Z.ltb_ge n 0)), (proj2 (Z.leb_gt _ 0)) by lia.
  assert (n < 62 ^ Z.of_nat (integer_fuel n)) as Hf.
  { unfold integer_fuel. rewrite Nat2Z.inj_succ, Z2Nat.id by apply Z.log2_nonneg.
    destruct (decide (n = 0)) as [->|]; [cbn; lia|]. destruct (Z.log2_spec n) as [_ Hlt]; [lia|].
    apply Z.lt_le_trans with (1 := Hlt). apply Z.pow_le_mono_l. lia. }
  destruct (integer_digits_spec (Nat.min w (integer_fuel n)) (integer_fuel n) n "") as (ds & E & Hd & Hv & Hl); [|lia|].
  { destruct (Nat.min_spec w (integer_fuel n)) as [[_ ->]|[_ ->]]; lia. }
  rewrite E, str_app_nil_r. cbn [mbind option_bind]. destruct (text_spec ds Hd) as (Hlen & _).
  rewrite Hlen. destruct (Z.gtb_spec (Z.of_nat (length ds)) (Z.of_nat w)); [lia|]. eexists. split; [done|].
  rewrite <- Hv. unfold padStart. rewrite Hlen, Nat2Z.id. apply encodes_pad; [done|lia].
Qed.

Definition normal (l : list Z) : Prop := match l with [] => True | d :: _ => 0 < d end.

Lemma divide_pass_spec l r lz :
  Forall byte l -> digit r ->
  let '(next, r') := divide_pass l r lz in
  r * 256 ^ Z.of_nat (length l) + bytes_value l = bytes_value next * 62 + r'
  /\ digit r' /\ Forall byte next /\ (if lz then normal next else length next = length l).
Proof.
  intros Hl. revert r lz. induction Hl as [|b l Hb Hl IH]; intros r lz Hr;
    [unfold digit in *; destruct lz; cbn; repeat split; try done; lia|].
  cbn [divide_pass length]. unfold byte, digit in *. set (acc := r * 256 + b).
  pose proof (Z.div_mod acc 62). pose proof (Z.mod_pos_bound acc 62 ltac:(lia)).
  assert (0 <= acc / 62 < 256) as Hq by (split; [apply Z.div_pos; lia|apply Z.div_lt_upper_bound; lia]).
  replace (acc - acc / 62 * 62) with (acc mod 62) by lia. unfold bytes_value. rewrite big_endian_cons, Nat2Z.inj_succ, Z.pow_succ_r by lia.
  destruct (negb lz || (acc / 62 >? 0)) eqn:Eb.
  - pose proof (IH (acc mod 62) false ltac:(lia)) as IH1. destruct (divide_pass l (acc mod 62) false) as [next r'].
    destruct IH1 as (E & Hr' & Hn & Hlen). rewrite big_endian_cons, Hlen. unfold bytes_value in E. split; [nia|]. split; [done|].
    split; [by constructor|]. destruct lz; [cbn; cbn in Eb; lia|by cbn; rewrite Hlen].
  - destruct lz; [|done]. cbn in Eb. assert (acc / 62 = 0) by lia.
    pose proof (IH (acc mod 62) true ltac:(lia)) as IH1. destruct (divide_pass l (acc mod 62) true) as [next r'].
    destruct IH1 as (E & Hr' & Hn & Hlen). unfold bytes_value in E. split; [nia|]. done.
Qed.

Lemma normal_positive l : Forall byte l -> normal l -> l <> [] -> 0 < bytes_value l.
Proof.
  intros Hl Hn Hne. destruct Hl as [|b l Hb Hl]; [done|]. unfold bytes_value. rewrite big_endian_cons.
  pose proof (big_endian_bounds 256 l ltac:(lia) Hl). cbn in Hn. nia.
Qed.

(** The digits come out least significant first; [k] bounds their number. *)
Lemma divide_loop_spec k fuel value out :
  Forall byte value -> (k = O -> normal value) -> bytes_value value < 62 ^ Z.of_nat k -> (k <= fuel)%nat ->
  exists ds, divide_loop fuel value out = Some (out ++ map (charAt BASE62_ALPHABET) (rev ds))
    /\ Forall digit ds /\ big_endian 62 ds = bytes_value value /\ (length ds <= k)%nat.
Proof.
  revert fuel value out. induction k as [|k IH]; intros fuel value out Hb Hn Hv Hk;
    (destruct (decide (value = [])) as [->|Hne]; [exists []; rewrite app_nil_r; split; [by destruct fuel|split; [done|split; [done|cbn; lia]]]|]).
  { pose proof (normal_positive value Hb (Hn eq_refl) Hne). cbn in Hv. lia. }
  destruct fuel as [|fuel]; [lia|]. pose proof (divide_pass_spec value 0 true Hb ltac:(unfold digit; lia)) as Hp.
  replace (divide_loop (S fuel) value out) with (let '(next, remainder) := divide_pass value 0 true in
    divide_loop fuel next (out ++ [charAt BASE62_ALPHABET remainder])) by (by destruct value).
  destruct (divide_pass value 0 true) as [next r]. destruct Hp as (E & Hr & Hb' & Hn'). unfold digit in Hr.
  rewrite Nat2Z.inj_succ, Z.pow_succ_r in Hv by lia.
  destruct (IH fuel next (out ++ [charAt BASE62_ALPHABET r])) as (ds & -> & Hd & Hval & Hl); [done|done|lia|lia|].
  exists (ds ++ [r]). split; [by rewrite rev_app_distr, <- app_assoc|]. split; [by apply Forall_app; split; [|constructor]|].
  split; [rewrite big_endian_snoc, Hval; lia|]. rewrite length_app. cbn. lia.
Qed.

Lemma encodeBase62Bytes_spec bytes w :
  Forall byte bytes -> bytes <> [] -> (0 < w)%nat ->
  (bytes_value bytes < 62 ^ Z.of_nat w ->
    exists s, encodeBase62Bytes bytes (Z.of_nat w) = Some (Ok s) /\ encodes (bytes_value bytes) w s)
  /\ (62 ^ Z.of_nat w <= bytes_value bytes ->
    exists n, encodeBase62Bytes bytes (Z.of_nat w) = Some (Err (TooWide n (Z.of_nat w)))).
Proof.
  intros Hb Hne Hw. assert (0 < length bytes)%nat as Hl0 by (destruct bytes; [done|cbn; lia]).
  assert (bytes_value bytes < 62 ^ Z.of_nat (2 * length bytes)) as Hf.
  { destruct (big_endian_bounds 256 bytes ltac:(lia) Hb) as [_ Hlt]. apply Z.lt_le_trans with (1 := Hlt).
    rewrite Nat2Z.inj_mul, Z.pow_mul_r by lia. apply Z.pow_le_mono_l. cbn. lia. }
  unfold encodeBase62Bytes. rewrite (proj2 (Z.leb_gt _ 0)), decide_False by (done || lia). split; intros Hv.
  - destruct (divide_loop_spec (Nat.min w (2 * length bytes)) (2 * length bytes) bytes []) as (ds & -> & Hd & Hval & Hl); [done|lia| |lia|].
    { destruct (Nat.min_spec w (2 * length bytes)) as [[_ ->]|[_ ->]]; done. }
    cbn [mbind option_bind app]. rewrite length_map, length_rev.
    destruct (Z.gtb_spec (Z.of_nat (length ds)) (Z.of_nat w)); [lia|]. eexists. split; [done|].
    rewrite <- Hval, Nat2Z.id. replace (join _) with (repeat_str "0" (w - length ds) +:+ text ds); [apply encodes_pad; [done|lia]|].
    rewrite <- text_zeros, <- text_app. unfold text. change "0" with (charAt BASE62_ALPHABET 0).
    rewrite <- (fmap_replicate (charAt BASE62_ALPHABET)). change (list_fmap ?A ?B ?f) with (map f).
    rewrite <- map_app, <- map_rev, rev_app_distr, rev_involutive. do 3 f_equal.
    rewrite rev_alt. symmetry. apply reverse_replicate.
  - destruct (divide_loop_spec (2 * length bytes) (2 * length bytes) bytes []) as (ds & -> & Hd & Hval & Hl); [done|lia|done|lia|].
    cbn [mbind option_bind app]. rewrite length_map, length_rev. pose proof (big_endian_bounds 62 ds ltac:(lia) Hd) as [_ Hlt].
    rewrite Hval in Hlt. destruct (Z.gtb_spec (Z.of_nat (length ds)) (Z.of_nat w)) as [|Hle]; [by eexists|].
    pose proof (Z.pow_le_mono_r 62 (Z.of_nat (length ds)) (Z.of_nat w) ltac:(lia) ltac:(lia)). lia.
Qed.
