(* ===== verification/TokenProps.v ===== *)
(** * Correctness of the token format

    The parser accepts exactly the canonical shape, issued tokens parse back
    to their parts with the random bytes recoverable from the entropy block,
    and the checksum catches every corruption confined to four characters. *)

From S2P Require Import Prelude Merkle Subjects Tokens TokenFacts.

Local Open Scope string_scope.
Local Open Scope list_scope.
Local Open Scope Z_scope.

(** ** Splitting at the underscore *)

Lemma split_char_single sep s : has_char sep s = false -> split_char sep s = [s].
Proof.
  induction s as [|c s IH]; [done|]. cbn [has_char split_char]. intros [Hc Hs]%orb_false_iff.
  apply bool_decide_eq_false in Hc. rewrite decide_False by congruence. by rewrite IH.
Qed.

Lemma split_char_app sep a b :
  has_char sep a = false -> split_char sep (a +:+ String sep b) = a :: split_char sep b.
Proof.
  induction a as [|c a IH]; intros Ha; [rewrite str_app_nil_l; cbn [split_char]; by rewrite decide_True|]. cbn [has_char] in Ha.
  apply orb_false_iff in Ha as [Hc Ha]. apply bool_decide_eq_false in Hc.
  rewrite str_app_cons. cbn [split_char]. rewrite decide_False by congruence. by rewrite IH.
Qed.

Lemma split_char_head sep s x l :
  split_char sep s = x :: l ->
  has_char sep x = false /\ ((l = [] /\ s = x) \/ exists r, s = x +:+ String sep r /\ split_char sep r = l).
Proof.
  revert x l. induction s as [|c s IH]; intros x l; cbn [split_char].
  { intros [= <- <-]. by split; [|left]. }
  destruct (decide (c = sep)) as [->|Hc]; [intros [= <- <-]; split; [done|]; right; by exists s|].
  destruct (split_char sep s) as [|y l'] eqn:E.
  { intros [= <- <-]. exfalso. clear -E. destruct s as [|d s]; cbn in E; [done|]. by destruct (decide _), (split_char sep s). }
  intros [= <- <-]. destruct (IH y l' eq_refl) as [Hy Hs]. split.
  { cbn [has_char]. rewrite Hy, orb_false_r. by apply bool_decide_eq_false. }
  destruct Hs as [[-> ->]|(r & -> & Hr)]; [by left|right; exists r]. by rewrite str_app_cons.
Qed.

Definition plain (s : string) : Prop := has_char "_" s = false.

Lemma split_token p e v n c :
  plain p -> plain e -> plain v -> plain n -> plain c -> split_char "_" (token_text p e v n c) = [p; e; v; n; c].
Proof.
  intros Hp He Hv Hn Hc. unfold token_text, plain in *. rewrite !str_app_cons, !str_app_nil_l.
  do 4 (rewrite split_char_app by done; f_equal). by apply split_char_single.
Qed.

Lemma split_token_inv input p e v n c :
  split_char "_" input = [p; e; v; n; c] ->
  input = token_text p e v n c /\ plain p /\ plain e /\ plain v /\ plain n /\ plain c.
Proof.
  intros H1. apply split_char_head in H1 as [Hp [[? ?]|(r1 & -> & H2)]]; [done|].
  apply split_char_head in H2 as [He [[? ?]|(r2 & -> & H3)]]; [done|].
  apply split_char_head in H3 as [Hv [[? ?]|(r3 & -> & H4)]]; [done|].
  apply split_char_head in H4 as [Hn [[? ?]|(r4 & -> & H5)]]; [done|].
  apply split_char_head in H5 as [Hc [[_ ->]|(r5 & -> & H6)]]; [done|].
  exfalso. clear -H6. destruct r5 as [|d s]; cbn in H6; [done|]. by destruct (decide _), (split_char _ s).
Qed.

(** ** The checksum *)

Lemma bytes_of_byte s : Forall byte (bytes_of s).
Proof.
  unfold bytes_of. apply Forall_map, Forall_forall. intros c _. unfold byte, code. pose proof (nat_ascii_bounded c). lia.
Qed.

Lemma bytes_of_app a b : bytes_of (a +:+ b) = bytes_of a ++ bytes_of b.
Proof. unfold bytes_of. by rewrite list_ascii_app, map_app. Qed.

Lemma bytes_of_length s : length (bytes_of s) = String.length s.
Proof. unfold bytes_of. rewrite length_map. induction s as [|c s IH]; [done|]. cbn. by rewrite IH. Qed.

Lemma bytes_of_inj a b : bytes_of a = bytes_of b -> a = b.
Proof.
  revert b. induction a as [|c a IH]; intros [|d b]; cbn; try done. intros [= E Eb%IH]. subst. f_equal.
  apply Nat2Z.inj in E. by rewrite <- (ascii_nat_embedding c), <- (ascii_nat_embedding d), (E : nat_of_ascii c = _).
Qed.

(** The checksum of an entropy block always exists. *)
Definition checksum_of (n : string) : string :=
  match encodeBase62Integer (crc32 n) (Z.of_nat TOKEN_CHECKSUM_LENGTH) with Some (Ok s) => s | _ => "" end.

Lemma checksum_of_spec n :
  encodeBase62Integer (crc32 n) (Z.of_nat TOKEN_CHECKSUM_LENGTH) = Some (Ok (checksum_of n))
  /\ encodes (crc32 n) TOKEN_CHECKSUM_LENGTH (checksum_of n).
Proof.
  destruct (encodeBase62Integer_spec (crc32 n) TOKEN_CHECKSUM_LENGTH) as (s & E & Hs).
  - unfold TOKEN_CHECKSUM_LENGTH. lia.
  - destruct (crc32_bytes_word (bytes_of n) (bytes_of_byte n)) as [H1 H2].
    split; [exact H1|]. apply Z.lt_trans with (1 := H2). reflexivity.
  - unfold checksum_of. by rewrite E.
Qed.

Lemma base62_plain s : isBase62 s = true -> plain s.
Proof.
  unfold plain. induction s as [|c s IH]; [done|]. unfold isBase62 in *. cbn [all_chars has_char].
  intros [Hc Hs]%andb_true_iff. rewrite (IH Hs), orb_false_r. apply bool_decide_eq_false. intros <-. by vm_compute in Hc.
Qed.

(** ** What the parser accepts *)

Definition canonical (opts : ParseTokenOptions) (input : string) (t : ParsedToken) : Prop :=
  input = token_text (pt_prefix t) (pt_env t) TOKEN_VERSION (pt_entropy t) (pt_checksum t)
  /\ pt_raw t = input /\ pt_version t = TOKEN_VERSION
  /\ pt_prefix t = default DEFAULT_TOKEN_PREFIX (acceptPrefix opts) /\ plain (pt_prefix t)
  /\ isAcceptedEnvironment (pt_env t) (acceptEnvironments opts) = true /\ plain (pt_env t)
  /\ String.length (pt_entropy t) = TOKEN_ENTROPY_LENGTH /\ isBase62 (pt_entropy t) = true
  /\ encodes (crc32 (pt_entropy t)) TOKEN_CHECKSUM_LENGTH (pt_checksum t).

(** One text with five plain parts, through every check of the parser. *)
Lemma parse_parts opts p e v n c :
  plain p -> plain e -> plain v -> plain n -> plain c ->
  let input := token_text p e v n c in
  let err kind := Err (TokenFormatError kind (String.length input)) in
  parseToken input opts =
    if negb (bool_decide (p = default DEFAULT_TOKEN_PREFIX (acceptPrefix opts))) then err WrongPrefix
    else if negb (isAcceptedEnvironment e (acceptEnvironments opts)) then err InvalidEnvironment
    else if negb (bool_decide (v = TOKEN_VERSION)) then err WrongVersion
    else if negb (bool_decide (String.length n = TOKEN_ENTROPY_LENGTH)) || negb (isBase62 n) then err InvalidEntropy
    else if bool_decide (checksum_of n = c) then Ok (mkParsed p e TOKEN_VERSION n c input)
    else err InvalidChecksum.
Proof.
  intros Hp He Hv Hn Hc input err. unfold parseToken. fold err.
  rewrite decide_False by (unfold input, token_text; by destruct p). unfold input at 1. rewrite split_token by done.
  destruct (checksum_of_spec n) as [-> Hs]. apply encodes_shape in Hs as (Hl & Hb & _ & _).
  do 4 (case_match; [done|]). destruct (decide (checksum_of n = c)) as [<-|Hne].
  - by rewrite Hl, Hb, !bool_decide_true.
  - rewrite !(bool_decide_false (checksum_of n = c)) by done. by case_match.
Qed.

Lemma parse_not_five opts input :
  input <> "" -> (forall p e v n c, split_char "_" input <> [p; e; v; n; c]) ->
  parseToken input opts = Err (TokenFormatError WrongLength (String.length input)).
Proof.
  intros Hne H5. unfold parseToken. rewrite decide_False by done.
  destruct (split_char "_" input) as [|p [|e [|v [|n [|c [|x l]]]]]]; try done. by destruct (H5 p e v n c).
Qed.

Lemma five_parts (input : string) :
  (exists p e v n c, split_char "_" input = [p; e; v; n; c])
  \/ forall p e v n c, split_char "_" input <> [p; e; v; n; c].
Proof.
  destruct (split_char "_" input) as [|p [|e [|v [|n [|c [|x l]]]]]]; try by right. left. by repeat eexists.
Qed.

Lemma canonical_split opts input t : canonical opts input t ->
  split_char "_" input = [pt_prefix t; pt_env t; TOKEN_VERSION; pt_entropy t; pt_checksum t].
Proof.
  intros (-> & _ & _ & _ & Hp & _ & He & _ & Hn & Hc). apply encodes_shape in Hc as (_ & _ & Hc & _).
  apply split_token; try done. by apply base62_plain.
Qed.

Lemma canonical_parses opts input t : canonical opts input t -> parseToken input opts = Ok t.
Proof.
  intros H. pose proof (canonical_split _ _ _ H) as Hs. apply split_token_inv in Hs as (Ei & ? & ? & ? & ? & ?).
  destruct H as (_ & Er & Ev & Ep & _ & He & _ & Hl & Hb & Hc). rewrite Ei, parse_parts by done.
  rewrite (bool_decide_true (pt_prefix t = _)), He, (bool_decide_true (TOKEN_VERSION = _)), Hl, Hb, (bool_decide_true (TOKEN_ENTROPY_LENGTH = _)) by done.
  cbn [negb orb]. rewrite bool_decide_true by (by apply (encodes_fun _ _ _ _ (proj2 (checksum_of_spec _)))).
  destruct t. cbn in *. by subst.
Qed.

Lemma parse_outcome opts input :
  (forall t, parseToken input opts = Ok t -> canonical opts input t)
  /\ (forall e, parseToken input opts = Err e -> exists kind, e = TokenFormatError kind (String.length input)).
Proof.
  destruct (five_parts input) as [(p & e & v & n & c & E)|Hno].
  - apply split_token_inv in E as (-> & Hp & He & Hv & Hn & Hc). pose proof (parse_parts opts p e v n c Hp He Hv Hn Hc) as Ep.
    cbn zeta in Ep. split; [intros t|intros err]; rewrite Ep; repeat case_match; intros [= <-]; try by eexists.
    all: rewrite ?negb_false_iff, ?orb_false_iff, ?bool_decide_eq_true, ?negb_false_iff in *; destruct_and?; subst.
    repeat split; cbn; try done; [by eapply bool_decide_eq_true|]. apply checksum_of_spec.
  - destruct (decide (input = "")) as [->|Hne]; [by split; [|intros err [= <-]; eexists]|].
    rewrite parse_not_five by done. by split; [|intros err [= <-]; eexists].
Qed.

(** The parser accepts an input exactly when it is
    prefix_env_v1_entropy_checksum with the accepted prefix, an accepted
    environment label, 43 base 62 characters of entropy and, as checksum, the
    6-character base 62 notation of the entropy block's CRC-32; it then
    returns those parts.  Every other input is answered with a format error
    that carries the input's length: the parser never throws and never
    diverges. *)
Theorem parse_accepts_exactly opts input :
  (forall t, parseToken input opts = Ok t <-> canonical opts input t)
  /\ (forall e, parseToken input opts = Err e -> exists kind, e = TokenFormatError kind (String.length input)).
Proof.
  destruct (parse_outcome opts input) as [Hok Herr]. split; [|done].
  intros t. split; [apply Hok|apply canonical_parses].
Qed.

(** ** Issued tokens *)

Lemma label_plain s : ENV_LABEL_RE s = true -> plain s.
Proof.
  unfold ENV_LABEL_RE, lower_slug, plain. intros [Hs _]%andb_true_iff. destruct s as [|c s]; [done|].
  apply andb_true_iff in Hs as [Hc Hs]. cbn [has_char]. apply orb_false_iff.
  split; [apply bool_decide_eq_false; intros <-; by vm_compute in Hc|].
  induction s as [|d s IH]; [done|]. cbn [all_chars has_char] in *. apply andb_true_iff in Hs as [Hd Hs].
  rewrite (IH Hs), orb_false_r. apply bool_decide_eq_false. intros <-. by vm_compute in Hd.
Qed.

Lemma entropy_fits bytes :
  length bytes = TOKEN_ENTROPY_BYTES -> Forall byte bytes ->
  exists s, encodeBase62Bytes bytes (Z.of_nat TOKEN_ENTROPY_LENGTH) = Some (Ok s)
    /\ encodes (bytes_value bytes) TOKEN_ENTROPY_LENGTH s.
Proof.
  intros Hl Hb. apply encodeBase62Bytes_spec; [done|by destruct bytes|unfold TOKEN_ENTROPY_LENGTH; lia|].
  destruct (big_endian_bounds 256 bytes ltac:(lia) Hb) as [_ Hlt]. rewrite Hl in Hlt.
  apply Z.lt_trans with (1 := Hlt). reflexivity.
Qed.

Lemma token_text_entropy p e v n c n' c' :
  plain n -> plain n' -> token_text p e v n c = token_text p e v n' c' -> n = n'.
Proof.
  intros Hn Hn'. unfold token_text. rewrite !str_app_cons, !str_app_nil_l.
  do 3 (intros E%(inj (String.append _)); injection E as E; revert E). intros E. by apply str_split_unique in E as [-> _].
Qed.

Lemma generate_shape opts bytes :
  let prefix := default DEFAULT_TOKEN_PREFIX (go_prefix opts) in
  length bytes = TOKEN_ENTROPY_BYTES -> Forall byte bytes ->
  if ENV_LABEL_RE prefix && ENV_LABEL_RE (go_env opts) then
    exists n, encodes (bytes_value bytes) TOKEN_ENTROPY_LENGTH n
      /\ generateRawToken opts bytes = Some (Ok (token_text prefix (go_env opts) TOKEN_VERSION n (checksum_of n)))
  else exists label, generateRawToken opts bytes = Some (Err (BadLabel label)).
Proof.
  intros prefix Hl Hb. unfold generateRawToken, validateLabel. fold prefix.
  destruct (ENV_LABEL_RE prefix) eqn:Hp; [|by eexists]. destruct (ENV_LABEL_RE (go_env opts)) eqn:He; [|by eexists].
  cbn [andb]. destruct (entropy_fits bytes Hl Hb) as (n & En & Hn). destruct (checksum_of_spec n) as [Ec Hc].
  rewrite En. cbn [mbind option_bind]. rewrite Ec. by exists n.
Qed.

Lemma text_parses prefix env accept v n :
  ENV_LABEL_RE prefix = true -> ENV_LABEL_RE env = true -> isAcceptedEnvironment env accept = true ->
  encodes v TOKEN_ENTROPY_LENGTH n ->
  let raw := token_text prefix env TOKEN_VERSION n (checksum_of n) in
  parseToken raw (mkParseOpts (Some prefix) accept) = Ok (mkParsed prefix env TOKEN_VERSION n (checksum_of n) raw).
Proof.
  intros Hp He Ha Hn raw. apply canonical_parses. destruct (encodes_shape _ _ _ Hn) as (? & ? & _ & _).
  repeat split; cbn; try done; try by apply label_plain. apply checksum_of_spec.
Qed.

(** A generated token parses under its own prefix and environment. *)
Lemma generated_parses opts bytes raw accept :
  length bytes = TOKEN_ENTROPY_BYTES -> Forall byte bytes -> generateRawToken opts bytes = Some (Ok raw) ->
  isAcceptedEnvironment (go_env opts) accept = true ->
  exists t, parseToken raw (mkParseOpts (Some (default DEFAULT_TOKEN_PREFIX (go_prefix opts))) accept) = Ok t /\ pt_env t = go_env opts.
Proof.
  intros Hl Hb Hg Ha. pose proof (generate_shape opts bytes Hl Hb) as Hs. cbn zeta in Hs.
  destruct (ENV_LABEL_RE _) eqn:Hp in Hs; destruct (ENV_LABEL_RE (go_env opts)) eqn:He; cbn [andb] in Hs;
    [|destruct Hs as (? & ?); congruence..]. destruct Hs as (n & Hn & E). rewrite E in Hg. injection Hg as <-.
  eexists. split; [by apply (text_parses _ _ _ (bytes_value bytes))|done].
Qed.

(** For valid prefix and environment labels and any 32 random bytes,
    generation succeeds; the token parses back, under that prefix and any
    allowlist that accepts the label, to its own parts; the entropy block is
    the 43-digit base 62 notation of the bytes; and two generations under the
    same labels give the same token only for the same bytes.  An invalid
    label is refused with a range error before anything is generated. *)
Theorem issued_tokens_parse_back opts bytes :
  let prefix := default DEFAULT_TOKEN_PREFIX (go_prefix opts) in
  length bytes = TOKEN_ENTROPY_BYTES -> Forall byte bytes ->
  if ENV_LABEL_RE prefix && ENV_LABEL_RE (go_env opts) then
    exists raw entropy checksum,
      generateRawToken opts bytes = Some (Ok raw)
      /\ encodes (bytes_value bytes) TOKEN_ENTROPY_LENGTH entropy /\ text_value entropy = bytes_value bytes
      /\ (forall accept, isAcceptedEnvironment (go_env opts) accept = true ->
          parseToken raw (mkParseOpts (Some prefix) accept)
          = Ok (mkParsed prefix (go_env opts) TOKEN_VERSION entropy checksum raw))
      /\ (forall bytes', length bytes' = TOKEN_ENTROPY_BYTES -> Forall byte bytes' ->
          generateRawToken opts bytes' = Some (Ok raw) -> bytes' = bytes)
  else exists label, generateRawToken opts bytes = Some (Err (BadLabel label)).
Proof.
  intros prefix Hl Hb. pose proof (generate_shape opts bytes Hl Hb) as Hs. cbn zeta in Hs. fold prefix in Hs.
  destruct (ENV_LABEL_RE prefix) eqn:Hp; [|done]. destruct (ENV_LABEL_RE (go_env opts)) eqn:He; [|done]. cbn [andb] in *.
  destruct Hs as (n & Hn & E). do 3 eexists. split; [exact E|]. split; [exact Hn|]. split; [apply (encodes_shape _ _ _ Hn)|]. split.
  - intros accept Ha. by apply (text_parses prefix _ accept (bytes_value bytes)).
  - intros bytes' Hl' Hb' E'. pose proof (generate_shape opts bytes' Hl' Hb') as Hs. cbn zeta in Hs. fold prefix in Hs.
    rewrite Hp, He in Hs. destruct Hs as (n' & Hn' & E2). rewrite E2 in E'. injection E' as E'.
    apply token_text_entropy in E'; [|apply (encodes_shape _ _ _ Hn')|apply (encodes_shape _ _ _ Hn)].
    subst n'. apply (big_endian_inj 256); [lia|done|done|congruence|exact (encodes_inj _ _ _ _ Hn' Hn)].
Qed.

Definition sample_bytes : list Z := map (fun n => Z.of_nat (n * 37 mod 256)) (seq 1 32).

Lemma sample_bytes_ok : length sample_bytes = TOKEN_ENTROPY_BYTES /\ Forall byte sample_bytes.
Proof. split; [reflexivity|]. apply Forall_forall. intros b (n & -> & _)%list_elem_of_fmap. unfold byte. pose proof (Nat.mod_upper_bound (n * 37) 256). lia. Qed.

Lemma issued_tokens_parse_back_witness :
  exists raw entropy checksum,
    generateRawToken (mkGenerate None "live") sample_bytes = Some (Ok raw)
    /\ parseToken raw (mkParseOpts (Some "gph") None) = Ok (mkParsed "gph" "live" TOKEN_VERSION entropy checksum raw).
Proof.
  destruct (issued_tokens_parse_back (mkGenerate None "live") sample_bytes (proj1 sample_bytes_ok) (proj2 sample_bytes_ok))
    as (raw & n & c & E & _ & _ & H & _). exists raw, n, c. split; [exact E|]. apply H. reflexivity.
Defined.

(** ** Corruption *)

Lemma app_same_length (a b r r' : string) : String.length a = String.length b -> a +:+ r = b +:+ r' -> a = b.
Proof.
  revert b. induction a as [|x a IH]; intros [|y b]; cbn; try done. rewrite !str_app_cons. intros [= El] [= -> E]. by rewrite (IH b).
Qed.

Lemma plain_v1 : plain TOKEN_VERSION.
Proof. done. Qed.

(** A token text that parses with blocks of the right length parses to those
    blocks, even if they were not known to be free of underscores. *)
Lemma parse_blocks opts p e n c t :
  plain p -> plain e -> String.length n = TOKEN_ENTROPY_LENGTH ->
  parseToken (token_text p e TOKEN_VERSION n c) opts = Ok t -> pt_entropy t = n /\ pt_checksum t = c.
Proof.
  intros Hp He Hl (E & _ & _ & _ & Hp' & _ & He' & Hl' & _)%parse_outcome. unfold token_text in E.
  rewrite !str_app_cons, !str_app_nil_l in E. apply str_split_unique in E as [_ E]; [|done..].
  apply str_split_unique in E as [_ E]; [|done..]. injection E as E.
  pose proof (app_same_length _ _ _ _ (eq_trans Hl (eq_sym Hl')) E) as En.
  rewrite <- En in E. apply (inj (String.append _)) in E. by injection E.
Qed.

(** C28: A token that parses stops parsing when up to four consecutive
    characters of its entropy block are changed, whatever they are changed
    to; if the new characters are base 62 the answer is a checksum error.
    A changed checksum is a checksum error, too. *)
Theorem checksum_catches_bursts opts raw t pre w w' post :
  parseToken raw opts = Ok t -> pt_entropy t = pre +:+ w +:+ post ->
  String.length w' = String.length w -> (String.length w <= 4)%nat -> w' <> w ->
  let corrupted := token_text (pt_prefix t) (pt_env t) TOKEN_VERSION (pre +:+ w' +:+ post) (pt_checksum t) in
  is_ok (parseToken corrupted opts) = false
  /\ (isBase62 w' = true -> parseToken corrupted opts = Err (TokenFormatError InvalidChecksum (String.length corrupted)))
  /\ (forall c', plain c' -> c' <> pt_checksum t ->
      let input := token_text (pt_prefix t) (pt_env t) TOKEN_VERSION (pt_entropy t) c' in
      parseToken input opts = Err (TokenFormatError InvalidChecksum (String.length input))).
Proof.
  intros (_ & _ & _ & Hp & Hpp & He & Hpe & Hl & Hb & Hc)%parse_outcome En Hlen H4 Hne corrupted.
  assert (crc32 (pre +:+ w' +:+ post) <> crc32 (pt_entropy t)) as Hcrc.
  { rewrite En. unfold crc32. rewrite !bytes_of_app. intros Ec. apply Hne, bytes_of_inj.
    apply crc_burst in Ec; [done|rewrite !Forall_app; auto using bytes_of_byte|apply bytes_of_byte|by rewrite !bytes_of_length|].
    rewrite bytes_of_length. lia. }
  assert (String.length (pre +:+ w' +:+ post) = TOKEN_ENTROPY_LENGTH) as Hl'.
  { rewrite <- Hl, En, !length_str_app. lia. }
  split; [|split].
  - destruct (parseToken corrupted opts) as [t'|e] eqn:E; [|done]. exfalso.
    destruct (parse_blocks _ _ _ _ _ _ Hpp Hpe Hl' E) as [E1 E2].
    apply parse_outcome in E as (_ & _ & _ & _ & _ & _ & _ & _ & _ & Hc').
    rewrite E1, E2 in Hc'. exact (Hcrc (encodes_inj _ _ _ _ Hc' Hc)).
  - intros Hb'. assert (isBase62 (pre +:+ w' +:+ post) = true) as Hbb.
    { rewrite En in Hb. unfold isBase62 in *. rewrite !chars_app in *. rewrite Hb'. by rewrite !andb_true_iff in *; destruct Hb as (? & _ & ?). }
    unfold corrupted. rewrite parse_parts; [|done|done|done|by apply base62_plain|apply (encodes_shape _ _ _ Hc)].
    rewrite Hl', Hbb, He, !bool_decide_true, bool_decide_false by done || (intros E; apply Hcrc; rewrite <- E in Hc; apply (encodes_inj _ _ _ _ (proj2 (checksum_of_spec _)) Hc)).
    done.
  - intros c' Hpc Hc' input. unfold input. rewrite parse_parts; [|done|done|done|by apply base62_plain|done].
    rewrite Hl, Hb, He, !bool_decide_true, bool_decide_false by done || (intros E; apply Hc'; rewrite <- E; exact (encodes_fun _ _ _ _ (proj2 (checksum_of_spec _)) Hc)).
    done.
Qed.

Definition sample_token : string := "gph_live_v1_8qFgCbkZzUMGsjwhAy330tsNubPQVvo33Z0UbmgLMw4_1EOlxQ".
Definition sample_parsed : ParsedToken :=
  mkParsed "gph" "live" "v1" "8qFgCbkZzUMGsjwhAy330tsNubPQVvo33Z0UbmgLMw4" "1EOlxQ" sample_token.

Lemma sample_parses : parseToken sample_token default_parse = Ok sample_parsed.
Proof. vm_compute. reflexivity. Qed.

Lemma checksum_catches_bursts_witness :
  let corrupted := token_text "gph" "live" TOKEN_VERSION "8qFgCbkZzUMGsjwhAy330tsNubPQVvo33Z0UbmLgMw4" "1EOlxQ" in
  parseToken corrupted default_parse = Err (TokenFormatError InvalidChecksum (String.length corrupted)).
Proof.
  refine (proj1 (proj2 (checksum_catches_bursts default_parse sample_token sample_parsed
    "8qFgCbkZzUMGsjwhAy330tsNubPQVvo33Z0Ubm" "gL" "Lg" "Mw4" sample_parses eq_refl eq_refl _ _)) eq_refl); [cbn; lia|done].
Defined.

(** The CRC of the standard check string. *)
Example crc32_check_value : crc32 "123456789" = 0xcbf43926.
Proof. vm_compute. reflexivity. Qed.

(** The entropy block has room for more values than 32 bytes take, so 43
    characters always suffice and the leading characters are not uniform. *)
Lemma entropy_block_is_wider : 256 ^ Z.of_nat TOKEN_ENTROPY_BYTES < 62 ^ Z.of_nat TOKEN_ENTROPY_LENGTH.
Proof. reflexivity. Qed.

(** Generation accepts any label; the default parser only three. *)
Example label_outside_default_set :
  (exists raw, generateRawToken (mkGenerate None "staging") sample_bytes = Some (Ok raw)
     /\ parseToken raw default_parse = Err (TokenFormatError InvalidEnvironment (String.length raw))).
Proof. eexists. split; [vm_compute; reflexivity|vm_compute; reflexivity]. Qed.
