(* ===== verification/AuthTokens.v ===== *)
(** * Token records and their store

    [packages/core/src/contracts/auth-token-store.ts]: the persisted record
    and the store contract, as a type class with the laws its clients rely
    on; [packages/store-sqlite/src/auth-token-store.ts]: the default adapter
    over the rows of the [auth_tokens] table, which satisfies them.

    A timestamp string is represented by the instant it denotes, or kept as
    text when [Date.parse] cannot read it.  An SQL column bound to [NaN] holds
    [NULL]; a table lists its rows in [rowid] order. *)

From S2P Require Import Prelude JsValue Json Canonical IdempotencyFacts.

Local Open Scope string_scope.
Local Open Scope list_scope.
Local Open Scope Z_scope.

Inductive stamp := At (ms : Z) | Unreadable (text : string).

Definition Date_parse (s : stamp) : num := match s with At ms => NFin ms | Unreadable _ => NNaN end.

Definition readable (s : option stamp) : bool := match s with Some (Unreadable _) => false | _ => true end.

Record AuthTokenRecord := mkToken {
  ar_id : string;
  ar_hashHex : string;
  ar_label : option string;
  ar_scopes : list string;
  ar_createdAt : stamp;
  ar_expiresAt : option stamp;
  ar_revokedAt : option stamp;
  ar_lastUsedAt : option stamp;
}.

Definition with_revokedAt (s : option stamp) (r : AuthTokenRecord) : AuthTokenRecord :=
  mkToken (ar_id r) (ar_hashHex r) (ar_label r) (ar_scopes r) (ar_createdAt r) (ar_expiresAt r) s (ar_lastUsedAt r).
Definition with_lastUsedAt (s : option stamp) (r : AuthTokenRecord) : AuthTokenRecord :=
  mkToken (ar_id r) (ar_hashHex r) (ar_label r) (ar_scopes r) (ar_createdAt r) (ar_expiresAt r) (ar_revokedAt r) s.

(** Every timestamp of the record can be read. *)
Definition record_readable (r : AuthTokenRecord) : bool :=
  readable (Some (ar_createdAt r)) && readable (ar_expiresAt r) && readable (ar_revokedAt r) && readable (ar_lastUsedAt r).

(** ** The contract *)

(** An operation that rejects returns [Err tt] or, for [put], [None]. *)
Class AuthTokenStore (D : Type) := {
  ts_put : AuthTokenRecord -> D -> option D;
  ts_get : string -> D -> result unit (option AuthTokenRecord);
  ts_list : D -> result unit (list AuthTokenRecord);
  ts_revoke : string -> stamp -> D -> D;
  ts_recordUse : string -> stamp -> D -> D;
  ts_getByHash : option (string -> D -> result unit (option AuthTokenRecord));
}.

(** What the verifier and the token operations rely on. *)
Class AuthTokenStoreSpec (D : Type) `{AuthTokenStore D} := {
  ts_wf : D -> Prop;
  get_total d id : ts_wf d -> exists r, ts_get id d = Ok r;
  get_id d id r : ts_wf d -> ts_get id d = Ok (Some r) -> ar_id r = id;
  put_wf d r d' : ts_wf d -> ts_put r d = Some d' -> ts_wf d';
  put_other d r d' id : ts_wf d -> ts_put r d = Some d' -> id <> ar_id r -> ts_get id d' = ts_get id d;
  put_readable d r : ts_wf d -> record_readable r = true ->
    exists d', ts_put r d = Some d' /\ ts_get (ar_id r) d' = Ok (Some r);
  revoke_wf d id s : ts_wf d -> ts_wf (ts_revoke id s d);
  revoke_other d id id' s : ts_wf d -> id' <> id -> ts_get id' (ts_revoke id s d) = ts_get id' d;
  revoke_get d id ms r : ts_wf d -> ts_get id d = Ok r ->
    ts_get id (ts_revoke id (At ms) d) = Ok (with_revokedAt (Some (At ms)) <$> r);
  use_wf d id s : ts_wf d -> ts_wf (ts_recordUse id s d);
  use_other d id id' s : ts_wf d -> id' <> id -> ts_get id' (ts_recordUse id s d) = ts_get id' d;
  use_get d id ms r : ts_wf d -> ts_get id d = Ok r ->
    ts_get id (ts_recordUse id (At ms) d) = Ok (with_lastUsedAt (Some (At ms)) <$> r);
  list_stored d : ts_wf d -> exists l, ts_list d = Ok l
    /\ (forall r, r ∈ l <-> ts_get (ar_id r) d = Ok (Some r)) /\ NoDup (map ar_id l);
  byHash_stored d f h : ts_wf d -> ts_getByHash = Some f ->
    match f h d with
    | Ok (Some r) => ts_get (ar_id r) d = Ok (Some r) /\ ar_hashHex r = h
    | Ok None => forall r, ts_get (ar_id r) d = Ok (Some r) -> ar_hashHex r <> h
    | Err _ => False
    end;
}.

(** ** The SQLite adapter *)

Record AuthTokenRow := mkTokenRow {
  tr_id : string;
  tr_hash_hex : string;
  tr_label : option string;
  tr_scopes_json : string;
  tr_created_at : Z;
  tr_expires_at : option Z;
  tr_revoked_at : option Z;
  tr_last_used_at : option Z;
}.

Definition column_of (s : option stamp) : option Z := match s with Some (At ms) => Some ms | _ => None end.

Fixpoint strings_of (vs : list value) : option (list string) :=
  match vs with
  | [] => Some []
  | VStr s :: vs' => cons s <$> strings_of vs'
  | _ :: _ => None
  end.

Module SqliteTokens.
(** The rows in [rowid] order, by primary key. *)
Definition t := list (string * AuthTokenRow).

Definition row_of (r : AuthTokenRecord) (created : Z) : AuthTokenRow :=
  mkTokenRow (ar_id r) (ar_hashHex r) (ar_label r) (JSON_stringify (VArr (map VStr (ar_scopes r)))) created
    (column_of (ar_expiresAt r)) (column_of (ar_revokedAt r)) (column_of (ar_lastUsedAt r)).

(** [INSERT OR REPLACE]; [created_at] is [NOT NULL]. *)
Definition put (r : AuthTokenRecord) (rows : t) : option t :=
  match ar_createdAt r with
  | At created => Some (jdel (ar_id r) rows ++ [(ar_id r, row_of r created)])
  | Unreadable _ => None
  end.

(** [Err] when [scopes_json] does not parse to a list of strings. *)
Definition rowToRecord (w : AuthTokenRow) : result unit AuthTokenRecord :=
  match JSON_parse (tr_scopes_json w) with
  | Some (VArr vs) =>
      match strings_of vs with
      | Some scopes => Ok (mkToken (tr_id w) (tr_hash_hex w) (tr_label w) scopes (At (tr_created_at w))
                            (At <$> tr_expires_at w) (At <$> tr_revoked_at w) (At <$> tr_last_used_at w))
      | None => Err tt
      end
  | _ => Err tt
  end.

Definition record_or_null (w : option AuthTokenRow) : result unit (option AuthTokenRecord) :=
  match w with
  | None => Ok None
  | Some w => match rowToRecord w with Ok r => Ok (Some r) | Err e => Err e end
  end.

Definition get (id : string) (rows : t) : result unit (option AuthTokenRecord) := record_or_null (jget id rows).

Definition getByHash (hashHex : string) (rows : t) : result unit (option AuthTokenRecord) :=
  record_or_null (find (fun w => bool_decide (tr_hash_hex w = hashHex)) (map snd rows)).

(** [ORDER BY created_at], ties in [rowid] order *)
Fixpoint insert_created (w : AuthTokenRow) (l : list AuthTokenRow) : list AuthTokenRow :=
  match l with
  | [] => [w]
  | x :: l' => if tr_created_at w <? tr_created_at x then w :: l else x :: insert_created w l'
  end.
Definition order_by_created (l : list AuthTokenRow) : list AuthTokenRow := foldl (fun acc w => insert_created w acc) [] l.

Fixpoint records_of (ws : list AuthTokenRow) : result unit (list AuthTokenRecord) :=
  match ws with
  | [] => Ok []
  | w :: ws' => match rowToRecord w, records_of ws' with Ok r, Ok l => Ok (r :: l) | Err e, _ | _, Err e => Err e end
  end.

Definition list (rows : t) : result unit (list AuthTokenRecord) := records_of (order_by_created (map snd rows)).

(** [UPDATE auth_tokens SET ... WHERE id = ?] *)
Definition update (id : string) (f : AuthTokenRow -> AuthTokenRow) (rows : t) : t :=
  map (fun p => if decide (p.1 = id) then (p.1, f p.2) else p) rows.

Definition revoke (id : string) (revokedAt : stamp) (rows : t) : t :=
  update id (fun w => mkTokenRow (tr_id w) (tr_hash_hex w) (tr_label w) (tr_scopes_json w) (tr_created_at w)
                        (tr_expires_at w) (column_of (Some revokedAt)) (tr_last_used_at w)) rows.

Definition recordUse (id : string) (usedAt : stamp) (rows : t) : t :=
  update id (fun w => mkTokenRow (tr_id w) (tr_hash_hex w) (tr_label w) (tr_scopes_json w) (tr_created_at w)
                        (tr_expires_at w) (tr_revoked_at w) (column_of (Some usedAt))) rows.

(** Rows sit under their own key and hold a list of strings. *)
Definition row_ok (p : string * AuthTokenRow) : Prop := tr_id p.2 = p.1 /\ exists r, rowToRecord p.2 = Ok r.
Definition wf (rows : t) : Prop := jwf rows /\ Forall row_ok rows.
End SqliteTokens.

#[export] Instance sqlite_tokens : AuthTokenStore SqliteTokens.t := {
  ts_put := SqliteTokens.put;
  ts_get := SqliteTokens.get;
  ts_list := SqliteTokens.list;
  ts_revoke := SqliteTokens.revoke;
  ts_recordUse := SqliteTokens.recordUse;
  ts_getByHash := Some SqliteTokens.getByHash;
}.

(** ** The adapter satisfies the contract *)

Module SqliteTokensFacts.
Import SqliteTokens.

Lemma strings_of_map l : strings_of (map VStr l) = Some l.
Proof. induction l as [|s l IH]; [done|]. cbn. by rewrite IH. Qed.

Lemma rowToRecord_row_of r created :
  ar_createdAt r = At created -> rowToRecord (row_of r created) =
    Ok (mkToken (ar_id r) (ar_hashHex r) (ar_label r) (ar_scopes r) (At created)
      (At <$> column_of (ar_expiresAt r)) (At <$> column_of (ar_revokedAt r)) (At <$> column_of (ar_lastUsedAt r))).
Proof.
  intros _. unfold rowToRecord, row_of. cbn [tr_scopes_json]. rewrite plain_roundtrip.
  { by rewrite strings_of_map. }
  apply plain_arr. induction (ar_scopes r) as [|s l IH]; [done|exact IH].
Qed.

Lemma At_column s : readable s = true -> At <$> column_of s = s.
Proof. by destruct s as [[]|]. Qed.

Lemma rowToRecord_readable r created :
  record_readable r = true -> ar_createdAt r = At created -> rowToRecord (row_of r created) = Ok r.
Proof.
  unfold record_readable. rewrite !andb_true_iff. intros [[[_ H1] H2] H3] Hc. rewrite rowToRecord_row_of by done.
  rewrite !At_column by done. destruct r. cbn in *. by subst.
Qed.

Lemma rowToRecord_fields w r : rowToRecord w = Ok r -> ar_id r = tr_id w /\ ar_hashHex r = tr_hash_hex w.
Proof. unfold rowToRecord. intros E. by repeat case_match; simplify_eq. Qed.

Lemma row_at rows id w : wf rows -> jget id rows = Some w -> tr_id w = id /\ exists r, rowToRecord w = Ok r.
Proof. intros [_ Hr] E%jget_Some_elem. rewrite Forall_forall in Hr. exact (Hr _ E). Qed.

Lemma get_Some rows id r : get id rows = Ok (Some r) <-> exists w, jget id rows = Some w /\ rowToRecord w = Ok r.
Proof.
  unfold get, record_or_null. destruct (jget id rows) as [w|]; [|split; [done|by intros (? & ? & _)]].
  destruct (rowToRecord w) eqn:E; (split; [intros; simplify_eq; by exists w|intros (? & ? & ?); simplify_eq/=; congruence]).
Qed.

Lemma put_keeps_wf rows r created : wf rows -> ar_createdAt r = At created -> wf (jdel (ar_id r) rows ++ [(ar_id r, row_of r created)]).
Proof.
  intros [Hw Hr] Hc. split; [by apply move_wf|]. apply Forall_app. split.
  - rewrite Forall_forall in *. intros p Hp. apply Hr. unfold jdel in Hp. by apply list_elem_of_filter in Hp as [_ ?].
  - constructor; [|done]. split; [done|]. cbn. rewrite rowToRecord_row_of by done. by eexists.
Qed.

Lemma jget_update id id' f rows :
  jget id' (update id f rows) = if decide (id' = id) then f <$> jget id' rows else jget id' rows.
Proof.
  induction rows as [|[k w] rows IH]; cbn; [by case_decide|].
  fold (update id f rows). destruct (decide (k = id)) as [->|Hk]; cbn; rewrite IH; repeat case_decide; by simplify_eq.
Qed.

Lemma jkeys_update id f rows : jkeys (update id f rows) = jkeys rows.
Proof. unfold jkeys, update. rewrite map_map. apply map_ext. intros [k w]. by case_decide. Qed.

Lemma update_wf id f rows :
  (forall w, tr_id (f w) = tr_id w) -> (forall w r, rowToRecord w = Ok r -> exists r', rowToRecord (f w) = Ok r') ->
  wf rows -> wf (update id f rows).
Proof.
  intros Hid Hf [Hw Hr]. split; [unfold jwf; by rewrite jkeys_update|].
  apply Forall_map. apply (Forall_impl _ _ _ Hr). intros [k w] [E [r Hok]]. case_decide; [|by split; [|eexists]].
  split; cbn; [by rewrite Hid|by apply (Hf w r)].
Qed.

Lemma rowToRecord_update w f (g : AuthTokenRecord -> AuthTokenRecord) :
  tr_scopes_json (f w) = tr_scopes_json w ->
  (forall scopes, g (mkToken (tr_id w) (tr_hash_hex w) (tr_label w) scopes (At (tr_created_at w))
      (At <$> tr_expires_at w) (At <$> tr_revoked_at w) (At <$> tr_last_used_at w))
    = mkToken (tr_id (f w)) (tr_hash_hex (f w)) (tr_label (f w)) scopes (At (tr_created_at (f w)))
      (At <$> tr_expires_at (f w)) (At <$> tr_revoked_at (f w)) (At <$> tr_last_used_at (f w))) ->
  rowToRecord (f w) = match rowToRecord w with Ok r => Ok (g r) | Err e => Err e end.
Proof. intros Es Hg. unfold rowToRecord. rewrite Es. repeat case_match; simplify_eq; try done. by rewrite Hg. Qed.

(** An update that changes one column, seen through [get]. *)
Lemma get_update id f g rows r :
  (forall w, rowToRecord (f w) = match rowToRecord w with Ok r => Ok (g r) | Err e => Err e end) ->
  get id rows = Ok r -> get id (update id f rows) = Ok (g <$> r).
Proof.
  intros Hf. unfold get, record_or_null. rewrite jget_update, decide_True by done.
  destruct (jget id rows) as [w|]; cbn; [|by intros [= <-]]. rewrite Hf. destruct (rowToRecord w); [|done]. by intros [= <-].
Qed.

Lemma insert_created_perm w l : insert_created w l ≡ₚ w :: l.
Proof.
  induction l as [|x l IH]; [done|]. cbn. destruct (_ <? _); [done|]. rewrite IH. apply Permutation_swap.
Qed.

Lemma order_by_created_perm l : order_by_created l ≡ₚ l.
Proof.
  unfold order_by_created. assert (forall acc, foldl (fun acc w => insert_created w acc) acc l ≡ₚ acc ++ l) as H; [|exact (H [])].
  induction l as [|w l IH]; intros acc; cbn; [by rewrite app_nil_r|].
  rewrite IH, insert_created_perm. apply Permutation_middle.
Qed.

Lemma records_of_spec ws :
  Forall (fun w => exists r, rowToRecord w = Ok r) ws ->
  exists l, records_of ws = Ok l /\ Forall2 (fun w r => rowToRecord w = Ok r) ws l.
Proof.
  induction 1 as [|w ws [r Hr] _ (l & IH & Hf)]; [by exists []|]. exists (r :: l). cbn. rewrite Hr, IH. split; [done|by constructor].
Qed.

Lemma list_spec rows : wf rows -> exists l, SqliteTokens.list rows = Ok l
  /\ (forall r, r ∈ l <-> get (ar_id r) rows = Ok (Some r)) /\ NoDup (map ar_id l).
Proof.
  intros Hwf. pose proof Hwf as [Hw Hr]. pose proof (order_by_created_perm (map snd rows)) as Hp.
  destruct (records_of_spec (order_by_created (map snd rows))) as (l & El & Hf).
  { rewrite Hp. apply Forall_map. apply (Forall_impl _ _ _ Hr). by intros [k w] [_ H]. }
  exists l. split; [exact El|]. split.
  - intros r. rewrite get_Some. split.
    + intros Hin. apply list_elem_of_lookup in Hin as [i Hi]. destruct (Forall2_lookup_r _ _ _ _ _ Hf Hi) as (w & Hwi & Ew).
      apply list_elem_of_lookup_2 in Hwi. rewrite Hp in Hwi. apply list_elem_of_fmap in Hwi as ([k w'] & -> & Hin).
      exists w'. split; [|done]. apply jget_elem_wf; [done|]. rewrite Forall_forall in Hr. destruct (Hr _ Hin) as [E _].
      destruct (rowToRecord_fields _ _ Ew) as [Ei _]. cbn in E, Ei. by rewrite Ei, E.
    + intros (w & Hg & Ew). apply jget_Some_elem in Hg. assert (w ∈ order_by_created (map snd rows)) as Hin.
      { rewrite Hp. apply list_elem_of_fmap. by exists (ar_id r, w). }
      apply list_elem_of_lookup in Hin as [i Hi]. destruct (Forall2_lookup_l _ _ _ _ _ Hf Hi) as (r' & Hr' & Ew').
      assert (r' = r) as -> by congruence. by eapply list_elem_of_lookup_2.
  - assert (map ar_id l = map tr_id (order_by_created (map snd rows))) as ->.
    { clear -Hf. induction Hf as [|w r ws l E _ IH]; [done|]. cbn. by rewrite IH, (proj1 (rowToRecord_fields _ _ E)). }
    rewrite Hp. rewrite map_map. replace (map _ rows) with (jkeys rows); [exact Hw|].
    unfold jkeys. clear -Hr. induction Hr as [|[k w] rows [E _] _ IH]; [done|]. cbn in *. by rewrite IH, E.
Qed.

Lemma getByHash_spec rows h : wf rows ->
  match getByHash h rows with
  | Ok (Some r) => get (ar_id r) rows = Ok (Some r) /\ ar_hashHex r = h
  | Ok None => forall r, get (ar_id r) rows = Ok (Some r) -> ar_hashHex r <> h
  | Err _ => False
  end.
Proof.
  intros Hwf. pose proof Hwf as [Hw Hr]. rewrite Forall_forall in Hr. unfold getByHash.
  destruct (find _ (map snd rows)) as [w|] eqn:Ef; cbn [record_or_null].
  - apply find_some in Ef as [Hin Eh]. apply bool_decide_eq_true in Eh. apply in_map_iff in Hin as ([k w'] & Ew & Hin).
    cbn in Ew. subst w'. apply list_elem_of_In in Hin. destruct (Hr _ Hin) as [Ei [r Er]]. cbn in Ei, Er.
    rewrite Er. destruct (rowToRecord_fields _ _ Er) as [E1 E2]. split; [|congruence].
    apply get_Some. exists w. split; [|done]. apply jget_elem_wf; [done|]. by rewrite E1, Ei.
  - intros r (w & Hg & Er)%get_Some Hh. apply jget_Some_elem, (list_elem_of_fmap_2 snd) in Hg.
    apply list_elem_of_In in Hg. apply (find_none _ _ Ef) in Hg. apply bool_decide_eq_false in Hg.
    destruct (rowToRecord_fields _ _ Er) as [_ E2]. cbn in Hg. congruence.
Qed.

Lemma get_ok rows id : wf rows -> exists r, get id rows = Ok r.
Proof.
  intros Hwf. unfold get, record_or_null. destruct (jget id rows) as [w|] eqn:E; [|by eexists].
  destruct (row_at _ _ _ Hwf E) as [_ [r ->]]. by eexists.
Qed.

Lemma get_own_id rows id r : wf rows -> get id rows = Ok (Some r) -> ar_id r = id.
Proof.
  intros Hwf (w & E & Er)%get_Some. destruct (row_at _ _ _ Hwf E) as [<- _]. apply (rowToRecord_fields _ _ Er).
Qed.

Lemma put_Some r rows rows' : put r rows = Some rows' ->
  exists created, ar_createdAt r = At created /\ rows' = jdel (ar_id r) rows ++ [(ar_id r, row_of r created)].
Proof. unfold put. destruct (ar_createdAt r) as [c|]; [|done]. intros [= <-]. by exists c. Qed.

Lemma revoke_record s w : rowToRecord (mkTokenRow (tr_id w) (tr_hash_hex w) (tr_label w) (tr_scopes_json w) (tr_created_at w)
    (tr_expires_at w) (column_of (Some s)) (tr_last_used_at w))
  = match rowToRecord w with Ok r => Ok (with_revokedAt (At <$> column_of (Some s)) r) | Err e => Err e end.
Proof. by apply (rowToRecord_update w (fun w => mkTokenRow _ _ _ _ _ _ (column_of (Some s)) _)). Qed.

Lemma use_record s w : rowToRecord (mkTokenRow (tr_id w) (tr_hash_hex w) (tr_label w) (tr_scopes_json w) (tr_created_at w)
    (tr_expires_at w) (tr_revoked_at w) (column_of (Some s)))
  = match rowToRecord w with Ok r => Ok (with_lastUsedAt (At <$> column_of (Some s)) r) | Err e => Err e end.
Proof. by apply (rowToRecord_update w (fun w => mkTokenRow _ _ _ _ _ _ _ (column_of (Some s)))). Qed.

Lemma get_update_other id id' f rows : id' <> id -> get id' (update id f rows) = get id' rows.
Proof. intros Hne. unfold get. by rewrite jget_update, decide_False. Qed.
End SqliteTokensFacts.

Import SqliteTokensFacts.

#[export] Program Instance sqlite_tokens_spec : AuthTokenStoreSpec SqliteTokens.t := { ts_wf := SqliteTokens.wf }.
Next Obligation. intros d id Hd. by apply get_ok. Qed.
Next Obligation. intros d id r Hd. by apply get_own_id. Qed.
Next Obligation. intros d r d' Hd (c & Hc & ->)%put_Some. by apply put_keeps_wf. Qed.
Next Obligation.
  intros d r d' id Hd (c & Hc & ->)%put_Some Hne. cbn. unfold SqliteTokens.get. by rewrite move_get, decide_False.
Qed.
Next Obligation.
  intros d r Hd Hr. destruct (ar_createdAt r) as [c|] eqn:Hc; [|unfold record_readable in Hr; by rewrite Hc in Hr].
  cbn. unfold SqliteTokens.put. rewrite Hc. eexists. split; [done|]. apply get_Some. eexists.
  split; [by rewrite move_get, decide_True|]. by apply rowToRecord_readable.
Qed.
Next Obligation.
  intros d id s Hd. apply update_wf; [done| |done]. intros w r Hr. rewrite revoke_record, Hr. by eexists.
Qed.
Next Obligation. intros d id id' s Hd Hne. by apply get_update_other. Qed.
Next Obligation. intros d id ms r Hd Hr. apply (get_update _ _ (with_revokedAt (Some (At ms)))); [|done]. intros w. apply revoke_record. Qed.
Next Obligation.
  intros d id s Hd. apply update_wf; [done| |done]. intros w r Hr. rewrite use_record, Hr. by eexists.
Qed.
Next Obligation. intros d id id' s Hd Hne. by apply get_update_other. Qed.
Next Obligation. intros d id ms r Hd Hr. apply (get_update _ _ (with_lastUsedAt (Some (At ms)))); [|done]. intros w. apply use_record. Qed.
Next Obligation. intros d Hd. by apply list_spec. Qed.
Next Obligation. intros d f h Hd [= <-]. by apply getByHash_spec. Qed.
