(* ===== verification/Verifier.v ===== *)
(** * Token verification

    [packages/security/src/auth/verify.ts] with [lru.ts], and [revokeToken] of
    [crud.ts].  [verify] and [revokeToken] are split at their awaits; a store
    read happens at some moment between the call and the resumption, and
    everything else may run in between.  [exec] is the transition function of
    one verifier over one token store.

    HMAC-SHA-256 under the pepper and the outcome of the pepper strength check
    are parameters.  Error messages and the freezing of results are not
    kept. *)

From S2P Require Import Prelude JsValue Subjects Tokens AuthTokens.
From stdpp Require Import gmap.

Local Open Scope string_scope.
Local Open Scope list_scope.
Local Open Scope Z_scope.

(** ** Arithmetic on epoch milliseconds, [NaN] included *)

Definition num_le (a : num) (z : Z) : bool :=
  match a with NFin x => x <=? z | NNegInf => true | NNaN | NPosInf => false end.
Definition num_add (z : Z) (a : num) : num := match a with NFin x => NFin (z + x) | _ => a end.
Definition is_finite (a : num) : bool := match a with NFin _ => true | _ => false end.

(** ** [LruCache] *)

Module LruCache.
Section Cache.
Context {V : Type}.

Record CacheEntry := mkEntry { le_value : V; le_expiresAt : num }.

Definition get (key : string) (now : Z) (m : list (string * CacheEntry)) : option V * list (string * CacheEntry) :=
  match jget key m with
  | None => (None, m)
  | Some entry =>
      if negb (bool_decide (le_expiresAt entry = NPosInf)) && num_le (le_expiresAt entry) now then (None, jdel key m)
      else (Some (le_value entry), jdel key m ++ [(key, entry)])
  end.

(** The loop drops the oldest entries beyond [max], a positive integer. *)
Definition set (max : nat) (key : string) (value : V) (ttlMs : option num) (now : Z) (m : list (string * CacheEntry))
  : list (string * CacheEntry) :=
  let expiresAt := match ttlMs with None => NPosInf | Some ttl => num_add now ttl end in
  let m' := jdel key m ++ [(key, mkEntry value expiresAt)] in
  drop (length m' - max) m'.
End Cache.
Arguments CacheEntry : clear implicits.
End LruCache.

(** ** Options and state *)

Record VerifierOptions := mkVOptions {
  vo_parse : ParseTokenOptions;
  cacheCapacity : nat;
  cacheTtlMaxMs : Z;
  perIpThreshold : Z;
  perIpWindowMs : Z;
  perIpLockoutMs : Z;
  perTokenThreshold : Z;
  perTokenWindowMs : Z;
  maxConcurrent : Z;
  maxTrackedIps : Z;
}.

Definition pickParseOpts (acceptPrefix : option string) (acceptEnvironments : option (list string)) : ParseTokenOptions :=
  mkParseOpts (Some (default DEFAULT_TOKEN_PREFIX acceptPrefix)) acceptEnvironments.

Definition default_options (acceptPrefix : option string) (acceptEnvironments : option (list string)) : VerifierOptions :=
  mkVOptions (pickParseOpts acceptPrefix acceptEnvironments) 1024 60000 5 60000 (5 * 60000) 10 (5 * 60000) 100 10000.

Record VerifiedToken := mkVerified {
  vt_tokenId : string;
  vt_label : option string;
  vt_scopes : list ParsedScope;
  vt_env : string;
  vt_expiresAt : option num;
}.

Inductive VerifyFailureReason := Malformed | UnknownToken | Revoked | Expired | IpLockedOut | TokenLockedOut.

Inductive VerifyResult :=
  | VOk (token : VerifiedToken)
  | VFail (reason : VerifyFailureReason) (retryAfterMs : option Z).

Record CachedAuth := mkCachedAuth { ca_token : VerifiedToken; ca_expiresAt : option num }.

Record RateWindow := mkWindow { rw_count : Z; rw_lastTouch : Z }.
Definition new_window : RateWindow := mkWindow 0 0.
Definition record (now windowMs : Z) (w : RateWindow) : RateWindow :=
  mkWindow (if now - rw_lastTouch w >? windowMs then 1 else rw_count w + 1) now.

Record TokenVerifier := mkVerifier {
  v_cache : list (string * LruCache.CacheEntry CachedAuth);
  v_ipFailures : list (string * RateWindow);
  v_ipLockouts : list (string * Z);
  v_tokenFailures : list (string * RateWindow);
  v_tokenLockouts : list string;
  v_inFlight : Z;
}.

Definition new_verifier : TokenVerifier := mkVerifier [] [] [] [] [] 0.

Definition set_cache c v := mkVerifier c (v_ipFailures v) (v_ipLockouts v) (v_tokenFailures v) (v_tokenLockouts v) (v_inFlight v).
Definition set_ips f l v := mkVerifier (v_cache v) f l (v_tokenFailures v) (v_tokenLockouts v) (v_inFlight v).
Definition set_tokens f l v := mkVerifier (v_cache v) (v_ipFailures v) (v_ipLockouts v) f l (v_inFlight v).
Definition set_inFlight n v := mkVerifier (v_cache v) (v_ipFailures v) (v_ipLockouts v) (v_tokenFailures v) (v_tokenLockouts v) n.

(** ** Failure accounting *)

(** [while (map.size > max) delete the oldest] *)
Definition evict {A} (max : Z) (m : list A) : list A := drop (length m - Z.to_nat max) m.

Definition boundIpMaps (o : VerifierOptions) (now : Z) (v : TokenVerifier) : TokenVerifier :=
  let lockouts :=
    if Z.of_nat (length (v_ipLockouts v)) >? maxTrackedIps o
    then evict (maxTrackedIps o) (List.filter (fun p => negb (p.2 <=? now)) (v_ipLockouts v))
    else v_ipLockouts v in
  set_ips (evict (maxTrackedIps o) (v_ipFailures v)) lockouts v.

Definition noteIpFailure (o : VerifierOptions) (ip : option string) (now : Z) (v : TokenVerifier) : TokenVerifier :=
  match ip with
  | None => v
  | Some ip =>
      let window := record now (perIpWindowMs o) (default new_window (jget ip (v_ipFailures v))) in
      boundIpMaps o now
        (if rw_count window >=? perIpThreshold o
         then set_ips (jdel ip (v_ipFailures v)) (jset ip (now + perIpLockoutMs o) (v_ipLockouts v)) v
         else set_ips (jset ip window (v_ipFailures v)) (v_ipLockouts v) v)
  end.

Definition set_add (x : string) (l : list string) : list string := if decide (x ∈ l) then l else l ++ [x].
Definition set_del (x : string) (l : list string) : list string := filter (fun y => y <> x) l.

Definition noteTokenFailure (o : VerifierOptions) (tokenId : string) (now : Z) (v : TokenVerifier) : TokenVerifier :=
  let window := record now (perTokenWindowMs o) (default new_window (jget tokenId (v_tokenFailures v))) in
  if rw_count window >=? perTokenThreshold o
  then set_tokens (jdel tokenId (v_tokenFailures v)) (set_add tokenId (v_tokenLockouts v)) v
  else set_tokens (jset tokenId window (v_tokenFailures v)) (v_tokenLockouts v) v.

(** ** Hex comparison *)

Definition hex_digit (c : ascii) : option Z :=
  let n := Z.of_nat (nat_of_ascii c) in
  if (48 <=? n) && (n <=? 57) then Some (n - 48)
  else if (97 <=? n) && (n <=? 102) then Some (n - 87)
  else if (65 <=? n) && (n <=? 70) then Some (n - 55)
  else None.

(** [Buffer.from(s, 'hex')]: whole pairs up to the first that is not hex *)
Fixpoint decode_hex (s : string) : list Z :=
  match s with
  | String a (String b s') =>
      match hex_digit a, hex_digit b with
      | Some x, Some y => 16 * x + y :: decode_hex s'
      | _, _ => []
      end
  | _ => []
  end.

Definition timingSafeEqualHex (a b : string) : bool :=
  if negb (bool_decide (String.length a = String.length b)) then false
  else let aBuf := decode_hex a in
       let bBuf := decode_hex b in
       if bool_decide (length aBuf = 0%nat) || negb (bool_decide (length aBuf = length bBuf)) then false
       else bool_decide (aBuf = bBuf).

(** ** Records *)

Definition recordToVerified (r : AuthTokenRecord) (env : string) (expiresAt : option num) : VerifiedToken :=
  mkVerified (ar_id r) (ar_label r) (omap tryParseScope (ar_scopes r)) env expiresAt.

Definition computeCacheTtlMs (now : Z) (expiresAtMs : option num) (cacheTtlMaxMs : Z) : num :=
  match expiresAtMs with
  | None => NFin cacheTtlMaxMs
  | Some (NFin e) => NFin (Z.min cacheTtlMaxMs (Z.max 0 (e - now)))
  | Some NNegInf => NFin (Z.min cacheTtlMaxMs 0)
  | Some NPosInf => NFin cacheTtlMaxMs
  | Some NNaN => NNaN
  end.

Record TokenMetadata := mkMetadata {
  tm_id : string; tm_label : option string; tm_scopes : list string; tm_createdAt : stamp;
  tm_expiresAt : option stamp; tm_revokedAt : option stamp; tm_lastUsedAt : option stamp }.

Definition toTokenMetadata (r : AuthTokenRecord) : TokenMetadata :=
  mkMetadata (ar_id r) (ar_label r) (ar_scopes r) (ar_createdAt r) (ar_expiresAt r) (ar_revokedAt r) (ar_lastUsedAt r).

(** ** The pieces of [verify] *)

Inductive audit_action := ATokenRevoke | AGranted | ADeniedLockout | ATokenCreate | ATokenRotate | ATokenRekey.

(** What a call of [verify] carries across its awaits. *)
Record Ctx := mkCtx { cx_now : Z; cx_ip : option string; cx_env : string; cx_hash : string }.

Inductive Pc :=
  | PPepper (raw : string) (ip : option string)
  | PHmac (now : Z) (ip : option string) (raw env : string)
  | PFind (c : Ctx)
  | PFound (c : Ctx) (tokenId : option string)
  | PGet (c : Ctx) (tokenId : string)
  | PGot (c : Ctx) (tokenId : string) (record : option AuthTokenRecord)
  | RGet (id : string) (verifier : bool)
  | RGot (id : string) (verifier : bool) (existing : option AuthTokenRecord)
  | RWrite (id : string) (ms : Z)
  | RReread (id : string)
  | RDone (id : string) (updated : option AuthTokenRecord).

Inductive Next := Go (pc : Pc) | Finish (r : VerifyResult).

(** Up to [await this.#hmac(rawToken)], the in-flight count already raised. *)
Definition verify_begin (o : VerifierOptions) (now : Z) (raw : string) (ip : option string) (v : TokenVerifier)
  : TokenVerifier * Next :=
  let lockedUntil := ip ← ip; jget ip (v_ipLockouts v) in
  match lockedUntil with
  | Some until =>
      if until >? now then (v, Finish (VFail IpLockedOut (Some (until - now))))
      else
        let v := set_ips (v_ipFailures v) (jdel (default "" ip) (v_ipLockouts v)) v in
        match parseToken raw (vo_parse o) with
        | Ok parsed => (v, Go (PHmac now ip raw (pt_env parsed)))
        | Err _ => (noteIpFailure o ip now v, Finish (VFail Malformed None))
        end
  | None =>
      match parseToken raw (vo_parse o) with
      | Ok parsed => (v, Go (PHmac now ip raw (pt_env parsed)))
      | Err _ => (noteIpFailure o ip now v, Finish (VFail Malformed None))
      end
  end.

(** From the hash to [await this.#findTokenId(hashHex)]. *)
Definition verify_hashed (o : VerifierOptions) (c : Ctx) (v : TokenVerifier) : TokenVerifier * Next :=
  let '(cached, cache) := LruCache.get (cx_hash c) (cx_now c) (v_cache v) in
  let v := set_cache cache v in
  match cached with
  | Some auth =>
      if match ca_expiresAt auth with Some e => num_le e (cx_now c) | None => false end
      then (noteIpFailure o (cx_ip c) (cx_now c) (set_cache (jdel (cx_hash c) cache) v), Finish (VFail Expired None))
      else (v, Finish (VOk (ca_token auth)))
  | None => (v, Go (PFind c))
  end.

(** From the token id to [await this.#tokenStore.get(tokenId)]. *)
Definition verify_found (o : VerifierOptions) (c : Ctx) (tokenId : option string) (v : TokenVerifier)
  : TokenVerifier * Next * list (audit_action * Z * string) :=
  match tokenId with
  | None => (noteIpFailure o (cx_ip c) (cx_now c) v, Finish (VFail UnknownToken None), [])
  | Some tokenId =>
      if bool_decide (tokenId ∈ v_tokenLockouts v)
      then (v, Finish (VFail TokenLockedOut None), [(ADeniedLockout, cx_now c, tokenId)])
      else (v, Go (PGet c tokenId), [])
  end.

(** From the record to the end. *)
Definition verify_record (o : VerifierOptions) (c : Ctx) (tokenId : string) (record : option AuthTokenRecord)
  (v : TokenVerifier) : TokenVerifier * Next * list (audit_action * Z * string) :=
  let now := cx_now c in
  let noteBoth := noteIpFailure o (cx_ip c) now (noteTokenFailure o tokenId now v) in
  match record with
  | None => (noteIpFailure o (cx_ip c) now v, Finish (VFail UnknownToken None), [])
  | Some record =>
      if bool_decide (ar_revokedAt record <> None) then (noteBoth, Finish (VFail Revoked None), [])
      else
        let expiresAtMs := Date_parse <$> ar_expiresAt record in
        if match expiresAtMs with Some e => is_finite e && num_le e now | None => false end
        then (noteBoth, Finish (VFail Expired None), [])
        else
          let verified := recordToVerified record (cx_env c) expiresAtMs in
          let ttlMs := computeCacheTtlMs now expiresAtMs (cacheTtlMaxMs o) in
          let cache := LruCache.set (cacheCapacity o) (cx_hash c) (mkCachedAuth verified expiresAtMs) (Some ttlMs) now (v_cache v) in
          (set_cache cache v, Finish (VOk verified), [(AGranted, now, tokenId)])
  end.

(** [this.#inFlight = Math.max(0, this.#inFlight - 1)] *)
Definition leave (v : TokenVerifier) : TokenVerifier := set_inFlight (Z.max 0 (v_inFlight v - 1)) v.

(** ** The other operations *)

Definition lower_hex (c : ascii) : bool := is_num c || in_range 97 102 c.
Definition is_hash (s : string) : bool := bool_decide (String.length s = 64%nat) && all_chars lower_hex s.

Definition invalidate_hash (hashHex : string) (v : TokenVerifier) : TokenVerifier := set_cache (jdel hashHex (v_cache v)) v.
Definition invalidateAll (v : TokenVerifier) : TokenVerifier := set_cache [] v.
Definition clearTokenLockout (tokenId : string) (v : TokenVerifier) : TokenVerifier :=
  set_tokens (jdel tokenId (v_tokenFailures v)) (set_del tokenId (v_tokenLockouts v)) v.
Definition clearIpLockout (ip : string) (v : TokenVerifier) : TokenVerifier :=
  set_ips (jdel ip (v_ipFailures v)) (jdel ip (v_ipLockouts v)) v.

Record TokenVerifierStatus := mkStatus {
  st_cacheSize : nat; st_inFlight : Z; st_perIpFailures : nat; st_perIpLockouts : nat; st_perTokenLockouts : nat }.
Definition status (v : TokenVerifier) : TokenVerifierStatus :=
  mkStatus (length (v_cache v)) (v_inFlight v) (length (v_ipFailures v)) (length (v_ipLockouts v)) (length (v_tokenLockouts v)).

Inductive AuthzFailure := Unauthenticated | InsufficientScope.

(** [Err] when a required scope given as text does not parse *)
Definition authorize (res : VerifyResult) (required : string + ParsedScope)
  : result ScopeParseError (VerifiedToken + AuthzFailure) :=
  match res with
  | VFail _ _ => Ok (inr Unauthenticated)
  | VOk token =>
      match match required with inl text => parseScope text | inr scope => Ok scope end with
      | Err e => Err e
      | Ok requiredScope =>
          Ok (if existsb (fun scope => scopeMatches scope requiredScope) (vt_scopes token)
              then inl token else inr InsufficientScope)
      end
  end.

(** ** The running system *)

(** What can be observed, in order.  [EFound] and [ERead] are the moments at
    which the store answered a lookup by hash and a read by id. *)
Inductive Event :=
  | EFound (clock : Z) (hash id : string)
  | ERead (clock : Z) (hash id : string) (r : AuthTokenRecord)
  | EReturn (call : nat) (now : Z) (hash : option string) (r : VerifyResult)
  | EThrow (call : nat)
  | ERevokeReturn (call : nat) (r : option TokenMetadata)
  | EAudit (action : audit_action) (ts : Z) (target : string)
  | EPut (clock : Z) (r : AuthTokenRecord)
  | ERevoke (clock : Z) (id : string) (ms : Z).

Section System.
Context {D : Type} `{AuthTokenStore D}.
Context (hmac : string -> string) (pepper_ok : bool) (o : VerifierOptions).

Record World := mkWorld {
  w_ver : TokenVerifier;
  w_store : D;
  w_clock : Z;
  w_calls : gmap nat Pc;            (** suspended calls *)
  w_uses : list (string * Z);       (** [recordUse] calls not yet served *)
  w_hashing : list string;          (** [invalidate] of raw tokens, waiting for the hash *)
  w_log : list Event;
}.

Definition ws_ver v w := mkWorld v (w_store w) (w_clock w) (w_calls w) (w_uses w) (w_hashing w) (w_log w).
Definition ws_store d w := mkWorld (w_ver w) d (w_clock w) (w_calls w) (w_uses w) (w_hashing w) (w_log w).
Definition ws_clock t w := mkWorld (w_ver w) (w_store w) t (w_calls w) (w_uses w) (w_hashing w) (w_log w).
Definition ws_calls c w := mkWorld (w_ver w) (w_store w) (w_clock w) c (w_uses w) (w_hashing w) (w_log w).
Definition ws_uses u w := mkWorld (w_ver w) (w_store w) (w_clock w) (w_calls w) u (w_hashing w) (w_log w).
Definition ws_hashing h w := mkWorld (w_ver w) (w_store w) (w_clock w) (w_calls w) (w_uses w) h (w_log w).
Definition add_log l w := mkWorld (w_ver w) (w_store w) (w_clock w) (w_calls w) (w_uses w) (w_hashing w) (w_log w ++ l).

Definition suspend (call : nat) (pc : Pc) (w : World) : World := ws_calls (<[call := pc]> (w_calls w)) w.
Definition drop_call (call : nat) (w : World) : World := ws_calls (delete call (w_calls w)) w.

(** A piece of [verify] ends at the next await, or returns through
    [finally]. *)
Definition settle_verify (call : nat) (now : Z) (hash : option string) (v : TokenVerifier) (n : Next)
  (audits : list (audit_action * Z * string)) (w : World) : World :=
  let w := add_log (map (fun a => EAudit a.1.1 a.1.2 a.2) audits) w in
  match n with
  | Go pc => suspend call pc (ws_ver v w)
  | Finish r => add_log [EReturn call now hash r] (drop_call call (ws_ver (leave v) w))
  end.

(** An awaited operation of [verify] rejects inside the [try]. *)
Definition reject_verify (call : nat) (w : World) : World :=
  add_log [EThrow call] (drop_call call (ws_ver (leave (w_ver w)) w)).

(** [#findTokenId] *)
Definition findTokenId (hashHex : string) (d : D) : result unit (option string) :=
  match ts_getByHash with
  | Some byHash =>
      match byHash hashHex d with
      | Ok (Some r) => Ok (if timingSafeEqualHex (ar_hashHex r) hashHex then Some (ar_id r) else None)
      | Ok None => Ok None
      | Err e => Err e
      end
  | None =>
      match ts_list d with
      | Ok records => Ok (ar_id <$> find (fun r => timingSafeEqualHex (ar_hashHex r) hashHex) records)
      | Err e => Err e
      end
  end.

Definition invalidate (rawTokenOrHashHex : string) (w : World) : World :=
  if is_hash rawTokenOrHashHex then ws_ver (invalidate_hash rawTokenOrHashHex (w_ver w)) w
  else ws_hashing (w_hashing w ++ [rawTokenOrHashHex]) w.

(** [revokeToken] from the record to [await tokenStore.revoke(id, ts)] *)
Definition revoke_read (call : nat) (id : string) (verifier : bool) (existing : option AuthTokenRecord) (w : World) : World :=
  match existing with
  | None => add_log [ERevokeReturn call None] (drop_call call w)
  | Some existing =>
      if bool_decide (ar_revokedAt existing <> None)
      then add_log [ERevokeReturn call (Some (toTokenMetadata existing))] (drop_call call w)
      else
        let w := if verifier then invalidate (ar_hashHex existing) w else w in
        suspend call (RWrite id (w_clock w)) (add_log [EAudit ATokenRevoke (w_clock w) id] w)
  end.

(** One piece of a suspended call; [ok = false]: the awaited operation
    rejects. *)
Definition run (call : nat) (ok : bool) (pc : Pc) (w : World) : World :=
  let v := w_ver w in
  match pc with
  | PPepper raw ip =>
      if negb (ok && pepper_ok) then add_log [EThrow call] (drop_call call w)
      else if v_inFlight v >=? maxConcurrent o then add_log [EThrow call] (drop_call call w)
      else
        let '(v', n) := verify_begin o (w_clock w) raw ip (set_inFlight (v_inFlight v + 1) v) in
        settle_verify call (w_clock w) None v' n [] w
  | PHmac now ip raw env =>
      if ok then
        let c := mkCtx now ip env (hmac raw) in
        let '(v', n) := verify_hashed o c v in settle_verify call now (Some (cx_hash c)) v' n [] w
      else reject_verify call w
  | PFind c =>
      match (if ok then findTokenId (cx_hash c) (w_store w) else Err tt) with
      | Ok tokenId =>
          suspend call (PFound c tokenId)
            (add_log (match tokenId with Some id => [EFound (w_clock w) (cx_hash c) id] | None => [] end) w)
      | Err _ => reject_verify call w
      end
  | PFound c tokenId =>
      let '(v', n, audits) := verify_found o c tokenId v in settle_verify call (cx_now c) (Some (cx_hash c)) v' n audits w
  | PGet c tokenId =>
      match (if ok then ts_get tokenId (w_store w) else Err tt) with
      | Ok r =>
          suspend call (PGot c tokenId r)
            (add_log (match r with Some r => [ERead (w_clock w) (cx_hash c) tokenId r] | None => [] end) w)
      | Err _ => reject_verify call w
      end
  | PGot c tokenId r =>
      let '(v', n, audits) := verify_record o c tokenId r v in
      let w := match n with Finish (VOk _) => ws_uses (w_uses w ++ [(tokenId, cx_now c)]) w | _ => w end in
      settle_verify call (cx_now c) (Some (cx_hash c)) v' n audits w
  | RGet id verifier =>
      match (if ok then ts_get id (w_store w) else Err tt) with
      | Ok r => suspend call (RGot id verifier r) w
      | Err _ => add_log [EThrow call] (drop_call call w)
      end
  | RGot id verifier r => revoke_read call id verifier r w
  | RWrite id ms =>
      if ok then suspend call (RReread id) (add_log [ERevoke (w_clock w) id ms] (ws_store (ts_revoke id (At ms) (w_store w)) w))
      else add_log [EThrow call] (drop_call call w)
  | RReread id =>
      match (if ok then ts_get id (w_store w) else Err tt) with
      | Ok r => suspend call (RDone id r) w
      | Err _ => add_log [EThrow call] (drop_call call w)
      end
  | RDone id r => add_log [ERevokeReturn call (toTokenMetadata <$> r)] (drop_call call w)
  end.

Inductive label :=
  | LVerify (call : nat) (raw : string) (ip : option string)
  | LRevokeToken (call : nat) (id : string) (verifier : bool)
  | LRun (call : nat) (ok : bool)
  | LPut (r : AuthTokenRecord)                    (** another writer of the store *)
  | LStoreRevoke (id : string) (ms : Z)
  | LServeUse (ok : bool)
  | LInvalidate (rawTokenOrHashHex : string)
  | LInvalidateHashed
  | LInvalidateAll
  | LClearTokenLockout (tokenId : string)
  | LClearIpLockout (ip : string)
  | LTick (ms : Z).

(** [None]: the step is not possible in this state. *)
Definition exec (l : label) (w : World) : option World :=
  match l with
  | LVerify call raw ip =>
      match w_calls w !! call with Some _ => None | None => Some (suspend call (PPepper raw ip) w) end
  | LRevokeToken call id verifier =>
      match w_calls w !! call with Some _ => None | None => Some (suspend call (RGet id verifier) w) end
  | LRun call ok => pc ← w_calls w !! call; Some (run call ok pc w)
  | LPut r => d ← ts_put r (w_store w); Some (add_log [EPut (w_clock w) r] (ws_store d w))
  | LStoreRevoke id ms =>
      Some (add_log [ERevoke (w_clock w) id ms] (ws_store (ts_revoke id (At ms) (w_store w)) w))
  | LServeUse ok =>
      match w_uses w with
      | [] => None
      | (id, now) :: rest => Some (ws_uses rest (if ok then ws_store (ts_recordUse id (At now) (w_store w)) w else w))
      end
  | LInvalidate arg => Some (invalidate arg w)
  | LInvalidateHashed =>
      match w_hashing w with
      | [] => None
      | raw :: rest => Some (ws_hashing rest (ws_ver (invalidate_hash (hmac raw) (w_ver w)) w))
      end
  | LInvalidateAll => Some (ws_ver (invalidateAll (w_ver w)) w)
  | LClearTokenLockout id => Some (ws_ver (clearTokenLockout id (w_ver w)) w)
  | LClearIpLockout ip => Some (ws_ver (clearIpLockout ip (w_ver w)) w)
  | LTick ms => if 0 <=? ms then Some (ws_clock (w_clock w + ms) w) else None
  end.

Fixpoint exec_all (ls : list label) (w : World) : option World :=
  match ls with [] => Some w | l :: ls' => w' ← exec l w; exec_all ls' w' end.

Definition start (d : D) (now : Z) : World := mkWorld new_verifier d now ∅ [] [] [].

Definition reach (d : D) (now : Z) (w : World) : Prop := exists ls, exec_all ls (start d now) = Some w.
End System.
