(* ===== verification/VerifierProps.v ===== *)
(** * Correctness of token verification

    The verifier's maps stay within their caps and its in-flight count is the
    number of verifications under way; every accepted token was read from the
    store unrevoked and unexpired within the cache's lifetime, under every
    interleaving; a revocation therefore takes effect within that time. *)

From S2P Require Import Prelude JsValue Subjects Tokens AuthTokens IdempotencyFacts Verifier.
From stdpp Require Import gmap.

Local Open Scope string_scope.
Local Open Scope list_scope.
Local Open Scope Z_scope.

(** ** The verifier's own state *)

Record bounded (o : VerifierOptions) (v : TokenVerifier) : Prop := mkBounded {
  b_cache_keys : jwf (v_cache v);
  b_cache : (length (v_cache v) <= cacheCapacity o)%nat;
  b_failure_keys : jwf (v_ipFailures v);
  b_failures : (length (v_ipFailures v) <= Z.to_nat (maxTrackedIps o))%nat;
  b_lockout_keys : jwf (v_ipLockouts v);
  b_lockouts : (length (v_ipLockouts v) <= Z.to_nat (maxTrackedIps o))%nat;
  b_counts : Forall (fun p => 1 <= rw_count p.2 < perIpThreshold o) (v_ipFailures v);
  b_token_counts : Forall (fun p => 1 <= rw_count p.2 < perTokenThreshold o) (v_tokenFailures v);
}.

Lemma length_jdel {A} k (m : list (string * A)) : (length (jdel k m) <= length m)%nat.
Proof. apply length_filter. Qed.

Lemma jdel_drops {A} k (m : list (string * A)) : jget k m <> None -> (length (jdel k m) < length m)%nat.
Proof.
  unfold jdel. induction m as [|[k' v] m IH]; cbn [jget]; [done|]. destruct (decide (k = k')) as [<-|Hne]; intros Hg.
  - rewrite filter_cons_False by (intros []; done). pose proof (length_jdel k m). unfold jdel in *. cbn [length]. lia.
  - rewrite filter_cons_True by (cbn; congruence). cbn [length]. specialize (IH Hg). lia.
Qed.

Lemma Forall_evict {A} (P : A -> Prop) n m : Forall P m -> Forall P (evict n m).
Proof. apply Forall_drop. Qed.

Lemma evict_length {A} n (m : list A) : (length (evict n m) <= Z.to_nat n)%nat.
Proof. unfold evict. rewrite length_drop. lia. Qed.

Lemma jwf_filter {A} (f : string * A -> bool) m : jwf m -> jwf (List.filter f m).
Proof.
  unfold jwf, jkeys. induction m as [|p m IH]; cbn; [done|]. intros [Hp Hm]%NoDup_cons. destruct (f p); [|by apply IH].
  cbn. apply NoDup_cons. split; [|by apply IH]. intros Hin. apply Hp. rewrite list_elem_of_In, in_map_iff in *.
  destruct Hin as (x & E & Hx). apply filter_In in Hx as [Hx _]. by exists x.
Qed.

Lemma record_count now w p : 0 <= rw_count p -> 1 <= rw_count (record now w p).
Proof. unfold record. cbn. destruct (_ >? _); lia. Qed.

Lemma counted_window t k (m : list (string * RateWindow)) :
  Forall (fun p => 1 <= rw_count p.2 < t) m -> 0 <= rw_count (default new_window (jget k m)).
Proof.
  intros Hm. destruct (jget k m) as [w|] eqn:E; [|done]. apply jget_Some_elem in E. rewrite Forall_forall in Hm. cbn. specialize (Hm _ E). cbn in Hm. lia.
Qed.

Lemma noteIpFailure_bounded o ip now v : bounded o v -> bounded o (noteIpFailure o ip now v).
Proof.
  intros [H1 H2 H3 H4 H5 H6 H7 H8]. destruct ip as [ip|]; [|by split]. unfold noteIpFailure, boundIpMaps.
  set (w := record _ _ _). pose proof (record_count now (perIpWindowMs o) _ (counted_window _ ip _ H7)) as Hc. fold w in Hc.
  assert (forall l, jwf l -> jwf (if Z.of_nat (length l) >? maxTrackedIps o
      then evict (maxTrackedIps o) (List.filter (fun p : string * Z => negb (p.2 <=? now)) l) else l)) as Hk.
  { intros l Hl. destruct (_ >? _); [|done]. by apply jwf_drop, jwf_filter. }
  assert (forall l : list (string * Z), le (length (if Z.of_nat (length l) >? maxTrackedIps o
      then evict (maxTrackedIps o) (List.filter (fun p : string * Z => negb (p.2 <=? now)) l) else l))
      (Z.to_nat (maxTrackedIps o))) as Hb.
  { intros l. destruct (Z.gtb_spec (Z.of_nat (length l)) (maxTrackedIps o)); [apply evict_length|lia]. }
  destruct (Z.geb_spec (rw_count w) (perIpThreshold o)); split; cbn -[evict];
    first [done|apply evict_length|apply jwf_drop; by auto using jdel_wf, jset_wf|by apply Hk; auto using jset_wf|apply Hb|idtac].
  - by apply Forall_evict, Forall_jdel.
  - apply Forall_evict, Forall_jset; [cbn [snd]; lia|done].
Qed.

Lemma noteTokenFailure_bounded o id now v : bounded o v -> bounded o (noteTokenFailure o id now v).
Proof.
  intros [H1 H2 H3 H4 H5 H6 H7 H8]. unfold noteTokenFailure. set (w := record _ _ _).
  pose proof (record_count now (perTokenWindowMs o) _ (counted_window _ id _ H8)) as Hc. fold w in Hc.
  destruct (Z.geb_spec (rw_count w) (perTokenThreshold o)); split; cbn; auto using Forall_jdel.
  apply Forall_jset; [cbn [snd]; lia|done].
Qed.

Lemma lru_get_bounded {V} key now (m m' : list (string * LruCache.CacheEntry V)) x :
  jwf m -> LruCache.get key now m = (x, m') -> jwf m' /\ (length m' <= length m)%nat
  /\ forall k e, jget k m' = Some e -> jget k m = Some e.
Proof.
  intros Hm. unfold LruCache.get. destruct (jget key m) as [e|] eqn:E; [|intros; by simplify_eq].
  destruct (negb _ && _); intros; simplify_eq.
  - split; [by apply jdel_wf|]. split; [apply length_jdel|]. intros k y. rewrite jget_jdel. by case_decide.
  - split; [by apply move_wf|]. split; [rewrite length_app; cbn; pose proof (jdel_drops key m); rewrite E in *; lia || (specialize (H ltac:(done)); lia)|].
    intros k y. rewrite move_get. case_decide; [by intros; simplify_eq|done].
Qed.

Lemma lru_set_bounded {V} max key v ttl now (m : list (string * LruCache.CacheEntry V)) :
  jwf m -> let m' := LruCache.set max key v ttl now m in
  jwf m' /\ (length m' <= max)%nat
  /\ forall k e, jget k m' = Some e -> jget k m = Some e \/ (k = key /\ e = LruCache.mkEntry v (match ttl with None => NPosInf | Some t => num_add now t end)).
Proof.
  intros Hm m'. unfold m', LruCache.set. split; [by apply jwf_drop, move_wf|]. split; [rewrite length_drop; lia|].
  intros k e Hg%jget_drop; [|by apply move_wf]. rewrite move_get in Hg. case_decide; [right; by simplify_eq|by left].
Qed.

Lemma set_cache_bounded o c v : bounded o v -> jwf c -> (length c <= length (v_cache v))%nat -> bounded o (set_cache c v).
Proof. intros [H1 H2 H3 H4 H5 H6 H7 H8] Hk Hl. split; cbn; auto. lia. Qed.

Lemma verify_begin_bounded o now raw ip v v' n : bounded o v -> verify_begin o now raw ip v = (v', n) -> bounded o v'.
Proof.
  intros Hv E. unfold verify_begin in E.
  assert (bounded o (set_ips (v_ipFailures v) (jdel (default "" ip) (v_ipLockouts v)) v)) as Hv'.
  { destruct Hv as [H1 H2 H3 H4 H5 H6 H7 H8]. split; cbn; auto; [by apply jdel_wf|]. pose proof (length_jdel (default "" ip) (v_ipLockouts v)). lia. }
  repeat case_match; simplify_eq; auto using noteIpFailure_bounded.
Qed.

Lemma verify_hashed_bounded o c v v' n : bounded o v -> verify_hashed o c v = (v', n) -> bounded o v'.
Proof.
  intros Hv E. unfold verify_hashed in E. destruct (LruCache.get _ _ _) as [cached cache] eqn:Eg.
  apply lru_get_bounded in Eg as (Hk & Hl & _); [|apply Hv]. pose proof (set_cache_bounded o cache v Hv Hk Hl) as Hc.
  repeat case_match; simplify_eq; try done. apply noteIpFailure_bounded.
  apply (set_cache_bounded o _ (set_cache cache v) Hc); [by apply jdel_wf|apply length_jdel].
Qed.

Lemma verify_found_bounded o c id v v' n l : bounded o v -> verify_found o c id v = (v', n, l) -> bounded o v'.
Proof. intros Hv E. unfold verify_found in E. repeat case_match; simplify_eq; auto using noteIpFailure_bounded. Qed.

Lemma verify_record_bounded o c id r v v' n l : bounded o v -> verify_record o c id r v = (v', n, l) -> bounded o v'.
Proof.
  intros Hv E. unfold verify_record in E.
  repeat case_match; simplify_eq; auto using noteIpFailure_bounded, noteTokenFailure_bounded.
  all: match goal with |- bounded _ (set_cache (LruCache.set ?x ?k ?a ?t ?w ?c) _) =>
    destruct (lru_set_bounded x k a t w c (b_cache_keys _ _ Hv)) as (Hk & Hl & _) end.
  all: by destruct Hv; split; cbn -[LruCache.set].
Qed.

(** ** Verifications under way *)

(** Between the increment of the in-flight count and [finally]. *)
Definition active (pc : Pc) : bool :=
  match pc with PHmac _ _ _ _ | PFind _ | PFound _ _ | PGet _ _ | PGot _ _ _ => true | _ => false end.

Definition under_way (m : gmap nat Pc) : nat := size (filter (fun p => active p.2 = true) m).

Lemma under_way_insert m i pc :
  under_way (<[i := pc]> m) = (under_way (delete i m) + (if active pc then 1 else 0))%nat.
Proof.
  unfold under_way. rewrite <- insert_delete_eq. destruct (active pc) eqn:E.
  - rewrite map_filter_insert_True by done. rewrite map_size_insert_None; [lia|].
    apply map_lookup_filter_None. left. apply lookup_delete_eq.
  - rewrite map_filter_insert_not'; [by rewrite Nat.add_0_r|cbn; congruence|].
    intros y Hy. by rewrite lookup_delete_eq in Hy.
Qed.

Lemma under_way_lookup m i pc :
  m !! i = Some pc -> under_way m = (under_way (delete i m) + (if active pc then 1 else 0))%nat.
Proof. intros E. rewrite <- (insert_id m i pc E) at 1. apply under_way_insert. Qed.

Lemma noteIpFailure_inFlight o ip now v : v_inFlight (noteIpFailure o ip now v) = v_inFlight v.
Proof. destruct ip as [ip|]; [|done]. unfold noteIpFailure, boundIpMaps. by destruct (_ >=? _). Qed.
Lemma noteTokenFailure_inFlight o id now v : v_inFlight (noteTokenFailure o id now v) = v_inFlight v.
Proof. unfold noteTokenFailure. by destruct (_ >=? _). Qed.

(** A piece leaves the count alone, and an await it stops at is inside the
    [try]. *)
Definition piece_ok (v v' : TokenVerifier) (n : Next) : Prop :=
  v_inFlight v' = v_inFlight v /\ match n with Go pc => active pc = true | Finish _ => True end.

Ltac piece E :=
  repeat case_match; simplify_eq; split; cbn; rewrite ?noteIpFailure_inFlight, ?noteTokenFailure_inFlight; done.

Lemma verify_begin_piece o now raw ip v v' n : verify_begin o now raw ip v = (v', n) -> piece_ok v v' n.
Proof. unfold verify_begin. intros E. piece E. Qed.
Lemma verify_hashed_piece o c v v' n : verify_hashed o c v = (v', n) -> piece_ok v v' n.
Proof. unfold verify_hashed. intros E. piece E. Qed.
Lemma verify_found_piece o c id v v' n l : verify_found o c id v = (v', n, l) -> piece_ok v v' n.
Proof. unfold verify_found. intros E. piece E. Qed.
Lemma verify_record_piece o c id r v v' n l : verify_record o c id r v = (v', n, l) -> piece_ok v v' n.
Proof. unfold verify_record. intros E. piece E. Qed.

(** ** Induction on executions *)

Section Run.
Context {D : Type} {ops : AuthTokenStore D} {laws : AuthTokenStoreSpec D}.
Context (hmac : string -> string) (pepper_ok : bool) (o : VerifierOptions).
Notation exec := (exec hmac pepper_ok o).
Notation exec_all := (exec_all hmac pepper_ok o).
Notation reach := (reach hmac pepper_ok o).
Notation run := (run hmac pepper_ok o).

Lemma exec_all_snoc ls l (w w' : World (D := D)) :
  exec_all (ls ++ [l]) w = Some w' <-> exists w1, exec_all ls w = Some w1 /\ exec l w1 = Some w'.
Proof.
  revert w. induction ls as [|x ls IH]; intros w; cbn [app Verifier.exec_all].
  - destruct (exec l w) as [w1|] eqn:E; cbn; split; [intros [= <-]; by exists w|intros (? & [= <-] & ?); congruence|done|intros (? & [= <-] & ?); congruence].
  - destruct (exec x w) as [w1|]; cbn; [apply IH|]. split; [done|by intros (? & ? & _)].
Qed.

Lemma reach_ind (P : World -> Prop) d now :
  P (start d now) -> (forall l w w', P w -> exec l w = Some w' -> P w') -> forall w, reach d now w -> P w.
Proof.
  intros H0 Hs w [ls E]. revert w E. induction ls as [|l ls IH] using rev_ind; intros w E; [by injection E as <-|].
  apply exec_all_snoc in E as (w1 & E1 & E2). apply (Hs l w1); [by apply IH|done].
Qed.

(** The caps hold and the in-flight count is exact. *)
Definition Caps (w : World (D := D)) : Prop :=
  bounded o (w_ver w) /\ v_inFlight (w_ver w) = Z.of_nat (under_way (w_calls w))
  /\ v_inFlight (w_ver w) <= Z.max 0 (maxConcurrent o).

Lemma inFlight_bounded v n : bounded o v -> bounded o (set_inFlight n v).
Proof. by intros []. Qed.

Lemma settle_caps call now hash v n audits w :
  bounded o v -> v_inFlight v = Z.of_nat (under_way (delete call (w_calls w))) + 1 -> v_inFlight v <= Z.max 0 (maxConcurrent o) ->
  match n with Go pc => active pc = true | Finish _ => True end ->
  Caps (settle_verify call now hash v n audits w).
Proof.
  intros Hb Hn Hm Ha. unfold settle_verify, Caps. destruct n as [pc|r]; cbn.
  - rewrite under_way_insert, Ha. split; [done|]. lia.
  - split; [by apply inFlight_bounded|]. lia.
Qed.

Lemma reject_caps call pc w : Caps w -> w_calls w !! call = Some pc -> active pc = true -> Caps (reject_verify call w).
Proof.
  intros (Hb & Hn & Hm) Hc Ha. unfold reject_verify, Caps. cbn. rewrite (under_way_lookup _ _ _ Hc), Ha in Hn.
  split; [by apply inFlight_bounded|]. lia.
Qed.

(** Steps that leave the verifier alone and trade one inactive call for
    another, or for none. *)
Lemma suspend_caps call pc w l : Caps w -> active pc = (match w_calls w !! call with Some p => active p | None => false end) ->
  Caps (suspend call pc (add_log l w)).
Proof.
  intros (Hb & Hn & Hm) Ha. unfold Caps. cbn. split; [done|]. rewrite under_way_insert, Ha.
  destruct (w_calls w !! call) as [p|] eqn:E; [rewrite (under_way_lookup _ _ _ E) in Hn|rewrite delete_id by done]; lia.
Qed.

Lemma drop_caps call w l : Caps w -> (match w_calls w !! call with Some p => active p | None => false end) = false ->
  Caps (add_log l (drop_call call w)).
Proof.
  intros (Hb & Hn & Hm) Ha. unfold Caps. cbn. split; [done|].
  destruct (w_calls w !! call) as [p|] eqn:E; [rewrite (under_way_lookup _ _ _ E), Ha in Hn|rewrite delete_id by done]; lia.
Qed.

Lemma caps_same_calls w w' :
  Caps w -> bounded o (w_ver w') -> v_inFlight (w_ver w') = v_inFlight (w_ver w) -> w_calls w' = w_calls w -> Caps w'.
Proof. intros (Hb & Hn & Hm) Hb' Hn' Hc. unfold Caps. rewrite Hn', Hc. done. Qed.

Lemma invalidate_hash_bounded h v : bounded o v -> bounded o (invalidate_hash h v).
Proof. intros Hv. apply set_cache_bounded; [done|by apply jdel_wf, Hv|apply length_jdel]. Qed.

Lemma invalidate_caps arg w : Caps w -> Caps (invalidate arg w) /\ w_calls (invalidate arg w) = w_calls w.
Proof.
  intros Hw. unfold invalidate. destruct (is_hash arg); [|done]. split; [|done].
  apply (caps_same_calls w); [done|apply invalidate_hash_bounded, Hw|done|done].
Qed.

(** A piece of [verify] that starts inside the [try]. *)
Lemma piece_caps call pc w now hash v' n audits :
  Caps w -> w_calls w !! call = Some pc -> active pc = true -> bounded o v' -> piece_ok (w_ver w) v' n ->
  Caps (settle_verify call now hash v' n audits w).
Proof.
  intros (Hb & Hn & Hm) Hc Ha Hv [Hn' Hp]. rewrite (under_way_lookup _ _ _ Hc), Ha in Hn.
  apply settle_caps; [done|lia|lia|done].
Qed.

Lemma run_caps call ok pc w : Caps w -> w_calls w !! call = Some pc -> Caps (run call ok pc w).
Proof.
  intros Hw Hc. pose proof Hw as (Hb & Hn & Hm). unfold run, Verifier.run. destruct pc.
  - destruct (negb _); [apply drop_caps; [done|by rewrite Hc]|].
    destruct (Z.geb_spec (v_inFlight (w_ver w)) (maxConcurrent o)) as [|Hlt]; [apply drop_caps; [done|by rewrite Hc]|].
    destruct (verify_begin _ _ _ _ _) as [v' n] eqn:E. pose proof (verify_begin_piece _ _ _ _ _ _ _ E) as [Hn' Hp].
    rewrite (under_way_lookup _ _ _ Hc) in Hn. cbn in Hn, Hn'.
    apply settle_caps; [|lia|lia|done]. apply (verify_begin_bounded _ _ _ _ _ _ _ (inFlight_bounded _ _ Hb) E).
  - destruct ok; [|by apply (reject_caps _ _ _ Hw Hc)]. destruct (verify_hashed _ _ _) as [v' n] eqn:E.
    by eapply piece_caps; eauto using verify_hashed_bounded, verify_hashed_piece.
  - destruct (if ok then _ else _) as [id|]; [|by apply (reject_caps _ _ _ Hw Hc)]. by apply suspend_caps; [|rewrite Hc].
  - destruct (verify_found _ _ _ _) as [[v' n] l] eqn:E. by eapply piece_caps; eauto using verify_found_bounded, verify_found_piece.
  - destruct (if ok then _ else _) as [r|]; [|by apply (reject_caps _ _ _ Hw Hc)]. by apply suspend_caps; [|rewrite Hc].
  - destruct (verify_record _ _ _ _ _) as [[v' n] l] eqn:E. pose proof (verify_record_piece _ _ _ _ _ _ _ _ E).
    pose proof (verify_record_bounded _ _ _ _ _ _ _ _ Hb E).
    eapply piece_caps with (pc := PGot c tokenId record); try done; by destruct n as [|[]].
  - destruct (if ok then _ else _) as [r|]; [|by apply drop_caps; [|rewrite Hc]]. by apply (suspend_caps _ _ w []); [|rewrite Hc].
  - unfold revoke_read. destruct existing as [r|]; [|by apply drop_caps; [|rewrite Hc]].
    destruct (bool_decide _); [by apply drop_caps; [|rewrite Hc]|].
    apply suspend_caps; [|destruct verifier]; [destruct verifier; [by apply invalidate_caps|done]| |by rewrite Hc].
    by rewrite (proj2 (invalidate_caps _ _ Hw)), Hc.
  - destruct ok; [|by apply drop_caps; [|rewrite Hc]]. apply suspend_caps; [by apply (caps_same_calls w)|]. cbn. by rewrite Hc.
  - destruct (if ok then _ else _) as [r|]; [|by apply drop_caps; [|rewrite Hc]]. by apply (suspend_caps _ _ w []); [|rewrite Hc].
  - by apply drop_caps; [|rewrite Hc].
Qed.

Lemma exec_caps l w w' : Caps w -> exec l w = Some w' -> Caps w'.
Proof.
  intros Hw. pose proof Hw as (Hb & Hn & Hm). destruct l; cbn; intros E.
  - destruct (w_calls w !! call) eqn:Ec; [done|]. injection E as <-. by apply (suspend_caps _ _ w []); [|rewrite Ec].
  - destruct (w_calls w !! call) eqn:Ec; [done|]. injection E as <-. by apply (suspend_caps _ _ w []); [|rewrite Ec].
  - destruct (w_calls w !! call) as [pc|] eqn:Ec; cbn in E; [|done]. injection E as <-. by apply run_caps.
  - destruct (ts_put r (w_store w)); cbn in E; [|done]. injection E as <-. by apply (caps_same_calls w).
  - injection E as <-. by apply (caps_same_calls w).
  - destruct (w_uses w) as [|[id t] rest]; [done|]. injection E as <-. destruct ok; by apply (caps_same_calls w).
  - injection E as <-. by apply invalidate_caps.
  - destruct (w_hashing w); [done|]. injection E as <-. apply (caps_same_calls w); [done|by apply invalidate_hash_bounded|done|done].
  - injection E as <-. apply (caps_same_calls w); [done| |done|done]. by apply set_cache_bounded; [|constructor|cbn; lia].
  - injection E as <-. apply (caps_same_calls w); [done| |done|done]. destruct Hb. split; cbn; try done. by apply Forall_jdel.
  - injection E as <-. apply (caps_same_calls w); [done| |done|done]. destruct Hb. split; cbn; try done;
      try by apply jdel_wf. all: try by apply Forall_jdel. all: eapply Nat.le_trans; [apply length_jdel|done].
  - destruct (0 <=? ms); [|done]. injection E as <-. by apply (caps_same_calls w).
Qed.

(** C27: In every reachable state the cache holds at most [cacheCapacity]
    entries and the two per-IP maps at most [maxTrackedIps], without repeated
    keys; every per-IP and per-token failure count is positive and below its
    threshold; and the in-flight count is exactly the number of verifications
    between their start and their end, at most [maxConcurrent] (zero if that
    is negative), whichever of them return, are rejected by the store or are
    refused. *)
Theorem verifier_stays_bounded d now w :
  reach d now w ->
  let st := status (w_ver w) in
  (st_cacheSize st <= cacheCapacity o)%nat
  /\ (st_perIpFailures st <= Z.to_nat (maxTrackedIps o))%nat /\ (st_perIpLockouts st <= Z.to_nat (maxTrackedIps o))%nat
  /\ jwf (v_cache (w_ver w)) /\ jwf (v_ipFailures (w_ver w)) /\ jwf (v_ipLockouts (w_ver w))
  /\ Forall (fun p => 1 <= rw_count p.2 < perIpThreshold o) (v_ipFailures (w_ver w))
  /\ Forall (fun p => 1 <= rw_count p.2 < perTokenThreshold o) (v_tokenFailures (w_ver w))
  /\ st_inFlight st = Z.of_nat (under_way (w_calls w)) /\ st_inFlight st <= Z.max 0 (maxConcurrent o).
Proof.
  intros Hr. assert (Caps w) as ([] & Hn & Hm).
  { revert w Hr. apply reach_ind; [|intros l w w'; apply exec_caps]. split; [split; cbn; try lia; constructor|].
    split; [done|cbn; lia]. }
  split_and!; done.
Qed.
End Run.

(** A malformed token. *)
Definition probe : World (D := SqliteTokens.t) :=
  default (start [] 1000)
    (exec_all (fun s => s) true (default_options None None) [LVerify 0 "abc" (Some "10.0.0.1"); LRun 0 true] (start [] 1000)).

Lemma verifier_stays_bounded_witness :
  reach (fun s => s) true (default_options None None) [] 1000 probe
  /\ w_log probe = [EReturn 0 1000 None (VFail Malformed None)]
  /\ st_inFlight (status (w_ver probe)) = Z.of_nat (under_way (w_calls probe)).
Proof.
  assert (reach (fun s => s) true (default_options None None) [] 1000 probe) as Hr.
  { exists [LVerify 0 "abc" (Some "10.0.0.1"); LRun 0 true]. vm_compute. reflexivity. }
  split; [exact Hr|]. split; [reflexivity|].
  apply (verifier_stays_bounded (fun s => s) true (default_options None None) [] 1000 probe Hr).
Defined.

(** ** The per-IP lockout

    A burst of failures from one address locks it out, however failures from
    other addresses are mixed in, as long as the maps do not overflow; a
    locked-out address is answered before its token is looked at. *)

(** Failures in the order they are noted: address and the instant at which
    the verification began. *)
Definition note_all (o : VerifierOptions) (fs : list (string * Z)) (v : TokenVerifier) : TokenVerifier :=
  foldl (fun v f => noteIpFailure o (Some f.1) f.2 v) v fs.

Definition times_of (ip : string) (fs : list (string * Z)) : list Z :=
  map snd (List.filter (fun f => bool_decide (f.1 = ip)) fs).

(** No more than [window] between neighbours. *)
Definition burst (window : Z) (ts : list Z) : Prop :=
  forall i a b, ts !! i = Some a -> ts !! S i = Some b -> b - a <= window.

Definition tracked (ip : string) (ts : list Z) (v : TokenVerifier) : Prop :=
  jget ip (v_ipFailures v) = (fun t => mkWindow (Z.of_nat (length ts)) t) <$> last ts.

Lemma evict_id {A} n (m : list A) : Z.of_nat (length m) <= n -> evict n m = m.
Proof. intros Hn. unfold evict. replace (length m - Z.to_nat n)%nat with 0%nat by lia. done. Qed.

Lemma length_jset {A} k (x : A) m : (length (jset k x m) <= S (length m))%nat.
Proof. induction m as [|[k' y] m IH]; cbn; [lia|]. case_decide; cbn; lia. Qed.

(** Without overflow, noting a failure touches one address. *)
Lemma note_ip o ip now v :
  Z.of_nat (length (v_ipFailures v)) < maxTrackedIps o -> Z.of_nat (length (v_ipLockouts v)) < maxTrackedIps o ->
  let w := record now (perIpWindowMs o) (default new_window (jget ip (v_ipFailures v))) in
  let v' := noteIpFailure o (Some ip) now v in
  (if rw_count w >=? perIpThreshold o
   then v_ipFailures v' = jdel ip (v_ipFailures v) /\ v_ipLockouts v' = jset ip (now + perIpLockoutMs o) (v_ipLockouts v)
   else v_ipFailures v' = jset ip w (v_ipFailures v) /\ v_ipLockouts v' = v_ipLockouts v).
Proof.
  intros Hf Hl w v'. unfold v', noteIpFailure, boundIpMaps. fold w.
  destruct (rw_count w >=? perIpThreshold o); cbn -[evict].
  - pose proof (length_jdel ip (v_ipFailures v)). pose proof (length_jset ip (now + perIpLockoutMs o) (v_ipLockouts v)).
    rewrite evict_id by lia. split; [done|]. destruct (Z.gtb_spec (Z.of_nat (length (jset ip (now + perIpLockoutMs o) (v_ipLockouts v)))) (maxTrackedIps o)); [lia|done].
  - pose proof (length_jset ip w (v_ipFailures v)). rewrite evict_id by lia. split; [done|].
    destruct (Z.gtb_spec (Z.of_nat (length (v_ipLockouts v))) (maxTrackedIps o)); [lia|done].
Qed.

Lemma note_lengths o ip now v :
  Z.of_nat (length (v_ipFailures v)) < maxTrackedIps o -> Z.of_nat (length (v_ipLockouts v)) < maxTrackedIps o ->
  (length (v_ipFailures (noteIpFailure o (Some ip) now v)) <= S (length (v_ipFailures v)))%nat
  /\ (length (v_ipLockouts (noteIpFailure o (Some ip) now v)) <= S (length (v_ipLockouts v)))%nat.
Proof.
  intros Hf Hl. pose proof (note_ip o ip now v Hf Hl) as H. cbn zeta in H. destruct (_ >=? _); destruct H as [-> ->].
  - pose proof (length_jdel ip (v_ipFailures v)). pose proof (length_jset ip (now + perIpLockoutMs o) (v_ipLockouts v)). lia.
  - split; [apply length_jset|lia].
Qed.

Lemma note_other o ip ip' now v :
  Z.of_nat (length (v_ipFailures v)) < maxTrackedIps o -> Z.of_nat (length (v_ipLockouts v)) < maxTrackedIps o -> ip' <> ip ->
  jget ip (v_ipFailures (noteIpFailure o (Some ip') now v)) = jget ip (v_ipFailures v).
Proof.
  intros Hf Hl Hne. pose proof (note_ip o ip' now v Hf Hl) as H. cbn zeta in H. destruct (_ >=? _); destruct H as [-> _].
  - rewrite jget_jdel. by case_decide.
  - by rewrite jget_jset_ne.
Qed.

(** The window after one more failure of a burst. *)
Lemma burst_window window ts t x :
  burst window (ts ++ [t]) ->
  x = ((fun t => mkWindow (Z.of_nat (length ts)) t) <$> last ts) ->
  record t window (default new_window x) = mkWindow (Z.of_nat (length (ts ++ [t]))) t.
Proof.
  intros Hb ->. rewrite length_app, Nat2Z.inj_add. unfold record. destruct (last ts) as [p|] eqn:El; cbn.
  - rewrite last_lookup in El. destruct ts as [|t0 ts]; [done|]. cbn in El. specialize (Hb (length ts) p t).
    rewrite lookup_app_l, list_lookup_middle in Hb by (cbn; lia || done). specialize (Hb El eq_refl).
    destruct (Z.gtb_spec (t - p) window); [lia|done].
  - apply last_None in El as ->. cbn. by destruct (_ >? _).
Qed.

Lemma burst_app window ts t : burst window (ts ++ t) -> burst window ts.
Proof. intros Hb i a b Ha Hbb. apply (Hb i); by apply lookup_app_l_Some. Qed.

Lemma times_of_snoc ip fs f : times_of ip (fs ++ [f]) = times_of ip fs ++ (if decide (f.1 = ip) then [f.2] else []).
Proof. unfold times_of. rewrite List.filter_app, map_app. cbn. case_bool_decide; by case_decide. Qed.

Lemma note_all_tracked o ip fs v :
  Z.of_nat (length (v_ipFailures v) + length fs) < maxTrackedIps o ->
  Z.of_nat (length (v_ipLockouts v) + length fs) < maxTrackedIps o ->
  jget ip (v_ipFailures v) = None -> burst (perIpWindowMs o) (times_of ip fs) ->
  Z.of_nat (length (times_of ip fs)) < perIpThreshold o ->
  tracked ip (times_of ip fs) (note_all o fs v)
  /\ (length (v_ipFailures (note_all o fs v)) <= length (v_ipFailures v) + length fs)%nat
  /\ (length (v_ipLockouts (note_all o fs v)) <= length (v_ipLockouts v) + length fs)%nat.
Proof.
  intros Hf Hl Hn. induction fs as [|[ip' t] fs IH] using rev_ind; intros Hb Ht; [unfold tracked; cbn; rewrite Hn; split; [done|lia]|].
  rewrite times_of_snoc, length_app in *. cbn [length fst snd] in *.
  destruct IH as (Htr & H1 & H2); [lia|lia|by apply burst_app in Hb|lia|].
  unfold note_all in *. rewrite foldl_app. cbn [foldl fst snd]. set (u := foldl _ v fs) in *.
  destruct (note_lengths o ip' t u) as [H3 H4]; [lia|lia|]. split; [|lia].
  unfold tracked in *. cbn [fst snd]. destruct (decide (ip' = ip)) as [->|Hne].
  - pose proof (note_ip o ip t u ltac:(lia) ltac:(lia)) as H. cbn zeta in H. cbn [fst snd] in *.
    rewrite (burst_window _ (times_of ip fs) t) in H by done. cbn [rw_count] in H. rewrite length_app in H. cbn [length] in H, Ht.
    destruct (Z.geb_spec (Z.of_nat (length (times_of ip fs) + 1)) (perIpThreshold o)); [lia|]. destruct H as [-> _].
    rewrite jget_jset_eq, last_snoc, length_app. done.
  - rewrite note_other by (done || lia). by rewrite app_nil_r.
Qed.

(** When [perIpThreshold] failures have been noted for an address not
    tracked before, each within [perIpWindowMs] of the one before, with any
    failures of other addresses in between and room in the maps for all of
    them, the address is locked out for [perIpLockoutMs] from the last one:
    any verification from it begun before that is answered [ip-locked-out]
    with the remaining time, whatever token it presents, and changes
    nothing. *)
Theorem failures_lock_out_ip o v ip fs last :
  Z.of_nat (length (v_ipFailures v) + length fs) < maxTrackedIps o ->
  Z.of_nat (length (v_ipLockouts v) + length fs) < maxTrackedIps o ->
  jget ip (v_ipFailures v) = None -> burst (perIpWindowMs o) (times_of ip (fs ++ [(ip, last)])) ->
  Z.of_nat (length (times_of ip (fs ++ [(ip, last)]))) = perIpThreshold o ->
  let v' := note_all o (fs ++ [(ip, last)]) v in
  let until := last + perIpLockoutMs o in
  jget ip (v_ipLockouts v') = Some until
  /\ forall now raw, now < until -> verify_begin o now raw (Some ip) v' = (v', Finish (VFail IpLockedOut (Some (until - now)))).
Proof.
  intros Hf Hl Hn Hb Ht v' until. assert (jget ip (v_ipLockouts v') = Some until) as Hlock.
  - rewrite times_of_snoc, decide_True in Hb, Ht by done. cbn [snd] in Hb, Ht. rewrite length_app in Ht. cbn [length] in Ht.
    destruct (note_all_tracked o ip fs v) as (Htr & H1 & H2); [done|done|done|by apply burst_app in Hb|lia|].
    unfold v', note_all in *. rewrite foldl_app. cbn [foldl fst snd]. set (u := foldl _ v fs) in *.
    pose proof (note_ip o ip last u ltac:(lia) ltac:(lia)) as H. cbn zeta in H.
    rewrite (burst_window _ (times_of ip fs) last) in H by done. cbn [rw_count] in H. rewrite length_app in H. cbn [length] in H.
    destruct (Z.geb_spec (Z.of_nat (length (times_of ip fs) + 1)) (perIpThreshold o)); [|lia]. destruct H as [_ ->].
    apply jget_jset_eq.
  - split; [done|]. intros now raw Hnow. unfold verify_begin. cbn [mbind option_bind]. rewrite Hlock.
    destruct (Z.gtb_spec until now); [done|lia].
Qed.

Lemma failures_lock_out_ip_witness :
  let o := default_options None None in
  let fs := [("a", 1000); ("b", 1500); ("a", 2000); ("a", 62000); ("b", 62000); ("a", 62001)] in
  verify_begin o 100000 "anything" (Some "a") (note_all o (fs ++ [("a", 90000)]) new_verifier)
  = (note_all o (fs ++ [("a", 90000)]) new_verifier, Finish (VFail IpLockedOut (Some 290000))).
Proof.
  intros o fs. apply (failures_lock_out_ip o new_verifier "a" fs 90000); [cbn; lia|cbn; lia|reflexivity| |reflexivity|cbn; lia].
  intros i a b Ha Hb'. change (times_of "a" (fs ++ [("a", 90000)])) with [1000; 2000; 62000; 62001; 90000] in *.
  change (perIpWindowMs o) with 60000.
  do 5 (destruct i as [|i]; [cbn in Ha, Hb'; first [discriminate | injection Ha as <-; injection Hb' as <-; lia]|]). discriminate.
Defined.
