(* ===== verification/VerifierAccept.v ===== *)
(** * What an accepted token is worth

    The state invariant that ties the cache, the suspended calls and the
    results to the store reads of the past, and the two safety theorems that
    follow: an accepted token was read live, and a revoked one is rejected
    once the cache lifetime is over. *)

From S2P Require Import Prelude JsValue Subjects Tokens TokenProps AuthTokens IdempotencyFacts Verifier VerifierProps.
From stdpp Require Import gmap.

Local Open Scope string_scope.
Local Open Scope list_scope.
Local Open Scope Z_scope.

(** ** Logs *)

(** The moment of an access to the store. *)
Definition clock_of (e : Event) : option Z :=
  match e with EFound c _ _ | ERead c _ _ _ | EPut c _ | ERevoke c _ _ => Some c | _ => None end.

(** Whether the last write to [id] was a revocation. *)
Definition revoked_step (id : string) (b : bool) (e : Event) : bool :=
  match e with
  | EPut _ r => if decide (ar_id r = id) then false else b
  | ERevoke _ id' _ => if decide (id' = id) then true else b
  | _ => b
  end.
Definition revoked_now (id : string) (l : list Event) : bool := foldl (revoked_step id) false l.

Lemma revoked_now_snoc id l e : revoked_now id (l ++ [e]) = revoked_step id (revoked_now id l) e.
Proof. unfold revoked_now. by rewrite foldl_app. Qed.

Lemma revoked_now_after id l1 c ms l2 :
  (forall c r, EPut c r ∈ l2 -> ar_id r <> id) -> revoked_now id (l1 ++ ERevoke c id ms :: l2) = true.
Proof.
  intros Hp. unfold revoked_now. rewrite foldl_app. cbn. rewrite decide_True by done.
  induction l2 as [|e l2 IH]; [done|]. cbn [foldl].
  replace (revoked_step id true e) with true; [apply IH; intros; eapply Hp; by right|].
  destruct e; cbn; try done; [|by case_decide]. rewrite decide_False; [done|]. apply (Hp clock). by left.
Qed.

(** ** The invariant *)

Section Accept.
Context {D : Type} {ops : AuthTokenStore D} {laws : AuthTokenStoreSpec D}.
Context (hmac : string -> string) (pepper_ok : bool) (o : VerifierOptions).
Notation exec := (exec hmac pepper_ok o).
Notation reach := (reach hmac pepper_ok o).
Notation run := (run hmac pepper_ok o).

(** A token text that parses, with its hash and environment. *)
Definition names (hash env : string) : Prop :=
  exists raw t, parseToken raw (vo_parse o) = Ok t /\ hmac raw = hash /\ pt_env t = env.

(** At [clock], by a call begun at [n <= clock], the record was found under
    the hash and read unrevoked. *)
Definition live_read (l : list Event) (n : Z) (hash : string) (token : VerifiedToken) (r : AuthTokenRecord) (clock : Z) : Prop :=
  ERead clock hash (ar_id r) r ∈ l /\ (exists c, EFound c hash (ar_id r) ∈ l) /\ n <= clock /\ ar_revokedAt r = None
  /\ exists env, names hash env /\ token = recordToVerified r env (Date_parse <$> ar_expiresAt r).

Definition unexpired (now : Z) (r : AuthTokenRecord) : Prop :=
  match ar_expiresAt r with Some (At e) => now < e | _ => True end.

Definition justified (l : list Event) (now : Z) (hash : string) (token : VerifiedToken) : Prop :=
  exists r clock n, live_read l n hash token r clock /\ unexpired now r
    /\ (readable (ar_expiresAt r) = true -> n = now \/ now < n + cacheTtlMaxMs o).

Definition event_ok (l : list Event) (e : Event) : Prop :=
  (forall e' c c', e' ∈ l -> clock_of e' = Some c' -> clock_of e = Some c -> c' <= c)
  /\ match e with
     | EReturn _ now (Some hash) (VOk token) => justified l now hash token
     | EReturn _ _ None (VOk _) => False
     | ERead _ _ id r => ar_id r = id /\ (revoked_now id l = true -> ar_revokedAt r <> None)
     | _ => True
     end.

Definition entry_ok (l : list Event) (hash : string) (e : LruCache.CacheEntry CachedAuth) : Prop :=
  exists r clock n, live_read l n hash (ca_token (LruCache.le_value e)) r clock
    /\ ca_expiresAt (LruCache.le_value e) = Date_parse <$> ar_expiresAt r
    /\ LruCache.le_expiresAt e = num_add n (computeCacheTtlMs n (Date_parse <$> ar_expiresAt r) (cacheTtlMaxMs o)).

Definition ctx_ok (clock : Z) (c : Ctx) : Prop := cx_now c <= clock /\ names (cx_hash c) (cx_env c).

Definition pc_ok (clock : Z) (l : list Event) (pc : Pc) : Prop :=
  match pc with
  | PHmac now _ raw env => now <= clock /\ exists t, parseToken raw (vo_parse o) = Ok t /\ pt_env t = env
  | PFind c => ctx_ok clock c
  | PFound c id => ctx_ok clock c /\ match id with Some id => exists a, EFound a (cx_hash c) id ∈ l | None => True end
  | PGet c id => ctx_ok clock c /\ exists a, EFound a (cx_hash c) id ∈ l
  | PGot c id r =>
      ctx_ok clock c /\ (exists a, EFound a (cx_hash c) id ∈ l)
      /\ match r with Some r => ar_id r = id /\ exists a, cx_now c <= a /\ ERead a (cx_hash c) id r ∈ l | None => True end
  | _ => True
  end.

Record Inv (w : World (D := D)) : Prop := mkInv {
  i_wf : ts_wf (w_store w);
  i_calls : forall call pc, w_calls w !! call = Some pc -> pc_ok (w_clock w) (w_log w) pc;
  i_keys : jwf (v_cache (w_ver w));
  i_cache : forall h e, jget h (v_cache (w_ver w)) = Some e -> entry_ok (w_log w) h e;
  i_log : log_ok event_ok (w_log w);
  i_clock : forall e c, e ∈ w_log w -> clock_of e = Some c -> c <= w_clock w;
  i_revoked : forall id r, revoked_now id (w_log w) = true -> ts_get id (w_store w) = Ok (Some r) -> ar_revokedAt r <> None;
}.

(** ** Monotonicity *)

Lemma live_read_mono l l' n h t r c : l ⊆ l' -> live_read l n h t r c -> live_read l' n h t r c.
Proof. intros Hs (H1 & [a H2] & H3). split; [by apply Hs|]. split; [exists a; by apply Hs|done]. Qed.

Lemma entry_ok_mono l l' h e : l ⊆ l' -> entry_ok l h e -> entry_ok l' h e.
Proof. intros Hs (r & c & n & Hl & H). exists r, c, n. split; [by apply (live_read_mono l)|done]. Qed.

Lemma pc_ok_mono clock clock' l l' pc : clock <= clock' -> l ⊆ l' -> pc_ok clock l pc -> pc_ok clock' l' pc.
Proof.
  intros Hc Hs. destruct pc; cbn; unfold ctx_ok; try done; try (intros [[? ?] ?] || intros [? ?]).
  - split; [lia|done].
  - split; [lia|done].
  - split; [split; [lia|done]|]. destruct tokenId; [|done]. destruct H1 as [a Ha]. exists a. by apply Hs.
  - split; [split; [lia|done]|]. destruct H1 as [a Ha]. exists a. by apply Hs.
  - split; [split; [lia|done]|]. destruct H1 as [[a Ha] Hr]. split; [exists a; by apply Hs|].
    destruct record; [|done]. destruct Hr as (? & b & ? & ?). split; [done|]. exists b. split; [done|by apply Hs].
Qed.

Lemma justified_mono l l' now h t : l ⊆ l' -> justified l now h t -> justified l' now h t.
Proof. intros Hs (r & c & n & Hl & H). exists r, c, n. split; [by apply (live_read_mono l)|done]. Qed.

(** ** Steps that do not write to the store *)

(** Events that carry no access to the store. *)
Definition quiet (e : Event) : bool :=
  match e with EAudit _ _ _ | EThrow _ | ERevokeReturn _ _ | EReturn _ _ _ (VFail _ _) => true | _ => false end.

Lemma quiet_ok l e : quiet e = true -> event_ok l e.
Proof. intros Hq. split; [by destruct e|]. destruct e; try done. by destruct r, hash. Qed.

Definition stores (e : Event) : bool := match e with EPut _ _ | ERevoke _ _ _ => true | _ => false end.

Lemma revoked_step_stores id b e : stores e = false -> revoked_step id b e = b.
Proof. by destruct e. Qed.

Lemma revoked_now_app id l l' : Forall (fun e => stores e = false) l' -> revoked_now id (l ++ l') = revoked_now id l.
Proof.
  unfold revoked_now. rewrite foldl_app. generalize (foldl (revoked_step id) false l).
  induction l' as [|e l' IH]; [done|]. intros b [He Hl]%Forall_cons. cbn. by rewrite revoked_step_stores, IH.
Qed.

Lemma ver_advance w v' calls' uses' hashing' l :
  Inv w -> jwf (v_cache v') -> (forall h e, jget h (v_cache v') = Some e -> entry_ok (w_log w ++ l) h e) ->
  (forall call pc, calls' !! call = Some pc -> pc_ok (w_clock w) (w_log w ++ l) pc) ->
  log_ok event_ok (w_log w ++ l) -> (forall e c, e ∈ l -> clock_of e = Some c -> c <= w_clock w) ->
  Forall (fun e => stores e = false) l ->
  Inv (mkWorld v' (w_store w) (w_clock w) calls' uses' hashing' (w_log w ++ l)).
Proof.
  intros Hw Hk Hc Hp Hl Ht Hs. split; cbn [w_store w_clock w_calls w_ver w_log]; try done; [apply Hw| |].
  - intros e c [He|He]%elem_of_app Hce; [by apply (i_clock w Hw e)|by apply (Ht e)].
  - intros id r. rewrite revoked_now_app by done. apply (i_revoked w Hw).
Qed.

Lemma calls_insert (w : World (D := D)) call pc l :
  Inv w -> pc_ok (w_clock w) (w_log w ++ l) pc ->
  forall i p, <[call := pc]> (w_calls w) !! i = Some p -> pc_ok (w_clock w) (w_log w ++ l) p.
Proof.
  intros Hw Hp i p. rewrite lookup_insert_Some. intros [[_ <-]|[_ Hi]]; [done|].
  apply (pc_ok_mono (w_clock w) (w_clock w) (w_log w)); [lia|set_solver|by apply (i_calls w Hw i)].
Qed.

Lemma calls_delete (w : World (D := D)) call l :
  Inv w -> forall i p, delete call (w_calls w) !! i = Some p -> pc_ok (w_clock w) (w_log w ++ l) p.
Proof.
  intros Hw i p. rewrite lookup_delete_Some. intros [_ Hi].
  apply (pc_ok_mono (w_clock w) (w_clock w) (w_log w)); [lia|set_solver|by apply (i_calls w Hw i)].
Qed.

Lemma entries_grow (l l' : list Event) h e : entry_ok l h e -> entry_ok (l ++ l') h e.
Proof. apply entry_ok_mono. set_solver. Qed.

Lemma quiet_facts l : Forall (fun e => quiet e = true) l ->
  (forall e c, e ∈ l -> clock_of e = Some c -> False) /\ Forall (fun e => stores e = false) l
  /\ forall h, log_ok event_ok h -> log_ok event_ok (h ++ l).
Proof.
  intros Hq. split; [|split].
  - rewrite Forall_forall in Hq. intros e c He%Hq. by destruct e.
  - apply (Forall_impl _ _ _ Hq). by intros [].
  - intros h Hh. apply log_ok_neutral; [done|]. rewrite Forall_forall in Hq. intros e h' He. by apply quiet_ok, Hq.
Qed.

(** A suspended call gives way to another, with a quiet log. *)
Lemma inv_suspend call pc w l :
  Inv w -> Forall (fun e => quiet e = true) l -> pc_ok (w_clock w) (w_log w ++ l) pc -> Inv (suspend call pc (add_log l w)).
Proof.
  intros Hw (Hc & Hs & Hl)%quiet_facts Hp. apply (ver_advance w (w_ver w) _ (w_uses w) (w_hashing w) l); try done; [apply Hw| | |by apply Hl, Hw|].
  - intros h e He. by apply entries_grow, (i_cache w Hw).
  - exact (calls_insert w call pc l Hw Hp).
  - intros e c He Hce. by destruct (Hc e c).
Qed.

Lemma inv_suspend_only call pc w : Inv w -> pc_ok (w_clock w) (w_log w) pc -> Inv (suspend call pc w).
Proof.
  intros Hw Hp. assert (Inv (suspend call pc (add_log [] w))) as Hi by (apply inv_suspend; [done|done|by rewrite app_nil_r]).
  unfold suspend, add_log in *. cbn in *. by rewrite app_nil_r in Hi.
Qed.

Lemma ver_drop call w l : Inv w -> Forall (fun e => quiet e = true) l -> Inv (add_log l (drop_call call w)).
Proof.
  intros Hw (Hc & Hs & Hl)%quiet_facts. apply (ver_advance w (w_ver w) _ (w_uses w) (w_hashing w) l); try done; [apply Hw| | |by apply Hl, Hw|].
  - intros h e He. by apply entries_grow, (i_cache w Hw).
  - exact (calls_delete w call l Hw).
  - intros e c He Hce. by destruct (Hc e c).
Qed.

(** A changed verifier whose cache only lost entries. *)
Lemma inv_ver v w :
  Inv w -> jwf (v_cache v) -> (forall h e, jget h (v_cache v) = Some e -> entry_ok (w_log w) h e) -> Inv (ws_ver v w).
Proof. intros Hw Hk Hc. by destruct Hw; split. Qed.

Lemma settle_inv call now hash v n audits w :
  Inv w -> jwf (v_cache v) -> (forall h e, jget h (v_cache v) = Some e -> entry_ok (w_log w) h e) ->
  match n with
  | Go pc => pc_ok (w_clock w) (w_log w) pc
  | Finish (VOk token) => exists h, hash = Some h /\ justified (w_log w) now h token
  | Finish _ => True
  end -> Inv (settle_verify call now hash v n audits w).
Proof.
  intros Hw Hk Hc Hn. set (l := map (fun a => EAudit a.1.1 a.1.2 a.2) audits).
  assert (Forall (fun e => quiet e = true) l) as Hq by (apply Forall_map, Forall_true; done).
  destruct n as [pc|r]; cbn [settle_verify]; fold l.
  - apply (inv_suspend call pc (ws_ver v w) l); [by apply inv_ver|done|].
    apply (pc_ok_mono (w_clock w) (w_clock w) (w_log w)); [lia|set_solver|done].
  - destruct (quiet_facts l Hq) as (Hc1 & Hs1 & Hl1). unfold settle_verify. fold l.
    change (Inv (mkWorld (leave v) (w_store w) (w_clock w) (delete call (w_calls w)) (w_uses w) (w_hashing w) ((w_log w ++ l) ++ [EReturn call now hash r]))).
    rewrite <- app_assoc. apply (ver_advance w); [done|done| | | | |].
    + intros h e He. by apply entries_grow, Hc.
    + by apply calls_delete.
    + rewrite app_assoc. apply log_ok_snoc; [by apply Hl1, Hw|]. split; [done|]. destruct r; [|by destruct hash].
      destruct Hn as (h & -> & Hj). apply (justified_mono (w_log w)); [set_solver|done].
    + intros e c [He| ->%list_elem_of_singleton]%elem_of_app Hce; [by destruct (Hc1 e c)|done].
    + apply Forall_app. split; [done|by constructor].
Qed.

Lemma reject_inv call w : Inv w -> Inv (reject_verify call w).
Proof.
  intros Hw. unfold reject_verify. apply ver_drop; [|by constructor]. apply inv_ver; [done|apply Hw|apply (i_cache w Hw)].
Qed.

(** ** The pieces of [verify] *)

Lemma noteIpFailure_cache ip now v : v_cache (noteIpFailure o ip now v) = v_cache v.
Proof. destruct ip as [ip|]; [|done]. unfold noteIpFailure, boundIpMaps. by destruct (_ >=? _). Qed.
Lemma noteTokenFailure_cache id now v : v_cache (noteTokenFailure o id now v) = v_cache v.
Proof. unfold noteTokenFailure. by destruct (_ >=? _). Qed.

Lemma verify_begin_spec now raw ip v v' n :
  verify_begin o now raw ip v = (v', n) ->
  v_cache v' = v_cache v
  /\ match n with
     | Go pc => exists t, pc = PHmac now ip raw (pt_env t) /\ parseToken raw (vo_parse o) = Ok t
     | Finish (VOk _) => False
     | Finish _ => True
     end.
Proof.
  unfold verify_begin. intros E. repeat case_match; simplify_eq; rewrite ?noteIpFailure_cache; (split; [done|]); try done; by eexists.
Qed.

Lemma num_le_NFin z now : num_le (NFin z) now = false -> now < z.
Proof. cbn. lia. Qed.

(** A cache hit is as good as the read that filled the entry. *)
Lemma hit_justified l h e now :
  entry_ok l h e ->
  negb (bool_decide (LruCache.le_expiresAt e = NPosInf)) && num_le (LruCache.le_expiresAt e) now = false ->
  match ca_expiresAt (LruCache.le_value e) with Some x => num_le x now | None => false end = false ->
  justified l now h (ca_token (LruCache.le_value e)).
Proof.
  intros (r & clock & n & Hl & Ex & Ee) Hlive Hexp. exists r, clock, n. split; [done|].
  rewrite Ex in Hexp. rewrite Ee in Hlive. split.
  - unfold unexpired. destruct (ar_expiresAt r) as [[x|]|]; try done. by apply num_le_NFin.
  - intros Hr. right. destruct (ar_expiresAt r) as [[x|]|]; try done; cbn in Hlive; rewrite bool_decide_false in Hlive by done; cbn in Hlive; lia.
Qed.

Lemma verify_hashed_spec l c v v' n :
  jwf (v_cache v) -> (forall h e, jget h (v_cache v) = Some e -> entry_ok l h e) -> verify_hashed o c v = (v', n) ->
  jwf (v_cache v') /\ (forall h e, jget h (v_cache v') = Some e -> entry_ok l h e)
  /\ match n with
     | Go pc => pc = PFind c
     | Finish (VOk token) => justified l (cx_now c) (cx_hash c) token
     | Finish _ => True
     end.
Proof.
  intros Hk Hc. unfold verify_hashed. destruct (LruCache.get _ _ _) as [cached cache] eqn:Eg.
  destruct (lru_get_bounded _ _ _ _ _ Hk Eg) as (Hk' & _ & Hsub).
  assert (forall h e, jget h cache = Some e -> entry_ok l h e) as Hc' by (intros h e He; by apply Hc, Hsub).
  destruct cached as [auth|]; [|by intros [= <- <-]].
  destruct (match ca_expiresAt auth with Some _ => _ | None => _ end) eqn:Ex; intros [= <- <-]; rewrite ?noteIpFailure_cache.
  - split; [by apply jdel_wf|]. split; [|done]. intros h e. cbn. rewrite jget_jdel. case_decide; [done|apply Hc'].
  - split; [done|]. split; [done|]. unfold LruCache.get in Eg. destruct (jget (cx_hash c) (v_cache v)) as [e|] eqn:Ee; [|done].
    destruct (negb _ && _) eqn:El; [done|]. injection Eg as <- _. by apply hit_justified; [apply Hc| |].
Qed.

Lemma verify_found_spec c id v v' n audits :
  verify_found o c id v = (v', n, audits) ->
  v_cache v' = v_cache v
  /\ match n with
     | Go pc => exists i, id = Some i /\ pc = PGet c i
     | Finish (VOk _) => False
     | Finish _ => True
     end.
Proof.
  unfold verify_found. intros E. repeat case_match; simplify_eq; rewrite ?noteIpFailure_cache; (split; [done|]); try done; by eexists.
Qed.

Lemma verify_record_spec l c id r v v' n audits clock :
  jwf (v_cache v) -> (forall h e, jget h (v_cache v) = Some e -> entry_ok l h e) -> pc_ok clock l (PGot c id r) ->
  verify_record o c id r v = (v', n, audits) ->
  jwf (v_cache v') /\ (forall h e, jget h (v_cache v') = Some e -> entry_ok l h e)
  /\ match n with
     | Go _ => False
     | Finish (VOk token) => justified l (cx_now c) (cx_hash c) token
     | Finish _ => True
     end.
Proof.
  intros Hk Hc Hp. unfold verify_record. destruct r as [r|]; [|intros [= <- <- <-]; by rewrite noteIpFailure_cache].
  destruct Hp as ((Hnow & Hname) & Hfound & Hid & a & Ha & Hread).
  case_bool_decide as Er; [intros [= <- <- <-]; by rewrite noteIpFailure_cache, noteTokenFailure_cache|].
  destruct (match Date_parse <$> ar_expiresAt r with Some _ => _ | None => _ end) eqn:Ex;
    [intros [= <- <- <-]; by rewrite noteIpFailure_cache, noteTokenFailure_cache|].
  intros [= <- <- <-]. cbn [v_cache set_cache]. destruct (lru_set_bounded (cacheCapacity o) (cx_hash c)
    (mkCachedAuth (recordToVerified r (cx_env c) (Date_parse <$> ar_expiresAt r)) (Date_parse <$> ar_expiresAt r))
    (Some (computeCacheTtlMs (cx_now c) (Date_parse <$> ar_expiresAt r) (cacheTtlMaxMs o)))
    (cx_now c) (v_cache v) Hk) as (Hk' & _ & Hsub).
  assert (live_read l (cx_now c) (cx_hash c) (recordToVerified r (cx_env c) (Date_parse <$> ar_expiresAt r)) r a) as Hl.
  { unfold live_read. rewrite Hid. split; [done|]. split; [done|]. split; [done|]. split; [done|].
    by exists (cx_env c). }
  split; [exact Hk'|]. split.
  - intros h e He. destruct (Hsub h e He) as [Hold|[-> ->]]; [by apply Hc|]. exists r, a, (cx_now c). done.
  - exists r, a, (cx_now c). split; [done|]. split; [|by left].
    unfold unexpired. destruct (ar_expiresAt r) as [[x|]|]; try done. cbn in Ex. lia.
Qed.

(** ** Accesses to the store *)

Lemma store_event_ok w e :
  Inv w -> clock_of e = Some (w_clock w) ->
  match e with ERead _ _ id r => ar_id r = id /\ (revoked_now id (w_log w) = true -> ar_revokedAt r <> None) | _ => True end ->
  event_ok (w_log w) e.
Proof.
  intros Hw Hc He. split; [|by destruct e].
  intros e' c c' Hin Hc' Hce. rewrite Hc in Hce. injection Hce as <-. by apply (i_clock w Hw e').
Qed.

Lemma inv_read call pc w e :
  Inv w -> clock_of e = Some (w_clock w) -> stores e = false -> event_ok (w_log w) e ->
  pc_ok (w_clock w) (w_log w ++ [e]) pc -> Inv (suspend call pc (add_log [e] w)).
Proof.
  intros Hw Hc Hs He Hp. apply (ver_advance w (w_ver w) _ (w_uses w) (w_hashing w) [e]); [done|apply Hw| | | | |].
  - intros h x Hx. by apply entries_grow, (i_cache w Hw).
  - exact (calls_insert w call pc [e] Hw Hp).
  - apply log_ok_snoc; [apply Hw|done].
  - intros e' c ->%list_elem_of_singleton Hce. rewrite Hc in Hce. injection Hce as <-. done.
  - by constructor.
Qed.

(** A write, with the event that records it. *)
Lemma inv_write w d e :
  Inv w -> ts_wf d -> clock_of e = Some (w_clock w) -> match e with ERead _ _ _ _ => False | _ => True end ->
  (forall id r, revoked_step id (revoked_now id (w_log w)) e = true -> ts_get id d = Ok (Some r) -> ar_revokedAt r <> None) ->
  Inv (add_log [e] (ws_store d w)).
Proof.
  intros Hw Hd Hc He Hr. split; cbn [w_store w_clock w_calls w_ver w_log add_log ws_store]; try apply Hw; try done.
  - intros call pc Hp. apply (pc_ok_mono (w_clock w) (w_clock w) (w_log w)); [lia|set_solver|by apply (i_calls w Hw call)].
  - intros h x Hx. by apply entries_grow, (i_cache w Hw).
  - apply log_ok_snoc; [apply Hw|]. apply store_event_ok; [done|done|by destruct e].
  - intros e' c [Hin| ->%list_elem_of_singleton]%elem_of_app Hce; [by apply (i_clock w Hw e')|]. rewrite Hc in Hce. injection Hce as <-. done.
  - intros id r. rewrite revoked_now_snoc. apply Hr.
Qed.

Lemma inv_put w r d : Inv w -> ts_put r (w_store w) = Some d -> Inv (add_log [EPut (w_clock w) r] (ws_store d w)).
Proof.
  intros Hw Hp. apply inv_write; [done|by eapply put_wf; [apply Hw|]|done|done|].
  intros id x. cbn. case_decide as Hid; [done|]. rewrite (put_other _ _ _ _ (i_wf w Hw) Hp) by congruence. apply (i_revoked w Hw).
Qed.

Lemma inv_store_revoke w id ms : Inv w -> Inv (add_log [ERevoke (w_clock w) id ms] (ws_store (ts_revoke id (At ms) (w_store w)) w)).
Proof.
  intros Hw. apply inv_write; [done|by apply revoke_wf, Hw|done|done|].
  intros id' r. cbn. case_decide as Hid.
  - subst id'. intros _. destruct (get_total (w_store w) id (i_wf w Hw)) as [x Hx].
    rewrite (revoke_get _ _ ms _ (i_wf w Hw) Hx). destruct x; [|done]. by intros [= <-].
  - rewrite revoke_other by (done || apply Hw). apply (i_revoked w Hw).
Qed.

Lemma inv_use w id t rest : Inv w -> Inv (ws_uses rest (ws_store (ts_recordUse id (At t) (w_store w)) w)).
Proof.
  intros Hw. split; cbn [w_store w_clock w_calls w_ver w_log ws_store ws_uses]; try apply Hw; [by apply use_wf, Hw|].
  intros id' r Hrev. destruct (decide (id' = id)) as [->|Hne].
  - destruct (get_total (w_store w) id (i_wf w Hw)) as [x Hx]. rewrite (use_get _ _ t _ (i_wf w Hw) Hx).
    destruct x as [x|]; [|done]. intros [= <-]. by apply (i_revoked w Hw id x).
  - rewrite use_other by (done || apply Hw). by apply (i_revoked w Hw).
Qed.

(** ** Every step keeps the invariant *)

Lemma inv_invalidate arg w : Inv w -> Inv (invalidate arg w).
Proof.
  intros Hw. unfold invalidate. destruct (is_hash arg); [|by destruct Hw; split].
  apply inv_ver; [done|by apply jdel_wf, Hw|]. cbn. intros h e. rewrite jget_jdel. case_decide; [done|apply (i_cache w Hw)].
Qed.

Lemma invalidate_same arg (w : World (D := D)) :
  w_clock (invalidate arg w) = w_clock w /\ w_log (invalidate arg w) = w_log w.
Proof. unfold invalidate. by destruct (is_hash arg). Qed.

Lemma inv_uses u w : Inv w -> Inv (ws_uses u w).
Proof. intros Hw. by destruct Hw; split. Qed.

Lemma run_inv call ok pc w : Inv w -> w_calls w !! call = Some pc -> Inv (run call ok pc w).
Proof.
  intros Hw Hcall. pose proof (i_calls w Hw call pc Hcall) as Hpc. unfold run, Verifier.run.
  assert (forall l, Forall (fun e => quiet e = true) l -> Inv (add_log l (drop_call call w))) as Hdrop by (intros; by apply ver_drop).
  destruct pc; cbn in Hpc.
  - destruct (negb _); [by apply Hdrop; constructor|]. destruct (_ >=? _); [by apply Hdrop; constructor|].
    destruct (verify_begin _ _ _ _ _) as [v' n] eqn:E. apply verify_begin_spec in E as [Ec Hn].
    apply settle_inv; [done|rewrite Ec; apply Hw|rewrite Ec; apply (i_cache w Hw)|].
    destruct n as [p|[]]; try done. destruct Hn as (t & -> & Ht). cbn. split; [lia|by exists t].
  - destruct ok; [|by apply reject_inv]. destruct (verify_hashed _ _ _) as [v' n] eqn:E.
    apply (verify_hashed_spec (w_log w)) in E as (Hk & Hc & Hn); [|apply Hw|apply (i_cache w Hw)].
    apply settle_inv; [done|done|done|]. destruct Hpc as (Hle & t & Ht & He).
    destruct n as [p|[]]; [subst p; cbn; split; [done|by exists raw, t]|by eexists|done].
  - destruct ok; [|by apply reject_inv]. destruct (findTokenId _ _) as [[id|]|]; [| |by apply reject_inv].
    + apply inv_read; [done|done|done|by apply store_event_ok|]. split; [done|]. exists (w_clock w). set_solver.
    + apply (inv_suspend call (PFound c None) w []); [done|done|done].
  - destruct (verify_found _ _ _ _) as [[v' n] l] eqn:E. apply verify_found_spec in E as [Ec Hn].
    apply settle_inv; [done|rewrite Ec; apply Hw|rewrite Ec; apply (i_cache w Hw)|].
    destruct n as [p|[]]; try done. by destruct Hn as (i & -> & ->).
  - destruct ok; [|by apply reject_inv]. destruct (ts_get _ _) as [[r|]|] eqn:Eg; [| |by apply reject_inv].
    + pose proof (get_id _ _ _ (i_wf w Hw) Eg) as Hid. destruct Hpc as [Hctx [a Ha]].
      apply inv_read; [done|done|done| |].
      * apply store_event_ok; [done|done|]. split; [done|]. intros Hr. by apply (i_revoked w Hw tokenId).
      * split; [done|]. split; [exists a; set_solver|]. split; [done|]. exists (w_clock w). split; [apply Hctx|set_solver].
    + apply (inv_suspend call (PGot c tokenId None) w []); [done|done|]. rewrite app_nil_r. cbn. naive_solver.
  - destruct (verify_record _ _ _ _ _) as [[v' n] l] eqn:E.
    apply (verify_record_spec (w_log w) _ _ _ _ _ _ _ (w_clock w)) in E as (Hk & Hc & Hn); [|apply Hw|apply (i_cache w Hw)|exact Hpc].
    apply settle_inv; [by destruct n as [|[]]; [|apply inv_uses|]|done|by destruct n as [|[]]|].
    destruct n as [p|[]]; [done|by eexists|done].
  - destruct (if ok then _ else _) as [r|]; [|by apply Hdrop; constructor]. by apply inv_suspend_only.
  - unfold revoke_read. destruct existing as [r|]; [|by apply Hdrop; constructor].
    destruct (bool_decide _); [by apply Hdrop; constructor|]. apply inv_suspend; [|by constructor|done].
    destruct verifier; [by apply inv_invalidate|done].
  - destruct ok; [|by apply Hdrop; constructor]. apply inv_suspend_only; [by apply inv_store_revoke|done].
  - destruct (if ok then _ else _) as [r|]; [|by apply Hdrop; constructor]. by apply inv_suspend_only.
  - by apply Hdrop; constructor.
Qed.

Lemma exec_inv l w w' : Inv w -> exec l w = Some w' -> Inv w'.
Proof.
  intros Hw. destruct l; cbn [Verifier.exec]; intros E.
  - destruct (w_calls w !! call); [done|]. injection E as <-. by apply inv_suspend_only.
  - destruct (w_calls w !! call); [done|]. injection E as <-. by apply inv_suspend_only.
  - destruct (w_calls w !! call) as [pc|] eqn:Ec; [|done]. injection E as <-. by apply run_inv.
  - destruct (ts_put r (w_store w)) as [d|] eqn:Ep; [|done]. injection E as <-. by apply inv_put.
  - injection E as <-. by apply inv_store_revoke.
  - destruct (w_uses w) as [|[id t] rest]; [done|]. injection E as <-. destruct ok; [by apply inv_use|by apply inv_uses].
  - injection E as <-. by apply inv_invalidate.
  - destruct (w_hashing w); [done|]. injection E as <-.
    assert (Inv (ws_ver (invalidate_hash (hmac s) (w_ver w)) w)) as []; [|by split].
    apply inv_ver; [done|by apply jdel_wf, Hw|]. cbn. intros h e. rewrite jget_jdel. case_decide; [done|apply (i_cache w Hw)].
  - injection E as <-. by apply inv_ver; [|constructor|].
  - injection E as <-. by apply inv_ver; [|apply Hw|apply (i_cache w Hw)].
  - injection E as <-. by apply inv_ver; [|apply Hw|apply (i_cache w Hw)].
  - destruct (Z.leb_spec 0 ms); [|done]. injection E as <-. split; cbn [w_store w_clock w_calls w_ver w_log ws_clock]; try apply Hw.
    + intros call pc Hp. apply (pc_ok_mono (w_clock w) _ (w_log w)); [lia|done|by apply (i_calls w Hw call)].
    + intros e c He Hce. pose proof (i_clock w Hw e c He Hce). lia.
Qed.

Lemma reach_inv d now w : ts_wf d -> reach d now w -> Inv w.
Proof.
  intros Hd. apply reach_ind; [|apply exec_inv]. split; cbn; try done.
  - constructor.
  - intros e c He. by apply elem_of_nil in He.
Qed.


(** C25: Once a revocation of a token has reached the store, and as long as
    its record is not written anew, every verification begun
    [cacheTtlMaxMs] or more after that moment rejects the token, whatever
    cached it in the meantime, provided the expiry of its record, as read, is
    absent or can be read as a date. *)
Theorem revocation_takes_effect d t0 w l1 revoked id ms l2 call now hash token l3 :
  ts_wf d -> reach d t0 w -> 0 < cacheTtlMaxMs o ->
  w_log w = l1 ++ ERevoke revoked id ms :: l2 ++ EReturn call now hash (VOk token) :: l3 ->
  (forall c r, EPut c r ∈ l2 -> ar_id r <> id) ->
  (forall c h r, ERead c h id r ∈ w_log w -> readable (ar_expiresAt r) = true) ->
  vt_tokenId token = id -> now < revoked + cacheTtlMaxMs o.
Proof.
  intros Hd Hr Httl El Hput Hread Hid. pose proof (i_log w (reach_inv d t0 w Hd Hr)) as Hl. rewrite El in Hl, Hread.
  pose proof Hl as Hj. rewrite app_comm_cons, app_assoc in Hj. apply log_ok_split in Hj as [_ Hj].
  destruct hash as [h|]; [|done]. destruct Hj as (r & clock & n & (H1 & _ & H3 & H4 & env & _ & ->) & _ & Hwin).
  cbn in Hid. assert (now < clock + cacheTtlMaxMs o) as Hnow.
  { destruct Hwin as [->|?]; [|lia|lia]. rewrite Hid in H1. apply (Hread clock h).
    rewrite app_comm_cons, app_assoc. apply elem_of_app. by left. }
  apply elem_of_app in H1 as [H1|H1].
  - apply log_ok_split in Hl as [Hc _]. specialize (Hc _ revoked clock H1 eq_refl eq_refl). lia.
  - apply elem_of_cons in H1 as [?|H1]; [done|]. exfalso. apply list_elem_of_split in H1 as (a & b & E).
    rewrite E in Hl, Hput. assert (log_ok event_ok ((l1 ++ ERevoke revoked id ms :: a) ++ ERead clock h (ar_id r) r :: (b ++ EReturn call now (Some h) (VOk (recordToVerified r env (Date_parse <$> ar_expiresAt r))) :: l3))) as Hl'.
    { revert Hl. rewrite <- !app_assoc. done. }
    apply log_ok_split in Hl' as [_ [_ Hrev]]. apply Hrev; [|done]. rewrite Hid. apply revoked_now_after. intros c x Hx. apply (Hput c). set_solver.
Qed.
End Accept.

(** ** A run: revocation while a verification is under way *)

Module RevocationDemo.
Definition hash1 : string := "000102030405060708090a0b0c0d0e0f101112131415161718191a1b1c1d1e1f".
Definition hmac (s : string) : string := if decide (s = sample_token) then hash1 else "".
Definition opts : VerifierOptions := default_options None None.
Definition rec1 : AuthTokenRecord := mkToken "t1" hash1 None ["runs:read"] (At 0) None None None.
Definition rows : SqliteTokens.t := default [] (SqliteTokens.put rec1 []).

Definition go (call : nat) (n : nat) : list label := replicate n (LRun call true).

(** Verification 1 reads the record; revocation 2 invalidates the cache and
    revokes; verification 1 then caches what it had read. *)
Definition race : list label :=
  LVerify 1 sample_token None :: go 1 5 ++ LRevokeToken 2 "t1" true :: go 2 5 ++ go 1 1
  ++ LTick 59999 :: LVerify 3 sample_token None :: go 3 2.

Definition after (ls : list label) : World := default (start rows 1000) (exec_all hmac true opts ls (start rows 1000)).

Definition token1 : VerifiedToken := mkVerified "t1" None [mkScope "runs" "read" None "runs:read"] "live" None.

Lemma rows_wf : ts_wf rows.
Proof. eapply (put_wf [] rec1); [split; constructor|reflexivity]. Qed.

Lemma race_reach : reach hmac true opts rows 1000 (after race).
Proof. exists race. vm_compute. reflexivity. Qed.

Definition earlier : list Event :=
  [EFound 1000 hash1 "t1"; ERead 1000 hash1 "t1" rec1; EAudit ATokenRevoke 1000 "t1"].
Definition later : list Event :=
  [ERevokeReturn 2 (Some (toTokenMetadata (with_revokedAt (Some (At 1000)) rec1)));
   EAudit AGranted 1000 "t1"; EReturn 1 1000 (Some hash1) (VOk token1)].

Lemma race_log : w_log (after race) = earlier ++ ERevoke 1000 "t1" 1000 :: later ++ EReturn 3 60999 (Some hash1) (VOk token1) :: [].
Proof. vm_compute. reflexivity. Qed.

Lemma race_log_last : w_log (after race) = (earlier ++ ERevoke 1000 "t1" 1000 :: later) ++ EReturn 3 60999 (Some hash1) (VOk token1) :: [].
Proof. vm_compute. reflexivity. Qed.
End RevocationDemo.


Lemma revocation_takes_effect_witness : 60999 < 1000 + cacheTtlMaxMs RevocationDemo.opts.
Proof.
  apply (revocation_takes_effect RevocationDemo.hmac true RevocationDemo.opts RevocationDemo.rows 1000
    (RevocationDemo.after RevocationDemo.race) RevocationDemo.earlier 1000 "t1" 1000 RevocationDemo.later 3 60999 (Some RevocationDemo.hash1) RevocationDemo.token1 []
    RevocationDemo.rows_wf RevocationDemo.race_reach eq_refl RevocationDemo.race_log); [| |reflexivity].
  - intros c r Hin. exfalso. repeat (apply elem_of_cons in Hin as [?|Hin]; [discriminate|]). by apply elem_of_nil in Hin.
  - intros c h r. rewrite RevocationDemo.race_log. intros Hin.
    repeat (apply elem_of_cons in Hin as [E|Hin]; [try discriminate; injection E as _ _ ->; reflexivity|]). by apply elem_of_nil in Hin.
Defined.

(** A token revoked with its verifier at hand is still accepted almost a
    minute after [revokeToken] returned. *)
Example revoked_token_is_cached :
  exists l, w_log (RevocationDemo.after RevocationDemo.race)
    = l ++ [EReturn 3 60999 (Some RevocationDemo.hash1) (VOk RevocationDemo.token1)]
  /\ ERevokeReturn 2 (Some (toTokenMetadata (with_revokedAt (Some (At 1000)) RevocationDemo.rec1))) ∈ l.
Proof.
  exists (RevocationDemo.earlier ++ ERevoke 1000 "t1" 1000 :: RevocationDemo.later). split; [apply RevocationDemo.race_log_last|].
  apply elem_of_app. right. right. left.
Qed.

(** One millisecond later it is rejected. *)
Example rejected_when_the_entry_expires :
  last (w_log (RevocationDemo.after (RevocationDemo.race ++ LTick 1 :: LVerify 4 sample_token None :: RevocationDemo.go 4 6)))
  = Some (EReturn 4 61000 (Some RevocationDemo.hash1) (VFail Revoked None)).
Proof. vm_compute. reflexivity. Qed.

(** A record whose expiry cannot be read is cached without end: the entry's
    deadline is [NaN], so it outlives any revocation that does not invalidate
    it. *)
Example unreadable_expiry_never_leaves_cache now later r env hash :
  ar_expiresAt r = Some (Unreadable "soon") ->
  let auth := mkCachedAuth (recordToVerified r env (Some NNaN)) (Some NNaN) in
  let ttl := computeCacheTtlMs now (Date_parse <$> ar_expiresAt r) 60000 in
  (LruCache.get hash later (LruCache.set 1024 hash auth (Some ttl) now [])).1 = Some auth.
Proof.
  intros E auth ttl. unfold ttl. rewrite E. unfold LruCache.set, LruCache.get. cbn. rewrite decide_True by done. cbn. by case_bool_decide.
Qed.
