(* ===== verification/TokenCrud.v ===== *)
(** * Issuing, rotating and re-keying tokens

    The library functions of [packages/security/src/auth/crud.ts] over any
    token store, in a state-and-error monad: an exception leaves the store as
    the statements before it left it.  A call runs at one instant [now] and
    alone; [revokeToken], which races with verification, is in [Verifier].

    Random bytes and UUIDs come from two oracles, drawn in order.  [new
    Date(x).toISOString()] throws outside the range of dates. *)

From S2P Require Import Prelude JsValue Subjects Tokens AuthTokens Verifier.

Local Open Scope string_scope.
Local Open Scope list_scope.
Local Open Scope Z_scope.

Record CreateTokenOptions := mkCreate {
  co_env : string;
  co_scopes : list string;
  co_label : option string;
  co_prefix : option string;
  co_expiresInMs : option num;
  co_expiresAt : option num;
  co_idOverride : option string;
}.

Inductive crud_error :=
  | ScopeError (e : ScopeParseError)
  | WeakPepperError
  | TokenRangeError (e : range_error)
  | ExpiryRangeError
  | InvalidDate
  | StoreRejected
  | UnknownId (id : string)
  | Diverged.

(** [8.64e15] milliseconds around the epoch *)
Definition MAX_DATE_MS : Z := 8640000000000000.

Definition toISOString (ms : num) : result crud_error stamp :=
  match ms with
  | NFin z => if (- MAX_DATE_MS <=? z) && (z <=? MAX_DATE_MS) then Ok (At z) else Err InvalidDate
  | _ => Err InvalidDate
  end.

Definition resolveExpiresAt (opts : CreateTokenOptions) (now : Z) : result crud_error (option stamp) :=
  match co_expiresAt opts, co_expiresInMs opts with
  | Some at_, _ => match toISOString at_ with Ok s => Ok (Some s) | Err e => Err e end
  | None, Some ms =>
      if negb (is_finite ms) || num_le ms 0 then Err ExpiryRangeError
      else match toISOString (num_add now ms) with Ok s => Ok (Some s) | Err e => Err e end
  | None, None => Ok None
  end.

Definition inferEnvFromExisting (r : AuthTokenRecord) : string := "live".

Section Crud.
Context {D : Type} `{AuthTokenStore D}.
Context (hmac : string -> string) (pepper_ok : bool) (randomBytes : nat -> list Z) (randomUUID : nat -> string).

(** ** The monad *)

Record Cs := mkCs {
  cs_store : D;
  cs_draws : nat;                                  (** random values drawn so far *)
  cs_audit : list (audit_action * Z * string);
  cs_invalidated : list string;                    (** cache entries dropped through the verifier *)
}.

Definition M (A : Type) : Type := Cs -> Cs * result crud_error A.
Definition ret {A} (a : A) : M A := fun s => (s, Ok a).
Definition throw {A} (e : crud_error) : M A := fun s => (s, Err e).
Definition bind {A B} (m : M A) (f : A -> M B) : M B :=
  fun s => match m s with (s', Ok a) => f a s' | (s', Err e) => (s', Err e) end.
Definition lift {A} (r : result crud_error A) : M A := fun s => (s, r).

Notation "x <~ m ;; k" := (bind m (fun x => k)) (at level 100, m at next level, right associativity).

Definition read {A} (f : D -> result unit A) : M A :=
  fun s => (s, match f (cs_store s) with Ok a => Ok a | Err _ => Err StoreRejected end).
Definition put (r : AuthTokenRecord) : M unit :=
  fun s => match ts_put r (cs_store s) with
           | Some d => (mkCs d (cs_draws s) (cs_audit s) (cs_invalidated s), Ok tt)
           | None => (s, Err StoreRejected)
           end.
Definition revoke (id : string) (ts : stamp) : M unit :=
  fun s => (mkCs (ts_revoke id ts (cs_store s)) (cs_draws s) (cs_audit s) (cs_invalidated s), Ok tt).
Definition audit (a : audit_action) (ts : Z) (target : string) : M unit :=
  fun s => (mkCs (cs_store s) (cs_draws s) (cs_audit s ++ [(a, ts, target)]) (cs_invalidated s), Ok tt).
Definition invalidate_in (verifier : bool) (hashHex : string) : M unit :=
  fun s => (mkCs (cs_store s) (cs_draws s) (cs_audit s) (cs_invalidated s ++ (if verifier then [hashHex] else [])), Ok tt).
Definition draw : M nat :=
  fun s => (mkCs (cs_store s) (S (cs_draws s)) (cs_audit s) (cs_invalidated s), Ok (cs_draws s)).

(** ** The operations *)

Definition lift_generate (r : option (result range_error string)) : result crud_error string :=
  match r with
  | Some (Ok raw) => Ok raw
  | Some (Err e) => Err (TokenRangeError e)
  | None => Err Diverged
  end.

Definition createToken (opts : CreateTokenOptions) (now : Z) : M (string * AuthTokenRecord) :=
  match validateScopeSet (co_scopes opts) with
  | first :: _ => throw (ScopeError first)
  | [] =>
      if negb pepper_ok then throw WeakPepperError
      else
        n <~ draw;;
        raw <~ lift (lift_generate (generateRawToken (mkGenerate (co_prefix opts) (co_env opts)) (randomBytes n)));;
        let id := default (randomUUID n) (co_idOverride opts) in
        createdAt <~ lift (toISOString (NFin now));;
        expiresAt <~ lift (resolveExpiresAt opts now);;
        let record := mkToken id (hmac raw) (co_label opts) (co_scopes opts) createdAt expiresAt None None in
        _ <~ put record;;
        _ <~ audit ATokenCreate now id;;
        ret (raw, record)
  end.

Definition listTokens (includeRevoked : bool) : M (list TokenMetadata) :=
  records <~ read ts_list;;
  ret (map toTokenMetadata
         (if includeRevoked then records else List.filter (fun r => bool_decide (ar_revokedAt r = None)) records)).

Record RotateOptions := mkRotate {
  ro_id : string;
  ro_env : option string;
  ro_scopesOverride : option (list string);
  ro_label : option string;
  ro_prefix : option string;
  ro_expiresInMs : option num;
  ro_expiresAt : option num;
  ro_verifier : bool;
}.

Definition rotateToken (opts : RotateOptions) (now : Z) : M (TokenMetadata * (string * AuthTokenRecord)) :=
  existing <~ read (ts_get (ro_id opts));;
  match existing with
  | None => throw (UnknownId (ro_id opts))
  | Some existing =>
      let scopes := default (ar_scopes existing) (ro_scopesOverride opts) in
      let env := default (inferEnvFromExisting existing) (ro_env opts) in
      ts <~ lift (toISOString (NFin now));;
      _ <~ revoke (ro_id opts) ts;;
      _ <~ invalidate_in (ro_verifier opts) (ar_hashHex existing);;
      next <~ createToken (mkCreate env scopes (ro_label opts) (ro_prefix opts) (ro_expiresInMs opts) (ro_expiresAt opts) None) now;;
      refreshed <~ read (ts_get (ro_id opts));;
      _ <~ audit ATokenRotate now (ro_id opts);;
      ret (toTokenMetadata (default existing refreshed), next)
  end.

Fixpoint rekey_loop (env : string) (prefix : option string) (now : Z) (records : list AuthTokenRecord)
  (out : list (string * (string * AuthTokenRecord))) : M (list (string * (string * AuthTokenRecord))) :=
  match records with
  | [] => ret out
  | r :: rest =>
      if bool_decide (ar_revokedAt r <> None) then rekey_loop env prefix now rest out
      else
        next <~ rotateToken (mkRotate (ar_id r) (Some env) None None prefix None None false) now;;
        rekey_loop env prefix now rest (jset (ar_id r) next.2 out)
  end.

Definition rekeyTokens (env : string) (prefix : option string) (now : Z) : M (list (string * (string * AuthTokenRecord))) :=
  records <~ read ts_list;;
  out <~ rekey_loop env prefix now records [];;
  _ <~ audit ATokenRekey now "all";;
  ret out.
End Crud.
