(* ===== verification/TokenLife.v ===== *)
(** * The life of a token

    Issuing, verifying and revoking composed: a token issued by [createToken]
    verifies with its scopes until it is revoked; rotation revokes the old
    token before it issues the new one. *)

From S2P Require Import Prelude JsValue Subjects Tokens TokenFacts TokenProps AuthTokens Verifier VerifierProps TokenCrud.
From stdpp Require Import gmap.

Local Open Scope string_scope.
Local Open Scope list_scope.
Local Open Scope Z_scope.

(** ** Scopes survive *)

Lemma parseScope_raw s p : parseScope s = Ok p -> sp_raw p = s.
Proof. unfold parseScope. intros E. by repeat case_match; simplify_eq. Qed.

Lemma valid_scopes_parse scopes : validateScopeSet scopes = [] -> map sp_raw (omap tryParseScope scopes) = scopes.
Proof.
  induction scopes as [|s l IH]; [done|]. unfold validateScopeSet, tryParseScope in *. cbn.
  destruct (parseScope s) as [p|e] eqn:E; [|done]. intros Hl. cbn. by rewrite (parseScope_raw _ _ E), IH.
Qed.

Section Life.
Context {D : Type} {ops : AuthTokenStore D} {laws : AuthTokenStoreSpec D}.
Context (hmac : string -> string) (o : VerifierOptions).
Notation exec_all := (exec_all hmac true o).

(** The only record found under a hash. *)
Definition owns (id h : string) (d : D) : Prop :=
  (exists r, ts_get id d = Ok (Some r) /\ ar_hashHex r = h)
  /\ forall r, ts_get (ar_id r) d = Ok (Some r) -> timingSafeEqualHex (ar_hashHex r) h = true -> ar_id r = id.

Lemma findTokenId_owner id h d : ts_wf d -> timingSafeEqualHex h h = true -> owns id h d -> findTokenId h d = Ok (Some id).
Proof.
  intros Hd Hh [(r & Hr & Er) Hu]. pose proof (get_id _ _ _ Hd Hr) as Hid. subst id. unfold findTokenId.
  destruct ts_getByHash as [f|] eqn:Ef.
  - pose proof (byHash_stored d f h Hd Ef) as Hs. destruct (f h d) as [[r'|]|]; [|by destruct (Hs r)|done].
    destruct Hs as [Hg Eh]. rewrite Eh, Hh. by rewrite (Hu r' Hg) by by rewrite Eh.
  - destruct (list_stored d Hd) as (l & -> & Hl & _). destruct (find _ l) as [r'|] eqn:E.
    + apply find_some in E as [Hin Ht]. apply list_elem_of_In, Hl in Hin. cbn. by rewrite (Hu r').
    + apply Hl in Hr. apply list_elem_of_In in Hr. apply (find_none _ _ E) in Hr. rewrite Er in Hr. congruence.
Qed.

(** ** One verification, undisturbed *)

Definition pieces (call n : nat) : list label := replicate n (LRun call true).

Definition idle (c : nat) (h id : string) (v : TokenVerifier) (calls : gmap nat Pc) : Prop :=
  calls !! c = None /\ jget h (v_cache v) = None /\ id ∉ v_tokenLockouts v /\ 0 <= v_inFlight v < maxConcurrent o.

Lemma leave_enter v : 0 <= v_inFlight v -> leave (set_inFlight (v_inFlight v + 1) v) = v.
Proof. intros Hv. destruct v as [a b c d e n]. unfold leave, set_inFlight. cbn in *. f_equal. lia. Qed.

Lemma exec_run c pc w rest :
  w_calls w !! c = Some pc -> exec_all (LRun c true :: rest) w = exec_all rest (run hmac true o c true pc w).
Proof. intros E. cbn [Verifier.exec_all exec]. by rewrite E. Qed.

Lemma exec_verify c raw ip w rest :
  w_calls w !! c = None -> exec_all (LVerify c raw ip :: rest) w = exec_all rest (suspend c (PPepper raw ip) w).
Proof. intros E. cbn [Verifier.exec_all exec]. by rewrite E. Qed.

Lemma exec_revoke c id b w rest :
  w_calls w !! c = None -> exec_all (LRevokeToken c id b :: rest) w = exec_all rest (suspend c (RGet id b) w).
Proof. intros E. cbn [Verifier.exec_all exec]. by rewrite E. Qed.

(** The next piece of a call whose program counter was just written. *)
Ltac next_piece :=
  erewrite exec_run by (cbn [w_calls suspend ws_calls]; apply lookup_insert_eq);
  cbn [run w_ver w_clock w_store w_calls w_uses w_hashing w_log suspend ws_calls andb negb].

Ltac settle_piece :=
  unfold settle_verify, suspend, add_log, ws_ver, ws_calls, ws_uses, ws_store;
  cbn [w_ver w_clock w_store w_calls w_uses w_hashing w_log map app]; rewrite ?insert_insert_eq, ?app_nil_r.

Lemma verify_record_path c raw d clock v calls uses hashing log t id r :
  parseToken raw (vo_parse o) = Ok t -> findTokenId (hmac raw) d = Ok (Some id) -> ts_get id d = Ok (Some r) ->
  idle c (hmac raw) id v calls ->
  let ctx := mkCtx clock None (pt_env t) (hmac raw) in
  let v1 := set_inFlight (v_inFlight v + 1) v in
  exec_all (LVerify c raw None :: pieces c 6) (mkWorld v d clock calls uses hashing log)
  = let '(v', n, audits) := verify_record o ctx id (Some r) v1 in
    let uses' := match n with Finish (VOk _) => uses ++ [(id, clock)] | _ => uses end in
    Some (settle_verify c clock (Some (hmac raw)) v' n audits
      (mkWorld v1 d clock (<[c := PGot ctx id (Some r)]> calls) uses' hashing
        ((log ++ [EFound clock (hmac raw) id]) ++ [ERead clock (hmac raw) id r]))).
Proof.
  intros Hp Hf Hg (Hc & Hcache & Hlock & Hn) ctx v1. unfold pieces. cbn [replicate].
  rewrite exec_verify by exact Hc. next_piece.
  destruct (Z.geb_spec (v_inFlight v) (maxConcurrent o)); [lia|]. unfold verify_begin. cbn [mbind option_bind]. rewrite Hp. settle_piece. fold v1.
  next_piece. fold ctx. unfold verify_hashed, LruCache.get. cbn [cx_hash cx_now ctx]. replace (jget (hmac raw) (v_cache v1)) with (@None (LruCache.CacheEntry CachedAuth)) by (symmetry; exact Hcache).
  settle_piece. replace (set_cache (v_cache v1) v1) with v1 by by destruct v1.
  next_piece. cbn [cx_hash ctx]. rewrite Hf. settle_piece.
  next_piece. unfold verify_found. rewrite bool_decide_false by exact Hlock. settle_piece.
  next_piece. rewrite Hg. settle_piece.
  next_piece. destruct (verify_record o ctx id (Some r) v1) as [[v' n] audits]. cbn [Verifier.exec_all].
  by destruct n as [|[]].
Qed.

Definition not_expired (now : Z) (e : option stamp) : Prop :=
  match e with Some (At ms) => now < ms | Some (Unreadable _) => False | None => True end.

Lemma verify_accepts c raw d clock v calls uses hashing log t id r :
  parseToken raw (vo_parse o) = Ok t -> findTokenId (hmac raw) d = Ok (Some id) -> ts_get id d = Ok (Some r) ->
  idle c (hmac raw) id v calls -> ar_revokedAt r = None -> not_expired clock (ar_expiresAt r) ->
  let exp := Date_parse <$> ar_expiresAt r in
  let token := recordToVerified r (pt_env t) exp in
  let cache := LruCache.set (cacheCapacity o) (hmac raw) (mkCachedAuth token exp)
                 (Some (computeCacheTtlMs clock exp (cacheTtlMaxMs o))) clock (v_cache v) in
  exec_all (LVerify c raw None :: pieces c 6) (mkWorld v d clock calls uses hashing log)
  = Some (mkWorld (set_cache cache v) d clock calls (uses ++ [(id, clock)]) hashing
      (log ++ [EFound clock (hmac raw) id; ERead clock (hmac raw) id r; EAudit AGranted clock id;
               EReturn c clock (Some (hmac raw)) (VOk token)])).
Proof.
  intros Hp Hf Hg Hi Hr He exp token cache. rewrite (verify_record_path _ _ _ _ _ _ _ _ _ _ _ _ Hp Hf Hg Hi).
  unfold verify_record. rewrite Hr, bool_decide_false by (intros []; done). cbn [cx_now cx_hash cx_env cx_ip].
  replace (match Date_parse <$> ar_expiresAt r with Some e => is_finite e && num_le e clock | None => false end) with false.
  2: { destruct (ar_expiresAt r) as [[ms|]|]; try done. cbn in *. lia. }
  unfold settle_verify, add_log, drop_call, ws_calls, ws_ver. cbn [w_ver w_clock w_store w_calls w_uses w_hashing w_log map app fst snd].
  rewrite delete_insert_eq, delete_id, <- !app_assoc by apply Hi. do 2 f_equal.
  destruct Hi as (_ & _ & _ & Hn). destruct v. unfold set_cache, leave, set_inFlight. cbn in *. f_equal. lia.
Qed.

Lemma verify_rejects_revoked c raw d clock v calls uses hashing log t id r :
  parseToken raw (vo_parse o) = Ok t -> findTokenId (hmac raw) d = Ok (Some id) -> ts_get id d = Ok (Some r) ->
  idle c (hmac raw) id v calls -> ar_revokedAt r <> None ->
  exists v', exec_all (LVerify c raw None :: pieces c 6) (mkWorld v d clock calls uses hashing log)
  = Some (mkWorld v' d clock calls uses hashing
      (log ++ [EFound clock (hmac raw) id; ERead clock (hmac raw) id r; EReturn c clock (Some (hmac raw)) (VFail Revoked None)])).
Proof.
  intros Hp Hf Hg Hi Hr. rewrite (verify_record_path _ _ _ _ _ _ _ _ _ _ _ _ Hp Hf Hg Hi).
  unfold verify_record. rewrite bool_decide_true by done. eexists. unfold settle_verify.
  unfold add_log, drop_call, ws_calls, ws_ver. cbn [w_ver w_clock w_store w_calls w_uses w_hashing w_log map app cx_ip].
  rewrite delete_insert_eq, delete_id, app_nil_r, <- !app_assoc by apply Hi. done.
Qed.

Lemma revoke_undisturbed c id d clock v (calls : gmap nat Pc) uses hashing log r :
  ts_wf d -> ts_get id d = Ok (Some r) -> calls !! c = None -> ar_revokedAt r = None -> is_hash (ar_hashHex r) = true ->
  exec_all (LRevokeToken c id true :: pieces c 5) (mkWorld v d clock calls uses hashing log)
  = Some (mkWorld (invalidate_hash (ar_hashHex r) v) (ts_revoke id (At clock) d) clock calls uses hashing
      (log ++ [EAudit ATokenRevoke clock id; ERevoke clock id clock;
               ERevokeReturn c (Some (toTokenMetadata (with_revokedAt (Some (At clock)) r)))])).
Proof.
  intros Hd Hg Hc Hr Hh. unfold pieces. cbn [replicate]. rewrite exec_revoke by exact Hc.
  next_piece. rewrite Hg. settle_piece.
  next_piece. unfold revoke_read. rewrite Hr, bool_decide_false by (intros []; done). unfold invalidate. rewrite Hh. settle_piece.
  next_piece. settle_piece. next_piece. rewrite (revoke_get _ _ clock _ Hd Hg). settle_piece.
  next_piece. unfold drop_call, ws_calls, add_log. cbn [w_ver w_clock w_store w_calls w_uses w_hashing w_log Verifier.exec_all].
  rewrite delete_insert_eq, delete_id, <- !app_assoc by done. done.
Qed.

Lemma exec_all_app l1 l2 (w : World (D := D)) : exec_all (l1 ++ l2) w = w' ← exec_all l1 w; exec_all l2 w'.
Proof.
  revert w. induction l1 as [|l l1 IH]; intros w; [done|]. cbn [app Verifier.exec_all].
  destruct (exec hmac true o l w); [apply IH|done].
Qed.

Lemma owns_revoke id h ms d : ts_wf d -> owns id h d -> owns id h (ts_revoke id (At ms) d).
Proof.
  intros Hd [(r & Hr & Er) Hu]. split.
  - exists (with_revokedAt (Some (At ms)) r). by rewrite (revoke_get _ _ ms _ Hd Hr).
  - intros r' Hr' Ht. destruct (decide (ar_id r' = id)) as [|Hne]; [done|]. apply Hu; [|done].
    by rewrite revoke_other in Hr'.
Qed.

(** ** Issuing *)

Context (pepper_ok : bool) (randomBytes : nat -> list Z) (randomUUID : nat -> string).
Notation createToken := (createToken hmac pepper_ok randomBytes randomUUID).

Lemma toISOString_At ms s : toISOString ms = Ok s -> exists z, s = At z /\ ms = NFin z.
Proof. unfold toISOString. intros E. repeat case_match; simplify_eq. by eexists. Qed.

Lemma resolveExpiresAt_readable opts now e : resolveExpiresAt opts now = Ok e -> readable e = true.
Proof.
  unfold resolveExpiresAt. intros E. repeat case_match; simplify_eq; try done.
  all: match goal with H : toISOString _ = Ok _ |- _ => apply toISOString_At in H as (z & -> & _) end; done.
Qed.

Lemma createToken_Ok opts now (s s' : Cs (D := D)) raw record :
  createToken opts now s = (s', Ok (raw, record)) ->
  let id := default (randomUUID (cs_draws s)) (co_idOverride opts) in
  validateScopeSet (co_scopes opts) = []
  /\ generateRawToken (mkGenerate (co_prefix opts) (co_env opts)) (randomBytes (cs_draws s)) = Some (Ok raw)
  /\ (exists e, resolveExpiresAt opts now = Ok e
       /\ record = mkToken id (hmac raw) (co_label opts) (co_scopes opts) (At now) e None None)
  /\ record_readable record = true /\ ts_put record (cs_store s) = Some (cs_store s').
Proof.
  unfold TokenCrud.createToken. destruct (validateScopeSet (co_scopes opts)) as [|e l]; [|done].
  destruct pepper_ok; [|done]. cbn [negb]. unfold bind, draw, lift, ret, TokenCrud.put, audit. cbn [cs_store cs_draws cs_audit cs_invalidated].
  destruct (generateRawToken _ _) as [[raw'|]|] eqn:Eg; cbn [lift_generate]; [|done..].
  destruct (toISOString (NFin now)) as [c|] eqn:Ec; [|done]. apply toISOString_At in Ec as (z & -> & [= <-]).
  destruct (resolveExpiresAt opts now) as [e|] eqn:Ee; [|done].
  destruct (ts_put _ _) as [d|] eqn:Ep; [|done]. intros [= <- <- <-]. cbn [cs_store]. split; [done|]. split; [done|].
  split; [by exists e|]. split; [|done]. unfold record_readable. cbn. by rewrite (resolveExpiresAt_readable _ _ _ Ee).
Qed.

(** What callers see. *)
Definition results (l : list Event) : list Event :=
  List.filter (fun e => match e with EReturn _ _ _ _ | ERevokeReturn _ _ => true | _ => false end) l.

Lemma lower_hex_digit c : lower_hex c = true -> is_Some (hex_digit c).
Proof.
  unfold lower_hex, is_num, in_range, hex_digit. intros Hc. apply orb_true_iff in Hc as [Hc|Hc]; apply bool_decide_eq_true in Hc.
  - rewrite (proj2 (Z.leb_le 48 _)), (proj2 (Z.leb_le _ 57)) by lia. by eexists.
  - destruct (_ && _); [by eexists|]. rewrite (proj2 (Z.leb_le 97 _)), (proj2 (Z.leb_le _ 102)) by lia. by eexists.
Qed.

Lemma is_hash_equal h : is_hash h = true -> timingSafeEqualHex h h = true.
Proof.
  unfold is_hash, timingSafeEqualHex. intros [Hl Hc]%andb_true_iff. apply bool_decide_eq_true in Hl.
  destruct h as [|a [|b h]]; [done|done|]. cbn [all_chars] in Hc. rewrite !andb_true_iff in Hc. destruct Hc as (Ha & Hb & _).
  apply lower_hex_digit in Ha as [x Ha], Hb as [y Hb]. rewrite (bool_decide_true (_ = _)) by done. cbn [negb decode_hex].
  rewrite Ha, Hb. cbn [length]. rewrite bool_decide_false by done. by rewrite !bool_decide_true.
Qed.

(** A token issued by [createToken] for scopes that parse: before its
    expiry a verifier over the same store and pepper accepts it, under its
    id, label and environment and with every scope it was issued for;
    [revokeToken] with that verifier returns the record as revoked; and the
    next verification answers [revoked].  (Runs do not overlap; no other
    record has the same HMAC.) *)
Theorem token_life_cycle opts now (s s' : Cs (D := D)) raw record accept t :
  ts_wf (cs_store s) -> length (randomBytes (cs_draws s)) = TOKEN_ENTROPY_BYTES -> Forall byte (randomBytes (cs_draws s)) ->
  createToken opts now s = (s', Ok (raw, record)) ->
  vo_parse o = mkParseOpts (Some (default DEFAULT_TOKEN_PREFIX (co_prefix opts))) accept ->
  isAcceptedEnvironment (co_env opts) accept = true -> 0 < maxConcurrent o -> is_hash (hmac raw) = true ->
  (forall r, ts_get (ar_id r) (cs_store s) = Ok (Some r) -> timingSafeEqualHex (ar_hashHex r) (hmac raw) = true -> ar_id r = ar_id record) ->
  not_expired t (ar_expiresAt record) ->
  exists token w,
    exec_all (LVerify 1 raw None :: pieces 1 6 ++ LRevokeToken 2 (ar_id record) true :: pieces 2 5
              ++ LVerify 3 raw None :: pieces 3 6) (start (cs_store s') t) = Some w
    /\ results (w_log w)
       = [EReturn 1 t (Some (hmac raw)) (VOk token);
          ERevokeReturn 2 (Some (toTokenMetadata (with_revokedAt (Some (At t)) record)));
          EReturn 3 t (Some (hmac raw)) (VFail Revoked None)]
    /\ vt_tokenId token = ar_id record /\ vt_label token = co_label opts /\ vt_env token = co_env opts
    /\ map sp_raw (vt_scopes token) = co_scopes opts.
Proof.
  intros Hd Hl Hb Hc Hparse Henv Hm Hh Hu Hexp. apply createToken_Ok in Hc as (Hsc & Hg & (e & He & Er) & Hrd & Hput).
  destruct (generated_parses _ _ _ accept Hl Hb Hg Henv) as (pt & Hpt & Epe). cbn [go_prefix go_env] in Hpt, Epe. rewrite <- Hparse in Hpt.
  pose proof (put_wf _ _ _ Hd Hput) as Hd'. destruct (put_readable _ _ Hd Hrd) as (d2 & Hput2 & Hget).
  rewrite Hput in Hput2. injection Hput2 as <-. set (d' := cs_store s') in *.
  assert (ar_hashHex record = hmac raw /\ ar_revokedAt record = None) as [Ehash Hnr] by by rewrite Er.
  assert (owns (ar_id record) (hmac raw) d') as Hown.
  { split; [by exists record|]. intros r Hr Ht. destruct (decide (ar_id r = ar_id record)) as [|Hne]; [done|].
    apply Hu; [|done]. by rewrite (put_other _ _ _ _ Hd Hput) in Hr. }
  pose proof (findTokenId_owner _ _ _ Hd' (is_hash_equal _ Hh) Hown) as Hfind.
  pose proof (findTokenId_owner _ _ _ (revoke_wf _ (ar_id record) (At t) Hd') (is_hash_equal _ Hh) (owns_revoke _ _ t _ Hd' Hown)) as Hfind2.
  rewrite app_comm_cons, exec_all_app. unfold start.
  rewrite (verify_accepts 1 raw d' t new_verifier ∅ [] [] [] pt _ record Hpt Hfind Hget); [|by split_and!; try done; cbn; lia || set_solver|done|done].
  cbn [mbind option_bind app]. rewrite app_comm_cons, exec_all_app.
  rewrite (revoke_undisturbed 2 _ d' t _ ∅ _ _ _ record Hd' Hget); [|done|done|by rewrite Ehash].
  cbn [mbind option_bind]. rewrite Ehash.
  destruct (verify_rejects_revoked 3 raw (ts_revoke (ar_id record) (At t) d') t
    (invalidate_hash (hmac raw) (set_cache (LruCache.set (cacheCapacity o) (hmac raw)
      (mkCachedAuth (recordToVerified record (pt_env pt) (Date_parse <$> ar_expiresAt record)) (Date_parse <$> ar_expiresAt record))
      (Some (computeCacheTtlMs t (Date_parse <$> ar_expiresAt record) (cacheTtlMaxMs o))) t (v_cache new_verifier)) new_verifier))
    ∅ [(ar_id record, t)] [] ([EFound t (hmac raw) (ar_id record); ERead t (hmac raw) (ar_id record) record; EAudit AGranted t (ar_id record);
      EReturn 1 t (Some (hmac raw)) (VOk (recordToVerified record (pt_env pt) (Date_parse <$> ar_expiresAt record)))]
      ++ [EAudit ATokenRevoke t (ar_id record); ERevoke t (ar_id record) t;
          ERevokeReturn 2 (Some (toTokenMetadata (with_revokedAt (Some (At t)) record)))]) pt (ar_id record) (with_revokedAt (Some (At t)) record)
    Hpt Hfind2 (revoke_get _ _ t _ Hd' Hget)) as [v3 E3]; [|done|].
  { split; [done|]. split; [cbn [v_cache invalidate_hash set_cache]; rewrite jget_jdel; by rewrite decide_True|]. split; [cbn; set_solver|cbn; lia]. }
  exists (recordToVerified record (pt_env pt) (Date_parse <$> ar_expiresAt record)). eexists. split; [exact E3|].
  split; [reflexivity|]. rewrite Er. cbn. split_and!; try done. by apply valid_scopes_parse.
Qed.

(** ** Rotation *)

Lemma createToken_Err opts now (s s' : Cs (D := D)) e : createToken opts now s = (s', Err e) -> cs_store s' = cs_store s.
Proof.
  unfold TokenCrud.createToken. destruct (validateScopeSet _); [|by intros [= <- <-]]. destruct pepper_ok; [|by intros [= <- <-]].
  cbn [negb]. unfold bind, draw, lift, ret, TokenCrud.put, audit. cbn [cs_store cs_draws cs_audit cs_invalidated].
  intros E. by repeat case_match; simplify_eq.
Qed.

Notation rotateToken := (rotateToken hmac pepper_ok randomBytes randomUUID).

(** The state when [rotateToken] calls [createToken]. *)
Definition rotated_state (opts : RotateOptions) (now : Z) (existing : AuthTokenRecord) (s : Cs (D := D)) : Cs (D := D) :=
  mkCs (ts_revoke (ro_id opts) (At now) (cs_store s)) (cs_draws s) (cs_audit s)
    (cs_invalidated s ++ (if ro_verifier opts then [ar_hashHex existing] else [])).

Definition rotate_create (opts : RotateOptions) (existing : AuthTokenRecord) : CreateTokenOptions :=
  mkCreate (default "live" (ro_env opts)) (default (ar_scopes existing) (ro_scopesOverride opts)) (ro_label opts)
    (ro_prefix opts) (ro_expiresInMs opts) (ro_expiresAt opts) None.

Lemma rotateToken_unfold opts now (s s' : Cs (D := D)) existing res :
  ts_wf (cs_store s) -> ts_get (ro_id opts) (cs_store s) = Ok (Some existing) -> - MAX_DATE_MS <= now <= MAX_DATE_MS ->
  rotateToken opts now s = (s', res) ->
  exists s1 next, createToken (rotate_create opts existing) now (rotated_state opts now existing s) = (s1, next)
    /\ cs_store s' = cs_store s1
    /\ match next with
       | Err e => res = Err e
       | Ok next => forall r, ts_get (ro_id opts) (cs_store s1) = Ok r -> res = Ok (toTokenMetadata (default existing r), next)
       end.
Proof.
  intros Hd Hg Hnow. unfold TokenCrud.rotateToken, bind, read. rewrite Hg. cbn beta iota. unfold lift, toISOString.
  rewrite (proj2 (Z.leb_le _ now)), (proj2 (Z.leb_le now _)) by lia. cbn [andb].
  unfold revoke, invalidate_in, audit, ret. cbn [cs_store cs_draws cs_audit cs_invalidated]. unfold inferEnvFromExisting.
  fold (rotated_state opts now existing s). fold (rotate_create opts existing).
  destruct (createToken (rotate_create opts existing) now (rotated_state opts now existing s)) as [s1 [next|e]].
  - intros E. exists s1, (Ok next). destruct (ts_get (ro_id opts) (cs_store s1)) as [r|u] eqn:Er; injection E as <- <-; split_and!; try done.
    intros r' [= <-]. done.
  - intros [= <- <-]. by exists s1, (Err e).
Qed.

(** Rotating an existing token (at a representable instant, the new id
    being fresh) revokes it at that instant whatever happens next.  If
    issuing the replacement fails (scopes that do not parse, a weak pepper,
    an invalid label or expiry, a rejected write), the error is reported, the
    old token stays revoked and no other record changes.  If it succeeds, the
    replacement is stored with the old scopes or those given in their place
    and with the label given, the result describes the old token as revoked,
    and no third record changes. *)
Theorem rotation_revokes_first opts now (s s' : Cs (D := D)) existing res :
  ts_wf (cs_store s) -> ts_get (ro_id opts) (cs_store s) = Ok (Some existing) -> - MAX_DATE_MS <= now <= MAX_DATE_MS ->
  randomUUID (cs_draws s) <> ro_id opts -> rotateToken opts now s = (s', res) ->
  let revoked := with_revokedAt (Some (At now)) existing in
  ts_get (ro_id opts) (cs_store s') = Ok (Some revoked)
  /\ match res with
     | Err _ => forall id, id <> ro_id opts -> ts_get id (cs_store s') = ts_get id (cs_store s)
     | Ok (old, (raw, record)) =>
         old = toTokenMetadata revoked
         /\ ts_get (ar_id record) (cs_store s') = Ok (Some record) /\ ar_id record = randomUUID (cs_draws s)
         /\ ar_hashHex record = hmac raw /\ ar_revokedAt record = None /\ ar_label record = ro_label opts
         /\ ar_scopes record = default (ar_scopes existing) (ro_scopesOverride opts)
         /\ forall id, id <> ro_id opts -> id <> ar_id record -> ts_get id (cs_store s') = ts_get id (cs_store s)
     end.
Proof.
  intros Hd Hg Hnow Hid Hrot revoked. destruct (rotateToken_unfold _ _ _ _ _ _ Hd Hg Hnow Hrot) as (s1 & next & Hc & Es & Hres).
  rewrite Es. pose proof (revoke_get _ _ now _ Hd Hg) as Hrev. cbn [fmap option_fmap option_map] in Hrev. fold revoked in Hrev.
  pose proof (revoke_wf _ (ro_id opts) (At now) Hd) as Hd1.
  assert (forall id, id <> ro_id opts -> ts_get id (ts_revoke (ro_id opts) (At now) (cs_store s)) = ts_get id (cs_store s)) as Hother.
  { intros id Hne. by apply revoke_other. }
  destruct next as [[raw record]|e].
  - apply createToken_Ok in Hc as (_ & _ & (x & _ & Er) & Hrd & Hput). cbn [rotated_state cs_store cs_draws] in Hput, Er.
    assert (ar_id record = randomUUID (cs_draws s)) as Eid by by rewrite Er.
    destruct (put_readable _ _ Hd1 Hrd) as (d2 & Hput2 & Hget). rewrite Hput in Hput2. injection Hput2 as <-.
    assert (ts_get (ro_id opts) (cs_store s1) = Ok (Some revoked)) as Hold.
    { rewrite (put_other _ _ _ _ Hd1 Hput); [done|by rewrite Eid]. }
    split; [done|]. rewrite (Hres _ Hold). cbn [default]. split_and!; try done; try by rewrite Er.
    intros id H1 H2. rewrite (put_other _ _ _ _ Hd1 Hput) by done. by apply Hother.
  - apply createToken_Err in Hc. rewrite Hc, Hres. split; [done|]. exact Hother.
Qed.
End Life.

(** ** Concrete runs *)

Module LifeDemo.
Definition hash1 : string := "000102030405060708090a0b0c0d0e0f101112131415161718191a1b1c1d1e1f".
Definition hash2 : string := "ff0102030405060708090a0b0c0d0e0f101112131415161718191a1b1c1d1e1f".
Definition hmac (s : string) : string := if decide (s = sample_token) then hash1 else hash2.
Definition bytes (n : nat) : list Z := match n with O => sample_bytes | _ => map (fun b => 255 - b) sample_bytes end.
Definition uuid (n : nat) : string := match n with O => "t1" | _ => "t2" end.
Definition opts : CreateTokenOptions := mkCreate "live" ["runs:read"; "sessions:*"] (Some "ci") None (Some (NFin 5000)) None None.
Definition empty : Cs (D := SqliteTokens.t) := mkCs [] 0 [] [].
Definition record1 : AuthTokenRecord := mkToken "t1" hash1 (Some "ci") ["runs:read"; "sessions:*"] (At 1000) (Some (At 6000)) None None.
Definition issued : Cs (D := SqliteTokens.t) := (createToken hmac true bytes uuid opts 1000 empty).1.
Definition verifier : VerifierOptions := default_options None None.
Definition rotate : RotateOptions := mkRotate "t1" None None (Some "ci") None None None true.

Lemma issued_ok : createToken hmac true bytes uuid opts 1000 empty = (issued, Ok (sample_token, record1)).
Proof. vm_compute. reflexivity. Qed.

Lemma issued_wf : ts_wf (cs_store issued).
Proof. eapply (put_wf [] record1); [split; constructor|vm_compute; reflexivity]. Qed.
End LifeDemo.

Lemma token_life_cycle_witness :
  exists token w,
    exec_all LifeDemo.hmac true LifeDemo.verifier
      (LVerify 1 sample_token None :: pieces 1 6 ++ LRevokeToken 2 "t1" true :: pieces 2 5
       ++ LVerify 3 sample_token None :: pieces 3 6) (start (cs_store LifeDemo.issued) 5999) = Some w
    /\ vt_tokenId token = "t1" /\ map sp_raw (vt_scopes token) = ["runs:read"; "sessions:*"].
Proof.
  destruct (token_life_cycle LifeDemo.hmac LifeDemo.verifier true LifeDemo.bytes LifeDemo.uuid LifeDemo.opts 1000
    LifeDemo.empty LifeDemo.issued sample_token LifeDemo.record1 None 5999) as (token & w & E & _ & Hid & _ & _ & Hs).
  - split; constructor.
  - reflexivity.
  - apply sample_bytes_ok.
  - apply LifeDemo.issued_ok.
  - reflexivity.
  - reflexivity.
  - reflexivity.
  - vm_compute. reflexivity.
  - intros r Hr. discriminate Hr.
  - cbn. lia.
  - exists token, w. split; [exact E|]. split; [exact Hid|exact Hs].
Defined.

Lemma rotation_revokes_first_witness :
  ts_get "t1" (cs_store (rotateToken LifeDemo.hmac true LifeDemo.bytes LifeDemo.uuid LifeDemo.rotate 2000 LifeDemo.issued).1)
  = Ok (Some (with_revokedAt (Some (At 2000)) LifeDemo.record1)).
Proof.
  refine (proj1 (rotation_revokes_first LifeDemo.hmac true LifeDemo.bytes LifeDemo.uuid LifeDemo.rotate 2000
    LifeDemo.issued _ LifeDemo.record1
    (rotateToken LifeDemo.hmac true LifeDemo.bytes LifeDemo.uuid LifeDemo.rotate 2000 LifeDemo.issued).2
    LifeDemo.issued_wf _ _ _ _)).
  - vm_compute. reflexivity.
  - unfold MAX_DATE_MS. lia.
  - vm_compute. discriminate.
  - apply surjective_pairing.
Defined.

(** Re-keying drops the label and the expiry of a token; one that had already
    expired is issued again without an expiry. *)
Example rekey_revives_expired_token :
  match rekeyTokens LifeDemo.hmac true LifeDemo.bytes LifeDemo.uuid "live" None 9000 LifeDemo.issued with
  | (_, Ok [(old, (_, record))]) =>
      old = "t1" /\ not_expired 9000 (ar_expiresAt LifeDemo.record1) = (9000 < 6000)
      /\ ar_scopes record = ar_scopes LifeDemo.record1 /\ ar_label record = None /\ ar_expiresAt record = None /\ ar_revokedAt record = None
  | _ => False
  end.
Proof. vm_compute. repeat split. Qed.

(** An expiry that is not positive is refused, and nothing is stored. *)
Example bad_expiry_stores_nothing :
  let opts := mkCreate "live" ["runs:read"] None None (Some (NFin 0)) None None in
  let '(s, r) := createToken LifeDemo.hmac true LifeDemo.bytes LifeDemo.uuid opts 1000 LifeDemo.empty in
  r = Err ExpiryRangeError /\ cs_store s = [].
Proof. vm_compute. split; reflexivity. Qed.
