(* ===== verification/Tickets.v ===== *)
(** * WebSocket tickets

    [packages/server/src/ws/ticket.ts]: single-use, short-lived tickets that
    stand for a verified token during the upgrade of a connection.  Each
    operation runs at one instant; the 24 random bytes of a ticket are an
    argument, already in their base 64 text. *)

From S2P Require Import Prelude Subjects.

Local Open Scope string_scope.
Local Open Scope list_scope.
Local Open Scope Z_scope.

Record WsTicket := mkTicket {
  wt_value : string; wt_expiresAt : Z; wt_issuedAt : Z; wt_tokenId : string; wt_scopes : list ParsedScope }.

Inductive ticket_reason := TUnknown | TConsumed | TExpired.
Inductive WsTicketConsumeResult := TicketOk (ticket : WsTicket) | TicketRefused (reason : ticket_reason).

Record InternalEntry := mkTicketEntry { te_ticket : WsTicket; te_consumed : bool }.

Record WsTicketStoreOptions := mkTicketOptions { to_ttlMs : Z; to_maxOutstanding : Z }.
Definition default_ticket_options : WsTicketStoreOptions := mkTicketOptions (5 * 60000) 1000.

Definition tickets := list (string * InternalEntry).

Definition prune_tickets (now : Z) (entries : tickets) : tickets * Z :=
  (List.filter (fun p => negb (wt_expiresAt (te_ticket p.2) <=? now)) entries,
   Z.of_nat (length (List.filter (fun p => wt_expiresAt (te_ticket p.2) <=? now) entries))).

Definition evictOldest (entries : tickets) : tickets := tail entries.

(** [while (entries.size >= maxOutstanding) evictOldest()]; [None]: it does
    not end *)
Fixpoint evict_loop (fuel : nat) (maxOutstanding : Z) (entries : tickets) : option tickets :=
  if Z.of_nat (length entries) >=? maxOutstanding then
    match fuel with O => None | S fuel' => evict_loop fuel' maxOutstanding (evictOldest entries) end
  else Some entries.

Definition issue (o : WsTicketStoreOptions) (now : Z) (value tokenId : string) (scopes : list ParsedScope) (entries : tickets)
  : option (tickets * WsTicket) :=
  let pruned := (prune_tickets now entries).1 in
  entries ← evict_loop (S (length pruned)) (to_maxOutstanding o) pruned;
  let ticket := mkTicket value (now + to_ttlMs o) now tokenId scopes in
  Some (jset value (mkTicketEntry ticket false) entries, ticket).

Definition consume (now : Z) (value : string) (entries : tickets) : tickets * WsTicketConsumeResult :=
  match jget value entries with
  | None => ((prune_tickets now entries).1, TicketRefused TUnknown)
  | Some entry =>
      if wt_expiresAt (te_ticket entry) <=? now then ((prune_tickets now (jdel value entries)).1, TicketRefused TExpired)
      else if te_consumed entry then ((prune_tickets now entries).1, TicketRefused TConsumed)
      else ((prune_tickets now (jset value (mkTicketEntry (te_ticket entry) true) entries)).1, TicketOk (te_ticket entry))
  end.

(** ** Histories *)

Inductive ticket_op :=
  | OpIssue (value tokenId : string) (scopes : list ParsedScope)
  | OpConsume (value : string)
  | OpPrune.

Inductive ticket_event := EvIssued (ticket : WsTicket) | EvConsumed (now : Z) (value : string) (r : WsTicketConsumeResult) | EvPruned (n : Z).

Definition ticket_step (o : WsTicketStoreOptions) (now : Z) (op : ticket_op) (entries : tickets) : option (tickets * ticket_event) :=
  match op with
  | OpIssue value tokenId scopes => '(e, t) ← issue o now value tokenId scopes entries; Some (e, EvIssued t)
  | OpConsume value => let '(e, r) := consume now value entries in Some (e, EvConsumed now value r)
  | OpPrune => let '(e, n) := prune_tickets now entries in Some (e, EvPruned n)
  end.

Fixpoint ticket_run (o : WsTicketStoreOptions) (ops : list (Z * ticket_op)) (entries : tickets) (log : list ticket_event)
  : option (tickets * list ticket_event) :=
  match ops with
  | [] => Some (entries, log)
  | (now, op) :: ops' => '(e, ev) ← ticket_step o now op entries; ticket_run o ops' e (log ++ [ev])
  end.

(** ** Facts *)

Lemma evict_loop_spec fuel max entries :
  1 <= max -> (length entries < fuel)%nat ->
  evict_loop fuel max entries = Some (drop (length entries - Z.to_nat (max - 1)) entries).
Proof.
  intros Hm. revert entries. induction fuel as [|fuel IH]; intros entries Hf; [lia|]. cbn [evict_loop].
  destruct (Z.geb_spec (Z.of_nat (length entries)) max) as [Hge|Hlt].
  - destruct entries as [|e entries]; [cbn in Hge; lia|]. cbn [evictOldest tail length] in *. rewrite IH by lia.
    replace (S (length entries) - Z.to_nat (max - 1))%nat with (S (length entries - Z.to_nat (max - 1))) by lia. done.
  - by replace (length entries - Z.to_nat (max - 1))%nat with 0%nat by lia.
Qed.

(** With a cap below one the loop has no way to end. *)
Lemma issue_diverges o now value tokenId scopes entries :
  to_maxOutstanding o <= 0 -> issue o now value tokenId scopes entries = None.
Proof.
  intros Hm. unfold issue. generalize (prune_tickets now entries).1 as l. intros l.
  assert (forall fuel l, evict_loop fuel (to_maxOutstanding o) l = None) as H; [|by rewrite H].
  induction fuel as [|fuel IH]; intros l'; cbn [evict_loop];
    destruct (Z.geb_spec (Z.of_nat (length l')) (to_maxOutstanding o)); try lia; [done|apply IH].
Qed.

(** ** Single use *)

Section Single.
Context (o : WsTicketStoreOptions).

Definition about (value : string) (e : ticket_event) : bool :=
  match e with
  | EvIssued t => bool_decide (wt_value t = value)
  | EvConsumed _ v (TicketOk _) => bool_decide (v = value)
  | _ => false
  end.

(** The ticket was issued, and since then nothing was issued under its value
    or consumed by it. *)
Definition outstanding (log : list ticket_event) (value : string) (t : WsTicket) : Prop :=
  wt_value t = value /\ wt_expiresAt t = wt_issuedAt t + to_ttlMs o
  /\ exists l1 l2, log = l1 ++ EvIssued t :: l2 /\ Forall (fun e => about value e = false) l2.

Definition ticket_event_ok (log : list ticket_event) (e : ticket_event) : Prop :=
  match e with
  | EvConsumed now value (TicketOk t) => outstanding log value t /\ now < wt_expiresAt t
  | _ => True
  end.

Definition entry_traced (log : list ticket_event) (p : string * InternalEntry) : Prop :=
  te_consumed p.2 = false -> outstanding log p.1 (te_ticket p.2).

Lemma outstanding_snoc log value t e : about value e = false -> outstanding log value t -> outstanding (log ++ [e]) value t.
Proof.
  intros Ha (Hv & Ht & l1 & l2 & -> & Hl). split; [done|]. split; [done|]. exists l1, (l2 ++ [e]).
  split; [by rewrite <- app_assoc|]. apply Forall_app. split; [done|by constructor].
Qed.

(** Entries under other values are not affected by an event. *)
Lemma traced_snoc log e value entries :
  (forall v, v <> value -> about v e = false) -> Forall (entry_traced log) (jdel value entries) ->
  Forall (entry_traced (log ++ [e])) (jdel value entries).
Proof.
  intros He. rewrite !Forall_forall. intros Hl p Hp Hc. apply outstanding_snoc; [|by apply Hl].
  apply He. unfold jdel in Hp. by apply list_elem_of_filter in Hp as [? _].
Qed.

Lemma traced_quiet log e entries :
  (forall v, about v e = false) -> Forall (entry_traced log) entries -> Forall (entry_traced (log ++ [e])) entries.
Proof. intros He Hl. apply (Forall_impl _ _ _ Hl). intros p Hp Hc. by apply outstanding_snoc, Hp. Qed.

Lemma Forall_prune (P : string * InternalEntry -> Prop) now entries : Forall P entries -> Forall P (prune_tickets now entries).1.
Proof.
  cbn. rewrite !Forall_forall. intros Hl p Hp. apply Hl. apply list_elem_of_In, filter_In in Hp as [Hp _]. by apply list_elem_of_In.
Qed.

(** A written entry, the others traced. *)
Lemma Forall_jset_del {A} (P : string * A -> Prop) k v l : P (k, v) -> jwf l -> Forall P (jdel k l) -> Forall P (jset k v l).
Proof.
  intros Hv Hw Hl. rewrite Forall_forall in *. intros [k' x] Hin. destruct (decide (k' = k)) as [->|Hne].
  - apply jget_elem_wf in Hin; [|by apply jset_wf]. rewrite jget_jset_eq in Hin. by injection Hin as <-.
  - apply jget_elem_wf in Hin; [|by apply jset_wf]. rewrite jget_jset_ne in Hin by done. apply Hl.
    apply list_elem_of_filter. split; [done|]. by apply jget_Some_elem.
Qed.

Record ticket_inv (entries : tickets) (log : list ticket_event) : Prop := mkTicketInv {
  ti_keys : jwf entries;
  ti_size : Z.of_nat (length entries) <= to_maxOutstanding o;
  ti_entries : Forall (entry_traced log) entries;
  ti_log : log_ok ticket_event_ok log;
}.

Lemma prune_wf now entries : jwf entries -> jwf (prune_tickets now entries).1.
Proof.
  unfold jwf, jkeys. cbn. induction entries as [|p m IH]; cbn; [done|]. intros [Hp Hm]%NoDup_cons. destruct (negb _); [|by apply IH].
  cbn. apply NoDup_cons. split; [|by apply IH]. intros Hin. apply Hp. rewrite list_elem_of_In, in_map_iff in *.
  destruct Hin as (x & E & Hx). apply filter_In in Hx as [Hx _]. by exists x.
Qed.

Lemma prune_length now entries : (length (prune_tickets now entries).1 <= length entries)%nat.
Proof. cbn. induction entries as [|p m IH]; cbn; [lia|]. destruct (negb _); cbn; lia. Qed.

Lemma jset_length_present {A} k (v w : A) m : jget k m = Some w -> length (jset k v m) = length m.
Proof. induction m as [|[k' x] m IH]; cbn; [done|]. case_decide; cbn; [done|]. intros E. by rewrite IH. Qed.

Lemma drop_keys {A} n (m : list (string * A)) : jwf m -> jwf (drop n m).
Proof. unfold jwf, jkeys. intros H. rewrite <- (take_drop n m), map_app in H. by apply NoDup_app in H as (_ & _ & H). Qed.

Lemma jset_length {A} k (v : A) m : (length (jset k v m) <= S (length m))%nat.
Proof. induction m as [|[k' x] m IH]; cbn; [lia|]. case_decide; cbn; lia. Qed.

Lemma issue_inv now value tokenId scopes entries log :
  1 <= to_maxOutstanding o -> ticket_inv entries log ->
  exists entries' t, issue o now value tokenId scopes entries = Some (entries', t) /\ ticket_inv entries' (log ++ [EvIssued t]).
Proof.
  intros Hm [Hk Hs He Hl]. unfold issue. set (l := (prune_tickets now entries).1). rewrite evict_loop_spec by lia. cbn [mbind option_bind].
  set (l' := drop _ l). do 2 eexists. split; [done|].
  assert (jwf l') as Hk' by by apply drop_keys, prune_wf. assert (Forall (entry_traced log) l') as He' by by apply Forall_drop, Forall_prune.
  assert (Z.of_nat (length l') < to_maxOutstanding o) as Hs' by (unfold l'; rewrite length_drop; lia).
  split; [by apply jset_wf| | |].
  - pose proof (jset_length value (mkTicketEntry (mkTicket value (now + to_ttlMs o) now tokenId scopes) false) l'). lia.
  - apply Forall_jset_del; [|done|].
    + intros _. split; [done|]. split; [done|]. by exists log, [].
    + apply traced_snoc; [|by apply Forall_jdel]. intros v Hv. cbn. by apply bool_decide_eq_false.
  - by apply log_ok_snoc.
Qed.

Lemma consume_inv now value entries log entries' r :
  ticket_inv entries log -> consume now value entries = (entries', r) -> ticket_inv entries' (log ++ [EvConsumed now value r]).
Proof.
  intros [Hk Hs He Hl]. unfold consume. destruct (jget value entries) as [entry|] eqn:Eg.
  2: { intros [= <- <-]. pose proof (prune_length now entries). split; [by apply prune_wf|cbn in *; lia| |by apply log_ok_snoc].
       apply traced_quiet; [done|by apply Forall_prune]. }
  destruct (Z.leb_spec (wt_expiresAt (te_ticket entry)) now) as [Hexp|Hlive].
  { intros [= <- <-]. pose proof (prune_length now (jdel value entries)).
    assert (length (jdel value entries) <= length entries)%nat by apply length_filter.
    split; [by apply prune_wf, jdel_wf|cbn in *; lia| |by apply log_ok_snoc].
    apply traced_quiet; [done|by apply Forall_prune, Forall_jdel]. }
  destruct (te_consumed entry) eqn:Ec; intros [= <- <-].
  - pose proof (prune_length now entries). split; [by apply prune_wf|cbn in *; lia| |by apply log_ok_snoc].
    apply traced_quiet; [done|by apply Forall_prune].
  - pose proof (prune_length now (jset value (mkTicketEntry (te_ticket entry) true) entries)).
    rewrite (jset_length_present _ _ _ _ Eg) in H. split; [by apply prune_wf, jset_wf|cbn in *; lia| |].
    + apply Forall_prune, Forall_jset_del; [done|done|]. apply traced_snoc; [|by apply Forall_jdel].
      intros v Hv. cbn. by apply bool_decide_eq_false.
    + apply log_ok_snoc; [done|]. split; [|done]. apply jget_Some_elem in Eg. rewrite Forall_forall in He. exact (He _ Eg Ec).
Qed.

Lemma ticket_run_inv ops entries log :
  1 <= to_maxOutstanding o -> ticket_inv entries log ->
  exists entries' log', ticket_run o ops entries log = Some (entries', log') /\ ticket_inv entries' log'.
Proof.
  intros Hm. revert entries log. induction ops as [|[now op] ops IH]; intros entries log Hi; [by exists entries, log|].
  cbn [ticket_run]. destruct op as [value tokenId scopes|value|]; cbn [ticket_step].
  - destruct (issue_inv now value tokenId scopes entries log Hm Hi) as (e & t & -> & Hi'). cbn. by apply IH.
  - destruct (consume now value entries) as [e r] eqn:E. cbn. by apply IH, (consume_inv _ _ _ _ _ _ Hi E).
  - cbn. apply IH. destruct Hi as [Hk Hs He Hl]. pose proof (prune_length now entries).
    split; [by apply prune_wf|cbn in *; lia| |by apply log_ok_snoc]. apply traced_quiet; [done|by apply Forall_prune].
Qed.

(** With a cap of at least one, any sequence of issues, consumptions and
    prunes runs to its end and never keeps more than [maxOutstanding]
    tickets; and every successful consumption returns a ticket issued before
    under that value, before its expiry ([ttlMs] after its issue), with no
    issue under the value and no other successful consumption of it in
    between: a ticket is worth one upgrade. *)
Theorem tickets_are_single_use ops :
  1 <= to_maxOutstanding o ->
  exists entries log, ticket_run o ops [] [] = Some (entries, log)
    /\ Z.of_nat (length entries) <= to_maxOutstanding o
    /\ forall l now value t l', log = l ++ EvConsumed now value (TicketOk t) :: l' ->
       wt_value t = value /\ now < wt_expiresAt t /\ wt_expiresAt t = wt_issuedAt t + to_ttlMs o
       /\ exists l1 l2, l = l1 ++ EvIssued t :: l2
          /\ (forall t', EvIssued t' ∈ l2 -> wt_value t' <> value)
          /\ (forall n t', EvConsumed n value (TicketOk t') ∉ l2).
Proof.
  intros Hm. destruct (ticket_run_inv ops [] [] Hm) as (entries & log & E & [_ Hs _ Hl]).
  { split; cbn; [constructor|lia|done|done]. }
  exists entries, log. split; [done|]. split; [done|]. intros l now value t l' ->.
  apply log_ok_split in Hl as [(Hv & Ht & l1 & l2 & -> & Hq) Hlive]. split_and!; try done. exists l1, l2. split; [done|].
  rewrite Forall_forall in Hq. split.
  - intros t' Hin%Hq. cbn in Hin. by apply bool_decide_eq_false in Hin.
  - intros n t' Hin%Hq. cbn in Hin. by rewrite bool_decide_true in Hin.
Qed.
End Single.

Lemma tickets_are_single_use_witness :
  exists entries log,
    ticket_run default_ticket_options [(0, OpIssue "a" "t1" []); (1, OpConsume "a"); (2, OpConsume "a")] [] [] = Some (entries, log)
    /\ Z.of_nat (length entries) <= 1000.
Proof.
  destruct (tickets_are_single_use default_ticket_options [(0, OpIssue "a" "t1" []); (1, OpConsume "a"); (2, OpConsume "a")])
    as (entries & log & E & Hs & _); [cbn; lia|]. exists entries, log. split; [exact E|exact Hs].
Defined.
