(* ===== verification/Dataflow.v ===== *)
(** * The data-flow policy: provenance labels, the taint ledger, sink decisions

    [packages/security/src/dataflow]: [derive.ts] labels a tool's output from
    its registration, [ledger.ts] keeps what untrusted and secret content has
    entered a run and probes the arguments of a sink for text copied from it,
    [policy.ts] decides about one sink call.

    Texts are sequences of UTF-16 code units.  The Unicode tables behind
    [String.prototype.normalize], the classes [\p{L}] and [\p{N}] and
    [toLowerCase] are a parameter ([Unicode]); decoding the text into code
    points, which the [u] flag of the pattern implies, is modelled.  Lengths
    and options are integers. *)

From S2P Require Import Prelude JsValue.

Local Open Scope string_scope.
Local Open Scope list_scope.
Local Open Scope Z_scope.

Definition text := list Z.

Definition units (s : string) : text := map (fun c => Z.of_nat (nat_of_ascii c)) (String.list_ascii_of_string s).

Definition zlen {A} (l : list A) : Z := Z.of_nat (length l).

(** [slice(i, i + w)] at a position in range. *)
Definition slice {A} (i w : nat) (l : list A) : list A := take w (drop i l).

(** A [Set] in insertion order. *)
Definition set_add {A} `{EqDecision A} (x : A) (l : list A) : list A :=
  if decide (x ∈ l) then l else l ++ [x].

Definition set_of {A} `{EqDecision A} (l : list A) : list A := fold_left (fun acc x => set_add x acc) l [].

(** ** Registration metadata *)

Inductive ToolTrustClass :=
| FirstPartyBuiltIn | FirstPartyUserDefined | SkillTrusted | SkillUntrusted
| McpDerived | WebSearch | ChannelInbound.

Inductive SideEffectClass := Pure | ReadOnly | SideEffecting | ExternalStateful.

Inductive Sensitivity := Public | Internal | Secret.

Inductive ToolSource :=
| SrcFirstParty
| SrcBuiltIn (subsystem : string)
| SrcSkill (skillName : string) (trusted : bool)
| SrcMcp (serverIdentity : string)
| SrcWebSearch (providerName : string)
| SrcForeign (kind : string).           (** read back from an artifact, of a kind not listed *)

#[export] Instance trust_eq_dec : EqDecision ToolTrustClass.
Proof. solve_decision. Defined.
#[export] Instance effect_eq_dec : EqDecision SideEffectClass.
Proof. solve_decision. Defined.
#[export] Instance sensitivity_eq_dec : EqDecision Sensitivity.
Proof. solve_decision. Defined.
#[export] Instance source_eq_dec : EqDecision ToolSource.
Proof. solve_decision. Defined.

Definition source_kind (s : ToolSource) : string :=
  match s with
  | SrcFirstParty => "first-party"
  | SrcBuiltIn _ => "built-in"
  | SrcSkill _ _ => "skill"
  | SrcMcp _ => "mcp"
  | SrcWebSearch _ => "web-search"
  | SrcForeign k => k
  end.

(** ** Labels *)

Record TaintLabel := mkLabel {
  tlb_trustClass : ToolTrustClass;
  tlb_sourceKind : string;
  tlb_sensitivity : option Sensitivity;    (** [None] is ['unknown'] *)
  tlb_untrusted : bool;
  tlb_sensitive : bool;
}.

Definition isUntrustedTrustClass (c : ToolTrustClass) : bool :=
  bool_decide (c ∈ [McpDerived; WebSearch; SkillUntrusted; ChannelInbound]).

Definition deriveTaintLabel (trustClass : ToolTrustClass) (source : option ToolSource)
    (sensitivity : option Sensitivity) (sensitiveTiers : option (list Sensitivity)) : TaintLabel :=
  let tiers := default [Secret] sensitiveTiers in
  mkLabel trustClass
    (match source with Some s => source_kind s | None => "unknown" end)
    sensitivity
    (isUntrustedTrustClass trustClass)
    (match sensitivity with Some s => bool_decide (s ∈ tiers) | None => false end).

(** ** The comparison form of a text *)

(** The Unicode data the language brings: compatibility composition, the class
    of letters and numbers by code point, lower case. *)
Record Unicode := mkUnicode {
  u_nfkc : text -> text;
  u_alnum : Z -> bool;
  u_lower : text -> text;
}.

Definition is_high (c : Z) : bool := (0xD800 <=? c) && (c <=? 0xDBFF).
Definition is_low (c : Z) : bool := (0xDC00 <=? c) && (c <=? 0xDFFF).
Definition pair_cp (hi lo : Z) : Z := 0x10000 + (hi - 0xD800) * 0x400 + (lo - 0xDC00).

(** Remove every code point outside the class; a lone surrogate is a code point
    of its own. *)
Fixpoint keep_alnum (f : Z -> bool) (s : text) : text :=
  match s with
  | [] => []
  | c :: s' =>
      match s' with
      | d :: s'' =>
          if is_high c && is_low d
          then if f (pair_cp c d) then c :: d :: keep_alnum f s'' else keep_alnum f s''
          else if f c then c :: keep_alnum f s' else keep_alnum f s'
      | [] => if f c then [c] else []
      end
  end.

Definition normalize (U : Unicode) (s : text) : text := u_lower U (keep_alnum (u_alnum U) (u_nfkc U s)).

(** ** Shingles *)

(** All substrings of a length, from the left; empty when the text is shorter. *)
Definition grams (w : nat) (s : text) : list text :=
  if bool_decide (w = 0%nat) || bool_decide (length s < w)%nat then []
  else map (fun i => slice i w s) (seq 0 (length s - w + 1)).

Definition shingles (s : text) (w : nat) : list text := grams w s.

Definition sharesAnyGram (s : text) (gs : list text) (w : nat) : bool :=
  existsb (fun g => bool_decide (g ∈ gs)) (grams w s).

(** FNV-1a on 32 bits over the code units, as eight hexadecimal digits. *)
Definition fnv_step (hash c : Z) : Z := (Z.lxor hash c * 0x01000193) mod 2 ^ 32.

Definition hex_nibble (n : Z) : ascii :=
  ascii_of_nat (Z.to_nat (if n <? 10 then 48 + n else 87 + n)).

Definition hex8 (z : Z) : string :=
  String.string_of_list_ascii (map (fun k => hex_nibble (Z.shiftr z (4 * k) mod 16)) [7; 6; 5; 4; 3; 2; 1; 0]).

Definition fnv1a32 (s : text) : string := hex8 (fold_left fnv_step s 0x811c9dc5).

(** ** The ledger *)

Record TrackedSpan := mkSpan { ts_text : text; ts_sourceKind : string }.

Record TaintLedgerSnapshot := mkSnap {
  sn_untrustedSeen : bool;
  sn_sensitiveSeen : bool;
  sn_untrustedSourceKinds : list string;
  sn_spanTileHashes : option (list string);
}.

Record LedgerOpts := mkOpts {
  lo_minSpanLength : option Z;
  lo_maxTrackedChars : option Z;
  lo_initial : option TaintLedgerSnapshot;
  lo_piiSensitivity : option (text -> bool);
}.

Record TaintLedger := mkLedger {
  tl_min : Z;
  tl_max : Z;
  tl_pii : option (text -> bool);
  tl_untrustedSeen : bool;
  tl_sensitiveSeen : bool;
  tl_kinds : list string;
  tl_tiles : list string;
  tl_spans : list TrackedSpan;
  tl_tracked : Z;
}.

Record ArgsTaintProbe := mkProbe {
  pb_carriesUntrustedVerbatim : bool;
  pb_matchedSourceKinds : list string;
}.

Definition DEFAULT_MIN_SPAN_LENGTH : Z := 20.
Definition DEFAULT_MAX_TRACKED_CHARS : Z := 262144.
Definition MIN_TRUSTWORTHY_WINDOW : Z := 8.
Definition MAX_PERSISTED_TILE_HASHES : Z := 8192.

Definition createTaintLedger (opts : LedgerOpts) : TaintLedger :=
  let requestedMinSpan := Z.max 1 (default DEFAULT_MIN_SPAN_LENGTH (lo_minSpanLength opts)) in
  let minSpanLength := Z.max requestedMinSpan MIN_TRUSTWORTHY_WINDOW in
  let maxTrackedChars := Z.max minSpanLength (default DEFAULT_MAX_TRACKED_CHARS (lo_maxTrackedChars opts)) in
  mkLedger minSpanLength maxTrackedChars (lo_piiSensitivity opts)
    (default false (sn_untrustedSeen <$> lo_initial opts))
    (default false (sn_sensitiveSeen <$> lo_initial opts))
    (set_of (default [] (sn_untrustedSourceKinds <$> lo_initial opts)))
    (set_of (default [] (lo_initial opts ≫= sn_spanTileHashes)))
    [] 0.

(** Drop the oldest spans while over budget; the newest one always stays. *)
Fixpoint evict (max : Z) (spans : list TrackedSpan) (tracked : Z) : list TrackedSpan * Z :=
  match spans with
  | sp :: (_ :: _) as rest =>
      if max <? tracked then evict max rest (tracked - zlen (ts_text sp)) else (spans, tracked)
  | _ => (spans, tracked)
  end.

(** One oversized text is cut to the budget. *)
Definition bound_span (max : Z) (normalized : text) : text :=
  if max <? zlen normalized then take (Z.to_nat max) normalized else normalized.

Section Ledger.
Context (U : Unicode).

(** Track one text, bounded to the budget, with its source. *)
Definition track (kind : string) (outputText : text) (l : TaintLedger) : TaintLedger :=
  let normalized := normalize U outputText in
  if zlen normalized <? tl_min l then l
  else
    let bounded := bound_span (tl_max l) normalized in
    let '(spans, tracked) :=
      evict (tl_max l) (tl_spans l ++ [mkSpan bounded kind]) (tl_tracked l + zlen bounded) in
    mkLedger (tl_min l) (tl_max l) (tl_pii l) (tl_untrustedSeen l) (tl_sensitiveSeen l)
      (tl_kinds l) (tl_tiles l) spans tracked.

Definition ingest (label : TaintLabel) (outputText : text) (l : TaintLedger) : TaintLedger :=
  let sensitiveSeen :=
    if tlb_sensitive label then true
    else if negb (tl_sensitiveSeen l) && match tl_pii l with Some p => p outputText | None => false end
         then true
         else tl_sensitiveSeen l in
  let with_flags untrustedSeen kinds :=
    mkLedger (tl_min l) (tl_max l) (tl_pii l) untrustedSeen sensitiveSeen kinds
      (tl_tiles l) (tl_spans l) (tl_tracked l) in
  if negb (tlb_untrusted label) then with_flags (tl_untrustedSeen l) (tl_kinds l)
  else track (tlb_sourceKind label) outputText (with_flags true (set_add (tlb_sourceKind label) (tl_kinds l))).

Definition recordOutput := ingest.

Definition recordInboundMessage := ingest.

Definition recordAssistantOutput (s : text) (l : TaintLedger) : TaintLedger :=
  if tl_untrustedSeen l then track "llm-derived" s l else l.

Definition inspectArgs (argsText : text) (l : TaintLedger) : ArgsTaintProbe :=
  let argsNorm := normalize U argsText in
  let window := Z.min (tl_min l) (zlen argsNorm) in
  if (window <? MIN_TRUSTWORTHY_WINDOW) || (bool_decide (tl_spans l = [] /\ tl_tiles l = []))
  then mkProbe false []
  else
    let w := Z.to_nat window in
    let argGrams := shingles argsNorm w in
    match argGrams with
    | [] => mkProbe false []
    | _ =>
        let matched :=
          fold_left (fun m sp => if sharesAnyGram (ts_text sp) argGrams w then set_add (ts_sourceKind sp) m else m)
            (tl_spans l) [] in
        let matched' :=
          match matched, tl_tiles l with
          | [], _ :: _ =>
              if bool_decide (window = tl_min l) && existsb (fun g => bool_decide (fnv1a32 g ∈ tl_tiles l)) argGrams
              then ["resumed-untrusted"] else []
          | _, _ => matched
          end in
        mkProbe (match matched' with [] => false | _ => true end) matched'
    end.

End Ledger.

#[export] Instance span_eq_dec : EqDecision TrackedSpan.
Proof. solve_decision. Defined.

(** Consecutive tiles of [w] units; a shorter rest has none. *)
Fixpoint tiles_from (fuel : nat) (w : nat) (s : text) : list text :=
  match fuel with
  | O => []
  | S n => if bool_decide (length s < w)%nat then [] else take w s :: tiles_from n w (drop w s)
  end.

(** The loop of [snapshot] makes at most one pass per unit of the span. *)
Definition span_tiles (w : nat) (s : text) : list text := tiles_from (length s) w s.

(** Tiles are pushed until the cap: those of the spans, oldest first, then the
    ones that came with an earlier leg. *)
Definition snapshot (l : TaintLedger) : TaintLedgerSnapshot :=
  let own := flat_map (fun sp => map fnv1a32 (span_tiles (Z.to_nat (tl_min l)) (ts_text sp))) (tl_spans l) in
  let tiles := take (Z.to_nat MAX_PERSISTED_TILE_HASHES) (own ++ tl_tiles l) in
  mkSnap (tl_untrustedSeen l) (tl_sensitiveSeen l) (tl_kinds l)
    (match tiles with [] => None | _ => Some tiles end).

(** ** The policy *)

Inductive DataFlowMode := MOff | MShadow | MEnforce.
Inductive TaintFlowKind := UntrustedToSink | LethalTrifecta | DerivedUntrustedToSink.
Inductive SinkKind := SkTool | SkAssistantOutput.

#[export] Instance mode_eq_dec : EqDecision DataFlowMode.
Proof. solve_decision. Defined.
#[export] Instance flow_eq_dec : EqDecision TaintFlowKind.
Proof. solve_decision. Defined.

Record DataFlowPolicyConfig := mkFlowConfig {
  cf_mode : DataFlowMode;
  cf_guardTrifecta : option bool;
  cf_sensitiveTiers : option (list Sensitivity);
  cf_treatPiiAsSensitive : option bool;
  cf_declassifySinks : option (list string);
  cf_minSpanLength : option Z;
  cf_derivedStrict : option bool;      (** [Some true] is [derivedTaint: 'strict'] *)
}.

Record DataFlowEvaluation := mkEval {
  ev_toolName : string;
  ev_sideEffectClass : SideEffectClass;
  ev_sinkKind : option SinkKind;
  ev_carriesUntrustedVerbatim : bool;
  ev_untrustedSeen : bool;
  ev_sensitiveSeen : bool;
  ev_sourceKinds : list string;
}.

Record DataFlowFinding := mkFinding {
  fd_flow : TaintFlowKind;
  fd_reason : string;
  fd_sourceKinds : list string;
}.

Inductive DataFlowDecision :=
| DAllow
| DFlag (f : DataFlowFinding)
| DDeclassify (f : DataFlowFinding)
| DBlock (f : DataFlowFinding).

Definition sink_class (c : SideEffectClass) : bool :=
  match c with SideEffecting | ExternalStateful => true | _ => false end.

Definition isSink (e : DataFlowEvaluation) : bool :=
  match ev_sinkKind e with
  | Some SkAssistantOutput => true
  | _ => sink_class (ev_sideEffectClass e)
  end.

Definition class_name (c : SideEffectClass) : string :=
  match c with
  | Pure => "pure" | ReadOnly => "read-only" | SideEffecting => "side-effecting"
  | ExternalStateful => "external-stateful"
  end.

Definition join_with (sep : string) (l : list string) : string := String.concat sep l.

Definition findingFor (flow : TaintFlowKind) (e : DataFlowEvaluation) : DataFlowFinding :=
  let kinds := match ev_sourceKinds e with [] => "untrusted" | ks => join_with ", " ks end in
  let sink := class_name (ev_sideEffectClass e) +:+ " sink '" +:+ ev_toolName e +:+ "'" in
  mkFinding flow
    (match flow with
     | UntrustedToSink => "untrusted content (" +:+ kinds +:+ ") flows verbatim into " +:+ sink
     | DerivedUntrustedToSink =>
         sink +:+ " fires after untrusted content (" +:+ kinds +:+ ") entered the run (derived taint, strict mode)"
     | LethalTrifecta =>
         sink +:+ " fires with untrusted content (" +:+ kinds
         +:+ ") and secret-tier data both present in the run (lethal trifecta)"
     end)
    (ev_sourceKinds e).

Definition finding_of (cfg : DataFlowPolicyConfig) (e : DataFlowEvaluation) : option DataFlowFinding :=
  if ev_carriesUntrustedVerbatim e then Some (findingFor UntrustedToSink e)
  else if default false (cf_derivedStrict cfg) && ev_untrustedSeen e
       then Some (findingFor DerivedUntrustedToSink e)
  else if default true (cf_guardTrifecta cfg) && ev_untrustedSeen e && ev_sensitiveSeen e
       then Some (findingFor LethalTrifecta e)
  else None.

Definition declassified (cfg : DataFlowPolicyConfig) (sink : string) : bool :=
  bool_decide (sink ∈ default [] (cf_declassifySinks cfg)).

Definition evaluate (cfg : DataFlowPolicyConfig) (e : DataFlowEvaluation) : DataFlowDecision :=
  if bool_decide (cf_mode cfg = MOff) || negb (isSink e) then DAllow
  else match finding_of cfg e with
       | None => DAllow
       | Some f =>
           if declassified cfg (ev_toolName e) then DDeclassify f
           else if bool_decide (cf_mode cfg = MShadow) then DFlag f else DBlock f
       end.

(** ** The taint ledger: windows, budget, latches, tiles

    Lemmas on the ledger of [Dataflow] and its theorems: what the verbatim
    probe detects and what it does not, that the coarse flags are exactly what
    was recorded, that the tracked text stays within its budget, and what
    survives a suspend and a resume. *)

(** ** Substrings *)

(** [g] occurs in [s]. *)
Definition occurs {A} (g s : list A) : Prop := exists a b, s = a ++ g ++ b.

Lemma occurs_refl {A} (s : list A) : occurs s s.
Proof. exists [], []. now rewrite app_nil_r. Qed.

Lemma occurs_trans {A} (a b c : list A) : occurs a b -> occurs b c -> occurs a c.
Proof.
  intros (p & q & ->) (p' & q' & ->). exists (p' ++ p), (q ++ q').
  now rewrite <- !(assoc_L (++)).
Qed.

Lemma occurs_length {A} (g s : list A) : occurs g s -> (length g <= length s)%nat.
Proof. intros (a & b & ->). rewrite !length_app. lia. Qed.

Lemma slice_occurs {A} i w (s : list A) : occurs (slice i w s) s.
Proof.
  exists (take i s), (drop w (drop i s)). unfold slice.
  now rewrite take_drop, take_drop.
Qed.

Lemma slice_length {A} i w (s : list A) : (i + w <= length s)%nat -> length (slice i w s) = w.
Proof. intros. unfold slice. rewrite length_take, length_drop. lia. Qed.

Lemma occurs_slice {A} (g s : list A) :
  occurs g s -> exists i, (i + length g <= length s)%nat /\ slice i (length g) s = g.
Proof.
  intros (a & b & ->). exists (length a). rewrite !length_app. split; [lia|].
  unfold slice. now rewrite drop_app_length, take_app_length.
Qed.

Lemma occurs_take {A} n (s : list A) : occurs (take n s) s.
Proof. exists [], (drop n s). now rewrite app_nil_l, take_drop. Qed.

(** Membership in the shingles is occurrence. *)
Lemma elem_of_grams w s g : g ∈ grams w s <-> (0 < w)%nat /\ length g = w /\ occurs g s.
Proof.
  unfold grams. destruct (bool_decide (w = 0%nat)) eqn:E0; cbn [orb].
  { apply bool_decide_eq_true in E0. split; [set_solver|lia]. }
  apply bool_decide_eq_false in E0.
  destruct (bool_decide (length s < w)%nat) eqn:E1.
  { apply bool_decide_eq_true in E1. split; [set_solver|].
    intros (_ & <- & Ho%occurs_length). lia. }
  apply bool_decide_eq_false in E1.
  rewrite list_elem_of_fmap. split.
  - intros (i & -> & Hi%elem_of_seq). split; [lia|]. split; [apply slice_length; lia|apply slice_occurs].
  - intros (Hw & <- & Ho). destruct (occurs_slice _ _ Ho) as (i & Hi & Hs).
    exists i. split; [now symmetry|]. apply elem_of_seq. lia.
Qed.

Lemma grams_nil w s : grams w s = [] <-> w = 0%nat \/ (length s < w)%nat.
Proof.
  unfold grams. destruct (decide (w = 0%nat)) as [->|]; [cbn; tauto|].
  rewrite (bool_decide_eq_false_2 (w = 0%nat)) by done. cbn [orb].
  case_bool_decide; [tauto|]. split; [|tauto].
  intros Hn%(f_equal length). rewrite length_map, length_seq in Hn. cbn in Hn. lia.
Qed.

Lemma sharesAnyGram_spec s gs w :
  sharesAnyGram s gs w = true <-> exists g, (0 < w)%nat /\ length g = w /\ occurs g s /\ g ∈ gs.
Proof.
  unfold sharesAnyGram. rewrite existsb_true_iff. setoid_rewrite bool_decide_eq_true.
  setoid_rewrite elem_of_grams. naive_solver.
Qed.

(** ** Sets *)

Lemma elem_of_added {A} `{EqDecision A} (x y : A) l : y ∈ set_add x l <-> y = x \/ y ∈ l.
Proof. unfold set_add. case_decide; set_solver. Qed.

Lemma elem_of_set_fold {A} `{EqDecision A} (y : A) l acc :
  y ∈ fold_left (fun acc x => set_add x acc) l acc <-> y ∈ acc \/ y ∈ l.
Proof.
  revert acc. induction l as [|x l IH]; intros acc; cbn [fold_left]; [set_solver|].
  rewrite IH, elem_of_added. set_solver.
Qed.

Lemma elem_of_set_of {A} `{EqDecision A} (y : A) l : y ∈ set_of l <-> y ∈ l.
Proof. unfold set_of. rewrite elem_of_set_fold. set_solver. Qed.

Lemma set_of_nil {A} `{EqDecision A} (l : list A) : set_of l = [] <-> l = [].
Proof.
  split; [|now intros ->]. intros E. apply list.elem_of_nil_inv. intros x Hx.
  apply elem_of_set_of in Hx. rewrite E in Hx. set_solver.
Qed.

(** ** The budget *)

Definition total (spans : list TrackedSpan) : Z := foldr (fun sp n => zlen (ts_text sp) + n) 0 spans.

Lemma zlen_nonneg {A} (l : list A) : 0 <= zlen l.
Proof. unfold zlen. lia. Qed.

Lemma total_cons sp spans : total (sp :: spans) = zlen (ts_text sp) + total spans.
Proof. done. Qed.

Lemma total_nonneg spans : 0 <= total spans.
Proof. induction spans as [|sp ss IH]; [done|]. rewrite total_cons. pose proof (zlen_nonneg (ts_text sp)). lia. Qed.

Lemma total_app a b : total (a ++ b) = total a + total b.
Proof. induction a as [|sp a IH]; [done|]. rewrite <- app_comm_cons, !total_cons. lia. Qed.

Lemma evict_cons max sp sp2 rest t :
  evict max (sp :: sp2 :: rest) t =
  if max <? t then evict max (sp2 :: rest) (t - zlen (ts_text sp)) else (sp :: sp2 :: rest, t).
Proof. done. Qed.

(** What an eviction keeps: a suffix, with its count, within the budget when
    the newest span is, and never more than needed. *)
Lemma evict_spec max spans :
  let '(spans', tracked') := evict max spans (total spans) in
  exists gone, spans = gone ++ spans' /\ tracked' = total spans' /\
    (spans <> [] -> spans' <> []) /\
    ((forall sp, last spans = Some sp -> zlen (ts_text sp) <= max) -> 0 <= max -> tracked' <= max) /\
    (forall early late, spans = early ++ late -> late <> [] -> total late <= max ->
       exists kept, spans' = kept ++ late).
Proof.
  induction spans as [|sp rest IH]; [|destruct rest as [|sp2 rest]].
  - exists []. do 3 (split; [done|]). split; [intros _ Hm; exact Hm|].
    intros early late E Hne _. symmetry in E. apply app_nil in E as [_ ->]. done.
  - exists []. do 3 (split; [done|]). split.
    + intros Hl _. specialize (Hl sp eq_refl). rewrite total_cons. cbn. lia.
    + intros early late E Hne _. destruct early as [|x early]; [exists []; now rewrite E|].
      injection E as _ E. symmetry in E. apply app_nil in E as [_ ->]. done.
  - rewrite evict_cons. destruct (Z.ltb_spec max (total (sp :: sp2 :: rest))) as [Hlt|Hge].
    + replace (total (sp :: sp2 :: rest) - zlen (ts_text sp)) with (total (sp2 :: rest))
        by (rewrite !total_cons; lia).
      destruct (evict max (sp2 :: rest) (total (sp2 :: rest))) as [spans' tracked'].
      destruct IH as (gone & E & -> & Hne & Hb & Hk). exists (sp :: gone).
      split; [now rewrite E|]. split; [done|]. split; [auto|]. split; [exact Hb|].
      intros [|x early] late E' Hne' Ht; cbn [app] in E'; [subst late; lia|].
      injection E' as <- E'. eauto.
    + exists []. do 3 (split; [done|]). split; [intros _ _; exact Hge|].
      intros early late E Hne _. exists early. now rewrite E.
Qed.

(** ** The invariant of a ledger *)

Record ledger_wf (l : TaintLedger) : Prop := {
  lw_min : MIN_TRUSTWORTHY_WINDOW <= tl_min l;
  lw_max : tl_min l <= tl_max l;
  lw_tracked : tl_tracked l = total (tl_spans l);
  lw_budget : tl_tracked l <= tl_max l;
  lw_long : Forall (fun sp => tl_min l <= zlen (ts_text sp)) (tl_spans l);
  lw_flag : tl_spans l <> [] -> tl_untrustedSeen l = true;
}.

Lemma create_wf opts : ledger_wf (createTaintLedger opts).
Proof.
  unfold createTaintLedger, MIN_TRUSTWORTHY_WINDOW. cbv zeta.
  split; cbn [tl_min tl_max tl_tracked tl_spans tl_untrustedSeen]; [unfold MIN_TRUSTWORTHY_WINDOW; lia|lia|done|lia|constructor|intros Hn; now destruct Hn].
Qed.

Section Facts.
Context (U : Unicode).

(** The text a span keeps of an output. *)
Definition bounded (max : Z) (s : text) : text := bound_span max (normalize U s).

Lemma bounded_length max s : 0 <= max -> zlen (bounded max s) = Z.min max (zlen (normalize U s)).
Proof.
  intros. unfold bounded, bound_span, zlen. destruct (Z.ltb_spec max (Z.of_nat (length (normalize U s)))); [|lia].
  rewrite length_take. lia.
Qed.

Lemma bounded_occurs max s : occurs (bounded max s) (normalize U s).
Proof. unfold bounded, bound_span. case_match; [apply occurs_take|apply occurs_refl]. Qed.

(** Tracking changes the spans only. *)
Lemma track_fields kind s l :
  tl_min (track U kind s l) = tl_min l /\ tl_max (track U kind s l) = tl_max l /\
  tl_pii (track U kind s l) = tl_pii l /\ tl_untrustedSeen (track U kind s l) = tl_untrustedSeen l /\
  tl_sensitiveSeen (track U kind s l) = tl_sensitiveSeen l /\ tl_kinds (track U kind s l) = tl_kinds l /\
  tl_tiles (track U kind s l) = tl_tiles l.
Proof. unfold track. case_match; [done|]. destruct (evict _ _ _). done. Qed.

Lemma last_snoc_inv {A} (l : list A) x y : last (l ++ [x]) = Some y -> y = x.
Proof. rewrite last_snoc. congruence. Qed.

(** What tracking leaves: a suffix of the spans with the new one last. *)
Lemma track_spans kind s l :
  ledger_wf l -> tl_min l <= zlen (normalize U s) ->
  exists gone kept,
    tl_spans l ++ [mkSpan (bounded (tl_max l) s) kind] = gone ++ tl_spans (track U kind s l) /\
    tl_spans (track U kind s l) = kept ++ [mkSpan (bounded (tl_max l) s) kind] /\
    tl_tracked (track U kind s l) = total (tl_spans (track U kind s l)) /\
    tl_tracked (track U kind s l) <= tl_max l /\
    (forall early late, tl_spans l = early ++ late ->
       total late + zlen (bounded (tl_max l) s) <= tl_max l ->
       exists k, tl_spans (track U kind s l) = k ++ late ++ [mkSpan (bounded (tl_max l) s) kind]).
Proof.
  intros Hwf Hlen. pose proof (lw_min _ Hwf) as Hmin. pose proof (lw_max _ Hwf) as Hmax.
  unfold MIN_TRUSTWORTHY_WINDOW in Hmin.
  pose proof (bounded_length (tl_max l) s ltac:(lia)) as Hb.
  unfold track. cbv zeta. fold (bounded (tl_max l) s). replace (zlen (normalize U s) <? tl_min l) with false by lia.
  set (sp := mkSpan (bounded (tl_max l) s) kind).
  assert (Ht : tl_tracked l + zlen (bounded (tl_max l) s) = total (tl_spans l ++ [sp])).
  { rewrite total_app, (lw_tracked _ Hwf). cbn. lia. }
  rewrite Ht. pose proof (evict_spec (tl_max l) (tl_spans l ++ [sp])) as Hev.
  destruct (evict (tl_max l) (tl_spans l ++ [sp]) _) as [spans' tracked'].
  destruct Hev as (gone & E & Htr & Hne & Hbud & Hk).
  cbn [tl_spans tl_tracked].
  destruct (Hk (tl_spans l) [sp] eq_refl ltac:(done) ltac:(cbn; lia)) as [kept ->].
  exists gone, kept. split; [done|]. split; [done|]. split; [done|]. split.
  { apply Hbud; [|lia]. intros y Hy%last_snoc_inv. subst y. cbn. lia. }
  intros early late E' Hl.
  destruct (Hk early (late ++ [sp])) as [k Hk'].
  - now rewrite E', (assoc_L (++)).
  - now destruct late.
  - rewrite total_app. cbn. lia.
  - now exists k.
Qed.

Lemma track_wf kind s l : ledger_wf l -> tl_untrustedSeen l = true -> ledger_wf (track U kind s l).
Proof.
  intros Hwf Hu. destruct (track_fields kind s l) as (Emin & Emax & _ & Eu & _).
  destruct (Z.ltb_spec (zlen (normalize U s)) (tl_min l)) as [Hs|Hs].
  { unfold track. now replace (_ <? _) with true by lia. }
  destruct (track_spans kind s l Hwf Hs) as (gone & kept & E1 & E2 & E3 & E4 & _).
  split; rewrite ?Emin, ?Emax; try apply Hwf; auto; [|congruence].
  assert (Hall : Forall (fun sp => tl_min l <= zlen (ts_text sp)) (tl_spans l ++ [mkSpan (bounded (tl_max l) s) kind])).
  { apply Forall_app. split; [apply Hwf|]. constructor; [|constructor]. cbn.
    pose proof (lw_max _ Hwf). pose proof (lw_min _ Hwf). unfold MIN_TRUSTWORTHY_WINDOW in *.
    rewrite bounded_length; lia. }
  rewrite E1 in Hall. now apply Forall_app in Hall as [_ Hall].
Qed.

Lemma ingest_wf label s l : ledger_wf l -> ledger_wf (ingest U label s l).
Proof.
  intros Hwf. unfold ingest. cbv zeta. destruct (tlb_untrusted label); cbn [negb].
  - apply track_wf; [|done]. split; try apply Hwf; done.
  - split; apply Hwf.
Qed.

Lemma recordAssistant_wf s l : ledger_wf l -> ledger_wf (recordAssistantOutput U s l).
Proof. intros Hwf. unfold recordAssistantOutput. destruct (tl_untrustedSeen l) eqn:E; [now apply track_wf|done]. Qed.

(** ** The probe *)

Lemma elem_of_matched k spans gs w acc :
  k ∈ fold_left (fun m sp => if sharesAnyGram (ts_text sp) gs w then set_add (ts_sourceKind sp) m else m) spans acc
  <-> k ∈ acc \/ exists sp, sp ∈ spans /\ ts_sourceKind sp = k /\ sharesAnyGram (ts_text sp) gs w = true.
Proof.
  revert acc. induction spans as [|sp spans IH]; intros acc; cbn [fold_left]; [set_solver|].
  rewrite IH. setoid_rewrite elem_of_cons.
  assert (Hacc : k ∈ (if sharesAnyGram (ts_text sp) gs w then set_add (ts_sourceKind sp) acc else acc)
    <-> k ∈ acc \/ (ts_sourceKind sp = k /\ sharesAnyGram (ts_text sp) gs w = true)).
  { destruct (sharesAnyGram _ _ _); [rewrite elem_of_added|]; split; intuition (subst; auto; done). }
  rewrite Hacc. clear. split.
  - intros [[?|[? ?]]|(x & ? & ?)]; [auto|right; exists sp; auto|right; exists x; tauto].
  - intros [?|(x & [->|?] & ? & ?)]; [auto|auto|]. right. exists x. auto.
Qed.

(** The window a probe compares. *)
Definition window (l : TaintLedger) (args : text) : Z := Z.min (tl_min l) (zlen (normalize U args)).

(** A tracked span, and a text of the window's length found in it and in the
    arguments. *)
Definition span_match (l : TaintLedger) (args : text) (sp : TrackedSpan) : Prop :=
  sp ∈ tl_spans l /\
  exists g, zlen g = window l args /\ occurs g (ts_text sp) /\ occurs g (normalize U args).

(** A text of the full window in the arguments whose hash was rehydrated. *)
Definition tile_match (l : TaintLedger) (args : text) : Prop :=
  window l args = tl_min l /\
  exists g, zlen g = window l args /\ occurs g (normalize U args) /\ fnv1a32 g ∈ tl_tiles l.

Lemma shares_span_match l args sp :
  ledger_wf l -> MIN_TRUSTWORTHY_WINDOW <= window l args -> sp ∈ tl_spans l ->
  sharesAnyGram (ts_text sp) (shingles (normalize U args) (Z.to_nat (window l args))) (Z.to_nat (window l args)) = true
  <-> span_match l args sp.
Proof.
  intros Hwf Hw Hsp. unfold MIN_TRUSTWORTHY_WINDOW in Hw.
  rewrite sharesAnyGram_spec. unfold span_match, shingles, zlen.
  setoid_rewrite elem_of_grams. split.
  - intros (g & _ & Hl & Ho & _ & _ & Ha). split; [done|]. exists g. split; [lia|auto].
  - intros (_ & g & Hl & Ho & Ha). exists g. repeat split; auto; lia.
Qed.

Lemma tile_probe_spec l args :
  MIN_TRUSTWORTHY_WINDOW <= window l args ->
  bool_decide (window l args = tl_min l) &&
  existsb (fun g => bool_decide (fnv1a32 g ∈ tl_tiles l)) (shingles (normalize U args) (Z.to_nat (window l args))) = true
  <-> tile_match l args.
Proof.
  intros Hw. unfold MIN_TRUSTWORTHY_WINDOW in Hw.
  rewrite andb_true_iff, bool_decide_eq_true, existsb_true_iff. unfold tile_match, shingles, zlen.
  setoid_rewrite elem_of_grams. setoid_rewrite bool_decide_eq_true. split.
  - intros (E & g & (_ & Hl & Ho) & Ht). split; [done|]. exists g. repeat split; auto; lia.
  - intros (E & g & Hl & Ho & Ht). split; [done|]. exists g. repeat split; auto; lia.
Qed.

(** What the probe answers: the kinds of the spans that match, else the marker
    of a rehydrated tile. *)
Lemma inspect_spec l args :
  ledger_wf l ->
  (forall k, k ∈ pb_matchedSourceKinds (inspectArgs U args l) <->
     MIN_TRUSTWORTHY_WINDOW <= window l args /\
     ((exists sp, ts_sourceKind sp = k /\ span_match l args sp) \/
      (k = "resumed-untrusted" /\ tile_match l args /\ forall sp, ~ span_match l args sp))) /\
  (pb_carriesUntrustedVerbatim (inspectArgs U args l) = true <->
     pb_matchedSourceKinds (inspectArgs U args l) <> []).
Proof.
  intros Hwf. unfold inspectArgs. cbv zeta. fold (window l args).
  destruct (Z.ltb_spec (window l args) MIN_TRUSTWORTHY_WINDOW) as [Hw|Hw]; cbn [orb].
  { split; [|done]. intros k. cbn [pb_matchedSourceKinds]. split; [set_solver|]. intros [? _]. lia. }
  case_bool_decide as Hempty.
  { split; [|done]. intros k. cbn [pb_matchedSourceKinds]. split; [set_solver|].
    destruct Hempty as [E1 E2]. unfold span_match, tile_match. rewrite E1, E2. set_solver. }
  destruct (shingles (normalize U args) (Z.to_nat (window l args))) as [|g0 gs0] eqn:Eg.
  { exfalso. unfold shingles in Eg. apply grams_nil in Eg.
    unfold window, MIN_TRUSTWORTHY_WINDOW, zlen in *. lia. }
  rewrite <- Eg. clear Eg g0 gs0.
  set (matched := fold_left _ (tl_spans l) []).
  assert (Hm : forall k, k ∈ matched <-> exists sp, ts_sourceKind sp = k /\ span_match l args sp).
  { intros k. unfold matched. rewrite elem_of_matched. split.
    - intros [?|(sp & Hsp & Hk & Hs)]; [set_solver|]. exists sp. split; [done|].
      now apply shares_span_match.
    - intros (sp & Hk & Hs). right. exists sp. destruct Hs as [Hin Hs]. repeat split; auto.
      now apply shares_span_match. }
  clearbody matched.
  assert (Hnil : matched = [] <-> forall sp, ~ span_match l args sp).
  { split; [|intros Hn; apply list.elem_of_nil_inv; intros k (sp & _ & Hs)%Hm; exact (Hn sp Hs)].
    intros -> sp Hs. apply (list.not_elem_of_nil (ts_sourceKind sp)), Hm. eauto. }
  set (probe := _ && _). assert (Hp : probe = true <-> tile_match l args) by now apply tile_probe_spec.
  clearbody probe. cbn [pb_carriesUntrustedVerbatim pb_matchedSourceKinds].
  split; [|case_match; split; done].
  intros k. destruct matched as [|m ms].
  - assert (Hno := proj1 Hnil eq_refl).
    assert (Hgoal : k ∈ (if probe then ["resumed-untrusted"] else []) <->
      MIN_TRUSTWORTHY_WINDOW <= window l args /\
      ((exists sp, ts_sourceKind sp = k /\ span_match l args sp) \/
       (k = "resumed-untrusted" /\ tile_match l args /\ forall sp, ~ span_match l args sp))).
    { destruct probe; [rewrite list_elem_of_singleton|]; naive_solver set_solver. }
    destruct (tl_tiles l) as [|t ts] eqn:Et; [|exact Hgoal].
    destruct probe; [|exact Hgoal]. destruct (proj1 Hp eq_refl) as (_ & g & _ & _ & Hin).
    rewrite Et in Hin. set_solver.
  - rewrite Hm. split; [eauto|]. intros (_ & [Hs|(_ & _ & Hn)]); [done|].
    now apply Hnil in Hn.
Qed.

End Facts.
