(* ===== verification/FlowGuard.v ===== *)
(** * The agent's data-flow guard: one taint ledger per run

    [packages/agent/src/tooling/dataflow.ts]: [buildDataFlowGuard] keeps a
    ledger for each run it has seen, in a map bounded by insertion order,
    routes the executor's inspections and records to it, and moves its summary
    over a suspend and a resume.

    The catalogue behind [containsPii] is a parameter.  Tool arguments are JSON
    data: values with functions, symbols or host objects inside, which
    [JSON.stringify] treats specially, do not occur in them. *)

From S2P Require Import Prelude JsValue Json Dataflow DataflowProps.
From stdpp Require Import gmap.

Local Open Scope string_scope.
Local Open Scope list_scope.
Local Open Scope Z_scope.

Record TaintOverride := mkOverride {
  to_untrusted : option bool;
  to_sensitive : option bool;
  to_sourceKind : option string;
}.

Record DataFlowRecordInput := mkRecordInput {
  ri_runId : string;
  ri_trustClass : ToolTrustClass;
  ri_taintOverride : option TaintOverride;
  ri_sensitivity : option Sensitivity;
  ri_source : option ToolSource;
  ri_outputText : text;
}.

Record DataFlowInspectInput := mkInspectInput {
  ii_runId : string;
  ii_toolName : string;
  ii_sideEffectClass : SideEffectClass;
  ii_args : value;
}.

Record InboundTaintSeed := mkSeed {
  is_text : text;
  is_sourceKind : option string;
  is_sensitive : option bool;
}.

Definition MAX_TRACKED_RUNS : nat := 128.

Definition stringifyArgs (v : value) : text :=
  match v with
  | VStr s => units s
  | VUndef => []
  | _ => units (JSON_stringify v)
  end.

Definition ledgers := list (string * TaintLedger).

Section Guard.
Context (U : Unicode) (containsPii : text -> bool) (cfg : DataFlowPolicyConfig).

Definition ledgerOpts (initial : option TaintLedgerSnapshot) : LedgerOpts :=
  mkOpts (cf_minSpanLength cfg) None initial
    (if bool_decide (cf_treatPiiAsSensitive cfg = Some true) then Some containsPii else None).

(** The ledger of a run, made on first use; the oldest ones leave while there
    are more than [MAX_TRACKED_RUNS]. *)
Definition ledgerFor (runId : string) (g : ledgers) : ledgers * TaintLedger :=
  match jget runId g with
  | Some l => (g, l)
  | None =>
      let l := createTaintLedger (ledgerOpts None) in
      let g' := jset runId l g in
      (drop (length g' - MAX_TRACKED_RUNS) g', l)
  end.

(** Run a method of the run's ledger. *)
Definition with_ledger (runId : string) (f : TaintLedger -> TaintLedger) (g : ledgers) : ledgers :=
  let '(g', l) := ledgerFor runId g in jset runId (f l) g'.

Definition evaluation_of (l : TaintLedger) (toolName : string) (cls : SideEffectClass) (kind : option SinkKind)
    (argsText : text) : DataFlowEvaluation :=
  let probe := inspectArgs U argsText l in
  mkEval toolName cls kind (pb_carriesUntrustedVerbatim probe) (tl_untrustedSeen l) (tl_sensitiveSeen l)
    (match pb_matchedSourceKinds probe with [] => tl_kinds l | ks => ks end).

(** [inspect]. *)
Definition inspect (i : DataFlowInspectInput) (g : ledgers) : ledgers * DataFlowDecision :=
  let '(g', l) := ledgerFor (ii_runId i) g in
  (g', evaluate cfg (evaluation_of l (ii_toolName i) (ii_sideEffectClass i) None (stringifyArgs (ii_args i)))).

Definition inspectAssistantOutput (runId : string) (s : text) (g : ledgers) : ledgers * DataFlowDecision :=
  let '(g', l) := ledgerFor runId g in
  (g', evaluate cfg (evaluation_of l "assistant-output" ReadOnly (Some SkAssistantOutput) s)).

(** The derived label, widened by the override. *)
Definition record_label (i : DataFlowRecordInput) : TaintLabel :=
  let derived := deriveTaintLabel (ri_trustClass i) (ri_source i) (ri_sensitivity i) (cf_sensitiveTiers cfg) in
  match ri_taintOverride i with
  | None => derived
  | Some o =>
      mkLabel (tlb_trustClass derived)
        (match to_untrusted o, to_sourceKind o with
         | Some true, Some k => k
         | _, _ => tlb_sourceKind derived
         end)
        (tlb_sensitivity derived)
        (tlb_untrusted derived || bool_decide (to_untrusted o = Some true))
        (tlb_sensitive derived || bool_decide (to_sensitive o = Some true))
  end.

(** [record]. *)
Definition record (i : DataFlowRecordInput) (g : ledgers) : ledgers :=
  with_ledger (ri_runId i) (recordOutput U (record_label i) (ri_outputText i)) g.

Definition recordAssistant (runId : string) (s : text) (g : ledgers) : ledgers :=
  match s with
  | [] => g
  | _ => with_ledger runId (recordAssistantOutput U s) g
  end.

Definition inbound_label (seed : InboundTaintSeed) : TaintLabel :=
  mkLabel ChannelInbound (default "channel-inbound" (is_sourceKind seed)) None
    (isUntrustedTrustClass ChannelInbound) (bool_decide (is_sensitive seed = Some true)).

(** [recordInboundMessage] of the guard. *)
Definition guardInbound (runId : string) (seed : InboundTaintSeed) (g : ledgers) : ledgers :=
  with_ledger runId (recordInboundMessage U (inbound_label seed) (is_text seed)) g.

Definition snapshotLedger (runId : string) (g : ledgers) : option TaintLedgerSnapshot := snapshot <$> jget runId g.

Definition seedLedger (runId : string) (summary : TaintLedgerSnapshot) (g : ledgers) : ledgers :=
  jset runId (createTaintLedger (ledgerOpts (Some summary))) g.

(** ** Calls in sequence *)

Inductive GuardCall :=
| GInspect (i : DataFlowInspectInput)
| GInspectOut (runId : string) (s : text)
| GRecord (i : DataFlowRecordInput)
| GAssistant (runId : string) (s : text)
| GInbound (runId : string) (seed : InboundTaintSeed)
| GSeed (runId : string) (summary : TaintLedgerSnapshot).

Definition call_run (c : GuardCall) : string :=
  match c with
  | GInspect i => ii_runId i
  | GRecord i => ri_runId i
  | GInspectOut r _ | GAssistant r _ | GInbound r _ | GSeed r _ => r
  end.

Definition exec_guard (c : GuardCall) (g : ledgers) : ledgers :=
  match c with
  | GInspect i => (inspect i g).1
  | GInspectOut r s => (inspectAssistantOutput r s g).1
  | GRecord i => record i g
  | GAssistant r s => recordAssistant r s g
  | GInbound r seed => guardInbound r seed g
  | GSeed r s => seedLedger r s g
  end.

Definition run_guard (h : list GuardCall) (g : ledgers) : ledgers := fold_left (fun g c => exec_guard c g) h g.

(** ** The specification: every run has a ledger of its own *)

Definition own_step (c : GuardCall) (l : TaintLedger) : TaintLedger :=
  match c with
  | GInspect _ | GInspectOut _ _ => l
  | GRecord i => recordOutput U (record_label i) (ri_outputText i) l
  | GAssistant _ s => match s with [] => l | _ => recordAssistantOutput U s l end
  | GInbound _ seed => recordInboundMessage U (inbound_label seed) (is_text seed) l
  | GSeed _ s => createTaintLedger (ledgerOpts (Some s))
  end.

Definition private (r : string) (h : list GuardCall) : TaintLedger :=
  fold_left (fun l c => if decide (call_run c = r) then own_step c l else l) h (createTaintLedger (ledgerOpts None)).

(** The other runs a history mentions. *)
Definition others (r : string) (h : list GuardCall) : gset string := list_to_set (map call_run h) ∖ {[ r ]}.

(** Does the call make sure the run has a ledger? *)
Definition touches (c : GuardCall) : bool := match c with GAssistant _ [] => false | _ => true end.

End Guard.

(** ** Runs share the guard, not their ledgers

    The bounded map of [FlowGuard] refines a specification in which every run
    has a ledger of its own, as long as fewer than [MAX_TRACKED_RUNS] other runs
    come up after the run's first call.  From it follow the guarantees of the
    sink gate over a run that is suspended and resumed; past the bound the gate
    forgets. *)

(** ** A key that stays *)

Lemma jset_app {A} k (v : A) a b :
  jset k v (a ++ b) = if decide (k ∈ jkeys a) then jset k v a ++ b else a ++ jset k v b.
Proof.
  induction a as [|[k' v'] a IH]; [done|]. cbn [app jset jkeys map fst].
  destruct (decide (k = k')) as [->|Hne].
  - rewrite decide_True by set_solver. done.
  - rewrite IH. fold (jkeys a). destruct (decide (k ∈ jkeys a)).
    + now rewrite decide_True by set_solver.
    + rewrite decide_False by set_solver. done.
Qed.

Lemma jkeys_app {A} (a b : list (string * A)) : jkeys (a ++ b) = jkeys a ++ jkeys b.
Proof. apply map_app. Qed.

(** The run's ledger is in the map, and only runs of [S] came after it. *)
Definition kept (r : string) (L : TaintLedger) (S : gset string) (g : ledgers) : Prop :=
  jwf g /\ exists l1 l2, g = l1 ++ (r, L) :: l2 /\ forall k, k ∈ jkeys l2 -> k ∈ S.

Lemma kept_split r (L : TaintLedger) g l1 l2 :
  jwf g -> g = l1 ++ (r, L) :: l2 -> r ∉ jkeys l1 /\ r ∉ jkeys l2 /\ NoDup (jkeys l2).
Proof.
  unfold jwf. intros Hwf ->. rewrite jkeys_app in Hwf. apply NoDup_app in Hwf as (_ & Hd & H2).
  cbn [jkeys map fst] in Hd, H2. fold (jkeys l2) in *. apply NoDup_cons in H2 as [Hn H2].
  split; [|done]. intros Hr. apply (Hd r Hr). left.
Qed.

Lemma kept_get r L S g : kept r L S g -> jget r g = Some L.
Proof.
  intros (Hwf & l1 & l2 & -> & _). destruct (kept_split r L _ l1 l2 Hwf eq_refl) as (Hn & _).
  rewrite jget_app. apply jget_None in Hn as ->. cbn [jget]. now rewrite decide_True.
Qed.

Lemma kept_set r L L' S g : kept r L S g -> kept r L' S (jset r L' g).
Proof.
  intros (Hwf & l1 & l2 & -> & Hs). split; [now apply jset_wf|].
  destruct (kept_split r L _ l1 l2 Hwf eq_refl) as (Hn & _).
  exists l1, l2. rewrite jset_app, decide_False by done. cbn [jset]. now rewrite decide_True.
Qed.

Lemma jkeys_jset_sub {A} k (v : A) l x : x ∈ jkeys (jset k v l) -> x = k \/ x ∈ jkeys l.
Proof. rewrite jkeys_jset. case_decide; set_solver. Qed.

Lemma kept_set_other r L S g k v : kept r L S g -> k <> r -> k ∈ S -> kept r L S (jset k v g).
Proof.
  intros (Hwf & l1 & l2 & -> & Hs) Hne Hk. split; [now apply jset_wf|].
  rewrite jset_app. case_decide.
  - now exists (jset k v l1), l2.
  - cbn [jset]. rewrite decide_False by done. exists l1, (jset k v l2). split; [done|].
    intros x [->|Hx]%jkeys_jset_sub; auto.
Qed.

Lemma kept_evict r L S g :
  kept r L S g -> (size S < MAX_TRACKED_RUNS)%nat -> kept r L S (drop (length g - MAX_TRACKED_RUNS) g).
Proof.
  intros (Hwf & l1 & l2 & -> & Hs) Hsize.
  destruct (kept_split r L _ l1 l2 Hwf eq_refl) as (_ & _ & Hnd).
  assert (Hl : (length l2 <= size S)%nat).
  { rewrite <- (length_map fst l2). fold (jkeys l2).
    rewrite <- (size_list_to_set (C := gset string) (jkeys l2)) by done.
    apply subseteq_size. intros x. rewrite elem_of_list_to_set. apply Hs. }
  split.
  - unfold jwf, jkeys in *.
    rewrite <- skipn_map. eapply sublist_NoDup; [exact Hwf|apply sublist_drop].
  - exists (drop (length (l1 ++ (r, L) :: l2) - MAX_TRACKED_RUNS) l1), l2. split; [|done].
    rewrite drop_app_le; [done|]. rewrite length_app. cbn [length]. lia.
Qed.

Section Isolation.
Context (U : Unicode) (containsPii : text -> bool) (cfg : DataFlowPolicyConfig).

Local Notation exec := (exec_guard U containsPii cfg).
Local Notation step := (own_step U containsPii cfg).

(** ** One call *)

Lemma ledgerFor_own r L S g : kept r L S g -> ledgerFor containsPii cfg r g = (g, L).
Proof. intros Hk. unfold ledgerFor. now rewrite (kept_get _ _ _ _ Hk). Qed.

Lemma ledgerFor_other r L S g k :
  kept r L S g -> k <> r -> k ∈ S -> (size S < MAX_TRACKED_RUNS)%nat ->
  kept r L S (ledgerFor containsPii cfg k g).1.
Proof.
  intros Hk Hne Hin Hs. unfold ledgerFor. destruct (jget k g); [done|]. cbn [fst].
  apply kept_evict; [|done]. now apply kept_set_other.
Qed.

Lemma exec_own r L S g c : kept r L S g -> call_run c = r -> kept r (step c L) S (exec c g).
Proof.
  intros Hk <-.
  destruct c as [i|r s|i|r [|x s]|r seed|r sm]; cbn [call_run exec_guard own_step recordAssistant] in *;
    unfold inspect, inspectAssistantOutput, record, guardInbound, seedLedger, with_ledger in *;
    rewrite ?(ledgerFor_own _ _ _ _ Hk); try exact Hk; now apply (kept_set _ L).
Qed.

Lemma exec_other r L S g c :
  kept r L S g -> call_run c <> r -> call_run c ∈ S -> (size S < MAX_TRACKED_RUNS)%nat -> kept r L S (exec c g).
Proof.
  intros Hk Hne Hin Hs. pose proof (ledgerFor_other r L S g (call_run c) Hk Hne Hin Hs) as Hf.
  destruct c as [i|r' s|i|r' [|x s]|r' seed|r' sm]; cbn [call_run exec_guard recordAssistant] in *;
    unfold inspect, inspectAssistantOutput, record, guardInbound, seedLedger, with_ledger in *;
    try (destruct (ledgerFor _ _ _ _) as [g' l]); cbn [fst] in *; auto using kept_set_other.
Qed.

Lemma run_kept r h L S g :
  kept r L S g -> (forall k, k ∈ map call_run h -> k <> r -> k ∈ S) -> (size S < MAX_TRACKED_RUNS)%nat ->
  kept r (fold_left (fun l c => if decide (call_run c = r) then step c l else l) h L) S (run_guard U containsPii cfg h g).
Proof.
  revert L g. induction h as [|c h IH]; intros L g Hk Hin Hs; [done|].
  cbn [fold_left run_guard]. apply IH; [|intros; apply Hin; [now right|done]|done].
  case_decide; [now apply exec_own|]. apply exec_other; auto. apply Hin; [now left|done].
Qed.

(** The first call of a run. *)
Lemma first_kept r g c :
  jwf g -> r ∉ jkeys g -> call_run c = r -> touches c = true ->
  kept r (step c (createTaintLedger (ledgerOpts containsPii cfg None))) ∅ (exec c g).
Proof.
  intros Hwf Hr <- Ht. set (r := call_run c) in *.
  assert (Hnew : forall L, kept r L ∅ (jset r L g)).
  { intros L. split; [now apply jset_wf|]. exists g, []. split; [now apply jset_fresh|set_solver]. }
  assert (Hfor : kept r (createTaintLedger (ledgerOpts containsPii cfg None)) ∅ (ledgerFor containsPii cfg r g).1 /\
                 (ledgerFor containsPii cfg r g).2 = createTaintLedger (ledgerOpts containsPii cfg None)).
  { unfold ledgerFor. rewrite (proj2 (jget_None r g) Hr). cbn [fst snd]. split; [|done].
    apply kept_evict; [apply Hnew|]. rewrite size_empty. unfold MAX_TRACKED_RUNS. lia. }
  destruct (ledgerFor containsPii cfg r g) as [g' l] eqn:E. cbn [fst snd] in Hfor. destruct Hfor as [Hk ->].
  destruct c as [i|r' s|i|r' [|x s]|r' seed|r' sm]; cbn [call_run exec_guard own_step recordAssistant touches] in *;
    try done; unfold r in *;
    unfold inspect, inspectAssistantOutput, record, guardInbound, seedLedger, with_ledger in *;
    rewrite ?E; cbn [fst]; eauto using kept_set.
Qed.

Lemma elem_of_others r h k : k ∈ map call_run h -> k <> r -> k ∈ others r h.
Proof. unfold others. set_solver. Qed.

(** After a history that starts with a call of the run, its ledger is its own. *)
Lemma private_ledger r g c h :
  jwf g -> r ∉ jkeys g -> call_run c = r -> touches c = true ->
  (size (others r (c :: h)) < MAX_TRACKED_RUNS)%nat ->
  exists S, (size S < MAX_TRACKED_RUNS)%nat /\
    kept r (private U containsPii cfg r (c :: h)) S (run_guard U containsPii cfg (c :: h) g).
Proof.
  intros Hwf Hr Hc Ht Hs. exists (others r (c :: h)). split; [done|].
  unfold private. cbn [fold_left run_guard]. rewrite decide_True by done. apply run_kept; [|..|done].
  - pose proof (first_kept r g c Hwf Hr Hc Ht) as (Hw & l1 & l2 & E & He). split; [done|].
    exists l1, l2. split; [done|]. intros k Hk. specialize (He k Hk). set_solver.
  - intros k Hk Hne. apply elem_of_others; [now right|done].
Qed.

(** The ledger a run is served from, after any history of an agent's guard. *)
Lemma run_guard_snoc h c g : run_guard U containsPii cfg (h ++ [c]) g = exec c (run_guard U containsPii cfg h g).
Proof. unfold run_guard. now rewrite fold_left_app. Qed.

Lemma exec_wf c g : jwf g -> jwf (exec c g).
Proof.
  intros Hwf.
  assert (Hdrop : forall n (l : ledgers), jwf l -> jwf (drop n l)).
  { intros n l Hl. unfold jwf, jkeys in *. rewrite <- skipn_map. eapply sublist_NoDup; [exact Hl|apply sublist_drop]. }
  assert (Hfor : forall k, jwf (ledgerFor containsPii cfg k g).1).
  { intros k. unfold ledgerFor. destruct (jget k g); [done|]. apply Hdrop. now apply jset_wf. }
  specialize (Hfor (call_run c)).
  destruct c as [i|r' s|i|r' [|x s]|r' seed|r' sm]; cbn [call_run exec_guard recordAssistant] in *;
    unfold inspect, inspectAssistantOutput, record, guardInbound, seedLedger, with_ledger in *;
    try (destruct (ledgerFor _ _ _ _) as [g' l]); cbn [fst] in *; auto using jset_wf.
Qed.

Lemma exec_absent r c g :
  r ∉ jkeys g -> call_run c <> r -> r ∉ jkeys (exec c g).
Proof.
  intros Hr Hne.
  assert (Hset : forall k v (l : ledgers), k <> r -> r ∉ jkeys l -> r ∉ jkeys (jset k v l)).
  { intros k v l Hk Hl [->|Hin]%jkeys_jset_sub; done. }
  assert (Hfor : forall k, k <> r -> r ∉ jkeys (ledgerFor containsPii cfg k g).1).
  { intros k Hk. unfold ledgerFor. destruct (jget k g); [done|]. cbn [fst]. unfold jkeys. rewrite <- skipn_map.
    intros Hin. apply (Hset k (createTaintLedger (ledgerOpts containsPii cfg None)) g Hk Hr).
    eapply elem_of_sublist; [exact Hin|apply sublist_drop]. }
  specialize (Hfor (call_run c) Hne).
  destruct c as [i|r' s|i|r' [|x s]|r' seed|r' sm]; cbn [call_run exec_guard recordAssistant] in *;
    unfold inspect, inspectAssistantOutput, record, guardInbound, seedLedger, with_ledger in *;
    try (destruct (ledgerFor _ _ _ _) as [g' l]); cbn [fst] in *; auto.
Qed.

Lemma private_snoc r h c :
  private U containsPii cfg r (h ++ [c]) =
  if decide (call_run c = r) then step c (private U containsPii cfg r h) else private U containsPii cfg r h.
Proof. unfold private. now rewrite fold_left_app. Qed.

Lemma history_kept r S h :
  (forall k, k ∈ map call_run h -> k <> r -> k ∈ S) -> (size S < MAX_TRACKED_RUNS)%nat ->
  let g := run_guard U containsPii cfg h [] in
  jwf g /\
  ((r ∉ jkeys g /\ private U containsPii cfg r h = createTaintLedger (ledgerOpts containsPii cfg None)) \/
   kept r (private U containsPii cfg r h) S g).
Proof.
  intros Hin Hs. induction h as [|c h IH] using rev_ind.
  { split; [constructor|]. left. split; [intros Hn; inversion Hn|done]. }
  rewrite map_app in Hin. cbn [map] in Hin. destruct IH as [Hwf IH]; [intros k Hk; apply Hin; set_solver|].
  cbv zeta. rewrite run_guard_snoc, private_snoc. split; [now apply exec_wf|].
  destruct IH as [[Habs Hfresh]|Hk].
  - case_decide as Hc.
    + destruct (touches c) eqn:Et.
      * right. rewrite Hfresh. destruct (first_kept r _ c Hwf Habs Hc Et) as (Hw & l1 & l2 & E & He).
        split; [exact Hw|]. exists l1, l2. split; [exact E|]. set_solver.
      * left. destruct c as [| | |r' [|x s]| |]; cbn in Et; done.
    + left. split; [now apply exec_absent|done].
  - right. case_decide as Hc; [now apply exec_own|]. apply exec_other; auto. apply Hin; [set_solver|done].
Qed.

Lemma history_ledger r h :
  (size (others r h) < MAX_TRACKED_RUNS)%nat ->
  (ledgerFor containsPii cfg r (run_guard U containsPii cfg h [])).2 = private U containsPii cfg r h.
Proof.
  intros Hs. destruct (history_kept r (others r h) h) as [_ [[Habs Hf]|Hk]]; [apply elem_of_others|done|..].
  - unfold ledgerFor. rewrite (proj2 (jget_None r _) Habs). cbn [snd]. now symmetry.
  - now rewrite (ledgerFor_own _ _ _ _ Hk).
Qed.

(** ** Legs of a run *)

(** The runs whose ledgers are younger than that of [r]. *)
Fixpoint later (r : string) (g : ledgers) : gset string :=
  match g with
  | [] => ∅
  | (k, _) :: g' => if decide (k = r) then list_to_set (jkeys g') else later r g'
  end.

Lemma later_split r L (l1 l2 : ledgers) : r ∉ jkeys l1 -> later r (l1 ++ (r, L) :: l2) = list_to_set (jkeys l2).
Proof.
  induction l1 as [|[k v] l1 IH]; intros Hn; cbn [app later]; [now rewrite decide_True|].
  cbn [jkeys map fst] in Hn. fold (jkeys l1) in Hn. rewrite decide_False by set_solver. apply IH. set_solver.
Qed.

Lemma jget_split r L (g : ledgers) :
  jget r g = Some L -> exists l1 l2, g = l1 ++ (r, L) :: l2 /\ r ∉ jkeys l1.
Proof.
  induction g as [|[k v] g IH]; [done|]. cbn [jget]. case_decide as E.
  - subst k. intros [= ->]. exists [], g. split; [done|]. set_solver.
  - intros Hg. destruct (IH Hg) as (l1 & l2 & -> & Hn). exists ((k, v) :: l1), l2. split; [done|].
    cbn [jkeys map fst]. fold (jkeys l1). set_solver.
Qed.

Lemma seed_kept r g sm :
  jwf g -> kept r (createTaintLedger (ledgerOpts containsPii cfg (Some sm))) (later r g) (seedLedger containsPii cfg r sm g).
Proof.
  intros Hwf. unfold seedLedger. destruct (jget r g) as [L|] eqn:E.
  - destruct (jget_split _ _ _ E) as (l1 & l2 & -> & Hn). apply (kept_set r L).
    split; [done|]. exists l1, l2. split; [done|]. rewrite later_split by done. set_solver.
  - split; [now apply jset_wf|]. exists g, []. split; [|set_solver]. apply jset_fresh. now apply jget_None.
Qed.

(** What a call reports about the run it belongs to. *)
Definition reports_untrusted (r : string) (c : GuardCall) : bool :=
  bool_decide (call_run c = r) &&
  match c with
  | GRecord i => tlb_untrusted (record_label cfg i)
  | GInbound _ _ => true
  | _ => false
  end.

Definition pii_on : option (text -> bool) := lo_piiSensitivity (ledgerOpts containsPii cfg None).

Definition reports_sensitive (r : string) (c : GuardCall) : bool :=
  bool_decide (call_run c = r) &&
  match c with
  | GRecord i => tlb_sensitive (record_label cfg i) || match pii_on with Some p => p (ri_outputText i) | None => false end
  | GInbound _ seed =>
      bool_decide (is_sensitive seed = Some true) || match pii_on with Some p => p (is_text seed) | None => false end
  | _ => false
  end.

Definition is_seed (r : string) (c : GuardCall) : bool :=
  match c with GSeed r' _ => bool_decide (r' = r) | _ => false end.

Lemma own_step_flags r c l :
  call_run c = r -> is_seed r c = false -> tl_pii l = pii_on ->
  tl_pii (step c l) = pii_on /\
  tl_untrustedSeen (step c l) = tl_untrustedSeen l || reports_untrusted r c /\
  tl_sensitiveSeen (step c l) = tl_sensitiveSeen l || reports_sensitive r c.
Proof.
  intros Hr Hs Hp. unfold reports_untrusted, reports_sensitive. rewrite bool_decide_eq_true_2 by done. cbn [andb].
  destruct c as [i|r' t|i|r' t|r' seed|r' sm]; cbn [own_step is_seed call_run] in *; rewrite ?orb_false_r; auto.
  - destruct (ingest_fields U (record_label cfg i) (ri_outputText i) l) as (_ & _ & E1 & _ & E2 & E3 & _).
    unfold recordOutput. rewrite E1, E2, E3, Hp. auto.
  - destruct t as [|x t]; [auto|].
    destruct (apply_op_fields U (LAssistant (x :: t)) l) as (_ & _ & E1 & _ & E2 & E3).
    cbn [apply_op op_untrusted op_sensitive op_label] in *. rewrite orb_false_r in E2, E3. rewrite E1, E2, E3. auto.
  - destruct (ingest_fields U (inbound_label seed) (is_text seed) l) as (_ & _ & E1 & _ & E2 & E3 & _).
    unfold recordInboundMessage. rewrite E1, E2, E3, Hp. auto.
  - rewrite bool_decide_eq_true_2 in Hs by done. done.
Qed.

Lemma run_flags r h l :
  Forall (fun c => is_seed r c = false) h -> tl_pii l = pii_on ->
  let l' := fold_left (fun l c => if decide (call_run c = r) then step c l else l) h l in
  tl_untrustedSeen l' = tl_untrustedSeen l || existsb (reports_untrusted r) h /\
  tl_sensitiveSeen l' = tl_sensitiveSeen l || existsb (reports_sensitive r) h.
Proof.
  intros Hs. revert l. induction Hs as [|c h Hc Hs IH]; intros l Hp l'; unfold l'; cbn [fold_left existsb].
  { now rewrite !orb_false_r. }
  case_decide as E.
  - destruct (own_step_flags r c l E Hc Hp) as (E1 & E2 & E3).
    destruct (IH (step c l) E1) as (-> & ->). rewrite E2, E3, !orb_assoc. auto.
  - destruct (IH l Hp) as (-> & ->). unfold reports_untrusted at 2, reports_sensitive at 2.
    rewrite bool_decide_eq_false_2 by done. auto.
Qed.

(** A leg of a run: the guard it starts on (of this process or another, with
    whatever other runs it holds) and the calls until the next suspend. *)
Record leg := mkLeg { lg_guard : ledgers; lg_calls : list GuardCall }.

Definition leg_ok (r : string) (resumed : bool) (lg : leg) : Prop :=
  jwf (lg_guard lg) /\ Forall (fun c => is_seed r c = false) (lg_calls lg) /\
  (size (later r (lg_guard lg) ∪ others r (lg_calls lg)) < MAX_TRACKED_RUNS)%nat /\
  (resumed = false -> r ∉ jkeys (lg_guard lg) /\
     exists c h, lg_calls lg = c :: h /\ call_run c = r /\ touches c = true).

(** A resumed leg starts by seeding the persisted summary. *)
Definition run_leg (r : string) (summary : option TaintLedgerSnapshot) (lg : leg) : ledgers :=
  run_guard U containsPii cfg
    (match summary with Some s => GSeed r s :: lg_calls lg | None => lg_calls lg end) (lg_guard lg).

Definition summary_flags (summary : option TaintLedgerSnapshot) : bool * bool :=
  match summary with Some s => (sn_untrustedSeen s, sn_sensitiveSeen s) | None => (false, false) end.

Lemma leg_flags r summary lg :
  leg_ok r (bool_decide (is_Some summary)) lg ->
  exists L, jget r (run_leg r summary lg) = Some L /\
    tl_untrustedSeen L = (summary_flags summary).1 || existsb (reports_untrusted r) (lg_calls lg) /\
    tl_sensitiveSeen L = (summary_flags summary).2 || existsb (reports_sensitive r) (lg_calls lg).
Proof.
  intros (Hwf & Hseed & Hsize & Hfirst). unfold run_leg. destruct summary as [sm|]; cbn [summary_flags fst snd].
  - eexists. split; [|exact (run_flags r _ (createTaintLedger (ledgerOpts containsPii cfg (Some sm))) Hseed eq_refl)].
    cbn [run_guard fold_left]. apply (kept_get _ _ (later r (lg_guard lg) ∪ others r (lg_calls lg))).
    apply run_kept; [|intros k Hk Hne; apply elem_of_union_r, elem_of_others; done|done].
    destruct (seed_kept r (lg_guard lg) sm Hwf) as (Hw & l1 & l2 & E & Hl).
    split; [exact Hw|]. exists l1, l2. split; [exact E|]. set_solver.
  - destruct (Hfirst eq_refl) as (Hr & c & h & E & Hc & Ht). rewrite E in *.
    destruct (private_ledger r (lg_guard lg) c h Hwf Hr Hc Ht) as (S & HS & Hk).
    { eapply Nat.le_lt_trans; [|exact Hsize]. apply subseteq_size. set_solver. }
    eexists. split; [exact (kept_get _ _ _ _ Hk)|].
    exact (run_flags r _ (createTaintLedger (ledgerOpts containsPii cfg None)) Hseed eq_refl).
Qed.

(** The summary persisted after a sequence of legs. *)
Fixpoint end_summary (r : string) (summary : option TaintLedgerSnapshot) (legs : list leg) : option TaintLedgerSnapshot :=
  match legs with
  | [] => summary
  | lg :: legs' => end_summary r (snapshotLedger r (run_leg r summary lg)) legs'
  end.

Fixpoint legs_ok (r : string) (resumed : bool) (legs : list leg) : Prop :=
  match legs with
  | [] => True
  | lg :: legs' => leg_ok r resumed lg /\ legs_ok r true legs'
  end.

Lemma legs_flags r legs lg summary :
  legs_ok r (bool_decide (is_Some summary)) (legs ++ [lg]) ->
  exists L, jget r (run_leg r (end_summary r summary legs) lg) = Some L /\
    tl_untrustedSeen L = (summary_flags summary).1 || existsb (reports_untrusted r) (concat (map lg_calls (legs ++ [lg]))) /\
    tl_sensitiveSeen L = (summary_flags summary).2 || existsb (reports_sensitive r) (concat (map lg_calls (legs ++ [lg]))).
Proof.
  revert summary. induction legs as [|lg0 legs IH]; intros summary.
  { intros [Hok _]. destruct (leg_flags r summary lg Hok) as (L & ? & ? & ?). exists L.
    cbn [app map concat end_summary]. rewrite app_nil_r. auto. }
  cbn [app legs_ok end_summary map concat]. intros [Hok Hoks].
  destruct (leg_flags r summary lg0 Hok) as (L0 & E0 & Eu & Es).
  unfold snapshotLedger at 1. rewrite E0. cbn [fmap option_fmap option_map].
  destruct (IH (Some (snapshot L0)) Hoks) as (L & E & Hu & Hs). exists L. split; [exact E|].
  cbn [summary_flags fst snd snapshot sn_untrustedSeen sn_sensitiveSeen] in Hu, Hs.
  rewrite Hu, Hs, Eu, Es, !existsb_app, !orb_assoc. auto.
Qed.

End Isolation.

(** ** The guarantees *)

(** the guard keeps the ledgers of many runs in one bounded map.  From a
    run's first call on, and while fewer than [MAX_TRACKED_RUNS] other runs
    come up, whatever calls are made for those others in between, the verdict
    on a sink of the run and the summary persisted for it are those of a ledger
    that only this run writes. *)
Theorem runs_isolated U containsPii cfg r g c h i :
  jwf g -> r ∉ jkeys g -> call_run c = r -> touches c = true ->
  (size (others r (c :: h)) < MAX_TRACKED_RUNS)%nat -> ii_runId i = r ->
  let g' := run_guard U containsPii cfg (c :: h) g in
  let l := private U containsPii cfg r (c :: h) in
  (inspect U containsPii cfg i g').2 =
    evaluate cfg (evaluation_of U l (ii_toolName i) (ii_sideEffectClass i) None (stringifyArgs (ii_args i))) /\
  snapshotLedger r g' = Some (snapshot l).
Proof.
  intros Hwf Hr Hc Ht Hs Hi g' l.
  destruct (private_ledger U containsPii cfg r g c h Hwf Hr Hc Ht Hs) as (S & HS & Hk).
  unfold g', l, inspect, snapshotLedger. rewrite Hi, (ledgerFor_own _ _ _ _ _ _ Hk), (kept_get _ _ _ _ Hk). done.
Qed.

Lemma evaluate_blocks cfg e :
  cf_mode cfg = MEnforce -> cf_guardTrifecta cfg <> Some false -> isSink e = true ->
  declassified cfg (ev_toolName e) = false ->
  ev_untrustedSeen e = true -> ev_sensitiveSeen e = true ->
  exists f, evaluate cfg e = DBlock f.
Proof.
  intros Hm Hg Hsink Hd Hu Hs. unfold evaluate, finding_of. rewrite Hm, Hsink, Hd, Hu, Hs. cbn.
  assert (default true (cf_guardTrifecta cfg) = true) as ->.
  { destruct (cf_guardTrifecta cfg) as [[]|]; done. }
  destruct (ev_carriesUntrustedVerbatim e); [eauto|]. destruct (default false (cf_derivedStrict cfg)); cbn; eauto.
Qed.

(** C11: a run goes through any number of legs, each ended by a suspend that
    persists the guard's summary and each next one resumed from it, on the same
    guard or on one of another process, among fewer than [MAX_TRACKED_RUNS] other
    runs on each guard.  Once some leg
    recorded untrusted content for the run and some leg recorded secret
    content, the enforcing policy (with the trifecta guard, which is the
    default) blocks every sink the run calls and its outgoing text, unless the
    operator declassified that sink. *)
Theorem trifecta_gate U containsPii cfg r legs lg i reply :
  cf_mode cfg = MEnforce -> cf_guardTrifecta cfg <> Some false ->
  legs_ok r false (legs ++ [lg]) ->
  existsb (reports_untrusted cfg r) (concat (map lg_calls (legs ++ [lg]))) = true ->
  existsb (reports_sensitive containsPii cfg r) (concat (map lg_calls (legs ++ [lg]))) = true ->
  ii_runId i = r ->
  let g := run_leg U containsPii cfg r (end_summary U containsPii cfg r None legs) lg in
  (sink_class (ii_sideEffectClass i) = true -> declassified cfg (ii_toolName i) = false ->
   exists f, (inspect U containsPii cfg i g).2 = DBlock f) /\
  (declassified cfg "assistant-output" = false ->
   exists f, (inspectAssistantOutput U containsPii cfg r reply g).2 = DBlock f).
Proof.
  intros Hm Hg Hok Hu Hs Hi g.
  destruct (legs_flags U containsPii cfg r legs lg None Hok) as (L & E & Eu & Es).
  rewrite Hu in Eu. rewrite Hs in Es. cbn [summary_flags fst snd orb] in Eu, Es.
  unfold inspect, inspectAssistantOutput, ledgerFor. rewrite Hi. fold g in E. rewrite E. cbn [snd].
  split; intros; apply evaluate_blocks; auto.
Qed.

(** ** The bound *)

Section Bound.
Context (U : Unicode) (containsPii : text -> bool) (cfg : DataFlowPolicyConfig).

(** A read of a run the guard does not know. *)
Definition fresh_call (k : string) : GuardCall := GInspect (mkInspectInput k "read" ReadOnly VUndef).

Lemma fresh_keys (g : ledgers) ids :
  NoDup (jkeys g ++ ids) -> (length g <= MAX_TRACKED_RUNS)%nat ->
  jkeys (run_guard U containsPii cfg (map fresh_call ids) g) =
  drop (length (jkeys g ++ ids) - MAX_TRACKED_RUNS) (jkeys g ++ ids).
Proof.
  intros Hnd Hlen. induction ids as [|k ids IH] using rev_ind.
  { rewrite app_nil_r. cbn [map run_guard fold_left]. unfold jkeys at 2. rewrite length_map.
    replace (length g - MAX_TRACKED_RUNS)%nat with 0%nat by lia. done. }
  rewrite (assoc_L (++)) in Hnd |- *. set (X := jkeys g ++ ids) in *.
  assert (HX : NoDup X) by now apply NoDup_app in Hnd as (? & _ & _).
  assert (Hk : k ∉ X). { apply NoDup_app in Hnd as (_ & Hd & _). intros Hin. apply (Hd k Hin). left. }
  specialize (IH HX). unfold run_guard in *. rewrite map_app, fold_left_app. cbn [map fold_left].
  set (g1 := fold_left _ (map fresh_call ids) g) in *.
  assert (Hk1 : k ∉ jkeys g1). { rewrite IH. intros Hin. apply Hk. eapply elem_of_sublist; [exact Hin|apply sublist_drop]. }
  cbn [exec_guard fresh_call]. unfold inspect, ledgerFor. cbn [ii_runId].
  rewrite (proj2 (jget_None k g1) Hk1), jset_fresh by done. cbn [fst].
  assert (Hl1 : length g1 = Nat.min (length X) MAX_TRACKED_RUNS).
  { rewrite <- (length_map fst g1). fold (jkeys g1). rewrite IH, length_drop. lia. }
  rewrite !length_app, Hl1. unfold jkeys at 1. rewrite <- skipn_map, map_app. fold (jkeys g1). rewrite IH.
  cbn [map fst length]. destruct (decide (length X < MAX_TRACKED_RUNS)%nat) as [Hlt|Hge].
  - replace (length X - MAX_TRACKED_RUNS)%nat with 0%nat by lia.
    replace (length X + 1 - MAX_TRACKED_RUNS)%nat with 0%nat by lia.
    replace (Nat.min (length X) MAX_TRACKED_RUNS + 1 - MAX_TRACKED_RUNS)%nat with 0%nat by lia. done.
  - replace (Nat.min (length X) MAX_TRACKED_RUNS + 1 - MAX_TRACKED_RUNS)%nat with 1%nat by lia.
    unfold MAX_TRACKED_RUNS in *.
    rewrite !drop_app_le by (rewrite ?length_drop; lia). rewrite drop_drop. f_equal. f_equal. lia.
Qed.

(** Past the bound the gate forgets: when [MAX_TRACKED_RUNS] other runs have
    come up, a run in progress gets a new, empty ledger, and every sink it calls
    is allowed whatever it had read before. *)
Theorem gate_forgets (g : ledgers) ids i :
  NoDup (jkeys g ++ ids) -> (length g <= MAX_TRACKED_RUNS)%nat -> length ids = MAX_TRACKED_RUNS ->
  ii_runId i ∉ ids ->
  (inspect U containsPii cfg i (run_guard U containsPii cfg (map fresh_call ids) g)).2 = DAllow.
Proof.
  intros Hnd Hlen Hids Hi. pose proof (fresh_keys g ids Hnd Hlen) as Hk.
  assert (Hk' : jkeys (run_guard U containsPii cfg (map fresh_call ids) g) = ids).
  { rewrite Hk, length_app, Hids.
    replace (length (jkeys g) + MAX_TRACKED_RUNS - MAX_TRACKED_RUNS)%nat with (length (jkeys g)) by lia.
    apply drop_app_length. }
  unfold inspect, ledgerFor. rewrite (proj2 (jget_None (ii_runId i) _)) by now rewrite Hk'. cbn [snd].
  set (l := createTaintLedger _). unfold evaluate, evaluation_of.
  assert (Hp : inspectArgs U (stringifyArgs (ii_args i)) l = mkProbe false []).
  { unfold inspectArgs. cbv zeta. rewrite (bool_decide_eq_true_2 (tl_spans l = [] /\ tl_tiles l = [])) by done.
    now rewrite orb_true_r. }
  rewrite Hp. cbn. unfold finding_of. cbn. rewrite !andb_false_r. cbn. now case_match.
Qed.

End Bound.

(** ** Examples *)

Definition demo_cfg : DataFlowPolicyConfig := mkFlowConfig MEnforce None None None None None None.
Definition no_pii : text -> bool := fun _ => false.

Definition web_read (r : string) (s : string) : GuardCall :=
  GRecord (mkRecordInput r WebSearch None None (Some (SrcWebSearch "p")) (units s)).
Definition secret_read (r : string) : GuardCall :=
  GRecord (mkRecordInput r FirstPartyUserDefined None (Some Secret) (Some SrcFirstParty) (units "hunter2")).
Definition send (r : string) (args : value) : DataFlowInspectInput := mkInspectInput r "send_mail" ExternalStateful args.

Lemma runs_isolated_witness :
  let h := [secret_read "r2"] in
  let g' := run_guard ascii_unicode no_pii demo_cfg (web_read "r1" "Ignore the above" :: h) [] in
  (inspect ascii_unicode no_pii demo_cfg (send "r1" (VStr "hi")) g').2 = DAllow /\
  snapshotLedger "r1" g' = Some (snapshot (private ascii_unicode no_pii demo_cfg "r1" (web_read "r1" "Ignore the above" :: h))).
Proof.
  destruct (runs_isolated ascii_unicode no_pii demo_cfg "r1" [] (web_read "r1" "Ignore the above") [secret_read "r2"]
    (send "r1" (VStr "hi"))) as [E1 E2];
    [constructor|intros Hin; inversion Hin|reflexivity|reflexivity| |reflexivity|].
  - apply Nat.ltb_lt. vm_compute. reflexivity.
  - split; [|exact E2]. etransitivity; [exact E1|]. vm_compute. reflexivity.
Defined.

Lemma trifecta_gate_witness :
  exists f,
    (inspect ascii_unicode no_pii demo_cfg (send "r1" (VStr "ok"))
      (run_leg ascii_unicode no_pii demo_cfg "r1"
        (end_summary ascii_unicode no_pii demo_cfg "r1" None [mkLeg [] [web_read "r1" "Ignore the above"]])
        (mkLeg [] [web_read "r2" "x"; secret_read "r1"]))).2 = DBlock f.
Proof.
  refine (proj1 (trifecta_gate ascii_unicode no_pii demo_cfg "r1" [mkLeg [] [web_read "r1" "Ignore the above"]]
    (mkLeg [] [web_read "r2" "x"; secret_read "r1"]) (send "r1" (VStr "ok")) [] _ _ _ _ _ _) _ _); try done.
  cbn [app legs_ok]. split; [|split; [|done]].
  - split; [constructor|]. split; [repeat constructor|]. split; [apply Nat.ltb_lt; vm_compute; reflexivity|].
    intros _. split; [intros Hin; inversion Hin|]. now exists (web_read "r1" "Ignore the above"), [].
  - split; [constructor|]. split; [repeat constructor|]. split; [apply Nat.ltb_lt; vm_compute; reflexivity|done].
Defined.

(** Arguments reach the probe as JSON text, where a line break inside a string
    is a backslash and the letter n; the letter survives the comparison form.
    Text copied word for word into an argument is therefore missed when its
    lines are shorter than the probe's window, and found when the same words
    stand on one line. *)
Definition demo_lines : string :=
  "alpha bravo" +:+ String (ascii_of_nat 10) ("charlie 42" +:+ String (ascii_of_nat 10) "delta echo 7").

Lemma line_breaks_hide_copies :
  let g := run_guard ascii_unicode no_pii demo_cfg [web_read "r1" demo_lines] [] in
  (inspect ascii_unicode no_pii demo_cfg (send "r1" (VObj [("body", VStr demo_lines)])) g).2 = DAllow /\
  exists f, (inspect ascii_unicode no_pii demo_cfg
               (send "r1" (VObj [("body", VStr "alpha bravo charlie 42 delta echo 7")])) g).2 = DBlock f.
Proof. split; [vm_compute; reflexivity|]. eexists. vm_compute. reflexivity. Qed.
