(* ===== verification/ArgPolicy.v ===== *)
(** * Tool-argument policies and Rule-of-Two profiles

    [packages/security/src/policy/tool-argument-policy.ts]: declarative rules
    over tool calls with the priority [deny > defer > ask > allow], the
    deny-by-name check, and the compilation of a profile of trifecta legs into
    rules; and the binding of [packages/agent/src/tooling/policy.ts], which
    merges a profile with an explicit policy into the guard the executor uses.

    A rule's predicate is any function of the facts of a call. *)

From S2P Require Import Prelude JsValue Dataflow.

Local Open Scope string_scope.
Local Open Scope list_scope.
Local Open Scope nat_scope.

Record ToolCallFacts := mkFacts {
  fc_toolName : string;
  fc_sideEffectClass : SideEffectClass;
  fc_sensitive : option bool;
  fc_untrustedSource : option bool;
  fc_args : value;
}.

Inductive PermissionEffect := EAllow | EDeny | EAsk | EDefer.
Inductive ToolRuleEffect := RAllow | RDeny | RAsk | RDefer | RForbid.

#[export] Instance permission_effect_eq_dec : EqDecision PermissionEffect.
Proof. solve_decision. Defined.

Record ToolArgumentRule := mkRule {
  ru_effect : ToolRuleEffect;
  ru_tool : string;
  ru_when : option (ToolCallFacts -> bool);
  ru_reason : option string;
}.

Record ToolArgumentPolicy := mkPolicy {
  po_rules : list ToolArgumentRule;
  po_defaultDenySensitive : option bool;
}.

(** A refusal carries its effect and a reason. *)
Inductive PermissionDecision :=
| PAllow
| PRefuse (effect : PermissionEffect) (reason : string).

Inductive ToolPolicyDecision := TAllow | TForbid (reason : string).

Inductive NameDenialDecision := NotDenied | Denied (reason : string).

(** The text without its last character, when that is a star. *)
Fixpoint star_prefix (p : string) : option string :=
  match p with
  | EmptyString => None
  | String c EmptyString => if decide (c = "*"%char) then Some EmptyString else None
  | String c p' => String c <$> star_prefix p'
  end.

Definition toolMatches (pattern toolName : string) : bool :=
  if bool_decide (pattern = "*") then true
  else match star_prefix pattern with
       | Some p => startsWith p toolName
       | None => bool_decide (pattern = toolName)
       end.

Definition normalisedEffect (e : ToolRuleEffect) : PermissionEffect :=
  match e with RForbid | RDeny => EDeny | RAllow => EAllow | RAsk => EAsk | RDefer => EDefer end.

Definition EFFECT_PRIORITY (e : PermissionEffect) : nat :=
  match e with EDeny => 3 | EDefer => 2 | EAsk => 1 | EAllow => 0 end.

(** The tests at the head of the loop over the rules. *)
Definition applies (f : ToolCallFacts) (r : ToolArgumentRule) : bool :=
  toolMatches (ru_tool r) (fc_toolName f) && match ru_when r with Some w => w f | None => true end.

(** The loop: a deny ends it, else the strongest effect so far is kept with the
    reason of the rule that first brought it. *)
Fixpoint scan (f : ToolCallFacts) (rules : list ToolArgumentRule) (strongest : option (PermissionEffect * option string))
    : PermissionDecision + option (PermissionEffect * option string) :=
  match rules with
  | [] => inr strongest
  | r :: rules' =>
      if applies f r then
        let effect := normalisedEffect (ru_effect r) in
        if decide (effect = EDeny)
        then inl (PRefuse EDeny (default ("tool '" +:+ fc_toolName f +:+ "' is denied by policy") (ru_reason r)))
        else
          let stronger :=
            match strongest with
            | None => true
            | Some (e, _) => bool_decide (EFFECT_PRIORITY e < EFFECT_PRIORITY effect)
            end in
          scan f rules' (if stronger then Some (effect, ru_reason r) else strongest)
      else scan f rules' strongest
  end.

Definition evaluatePermissionDecision (policy : ToolArgumentPolicy) (f : ToolCallFacts) : PermissionDecision :=
  match scan f (po_rules policy) None with
  | inl d => d
  | inr (Some (EAsk, reason)) =>
      PRefuse EAsk (default ("tool '" +:+ fc_toolName f +:+ "' requires an interactive approval by policy") reason)
  | inr (Some (EDefer, reason)) =>
      PRefuse EDefer (default ("tool '" +:+ fc_toolName f +:+ "' requires a deferred approval by policy") reason)
  | inr (Some (EAllow, _)) => PAllow
  | inr _ =>
      if bool_decide (po_defaultDenySensitive policy = Some true) && bool_decide (fc_sensitive f = Some true)
      then PRefuse EDeny ("sensitive tool '" +:+ fc_toolName f +:+ "' has no explicit allow rule (default-deny)")
      else PAllow
  end.

Definition evaluateToolArgumentPolicy (policy : ToolArgumentPolicy) (f : ToolCallFacts) : ToolPolicyDecision :=
  match evaluatePermissionDecision policy f with
  | PAllow => TAllow
  | PRefuse _ reason => TForbid reason
  end.

Fixpoint denied_by (toolName : string) (rules : list ToolArgumentRule) : NameDenialDecision :=
  match rules with
  | [] => NotDenied
  | r :: rules' =>
      match ru_when r with
      | Some _ => denied_by toolName rules'
      | None =>
          if bool_decide (normalisedEffect (ru_effect r) <> EDeny) then denied_by toolName rules'
          else if negb (toolMatches (ru_tool r) toolName) then denied_by toolName rules'
          else Denied (default ("tool '" +:+ toolName +:+ "' is denied by name by policy") (ru_reason r))
      end
  end.

Definition isToolDeniedByName (policy : ToolArgumentPolicy) (toolName : string) : NameDenialDecision :=
  denied_by toolName (po_rules policy).

(** ** Rule of Two *)

Inductive TrifectaLeg := UntrustedInput | SensitiveData | ExternalSideEffects.

Record RuleOfTwoProfile := mkProfile {
  pf_untrustedInput : bool;
  pf_sensitiveData : bool;
  pf_externalSideEffects : bool;
}.

Record RuleOfTwoCompilation := mkCompilation {
  rc_policy : ToolArgumentPolicy;
  rc_readOnly : bool;                 (** [capability: 'read-only'] *)
  rc_heldLegs : list TrifectaLeg;
  rc_holdsFullTrifecta : bool;
}.

Definition writer_rule : ToolArgumentRule :=
  mkRule RForbid "*" (Some (fun f => sink_class (fc_sideEffectClass f)))
    (Some "Rule-of-Two profile denies external side effects (writer tools blocked)").

Definition source_rule : ToolArgumentRule :=
  mkRule RForbid "*" (Some (fun f => bool_decide (fc_untrustedSource f = Some true)))
    (Some "Rule-of-Two profile denies untrusted input (untrusted-source tools blocked)").

Definition buildRuleOfTwoPolicy (p : RuleOfTwoProfile) : RuleOfTwoCompilation :=
  let heldLegs := (if pf_untrustedInput p then [UntrustedInput] else [])
               ++ (if pf_sensitiveData p then [SensitiveData] else [])
               ++ (if pf_externalSideEffects p then [ExternalSideEffects] else []) in
  mkCompilation
    (mkPolicy ((if pf_externalSideEffects p then [] else [writer_rule])
            ++ (if pf_untrustedInput p then [] else [source_rule]))
       (Some (negb (pf_sensitiveData p))))
    (negb (pf_externalSideEffects p)) heldLegs (bool_decide (length heldLegs = 3)).

(** ** The agent's guard *)

(** What the executor knows of a call. *)
Record ToolArgumentPolicyFacts := mkPolicyFacts {
  pfc_toolName : string;
  pfc_sideEffectClass : SideEffectClass;
  pfc_sensitive : bool;
  pfc_trustClass : ToolTrustClass;
  pfc_args : value;
}.

Definition toFacts (i : ToolArgumentPolicyFacts) : ToolCallFacts :=
  mkFacts (pfc_toolName i) (pfc_sideEffectClass i) (Some (pfc_sensitive i))
    (Some (isUntrustedTrustClass (pfc_trustClass i))) (pfc_args i).

Record ToolArgumentPolicyGuard := mkPolicyGuard {
  gd_evaluate : ToolArgumentPolicyFacts -> ToolPolicyDecision;
  gd_decide : option (ToolArgumentPolicyFacts -> PermissionDecision);
  gd_deniesName : option (string -> NameDenialDecision);
}.

Definition merge_policies (compiled : option RuleOfTwoCompilation) (toolPolicy : option ToolArgumentPolicy)
    : ToolArgumentPolicy :=
  let of_compiled := rc_policy <$> compiled in
  mkPolicy (default [] (po_rules <$> of_compiled) ++ default [] (po_rules <$> toolPolicy))
    (Some (default false (of_compiled ≫= po_defaultDenySensitive)
           || default false (toolPolicy ≫= po_defaultDenySensitive))).

(** The guard and whether the run is floored to read-only. *)
Definition buildToolArgumentPolicy (toolPolicy : option ToolArgumentPolicy) (ruleOfTwo : option RuleOfTwoProfile)
    : option ToolArgumentPolicyGuard * bool :=
  match toolPolicy, ruleOfTwo with
  | None, None => (None, false)
  | _, _ =>
      let compiled := buildRuleOfTwoPolicy <$> ruleOfTwo in
      let merged := merge_policies compiled toolPolicy in
      (Some (mkPolicyGuard (fun i => evaluateToolArgumentPolicy merged (toFacts i))
               (Some (fun i => evaluatePermissionDecision merged (toFacts i)))
               (Some (isToolDeniedByName merged))),
       default false (rc_readOnly <$> compiled))
  end.

(** ** What a tool-argument policy decides

    The loop of [ArgPolicy] against a reference that looks at the set of
    matching rules, the deny-by-name check, and the guarantees of a
    Rule-of-Two profile under any explicit policy. *)

Definition effect_of (d : PermissionDecision) : PermissionEffect :=
  match d with PAllow => EAllow | PRefuse e _ => e end.

(** The effects of the rules that match a call. *)
Definition matching (f : ToolCallFacts) (rules : list ToolArgumentRule) : list PermissionEffect :=
  map (fun r => normalisedEffect (ru_effect r)) (filter (fun r => applies f r = true) rules).

(** The strongest effect among the matching rules, whatever their order. *)
Definition reference_effect (policy : ToolArgumentPolicy) (f : ToolCallFacts) : PermissionEffect :=
  let es := matching f (po_rules policy) in
  if decide (EDeny ∈ es) then EDeny
  else if decide (EDefer ∈ es) then EDefer
  else if decide (EAsk ∈ es) then EAsk
  else if decide (EAllow ∈ es) then EAllow
  else if bool_decide (po_defaultDenySensitive policy = Some true) && bool_decide (fc_sensitive f = Some true)
       then EDeny else EAllow.

(** The strongest of some effects, [allow] when there are none. *)
Definition strongest (es : list PermissionEffect) : PermissionEffect :=
  if decide (EDeny ∈ es) then EDeny
  else if decide (EDefer ∈ es) then EDefer
  else if decide (EAsk ∈ es) then EAsk
  else EAllow.

Lemma matching_cons f r rules :
  matching f (r :: rules) =
  if applies f r then normalisedEffect (ru_effect r) :: matching f rules else matching f rules.
Proof.
  unfold matching. rewrite filter_cons. destruct (applies f r) eqn:E.
  - now rewrite decide_True by done.
  - now rewrite decide_False by done.
Qed.

(** What the loop has found: a deny, or the maximum of what it started with and
    what matches. *)
Lemma scan_spec f rules acc :
  match scan f rules acc with
  | inl d => effect_of d = EDeny /\ EDeny ∈ matching f rules
  | inr res =>
      EDeny ∉ matching f rules /\
      match res with
      | None => acc = None /\ matching f rules = []
      | Some (e, _) =>
          (e ∈ matching f rules \/ exists why, acc = Some (e, why)) /\
          (forall e', e' ∈ matching f rules -> EFFECT_PRIORITY e' <= EFFECT_PRIORITY e) /\
          (forall e' why, acc = Some (e', why) -> EFFECT_PRIORITY e' <= EFFECT_PRIORITY e)
      end
  end.
Proof.
  revert acc. induction rules as [|r rules IH]; intros acc; cbn [scan].
  { split; [set_solver|]. destruct acc as [[e why]|]; [|done].
    split; [eauto|]. split; [set_solver|]. intros e' why' [= -> ->]. lia. }
  rewrite matching_cons. destruct (applies f r); [|apply IH].
  set (eff := normalisedEffect (ru_effect r)). destruct (decide (eff = EDeny)) as [E|Hne].
  { cbn. split; [done|]. rewrite E. left. }
  set (acc' := if match acc with None => true | Some (e, _) => bool_decide (EFFECT_PRIORITY e < EFFECT_PRIORITY eff) end
               then Some (eff, ru_reason r) else acc).
  assert (Hacc : exists e why, acc' = Some (e, why) /\ (e = eff \/ exists w, acc = Some (e, w)) /\
     EFFECT_PRIORITY eff <= EFFECT_PRIORITY e /\
     forall e' w, acc = Some (e', w) -> EFFECT_PRIORITY e' <= EFFECT_PRIORITY e).
  { unfold acc'. destruct acc as [[e0 w0]|]; [case_bool_decide as Hlt|]; do 2 eexists; (split; [reflexivity|]).
    - split; [auto|]. split; [lia|]. intros e' w [= -> ->]. lia.
    - split; [eauto|]. split; [lia|]. intros e' w [= -> ->]. lia.
    - split; [auto|]. split; [lia|]. done. }
  destruct Hacc as (e0 & w0 & E0 & Hfrom & Hge & Hacc). specialize (IH acc').
  rewrite E0 in *. destruct (scan f rules _) as [d|res].
  { destruct IH as [H1 H2]. split; [done|]. now right. }
  destruct IH as [Hnd IH]. split; [set_solver|]. destruct res as [[e why]|]; [|naive_solver].
  destruct IH as (Hin & Hmax & Hold). specialize (Hold e0 w0 eq_refl). split; [|split].
  - destruct Hin as [Hin|[w [= -> ->]]]; [left; now right|].
    destruct Hfrom as [->|Hf]; [left; left|now right].
  - intros e' [->|He']%elem_of_cons; [lia|auto].
  - intros e' w He'. specialize (Hacc e' w He'). lia.
Qed.

Lemma priority_inj e e' : EFFECT_PRIORITY e = EFFECT_PRIORITY e' -> e = e'.
Proof. destruct e, e'; cbn; congruence. Qed.

Lemma evaluate_reference policy f : effect_of (evaluatePermissionDecision policy f) = reference_effect policy f.
Proof.
  unfold evaluatePermissionDecision, reference_effect. cbv zeta.
  pose proof (scan_spec f (po_rules policy) None) as Hs.
  destruct (scan f (po_rules policy) None) as [d|[[e why]|]].
  - destruct Hs as [-> Hin]. now rewrite decide_True.
  - destruct Hs as (Hnd & [Hin|[? ?]] & Hmax & _); [|done]. rewrite decide_False by done.
    assert (Hno : forall e', EFFECT_PRIORITY e < EFFECT_PRIORITY e' -> e' ∉ matching f (po_rules policy)).
    { intros e' Hlt Hin'. specialize (Hmax e' Hin'). lia. }
    destruct e; cbn [effect_of]; [|done| |].
    + rewrite (decide_False (P := EDefer ∈ _)) by (apply Hno; cbn; lia).
      rewrite (decide_False (P := EAsk ∈ _)) by (apply Hno; cbn; lia). now rewrite decide_True.
    + rewrite (decide_False (P := EDefer ∈ _)) by (apply Hno; cbn; lia). now rewrite decide_True.
    + now rewrite decide_True.
  - destruct Hs as (_ & _ & ->). rewrite !decide_False by set_solver. now case_match.
Qed.

Lemma elem_of_matching f rules e :
  e ∈ matching f rules <-> exists r, r ∈ rules /\ applies f r = true /\ normalisedEffect (ru_effect r) = e.
Proof.
  unfold matching. rewrite list_elem_of_fmap. setoid_rewrite list_elem_of_filter. naive_solver.
Qed.

Lemma verdict_allows policy f :
  evaluateToolArgumentPolicy policy f = TAllow <-> effect_of (evaluatePermissionDecision policy f) = EAllow.
Proof.
  unfold evaluateToolArgumentPolicy. destruct (evaluatePermissionDecision policy f) as [|e why] eqn:E; [done|].
  split; [done|]. cbn. intros ->. exfalso. revert E. unfold evaluatePermissionDecision.
  pose proof (scan_spec f (po_rules policy) None) as Hs.
  destruct (scan f (po_rules policy) None) as [d|[[[] o]|]]; try case_match; try discriminate.
  intros ->. destruct Hs as [? _]. discriminate.
Qed.

(** ** The decision *)

(** C15: when the default-deny of sensitive tools is not in play (the option is
    off, or the tool is not sensitive), the verdict of a policy on a call has the
    strongest effect ([deny > defer > ask > allow]) among the rules that match it,
    [allow] when none does. When it is in play, a call no rule matches is denied,
    and a call is let through (by the verdict, and by the two-valued evaluation
    of the executor) only if an allow rule matches it and no matching rule is
    stronger. In every case the verdict's effect does not depend on the order of
    the rules, and no added rule can weaken a matching one. *)
Theorem permission_is_strongest policy f :
  let guarded := po_defaultDenySensitive policy = Some true /\ fc_sensitive f = Some true in
  let es := matching f (po_rules policy) in
  (~ guarded -> effect_of (evaluatePermissionDecision policy f) = strongest es) /\
  (guarded ->
     (es = [] -> effect_of (evaluatePermissionDecision policy f) = EDeny) /\
     (effect_of (evaluatePermissionDecision policy f) = EAllow <-> EAllow ∈ es /\ strongest es = EAllow) /\
     (evaluateToolArgumentPolicy policy f = TAllow <-> EAllow ∈ es /\ strongest es = EAllow)) /\
  (forall rules', po_rules policy ≡ₚ rules' ->
     effect_of (evaluatePermissionDecision (mkPolicy rules' (po_defaultDenySensitive policy)) f) =
     effect_of (evaluatePermissionDecision policy f)) /\
  (forall r extra, r ∈ po_rules policy -> applies f r = true ->
     EFFECT_PRIORITY (normalisedEffect (ru_effect r)) <=
     EFFECT_PRIORITY (effect_of (evaluatePermissionDecision
       (mkPolicy (po_rules policy ++ extra) (po_defaultDenySensitive policy)) f))).
Proof.
  intros guarded es. split_and!.
  - intros Hg. rewrite evaluate_reference. unfold reference_effect, strongest. cbv zeta. fold es.
    repeat case_decide; try done. rewrite <- bool_decide_and, bool_decide_eq_false_2 by exact Hg. done.
  - intros Hg. rewrite verdict_allows, evaluate_reference. unfold reference_effect, strongest. cbv zeta. fold es.
    rewrite <- bool_decide_and, bool_decide_eq_true_2 by exact Hg.
    split; [intros ->; rewrite !decide_False by set_solver; done|]. repeat case_decide; naive_solver.
  - intros rules' Hp. rewrite !evaluate_reference. unfold reference_effect. cbv zeta. cbn [po_rules po_defaultDenySensitive].
    assert (Hm : forall e, e ∈ matching f rules' <-> e ∈ matching f (po_rules policy)).
    { intros e. rewrite !elem_of_matching. now setoid_rewrite Hp. }
    now rewrite !(decide_ext _ _ _ _ (Hm _)).
  - intros r extra Hr Ha. rewrite evaluate_reference. unfold reference_effect. cbv zeta. cbn [po_rules].
    assert (Hin : normalisedEffect (ru_effect r) ∈ matching f (po_rules policy ++ extra)).
    { apply elem_of_matching. exists r. split; [set_solver|done]. }
    destruct (normalisedEffect (ru_effect r)); repeat case_decide; cbn; try lia; done.
Qed.

(** A rule that denies, in whatever place, denies. *)
Lemma deny_wins policy f r :
  r ∈ po_rules policy -> applies f r = true -> normalisedEffect (ru_effect r) = EDeny ->
  effect_of (evaluatePermissionDecision policy f) = EDeny.
Proof.
  intros Hr Ha He. rewrite evaluate_reference. unfold reference_effect. cbv zeta.
  rewrite decide_True; [done|]. apply elem_of_matching. eauto.
Qed.

Lemma denied_by_spec name rules :
  (exists why, denied_by name rules = Denied why) <->
  exists r, r ∈ rules /\ ru_when r = None /\ normalisedEffect (ru_effect r) = EDeny /\ toolMatches (ru_tool r) name = true.
Proof.
  assert (Hcons : forall r rules (Q : ToolArgumentRule -> Prop), ~ Q r ->
    (exists r', r' ∈ r :: rules /\ Q r') <-> (exists r', r' ∈ rules /\ Q r')).
  { intros r rs Q Hq. setoid_rewrite elem_of_cons. split; intros (r' & H1 & H2); [|eauto].
    destruct H1 as [->|?]; [done|eauto]. }
  induction rules as [|r rules IH]; cbn [denied_by].
  { split; [intros [? ?]; done|set_solver]. }
  destruct (ru_when r) as [w|] eqn:Ew.
  { rewrite IH. symmetry. apply Hcons. rewrite Ew. naive_solver. }
  case_bool_decide as Ee.
  { rewrite IH. symmetry. apply Hcons. naive_solver. }
  destruct (toolMatches (ru_tool r) name) eqn:Em; cbn [negb].
  - split; [|eauto]. intros _. exists r. split; [left|]. split; [done|]. split; [|done]. now apply dec_stable.
  - rewrite IH. symmetry. apply Hcons. rewrite Em. naive_solver.
Qed.

(** a tool that is denied by name, which hides it from the catalogue before
    any arguments exist, is denied on every call, whatever its arguments,
    sensitivity and origin; and when every rule is free of predicates and a
    call's tool is denied by a rule, it is denied by name. *)
Theorem name_denial policy name :
  (forall why, isToolDeniedByName policy name = Denied why ->
     forall f, fc_toolName f = name -> effect_of (evaluatePermissionDecision policy f) = EDeny) /\
  (Forall (fun r => ru_when r = None) (po_rules policy) ->
     forall f, fc_toolName f = name -> EDeny ∈ matching f (po_rules policy) ->
     exists why, isToolDeniedByName policy name = Denied why).
Proof.
  unfold isToolDeniedByName. split.
  - intros why Hd f <-. destruct (proj1 (denied_by_spec (fc_toolName f) (po_rules policy))) as (r & Hr & Hw & He & Hm); [eauto|].
    apply (deny_wins policy f r); auto. unfold applies. now rewrite Hm, Hw.
  - intros Hfree f <- (r & Hr & Ha & He)%elem_of_matching. apply denied_by_spec. exists r.
    assert (Hw : ru_when r = None) by exact (proj1 (Forall_forall _ _) Hfree r Hr).
    repeat split; auto. unfold applies in Ha. rewrite Hw, andb_true_r in Ha. done.
Qed.

Lemma name_denial_witness :
  (exists why, isToolDeniedByName (mkPolicy [mkRule RForbid "fs_*" None None] None) "fs_rm" = Denied why) /\
  effect_of (evaluatePermissionDecision (mkPolicy [mkRule RForbid "fs_*" None None] None)
    (mkFacts "fs_rm" Pure None None VUndef)) = EDeny.
Proof.
  split; [eexists; vm_compute; reflexivity|].
  eapply (proj1 (name_denial (mkPolicy [mkRule RForbid "fs_*" None None] None) "fs_rm")); vm_compute; reflexivity.
Defined.

(** A sensitive tool under default-deny: allowed by its rule, refused without it;
    and the order of two rules does not matter. *)
Lemma permission_is_strongest_witness :
  let f := mkFacts "ls" Pure (Some true) None VUndef in
  let allowed := mkPolicy [mkRule RAllow "ls" None None] (Some true) in
  let p := mkPolicy [mkRule RAsk "*" None None; mkRule RAllow "ls" None None] (Some true) in
  evaluateToolArgumentPolicy allowed f = TAllow /\
  effect_of (evaluatePermissionDecision (mkPolicy [mkRule RAllow "cat" None None] (Some true)) f) = EDeny /\
  effect_of (evaluatePermissionDecision p f) = EAsk /\
  effect_of (evaluatePermissionDecision (mkPolicy [mkRule RAllow "ls" None None; mkRule RAsk "*" None None] (Some true)) f) = EAsk.
Proof.
  intros f allowed p. split_and!.
  - destruct (permission_is_strongest allowed f) as (_ & H & _).
    apply (H (conj eq_refl eq_refl)). split; [apply (bool_decide_unpack _); vm_compute; exact I|vm_compute; reflexivity].
  - destruct (permission_is_strongest (mkPolicy [mkRule RAllow "cat" None None] (Some true)) f) as (_ & H & _).
    apply (H (conj eq_refl eq_refl)). vm_compute. reflexivity.
  - vm_compute. reflexivity.
  - destruct (permission_is_strongest p f) as (_ & _ & H & _). etransitivity; [apply H, Permutation_swap|].
    vm_compute. reflexivity.
Defined.

(** ** Rule of Two *)

(** The verdict of the agent's guard. *)
Definition guard_effect (toolPolicy : option ToolArgumentPolicy) (ruleOfTwo : option RuleOfTwoProfile)
    (i : ToolArgumentPolicyFacts) : PermissionEffect :=
  match (buildToolArgumentPolicy toolPolicy ruleOfTwo).1 with
  | Some g => match gd_decide g with Some d => effect_of (d i) | None => EAllow end
  | None => EAllow
  end.




Definition demo_profile : RuleOfTwoProfile := mkProfile true false true.
Definition demo_vault : ToolArgumentPolicyFacts := mkPolicyFacts "read_vault" ReadOnly true FirstPartyBuiltIn VUndef.


(** The default for sensitive tools is no rule: a policy of its own denies the
    call, and merged with a policy that allows everything it does not. *)
Lemma default_deny_yields :
  effect_of (evaluatePermissionDecision (rc_policy (buildRuleOfTwoPolicy demo_profile)) (toFacts demo_vault)) = EDeny /\
  guard_effect (Some (mkPolicy [mkRule RAllow "*" None None] None)) (Some demo_profile) demo_vault = EAllow.
Proof. split; vm_compute; reflexivity. Qed.
