(* ===== verification/Executor.v ===== *)
(** * The tool executor

    [packages/tools/src/executor]: [executeOne] takes a tool call of the model
    through its phases (name denial, capability, validation and repair,
    permission hook, approval, argument policy, data-flow gate, dispatch,
    result) with bounded retries.

    A call is a process ([Proc]) that stands at one of the awaits of the source
    ([Phase]); [step] runs the code from there to the next await, given what was
    awaited ([Answer]).  Hooks, gates and tool bodies are code of the host: their
    answers are arbitrary, and a thrown error is an answer too.  [PNeeds] stands
    for the await of an approval predicate and of the context made for it, between
    which nothing happens; a tool without a hook, predicate or memory guard passes
    the phase with the plain resumption of its await.  The text passes
    of the result (envelope, truncation, sanitization) are awaited results here.
    Counters, spans, streaming events and timestamps are left out. *)

From S2P Require Import Prelude JsValue Json Dataflow DataflowProps FlowGuard ArgPolicy.
From stdpp Require Import pretty.

Local Open Scope string_scope.
Local Open Scope list_scope.
Local Open Scope Z_scope.

(** ** Data *)

Inductive ToolErrorKind :=
| ApprovalDenied | SandboxViolation | TimeoutKind | InvalidInput | InvalidOutput | ExecutionFailed
| UnknownTool | Aborted | InboundSanitizationBlocked | DataflowPolicyBlocked | CapabilityBlocked | RateLimited.

Inductive RecoveryHint := RetryLater | CheckInput | TryAlternative | ReportToUser.

#[export] Instance error_kind_eq_dec : EqDecision ToolErrorKind.
Proof. solve_decision. Defined.

(** What a tool execution failed with. *)
Inductive ExecuteError :=
| ErrInlineTimeout (limitMs : Z)
| ErrSandbox (kind message : string)
| ErrRateLimit (retryAfterMs : option Z) (message : string)
| ErrOther (message : string).

Record ToolCall := mkCall { tc_id : string; tc_toolName : string; tc_args : value }.

#[export] Instance tool_call_eq_dec : EqDecision ToolCall.
Proof. solve_decision. Defined.

Record ToolError := mkToolError {
  te_kind : ToolErrorKind;
  te_message : string;
  te_cause : option ExecuteError;
  te_hint : option string;
  te_recoverable : option bool;
  te_recoveryHint : option RecoveryHint;
}.

(** Where a spilled result is kept, and the bounded text shown in its place. *)
Record ResultHandle := mkHandle { rh_uri : string; rh_preview : string; rh_bytes : option Z }.

Record ToolResult := mkToolResult { tr_output : value; tr_resultHandle : option ResultHandle }.

Inductive ToolOutcome := OResult (r : ToolResult) | OError (e : ToolError).

Record CompletedToolCall := mkCompleted {
  cc_call : ToolCall;
  cc_outcome : ToolOutcome;
  cc_stepNumber : Z;
}.

Inductive NeedsApproval := NeverAsked | AskStatic (b : bool) | AskPredicate.

(** A schema: the parsed data, or the message of the error. *)
Definition Schema := value -> result string value.

Record ResolvedTool := mkTool {
  rt_name : string;
  rt_inputSchema : Schema;
  rt_outputSchema : option Schema;
  rt_needsApproval : NeedsApproval;
  rt_sequential : bool;
  rt_sensitivity : option Sensitivity;
  rt_trustClass : ToolTrustClass;
  rt_source : ToolSource;
  rt_sideEffectClass : SideEffectClass;
  rt_hasIdempotencyKey : bool;
}.

Record HandleProducerTaint := mkProducer {
  hp_trustClass : ToolTrustClass;
  hp_source : ToolSource;
  hp_sensitivity : option Sensitivity;
  hp_imperativeFlagged : bool;
}.

Record RetryConfig := mkRetry {
  re_maxAttempts : option Z;
  re_backoffMs : option Z;
  re_kinds : option (list ToolErrorKind);
}.

Record ExecutorOptions := mkExecutorOptions {
  xo_registry : string -> option ResolvedTool;
  xo_maxParallelTools : option Z;
  xo_argumentPolicy : option ToolArgumentPolicyGuard;
  xo_permissionHook : bool;            (** is a hook configured *)
  xo_repair : bool;
  xo_approvalGate : bool;
  xo_dataFlow : option DataFlowPolicyConfig;
  xo_handleProducerTaintCap : option Z;
  xo_retry : option RetryConfig;
}.

Record CallCtx := mkCtx {
  cx_call : ToolCall;
  cx_runId : string;
  cx_stepNumber : Z;
  cx_disableRepair : bool;
  cx_preApproved : bool;
  cx_readOnly : bool;
}.

(** What the executor does to its surroundings: audit rows, calls of the
    data-flow guard, answers of approval predicates, approval requests with their
    answer, tool bodies started. *)
Inductive XEvent :=
| XAudit (action target decision callId : string)
| XGuard (c : GuardCall) (verdict : option DataFlowDecision)
| XNeeds (callId : string) (input : value) (needed : bool)
| XApproval (callId : string) (args : value) (granted : bool)
| XStart (cx : CallCtx) (tool : ResolvedTool) (input effectiveArgs : value).

Record XState := mkX {
  x_guard : ledgers;
  x_taint : list (string * HandleProducerTaint);
  x_log : list XEvent;
}.

Record PermissionHookResult := mkHookResult {
  ph_decision : PermissionEffect;
  ph_updatedInput : option value;
  ph_reason : option string;
}.

Inductive ApprovalDecision := Granted | Refused (reason : option string).

Record ResultEnvelope := mkEnvelope { en_output : value; en_taint : option TaintOverride }.

(** A settled dispatch: the envelope of the return value or of the streamed
    chunks, or the error. *)
Record Dispatched := mkDispatched {
  ds_envelope : ResultEnvelope;
  ds_hasChunks : bool;
  ds_error : option ExecuteError;
}.

(** The text passes over a result. *)
Record TextPasses := mkPasses {
  tp_splitText : string;
  tp_resultHandle : option string;
  tp_artifactBytes : option Z;
  tp_spillFlagged : bool;
  tp_content : string;               (** the sanitized [content] of a handle read *)
  tp_body : string;                  (** the sanitized, bounded body *)
  tp_patternsHit : list string;
  tp_blocked : bool;
}.

Record Effective := mkEffective {
  ef_producer : option HandleProducerTaint;
  ef_trustClass : ToolTrustClass;
  ef_source : ToolSource;
  ef_sensitivity : option Sensitivity;
}.

Inductive Phase :=
| PRepair (schemaError : string)
| PPermission (vi ea : value)
| PNeeds (vi ea : value)
| PAsk (vi ea : value)
| PGates (vi ea : value)
| PReady (vi ea : value)
| PSnapshot (vi ea : value)
| PKey (vi ea : value)
| PRunning (vi ea : value)
| PVerify (d : Dispatched)
| PText (env : ResultEnvelope) (ef : Effective)
| PBackoff (delayMs : Z) (c : CompletedToolCall)
| PDone (c : CompletedToolCall)
| PRejected (cause : string).

Record Proc := mkProc { pr_cx : CallCtx; pr_tool : ResolvedTool; pr_attempts : Z; pr_phase : Phase }.

Inductive Answer :=
| AResume
| ARepaired (r : result string (option value))
| AVerdict (r : result string PermissionHookResult)
| ANeeds (r : result string bool)
| ADecision (r : result string ApprovalDecision)
| APrepared (r : result string unit)
| ASettled (d : Dispatched)
| AVerified (linkedAborted mismatch : bool)
| ATexts (r : result string TextPasses).

(** ** Outcomes *)

Definition recoveryForKind (k : ToolErrorKind) : bool * option RecoveryHint :=
  match k with
  | RateLimited | TimeoutKind => (true, Some RetryLater)
  | InvalidInput => (false, Some CheckInput)
  | InvalidOutput | UnknownTool | ExecutionFailed => (false, Some TryAlternative)
  | ApprovalDenied | SandboxViolation | InboundSanitizationBlocked | DataflowPolicyBlocked | CapabilityBlocked =>
      (false, Some ReportToUser)
  | Aborted => (false, None)
  end.

(** Fields set by the site win over those of the kind. *)
Definition frozenCompleted (cx : CallCtx) (o : ToolOutcome) : CompletedToolCall :=
  let finalized :=
    match o with
    | OError e =>
        let '(rec, hint) := recoveryForKind (te_kind e) in
        OError (mkToolError (te_kind e) (te_message e) (te_cause e) (te_hint e)
          (Some (default rec (te_recoverable e)))
          (match te_recoveryHint e with Some h => Some h | None => hint end))
    | OResult r => OResult r
    end in
  mkCompleted (cx_call cx) finalized (cx_stepNumber cx).

Definition plain_error (k : ToolErrorKind) (message : string) (hint : option string) : ToolError :=
  mkToolError k message None hint None None.

Definition emit (action target decision : string) (cx : CallCtx) (x : XState) : XState :=
  mkX (x_guard x) (x_taint x) (x_log x ++ [XAudit action target decision (tc_id (cx_call cx))]).

Definition log_event (e : XEvent) (x : XState) : XState := mkX (x_guard x) (x_taint x) (x_log x ++ [e]).

Definition emitErrorAudit (target : string) (cx : CallCtx) (x : XState) : XState :=
  emit "tool:execute:error" target "error" cx x.

(** [emitErrorAudit] and the completion. *)
Definition failWith (cx : CallCtx) (target : string) (k : ToolErrorKind) (message : string) (hint : option string)
    (x : XState) : XState * CompletedToolCall :=
  (emitErrorAudit target cx x, frozenCompleted cx (OError (plain_error k message hint))).

(** What a segment ends in: a completed attempt, or the next await. *)
Definition Segment := (XState * (CompletedToolCall + Phase))%type.

Definition done (r : XState * CompletedToolCall) : Segment := (r.1, inl r.2).
Definition next (x : XState) (p : Phase) : Segment := (x, inr p).

Section Executor.
Context (U : Unicode) (containsPii : text -> bool) (opts : ExecutorOptions).

(** ** Gates before the attempt *)

(** [executeOne] up to the attempt; [None] lets the call through. *)
Definition preflight (cx : CallCtx) (x : XState) : XState * (CompletedToolCall + ResolvedTool) :=
  let name := tc_toolName (cx_call cx) in
  let refuse k message hint := let '(x', c) := failWith cx name k message hint x in (x', inl c) in
  match xo_registry opts name with
  | None => refuse UnknownTool ("Unknown tool: " +:+ name) None
  | Some tool =>
      match match xo_argumentPolicy opts ≫= gd_deniesName with Some deniesName => deniesName name | None => NotDenied end with
      | Denied reason =>
          refuse CapabilityBlocked ("Tool '" +:+ name +:+ "' is denied by name: " +:+ reason) (Some reason)
      | NotDenied =>
          if cx_readOnly cx && sink_class (rt_sideEffectClass tool)
          then refuse CapabilityBlocked ("Tool '" +:+ name +:+ "' is " +:+ class_name (rt_sideEffectClass tool)
                 +:+ ", but this run holds read-only capability (single-writer constraint).") None
          else (x, inr tool)
      end
  end.

(** ** Validation *)

Definition fail_tool (cx : CallCtx) (tool : ResolvedTool) (k : ToolErrorKind) (message : string) (x : XState) : Segment :=
  done (failWith cx (rt_name tool) k message None x).

Definition runValidateArgsPhase (cx : CallCtx) (tool : ResolvedTool) (x : XState) : Segment :=
  match rt_inputSchema tool (tc_args (cx_call cx)) with
  | Ok data => next x (PPermission data (tc_args (cx_call cx)))
  | Err message =>
      if xo_repair opts && negb (cx_disableRepair cx) then next x (PRepair message)
      else fail_tool cx tool InvalidInput message x
  end.

(** The phase once the repair hook has settled. *)
Definition resumeRepair (cx : CallCtx) (tool : ResolvedTool) (schemaError : string) (r : result string (option value))
    (x : XState) : Segment :=
  match r with
  | Err cause => fail_tool cx tool InvalidInput cause x
  | Ok None => fail_tool cx tool InvalidInput schemaError x
  | Ok (Some repaired) =>
      match rt_inputSchema tool repaired with
      | Ok data => next x (PPermission data repaired)
      | Err message => fail_tool cx tool InvalidInput message x
      end
  end.

(** ** Permission hook *)

Definition because (sep_l sep_r : string) (reason : option string) : string :=
  match reason with
  | Some EmptyString | None => ""
  | Some r => sep_l +:+ r +:+ sep_r
  end.

Definition effect_name (e : PermissionEffect) : string :=
  match e with EAllow => "allow" | EDeny => "deny" | EAsk => "ask" | EDefer => "defer" end.

Definition runPermissionPhase (cx : CallCtx) (tool : ResolvedTool) (vi ea : value)
    (r : result string PermissionHookResult) (x : XState) : Segment :=
  match r with
  | Err cause => fail_tool cx tool CapabilityBlocked ("Permission hook failed (fail-closed): " +:+ cause) x
  | Ok verdict =>
      if decide (ph_decision verdict = EDeny)
      then fail_tool cx tool CapabilityBlocked ("Blocked by permission hook" +:+ because ": " "" (ph_reason verdict)) x
      else
        match cx_preApproved cx, ph_updatedInput verdict with
        | true, Some updated =>
            if bool_decide (JSON_stringify updated <> JSON_stringify ea)
            then fail_tool cx tool InvalidInput ("Permission hook attempted to rewrite pre-approved args on a resume replay - "
                   +:+ "the grant covered the original payload, so the rewrite is refused.") x
            else next x (PNeeds vi ea)
        | _, updatedInput =>
            match ph_decision verdict with
            | EAllow | EDeny =>
                match updatedInput with
                | None => next x (PNeeds vi ea)
                | Some updated =>
                    match rt_inputSchema tool updated with
                    | Err message =>
                        fail_tool cx tool InvalidInput ("Permission hook rewrite failed schema re-validation: " +:+ message) x
                    | Ok data => next (emit "tool:permission:rewritten" (rt_name tool) "success" cx x) (PNeeds data updated)
                    end
                end
            | e =>
                if cx_preApproved cx then next x (PNeeds vi ea)
                else fail_tool cx tool ApprovalDenied
                       ("Permission hook returned '" +:+ effect_name e +:+ "'" +:+ because " (" ")" (ph_reason verdict)
                        +:+ ", but this execution surface cannot suspend for approval - the call is refused "
                        +:+ "(fail-closed). Re-issue the call; an approval-capable harness will request the decision.") x
            end
        end
  end.

(** ** Approval *)

(** The request, once the call is known to need approval. *)
Definition requestApproval (cx : CallCtx) (tool : ResolvedTool) (vi ea : value) (x : XState) : Segment :=
  next (emit "tool:approval:requested" (rt_name tool) "success" cx x) (PAsk vi ea).

(** [runApprovalPhase] up to the gate; a pre-approved call skips it. *)
Definition runApprovalPhase (cx : CallCtx) (tool : ResolvedTool) (vi ea : value) (needs : bool) (x : XState) : Segment :=
  if cx_preApproved cx then next x (PGates vi ea)
  else match rt_needsApproval tool with
       | NeverAsked => next x (PGates vi ea)
       | AskStatic b => if b then requestApproval cx tool vi ea x else next x (PGates vi ea)
       | AskPredicate =>
           let x' := log_event (XNeeds (tc_id (cx_call cx)) vi needs) x in
           if needs then requestApproval cx tool vi ea x' else next x' (PGates vi ea)
       end.

Definition resumeApproval (cx : CallCtx) (tool : ResolvedTool) (vi ea : value) (d : ApprovalDecision) (x : XState) : Segment :=
  let d := if xo_approvalGate opts then d else Refused (Some "no-approval-gate-configured") in
  match d with
  | Granted =>
      next (emit "tool:approval:granted" (rt_name tool) "success" cx
              (log_event (XApproval (tc_id (cx_call cx)) ea true) x)) (PGates vi ea)
  | Refused reason =>
      let x' := emit "tool:approval:denied" (rt_name tool) "denied" cx
                  (log_event (XApproval (tc_id (cx_call cx)) ea false) x) in
      done (x', frozenCompleted cx (OError (plain_error ApprovalDenied
                  ("Tool execution denied" +:+ because ": " "" reason +:+ ".") reason)))
  end.

(** ** Argument policy and data-flow gate *)

Definition policy_facts (tool : ResolvedTool) (vi : value) : ToolArgumentPolicyFacts :=
  mkPolicyFacts (rt_name tool) (rt_sideEffectClass tool) (bool_decide (rt_sensitivity tool = Some Secret))
    (rt_trustClass tool) vi.

(** [None] lets the call through. *)
Definition runArgumentPolicyPhase (cx : CallCtx) (tool : ResolvedTool) (vi : value) (x : XState)
    : option (XState * CompletedToolCall) :=
  match xo_argumentPolicy opts with
  | None => None
  | Some guard =>
      let blockWith k message reason := Some (failWith cx (rt_name tool) k message (Some reason) x) in
      match gd_decide guard with
      | Some decide_ =>
          match decide_ (policy_facts tool vi) with
          | PAllow => None
          | PRefuse EDeny reason =>
              blockWith CapabilityBlocked ("Blocked by tool-argument policy: " +:+ reason) reason
          | PRefuse e reason =>
              if cx_preApproved cx then None
              else blockWith ApprovalDenied
                ("Tool-argument policy returned '" +:+ effect_name e +:+ "' (" +:+ reason +:+ "), but this "
                 +:+ "execution surface cannot suspend for approval - the call is refused (fail-closed). "
                 +:+ "Re-issue the call; an approval-capable harness will request the decision.") reason
          end
      | None =>
          match gd_evaluate guard (policy_facts tool vi) with
          | TForbid reason => blockWith CapabilityBlocked ("Blocked by tool-argument policy: " +:+ reason) reason
          | TAllow => None
          end
      end
  end.

Definition inspect_input (cx : CallCtx) (tool : ResolvedTool) (ea : value) : DataFlowInspectInput :=
  mkInspectInput (cx_runId cx) (rt_name tool) (rt_sideEffectClass tool) ea.

(** The state after the gate, and the completion of a blocked call. *)
Definition runDataFlowSinkGate (cx : CallCtx) (tool : ResolvedTool) (ea : value) (x : XState)
    : XState * option CompletedToolCall :=
  match xo_dataFlow opts with
  | None => (x, None)
  | Some cfg =>
      if negb (sink_class (rt_sideEffectClass tool)) then (x, None)
      else
        let '(g, verdict) := inspect U containsPii cfg (inspect_input cx tool ea) (x_guard x) in
        let x1 := mkX g (x_taint x) (x_log x ++ [XGuard (GInspect (inspect_input cx tool ea)) (Some verdict)]) in
        match verdict with
        | DAllow => (x1, None)
        | DFlag _ => (emit "tool:dataflow:flagged" (rt_name tool) "success" cx x1, None)
        | DDeclassify _ => (emit "tool:dataflow:declassified" (rt_name tool) "success" cx x1, None)
        | DBlock f =>
            let '(x2, c) := failWith cx (rt_name tool) DataflowPolicyBlocked (fd_reason f) None
                              (emit "tool:dataflow:blocked" (rt_name tool) "denied" cx x1) in
            (x2, Some c)
        end
  end.

(** The segment after the approval: both gates, then the call context. *)
Definition gates (cx : CallCtx) (tool : ResolvedTool) (vi ea : value) (x : XState) : Segment :=
  match runArgumentPolicyPhase cx tool vi x with
  | Some r => done r
  | None =>
      match runDataFlowSinkGate cx tool ea x with
      | (x', Some c) => done (x', c)
      | (x', None) => next x' (PReady vi ea)
      end
  end.

(** The tool body starts. *)
Definition launch (cx : CallCtx) (tool : ResolvedTool) (vi ea : value) (x : XState) : Segment :=
  next (log_event (XStart cx tool vi ea) x) (PRunning vi ea).

(** From the snapshot of the memory guard to the tool body, or to the await of
    its idempotency key. *)
Definition start (cx : CallCtx) (tool : ResolvedTool) (vi ea : value) (x : XState) : Segment :=
  let x' := emit "tool:execute:start" (rt_name tool) "success" cx x in
  if rt_hasIdempotencyKey tool then next x' (PKey vi ea) else launch cx tool vi ea x'.

(** ** After the tool body *)

Definition sandbox_kind (kind : string) : ToolErrorKind :=
  if bool_decide (kind = "timeout") then TimeoutKind
  else if bool_decide (kind = "sandbox-violation") || bool_decide (kind = "memory-exceeded") then SandboxViolation
  else if bool_decide (kind = "aborted") then Aborted
  else ExecutionFailed.

Definition describe (e : ExecuteError) : string :=
  match e with
  | ErrInlineTimeout ms => "Tool execution exceeded the " +:+ pretty ms +:+ "ms wall-clock timeout."
  | ErrSandbox _ message | ErrRateLimit _ message | ErrOther message => message
  end.

Definition is_timeout (e : ExecuteError) : bool := match e with ErrInlineTimeout _ => true | _ => false end.

Definition failure_kind (e : ExecuteError) (cancelled : bool) : ToolErrorKind :=
  if cancelled then Aborted
  else match e with
       | ErrInlineTimeout _ => TimeoutKind
       | ErrSandbox kind _ => sandbox_kind kind
       | ErrRateLimit _ _ => RateLimited
       | ErrOther _ => ExecutionFailed
       end.

Definition timeoutWarning : string := "the first invocation may still have completed; do not retry blindly".

Definition completeExecutionFailure (cx : CallCtx) (tool : ResolvedTool) (e : ExecuteError)
    (parentAborted linkedAborted hasChunks : bool) (x : XState) : XState * CompletedToolCall :=
  let timedOut := is_timeout e && negb parentAborted in
  let cancelled := negb timedOut && (parentAborted || linkedAborted) in
  let kind := failure_kind e cancelled in
  let retryAfterHint := match e with
                        | ErrRateLimit (Some ms) _ => Some ("retry after " +:+ pretty ms +:+ "ms")
                        | _ => None end in
  let nonIdempotentSideEffectTimeout :=
    bool_decide (kind = TimeoutKind) && sink_class (rt_sideEffectClass tool) && negb (rt_hasIdempotencyKey tool) in
  let baseHint := match retryAfterHint with
                  | Some h => Some h
                  | None => if hasChunks then Some "partial output captured in stream buffer" else None end in
  let hint := if nonIdempotentSideEffectTimeout
              then Some (match baseHint with Some h => h +:+ "; " +:+ timeoutWarning | None => timeoutWarning end)
              else baseHint in
  let error := mkToolError kind (if cancelled then "Tool execution cancelled" else describe e) (Some e) hint
                 (if nonIdempotentSideEffectTimeout then Some false else None)
                 (if nonIdempotentSideEffectTimeout then Some ReportToUser else None) in
  (emitErrorAudit (rt_name tool) cx x, frozenCompleted cx (OError error)).

(** The trust class of a name, when it is one whose content must not launder. *)
Definition untrusted_class_of_name (s : string) : option ToolTrustClass :=
  if bool_decide (s = "skill-untrusted") then Some SkillUntrusted
  else if bool_decide (s = "mcp-derived") then Some McpDerived
  else if bool_decide (s = "web-search") then Some WebSearch
  else if bool_decide (s = "channel-inbound") then Some ChannelInbound
  else None.

Inductive InboundSanitizationPolicy := PassThrough | DetectAndFlag | DetectAndStripAndWrap.

#[local] Instance inbound_policy_eq_dec : EqDecision InboundSanitizationPolicy.
Proof. solve_decision. Defined.

Definition defaultInboundSanitization (c : ToolTrustClass) : InboundSanitizationPolicy :=
  match c with
  | FirstPartyBuiltIn => PassThrough
  | FirstPartyUserDefined | SkillTrusted => DetectAndFlag
  | SkillUntrusted | McpDerived | WebSearch | ChannelInbound => DetectAndStripAndWrap
  end.

Definition isUntrustedProducerClass (c : ToolTrustClass) : bool :=
  bool_decide (defaultInboundSanitization c = DetectAndStripAndWrap).

Definition str_of (v : value) : option string := match v with VStr s => Some s | _ => None end.

Definition sensitivity_of_name (s : string) : option Sensitivity :=
  if bool_decide (s = "secret") then Some Secret
  else if bool_decide (s = "internal") then Some Internal
  else if bool_decide (s = "public") then Some Public
  else None.

(** A source descriptor the reader reports. *)
Definition source_of_value (v : value) : option ToolSource :=
  if is_object v then
    match getp "kind" v with
    | VStr k =>
        let field n := default "" (str_of (getp n v)) in
        Some (if bool_decide (k = "first-party") then SrcFirstParty
              else if bool_decide (k = "built-in") then SrcBuiltIn (field "subsystem")
              else if bool_decide (k = "skill") then SrcSkill (field "skillName") (bool_decide (field "trustLevel" = "trusted"))
              else if bool_decide (k = "mcp") then SrcMcp (field "serverIdentity")
              else if bool_decide (k = "web-search") then SrcWebSearch (field "providerName")
              else SrcForeign k)
    | _ => None
    end
  else None.

(** What the reader of an artifact reports of its producer (a sensitivity is one
    of the three tiers). *)
Definition reported_taint (tool : ResolvedTool) (reported : value) : option HandleProducerTaint :=
  match str_of (getp "producerTrustClass" reported) ≫= untrusted_class_of_name with
  | Some c =>
      Some (mkProducer c (default (rt_source tool) (source_of_value (getp "producerSource" reported)))
              (str_of (getp "producerSensitivity" reported) ≫= sensitivity_of_name)
              (bool_decide (getp "producerImperativeFlagged" reported = VBool true)))
  | None => None
  end.

(** The taint of the tool that produced what this call relays: what the map
    knows of the handle in the arguments, else what the reader reports. *)
Definition producer_taint (call : ToolCall) (tool : ResolvedTool) (env : ResultEnvelope) (x : XState)
    : option HandleProducerTaint :=
  match str_of (getp "handle" (tc_args call)) ≫= fun h => jget h (x_taint x) with
  | Some m => if isUntrustedProducerClass (hp_trustClass m) then Some m else reported_taint tool (en_output env)
  | None => reported_taint tool (en_output env)
  end.

Definition effective (tool : ResolvedTool) (p : option HandleProducerTaint) : Effective :=
  mkEffective p
    (match p with Some m => hp_trustClass m | None => rt_trustClass tool end)
    (match p with Some m => hp_source m | None => rt_source tool end)
    (match p ≫= hp_sensitivity with Some s => Some s | None => rt_sensitivity tool end).

(** The output against the tool's schema: the message of the failure. *)
Definition buildEnvelopePhase (tool : ResolvedTool) (env : ResultEnvelope) : option string :=
  match rt_outputSchema tool, en_output env with
  | None, _ | _, VUndef => None
  | Some schema, out => match schema out with Err m => Some m | Ok _ => None end
  end.

(** [executeOneInSpan] from the verification of the memory guard, which audits a
    mismatch, to the truncation. *)
Definition settleDispatch (cx : CallCtx) (tool : ResolvedTool) (d : Dispatched) (linkedAborted mismatch parentAborted : bool)
    (x0 : XState) : Segment :=
  let x := if mismatch && bool_decide (ds_error d = None) then emitErrorAudit (rt_name tool) cx x0 else x0 in
  let executeError :=
    match ds_error d with
    | Some e => Some e
    | None => if linkedAborted then Some (ErrOther "aborted") else None
    end in
  match executeError with
  | Some e => done (completeExecutionFailure cx tool e parentAborted linkedAborted (ds_hasChunks d) x)
  | None =>
      let env := ds_envelope d in
      match buildEnvelopePhase tool env with
      | Some message => fail_tool cx tool InvalidOutput message x
      | None => next x (PText env (effective tool (producer_taint (cx_call cx) tool env x)))
      end
  end.

Definition wrapOutput (rawOutput : value) (sanitizedText originalText : string) : value :=
  if bool_decide (sanitizedText = originalText) then rawOutput else VStr sanitizedText.

(** Room for one more entry: the oldest leave. *)
Definition evict_taint (cap : Z) (m : list (string * HandleProducerTaint)) : list (string * HandleProducerTaint) :=
  if 0 <? cap then drop (Z.to_nat (zlen m - cap + 1)) m else m.

Definition registerHandle (handle : option string) (ef : Effective) (flagged : bool) (x : XState) : XState :=
  match handle with
  | None => x
  | Some h =>
      mkX (x_guard x)
        (jset h (mkProducer (ef_trustClass ef) (ef_source ef) (ef_sensitivity ef) flagged)
           (evict_taint (default 1024 (xo_handleProducerTaintCap opts)) (x_taint x)))
        (x_log x)
  end.

Definition record_input (cx : CallCtx) (env : ResultEnvelope) (ef : Effective) (body : string) : DataFlowRecordInput :=
  mkRecordInput (cx_runId cx) (ef_trustClass ef) (en_taint env) (ef_sensitivity ef) (Some (ef_source ef)) (units body).

Definition recordProvenance (i : DataFlowRecordInput) (x : XState) : XState :=
  match xo_dataFlow opts with
  | None => x
  | Some cfg => mkX (record U containsPii cfg i (x_guard x)) (x_taint x) (x_log x ++ [XGuard (GRecord i) None])
  end.

(** The audit rows of the sanitization and the structured output with its
    [content] replaced, or the refusal of the result. *)
Definition runSanitizePhase (cx : CallCtx) (tool : ResolvedTool) (env : ResultEnvelope) (ef : Effective) (t : TextPasses)
    (x : XState) : XState * (CompletedToolCall + value) :=
  let x := match tp_patternsHit t with
           | [] => x
           | _ => emit "tool:result:sanitization:hit" (rt_name tool) "success" cx x
           end in
  if tp_blocked t
  then (emit "tool:result:sanitization:blocked" (rt_name tool) "denied" cx x,
        inl (frozenCompleted cx (OError (plain_error InboundSanitizationBlocked
          ("Tool result blocked by inbound sanitization (patterns: " +:+ join_with ", " (tp_patternsHit t) +:+ ").") None))))
  else
    (x, inr match ef_producer ef, en_output env with
            | Some _, VObj fs => match getp "content" (VObj fs) with
                                 | VStr _ => VObj (jset "content" (VStr (tp_content t)) fs)
                                 | _ => VObj fs end
            | _, out => out
            end).

(** [assembleResultPhase], after the sanitization. *)
Definition assembleResult (cx : CallCtx) (tool : ResolvedTool) (env : ResultEnvelope) (ef : Effective) (t : TextPasses)
    (x : XState) : XState * CompletedToolCall :=
  match runSanitizePhase cx tool env ef t x with
  | (x, inl c) => (x, c)
  | (x, inr effectiveOutput) =>
      let x1 := registerHandle (tp_resultHandle t) ef (tp_spillFlagged t) x in
      let x2 := recordProvenance (record_input cx env ef (tp_body t)) x1 in
      (emit "tool:execute:end" (rt_name tool) "success" cx x2,
       frozenCompleted cx (OResult (mkToolResult (wrapOutput effectiveOutput (tp_body t) (tp_splitText t))
         ((fun uri => mkHandle uri (tp_body t) (tp_artifactBytes t)) <$> tp_resultHandle t))))
  end.

(** ** Retries *)

Definition retrySafe (tool : ResolvedTool) : bool :=
  negb (sink_class (rt_sideEffectClass tool)) || rt_hasIdempotencyKey tool.

Definition maxAttempts : Z := Z.max 1 (default 3 (xo_retry opts ≫= re_maxAttempts)).

Definition retryKinds : list ToolErrorKind := default [RateLimited] (xo_retry opts ≫= re_kinds).

Definition retry_delay (e : ToolError) (attemptsUsed : Z) : Z :=
  match te_cause e with
  | Some (ErrRateLimit (Some ms) _) => ms
  | _ => default 250 (xo_retry opts ≫= re_backoffMs) * 2 ^ (attemptsUsed - 1)
  end.

(** The loop test of [runWithRetry] after an attempt. *)
Definition after_attempt (tool : ResolvedTool) (attempts : Z) (aborted : bool) (c : CompletedToolCall) : Phase :=
  match cc_outcome c with
  | OError e =>
      if (attempts <? maxAttempts) && retrySafe tool && bool_decide (te_kind e ∈ retryKinds) && negb aborted
      then PBackoff (retry_delay e attempts) c else PDone c
  | OResult _ => PDone c
  end.

(** ** The process *)

Definition settle (p : Proc) (aborted : bool) (s : Segment) : XState * Proc :=
  let '(x, r) := s in
  (x, mkProc (pr_cx p) (pr_tool p) (pr_attempts p)
        (match r with inl c => after_attempt (pr_tool p) (pr_attempts p) aborted c | inr ph => ph end)).

Definition reject (p : Proc) (cause : string) (x : XState) : XState * Proc :=
  (x, mkProc (pr_cx p) (pr_tool p) (pr_attempts p) (PRejected cause)).

(** Start a call: a completed refusal, or a process in its first attempt. *)
Definition executeOne (cx : CallCtx) (aborted : bool) (x : XState) : XState * (CompletedToolCall + Proc) :=
  match preflight cx x with
  | (x', inl c) => (x', inl c)
  | (x', inr tool) =>
      let '(x'', p) := settle (mkProc cx tool 1 (PRejected "")) aborted (runValidateArgsPhase cx tool x') in
      (x'', inr p)
  end.

(** Run a process from its await; [aborted] is the run's signal at that time. *)
Definition step (p : Proc) (aborted : bool) (a : Answer) (x : XState) : option (XState * Proc) :=
  let cx := pr_cx p in
  let tool := pr_tool p in
  match pr_phase p, a with
  | PRepair m, ARepaired r => Some (settle p aborted (resumeRepair cx tool m r x))
  | PPermission vi ea, AVerdict r =>
      if xo_permissionHook opts then Some (settle p aborted (runPermissionPhase cx tool vi ea r x)) else None
  | PPermission vi ea, AResume =>
      if xo_permissionHook opts then None else Some (settle p aborted (next x (PNeeds vi ea)))
  | PNeeds vi ea, ANeeds (Ok b) => Some (settle p aborted (runApprovalPhase cx tool vi ea b x))
  | PNeeds vi ea, ANeeds (Err cause) =>
      match rt_needsApproval tool with
      | AskPredicate => if cx_preApproved cx then None else Some (reject p cause x)
      | _ => None
      end
  | PAsk vi ea, ADecision (Ok d) => Some (settle p aborted (resumeApproval cx tool vi ea d x))
  | PAsk vi ea, ADecision (Err cause) => if xo_approvalGate opts then Some (reject p cause x) else None
  | PGates vi ea, AResume => Some (settle p aborted (gates cx tool vi ea x))
  | PReady vi ea, APrepared (Ok _) => Some (settle p aborted (next x (PSnapshot vi ea)))
  | PReady vi ea, APrepared (Err cause) => Some (reject p cause x)
  | PSnapshot vi ea, APrepared (Ok _) => Some (settle p aborted (start cx tool vi ea x))
  | PSnapshot vi ea, APrepared (Err cause) => Some (reject p cause x)
  | PKey vi ea, AResume => Some (settle p aborted (launch cx tool vi ea x))
  | PRunning vi ea, ASettled d => Some (settle p aborted (next x (PVerify d)))
  | PVerify d, AVerified linkedAborted mismatch =>
      Some (settle p aborted (settleDispatch cx tool d linkedAborted mismatch aborted x))
  | PText env ef, ATexts (Ok t) => Some (settle p aborted (done (assembleResult cx tool env ef t x)))
  | PText env ef, ATexts (Err cause) => Some (reject p cause x)
  | PBackoff _ c, AResume =>
      if aborted then Some (x, mkProc cx tool (pr_attempts p) (PDone c))
      else Some (settle (mkProc cx tool (pr_attempts p + 1) (pr_phase p)) aborted (runValidateArgsPhase cx tool x))
  | _, _ => None
  end.

End Executor.
