(* ===== verification/ExecutorRetry.v ===== *)
(** * Attempts of a call

    One call of the executor on its own: the states it meets at its awaits are
    arbitrary (other calls run in between), and so are the answers.  Attempts
    are bounded, a tool whose effects must not be doubled starts at most once,
    and every call comes to an end. *)

From S2P Require Import Prelude JsValue Json Dataflow FlowGuard ArgPolicy Executor.

Local Open Scope string_scope.
Local Open Scope list_scope.
Local Open Scope Z_scope.

Section Retry.
Context (U : Unicode) (containsPii : text -> bool) (opts : ExecutorOptions).

(** One await of a call: the run's signal, what was awaited, the state then. *)
Definition Await := (bool * Answer * XState)%type.

Definition move (p : Proc) (w : Await) : option Proc := snd <$> step U containsPii opts p w.1.1 w.1.2 w.2.

Fixpoint run_proc (p : Proc) (ws : list Await) : option Proc :=
  match ws with
  | [] => Some p
  | w :: ws' => move p w ≫= fun p' => run_proc p' ws'
  end.

Definition running (ph : Phase) : bool := match ph with PRunning _ _ => true | _ => false end.

(** How often the tool body started. *)
Fixpoint starts (p : Proc) (ws : list Await) : Z :=
  match ws with
  | [] => 0
  | w :: ws' => match move p w with
                | Some p' => (if running (pr_phase p') then 1 else 0) + starts p' ws'
                | None => 0
                end
  end.

(** ** Progress within an attempt *)

Definition rank (ph : Phase) : Z :=
  match ph with
  | PRepair _ => 12 | PPermission _ _ => 11 | PNeeds _ _ => 10 | PAsk _ _ => 9 | PGates _ _ => 8 | PReady _ _ => 7
  | PSnapshot _ _ => 6 | PKey _ _ => 5 | PRunning _ _ => 4 | PVerify _ => 3 | PText _ _ => 2 | PBackoff _ _ => 1
  | PDone _ | PRejected _ => 0
  end.

(** A segment ends the attempt, or in a phase of lower rank before or after the
    tool body. *)
Definition seg_to (k : Z) (s : Segment) : Prop :=
  match s.2 with inl _ => True | inr ph => 2 <= rank ph <= k /\ running ph = false end.

Definition final (ph : Phase) : bool := match ph with PDone _ | PRejected _ => true | _ => false end.

Ltac solve_seg := repeat first [case_match | case_decide]; cbn; try done; split; try done; lia.

Lemma rank_validate cx tool x : seg_to 12 (runValidateArgsPhase opts cx tool x).
Proof. unfold runValidateArgsPhase. solve_seg. Qed.

Lemma rank_repair cx tool m r x : seg_to 11 (resumeRepair cx tool m r x).
Proof. unfold resumeRepair. solve_seg. Qed.

Lemma rank_permission cx tool vi ea r x : seg_to 10 (runPermissionPhase cx tool vi ea r x).
Proof. unfold runPermissionPhase. solve_seg. Qed.

Lemma rank_approval cx tool vi ea b x : seg_to 9 (runApprovalPhase cx tool vi ea b x).
Proof. unfold runApprovalPhase. solve_seg. Qed.

Lemma rank_resume cx tool vi ea d x : seg_to 8 (resumeApproval opts cx tool vi ea d x).
Proof. unfold resumeApproval. solve_seg. Qed.

Lemma rank_gates cx tool vi ea x : seg_to 7 (gates U containsPii opts cx tool vi ea x).
Proof. unfold gates. solve_seg. Qed.

Lemma rank_dispatch cx tool d linked mismatch aborted x : seg_to 2 (settleDispatch cx tool d linked mismatch aborted x).
Proof. unfold settleDispatch. solve_seg. Qed.

(** ** The bounds *)

(** Attempts are counted from one, a further one only where that is safe. *)
Definition attempts_ok (p : Proc) : Prop :=
  1 <= pr_attempts p <= maxAttempts opts /\
  (1 < pr_attempts p -> retrySafe (pr_tool p) = true) /\
  match pr_phase p with
  | PBackoff _ _ => pr_attempts p < maxAttempts opts /\ retrySafe (pr_tool p) = true
  | _ => True
  end.

(** Starts still allowed. *)
Definition allowance (p : Proc) : Z :=
  (maxAttempts opts - pr_attempts p) + (if bool_decide (5 <= rank (pr_phase p)) then 1 else 0).

Definition measure (p : Proc) : Z := 13 * (maxAttempts opts - pr_attempts p) + rank (pr_phase p).

Lemma after_attempt_cases tool n aborted c :
  rank (after_attempt opts tool n aborted c) <= 1 /\
  match after_attempt opts tool n aborted c with
  | PBackoff _ _ => n < maxAttempts opts /\ retrySafe tool = true
  | ph => final ph = true
  end.
Proof.
  unfold after_attempt. destruct (cc_outcome c); [cbn; split; [lia|done]|].
  destruct ((n <? maxAttempts opts) && retrySafe tool && bool_decide (te_kind e ∈ retryKinds opts) && negb aborted) eqn:E;
    cbn; (split; [lia|]); [|done].
  apply andb_true_iff in E as [E _]. apply andb_true_iff in E as [E _]. apply andb_true_iff in E as [E1 E2].
  split; [lia|done].
Qed.


(** A step spends attempts and ranks, and each start one of the allowance. *)
Definition moved (p p' : Proc) : Prop :=
  attempts_ok p' /\ measure p' < measure p /\ pr_tool p' = pr_tool p /\
  (if running (pr_phase p') then 1 else 0) + allowance p' <= allowance p.


Lemma settle_result q aborted s x' p' k :
  1 <= pr_attempts q <= maxAttempts opts -> (1 < pr_attempts q -> retrySafe (pr_tool q) = true) -> 1 <= k ->
  settle opts q aborted s = (x', p') -> seg_to k s ->
  attempts_ok p' /\ pr_attempts p' = pr_attempts q /\ pr_tool p' = pr_tool q /\
  running (pr_phase p') = false /\ rank (pr_phase p') <= k.
Proof.
  intros Hn Hsafe Hk. unfold settle. destruct s as [xs [c|ph]]; intros [= <- <-] Hseg;
    unfold attempts_ok; cbn [pr_attempts pr_tool pr_phase].
  - destruct (after_attempt_cases (pr_tool q) (pr_attempts q) aborted c) as [Hr Hc].
    destruct (after_attempt opts (pr_tool q) (pr_attempts q) aborted c); cbn in Hc, Hr |- *; try done;
      repeat split; try done; try lia; apply Hc.
  - destruct Hseg as [[Hlo Hhi] Hrun]. cbn [snd] in *.
    destruct ph; cbn in Hlo, Hrun |- *; try done; repeat split; try done; lia.
Qed.

Lemma same_attempt p aborted s x' p' k :
  attempts_ok p -> settle opts p aborted s = (x', p') -> seg_to k s -> 1 <= k -> k < rank (pr_phase p) -> moved p p'.
Proof.
  intros (Hn & Hsafe & _) E Hseg H1 Hk.
  destruct (settle_result p aborted s x' p' k Hn Hsafe H1 E Hseg) as (Hok & Ea & Et & Hr & Hrk).
  unfold moved, measure, allowance. rewrite Ea, Et, Hr. repeat split; try apply Hok; try lia.
  repeat case_bool_decide; lia.
Qed.

(** The next phase of the same attempt, the tool body included. *)
Lemma to_phase p aborted xs ph x' p' :
  attempts_ok p -> settle opts p aborted (xs, inr ph) = (x', p') -> 2 <= rank ph < rank (pr_phase p) ->
  (running ph = true -> 5 <= rank (pr_phase p)) -> moved p p'.
Proof.
  intros (Hn & Hs & _) [= <- <-] Hr Hrun. unfold moved, attempts_ok, measure, allowance. cbn [pr_attempts pr_tool pr_phase].
  repeat split; try done; try lia; destruct ph; cbn in *; try done; repeat case_bool_decide; try lia; naive_solver lia.
Qed.

Lemma step_moved p w p' : attempts_ok p -> move p w = Some p' -> moved p p'.
Proof.
  intros Hok. destruct w as [[aborted a] x]. unfold move. cbn [fst snd].
  destruct (step U containsPii opts p aborted a x) as [[x' q]|] eqn:E; [|done]. intros [= ->].
  assert (Hrej : forall cause, reject p cause x = (x', p') -> 2 <= rank (pr_phase p) -> moved p p').
  { intros cause [= <- <-] Hr. destruct Hok as (Hn & Hs & _).
    unfold moved, attempts_ok, measure, allowance.
    cbn [pr_attempts pr_tool pr_phase rank running]. repeat split; try done; try lia; repeat case_bool_decide; lia. }
  revert E. unfold step. cbv zeta.
  destruct (pr_phase p) as [m|vi ea|vi ea|vi ea|vi ea|vi ea|vi ea|vi ea|vi ea|d|env ef|ms c|c|cause] eqn:Eph;
    destruct a as [|r|r|[b|cause']|[dc|cause']|[u|cause']|d'|linked mismatch|[t|cause']]; try discriminate;
    repeat (case_match; try discriminate); intros Hst%(inj Some);
    try (eapply Hrej; [exact Hst|cbn; lia]);
    try (eapply (same_attempt p _ _ _ _ _ Hok Hst);
         [first [apply rank_repair | apply rank_permission | apply rank_approval | apply rank_resume | apply rank_gates
                | apply rank_dispatch]|lia|rewrite Eph; cbn; lia]).
  - eapply (to_phase p _ _ _ _ _ Hok Hst); rewrite Eph; cbn; [lia|done].
  - eapply (to_phase p _ _ _ _ _ Hok Hst); rewrite Eph; cbn; [lia|done].
  - revert Hst. unfold start, launch. destruct (rt_hasIdempotencyKey (pr_tool p)); intros Hst;
      (eapply (to_phase p _ _ _ _ _ Hok Hst); rewrite Eph; cbn; [lia|done]).
  - eapply (to_phase p _ _ _ _ _ Hok Hst); rewrite Eph; cbn; [lia|done].
  - eapply (to_phase p _ _ _ _ _ Hok Hst); rewrite Eph; cbn; [lia|done].
  - eapply (same_attempt p _ _ _ _ 1 Hok Hst); [done|lia|rewrite Eph; cbn; lia].
  - revert Hst. intros [= <- <-]. destruct Hok as (Hn & Hs & _).
    unfold moved, attempts_ok, measure, allowance. rewrite Eph.
    cbn [pr_attempts pr_tool pr_phase rank running]. repeat split; try done; try lia; repeat case_bool_decide; lia.
  - destruct Hok as (Hn & Hs & Hb). rewrite Eph in Hb. destruct Hb as [Hlt Hsafe].
    eapply (settle_result _ _ _ _ _ 12) in Hst as (Hok' & Ea & Et & Hr & Hrk);
      [|cbn; lia|done|lia|apply rank_validate].
    cbn [pr_attempts pr_tool] in Ea, Et. unfold moved, measure, allowance. rewrite Ea, Et, Hr, Eph.
    cbn [rank]. repeat split; try apply Hok'; try lia; repeat case_bool_decide; lia.
Qed.

Lemma run_moved ws p p' :
  attempts_ok p -> run_proc p ws = Some p' ->
  attempts_ok p' /\ pr_tool p' = pr_tool p /\
  Z.of_nat (length ws) + measure p' <= measure p /\ starts p ws + allowance p' <= allowance p.
Proof.
  revert p. induction ws as [|w ws IH]; intros p Hok; cbn [run_proc starts length].
  { intros [= <-]. repeat split; try apply Hok; lia. }
  destruct (move p w) as [q|] eqn:Em; [|done]. cbn. intros Hrun.
  destruct (step_moved p w q Hok Em) as (Hq & Hm & Ht & Ha).
  destruct (IH q Hq Hrun) as (Hok' & Ht' & Hm' & Ha'). split; [done|]. split; [congruence|]. split; lia.
Qed.

Lemma allowance_nonneg p : attempts_ok p -> 0 <= allowance p.
Proof. intros ((? & ?) & _). unfold allowance. case_bool_decide; lia. Qed.

Lemma first_attempt cx aborted x x' p :
  executeOne opts cx aborted x = (x', inr p) ->
  attempts_ok p /\ allowance p <= maxAttempts opts /\ measure p <= 13 * maxAttempts opts - 1 /\ pr_attempts p = 1.
Proof.
  unfold executeOne. destruct (preflight opts cx x) as [x1 [c|tool]]; [done|].
  destruct (settle opts _ aborted _) as [x2 q] eqn:Es. intros [= <- <-].
  assert (Hmax : 1 <= maxAttempts opts) by (unfold maxAttempts; lia).
  eapply (settle_result _ _ _ _ _ 12) in Es as (Hok & Ea & Et & Hr & Hrk);
    [|cbn; lia|cbn; lia|lia|apply rank_validate].
  cbn [pr_attempts] in Ea. split; [done|]. unfold allowance, measure. rewrite Ea.
  split; [case_bool_decide; lia|]. split; [lia|done].
Qed.

Lemma final_move p w : final (pr_phase p) = true -> move p w = None.
Proof. intros Hf. destruct w as [[aborted a] x]. unfold move, step. cbn. now destruct (pr_phase p). Qed.

(** A pending call goes on with some answer. *)
Lemma not_stuck p x : final (pr_phase p) = false -> exists aborted a, is_Some (move p (aborted, a, x)).
Proof.
  intros Hf. unfold move, step. cbn [fst snd]. exists false.
  destruct (pr_phase p) as [m|vi ea|vi ea|vi ea|vi ea|vi ea|vi ea|vi ea|vi ea|d|env ef|ms c|c|cause]; try discriminate Hf.
  - exists (ARepaired (Ok None)). eauto.
  - destruct (xo_permissionHook opts); [exists (AVerdict (Err EmptyString))|exists AResume]; eauto.
  - exists (ANeeds (Ok false)). eauto.
  - exists (ADecision (Ok Granted)). eauto.
  - exists AResume. eauto.
  - exists (APrepared (Err EmptyString)). eauto.
  - exists (APrepared (Err EmptyString)). eauto.
  - exists AResume. eauto.
  - exists (ASettled (mkDispatched (mkEnvelope VUndef None) false None)). eauto.
  - exists (AVerified false false). eauto.
  - exists (ATexts (Err EmptyString)). eauto.
  - exists AResume. eauto.
Qed.

End Retry.

(** ** Guarantees *)

(** C13: a call's tool body starts at most as often as attempts are configured,
    and at most once when the tool has external side effects and no idempotency
    key, whatever errors come back and whichever error kinds are configured to
    be retried. *)
Theorem effects_not_doubled U containsPii opts cx aborted x x' p ws p' :
  executeOne opts cx aborted x = (x', inr p) ->
  run_proc U containsPii opts p ws = Some p' ->
  starts U containsPii opts p ws <= maxAttempts opts /\
  (sink_class (rt_sideEffectClass (pr_tool p)) = true -> rt_hasIdempotencyKey (pr_tool p) = false ->
   starts U containsPii opts p ws <= 1).
Proof.
  intros He Hr. destruct (first_attempt opts cx aborted x x' p He) as (Hok & Hal & _ & Ha1).
  destruct (run_moved U containsPii opts ws p p' Hok Hr) as (Hok' & Ht & _ & Hst).
  pose proof (allowance_nonneg opts p' Hok') as Hnn. split; [lia|]. intros Hsink Hkey.
  assert (Hone : pr_attempts p' = 1).
  { destruct Hok' as ((? & _) & Hs & _). rewrite Ht in Hs. unfold retrySafe in Hs. rewrite Hsink, Hkey in Hs.
    cbn in Hs. destruct (Z.le_gt_cases (pr_attempts p') 1); [lia|]. discriminate Hs. lia. }
  unfold allowance in *. rewrite Ha1 in Hst. rewrite Hone in Hst. repeat case_bool_decide; lia.
Qed.

(** every call comes to an end: it passes fewer than 13 phases per
    configured attempt, whatever they answer, and until it is completed or
    rejected it never waits for something that no answer could resolve. *)
Theorem calls_finish U containsPii opts cx aborted x x' p ws p' :
  executeOne opts cx aborted x = (x', inr p) ->
  run_proc U containsPii opts p ws = Some p' ->
  Z.of_nat (length ws) < 13 * maxAttempts opts /\
  (final (pr_phase p') = false -> forall x1, exists ab a, is_Some (move U containsPii opts p' (ab, a, x1))).
Proof.
  intros He Hr. destruct (first_attempt opts cx aborted x x' p He) as (Hok & _ & Hm & _).
  destruct (run_moved U containsPii opts ws p p' Hok Hr) as (Hok' & _ & Hlen & _).
  split; [|intros Hf x1; now apply not_stuck].
  destruct Hok' as ((? & ?) & _). unfold measure in *. assert (0 <= rank (pr_phase p')) by (destruct (pr_phase p'); cbn; lia).
  lia.
Qed.

(** ** What a failure leaves out *)

Definition error_message (c : CompletedToolCall) : option string :=
  match cc_outcome c with OError e => Some (te_message e) | OResult _ => None end.

Lemma frozen_message cx e : error_message (frozenCompleted cx (OError e)) = Some (te_message e).
Proof. unfold error_message, frozenCompleted. cbn. now destruct (recoveryForKind (te_kind e)). Qed.

(** The text of an error a tool fails with reaches the model as the message of
    the outcome, and the data-flow guard is not told of it, whatever the trust
    class of the tool. *)
Lemma failures_not_recorded cx tool d e x :
  ds_error d = Some e ->
  exists x' c, settleDispatch cx tool d false false false x = (x', inl c) /\
    error_message c = Some (describe e) /\ x_guard x' = x_guard x.
Proof.
  intros He. unfold settleDispatch. rewrite He. do 2 eexists. split; [reflexivity|].
  split; [|reflexivity]. unfold completeExecutionFailure. cbn [snd done]. rewrite frozen_message. cbn [te_message].
  cbn. now rewrite andb_false_r.
Qed.

(** ** Examples *)

Definition any_schema : Schema := fun v => Ok v.

Definition mail_tool : ResolvedTool :=
  mkTool "send_mail" any_schema None (AskStatic true) false None FirstPartyUserDefined SrcFirstParty ExternalStateful false.

Definition demo_flow : DataFlowPolicyConfig := mkFlowConfig MEnforce None None None None None None.

Definition demo_exec : ExecutorOptions :=
  mkExecutorOptions (fun n => if bool_decide (n = "send_mail") then Some mail_tool else None) None
    (buildToolArgumentPolicy (Some (mkPolicy [mkRule RForbid "fs_*" None None] None)) None).1
    false false true (Some demo_flow) None (Some (mkRetry (Some 5) None (Some [RateLimited; ExecutionFailed]))).

Definition demo_call : CallCtx := mkCtx (mkCall "c1" "send_mail" (VObj [("to", VStr "a")])) "r1" 1 false false false.
Definition empty_x : XState := mkX [] [] [].

(** Approved, started, and failed with an error of a kind that is retried. *)
Definition demo_awaits : list Await :=
  map (fun a => (false, a, empty_x))
    [AResume; ANeeds (Ok false); ADecision (Ok Granted); AResume; APrepared (Ok ()); APrepared (Ok ());
     ASettled (mkDispatched (mkEnvelope VUndef None) false (Some (ErrOther "boom"))); AVerified false false].

Definition no_pii_text : text -> bool := fun _ => false.
Definition plain_unicode : Unicode := mkUnicode (fun s => s) (fun _ => true) (fun s => s).

Definition demo_proc : Proc := mkProc demo_call mail_tool 1 (PPermission (tc_args (cx_call demo_call)) (tc_args (cx_call demo_call))).

Definition demo_end : Proc :=
  mkProc demo_call mail_tool 1 (PDone (mkCompleted (cx_call demo_call)
    (OError (mkToolError ExecutionFailed "boom" (Some (ErrOther "boom")) None (Some false) (Some TryAlternative))) 1)).

Lemma effects_not_doubled_witness :
  starts plain_unicode no_pii_text demo_exec demo_proc demo_awaits = 1 /\
  starts plain_unicode no_pii_text demo_exec demo_proc demo_awaits <= 1.
Proof.
  split; [vm_compute; reflexivity|].
  refine (proj2 (effects_not_doubled plain_unicode no_pii_text demo_exec demo_call false empty_x empty_x demo_proc
    demo_awaits demo_end _ _) _ _); vm_compute; reflexivity.
Defined.

Lemma calls_finish_witness :
  Z.of_nat (length demo_awaits) < 13 * maxAttempts demo_exec.
Proof.
  refine (proj1 (calls_finish plain_unicode no_pii_text demo_exec demo_call false empty_x empty_x demo_proc demo_awaits
    demo_end _ _));
    vm_compute; reflexivity.
Defined.
