(* ===== verification/ExecutorProps.v ===== *)
(** * What the executor lets run

    Any number of calls, of one run or several, stand at their awaits; the step
    relation [xstep] starts a call, lets any pending one go on with whatever its
    hooks, gates and tools answer, or lets the agent call the data-flow guard.
    The log of a reachable state says what was done in which order. *)

From S2P Require Import Prelude JsValue Json Dataflow DataflowProps FlowGuard ArgPolicy Executor ExecutorRetry.
From stdpp Require Import gmap.

Local Open Scope string_scope.
Local Open Scope list_scope.
Local Open Scope Z_scope.

(** The guard calls of a log. *)
Definition calls_of (log : list XEvent) : list GuardCall :=
  omap (fun e => match e with XGuard c _ => Some c | _ => None end) log.

Record XWorld := mkWorld { w_state : XState; w_procs : list Proc }.

Section Props.
Context (U : Unicode) (containsPii : text -> bool) (opts : ExecutorOptions).

Local Notation guard_after := (fun cfg log => run_guard U containsPii cfg (calls_of log) []).

(** ** Steps *)

Definition agent_call (cfg : DataFlowPolicyConfig) (c : GuardCall) (x : XState) : XState :=
  mkX (exec_guard U containsPii cfg c (x_guard x)) (x_taint x) (x_log x ++ [XGuard c None]).

Inductive xstep : XWorld -> XWorld -> Prop :=
| xs_refuse x ps cx aborted x' c :
    executeOne opts cx aborted x = (x', inl c) -> xstep (mkWorld x ps) (mkWorld x' ps)
| xs_start x ps cx aborted x' p :
    executeOne opts cx aborted x = (x', inr p) -> xstep (mkWorld x ps) (mkWorld x' (ps ++ [p]))
| xs_run x ps i p aborted a x' p' :
    ps !! i = Some p -> step U containsPii opts p aborted a x = Some (x', p') ->
    xstep (mkWorld x ps) (mkWorld x' (<[i := p']> ps))
| xs_agent x ps cfg c :
    xo_dataFlow opts = Some cfg -> xstep (mkWorld x ps) (mkWorld (agent_call cfg c x) ps).

Definition init : XWorld := mkWorld (mkX [] [] []) [].

Definition reachable (w : XWorld) : Prop := rtc xstep init w.

(** ** What must have happened before a tool body starts *)

Definition name_denied (name : string) : bool :=
  match xo_argumentPolicy opts ≫= gd_deniesName with
  | Some f => match f name with Denied _ => true | NotDenied => false end
  | None => false
  end.

(** The checks before the attempt. *)
Definition preflight_ok (cx : CallCtx) (tool : ResolvedTool) : Prop :=
  xo_registry opts (tc_toolName (cx_call cx)) = Some tool /\
  name_denied (tc_toolName (cx_call cx)) = false /\
  (cx_readOnly cx = true -> sink_class (rt_sideEffectClass tool) = false).

(** The gate granted the call on these very arguments. *)
Definition granted_on (log : list XEvent) (cx : CallCtx) (ea : value) : Prop :=
  xo_approvalGate opts = true /\ XApproval (tc_id (cx_call cx)) ea true ∈ log.

(** A call that is not pre-approved was granted where its tool always needs
    approval, and where the tool's predicate was asked about this very input and
    did not answer that none is needed. *)
Definition approval_ok (log : list XEvent) (cx : CallCtx) (tool : ResolvedTool) (vi ea : value) : Prop :=
  cx_preApproved cx = false ->
  match rt_needsApproval tool with
  | NeverAsked | AskStatic false => True
  | AskStatic true => granted_on log cx ea
  | AskPredicate => XNeeds (tc_id (cx_call cx)) vi false ∈ log \/
                    (XNeeds (tc_id (cx_call cx)) vi true ∈ log /\ granted_on log cx ea)
  end.

(** The argument policy does not refuse the input that runs. *)
Definition policy_ok (cx : CallCtx) (tool : ResolvedTool) (vi : value) : Prop :=
  forall guard, xo_argumentPolicy opts = Some guard ->
  match gd_decide guard with
  | Some d => match effect_of (d (policy_facts tool vi)) with
              | EAllow => True | EDeny => False | _ => cx_preApproved cx = true end
  | None => gd_evaluate guard (policy_facts tool vi) = TAllow
  end.

(** A sink was inspected with these arguments and not blocked. *)
Definition flow_ok (log : list XEvent) (cx : CallCtx) (tool : ResolvedTool) (ea : value) : Prop :=
  xo_dataFlow opts <> None -> sink_class (rt_sideEffectClass tool) = true ->
  exists v, XGuard (GInspect (inspect_input cx tool ea)) (Some v) ∈ log /\ forall f, v <> DBlock f.

Definition cleared (log : list XEvent) (cx : CallCtx) (tool : ResolvedTool) (vi ea : value) : Prop :=
  preflight_ok cx tool /\ rt_inputSchema tool ea = Ok vi /\ approval_ok log cx tool vi ea /\
  policy_ok cx tool vi /\ flow_ok log cx tool ea.

(** ** Invariants *)

(** Every event is justified by the log before it. *)
Definition justified (log : list XEvent) (e : XEvent) : Prop :=
  match e with
  | XStart cx tool vi ea => cleared log cx tool vi ea
  | XGuard (GInspect i) (Some v) =>
      forall cfg, xo_dataFlow opts = Some cfg -> v = (inspect U containsPii cfg i (guard_after cfg log)).2
  | _ => True
  end.

Record inv (x : XState) : Prop := {
  iv_log : log_ok justified (x_log x);
  iv_guard : forall cfg, xo_dataFlow opts = Some cfg -> x_guard x = guard_after cfg (x_log x);
}.

Definition phase_ok (log : list XEvent) (cx : CallCtx) (tool : ResolvedTool) (ph : Phase) : Prop :=
  match ph with
  | PPermission vi ea | PNeeds vi ea => rt_inputSchema tool ea = Ok vi
  | PAsk vi ea => rt_inputSchema tool ea = Ok vi /\
      (rt_needsApproval tool = AskPredicate -> XNeeds (tc_id (cx_call cx)) vi true ∈ log)
  | PGates vi ea => rt_inputSchema tool ea = Ok vi /\ approval_ok log cx tool vi ea
  | PReady vi ea | PSnapshot vi ea | PKey vi ea => cleared log cx tool vi ea
  | _ => True
  end.

Definition proc_ok (log : list XEvent) (p : Proc) : Prop :=
  preflight_ok (pr_cx p) (pr_tool p) /\ phase_ok log (pr_cx p) (pr_tool p) (pr_phase p).

Lemma approval_ok_mono log ext cx tool vi ea : approval_ok log cx tool vi ea -> approval_ok (log ++ ext) cx tool vi ea.
Proof.
  unfold approval_ok, granted_on. intros Ha Hp. specialize (Ha Hp). destruct (rt_needsApproval tool) as [|[]|]; set_solver.
Qed.

Lemma cleared_mono log ext cx tool vi ea : cleared log cx tool vi ea -> cleared (log ++ ext) cx tool vi ea.
Proof.
  intros (H1 & H2 & Ha & H4 & Hf). do 2 (split; [done|]). split; [now apply approval_ok_mono|]. split; [done|].
  intros Hn Hp. destruct (Hf Hn Hp) as (v & ? & ?). exists v. split; [set_solver|done].
Qed.

Lemma phase_ok_mono log log' cx tool ph :
  log `prefix_of` log' -> phase_ok log cx tool ph -> phase_ok log' cx tool ph.
Proof.
  intros [ext ->]. unfold phase_ok. destruct ph; try done; try apply cleared_mono.
  - intros [? Ha]. split; [done|]. set_solver.
  - intros [? Ha]. split; [done|]. now apply approval_ok_mono.
Qed.

Lemma calls_of_app a b : calls_of (a ++ b) = calls_of a ++ calls_of b.
Proof. apply omap_app. Qed.

(** ** Events *)

Definition quiet (e : XEvent) : Prop := match e with XAudit _ _ _ _ | XNeeds _ _ _ | XApproval _ _ _ => True | _ => False end.

Lemma inv_event x e : calls_of [e] = [] -> justified (x_log x) e -> inv x -> inv (log_event e x).
Proof.
  intros He Hj [Hl Hg]. split; cbn [log_event x_log x_guard].
  - now apply log_ok_snoc.
  - intros cfg Hc. now rewrite calls_of_app, He, app_nil_r, (Hg cfg Hc).
Qed.

Lemma inv_quiet x e : quiet e -> inv x -> inv (log_event e x).
Proof. intros Hq. apply inv_event; now destruct e. Qed.

Lemma inv_emit action target decision cx x : inv x -> inv (emit action target decision cx x).
Proof. apply (inv_quiet x (XAudit action target decision (tc_id (cx_call cx)))). done. Qed.

Lemma emit_log action target decision cx x : x_log x `prefix_of` x_log (emit action target decision cx x).
Proof. eexists. reflexivity. Qed.

Lemma inv_guard_call x c v cfg g :
  xo_dataFlow opts = Some cfg -> inv x -> g = exec_guard U containsPii cfg c (x_guard x) ->
  justified (x_log x) (XGuard c v) -> inv (mkX g (x_taint x) (x_log x ++ [XGuard c v])).
Proof.
  intros Hc [Hl Hg] -> Hj. split; cbn [x_log x_guard].
  - now apply log_ok_snoc.
  - intros cfg' Hc'. assert (cfg' = cfg) as -> by congruence.
    rewrite calls_of_app, (Hg cfg Hc). cbn. now rewrite run_guard_snoc.
Qed.

(** ** Segments *)

Definition seg_ok (cx : CallCtx) (tool : ResolvedTool) (x : XState) (s : Segment) : Prop :=
  inv s.1 /\ x_log x `prefix_of` x_log s.1 /\
  match s.2 with inl _ => True | inr ph => phase_ok (x_log s.1) cx tool ph end.

Lemma seg_next cx tool x ph : inv x -> phase_ok (x_log x) cx tool ph -> seg_ok cx tool x (next x ph).
Proof. intros. split; [done|]. split; [done|done]. Qed.

Lemma seg_later cx tool x x1 s : x_log x `prefix_of` x_log x1 -> seg_ok cx tool x1 s -> seg_ok cx tool x s.
Proof. intros Hp (Hi & Hp1 & Hph). split; [done|]. split; [etrans; [exact Hp|exact Hp1]|done]. Qed.

Lemma seg_emit_next cx tool x action target decision ph :
  inv x -> phase_ok (x_log x) cx tool ph -> seg_ok cx tool x (next (emit action target decision cx x) ph).
Proof.
  intros Hi Hp. split; [now apply inv_emit|]. split; [apply emit_log|].
  eapply phase_ok_mono; [apply emit_log|exact Hp].
Qed.

Lemma seg_fail cx cx' tool x target k message hint : inv x -> seg_ok cx tool x (done (failWith cx' target k message hint x)).
Proof. intros Hi. split; [now apply inv_emit|]. split; [apply emit_log|done]. Qed.

Lemma validate_ok cx tool x : inv x -> seg_ok cx tool x (runValidateArgsPhase opts cx tool x).
Proof.
  intros Hi. unfold runValidateArgsPhase, fail_tool.
  destruct (rt_inputSchema tool (tc_args (cx_call cx))) eqn:E; [now apply seg_next|].
  case_match; [now apply seg_next|now apply seg_fail].
Qed.

Lemma repair_ok cx tool m r x : inv x -> seg_ok cx tool x (resumeRepair cx tool m r x).
Proof.
  intros Hi. unfold resumeRepair, fail_tool. destruct r as [[v|]|c]; [|now apply seg_fail..].
  destruct (rt_inputSchema tool v) eqn:E; [now apply seg_next|now apply seg_fail].
Qed.

Lemma permission_ok cx tool vi ea r x :
  inv x -> rt_inputSchema tool ea = Ok vi -> seg_ok cx tool x (runPermissionPhase cx tool vi ea r x).
Proof.
  intros Hi Hs. unfold runPermissionPhase, fail_tool.
  repeat first [now apply seg_fail | now apply seg_next | now apply seg_emit_next | case_match | case_decide].
Qed.

Lemma approval_phase_ok cx tool vi ea needs x :
  inv x -> rt_inputSchema tool ea = Ok vi -> seg_ok cx tool x (runApprovalPhase cx tool vi ea needs x).
Proof.
  intros Hi Hs. unfold runApprovalPhase, requestApproval.
  destruct (cx_preApproved cx) eqn:Ep.
  { apply seg_next; [done|]. split; [done|]. intros Hp. congruence. }
  destruct (rt_needsApproval tool) as [|[]|] eqn:En; cbv zeta.
  - apply seg_next; [done|]. split; [done|]. intros _. now rewrite En.
  - apply seg_emit_next; [done|]. split; [done|]. congruence.
  - apply seg_next; [done|]. split; [done|]. intros _. now rewrite En.
  - set (x1 := log_event _ x). assert (Hi1 : inv x1) by now apply inv_quiet.
    assert (Hp1 : x_log x `prefix_of` x_log x1) by (eexists; reflexivity).
    assert (Hin : XNeeds (tc_id (cx_call cx)) vi needs ∈ x_log x1) by (cbn; set_solver).
    destruct needs.
    + eapply seg_later; [exact Hp1|]. apply seg_emit_next; [done|]. split; [done|]. done.
    + eapply seg_later; [exact Hp1|]. apply seg_next; [done|]. split; [done|]. intros _. rewrite En. now left.
Qed.

Lemma resume_approval_ok cx tool vi ea d x :
  inv x -> phase_ok (x_log x) cx tool (PAsk vi ea) -> seg_ok cx tool x (resumeApproval opts cx tool vi ea d x).
Proof.
  intros Hi [Hs Hneeds]. unfold resumeApproval. cbv zeta.
  destruct (if xo_approvalGate opts then d else _) as [|reason] eqn:Ed.
  - split; [apply inv_emit, inv_quiet; done|]. cbn [next fst snd emit log_event x_log].
    split; [do 2 apply prefix_app_r; done|]. split; [done|]. intros _.
    assert (Hg : granted_on ((x_log x ++ [XApproval (tc_id (cx_call cx)) ea true])
      ++ [XAudit "tool:approval:granted" (rt_name tool) "success" (tc_id (cx_call cx))]) cx ea).
    { split; [destruct (xo_approvalGate opts); [done|discriminate]|]. set_solver. }
    destruct (rt_needsApproval tool) as [|[]|] eqn:En; try done. right. split; [|done].
    specialize (Hneeds eq_refl). set_solver.
  - split; [apply inv_emit, inv_quiet; done|]. cbn [done fst snd emit log_event x_log].
    split; [do 2 apply prefix_app_r; done|done].
Qed.

Lemma policy_phase_ok cx tool vi x :
  match runArgumentPolicyPhase opts cx tool vi x with
  | Some r => exists k m h, r = failWith cx (rt_name tool) k m h x
  | None => policy_ok cx tool vi
  end.
Proof.
  unfold runArgumentPolicyPhase, policy_ok. destruct (xo_argumentPolicy opts) as [guard|]; [|congruence].
  cbv zeta. destruct (gd_decide guard) as [d|] eqn:Ed.
  - destruct (d (policy_facts tool vi)) as [|[] reason] eqn:Er; try (now eauto).
    + intros g [= <-]. now rewrite Ed, Er.
    + destruct (cx_preApproved cx) eqn:Ep; [|eauto]. intros g [= <-]. now rewrite Ed, Er.
    + destruct (cx_preApproved cx) eqn:Ep; [|eauto]. intros g [= <-]. now rewrite Ed, Er.
    + destruct (cx_preApproved cx) eqn:Ep; [|eauto]. intros g [= <-]. now rewrite Ed, Er.
  - destruct (gd_evaluate guard (policy_facts tool vi)) eqn:Er; [|eauto]. intros g [= <-]. now rewrite Ed.
Qed.

Lemma sink_gate_ok cx tool ea x x' r :
  inv x -> runDataFlowSinkGate U containsPii opts cx tool ea x = (x', r) ->
  inv x' /\ x_log x `prefix_of` x_log x' /\ (r = None -> flow_ok (x_log x') cx tool ea).
Proof.
  intros Hi. unfold runDataFlowSinkGate, flow_ok. destruct (xo_dataFlow opts) as [cfg|] eqn:Ec.
  2: { intros [= <- <-]. split; [done|]. split; [done|]. intros _ Hn. congruence. }
  destruct (sink_class (rt_sideEffectClass tool)) eqn:Es; cbn [negb].
  2: { intros [= <- <-]. split; [done|]. split; [done|]. done. }
  destruct (inspect U containsPii cfg (inspect_input cx tool ea) (x_guard x)) as [g v] eqn:Eg. cbv zeta.
  set (x1 := mkX g (x_taint x) _).
  assert (Hi1 : inv x1).
  { apply (inv_guard_call x _ _ cfg); [done|done|cbn [exec_guard]; now rewrite Eg|].
    cbn [justified]. intros cfg' Hc'. assert (cfg' = cfg) as -> by congruence.
    rewrite <- (iv_guard x Hi cfg Ec), Eg. done. }
  assert (Hp1 : x_log x `prefix_of` x_log x1) by (eexists; reflexivity).
  assert (Hin : XGuard (GInspect (inspect_input cx tool ea)) (Some v) ∈ x_log x1) by (cbn; set_solver).
  destruct v as [|f|f|f]; intros [= <- <-].
  - split; [done|]. split; [done|]. intros _ _ _. exists DAllow. split; [done|congruence].
  - split; [now apply inv_emit|]. split; [etrans; [exact Hp1|apply emit_log]|]. intros _ _ _.
    exists (DFlag f). split; [|congruence]. cbn [emit x_log]. set_solver.
  - split; [now apply inv_emit|]. split; [etrans; [exact Hp1|apply emit_log]|]. intros _ _ _.
    exists (DDeclassify f). split; [|congruence]. cbn [emit x_log]. set_solver.
  - split; [now do 2 apply inv_emit|]. split; [|done]. etrans; [exact Hp1|]. etrans; apply emit_log.
Qed.

Lemma gates_ok cx tool vi ea x :
  inv x -> preflight_ok cx tool -> phase_ok (x_log x) cx tool (PGates vi ea) ->
  seg_ok cx tool x (gates U containsPii opts cx tool vi ea x).
Proof.
  intros Hi Hpre [Hs Ha]. unfold gates. pose proof (policy_phase_ok cx tool vi x) as Hpol.
  destruct (runArgumentPolicyPhase opts cx tool vi x) as [r|].
  { destruct Hpol as (k & m & h & ->). now apply seg_fail. }
  destruct (runDataFlowSinkGate U containsPii opts cx tool ea x) as [x' [c|]] eqn:Eg;
    destruct (sink_gate_ok cx tool ea x x' _ Hi Eg) as (Hi' & Hp & Hf).
  - split; [done|]. split; done.
  - split; [done|]. split; [done|]. cbn [next snd fst].
    destruct (phase_ok_mono _ _ cx tool (PGates vi ea) Hp (conj Hs Ha)) as [_ Ha'].
    split; [done|]. split; [done|]. split; [done|]. split; [done|]. now apply Hf.
Qed.

Lemma launch_ok cx tool vi ea x :
  inv x -> cleared (x_log x) cx tool vi ea -> seg_ok cx tool x (launch cx tool vi ea x).
Proof.
  intros Hi Hc. split; [|split; [eexists; reflexivity|done]]. now apply inv_event.
Qed.

Lemma tool_start_ok cx tool vi ea x :
  inv x -> cleared (x_log x) cx tool vi ea -> seg_ok cx tool x (start cx tool vi ea x).
Proof.
  intros Hi Hc. unfold start. cbv zeta. destruct (rt_hasIdempotencyKey tool); [now apply seg_emit_next|].
  eapply seg_later; [apply emit_log|]. apply launch_ok; [now apply inv_emit|]. now apply cleared_mono.
Qed.

Lemma dispatch_ok cx tool d linked mismatch aborted x :
  inv x -> seg_ok cx tool x (settleDispatch cx tool d linked mismatch aborted x).
Proof.
  intros Hi0. unfold settleDispatch. cbv zeta. set (x1 := if mismatch && _ then _ else x).
  assert (Hx : inv x1 /\ x_log x `prefix_of` x_log x1).
  { unfold x1. destruct (mismatch && _); [split; [now apply inv_emit|apply emit_log]|done]. }
  destruct Hx as [Hi Hp]. eapply seg_later; [exact Hp|].
  assert (Hfail : forall e b1 b2, seg_ok cx tool x1 (done (completeExecutionFailure cx tool e aborted b1 b2 x1))).
  { intros. split; [now apply inv_emit|]. split; [apply emit_log|done]. }
  destruct (match ds_error d with Some e => _ | None => _ end) as [e|]; [apply Hfail|].
  destruct (buildEnvelopePhase tool _); [now apply seg_fail|now apply seg_next].
Qed.

Lemma register_handle_ok handle ef flagged x : inv x -> inv (registerHandle opts handle ef flagged x).
Proof. intros Hi. destruct handle; [|done]. split; apply Hi. Qed.

Lemma register_log handle ef flagged x : x_log (registerHandle opts handle ef flagged x) = x_log x.
Proof. now destruct handle. Qed.

Lemma provenance_ok i x :
  inv x -> inv (recordProvenance U containsPii opts i x) /\
           x_log x `prefix_of` x_log (recordProvenance U containsPii opts i x).
Proof.
  intros Hi. unfold recordProvenance. destruct (xo_dataFlow opts) as [cfg|] eqn:Ec; [|done].
  split; [|eexists; reflexivity]. now apply (inv_guard_call x _ _ cfg).
Qed.

Lemma sanitize_ok cx tool env ef t x :
  inv x -> inv (runSanitizePhase cx tool env ef t x).1 /\
           x_log x `prefix_of` x_log (runSanitizePhase cx tool env ef t x).1.
Proof.
  intros Hi. unfold runSanitizePhase. cbv zeta. set (x0 := match tp_patternsHit t with [] => x | _ => _ end).
  assert (H0 : inv x0 /\ x_log x `prefix_of` x_log x0).
  { unfold x0. destruct (tp_patternsHit t); [done|]. split; [now apply inv_emit|apply emit_log]. }
  clearbody x0. destruct H0 as [Hi0 Hp0]. destruct (tp_blocked t); [|done].
  split; [now apply inv_emit|etrans; [exact Hp0|apply emit_log]].
Qed.

Lemma assemble_ok cx tool env ef t x :
  inv x -> seg_ok cx tool x (done (assembleResult U containsPii opts cx tool env ef t x)).
Proof.
  intros Hi. unfold assembleResult. destruct (sanitize_ok cx tool env ef t x Hi) as [Hi0 Hp0].
  destruct (runSanitizePhase cx tool env ef t x) as [x0 [c|out]]; [done|]. cbn [fst] in Hi0, Hp0. cbv zeta.
  set (x1 := registerHandle _ _ _ _ _). assert (Hi1 : inv x1) by now apply register_handle_ok.
  destruct (provenance_ok (record_input cx env ef (tp_body t)) x1 Hi1) as [Hi2 Hp2].
  split; [now apply inv_emit|]. split; [|done].
  etrans; [exact Hp0|]. etrans; [|apply emit_log]. etrans; [|exact Hp2]. unfold x1. now rewrite register_log.
Qed.

(** ** Processes *)

Lemma after_attempt_ok log cx tool n aborted c : phase_ok log cx tool (after_attempt opts tool n aborted c).
Proof. unfold after_attempt. repeat case_match; done. Qed.

Lemma settle_ok p aborted x s x' p' :
  preflight_ok (pr_cx p) (pr_tool p) -> seg_ok (pr_cx p) (pr_tool p) x s -> settle opts p aborted s = (x', p') ->
  inv x' /\ x_log x `prefix_of` x_log x' /\ proc_ok (x_log x') p'.
Proof.
  intros Hpre (Hi & Hp & Hph). unfold settle. destruct s as [xs r]. intros [= <- <-]. cbn [fst snd] in *.
  split; [done|]. split; [done|]. split; [done|]. cbn [pr_cx pr_tool pr_phase].
  destruct r; [apply after_attempt_ok|done].
Qed.

Lemma reject_ok p cause x x' p' :
  inv x -> preflight_ok (pr_cx p) (pr_tool p) -> reject p cause x = (x', p') ->
  inv x' /\ x_log x `prefix_of` x_log x' /\ proc_ok (x_log x') p'.
Proof. intros Hi Hpre [= <- <-]. split; [done|]. split; [done|]. now split. Qed.

Lemma proc_step_ok p aborted a x x' p' :
  inv x -> proc_ok (x_log x) p -> step U containsPii opts p aborted a x = Some (x', p') ->
  inv x' /\ x_log x `prefix_of` x_log x' /\ proc_ok (x_log x') p'.
Proof.
  intros Hi [Hpre Hph]. unfold step. cbv zeta.
  destruct (pr_phase p) as [m|vi ea|vi ea|vi ea|vi ea|vi ea|vi ea|vi ea|vi ea|d|env ef|ms c|c|cause];
    destruct a as [|r|r|[b|cause']|[dc|cause']|[u|cause']|d'|linked mismatch|[t|cause']]; try discriminate;
    repeat (case_match; try discriminate); intros Hst%(inj Some); cbn [phase_ok] in Hph;
    try (eapply reject_ok; [exact Hi|exact Hpre|exact Hst]);
    try (eapply settle_ok; [exact Hpre| |exact Hst];
         first [now apply repair_ok | now apply permission_ok | now apply approval_phase_ok | now apply resume_approval_ok
               | now apply gates_ok | now apply tool_start_ok | now apply launch_ok | now apply dispatch_ok | now apply assemble_ok
               | now apply seg_next]).
  - revert Hst. intros [= <- <-]. split; [done|]. split; [done|]. now split.
  - eapply (settle_ok (mkProc (pr_cx p) (pr_tool p) (pr_attempts p + 1) (PBackoff ms c)));
      [exact Hpre|now apply validate_ok|exact Hst].
Qed.

Lemma preflight_spec cx x x' r :
  inv x -> preflight opts cx x = (x', r) ->
  inv x' /\ x_log x `prefix_of` x_log x' /\ match r with inl _ => True | inr tool => preflight_ok cx tool end.
Proof.
  intros Hi. unfold preflight, failWith, preflight_ok, name_denied. cbv zeta.
  destruct (xo_registry opts (tc_toolName (cx_call cx))) as [tool|] eqn:Er.
  2: { intros [= <- <-]. split; [now apply inv_emit|]. split; [apply emit_log|done]. }
  destruct (xo_argumentPolicy opts ≫= gd_deniesName) as [f|] eqn:Ef;
    [destruct (f (tc_toolName (cx_call cx))) eqn:Ed|];
    [|intros [= <- <-]; split; [now apply inv_emit|]; split; [apply emit_log|done]|];
    (destruct (cx_readOnly cx) eqn:Ero, (sink_class (rt_sideEffectClass tool)) eqn:Es; cbn [andb]; intros [= <- <-];
     [split; [now apply inv_emit|]; split; [apply emit_log|done]|..];
     (split; [done|]; split; [done|]; split; [done|]; split; [done|]; done)).
Qed.

Lemma executeOne_ok cx aborted x x' r :
  inv x -> executeOne opts cx aborted x = (x', r) ->
  inv x' /\ x_log x `prefix_of` x_log x' /\ match r with inl _ => True | inr p => proc_ok (x_log x') p end.
Proof.
  intros Hi. unfold executeOne. destruct (preflight opts cx x) as [x1 [c|tool]] eqn:Ep;
    destruct (preflight_spec cx x x1 _ Hi Ep) as (Hi1 & Hp1 & Hpre); [intros [= <- <-]; auto|].
  destruct (settle opts _ aborted _) as [x2 p] eqn:Es. intros [= <- <-].
  destruct (settle_ok (mkProc cx tool 1 (PRejected "")) aborted x1 _ x2 p Hpre (validate_ok cx tool x1 Hi1) Es)
    as (Hi2 & Hp2 & Hok).
  split; [done|]. split; [etrans; [exact Hp1|exact Hp2]|done].
Qed.

Record world_ok (w : XWorld) : Prop := {
  wo_inv : inv (w_state w);
  wo_procs : Forall (proc_ok (x_log (w_state w))) (w_procs w);
}.

Lemma procs_mono log log' ps : log `prefix_of` log' -> Forall (proc_ok log) ps -> Forall (proc_ok log') ps.
Proof.
  intros Hp Hps. eapply Forall_impl; [exact Hps|]. intros p [Hpre Hph]. split; [done|]. eapply phase_ok_mono; [exact Hp|exact Hph].
Qed.

Lemma xstep_ok w w' : xstep w w' -> world_ok w -> world_ok w'.
Proof.
  intros Hst [Hi Hps]. destruct Hst as [x ps cx aborted x' c E|x ps cx aborted x' p E|x ps i p aborted a x' p' Hp E|x ps cfg c Hc];
    cbn [w_state w_procs] in *.
  - destruct (executeOne_ok _ _ _ _ _ Hi E) as (Hi' & Hpre & _). split; [done|]. eapply procs_mono; [exact Hpre|exact Hps].
  - destruct (executeOne_ok _ _ _ _ _ Hi E) as (Hi' & Hpre & Hok). split; [done|].
    apply Forall_app. split; [eapply procs_mono; [exact Hpre|exact Hps]|]. now constructor.
  - assert (Hok := proj1 (Forall_lookup _ _) Hps i p Hp).
    destruct (proc_step_ok p aborted a x x' p' Hi Hok E) as (Hi' & Hpre & Hok'). split; [done|].
    apply Forall_insert; [eapply procs_mono; [exact Hpre|exact Hps]|done].
  - split; [now apply (inv_guard_call x c None cfg); [..|destruct c]|].
    eapply procs_mono; [|exact Hps]. eexists. reflexivity.
Qed.

Lemma reachable_world_ok w : reachable w -> world_ok w.
Proof.
  assert (Hinit : world_ok init).
  { split; [|constructor]. split; [intros j e He; destruct j; discriminate He|done]. }
  unfold reachable. intros Hr. induction Hr as [|w1 w2 w3 Hs _ IH]; [done|]. eauto using xstep_ok.
Qed.

End Props.

(** ** Guarantees *)

(** C9: however the calls of an executor interleave and whatever its hooks,
    gates and tools answer, a tool body that starts was cleared before: the tool
    is registered and not denied by name, a read-only run starts no writer, the
    input is what the tool's schema makes of the arguments the gates saw, a tool
    that needs approval (always, or because its predicate said so of this input)
    was granted on exactly these arguments (or the batch was pre-approved), the
    argument policy does not refuse the input (asking and deferring pass only when
    pre-approved), and a sink was inspected by the data-flow guard with these
    arguments and not blocked. *)
Theorem started_calls_cleared U containsPii opts w l1 cx tool vi ea l2 :
  reachable U containsPii opts w ->
  x_log (w_state w) = l1 ++ XStart cx tool vi ea :: l2 ->
  cleared opts l1 cx tool vi ea.
Proof.
  intros Hr E. destruct (reachable_world_ok U containsPii opts w Hr) as [[Hl _] _].
  rewrite E in Hl. exact (log_ok_split _ _ _ _ Hl).
Qed.

Lemma private_flags U containsPii cfg r h :
  Forall (fun c => is_seed r c = false) h ->
  tl_untrustedSeen (private U containsPii cfg r h) = existsb (reports_untrusted cfg r) h /\
  tl_sensitiveSeen (private U containsPii cfg r h) = existsb (reports_sensitive containsPii cfg r) h.
Proof. intros Hs. exact (run_flags U containsPii cfg r h (createTaintLedger (ledgerOpts containsPii cfg None)) Hs eq_refl). Qed.

(** C10: in an executor with the enforcing data-flow policy, no sink starts after
    the trifecta is complete (with the trifecta guard on, which is the default, and
    a run whose ledger was not seeded): when a sink that is not declassified
    starts, it
    was inspected at a moment at which the guard had not yet recorded both
    untrusted and secret content for its run, counting every record the
    executor and the agent made, in whatever interleaving of this run's calls
    and those of fewer than [MAX_TRACKED_RUNS] others. *)
Theorem no_sink_after_trifecta U containsPii opts cfg w l1 cx tool vi ea l2 :
  reachable U containsPii opts w ->
  x_log (w_state w) = l1 ++ XStart cx tool vi ea :: l2 ->
  xo_dataFlow opts = Some cfg -> cf_mode cfg = MEnforce -> cf_guardTrifecta cfg <> Some false ->
  sink_class (rt_sideEffectClass tool) = true -> declassified cfg (rt_name tool) = false ->
  Forall (fun c => is_seed (cx_runId cx) c = false) (calls_of l1) ->
  (size (others (cx_runId cx) (calls_of l1)) < MAX_TRACKED_RUNS)%nat ->
  exists before v after,
    l1 = before ++ XGuard (GInspect (inspect_input cx tool ea)) (Some v) :: after /\
    ~ (existsb (reports_untrusted cfg (cx_runId cx)) (calls_of before) = true /\
       existsb (reports_sensitive containsPii cfg (cx_runId cx)) (calls_of before) = true).
Proof.
  intros Hr E Hc Hm Hg Hs Hd Hseed Hsize. destruct (reachable_world_ok U containsPii opts w Hr) as [[Hl _] _].
  rewrite E in Hl. destruct (log_ok_split _ _ _ _ Hl) as (_ & _ & _ & _ & Hf).
  destruct (Hf ltac:(congruence) Hs) as (v & Hin & Hnb).
  apply list_elem_of_split in Hin as (before & after & E1). exists before, v, after. split; [done|].
  intros [Hu Hsen]. rewrite E1 in Hl. rewrite <- (assoc_L (++)) in Hl. cbn [app] in Hl.
  pose proof (log_ok_split _ _ _ _ Hl) as Hj. cbn [justified] in Hj. specialize (Hj cfg Hc).
  rewrite E1, calls_of_app in Hseed, Hsize. apply Forall_app in Hseed as [Hseed _].
  assert (Hsz : (size (others (cx_runId cx) (calls_of before)) < MAX_TRACKED_RUNS)%nat).
  { eapply Nat.le_lt_trans; [|exact Hsize]. apply subseteq_size. unfold others. rewrite map_app. set_solver. }
  pose proof (history_ledger U containsPii cfg (cx_runId cx) (calls_of before) Hsz) as HL.
  unfold inspect in Hj. cbn [inspect_input ii_runId] in Hj.
  destruct (ledgerFor containsPii cfg (cx_runId cx) _) as [g L]. cbn [snd] in HL, Hj. subst L.
  destruct (private_flags U containsPii cfg (cx_runId cx) (calls_of before) Hseed) as [Eu Es].
  edestruct evaluate_blocks as [f Hf']; [exact Hm|exact Hg| | | | |rewrite Hf' in Hj; now apply (Hnb f)];
    cbn; [exact Hs|exact Hd|now rewrite Eu|now rewrite Es].
Qed.

(** ** Handle reads *)

(** The classes whose content must not launder through a read are the ones the
    taint engine treats as untrusted. *)
Lemma producer_classes_agree c : isUntrustedProducerClass c = isUntrustedTrustClass c.
Proof. now destruct c. Qed.

(** What a tool reads back through a handle it was given in its arguments is
    recorded with the trust class of the tool that produced it, as long as the
    executor remembers the handle. *)
Lemma handle_read_untrusted cfg cx tool env x h m body :
  getp "handle" (tc_args (cx_call cx)) = VStr h -> jget h (x_taint x) = Some m ->
  isUntrustedTrustClass (hp_trustClass m) = true ->
  tlb_untrusted (record_label cfg
    (record_input cx env (effective tool (producer_taint (cx_call cx) tool env x)) body)) = true.
Proof.
  intros Hh Hm Hu. unfold producer_taint. rewrite Hh. cbn [str_of]. rewrite <- producer_classes_agree in Hu.
  cbn [mbind option_bind]. rewrite Hm, Hu. unfold record_label. cbn. rewrite producer_classes_agree in Hu.
  destruct (en_taint env); cbn; now rewrite Hu.
Qed.

(** The handle is looked up in the arguments of the model, not in those the
    permission hook put in their place: a read redirected to an untrusted
    artifact is recorded under the reader's own class unless the reader itself
    reports the producer. *)
Definition reader_tool : ResolvedTool :=
  mkTool "read_result" any_schema None NeverAsked false None FirstPartyBuiltIn (SrcBuiltIn "tools") ReadOnly false.

Lemma rewritten_handle_not_looked_up :
  let taint := [("h1", mkProducer WebSearch (SrcWebSearch "p") None false)] in
  let cx := mkCtx (mkCall "c1" "read_result" (VObj [("handle", VStr "h0")])) "r1" 1 false false false in
  let rewritten := VObj [("handle", VStr "h1")] in
  exists x',
    runPermissionPhase cx reader_tool (tc_args (cx_call cx)) (tc_args (cx_call cx))
      (Ok (mkHookResult EAllow (Some rewritten) None)) (mkX [] taint []) = (x', inr (PNeeds rewritten rewritten)) /\
    ef_trustClass (effective reader_tool (producer_taint (cx_call cx) reader_tool
      (mkEnvelope (VObj [("content", VStr "text")]) None) x')) = FirstPartyBuiltIn.
Proof. eexists. split; vm_compute; reflexivity. Qed.

(** ** Examples *)

(** One call driven through its awaits. *)
Fixpoint drive (U : Unicode) (containsPii : text -> bool) (opts : ExecutorOptions) (p : Proc) (x : XState)
    (answers : list Answer) : option XWorld :=
  match answers with
  | [] => Some (mkWorld x [p])
  | a :: answers' => step U containsPii opts p false a x ≫= fun '(x', p') => drive U containsPii opts p' x' answers'
  end.

Lemma drive_steps U containsPii opts answers p x w :
  drive U containsPii opts p x answers = Some w -> rtc (xstep U containsPii opts) (mkWorld x [p]) w.
Proof.
  revert p x. induction answers as [|a answers IH]; intros p x; cbn [drive]; [intros [= <-]; constructor|].
  destruct (step U containsPii opts p false a x) as [[x' p']|] eqn:E; [|done]. cbn. intros Hd.
  eapply rtc_l; [|exact (IH p' x' Hd)]. exact (xs_run _ _ _ x [p] 0 p false a x' p' eq_refl E).
Qed.

Definition demo_log : list XEvent :=
  [XAudit "tool:approval:requested" "send_mail" "success" "c1";
   XApproval "c1" (tc_args (cx_call demo_call)) true;
   XAudit "tool:approval:granted" "send_mail" "success" "c1";
   XGuard (GInspect (inspect_input demo_call mail_tool (tc_args (cx_call demo_call)))) (Some DAllow);
   XAudit "tool:execute:start" "send_mail" "success" "c1"].

Definition demo_start : XEvent :=
  XStart demo_call mail_tool (tc_args (cx_call demo_call)) (tc_args (cx_call demo_call)).

Definition demo_world : XWorld :=
  mkWorld
    (mkX [("r1", createTaintLedger (ledgerOpts no_pii_text demo_flow None))] [] (demo_log ++ [demo_start]))
    [mkProc demo_call mail_tool 1 (PRunning (tc_args (cx_call demo_call)) (tc_args (cx_call demo_call)))].

Lemma demo_reachable : reachable plain_unicode no_pii_text demo_exec demo_world.
Proof.
  eapply rtc_l; [exact (xs_start _ _ demo_exec empty_x [] demo_call false empty_x demo_proc eq_refl)|].
  apply (drive_steps plain_unicode no_pii_text demo_exec
    [AResume; ANeeds (Ok false); ADecision (Ok Granted); AResume; APrepared (Ok ()); APrepared (Ok ())] demo_proc empty_x).
  vm_compute. reflexivity.
Qed.

Lemma started_calls_cleared_witness :
  XApproval "c1" (tc_args (cx_call demo_call)) true ∈ demo_log.
Proof.
  refine (proj2 (proj1 (proj2 (proj2 (started_calls_cleared plain_unicode no_pii_text demo_exec demo_world demo_log
    demo_call mail_tool (tc_args (cx_call demo_call)) (tc_args (cx_call demo_call)) [] demo_reachable eq_refl)))
    eq_refl)).
Defined.

Lemma no_sink_after_trifecta_witness :
  exists before v after,
    demo_log = before ++ XGuard (GInspect (inspect_input demo_call mail_tool (tc_args (cx_call demo_call)))) (Some v) :: after /\
    ~ (existsb (reports_untrusted demo_flow "r1") (calls_of before) = true /\
       existsb (reports_sensitive no_pii_text demo_flow "r1") (calls_of before) = true).
Proof.
  refine (no_sink_after_trifecta plain_unicode no_pii_text demo_exec demo_flow demo_world demo_log
    demo_call mail_tool (tc_args (cx_call demo_call)) (tc_args (cx_call demo_call)) [] demo_reachable eq_refl
    eq_refl eq_refl _ eq_refl eq_refl _ _).
  - discriminate.
  - repeat constructor.
  - apply Nat.ltb_lt. vm_compute. reflexivity.
Defined.
