(* ===== verification/Batch.v ===== *)
(** * A batch of tool calls

    [packages/tools/src/executor/phase-batch.ts]: [runExecuteBatch] runs the
    sequential calls of a batch one after the other, then the parallel ones under
    the [maxParallelTools] bound, and returns the outcomes in the order of the
    calls.  What [executeOne] makes of a call is given ([answer], an error being
    a rejection); the order in which pending calls settle is arbitrary. *)

From S2P Require Import Prelude JsValue Json Dataflow FlowGuard ArgPolicy Executor.

Local Open Scope string_scope.
Local Open Scope list_scope.
Local Open Scope Z_scope.

Record Batch := mkBatch {
  bt_sequential : list ToolCall;      (** the first one is running *)
  bt_running : list ToolCall;
  bt_queue : list ToolCall;
  bt_results : list (option CompletedToolCall);
  bt_resolved : bool;
}.

(** [indexByCallId.get]: of several calls with one id the last. *)
Fixpoint index_of (calls : list ToolCall) (id : string) : option nat :=
  match calls with
  | [] => None
  | c :: calls' => match index_of calls' id with
                   | Some i => Some (S i)
                   | None => if decide (tc_id c = id) then Some O else None
                   end
  end.

Section Batch.
Context (opts : ExecutorOptions) (stepNumber : Z) (calls : list ToolCall)
        (answer : ToolCall -> result string CompletedToolCall).

Definition is_sequential (c : ToolCall) : bool :=
  match xo_registry opts (tc_toolName c) with Some tool => rt_sequential tool | None => false end.

Definition maxParallelTools : Z := default 8 (xo_maxParallelTools opts).

Definition synthesizeFailure (c : ToolCall) (cause : string) : CompletedToolCall :=
  frozenCompleted (mkCtx c "" stepNumber false false false)
    (OError (plain_error ExecutionFailed ("tool execution rejected outside the executor pipeline: " +:+ cause) None)).

Definition outcome_of (c : ToolCall) : CompletedToolCall :=
  match answer c with Ok o => o | Err cause => synthesizeFailure c cause end.

Definition put_result (c : ToolCall) (results : list (option CompletedToolCall)) : list (option CompletedToolCall) :=
  match index_of calls (tc_id c) with
  | Some i => <[i := Some (outcome_of c)]> results
  | None => results
  end.

(** Start calls while there is room; nothing queued and nothing running resolves. *)
Definition tickle (b : Batch) : Batch :=
  let room := Z.to_nat (maxParallelTools - zlen (bt_running b)) in
  let running := bt_running b ++ take room (bt_queue b) in
  let queue := drop room (bt_queue b) in
  mkBatch (bt_sequential b) running queue (bt_results b)
    (bt_resolved b || bool_decide (queue = [] /\ running = [])).

(** The batch before the first await. *)
Definition runExecuteBatch : Batch :=
  let b := mkBatch (filter (fun c => is_sequential c = true) calls) []
             (filter (fun c => is_sequential c = false) calls)
             (replicate (length calls) None) false in
  match bt_sequential b with [] => tickle b | _ => b end.

(** The [i]th pending call settles. *)
Definition settle_call (i : nat) (b : Batch) : option Batch :=
  match bt_sequential b with
  | c :: rest =>
      match i with
      | O => let b' := mkBatch rest (bt_running b) (bt_queue b) (put_result c (bt_results b)) (bt_resolved b) in
             Some (match rest with [] => tickle b' | _ => b' end)
      | S _ => None
      end
  | [] =>
      match bt_running b !! i with
      | Some c => Some (tickle (mkBatch [] (delete i (bt_running b)) (bt_queue b) (put_result c (bt_results b)) (bt_resolved b)))
      | None => None
      end
  end.

Fixpoint run_batch (order : list nat) (b : Batch) : option Batch :=
  match order with
  | [] => Some b
  | i :: order' => settle_call i b ≫= run_batch order'
  end.

(** What the caller gets. *)
Definition batch_result (b : Batch) : list CompletedToolCall := omap id (bt_results b).

(** ** Invariant *)

Definition pending (b : Batch) : list ToolCall := bt_sequential b ++ bt_running b ++ bt_queue b.

Record batch_ok (b : Batch) : Prop := {
  bo_split : exists settled, settled ++ pending b ≡ₚ calls /\
    bt_results b = map (fun c => if decide (c ∈ settled) then Some (outcome_of c) else None) calls;
  bo_room : zlen (bt_running b) <= Z.max 0 maxParallelTools;
  bo_alone : bt_sequential b <> [] -> bt_running b = [] /\ bt_resolved b = false;
  bo_resolved : bt_resolved b = true <-> pending b = [];
  bo_busy : 1 <= maxParallelTools -> pending b <> [] -> bt_sequential b <> [] \/ bt_running b <> [];
}.

Hypothesis ids_distinct : NoDup (map tc_id calls).

Lemma calls_nodup : NoDup calls.
Proof using ids_distinct. exact (NoDup_fmap_1 tc_id calls ids_distinct). Qed.

Lemma index_of_distinct l i c : NoDup (map tc_id l) -> l !! i = Some c -> index_of l (tc_id c) = Some i.
Proof.
  revert i. induction l as [|c' l IH]; intros i Hnd Hi; [done|].
  cbn [map] in Hnd. apply NoDup_cons in Hnd as [Hn Hnd]. cbn [index_of]. destruct i as [|i]; cbn in Hi.
  - injection Hi as ->. destruct (index_of l (tc_id c)) as [j|] eqn:E; [|now rewrite decide_True].
    exfalso. apply Hn. clear -E. revert j E. induction l as [|d l IH]; intros j E; [done|]. cbn [index_of] in E.
    destruct (index_of l (tc_id c)); [right; eauto|]. case_decide as Hd; [|done]. cbn [map]. rewrite Hd. left.
  - now rewrite (IH i Hnd Hi).
Qed.

(** Settling a call fills its slot. *)
Lemma put_result_spec settled c :
  c ∈ calls ->
  put_result c (map (fun d => if decide (d ∈ settled) then Some (outcome_of d) else None) calls) =
  map (fun d => if decide (d ∈ c :: settled) then Some (outcome_of d) else None) calls.
Proof using ids_distinct.
  intros Hin. apply list_elem_of_lookup in Hin as [i Hi]. unfold put_result.
  rewrite (index_of_distinct calls i c ids_distinct Hi). apply list_eq. intros j.
  destruct (decide (i = j)) as [<-|Hne].
  - rewrite list_lookup_insert_eq by (rewrite length_map; eapply lookup_lt_Some; exact Hi).
    rewrite list_lookup_map, Hi. cbn. now rewrite decide_True by left.
  - rewrite list_lookup_insert_ne by done. rewrite !list_lookup_map.
    destruct (calls !! j) as [d|] eqn:Ej; [|done]. cbn. f_equal.
    assert (d <> c). { intros ->. apply Hne. eapply NoDup_lookup; [exact calls_nodup|exact Hi|exact Ej]. }
    destruct (decide (d ∈ settled)); [now rewrite decide_True by (right; done)|].
    rewrite decide_False; [done|]. intros [?|?]%elem_of_cons; done.
Qed.

Definition split_ok (b : Batch) : Prop :=
  exists settled, settled ++ pending b ≡ₚ calls /\
    bt_results b = map (fun c => if decide (c ∈ settled) then Some (outcome_of c) else None) calls.

Lemma tickle_pending b : pending (tickle b) = pending b.
Proof.
  unfold pending, tickle. cbn [bt_sequential bt_running bt_queue]. rewrite <- (assoc_L (++)). now rewrite take_drop.
Qed.

Lemma tickle_ok b :
  bt_sequential b = [] -> bt_resolved b = false -> split_ok b -> zlen (bt_running b) <= Z.max 0 maxParallelTools ->
  batch_ok (tickle b).
Proof.
  intros Hs Hr Hsp Hroom. split.
  - destruct Hsp as (settled & Hp & Hres). exists settled. now rewrite tickle_pending.
  - unfold tickle, zlen in *. cbn [bt_running]. rewrite length_app, length_take. lia.
  - unfold tickle. cbn [bt_sequential]. now rewrite Hs.
  - unfold tickle, pending. cbn [bt_resolved bt_sequential bt_running bt_queue].
    rewrite Hr, Hs. cbn [orb app]. rewrite bool_decide_eq_true.
    split; [intros [-> ->]; done|intros [H1 H2]%app_nil; done].
  - intros Hmax Hne. right. rewrite tickle_pending in Hne. unfold pending in Hne. rewrite Hs in Hne. cbn [app] in Hne.
    unfold tickle. cbn [bt_running]. destruct (bt_running b) as [|c cs]; [|done].
    destruct (bt_queue b) as [|q qs]; [done|]. cbn [app].
    destruct (Z.to_nat (maxParallelTools - zlen [])) eqn:E; [|done]. unfold zlen in E. cbn in E. lia.
Qed.

Lemma filter_partition {A} (f : A -> bool) (l : list A) :
  filter (fun c => f c = true) l ++ filter (fun c => f c = false) l ≡ₚ l.
Proof.
  induction l as [|c l IH]; [done|]. rewrite !filter_cons. destruct (f c) eqn:E.
  - rewrite decide_True, decide_False by done. cbn [app]. now rewrite IH.
  - rewrite decide_False, decide_True by done. now rewrite <- Permutation_middle, IH.
Qed.

Lemma initial_ok : batch_ok runExecuteBatch.
Proof.
  unfold runExecuteBatch. cbv zeta. set (b := mkBatch _ [] _ _ false).
  assert (Hsp : split_ok b).
  { exists []. split; [apply filter_partition|]. unfold b. cbn [bt_results].
    clear. induction calls as [|c cs IH]; [done|]. cbn [length replicate map]. rewrite decide_False by (intros Hn; inversion Hn).
    now f_equal. }
  destruct (bt_sequential b) as [|c rest] eqn:E; [apply tickle_ok; auto; unfold b, zlen; cbn; lia|].
  split; try done.
  - unfold b, zlen. cbn. lia.
  - split; [done|]. unfold pending. rewrite E. done.
  - intros _ _. left. now rewrite E.
Qed.

Lemma settle_call_ok i b b' :
  batch_ok b -> settle_call i b = Some b' ->
  batch_ok b' /\ S (length (pending b')) = length (pending b).
Proof using ids_distinct.
  intros [(settled & Hp & Hres) Hroom Halone Hresd Hbusy]. unfold settle_call.
  destruct (bt_sequential b) as [|c rest] eqn:Es.
  - destruct (bt_running b !! i) as [c|] eqn:Ei; [|done]. intros [= <-].
    set (b1 := mkBatch [] _ _ _ _). pose proof (delete_Permutation _ _ _ Ei) as Hdel.
    assert (Hperm : c :: pending b1 ≡ₚ pending b).
    { unfold pending, b1. cbn [bt_sequential bt_running bt_queue]. rewrite Es. cbn [app].
      symmetry. exact (Permutation_app_tail (bt_queue b) Hdel). }
    assert (Hin : c ∈ calls). { rewrite <- Hp, <- Hperm. set_solver. }
    split; [|rewrite tickle_pending; apply Permutation_length in Hperm; exact Hperm].
    apply tickle_ok; [done| | |].
    + unfold b1. cbn [bt_resolved]. destruct (bt_resolved b) eqn:Er; [|done]. exfalso.
      rewrite (proj1 Hresd eq_refl) in Hperm. symmetry in Hperm. now apply Permutation_nil in Hperm.
    + exists (c :: settled). split; [cbn [app]; rewrite Permutation_middle, Hperm; exact Hp|].
      unfold b1. cbn [bt_results]. rewrite Hres. now apply put_result_spec.
    + unfold b1, zlen in *. cbn [bt_running]. rewrite length_delete by eauto. lia.
  - destruct i as [|i]; [|done]. intros [= <-]. destruct (Halone ltac:(done)) as [Hrun Hnr].
    set (b1 := mkBatch rest _ _ _ _).
    assert (Hperm : c :: pending b1 = pending b).
    { unfold pending, b1. cbn [bt_sequential bt_running bt_queue]. now rewrite Es. }
    assert (Hin : c ∈ calls). { rewrite <- Hp, <- Hperm. set_solver. }
    assert (Hsp1 : split_ok b1).
    { exists (c :: settled). split; [cbn [app]; rewrite Permutation_middle, Hperm; exact Hp|].
      unfold b1. cbn [bt_results]. rewrite Hres. now apply put_result_spec. }
    destruct rest as [|c2 rest].
    + split; [apply tickle_ok; auto|]. rewrite tickle_pending, <- Hperm. done.
    + split; [|now rewrite <- Hperm].
      split; [exact Hsp1|exact Hroom|intros _; split; [exact Hrun|exact Hnr]| |intros _ _; now left].
      split; [intros Hr; change (bt_resolved b = true) in Hr; congruence|done].
Qed.

Lemma run_batch_ok order b b' :
  batch_ok b -> run_batch order b = Some b' ->
  batch_ok b' /\ (length (pending b') + length order = length (pending b))%nat.
Proof using ids_distinct.
  revert b. induction order as [|i order IH]; intros b Hok; cbn [run_batch length].
  { intros [= <-]. split; [done|lia]. }
  destruct (settle_call i b) as [b1|] eqn:E; [|done]. cbn. intros Hr.
  destruct (settle_call_ok i b b1 Hok E) as [Hok1 Hlen].
  destruct (IH b1 Hok1 Hr) as [Hok' Hlen']. split; [done|lia].
Qed.

Lemma batch_ok_result b : batch_ok b -> bt_resolved b = true -> batch_result b = map outcome_of calls.
Proof.
  intros [(settled & Hp & Hres) _ _ Hresd _] Hr. rewrite (proj1 Hresd Hr), app_nil_r in Hp.
  unfold batch_result. rewrite Hres.
  assert (Hall : forall c, c ∈ calls -> c ∈ settled) by (intros c; now rewrite Hp).
  clear -Hall. induction calls as [|c cs IH]; [done|]. cbn [map omap list_omap].
  rewrite decide_True by (apply Hall; left). cbn [id]. f_equal. apply IH. intros d Hd. apply Hall. now right.
Qed.

End Batch.

(** ** Guarantees *)

(** C14: the calls of a batch have distinct ids.  In whatever order its pending
    calls settle, never more than [maxParallelTools] run at a time and a
    sequential call runs alone; the batch resolves exactly when as many calls
    have settled as it has, there is always one running until then (given room
    for one), and its result is one outcome per call, in the order of the calls,
    a call whose execution rejects included. *)
Theorem batch_outcomes opts stepNumber calls answer order b :
  NoDup (map tc_id calls) ->
  run_batch opts stepNumber calls answer order (runExecuteBatch opts calls) = Some b ->
  zlen (bt_running b) <= Z.max 0 (maxParallelTools opts) /\
  (bt_sequential b <> [] -> bt_running b = []) /\
  (bt_resolved b = true <-> length order = length calls) /\
  (bt_resolved b = true -> batch_result b = map (outcome_of stepNumber answer) calls) /\
  (1 <= maxParallelTools opts -> bt_resolved b = false -> bt_sequential b <> [] \/ bt_running b <> []).
Proof.
  intros Hnd Hr. pose proof (initial_ok opts stepNumber calls answer) as H0.
  destruct (run_batch_ok opts stepNumber calls answer Hnd order _ b H0 Hr) as [Hok Hlen].
  assert (Hall : length (pending (runExecuteBatch opts calls)) = length calls).
  { apply Permutation_length. unfold runExecuteBatch. cbv zeta. case_match; [rewrite tickle_pending|]; unfold pending;
      cbn [bt_sequential bt_running bt_queue app]; apply filter_partition. }
  split; [apply Hok|]. split; [intros Hs; now apply (bo_alone _ _ _ _ _ Hok)|].
  rewrite (bo_resolved _ _ _ _ _ Hok).
  split; [rewrite <- length_zero_iff_nil; lia|].
  split; [intros Hp; apply (batch_ok_result opts stepNumber calls answer); [done|now apply (bo_resolved _ _ _ _ _ Hok)]|].
  intros Hm Hf. apply (bo_busy _ _ _ _ _ Hok Hm). intros Hp. apply (bo_resolved _ _ _ _ _ Hok) in Hp. congruence.
Qed.

(** ** Examples *)

Definition batch_opts (max : option Z) : ExecutorOptions :=
  mkExecutorOptions (fun _ => None) max None false false false None None None.

Definition two_calls : list ToolCall := [mkCall "a" "t" VNull; mkCall "b" "t" VNull].
Definition fine (c : ToolCall) : result string CompletedToolCall :=
  Ok (mkCompleted c (OResult (mkToolResult VNull None)) 1).

Lemma batch_outcomes_witness :
  exists b,
    run_batch (batch_opts (Some 2)) 1 two_calls fine [1%nat; 0%nat] (runExecuteBatch (batch_opts (Some 2)) two_calls) = Some b /\
    batch_result b = map (outcome_of 1 fine) two_calls.
Proof.
  eexists. split; [vm_compute; reflexivity|].
  refine (proj1 (proj2 (proj2 (proj2 (batch_outcomes (batch_opts (Some 2)) 1 two_calls fine [1%nat; 0%nat] _ _ _)))) _).
  - apply (bool_decide_unpack _). vm_compute. exact I.
  - vm_compute. reflexivity.
  - vm_compute. reflexivity.
Defined.

(** Two calls with one id share a slot: the batch returns fewer outcomes than it
    had calls. *)
Lemma duplicate_ids_shrink :
  let calls := [mkCall "a" "t" VNull; mkCall "a" "t" (VBool true)] in
  exists b, run_batch (batch_opts None) 1 calls fine [0%nat; 0%nat] (runExecuteBatch (batch_opts None) calls) = Some b /\
    bt_resolved b = true /\ length (batch_result b) = 1%nat.
Proof. eexists. split; [vm_compute; reflexivity|]. split; vm_compute; reflexivity. Qed.

(** A bound of zero starts nothing: the batch never resolves. *)
Lemma no_room_hangs : settle_call (batch_opts (Some 0)) 1 two_calls fine 0 (runExecuteBatch (batch_opts (Some 0)) two_calls) = None /\
  bt_resolved (runExecuteBatch (batch_opts (Some 0)) two_calls) = false.
Proof. split; vm_compute; reflexivity. Qed.
