(* ===== verification/AgentGates.v ===== *)
(** * The agent's commit gate, cancellation and run start

    [packages/agent/src/runtime/run-gates.ts] ([stampTurnVerdict],
    [emitCancellation], [commitAssistantMessage]), [buildAssistantMessage] of
    [runtime/messages.ts] and the security half of [initializeRunState] of
    [runtime/run-init.ts]: what becomes of a model's reply, of the approvals
    pending at an abort, and of the taint summary at a resume.

    The lateral-leak monitor is code of another package: its finding on a text is
    an argument.  Events are the list the generators yield. *)

From S2P Require Import Prelude JsValue Json Dataflow DataflowProps FlowGuard ArgPolicy Executor.
From stdpp Require Import pretty gmap.

Local Open Scope string_scope.
Local Open Scope list_scope.
Local Open Scope Z_scope.

(** ** Data *)

Inductive GuardrailVerdict := GBlock | GRewrite.

Record RunTurnVerdict := mkVerdict {
  rv_guardrail : option GuardrailVerdict;
  rv_lateralLeak : option bool;
  rv_dataflowFlags : option (list string);
}.

Inductive MessageContent := CReasoning (s : string) | CText (s : string).

Inductive Message :=
| MAssistant (content : string + list MessageContent) (toolCalls : list ToolCall) (agentId : string)
| MTool (toolCallId content : string)
| MOther (role content : string).

Inductive RunStatus := StRunning | StCompleted | StFailed | StAborted | StAwaitingApproval.

#[export] Instance run_status_eq_dec : EqDecision RunStatus.
Proof. solve_decision. Defined.

(** A call that waits for a decision; [ap_subRun] routes it to a parked child. *)
Record ToolApproval := mkApproval {
  ap_toolCallId : string;
  ap_toolName : string;
  ap_args : value;
  ap_reason : option string;
  ap_mode : option PermissionEffect;
  ap_subRun : option string;
}.

(** A step of the journal. *)
Record RunStep := mkStep { sp_stepNumber : Z; sp_toolCalls : list CompletedToolCall }.

(** A child run that is suspended on its parent. *)
Record PendingSubRun (S : Type) := mkParked {
  pk_toolCallId : string;
  pk_toolName : string;
  pk_agentName : string;
  pk_state : S;
}.
Arguments mkParked {S}.
Arguments pk_toolCallId {S}.
Arguments pk_toolName {S}.
Arguments pk_agentName {S}.
Arguments pk_state {S}.

Inductive RunState := mkRun {
  rs_id : string;
  rs_status : RunStatus;
  rs_error : option string;
  rs_steps : list RunStep;
  rs_messages : list Message;
  rs_pendingApprovals : list ToolApproval;
  rs_verdicts : list (string * RunTurnVerdict);
  rs_taintSummary : option TaintLedgerSnapshot;
  rs_pendingSubRuns : list (PendingSubRun RunState);
}.

Definition set_messages (ms : list Message) (s : RunState) : RunState :=
  mkRun (rs_id s) (rs_status s) (rs_error s) (rs_steps s) ms (rs_pendingApprovals s) (rs_verdicts s) (rs_taintSummary s)
    (rs_pendingSubRuns s).
Definition set_pending (ps : list ToolApproval) (s : RunState) : RunState :=
  mkRun (rs_id s) (rs_status s) (rs_error s) (rs_steps s) (rs_messages s) ps (rs_verdicts s) (rs_taintSummary s)
    (rs_pendingSubRuns s).
Definition set_verdicts (vs : list (string * RunTurnVerdict)) (s : RunState) : RunState :=
  mkRun (rs_id s) (rs_status s) (rs_error s) (rs_steps s) (rs_messages s) (rs_pendingApprovals s) vs (rs_taintSummary s)
    (rs_pendingSubRuns s).
Definition with_status (st : RunStatus) (err : option string) (s : RunState) : RunState :=
  mkRun (rs_id s) st err (rs_steps s) (rs_messages s) (rs_pendingApprovals s) (rs_verdicts s) (rs_taintSummary s)
    (rs_pendingSubRuns s).

Inductive AbortPolicy := PolDeny | PolHold | PolFail.

Inductive AgentEvent :=
| EvCancelling (drain : bool) (policy : AbortPolicy)
| EvToolStart (toolCallId : string)
| EvToolEnd (toolCallId : string)
| EvToolError (toolCallId : string) (kind : ToolErrorKind)
| EvApprovalRequested (toolCallId : string) (mode : option PermissionEffect) (reason : option string)
| EvApprovalGranted (toolCallId : string)
| EvApprovalDenied (toolCallId : string) (reason : option string)
| EvError (message code : string)
| EvLateralLeak (messageText : string).

Inductive LeakDecision := LeakNone | LeakFlag | LeakBlock.

Inductive ReasoningRetention := RetStrip | RetKeep.

(** ** Verdicts *)

Definition verdict_key (stepNumber offset : Z) : string := pretty stepNumber +:+ ":" +:+ pretty offset.

Definition merge_verdict (existing : option RunTurnVerdict) (v : RunTurnVerdict) : RunTurnVerdict :=
  let eg := existing ≫= rv_guardrail in
  let guardrail :=
    match eg, rv_guardrail v with
    | Some GBlock, _ | _, Some GBlock => Some GBlock
    | _, Some g => Some g
    | e, None => e
    end in
  let flags := set_of (default [] (existing ≫= rv_dataflowFlags) ++ default [] (rv_dataflowFlags v)) in
  mkVerdict guardrail
    (if bool_decide (existing ≫= rv_lateralLeak = Some true) || bool_decide (rv_lateralLeak v = Some true)
     then Some true else None)
    (match flags with [] => None | _ => Some flags end).

Definition stampTurnVerdict (stepNumber offset : Z) (v : RunTurnVerdict) (s : RunState) : RunState :=
  let key := verdict_key stepNumber offset in
  set_verdicts (jset key (merge_verdict (jget key (rs_verdicts s)) v) (rs_verdicts s)) s.

(** ** The commit gate *)

Definition LATERAL_LEAK_BLOCKED_NOTICE : string :=
  "[graphorin] assistant commentary withheld by the lateral-leak defense.".
Definition ASSISTANT_OUTPUT_BLOCKED_NOTICE : string :=
  "[graphorin] assistant reply withheld by the data-flow policy (assistant-output sink).".

Definition buildAssistantMessage (body : string) (reasoningParts : list string) (toolCalls : list ToolCall)
    (agentId : string) (retention : ReasoningRetention) : Message :=
  match retention, reasoningParts with
  | RetKeep, _ :: _ =>
      MAssistant (inr (map CReasoning reasoningParts ++ (if bool_decide (body = "") then [] else [CText body])))
        toolCalls agentId
  | _, _ => MAssistant (inl body) toolCalls agentId
  end.

Definition action_name (d : DataFlowDecision) : string :=
  match d with DAllow => "allow" | DFlag _ => "flag" | DDeclassify _ => "declassify" | DBlock _ => "block" end.

Definition flow_name (f : TaintFlowKind) : string :=
  match f with
  | UntrustedToSink => "untrusted-to-sink" | LethalTrifecta => "lethal-trifecta"
  | DerivedUntrustedToSink => "derived-untrusted-to-sink"
  end.

Definition finding_of_decision (d : DataFlowDecision) : option DataFlowFinding :=
  match d with DAllow => None | DFlag f | DDeclassify f | DBlock f => Some f end.

Definition is_block (d : DataFlowDecision) : bool := match d with DBlock _ => true | _ => false end.

Definition push_message (m : Message) (s : RunState) : RunState :=
  set_messages (rs_messages s ++ [m]) s.

Section Gate.
Context (U : Unicode) (containsPii : text -> bool) (dataFlow : option DataFlowPolicyConfig).

(** The reply of a step, as it is appended to the working buffer and to the
    state; the result says whether the text was withheld. *)
Definition commitAssistantMessage (agentId textBuffer : string) (reasoning : list string) (finalCalls : list ToolCall)
    (retention : ReasoningRetention) (stepNumber : Z) (leak : LeakDecision)
    (g : ledgers) (messages : list Message) (s : RunState)
    : ledgers * list Message * RunState * list AgentEvent * bool :=
  let empty := bool_decide (textBuffer = "") in
  let leak := if empty then LeakNone else leak in
  let leakBlocked := match leak with LeakBlock => true | _ => false end in
  let '(g1, outputVerdict) :=
    match dataFlow with
    | Some cfg =>
        if negb leakBlocked && negb empty then
          let '(g', v) := inspectAssistantOutput U containsPii cfg (rs_id s) (units textBuffer) g in (g', Some v)
        else (g, None)
    | None => (g, None)
    end in
  let outputBlocked := match outputVerdict with Some v => is_block v | None => false end in
  let assistant :=
    buildAssistantMessage
      (if leakBlocked then LATERAL_LEAK_BLOCKED_NOTICE
       else if outputBlocked then ASSISTANT_OUTPUT_BLOCKED_NOTICE else textBuffer)
      reasoning finalCalls agentId retention in
  let s1 := push_message assistant s in
  let s2 := if leakBlocked then stampTurnVerdict stepNumber 0 (mkVerdict None (Some true) None) s1 else s1 in
  let s3 :=
    match outputVerdict ≫= finding_of_decision with
    | Some f =>
        stampTurnVerdict stepNumber 0
          (mkVerdict (if outputBlocked then Some GBlock else None) None
             (Some ["assistant-output:" +:+ match outputVerdict with Some v => action_name v | None => "" end;
                    "assistant-output:" +:+ flow_name (fd_flow f)])) s2
    | None => s2
    end in
  let g2 :=
    match dataFlow with
    | Some cfg =>
        if negb empty && negb leakBlocked && negb outputBlocked
        then recordAssistant U containsPii cfg (rs_id s) (units textBuffer) g1 else g1
    | None => g1
    end in
  (g2, messages ++ [assistant], s3,
   match leak with LeakNone => [] | _ => [EvLateralLeak textBuffer] end,
   leakBlocked || outputBlocked).

(** ** Run start *)

(** The data-flow half of [initializeRunState]: the persisted summary of a
    resumed run, then the message that came with the call. *)
Definition initializeRunState (resumed : bool) (s : RunState) (inbound : option InboundTaintSeed) (g : ledgers) : ledgers :=
  match dataFlow with
  | None => g
  | Some cfg =>
      let g1 := match resumed, rs_taintSummary s with
                | true, Some summary => seedLedger containsPii cfg (rs_id s) summary g
                | _, _ => g
                end in
      match inbound with
      | Some seed => guardInbound U containsPii cfg (rs_id s) seed g1
      | None => g1
      end
  end.

End Gate.

(** ** Cancellation *)

Definition denied_text : string := "Error: tool approval denied: auto-denied on abort".

(** The pending abort: whether to drain, and the policy. *)
Definition emitCancellation (abort : option (option bool * option AbortPolicy)) (messages : list Message) (s : RunState)
    : list AgentEvent * list Message * RunState * bool :=
  let drain := default false (abort ≫= fst) in
  let policy := default PolDeny (abort ≫= snd) in
  let ev0 := EvCancelling drain policy in
  match policy with
  | PolDeny =>
      let drained := map ap_toolCallId (rs_pendingApprovals s) in
      let replies := map (fun id => MTool id denied_text) drained in
      (ev0 :: map (fun id => EvApprovalDenied id (Some "auto-denied: agent.abort()")) drained,
       messages ++ replies,
       with_status StAborted (rs_error s) (set_pending [] (set_messages (rs_messages s ++ replies) s)), false)
  | PolFail =>
      match rs_pendingApprovals s with
      | [] => ([ev0], messages, with_status StAborted (rs_error s) s, false)
      | _ => ([ev0; EvError "aborted with pending approvals" "run-aborted"], messages,
              with_status StFailed (Some "aborted with pending approvals") s, true)
      end
  | PolHold => ([ev0], messages, with_status StAborted (rs_error s) s, false)
  end.

(** ** Facts *)

(** The text a message shows besides its reasoning. *)
Definition shown (m : Message) : string :=
  match m with
  | MAssistant (inl t) _ _ => t
  | MAssistant (inr parts) _ _ => String.concat "" (omap (fun p => match p with CText t => Some t | _ => None end) parts)
  | MTool _ t | MOther _ t => t
  end.

Lemma shown_build body parts calls agentId ret : shown (buildAssistantMessage body parts calls agentId ret) = body.
Proof.
  unfold buildAssistantMessage. destruct ret, parts as [|p ps]; try done. cbn [shown].
  rewrite omap_app. replace (omap _ (map CReasoning (p :: ps))) with (@nil string).
  - case_bool_decide as E; [now rewrite E|done].
  - symmetry. generalize (p :: ps). induction l as [|q l IH]; [done|]. cbn. exact IH.
Qed.

(** Merging never loses a block, a leak or a flag. *)
Lemma merge_verdict_widens existing v :
  (rv_guardrail v = Some GBlock \/ existing ≫= rv_guardrail = Some GBlock ->
     rv_guardrail (merge_verdict existing v) = Some GBlock) /\
  (rv_lateralLeak v = Some true \/ existing ≫= rv_lateralLeak = Some true ->
     rv_lateralLeak (merge_verdict existing v) = Some true) /\
  (forall f, f ∈ default [] (rv_dataflowFlags v) \/ f ∈ default [] (existing ≫= rv_dataflowFlags) ->
     f ∈ default [] (rv_dataflowFlags (merge_verdict existing v))).
Proof.
  unfold merge_verdict. cbv zeta. cbn [rv_guardrail rv_lateralLeak rv_dataflowFlags]. split; [|split].
  - intros [-> | ->]; [|done]. now destruct (existing ≫= rv_guardrail) as [[]|].
  - intros [-> | ->]; [now rewrite orb_true_r|done].
  - intros f Hf. assert (Hin : f ∈ set_of (default [] (existing ≫= rv_dataflowFlags) ++ default [] (rv_dataflowFlags v))).
    { apply elem_of_set_of. set_solver. }
    destruct (set_of _); [set_solver|exact Hin].
Qed.

(** The tool calls of a transcript that no tool message answers. *)
Definition call_ids (m : Message) : list string :=
  match m with MAssistant _ calls _ => map tc_id calls | _ => [] end.

Definition answered (m : Message) : option string :=
  match m with MTool id _ => Some id | _ => None end.

Definition dangling (ms : list Message) : list string :=
  List.filter (fun id => negb (bool_decide (id ∈ omap answered ms))) (flat_map call_ids ms).

Lemma dangling_replies ms ids :
  (forall id, id ∈ dangling ms -> id ∈ ids) -> dangling (ms ++ map (fun id => MTool id denied_text) ids) = [].
Proof.
  intros Hall. apply elem_of_nil_inv. intros id. unfold dangling. rewrite list_elem_of_In, filter_In, flat_map_app, omap_app.
  assert (Eo : omap answered (map (fun id => MTool id denied_text) ids) = ids).
  { clear. induction ids as [|i ids IH]; cbn; [done|]. now f_equal. }
  assert (Ec : flat_map call_ids (map (fun id => MTool id denied_text) ids) = []).
  { clear. induction ids as [|i ids IH]; cbn; done. }
  rewrite Eo, Ec, app_nil_r, negb_true_iff, bool_decide_eq_false. intros [Hin Hn]. apply Hn, elem_of_app. right. apply Hall.
  unfold dangling. rewrite list_elem_of_In, filter_In. split; [done|]. rewrite negb_true_iff, bool_decide_eq_false.
  intros Ha. apply Hn, elem_of_app. now left.
Qed.

(** Aborting with the default policy leaves a transcript a provider accepts: when
    the calls without an answer are those that wait for approval, all of them are
    answered in both buffers and none stays pending.  The other policies change
    neither transcript nor queue, and fail the run exactly when asked to with a
    queue that is not empty. *)
Lemma cancellation_leaves_nothing_dangling abort messages s events messages' s' failed :
  emitCancellation abort messages s = (events, messages', s', failed) ->
  match default PolDeny (abort ≫= snd) with
  | PolDeny =>
      (forall id, id ∈ dangling messages \/ id ∈ dangling (rs_messages s) ->
         id ∈ map ap_toolCallId (rs_pendingApprovals s)) ->
      dangling messages' = [] /\ dangling (rs_messages s') = [] /\ rs_pendingApprovals s' = [] /\
      rs_status s' = StAborted /\ failed = false
  | PolHold => messages' = messages /\ s' = with_status StAborted (rs_error s) s /\ failed = false
  | PolFail => messages' = messages /\ rs_messages s' = rs_messages s /\ rs_pendingApprovals s' = rs_pendingApprovals s /\
               (failed = true <-> rs_pendingApprovals s <> []) /\ (rs_status s' = StFailed <-> failed = true)
  end.
Proof.
  unfold emitCancellation. destruct (default PolDeny (abort ≫= snd)); intros E.
  - injection E as <- <- <- <-. cbn. intros Hall.
    split; [apply dangling_replies; naive_solver|]. split; [apply dangling_replies; naive_solver|done].
  - now injection E as <- <- <- <-.
  - destruct (rs_pendingApprovals s) eqn:Ep; injection E as <- <- <- <-; cbn; rewrite ?Ep; naive_solver.
Qed.

(** A resumed run starts with the flags it was suspended with, whatever the
    guard held for it, and the message that resumed it can only widen them. *)
Lemma resume_keeps_flags U containsPii cfg s inbound g sm :
  rs_taintSummary s = Some sm ->
  exists l, jget (rs_id s) (initializeRunState U containsPii (Some cfg) true s inbound g) = Some l /\
    tl_untrustedSeen l = sn_untrustedSeen sm || bool_decide (is_Some inbound) /\
    (sn_sensitiveSeen sm = true -> tl_sensitiveSeen l = true).
Proof.
  intros Hs. unfold initializeRunState, seedLedger. rewrite Hs.
  set (l0 := createTaintLedger (ledgerOpts containsPii cfg (Some sm))). destruct inbound as [seed|].
  - unfold guardInbound, with_ledger, ledgerFor. rewrite jget_jset_eq. eexists. split; [apply jget_jset_eq|].
    destruct (ingest_fields U (inbound_label seed) (is_text seed) l0) as (_ & _ & _ & _ & Eu & Es & _).
    unfold recordInboundMessage. rewrite Eu, Es. split; [done|]. intros Hsm. cbn [l0 tl_sensitiveSeen createTaintLedger
      lo_initial ledgerOpts fmap option_fmap option_map default]. now rewrite Hsm.
  - eexists. split; [apply jget_jset_eq|]. split; [|done]. cbn. now rewrite orb_false_r.
Qed.

(** Texts that stand in for a withheld reply. *)
Definition is_notice (t : string) : Prop := t = LATERAL_LEAK_BLOCKED_NOTICE \/ t = ASSISTANT_OUTPUT_BLOCKED_NOTICE.

(** C17: a run has, over its legs (each on a guard that tracks fewer than
    [MAX_TRACKED_RUNS] other runs), recorded untrusted and secret content, and the
    data-flow policy enforces the trifecta guard with the reply not declassified.
    Then whatever the lateral-leak monitor finds, a reply with text is withheld:
    what is appended to the working buffer and to the durable state shows a
    notice in place of the text, the turn is stamped as blocked or leaking, the
    caller is told to withhold the run's output, and the text does not enter the
    run's taint ledger. (Only the text is replaced: reasoning parts are kept, see
    [reasoning_not_withheld].) *)
Theorem tainted_reply_withheld U containsPii cfg legs lg s agentId body reasoning calls ret stepNumber leak messages :
  cf_mode cfg = MEnforce -> cf_guardTrifecta cfg <> Some false -> declassified cfg "assistant-output" = false ->
  legs_ok (rs_id s) false (legs ++ [lg]) ->
  existsb (reports_untrusted cfg (rs_id s)) (concat (map lg_calls (legs ++ [lg]))) = true ->
  existsb (reports_sensitive containsPii cfg (rs_id s)) (concat (map lg_calls (legs ++ [lg]))) = true ->
  body <> "" ->
  let g := run_leg U containsPii cfg (rs_id s) (end_summary U containsPii cfg (rs_id s) None legs) lg in
  let '(g', messages', s', _, withheld) :=
    commitAssistantMessage U containsPii (Some cfg) agentId body reasoning calls ret stepNumber leak g messages s in
  withheld = true /\
  (exists m, messages' = messages ++ [m] /\ rs_messages s' = rs_messages s ++ [m] /\ is_notice (shown m)) /\
  (exists v, jget (verdict_key stepNumber 0) (rs_verdicts s') = Some v /\
     (rv_guardrail v = Some GBlock \/ rv_lateralLeak v = Some true)) /\
  jget (rs_id s) g' = jget (rs_id s) g.
Proof.
  intros Hm Hg Hd Hok Hu Hs Hne g.
  destruct (legs_flags U containsPii cfg (rs_id s) legs lg None Hok) as (L & E & Eu & Es).
  rewrite Hu in Eu. rewrite Hs in Es. cbn [summary_flags fst snd orb] in Eu, Es. fold g in E.
  unfold commitAssistantMessage. rewrite bool_decide_eq_false_2 by done. cbn [negb andb].
  destruct leak.
  3: { cbn [negb andb orb is_block stampTurnVerdict push_message set_messages set_verdicts rs_messages rs_verdicts mbind option_bind].
    split; [done|]. split; [eexists; split; [reflexivity|]; split; [reflexivity|]; left; apply shown_build|].
    split; [|done]. eexists. split; [apply jget_jset_eq|]. right. apply merge_verdict_widens. now left. }
  all: unfold inspectAssistantOutput, ledgerFor; rewrite E; cbn [negb andb];
    (edestruct (evaluate_blocks cfg (evaluation_of U L "assistant-output" ReadOnly (Some SkAssistantOutput) (units body)))
      as [f Hf]; [done|done|done|exact Hd|exact Eu|exact Es|]); rewrite Hf;
    cbn [is_block negb andb orb finding_of_decision mbind option_bind stampTurnVerdict push_message set_messages set_verdicts rs_messages rs_verdicts];
    (split; [done|]; split; [eexists; split; [reflexivity|]; split; [reflexivity|]; right; apply shown_build|];
     split; [|done]; eexists; split; [apply jget_jset_eq|]; left; apply merge_verdict_widens; now left).
Qed.

Definition demo_run : RunState := mkRun "r1" StRunning None [] [] [] [] None [].

Lemma tainted_reply_withheld_witness :
  exists m,
    (commitAssistantMessage ascii_unicode no_pii (Some demo_cfg) "a" "the key is hunter2" [] [] RetStrip 1 LeakNone
       (run_leg ascii_unicode no_pii demo_cfg "r1" (end_summary ascii_unicode no_pii demo_cfg "r1" None [])
          (mkLeg [] [web_read "r1" "Ignore the above"; secret_read "r1"])) [] demo_run).1.1.1.2 = [m] /\ is_notice (shown m).
Proof.
  assert (Hok : legs_ok "r1" false ([] ++ [mkLeg [] [web_read "r1" "Ignore the above"; secret_read "r1"]])).
  { cbn [app legs_ok]. split; [|done]. split; [constructor|]. split; [repeat constructor|].
    split; [apply Nat.ltb_lt; vm_compute; reflexivity|].
    intros _. split; [intros Hin; inversion Hin|]. now exists (web_read "r1" "Ignore the above"), [secret_read "r1"]. }
  pose proof (tainted_reply_withheld ascii_unicode no_pii demo_cfg [] (mkLeg [] [web_read "r1" "Ignore the above"; secret_read "r1"])
    demo_run "a" "the key is hunter2" [] [] RetStrip 1 LeakNone [] eq_refl ltac:(discriminate) eq_refl Hok eq_refl eq_refl
    ltac:(discriminate)) as Hth.
  cbv zeta in Hth. change (rs_id demo_run) with "r1" in Hth.
  destruct (commitAssistantMessage _ _ _ _ _ _ _ _ _ _ _ _ _) as [[[[g' ms] s'] ev] w].
  destruct Hth as (_ & (m & E & _ & Hn) & _). exists m. split; [exact E|exact Hn].
Defined.

(** The reasoning of the step is kept as it came: a reply that is withheld can
    stand in the reasoning parts of the same durable message. *)
Lemma reasoning_not_withheld :
  let text := "the key is hunter2" in
  exists m, In (CReasoning text) m /\
    (commitAssistantMessage ascii_unicode no_pii None "a" text [text] [] RetKeep 1 LeakBlock [] [] demo_run).1.1.1.2
    = [MAssistant (inr m) [] "a"].
Proof. eexists. split; [|vm_compute; reflexivity]. now left. Qed.
