(* ===== verification/Approvals.v ===== *)
(** * Tool calls of a step, and the approvals they wait for

    The walk over the tool calls of a model's reply
    ([packages/agent/src/runtime/tool-call-walk.ts]) with its permission
    pre-screen ([permission.ts]), the dispatch of batches ([dispatch.ts]),
    handoffs and sub-agents ([handoff.ts]), and the resume of a suspended run
    ([approvals.ts], and the prologue of the run in [factory.ts]).

    A run is a [Walk]: the working buffer, the durable state, the data-flow
    guard, and what left the process (events, batches handed to the executor,
    checkpoints).  What the code calls and does not decide is a [Harness] of
    functions of the whole [Walk], so that an answer may differ on every call:
    the permission hook, approval predicates, the executor, child agents, the
    abort signal.  A predicate that throws ends the walk; a child that throws is
    left out, as are timestamps, spans, usage, handoff records and events, audit
    rows, progress and forwarded events, and the promotion of deferred tools; every tool
    has a schema.  A checkpoint is the state it was made from. *)

From S2P Require Import Prelude JsValue Json Dataflow FlowGuard ArgPolicy Executor AgentGates.
From stdpp Require Import pretty.

Local Open Scope string_scope.
Local Open Scope list_scope.
Local Open Scope Z_scope.

(** ** Data *)

(** A checkpoint: its node name, the state in it, and the batches that had been
    handed to the executor when it was written. *)
Record Saved := mkSaved {
  sv_node : string;
  sv_state : RunState;
  sv_handed : list (list ToolCall * bool);
}.

Record Walk := mkWalk {
  wk_buffer : list Message;
  wk_state : RunState;
  wk_guard : ledgers;
  wk_events : list AgentEvent;
  wk_batches : list (list ToolCall * bool);      (** dispatched, and whether pre-approved *)
  wk_saved : list Saved;                         (** checkpoints written *)
}.

(** The end of a child run: its result when it reported one, the text it is
    rendered to, and the taint it carries. *)
Record ChildRun := mkChild {
  ch_result : option (RunStatus * RunState * option string);
  ch_text : string;
  ch_taint : option TaintOverride;
}.

Record ResumeDecision := mkDecision {
  dc_toolCallId : string;
  dc_subRun : option string;
  dc_granted : bool;
  dc_reason : option string;
}.

Record Harness := mkHarness {
  hn_registry : string -> option ResolvedTool;
  hn_isHandoff : string -> option (string * string);  (** the id and the name of the target *)
  hn_isSubAgent : string -> option string;       (** the name of a [toTool] agent *)
  hn_policy : option ToolArgumentPolicyGuard;
  hn_hook : option (ToolCall -> value -> Walk -> result string PermissionHookResult);
  hn_needs : ToolCall -> value -> Walk -> result string bool;
  hn_execute : list ToolCall -> bool -> Walk -> list CompletedToolCall * ledgers;
  hn_child : ToolCall -> Walk -> ChildRun;
  hn_resumeChild : PendingSubRun RunState -> list ResumeDecision -> Walk -> ChildRun;
  hn_aborted : Walk -> bool;
  hn_store : bool;                               (** is a checkpoint store configured *)
}.

(** ** Writing to the run *)

Definition on_state (f : RunState -> RunState) (w : Walk) : Walk :=
  mkWalk (wk_buffer w) (f (wk_state w)) (wk_guard w) (wk_events w) (wk_batches w) (wk_saved w).

Definition yield_events (es : list AgentEvent) (w : Walk) : Walk :=
  mkWalk (wk_buffer w) (wk_state w) (wk_guard w) (wk_events w ++ es) (wk_batches w) (wk_saved w).

Definition set_guard (g : ledgers) (w : Walk) : Walk :=
  mkWalk (wk_buffer w) (wk_state w) g (wk_events w) (wk_batches w) (wk_saved w).

(** A message for both transcripts. *)
Definition push_both (m : Message) (w : Walk) : Walk :=
  mkWalk (wk_buffer w ++ [m]) (push_message m (wk_state w)) (wk_guard w) (wk_events w) (wk_batches w) (wk_saved w).

Definition save (node : string) (s : RunState) (w : Walk) : Walk :=
  mkWalk (wk_buffer w) (wk_state w) (wk_guard w) (wk_events w) (wk_batches w) (wk_saved w ++ [mkSaved node s (wk_batches w)]).

Definition set_steps (steps : list RunStep) (s : RunState) : RunState :=
  mkRun (rs_id s) (rs_status s) (rs_error s) steps (rs_messages s) (rs_pendingApprovals s) (rs_verdicts s)
    (rs_taintSummary s) (rs_pendingSubRuns s).
Definition set_subRuns (subs : list (PendingSubRun RunState)) (s : RunState) : RunState :=
  mkRun (rs_id s) (rs_status s) (rs_error s) (rs_steps s) (rs_messages s) (rs_pendingApprovals s) (rs_verdicts s)
    (rs_taintSummary s) subs.
Definition set_taint (t : option TaintLedgerSnapshot) (s : RunState) : RunState :=
  mkRun (rs_id s) (rs_status s) (rs_error s) (rs_steps s) (rs_messages s) (rs_pendingApprovals s) (rs_verdicts s)
    t (rs_pendingSubRuns s).

(** Append to the journal entry of the current step. *)
Fixpoint journal_last (c : CompletedToolCall) (steps : list RunStep) : list RunStep :=
  match steps with
  | [] => []
  | [s] => [mkStep (sp_stepNumber s) (sp_toolCalls s ++ [c])]
  | s :: rest => s :: journal_last c rest
  end.

Definition journal (c : CompletedToolCall) (w : Walk) : Walk :=
  on_state (fun s => set_steps (journal_last c (rs_steps s)) s) w.

(** ** Rendering *)

Definition kind_name (k : ToolErrorKind) : string :=
  match k with
  | ApprovalDenied => "approval_denied" | SandboxViolation => "sandbox_violation" | TimeoutKind => "timeout"
  | InvalidInput => "invalid_input" | InvalidOutput => "invalid_output" | ExecutionFailed => "execution_failed"
  | UnknownTool => "unknown_tool" | Aborted => "aborted" | InboundSanitizationBlocked => "inbound_sanitization_blocked"
  | DataflowPolicyBlocked => "dataflow_policy_blocked" | CapabilityBlocked => "capability_blocked"
  | RateLimited => "rate_limited"
  end.

Definition hint_name (h : RecoveryHint) : string :=
  match h with
  | RetryLater => "retry_later" | CheckInput => "check_input" | TryAlternative => "try_alternative"
  | ReportToUser => "report_to_user"
  end.

Definition newline : string := String "010"%char EmptyString.

Definition renderToolErrorMessage (e : ToolError) : string :=
  let parts := ("kind: " +:+ kind_name (te_kind e))
    :: match te_recoverable e with
       | Some b => [if b then "recoverable: yes" else "recoverable: no"]
       | None => [] end
    ++ match te_recoveryHint e with Some h => ["suggested action: " +:+ hint_name h] | None => [] end
    ++ match te_hint e with Some h => [h] | None => [] end in
  "Error: " +:+ te_message e +:+ newline +:+ "[" +:+ join_with "; " parts +:+ "]".

(** The text of a successful result: the preview of a spilled one, else the
    output; an empty one is said to be. *)
Definition render_result (r : ToolResult) : string :=
  let rendered :=
    match tr_resultHandle r, tr_output r with
    | Some h, _ =>
        rh_preview h +:+ newline +:+ newline +:+ "[Full result"
          +:+ match rh_bytes h with Some n => " (" +:+ pretty n +:+ " bytes)" | None => "" end
          +:+ " stored behind a handle. Call read_result with handle " +:+ JSON_stringify (VStr (rh_uri h))
          +:+ " to retrieve it - optionally narrow with offset/length (bytes) or startLine/endLine.]"
    | None, VStr s => s
    | None, VUndef => ""
    | None, v => JSON_stringify v
    end in
  if bool_decide (trim rendered = "") then "(tool ran successfully with no output)" else rendered.

(** The journal entry, the event and the tool message of an outcome. *)
Definition settle_outcome (call : ToolCall) (c : CompletedToolCall) (w : Walk) : Walk :=
  match cc_outcome c with
  | OError e =>
      push_both (MTool (tc_id call) (renderToolErrorMessage e))
        (yield_events [EvToolError (tc_id call) (te_kind e)] (journal c w))
  | OResult r =>
      push_both (MTool (tc_id call) (render_result r)) (yield_events [EvToolEnd (tc_id call)] (journal c w))
  end.

(** ** Sub-run paths *)

Definition composeSubRunPath (parkKey : string) (nested : option string) : string :=
  match nested with None => parkKey | Some n => parkKey +:+ "/" +:+ n end.

Fixpoint splitSubRunPath (path : string) : string * option string :=
  match path with
  | EmptyString => ("", None)
  | String c rest =>
      if bool_decide (c = "/"%char) then ("", Some rest)
      else let '(head, tail) := splitSubRunPath rest in (String c head, tail)
  end.

(** ** The seed of a handoff *)

(** Calls that are answered after they are announced. *)
Fixpoint resolved_calls (announced : list string) (ms : list Message) : list string :=
  match ms with
  | [] => []
  | MAssistant _ calls _ :: rest => resolved_calls (announced ++ map tc_id calls) rest
  | MTool id _ :: rest =>
      if bool_decide (id ∈ announced) then id :: resolved_calls announced rest else resolved_calls announced rest
  | MOther _ _ :: rest => resolved_calls announced rest
  end.

Definition has_content (content : string + list MessageContent) : bool :=
  match content with inl t => negb (bool_decide (t = "")) | inr parts => negb (bool_decide (length parts = 0%nat)) end.

Fixpoint keep_resolved (resolved keptAnnounced : list string) (ms : list Message) : list Message :=
  match ms with
  | [] => []
  | MTool id t :: rest =>
      if bool_decide (id ∈ keptAnnounced) then MTool id t :: keep_resolved resolved keptAnnounced rest
      else keep_resolved resolved keptAnnounced rest
  | MAssistant content calls agentId :: rest =>
      let kept := List.filter (fun c => bool_decide (tc_id c ∈ resolved)) calls in
      let rest' := keep_resolved resolved (keptAnnounced ++ map tc_id kept) rest in
      if bool_decide (length kept = length calls) then MAssistant content calls agentId :: rest'
      else if bool_decide (length kept = 0%nat) && negb (has_content content) then rest'
      else MAssistant content kept agentId :: rest'
  | m :: rest => m :: keep_resolved resolved keptAnnounced rest
  end.

Definition sanitizeHandoffSeed (ms : list Message) : list Message :=
  keep_resolved (resolved_calls [] ms) [] ms.

Section Agent.
Context (U : Unicode) (containsPii : text -> bool) (dataFlow : option DataFlowPolicyConfig) (h : Harness).

(** ** Dispatching a batch *)

(** The results by call id: the last one stands. *)
Definition by_call_id (completed : list CompletedToolCall) : list (string * CompletedToolCall) :=
  foldl (fun m c => jset (tc_id (cc_call c)) c m) [] completed.

Definition dispatchToolBatch (calls : list ToolCall) (preApproved : bool) (w : Walk) : Walk :=
  match calls with
  | [] => w
  | _ =>
      let w1 := yield_events (map (fun c => EvToolStart (tc_id c)) calls) w in
      let '(completed, g) := hn_execute h calls preApproved w1 in
      let w2 := mkWalk (wk_buffer w1) (wk_state w1) g (wk_events w1) (wk_batches w1 ++ [(calls, preApproved)]) (wk_saved w1) in
      foldl (fun w c => match jget (tc_id c) (by_call_id completed) with
                        | Some r => settle_outcome c r w
                        | None => w end) w2 calls
  end.

(** ** Children *)

(** [parkSubRun]: replace the entry of the call, else append. *)
Definition parkSubRun (call : ToolCall) (agentName : string) (child : RunState) (s : RunState) : RunState :=
  let entry := mkParked (tc_id call) (tc_toolName call) agentName child in
  let subs := rs_pendingSubRuns s in
  if existsb (fun p => bool_decide (pk_toolCallId p = tc_id call)) subs
  then let fix replace (l : list (PendingSubRun RunState)) :=
         match l with
         | [] => []
         | p :: l' => if bool_decide (pk_toolCallId p = tc_id call) then entry :: l' else p :: replace l'
         end in
       set_subRuns (replace subs) s
  else set_subRuns (subs ++ [entry]) s.

(** A child's approval as its parent shows it. *)
Definition mirror (parkKey : string) (a : ToolApproval) : ToolApproval :=
  mkApproval (ap_toolCallId a) (ap_toolName a) (ap_args a) (ap_reason a) (ap_mode a)
    (Some (composeSubRunPath parkKey (ap_subRun a))).

Definition mirror_all (parkKey : string) (approvals : list ToolApproval) (w : Walk) : Walk :=
  foldl (fun w a =>
           yield_events [EvApprovalRequested (ap_toolCallId a) None (ap_reason a)]
             (on_state (fun s => set_pending (rs_pendingApprovals s ++ [mirror parkKey a]) s) w)) w approvals.

Definition status_name (st : RunStatus) : string :=
  match st with
  | StRunning => "running" | StCompleted => "completed" | StFailed => "failed" | StAborted => "aborted"
  | StAwaitingApproval => "awaiting_approval"
  end.

(** The outcome of a child that ended other than completed. *)
Definition child_error (label : string) (st : RunStatus) (err : option string) : ToolError :=
  plain_error (if decide (st = StAborted) then Aborted else ExecutionFailed)
    (label +:+ " " +:+ status_name st +:+ match err with Some m => ": " +:+ m | None => "" end) None.

(** [runSubAgentCall]: the walk, and whether the parent has to suspend. *)
Definition runSubAgentCall (call : ToolCall) (agentName label : string) (recordsTaint : bool) (stepNumber : Z) (w : Walk)
    : Walk * bool :=
  let child := hn_child h call w in
  match ch_result child with
  | Some (StAwaitingApproval, cs, _) =>
      (mirror_all (tc_id call) (rs_pendingApprovals cs) (on_state (parkSubRun call agentName cs) w), true)
  | Some ((StRunning | StFailed | StAborted) as st, _, err) =>
      (settle_outcome call (mkCompleted call (OError (child_error label st err)) stepNumber) w, false)
  | _ =>
      let w1 := match dataFlow, ch_result child ≫= fun _ => ch_taint child with
                | Some cfg, Some t =>
                    if recordsTaint
                    then set_guard (record U containsPii cfg
                           (mkRecordInput (rs_id (wk_state w)) FirstPartyUserDefined (Some t) None None (units (ch_text child)))
                           (wk_guard w)) w
                    else w
                | _, _ => w
                end in
      let c := mkCompleted call (OResult (mkToolResult (VStr (ch_text child)) None)) stepNumber in
      (push_both (MTool (tc_id call) (ch_text child)) (yield_events [EvToolEnd (tc_id call)] (journal c w1)), false)
  end.

Definition executeHandoffToolCall (call : ToolCall) (target : string * string) (stepNumber : Z) (w : Walk) : Walk * bool :=
  runSubAgentCall call target.2 ("handoff to '" +:+ target.1 +:+ "'") false stepNumber
    (yield_events [EvToolStart (tc_id call)] w).

Definition executeSubAgentToolCall (call : ToolCall) (target : string) (stepNumber : Z) (w : Walk) : Walk * bool :=
  runSubAgentCall call target ("sub-agent '" +:+ target +:+ "'") true stepNumber
    (yield_events [EvToolStart (tc_id call)] w).

(** ** The permission pre-screen *)

Inductive PermissionPreScreenVerdict :=
| SAllow (validatedInput effectiveArgs : value)
| SDeny (reason : string)
| SPark (mode : PermissionEffect) (reason : option string) (effectiveArgs : value)
| SInvalid (message : string).

Definition PRIORITY (e : PermissionEffect) : nat :=
  match e with EDeny => 3 | EDefer => 2 | EAsk => 1 | EAllow => 0 end.

Definition hasPermissionLayer : bool :=
  match hn_hook h, hn_policy h ≫= gd_decide with None, None => false | _, _ => true end.

(** The verdicts of the hook and of the policy combined. *)
Definition combine_verdicts (hookDecision policyDecision : PermissionEffect) (hookReason policyReason : option string)
    (validatedInput effectiveArgs : value) : PermissionPreScreenVerdict :=
  let combined := if (PRIORITY policyDecision <=? PRIORITY hookDecision)%nat then hookDecision else policyDecision in
  let combinedReason :=
    match hookReason with
    | Some r => if decide (combined = hookDecision) then Some r else policyReason
    | None => policyReason
    end in
  match combined with
  | EDeny => SDeny (default "denied by permission policy" combinedReason)
  | EAllow => SAllow validatedInput effectiveArgs
  | e => SPark e combinedReason effectiveArgs
  end.

Definition policy_verdict (tool : ResolvedTool) (vi : value) : PermissionEffect * option string :=
  match hn_policy h ≫= gd_decide with
  | None => (EAllow, None)
  | Some decide_ => match decide_ (policy_facts tool vi) with
                    | PAllow => (EAllow, None)
                    | PRefuse e reason => (e, Some reason)
                    end
  end.

Definition preScreenPermission (call : ToolCall) (tool : ResolvedTool) (validatedInput : value) (w : Walk)
    : PermissionPreScreenVerdict :=
  let finish hookDecision hookReason vi ea :=
    let '(policyDecision, policyReason) := policy_verdict tool vi in
    combine_verdicts hookDecision policyDecision hookReason policyReason vi ea in
  match hn_hook h with
  | None => finish EAllow None validatedInput (tc_args call)
  | Some hook =>
      match hook call validatedInput w with
      | Err cause => SDeny ("permission hook failed (fail-closed): " +:+ cause)
      | Ok verdict =>
          if decide (ph_decision verdict = EDeny) then SDeny (default "denied by permission hook" (ph_reason verdict))
          else match ph_updatedInput verdict with
               | None => finish (ph_decision verdict) (ph_reason verdict) validatedInput (tc_args call)
               | Some updated =>
                   match rt_inputSchema tool updated with
                   | Err message => SInvalid ("Permission hook rewrite failed schema re-validation: " +:+ message)
                   | Ok data => finish (ph_decision verdict) (ph_reason verdict) data updated
                   end
               end
      end
  end.

(** ** The walk *)

Definition isApprovalGated (tool : ResolvedTool) : bool :=
  match rt_needsApproval tool with AskStatic b => b | AskPredicate => true | NeverAsked => false end.

Definition invokeNeedsApproval (tool : option ResolvedTool) (call : ToolCall) (input : value) (w : Walk) : result string bool :=
  match tool with
  | None => Ok false
  | Some t => match rt_needsApproval t with
              | NeverAsked => Ok false
              | AskStatic b => Ok b
              | AskPredicate => hn_needs h call input w
              end
  end.

(** Journal, event pair and message of a call that is not run. *)
Definition failFast (call : ToolCall) (e : ToolError) (stepNumber : Z) (w : Walk) : Walk :=
  yield_events [EvToolStart (tc_id call); EvToolError (tc_id call) (te_kind e)]
    (push_both (MTool (tc_id call) (renderToolErrorMessage e)) (journal (mkCompleted call (OError e) stepNumber) w)).

(** What the screen makes of a call: it fails, or goes on with the input its
    approval predicate sees, the arguments an approval carries, and the mode in
    which it is parked. *)
Inductive Screened :=
| ScFail (e : ToolError)
| ScPass (gateInput approvalArgs : value) (mode : option PermissionEffect) (reason : option string).

Definition screen_call (call : ToolCall) (tool : option ResolvedTool) (isSub : bool) (w : Walk) : Screened :=
  let pass := ScPass (tc_args call) (tc_args call) None None in
  let screenThisCall := hasPermissionLayer && negb isSub in
  match tool with
  | None => pass
  | Some t =>
      if isApprovalGated t || screenThisCall then
        match rt_inputSchema t (tc_args call) with
        | Err message =>
            if isApprovalGated t
            then ScFail (plain_error InvalidInput
                   ("Invalid arguments for approval-gated tool '" +:+ tc_toolName call +:+ "': " +:+ message) None)
            else pass
        | Ok data =>
            if screenThisCall then
              match preScreenPermission call t data w with
              | SInvalid message => ScFail (plain_error InvalidInput message None)
              | SDeny reason =>
                  ScFail (plain_error CapabilityBlocked ("Blocked by permission decision: " +:+ reason) (Some reason))
              | SAllow vi ea => ScPass vi ea None None
              | SPark mode reason ea => ScPass data ea (Some mode) reason
              end
            else ScPass data (tc_args call) None None
        end
      else pass
  end.

(** The run, the calls queued for the executor, and the suspensions asked for. *)
Record WalkAcc := mkAcc { wa_walk : Walk; wa_batch : list ToolCall; wa_requested : nat }.

Definition flush (a : WalkAcc) : WalkAcc :=
  mkAcc (dispatchToolBatch (wa_batch a) false (wa_walk a)) [] (wa_requested a).

Definition on_walk (f : Walk -> Walk) (a : WalkAcc) : WalkAcc := mkAcc (f (wa_walk a)) (wa_batch a) (wa_requested a).

(** A child's call, after what was queued before it. *)
Definition run_child (exec : Walk -> Walk * bool) (a : WalkAcc) : WalkAcc :=
  let a1 := flush a in
  let '(w, suspended) := exec (wa_walk a1) in
  mkAcc w [] (if suspended then S (wa_requested a1) else wa_requested a1).

(** A call that waits for approval, after what was queued before it. *)
Definition park_call (call : ToolCall) (approvalArgs : value) (mode : option PermissionEffect) (reason : option string)
    (a : WalkAcc) : WalkAcc :=
  let a1 := flush a in
  let approval := mkApproval (tc_id call) (tc_toolName call) approvalArgs reason mode None in
  mkAcc (yield_events [EvToolStart (tc_id call); EvApprovalRequested (tc_id call) mode reason]
           (on_state (fun s => set_pending (rs_pendingApprovals s ++ [approval]) s) (wa_walk a1)))
    [] (S (wa_requested a1)).

Definition denies_name (name : string) : NameDenialDecision :=
  match hn_policy h ≫= gd_deniesName with Some deniesName => deniesName name | None => NotDenied end.

(** One round of the loop; a predicate that throws ends the walk. *)
Definition walk_call (stepNumber : Z) (call : ToolCall) (a : WalkAcc) : result string WalkAcc :=
  let name := tc_toolName call in
  match denies_name name with
  | Denied reason =>
      Ok (on_walk (failFast call (plain_error CapabilityBlocked
            ("Tool '" +:+ name +:+ "' is denied by name: " +:+ reason) (Some reason)) stepNumber) a)
  | NotDenied =>
      match hn_isHandoff h name with
      | Some target => Ok (run_child (executeHandoffToolCall call target stepNumber) a)
      | None =>
          let tool := hn_registry h name in
          let subRefs := tool ≫= fun _ => hn_isSubAgent h name in
          match screen_call call tool (bool_decide (is_Some subRefs)) (wa_walk a) with
          | ScFail e => Ok (on_walk (failFast call e stepNumber) a)
          | ScPass gateInput approvalArgs mode reason =>
              let needs := match mode with
                           | Some _ => Ok true
                           | None => invokeNeedsApproval tool call gateInput (wa_walk a)
                           end in
              match needs with
              | Err cause => Err cause
              | Ok true => Ok (park_call call approvalArgs mode reason a)
              | Ok false =>
                  match subRefs with
                  | Some target => Ok (run_child (executeSubAgentToolCall call target stepNumber) a)
                  | None => Ok (mkAcc (wa_walk a) (wa_batch a ++ [call]) (wa_requested a))
                  end
              end
          end
      end
  end.

Inductive WalkEnd := Continues | Suspended (abortPending : bool).

(** The suspension of the step, once for all the calls that ask for it. *)
Definition suspend_step (a : WalkAcc) : Walk * WalkEnd :=
  let w := wa_walk a in
  match wa_requested a with
  | O => (w, Continues)
  | S _ =>
      let snap := match dataFlow with Some _ => snapshotLedger (rs_id (wk_state w)) (wk_guard w) | None => None end in
      let w1 := on_state (fun s => with_status StAwaitingApproval (rs_error s)
                  (match snap with Some t => set_taint (Some t) s | None => s end)) w in
      if hn_aborted h w1 then (w1, Suspended true)
      else (if hn_store h then save "agent.run" (wk_state w1) w1 else w1, Suspended false)
  end.

Definition processStepToolCalls (stepNumber : Z) (finalCalls : list ToolCall) (w : Walk) : result string (Walk * WalkEnd) :=
  match foldM (fun a c => walk_call stepNumber c a) (mkAcc w [] 0) finalCalls with
  | Err cause => Err cause
  | Ok a => Ok (suspend_step (flush a))
  end.

(** ** Resuming *)

Definition decisionKey (toolCallId : string) (subRun : option string) : string :=
  toolCallId +:+ String "000"%char (default "" subRun).

Definition decisions_of (approvals : list ResumeDecision) : list (string * ResumeDecision) :=
  foldl (fun m d => jset (decisionKey (dc_toolCallId d) (dc_subRun d)) d m) [] approvals.

Definition decision_for (approvals : list ResumeDecision) (a : ToolApproval) : option ResumeDecision :=
  jget (decisionKey (ap_toolCallId a) (ap_subRun a)) (decisions_of approvals).

Record Resumed := mkResumed {
  re_walk : Walk;
  re_granted : list ToolApproval;
  re_pending : list ToolApproval;
  re_routed : list (string * list ResumeDecision);
}.

Definition call_of_approval (a : ToolApproval) : ToolCall := mkCall (ap_toolCallId a) (ap_toolName a) (ap_args a).

Definition decision_event (a : ToolApproval) (d : ResumeDecision) : AgentEvent :=
  if dc_granted d then EvApprovalGranted (ap_toolCallId a) else EvApprovalDenied (ap_toolCallId a) (dc_reason d).

Definition denial (id : string) (reason : option string) : Message :=
  MTool id ("Error: tool approval denied" +:+ because ": " "" reason).

Definition answered_in (id : string) (ms : list Message) : bool :=
  existsb (fun m => match m with MTool i _ => bool_decide (i = id) | _ => false end) ms.

(** One pending approval against the directive. *)
Definition decide_approval (approvals : list ResumeDecision) (journaled : string -> bool) (r : Resumed) (a : ToolApproval)
    : Resumed :=
  match decision_for approvals a with
  | None => mkResumed (re_walk r) (re_granted r) (re_pending r ++ [a]) (re_routed r)
  | Some d =>
      let w := yield_events [decision_event a d] (re_walk r) in
      match ap_subRun a with
      | Some path =>
          let '(head, rest) := splitSubRunPath path in
          let routed := mkDecision (ap_toolCallId a) rest (dc_granted d) (dc_reason d) in
          mkResumed w (re_granted r) (re_pending r)
            (jset head (default [] (jget head (re_routed r)) ++ [routed]) (re_routed r))
      | None =>
          if dc_granted d then
            if journaled (ap_toolCallId a) && answered_in (ap_toolCallId a) (wk_buffer w)
            then mkResumed w (re_granted r) (re_pending r) (re_routed r)
            else mkResumed w (re_granted r ++ [a]) (re_pending r) (re_routed r)
          else
            mkResumed (push_both (denial (ap_toolCallId a) (dc_reason d)) w)
              (re_granted r) (re_pending r) (re_routed r)
      end
  end.

Definition journaled_call (s : RunState) (id : string) : bool :=
  existsb (fun st => existsb (fun c => bool_decide (tc_id (cc_call c) = id)) (sp_toolCalls st)) (rs_steps s).

Definition processResumeDirective (approvals : list ResumeDecision) (w : Walk) : Resumed :=
  let r := foldl (decide_approval approvals (journaled_call (wk_state w))) (mkResumed w [] [] [])
             (rs_pendingApprovals (wk_state w)) in
  mkResumed
    (on_state (fun s => let s' := set_pending (re_pending r) s in
                        match re_pending r with [] => with_status StRunning (rs_error s') s' | _ => s' end) (re_walk r))
    (re_granted r) (re_pending r) (re_routed r).

Definition next_step_number (s : RunState) : Z := foldl (fun m st => Z.max m (sp_stepNumber st)) 0 (rs_steps s) + 1.

(** The state the intent checkpoint keeps: the grants pending again. *)
Definition intent_state (granted : list ToolApproval) (s : RunState) : RunState :=
  with_status StAwaitingApproval (rs_error s) (set_pending (granted ++ rs_pendingApprovals s) s).

Definition dispatchResumedApprovals (granted : list ToolApproval) (w : Walk) : Walk :=
  let n := next_step_number (wk_state w) in
  let w1 := if hn_store h then save "agent.resume.intent" (intent_state granted (wk_state w)) w else w in
  let w2 := on_state (fun s => set_steps (rs_steps s ++ [mkStep n []]) s) w1 in
  let w3 := dispatchToolBatch (map call_of_approval granted) true w2 in
  if hn_store h then save "agent.resume.dispatched" (wk_state w3) w3 else w3.

(** *** Parked children *)

Definition find_parked (key : string) (s : RunState) : option (PendingSubRun RunState) :=
  find (fun p => bool_decide (pk_toolCallId p = key)) (rs_pendingSubRuns s).

(** Map the first entry under the key; [None] removes it. *)
Fixpoint update_parked (key : string) (f : option (PendingSubRun RunState)) (l : list (PendingSubRun RunState))
    : list (PendingSubRun RunState) :=
  match l with
  | [] => []
  | p :: l' => if bool_decide (pk_toolCallId p = key)
               then match f with Some q => q :: l' | None => l' end
               else p :: update_parked key f l'
  end.

Definition mirrors_of (key : string) (a : ToolApproval) : bool :=
  match ap_subRun a with Some path => bool_decide ((splitSubRunPath path).1 = key) | None => false end.

(** One routed batch of decisions; a park or target that is gone throws. *)
Definition resume_parked (stepNumber : Z) (w : Walk) (e : string * list ResumeDecision) : result string Walk :=
  let '(key, decisions) := e in
  match find_parked key (wk_state w) with
  | None => Err ("no parked sub-run matches subRunToolCallId '" +:+ key +:+ "'")
  | Some p =>
      match hn_isHandoff h (pk_toolName p), hn_registry h (pk_toolName p) ≫= fun _ => hn_isSubAgent h (pk_toolName p) with
      | None, None => Err "it matches neither a configured handoff target nor a toTool sub-agent tool on this instance"
      | _, _ =>
          let w1 := yield_events [EvToolStart (pk_toolCallId p)] w in
          let child := hn_resumeChild h p decisions w1 in
          let call := mkCall (pk_toolCallId p) (pk_toolName p) (VObj []) in
          match ch_result child with
          | Some (StAwaitingApproval, cs, _) =>
              let w2 := on_state (fun s => set_pending (List.filter (fun a => negb (mirrors_of (pk_toolCallId p) a)) (rs_pendingApprovals s))
                          (set_subRuns (update_parked key (Some (mkParked (pk_toolCallId p) (pk_toolName p) (pk_agentName p) cs))
                             (rs_pendingSubRuns s)) s)) w1 in
              Ok (on_state (fun s => with_status StAwaitingApproval (rs_error s) s)
                    (mirror_all (pk_toolCallId p) (rs_pendingApprovals cs) w2))
          | Some ((StRunning | StFailed | StAborted) as st, _, err) =>
              let w2 := on_state (fun s => set_subRuns (update_parked key None (rs_pendingSubRuns s)) s) w1 in
              let e := child_error ("sub-run '" +:+ pk_agentName p +:+ "'") st err in
              Ok (settle_outcome call (mkCompleted call (OError e) stepNumber) w2)
          | _ =>
              let w2 := on_state (fun s => set_subRuns (update_parked key None (rs_pendingSubRuns s)) s) w1 in
              let c := mkCompleted call (OResult (mkToolResult (VStr (ch_text child)) None)) stepNumber in
              Ok (push_both (MTool (tc_id call) (ch_text child)) (yield_events [EvToolEnd (tc_id call)] (journal c w2)))
          end
      end
  end.

Definition processSubRunResumes (routed : list (string * list ResumeDecision)) (w : Walk) : result string Walk :=
  match routed with
  | [] => Ok w
  | _ =>
      let n := next_step_number (wk_state w) in
      let w1 := on_state (fun s => set_steps (rs_steps s ++ [mkStep n []]) s) w in
      match foldM (resume_parked n) w1 routed with
      | Err cause => Err cause
      | Ok w2 => Ok (if hn_store h then save "agent.subrun.resumed" (wk_state w2) w2 else w2)
      end
  end.

Inductive ResumeEnd := Terminal | Rejoins.

(** The resume half of the run's prologue: the state returned as it is, or the
    provider loop entered. *)
Definition resume_run (directive : option (list ResumeDecision)) (w : Walk) : result string (Walk * ResumeEnd) :=
  let r := match directive with
           | Some approvals =>
               match rs_pendingApprovals (wk_state w) with
               | [] => mkResumed w [] [] []
               | _ => processResumeDirective approvals w
               end
           | None => mkResumed w [] [] []
           end in
  let w1 := re_walk r in
  if decide (rs_status (wk_state w1) = StFailed) then Ok (w1, Terminal)
  else
    let w2 := match re_granted r with [] => w1 | _ => dispatchResumedApprovals (re_granted r) w1 end in
    match processSubRunResumes (re_routed r) w2 with
    | Err cause => Err cause
    | Ok w3 =>
        let s := wk_state w3 in
        Ok (w3, if bool_decide (rs_status s = StAwaitingApproval)
                   || (bool_decide (rs_status s = StAborted) && negb (bool_decide (length (rs_pendingApprovals s) = 0%nat)))
                then Terminal else Rejoins)
    end.

End Agent.
