(* ===== verification/ApprovalProps.v ===== *)
(** * What becomes of the tool calls of a step

    Every call of a step is answered in both transcripts, waits for an approval,
    or is parked with its child, exactly one of them; a resume runs exactly the
    granted calls, each once over any number of resumes; the pre-screen agrees
    with the executor's own gates; the seed of a handoff is a transcript a
    provider accepts. *)

From S2P Require Import Prelude JsValue Json Dataflow FlowGuard ArgPolicy Executor ExecutorRetry Batch AgentGates Approvals.

Local Open Scope string_scope.
Local Open Scope list_scope.
Local Open Scope nat_scope.

(** ** Accounts of a call id *)

(** How often an id is answered in the buffer and in the durable transcript, how
    often it waits for an approval of this run, and how often it is parked. *)
Record Tally := mkTally { ta_buffer : nat; ta_durable : nat; ta_waiting : nat; ta_parked : nat }.

Definition count {A} (f : A -> bool) (l : list A) : nat := length (List.filter f l).

Definition answers (id : string) (m : Message) : bool := bool_decide (answered m = Some id).
Definition own (id : string) (a : ToolApproval) : bool :=
  bool_decide (ap_subRun a = None) && bool_decide (ap_toolCallId a = id).
Definition parks (id : string) (p : PendingSubRun RunState) : bool := bool_decide (pk_toolCallId p = id).

Arguments count : simpl never.
Arguments answers : simpl never.
Arguments own : simpl never.
Arguments parks : simpl never.

Lemma count_cons {A} (f : A -> bool) x l : count f (x :: l) = (if f x then 1 else 0) + count f l.
Proof. unfold count. cbn. now destruct (f x). Qed.

Lemma count_nil {A} (f : A -> bool) : count f [] = 0.
Proof. done. Qed.

Lemma count_one {A} (f : A -> bool) x : count f [x] = if f x then 1 else 0.
Proof. rewrite count_cons, count_nil. lia. Qed.

Definition tally (w : Walk) (id : string) : Tally :=
  mkTally (count (answers id) (wk_buffer w)) (count (answers id) (rs_messages (wk_state w)))
    (count (own id) (rs_pendingApprovals (wk_state w))) (count (parks id) (rs_pendingSubRuns (wk_state w))).

Inductive Fate := Answered | Waiting | Parked.

Definition fate_tally (f : Fate) : Tally :=
  match f with Answered => mkTally 1 1 0 0 | Waiting => mkTally 0 0 1 0 | Parked => mkTally 0 0 0 1 end.

Definition untold : Tally := mkTally 0 0 0 0.

(** Two ids apart: the accounts a call may touch. *)
Definition one (id id' : string) : nat := if decide (id = id') then 1 else 0.

Lemma count_app {A} (f : A -> bool) l1 l2 : count f (l1 ++ l2) = count f l1 + count f l2.
Proof. unfold count. now rewrite List.filter_app, length_app. Qed.

Lemma count_zero {A} (f : A -> bool) l : count f l = 0 <-> forall x, x ∈ l -> f x = false.
Proof.
  unfold count. induction l as [|x l IH]; cbn; [split; [intros _ ? Hx; inversion Hx|done]|].
  destruct (f x) eqn:E; cbn.
  - split; [lia|]. intros H. rewrite (H x) in E by left. done.
  - rewrite IH. split; [intros H y Hy; apply elem_of_cons in Hy as [->|Hy]; auto|intros H y Hy; apply H; now right].
Qed.

Lemma tally_push m w id :
  tally (push_both m w) id =
  mkTally (ta_buffer (tally w id) + if answers id m then 1 else 0)
    (ta_durable (tally w id) + if answers id m then 1 else 0) (ta_waiting (tally w id)) (ta_parked (tally w id)).
Proof.
  unfold tally, push_both, push_message, set_messages. cbn. now rewrite !count_app, count_one.
Qed.

Lemma answers_tool id i t : answers id (MTool i t) = bool_decide (i = id).
Proof. unfold answers. cbn. apply bool_decide_ext. split; congruence. Qed.

Lemma tally_settle call c w id :
  tally (settle_outcome call c w) id =
  mkTally (ta_buffer (tally w id) + one (tc_id call) id) (ta_durable (tally w id) + one (tc_id call) id)
    (ta_waiting (tally w id)) (ta_parked (tally w id)).
Proof.
  unfold settle_outcome, one. destruct (cc_outcome c); rewrite tally_push, answers_tool; cbn; now repeat case_decide.
Qed.

Lemma tally_fail call e n w id :
  tally (failFast call e n w) id =
  mkTally (ta_buffer (tally w id) + one (tc_id call) id) (ta_durable (tally w id) + one (tc_id call) id)
    (ta_waiting (tally w id)) (ta_parked (tally w id)).
Proof.
  unfold failFast. change (tally (yield_events ?es ?w) id) with (tally w id). rewrite tally_push, answers_tool.
  unfold one. cbn. now repeat case_decide.
Qed.

Lemma tally_mirror key approvals w id : tally (mirror_all key approvals w) id = tally w id.
Proof.
  unfold mirror_all. revert w. induction approvals as [|a approvals IH]; intros w; cbn [foldl]; [done|]. rewrite IH.
  unfold tally. cbn. rewrite count_app, count_one. cbn. now rewrite Nat.add_0_r.
Qed.

Lemma tally_park call name cs w id :
  ta_parked (tally w (tc_id call)) = 0 ->
  tally (on_state (parkSubRun call name cs) w) id =
  mkTally (ta_buffer (tally w id)) (ta_durable (tally w id)) (ta_waiting (tally w id))
    (ta_parked (tally w id) + one (tc_id call) id).
Proof.
  intros H0. unfold tally, parkSubRun. cbn in H0. rewrite count_zero in H0.
  assert (Ee : existsb (fun p => bool_decide (pk_toolCallId p = tc_id call)) (rs_pendingSubRuns (wk_state w)) = false).
  { apply not_true_iff_false. rewrite existsb_exists. intros (p & Hin & Hp). apply list_elem_of_In in Hin.
    apply H0 in Hin. unfold parks in Hin. congruence. }
  cbn. rewrite Ee. cbn. rewrite count_app, count_one. unfold parks at 2, one. cbn.
  now repeat case_decide.
Qed.

(** ** Batches *)

(** The executor answers a batch of distinct calls call by call
    ([Batch.batch_outcomes]). *)
Definition executor_answers (h : Harness) : Prop :=
  forall calls pre w, NoDup (map tc_id calls) ->
  map (fun c => tc_id (cc_call c)) (hn_execute h calls pre w).1 = map tc_id calls.

(** A batch of the executor that has resolved is such an answer, in whatever
    order its calls settled. *)
Lemma batches_answer h :
  (forall calls pre w, exists opts n answer order b,
     run_batch opts n calls answer order (runExecuteBatch opts calls) = Some b /\ bt_resolved b = true /\
     (hn_execute h calls pre w).1 = batch_result b /\
     forall c o, answer c = Ok o -> tc_id (cc_call o) = tc_id c) ->
  executor_answers h.
Proof.
  intros Hb calls pre w Hnd. destruct (Hb calls pre w) as (opts & n & answer & order & b & Hr & Hres & -> & Hid).
  destruct (run_batch_ok opts n calls answer Hnd order _ b (initial_ok opts n calls answer) Hr) as [Hok _].
  rewrite (batch_ok_result opts n calls answer b Hok Hres), map_map. apply map_ext. intros c. unfold outcome_of.
  destruct (answer c) eqn:E; [now apply Hid|reflexivity].
Qed.

Definition calls_id (id : string) (c : ToolCall) : bool := bool_decide (tc_id c = id).
Arguments calls_id : simpl never.

Lemma by_call_id_Some completed id :
  id ∈ map (fun c => tc_id (cc_call c)) completed -> is_Some (jget id (by_call_id completed)).
Proof.
  unfold by_call_id. induction completed as [|c completed IH] using rev_ind; [intros H; inversion H|].
  rewrite map_app, foldl_app. cbn [foldl map]. intros [H|H%list_elem_of_singleton]%elem_of_app; rewrite jget_jset.
  - case_decide; eauto.
  - rewrite decide_True by done. eauto.
Qed.

Lemma count_nodup calls id : NoDup (map tc_id calls) -> id ∈ map tc_id calls -> count (calls_id id) calls = 1.
Proof.
  induction calls as [|c calls IH]; cbn [map]; intros Hnd Hin; [inversion Hin|].
  apply NoDup_cons in Hnd as [Hn Hnd]. rewrite count_cons. unfold calls_id at 1.
  apply elem_of_cons in Hin as [->|Hin].
  - rewrite bool_decide_eq_true_2 by done. replace (count _ calls) with 0; [done|]. symmetry. apply count_zero.
    intros c' Hc'. apply bool_decide_eq_false. intros E. apply Hn. rewrite <- E. now apply (list_elem_of_fmap_2 tc_id).
  - rewrite bool_decide_eq_false_2; [now rewrite IH|]. intros <-. contradiction.
Qed.

Lemma count_absent calls id : id ∉ map tc_id calls -> count (calls_id id) calls = 0.
Proof.
  intros Hn. apply count_zero. intros c Hc. apply bool_decide_eq_false. intros <-. apply Hn.
  now apply (list_elem_of_fmap_2 tc_id).
Qed.

Definition answered_more (n : nat) (t : Tally) : Tally :=
  mkTally (ta_buffer t + n) (ta_durable t + n) (ta_waiting t) (ta_parked t).

Lemma answered_more_0 t : answered_more 0 t = t.
Proof. destruct t. unfold answered_more. cbn. now rewrite !Nat.add_0_r. Qed.

Lemma settle_all results calls w id :
  (forall c, c ∈ calls -> is_Some (jget (tc_id c) results)) ->
  tally (foldl (fun w c => match jget (tc_id c) results with Some r => settle_outcome c r w | None => w end) w calls) id
  = answered_more (count (calls_id id) calls) (tally w id).
Proof.
  revert w. induction calls as [|c calls IH]; intros w Hall; cbn [foldl]; [now rewrite count_nil, answered_more_0|].
  destruct (Hall c ltac:(left)) as [r ->]. rewrite IH by (intros; apply Hall; now right). rewrite tally_settle, count_cons.
  unfold answered_more, one, calls_id. cbn. repeat case_decide; repeat case_bool_decide; try done; f_equal; lia.
Qed.

Section Steps.
Context (U : Unicode) (containsPii : text -> bool) (dataFlow : option DataFlowPolicyConfig) (h : Harness).
Context (Hexec : executor_answers h).

Lemma tally_dispatch calls pre w id :
  NoDup (map tc_id calls) ->
  tally (dispatchToolBatch h calls pre w) id = answered_more (count (calls_id id) calls) (tally w id).
Proof using Hexec.
  intros Hnd. unfold dispatchToolBatch. destruct calls as [|c0 calls0] eqn:Ec; [now rewrite count_nil, answered_more_0|].
  rewrite <- Ec in *. set (w1 := yield_events _ w). pose proof (Hexec calls pre w1 Hnd) as Hids.
  destruct (hn_execute h calls pre w1) as [completed g]. cbn [fst] in Hids. rewrite settle_all; [done|].
  intros c Hc. apply by_call_id_Some. rewrite Hids. now apply (list_elem_of_fmap_2 tc_id).
Qed.

(** What an answer leaves alone. *)
Record framed (w w' : Walk) : Prop := mkFramed {
  fr_batches : wk_batches w' = wk_batches w;
  fr_saved : wk_saved w' = wk_saved w;
  fr_pending : rs_pendingApprovals (wk_state w') = rs_pendingApprovals (wk_state w);
  fr_subRuns : rs_pendingSubRuns (wk_state w') = rs_pendingSubRuns (wk_state w);
  fr_status : rs_status (wk_state w') = rs_status (wk_state w);
  fr_id : rs_id (wk_state w') = rs_id (wk_state w);
}.

Lemma framed_trans w1 w2 w3 : framed w1 w2 -> framed w2 w3 -> framed w1 w3.
Proof. intros [] []. split; congruence. Qed.

Lemma settle_framed call c w : framed w (settle_outcome call c w).
Proof. unfold settle_outcome. now destruct (cc_outcome c). Qed.

Lemma settle_all_framed results calls w :
  framed w (foldl (fun w c => match jget (tc_id c) results with Some r => settle_outcome c r w | None => w end) w calls).
Proof.
  revert w. induction calls as [|c calls IH]; intros w; cbn [foldl]; [done|].
  destruct (jget (tc_id c) results); [|apply IH]. eapply framed_trans; [apply settle_framed|apply IH].
Qed.

Definition batch_of (calls : list ToolCall) (pre : bool) : list (list ToolCall * bool) :=
  match calls with [] => [] | _ => [(calls, pre)] end.

Lemma dispatch_frame calls pre w :
  let w' := dispatchToolBatch h calls pre w in
  wk_batches w' = wk_batches w ++ batch_of calls pre /\ wk_saved w' = wk_saved w /\
  rs_pendingApprovals (wk_state w') = rs_pendingApprovals (wk_state w) /\
  rs_status (wk_state w') = rs_status (wk_state w) /\ rs_id (wk_state w') = rs_id (wk_state w).
Proof.
  unfold dispatchToolBatch. destruct calls as [|c0 calls0] eqn:Ec; [cbn; now rewrite app_nil_r|]. rewrite <- Ec.
  replace (batch_of calls pre) with [(calls, pre)] by now rewrite Ec.
  destruct (hn_execute h calls pre _) as [completed g]. cbv zeta. set (w2 := mkWalk _ _ _ _ _ _).
  destruct (settle_all_framed (by_call_id completed) calls w2). done.
Qed.

(** ** The screen *)

(** The tool of an approval is known and its arguments are valid. *)
Definition runnable (a : ToolApproval) : Prop :=
  exists tool data, hn_registry h (ap_toolName a) = Some tool /\ rt_inputSchema tool (ap_args a) = Ok data.

Lemma combine_args hd pd hr pr vi ea :
  match combine_verdicts hd pd hr pr vi ea with
  | SAllow vi' ea' => vi' = vi /\ ea' = ea
  | SPark _ _ ea' => ea' = ea
  | _ => True
  end.
Proof. unfold combine_verdicts. cbv zeta. now destruct (if (PRIORITY pd <=? PRIORITY hd) then hd else pd). Qed.

Lemma prescreen_args call tool data w :
  rt_inputSchema tool (tc_args call) = Ok data ->
  match preScreenPermission h call tool data w with
  | SAllow vi ea => rt_inputSchema tool ea = Ok vi
  | SPark _ _ ea => exists d, rt_inputSchema tool ea = Ok d
  | _ => True
  end.
Proof.
  intros Hok. unfold preScreenPermission. cbv zeta.
  assert (Hfin : forall hd hr vi ea, rt_inputSchema tool ea = Ok vi ->
    match (let '(pd, pr) := policy_verdict h tool vi in combine_verdicts hd pd hr pr vi ea) with
    | SAllow vi' ea' => rt_inputSchema tool ea' = Ok vi'
    | SPark _ _ ea' => exists d, rt_inputSchema tool ea' = Ok d
    | _ => True end).
  { intros hd hr vi ea E. destruct (policy_verdict h tool vi) as [pd pr]. pose proof (combine_args hd pd hr pr vi ea) as Hc.
    destruct (combine_verdicts hd pd hr pr vi ea); [destruct Hc as [-> ->]|..]; subst; eauto. }
  destruct (hn_hook h) as [hook|]; [|now apply Hfin].
  destruct (hook call data w) as [v|]; [|done]. case_decide; [done|].
  destruct (ph_updatedInput v) as [u|]; [|now apply Hfin]. destruct (rt_inputSchema tool u) eqn:Eu; [now apply Hfin|done].
Qed.

Lemma screen_runnable call isSub w gi aa mode reason :
  screen_call h call (hn_registry h (tc_toolName call)) isSub w = ScPass gi aa mode reason ->
  (match mode with Some _ => Ok true | None => invokeNeedsApproval h (hn_registry h (tc_toolName call)) call gi w end)
    = Ok (E := string) true ->
  runnable (mkApproval (tc_id call) (tc_toolName call) aa reason mode None).
Proof.
  unfold screen_call, runnable. cbv zeta. cbn [ap_toolName ap_args].
  destruct (hn_registry h (tc_toolName call)) as [t|]; [|intros [= <- <- <- <-]; discriminate].
  destruct (isApprovalGated t) eqn:Eg.
  - cbn [orb]. destruct (rt_inputSchema t (tc_args call)) as [data|] eqn:Ed; [|discriminate].
    pose proof (prescreen_args call t data w Ed) as Hp. destruct (hasPermissionLayer h && negb isSub).
    + destruct (preScreenPermission h call t data w); try discriminate; intros [= <- <- <- <-] _; naive_solver.
    + intros [= <- <- <- <-] _. eauto.
  - assert (Hno : forall gi', invokeNeedsApproval h (Some t) call gi' w = Ok true -> False).
    { intros gi'. unfold invokeNeedsApproval, isApprovalGated in *. destruct (rt_needsApproval t); congruence. }
    cbn [orb]. destruct (hasPermissionLayer h && negb isSub); [|intros [= <- <- <- <-] Hn; now apply Hno in Hn].
    destruct (rt_inputSchema t (tc_args call)) as [data|] eqn:Ed; [|intros [= <- <- <- <-] Hn; now apply Hno in Hn].
    pose proof (prescreen_args call t data w Ed) as Hp.
    destruct (preScreenPermission h call t data w); try discriminate; intros [= <- <- <- <-] Hn;
      [now apply Hno in Hn|naive_solver].
Qed.

(** ** The invariant of the walk *)

(** After the calls [done] of a step: what is queued is untold, everything else
    has one fate, other ids are as before, and a suspension is asked for exactly
    when some call waits or is parked. *)
Record walked (w0 : Walk) (done : list ToolCall) (a : WalkAcc) : Prop := mkWalked {
  wd_untold : forall c, c ∈ wa_batch a -> tally (wa_walk a) (tc_id c) = untold;
  wd_fate : forall c, c ∈ done -> c ∉ wa_batch a -> exists f, tally (wa_walk a) (tc_id c) = fate_tally f;
  wd_other : forall id, id ∉ map tc_id done -> tally (wa_walk a) id = tally w0 id;
  wd_requested : wa_requested a = 0 <->
    forall c, c ∈ done -> c ∉ wa_batch a -> tally (wa_walk a) (tc_id c) = fate_tally Answered;
  wd_batches : exists bs, wk_batches (wa_walk a) = wk_batches w0 ++ bs /\ Forall (fun b => b.2 = false) bs /\
    (concat (map fst bs) ++ wa_batch a) `sublist_of` done;
  wd_pending : forall p, p ∈ rs_pendingApprovals (wk_state (wa_walk a)) ->
    p ∈ rs_pendingApprovals (wk_state w0) \/ ap_subRun p <> None \/ runnable p;
  wd_id : rs_id (wk_state (wa_walk a)) = rs_id (wk_state w0);
}.

Lemma walked_start w : walked w [] (mkAcc w [] 0).
Proof using.
  split; cbn [wa_walk wa_batch wa_requested].
  - intros c Hc. now apply not_elem_of_nil in Hc.
  - intros c Hc. now apply not_elem_of_nil in Hc.
  - done.
  - split; [|done]. intros _ c Hc. now apply not_elem_of_nil in Hc.
  - exists []. now rewrite app_nil_r.
  - intros p Hp. now left.
  - done.
Qed.

Lemma batch_done w0 done a c : walked w0 done a -> c ∈ wa_batch a -> c ∈ done.
Proof using.
  intros Hw Hc. destruct (wd_batches _ _ _ Hw) as (bs & _ & _ & Hs).
  apply (elem_of_submseteq (concat (map fst bs) ++ wa_batch a)); [now apply elem_of_app; right|].
  now apply sublist_submseteq.
Qed.

Lemma same_call (l : list ToolCall) c c' : NoDup (map tc_id l) -> c ∈ l -> c' ∈ l -> tc_id c = tc_id c' -> c = c'.
Proof using.
  intros Hnd Hc Hc' E. apply list_elem_of_lookup in Hc as [i Hi]. apply list_elem_of_lookup in Hc' as [j Hj].
  assert (i = j) as <-; [|congruence].
  apply (NoDup_lookup (map tc_id l) i j (tc_id c)); [done|..]; rewrite list_lookup_fmap; rewrite ?Hi, ?Hj; cbn; congruence.
Qed.

Lemma flush_walked w0 done a :
  NoDup (map tc_id done) -> walked w0 done a -> walked w0 done (flush h a).
Proof using Hexec.
  intros Hnd Hw. pose proof (wd_batches _ _ _ Hw) as (bs & Eb & Hbs & Hsub).
  assert (Hbnd : NoDup (map tc_id (wa_batch a))).
  { eapply sublist_NoDup; [exact Hnd|]. apply fmap_sublist. etrans; [|exact Hsub]. now apply sublist_inserts_l. }
  pose proof (fun id => tally_dispatch (wa_batch a) false (wa_walk a) id Hbnd) as Ht.
  pose proof (dispatch_frame (wa_batch a) false (wa_walk a)) as (Fb & Fs & Fp & Fst & Fid).
  assert (Hq : forall c, c ∈ wa_batch a -> tally (dispatchToolBatch h (wa_batch a) false (wa_walk a)) (tc_id c) = fate_tally Answered).
  { intros c Hc. rewrite Ht, (wd_untold _ _ _ Hw c Hc), count_nodup; [done|done|]. now apply (list_elem_of_fmap_2 tc_id). }
  assert (Ho : forall id, id ∉ map tc_id (wa_batch a) ->
    tally (dispatchToolBatch h (wa_batch a) false (wa_walk a)) id = tally (wa_walk a) id).
  { intros id Hn. now rewrite Ht, count_absent, answered_more_0. }
  assert (Hsplit : forall c, c ∈ done -> c ∉ wa_batch a -> tc_id c ∉ map tc_id (wa_batch a)).
  { intros c Hc Hn (c' & E & Hc')%list_elem_of_fmap. apply Hn.
    rewrite (same_call done c c'); [done|done|done| |done]. eapply batch_done; done. }
  unfold flush. split; cbn [wa_walk wa_batch wa_requested].
  - intros c Hc. inversion Hc.
  - intros c Hc _. destruct (decide (c ∈ wa_batch a)) as [Hb|Hb]; [exists Answered; auto|].
    rewrite Ho by auto. apply (wd_fate _ _ _ Hw); done.
  - intros id Hn. rewrite Ho; [now apply (wd_other _ _ _ Hw)|]. intros (c & -> & Hc)%list_elem_of_fmap. apply Hn.
    apply (list_elem_of_fmap_2 tc_id). eapply batch_done; done.
  - rewrite (wd_requested _ _ _ Hw). split; intros H c Hc Hn.
    + destruct (decide (c ∈ wa_batch a)) as [Hb|Hb]; [auto|]. rewrite Ho by auto. auto.
    + rewrite <- Ho by auto. apply H; [done|]. intros Hin. inversion Hin.
  - exists (bs ++ batch_of (wa_batch a) false). rewrite Fb, Eb, (assoc_L (++)). split; [done|]. split.
    + apply Forall_app. split; [done|]. unfold batch_of. destruct (wa_batch a); repeat constructor.
    + rewrite map_app, concat_app, app_nil_r. replace (concat (map fst (batch_of (wa_batch a) false))) with (wa_batch a); [done|].
      unfold batch_of. destruct (wa_batch a); cbn; [done|]. now rewrite app_nil_r.
  - intros p. rewrite Fp. apply (wd_pending _ _ _ Hw).
  - rewrite Fid. apply (wd_id _ _ _ Hw).
Qed.

(** A call that meets its fate. *)
Lemma walked_fate w0 done a c w' f :
  walked w0 done a -> tc_id c ∉ map tc_id done ->
  tally w' (tc_id c) = fate_tally f ->
  (forall id, id <> tc_id c -> tally w' id = tally (wa_walk a) id) ->
  wk_batches w' = wk_batches (wa_walk a) -> rs_id (wk_state w') = rs_id (wk_state (wa_walk a)) ->
  (forall p, p ∈ rs_pendingApprovals (wk_state w') ->
     p ∈ rs_pendingApprovals (wk_state (wa_walk a)) \/ ap_subRun p <> None \/ runnable p) ->
  walked w0 (done ++ [c]) (mkAcc w' (wa_batch a) (match f with Answered => wa_requested a | _ => S (wa_requested a) end)).
Proof using.
  clear Hexec.
  intros Hw Hfresh Hf Ho Hb Hid Hp. destruct (wd_batches _ _ _ Hw) as (bs & Eb & Hbs & Hsub).
  assert (Hne : forall c', c' ∈ done -> tc_id c' <> tc_id c).
  { intros c' Hc' E. apply Hfresh. rewrite <- E. now apply (list_elem_of_fmap_2 tc_id). }
  split; cbn [wa_walk wa_batch wa_requested].
  - intros c' Hc'. rewrite Ho; [now apply (wd_untold _ _ _ Hw)|]. apply Hne. eapply batch_done; done.
  - intros c' [Hc'|Hc'%list_elem_of_singleton]%elem_of_app Hn; [|subst; eauto].
    rewrite Ho by auto. apply (wd_fate _ _ _ Hw); done.
  - intros id Hn. rewrite map_app in Hn. rewrite Ho; [apply (wd_other _ _ _ Hw); set_solver|set_solver].
  - assert (Hreq : wa_requested a = 0 /\ f = Answered <->
      (match f with Answered => wa_requested a | _ => S (wa_requested a) end) = 0) by (destruct f; naive_solver lia).
    rewrite <- Hreq, (wd_requested _ _ _ Hw). split.
    + intros [H ->] c' [Hc'|Hc'%list_elem_of_singleton]%elem_of_app Hn; [rewrite Ho; auto|now subst].
    + intros H. split.
      * intros c' Hc' Hn. rewrite <- Ho by auto. apply H; [|done]. now apply elem_of_app; left.
      * assert (E : tally w' (tc_id c) = fate_tally Answered).
        { apply H; [now apply elem_of_app; right; left|]. intros Hin. apply (Hne c); [|done]. eapply batch_done; done. }
        rewrite Hf in E. destruct f; [done|discriminate|discriminate].
  - exists bs. rewrite Hb. split; [done|]. split; [done|]. now apply sublist_inserts_r.
  - intros p Hin. destruct (Hp p Hin) as [Hin'|H']; [now apply (wd_pending _ _ _ Hw)|auto].
  - rewrite Hid. apply (wd_id _ _ _ Hw).
Qed.

Lemma mirror_frame key approvals w :
  let w' := mirror_all key approvals w in
  wk_batches w' = wk_batches w /\ wk_saved w' = wk_saved w /\ rs_id (wk_state w') = rs_id (wk_state w) /\
  rs_pendingSubRuns (wk_state w') = rs_pendingSubRuns (wk_state w) /\ rs_status (wk_state w') = rs_status (wk_state w) /\
  exists ms, rs_pendingApprovals (wk_state w') = rs_pendingApprovals (wk_state w) ++ ms /\
             Forall (fun p => ap_subRun p <> None) ms.
Proof using.
  cbv zeta. revert w. induction approvals as [|a approvals IH]; intros w.
  - cbn. do 5 (split; [done|]). exists []. now rewrite app_nil_r.
  - set (w1 := yield_events [EvApprovalRequested (ap_toolCallId a) None (ap_reason a)]
      (on_state (fun s => set_pending (rs_pendingApprovals s ++ [mirror key a]) s) w)).
    change (mirror_all key (a :: approvals) w) with (mirror_all key approvals w1).
    destruct (IH w1) as (E1 & E2 & E3 & E4 & E5 & ms & E6 & Hms). rewrite E1, E2, E3, E4, E5. do 5 (split; [done|]).
    exists (mirror key a :: ms). rewrite E6. cbn. rewrite <- (assoc_L (++)). split; [done|]. now constructor.
Qed.

Definition parked_more (n : nat) (t : Tally) : Tally :=
  mkTally (ta_buffer t) (ta_durable t) (ta_waiting t) (ta_parked t + n).

(** A child's call is answered, or parked with a suspension asked for. *)
Lemma child_fate call name label taints n w :
  ta_parked (tally w (tc_id call)) = 0 ->
  let '(w', suspended) := runSubAgentCall U containsPii dataFlow h call name label taints n w in
  (forall id, tally w' id = (if suspended then parked_more else answered_more) (one (tc_id call) id) (tally w id)) /\
  wk_batches w' = wk_batches w /\ rs_id (wk_state w') = rs_id (wk_state w) /\
  (forall p, p ∈ rs_pendingApprovals (wk_state w') -> p ∈ rs_pendingApprovals (wk_state w) \/ ap_subRun p <> None).
Proof using.
  intros H0. unfold runSubAgentCall. set (child := hn_child h call w).
  assert (Hsettle : forall c,
    (forall id, tally (settle_outcome call c w) id = answered_more (one (tc_id call) id) (tally w id)) /\
    wk_batches (settle_outcome call c w) = wk_batches w /\ rs_id (wk_state (settle_outcome call c w)) = rs_id (wk_state w) /\
    (forall p, p ∈ rs_pendingApprovals (wk_state (settle_outcome call c w)) ->
       p ∈ rs_pendingApprovals (wk_state w) \/ ap_subRun p <> None)).
  { intros c. destruct (settle_framed call c w) as [-> _ -> _ _ ->]. split; [|auto]. intros id. now rewrite tally_settle. }
  assert (Hdone : forall w1 c t, tally w1 = tally w -> wk_batches w1 = wk_batches w -> rs_id (wk_state w1) = rs_id (wk_state w) ->
    rs_pendingApprovals (wk_state w1) = rs_pendingApprovals (wk_state w) ->
    let w' := push_both (MTool (tc_id call) t) (yield_events [EvToolEnd (tc_id call)] (journal c w1)) in
    (forall id, tally w' id = answered_more (one (tc_id call) id) (tally w id)) /\
    wk_batches w' = wk_batches w /\ rs_id (wk_state w') = rs_id (wk_state w) /\
    (forall p, p ∈ rs_pendingApprovals (wk_state w') -> p ∈ rs_pendingApprovals (wk_state w) \/ ap_subRun p <> None)).
  { intros w1 c t Et Eb Ei Ep. cbn. rewrite Eb, Ei, Ep. split; [|auto]. intros id. rewrite tally_push, answers_tool.
    change (tally (yield_events ?es (journal c w1)) id) with (tally w1 id). rewrite Et. unfold answered_more, one.
    now repeat case_decide. }
  assert (Hguard : forall g, tally (set_guard g w) = tally w) by done.
  destruct (ch_result child) as [[[[] cs] err]|]; try apply Hsettle;
    try (apply Hdone; cbn; repeat case_match; done).
  set (w1 := on_state _ w). destruct (mirror_frame (tc_id call) (rs_pendingApprovals cs) w1) as (E1 & _ & E3 & _ & _ & ms & E6 & Hms).
  rewrite E1, E3, E6. split; [|split; [done|split]].
  - intros id. rewrite tally_mirror. unfold w1. now rewrite tally_park.
  - unfold w1, parkSubRun. cbn. now destruct (existsb _ _).
  - intros p [Hp|Hp]%elem_of_app; [left|right; now apply (proj1 (Forall_forall _ _) Hms)].
    revert Hp. unfold w1, parkSubRun. cbn. now destruct (existsb _ _).
Qed.

Lemma one_self id : one id id = 1.
Proof using. unfold one. now rewrite decide_True. Qed.

Lemma one_other id id' : id' <> id -> one id id' = 0.
Proof using. intros Hne. unfold one. now rewrite decide_False. Qed.

(** A call that is failed without being run. *)
Lemma fail_walked w0 done a c e n :
  tc_id c ∉ map tc_id done -> tally w0 (tc_id c) = untold -> walked w0 done a ->
  walked w0 (done ++ [c]) (on_walk (failFast c e n) a).
Proof using.
  intros Hfresh H0 Hw. apply (walked_fate w0 done a c (failFast c e n (wa_walk a)) Answered); try done.
  - now rewrite tally_fail, (wd_other _ _ _ Hw) by done; rewrite H0, one_self.
  - intros id Hne. rewrite tally_fail, one_other by done. apply (answered_more_0 (tally (wa_walk a) id)).
  - intros p Hp. left. exact Hp.
Qed.

(** A child's call, after the batch before it. *)
Lemma child_walked w0 done a c name label taints n :
  NoDup (map tc_id done) -> tc_id c ∉ map tc_id done -> tally w0 (tc_id c) = untold -> walked w0 done a ->
  walked w0 (done ++ [c]) (run_child h (fun w => runSubAgentCall U containsPii dataFlow h c name label taints n
                             (yield_events [EvToolStart (tc_id c)] w)) a).
Proof using Hexec.
  intros Hnd Hfresh H0 Hw. apply flush_walked in Hw; [|done]. unfold run_child. set (a1 := flush h a) in *.
  assert (Ec : tally (wa_walk a1) (tc_id c) = untold) by now rewrite (wd_other _ _ _ Hw).
  pose proof (child_fate c name label taints n (yield_events [EvToolStart (tc_id c)] (wa_walk a1))) as Hc.
  change (tally (yield_events ?es ?w)) with (tally w) in Hc. rewrite Ec in Hc. specialize (Hc eq_refl).
  destruct (runSubAgentCall _ _ _ _ _ _ _ _ _ _) as [w' susp]. destruct Hc as (Ht & Eb & Ei & Hp).
  replace (mkAcc w' [] _) with (mkAcc w' (wa_batch a1)
    (match (if susp then Parked else Answered) with Answered => wa_requested a1 | _ => S (wa_requested a1) end))
    by now destruct susp.
  apply walked_fate; try done.
  - rewrite Ht, Ec, one_self. now destruct susp.
  - intros id Hne. rewrite Ht, one_other by done. change (tally (yield_events ?es ?w)) with (tally w).
    destruct susp; [|apply answered_more_0]. destruct (tally (wa_walk a1) id). unfold parked_more. cbn. now rewrite Nat.add_0_r.
  - intros p Hin. destruct (Hp p Hin); auto.
Qed.

(** A call that waits for an approval, after the batch before it. *)
Lemma park_walked w0 done a c args mode reason :
  NoDup (map tc_id done) -> tc_id c ∉ map tc_id done -> tally w0 (tc_id c) = untold -> walked w0 done a ->
  runnable (mkApproval (tc_id c) (tc_toolName c) args reason mode None) ->
  walked w0 (done ++ [c]) (park_call h c args mode reason a).
Proof using Hexec.
  intros Hnd Hfresh H0 Hw Hr. apply flush_walked in Hw; [|done]. unfold park_call. set (a1 := flush h a) in *.
  set (p0 := mkApproval _ _ _ _ _ _) in *. set (w' := yield_events _ _).
  assert (Ht : forall id, tally w' id = mkTally (ta_buffer (tally (wa_walk a1) id)) (ta_durable (tally (wa_walk a1) id))
    (ta_waiting (tally (wa_walk a1) id) + one (tc_id c) id) (ta_parked (tally (wa_walk a1) id))).
  { intros id. unfold tally, w', on_state. cbn. rewrite count_app, count_one. unfold own at 2, one. cbn. now repeat case_decide. }
  apply (walked_fate w0 done a1 c w' Waiting); try done.
  - now rewrite Ht, (wd_other _ _ _ Hw), H0, one_self by done.
  - intros id Hne. rewrite Ht, one_other by done. destruct (tally (wa_walk a1) id). cbn. now rewrite Nat.add_0_r.
  - intros p. unfold w', on_state. cbn. intros [Hp|Hp%list_elem_of_singleton]%elem_of_app; [now left|]. subst. auto.
Qed.

(** A call that is queued. *)
Lemma queue_walked w0 done a c :
  tc_id c ∉ map tc_id done -> tally w0 (tc_id c) = untold -> walked w0 done a ->
  walked w0 (done ++ [c]) (mkAcc (wa_walk a) (wa_batch a ++ [c]) (wa_requested a)).
Proof using.
  clear Hexec.
  intros Hfresh H0 Hw. destruct (wd_batches _ _ _ Hw) as (bs & Eb & Hbs & Hsub).
  assert (Hsame : forall c', c' ∈ done ++ [c] -> c' ∉ wa_batch a ++ [c] -> c' ∈ done /\ c' ∉ wa_batch a) by set_solver.
  split; cbn [wa_walk wa_batch wa_requested].
  - intros c' [Hc|Hc%list_elem_of_singleton]%elem_of_app; [now apply (wd_untold _ _ _ Hw)|]. subst. now rewrite (wd_other _ _ _ Hw).
  - intros c' Hc Hn. destruct (Hsame c' Hc Hn). now apply (wd_fate _ _ _ Hw).
  - intros id Hn. apply (wd_other _ _ _ Hw). rewrite map_app in Hn. set_solver.
  - rewrite (wd_requested _ _ _ Hw). split; intros H c' Hc Hn.
    + destruct (Hsame c' Hc Hn). auto.
    + apply H; [now apply elem_of_app; left|]. intros [?|E%list_elem_of_singleton]%elem_of_app; [contradiction|]. subst.
      apply Hfresh. now apply (list_elem_of_fmap_2 tc_id).
  - exists bs. split; [done|]. split; [done|]. rewrite (assoc_L (++)). now apply sublist_app.
  - apply (wd_pending _ _ _ Hw).
  - apply (wd_id _ _ _ Hw).
Qed.

Lemma walk_call_walked w0 done a c n a' :
  NoDup (map tc_id done) -> tc_id c ∉ map tc_id done -> tally w0 (tc_id c) = untold -> walked w0 done a ->
  walk_call U containsPii dataFlow h n c a = Ok a' -> walked w0 (done ++ [c]) a'.
Proof using Hexec.
  intros Hnd Hfresh H0 Hw. unfold walk_call. cbv zeta.
  destruct (denies_name h (tc_toolName c)); [|intros [= <-]; now apply fail_walked].
  destruct (hn_isHandoff h (tc_toolName c)) as [target|]; [intros [= <-]; now apply child_walked|].
  destruct (screen_call h c _ _ (wa_walk a)) as [e|gi aa mode reason] eqn:Es; [intros [= <-]; now apply fail_walked|].
  destruct (match mode with Some _ => _ | None => _ end) as [[]|] eqn:En; [| |discriminate].
  { intros [= <-]. apply park_walked; try done. eapply screen_runnable; [exact Es|exact En]. }
  destruct (hn_registry h (tc_toolName c) ≫= _) as [target|]; intros [= <-]; [now apply child_walked|now apply queue_walked].
Qed.

Lemma walk_walked w0 calls n done a a' :
  NoDup (map tc_id (done ++ calls)) -> (forall c, c ∈ calls -> tally w0 (tc_id c) = untold) -> walked w0 done a ->
  foldM (fun a c => walk_call U containsPii dataFlow h n c a) a calls = Ok a' -> walked w0 (done ++ calls) a'.
Proof using Hexec.
  revert done a. induction calls as [|c calls IH]; intros done a Hnd H0 Hw; cbn [foldM].
  - intros [= <-]. now rewrite app_nil_r.
  - intros (a1 & E1 & E2)%rbind_Ok. rewrite map_app in Hnd. cbn [map] in Hnd.
    replace (done ++ c :: calls) with ((done ++ [c]) ++ calls) by now rewrite <- (assoc_L (++)).
    eapply IH; [| |eapply walk_call_walked; [| | |exact Hw|exact E1]|exact E2].
    + rewrite !map_app. cbn [map]. now rewrite <- (assoc_L (++)).
    + intros c' Hc'. apply H0. now right.
    + now apply NoDup_app in Hnd as [? _].
    + apply NoDup_app in Hnd as (_ & Hd & _). intros Hin. apply (Hd _ Hin). left.
    + apply H0. left.
Qed.

End Steps.

Lemma suspend_frame dataFlow h a :
  let '(w', fin) := suspend_step dataFlow h a in
  tally w' = tally (wa_walk a) /\ wk_batches w' = wk_batches (wa_walk a) /\ wk_guard w' = wk_guard (wa_walk a) /\
  rs_pendingApprovals (wk_state w') = rs_pendingApprovals (wk_state (wa_walk a)) /\
  (fin = Continues <-> wa_requested a = 0) /\
  (fin <> Continues -> rs_status (wk_state w') = StAwaitingApproval /\
     forall cfg snap, dataFlow = Some cfg -> snapshotLedger (rs_id (wk_state w')) (wk_guard w') = Some snap ->
     rs_taintSummary (wk_state w') = Some snap).
Proof.
  unfold suspend_step. destruct (wa_requested a) as [|k]; [done|].
  set (snap0 := match dataFlow with Some _ => _ | None => None end). set (w1 := on_state _ (wa_walk a)).
  assert (H1 : tally w1 = tally (wa_walk a) /\ wk_batches w1 = wk_batches (wa_walk a) /\ wk_guard w1 = wk_guard (wa_walk a) /\
    rs_pendingApprovals (wk_state w1) = rs_pendingApprovals (wk_state (wa_walk a)) /\
    rs_status (wk_state w1) = StAwaitingApproval /\
    (forall cfg snap, dataFlow = Some cfg -> snapshotLedger (rs_id (wk_state w1)) (wk_guard w1) = Some snap ->
       rs_taintSummary (wk_state w1) = Some snap)).
  { unfold w1, snap0. destruct dataFlow; [|done]. cbn.
    destruct (snapshotLedger (rs_id (wk_state (wa_walk a))) (wk_guard (wa_walk a))) as [sn|] eqn:Es; cbn;
      do 5 (split; [done|]); intros cfg snap _ Hq; unfold snapshotLedger in *; cbn in *; congruence. }
  destruct H1 as (E1 & E2 & E3 & E4 & E5 & E6).
  destruct (hn_aborted h w1); [|destruct (hn_store h)]; cbn [wk_batches wk_guard wk_state save]; naive_solver.
Qed.

(** The account of a step. *)
Lemma step_spec U containsPii dataFlow h n calls w w' fin :
  executor_answers h -> NoDup (map tc_id calls) -> (forall c, c ∈ calls -> tally w (tc_id c) = untold) ->
  processStepToolCalls U containsPii dataFlow h n calls w = Ok (w', fin) ->
  (forall c, c ∈ calls -> exists f, tally w' (tc_id c) = fate_tally f) /\
  (forall id, id ∉ map tc_id calls -> tally w' id = tally w id) /\
  (fin = Continues <-> forall c, c ∈ calls -> tally w' (tc_id c) = fate_tally Answered) /\
  (fin <> Continues -> rs_status (wk_state w') = StAwaitingApproval /\
     forall cfg snap, dataFlow = Some cfg -> snapshotLedger (rs_id (wk_state w')) (wk_guard w') = Some snap ->
     rs_taintSummary (wk_state w') = Some snap) /\
  (exists bs, wk_batches w' = wk_batches w ++ bs /\ Forall (fun b => b.2 = false) bs /\
     concat (map fst bs) `sublist_of` calls) /\
  (forall a, a ∈ rs_pendingApprovals (wk_state w') ->
     a ∈ rs_pendingApprovals (wk_state w) \/ ap_subRun a <> None \/ runnable h a).
Proof.
  intros Hexec Hnd H0. unfold processStepToolCalls.
  destruct (foldM _ (mkAcc w [] 0) calls) as [a|] eqn:Ef; [|discriminate]. intros [= E].
  pose proof (walk_walked U containsPii dataFlow h Hexec w calls n [] _ a Hnd H0 (walked_start h w) Ef) as Hw.
  cbn [app] in Hw. apply (flush_walked h Hexec) in Hw; [|exact Hnd].
  pose proof (suspend_frame dataFlow h (flush h a)) as Hs. rewrite E in Hs. destruct Hs as (Et & Eb & _ & Ep & Er & Ez).
  destruct (wd_batches _ _ _ _ Hw) as (bs & Ebs & Hbs & Hsub).
  assert (Hnb : forall c, c ∉ wa_batch (flush h a)) by (intros c; apply not_elem_of_nil).
  rewrite Et. split; [intros c Hc; now apply (wd_fate _ _ _ _ Hw)|]. split; [apply (wd_other _ _ _ _ Hw)|].
  split; [rewrite Er, (wd_requested _ _ _ _ Hw); naive_solver|]. split; [exact Ez|]. split.
  - exists bs. rewrite Eb. split; [done|]. split; [done|]. cbn [wa_batch flush] in Hsub. now rewrite app_nil_r in Hsub.
  - intros p. rewrite Ep. apply (wd_pending _ _ _ _ Hw).
Qed.

(** ** Resumes *)

Arguments answered_in : simpl never.

Definition is_own (a : ToolApproval) : bool := bool_decide (ap_subRun a = None).

(** The approvals of a directive: undecided, denied, granted, and granted with
    the call not run before. *)
Definition undecided (ds : list ResumeDecision) (a : ToolApproval) : bool :=
  match decision_for ds a with None => true | Some _ => false end.
Definition granted (ds : list ResumeDecision) (a : ToolApproval) : bool :=
  match decision_for ds a with Some d => dc_granted d | None => false end.
Definition denied_own (ds : list ResumeDecision) (a : ToolApproval) : bool :=
  is_own a && match decision_for ds a with Some d => negb (dc_granted d) | None => false end.
Definition replayed (w : Walk) (id : string) : bool := journaled_call (wk_state w) id && answered_in id (wk_buffer w).
Definition fresh_grant (ds : list ResumeDecision) (w : Walk) (a : ToolApproval) : bool :=
  is_own a && granted ds a && negb (replayed w (ap_toolCallId a)).

Definition denial_of (ds : list ResumeDecision) (a : ToolApproval) : Message :=
  denial (ap_toolCallId a) (decision_for ds a ≫= dc_reason).

Definition own_ids (ps : list ToolApproval) : list string := map ap_toolCallId (List.filter is_own ps).

Lemma own_ids_app ps qs : own_ids (ps ++ qs) = own_ids ps ++ own_ids qs.
Proof. unfold own_ids. now rewrite List.filter_app, map_app. Qed.

Lemma answered_in_app id ms1 ms2 : answered_in id (ms1 ++ ms2) = answered_in id ms1 || answered_in id ms2.
Proof. apply existsb_app. Qed.

Lemma answered_in_count id ms : answered_in id ms = true <-> 1 <= count (answers id) ms.
Proof.
  unfold answered_in. induction ms as [|m ms IH]; cbn [existsb]; [rewrite count_nil; split; [discriminate|lia]|].
  replace (match m with MTool i _ => bool_decide (i = id) | _ => false end) with (answers id m)
    by (destruct m; [done|apply answers_tool|done]).
  rewrite count_cons, orb_true_iff, IH. destruct (answers id m); split; [lia|now left|intros [?|?]; [discriminate|lia]|right; lia].
Qed.

Record deciding (ds : list ResumeDecision) (w : Walk) (done : list ToolApproval) (r : Resumed) : Prop := mkDeciding {
  dg_pending : re_pending r = List.filter (undecided ds) done;
  dg_granted : re_granted r = List.filter (fresh_grant ds w) done;
  dg_buffer : wk_buffer (re_walk r) = wk_buffer w ++ map (denial_of ds) (List.filter (denied_own ds) done);
  dg_messages : rs_messages (wk_state (re_walk r)) =
    rs_messages (wk_state w) ++ map (denial_of ds) (List.filter (denied_own ds) done);
  dg_batches : wk_batches (re_walk r) = wk_batches w;
  dg_saved : wk_saved (re_walk r) = wk_saved w;
  dg_steps : rs_steps (wk_state (re_walk r)) = rs_steps (wk_state w);
  dg_subRuns : rs_pendingSubRuns (wk_state (re_walk r)) = rs_pendingSubRuns (wk_state w);
  dg_status : rs_status (wk_state (re_walk r)) = rs_status (wk_state w);
}.

Lemma denials_elsewhere ds done id :
  id ∉ own_ids done -> answered_in id (map (denial_of ds) (List.filter (denied_own ds) done)) = false.
Proof.
  intros Hn. apply not_true_iff_false. unfold answered_in. rewrite existsb_exists. intros (m & Hin & Hm).
  apply in_map_iff in Hin as (a & <- & Ha). apply filter_In in Ha as [Ha Hd]. apply bool_decide_eq_true in Hm. apply Hn.
  apply andb_true_iff in Hd as [Ho _]. rewrite <- Hm. apply (list_elem_of_fmap_2 ap_toolCallId), list_elem_of_In, filter_In. auto.
Qed.

Lemma decide_step ds w done r a :
  NoDup (own_ids (done ++ [a])) -> deciding ds w done r ->
  deciding ds w (done ++ [a]) (decide_approval ds (journaled_call (wk_state w)) r a).
Proof.
  intros Hnd [E1 E2 E3 E4 E5 E6 E7 E8 E9]. rewrite own_ids_app in Hnd. apply NoDup_app in Hnd as (_ & Hdis & _).
  unfold decide_approval.
  assert (Hgrow : forall (f : ToolApproval -> bool) (b : bool), f a = b ->
    List.filter f (done ++ [a]) = List.filter f done ++ if b then [a] else []).
  { intros f b <-. rewrite List.filter_app. cbn. now destruct (f a). }
  destruct (decision_for ds a) as [d|] eqn:Ed.
  2: { split; cbn [re_pending re_granted re_walk]; try done; rewrite ?E1, ?E2, ?E3, ?E4.
       - symmetry. apply (Hgrow _ true). unfold undecided. now rewrite Ed.
       - symmetry. rewrite (Hgrow _ false), app_nil_r; [done|]. unfold fresh_grant, granted. rewrite Ed. now rewrite andb_false_r.
       - rewrite (Hgrow _ false), app_nil_r; [done|]. unfold denied_own. rewrite Ed. now rewrite andb_false_r.
       - rewrite (Hgrow _ false), app_nil_r; [done|]. unfold denied_own. rewrite Ed. now rewrite andb_false_r. }
  assert (Hu : List.filter (undecided ds) (done ++ [a]) = List.filter (undecided ds) done).
  { rewrite (Hgrow _ false); [apply app_nil_r|]. unfold undecided. now rewrite Ed. }
  destruct (ap_subRun a) as [path|] eqn:Ep.
  - assert (Hno : is_own a = false) by (unfold is_own; now rewrite Ep).
    destruct (splitSubRunPath path) as [hd rest]. split; cbn; try done; rewrite ?Hu; try done.
    + rewrite (Hgrow _ false), app_nil_r; [done|]. unfold fresh_grant. now rewrite Hno.
    + rewrite (Hgrow _ false), app_nil_r; [done|]. unfold denied_own. now rewrite Hno.
    + rewrite (Hgrow _ false), app_nil_r; [done|]. unfold denied_own. now rewrite Hno.
  - assert (Hown : is_own a = true) by (unfold is_own; now rewrite Ep).
    assert (Hel : ap_toolCallId a ∉ own_ids done).
    { intros Hin. apply (Hdis _ Hin). unfold own_ids. cbn. rewrite Hown. left. }
    destruct (dc_granted d) eqn:Eg.
    + assert (Hd : List.filter (denied_own ds) (done ++ [a]) = List.filter (denied_own ds) done).
      { rewrite (Hgrow _ false), app_nil_r; [done|]. unfold denied_own. rewrite Ed, Eg. now rewrite andb_false_r. }
      assert (Hrep : journaled_call (wk_state w) (ap_toolCallId a) && answered_in (ap_toolCallId a) (wk_buffer (re_walk r))
                     = replayed w (ap_toolCallId a)).
      { unfold replayed. now rewrite E3, answered_in_app, denials_elsewhere, orb_false_r. }
      cbn [wk_buffer yield_events]. rewrite Hrep. destruct (replayed w (ap_toolCallId a)) eqn:Er.
      * split; cbn; rewrite ?Hu, ?Hd; try done. rewrite (Hgrow _ false), app_nil_r; [done|].
        unfold fresh_grant. rewrite Er. now rewrite andb_false_r.
      * split; cbn; rewrite ?Hu, ?Hd; try done. rewrite (Hgrow _ true); [now rewrite E2|].
        unfold fresh_grant, granted. now rewrite Hown, Ed, Eg, Er.
    + assert (Hd : List.filter (denied_own ds) (done ++ [a]) = List.filter (denied_own ds) done ++ [a]).
      { apply (Hgrow _ true). unfold denied_own. now rewrite Hown, Ed, Eg. }
      assert (Hm : denial_of ds a = denial (ap_toolCallId a) (dc_reason d)) by (unfold denial_of; now rewrite Ed).
      split; cbn; rewrite ?Hu, ?Hd, ?map_app; try done.
      * rewrite (Hgrow _ false), app_nil_r; [done|]. unfold fresh_grant, granted. rewrite Ed, Eg. now rewrite andb_false_r.
      * cbn. now rewrite E3, Hm, <- (assoc_L (++)).
      * cbn. now rewrite E4, Hm, <- (assoc_L (++)).
Qed.

Lemma directive_deciding ds w :
  NoDup (own_ids (rs_pendingApprovals (wk_state w))) ->
  exists r, deciding ds w (rs_pendingApprovals (wk_state w)) r /\
    processResumeDirective ds w =
    mkResumed (on_state (fun s => let s' := set_pending (re_pending r) s in
                 match re_pending r with [] => with_status StRunning (rs_error s') s' | _ => s' end) (re_walk r))
      (re_granted r) (re_pending r) (re_routed r).
Proof.
  intros Hnd. eexists. split; [|reflexivity]. set (ps := rs_pendingApprovals (wk_state w)) in *. clearbody ps.
  induction ps as [|a ps IH] using rev_ind; [split; cbn; now rewrite ?app_nil_r|].
  rewrite foldl_app. cbn [foldl]. apply decide_step; [done|]. apply IH. rewrite own_ids_app in Hnd.
  now apply NoDup_app in Hnd as [? _].
Qed.

(** What the parked children leave alone: the batches and this run's own
    approvals; answers are only added. *)
Record spares (w w' : Walk) : Prop := mkSpares {
  sp_batches : wk_batches w' = wk_batches w;
  sp_own : List.filter is_own (rs_pendingApprovals (wk_state w')) = List.filter is_own (rs_pendingApprovals (wk_state w));
  sp_buffer : forall id, answered_in id (wk_buffer w) = true -> answered_in id (wk_buffer w') = true;
  sp_durable : forall id, answered_in id (rs_messages (wk_state w)) = true -> answered_in id (rs_messages (wk_state w')) = true;
  sp_failed : rs_status (wk_state w) <> StFailed -> rs_status (wk_state w') <> StFailed;
}.

Lemma spares_trans w1 w2 w3 : spares w1 w2 -> spares w2 w3 -> spares w1 w3.
Proof. intros [] []. split; [congruence|congruence|auto|auto|auto]. Qed.

Lemma spares_push m w : spares w (push_both m w).
Proof. split; try done; cbn; intros id; rewrite answered_in_app; now intros ->. Qed.

Lemma spares_settle call c w : spares w (settle_outcome call c w).
Proof.
  assert (Hq : forall es, spares w (yield_events es (journal c w))) by done.
  unfold settle_outcome. destruct (cc_outcome c); (eapply spares_trans; [apply Hq|apply spares_push]).
Qed.

Lemma filter_mirrors ms : Forall (fun p => ap_subRun p <> None) ms -> List.filter is_own ms = [].
Proof.
  induction 1 as [|p ms Hp _ IH]; [done|]. cbn. unfold is_own at 1. now rewrite bool_decide_eq_false_2.
Qed.

Lemma filter_keep_own key ps :
  List.filter is_own (List.filter (fun a => negb (mirrors_of key a)) ps) = List.filter is_own ps.
Proof.
  induction ps as [|p ps IH]; [done|]. cbn. destruct (mirrors_of key p) eqn:Em; cbn [negb].
  - rewrite IH. unfold mirrors_of in Em. unfold is_own at 2. destruct (ap_subRun p); [now rewrite bool_decide_eq_false_2|done].
  - cbn. now rewrite IH.
Qed.

Lemma mirror_buffers key approvals w :
  wk_buffer (mirror_all key approvals w) = wk_buffer w /\
  rs_messages (wk_state (mirror_all key approvals w)) = rs_messages (wk_state w).
Proof. unfold mirror_all. revert w. induction approvals as [|a approvals IH]; intros w; cbn [foldl]; [done|]. now rewrite !(proj1 (IH _)), !(proj2 (IH _)). Qed.

(** When the loop is entered again, nothing waits. *)
Definition guarded (s : RunState) : Prop :=
  rs_status s = StAwaitingApproval \/ (rs_status s = StAborted /\ rs_pendingApprovals s <> []) \/ rs_pendingApprovals s = [].

Lemma reparked_spares key p cs w :
  let w1 := on_state (fun s => set_pending (List.filter (fun a => negb (mirrors_of key a)) (rs_pendingApprovals s))
              (set_subRuns (update_parked key (Some p) (rs_pendingSubRuns s)) s)) w in
  spares w (on_state (fun s => with_status StAwaitingApproval (rs_error s) s) (mirror_all key cs w1)).
Proof.
  cbv zeta. set (w1 := on_state _ w). destruct (mirror_frame key cs w1) as (E1 & _ & _ & _ & _ & ms & E6 & Hms).
  destruct (mirror_buffers key cs w1) as [E7 E8]. split; cbn; rewrite ?E1, ?E6, ?E7, ?E8; try done.
  rewrite List.filter_app, (filter_mirrors ms Hms), app_nil_r. apply filter_keep_own.
Qed.

Lemma parked_spares h n w e w' :
  resume_parked h n w e = Ok w' -> spares w w' /\ (guarded (wk_state w) -> guarded (wk_state w')).
Proof.
  unfold resume_parked. destruct e as [key decisions]. destruct (find_parked key (wk_state w)) as [p|] eqn:Ef; [|discriminate].
  assert (pk_toolCallId p = key) as Ek by (apply find_some in Ef as [_ Ef]; now apply bool_decide_eq_true in Ef).
  set (w1 := yield_events _ w). set (child := hn_resumeChild h p decisions w1). set (call := mkCall _ _ _).
  set (w2 := on_state (fun s => set_subRuns (update_parked key None (rs_pendingSubRuns s)) s) w1).
  assert (Hw1 : spares w w1) by done. assert (Hw2 : spares w w2) by done.
  assert (Hset : forall c, spares w (settle_outcome call c w2) /\ (guarded (wk_state w) -> guarded (wk_state (settle_outcome call c w2)))).
  { intros c. split; [eapply spares_trans; [exact Hw2|apply spares_settle]|]. unfold guarded. now destruct (settle_framed call c w2) as [_ _ -> _ -> _]. }
  assert (Hend : forall c m, let w3 := push_both m (yield_events [EvToolEnd (tc_id call)] (journal c w2)) in
    spares w w3 /\ (guarded (wk_state w) -> guarded (wk_state w3))).
  { intros c m. split; [|done]. eapply spares_trans; [|apply spares_push]. done. }
  destruct (hn_isHandoff h (pk_toolName p)), (hn_registry h (pk_toolName p) ≫= (fun _ => hn_isSubAgent h (pk_toolName p))); try discriminate;
    (destruct (ch_result child) as [[[[] cs] err]|]; intros [= <-]; try apply Hset; try apply Hend;
     (split; [rewrite Ek; eapply spares_trans; [exact Hw1|apply (reparked_spares key)]|intros _; now left])).
Qed.

Lemma routed_spares h routed w w' :
  processSubRunResumes h routed w = Ok w' -> spares w w' /\ (guarded (wk_state w) -> guarded (wk_state w')).
Proof.
  unfold processSubRunResumes. destruct routed as [|e routed]; [now intros [= <-]|].
  set (w1 := on_state _ w). destruct (foldM _ w1 (e :: routed)) as [w2|] eqn:Ef; [|discriminate]. intros [= <-].
  assert (H2 : spares w w2 /\ (guarded (wk_state w) -> guarded (wk_state w2))).
  { revert Ef. apply (foldM_ind (fun w2 => spares w w2 /\ (guarded (wk_state w) -> guarded (wk_state w2)))); [|done].
    intros a b a' _ [Hs Hg] Hstep. apply parked_spares in Hstep as [Hs' Hg'].
    split; [eapply spares_trans; [exact Hs|exact Hs']|auto]. }
  destruct H2 as [[] Hg]. now destruct (hn_store h).
Qed.

Lemma filter_filter {A} (f g : A -> bool) l : List.filter f (List.filter g l) = List.filter (fun x => f x && g x) l.
Proof. induction l as [|x l IH]; [done|]. cbn. destruct (g x); cbn; rewrite IH; now destruct (f x). Qed.

Lemma filter_ids_nodup (f : ToolApproval -> bool) ps :
  (forall a, f a = true -> is_own a = true) -> NoDup (own_ids ps) -> NoDup (map ap_toolCallId (List.filter f ps)).
Proof.
  intros Hf. unfold own_ids. induction ps as [|a ps IH]; [done|]. cbn. destruct (f a) eqn:Ea.
  - rewrite (Hf _ Ea). cbn. rewrite !NoDup_cons. intros [Hn Hnd]. split; [|auto]. intros (b & E & Hb)%list_elem_of_fmap.
    apply Hn. rewrite E. apply list_elem_of_In, filter_In in Hb as [Hb Hfb].
    apply (list_elem_of_fmap_2 ap_toolCallId), list_elem_of_In, filter_In. auto.
  - destruct (is_own a); [cbn; rewrite NoDup_cons; intros [_ Hnd]; auto|auto].
Qed.

Lemma map_call_ids ps : map tc_id (map call_of_approval ps) = map ap_toolCallId ps.
Proof. now rewrite map_map. Qed.

Lemma dispatch_resumed h grants w :
  executor_answers h -> NoDup (map ap_toolCallId grants) ->
  let w' := dispatchResumedApprovals h grants w in
  wk_batches w' = wk_batches w ++ batch_of (map call_of_approval grants) true /\
  rs_pendingApprovals (wk_state w') = rs_pendingApprovals (wk_state w) /\
  rs_status (wk_state w') = rs_status (wk_state w) /\
  (forall id, tally w' id = answered_more (count (calls_id id) (map call_of_approval grants)) (tally w id)).
Proof.
  intros Hexec Hnd. unfold dispatchResumedApprovals. cbv zeta.
  set (w1 := if hn_store h then save _ _ w else w). set (w2 := on_state _ w1).
  assert (H2 : wk_batches w2 = wk_batches w /\ rs_pendingApprovals (wk_state w2) = rs_pendingApprovals (wk_state w) /\
    rs_status (wk_state w2) = rs_status (wk_state w) /\ tally w2 = tally w) by (unfold w2, w1; now destruct (hn_store h)).
  destruct H2 as (E1 & E2 & E3 & E4). rewrite <- E1, <- E2, <- E3, <- E4. clearbody w2. clear E1 E2 E3 E4.
  set (w3 := dispatchToolBatch h _ true w2).
  destruct (dispatch_frame h (map call_of_approval grants) true w2) as (F1 & _ & F3 & F4 & _). fold w3 in F1, F3, F4.
  assert (Ft : forall id, tally w3 id = answered_more (count (calls_id id) (map call_of_approval grants)) (tally w2 id)).
  { intros id. apply tally_dispatch; [done|]. now rewrite map_call_ids. }
  destruct (hn_store h); cbn [wk_batches wk_state save]; auto.
Qed.

(** The directive and the dispatch, before the parked children. *)
Lemma directive_dispatched h ds w :
  executor_answers h -> NoDup (own_ids (rs_pendingApprovals (wk_state w))) ->
  let ps := rs_pendingApprovals (wk_state w) in
  let r := processResumeDirective ds w in
  let w2 := match re_granted r with [] => re_walk r | _ => dispatchResumedApprovals h (re_granted r) (re_walk r) end in
  re_granted r = List.filter (fresh_grant ds w) ps /\
  wk_batches w2 = wk_batches w ++ batch_of (map call_of_approval (List.filter (fresh_grant ds w) ps)) true /\
  rs_pendingApprovals (wk_state w2) = List.filter (undecided ds) ps /\
  rs_status (wk_state w2) = (match List.filter (undecided ds) ps with [] => StRunning | _ => rs_status (wk_state w) end) /\
  (forall a, a ∈ ps -> is_own a = true -> undecided ds a = false ->
     answered_in (ap_toolCallId a) (wk_buffer w2) = true /\
     (replayed w (ap_toolCallId a) = false -> answered_in (ap_toolCallId a) (rs_messages (wk_state w2)) = true)).
Proof.
  intros Hexec Hnd ps. destruct (directive_deciding ds w Hnd) as (r0 & Hd & ->). fold ps in Hd. cbn [re_granted re_walk].
  destruct Hd as [E1 E2 E3 E4 E5 _ _ _ E9]. set (w1 := on_state _ (re_walk r0)).
  assert (H1 : rs_pendingApprovals (wk_state w1) = List.filter (undecided ds) ps /\
    rs_status (wk_state w1) = (match List.filter (undecided ds) ps with [] => StRunning | _ => rs_status (wk_state w) end) /\
    wk_buffer w1 = wk_buffer (re_walk r0) /\ rs_messages (wk_state w1) = rs_messages (wk_state (re_walk r0)) /\
    wk_batches w1 = wk_batches (re_walk r0)).
  { unfold w1. rewrite <- E1. now destruct (re_pending r0). }
  destruct H1 as (P1 & P2 & P3 & P4 & P5). set (grants := List.filter (fresh_grant ds w) ps) in *.
  assert (Hg : NoDup (map ap_toolCallId grants)).
  { apply filter_ids_nodup; [|exact Hnd]. intros a Ha. unfold fresh_grant in Ha. now destruct (is_own a). }
  rewrite E2. set (w2 := match grants with [] => w1 | _ => dispatchResumedApprovals h grants w1 end).
  assert (H2 : wk_batches w2 = wk_batches w1 ++ batch_of (map call_of_approval grants) true /\
    rs_pendingApprovals (wk_state w2) = rs_pendingApprovals (wk_state w1) /\ rs_status (wk_state w2) = rs_status (wk_state w1) /\
    (forall id, tally w2 id = answered_more (count (calls_id id) (map call_of_approval grants)) (tally w1 id))).
  { unfold w2. destruct grants as [|g gs] eqn:Eg; [|rewrite <- Eg in *; now apply dispatch_resumed].
    split; [cbn; now rewrite app_nil_r|]. split; [done|]. split; [done|]. intros id. now rewrite answered_more_0. }
  destruct H2 as (F1 & F2 & F3 & F4). rewrite F1, F2, F3, P1, P2, P5, E5. do 4 (split; [done|]). clearbody w2 w1.
  intros a Ha Ho Hu. rewrite !answered_in_count.
  change (count (answers ?i) (wk_buffer w2)) with (ta_buffer (tally w2 i)).
  change (count (answers ?i) (rs_messages (wk_state w2))) with (ta_durable (tally w2 i)). rewrite F4. cbn.
  rewrite P3, P4, E3, E4, !count_app.
  unfold undecided in Hu. destruct (decision_for ds a) as [d|] eqn:Ed; [|discriminate].
  destruct (dc_granted d) eqn:Egr.
  - destruct (replayed w (ap_toolCallId a)) eqn:Er.
    + split; [|discriminate]. apply andb_true_iff in Er as [_ Er]. apply answered_in_count in Er. lia.
    + assert (Hin : a ∈ grants).
      { apply list_elem_of_In, filter_In. split; [now apply list_elem_of_In|]. unfold fresh_grant, granted. now rewrite Ho, Ed, Egr, Er. }
      assert (E : count (calls_id (ap_toolCallId a)) (map call_of_approval grants) = 1).
      { apply count_nodup; [now rewrite map_call_ids|]. rewrite map_call_ids. now apply (list_elem_of_fmap_2 ap_toolCallId). }
      rewrite E. lia.
  - assert (Hin : denial_of ds a ∈ map (denial_of ds) (List.filter (denied_own ds) ps)).
    { apply (list_elem_of_fmap_2 (denial_of ds)), list_elem_of_In, filter_In. split; [now apply list_elem_of_In|].
      unfold denied_own. now rewrite Ho, Ed, Egr. }
    assert (E : 1 <= count (answers (ap_toolCallId a)) (map (denial_of ds) (List.filter (denied_own ds) ps))).
    { destruct (count _ _) eqn:Ec; [|lia]. rewrite count_zero in Ec. specialize (Ec _ Hin).
      unfold denial_of, denial in Ec. rewrite answers_tool in Ec. now rewrite bool_decide_eq_true_2 in Ec. }
    lia.
Qed.

Lemma resume_spec h ds w w' fin :
  executor_answers h -> NoDup (own_ids (rs_pendingApprovals (wk_state w))) ->
  rs_status (wk_state w) <> StFailed ->
  resume_run h (Some ds) w = Ok (w', fin) ->
  let ps := rs_pendingApprovals (wk_state w) in
  wk_batches w' = wk_batches w ++ batch_of (map call_of_approval (List.filter (fresh_grant ds w) ps)) true /\
  List.filter is_own (rs_pendingApprovals (wk_state w')) = List.filter (fun a => is_own a && undecided ds a) ps /\
  (forall a, a ∈ ps -> is_own a = true -> undecided ds a = false ->
     answered_in (ap_toolCallId a) (wk_buffer w') = true /\
     (replayed w (ap_toolCallId a) = false -> answered_in (ap_toolCallId a) (rs_messages (wk_state w')) = true)) /\
  rs_status (wk_state w') <> StFailed /\
  (rs_status (wk_state w) = StAwaitingApproval \/ rs_status (wk_state w) = StAborted ->
   fin = Rejoins -> rs_pendingApprovals (wk_state w') = []).
Proof.
  intros Hexec Hnd Hst. unfold resume_run. cbv zeta.
  destruct (rs_pendingApprovals (wk_state w)) as [|p0 ps0] eqn:Eps.
  { cbn [re_walk re_granted re_routed processSubRunResumes List.filter map batch_of].
    rewrite decide_False by done. intros [= <- _]. rewrite app_nil_r, Eps.
    do 2 (split; [done|]). split; [|done]. intros a Ha. now apply not_elem_of_nil in Ha. }
  rewrite <- Eps in *. clear Eps p0 ps0. set (ps := rs_pendingApprovals (wk_state w)) in *.
  pose proof (directive_dispatched h ds w Hexec Hnd) as (_ & F1 & F2 & F3 & F4). fold ps in F1, F2, F3, F4.
  set (r := processResumeDirective ds w) in *.
  assert (Hnf : rs_status (wk_state (re_walk r)) <> StFailed).
  { unfold r. destruct (directive_deciding ds w Hnd) as (r0 & Hd & ->). cbn [re_walk].
    pose proof (dg_status _ _ _ _ Hd) as E9. destruct (re_pending r0); cbn; [discriminate|congruence]. }
  rewrite decide_False by done. set (w2 := match re_granted r with [] => _ | _ => _ end) in *.
  destruct (processSubRunResumes h (re_routed r) w2) as [w3|] eqn:Ew; [|discriminate]. intros [= <- <-].
  destruct (routed_spares _ _ _ _ Ew) as [[S1 S2 S3 S4 Hf] Hg].
  assert (Hnf2 : rs_status (wk_state w2) <> StFailed) by (rewrite F3; now destruct (List.filter (undecided ds) ps)).
  rewrite S1, S2, F1, F2, filter_filter.
  do 2 (split; [done|]). split; [intros a Ha Ho Hu; destruct (F4 a Ha Ho Hu); auto|].
  split.
  { apply (Hf Hnf2). }
  intros Hs2 Hfin. assert (Hg2 : guarded (wk_state w2)).
  { unfold guarded. rewrite F2, F3. destruct (List.filter (undecided ds) ps); [auto|]. destruct Hs2 as [->| ->]; auto. }
  destruct (Hg Hg2) as [Hq|[[Hq Hne]|Hq]]; [| |done].
  - rewrite Hq in Hfin. discriminate.
  - rewrite Hq in Hfin. destruct (rs_pendingApprovals (wk_state w3)); [done|discriminate].
Qed.

Lemma dispatch_spares h grants w :
  executor_answers h -> NoDup (map ap_toolCallId grants) ->
  forall id, (answered_in id (wk_buffer w) = true -> answered_in id (wk_buffer (dispatchResumedApprovals h grants w)) = true) /\
    (answered_in id (rs_messages (wk_state w)) = true ->
     answered_in id (rs_messages (wk_state (dispatchResumedApprovals h grants w))) = true).
Proof.
  intros Hexec Hnd id. destruct (dispatch_resumed h grants w Hexec Hnd) as (_ & _ & _ & Ht). specialize (Ht id).
  rewrite !answered_in_count. unfold tally in Ht. injection Ht as E1 E2 _ _. cbn in E1, E2. rewrite E1, E2. lia.
Qed.

(** A resume takes no answer back. *)
Lemma resume_keeps_answers h ds w w' fin :
  executor_answers h -> NoDup (own_ids (rs_pendingApprovals (wk_state w))) -> rs_status (wk_state w) <> StFailed ->
  resume_run h (Some ds) w = Ok (w', fin) ->
  (forall id, answered_in id (wk_buffer w) = true -> answered_in id (wk_buffer w') = true) /\
  (forall id, answered_in id (rs_messages (wk_state w)) = true -> answered_in id (rs_messages (wk_state w')) = true).
Proof.
  intros Hexec Hnd Hst. unfold resume_run. cbv zeta.
  destruct (rs_pendingApprovals (wk_state w)) as [|p0 ps0] eqn:Eps.
  { cbn [re_walk re_granted re_routed processSubRunResumes]. rewrite decide_False by done. now intros [= <- _]. }
  rewrite <- Eps in *. clear Eps p0 ps0. destruct (directive_deciding ds w Hnd) as (r0 & Hd & ->). cbn [re_walk re_granted re_routed].
  destruct Hd as [_ E2 E3 E4 _ _ _ _ _]. set (w1 := on_state _ (re_walk r0)).
  assert (H1 : wk_buffer w1 = wk_buffer (re_walk r0) /\ rs_messages (wk_state w1) = rs_messages (wk_state (re_walk r0)))
    by (unfold w1; now destruct (re_pending r0)).
  destruct H1 as [P1 P2]. clearbody w1.
  assert (K1 : forall id, (answered_in id (wk_buffer w) = true -> answered_in id (wk_buffer w1) = true) /\
    (answered_in id (rs_messages (wk_state w)) = true -> answered_in id (rs_messages (wk_state w1)) = true)).
  { intros id. rewrite P1, P2, E3, E4, !answered_in_app. split; now intros ->. }
  case_decide; [intros [= <- _]; split; intros id; apply K1|].
  set (w2 := match re_granted r0 with [] => _ | _ => _ end).
  assert (K2 : forall id, (answered_in id (wk_buffer w1) = true -> answered_in id (wk_buffer w2) = true) /\
    (answered_in id (rs_messages (wk_state w1)) = true -> answered_in id (rs_messages (wk_state w2)) = true)).
  { intros id. unfold w2. destruct (re_granted r0) eqn:Eg; [done|]. rewrite <- Eg in *. apply dispatch_spares; [done|]. rewrite E2.
    apply filter_ids_nodup; [|done]. intros a Ha. unfold fresh_grant in Ha. now destruct (is_own a). }
  destruct (processSubRunResumes h (re_routed r0) w2) as [w3|] eqn:Ew; [|discriminate]. intros [= <- _].
  destruct (routed_spares _ _ _ _ Ew) as [[_ _ S3 S4 _] _].
  split; intros id Hid; [apply S3, K2, K1|apply S4, K2, K1]; done.
Qed.

(** ** The claims on steps and resumes *)

(** C18: the calls of a step have distinct ids that the run has not seen.
    However hooks, approval predicates, tools and child agents answer, after the
    walk each of them is exactly one of: answered once in the working buffer and
    once in the durable transcript, waiting once for an approval, or parked with
    its child.  The run goes on exactly when all are answered and else is
    suspended with the ledger's summary; the calls handed to the executor are
    calls of the step, in their order, none pre-approved; nothing else changes,
    and nobody is asked to approve arguments that the tool would refuse. *)
Theorem step_calls_accounted U containsPii dataFlow h n calls w w' fin :
  executor_answers h -> NoDup (map tc_id calls) -> (forall c, c ∈ calls -> tally w (tc_id c) = untold) ->
  processStepToolCalls U containsPii dataFlow h n calls w = Ok (w', fin) ->
  (forall c, c ∈ calls -> exists f, tally w' (tc_id c) = fate_tally f) /\
  (forall id, id ∉ map tc_id calls -> tally w' id = tally w id) /\
  (fin = Continues <-> forall c, c ∈ calls -> tally w' (tc_id c) = fate_tally Answered) /\
  (fin <> Continues -> rs_status (wk_state w') = StAwaitingApproval /\
     forall cfg snap, dataFlow = Some cfg -> snapshotLedger (rs_id (wk_state w')) (wk_guard w') = Some snap ->
     rs_taintSummary (wk_state w') = Some snap) /\
  (exists bs, wk_batches w' = wk_batches w ++ bs /\ Forall (fun b => b.2 = false) bs /\
     concat (map fst bs) `sublist_of` calls) /\
  (forall a, a ∈ rs_pendingApprovals (wk_state w') ->
     a ∈ rs_pendingApprovals (wk_state w) \/ ap_subRun a <> None \/ runnable h a).
Proof. apply step_spec. Qed.

Lemma waiting_nodup ps : (forall id, count (own id) ps <= 1) -> NoDup (own_ids ps).
Proof.
  unfold own_ids. induction ps as [|a ps IH]; intros H; [constructor|]. cbn.
  assert (Hrest : NoDup (map ap_toolCallId (List.filter is_own ps))).
  { apply IH. intros id. specialize (H id). rewrite count_cons in H. lia. }
  destruct (is_own a) eqn:Ea; [|done]. cbn. apply NoDup_cons. split; [|done].
  intros (b & E & Hb)%list_elem_of_fmap. apply list_elem_of_In, filter_In in Hb as [Hb Hob].
  specialize (H (ap_toolCallId a)). rewrite count_cons in H. unfold own at 1 in H. unfold is_own in Ea. rewrite Ea in H.
  rewrite bool_decide_eq_true_2 in H by done. cbn in H. assert (Hz : count (own (ap_toolCallId a)) ps = 0) by lia.
  rewrite count_zero in Hz. specialize (Hz b ltac:(now apply list_elem_of_In)). unfold own in Hz. unfold is_own in Hob.
  rewrite Hob, E, bool_decide_eq_true_2 in Hz by done. discriminate.
Qed.

(** A suspended step of a run with nothing pending before: its own approvals have
    distinct ids, none of them answered yet. *)
Lemma suspended_step U containsPii dataFlow h n calls w w1 ab :
  executor_answers h -> NoDup (map tc_id calls) -> (forall c, c ∈ calls -> tally w (tc_id c) = untold) ->
  rs_pendingApprovals (wk_state w) = [] ->
  processStepToolCalls U containsPii dataFlow h n calls w = Ok (w1, Suspended ab) ->
  rs_status (wk_state w1) = StAwaitingApproval /\ NoDup (own_ids (rs_pendingApprovals (wk_state w1))) /\
  (forall c, c ∈ calls -> exists f, tally w1 (tc_id c) = fate_tally f) /\
  (forall a, a ∈ rs_pendingApprovals (wk_state w1) -> is_own a = true -> replayed w1 (ap_toolCallId a) = false).
Proof.
  intros Hexec Hnd H0 Hp Hstep.
  destruct (step_spec U containsPii dataFlow h n calls w w1 (Suspended ab) Hexec Hnd H0 Hstep) as (Hf & Ho & _ & Hs & _).
  destruct Hs as [Hst _]; [discriminate|]. split; [done|].
  assert (Hw0 : forall id, ta_waiting (tally w id) = 0) by (intros id; unfold tally; cbn; now rewrite Hp).
  assert (Hone : forall id, id ∈ map tc_id calls \/ ta_waiting (tally w1 id) = 0).
  { intros id. destruct (decide (id ∈ map tc_id calls)) as [|Hn]; [now left|right]. now rewrite Ho. }
  split; [|split; [done|]].
  { apply waiting_nodup. intros id. change (ta_waiting (tally w1 id) <= 1). destruct (Hone id) as [Hin|Hz]; [|lia].
    apply list_elem_of_fmap in Hin as (c & -> & Hc). destruct (Hf c Hc) as [[] ->]; cbn; lia. }
  intros a Ha Hoa. assert (Hw : 1 <= ta_waiting (tally w1 (ap_toolCallId a))).
  { unfold tally. cbn. destruct (count _ _) eqn:Ec; [|lia]. rewrite count_zero in Ec. specialize (Ec a Ha). unfold own in Ec.
    unfold is_own in Hoa. rewrite Hoa, bool_decide_eq_true_2 in Ec by done. discriminate. }
  destruct (Hone (ap_toolCallId a)) as [Hin|Hz]; [|lia]. apply list_elem_of_fmap in Hin as (c & E & Hc).
  destruct (Hf c Hc) as [f Ef]. rewrite <- E in Ef. unfold replayed. apply andb_false_iff. right. apply not_true_iff_false.
  rewrite answered_in_count. change (~ 1 <= ta_buffer (tally w1 (ap_toolCallId a))). rewrite Ef in *. destruct f; cbn in *; lia.
Qed.

(** Decisions on a run's own approvals are routed nowhere. *)
Lemma own_routed ds w :
  Forall (fun a => is_own a = true) (rs_pendingApprovals (wk_state w)) -> re_routed (processResumeDirective ds w) = [].
Proof.
  intros Hown. unfold processResumeDirective. cbv zeta. cbn [re_routed].
  assert (Hg : forall j ps r, Forall (fun a => is_own a = true) ps -> re_routed r = [] ->
    re_routed (foldl (decide_approval ds j) r ps) = []).
  { intros j ps. induction ps as [|a ps IH]; intros r Ha Hr; [done|]. apply Forall_cons in Ha as [Ha Hps]. cbn [foldl].
    apply IH; [done|]. unfold decide_approval, is_own in *. apply bool_decide_eq_true in Ha. rewrite Ha.
    destruct (decision_for ds a); [|done]. cbv zeta. repeat case_match; done. }
  now apply Hg.
Qed.

Lemma own_resume_returns h ds w :
  executor_answers h -> NoDup (own_ids (rs_pendingApprovals (wk_state w))) ->
  Forall (fun a => is_own a = true) (rs_pendingApprovals (wk_state w)) -> rs_pendingApprovals (wk_state w) <> [] ->
  (forall a, a ∈ rs_pendingApprovals (wk_state w) -> undecided ds a = false) ->
  exists w', resume_run h (Some ds) w = Ok (w', Rejoins).
Proof.
  intros Hexec Hnd Hown Hne Hall. unfold resume_run. cbv zeta.
  destruct (rs_pendingApprovals (wk_state w)) as [|p0 ps0] eqn:Eps; [done|]. rewrite <- Eps in *. clear Hne.
  rewrite (own_routed ds w Hown). cbn [processSubRunResumes].
  destruct (directive_dispatched h ds w Hexec Hnd) as (_ & _ & _ & Es & _).
  assert (Hz : List.filter (undecided ds) (rs_pendingApprovals (wk_state w)) = []).
  { destruct (List.filter (undecided ds) (rs_pendingApprovals (wk_state w))) as [|a l] eqn:Ef; [done|].
    assert (Hin : In a (List.filter (undecided ds) (rs_pendingApprovals (wk_state w)))) by (rewrite Ef; now left).
    apply filter_In in Hin as [Hin Hu]. rewrite (Hall a) in Hu by now apply list_elem_of_In. discriminate. }
  rewrite Hz in Es. cbv zeta in Es. rewrite decide_False.
  2: { destruct (directive_deciding ds w Hnd) as (r & Hd & ->). cbn [re_walk]. rewrite (dg_pending _ _ _ _ Hd), Hz. done. }
  eexists. rewrite Es. reflexivity.
Qed.

(** C20: a step of a run with nothing pending suspends for approvals, and is
    resumed with a directive that decides all of them, whichever way.  Then every
    call of the step that is not parked with a child has an answer in the working
    buffer and in the durable transcript, and the executor has been handed
    exactly the granted ones, with the approved arguments, in one pre-approved
    batch.  When the approvals are all of the run itself, the resume does return,
    and the run goes on. *)
Theorem suspended_step_settles U containsPii dataFlow h n calls w w1 ab ds :
  executor_answers h -> NoDup (map tc_id calls) -> (forall c, c ∈ calls -> tally w (tc_id c) = untold) ->
  rs_pendingApprovals (wk_state w) = [] ->
  processStepToolCalls U containsPii dataFlow h n calls w = Ok (w1, Suspended ab) ->
  (forall a, a ∈ rs_pendingApprovals (wk_state w1) -> undecided ds a = false) ->
  (forall w2 fin, resume_run h (Some ds) w1 = Ok (w2, fin) ->
     (forall c, c ∈ calls -> ta_parked (tally w1 (tc_id c)) = 0 -> answered_in (tc_id c) (wk_buffer w2) = true /\
        answered_in (tc_id c) (rs_messages (wk_state w2)) = true) /\
     wk_batches w2 = wk_batches w1 ++
       batch_of (map call_of_approval (List.filter (fun a => is_own a && granted ds a) (rs_pendingApprovals (wk_state w1)))) true /\
     (fin = Rejoins -> rs_pendingApprovals (wk_state w2) = [])) /\
  (Forall (fun a => is_own a = true) (rs_pendingApprovals (wk_state w1)) -> rs_pendingApprovals (wk_state w1) <> [] ->
   exists w2, resume_run h (Some ds) w1 = Ok (w2, Rejoins)).
Proof.
  intros Hexec Hnd H0 Hp Hstep Hall.
  destruct (suspended_step U containsPii dataFlow h n calls w w1 ab Hexec Hnd H0 Hp Hstep) as (Hst & Hnd1 & Hf & Hfresh).
  split; [intros w2 fin Hres|intros Hown Hne; now apply own_resume_returns].
  destruct (resume_spec h ds w1 w2 fin Hexec Hnd1 ltac:(congruence) Hres) as (Eb & _ & Hans & _ & Hend).
  split; [|split; [|intros Hfin; apply Hend; [now left|done]]].
  - intros c Hc Hpk. destruct (Hf c Hc) as [[] Ef].
    + destruct (resume_keeps_answers h ds w1 w2 fin Hexec Hnd1 ltac:(congruence) Hres) as [K1 K2].
      split; [apply K1|apply K2]; apply answered_in_count; [change (1 <= ta_buffer (tally w1 (tc_id c)))|change (1 <= ta_durable (tally w1 (tc_id c)))];
        rewrite Ef; cbn; lia.
    + assert (Hw : ta_waiting (tally w1 (tc_id c)) = 1) by now rewrite Ef.
      destruct (decide (Exists (fun a => own (tc_id c) a = true) (rs_pendingApprovals (wk_state w1)))) as [Hex|Hno].
      * apply Exists_exists in Hex as (a & Ha & Hoa). apply andb_true_iff in Hoa as [Hoa Ei]. apply bool_decide_eq_true in Ei.
        destruct (Hans a Ha Hoa (Hall a Ha)) as [B1 B2]. rewrite Ei in B1, B2. split; [exact B1|]. apply B2. rewrite <- Ei. now apply Hfresh.
      * exfalso. unfold tally in Hw. cbn in Hw. assert (Hz : count (own (tc_id c)) (rs_pendingApprovals (wk_state w1)) = 0); [|lia].
        apply count_zero. intros a Ha. apply not_true_iff_false. intros E. apply Hno, Exists_exists. eauto.
    + rewrite Ef in Hpk. discriminate.
  - rewrite Eb. do 3 f_equal. apply List.filter_ext_in. intros a Ha%list_elem_of_In. unfold fresh_grant.
    destruct (is_own a) eqn:Hoa; [|done]. cbn. now rewrite (Hfresh a Ha Hoa), andb_true_r.
Qed.

(** A run resumed again and again, with any directives. *)
Definition resumes (h : Harness) (dss : list (list ResumeDecision)) (w : Walk) : result string Walk :=
  foldM (fun w ds => match resume_run h (Some ds) w with Ok (w', _) => Ok w' | Err cause => Err cause end) w dss.

(** An own approval is known by its call id. *)
Lemma same_own ps a b :
  NoDup (own_ids ps) -> a ∈ ps -> b ∈ ps -> is_own a = true -> is_own b = true -> ap_toolCallId a = ap_toolCallId b -> a = b.
Proof.
  unfold own_ids. intros Hnd Ha Hb Hoa Hob E.
  assert (Hia : a ∈ List.filter is_own ps) by (apply list_elem_of_In, filter_In; split; [now apply list_elem_of_In|done]).
  assert (Hib : b ∈ List.filter is_own ps) by (apply list_elem_of_In, filter_In; split; [now apply list_elem_of_In|done]).
  apply list_elem_of_lookup in Hia as [i Hi]. apply list_elem_of_lookup in Hib as [j Hj]. assert (i = j) as <-; [|congruence].
  apply (NoDup_lookup _ i j (ap_toolCallId a) Hnd); rewrite list_lookup_fmap; rewrite ?Hi, ?Hj; cbn; congruence.
Qed.

Lemma own_ids_filter (f : ToolApproval -> bool) ps : NoDup (own_ids ps) -> NoDup (own_ids (List.filter f ps)).
Proof.
  intros Hnd. unfold own_ids. rewrite filter_filter. apply filter_ids_nodup; [|exact Hnd]. intros a Ha. now destruct (is_own a).
Qed.

Lemma own_again ps qs f : List.filter is_own qs = List.filter (fun a => is_own a && f a) ps -> own_ids qs = own_ids (List.filter f ps).
Proof. intros E. unfold own_ids. now rewrite E, filter_filter. Qed.

Lemma elem_of_batch calls pre : concat (map fst (batch_of calls pre)) = calls.
Proof. destruct calls; cbn; [done|]. now rewrite app_nil_r. Qed.

(** C19: over any number of resumes with any directives, partial, repeated or
    contradictory, a call that waits for approval is handed to the executor at
    most once; only when some directive granted it; with the name and the
    arguments it was waiting with; and never while it still waits. *)
Theorem resumes_execute_once h dss w w' :
  executor_answers h -> NoDup (own_ids (rs_pendingApprovals (wk_state w))) -> rs_status (wk_state w) <> StFailed ->
  resumes h dss w = Ok w' ->
  exists bs, wk_batches w' = wk_batches w ++ bs /\ Forall (fun b => b.2 = true) bs /\
    NoDup (map tc_id (concat (map fst bs))) /\
    (forall c, c ∈ concat (map fst bs) -> exists a ds, a ∈ rs_pendingApprovals (wk_state w) /\ is_own a = true /\
       ds ∈ dss /\ granted ds a = true /\ c = call_of_approval a) /\
    (forall a, a ∈ rs_pendingApprovals (wk_state w') -> is_own a = true ->
       a ∈ rs_pendingApprovals (wk_state w) /\ ap_toolCallId a ∉ map tc_id (concat (map fst bs))).
Proof.
  intros Hexec. revert w. induction dss as [|ds dss IH]; intros w Hnd Hst; unfold resumes; cbn [foldM].
  { intros [= <-]. exists []. rewrite app_nil_r. do 2 (split; [done|]). split; [constructor|].
    split; [intros c Hc; now apply not_elem_of_nil in Hc|]. intros a Ha _. split; [done|apply not_elem_of_nil]. }
  intros (w1 & E1 & E2)%rbind_Ok. destruct (resume_run h (Some ds) w) as [[w1' fin]|] eqn:Er; [|discriminate]. injection E1 as ->.
  destruct (resume_spec h ds w w1 fin Hexec Hnd Hst Er) as (Eb & Eo & _ & Hst1 & _).
  set (ps := rs_pendingApprovals (wk_state w)) in *. set (gs := List.filter (fresh_grant ds w) ps) in *.
  assert (Hnd1 : NoDup (own_ids (rs_pendingApprovals (wk_state w1)))).
  { rewrite (own_again _ _ _ Eo). now apply own_ids_filter. }
  assert (Hpend : forall a, a ∈ rs_pendingApprovals (wk_state w1) -> is_own a = true -> a ∈ ps /\ undecided ds a = true).
  { intros a Ha Ho. assert (Hin : a ∈ List.filter is_own (rs_pendingApprovals (wk_state w1))) by (apply list_elem_of_In, filter_In; split; [now apply list_elem_of_In|done]).
    rewrite Eo in Hin. apply list_elem_of_In, filter_In in Hin as [Hin Hu]. apply andb_true_iff in Hu as [_ Hu]. split; [now apply list_elem_of_In|done]. }
  assert (Hgs : forall a, a ∈ gs -> a ∈ ps /\ is_own a = true /\ granted ds a = true).
  { intros a Ha. apply list_elem_of_In, filter_In in Ha as [Ha Hg]. unfold fresh_grant in Hg. rewrite !andb_true_iff in Hg.
    split; [now apply list_elem_of_In|]. naive_solver. }
  assert (Hdis : forall a b, a ∈ gs -> b ∈ ps -> is_own b = true -> undecided ds b = true -> ap_toolCallId a <> ap_toolCallId b).
  { intros a b Ha Hb Hob Hub E. destruct (Hgs a Ha) as (Ha' & Hoa & Hga).
    rewrite (same_own ps a b Hnd) in Hga by done. unfold granted, undecided in *. now destruct (decision_for ds b). }
  destruct (IH w1 Hnd1 Hst1 E2) as (bs & Ebs & Hbs & Hn & Hc & Hp).
  exists (batch_of (map call_of_approval gs) true ++ bs). rewrite Ebs, Eb, <- (assoc_L (++)). split; [done|].
  split; [apply Forall_app; split; [unfold batch_of; destruct (map _ gs); repeat constructor|done]|].
  rewrite map_app, concat_app, elem_of_batch, map_app, map_call_ids. split; [|split].
  - apply NoDup_app. split; [apply filter_ids_nodup; [|exact Hnd]; intros a Ha; unfold fresh_grant in Ha; now destruct (is_own a)|].
    split; [|done]. intros id (a & -> & Ha)%list_elem_of_fmap (c & E & Hcin)%list_elem_of_fmap.
    destruct (Hc c Hcin) as (b & ds' & Hb & Hob & _ & _ & ->). destruct (Hpend b Hb Hob). now apply (Hdis a b).
  - intros c [(a & -> & Ha)%list_elem_of_fmap|Hcin]%elem_of_app.
    + destruct (Hgs a Ha) as (H1 & H2 & H3). exists a, ds. do 2 (split; [done|]). split; [left|done].
    + destruct (Hc c Hcin) as (b & ds' & Hb & Hob & Hds & Hg & ->). destruct (Hpend b Hb Hob).
      exists b, ds'. do 2 (split; [done|]). split; [now right|done].
  - intros a Ha Ho. destruct (Hp a Ha Ho) as [Ha1 Hn1]. destruct (Hpend a Ha1 Ho) as [Hps Hu]. split; [done|].
    rewrite elem_of_app. intros [(b & E & Hb)%list_elem_of_fmap|Hin]; [now apply (Hdis b a Hb Hps Ho Hu)|contradiction].
Qed.

Lemma filter_or_split {A} (f g : A -> bool) l :
  (forall a, g a = true -> f a = false) -> List.filter f l ++ List.filter g l ≡ₚ List.filter (fun a => f a || g a) l.
Proof.
  intros Hfg. induction l as [|a l IH]; [done|]. cbn. destruct (g a) eqn:Eg; [rewrite (Hfg a Eg); cbn|rewrite orb_false_r; destruct (f a); cbn; now rewrite IH].
  now rewrite <- IH, Permutation_middle.
Qed.

#[local] Instance own_ids_perm : Proper (Permutation ==> Permutation) own_ids.
Proof.
  unfold own_ids. intros l l' H. apply Permutation_map.
  induction H as [|x l l' _ IH|x y l|]; cbn; [done|destruct (is_own x); [now apply perm_skip|done]| |eapply perm_trans; eassumption].
  destruct (is_own x), (is_own y); try done. apply perm_swap.
Qed.

Lemma decided_apart ds w ps : List.filter (fun a => fresh_grant ds w a && undecided ds a) ps = [].
Proof.
  induction ps as [|a ps IH]; [done|]. cbn. rewrite IH. unfold fresh_grant, granted, undecided.
  destruct (decision_for ds a); [now rewrite andb_false_r|]. now rewrite andb_false_r.
Qed.

(** C21: with a checkpoint store, a resume that grants calls writes the intent
    before any of them runs: when it is written none of their batch has been
    handed to the executor, and when the dispatched checkpoint is written exactly
    that batch has.  A process that dies at any point after the intent and
    is resumed from it with the same directive hands the executor the same calls
    again, with the same arguments, in the same order; one that is resumed from
    the dispatched checkpoint, however often, hands over none of them. *)
Theorem crash_retries_same_calls h ds w :
  NoDup (own_ids (rs_pendingApprovals (wk_state w))) -> hn_store h = true ->
  let r := processResumeDirective ds w in
  exists s s', wk_saved (dispatchResumedApprovals h (re_granted r) (re_walk r)) =
     wk_saved (re_walk r) ++
       [mkSaved "agent.resume.intent" s (wk_batches (re_walk r));
        mkSaved "agent.resume.dispatched" s' (wk_batches (re_walk r) ++ batch_of (map call_of_approval (re_granted r)) true)] /\
  rs_status s = StAwaitingApproval /\
  (forall again, wk_state again = s' -> re_granted (processResumeDirective ds again) = []) /\
  forall crashed, wk_state crashed = s ->
    (forall id, answered_in id (wk_buffer crashed) = answered_in id (wk_buffer (re_walk r))) ->
    re_granted (processResumeDirective ds crashed) = re_granted r.
Proof.
  intros Hnd Hs. cbv zeta. destruct (directive_deciding ds w Hnd) as (r0 & Hd & Er). rewrite Er. clear Er. cbn [re_granted re_walk].
  set (w1 := on_state _ (re_walk r0)). exists (intent_state (re_granted r0) (wk_state w1)).
  unfold dispatchResumedApprovals. rewrite Hs. cbv zeta. set (w2 := on_state _ (save _ _ w1)).
  set (w3 := dispatchToolBatch h _ true w2). exists (wk_state w3).
  destruct (dispatch_frame h (map call_of_approval (re_granted r0)) true w2) as (Eb & Es & Ep & _). fold w3 in Eb, Es, Ep.
  destruct Hd as [E1 E2 E3 E4 _ _ E7 _ _]. set (ps := rs_pendingApprovals (wk_state w)) in *.
  assert (Hpend : rs_pendingApprovals (wk_state w1) = re_pending r0) by (unfold w1; cbn; now destruct (re_pending r0)).
  split; [cbn [save wk_saved]; rewrite Es, Eb; unfold w2; cbn; now rewrite <- (assoc_L (++))|]. split; [done|]. split.
  { intros again Ha. assert (Eag : rs_pendingApprovals (wk_state again) = List.filter (undecided ds) ps).
    { rewrite Ha, Ep. change (rs_pendingApprovals (wk_state w1) = List.filter (undecided ds) ps). now rewrite Hpend, E1. }
    destruct (directive_deciding ds again) as (r1 & Hd1 & ->); [rewrite Eag; now apply own_ids_filter|].
    cbn [re_granted]. now rewrite (dg_granted _ _ _ _ Hd1), Eag, filter_filter, decided_apart. }
  intros crashed Cs C3.
  assert (Hcr : rs_pendingApprovals (wk_state crashed) = re_granted r0 ++ re_pending r0 /\
    rs_steps (wk_state crashed) = rs_steps (wk_state w)).
  { rewrite Cs. cbn. rewrite <- E7. now destruct (re_pending r0). }
  unfold w1 in C3. cbn in C3. destruct Hcr as (C1 & C2). clear Cs. rewrite E1, E2 in C1.
  assert (Hdec : forall a, undecided ds a = true -> fresh_grant ds w a = false).
  { intros a. unfold undecided, fresh_grant, granted. destruct (decision_for ds a); [discriminate|]. now rewrite andb_false_r. }
  assert (Hnd2 : NoDup (own_ids (rs_pendingApprovals (wk_state crashed)))).
  { rewrite C1. enough (Hp : own_ids (List.filter (fresh_grant ds w) ps ++ List.filter (undecided ds) ps)
      ≡ₚ own_ids (List.filter (fun a => fresh_grant ds w a || undecided ds a) ps)) by (rewrite Hp; now apply own_ids_filter).
    now rewrite filter_or_split. }
  destruct (directive_deciding ds crashed Hnd2) as (r1 & Hd1 & ->). cbn [re_granted]. rewrite (dg_granted _ _ _ _ Hd1), C1, List.filter_app, !filter_filter.
  assert (Hsame : forall a, a ∈ ps -> is_own a = true -> granted ds a = true -> fresh_grant ds crashed a = fresh_grant ds w a).
  { intros a Ha Ho Hg. unfold fresh_grant. rewrite Ho, Hg. cbn. f_equal. unfold replayed, journaled_call. rewrite C2, C3, E3, answered_in_app.
    enough (Hz : answered_in (ap_toolCallId a) (map (denial_of ds) (List.filter (denied_own ds) ps)) = false) by now rewrite Hz, orb_false_r.
    apply not_true_iff_false. unfold answered_in. rewrite existsb_exists. intros (m & Hin & Hm).
    apply in_map_iff in Hin as (b & <- & Hb). apply filter_In in Hb as [Hb Hdb]. apply bool_decide_eq_true in Hm.
    apply andb_true_iff in Hdb as [Hob Hdb]. rewrite (same_own ps b a Hnd) in Hdb by (done || now apply list_elem_of_In || (unfold denial_of, denial in Hm; congruence)).
    unfold granted in Hg. destruct (decision_for ds a); [now rewrite Hg in Hdb|done]. }
  rewrite (List.filter_ext_in (fun x => fresh_grant ds crashed x && fresh_grant ds w x) (fresh_grant ds w)).
  - now rewrite decided_apart, app_nil_r, E2.
  - intros a Ha%list_elem_of_In. destruct (fresh_grant ds w a) eqn:Ef; [|apply andb_false_r]. rewrite andb_true_r.
    pose proof Ef as Ef'. unfold fresh_grant in Ef'. rewrite !andb_true_iff in Ef'. rewrite <- Ef. apply Hsame; naive_solver.
Qed.

(** ** The screen of the walk and the phases of the executor *)

(** The executor's hook and policy phases on a call: the input and the arguments
    it goes on with, or [None] when it refuses. *)
Definition executor_screen (opts : ExecutorOptions) (cx : CallCtx) (tool : ResolvedTool) (vi ea : value)
    (answer : option (result string PermissionHookResult)) (x : XState) : option (value * value) :=
  let seg := match answer with None => next x (PNeeds vi ea) | Some r => runPermissionPhase cx tool vi ea r x end in
  match seg.2 with
  | inr (PNeeds vi' ea') => match runArgumentPolicyPhase opts cx tool vi' seg.1 with None => Some (vi', ea') | Some _ => None end
  | _ => None
  end.

(** The hook's answer on a replay neither denies nor changes what was approved. *)
Definition consents (ea : value) (answer : option (result string PermissionHookResult)) : Prop :=
  match answer with
  | None => True
  | Some (Err _) => False
  | Some (Ok v) => ph_decision v <> EDeny /\ forall u, ph_updatedInput v = Some u -> JSON_stringify u = JSON_stringify ea
  end.

Lemma scan_refuses f rules acc e reason : scan f rules acc = inl (PRefuse e reason) -> e = EDeny.
Proof.
  revert acc. induction rules as [|r rules IH]; intros acc; cbn; [done|].
  repeat (case_match; try done); try (now intros [= <- _]); apply IH.
Qed.

Lemma refuses_not_allow p f reason : evaluatePermissionDecision p f <> PRefuse EAllow reason.
Proof.
  unfold evaluatePermissionDecision. destruct (scan f (po_rules p) None) as [d|o] eqn:E.
  - intros ->. now apply scan_refuses in E.
  - destruct o as [[[] ?]|]; try discriminate; case_match; discriminate.
Qed.

Lemma policy_phase h opts tp r2 cx tool vi x :
  hn_policy h = (buildToolArgumentPolicy tp r2).1 -> xo_argumentPolicy opts = hn_policy h ->
  runArgumentPolicyPhase opts cx tool vi x = None <->
  match (policy_verdict h tool vi).1 with EAllow => True | EDeny => False | _ => cx_preApproved cx = true end.
Proof.
  intros Hp Ho. unfold runArgumentPolicyPhase, policy_verdict. rewrite Ho, Hp. unfold buildToolArgumentPolicy.
  destruct tp, r2; cbn [fst mbind option_bind gd_decide]; try done;
    (destruct (evaluatePermissionDecision _ _) as [|e reason] eqn:E; cbn; [done|]; destruct e;
     [now apply refuses_not_allow in E|done|..]; now destruct (cx_preApproved cx)).
Qed.

(** What the pre-screen decides once the hook has answered. *)
Lemma combine_allows h tool hd hr vi ea vi' ea' :
  (let '(pd, pr) := policy_verdict h tool vi in combine_verdicts hd pd hr pr vi ea) = SAllow vi' ea' <->
  hd = EAllow /\ (policy_verdict h tool vi).1 = EAllow /\ vi' = vi /\ ea' = ea.
Proof.
  destruct (policy_verdict h tool vi) as [pd pr]. unfold combine_verdicts. cbn [fst].
  destruct hd, pd; cbn; naive_solver.
Qed.

Lemma combine_parks h tool hd hr vi ea mode reason ea' :
  (let '(pd, pr) := policy_verdict h tool vi in combine_verdicts hd pd hr pr vi ea) = SPark mode reason ea' ->
  (policy_verdict h tool vi).1 <> EDeny /\ ea' = ea.
Proof.
  destruct (policy_verdict h tool vi) as [pd pr]. unfold combine_verdicts. cbn [fst].
  destruct hd, pd; cbn; naive_solver.
Qed.

(** The pre-screen and the executor agree on what runs unasked. *)
Lemma screens_agree h opts tp r2 cx tool data w x vi ea :
  hn_policy h = (buildToolArgumentPolicy tp r2).1 -> xo_argumentPolicy opts = hn_policy h ->
  cx_preApproved cx = false ->
  preScreenPermission h (cx_call cx) tool data w = SAllow vi ea <->
  executor_screen opts cx tool data (tc_args (cx_call cx)) ((fun hook => hook (cx_call cx) data w) <$> hn_hook h) x = Some (vi, ea).
Proof.
  intros Hp Ho Hpre.
  assert (Hpol : forall vi0 ea0 x0, (policy_verdict h tool vi0).1 = EAllow /\ vi = vi0 /\ ea = ea0 <->
    match runArgumentPolicyPhase opts cx tool vi0 x0 with None => Some (vi0, ea0) | Some _ => None end = Some (vi, ea)).
  { intros vi0 ea0 x0. pose proof (policy_phase h opts tp r2 cx tool vi0 x0 Hp Ho) as Hph. rewrite Hpre in Hph.
    destruct (runArgumentPolicyPhase opts cx tool vi0 x0), (policy_verdict h tool vi0).1; cbn; naive_solver. }
  unfold preScreenPermission, executor_screen. cbv zeta. destruct (hn_hook h) as [hook|]; cbn [fmap option_fmap option_map].
  2: { rewrite combine_allows. cbn [next fst snd]. rewrite <- Hpol. naive_solver. }
  destruct (hook (cx_call cx) data w) as [v|]; cbn [runPermissionPhase]; [|done]. case_decide as Hd; [done|].
  rewrite Hpre.
  destruct (ph_decision v); [|done|..]; destruct (ph_updatedInput v) as [u|]; try (destruct (rt_inputSchema tool u));
    rewrite ?combine_allows; cbn; rewrite <- ?Hpol; naive_solver.
Qed.

(** C22: for a call with valid arguments, the walk and the executor put the same
    question to the permission hook and to the tool-argument policy in the same
    order: the pre-screen lets the call through, with an input and arguments,
    exactly when the executor would go on with that input and those arguments
    unasked.  A call it parks carries arguments the tool accepts, and its replay
    as pre-approved passes the executor's hook and policy phases unchanged, as
    long as the hook does not deny it or rewrite what was approved. *)
Theorem prescreen_matches_executor h opts tp r2 call cx tool data w x :
  hn_policy h = (buildToolArgumentPolicy tp r2).1 -> xo_argumentPolicy opts = hn_policy h ->
  rt_inputSchema tool (tc_args call) = Ok data -> cx_call cx = call -> cx_preApproved cx = false ->
  (forall vi ea, preScreenPermission h call tool data w = SAllow vi ea <->
     executor_screen opts cx tool data (tc_args call) ((fun hook => hook call data w) <$> hn_hook h) x = Some (vi, ea)) /\
  (forall mode reason ea, preScreenPermission h call tool data w = SPark mode reason ea ->
     exists vi, rt_inputSchema tool ea = Ok vi /\
     forall cx' answer x', cx_preApproved cx' = true -> consents ea answer ->
       executor_screen opts cx' tool vi ea answer x' = Some (vi, ea)).
Proof.
  intros Hp Ho Hok <- Hpre. split; [intros vi ea; exact (screens_agree h opts tp r2 cx tool data w x vi ea Hp Ho Hpre)|].
  intros mode reason ea Hpark.
  assert (Hvi : exists vi, rt_inputSchema tool ea = Ok vi /\ (policy_verdict h tool vi).1 <> EDeny).
  { revert Hpark. unfold preScreenPermission. cbv zeta. destruct (hn_hook h) as [hook|].
    2: { intros [? ->]%combine_parks. eauto. }
    destruct (hook (cx_call cx) data w) as [v|]; [|done]. case_decide; [done|].
    destruct (ph_updatedInput v) as [u|]; [|intros [? ->]%combine_parks; eauto].
    destruct (rt_inputSchema tool u) eqn:Eu; [|done]. intros [? ->]%combine_parks. eauto. }
  destruct Hvi as (vi & Evi & Hnd). exists vi. split; [done|]. intros cx' answer x' Hpre' Hans.
  assert (Hpol : forall x0, runArgumentPolicyPhase opts cx' tool vi x0 = None).
  { intros x0. apply (policy_phase h opts tp r2 cx' tool vi x0 Hp Ho). rewrite Hpre'. now destruct (policy_verdict h tool vi).1. }
  unfold executor_screen. cbv zeta. destruct answer as [[v|]|]; cbn in Hans; [|done|cbn; now rewrite Hpol].
  destruct Hans as [Hd Hu]. unfold runPermissionPhase. rewrite decide_False, Hpre' by done.
  destruct (ph_updatedInput v) as [u|].
  - rewrite bool_decide_eq_false_2 by (intros Hn; now apply Hn, Hu). cbn. now rewrite Hpol.
  - destruct (ph_decision v); cbn; now rewrite Hpol.
Qed.

(** ** The seed of a handoff *)

Definition announces (m : Message) : list string := match m with MAssistant _ calls _ => map tc_id calls | _ => [] end.

(** No tool message before the announcement of its call. *)
Fixpoint orphan_free (seen : list string) (ms : list Message) : bool :=
  match ms with
  | [] => true
  | m :: rest => match answered m with Some id => bool_decide (id ∈ seen) | None => true end
                 && orphan_free (seen ++ announces m) rest
  end.

(** Every announced call is answered further on. *)
Fixpoint all_answered (ms : list Message) : bool :=
  match ms with
  | [] => true
  | m :: rest => forallb (fun id => answered_in id rest) (announces m) && all_answered rest
  end.

Lemma filter_all_length {A} (f : A -> bool) l : length (List.filter f l) = length l -> List.filter f l = l.
Proof.
  induction l as [|x l IH]; [done|]. cbn. destruct (f x); cbn.
  - intros [= E]. now rewrite IH.
  - intros E. pose proof (filter_length_le f l). lia.
Qed.

(** What is made of an assistant message, its three cases in one. *)
Lemma keep_assistant R K content calls agentId rest :
  let kept := List.filter (fun c => bool_decide (tc_id c ∈ R)) calls in
  keep_resolved R K (MAssistant content calls agentId :: rest) = keep_resolved R (K ++ map tc_id kept) rest /\ kept = [] \/
  keep_resolved R K (MAssistant content calls agentId :: rest) =
    MAssistant content kept agentId :: keep_resolved R (K ++ map tc_id kept) rest.
Proof.
  cbv zeta. cbn [keep_resolved]. set (kept := List.filter _ calls). case_bool_decide as E.
  - right. unfold kept. now rewrite (filter_all_length _ _ E).
  - destruct (_ && _) eqn:Ed; [left|now right]. apply andb_true_iff in Ed as [Ek _]. apply bool_decide_eq_true in Ek.
    split; [done|]. now destruct kept.
Qed.

Lemma kept_orphan_free R K seen ms : K ⊆ seen -> orphan_free seen (keep_resolved R K ms) = true.
Proof.
  revert K seen. induction ms as [|[content calls agentId|id t|role content] rest IH]; intros K seen Hs; [done|..].
  - destruct (keep_assistant R K content calls agentId rest) as [[-> ->]| ->]; [apply IH; cbn; rewrite app_nil_r; done|].
    cbn. apply IH. set_solver.
  - cbn. case_bool_decide; [|auto]. cbn. rewrite bool_decide_eq_true_2 by set_solver. cbn. apply IH. set_solver.
  - cbn. apply IH. set_solver.
Qed.

Lemma answered_tool id i t ms : answered_in id (MTool i t :: ms) = bool_decide (i = id) || answered_in id ms.
Proof. done. Qed.

Lemma kept_answer R K ms id : id ∈ K -> answered_in id ms = true -> answered_in id (keep_resolved R K ms) = true.
Proof.
  revert K. induction ms as [|[content calls agentId|i t|role content] rest IH]; intros K Hk Ha; [done|..].
  - destruct (keep_assistant R K content calls agentId rest) as [[-> _]| ->]; cbn in *; apply IH; set_solver.
  - rewrite answered_tool in Ha. cbn. destruct (decide (i = id)) as [->|Hn].
    + rewrite (bool_decide_eq_true_2 (id ∈ K)), answered_tool, bool_decide_eq_true_2 by done. done.
    + rewrite bool_decide_eq_false_2 in Ha by done.
      case_bool_decide; rewrite ?answered_tool, ?(bool_decide_eq_false_2 (i = id)) by done; now apply IH.
  - now apply IH.
Qed.

Lemma resolved_answered ann ms id : id ∈ resolved_calls ann ms -> answered_in id ms = true.
Proof.
  revert ann. induction ms as [|[content calls agentId|i t|role content] rest IH]; intros ann; cbn; [set_solver|apply IH| |apply IH].
  rewrite answered_tool. case_bool_decide; [intros [->|H']%elem_of_cons; [now rewrite bool_decide_eq_true_2|]|intros H'];
    rewrite (IH _ H'); now rewrite orb_true_r.
Qed.

Lemma resolved_again ann ms id : id ∉ ann -> id ∈ resolved_calls ann ms -> id ∈ resolved_calls [] ms.
Proof.
  enough (Hg : forall ann', id ∉ ann -> id ∈ resolved_calls (ann ++ ann') ms -> id ∈ resolved_calls ann' ms).
  { intros Hn Hr. apply Hg; [done|]. now rewrite app_nil_r. }
  induction ms as [|[content calls agentId|i t|role content] rest IH]; intros ann' Hn; cbn; [done|..].
  - rewrite <- (assoc_L (++)). now apply IH.
  - repeat case_bool_decide; rewrite ?elem_of_cons; set_solver.
  - now apply IH.
Qed.

Lemma answered_resolved ann ms id :
  all_answered ms = true -> id ∈ flat_map announces ms -> id ∈ resolved_calls ann ms.
Proof.
  assert (Hn : forall ann ms, id ∈ ann -> answered_in id ms = true -> id ∈ resolved_calls ann ms).
  { clear. intros ann ms. revert ann. induction ms as [|[content calls agentId|i t|role content] rest IH]; intros ann Ha; cbn; [done|..].
    - apply IH. set_solver.
    - destruct (decide (i = id)) as [->|Hne]; [rewrite bool_decide_eq_true_2 by done; left|].
      rewrite answered_tool, bool_decide_eq_false_2 by done. intros H. case_bool_decide; [right|]; now apply IH.
    - now apply IH. }
  revert ann. induction ms as [|m rest IH]; intros ann; cbn [all_answered flat_map]; [set_solver|].
  intros [Hm Hr]%andb_true_iff [Hi|Hi]%elem_of_app.
  - destruct m; cbn in Hi; [|set_solver..]. cbn. apply Hn; [set_solver|]. rewrite forallb_forall in Hm. now apply Hm, list_elem_of_In.
  - destruct m; cbn; [now apply IH| |now apply IH]. case_bool_decide; [right|]; now apply IH.
Qed.

Lemma kept_all_answered R K ms :
  NoDup (flat_map announces ms) -> (forall id, id ∈ flat_map announces ms -> id ∈ R -> id ∈ resolved_calls [] ms) ->
  all_answered (keep_resolved R K ms) = true.
Proof.
  revert K. induction ms as [|m rest IH]; intros K Hnd HR; [done|].
  cbn [flat_map] in Hnd, HR. apply NoDup_app in Hnd as (_ & Hd & Hnd). destruct m as [content calls agentId|id t|role content].
  - assert (Hrest : forall K', all_answered (keep_resolved R K' rest) = true).
    { intros K'. apply IH; [done|]. intros id Hi Hr. apply (resolved_again (map tc_id calls)); [set_solver|]. apply HR; [set_solver|done]. }
    destruct (keep_assistant R K content calls agentId rest) as [[-> _]| ->]; [apply Hrest|]. cbn [all_answered announces].
    rewrite Hrest, andb_true_r. apply forallb_forall. intros id Hin. apply kept_answer; [apply elem_of_app; right; now apply list_elem_of_In|].
    apply in_map_iff in Hin as (c & <- & Hc). apply filter_In in Hc as [Hc Hr]. apply bool_decide_eq_true in Hr.
    apply (resolved_answered (map tc_id calls)). apply HR; [|done]. apply elem_of_app; left. cbn. apply list_elem_of_In, in_map, Hc.
  - cbn. assert (Hrest : all_answered (keep_resolved R K rest) = true) by (apply IH; [done|]; intros; now apply HR).
    case_bool_decide; cbn; done.
  - cbn. apply IH; [done|]. intros; now apply HR.
Qed.

(** No exchange that was complete is lost. *)
Lemma kept_resolved R K ann ms :
  K ⊆ ann -> (forall id, id ∈ ann -> id ∈ R -> id ∈ K) -> resolved_calls ann ms ⊆ R ->
  resolved_calls K (keep_resolved R K ms) = resolved_calls ann ms.
Proof.
  revert K ann. induction ms as [|m rest IH]; intros K ann H1 H2 H3; [done|]. destruct m as [content calls agentId|id t|role content].
  - set (kept := List.filter (fun c => bool_decide (tc_id c ∈ R)) calls).
    assert (E : resolved_calls (K ++ map tc_id kept) (keep_resolved R (K ++ map tc_id kept) rest) = resolved_calls (ann ++ map tc_id calls) rest).
    { apply IH; [| |done].
      - intros i [Hi|Hi]%elem_of_app; apply elem_of_app; [left; now apply H1|right]. apply list_elem_of_fmap in Hi as (c & -> & Hc).
        apply list_elem_of_fmap. exists c. split; [done|]. apply list_elem_of_In, filter_In in Hc as [Hc _]. now apply list_elem_of_In.
      - intros i [Hi|Hi]%elem_of_app Hr; apply elem_of_app; [left; now apply H2|right]. apply list_elem_of_fmap in Hi as (c & -> & Hc).
        apply list_elem_of_fmap. exists c. split; [done|]. apply list_elem_of_In, filter_In. split; [now apply list_elem_of_In|]. now apply bool_decide_eq_true_2. }
    destruct (keep_assistant R K content calls agentId rest) as [[-> Ek]| ->]; fold kept; [|exact E].
    fold kept in Ek. rewrite Ek in E. cbn in E. rewrite app_nil_r in E. fold kept. rewrite Ek. cbn. now rewrite app_nil_r.
  - cbn in H3 |- *. destruct (decide (id ∈ ann)) as [Ha|Ha].
    + rewrite (bool_decide_eq_true_2 (id ∈ ann)) in H3 |- * by done. rewrite (bool_decide_eq_true_2 (id ∈ K)) by (apply H2; [done|]; apply H3; left).
      cbn. rewrite (bool_decide_eq_true_2 (id ∈ K)) by (apply H2; [done|]; apply H3; left). f_equal. apply IH; [done..|]. set_solver.
    + rewrite (bool_decide_eq_false_2 (id ∈ ann)) in H3 |- * by done. rewrite bool_decide_eq_false_2 by (intros Hk; now apply Ha, H1). now apply IH.
  - cbn in *. now apply IH.
Qed.

Lemma kept_whole R K ms : orphan_free K ms = true -> flat_map announces ms ⊆ R -> keep_resolved R K ms = ms.
Proof.
  revert K. induction ms as [|m rest IH]; intros K; [done|]. cbn [orphan_free flat_map]. intros [Hm Ho]%andb_true_iff Hs.
  destruct m as [content calls agentId|id t|role content]; cbn.
  - assert (Ek : List.filter (fun c => bool_decide (tc_id c ∈ R)) calls = calls).
    { apply forallb_filter_id, forallb_forall. intros c Hc. apply bool_decide_eq_true_2, Hs, elem_of_app; left. apply list_elem_of_In, in_map, Hc. }
    rewrite Ek, bool_decide_eq_true_2 by done. f_equal. apply IH; [exact Ho|]. set_solver.
  - cbn in Hm. rewrite Hm. f_equal. apply IH; [|set_solver]. cbn in Ho. now rewrite app_nil_r in Ho.
  - f_equal. apply IH; [|set_solver]. cbn in Ho. now rewrite app_nil_r in Ho.
Qed.

(** C23: for a transcript in which no call id is announced twice, the seed a
    handoff hands to its target is one a provider accepts: every tool message
    follows the announcement of its call and every announced call is answered
    further on.  The completed exchanges are those of the transcript, in their
    order, and a transcript that is already well formed is handed over as it
    is. *)
Theorem handoff_seed_well_formed ms :
  NoDup (flat_map announces ms) ->
  orphan_free [] (sanitizeHandoffSeed ms) = true /\ all_answered (sanitizeHandoffSeed ms) = true /\
  resolved_calls [] (sanitizeHandoffSeed ms) = resolved_calls [] ms /\
  (orphan_free [] ms = true -> all_answered ms = true -> sanitizeHandoffSeed ms = ms).
Proof.
  intros Hnd. unfold sanitizeHandoffSeed. split; [now apply kept_orphan_free|].
  split; [now apply kept_all_answered|]. split; [apply kept_resolved; set_solver|].
  intros Ho Ha. apply kept_whole; [done|]. intros id Hi. now apply answered_resolved.
Qed.

(** ** Examples *)

Definition read_tool : ResolvedTool :=
  mkTool "read" any_schema None NeverAsked false None FirstPartyUserDefined SrcFirstParty ReadOnly false.

Definition demo_policy : option ToolArgumentPolicyGuard :=
  (buildToolArgumentPolicy (Some (mkPolicy [mkRule RAsk "read" None None] None)) None).1.

(** Two tools and a handoff; the executor answers every call. *)
Definition demo_harness (policy : option ToolArgumentPolicyGuard) : Harness :=
  mkHarness
    (fun n => if bool_decide (n = "send_mail") then Some mail_tool else if bool_decide (n = "read") then Some read_tool else None)
    (fun n => if bool_decide (n = "transfer_to_b") then Some ("agent-b", "b") else None) (fun _ => None) policy None
    (fun _ _ _ => Ok false)
    (fun calls _ w => (map (fun c => mkCompleted c (OResult (mkToolResult (VStr "done") None)) 1) calls, wk_guard w))
    (fun _ _ => mkChild None "hello" None) (fun _ _ _ => mkChild None "hello" None) (fun _ => false) true.

Definition walk_of (s : RunState) : Walk := mkWalk (rs_messages s) s [] [] [] [].

Definition call_read : ToolCall := mkCall "c0" "read" (VStr "a").
Definition call_mail : ToolCall := mkCall "c1" "send_mail" (VStr "b").
Definition call_hand : ToolCall := mkCall "c2" "transfer_to_b" VNull.
Definition demo_calls : list ToolCall := [call_read; call_mail; call_hand].

Definition started : RunState :=
  mkRun "r1" StRunning None [mkStep 1 []] [MAssistant (inl "on it") demo_calls "a"] [] [] None [].

Definition demo_step : result string (Walk * WalkEnd) :=
  processStepToolCalls plain_unicode no_pii_text None (demo_harness None) 1 demo_calls (walk_of started).

Definition after_step : Walk := match demo_step with Ok (w, _) => w | Err _ => walk_of started end.
Definition grant_mail : list ResumeDecision := [mkDecision "c1" None true None].
Definition after_resume : Walk :=
  match resume_run (demo_harness None) (Some grant_mail) after_step with Ok (w, _) => w | Err _ => after_step end.

Lemma demo_answers policy : executor_answers (demo_harness policy).
Proof. intros calls pre w _. cbn. rewrite map_map. now apply map_ext. Qed.

Lemma demo_untold c : c ∈ demo_calls -> tally (walk_of started) (tc_id c) = untold.
Proof. unfold demo_calls. intros [->|[->|[->|H]%elem_of_cons]%elem_of_cons]%elem_of_cons; [vm_compute; reflexivity..|]. now apply not_elem_of_nil in H. Qed.

Lemma demo_ids : NoDup (map tc_id demo_calls).
Proof. apply (bool_decide_unpack (NoDup (map tc_id demo_calls))). vm_compute. exact I. Qed.

Lemma step_calls_accounted_witness :
  demo_step = Ok (after_step, Suspended false) /\ rs_status (wk_state after_step) = StAwaitingApproval.
Proof.
  split; [vm_compute; reflexivity|].
  refine (proj1 (proj1 (proj2 (proj2 (proj2 (step_calls_accounted plain_unicode no_pii_text None (demo_harness None) 1 demo_calls
    (walk_of started) after_step (Suspended false) (demo_answers None) demo_ids demo_untold _)))) _)); [vm_compute; reflexivity|discriminate].
Defined.

Lemma suspended_step_settles_witness :
  answered_in "c1" (wk_buffer after_resume) = true /\ map fst (wk_batches after_resume) = [[call_read]; [call_mail]].
Proof.
  split; [|vm_compute; reflexivity].
  refine (proj1 (proj1 (proj1 (suspended_step_settles plain_unicode no_pii_text None (demo_harness None) 1 demo_calls (walk_of started)
    after_step false grant_mail (demo_answers None) demo_ids demo_untold eq_refl _ _) after_resume Rejoins _) call_mail _ _)).
  - vm_compute; reflexivity.
  - intros a Ha. assert (E : rs_pendingApprovals (wk_state after_step) = [mkApproval "c1" "send_mail" (VStr "b") None None None]) by (vm_compute; reflexivity).
    rewrite E in Ha. apply list_elem_of_singleton in Ha as ->. vm_compute; reflexivity.
  - vm_compute; reflexivity.
  - right; left.
  - vm_compute; reflexivity.
Defined.

(** Granted, repeated, and then denied. *)
Definition directives : list (list ResumeDecision) := [[]; grant_mail; grant_mail; [mkDecision "c1" None false None]].

Lemma resumes_execute_once_witness :
  exists w', resumes (demo_harness None) directives after_step = Ok w' /\
  exists bs, wk_batches w' = wk_batches after_step ++ bs /\ NoDup (map tc_id (concat (map fst bs))).
Proof.
  eexists. split; [vm_compute; reflexivity|].
  edestruct (resumes_execute_once (demo_harness None) directives after_step) as (bs & H1 & _ & H2 & _).
  - apply demo_answers.
  - apply (bool_decide_unpack (NoDup (own_ids (rs_pendingApprovals (wk_state after_step))))). vm_compute. exact I.
  - vm_compute. discriminate.
  - vm_compute. reflexivity.
  - exists bs. split; [exact H1|exact H2].
Defined.

Lemma crash_retries_same_calls_witness :
  map ap_toolCallId (re_granted (processResumeDirective grant_mail after_step)) = ["c1"] /\
  exists s s', wk_saved (dispatchResumedApprovals (demo_harness None) (re_granted (processResumeDirective grant_mail after_step))
      (re_walk (processResumeDirective grant_mail after_step))) =
    wk_saved after_step ++ [mkSaved "agent.resume.intent" s [([call_read], false)];
                            mkSaved "agent.resume.dispatched" s' [([call_read], false); ([call_mail], true)]].
Proof.
  split; [vm_compute; reflexivity|].
  edestruct (crash_retries_same_calls (demo_harness None) grant_mail after_step) as (s & s' & E & _).
  - apply (bool_decide_unpack (NoDup (own_ids (rs_pendingApprovals (wk_state after_step))))). vm_compute. exact I.
  - reflexivity.
  - exists s, s'. exact E.
Defined.

Definition asked_exec : ExecutorOptions := mkExecutorOptions (hn_registry (demo_harness None)) None demo_policy false false true None None None.

Lemma prescreen_matches_executor_witness :
  exists reason, preScreenPermission (demo_harness demo_policy) call_read read_tool (VStr "a") (walk_of started)
    = SPark EAsk reason (VStr "a") /\
  executor_screen asked_exec (mkCtx call_read "r1" 1 true true false) read_tool (VStr "a") (VStr "a") None empty_x
    = Some (VStr "a", VStr "a").
Proof.
  eexists. split; [vm_compute; reflexivity|].
  edestruct (prescreen_matches_executor (demo_harness demo_policy) asked_exec (Some (mkPolicy [mkRule RAsk "read" None None] None)) None
    call_read (mkCtx call_read "r1" 1 false false false) read_tool (VStr "a") (walk_of started) empty_x
    eq_refl eq_refl eq_refl eq_refl eq_refl) as [_ H].
  edestruct H as (vi & E & R); [vm_compute; reflexivity|]. injection E as <-. apply R; [reflexivity|exact I].
Defined.

(** A transcript with an answered call, a dangling one and an orphan. *)
Definition messy : list Message :=
  [MOther "user" "hi"; MTool "c9" "stray"; MAssistant (inl "") [call_read; call_mail] "a"; MTool "c0" "done"; MAssistant (inl "") [call_hand] "a"].

Lemma handoff_seed_well_formed_witness :
  sanitizeHandoffSeed messy = [MOther "user" "hi"; MAssistant (inl "") [call_read] "a"; MTool "c0" "done"] /\
  all_answered (sanitizeHandoffSeed messy) = true.
Proof.
  split; [vm_compute; reflexivity|]. refine (proj1 (proj2 (handoff_seed_well_formed messy _))).
  apply (bool_decide_unpack (NoDup (flat_map announces messy))). vm_compute. exact I.
Defined.

(** A run that failed at an abort keeps its approvals; a directive that decides
    them makes it run again. *)
Example failed_run_revived :
  exists w', resume_run (demo_harness None) (Some grant_mail)
    (walk_of (with_status StFailed (Some "aborted with pending approvals") (wk_state after_step))) = Ok (w', Rejoins) /\
  wk_batches w' = [([call_mail], true)] /\ rs_status (wk_state w') = StRunning.
Proof. eexists. split; [vm_compute; reflexivity|]. split; vm_compute; reflexivity. Qed.

(** A directive for an own approval and for one of a parked child: the intent
    checkpoint keeps the first only, and a resume from it enters the provider
    loop with the parked call unanswered. *)
Definition two_waits : RunState :=
  set_pending [mkApproval "c1" "send_mail" (VStr "b") None None None;
               mkApproval "k1" "send_mail" (VStr "z") None None (Some "c2")]
    (set_subRuns [mkParked "c2" "transfer_to_b" "b" demo_run] (with_status StAwaitingApproval None started)).

Definition both_decisions : list ResumeDecision := grant_mail ++ [mkDecision "k1" (Some "c2") true None].

Example routed_decision_lost :
  let r := processResumeDirective both_decisions (walk_of two_waits) in
  let s := intent_state (re_granted r) (wk_state (re_walk r)) in
  map fst (re_routed r) = ["c2"] /\ re_routed (processResumeDirective both_decisions (walk_of s)) = [] /\
  exists w', resume_run (demo_harness None) (Some both_decisions) (walk_of s) = Ok (w', Rejoins) /\
    answered_in "c2" (wk_buffer w') = false.
Proof. vm_compute. split; [reflexivity|]. split; [reflexivity|]. eexists. split; reflexivity. Qed.

(** An abort with a parked child answers the child's call in the transcript of
    its parent and leaves the parked call unanswered. *)
Example abort_orphans_child :
  let s := set_pending [mkApproval "k1" "send_mail" (VStr "z") None None (Some "c2")] two_waits in
  let '(_, messages, s', _) := emitCancellation None (rs_messages s) s in
  orphan_free [] messages = false /\ answered_in "c2" messages = false /\ length (rs_pendingSubRuns s') = 1.
Proof. vm_compute. split; [reflexivity|]. split; reflexivity. Qed.

(** A child that parked and is resumed leaves the data-flow guard as it was,
    whatever taint it carries, where one that completes at once is recorded. *)
Lemma resumed_child_taint_dropped h n w e w' : resume_parked h n w e = Ok w' -> wk_guard w' = wk_guard w.
Proof.
  assert (Hm : forall key l w0, wk_guard (mirror_all key l w0) = wk_guard w0).
  { intros key l. induction l as [|a l IH]; intros w0; [done|]. unfold mirror_all in *. cbn [foldl]. now rewrite IH. }
  unfold resume_parked. destruct e as [key ds]. destruct (find_parked key (wk_state w)) as [p|]; [|discriminate].
  destruct (hn_isHandoff h (pk_toolName p)), (hn_registry h (pk_toolName p) ≫= (fun _ => hn_isSubAgent h (pk_toolName p)));
    try discriminate; cbv zeta; destruct (ch_result _) as [[[[] cs] err]|]; intros [= <-]; try reflexivity;
    cbn [on_state wk_guard]; now rewrite Hm.
Qed.
